(* ===== verification/_CoqProject ===== *)
-Q . S2P
Prelude.v
OrdMap.v
StorageTypes.v
WalCodec.v
Memtable.v
KeyMerge.v
Paging.v
Crypto.v
WalSegment.v
GroupCommit.v
HotTier.v
Bloom.v
SstCodec.v
SstWriter.v
SstReader.v
Merge.v
Compaction.v
EngineReads.v
WalCrash.v
EngineFiles.v
DurableMap.v
Engine.v
EngineRefines.v
OrdSet.v
RealmRows.v
RbacTypes.v
RbacResolve.v
RbacGroups.v
RbacRoles.v
RbacFull.v
RbacScopes.v
RbacCache.v
RbacRegistry.v
RbacKeys.v
RbacStore.v
RbacEngine.v
RbacSeed.v
RbacRows.v
RbacIntegrity.v
RbacCycles.v
RbacPreserve.v
RbacPreserve2.v
RbacSound.v
RbacInstances.v
RbacProps.v
RbacScenarios.v
KeyEnvelope.v
AuditTypes.v
AuditKeys.v
AuditEngine.v
AuditRows.v
AuditSound.v
AuditRun.v
AuditTamper.v
AuditPrune.v
AuditInstances.v
AuditScenarios.v
IpAddr.v
IpRange.v
AddressPolicy.v
Limiter.v
AbuseShaper.v
AbuseDetector.v
AbuseChallenge.v
RaftState.v
RaftReplay.v
RaftLog.v
RaftInstall.v
RaftCluster.v
RaftScenarios.v
SingleUse.v
SingleUseRuns.v
SingleUseSafe.v
SingleUseProps.v
SingleUseCluster.v
SingleUseScenarios.v
Cleanup.v
CleanupProps.v
CleanupExpired.v
CleanupScenarios.v
