(* ===== verification/Prelude.v ===== *)
(** * Hearth: a verification of its core engines

Hearth is an identity server: a multi-tenant store for users, sessions and roles,
with OAuth/OIDC, SCIM and web front ends over it, run on one node or as a Raft cluster.
This library models the parts on which every other part relies, and proves them against
abstract specifications:

- the embedded storage engine of [src/src/storage]: a write-ahead log, a memtable,
  sorted files on disk, a cache and a compactor;
- the replicated state machine of [src/src/cluster], which applies a committed log to
  the storage engine of each node;
- the role-based access control of [src/src/rbac]: what a user may do, computed from
  stored roles, groups, assignments and grants, and narrowed by token scopes;
- the audit log of [src/src/audit]: a hash chain with a signed head, on storage rows;
- of the identity engine in [src/src/identity], the single-use claims, guess budgets and
  grant-family revocations, which spend artifacts across a cluster, the sweeps that
  reclaim expired rows, and the key envelope;
- the address policies, rate limiters and abuse detectors of [src/src/core],
  [src/src/abuse] and [src/src/webhook].

The components above storage speak of the rows of a realm ([RealmRows]), the map that
the storage engine is shown to be.

** How the model is written

Rust functions are Gallina functions under their own names. A computation that can
fail returns [outcome E A]: a value, an error, or a panic, so that "never panics" is
a theorem. Bytes are [byte], integers are [Z] with the wrap-around or truncation of
their width written out, maps are [gmap] (or an association list where the order or
the layout matters), and indexing is [index_at]/[index_range], which panic out of
range as Rust does. Loops are structural where the source loop is; otherwise they
take fuel, and a theorem shows the fuel given is enough. Concurrency is a step
relation or an interleaving of atomic steps, one per lock section, atomic access or
storage call; faults of a storage call are choices of the step.
Code outside the repository is a parameter with its documented laws as a class:
AEAD ciphers, CRC-32, HMAC, UUID text, JSON and postcard codecs, SHA-256, IP networks,
host resolution, the committed log of Raft and the iteration order of hash maps.

** Storage ([src/src/storage])

- [StorageTypes] (mod.rs, error.rs): composite keys, values, prefix bounds, errors.
- [WalCodec], [WalSegment], [GroupCommit], [WalCrash] (wal.rs): the record codec; a
  segment file with its open, migration, replay, append, rotation and fencing; the
  leader/follower group commit as a step relation; what a crash may leave of a file.
- [Memtable], [OrdMap] (memtable.rs): writers, flush, parking and reabsorption over an
  ordered map; [KeyMerge], [Paging] (key_merge.rs, paging.rs): the k-way merge of
  sorted sources and cursor paging.
- [Crypto] (encryption.rs): envelope encryption over abstract AEAD; [Bloom],
  [SstCodec], [SstWriter], [SstReader] (sst.rs): file formats 1 to 4.
- [HotTier] (tiered.rs): the sharded read cache with its invalidation epochs.
- [Merge], [Compaction], [EngineReads], [EngineFiles], [Engine] (engine.rs, sst.rs):
  the heap merge, compaction planning, the read path, the directory's life, and the
  engine as a transition system over writers, flushes, compactions, crashes and
  reopenings. [DurableMap] is the specification, [EngineRefines] the simulation.

Theorems: the engine's traces are traces of a durable map in which acknowledged
writes survive crashes; reads see exactly the newest write of every layer; compaction
writes the merge of its inputs and is crash-safe at each step of its commit; decoders
accept exactly the encodings and readers never panic, whatever the bytes; recovery
yields the intact prefix of a log; the group commit acknowledges only durable writes
and strands nobody; the cache is coherent and bounded. Where the code falls short of
its documentation the failing execution is itself a theorem.

** Cluster ([src/src/cluster])

- [RaftState] (state_machine.rs, types.rs): every command, the increment sidecars, the
  persisted applied state, snapshot build and in-place install, each storage call free
  to fail with or without its effect.
- [RaftReplay], [RaftLog], [RaftInstall]: an entry as a function on one key's row and
  sidecar, that a stretch of the log applied twice is applied once, and what a node's
  rows promise of the committed log.
- [RaftCluster]: nodes that apply, crash, restart, build and install in any order;
  [RaftScenarios] runs a joining node.

Theorems: a node that applies the rest of the log holds exactly the rows the log
describes, whatever snapshots it joined from; a restart refuses a torn restore or
resumes at the durable entry. A scan that reads a counter and its sidecar at different
moments breaks this, and that run is a theorem.

** Authorization ([src/src/rbac])

- [OrdSet], [RbacTypes] (types.rs, error.rs): entities, and the grammars of names.
- [RbacResolve] with [RbacGroups], [RbacRoles], [RbacFull] (resolve.rs): the walk over
  nested groups, role expansion, full resolution, each equal to a graph
  specification; [RbacScopes]: scope narrowing, consent and the token caps.
- [RbacCache] (resolution_cache.rs): the decision cache as interleaved steps.
- [RbacRegistry] (registry.rs): validation of a declared registry.
- [RbacKeys], [RbacStore], [RbacEngine], [RbacSeed] (keys.rs, engine.rs, seed.rs): the
  rows of one realm, the [Resolver] over them, the engine's operations with their
  effects, seeding, reconciliation, export and import.
- [RbacRows], [RbacIntegrity], [RbacCycles], [RbacPreserve], [RbacPreserve2],
  [RbacSound], [RbacProps]: the invariant of a realm's rows, a triple per operation,
  and what resolution then answers; [RbacInstances], [RbacScenarios]: concrete realms.

Theorems: resolution equals its graph specification and ends; scopes never escalate; a
cached decision is fresh; every sequence of operations, failed ones included, keeps the
rows sound, so that resolution meets no broken row.

** Audit log ([src/src/audit])

- [AuditTypes], [AuditKeys], [AuditEngine] (types.rs, keys.rs, engine.rs): events, keys,
  appends, imports, prunes, queries and verification; [AuditPrune]
  (identity/audit_prune.rs): retention.
- [AuditRows], [AuditSound], [AuditRun], [AuditTamper]: the chain in the rows, runs of
  the engine and what verification detects; [AuditInstances], [AuditScenarios].

Theorems: what the engine writes verifies; a log that verifies under a signed head is
the log that was signed, or two inputs collide; pruning removes exactly the older events.

** Identity ([src/src/identity])

- [SingleUse] (engine/single_use.rs, mfa_single_use.rs, grant_family_revocation.rs,
  keys.rs, cleanup.rs): claims, guess budgets, takes, revocations and the sweep walk, as
  programs over storage calls.
- [SingleUseRuns]: such programs of any nodes interleaved call by call over the
  replicated log, with stale reads, scans that are not atomic, and failed or unknown
  writes; [SingleUseSafe], [SingleUseProps]: the invariant of runs and the theorems;
  [SingleUseCluster]: the answers of runs are those of the state machine;
  [SingleUseScenarios]: concrete runs.
- [Cleanup] (cleanup.rs): every sweep and the pass over a realm; [CleanupProps],
  [CleanupExpired], [CleanupScenarios]: what a sweep and a pass delete.
- [KeyEnvelope] (key_encryption.rs): key material at rest.

Theorems: an artifact is redeemed once until a sweep's clock is a minute past its
expiry; a guess budget holds over all nodes; a revocation stays; the chunked sweep is
one pass; a cleanup pass ends and leaves exactly the unexpired dated rows, whatever rows
make other sweeps fail.

** Network policies and limiters ([src/src/core], [src/src/abuse], [src/src/webhook])

- [IpAddr], [IpRange], [AddressPolicy] (ip_range.rs, trusted_proxy.rs, cidr.rs, ssrf.rs):
  address texts, ranges, trusted proxies, allow and deny lists, webhook destinations.
- [Limiter], [AbuseShaper], [AbuseDetector], [AbuseChallenge] (limiter.rs, shaper.rs,
  detector.rs, challenge.rs, backoff.rs): the bounded expiring map and what is kept in it.

Theorems: address texts round-trip; a policy decides by exactly the ranges it was given;
the bounded map is transparent to a limiter; what a limit, a distinct count, a challenge
and a lockout mean for a client.

** Bounds and fuel

[bfs_fuel] is the breadth cap plus two: the walk dequeues the user and each visited
group once. [role_fuel] is the depth cap plus two, since depth 11 is refused.
[dfs_fuel] is the same for the registry's check. [group_cycle_fuel] is two more than the
number of rows. Merge and replay loops take the number of remaining bytes or entries,
each turn consuming at least one; prunes and imports of the audit log likewise take the
rows or chunks left. A sweep takes one unit per turn of its loop: more than the rows of
its window is enough, and the safety theorems of [SingleUseProps] hold for any fuel.

** Assumptions of the theorems

Files hold records whose lengths fit their length fields ([record_fits]) and file
numbers stay below 2^64; random draws have the size asked for; the log syncs each
write ([EveryWrite]), the default. The refinement theorem excludes I/O errors while
the reader list is rebuilt and failed unlinks, which have theorems of their own.
The cluster's theorems take the committed log of openraft as given ([log_ok]: one entry
per index, ids ascending, the first not a command, conditional puts on counted keys of
eight bytes), storage batches as atomic, and a key as scanned with its sidecar. The runs
of [SingleUseRuns] take it that no other code writes under [consumed:] or
[oauth:family-revoked:].

** Not modelled

Statistics, tracing and background scheduling; the block cache and memory mapping
(transparent to reads); the periodic-sync timer; the KEK registry file; unsafe memory
reclamation cells. Of the system: Raft itself (the openraft crate), the cluster's
transport, log store and request forwarding; the rest of the identity engine (users,
credentials, sessions, tokens and the OAuth, SAML and MFA flows that call the modelled
parts); configuration, webhook delivery, backup archives and the HTTP, gRPC, SCIM and web
layers, which parse, render and call. *)
From stdpp Require Import base list gmap strings pretty numbers sorting lexico.
From Stdlib Require Import Strings.Byte ZArith Lia.

Open Scope Z_scope.

Declare Scope hearth_scope.
Delimit Scope hearth_scope with hearth.

(** ** Bytes

Rust's [u8] is the Standard Library's [byte]: a value is in range by
construction, so no operation carries a range hypothesis. *)

Abbreviation byte := Corelib.Init.Byte.byte.

#[export] Instance byte_eq_decision : EqDecision byte := Byte.byte_eq_dec.

#[export] Instance byte_countable : Countable byte :=
  inj_countable Byte.to_N Byte.of_N Byte.of_to_N.

(** The value of a byte, and the byte a [u8] truncation keeps. *)
Definition byte_val (b : byte) : Z := Z.of_N (Byte.to_N b).
Definition byte_of (z : Z) : byte := default x00 (Byte.of_N (Z.to_N (z mod 256))).

(** Byte strings ([Vec<u8>], [&[u8]]) compare lexicographically, as Rust's
[Ord] on slices does. *)
#[export] Instance byte_lexico : Lexico byte := λ a b, byte_val a < byte_val b.

(** ** Fixed-width little-endian integers *)

(** [to_le n z]: the [n] bytes [z.to_le_bytes()] of an [8n]-bit integer; an
out-of-range [z] is truncated, as an [as] cast truncates it. *)
Definition to_le (n : nat) (z : Z) : list byte :=
  byte_of <$> Z_to_little_endian (Z.of_nat n) 8 z.

(** [from_le bs]: the unsigned integer [from_le_bytes] reads. *)
Definition from_le (bs : list byte) : Z := little_endian_to_Z 8 (byte_val <$> bs).

(** Two's complement reading of a [w]-bit unsigned value. *)
Definition to_signed (w z : Z) : Z := if z <? 2 ^ (w - 1) then z else z - 2 ^ w.

Definition u32_max : Z := 2 ^ 32 - 1.
Definition u64_max : Z := 2 ^ 64 - 1.

(** [saturating_add] on [u64]. *)
Definition sat_add_u64 (a b : Z) : Z := Z.min (a + b) u64_max.

(** ** Outcomes

A Rust computation returns a value, returns an error, or panics. Panics are a
constructor of their own, so that the absence of a panic is a theorem. *)

Inductive outcome (E A : Type) : Type :=
| Ok (a : A)
| Err (e : E)
| Panic.
Arguments Ok {E A} a.
Arguments Err {E A} e.
Arguments Panic {E A}.

#[export] Instance outcome_ret {E} : MRet (outcome E) := λ A a, Ok a.
#[export] Instance outcome_bind {E} : MBind (outcome E) := λ A B f m,
  match m with Ok a => f a | Err e => Err e | Panic => Panic end.
#[export] Instance outcome_fmap {E} : FMap (outcome E) := λ A B f m,
  match m with Ok a => Ok (f a) | Err e => Err e | Panic => Panic end.

(** [ok_or_else]. *)
Definition ok_or {E A} (e : E) (o : option A) : outcome E A :=
  match o with Some a => Ok a | None => Err e end.

(** A value is produced or an error is returned; the process does not panic. *)
Definition no_panic {E A} (m : outcome E A) : Prop :=
  match m with Panic => False | _ => True end.

(** ** Lengths and slices

Lengths and positions are [usize] values; they are kept in [Z] so that a
32-bit length field read from a file is never expanded to a unary number. *)

Definition zlen {A} (l : list A) : Z := Z.of_nat (length l).

(** [l.get(a..b)]. *)
Definition slice {A} (a b : Z) (l : list A) : option (list A) :=
  if (0 <=? a) && (a <=? b) && (b <=? zlen l)
  then Some (take (Z.to_nat (b - a)) (drop (Z.to_nat a) l))
  else None.

(** [l.get(i)]. *)
Definition at_ {A} (i : Z) (l : list A) : option A :=
  if 0 <=? i then l !! Z.to_nat i else None.

(** [l[a..b]] and [l[i]], which panic out of range. *)
Definition index_range {E A} (a b : Z) (l : list A) : outcome E (list A) :=
  match slice a b l with Some s => Ok s | None => Panic end.
Definition index_at {E A} (i : Z) (l : list A) : outcome E A :=
  match at_ i l with Some s => Ok s | None => Panic end.

(** [<[u8; n]>::try_from(bytes)]. *)
Definition try_into {E A} (n : Z) (e : E) (l : list A) : outcome E (list A) :=
  if zlen l =? n then Ok l else Err e.

(** Decimal rendering of an integer in a message. *)
Definition show (z : Z) : string := pretty z.

#[global] Arguments to_le : simpl never.
#[global] Arguments from_le : simpl never.
#[global] Arguments byte_of : simpl never.
#[global] Arguments byte_val : simpl never.
#[global] Arguments zlen : simpl never.
#[global] Arguments slice : simpl never.
#[global] Arguments show : simpl never.

(** ** Lemmas *)

Create HintDb hearth discriminated.

Lemma byte_val_bound b : 0 <= byte_val b < 256.
Proof. unfold byte_val. pose proof (Byte.to_N_bounded b). lia. Qed.

Lemma byte_of_val b : byte_of (byte_val b) = b.
Proof.
unfold byte_of. pose proof (byte_val_bound b).
rewrite Z.mod_small by lia. unfold byte_val. by rewrite N2Z.id, Byte.of_to_N.
Qed.

Lemma byte_val_of z : byte_val (byte_of z) = z mod 256.
Proof.
unfold byte_of, byte_val.
pose proof (Z.mod_pos_bound z 256 ltac:(lia)).
destruct (Byte.of_N (Z.to_N (z mod 256))) as [b|] eqn:E; simpl.
- apply Byte.to_of_N in E. rewrite E. lia.
- apply Byte.of_N_None_iff in E. lia.
Qed.

#[export] Instance byte_val_inj : Inj (=) (=) byte_val.
Proof. intros a b H. by rewrite <-(byte_of_val a), H, byte_of_val. Qed.

#[export] Instance byte_lexico_po : StrictOrder (@lexico byte _).
Proof.
split; unfold lexico, byte_lexico.
- intros x H. lia.
- intros x y z ??. lia.
Qed.

#[export] Instance byte_lexico_trichotomy : TrichotomyT (@lexico byte _).
Proof.
intros a b. unfold lexico, byte_lexico.
destruct (Z_lt_dec (byte_val a) (byte_val b)) as [H|H]; [left; left; exact H|].
destruct (Z.eq_dec (byte_val a) (byte_val b)) as [H'|H'].
- left; right. apply (inj byte_val). exact H'.
- right. lia.
Defined.

Lemma length_to_le n z : length (to_le n z) = n.
Proof.
unfold to_le. rewrite length_fmap.
pose proof (length_Z_to_little_endian (Z.of_nat n) 8 z). lia.
Qed.

Lemma zlen_to_le n z : zlen (to_le n z) = Z.of_nat n.
Proof. unfold zlen. by rewrite length_to_le. Qed.

Lemma byte_val_to_le n z :
  byte_val <$> to_le n z = Z_to_little_endian (Z.of_nat n) 8 z.
Proof.
unfold to_le. rewrite <-list_fmap_compose.
pose proof (Z_to_little_endian_bound (Z.of_nat n) 8 z ltac:(lia) ltac:(lia)) as H.
induction H as [|x l Hx _ IH]; [done|]. rewrite fmap_cons, IH. f_equal.
unfold compose. rewrite byte_val_of, Z.mod_small; [done|lia].
Qed.

Lemma from_to_le n z : from_le (to_le n z) = z mod 2 ^ (8 * Z.of_nat n).
Proof.
unfold from_le. rewrite byte_val_to_le.
rewrite little_endian_to_Z_to_little_endian by lia.
by rewrite Z.mul_comm.
Qed.

Lemma from_to_le_small n z :
  0 <= z < 2 ^ (8 * Z.of_nat n) -> from_le (to_le n z) = z.
Proof. intros. by rewrite from_to_le, Z.mod_small. Qed.

Lemma from_le_bound bs : 0 <= from_le bs < 2 ^ (8 * zlen bs).
Proof.
unfold from_le.
pose proof (little_endian_to_Z_bound 8 (byte_val <$> bs) ltac:(lia)) as H.
rewrite length_fmap in H. unfold zlen. rewrite Z.mul_comm. apply H.
apply Forall_fmap, Forall_true. intros b. apply byte_val_bound.
Qed.

Lemma to_from_le n bs : length bs = n -> to_le n (from_le bs) = bs.
Proof.
intros <-. unfold to_le, from_le.
rewrite Z_to_little_endian_to_Z; [|by rewrite length_fmap|lia|].
- rewrite <-list_fmap_compose. induction bs as [|b bs IH]; [done|].
  rewrite fmap_cons, IH. f_equal. apply byte_of_val.
- apply Forall_fmap, Forall_true. intros b. apply byte_val_bound.
Qed.

Lemma to_signed_mod w z :
  0 < w -> - 2 ^ (w - 1) <= z < 2 ^ (w - 1) -> to_signed w (z mod 2 ^ w) = z.
Proof.
intros Hw Hz. unfold to_signed.
assert (Hp : 2 ^ w = 2 * 2 ^ (w - 1)).
{ rewrite <-Z.pow_succ_r by lia. f_equal; lia. }
destruct (decide (0 <= z)).
- rewrite Z.mod_small by lia. destruct (Z.ltb_spec z (2 ^ (w - 1))); lia.
- replace (z mod 2 ^ w) with (z + 2 ^ w).
  + destruct (Z.ltb_spec (z + 2 ^ w) (2 ^ (w - 1))); lia.
  + symmetry. rewrite <-(Z.mod_add z 1 (2 ^ w)) by lia.
    rewrite Z.mul_1_l. apply Z.mod_small. lia.
Qed.

(** *** Outcomes *)

Lemma bind_ok {E A B} (f : A → outcome E B) a : (Ok a ≫= f) = f a.
Proof. done. Qed.

Lemma bind_Ok_inv {E A B} (m : outcome E A) (f : A → outcome E B) b :
  (m ≫= f) = Ok b → ∃ a, m = Ok a ∧ f a = Ok b.
Proof. destruct m; simpl; try discriminate. eauto. Qed.

Lemma no_panic_bind {E A B} (m : outcome E A) (f : A → outcome E B) :
  no_panic m → (∀ a, m = Ok a → no_panic (f a)) → no_panic (m ≫= f).
Proof. destruct m; simpl; auto. Qed.

Lemma no_panic_ok_or {E A} (e : E) (o : option A) : no_panic (ok_or e o).
Proof. by destruct o. Qed.

Lemma no_panic_try_into {E A} n (e : E) (l : list A) : no_panic (try_into n e l).
Proof. unfold try_into. by destruct (_ =? _). Qed.

#[export] Hint Resolve no_panic_ok_or no_panic_try_into : hearth.

(** *** Lengths and slices *)

Lemma zlen_nonneg {A} (l : list A) : 0 <= zlen l.
Proof. unfold zlen. lia. Qed.
Lemma zlen_app {A} (l1 l2 : list A) : zlen (l1 ++ l2) = zlen l1 + zlen l2.
Proof. unfold zlen. rewrite length_app. lia. Qed.
Lemma zlen_cons {A} x (l : list A) : zlen (x :: l) = 1 + zlen l.
Proof. unfold zlen. rewrite length_cons. lia. Qed.
Lemma zlen_nil {A} : zlen (@nil A) = 0.
Proof. done. Qed.
Create Rewrite HintDb zlen.
#[export] Hint Rewrite @zlen_app @zlen_cons @zlen_nil zlen_to_le : zlen.

(** Arithmetic on lengths: normalise every [zlen] and call [lia]. *)
Ltac zlen_facts :=
  repeat match goal with
  | |- context [zlen ?l] =>
      lazymatch goal with
      | _ : 0 <= zlen l |- _ => fail
      | _ => pose proof (zlen_nonneg l)
      end
  | H : context [zlen ?l] |- _ =>
      lazymatch goal with
      | _ : 0 <= zlen l |- _ => fail
      | _ => pose proof (zlen_nonneg l)
      end
  end.
Ltac zlia := autorewrite with zlen in *; zlen_facts; lia.

Lemma slice_Some {A} a b (l s : list A) :
  slice a b l = Some s →
  0 <= a <= b ∧ b <= zlen l ∧ zlen s = b - a ∧
  s = take (Z.to_nat (b - a)) (drop (Z.to_nat a) l).
Proof.
unfold slice. intros H.
destruct ((0 <=? a) && (a <=? b) && (b <=? zlen l)) eqn:E; [|done].
apply andb_true_iff in E as [E E3]. apply andb_true_iff in E as [E1 E2].
apply Z.leb_le in E1, E2, E3. injection H as <-.
repeat split; try lia. unfold zlen in *.
rewrite length_take, length_drop. lia.
Qed.

Lemma slice_is_Some {A} a b (l : list A) :
  0 <= a <= b → b <= zlen l → is_Some (slice a b l).
Proof.
intros ??. unfold slice.
rewrite !(proj2 (Z.leb_le _ _)) by lia. simpl. eauto.
Qed.

Lemma slice_None {A} a b (l : list A) : zlen l < b → slice a b l = None.
Proof.
intros. unfold slice. rewrite (proj2 (Z.leb_gt b (zlen l))) by lia.
by rewrite andb_false_r.
Qed.

Lemma slice_skip {A} a b (l1 l2 : list A) :
  zlen l1 <= a → slice a b (l1 ++ l2) = slice (a - zlen l1) (b - zlen l1) l2.
Proof.
intros. pose proof (zlen_nonneg l1). unfold slice. rewrite zlen_app.
destruct (Z.leb_spec 0 a), (Z.leb_spec 0 (a - zlen l1)); try lia. simpl.
destruct (Z.leb_spec a b), (Z.leb_spec (a - zlen l1) (b - zlen l1)); try lia; simpl; [|done].
destruct (Z.leb_spec b (zlen l1 + zlen l2)), (Z.leb_spec (b - zlen l1) (zlen l2));
  try lia; [|done].
f_equal. rewrite drop_app_ge by (unfold zlen in *; lia).
f_equal; [f_equal; lia|]. f_equal. unfold zlen. lia.
Qed.

Lemma slice_head {A} b (l1 l2 : list A) :
  b = zlen l1 → slice 0 b (l1 ++ l2) = Some l1.
Proof.
intros ->. unfold slice. rewrite zlen_app.
pose proof (zlen_nonneg l1). pose proof (zlen_nonneg l2).
rewrite !(proj2 (Z.leb_le _ _)) by lia. simpl. f_equal.
rewrite drop_0, Z.sub_0_r. unfold zlen. rewrite Nat2Z.id. by rewrite take_app_length.
Qed.

Lemma slice_mid {A} a b (l1 l2 l3 : list A) :
  a = zlen l1 → b = a + zlen l2 → slice a b (l1 ++ l2 ++ l3) = Some l2.
Proof.
intros -> ->. rewrite slice_skip by lia. rewrite Z.sub_diag. apply slice_head. lia.
Qed.

Lemma slice_drop {A} a b (l s : list A) :
  slice a b l = Some s → drop (Z.to_nat a) l = s ++ drop (Z.to_nat b) l.
Proof.
intros Hs. apply slice_Some in Hs as (Ha & Hb & _ & ->).
replace (Z.to_nat b) with (Z.to_nat a + Z.to_nat (b - a))%nat by lia.
by rewrite <-drop_drop, take_drop.
Qed.

Lemma at_drop {A} i (l : list A) x :
  at_ i l = Some x → drop (Z.to_nat i) l = [x] ++ drop (Z.to_nat (i + 1)) l.
Proof.
unfold at_. destruct (Z.leb_spec 0 i); [|done]. intros Hx.
replace (Z.to_nat (i + 1)) with (S (Z.to_nat i)) by lia. by apply drop_S.
Qed.

(** *** Filters *)

Lemma seqZ_snoc m n : 0 <= n → seqZ m n ++ [m + n] = seqZ m (n + 1).
Proof. intros Hn. by rewrite seqZ_app by lia. Qed.

Lemma filter_all {A} (P : A → Prop) `{!∀ x, Decision (P x)} (l : list A) :
  (∀ x, x ∈ l → P x) → filter P l = l.
Proof.
induction l as [|x l IH]; intros Hl; [done|]. rewrite filter_cons, decide_True by set_solver.
f_equal. apply IH. set_solver.
Qed.

Lemma filter_none {A} (P : A → Prop) `{!∀ x, Decision (P x)} (l : list A) :
  (∀ x, x ∈ l → ¬ P x) → filter P l = [].
Proof.
induction l as [|x l IH]; intros Hl; [done|]. rewrite filter_cons, decide_False by set_solver.
apply IH. set_solver.
Qed.

Lemma filter_filter {A} (P Q : A → Prop) `{!∀ x, Decision (P x), !∀ x, Decision (Q x)} (l : list A) :
  filter P (filter Q l) = filter (λ x, P x ∧ Q x) l.
Proof.
induction l as [|x l IH]; [done|]. rewrite !filter_cons.
destruct (decide (Q x)); rewrite ?filter_cons; repeat case_decide; try tauto; congruence.
Qed.

(** Invert a successful bind. *)
Ltac bind_inv H x Hx :=
  apply bind_Ok_inv in H as (x & Hx & H).

(** The codecs are used through the lemmas above. *)
#[global] Opaque to_le from_le byte_of byte_val.
