(* ===== verification/OrdMap.v ===== *)
(** * Ordered maps

[BTreeMap] of Rust's standard library, as an association list in strictly
ascending key order, and the interface of the third-party concurrent map
([crossbeam_skiplist::SkipMap]) the memtable is built on: its operations and the
documented laws the storage engine relies on. *)
From stdpp Require Import base list gmap sorting lexico.
From Stdlib Require Import ZArith Lia.
From S2P Require Import Prelude.

Open Scope Z_scope.

Class KeyOrder (K : Type) `{Lexico K} := {
  ko_strict :: StrictOrder (@lexico K _);
  ko_tri :: TrichotomyT (@lexico K _)
}.

Lemma sorted_lookup {A} (R : relation A) l i j x y :
  StronglySorted R l → (i < j)%nat → l !! i = Some x → l !! j = Some y → R x y.
Proof.
intros Hs. revert i j. induction Hs as [|a l Hs IH Hf]; intros [|i] [|j] Hij Hi Hj;
  simpl in *; try done; try lia.
- injection Hi as ->. eapply (proj1 (Forall_forall _ _)); [exact Hf|]. by eapply list_elem_of_lookup_2.
- eapply IH; [|done..]. lia.
Qed.

Section btree.
Context {K : Type} `{KeyOrder K} {V : Type}.
Implicit Types (k : K) (v : V) (m : list (K * V)).

(** Rust's [Ord::cmp]. *)
Definition ord_cmp (a b : K) : comparison :=
  match trichotomyT lexico a b with
  | inleft (left _) => Lt
  | inleft (right _) => Eq
  | inright _ => Gt
  end.
Definition ord_lt (a b : K) : bool :=
  match ord_cmp a b with Lt => true | _ => false end.
Definition ord_le (a b : K) : bool :=
  match ord_cmp a b with Gt => false | _ => true end.
Definition ord_eq (a b : K) : bool :=
  match ord_cmp a b with Eq => true | _ => false end.

(** [BTreeMap::insert], [get], [remove] and the representation invariant. *)
Fixpoint bt_insert k v m : list (K * V) :=
  match m with
  | [] => [(k, v)]
  | (k', v') :: m' =>
      match ord_cmp k k' with
      | Lt => (k, v) :: m
      | Eq => (k, v) :: m'
      | Gt => (k', v') :: bt_insert k v m'
      end
  end.

Fixpoint bt_get k m : option V :=
  match m with
  | [] => None
  | (k', v) :: m' => match ord_cmp k k' with Eq => Some v | _ => bt_get k m' end
  end.

Definition bt_sorted m : Prop := StronglySorted lexico m.*1.

(** A decision procedure for the invariant. *)
Fixpoint bt_sortedb m : bool :=
  match m with
  | [] => true
  | e :: m' => forallb (λ e', ord_lt e.1 e'.1) m' && bt_sortedb m'
  end.

(** Insert every entry of a sequence, in order: a later one wins. *)
Definition bt_insert_all (es m : list (K * V)) : list (K * V) :=
  foldl (λ acc e, bt_insert e.1 e.2 acc) m es.

(** The last entry of a sequence under [k]: what inserting them all leaves. *)
Definition last_write k (es : list (K * V)) : option V :=
  foldl (λ acc e, if ord_eq k e.1 then Some e.2 else acc) None es.

Lemma ord_cmp_spec a b :
  match ord_cmp a b with
  | Lt => lexico a b | Eq => a = b | Gt => lexico b a
  end.
Proof. unfold ord_cmp. by destruct (trichotomyT lexico a b) as [[?|?]|?]. Qed.

Lemma ord_cmp_refl a : ord_cmp a a = Eq.
Proof.
pose proof (ord_cmp_spec a a) as Hs. destruct (ord_cmp a a); [done|..];
  exfalso; by eapply irreflexivity in Hs; [|apply _].
Qed.

Lemma ord_cmp_Lt a b : lexico a b → ord_cmp a b = Lt.
Proof.
intros Hlt. pose proof (ord_cmp_spec a b) as Hs.
destruct (ord_cmp a b); [|done|].
- subst. by eapply irreflexivity in Hlt; [|apply _].
- exfalso. eapply (irreflexivity lexico a). by etrans.
Qed.

Lemma ord_cmp_Gt a b : lexico b a → ord_cmp a b = Gt.
Proof.
intros Hlt. pose proof (ord_cmp_spec a b) as Hs.
destruct (ord_cmp a b); [| |done].
- subst. by eapply irreflexivity in Hlt; [|apply _].
- exfalso. eapply (irreflexivity lexico a). by etrans.
Qed.

Lemma ord_cmp_Eq_iff a b : ord_cmp a b = Eq ↔ a = b.
Proof.
split; [|by intros ->; apply ord_cmp_refl].
intros E. pose proof (ord_cmp_spec a b) as Hs. by rewrite E in Hs.
Qed.

Lemma ord_lt_iff a b : ord_lt a b = true ↔ lexico a b.
Proof.
unfold ord_lt. split.
- pose proof (ord_cmp_spec a b). by destruct (ord_cmp a b).
- intros E. by rewrite ord_cmp_Lt.
Qed.

Lemma ord_eq_iff a b : ord_eq a b = true ↔ a = b.
Proof.
unfold ord_eq. rewrite <-ord_cmp_Eq_iff. by destruct (ord_cmp a b).
Qed.

Lemma ord_eq_refl a : ord_eq a a = true.
Proof. by apply ord_eq_iff. Qed.

Lemma ord_eq_ne a b : a ≠ b → ord_eq a b = false.
Proof. intros. destruct (ord_eq a b) eqn:E; [|done]. by apply ord_eq_iff in E. Qed.

Lemma ord_lt_false a b : ord_lt a b = false ↔ a = b ∨ lexico b a.
Proof.
unfold ord_lt. pose proof (ord_cmp_spec a b). destruct (ord_cmp a b) eqn:E.
- split; [by left|done].
- split; [done|]. intros [->|Hgt]; [by rewrite ord_cmp_refl in E|].
  by rewrite (ord_cmp_Gt _ _ Hgt) in E.
- split; [by right|done].
Qed.

Lemma ord_lt_irrefl a : ord_lt a a = false.
Proof. unfold ord_lt. by rewrite ord_cmp_refl. Qed.

Lemma ord_le_lt a b : ord_le a b = negb (ord_lt b a).
Proof.
unfold ord_le, ord_lt. pose proof (ord_cmp_spec a b) as Hs.
destruct (ord_cmp a b).
- subst. by rewrite ord_cmp_refl.
- by rewrite (ord_cmp_Gt _ _ Hs).
- by rewrite (ord_cmp_Lt _ _ Hs).
Qed.

Lemma ord_lt_trans a b c : ord_lt a b = true → ord_lt b c = true → ord_lt a c = true.
Proof. rewrite !ord_lt_iff. intros. by etrans. Qed.

Lemma ord_le_lt_trans a b c : ord_lt b a = false → ord_lt b c = true → ord_lt a c = true.
Proof.
rewrite ord_lt_false, !ord_lt_iff. intros [->|?] ?; [done|]. by etrans.
Qed.

Lemma ord_lt_asym a b : ord_lt a b = true → ord_lt b a = false.
Proof. rewrite ord_lt_iff, ord_lt_false. by right. Qed.

Lemma bt_sortedb_sound m : bt_sortedb m = true → bt_sorted m.
Proof.
unfold bt_sorted. induction m as [|e m IH]; intros Hb; [constructor|].
simpl in Hb. apply andb_true_iff in Hb as [Hf Hb]. rewrite fmap_cons.
apply StronglySorted_cons. split; [|by apply IH].
rewrite List.forallb_forall in Hf. apply Forall_forall.
intros x (e' & -> & Hin)%list_elem_of_fmap. apply ord_lt_iff, Hf. by apply list_elem_of_In.
Qed.

Lemma bt_get_insert k k' v m :
  bt_get k (bt_insert k' v m) = if ord_eq k k' then Some v else bt_get k m.
Proof.
unfold ord_eq. induction m as [|[k1 v1] m IH]; simpl; [by destruct (ord_cmp k k')|].
destruct (ord_cmp k' k1) eqn:E; simpl.
- apply ord_cmp_Eq_iff in E as ->. by destruct (ord_cmp k k1).
- by destruct (ord_cmp k k').
- rewrite IH. destruct (ord_cmp k k1) eqn:E1; try done.
  apply ord_cmp_Eq_iff in E1 as ->.
  destruct (ord_cmp k1 k') eqn:E2; try done.
  apply ord_cmp_Eq_iff in E2 as ->. by rewrite ord_cmp_refl in E.
Qed.

Lemma elem_of_bt_insert_keys x k v m :
  x ∈ (bt_insert k v m).*1 ↔ x = k ∨ x ∈ m.*1.
Proof.
induction m as [|[k1 v1] m IH]; simpl; [set_solver|].
destruct (ord_cmp k k1) eqn:E; simpl.
- apply ord_cmp_Eq_iff in E as ->. set_solver.
- set_solver.
- set_solver.
Qed.

Lemma bt_insert_sorted k v m : bt_sorted m → bt_sorted (bt_insert k v m).
Proof.
unfold bt_sorted. induction m as [|[k1 v1] m IH]; simpl; intros Hs.
{ repeat constructor. }
apply StronglySorted_cons in Hs as [Hf Hs].
pose proof (ord_cmp_spec k k1) as Hc. destruct (ord_cmp k k1); simpl.
- subst. by apply StronglySorted_cons.
- apply StronglySorted_cons; split; [|by apply StronglySorted_cons].
  constructor; [done|]. eapply Forall_impl; [exact Hf|]. intros ??. by etrans.
- apply StronglySorted_cons; split; [|by apply IH].
  apply Forall_forall. intros x Hx%elem_of_bt_insert_keys.
  destruct Hx as [->|Hx]; [done|]. by eapply Forall_forall in Hf.
Qed.

Lemma bt_get_notin k m : k ∉ m.*1 → bt_get k m = None.
Proof.
induction m as [|[k1 v1] m IH]; simpl; [done|]. intros Hn.
destruct (ord_cmp k k1) eqn:E; [|apply IH; set_solver..].
apply ord_cmp_Eq_iff in E as ->. set_solver.
Qed.

Lemma bt_get_elem k v m : bt_get k m = Some v → (k, v) ∈ m.
Proof.
induction m as [|[k1 v1] m IH]; simpl; [done|].
destruct (ord_cmp k k1) eqn:E; [|set_solver..].
apply ord_cmp_Eq_iff in E as ->. set_solver.
Qed.

Lemma bt_elem_get k v m : bt_sorted m → (k, v) ∈ m → bt_get k m = Some v.
Proof.
unfold bt_sorted. induction m as [|[k1 v1] m IH]; simpl; intros Hs Hin; [set_solver|].
apply StronglySorted_cons in Hs as [Hf Hs].
apply elem_of_cons in Hin as [[= -> ->]|Hin]; [by rewrite ord_cmp_refl|].
destruct (ord_cmp k k1) eqn:E; [|by apply IH..].
exfalso. apply ord_cmp_Eq_iff in E as ->. eapply (irreflexivity lexico k1).
eapply (proj1 (Forall_forall _ _)); [exact Hf|]. apply list_elem_of_fmap. by exists (k1, v).
Qed.

Lemma bt_elem_get_iff k v m : bt_sorted m → (k, v) ∈ m ↔ bt_get k m = Some v.
Proof. split; [by apply bt_elem_get|apply bt_get_elem]. Qed.

(** A sorted map is determined by its lookups. *)
Lemma bt_ext m1 m2 :
  bt_sorted m1 → bt_sorted m2 → (∀ k, bt_get k m1 = bt_get k m2) → m1 = m2.
Proof.
unfold bt_sorted. revert m2. induction m1 as [|[k1 v1] m1 IH]; intros [|[k2 v2] m2] Hs1 Hs2 He.
- done.
- specialize (He k2). simpl in He. by rewrite ord_cmp_refl in He.
- specialize (He k1). simpl in He. by rewrite ord_cmp_refl in He.
- simpl in Hs1, Hs2.
  apply StronglySorted_cons in Hs1 as [Hf1 Hs1].
  apply StronglySorted_cons in Hs2 as [Hf2 Hs2].
  assert (Hlt : ∀ (m : list (K * V)) k k', Forall (lexico k) m.*1 → lexico k' k ∨ k' = k → bt_get k' m = None).
  { intros m k k' Hf Hk. apply bt_get_notin. intros Hin.
    eapply (proj1 (Forall_forall _ _)) in Hf; [|exact Hin].
    eapply (irreflexivity lexico k'). destruct Hk as [?| ->]; [by etrans|done]. }
  assert (k1 = k2) as ->.
  { pose proof (ord_cmp_spec k1 k2) as Hc. destruct (ord_cmp k1 k2) eqn:E; [done|..].
    - specialize (He k1). simpl in He. rewrite ord_cmp_refl, E in He.
      rewrite (Hlt _ k2) in He; auto. done.
    - specialize (He k2). simpl in He. rewrite ord_cmp_refl, (ord_cmp_Lt _ _ Hc) in He.
      rewrite (Hlt _ k1) in He; auto. done. }
  pose proof (He k2) as Hk. simpl in Hk. rewrite ord_cmp_refl in Hk. injection Hk as ->.
  f_equal. apply IH; [done..|]. intros k. specialize (He k). simpl in He.
  destruct (ord_cmp k k2) eqn:E; try done.
  apply ord_cmp_Eq_iff in E as ->. rewrite !(Hlt _ k2); auto.
Qed.

Lemma bt_sorted_cons_inv e m : bt_sorted (e :: m) → bt_sorted m.
Proof. unfold bt_sorted. simpl. rewrite StronglySorted_cons. tauto. Qed.

Lemma bt_sorted_filter (P : K * V → Prop) `{!∀ x, Decision (P x)} m :
  bt_sorted m → bt_sorted (filter P m).
Proof.
unfold bt_sorted. induction m as [|e m IH]; simpl; [done|]. intros Hs.
apply StronglySorted_cons in Hs as [Hf Hs]. rewrite filter_cons.
case_decide; simpl; [|by apply IH]. apply StronglySorted_cons; split; [|by apply IH].
apply Forall_forall. intros x (e' & -> & Hin)%list_elem_of_fmap.
apply list_elem_of_filter in Hin as [_ Hin].
eapply (proj1 (Forall_forall _ _)); [exact Hf|]. apply list_elem_of_fmap. eauto.
Qed.

Lemma bt_get_filter_key (P : K → Prop) `{!∀ x, Decision (P x)} k m :
  bt_get k (filter (λ e, P e.1) m) = if decide (P k) then bt_get k m else None.
Proof.
induction m as [|[k1 v1] m IH]; simpl; [by case_decide|]. rewrite filter_cons. simpl.
destruct (decide (P k1)) as [HP|HP]; simpl; rewrite IH;
  destruct (ord_cmp k k1) eqn:E; try done;
  apply ord_cmp_Eq_iff in E as ->; destruct (decide (P k1)); done.
Qed.

Lemma bt_insert_all_sorted es m : bt_sorted m → bt_sorted (bt_insert_all es m).
Proof.
unfold bt_insert_all. revert m. induction es as [|e es IH]; simpl; [done|].
intros. apply IH. by apply bt_insert_sorted.
Qed.

Lemma last_write_app k es e :
  last_write k (es ++ [e]) = if ord_eq k e.1 then Some e.2 else last_write k es.
Proof. unfold last_write. by rewrite foldl_app. Qed.

Lemma bt_get_insert_all k es m :
  bt_get k (bt_insert_all es m) =
  match last_write k es with Some v => Some v | None => bt_get k m end.
Proof.
unfold bt_insert_all. induction es as [|e es IH] using rev_ind; [done|].
rewrite foldl_app. simpl. rewrite bt_get_insert, last_write_app, IH.
by destruct (ord_eq k e.1).
Qed.

Lemma last_write_sorted k m : bt_sorted m → last_write k m = bt_get k m.
Proof.
induction m as [|e m IH] using rev_ind; [done|]. intros Hs.
assert (bt_sorted m ∧ ∀ x, x ∈ m.*1 → lexico x e.1) as [Hm Hlt].
{ unfold bt_sorted in *. rewrite fmap_app in Hs.
  apply StronglySorted_app in Hs as (Hx & Hs & _).
  split; [done|]. intros x Hin. apply Hx; [done|]. simpl. set_solver. }
rewrite last_write_app, IH by done.
assert (Hg : bt_get k (m ++ [e]) = match bt_get k m with Some v => Some v
  | None => if ord_eq k e.1 then Some e.2 else None end).
{ clear. induction m as [|[k1 v1] m IH]; simpl.
  - destruct e as [k' v']. simpl. unfold ord_eq. by destruct (ord_cmp k k').
  - destruct (ord_cmp k k1); done. }
rewrite Hg. destruct (ord_eq k e.1) eqn:E; [|by destruct (bt_get k m)].
apply ord_eq_iff in E as ->. rewrite bt_get_notin; [done|].
intros Hin. eapply (irreflexivity lexico e.1). by apply Hlt.
Qed.

End btree.

Lemma bt_get_fmap {K V W} `{KeyOrder K} (g : V → W) k (m : list (K * V)) :
  bt_get k ((λ e, (e.1, g e.2)) <$> m) = g <$> bt_get k m.
Proof.
induction m as [|[k1 v1] m IH]; [done|]. simpl. by destruct (ord_cmp k k1).
Qed.

(** ** Layers

Several sources of the same keys, newest first: a key's value is the one of the
first source that holds it. *)
Definition total_length {B} (ess : list (list B)) : nat := sum_list_with length ess.

Lemma total_length_app {B} (l1 l2 : list (list B)) :
  total_length (l1 ++ l2) = (total_length l1 + total_length l2)%nat.
Proof. apply sum_list_with_app. Qed.

Section layers.
Context {K : Type} `{KeyOrder K} {V : Type}.
Implicit Types (es : list (K * V)) (ess : list (list (K * V))).

Fixpoint layers_get (k : K) ess : option V :=
  match ess with
  | [] => None
  | es :: rest => match bt_get k es with Some v => Some v | None => layers_get k rest end
  end.

(** Their merge: insert every source into one map, the oldest first. *)
Definition merge_layers ess : list (K * V) := foldr bt_insert_all [] ess.

Lemma merge_layers_sorted ess : bt_sorted (merge_layers ess).
Proof.
induction ess as [|es ess IH]; [constructor|]. by apply bt_insert_all_sorted.
Qed.

Lemma merge_layers_get k ess :
  Forall bt_sorted ess → bt_get k (merge_layers ess) = layers_get k ess.
Proof.
induction 1 as [|es ess Hs _ IH]; [done|]. simpl.
by rewrite bt_get_insert_all, last_write_sorted, IH by done.
Qed.

Lemma layers_get_app k ess1 ess2 :
  layers_get k (ess1 ++ ess2) =
  match layers_get k ess1 with Some v => Some v | None => layers_get k ess2 end.
Proof. induction ess1 as [|es ess1 IH]; [done|]. simpl. by destruct (bt_get k es). Qed.

(** *** The least key of the sources *)

(** What is left of a source once its copy of [k] is passed. *)
Definition drop_key (k : K) es : list (K * V) :=
  match es with
  | (k', v) :: rest => if ord_eq k' k then rest else es
  | [] => []
  end.

(** The head key of a source. *)
Definition head_key es : option K := fst <$> head es.

(** No source holds a key below [k]. *)
Definition heads_above (k : K) ess : Prop :=
  Forall (λ es, ∀ k', head_key es = Some k' → ord_lt k' k = false) ess.

Lemma bt_sorted_head_le k v es k' :
  bt_sorted ((k, v) :: es) → ord_lt k' k = true → bt_get k' ((k, v) :: es) = None.
Proof.
intros Hs Hlt. apply bt_get_notin. simpl. intros [->|Hin]%elem_of_cons.
- by rewrite ord_lt_irrefl in Hlt.
- unfold bt_sorted in Hs. simpl in Hs. apply StronglySorted_cons in Hs as [Hf _].
  eapply (proj1 (Forall_forall _ _)) in Hf; [|exact Hin].
  apply ord_lt_iff in Hf. rewrite (ord_lt_asym _ _ Hlt) in Hf. done.
Qed.

Lemma drop_key_sorted k es : bt_sorted es → bt_sorted (drop_key k es).
Proof.
destruct es as [|[k' v] es]; [done|]. simpl. intros Hs.
destruct (ord_eq k' k); [|done]. by apply bt_sorted_cons_inv in Hs.
Qed.

(** Passing [k] in a source whose head is at or above it removes [k] only. *)
Lemma drop_key_get k k' es :
  bt_sorted es → (∀ k0, head_key es = Some k0 → ord_lt k0 k = false) →
  bt_get k' (drop_key k es) = if ord_eq k' k then None else bt_get k' es.
Proof.
intros Hs Hge. destruct es as [|[k1 v1] es]; [by destruct (ord_eq _ _)|].
specialize (Hge k1 eq_refl). unfold drop_key. destruct (ord_eq k1 k) eqn:E1.
- apply ord_eq_iff in E1 as ->. destruct (ord_eq k' k) eqn:E.
  + apply ord_eq_iff in E as ->. apply bt_get_notin. intros Hin.
    unfold bt_sorted in Hs. simpl in Hs. apply StronglySorted_cons in Hs as [Hf _].
    eapply (proj1 (Forall_forall _ _)) in Hf; [|exact Hin].
    by eapply irreflexivity in Hf; [|apply _].
  + simpl. unfold ord_eq in E. by destruct (ord_cmp k' k).
- destruct (ord_eq k' k) eqn:E; [|done]. apply ord_eq_iff in E as ->.
  apply bt_sorted_head_le; [done|]. apply ord_lt_false in Hge as [->|Hlt].
  + by rewrite ord_eq_refl in E1.
  + by apply ord_lt_iff.
Qed.

Lemma layers_drop_get k k' ess :
  Forall bt_sorted ess → heads_above k ess →
  layers_get k' (drop_key k <$> ess) = if ord_eq k' k then None else layers_get k' ess.
Proof.
intros Hs Hge. induction ess as [|es ess IH]; [by destruct (ord_eq _ _)|].
apply Forall_cons in Hs as [Hs1 Hs]. apply Forall_cons in Hge as [Hge1 Hge].
rewrite fmap_cons. cbn [layers_get]. rewrite drop_key_get, IH by done. by destruct (ord_eq k' k).
Qed.

Lemma layers_below k k' ess :
  Forall bt_sorted ess → heads_above k ess → ord_lt k' k = true → layers_get k' ess = None.
Proof.
intros Hs Hge Hlt. induction ess as [|es ess IH]; [done|].
apply Forall_cons in Hs as [Hs1 Hs]. apply Forall_cons in Hge as [Hge1 Hge]. simpl.
rewrite IH by done. destruct es as [|[k1 v1] es]; [done|].
rewrite bt_sorted_head_le; [done|done|]. specialize (Hge1 k1 eq_refl).
apply ord_lt_false in Hge1 as [->|Hk]; [done|]. eapply ord_lt_trans; [done|]. by apply ord_lt_iff.
Qed.

Lemma drop_keys_sorted k ess : Forall bt_sorted ess → Forall bt_sorted (drop_key k <$> ess).
Proof. intros Hs. apply Forall_fmap. eapply Forall_impl; [exact Hs|]. intros ?. apply drop_key_sorted. Qed.

(** The merge starts with the least head, at its newest value. *)
Lemma merge_layers_min k v ess :
  Forall bt_sorted ess → heads_above k ess → layers_get k ess = Some v →
  merge_layers ess = (k, v) :: merge_layers (drop_key k <$> ess).
Proof.
intros Hs Hge Hv. pose proof (drop_keys_sorted k _ Hs) as Hs'. apply bt_ext; [apply merge_layers_sorted| |].
- unfold bt_sorted. simpl. apply StronglySorted_cons. split; [|apply merge_layers_sorted].
  apply Forall_forall. intros k' ([k1 v1] & -> & Hin)%list_elem_of_fmap. simpl.
  apply bt_elem_get in Hin; [|apply merge_layers_sorted].
  rewrite merge_layers_get, layers_drop_get in Hin by done.
  destruct (ord_eq k1 k) eqn:E; [done|]. pose proof (ord_cmp_spec k1 k) as Hc.
  unfold ord_eq in E. destruct (ord_cmp k1 k) eqn:Ec; [done| |done].
  rewrite (layers_below k k1 ess) in Hin; [done..|]. by apply ord_lt_iff.
- intros k'. rewrite merge_layers_get by done. simpl.
  rewrite merge_layers_get, layers_drop_get by done. unfold ord_eq.
  destruct (ord_cmp k' k) eqn:Ec; try done. by apply ord_cmp_Eq_iff in Ec as ->.
Qed.

Lemma total_length_drop k ess : (total_length (drop_key k <$> ess) <= total_length ess)%nat.
Proof.
unfold total_length. induction ess as [|es ess IH]; [done|]. rewrite fmap_cons. cbn [sum_list_with].
assert (length (drop_key k es) <= length es)%nat; [|lia].
destruct es as [|[k' v] es]; [done|]. simpl. destruct (ord_eq k' k); simpl; lia.
Qed.

Lemma merge_all_empty ess : Forall (λ es, head_key es = None) ess → merge_layers ess = [].
Proof.
induction 1 as [|es ess He _ IH]; [done|]. unfold merge_layers in *. simpl. rewrite IH.
by destruct es.
Qed.

Lemma length_bt_insert k v es : (length (bt_insert k v es) <= S (length es))%nat.
Proof. induction es as [|[k' v'] es IH]; simpl; [lia|]. destruct (ord_cmp k k'); simpl in *; lia. Qed.

Lemma length_merge_layers ess : (length (merge_layers ess) <= total_length ess)%nat.
Proof.
induction ess as [|es ess IH]; [done|]. unfold merge_layers, total_length in *. simpl.
assert (Hall : ∀ m, (length (bt_insert_all es m) <= length m + length es)%nat).
{ unfold bt_insert_all. clear. induction es as [|[k v] es IH]; intros m; simpl; [lia|].
  pose proof (IH (bt_insert k v m)). pose proof (length_bt_insert k v m). lia. }
specialize (Hall (foldr bt_insert_all [] ess)). lia.
Qed.

Lemma total_length_reverse ess : total_length (reverse ess) = total_length ess.
Proof.
unfold total_length. induction ess as [|es ess IH]; [done|]. rewrite reverse_cons, sum_list_with_app. simpl. lia.
Qed.

Lemma elem_of_bt_insert_all p es m : p ∈ bt_insert_all es m → p ∈ es ∨ p ∈ m.
Proof.
assert (Hi : ∀ k v l, p ∈ bt_insert k v l → p = (k, v) ∨ p ∈ l).
{ intros k v l. induction l as [|[k' v'] l IH]; simpl; [set_solver|]. destruct (ord_cmp k k'); set_solver. }
unfold bt_insert_all. revert m. induction es as [|[k v] es IH]; intros m; simpl; [by right|].
intros [Hp|Hp]%IH; [left; set_solver|]. apply Hi in Hp as [->|Hp]; [left; set_solver|by right].
Qed.

Lemma elem_of_merge_layers p ess : p ∈ merge_layers ess → ∃ es, es ∈ ess ∧ p ∈ es.
Proof.
induction ess as [|es ess IH]; [by intros ?%elem_of_nil|]. unfold merge_layers in *. simpl.
intros [Hp|Hp]%elem_of_bt_insert_all; [exists es; set_solver|]. destruct (IH Hp) as (es' & ? & ?). exists es'. set_solver.
Qed.

End layers.

(** ** The skip-list interface *)

(** The operations of [crossbeam_skiplist::SkipMap] the memtable calls.
[sm_lower_bound k] is [lower_bound(Bound::Included(k))] and [sm_next k] is
[Entry::next] of the entry stored under [k]. *)
Class SkipMap (K V M : Type) := {
  sm_new : M;
  sm_get : K → M → option V;
  sm_insert : K → V → M → M;
  sm_iter : M → list (K * V);
  sm_len : M → Z;
  sm_is_empty : M → bool;
  sm_lower_bound : K → M → option (K * V);
  sm_next : K → M → option (K * V)
}.

(** The documented behaviour of these operations: an insert replaces the entry
of an equal key, iteration is in ascending key order, [lower_bound] finds the
first entry at or above its bound and [next] the first one strictly above. *)
Class SkipMapLaws (K V M : Type) `{KeyOrder K, SkipMap K V M} : Prop := {
  sm_get_new k : sm_get k (sm_new : M) = None;
  sm_get_insert k k' v (m : M) :
    sm_get k (sm_insert k' v m) = if ord_eq k k' then Some v else sm_get k m;
  sm_iter_sorted (m : M) : bt_sorted (sm_iter m);
  sm_iter_get k (m : M) : bt_get k (sm_iter m) = sm_get k m;
  sm_len_iter (m : M) : sm_len m = zlen (sm_iter m);
  sm_is_empty_iter (m : M) :
    sm_is_empty m = match sm_iter m with [] => true | _ => false end;
  sm_lower_bound_iter k (m : M) :
    sm_lower_bound k m = head (filter (λ e, ord_lt e.1 k = false) (sm_iter m));
  sm_next_iter k (m : M) :
    sm_next k m = head (filter (λ e, ord_lt k e.1 = true) (sm_iter m))
}.

(** The interface is inhabited: a sorted association list is a skip list, its
representation invariant carried in the type. *)
Section reference.
Context {K : Type} `{KeyOrder K} {V : Type}.

Record sorted_map := SortedMap {
  sorted_entries : list (K * V);
  sorted_ok : bt_sorted sorted_entries
}.

Definition sorted_new : sorted_map := SortedMap [] (SSorted_nil _).
Definition sorted_insert (k : K) (v : V) (m : sorted_map) : sorted_map :=
  SortedMap (bt_insert k v (sorted_entries m)) (bt_insert_sorted k v _ (sorted_ok m)).

#[export] Instance sorted_skip_map : SkipMap K V sorted_map := {|
  sm_new := sorted_new;
  sm_get k m := bt_get k (sorted_entries m);
  sm_insert := sorted_insert;
  sm_iter := sorted_entries;
  sm_len m := zlen (sorted_entries m);
  sm_is_empty m := match sorted_entries m with [] => true | _ => false end;
  sm_lower_bound k m :=
    head (filter (λ e, ord_lt e.1 k = false) (sorted_entries m));
  sm_next k m :=
    head (filter (λ e, ord_lt k e.1 = true) (sorted_entries m))
|}.

#[export] Instance sorted_skip_map_laws : SkipMapLaws K V sorted_map.
Proof.
split; intros; try done.
- apply bt_get_insert.
- apply sorted_ok.
Qed.

End reference.
Arguments sorted_map K {_} V.
