(* ===== verification/StorageTypes.v ===== *)
(** * Storage data model

The types every storage component shares: errors ([storage/error.rs]), realm
identifiers, composite keys and memtable values ([storage/memtable.rs]), WAL
operations ([storage/wal.rs]), and the free functions of [storage/mod.rs]
(prefix bounds and the counter codec). *)
From stdpp Require Import base list gmap strings sorting lexico.
From Stdlib Require Import Strings.Byte ZArith Lia.
From S2P Require Import Prelude OrdMap.

Open Scope Z_scope.

(** The constructors of [StorageError] that the modelled code builds. A path or
an [io::Error] is its message. *)
Inductive StorageError :=
| Io (msg : string)
| ChecksumMismatch (offset : Z)
| DeserializationFailed (reason : string)
| InvalidSstFormat (reason : string)
| Crypto (reason : string)
| UnsupportedWalVersion (found : Z)
| WalMidSegmentCorruption (corrupt_offset survivor_offset recovered_records : Z)
| TornSnapshotRestore (snapshot_id : list byte)
| InvalidRange.

Abbreviation res := (outcome StorageError).

(** [RealmId] wraps a UUID, which serialises as and compares by its 16 bytes. *)
Abbreviation RealmId := (list byte).
Definition realm_wf (r : RealmId) : Prop := zlen r = 16.

(** A composite key: the derived [Ord] compares the realm first, then the key. *)
Record CompositeKey := CKey { ck_realm : RealmId; ck_key : list byte }.

Inductive MemtableValue :=
| Data (v : list byte)
| Tombstone.

Inductive WalOperation := Put | Delete | Batch.

Record ScanEntry := Scan { se_key : list byte; se_value : list byte }.

#[export] Instance CompositeKey_eq_dec : EqDecision CompositeKey.
Proof. solve_decision. Defined.
#[export] Instance MemtableValue_eq_dec : EqDecision MemtableValue.
Proof. solve_decision. Defined.
#[export] Instance WalOperation_eq_dec : EqDecision WalOperation.
Proof. solve_decision. Defined.
#[export] Instance ScanEntry_eq_dec : EqDecision ScanEntry.
Proof. solve_decision. Defined.
#[export] Instance StorageError_eq_dec : EqDecision StorageError.
Proof. solve_decision. Defined.

#[export] Instance CompositeKey_countable : Countable CompositeKey :=
  inj_countable' (λ k, (ck_realm k, ck_key k)) (λ p, CKey p.1 p.2)
    (λ k, match k with CKey _ _ => eq_refl end).

#[export] Instance bytes_key_order : KeyOrder (list byte).
Proof. split; apply _. Defined.

#[export] Instance CompositeKey_lexico : Lexico CompositeKey :=
  λ a b, lexico (ck_realm a, ck_key a) (ck_realm b, ck_key b).

#[export] Instance CompositeKey_order : KeyOrder CompositeKey.
Proof.
split.
- split.
  + intros [r k] Hlt. exact (irreflexivity lexico (r, k) Hlt).
  + intros [r1 k1] [r2 k2] [r3 k3] H1 H2.
    exact (transitivity (x := (r1, k1)) (y := (r2, k2)) (z := (r3, k3)) H1 H2).
- intros [r1 k1] [r2 k2].
  destruct (trichotomyT lexico (r1, k1) (r2, k2)) as [[Hlt|Heq]|Hgt].
  + left; left. exact Hlt.
  + left; right. exact (f_equal (λ p, CKey p.1 p.2) Heq).
  + right. exact Hgt.
Defined.

(** The checksum of the [crc32fast] crate. *)
Class Crc32 := crc32 : list byte → Z.
(** A CRC-32 is a 32-bit value. *)
Class Crc32Laws `{Crc32} : Prop := crc32_bound b : 0 <= crc32 b <= u32_max.

(** [value_view]: the bytes of a live value, [None] for a tombstone. *)
Definition value_view (v : MemtableValue) : option (list byte) :=
  match v with Data d => Some d | Tombstone => None end.
Definition is_live (v : MemtableValue) : bool :=
  match v with Data _ => true | Tombstone => false end.

(** [prefix_scan_end]: increments the last byte, saturating at 255. *)
Definition sat_incr (b : byte) : byte :=
  if byte_val b =? 255 then b else byte_of (byte_val b + 1).

Fixpoint prefix_scan_end (prefix : list byte) : list byte :=
  match prefix with
  | [] => []
  | [b] => [sat_incr b]
  | b :: rest => b :: prefix_scan_end rest
  end.

(** [decode_u64_counter] and the encoding [increment_u64] stores. *)
Definition decode_u64_counter (raw : option (list byte)) : res Z :=
  match raw with
  | None => Ok 0
  | Some bytes =>
      if zlen bytes =? 8 then Ok (from_le bytes)
      else Err (DeserializationFailed
        ("u64 counter is " +:+ show (zlen bytes) +:+ " bytes, expected 8"))
  end.
Definition encode_u64 (n : Z) : list byte := to_le 8 n.

(** ** Key-order lemmas *)

Lemma ck_lexico_iff (r1 r2 : RealmId) (k1 k2 : list byte) :
  lexico (CKey r1 k1) (CKey r2 k2) ↔ lexico r1 r2 ∨ r1 = r2 ∧ lexico k1 k2.
Proof. done. Qed.

Lemma ord_lt_same_realm (r : RealmId) (k1 k2 : list byte) :
  ord_lt (CKey r k1) (CKey r k2) = ord_lt k1 k2.
Proof.
apply eq_true_iff_eq. rewrite !ord_lt_iff, ck_lexico_iff. split; [|by right].
intros [Hr|[_ ?]]; [|done]. exfalso. by eapply irreflexivity in Hr; [|apply _].
Qed.

Lemma ord_eq_same_realm (r : RealmId) (k1 k2 : list byte) :
  ord_eq (CKey r k1) (CKey r k2) = ord_eq k1 k2.
Proof.
apply eq_true_iff_eq. rewrite !ord_eq_iff. split; [by intros [= ->]|by intros ->].
Qed.

(** The window of composite keys between two keys of one realm lies in that
realm. *)
Lemma ck_between_realm (r : RealmId) (s e : list byte) ck :
  ord_lt ck (CKey r s) = false → ord_lt ck (CKey r e) = true → ck_realm ck = r.
Proof.
destruct ck as [r' k]. rewrite ord_lt_false, ord_lt_iff. simpl. intros Hge Hlt.
apply ck_lexico_iff in Hlt as [Hlt|[-> _]]; [|done].
destruct Hge as [[= -> ->]|Hge]; [done|].
apply ck_lexico_iff in Hge as [Hge|[<- _]]; [|done].
exfalso. eapply (irreflexivity lexico r). by etrans.
Qed.

(** ** Prefix bounds *)

Lemma lexico_cons (a b : byte) (l1 l2 : list byte) :
  lexico (a :: l1) (b :: l2) ↔ lexico a b ∨ a = b ∧ lexico l1 l2.
Proof. done. Qed.

Lemma lexico_nil_l (b : byte) (l : list byte) : lexico [] (b :: l).
Proof. exact I. Qed.

Lemma lexico_nil_r (l : list byte) : ¬ lexico l [].
Proof. destruct l; intros []. Qed.

Lemma sat_incr_val b : byte_val b ≠ 255 → byte_val (sat_incr b) = byte_val b + 1.
Proof.
intros Hb. unfold sat_incr. rewrite (proj2 (Z.eqb_neq _ _)) by done.
rewrite byte_val_of. apply Z.mod_small. pose proof (byte_val_bound b). lia.
Qed.

Lemma lexico_irrefl_b (x : byte) : ¬ lexico x x.
Proof. apply (irreflexivity lexico). Qed.

(** A key is in the window [prefix, prefix_scan_end prefix) exactly when it
starts with the prefix, for a prefix whose last byte is not 255. *)
Lemma prefix_window pre key :
  (∃ b, last pre = Some b ∧ byte_val b ≠ 255) →
  (¬ lexico key pre ∧ lexico key (prefix_scan_end pre)) ↔ pre `prefix_of` key.
Proof.
revert key. induction pre as [|p pre IH]; intros key (b & Hl & Hb); [done|].
destruct pre as [|p' pre].
- simpl in Hl. injection Hl as ->. simpl. destruct key as [|c key].
  { split; [intros [Hn _]; by destruct Hn|]. intros Hp. by apply prefix_nil_inv in Hp. }
  rewrite !lexico_cons. unfold lexico at 1 3, byte_lexico.
  rewrite sat_incr_val by done. split.
  + intros [Hn Hlt]. assert (byte_val c = byte_val b) as Hc.
    { destruct Hlt as [Hlt|[_ Hlt]]; [|by apply lexico_nil_r in Hlt].
      destruct (decide (byte_val c < byte_val b)); [|lia]. exfalso. apply Hn. by left. }
    apply (inj byte_val) in Hc as ->. by exists key.
  + intros [k Hk]. simpl in Hk. injection Hk as -> ->. split.
    * intros [?|[_ Hn]]; [lia|]. by apply lexico_nil_r in Hn.
    * left. lia.
- change (prefix_scan_end (p :: p' :: pre)) with (p :: prefix_scan_end (p' :: pre)).
  destruct key as [|c key].
  { split; [intros [Hn _]; by destruct Hn|]. intros Hp. by apply prefix_nil_inv in Hp. }
  rewrite !lexico_cons. split.
  + intros [Hn Hlt]. assert (c = p) as ->.
    { destruct Hlt as [Hlt|[? _]]; [|done]. exfalso. apply Hn. by left. }
    apply prefix_cons. apply IH; [by exists b|]. split; [|].
    * intros ?. apply Hn. by right.
    * destruct Hlt as [Hlt|[_ ?]]; [by apply lexico_irrefl_b in Hlt|done].
  + intros [k Hk]. simpl in Hk. injection Hk as -> ->.
    destruct (proj2 (IH (p' :: pre ++ k) ltac:(by exists b)) ltac:(by exists k)) as [Hn Hlt].
    split; [|by right]. intros [Hp|[_ ?]]; [by apply lexico_irrefl_b in Hp|done].
Qed.

(** With a last byte of 255 the increment saturates and the window is empty. *)
Lemma prefix_window_saturated pre :
  (∀ b, last pre = Some b → byte_val b = 255) → prefix_scan_end pre = pre.
Proof.
induction pre as [|p pre IH]; [done|]. intros Hl. destruct pre as [|p' pre].
- simpl. unfold sat_incr. by rewrite (Hl p eq_refl).
- simpl. f_equal. apply IH. intros b Hb. by apply Hl.
Qed.

(** ** Counter codec *)

Lemma decode_encode_u64 n : 0 <= n <= u64_max → decode_u64_counter (Some (encode_u64 n)) = Ok n.
Proof.
intros Hn. unfold decode_u64_counter, encode_u64. rewrite zlen_to_le. simpl.
f_equal. apply from_to_le_small. unfold u64_max in Hn. simpl. lia.
Qed.
