(* ===== verification/WalCodec.v ===== *)
(** * The WAL record codec

[WalEntry::serialize] / [deserialize] and the batch payload codec
([encode_batch_payload] / [decode_batch_payload]) of [storage/wal.rs], byte for
byte: length fields are the [as u32] truncations the code writes, and every
slice that could panic is an [index_range] that can. *)
From stdpp Require Import base list gmap strings sorting.
From Stdlib Require Import Strings.Byte ZArith Lia.
From S2P Require Import Prelude OrdMap StorageTypes.

Open Scope Z_scope.

Record WalEntry := MkWalEntry {
  we_timestamp : Z;
  we_realm_id : RealmId;
  we_operation : WalOperation;
  we_key : list byte;
  we_value : list byte
}.

Definition op_byte (op : WalOperation) : byte :=
  match op with Put => x00 | Delete => x01 | Batch => x02 end.

(** The [match] on an operation byte: [None] is its error arm. *)
Definition op_of_byte (b : byte) : option WalOperation :=
  if decide (b = x00) then Some Put
  else if decide (b = x01) then Some Delete
  else if decide (b = x02) then Some Batch
  else None.

Definition serialize (e : WalEntry) : list byte :=
  to_le 8 (we_timestamp e) ++
  we_realm_id e ++
  [op_byte (we_operation e)] ++
  to_le 4 (zlen (we_key e)) ++ we_key e ++
  to_le 4 (zlen (we_value e)) ++ we_value e.

Definition deserialize (data : list byte) : res WalEntry :=
  if zlen data <? 33
  then Err (DeserializationFailed
    ("payload too short: " +:+ show (zlen data) +:+ " bytes"))
  else
    let pos := 0 in
    ts ← index_range pos (pos + 8) data;
    ts ← try_into 8 (DeserializationFailed "invalid timestamp bytes") ts;
    let timestamp := to_signed 64 (from_le ts) in
    let pos := pos + 8 in
    uuid ← index_range pos (pos + 16) data;
    uuid ← try_into 16 (DeserializationFailed "invalid UUID bytes") uuid;
    let pos := pos + 16 in
    opb ← index_at pos data;
    operation ← ok_or (DeserializationFailed
        ("unknown operation byte: " +:+ show (byte_val opb))) (op_of_byte opb);
    let pos := pos + 1 in
    if zlen data <? pos + 4
    then Err (DeserializationFailed "truncated key length")
    else
    klb ← index_range pos (pos + 4) data;
    klb ← try_into 4 (DeserializationFailed "invalid key length bytes") klb;
    let key_len := from_le klb in
    let pos := pos + 4 in
    if zlen data <? pos + key_len
    then Err (DeserializationFailed "truncated key data")
    else
    key ← index_range pos (pos + key_len) data;
    let pos := pos + key_len in
    if zlen data <? pos + 4
    then Err (DeserializationFailed "truncated value length")
    else
    vlb ← index_range pos (pos + 4) data;
    vlb ← try_into 4 (DeserializationFailed "invalid value length bytes") vlb;
    let val_len := from_le vlb in
    let pos := pos + 4 in
    if zlen data <? pos + val_len
    then Err (DeserializationFailed "truncated value data")
    else
    value ← index_range pos (pos + val_len) data;
    Ok (MkWalEntry timestamp uuid operation key value).

(** ** Batch payloads *)

Record BatchEntry := MkBatchEntry {
  be_operation : WalOperation;
  be_key : list byte;
  be_value : list byte
}.

Definition encode_batch_entry (e : BatchEntry) : res (list byte) :=
  sub_op ← match be_operation e with
           | Put => Ok x00
           | Delete => Ok x01
           | Batch => Err (DeserializationFailed "batches cannot nest")
           end;
  Ok ([sub_op] ++ to_le 4 (zlen (be_key e)) ++ be_key e ++
      to_le 4 (zlen (be_value e)) ++ be_value e).

(** The [for entry in entries] loop: append each encoding to the buffer. *)
Fixpoint encode_batch_loop (buf : list byte) (entries : list BatchEntry) : res (list byte) :=
  match entries with
  | [] => Ok buf
  | e :: rest => enc ← encode_batch_entry e; encode_batch_loop (buf ++ enc) rest
  end.

Definition encode_batch_payload (entries : list BatchEntry) : res (list byte) :=
  encode_batch_loop (to_le 4 (zlen entries)) entries.

(** The [match] on a sub-operation byte: a nested batch is in the error arm. *)
Definition sub_op_of_byte (b : byte) : option WalOperation :=
  if decide (b = x00) then Some Put
  else if decide (b = x01) then Some Delete
  else None.

(** One iteration of the decoding loop: the entry at [pos] and the position
past it. *)
Definition decode_batch_entry (data : list byte) (pos : Z) : res (BatchEntry * Z) :=
  if zlen data <? pos + 1
  then Err (DeserializationFailed "truncated batch sub-op")
  else
  opb ← index_at pos data;
  operation ← ok_or (DeserializationFailed
      ("invalid batch sub-op byte: " +:+ show (byte_val opb))) (sub_op_of_byte opb);
  let pos := pos + 1 in
  if zlen data <? pos + 4
  then Err (DeserializationFailed "truncated batch key length")
  else
  klb ← index_range pos (pos + 4) data;
  klb ← try_into 4 (DeserializationFailed "invalid batch key length") klb;
  let k_len := from_le klb in
  let pos := pos + 4 in
  if zlen data <? pos + k_len
  then Err (DeserializationFailed "truncated batch key")
  else
  key ← index_range pos (pos + k_len) data;
  let pos := pos + k_len in
  if zlen data <? pos + 4
  then Err (DeserializationFailed "truncated batch value length")
  else
  vlb ← index_range pos (pos + 4) data;
  vlb ← try_into 4 (DeserializationFailed "invalid batch value length") vlb;
  let v_len := from_le vlb in
  let pos := pos + 4 in
  if zlen data <? pos + v_len
  then Err (DeserializationFailed "truncated batch value")
  else
  value ← index_range pos (pos + v_len) data;
  Ok (MkBatchEntry operation key value, pos + v_len).

(** The [for _ in 0..count] loop. *)
Fixpoint decode_batch_loop (count : nat) (data : list byte) (pos : Z)
    (entries : list BatchEntry) : res (list BatchEntry) :=
  match count with
  | O => Ok entries
  | S count =>
      '(e, pos) ← decode_batch_entry data pos;
      decode_batch_loop count data pos (entries ++ [e])
  end.

Definition MIN_BATCH_ENTRY_SIZE : Z := 9.

Definition decode_batch_payload (data : list byte) : res (list BatchEntry) :=
  if zlen data <? 4
  then Err (DeserializationFailed "batch payload missing count")
  else
  cb ← index_range 0 4 data;
  cb ← try_into 4 (DeserializationFailed "invalid batch count") cb;
  let count := from_le cb in
  let count := Z.min count (Z.max 0 (zlen data - 4) `div` MIN_BATCH_ENTRY_SIZE) in
  decode_batch_loop (Z.to_nat count) data 4 [].

(** ** Well-formedness: the entries whose length fields do not truncate *)

Definition fits_u32 (l : list byte) : Prop := zlen l <= u32_max.

Definition wal_entry_wf (e : WalEntry) : Prop :=
  - 2 ^ 63 <= we_timestamp e < 2 ^ 63 ∧
  realm_wf (we_realm_id e) ∧ fits_u32 (we_key e) ∧ fits_u32 (we_value e).

Definition batch_entry_wf (e : BatchEntry) : Prop :=
  be_operation e ≠ Batch ∧ fits_u32 (be_key e) ∧ fits_u32 (be_value e).

(** ** Field lemmas *)

Lemma fits_u32_le (l : list byte) : fits_u32 l → from_le (to_le 4 (zlen l)) = zlen l.
Proof.
intros Hl. apply from_to_le_small. unfold fits_u32, u32_max in Hl.
pose proof (zlen_nonneg l). simpl. lia.
Qed.

Lemma u32_field_bound (bs : list byte) : zlen bs = 4 → 0 <= from_le bs <= u32_max.
Proof.
intros H. pose proof (from_le_bound bs) as Hb. rewrite H in Hb.
unfold u32_max. simpl in Hb. lia.
Qed.

Lemma index_range_skip {A} a b (l1 l2 : list A) :
  zlen l1 <= a →
  index_range (E := StorageError) a b (l1 ++ l2) =
  index_range (a - zlen l1) (b - zlen l1) l2.
Proof. intros. unfold index_range. by rewrite slice_skip. Qed.

Lemma index_range_head {A} a b (l1 l2 : list A) :
  a = 0 → b = zlen l1 → index_range (E := StorageError) a b (l1 ++ l2) = Ok l1.
Proof. intros -> ?. unfold index_range. by rewrite slice_head. Qed.

Lemma index_range_all {A} a b (l : list A) :
  a = 0 → b = zlen l → index_range (E := StorageError) a b l = Ok l.
Proof.
intros -> ->. pose proof (index_range_head 0 (zlen l) l [] eq_refl eq_refl) as Hh.
by rewrite app_nil_r in Hh.
Qed.

Lemma index_at_skip {A} i (l1 l2 : list A) :
  zlen l1 <= i → index_at (E := StorageError) i (l1 ++ l2) = index_at (i - zlen l1) l2.
Proof.
intros. pose proof (zlen_nonneg l1). unfold index_at, at_.
rewrite !(proj2 (Z.leb_le _ _)) by lia. rewrite lookup_app_r by (unfold zlen in *; lia).
unfold zlen. by replace (Z.to_nat (i - Z.of_nat (length l1))) with (Z.to_nat i - length l1)%nat by lia.
Qed.

Lemma index_at_head {A} i x (l : list A) :
  i = 0 → index_at (E := StorageError) i ([x] ++ l) = Ok x.
Proof. by intros ->. Qed.

Lemma op_of_op_byte op : op_of_byte (op_byte op) = Some op.
Proof. by destruct op. Qed.

Lemma try_into_ok {A} n (e : StorageError) (l : list A) : zlen l = n → try_into n e l = Ok l.
Proof. intros <-. unfold try_into. by rewrite Z.eqb_refl. Qed.

Lemma index_range_no_panic {A} a b (l : list A) :
  0 <= a <= b → b <= zlen l →
  ∃ s, index_range (E := StorageError) a b l = Ok s ∧ zlen s = b - a.
Proof.
intros H1 H2. destruct (slice_is_Some a b l H1 H2) as [s Hs].
exists s. unfold index_range. rewrite Hs. split; [done|].
apply slice_Some in Hs. tauto.
Qed.

Lemma index_at_no_panic {A} i (l : list A) :
  0 <= i < zlen l → ∃ x, index_at (E := StorageError) i l = Ok x.
Proof.
intros Hi. unfold index_at, at_. rewrite (proj2 (Z.leb_le _ _)) by lia.
destruct (lookup_lt_is_Some_2 l (Z.to_nat i)) as [x ->]; [unfold zlen in *; lia|]. eauto.
Qed.

Lemma index_range_len {A} a b (l s : list A) :
  index_range (E := StorageError) a b l = Ok s → zlen s = b - a ∧ 0 <= a <= b ∧ b <= zlen l.
Proof.
unfold index_range. destruct (slice a b l) eqn:Hs; [|done]. intros [= ->].
apply slice_Some in Hs. tauto.
Qed.

Lemma ltb_ge_false a b : b <= a → (a <? b) = false.
Proof. apply Z.ltb_ge. Qed.

(** Step through a parser of the codec on a concatenation of fields. *)
Ltac field_step :=
  first
    [ rewrite bind_ok; cbv beta zeta
    | rewrite index_range_skip by zlia
    | rewrite index_at_skip by zlia
    | rewrite index_at_head by zlia
    | rewrite index_range_head by zlia
    | rewrite index_range_all by zlia
    | rewrite try_into_ok by zlia
    | rewrite ltb_ge_false by zlia ].

Lemma index_range_drop {A} a b (l s : list A) :
  index_range (E := StorageError) a b l = Ok s →
  drop (Z.to_nat a) l = s ++ drop (Z.to_nat b) l.
Proof. unfold index_range. destruct (slice a b l) eqn:Hs; [|done]. intros [= <-]. by apply slice_drop. Qed.

Lemma index_at_drop {A} i (l : list A) x :
  index_at (E := StorageError) i l = Ok x →
  drop (Z.to_nat i) l = [x] ++ drop (Z.to_nat (i + 1)) l.
Proof. unfold index_at. destruct (at_ i l) eqn:Hs; [|done]. intros [= <-]. by apply at_drop. Qed.

Lemma try_into_inv {A} n (e : StorageError) (l s : list A) :
  try_into n e l = Ok s → s = l ∧ zlen l = n.
Proof. unfold try_into. destruct (Z.eqb_spec (zlen l) n); [|done]. by intros [= ->]. Qed.

Lemma ok_or_inv {A} (e : StorageError) (o : option A) a : ok_or e o = Ok a → o = Some a.
Proof. destruct o; [by intros [= ->]|done]. Qed.

Lemma op_of_byte_inv b op : op_of_byte b = Some op → b = op_byte op.
Proof. unfold op_of_byte. repeat case_decide; by intros [= <-]. Qed.

Lemma sub_op_of_byte_inv b op :
  sub_op_of_byte b = Some op → b = op_byte op ∧ op ≠ Batch.
Proof. unfold sub_op_of_byte. repeat case_decide; by intros [= <-]. Qed.

Lemma to_le_signed bs : zlen bs = 8 → to_le 8 (to_signed 64 (from_le bs)) = bs.
Proof.
intros Hl. rewrite <-(to_from_le 8 bs) at 2 by (unfold zlen in Hl; lia).
pose proof (from_le_bound bs) as Hb. rewrite Hl in Hb. change (8 * 8) with 64 in Hb.
rewrite <-(to_from_le 8 (to_le 8 (to_signed 64 (from_le bs)))) by apply length_to_le.
f_equal. rewrite from_to_le. change (8 * Z.of_nat 8) with 64.
unfold to_signed. destruct (_ <? _); [rewrite Z.mod_small by lia; done|].
rewrite <-(Z.mod_add (from_le bs - 2 ^ 64) 1 (2 ^ 64)) by lia.
replace (from_le bs - 2 ^ 64 + 1 * 2 ^ 64) with (from_le bs) by lia.
by rewrite Z.mod_small by lia.
Qed.

Lemma to_signed_range z : 0 <= z < 2 ^ 64 → - 2 ^ 63 <= to_signed 64 z < 2 ^ 63.
Proof. intros. unfold to_signed. change (64 - 1) with 63. destruct (Z.ltb_spec z (2 ^ 63)); cbn in *; lia. Qed.

Lemma to_le_4_from bs : zlen bs = 4 → to_le 4 (from_le bs) = bs.
Proof. intros Hl. apply to_from_le. unfold zlen in Hl. lia. Qed.

(** Read back the fields of a successful parse. *)
Ltac parse_inv H :=
  repeat match type of H with
  | (if ?b then Err _ else _) = Ok _ => destruct b eqn:?; [discriminate H|]
  | (index_range _ _ _ ≫= _) = Ok _ =>
      let s := fresh "s" in let Hs := fresh "Hs" in
      bind_inv H s Hs; cbv beta zeta in H
  | (index_at _ _ ≫= _) = Ok _ =>
      let s := fresh "b" in let Hs := fresh "Hb" in
      bind_inv H s Hs; cbv beta zeta in H
  | (try_into _ _ _ ≫= _) = Ok _ =>
      let s := fresh "t" in let Hs := fresh "Ht" in let Hl := fresh "Hl" in
      bind_inv H s Hs; cbv beta zeta in H; apply try_into_inv in Hs as [-> Hl]
  | (ok_or _ ?o ≫= _) = Ok _ =>
      let s := fresh "o" in let Hs := fresh "Ho" in
      bind_inv H s Hs; cbv beta zeta in H; apply ok_or_inv in Hs
  end.

(** ** Round trips *)

Lemma deserialize_serialize e junk :
  wal_entry_wf e → deserialize (serialize e ++ junk) = Ok e.
Proof.
destruct e as [ts r op k v]. intros (Hts & Hr & Hk & Hv). simpl in *.
unfold serialize. simpl we_timestamp. simpl we_realm_id. simpl we_operation.
simpl we_key. simpl we_value. rewrite <-!app_assoc. unfold realm_wf in Hr.
pose proof (fits_u32_le k Hk) as Hkl. pose proof (fits_u32_le v Hv) as Hvl.
unfold deserialize. cbv zeta.
repeat first [field_step | rewrite op_of_op_byte; simpl ok_or | rewrite Hkl | rewrite Hvl].
rewrite from_to_le. change (8 * Z.of_nat 8) with 64.
by rewrite to_signed_mod by lia.
Qed.

Lemma deserialize_inv data e :
  deserialize data = Ok e → wal_entry_wf e ∧ serialize e `prefix_of` data.
Proof.
unfold deserialize. cbv zeta. intros H. parse_inv H. injection H as <-.
pose proof (index_range_len _ _ _ _ Hs2) as (Hk & _).
pose proof (index_range_len _ _ _ _ Hs4) as (Hv & _).
pose proof (u32_field_bound _ Hl1) as Hkb. pose proof (u32_field_bound _ Hl2) as Hvb.
pose proof (from_le_bound s) as Htb. rewrite Hl in Htb.
split.
- unfold wal_entry_wf, realm_wf, fits_u32. simpl. split; [|lia].
  apply to_signed_range. done.
- apply op_of_byte_inv in Ho as ->.
  apply index_range_drop in Hs, Hs0, Hs1, Hs2, Hs3, Hs4. apply index_at_drop in Hb.
  exists (drop (Z.to_nat (0 + 8 + 16 + 1 + 4 + from_le s1 + 4 + from_le s3)) data).
  unfold serialize. simpl we_timestamp. simpl we_realm_id. simpl we_operation.
  simpl we_key. simpl we_value.
  replace (zlen s2) with (from_le s1) by lia. replace (zlen s4) with (from_le s3) by lia.
  rewrite to_le_signed, !to_le_4_from by done. rewrite <-!app_assoc.
  rewrite <-Hs4, <-Hs3, <-Hs2, <-Hs1, <-Hb, <-Hs0, <-Hs. done.
Qed.

(** Step a parser towards its value, showing each slice in bounds. *)
Ltac panic_step :=
  match goal with
  | |- no_panic (if ?b then Err _ else _) =>
      let E := fresh "E" in destruct b eqn:E; [exact I|apply Z.ltb_ge in E]
  | |- no_panic (index_range ?a ?b ?l ≫= _) =>
      let s := fresh "s" in let E := fresh "E" in let L := fresh "L" in
      destruct (index_range_no_panic a b l) as (s & E & L); [lia..|];
      rewrite E, bind_ok; cbv beta zeta; pose proof (from_le_bound s)
  | |- no_panic (index_at ?i ?l ≫= _) =>
      let s := fresh "b" in let E := fresh "E" in
      destruct (index_at_no_panic i l) as (s & E); [lia|];
      rewrite E, bind_ok; cbv beta zeta
  | |- no_panic (try_into _ _ _ ≫= _) =>
      apply no_panic_bind; [apply no_panic_try_into|];
      let E := fresh "E" in intros ? E; apply try_into_inv in E as [-> ?]
  | |- no_panic (ok_or _ _ ≫= _) =>
      apply no_panic_bind; [apply no_panic_ok_or|]; intros ? _
  end.

(** ** The record codec *)

(** C34: the WAL record decoder accepts exactly the encodings: it returns [e]
if and only if [e] is a representable entry (an [i64] timestamp, a 16-byte
realm, key and value within 32-bit lengths) and the input starts with the
serialisation of [e]. *)
Theorem deserialize_iff data e :
  deserialize data = Ok e ↔ wal_entry_wf e ∧ serialize e `prefix_of` data.
Proof.
split; [apply deserialize_inv|]. intros [Hwf [junk ->]]. by apply deserialize_serialize.
Qed.

Lemma deserialize_total data : no_panic (deserialize data).
Proof. unfold deserialize. cbv zeta. repeat panic_step. exact I. Qed.

(** The WAL record decoder never panics, on any input: every slice it takes
is in bounds. *)
Theorem deserialize_no_panic data : no_panic (deserialize data).
Proof. apply deserialize_total. Qed.

(** ** Batch payloads *)

(** The bytes of one encoded sub-entry. *)
Definition batch_entry_bytes (e : BatchEntry) : list byte :=
  [op_byte (be_operation e)] ++ to_le 4 (zlen (be_key e)) ++ be_key e ++
  to_le 4 (zlen (be_value e)) ++ be_value e.

#[global] Arguments batch_entry_bytes : simpl never.
#[global] Arguments decode_batch_entry : simpl never.

Lemma encode_batch_entry_ok e :
  be_operation e ≠ Batch → encode_batch_entry e = Ok (batch_entry_bytes e).
Proof. unfold encode_batch_entry. by destruct (be_operation e) eqn:E; unfold batch_entry_bytes; rewrite ?E. Qed.

Lemma encode_batch_loop_ok es buf :
  Forall (λ e, be_operation e ≠ Batch) es →
  encode_batch_loop buf es = Ok (buf ++ concat (batch_entry_bytes <$> es)).
Proof.
intros Hes. revert buf. induction Hes as [|e es He _ IH]; intros buf; simpl.
{ by rewrite app_nil_r. }
rewrite encode_batch_entry_ok by done. rewrite bind_ok. cbv beta.
rewrite IH. f_equal. by rewrite <-app_assoc.
Qed.

Lemma decode_batch_entry_ok pre e post :
  batch_entry_wf e →
  decode_batch_entry (pre ++ batch_entry_bytes e ++ post) (zlen pre) =
  Ok (e, zlen pre + zlen (batch_entry_bytes e)).
Proof.
destruct e as [op k v]. intros (Hop & Hk & Hv). simpl in Hop, Hk, Hv. unfold batch_entry_bytes.
simpl be_operation. simpl be_key. simpl be_value. rewrite <-!app_assoc.
pose proof (fits_u32_le k Hk) as Hkl. pose proof (fits_u32_le v Hv) as Hvl.
unfold decode_batch_entry. cbv zeta.
assert (Hs : sub_op_of_byte (op_byte op) = Some op) by by destruct op.
repeat first [field_step | rewrite Hs; simpl ok_or | rewrite Hkl | rewrite Hvl].
do 2 f_equal. zlia.
Qed.

Lemma batch_entry_bytes_min e : MIN_BATCH_ENTRY_SIZE <= zlen (batch_entry_bytes e).
Proof. unfold batch_entry_bytes, MIN_BATCH_ENTRY_SIZE. zlia. Qed.

#[local] Opaque batch_entry_bytes.

Lemma decode_batch_loop_ok es pre post acc :
  Forall batch_entry_wf es →
  decode_batch_loop (length es) (pre ++ concat (batch_entry_bytes <$> es) ++ post) (zlen pre) acc
  = Ok (acc ++ es).
Proof.
intros Hes. revert pre acc. induction Hes as [|e es He _ IH]; intros pre acc; simpl.
{ by rewrite app_nil_r. }
rewrite <-app_assoc, decode_batch_entry_ok by done. rewrite bind_ok. cbv beta iota.
rewrite <-zlen_app, (app_assoc pre), IH. by rewrite <-app_assoc.
Qed.

Lemma concat_batch_min es :
  MIN_BATCH_ENTRY_SIZE * zlen es <= zlen (concat (batch_entry_bytes <$> es)).
Proof.
induction es as [|e es IH]; [done|]. rewrite fmap_cons, concat_cons.
pose proof (batch_entry_bytes_min e). unfold MIN_BATCH_ENTRY_SIZE in *. zlia.
Qed.

Lemma decode_encode_payload es payload junk :
  Forall batch_entry_wf es → zlen es <= u32_max →
  encode_batch_payload es = Ok payload →
  decode_batch_payload (payload ++ junk) = Ok es.
Proof.
intros Hes Hn Henc. unfold encode_batch_payload in Henc.
rewrite encode_batch_loop_ok in Henc
  by (eapply Forall_impl; [exact Hes|]; by intros ? [? _]).
injection Henc as <-. rewrite <-app_assoc. unfold decode_batch_payload.
pose proof (concat_batch_min es) as Hmin. unfold MIN_BATCH_ENTRY_SIZE in *.
repeat field_step. rewrite from_to_le_small by (unfold u32_max in *; zlia).
rewrite !zlen_app, zlen_to_le.
replace (Z.min _ _) with (zlen es).
- pose proof (decode_batch_loop_ok es (to_le 4 (zlen es)) junk [] Hes) as Hl.
  rewrite zlen_to_le in Hl. unfold zlen at 1. rewrite Nat2Z.id. exact Hl.
- symmetry. apply Z.min_l. apply Z.div_le_lower_bound; zlia.
Qed.

(** A batch payload decodes to the entries it was built from, in order,
whatever follows it: the cap the decoder puts on the count field never drops an
entry of a well-formed payload. *)
Theorem decode_encode_batch es payload junk :
  Forall batch_entry_wf es → zlen es <= u32_max →
  encode_batch_payload es = Ok payload →
  decode_batch_payload (payload ++ junk) = Ok es.
Proof. apply decode_encode_payload. Qed.

Lemma decode_encode_batch_witness :
  ∃ payload, encode_batch_payload [MkBatchEntry Put [x01] [x02]; MkBatchEntry Delete [x03] []]
    = Ok payload ∧
  decode_batch_payload (payload ++ [x09]) =
    Ok [MkBatchEntry Put [x01] [x02]; MkBatchEntry Delete [x03] []].
Proof.
eexists. split; [vm_compute; reflexivity|].
apply decode_encode_batch; [|vm_compute; discriminate|vm_compute; reflexivity].
repeat constructor; simpl; try discriminate; vm_compute; discriminate.
Defined.

(** A decoded batch holds puts and deletes only. *)
Lemma decode_batch_entry_op data pos e pos' :
  decode_batch_entry data pos = Ok (e, pos') → be_operation e ≠ Batch.
Proof.
unfold decode_batch_entry. cbv zeta. intros H. parse_inv H. injection H as <- _.
by apply sub_op_of_byte_inv in Ho as [_ ?].
Qed.

Lemma decode_batch_loop_ops n data pos acc es :
  Forall (λ e, be_operation e ≠ Batch) acc →
  decode_batch_loop n data pos acc = Ok es → Forall (λ e, be_operation e ≠ Batch) es.
Proof.
revert pos acc. induction n as [|n IH]; intros pos acc Hacc; simpl; [by intros [= <-]|].
intros H. bind_inv H p Hp. destruct p as [e pos']. eapply IH; [|exact H].
apply Forall_app; split; [done|]. constructor; [|done]. by eapply decode_batch_entry_op.
Qed.

Lemma decode_batch_ops data es :
  decode_batch_payload data = Ok es → Forall (λ e, be_operation e ≠ Batch) es.
Proof.
unfold decode_batch_payload. intros H. parse_inv H.
eapply decode_batch_loop_ops; [|exact H]. done.
Qed.

(** The batch decoder never panics, on any input. *)
Lemma decode_batch_entry_no_panic data pos : 0 <= pos → no_panic (decode_batch_entry data pos).
Proof. intros. unfold decode_batch_entry. cbv zeta. repeat panic_step. exact I. Qed.

Lemma decode_batch_entry_pos data pos e pos' :
  0 <= pos → decode_batch_entry data pos = Ok (e, pos') → pos < pos'.
Proof.
intros Hp. unfold decode_batch_entry. cbv zeta. intros H. parse_inv H. injection H as _ <-.
pose proof (from_le_bound s). pose proof (from_le_bound s1). lia.
Qed.

Lemma decode_batch_loop_no_panic n data pos acc :
  0 <= pos → no_panic (decode_batch_loop n data pos acc).
Proof.
revert pos acc. induction n as [|n IH]; intros pos acc Hp; simpl; [exact I|].
apply no_panic_bind; [by apply decode_batch_entry_no_panic|]. intros [e pos'] Hd.
apply IH. apply decode_batch_entry_pos in Hd; lia.
Qed.

Lemma decode_batch_never_panics data : no_panic (decode_batch_payload data).
Proof.
unfold decode_batch_payload. cbv zeta.
repeat panic_step. apply decode_batch_loop_no_panic. lia.
Qed.

(** The batch decoder never panics, on any input, and never yields a nested
batch. *)
Theorem decode_batch_safe data :
  no_panic (decode_batch_payload data) ∧
  ∀ es, decode_batch_payload data = Ok es → Forall (λ e, be_operation e ≠ Batch) es.
Proof.
split; [apply decode_batch_never_panics|apply decode_batch_ops].
Qed.

(** The decoder does not reject every truncation. A payload of [n + m]
entries cut after its first [n] decodes, without an error, to those [n]
entries, whenever what is left is too short for the rest at the minimum entry
size: the count field is clamped to what the bytes could hold instead of being
checked. *)
Theorem truncated_batch_accepted es more :
  Forall batch_entry_wf es → zlen (es ++ more) <= u32_max →
  zlen (concat (batch_entry_bytes <$> es)) < MIN_BATCH_ENTRY_SIZE * (zlen es + 1) →
  decode_batch_payload (to_le 4 (zlen (es ++ more)) ++ concat (batch_entry_bytes <$> es)) = Ok es.
Proof.
intros Hes Hn Hlt. unfold decode_batch_payload.
pose proof (concat_batch_min es) as Hmin. unfold MIN_BATCH_ENTRY_SIZE in *.
repeat field_step. rewrite from_to_le_small by (unfold u32_max in *; zlia).
rewrite !zlen_app, zlen_to_le.
replace (Z.min _ _) with (zlen es).
- pose proof (decode_batch_loop_ok es (to_le 4 (zlen es + zlen more)) [] [] Hes) as Hl.
  rewrite zlen_to_le, app_nil_r in Hl. unfold zlen at 1. rewrite Nat2Z.id. exact Hl.
- symmetry. replace (_ `div` 9) with (zlen es); [zlia|].
  apply Z.div_unique with (r := zlen (concat (batch_entry_bytes <$> es)) - 9 * zlen es); zlia.
Qed.

Lemma truncated_batch_accepted_witness :
  decode_batch_payload
    (to_le 4 2 ++ concat (batch_entry_bytes <$> [MkBatchEntry Delete [] []])) =
  Ok [MkBatchEntry Delete [] []].
Proof.
apply (truncated_batch_accepted [MkBatchEntry Delete [] []] [MkBatchEntry Put [x01] [x02]]).
- repeat constructor; simpl; try discriminate; vm_compute; discriminate.
- vm_compute; discriminate.
- vm_compute; reflexivity.
Defined.
