(* ===== verification/Memtable.v ===== *)
(** * The memtable

[storage/memtable.rs]: the in-memory ordered store of recent writes. The
backing [crossbeam_skiplist::SkipMap] is a parameter with the laws of
[OrdMap.SkipMapLaws]. The two phases of [flush_streaming], between which other
writers run, are operations of their own, so that interleavings are sequences of
operations. *)
From stdpp Require Import base list gmap strings sorting.
From Stdlib Require Import Strings.Byte ZArith Lia.
From S2P Require Import Prelude OrdMap StorageTypes WalCodec.

Open Scope Z_scope.

Section memtable.
Context {M : Type} `{!SkipMap CompositeKey MemtableValue M}.

Record MemtableConfig := MkMemtableConfig { flush_threshold_bytes : Z }.

(** The [(entries, bytes)] last published for each map. *)
Record PublishedSize := MkPublished { ps_active : Z * Z; ps_flushing : Z * Z }.

Inductive MemtableStateLabel := Active | Flushing.

(** [PublishedSize::set]; the gauges themselves are the metrics registry's. *)
Definition published_set (label : MemtableStateLabel) (entries bytes : Z)
    (p : PublishedSize) : PublishedSize :=
  match label with
  | Active => MkPublished (entries, bytes) (ps_flushing p)
  | Flushing => MkPublished (ps_active p) (entries, bytes)
  end.

(** [mt_poisoned]: a writer panicked while it held [write_lock]. *)
Record Memtable := MkMemtable {
  mt_data : M;
  mt_flushing : option M;
  mt_published : PublishedSize;
  mt_poisoned : bool;
  mt_size : Z;
  mt_config : MemtableConfig
}.

Definition new (config : MemtableConfig) : Memtable :=
  MkMemtable sm_new None (MkPublished (0, 0) (0, 0)) false 0 config.

Definition entry_size (key : list byte) (value : MemtableValue) : Z :=
  16 + zlen key + match value with Data v => zlen v | Tombstone => 0 end.

(** [update_size] on the [AtomicUsize]: [fetch_add] and [fetch_sub] wrap. *)
Definition update_size (old_size new_size size : Z) : Z :=
  if old_size <=? new_size then (size + (new_size - old_size)) mod 2 ^ 64
  else (size - (old_size - new_size)) mod 2 ^ 64.

Definition old_size (m : M) (ck : CompositeKey) : Z :=
  match sm_get ck m with Some old => entry_size (ck_key ck) old | None => 0 end.

Definition poisoned_error : StorageError := Io "memtable mutex poisoned".

Definition put (r : RealmId) (key value : list byte) (mt : Memtable) : res Memtable :=
  let composite := CKey r key in
  let new_value := Data value in
  if mt_poisoned mt then Err poisoned_error else
  let map := mt_data mt in
  let new_entry_size := entry_size key new_value in
  let old_entry_size := old_size map composite in
  let map' := sm_insert composite new_value map in
  let size' := update_size old_entry_size new_entry_size (mt_size mt) in
  Ok (MkMemtable map' (mt_flushing mt)
        (published_set Active (sm_len map') size' (mt_published mt))
        false size' (mt_config mt)).

Definition delete (r : RealmId) (key : list byte) (mt : Memtable) : res Memtable :=
  let composite := CKey r key in
  let new_value := Tombstone in
  if mt_poisoned mt then Err poisoned_error else
  let map := mt_data mt in
  let new_entry_size := entry_size key new_value in
  let old_entry_size := old_size map composite in
  let map' := sm_insert composite new_value map in
  let size' := update_size old_entry_size new_entry_size (mt_size mt) in
  Ok (MkMemtable map' (mt_flushing mt)
        (published_set Active (sm_len map') size' (mt_published mt))
        false size' (mt_config mt)).

(** The loop of [put_batch]: the map, [old_total] and [new_total]. *)
Fixpoint put_batch_loop (r : RealmId) (entries : list (list byte * list byte))
    (map : M) (old_total new_total : Z) : M * Z * Z :=
  match entries with
  | [] => (map, old_total, new_total)
  | (key, value) :: rest =>
      let composite := CKey r key in
      let new_value := Data value in
      put_batch_loop r rest (sm_insert composite new_value map)
        (old_total + old_size map composite)
        (new_total + entry_size key new_value)
  end.

Definition put_batch (r : RealmId) (entries : list (list byte * list byte))
    (mt : Memtable) : res Memtable :=
  match entries with
  | [] => Ok mt
  | _ =>
    if mt_poisoned mt then Err poisoned_error else
    let '(map', old_total, new_total) := put_batch_loop r entries (mt_data mt) 0 0 in
    let size' := update_size old_total new_total (mt_size mt) in
    Ok (MkMemtable map' (mt_flushing mt)
          (published_set Active (sm_len map') size' (mt_published mt))
          false size' (mt_config mt))
  end.

(** Phase 1 of [flush_streaming], under the write lock: [None] when the active
map is empty, else the parked map. *)
Definition flush_begin (mt : Memtable) : res (option M * Memtable) :=
  if mt_poisoned mt then Err poisoned_error else
  let current := mt_data mt in
  if sm_is_empty current then Ok (None, mt) else
  let parked_bytes := mt_size mt in
  Ok (Some current,
      MkMemtable sm_new (Some current)
        (published_set Flushing (sm_len current) parked_bytes
          (published_set Active 0 0 (mt_published mt)))
        false 0 (mt_config mt)).

(** Phase 2 after [write_sst] succeeded: drop the parked copy. *)
Definition flush_done (mt : Memtable) : Memtable :=
  MkMemtable (mt_data mt) None
    (if mt_poisoned mt then mt_published mt
     else published_set Flushing 0 0 (mt_published mt))
    (mt_poisoned mt) (mt_size mt) (mt_config mt).

(** The loop of [reabsorb] over the parked entries: the active map and
[restored]. *)
Fixpoint reabsorb_loop (entries : list (CompositeKey * MemtableValue)) (active : M)
    (restored : Z) : M * Z :=
  match entries with
  | [] => (active, restored)
  | (ck, v) :: rest =>
      match sm_get ck active with
      | None =>
          reabsorb_loop rest (sm_insert ck v active)
            (restored + entry_size (ck_key ck) v)
      | Some _ => reabsorb_loop rest active restored
      end
  end.

Definition reabsorb (parked : M) (mt : Memtable) : res Memtable :=
  if mt_poisoned mt then Err poisoned_error else
  let '(active, restored) := reabsorb_loop (sm_iter parked) (mt_data mt) 0 in
  let size' := (mt_size mt + restored) mod 2 ^ 64 in
  Ok (MkMemtable active (mt_flushing mt)
        (published_set Flushing 0 0
          (published_set Active (sm_len active) size' (mt_published mt)))
        false size' (mt_config mt)).

(** Phase 2 after [write_sst] failed: fold the parked entries back, then clear
the parked slot. *)
Definition flush_failed (parked : M) (mt : Memtable) : res Memtable :=
  mt' ← reabsorb parked mt;
  Ok (MkMemtable (mt_data mt') None (mt_published mt') (mt_poisoned mt')
        (mt_size mt') (mt_config mt')).

(** [flush_streaming] with no other writer between its phases: the outcome, and
the memtable it leaves. *)
Definition flush_streaming (write_sst : M → res unit) (mt : Memtable)
    : res bool * Memtable :=
  match flush_begin mt with
  | Err e => (Err e, mt)
  | Panic => (Panic, mt)
  | Ok (None, mt) => (Ok false, mt)
  | Ok (Some parked, mt) =>
      match write_sst parked with
      | Ok _ => (Ok true, flush_done mt)
      | Err e =>
          match flush_failed parked mt with
          | Ok mt' => (Err e, mt')
          | Err e' => (Err e', mt)
          | Panic => (Panic, mt)
          end
      | Panic => (Panic, mt)
      end
  end.

Definition clear (mt : Memtable) : res Memtable :=
  if mt_poisoned mt then Err poisoned_error else
  Ok (MkMemtable sm_new None (MkPublished (0, 0) (0, 0)) false 0 (mt_config mt)).

(** ** Reads *)

Definition get_entry (r : RealmId) (key : list byte) (mt : Memtable) : option MemtableValue :=
  let composite := CKey r key in
  match sm_get composite (mt_data mt) with
  | Some v => Some v
  | None => mt_flushing mt ≫= sm_get composite
  end.

Definition get (r : RealmId) (key : list byte) (mt : Memtable) : option (list byte) :=
  match get_entry r key mt with
  | Some (Data v) => Some v
  | Some Tombstone | None => None
  end.

Definition should_flush (mt : Memtable) : bool :=
  flush_threshold_bytes (mt_config mt) <=? mt_size mt.

(** [std::iter::successors]; the map's length bounds the walk. *)
Fixpoint successors (fuel : nat) (m : M) (cur : option (CompositeKey * MemtableValue))
    : list (CompositeKey * MemtableValue) :=
  match fuel, cur with
  | S fuel, Some e => e :: successors fuel m (sm_next e.1 m)
  | _, _ => []
  end.

Definition entries_from (m : M) (start : CompositeKey) : list (CompositeKey * MemtableValue) :=
  successors (Z.to_nat (sm_len m)) m (sm_lower_bound start m).

Fixpoint take_while {A} (p : A → bool) (l : list A) : list A :=
  match l with
  | [] => []
  | x :: l => if p x then x :: take_while p l else []
  end.

Definition in_window (r : RealmId) (end_ : list byte) (e : CompositeKey * MemtableValue) : bool :=
  ord_eq (ck_realm e.1) r && ord_lt (ck_key e.1) end_.

Definition scan_realm_range (m : M) (r : RealmId) (start end_ : list byte)
    : list (list byte * MemtableValue) :=
  (λ e, (ck_key e.1, e.2)) <$>
    take_while (in_window r end_) (entries_from m (CKey r start)).

Definition scan_realm_range_keys (m : M) (r : RealmId) (start end_ : list byte)
    : list (list byte * bool) :=
  (λ e, (ck_key e.1, is_live e.2)) <$>
    take_while (in_window r end_) (entries_from m (CKey r start)).

Definition iter_realm_range (r : RealmId) (start end_ : list byte) (mt : Memtable)
    : list (list byte * MemtableValue) :=
  match mt_flushing mt with
  | None => scan_realm_range (mt_data mt) r start end_
  | Some parked =>
      let merged := bt_insert_all (scan_realm_range parked r start end_) [] in
      bt_insert_all (scan_realm_range (mt_data mt) r start end_) merged
  end.

Definition iter_realm_range_keys (r : RealmId) (start end_ : list byte) (mt : Memtable)
    : list (list byte * bool) :=
  match mt_flushing mt with
  | None => scan_realm_range_keys (mt_data mt) r start end_
  | Some parked =>
      let merged := bt_insert_all (scan_realm_range_keys parked r start end_) [] in
      bt_insert_all (scan_realm_range_keys (mt_data mt) r start end_) merged
  end.

(** [BTreeSet::insert] of every realm of a map. *)
Definition realm_set_of (m : M) (acc : list (RealmId * unit)) : list (RealmId * unit) :=
  bt_insert_all ((λ e, (ck_realm e.1, tt)) <$> sm_iter m) acc.

Definition list_realm_ids (mt : Memtable) : list RealmId :=
  let realms := realm_set_of (mt_data mt) [] in
  let realms := match mt_flushing mt with
                | Some parked => realm_set_of parked realms
                | None => realms
                end in
  realms.*1.

Definition iter_all (mt : Memtable) : list (CompositeKey * MemtableValue) :=
  match mt_flushing mt with
  | None => sm_iter (mt_data mt)
  | Some parked => bt_insert_all (sm_iter (mt_data mt)) (bt_insert_all (sm_iter parked) [])
  end.

(** ** Replay *)

Definition nested_error : StorageError := DeserializationFailed "nested batch in WAL replay".

(** The loop of the [Batch] arm: runs of puts are applied together, a delete
first applies the pending run. *)
Fixpoint apply_batch_loop (r : RealmId) (subs : list BatchEntry)
    (put_run : list (list byte * list byte)) (mt : Memtable) : res Memtable :=
  match subs with
  | [] => match put_run with [] => Ok mt | _ => put_batch r put_run mt end
  | sub :: rest =>
      match be_operation sub with
      | Put => apply_batch_loop r rest (put_run ++ [(be_key sub, be_value sub)]) mt
      | Delete =>
          mt ← match put_run with [] => Ok mt | _ => put_batch r put_run mt end;
          mt ← delete r (be_key sub) mt;
          apply_batch_loop r rest [] mt
      | Batch => Err nested_error
      end
  end.

Definition apply_wal_entry (entry : WalEntry) (mt : Memtable) : res Memtable :=
  match we_operation entry with
  | Put => put (we_realm_id entry) (we_key entry) (we_value entry) mt
  | Delete => delete (we_realm_id entry) (we_key entry) mt
  | Batch =>
      sub_entries ← decode_batch_payload (we_value entry);
      apply_batch_loop (we_realm_id entry) sub_entries [] mt
  end.

(** The recovery loop of [EmbeddedStorageEngine::open_with_fs]. *)
Fixpoint replay (entries : list WalEntry) (mt : Memtable) : res Memtable :=
  match entries with
  | [] => Ok mt
  | e :: rest => mt ← apply_wal_entry e mt; replay rest mt
  end.

(** ** Specification *)

(** The effect of a write on an ordinary map of composite keys: the reference
every write path refines. *)
Inductive Write := WPut (ck : CompositeKey) (v : list byte) | WDelete (ck : CompositeKey).

Definition write_key (w : Write) : CompositeKey :=
  match w with WPut ck _ => ck | WDelete ck => ck end.
Definition write_value (w : Write) : MemtableValue :=
  match w with WPut _ v => Data v | WDelete _ => Tombstone end.
Definition write_entry (w : Write) : CompositeKey * MemtableValue :=
  (write_key w, write_value w).

(** What a sequence of writes leaves under a key. *)
Definition log_get (ck : CompositeKey) (ws : list Write) : option MemtableValue :=
  last_write ck (write_entry <$> ws).

(** The writes a WAL record stands for. *)
Definition sub_write (r : RealmId) (b : BatchEntry) : Write :=
  match be_operation b with
  | Put => WPut (CKey r (be_key b)) (be_value b)
  | Delete | Batch => WDelete (CKey r (be_key b))
  end.
Definition entry_writes (e : WalEntry) : list Write :=
  match we_operation e with
  | Put => [WPut (CKey (we_realm_id e) (we_key e)) (we_value e)]
  | Delete => [WDelete (CKey (we_realm_id e) (we_key e))]
  | Batch => match decode_batch_payload (we_value e) with
             | Ok subs => sub_write (we_realm_id e) <$> subs
             | _ => []
             end
  end.

(** The byte size of a map's entries. *)
Definition map_size (m : M) : Z :=
  foldr (λ e acc, entry_size (ck_key e.1) e.2 + acc) 0 (sm_iter m).

(** The invariant of the size accounting. *)
Definition size_ok (mt : Memtable) : Prop :=
  mt_size mt = map_size (mt_data mt) mod 2 ^ 64 ∧
  ps_active (mt_published mt) = (sm_len (mt_data mt), mt_size mt).

End memtable.
Arguments Memtable M : clear implicits.

(** ** Lemmas on the maps *)

Section memtable_lemmas.
Context {M : Type} `{!SkipMap CompositeKey MemtableValue M}.
Context `{!SkipMapLaws CompositeKey MemtableValue M}.
Implicit Types (m : M) (mt : Memtable M) (ck : CompositeKey) (v : MemtableValue).

Lemma sm_iter_insert ck v m : sm_iter (sm_insert ck v m) = bt_insert ck v (sm_iter m).
Proof.
apply bt_ext.
- apply sm_iter_sorted.
- apply bt_insert_sorted, sm_iter_sorted.
- intros k. rewrite sm_iter_get, sm_get_insert, bt_get_insert. by rewrite sm_iter_get.
Qed.

Lemma sm_iter_new : sm_iter (sm_new : M) = [].
Proof.
apply bt_ext; [apply sm_iter_sorted|constructor|].
intros k. by rewrite sm_iter_get, sm_get_new.
Qed.

Definition entries_size (es : list (CompositeKey * MemtableValue)) : Z :=
  foldr (λ e acc, entry_size (ck_key e.1) e.2 + acc) 0 es.

Lemma entries_size_insert ck v es : bt_sorted es →
  entries_size (bt_insert ck v es) =
  entries_size es + entry_size (ck_key ck) v -
  match bt_get ck es with Some o => entry_size (ck_key ck) o | None => 0 end.
Proof.
induction es as [|[k1 v1] es IH]; simpl; intros Hs; [lia|].
pose proof (bt_sorted_cons_inv _ _ Hs) as Hs'.
destruct (ord_cmp ck k1) eqn:E; simpl.
- apply ord_cmp_Eq_iff in E as ->. lia.
- rewrite bt_get_notin; [lia|]. intros Hin.
  pose proof (ord_cmp_spec ck k1) as Hlt. rewrite E in Hlt.
  unfold bt_sorted in Hs. simpl in Hs. apply StronglySorted_cons in Hs as [Hf _].
  eapply (proj1 (Forall_forall _ _)) in Hf; [|exact Hin].
  eapply (irreflexivity lexico ck). by etrans.
- rewrite IH by done. lia.
Qed.

Lemma map_size_insert ck v m :
  map_size (sm_insert ck v m) =
  map_size m + entry_size (ck_key ck) v - old_size m ck.
Proof.
unfold map_size, old_size. rewrite sm_iter_insert, <-sm_iter_get.
apply entries_size_insert, sm_iter_sorted.
Qed.

Lemma map_size_new : map_size (sm_new : M) = 0.
Proof. unfold map_size. by rewrite sm_iter_new. Qed.

Lemma sm_len_new : sm_len (sm_new : M) = 0.
Proof. by rewrite sm_len_iter, sm_iter_new. Qed.

Lemma update_size_mod o n s : update_size o n s = (s + n - o) mod 2 ^ 64.
Proof. unfold update_size. destruct (_ <=? _); f_equal; lia. Qed.

(** The batch loop inserts its entries one after the other; the totals it
accumulates differ by the growth of the map. *)
Lemma put_batch_loop_spec r es m o n :
  let '(m', o', n') := put_batch_loop r es m o n in
  m' = foldl (λ acc e, sm_insert (CKey r e.1) (Data e.2) acc) m es ∧
  n' - o' = n - o + (map_size m' - map_size m).
Proof.
revert m o n. induction es as [|[k v] es IH]; intros m o n; [simpl; split; [done|lia]|].
cbn [put_batch_loop]. specialize (IH (sm_insert (CKey r k) (Data v) m)
  (o + old_size m (CKey r k)) (n + entry_size k (Data v))).
destruct (put_batch_loop _ _ _ _ _) as [[m' o'] n']. destruct IH as [-> Hn].
split; [done|]. rewrite Hn, map_size_insert. simpl ck_key. lia.
Qed.

(** *** Windows *)

Lemma take_while_filter_sorted {A} (p : A → bool) l :
  (∀ i j x y, (i < j)%nat → l !! i = Some x → l !! j = Some y → p y = true → p x = true) →
  take_while p l = filter (λ x, p x = true) l.
Proof.
induction l as [|x l IH]; intros Hm; [done|]. simpl. rewrite filter_cons.
destruct (p x) eqn:Ex.
- rewrite decide_True by done. f_equal. apply IH.
  intros i j y z Hij Hi Hj. apply (Hm (S i) (S j)); [lia|done..].
- rewrite decide_False by congruence. symmetry.
  clear IH. assert (Hall : ∀ y, y ∈ l → p y = false).
  { intros y (j & Hj)%list_elem_of_lookup. destruct (p y) eqn:Ey; [|done].
    rewrite (Hm 0%nat (S j) x y) in Ex; [done|lia|done|done|done]. }
  clear Hm. induction l as [|y l IHl]; [done|]. rewrite filter_cons.
  rewrite decide_False by (rewrite Hall; [done|set_solver]).
  apply IHl. intros z Hz. apply Hall. set_solver.
Qed.

(** In an ascending sequence the entries at or above a bound are a suffix, and
those strictly above an entry are what follows it. *)
Lemma filter_ge_suffix (start : CompositeKey) (es : list (CompositeKey * MemtableValue)) :
  bt_sorted es → ∃ pre, es = pre ++ filter (λ x, ord_lt x.1 start = false) es.
Proof.
induction es as [|x es IH]; intros Hs; [by exists []|]. rewrite filter_cons.
pose proof (IH (bt_sorted_cons_inv _ _ Hs)) as [pre Hpre]. case_decide as Hx.
- exists []. simpl. f_equal. symmetry. apply filter_all.
  unfold bt_sorted in Hs. simpl in Hs. apply StronglySorted_cons in Hs as [Hf _].
  intros y Hy. apply ord_lt_false. right.
  assert (Hxy : lexico x.1 y.1).
  { eapply (proj1 (Forall_forall _ _)); [exact Hf|]. apply list_elem_of_fmap. eauto. }
  apply ord_lt_false in Hx as [<-|Hx]; [done|by etrans].
- exists (x :: pre). simpl. by f_equal.
Qed.

Lemma filter_gt_rest (es pre rest : list (CompositeKey * MemtableValue)) e :
  bt_sorted es → es = pre ++ e :: rest → filter (λ x, ord_lt e.1 x.1 = true) es = rest.
Proof.
intros Hs ->. unfold bt_sorted in Hs. rewrite fmap_app in Hs. simpl in Hs.
apply StronglySorted_app in Hs as (Hx & _ & Hs).
apply StronglySorted_cons in Hs as [Hf _].
rewrite filter_app, filter_cons, decide_False by (rewrite ord_lt_irrefl; done).
rewrite filter_none, app_nil_l, filter_all; [done|..].
- intros y Hy. apply ord_lt_iff. eapply (proj1 (Forall_forall _ _)); [exact Hf|].
  apply list_elem_of_fmap. eauto.
- intros y Hy. rewrite ord_lt_asym; [done|]. apply ord_lt_iff, Hx; [|set_solver].
  apply list_elem_of_fmap. eauto.
Qed.

(** The successor walk yields every entry at or above its start. *)
Lemma successors_rest m pre rest fuel :
  sm_iter m = pre ++ rest → (length rest <= fuel)%nat →
  successors fuel m (head rest) = rest.
Proof.
revert pre rest. induction fuel as [|fuel IH]; intros pre [|e rest] Hm Hl; simpl in *; try done; [lia|].
f_equal. rewrite sm_next_iter.
rewrite (filter_gt_rest _ pre rest e (sm_iter_sorted m) Hm).
apply (IH (pre ++ [e])); [|lia]. by rewrite Hm, <-app_assoc.
Qed.

Lemma entries_from_filter m start :
  entries_from m start = filter (λ x, ord_lt x.1 start = false) (sm_iter m).
Proof.
unfold entries_from. rewrite sm_lower_bound_iter, sm_len_iter.
destruct (filter_ge_suffix start _ (sm_iter_sorted m)) as [pre Hpre].
eapply successors_rest; [exact Hpre|]. unfold zlen. rewrite Nat2Z.id.
apply length_filter.
Qed.

Definition key_in (start end_ k : list byte) : bool :=
  negb (ord_lt k start) && ord_lt k end_.

Lemma key_in_true start end_ k :
  key_in start end_ k = true ↔ ord_lt k start = false ∧ ord_lt k end_ = true.
Proof. unfold key_in. rewrite andb_true_iff, negb_true_iff. tauto. Qed.

Lemma window_filter m r start end_ :
  take_while (in_window r end_) (entries_from m (CKey r start)) =
  filter (λ e, ck_realm e.1 = r ∧ key_in start end_ (ck_key e.1) = true) (sm_iter m).
Proof.
rewrite entries_from_filter, take_while_filter_sorted.
- rewrite filter_filter. apply list_filter_iff. intros [[r' k] v]. simpl.
  unfold in_window. simpl. rewrite andb_true_iff, ord_eq_iff, key_in_true. split.
  + intros [[-> Hlt] Hge]. by rewrite ord_lt_same_realm in Hge.
  + intros (-> & Hge & Hlt). by rewrite ord_lt_same_realm.
- intros i j [[r1 k1] v1] [[r2 k2] v2] Hij Hi Hj. unfold in_window. simpl.
  rewrite !andb_true_iff, !ord_eq_iff. intros [-> Hlt].
  pose proof (list_elem_of_lookup_2 _ _ _ Hi) as Hin. apply list_elem_of_filter in Hin as [Hge _].
  simpl in Hge.
  pose proof (bt_sorted_filter (λ x : CompositeKey * MemtableValue, ord_lt x.1 (CKey r start) = false) _ (sm_iter_sorted m)) as Hs.
  unfold bt_sorted in Hs.
  assert (Hlt12 : lexico (CKey r1 k1) (CKey r k2)).
  { eapply sorted_lookup; [exact Hs|exact Hij|..];
      rewrite list_lookup_fmap; [by rewrite Hi|by rewrite Hj]. }
  assert (ord_lt (CKey r1 k1) (CKey r end_) = true) as He.
  { apply ord_lt_iff. etrans; [exact Hlt12|]. apply ord_lt_iff. by rewrite ord_lt_same_realm. }
  pose proof (ck_between_realm _ _ _ _ Hge He) as Hr. simpl in Hr. subst r1.
  by rewrite ord_lt_same_realm in He.
Qed.

(** The projection of one realm's entries to their keys. *)
Lemma realm_fmap_sorted {B} (g : MemtableValue → B) r es :
  bt_sorted es → Forall (λ e, ck_realm e.1 = r) es →
  bt_sorted ((λ e, (ck_key e.1, g e.2)) <$> es).
Proof.
unfold bt_sorted. intros Hs Hr.
induction es as [|[[r1 k1] v1] es IH]; [constructor|]. rewrite !fmap_cons in *.
apply StronglySorted_cons in Hs as [Hf Hs]. apply Forall_cons in Hr as [Hr1 Hr]. simpl in Hr1. subst r1.
apply StronglySorted_cons. split; [|by apply IH].
apply Forall_forall. intros k2 (e & -> & (e' & -> & Hin)%list_elem_of_fmap)%list_elem_of_fmap.
eapply (proj1 (Forall_forall _ _)) in Hr; [|exact Hin].
eapply (proj1 (Forall_forall _ _)) in Hf; [|apply list_elem_of_fmap; eauto].
destruct e' as [[r2 k2] v2]. simpl in *. subst r2.
apply ord_lt_iff. rewrite <-(ord_lt_same_realm r). by apply ord_lt_iff.
Qed.

Lemma realm_fmap_get {B} (g : MemtableValue → B) r es k :
  Forall (λ e, ck_realm e.1 = r) es →
  bt_get k ((λ e, (ck_key e.1, g e.2)) <$> es) = g <$> bt_get (CKey r k) es.
Proof.
induction es as [|[[r1 k1] v1] es IH]; intros Hr; [done|]. simpl.
apply Forall_cons in Hr as [Hr1 Hr]. simpl in Hr1. subst r1.
pose proof (ord_eq_same_realm r k k1) as He. unfold ord_eq in He.
destruct (ord_cmp k k1), (ord_cmp (CKey r k) (CKey r k1)); try done; by apply IH.
Qed.

(** A window of one map, under any projection of its values. *)
Definition window {B} (g : MemtableValue → B) (m : M) (r : RealmId) (start end_ : list byte)
    : list (list byte * B) :=
  (λ e, (ck_key e.1, g e.2)) <$>
    take_while (in_window r end_) (entries_from m (CKey r start)).

Lemma window_realm m r start end_ :
  Forall (λ e, ck_realm e.1 = r)
    (take_while (in_window r end_) (entries_from m (CKey r start))).
Proof.
rewrite window_filter. apply Forall_forall. intros e He.
by apply list_elem_of_filter in He as [[? _] _].
Qed.

Lemma window_sorted {B} (g : MemtableValue → B) m r start end_ :
  bt_sorted (window g m r start end_).
Proof.
apply (realm_fmap_sorted _ r); [|apply window_realm].
rewrite window_filter. apply bt_sorted_filter, sm_iter_sorted.
Qed.

Lemma window_get {B} (g : MemtableValue → B) m r start end_ k :
  bt_get k (window g m r start end_) =
  if key_in start end_ k then g <$> sm_get (CKey r k) m else None.
Proof.
unfold window. rewrite (realm_fmap_get _ r) by apply window_realm.
rewrite window_filter.
match goal with |- _ <$> ?x = _ => replace x with
  (if decide (ck_realm (CKey r k) = r ∧ key_in start end_ k = true) then sm_get (CKey r k) m else None) end.
2: { rewrite <-sm_iter_get. symmetry. exact (bt_get_filter_key
       (λ ck, ck_realm ck = r ∧ key_in start end_ (ck_key ck) = true) _ _). }
simpl. destruct (key_in start end_ k).
- by rewrite decide_True.
- rewrite decide_False by naive_solver. done.
Qed.

(** The two maps of a memtable, the active one over the parked one. *)
Lemma iter_merged_get {B} (g : MemtableValue → B) r start end_ mt k es :
  es = match mt_flushing mt with
       | None => window g (mt_data mt) r start end_
       | Some parked => bt_insert_all (window g (mt_data mt) r start end_)
                          (bt_insert_all (window g parked r start end_) [])
       end →
  bt_sorted es ∧
  bt_get k es = if key_in start end_ k then g <$> get_entry r k mt else None.
Proof.
intros ->. unfold get_entry. destruct (mt_flushing mt) as [parked|]; simpl.
- split; [apply bt_insert_all_sorted, bt_insert_all_sorted; constructor|].
  rewrite !bt_get_insert_all, !last_write_sorted by apply window_sorted.
  rewrite !window_get. destruct (key_in start end_ k); [|done].
  destruct (sm_get _ (mt_data mt)); [done|]. simpl. by destruct (sm_get _ parked).
- split; [apply window_sorted|]. rewrite window_get.
  destruct (key_in start end_ k); [|done]. by destruct (sm_get _ (mt_data mt)).
Qed.

End memtable_lemmas.

(** ** The effect of a write sequence *)

Section writes.
Context {M : Type} `{!SkipMap CompositeKey MemtableValue M}.
Context `{!SkipMapLaws CompositeKey MemtableValue M}.
Implicit Types (m : M) (mt : Memtable M) (ck : CompositeKey) (v : MemtableValue).

(** [mt'] is [mt] after the writes [ws]: the active map holds what they leave,
everything else is kept, and the size accounting stays exact. *)
Definition wrote (ws : list Write) (mt mt' : Memtable M) : Prop :=
  (∀ ck, sm_get ck (mt_data mt') =
    match log_get ck ws with Some v => Some v | None => sm_get ck (mt_data mt) end) ∧
  mt_flushing mt' = mt_flushing mt ∧ mt_poisoned mt' = false ∧
  mt_config mt' = mt_config mt ∧ (size_ok mt → size_ok mt').

Lemma log_get_snoc ck ws w :
  log_get ck (ws ++ [w]) =
  if ord_eq ck (write_key w) then Some (write_value w) else log_get ck ws.
Proof. unfold log_get. rewrite fmap_app. apply last_write_app. Qed.

Lemma log_get_app ck ws1 ws2 :
  log_get ck (ws1 ++ ws2) =
  match log_get ck ws2 with Some v => Some v | None => log_get ck ws1 end.
Proof.
induction ws2 as [|w ws2 IH] using rev_ind; [by rewrite app_nil_r|].
rewrite app_assoc, !log_get_snoc, IH. by destruct (ord_eq _ _).
Qed.

Lemma wrote_nil mt : mt_poisoned mt = false → wrote [] mt mt.
Proof. intros. unfold wrote. auto. Qed.

Lemma wrote_app ws1 ws2 mt1 mt2 mt3 :
  wrote ws1 mt1 mt2 → wrote ws2 mt2 mt3 → wrote (ws1 ++ ws2) mt1 mt3.
Proof.
intros (Hg1 & Hf1 & Hp1 & Hc1 & Hs1) (Hg2 & Hf2 & Hp2 & Hc2 & Hs2).
split_and!; [|congruence..|auto].
intros ck. rewrite Hg2, Hg1, log_get_app. by destruct (log_get ck ws2).
Qed.

(** A single insertion with the accounting of [put] and [delete]. *)
Lemma insert_wrote w mt p :
  mt_poisoned mt = false →
  let m' := sm_insert (write_key w) (write_value w) (mt_data mt) in
  let s' := update_size (old_size (mt_data mt) (write_key w))
              (entry_size (ck_key (write_key w)) (write_value w)) (mt_size mt) in
  wrote [w] mt (MkMemtable m' (mt_flushing mt)
    (published_set Active (sm_len m') s' p) false s' (mt_config mt)).
Proof.
intros Hp m' s'. split_and!; simpl; try done.
- intros ck. unfold m'. rewrite sm_get_insert.
  change (log_get ck [w]) with (log_get ck ([] ++ [w])). rewrite log_get_snoc.
  by destruct (ord_eq ck (write_key w)).
- intros [Hs _]. split; [|done]. simpl. unfold s', m'. rewrite update_size_mod, map_size_insert, Hs.
  rewrite <-Z.add_sub_assoc, Z.add_mod_idemp_l by done. f_equal. lia.
Qed.

Lemma put_wrote r k (v : list byte) mt :
  mt_poisoned mt = false →
  ∃ mt', put r k v mt = Ok mt' ∧ wrote [WPut (CKey r k) v] mt mt'.
Proof.
intros Hp. unfold put. rewrite Hp. eexists. split; [done|].
exact (insert_wrote (WPut (CKey r k) v) mt _ Hp).
Qed.

Lemma delete_wrote r k mt :
  mt_poisoned mt = false →
  ∃ mt', delete r k mt = Ok mt' ∧ wrote [WDelete (CKey r k)] mt mt'.
Proof.
intros Hp. unfold delete. rewrite Hp. eexists. split; [done|].
exact (insert_wrote (WDelete (CKey r k)) mt _ Hp).
Qed.

(** The reference for a batch: one [put] per pair, in order. *)
Fixpoint put_each (r : RealmId) (es : list (list byte * list byte)) (mt : Memtable M)
    : res (Memtable M) :=
  match es with
  | [] => Ok mt
  | e :: rest => mt ← put r e.1 e.2 mt; put_each r rest mt
  end.

Lemma put_each_wrote r es mt :
  mt_poisoned mt = false →
  ∃ mt', put_each r es mt = Ok mt' ∧
         wrote ((λ e, WPut (CKey r e.1) e.2) <$> es) mt mt'.
Proof.
revert mt. induction es as [|e es IH]; intros mt Hp; simpl.
- exists mt. split; [done|]. by apply wrote_nil.
- destruct (put_wrote r e.1 e.2 mt Hp) as (mt1 & -> & Hw1). simpl.
  destruct (IH mt1 (proj1 (proj2 (proj2 Hw1)))) as (mt2 & -> & Hw2).
  exists mt2. split; [done|]. exact (wrote_app _ _ _ _ _ Hw1 Hw2).
Qed.

Lemma put_each_shape r e es mt :
  mt_poisoned mt = false →
  let m' := foldl (λ acc e, sm_insert (CKey r e.1) (Data e.2) acc) (mt_data mt) (e :: es) in
  let s' := (mt_size mt + (map_size m' - map_size (mt_data mt))) mod 2 ^ 64 in
  put_each r (e :: es) mt =
  Ok (MkMemtable m' (mt_flushing mt)
        (published_set Active (sm_len m') s' (mt_published mt)) false s' (mt_config mt)).
Proof.
intros Hp. revert e mt Hp. induction es as [|e' es IH]; intros e mt Hp m' s'.
- simpl. unfold put. rewrite Hp. simpl. unfold s', m'. cbn [foldl].
  rewrite update_size_mod, map_size_insert. simpl ck_key. repeat f_equal; lia.
- change (put_each r (e :: e' :: es) mt) with (put r e.1 e.2 mt ≫= put_each r (e' :: es)).
  replace (put r e.1 e.2 mt) with (put r e.1 e.2 (MkMemtable (mt_data mt) (mt_flushing mt)
    (mt_published mt) false (mt_size mt) (mt_config mt))) by (by rewrite <-Hp; destruct mt).
  cbn [put mt_poisoned mt_data mt_flushing mt_published mt_size mt_config].
  rewrite bind_ok, IH by done. simpl. unfold s', m'. cbn [foldl].
  rewrite update_size_mod, !Z.add_mod_idemp_l, map_size_insert by done. simpl ck_key.
  match goal with |- context [(mt_size mt + ?E - ?O + (?X - (?S + ?E - ?O))) mod _] =>
    replace (mt_size mt + E - O + (X - (S + E - O))) with (mt_size mt + (X - S)) by lia end.
  done.
Qed.

Lemma put_batch_each r es mt : put_batch r es mt = put_each r es mt.
Proof.
destruct es as [|e es]; [done|]. unfold put_batch.
destruct (mt_poisoned mt) eqn:Hp; [simpl; unfold put; by rewrite Hp|].
rewrite put_each_shape by done.
pose proof (put_batch_loop_spec r (e :: es) (mt_data mt) 0 0) as Hl.
destruct (put_batch_loop _ _ _ _ _) as [[m' o'] n']. destruct Hl as [-> Hn].
rewrite update_size_mod.
replace (mt_size mt + n' - o') with (mt_size mt + (n' - o')) by lia.
rewrite Hn. by rewrite Z.sub_0_r, Z.add_0_l.
Qed.

Lemma put_batch_wrote r es mt :
  mt_poisoned mt = false →
  ∃ mt', put_batch r es mt = Ok mt' ∧
         wrote ((λ e, WPut (CKey r e.1) e.2) <$> es) mt mt'.
Proof. rewrite put_batch_each. apply put_each_wrote. Qed.

(** *** Replay *)

Lemma apply_batch_loop_wrote r subs run mt :
  mt_poisoned mt = false → Forall (λ b, be_operation b ≠ Batch) subs →
  ∃ mt', apply_batch_loop r subs run mt = Ok mt' ∧
         wrote (((λ e, WPut (CKey r e.1) e.2) <$> run) ++ (sub_write r <$> subs)) mt mt'.
Proof.
assert (Hrun : ∀ run mt, mt_poisoned mt = false →
  ∃ mt', match run with [] => Ok mt | _ => put_batch r run mt end = Ok mt' ∧
         wrote ((λ e, WPut (CKey r e.1) e.2) <$> run) mt mt').
{ intros run' mt' Hp. destruct run' as [|e run']; [exists mt'; split; [done|by apply wrote_nil]|].
  by apply put_batch_wrote. }
intros Hp Hops. revert run mt Hp. induction Hops as [|[op k v] subs Hop _ IH]; intros run mt Hp.
{ rewrite app_nil_r. by apply Hrun. }
simpl in Hop |- *. destruct op; [| |done]; simpl.
- destruct (IH (run ++ [(k, v)]) mt Hp) as (mt' & Hr & Hw). exists mt'. split; [done|].
  rewrite fmap_app, <-app_assoc in Hw. exact Hw.
- destruct (Hrun run mt Hp) as (mt1 & -> & Hw1). simpl.
  destruct (delete_wrote r k mt1 (proj1 (proj2 (proj2 Hw1)))) as (mt2 & -> & Hw2). simpl.
  destruct (IH [] mt2 (proj1 (proj2 (proj2 Hw2)))) as (mt3 & -> & Hw3).
  exists mt3. split; [done|]. eapply wrote_app; [exact Hw1|].
  exact (wrote_app _ _ _ _ _ Hw2 Hw3).
Qed.

(** A record whose batch payload decodes. *)
Definition replayable (e : WalEntry) : bool :=
  match we_operation e with
  | Batch => match decode_batch_payload (we_value e) with Ok _ => true | _ => false end
  | Put | Delete => true
  end.

Lemma apply_wal_entry_wrote e mt :
  mt_poisoned mt = false → replayable e = true →
  ∃ mt', apply_wal_entry e mt = Ok mt' ∧ wrote (entry_writes e) mt mt'.
Proof.
intros Hp He. unfold apply_wal_entry, entry_writes, replayable in *.
destruct (we_operation e); [by apply put_wrote|by apply delete_wrote|].
destruct (decode_batch_payload (we_value e)) as [subs| |] eqn:Hd; [|done..]. simpl.
apply (apply_batch_loop_wrote _ _ [] mt Hp).
exact (decode_batch_ops _ _ Hd).
Qed.

Lemma replay_wrote es mt :
  mt_poisoned mt = false → Forall (λ e, replayable e = true) es →
  ∃ mt', replay es mt = Ok mt' ∧ wrote (concat (entry_writes <$> es)) mt mt'.
Proof.
intros Hp Hes. revert mt Hp. induction Hes as [|e es He _ IH]; intros mt Hp; simpl.
- exists mt. split; [done|]. by apply wrote_nil.
- destruct (apply_wal_entry_wrote e mt Hp He) as (mt1 & -> & Hw1). simpl.
  destruct (IH mt1 (proj1 (proj2 (proj2 Hw1)))) as (mt2 & -> & Hw2).
  exists mt2. split; [done|]. by eapply wrote_app.
Qed.

Lemma replay_stops es1 e es2 mt :
  mt_poisoned mt = false → Forall (λ e, replayable e = true) es1 → replayable e = false →
  ∃ err, replay (es1 ++ e :: es2) mt = Err err.
Proof.
intros Hp Hes He. revert mt Hp. induction Hes as [|e1 es1 He1 _ IH]; intros mt Hp; simpl.
- unfold replayable, apply_wal_entry in *. destruct (we_operation e); [done..|].
  pose proof (decode_batch_never_panics (we_value e)) as Hn.
  destruct (decode_batch_payload (we_value e)); simpl in *; [done|eauto|done].
- destruct (apply_wal_entry_wrote e1 mt Hp He1) as (mt1 & -> & Hw1). simpl.
  apply IH. exact (proj1 (proj2 (proj2 Hw1))).
Qed.

Lemma first_unreplayable es :
  Exists (λ e, replayable e = false) es →
  ∃ es1 e es2, es = es1 ++ e :: es2 ∧ Forall (λ e, replayable e = true) es1 ∧ replayable e = false.
Proof.
induction es as [|e es IH]; [by intros ?%Exists_nil|]. intros Hex.
destruct (replayable e) eqn:He; [|by exists [], e, es].
apply Exists_cons in Hex as [?|Hex]; [congruence|].
destruct (IH Hex) as (es1 & e' & es2 & -> & Hok & He'). exists (e :: es1), e', es2.
split_and!; [done|by constructor|done].
Qed.

End writes.

(** ** Writers racing a flush

[EmbeddedStorageEngine::flush_active] runs one flush at a time (its
[flush_lock]); writers run at any point between the flush's steps. The state is
the memtable, the flush thread's own variables, the SSTs registered so far
(newest first) and, as a ghost, the log of every write applied. *)

Section flush_machine.
Context {M : Type} `{!SkipMap CompositeKey MemtableValue M}.

Record FlushState := MkFlushState {
  fs_mt : Memtable M;
  fs_parked : option M;
  fs_registered : bool;
  fs_ssts : list (list (CompositeKey * MemtableValue));
  fs_log : list Write
}.

Inductive FlushEvent :=
| EvPut (r : RealmId) (k v : list byte)
| EvDelete (r : RealmId) (k : list byte)
| EvPutBatch (r : RealmId) (es : list (list byte * list byte))
| EvFlushBegin
| EvRegister
| EvFlushDone
| EvFlushFailed.

Definition writer_step (m : res (Memtable M)) (ws : list Write) (s : FlushState)
    : option FlushState :=
  match m with
  | Ok mt => Some (MkFlushState mt (fs_parked s) (fs_registered s) (fs_ssts s) (fs_log s ++ ws))
  | _ => None
  end.

Definition flush_exec (s : FlushState) (ev : FlushEvent) : option FlushState :=
  match ev with
  | EvPut r k v => writer_step (put r k v (fs_mt s)) [WPut (CKey r k) v] s
  | EvDelete r k => writer_step (delete r k (fs_mt s)) [WDelete (CKey r k)] s
  | EvPutBatch r es =>
      writer_step (put_batch r es (fs_mt s)) ((λ e, WPut (CKey r e.1) e.2) <$> es) s
  | EvFlushBegin =>
      match fs_parked s, flush_begin (fs_mt s) with
      | None, Ok (parked, mt) =>
          Some (MkFlushState mt parked false (fs_ssts s) (fs_log s))
      | _, _ => None
      end
  | EvRegister =>
      match fs_parked s, fs_registered s with
      | Some p, false =>
          Some (MkFlushState (fs_mt s) (Some p) true (sm_iter p :: fs_ssts s) (fs_log s))
      | _, _ => None
      end
  | EvFlushDone =>
      match fs_parked s, fs_registered s with
      | Some _, true =>
          Some (MkFlushState (flush_done (fs_mt s)) None false (fs_ssts s) (fs_log s))
      | _, _ => None
      end
  | EvFlushFailed =>
      match fs_parked s, fs_registered s with
      | Some p, false =>
          match flush_failed p (fs_mt s) with
          | Ok mt => Some (MkFlushState mt None false (fs_ssts s) (fs_log s))
          | _ => None
          end
      | _, _ => None
      end
  end.

Definition flush_run (evs : list FlushEvent) (s : FlushState) : option FlushState :=
  foldl (λ o ev, o ≫= λ s, flush_exec s ev) (Some s) evs.

Definition flush_init (c : MemtableConfig) : FlushState :=
  MkFlushState (new c) None false [] [].

(** A point read: the memtable, then the newest SST holding the key. *)
Definition fs_view (s : FlushState) (ck : CompositeKey) : option MemtableValue :=
  match get_entry (ck_realm ck) (ck_key ck) (fs_mt s) with
  | Some v => Some v
  | None => layers_get ck (fs_ssts s)
  end.

End flush_machine.
Arguments FlushState M : clear implicits.

Section flush_invariant.
Context {M : Type} `{!SkipMap CompositeKey MemtableValue M}.
Context `{!SkipMapLaws CompositeKey MemtableValue M}.
Implicit Types (s : FlushState M).

Record flush_inv s : Prop := {
  fi_parked : mt_flushing (fs_mt s) = fs_parked s;
  fi_live : mt_poisoned (fs_mt s) = false;
  fi_size : size_ok (fs_mt s);
  fi_registered : ∀ p, fs_parked s = Some p → fs_registered s = true →
    ∃ rest, fs_ssts s = sm_iter p :: rest;
  fi_view : ∀ ck, fs_view s ck = log_get ck (fs_log s)
}.

(** The view, with the memtable's two maps spelled out. *)
Lemma fs_view_unfold s ck :
  fs_view s ck =
  match sm_get ck (mt_data (fs_mt s)) with
  | Some v => Some v
  | None => match mt_flushing (fs_mt s) ≫= sm_get ck with
            | Some v => Some v
            | None => layers_get ck (fs_ssts s)
            end
  end.
Proof.
unfold fs_view, get_entry. destruct ck as [r k]. simpl.
by destruct (sm_get _ (mt_data (fs_mt s))).
Qed.

Lemma writer_step_inv m ws s s' mt' :
  flush_inv s → m = Ok mt' → wrote ws (fs_mt s) mt' →
  writer_step m ws s = Some s' → flush_inv s'.
Proof.
intros [Hp Hl Hs Hr Hv] -> (Hg & Hf & Hl' & _ & Hs') [= <-].
split; simpl; try done; try auto; [congruence|].
intros ck. rewrite log_get_app, fs_view_unfold. simpl. rewrite Hg, Hf.
specialize (Hv ck). rewrite fs_view_unfold in Hv. by destruct (log_get ck ws).
Qed.

Lemma flush_begin_inv s s' :
  flush_inv s → flush_exec s EvFlushBegin = Some s' → flush_inv s'.
Proof.
intros [Hp Hl Hs Hr Hv]. simpl. destruct (fs_parked s) as [p|] eqn:Ep; [done|].
unfold flush_begin. rewrite Hl. destruct (sm_is_empty (mt_data (fs_mt s))) eqn:Ee; intros [= <-].
- by split.
- split; simpl; try done.
  + split; simpl; [by rewrite map_size_new|by rewrite sm_len_new].
  + intros ck. rewrite <-Hv, !fs_view_unfold. simpl. rewrite sm_get_new, Hp. simpl.
    by destruct (sm_get ck (mt_data (fs_mt s))).
Qed.

(** Folding parked entries back: an entry the active map already holds wins. *)
Lemma reabsorb_loop_spec es m z :
  bt_sorted es →
  let '(m', z') := reabsorb_loop es m z in
  (∀ ck, sm_get ck m' = match sm_get ck m with Some v => Some v | None => bt_get ck es end) ∧
  z' - z = map_size m' - map_size m.
Proof.
revert m z. induction es as [|[k v] es IH]; intros m z Hs; cbn [reabsorb_loop].
{ split; [|lia]. intros ck. simpl. by destruct (sm_get ck m). }
pose proof (bt_sorted_cons_inv _ _ Hs) as Hs'.
destruct (sm_get k m) as [v0|] eqn:Ek.
- specialize (IH m z Hs'). destruct (reabsorb_loop es m z) as [m' z'].
  destruct IH as [Hg Hz]. split; [|done]. intros ck. rewrite Hg. simpl.
  destruct (ord_cmp ck k) eqn:E; try done. apply ord_cmp_Eq_iff in E as ->. by rewrite Ek.
- specialize (IH (sm_insert k v m) (z + entry_size (ck_key k) v) Hs').
  destruct (reabsorb_loop _ _ _) as [m' z']. destruct IH as [Hg Hz]. split.
  + intros ck. rewrite Hg, sm_get_insert. simpl. unfold ord_eq.
    destruct (ord_cmp ck k) eqn:E; try done. apply ord_cmp_Eq_iff in E as ->. by rewrite Ek.
  + rewrite map_size_insert in Hz. unfold old_size in Hz. rewrite Ek in Hz. lia.
Qed.

Lemma flush_failed_spec p mt :
  mt_poisoned mt = false → size_ok mt →
  ∃ mt', flush_failed p mt = Ok mt' ∧
    (∀ ck, sm_get ck (mt_data mt') =
       match sm_get ck (mt_data mt) with Some v => Some v | None => sm_get ck p end) ∧
    mt_flushing mt' = None ∧ mt_poisoned mt' = false ∧ size_ok mt'.
Proof.
intros Hp [Hs _]. unfold flush_failed, reabsorb. rewrite Hp.
pose proof (reabsorb_loop_spec (sm_iter p) (mt_data mt) 0 (sm_iter_sorted p)) as Hl.
destruct (reabsorb_loop _ _ _) as [m' z']. destruct Hl as [Hg Hz].
eexists. split; [done|]. simpl. split_and!; try done.
- intros ck. by rewrite Hg, sm_iter_get.
- split; [|done]. simpl. rewrite Hs, Z.add_mod_idemp_l by done. f_equal. lia.
Qed.

Lemma flush_failed_inv s s' :
  flush_inv s → flush_exec s EvFlushFailed = Some s' → flush_inv s'.
Proof.
intros [Hp Hl Hs Hr Hv]. simpl. destruct (fs_parked s) as [p|] eqn:Ep; [|done].
destruct (fs_registered s); [done|].
destruct (flush_failed_spec p (fs_mt s) Hl Hs) as (mt' & -> & Hg & Hf & Hl' & Hs').
intros [= <-]. split; simpl; try done.
intros ck. rewrite <-Hv, !fs_view_unfold. simpl. rewrite Hg, Hf, Hp. simpl.
by destruct (sm_get ck (mt_data (fs_mt s))).
Qed.

Lemma flush_register_inv s s' :
  flush_inv s → flush_exec s EvRegister = Some s' → flush_inv s'.
Proof.
intros [Hp Hl Hs Hr Hv]. simpl. destruct (fs_parked s) as [p|] eqn:Ep; [|done].
destruct (fs_registered s); [done|]. intros [= <-]. split; simpl; try done.
- intros p' [= <-] _. eauto.
- intros ck. rewrite <-Hv, !fs_view_unfold. simpl. rewrite Hp. simpl.
  rewrite sm_iter_get. destruct (sm_get ck (mt_data (fs_mt s))); [done|].
  by destruct (sm_get ck p).
Qed.

Lemma flush_done_inv s s' :
  flush_inv s → flush_exec s EvFlushDone = Some s' → flush_inv s'.
Proof.
intros [Hp Hl Hs Hr Hv]. simpl. destruct (fs_parked s) as [p|] eqn:Ep; [|done].
destruct (fs_registered s); [|done]. intros [= <-].
destruct (Hr p eq_refl eq_refl) as [rest Hrest]. split; simpl; try done.
- destruct Hs as [Hs Ha]. unfold flush_done. rewrite Hl. done.
- intros ck. rewrite <-Hv, !fs_view_unfold. simpl. rewrite Hp, Hrest. simpl.
  rewrite sm_iter_get. destruct (sm_get ck (mt_data (fs_mt s))); [done|].
  by destruct (sm_get ck p).
Qed.

Lemma flush_exec_inv s ev s' : flush_inv s → flush_exec s ev = Some s' → flush_inv s'.
Proof.
intros Hi. pose proof (fi_live _ Hi) as Hl. destruct ev as [r k v|r k|r es| | | |]; intros He.
- destruct (put_wrote r k v _ Hl) as (mt' & Ho & Hw). by eapply writer_step_inv.
- destruct (delete_wrote r k _ Hl) as (mt' & Ho & Hw). by eapply writer_step_inv.
- destruct (put_batch_wrote r es _ Hl) as (mt' & Ho & Hw). by eapply writer_step_inv.
- by eapply flush_begin_inv.
- by eapply flush_register_inv.
- by eapply flush_done_inv.
- by eapply flush_failed_inv.
Qed.

Lemma flush_run_inv evs s s' : flush_inv s → flush_run evs s = Some s' → flush_inv s'.
Proof.
unfold flush_run. revert s'. induction evs as [|ev evs IH] using rev_ind; intros s' Hi.
- by intros [= <-].
- rewrite foldl_app. simpl. destruct (foldl _ _ evs) as [s1|]; [|done]. simpl.
  intros He. eapply flush_exec_inv; [|exact He]. by apply IH.
Qed.

Lemma flush_init_inv c : flush_inv (flush_init (M := M) c).
Proof.
split; simpl; try done.
- split; simpl; [by rewrite map_size_new|by rewrite sm_len_new].
- intros [r k]. unfold fs_view. simpl. unfold get_entry. simpl. by rewrite sm_get_new.
Qed.

End flush_invariant.

(** ** Theorems *)

Section theorems.
Context {M : Type} `{!SkipMap CompositeKey MemtableValue M}.
Context `{!SkipMapLaws CompositeKey MemtableValue M}.

(** C35: no interleaving of writers with a flush loses or resurrects a write.
Whatever the order of puts, deletes and batches around the steps of flushes that
succeed or fail, a read through the memtable and then the SSTs returns the last
value written under each key; the byte size is exact; and a write is accepted in
every such state. *)
Theorem flush_loses_no_write c evs (s : FlushState M) :
  flush_run evs (flush_init c) = Some s →
  (∀ ck, fs_view s ck = log_get ck (fs_log s)) ∧ size_ok (fs_mt s) ∧
  (∀ r k v, is_Some (flush_exec s (EvPut r k v))) ∧
  (∀ r k, is_Some (flush_exec s (EvDelete r k))) ∧
  (∀ r es, is_Some (flush_exec s (EvPutBatch r es))).
Proof.
intros Hr. pose proof (flush_run_inv _ _ _ (flush_init_inv c) Hr) as Hi.
destruct Hi as [_ Hl Hs _ Hv]. split_and!; [done|done|..]; intros r k; [intros v|..]; simpl.
- destruct (put_wrote r k v _ Hl) as (mt' & -> & _). simpl. eauto.
- destruct (delete_wrote r k _ Hl) as (mt' & -> & _). simpl. eauto.
- destruct (put_batch_wrote r k _ Hl) as (mt' & -> & _). simpl. eauto.
Qed.

(** [put_batch] is the sequence of its [put]s: the same map, size, gauges
and error. *)
Theorem put_batch_sequential r es (mt : Memtable M) : put_batch r es mt = put_each r es mt.
Proof. apply put_batch_each. Qed.

(** A range read of a memtable returns, in ascending key order and once each,
exactly the keys of the realm in the half-open window, with the entry a point
read returns (a tombstone included); the key-only read is its projection. *)
Theorem iter_realm_range_exact r start end_ (mt : Memtable M) :
  bt_sorted (iter_realm_range r start end_ mt) ∧
  (∀ k v, (k, v) ∈ iter_realm_range r start end_ mt ↔
     key_in start end_ k = true ∧ get_entry r k mt = Some v) ∧
  iter_realm_range_keys r start end_ mt =
    (λ e, (e.1, is_live e.2)) <$> iter_realm_range r start end_ mt.
Proof.
pose proof (λ k, iter_merged_get id r start end_ mt k _ eq_refl) as Hid.
pose proof (λ k, iter_merged_get is_live r start end_ mt k _ eq_refl) as Hlive.
change (match mt_flushing mt with Some _ => _ | None => window id _ _ _ _ end)
  with (iter_realm_range r start end_ mt) in Hid.
change (match mt_flushing mt with Some _ => _ | None => window is_live _ _ _ _ end)
  with (iter_realm_range_keys r start end_ mt) in Hlive.
split_and!; [apply (Hid [])|..].
- intros k v. rewrite bt_elem_get_iff by apply (Hid []). rewrite (proj2 (Hid k)).
  destruct (key_in start end_ k); [|naive_solver]. rewrite option_fmap_id. naive_solver.
- apply bt_ext; [apply (Hlive [])| |].
  + unfold bt_sorted. rewrite <-list_fmap_compose. apply (Hid []).
  + intros k. rewrite (proj2 (Hlive k)), bt_get_fmap, (proj2 (Hid k)).
    destruct (key_in start end_ k); [|done]. by rewrite option_fmap_id.
Qed.

(** Replaying WAL records into an empty memtable yields exactly the map
their writes describe, the last one winning; replay fails only at a record whose
batch payload does not decode. *)
Theorem replay_exact c es :
  (Forall (λ e, replayable e = true) es →
   ∃ mt : Memtable M, replay es (new c) = Ok mt ∧ size_ok mt ∧
     ∀ r k, get_entry r k mt = log_get (CKey r k) (concat (entry_writes <$> es))) ∧
  (Exists (λ e, replayable e = false) es → ∃ err, replay es (new (M := M) c) = Err err).
Proof.
split.
- intros Hes. destruct (replay_wrote es (new (M := M) c) eq_refl Hes) as (mt & Hr & Hg & Hf & _ & _ & Hs).
  exists mt. split_and!; [done|apply Hs, (flush_init_inv c)|].
  intros r k. unfold get_entry. rewrite Hg, Hf. simpl. rewrite sm_get_new.
  by destruct (log_get _ _).
- intros Hex. destruct (first_unreplayable es Hex) as (es1 & e & es2 & -> & Hok & He).
  by apply replay_stops.
Qed.

End theorems.

(** ** Witnesses *)

Abbreviation ref_map := (sorted_map CompositeKey MemtableValue).

Definition wit_realm : RealmId := repeat x07 16.
Definition wit_config : MemtableConfig := MkMemtableConfig 4096.

(** A put, a flush that fails with a put racing it, then one that succeeds with
a delete racing it. *)
Definition wit_events : list FlushEvent :=
  [EvPut wit_realm [x61] [x01]; EvFlushBegin; EvPut wit_realm [x62] [x02]; EvFlushFailed;
   EvFlushBegin; EvDelete wit_realm [x61]; EvRegister; EvFlushDone].

Lemma flush_loses_no_write_witness :
  ∃ s : FlushState ref_map,
    flush_run wit_events (flush_init wit_config) = Some s ∧
    fs_view s (CKey wit_realm [x61]) = Some Tombstone ∧
    fs_view s (CKey wit_realm [x62]) = Some (Data [x02]).
Proof.
destruct (flush_run wit_events (flush_init (M := ref_map) wit_config)) as [s|] eqn:E;
  [|vm_compute in E; discriminate].
exists s. split; [done|].
destruct (flush_loses_no_write wit_config wit_events s E) as [Hv _]. rewrite !Hv.
replace (fs_log s) with [WPut (CKey wit_realm [x61]) [x01]; WPut (CKey wit_realm [x62]) [x02];
  WDelete (CKey wit_realm [x61])].
- split; vm_compute; reflexivity.
- assert (fs_log <$> flush_run wit_events (flush_init (M := ref_map) wit_config) =
    Some [WPut (CKey wit_realm [x61]) [x01]; WPut (CKey wit_realm [x62]) [x02];
          WDelete (CKey wit_realm [x61])]) as Hl by (vm_compute; reflexivity).
  rewrite E in Hl. by injection Hl.
Defined.

Lemma put_batch_sequential_witness :
  put_batch wit_realm [([x61], [x01]); ([x61], [x02])] (new (M := ref_map) wit_config) =
  put_each wit_realm [([x61], [x01]); ([x61], [x02])] (new wit_config).
Proof. apply put_batch_sequential. Defined.

Lemma iter_realm_range_exact_witness :
  ∃ mt : Memtable ref_map,
    put_each wit_realm [([x61], [x01]); ([x63], [x02])] (new wit_config) = Ok mt ∧
    ([x61], Data [x01]) ∈ iter_realm_range wit_realm [x61] [x63] mt.
Proof.
destruct (put_each wit_realm [([x61], [x01]); ([x63], [x02])] (new (M := ref_map) wit_config))
  as [mt|e|] eqn:E; [|vm_compute in E; discriminate..].
exists mt. split; [done|]. apply (iter_realm_range_exact wit_realm [x61] [x63] mt).
split; [vm_compute; reflexivity|].
apply (f_equal (λ o, match o with Ok m => get_entry wit_realm [x61] m | _ => None end)) in E.
rewrite <-E. vm_compute. reflexivity.
Defined.

Lemma replay_exact_witness :
  ∃ mt : Memtable ref_map,
    replay [MkWalEntry 1 wit_realm Put [x61] [x01]] (new wit_config) = Ok mt ∧
    get_entry wit_realm [x61] mt = Some (Data [x01]).
Proof.
destruct (replay_exact (M := ref_map) wit_config [MkWalEntry 1 wit_realm Put [x61] [x01]]) as [Hok _].
destruct Hok as (mt & Hr & _ & Hg); [by repeat constructor|].
exists mt. split; [done|]. rewrite Hg. vm_compute. reflexivity.
Defined.
