(* ===== verification/KeyMerge.v ===== *)
(** * Streaming merge of sorted key sources

[storage/key_merge.rs]: the [KeyCursor] trait, the merge loop every streaming
walk of the engine runs, and the memtable's cursor ([MemtableKeyCursor] of
[storage/memtable.rs]). The merge is proved against the trait's contract,
[yields]; each kind of cursor discharges the contract on its own. *)
From stdpp Require Import base list gmap strings sorting.
From Stdlib Require Import Strings.Byte ZArith Lia.
From S2P Require Import Prelude OrdMap StorageTypes WalCodec Memtable.

Open Scope Z_scope.

(** The trait. *)
Class KeyCursor (C : Type) := {
  current : C → option (list byte * bool);
  value : C → option (list byte);
  advance : C → res C
}.

(** [ControlFlow]. *)
Inductive ControlFlow := Continue | Break.
Definition is_break (f : ControlFlow) : bool := match f with Break => true | Continue => false end.

Section merge.
Context {C : Type} `{!KeyCursor C} {A : Type}.
(** The visitor, an [FnMut]: it updates its captured state and may break. *)
Variable visit : A → list byte → list byte → A * ControlFlow.

(** The scan for the newest source holding the smallest key. *)
Fixpoint find_winner (cursors rest : list C) (i : nat) (winner : option nat) : option nat :=
  match rest with
  | [] => winner
  | cursor :: rest =>
      match current cursor with
      | None => find_winner cursors rest (S i) winner
      | Some (key, _) =>
          let smaller :=
            match winner with
            | None => true
            | Some w =>
                match cursors !! w ≫= current with
                | Some (best, _) => ord_lt key best
                | None => false
                end
            end in
          find_winner cursors rest (S i) (if smaller then Some i else winner)
      end
  end.

(** Advances each older source that holds a superseded copy of [key]. *)
Fixpoint advance_older (key : list byte) (older : list C) : res (list C) :=
  match older with
  | [] => Ok []
  | cursor :: rest =>
      cursor ← match current cursor with
               | Some (k, _) => if ord_eq k key then advance cursor else Ok cursor
               | None => Ok cursor
               end;
      rest ← advance_older key rest;
      Ok (cursor :: rest)
  end.

(** [visit_merged_entries]; [None] is running out of fuel. *)
Fixpoint visit_merged_entries (fuel : nat) (cursors : list C) (a : A) : option (res A) :=
  match fuel with
  | O => None
  | S fuel =>
      match find_winner cursors cursors 0 None with
      | None => Some (Ok a)
      | Some w =>
          match drop w cursors with
          | [] => Some (Ok a)
          | newest :: older =>
              match current newest with
              | None => Some (Ok a)
              | Some (key, alive) =>
                  match advance_older key older with
                  | Err e => Some (Err e)
                  | Panic => Some Panic
                  | Ok older =>
                      let '(a, flow) :=
                        if alive then
                          match value newest with
                          | Some value => visit a key value
                          | None => (a, Continue)
                          end
                        else (a, Continue) in
                      if is_break flow then Some (Ok a) else
                      match advance newest with
                      | Err e => Some (Err e)
                      | Panic => Some Panic
                      | Ok newest => visit_merged_entries fuel (take w cursors ++ newest :: older) a
                      end
                  end
              end
          end
      end
  end.

(** ** The contract *)

(** The cursor stands on the first of [es] and yields the rest in turn. *)
Inductive yields : C → list (list byte * MemtableValue) → Prop :=
| yields_nil c : current c = None → yields c []
| yields_cons c k v c' es :
    current c = Some (k, is_live v) → value c = value_view v →
    advance c = Ok c' → yields c' es → yields c ((k, v) :: es).

(** The live entries of a merged map, and a walk over them. *)
Definition live_entries (es : list (list byte * MemtableValue)) : list (list byte * list byte) :=
  omap (λ e, pair e.1 <$> value_view e.2) es.

Fixpoint visit_all (es : list (list byte * list byte)) (a : A) : A :=
  match es with
  | [] => a
  | (k, v) :: rest => let '(a, flow) := visit a k v in
                      if is_break flow then a else visit_all rest a
  end.

End merge.

(** ** Lemmas *)

Section lemmas.
Context {C : Type} `{!KeyCursor C}.
Implicit Types (ess : list (list (list byte * MemtableValue))) (cs : list C).

Lemma yields_current (c : C) es :
  yields c es → current c = (λ e, (e.1, is_live e.2)) <$> head es.
Proof. by destruct 1. Qed.

Lemma advance_older_yields k cs ess :
  Forall2 yields cs ess →
  ∃ cs', advance_older k cs = Ok cs' ∧ Forall2 yields cs' (drop_key k <$> ess).
Proof.
induction 1 as [|c es cs ess Hy _ (cs' & IH & Hcs')]; [by exists []|]. simpl.
destruct Hy as [c Hc|c k1 v1 c' es Hc Hv Ha Hy]; simpl; rewrite Hc.
- simpl. rewrite IH. simpl. eexists. split; [done|]. constructor; [|done]. by constructor.
- destruct (ord_eq k1 k).
  + rewrite Ha. simpl. rewrite IH. simpl. eexists. split; [done|]. by constructor.
  + simpl. rewrite IH. simpl. eexists. split; [done|]. constructor; [|done]. by econstructor.
Qed.

(** [w] is the first source whose head is [k]: every head is at or above [k],
strictly above it before [w]. *)
Definition is_winner ess (w : nat) (k : list byte) : Prop :=
  ∃ before es after, ess = before ++ es :: after ∧ length before = w ∧ head_key es = Some k ∧
    Forall (λ es, ∀ k', head_key es = Some k' → ord_lt k k' = true) before ∧
    Forall (λ es, ∀ k', head_key es = Some k' → ord_lt k' k = false) after.

Definition winner_ok ess (winner : option nat) : Prop :=
  match winner with
  | None => Forall (λ es, head_key es = None) ess
  | Some w => ∃ k, is_winner ess w k
  end.

(** One source more. *)
Lemma winner_ok_snoc ess es winner (best : option (list byte)) :
  winner_ok ess winner →
  (∀ w k, winner = Some w → is_winner ess w k → best = Some k) →
  winner_ok (ess ++ [es])
    match head_key es with
    | None => winner
    | Some key =>
        if match winner with None => true | Some _ =>
             match best with Some b => ord_lt key b | None => false end end
        then Some (length ess) else winner
    end.
Proof.
intros Hw Hb. destruct (head_key es) as [key|] eqn:Ek; destruct winner as [w|]; simpl in Hw.
- destruct Hw as [k Hk]. rewrite (Hb w k eq_refl Hk).
  destruct Hk as (bef & esw & aft & -> & Hl & Hh & Hbef & Haft). destruct (ord_lt key k) eqn:E.
  + exists key, (bef ++ esw :: aft), es, []. split_and!; try done.
    apply Forall_app; split; [|constructor].
    * eapply Forall_impl; [exact Hbef|]. intros es' Hes' k' Hk'. eapply ord_lt_trans; eauto.
    * intros k'. rewrite Hh. by intros [= <-].
    * eapply Forall_impl; [exact Haft|]. intros es' Hes' k' Hk'.
      apply ord_lt_iff. apply ord_lt_iff in E. specialize (Hes' k' Hk').
      apply ord_lt_false in Hes' as [->|?]; [done|by etrans].
  + exists k, bef, esw, (aft ++ [es]). rewrite <-app_assoc. split_and!; try done.
    apply Forall_app; split; [done|]. constructor; [|done]. intros k'. rewrite Ek. by intros [= <-].
- exists key, ess, es, []. split_and!; try done. eapply Forall_impl; [exact Hw|].
  intros es' He' k' Hk'. congruence.
- destruct Hw as (k & bef & esw & aft & -> & Hl & Hh & Hbef & Haft).
  exists k, bef, esw, (aft ++ [es]). rewrite <-app_assoc. split_and!; try done.
  apply Forall_app; split; [done|]. constructor; [|done]. intros k'. by rewrite Ek.
- apply Forall_app; split; [done|]. by constructor.
Qed.

Lemma find_winner_spec cs rest ess1 ess2 winner :
  Forall2 yields cs (ess1 ++ ess2) → Forall2 yields rest ess2 →
  winner_ok ess1 winner →
  winner_ok (ess1 ++ ess2) (find_winner cs rest (length ess1) winner).
Proof.
intros Hy Hr. revert ess1 winner Hy. induction Hr as [|c es rest ess2 Hc Hr IH]; intros ess1 winner Hy Hw.
{ by rewrite app_nil_r. }
simpl. rewrite (yields_current _ _ Hc).
assert (Hb : ∀ w k, winner = Some w → is_winner ess1 w k → fst <$> (cs !! w ≫= current) = Some k).
{ intros w k -> (bef & esw & aft & -> & <- & Hh & _).
  destruct (Forall2_lookup_r _ _ _ (length bef) esw Hy) as (c' & Hc' & Hy').
  { rewrite <-app_assoc. by apply list_lookup_middle. }
  rewrite Hc'. simpl. rewrite (yields_current _ _ Hy'). unfold head_key in Hh.
  destruct (head esw) as [[? ?]|]; [|done]. simpl in *. congruence. }
pose proof (winner_ok_snoc ess1 es winner
  (winner ≫= λ w, fst <$> (cs !! w ≫= current)) Hw) as Hs.
specialize (Hs ltac:(by intros w k -> Hk; apply (Hb w k))).
assert (Hlen : S (length ess1) = length (ess1 ++ [es])) by (rewrite length_app; simpl; lia).
rewrite (app_assoc ess1 [es] ess2 : ess1 ++ es :: ess2 = _) in Hy |- *.
unfold head_key in Hs. destruct es as [|[key v] es]; simpl in Hs |- *; rewrite Hlen.
- by apply IH.
- apply IH; [done|]. destruct winner as [w|]; simpl in *; [|done].
  destruct (cs !! w ≫= current) as [[? ?]|]; simpl in *; done.
Qed.

Lemma find_winner_total cs ess :
  Forall2 yields cs ess → winner_ok ess (find_winner cs cs 0 None).
Proof. intros Hy. apply (find_winner_spec cs cs [] ess None); [done|done|constructor]. Qed.

(** *** One step of the merge *)

Lemma merge_step before (k : list byte) (v : MemtableValue) es after :
  let ess := before ++ ((k, v) :: es) :: after in
  Forall bt_sorted ess →
  Forall (λ es, ∀ k', head_key es = Some k' → ord_lt k k' = true) before →
  Forall (λ es, ∀ k', head_key es = Some k' → ord_lt k' k = false) after →
  merge_layers ess = (k, v) :: merge_layers (before ++ es :: (drop_key k <$> after)).
Proof.
intros ess Hs Hbef Haft.
assert (Hge : Forall (λ es, ∀ k0, head_key es = Some k0 → ord_lt k0 k = false) ess).
{ apply Forall_app; split; [|constructor; [|done]].
  - eapply Forall_impl; [exact Hbef|]. intros ? Hb ? ?. by apply ord_lt_asym, Hb.
  - intros k0 [= <-]. apply ord_lt_irrefl. }
assert (Hrest : before ++ es :: (drop_key k <$> after) = drop_key k <$> ess).
{ unfold ess. rewrite fmap_app, fmap_cons. simpl. rewrite ord_eq_refl. f_equal.
  rewrite <-(list_fmap_id before) at 1. apply list_fmap_ext. intros i es' Hi.
  eapply Forall_lookup_1 in Hbef; [|exact Hi]. destruct es' as [|[k1 v1] es']; [done|]. simpl.
  rewrite ord_eq_ne; [done|]. intros ->. specialize (Hbef k eq_refl).
  by rewrite ord_lt_irrefl in Hbef. }
rewrite Hrest.
apply merge_layers_min; [done|done|]. unfold ess. rewrite layers_get_app. simpl. rewrite ord_cmp_refl.
replace (layers_get k before) with (@None MemtableValue); [done|].
symmetry. apply Forall_app in Hs as [Hsb _]. clear -Hbef Hsb.
induction before as [|es' before IH]; [done|].
apply Forall_cons in Hbef as [Hb Hbef]. apply Forall_cons in Hsb as [Hs1 Hsb]. simpl.
rewrite IH by done. destruct es' as [|[k1 v1] es']; [done|].
rewrite bt_sorted_head_le; [done|done|]. by apply Hb.
Qed.

End lemmas.

Section merge_correct.
Context {C : Type} `{!KeyCursor C} {A : Type}.
Variable visit : A → list byte → list byte → A * ControlFlow.

(** The merge visits the live entries of the merged sources, in key order, until
the visitor breaks; the entries left bound its iterations. *)
Lemma visit_merged_spec fuel (cs : list C) ess a :
  Forall2 yields cs ess → Forall bt_sorted ess → (total_length ess < fuel)%nat →
  visit_merged_entries visit fuel cs a =
  Some (Ok (visit_all visit (live_entries (merge_layers ess)) a)).
Proof.
revert cs ess a. induction fuel as [|fuel IH]; intros cs ess a Hy Hs Hf; [lia|].
cbn [visit_merged_entries]. pose proof (find_winner_total _ _ Hy) as Hw.
destruct (find_winner cs cs 0 None) as [w|]; cbn [winner_ok] in Hw.
2: { by rewrite merge_all_empty. }
destruct Hw as (k & bef & es & aft & -> & Hl & Hh & Hbef & Haft).
destruct es as [|[k1 v] es]; [done|]. injection Hh as ->.
apply Forall2_app_inv_r in Hy as (cb & cr & Hyb & Hyr & ->).
pose proof (Forall2_length _ _ _ Hyb) as Hlb.
apply Forall2_cons_inv_r in Hyr as (c & ca & Hyc & Hya & ->).
rewrite drop_app_length', take_app_length' by lia.
rewrite (merge_step _ _ _ _ _ Hs Hbef Haft).
inversion Hyc as [|? ? ? c' ? Hc Hv Ha Hy']; subst. rewrite Hc.
destruct (advance_older_yields k ca aft Hya) as (ca' & -> & Hya'). rewrite Ha.
assert (Hnext : ∀ a, visit_merged_entries visit fuel (cb ++ c' :: ca') a =
  Some (Ok (visit_all visit (live_entries (merge_layers (bef ++ es :: (drop_key k <$> aft)))) a))).
{ intros a'. apply IH.
  - apply Forall2_app; [done|]. by constructor.
  - apply Forall_app in Hs as [Hs1 Hs2]. apply Forall_cons in Hs2 as [Hs2 Hs3].
    apply Forall_app; split; [done|]. constructor; [by eapply bt_sorted_cons_inv|].
    apply Forall_fmap. eapply Forall_impl; [exact Hs3|]. intros ?. apply drop_key_sorted.
  - rewrite total_length_app in *. pose proof (total_length_drop k aft) as Hd.
    unfold total_length in *. cbn [sum_list_with length] in *. lia. }
unfold live_entries. destruct v as [d|]; simpl.
- rewrite Hv. simpl. destruct (visit a k d) as [a' flow]. destruct (is_break flow); [done|]. apply Hnext.
- apply Hnext.
Qed.

End merge_correct.

(** ** The memtable's cursor *)

Section memtable_cursor.
Context {M : Type} `{!SkipMap CompositeKey MemtableValue M}.

Record MemtableKeyCursor := MkMemCursor {
  mc_map : M;
  mc_current : option (CompositeKey * MemtableValue);
  mc_end : CompositeKey
}.

Definition below (end_ : CompositeKey) (e : option (CompositeKey * MemtableValue))
    : option (CompositeKey * MemtableValue) :=
  match e with
  | Some e => if ord_lt e.1 end_ then Some e else None
  | None => None
  end.

Definition mem_cursor_new (map : M) (r : RealmId) (start end_ : list byte) : MemtableKeyCursor :=
  let start := CKey r start in
  let end_ := CKey r end_ in
  MkMemCursor map (below end_ (sm_lower_bound start map)) end_.

#[export] Instance memtable_key_cursor : KeyCursor MemtableKeyCursor := {|
  current c := (λ e, (ck_key e.1, is_live e.2)) <$> mc_current c;
  value c := mc_current c ≫= λ e, value_view e.2;
  advance c := Ok (MkMemCursor (mc_map c)
    (below (mc_end c) (mc_current c ≫= λ e, sm_next e.1 (mc_map c))) (mc_end c))
|}.

(** [Memtable::maps]: the maps of a key walk, newest first. *)
Definition maps (mt : Memtable M) : list M :=
  mt_data mt :: match mt_flushing mt with Some parked => [parked] | None => [] end.

Context `{!SkipMapLaws CompositeKey MemtableValue M}.

Lemma take_while_ext {B} (p q : B → bool) l :
  (∀ x, x ∈ l → p x = q x) → take_while p l = take_while q l.
Proof.
induction l as [|x l IH]; intros Hpq; [done|]. simpl. rewrite Hpq by set_solver.
destruct (q x); [|done]. f_equal. apply IH. set_solver.
Qed.

Lemma mem_cursor_rest m pre rest end_ :
  sm_iter m = pre ++ rest →
  yields (MkMemCursor m (below end_ (head rest)) end_)
    ((λ e, (ck_key e.1, e.2)) <$> take_while (λ e, ord_lt e.1 end_) rest).
Proof.
revert pre. induction rest as [|e rest IH]; intros pre Hm; simpl; [by constructor|].
destruct (ord_lt e.1 end_) eqn:E; [|by constructor].
rewrite fmap_cons. econstructor; [done|done|reflexivity|]. simpl.
rewrite sm_next_iter, (filter_gt_rest _ pre rest e (sm_iter_sorted m) Hm).
apply (IH (pre ++ [e])). by rewrite Hm, <-app_assoc.
Qed.

(** The memtable's cursor walks the window of one map. *)
Lemma mem_cursor_yields m r start end_ :
  yields (mem_cursor_new m r start end_) (scan_realm_range m r start end_).
Proof.
unfold mem_cursor_new, scan_realm_range. rewrite sm_lower_bound_iter, entries_from_filter.
destruct (filter_ge_suffix (CKey r start) _ (sm_iter_sorted m)) as [pre Hpre].
rewrite (take_while_ext _ (λ e, ord_lt e.1 (CKey r end_))); [by eapply mem_cursor_rest|].
intros [[r' k] v] [Hge _]%list_elem_of_filter. simpl in *. unfold in_window. simpl.
apply eq_true_iff_eq. rewrite andb_true_iff, ord_eq_iff. split.
- intros [-> Hlt]. by rewrite ord_lt_same_realm.
- intros Hlt. pose proof (ck_between_realm _ _ _ _ Hge Hlt) as Hr. simpl in Hr. subst r'.
  by rewrite ord_lt_same_realm in Hlt.
Qed.

End memtable_cursor.
Arguments MemtableKeyCursor M : clear implicits.

(** ** Theorems *)

(** The streaming merge visits exactly the live entries of its sources, once
each and in ascending key order, with the value of the newest source holding the
key (a tombstone hides the older copies), and stops as soon as the visitor
breaks. The number of entries left bounds its iterations. *)
Theorem visit_merged_exact {C A} `{!KeyCursor C} (visit : A → list byte → list byte → A * ControlFlow)
    (cursors : list C) ess a :
  Forall2 yields cursors ess → Forall bt_sorted ess →
  visit_merged_entries visit (S (total_length ess)) cursors a =
  Some (Ok (visit_all visit (live_entries (merge_layers ess)) a)).
Proof. intros Hy Hs. apply visit_merged_spec; [done..|lia]. Qed.

(** Walking a memtable's maps with its cursors visits the same live entries
as its collected range read, also while a flush has a map parked. *)
Theorem memtable_walk_matches_range {M A} `{!SkipMap CompositeKey MemtableValue M}
    `{!SkipMapLaws CompositeKey MemtableValue M} (visit : A → list byte → list byte → A * ControlFlow)
    r start end_ (mt : Memtable M) a :
  ∃ n, ∀ fuel, (n < fuel)%nat →
    visit_merged_entries visit fuel ((λ m, mem_cursor_new m r start end_) <$> maps mt) a =
    Some (Ok (visit_all visit (live_entries (iter_realm_range r start end_ mt)) a)).
Proof.
exists (total_length ((λ m, scan_realm_range m r start end_) <$> maps mt)). intros fuel Hf.
assert (Hsort : ∀ m : M, bt_sorted (scan_realm_range m r start end_)) by (intros; apply (window_sorted id)).
rewrite (visit_merged_spec visit fuel _ ((λ m, scan_realm_range m r start end_) <$> maps mt)).
- do 4 f_equal. unfold maps, iter_realm_range, merge_layers.
  destruct (mt_flushing mt) as [parked|]; simpl; [done|].
  apply bt_ext; [by apply bt_insert_all_sorted; constructor|apply Hsort|].
  intros k. rewrite bt_get_insert_all, last_write_sorted by apply Hsort. by destruct (bt_get _ _).
- apply Forall2_fmap, Forall_Forall2_diag. apply Forall_forall. intros m _. apply mem_cursor_yields.
- apply Forall_fmap, Forall_forall. intros m _. apply Hsort.
- done.
Qed.

(** A visitor that collects every entry. *)
Definition collect (acc : list (list byte * list byte)) (k v : list byte) :=
  (acc ++ [(k, v)], Continue).

(** An explicit cursor over a list, the instance the witness uses. *)
Definition list_cursor : KeyCursor (list (list byte * MemtableValue)) := {|
  current c := (λ e, (e.1, is_live e.2)) <$> head c;
  value c := head c ≫= λ e, value_view e.2;
  advance c := Ok (tail c)
|}.

Lemma visit_merged_exact_witness :
  @visit_merged_entries _ list_cursor _ collect 5
    [[([x61], Tombstone)]; [([x61], Data [x01]); ([x62], Data [x02])]; []] [] =
  Some (Ok [([x62], [x02])]).
Proof.
pose (ess := [[([x61], Tombstone)]; [([x61], Data [x01]); ([x62], Data [x02])]; []]).
assert (Hy : Forall2 (@yields _ list_cursor) ess ess).
{ repeat constructor; repeat econstructor. }
assert (Hs : Forall bt_sorted ess) by (repeat constructor).
pose proof (@visit_merged_exact _ _ list_cursor collect ess ess [] Hy Hs) as Hm.
vm_compute in Hm. vm_compute. exact Hm.
Defined.

Lemma memtable_walk_matches_range_witness :
  ∃ n, ∀ fuel, (n < fuel)%nat →
    visit_merged_entries collect fuel
      ((λ m, mem_cursor_new m wit_realm [x61] [x63]) <$> maps (new (M := ref_map) wit_config)) [] =
    Some (Ok []).
Proof. exact (memtable_walk_matches_range collect wit_realm [x61] [x63] (new (M := ref_map) wit_config) []). Defined.
