(* ===== verification/Paging.v ===== *)
(** * Prefix counting and offset paging

[storage/paging.rs] and the default methods of the [StorageEngine] trait
([storage/mod.rs]). Paging is written against the trait's reads; [ReadLaws] is
what it needs of them, and any engine that provides an exact [scan] satisfies it
through the trait's defaults. *)
From stdpp Require Import base list gmap strings sorting.
From Stdlib Require Import Strings.Byte ZArith Lia.
From S2P Require Import Prelude OrdMap StorageTypes WalCodec Memtable KeyMerge.

Open Scope Z_scope.

(** The reads of the trait paging calls. *)
Class EngineReads (E : Type) := {
  scan : E → RealmId → list byte → list byte → res (list ScanEntry);
  visit_keys : ∀ {A}, E → RealmId → list byte → list byte →
    (A → list byte → A * ControlFlow) → A → res A
}.

(** A walk over keys with a visitor that may break. *)
Fixpoint walk {A} (visit : A → list byte → A * ControlFlow) (ks : list (list byte)) (a : A) : A :=
  match ks with
  | [] => a
  | k :: ks => let '(a, flow) := visit a k in if is_break flow then a else walk visit ks a
  end.

Section paging.
Context {E : Type} `{!EngineReads E}.

(** The closure's state and result in [count_prefix]. *)
Definition count_visit (cap n : Z) (_ : list byte) : Z * ControlFlow :=
  let n := n + 1 in
  (n, if negb (cap =? 0) && (cap <=? n) then Break else Continue).

Definition capped (cap n : Z) : Z := if cap =? 0 then n else Z.min n cap.

Definition count_prefix (engine : E) (r : RealmId) (prefix : list byte) (cap : Z) : res Z :=
  match prefix with
  | [] => Ok 0
  | _ =>
    let end_ := prefix_scan_end prefix in
    n ← visit_keys engine r prefix end_ (count_visit cap) 0;
    Ok (capped cap n)
  end.

(** The closure of [scan_prefix_paged]: [n], [window_start], [window_end]. *)
Record PageWalk := MkPageWalk {
  pw_n : Z; pw_start : option (list byte); pw_end : option (list byte)
}.

Definition page_visit (offset limit cap after_window : Z) (s : PageWalk) (key : list byte)
    : PageWalk * ControlFlow :=
  let n := pw_n s in
  let '(window_start, window_end) :=
    if n =? offset then
      (if 0 <? limit then Some key else pw_start s, pw_end s)
    else if n =? after_window then (pw_start s, Some key)
    else (pw_start s, pw_end s) in
  let n := n + 1 in
  let window_known := (limit =? 0) || match window_end with Some _ => true | None => false end in
  (MkPageWalk n window_start window_end,
   if window_known && negb (cap =? 0) && (cap <=? n) then Break else Continue).

Definition scan_prefix_paged (engine : E) (r : RealmId) (prefix : list byte)
    (offset limit cap : Z) : res (list ScanEntry * Z) :=
  match prefix with
  | [] => Ok ([], 0)
  | _ =>
    let prefix_end := prefix_scan_end prefix in
    let after_window := sat_add_u64 offset limit in
    s ← visit_keys engine r prefix prefix_end
          (page_visit offset limit cap after_window) (MkPageWalk 0 None None);
    let total := capped cap (pw_n s) in
    match pw_start s with
    | None => Ok ([], total)
    | Some window_start =>
        let window_end := default prefix_end (pw_end s) in
        window ← scan engine r window_start window_end;
        Ok (take (Z.to_nat limit) window, total)
    end
  end.

End paging.

(** ** The trait's defaults *)

Section defaults.
Context {E : Type} (scan : E → RealmId → list byte → list byte → res (list ScanEntry)).

Definition default_scan_keys (engine : E) (r : RealmId) (start end_ : list byte)
    : res (list (list byte)) :=
  scan engine r start end_ ≫= λ entries : list ScanEntry, Ok (se_key <$> entries).

(** [visit_collected_keys]. *)
Definition visit_collected_keys {A} (engine : E) (r : RealmId) (start end_ : list byte)
    (visit : A → list byte → A * ControlFlow) (a : A) : res A :=
  keys ← default_scan_keys engine r start end_;
  Ok (walk visit keys a).

(** The [visit_entries] default. *)
Fixpoint visit_entry_list {A} (visit : A → list byte → list byte → A * ControlFlow)
    (entries : list ScanEntry) (a : A) : A :=
  match entries with
  | [] => a
  | e :: rest => let '(a, flow) := visit a (se_key e) (se_value e) in
                 if is_break flow then a else visit_entry_list visit rest a
  end.

Definition default_visit_entries {A} (engine : E) (r : RealmId) (start end_ : list byte)
    (visit : A → list byte → list byte → A * ControlFlow) (a : A) : res A :=
  entries ← scan engine r start end_;
  Ok (visit_entry_list visit entries a).

Definition default_reads : EngineReads E := {|
  Paging.scan := scan;
  visit_keys A := visit_collected_keys
|}.

End defaults.

(** ** What paging needs of the engine *)

(** The live keys and values of a realm. *)
Abbreviation realm_view := (list (list byte * list byte)).

Definition view_window (start end_ : list byte) (m : realm_view) : realm_view :=
  filter (λ e, key_in start end_ e.1 = true) m.

Definition to_scan (m : realm_view) : list ScanEntry := (λ e, Scan e.1 e.2) <$> m.

(** Both reads serve the window of one sorted map. *)
Class ReadLaws (E : Type) `{!EngineReads E} (view : E → RealmId → realm_view) : Prop := {
  view_sorted st r : bt_sorted (view st r);
  scan_window st r start end_ :
    ord_lt end_ start = false →
    scan st r start end_ = Ok (to_scan (view_window start end_ (view st r)));
  visit_keys_window A st r start end_ (visit : A → list byte → A * ControlFlow) a :
    ord_lt end_ start = false →
    visit_keys st r start end_ visit a = Ok (walk visit (view_window start end_ (view st r)).*1 a)
}.

(** The trait's defaults turn an exact [scan] into exact paging reads. *)
Lemma default_read_laws {E} (scan : E → RealmId → list byte → list byte → res (list ScanEntry)) view :
  (∀ st r, bt_sorted (view st r)) →
  (∀ st r start end_, ord_lt end_ start = false →
     scan st r start end_ = Ok (to_scan (view_window start end_ (view st r)))) →
  @ReadLaws E (default_reads scan) view.
Proof.
intros Hv Hs. split; [done|done|]. intros A st r start end_ visit a Hle. simpl.
unfold visit_collected_keys, default_scan_keys. rewrite Hs by done. simpl.
do 2 f_equal. unfold to_scan. by rewrite <-list_fmap_compose.
Qed.

(** ** Lemmas *)

Lemma count_visit_walk cap ks n :
  0 <= n → 0 <= cap → (cap = 0 ∨ n < cap) →
  capped cap (walk (count_visit cap) ks n) = capped cap (n + zlen ks).
Proof.
revert n. induction ks as [|k ks IH]; intros n Hn Hc Hlt; simpl; [by rewrite zlen_nil, Z.add_0_r|].
unfold capped in *. rewrite zlen_cons. pose proof (zlen_nonneg ks).
destruct (Z.eqb_spec cap 0) as [->|Hc0]; simpl.
- rewrite IH by lia. lia.
- destruct (Z.leb_spec cap (n + 1)); simpl; [lia|]. rewrite IH by lia. lia.
Qed.

(** What the walk finds at a position, seen from [n]. *)
Definition found (limit n pos : Z) (old : option (list byte)) (ks : list (list byte)) :=
  if negb (limit =? 0) && (n <=? pos) then at_ (pos - n) ks else old.

Lemma at_cons {A} i (x : A) l : at_ i (x :: l) = if i =? 0 then Some x else at_ (i - 1) l.
Proof.
unfold at_. destruct (Z.eqb_spec i 0) as [->|Hi]; [done|].
destruct (Z.leb_spec 0 i), (Z.leb_spec 0 (i - 1)); try lia; [|done].
replace (Z.to_nat i) with (S (Z.to_nat (i - 1))) by lia. done.
Qed.

Lemma at_beyond {A} i (l : list A) : zlen l <= i → at_ i l = None.
Proof.
intros Hi. unfold at_. destruct (0 <=? i); [|done]. apply lookup_ge_None. unfold zlen in Hi. lia.
Qed.

Lemma found_cons limit n pos old k ks :
  n ≠ pos → found limit n pos old (k :: ks) = found limit (n + 1) pos old ks.
Proof.
intros Hne. unfold found. destruct (limit =? 0); [done|]. simpl.
destruct (Z.leb_spec n pos), (Z.leb_spec (n + 1) pos); try lia; [|done].
rewrite at_cons. destruct (Z.eqb_spec (pos - n) 0); [lia|]. f_equal. lia.
Qed.

Lemma found_here limit n old k ks :
  found limit n n old (k :: ks) = if limit =? 0 then old else Some k.
Proof.
unfold found. destruct (limit =? 0); [done|]. simpl. rewrite Z.leb_refl, Z.sub_diag. done.
Qed.

Lemma found_past limit n pos old ks : pos < n → found limit n pos old ks = old.
Proof.
intros. unfold found. rewrite (proj2 (Z.leb_gt n pos)) by lia. by rewrite andb_false_r.
Qed.

(** One key of the walk: the new bounds account for it. *)
Lemma page_bounds offset limit n st en k ks :
  let aw := sat_add_u64 offset limit in
  0 <= offset → 0 <= limit → n < u64_max →
  let '(st', en') :=
    if n =? offset then (if 0 <? limit then Some k else st, en)
    else if n =? aw then (st, Some k) else (st, en) in
  found limit n offset st (k :: ks) = found limit (n + 1) offset st' ks ∧
  found limit n aw en (k :: ks) = found limit (n + 1) aw en' ks ∧
  (n < offset → st' = st) ∧ (n < aw → en' = en).
Proof.
intros aw Ho Hl Hn. unfold aw, sat_add_u64.
destruct (Z.eqb_spec n offset) as [->|Hno].
- rewrite found_here, found_past by lia. split_and!; [|..|lia|done].
  + destruct (Z.eqb_spec limit 0) as [->|]; [done|]. rewrite (proj2 (Z.ltb_lt _ _)) by lia. done.
  + destruct (Z.eqb_spec limit 0) as [->|]; [unfold found; simpl; done|].
    apply found_cons. lia.
- rewrite found_cons by done. destruct (Z.eqb_spec n (Z.min (offset + limit) u64_max)) as [Hna|Hna].
  + split_and!; [done| |done|lia]. rewrite <-Hna, found_here, found_past by lia.
    destruct (Z.eqb_spec limit 0) as [->|]; [lia|done].
  + split_and!; [done| |done|done]. by apply found_cons.
Qed.

Lemma found_nil limit n pos old : (n <= pos → old = None) → found limit n pos old [] = old.
Proof.
intros Ho. unfold found. destruct (limit =? 0); [done|]. simpl.
destruct (Z.leb_spec n pos); [|done]. rewrite Ho by done. unfold at_.
by destruct (0 <=? pos - n).
Qed.

(** The walk finds the page's first key and the first key after it, and counts
the keys up to the cap. *)
Lemma page_walk offset limit cap ks n st en :
  let aw := sat_add_u64 offset limit in
  0 <= offset → 0 <= limit → 0 <= cap → n + zlen ks <= u64_max →
  (n <= offset → st = None) → (n <= aw → en = None) →
  let s := walk (page_visit offset limit cap aw) ks (MkPageWalk n st en) in
  (cap = 0 ∨ n < cap ∨ limit ≠ 0 ∧ en = None) →
  capped cap (pw_n s) = capped cap (n + zlen ks) ∧
  pw_start s = found limit n offset st ks ∧
  pw_end s = found limit n aw en ks.
Proof.
intros aw Ho Hl Hc. revert n st en. induction ks as [|k ks IH]; intros n st en Hlen Hst Hen s Hcap.
{ unfold s. simpl. rewrite zlen_nil, Z.add_0_r, !found_nil by done. done. }
rewrite zlen_cons in Hlen. pose proof (zlen_nonneg ks) as Hks.
pose proof (page_bounds offset limit n st en k ks Ho Hl ltac:(lia)) as Hb. fold aw in Hb.
unfold s. cbn [walk]. destruct (page_visit _ _ _ _ _ k) as [s' flow] eqn:Ev.
unfold page_visit in Ev. cbn [pw_n pw_start pw_end] in Ev.
destruct (if n =? offset then _ else _) as [st' en']. destruct Hb as (-> & -> & Hst' & Hen').
set (stop := _ && _ && _) in Ev. injection Ev as <- <-.
destruct stop eqn:Hstop; cbn [is_break pw_n pw_start pw_end].
- unfold stop in Hstop. apply andb_true_iff in Hstop as [Hstop Hcn].
  apply andb_true_iff in Hstop as [Hk Hc0]. apply negb_true_iff, Z.eqb_neq in Hc0.
  apply Z.leb_le in Hcn. split_and!.
  + unfold capped. rewrite (proj2 (Z.eqb_neq _ _) Hc0), zlen_cons. lia.
  + unfold found. destruct (Z.eqb_spec limit 0); [done|]. simpl in Hk |- *.
    destruct en' as [e|]; [|done]. rewrite (proj2 (Z.leb_gt _ _)); [done|].
    assert (aw <= n) as Hna.
    { destruct (Z.lt_ge_cases n aw) as [Hlt|]; [|done]. specialize (Hen' Hlt).
      rewrite Hen in Hen' by lia. done. }
    unfold aw, sat_add_u64 in *. lia.
  + unfold found. destruct (Z.eqb_spec limit 0); [done|]. simpl in Hk |- *.
    destruct en' as [e|]; [|done]. rewrite (proj2 (Z.leb_gt _ _)); [done|].
    assert (aw <= n) as Hna.
    { destruct (Z.lt_ge_cases n aw) as [Hlt|]; [|done]. specialize (Hen' Hlt).
      rewrite Hen in Hen' by lia. done. }
    lia.
- rewrite zlen_cons. replace (n + (1 + zlen ks)) with (n + 1 + zlen ks) by lia.
  apply IH; [lia| | |].
  + intros Hlt. rewrite Hst', Hst by lia. done.
  + intros Hlt. rewrite Hen', Hen by lia. done.
  + unfold stop in Hstop. destruct (Z.eqb_spec cap 0); [by left|]. right.
    destruct (Z.leb_spec cap (n + 1)); [|by left]. right. simpl in Hstop.
    destruct (Z.eqb_spec limit 0); [done|]. split; [done|]. by destruct en'.
Qed.

(** *** Windows of a sorted view *)

Lemma bt_sorted_drop_filter (m : realm_view) i k v :
  bt_sorted m → m !! i = Some (k, v) →
  filter (λ e, ord_lt e.1 k = false) m = drop i m ∧
  filter (λ e, ord_lt e.1 k = true) m = take i m.
Proof.
intros Hs Hi. pose proof (take_drop_middle m i _ Hi) as Hm.
unfold bt_sorted in Hs. rewrite <-(take_drop_middle m i _ Hi), fmap_app, fmap_cons in Hs.
apply StronglySorted_app in Hs as (Hx & _ & Hs). apply StronglySorted_cons in Hs as [Hf _].
assert (Hb : ∀ e, e ∈ take i m → ord_lt e.1 k = true).
{ intros e He. apply ord_lt_iff. apply Hx; [|set_solver]. apply list_elem_of_fmap. eauto. }
assert (Ha : ∀ e, e ∈ drop (S i) m → ord_lt e.1 k = false).
{ intros e He. apply ord_lt_asym, ord_lt_iff. eapply (proj1 (Forall_forall _ _)); [exact Hf|].
  apply list_elem_of_fmap. eauto. }
split.
- trans (filter (λ e : list byte * list byte, ord_lt e.1 k = false) (take i m ++ (k, v) :: drop (S i) m));
    [by rewrite Hm|]. rewrite filter_app, filter_cons, decide_True by apply ord_lt_irrefl.
  rewrite filter_none by (intros e He; rewrite Hb; done).
  rewrite filter_all by done. by rewrite (drop_S m _ i Hi).
- trans (filter (λ e : list byte * list byte, ord_lt e.1 k = true) (take i m ++ (k, v) :: drop (S i) m));
    [by rewrite Hm|]. rewrite filter_app, filter_cons, decide_False by (simpl; rewrite ord_lt_irrefl; done).
  rewrite filter_all by done. rewrite filter_none by (intros e He; rewrite Ha; done).
  by rewrite app_nil_r.
Qed.

(** A window that starts at the [i]-th entry of another and ends inside it. *)
Lemma view_window_sub start end_ m i ws v we :
  let w := view_window start end_ m in
  bt_sorted m → w !! i = Some (ws, v) →
  (we = end_ ∨ ∃ j v', w !! j = Some (we, v')) →
  view_window ws we m = filter (λ e, ord_lt e.1 we = true) (drop i w).
Proof.
intros w Hs Hi Hwe.
assert (Hsw : bt_sorted w) by by apply bt_sorted_filter.
rewrite <-(proj1 (bt_sorted_drop_filter w i ws v Hsw Hi)).
unfold w, view_window. rewrite !filter_filter. apply list_filter_iff. intros [k v0]. simpl.
assert (Hin : ∀ i e, w !! i = Some e → key_in start end_ e.1 = true).
{ intros i' e He. apply list_elem_of_lookup_2, list_elem_of_filter in He as [He _]. exact He. }
apply Hin in Hi. simpl in Hi. rewrite !key_in_true in *. split; [|tauto].
intros [Hge Hlt]. split_and!; try done.
- apply ord_lt_false. apply ord_lt_false in Hge. destruct Hi as [Hi _].
  apply ord_lt_false in Hi. destruct Hge as [->|?]; [done|]. destruct Hi as [->|?]; [by right|].
  right. by etrans.
- destruct Hwe as [->|(j & v' & Hj)]; [done|]. apply Hin in Hj. simpl in Hj.
  rewrite key_in_true in Hj. eapply ord_lt_trans; [exact Hlt|apply Hj].
Qed.

Lemma filter_take_prefix (w : realm_view) i j k v :
  bt_sorted w → (i <= j)%nat → w !! j = Some (k, v) →
  filter (λ e, ord_lt e.1 k = true) (drop i w) = take (j - i) (drop i w).
Proof.
intros Hs Hij Hj. eapply bt_sorted_drop_filter.
- unfold bt_sorted in *. rewrite fmap_drop. rewrite <-(take_drop i w.*1) in Hs.
  by apply StronglySorted_app_1_r in Hs.
- rewrite lookup_drop, <-Hj. f_equal. lia.
Qed.

Lemma prefix_end_ge p : ord_lt (prefix_scan_end p) p = false.
Proof.
apply not_true_iff_false. rewrite ord_lt_iff. induction p as [|b p IH]; [by apply lexico_nil_r|].
destruct p as [|b' p].
- simpl. rewrite lexico_cons. intros [Hlt|[_ Hn]]; [|by apply lexico_nil_r in Hn].
  unfold lexico, byte_lexico in Hlt. destruct (decide (byte_val b = 255)) as [Hb|Hb].
  + unfold sat_incr in Hlt. rewrite Hb in Hlt. simpl in Hlt. lia.
  + rewrite sat_incr_val in Hlt by done. lia.
- change (prefix_scan_end (b :: b' :: p)) with (b :: prefix_scan_end (b' :: p)).
  rewrite lexico_cons. intros [Hlt|[_ Hlt]]; [by apply lexico_irrefl_b in Hlt|done].
Qed.

(** The keys a prefix scan serves are those that start with the prefix. *)
Definition with_prefix (p : list byte) (m : realm_view) : realm_view :=
  filter (λ e, p `prefix_of` e.1) m.

Lemma view_window_prefix p m :
  (∃ b, last p = Some b ∧ byte_val b ≠ 255) →
  view_window p (prefix_scan_end p) m = with_prefix p m.
Proof.
intros Hb. apply list_filter_iff. intros [k v]. simpl.
rewrite key_in_true, ord_lt_iff, <-prefix_window by done.
rewrite <-(not_true_iff_false (ord_lt k p)), ord_lt_iff. done.
Qed.

Lemma at_lookup {A} i (l : list A) : 0 <= i → at_ i l = l !! Z.to_nat i.
Proof. intros Hi. unfold at_. by rewrite (proj2 (Z.leb_le 0 i) Hi). Qed.

Section theorems.
Context {E : Type} `{!EngineReads E} {view : E → RealmId → realm_view} `{!ReadLaws E view}.

(** The value scan between the two keys the walk found reads the page. *)
Lemma page_scan st r start end_ offset limit ws v :
  let w := view_window start end_ (view st r) in
  0 <= offset → 0 < limit → zlen w <= u64_max →
  w !! Z.to_nat offset = Some (ws, v) →
  ∃ win, scan st r ws (default end_ (fst <$> w !! Z.to_nat (sat_add_u64 offset limit))) = Ok win ∧
    take (Z.to_nat limit) win = take (Z.to_nat limit) (drop (Z.to_nat offset) (to_scan w)).
Proof.
intros w Ho Hl Hlw Ews. pose proof (view_sorted (view := view) st r) as Hsort.
assert (Hsw : bt_sorted w) by by apply bt_sorted_filter.
assert (Hin : ∀ e, e ∈ w → key_in start end_ e.1 = true)
  by (intros e He; by apply list_elem_of_filter in He as [He _]).
unfold to_scan. rewrite <-fmap_drop, <-fmap_take.
destruct (w !! Z.to_nat (sat_add_u64 offset limit)) as [[we v']|] eqn:Ewe; simpl.
- pose proof (lookup_lt_Some _ _ _ Ewe) as Hlt'.
  assert (Hj : (Z.to_nat offset < Z.to_nat (sat_add_u64 offset limit))%nat)
    by (unfold zlen, sat_add_u64 in *; lia).
  assert (Hlt : ord_lt ws we = true).
  { apply ord_lt_iff. eapply (sorted_lookup _ w.*1); [exact Hsw|exact Hj|..];
      rewrite list_lookup_fmap; [by rewrite Ews|by rewrite Ewe]. }
  eexists. split; [apply scan_window; by apply ord_lt_asym|].
  rewrite (view_window_sub start end_ _ (Z.to_nat offset) ws v we); [|done..|eauto]. fold w.
  rewrite (filter_take_prefix w _ (Z.to_nat (sat_add_u64 offset limit)) we v'); [|done|lia|done].
  unfold to_scan. rewrite <-fmap_take, take_take. do 2 f_equal.
  unfold zlen, sat_add_u64 in *. lia.
- pose proof (Hin _ (list_elem_of_lookup_2 _ _ _ Ews)) as Hws. rewrite key_in_true in Hws.
  eexists. split; [apply scan_window; apply ord_lt_asym; tauto|].
  rewrite (view_window_sub start end_ _ (Z.to_nat offset) ws v end_); [|done..|by left]. fold w.
  rewrite filter_all; [unfold to_scan; by rewrite <-fmap_take|].
  intros e He. specialize (Hin e ltac:(by eapply subseteq_drop in He)).
  rewrite key_in_true in Hin. tauto.
Qed.

Lemma scan_prefix_window st r p offset limit cap :
  p ≠ [] → 0 <= offset → 0 <= limit → 0 <= cap → zlen (view st r) <= u64_max →
  let w := view_window p (prefix_scan_end p) (view st r) in
  scan_prefix_paged st r p offset limit cap =
  Ok (take (Z.to_nat limit) (drop (Z.to_nat offset) (to_scan w)), capped cap (zlen w)).
Proof.
intros Hp Ho Hl Hc Hlen w.
assert (Hlw : zlen w <= u64_max).
{ pose proof (length_filter (λ e, key_in p (prefix_scan_end p) e.1 = true) (view st r)).
  unfold zlen in *. unfold w, view_window. lia. }
unfold scan_prefix_paged. destruct p as [|b p]; [done|].
rewrite visit_keys_window by apply prefix_end_ge. fold w. rewrite bind_ok.
pose proof (page_walk offset limit cap w.*1 0 None None Ho Hl Hc) as Hw.
assert (Hk : zlen w.*1 = zlen w) by (unfold zlen; by rewrite length_fmap).
rewrite Hk in Hw. destruct Hw as (Hn & Hs & He); [lia|done|done|lia|].
rewrite Hn, Hs, He, Z.add_0_l. unfold found. rewrite (proj2 (Z.leb_le 0 offset) Ho).
assert (Haw : 0 <= sat_add_u64 offset limit) by (unfold sat_add_u64, u64_max; lia).
rewrite (proj2 (Z.leb_le _ _) Haw), !Z.sub_0_r, !at_lookup, !list_lookup_fmap by done.
destruct (Z.eqb_spec limit 0) as [->|Hl0]; cbn [negb andb]; [done|].
destruct (w !! Z.to_nat offset) as [[ws v]|] eqn:Ews; cbn [fmap option_fmap option_map fst].
- destruct (page_scan st r (b :: p) (prefix_scan_end (b :: p)) offset limit ws v)
    as (win & Hwin & Ht); [done|lia|done|done|].
  unfold w. rewrite Hwin, bind_ok. by rewrite Ht.
- apply lookup_ge_None in Ews. rewrite drop_ge; [by rewrite take_nil|].
  unfold to_scan. by rewrite length_fmap.
Qed.

(** A page of a prefix listing is exactly the [limit] entries from
position [offset] of the realm's live keys under the prefix, in key order, and
the total is their count, cut at a non-zero cap. The page is exact whatever the
cap. (The prefix's last byte must not be 255.) *)
Theorem scan_prefix_paged_exact st r p offset limit cap :
  (∃ b, last p = Some b ∧ byte_val b ≠ 255) →
  0 <= offset <= u64_max → 0 <= limit <= u32_max → 0 <= cap <= u64_max →
  zlen (view st r) <= u64_max →
  let all := with_prefix p (view st r) in
  scan_prefix_paged st r p offset limit cap =
  Ok (take (Z.to_nat limit) (drop (Z.to_nat offset) (to_scan all)), capped cap (zlen all)).
Proof.
intros Hb Ho Hl Hc Hlen all. unfold all. rewrite <-view_window_prefix by done.
apply scan_prefix_window; [|lia..]. intros ->. by destruct Hb as (? & ? & _).
Qed.

(** [count_prefix] counts the live keys under the prefix, cut at a non-zero
cap. *)
Theorem count_prefix_exact st r p cap :
  (∃ b, last p = Some b ∧ byte_val b ≠ 255) → 0 <= cap <= u64_max →
  count_prefix st r p cap = Ok (capped cap (zlen (with_prefix p (view st r)))).
Proof.
intros Hb Hc. unfold count_prefix. destruct p as [|b p]; [by destruct Hb as (? & ? & _)|].
rewrite visit_keys_window by apply prefix_end_ge. rewrite bind_ok, <-view_window_prefix by done.
rewrite count_visit_walk by lia. do 2 f_equal. unfold zlen. rewrite length_fmap. lia.
Qed.

(** A prefix whose last byte is 255 lists and counts nothing, whatever keys
start with it: the window's end does not increase past it. *)
Lemma prefix_255_empty st r p cap :
  last p = Some xff → count_prefix st r p cap = Ok (capped cap 0).
Proof.
intros Hp. unfold count_prefix. destruct p as [|b p]; [done|].
rewrite visit_keys_window by apply prefix_end_ge. rewrite bind_ok.
rewrite prefix_window_saturated by (intros b' Hb'; rewrite Hp in Hb'; injection Hb' as <-; done).
unfold view_window. rewrite filter_none; [done|]. intros e _. unfold key_in.
rewrite andb_negb_l. done.
Qed.

End theorems.

(** ** Witnesses *)

(** An engine that is its own sorted view. *)
Definition wit_view : realm_view :=
  [([x61], [x01]); ([x61; x01], [x02]); ([x61; x02], [x03]); ([x62], [x04])].
Definition wit_scan (_ : unit) (_ : RealmId) (start end_ : list byte) : res (list ScanEntry) :=
  Ok (to_scan (view_window start end_ wit_view)).

Lemma wit_read_laws : @ReadLaws unit (default_reads wit_scan) (λ _ _, wit_view).
Proof. apply default_read_laws; [|done]. intros _ _. by apply bt_sortedb_sound. Defined.

Lemma scan_prefix_paged_exact_witness :
  @scan_prefix_paged unit (default_reads wit_scan) tt [] [x61] 1 1 2 =
  Ok ([Scan [x61; x01] [x02]], 2).
Proof.
rewrite (@scan_prefix_paged_exact unit (default_reads wit_scan) _ wit_read_laws tt [] [x61] 1 1 2).
- vm_compute. reflexivity.
- exists x61. split; [done|]. vm_compute. discriminate.
- unfold u64_max; lia.
- unfold u32_max; lia.
- unfold u64_max; lia.
- vm_compute. discriminate.
Defined.

Lemma count_prefix_exact_witness :
  @count_prefix unit (default_reads wit_scan) tt [] [x61] 0 = Ok 3.
Proof.
rewrite (@count_prefix_exact unit (default_reads wit_scan) _ wit_read_laws tt [] [x61] 0).
- vm_compute. reflexivity.
- exists x61. split; [done|]. vm_compute. discriminate.
- unfold u64_max; lia.
Defined.
