(* ===== verification/Crypto.v ===== *)
(** * Envelope encryption

[storage/encryption.rs]: file headers, key wrapping, section sealing and nonce
derivation. AES-256-GCM and the random source belong to the [ring] crate: the
cipher is the parameter [Aead] with the laws [AeadLaws], and each random draw is
an argument ([None] when the source fails). *)
From stdpp Require Import base list gmap strings.
From Stdlib Require Import Strings.Byte ZArith Lia.
From S2P Require Import Prelude OrdMap StorageTypes.

Open Scope Z_scope.

Definition KEY_SIZE : Z := 32.
Definition TAG_SIZE : Z := 16.
Definition NONCE_SIZE : Z := 12.
Definition KEK_ID_SIZE : Z := 16.
Definition ENCRYPTION_HEADER_SIZE : Z := KEK_ID_SIZE + NONCE_SIZE + KEY_SIZE + TAG_SIZE.

(** The cipher: key, nonce, associated data and text. *)
Class Aead := {
  aead_seal : list byte → list byte → list byte → list byte → option (list byte);
  aead_open : list byte → list byte → list byte → list byte → option (list byte)
}.

(** The largest plaintext AES-GCM seals (2^36 - 32 bytes). *)
Definition AEAD_MAX : Z := 2 ^ 36 - 32.

(** Documented behaviour of AES-256-GCM: sealing succeeds below the length limit
and appends a 16-byte tag; opening inverts sealing; opening succeeds only on the
sealing of what it returns (the tag is a function of the key, nonce, associated
data and ciphertext). *)
Class AeadLaws `{Aead} : Prop := {
  seal_total k n a p : zlen p <= AEAD_MAX → is_Some (aead_seal k n a p);
  seal_len k n a p c : aead_seal k n a p = Some c → zlen c = zlen p + TAG_SIZE;
  open_seal k n a p c : aead_seal k n a p = Some c → aead_open k n a c = Some p;
  open_sound k n a p c : aead_open k n a c = Some p → aead_seal k n a p = Some c
}.

Record EncryptionHeader := MkEncHeader {
  eh_kek_id : list byte;
  eh_wrapped_dek : list byte;
  eh_nonce : list byte
}.

(** The array sizes of the header's fields. *)
Definition header_wf (h : EncryptionHeader) : Prop :=
  zlen (eh_kek_id h) = KEK_ID_SIZE ∧ zlen (eh_nonce h) = NONCE_SIZE ∧
  zlen (eh_wrapped_dek h) = KEY_SIZE + TAG_SIZE.

Definition header_to_bytes (h : EncryptionHeader) : list byte :=
  eh_kek_id h ++ eh_nonce h ++ eh_wrapped_dek h.

Definition header_from_bytes (bytes : list byte) : res EncryptionHeader :=
  kek_id ← index_range 0 16 bytes;
  nonce ← index_range 16 28 bytes;
  wrapped_dek ← index_range 28 76 bytes;
  Ok (MkEncHeader kek_id wrapped_dek nonce).

(** [copy_from_slice] into an array of [n] bytes. *)
Definition copy_from_slice (n : Z) (src : list byte) : res (list byte) :=
  if zlen src =? n then Ok src else Panic.

Definition generate_dek (rng : option (list byte)) : res (list byte) :=
  ok_or (Crypto "failed to generate random DEK") rng.
Definition generate_kek (rng : option (list byte)) : res (list byte) :=
  ok_or (Crypto "failed to generate random KEK") rng.
Definition random_nonce (rng : option (list byte)) : res (list byte) :=
  ok_or (Crypto "failed to generate random nonce") rng.

Section crypto.
Context `{Aead}.

Definition wrap_dek (rng : option (list byte)) (dek kek kek_id : list byte) : res EncryptionHeader :=
  nonce_bytes ← random_nonce rng;
  buffer ← ok_or (Crypto "DEK wrapping failed") (aead_seal kek nonce_bytes kek_id dek);
  wrapped_dek ← copy_from_slice (KEY_SIZE + TAG_SIZE) buffer;
  Ok (MkEncHeader kek_id wrapped_dek nonce_bytes).

Definition unwrap_dek (header : EncryptionHeader) (kek : list byte) : res (list byte) :=
  plaintext ← ok_or (Crypto "DEK unwrapping failed — wrong KEK or corrupted header")
                (aead_open kek (eh_nonce header) (eh_kek_id header) (eh_wrapped_dek header));
  copy_from_slice KEY_SIZE plaintext.

Definition encrypt_section (plaintext dek nonce aad : list byte) : res (list byte) :=
  ok_or (Crypto "data encryption failed") (aead_seal dek nonce aad plaintext).

(** [SectionCipher::seal_into]: appends to [out]; the count of bytes added. *)
Definition seal_into (dek out plaintext nonce aad : list byte) : res (list byte * Z) :=
  c ← ok_or (Crypto "data encryption failed") (aead_seal dek nonce aad plaintext);
  Ok (out ++ c, zlen plaintext + TAG_SIZE).

Definition decrypt_section (ciphertext dek nonce aad : list byte) : res (list byte) :=
  ok_or (Crypto "data decryption failed — wrong DEK or corrupted data")
    (aead_open dek nonce aad ciphertext).

Definition rewrap_header (rng : option (list byte)) (header : EncryptionHeader)
    (old_kek new_kek new_kek_id : list byte) : res EncryptionHeader :=
  dek ← unwrap_dek header old_kek;
  wrap_dek rng dek new_kek new_kek_id.

Definition encrypt_kek (rng : option (list byte)) (kek host_key kek_id : list byte) : res (list byte) :=
  nonce_bytes ← random_nonce rng;
  buffer ← ok_or (Crypto "KEK encryption failed") (aead_seal host_key nonce_bytes kek_id kek);
  Ok (nonce_bytes ++ buffer).

Definition decrypt_kek (encrypted host_key kek_id : list byte) : res (list byte) :=
  if zlen encrypted <? NONCE_SIZE + KEY_SIZE + TAG_SIZE
  then Err (Crypto "encrypted KEK too short") else
  nonce_bytes ← index_range 0 NONCE_SIZE encrypted;
  buffer ← index_range NONCE_SIZE (zlen encrypted) encrypted;
  plaintext ← ok_or (Crypto "KEK decryption failed — wrong host key or corrupted data")
                (aead_open host_key nonce_bytes kek_id buffer);
  copy_from_slice KEY_SIZE plaintext.

End crypto.

Definition counter_nonce (counter : Z) : list byte := to_le 8 counter ++ repeat x00 4.

Definition SST_FOOTER_BLOCK_INDEX : Z := u32_max.

Definition block_nonce (sst_number block_index : Z) : list byte :=
  to_le 8 sst_number ++ to_le 4 block_index.

(** ** Lemmas *)

Lemma header_to_bytes_len h : header_wf h → zlen (header_to_bytes h) = ENCRYPTION_HEADER_SIZE.
Proof.
intros (H1 & H2 & H3). unfold header_to_bytes. rewrite !zlen_app, H1, H2, H3. done.
Qed.

Lemma header_roundtrip h : header_wf h → header_from_bytes (header_to_bytes h) = Ok h.
Proof.
intros (H1 & H2 & H3). unfold header_from_bytes, header_to_bytes, index_range.
unfold KEK_ID_SIZE, NONCE_SIZE, KEY_SIZE, TAG_SIZE in *.
rewrite slice_head by lia. cbn [mbind outcome_bind].
rewrite (slice_mid 16 28) by lia. cbn [mbind outcome_bind].
replace (eh_kek_id h ++ eh_nonce h ++ eh_wrapped_dek h)
  with ((eh_kek_id h ++ eh_nonce h) ++ eh_wrapped_dek h ++ []) by by rewrite app_nil_r, app_assoc.
rewrite slice_mid by (rewrite ?zlen_app; lia). cbn [mbind outcome_bind]. by destruct h.
Qed.

Lemma to_le_inj n a b :
  0 <= a < 2 ^ (8 * Z.of_nat n) → 0 <= b < 2 ^ (8 * Z.of_nat n) →
  to_le n a = to_le n b → a = b.
Proof.
intros Ha Hb He. rewrite <-(from_to_le_small n a), <-(from_to_le_small n b) by done. by rewrite He.
Qed.

Section crypto_lemmas.
Context `{Aead} `{!AeadLaws}.

Lemma unwrap_wrap rng dek kek kek_id h :
  zlen dek = KEY_SIZE → wrap_dek rng dek kek kek_id = Ok h →
  unwrap_dek h kek = Ok dek ∧ eh_kek_id h = kek_id.
Proof.
intros Hd Hw. unfold wrap_dek in Hw. bind_inv Hw n Hn. bind_inv Hw b Hb. bind_inv Hw w Hc.
injection Hw as <-. unfold copy_from_slice in Hc.
destruct (zlen b =? KEY_SIZE + TAG_SIZE); [|done]. injection Hc as <-.
destruct (aead_seal kek n kek_id dek) as [c|] eqn:Es; [|done]. injection Hb as <-.
split; [|done]. unfold unwrap_dek. simpl. rewrite (open_seal _ _ _ _ _ Es). simpl.
unfold copy_from_slice. by rewrite Hd.
Qed.

Lemma wrap_total nonce dek kek kek_id :
  zlen dek = KEY_SIZE → ∃ h, wrap_dek (Some nonce) dek kek kek_id = Ok h ∧
    (zlen kek_id = KEK_ID_SIZE → zlen nonce = NONCE_SIZE → header_wf h).
Proof.
intros Hd. unfold wrap_dek. simpl.
destruct (seal_total kek nonce kek_id dek) as [c Hc]; [rewrite Hd; done|].
rewrite Hc. simpl. pose proof (seal_len _ _ _ _ _ Hc) as Hl. rewrite Hd in Hl.
unfold copy_from_slice. rewrite Hl, Z.eqb_refl. simpl. eexists. split; [done|].
intros Hk Hn. split_and!; done.
Qed.

Lemma seal_into_eq dek out p n a :
  seal_into dek out p n a = (c ← encrypt_section p dek n a; Ok (out ++ c, zlen p + TAG_SIZE)).
Proof. done. Qed.

Lemma decrypt_encrypt p dek n a c :
  encrypt_section p dek n a = Ok c → decrypt_section c dek n a = Ok p.
Proof.
unfold encrypt_section, decrypt_section. destruct (aead_seal dek n a p) eqn:E; [|done].
intros [= <-]. by rewrite (open_seal _ _ _ _ _ E).
Qed.

Lemma decrypt_sound p dek n a c :
  decrypt_section c dek n a = Ok p → encrypt_section p dek n a = Ok c.
Proof.
unfold encrypt_section, decrypt_section. destruct (aead_open dek n a c) eqn:E; [|done].
intros [= <-]. by rewrite (open_sound _ _ _ _ _ E).
Qed.

Lemma encrypt_len p dek n a c : encrypt_section p dek n a = Ok c → zlen c = zlen p + TAG_SIZE.
Proof.
unfold encrypt_section. destruct (aead_seal dek n a p) eqn:E; [|done].
intros [= <-]. by eapply seal_len.
Qed.

Lemma encrypt_total p dek n a : zlen p <= AEAD_MAX → ∃ c, encrypt_section p dek n a = Ok c.
Proof.
intros Hp. unfold encrypt_section. destruct (seal_total dek n a p Hp) as [c ->]. by exists c.
Qed.

Lemma decrypt_kek_roundtrip nonce kek host_key kek_id out :
  zlen nonce = NONCE_SIZE → zlen kek = KEY_SIZE →
  encrypt_kek (Some nonce) kek host_key kek_id = Ok out → decrypt_kek out host_key kek_id = Ok kek.
Proof.
intros Hn Hk He. unfold encrypt_kek in He. simpl in He. bind_inv He b Hb. injection He as <-.
destruct (aead_seal host_key nonce kek_id kek) as [c|] eqn:Es; [|done]. injection Hb as <-.
pose proof (seal_len _ _ _ _ _ Es) as Hl. unfold decrypt_kek. rewrite zlen_app, Hn, Hl, Hk. simpl.
unfold index_range. rewrite slice_head by done. simpl.
replace (nonce ++ c) with (nonce ++ c ++ []) by by rewrite app_nil_r.
rewrite slice_mid by (rewrite ?Hn, ?Hl, ?Hk; done). simpl.
rewrite (open_seal _ _ _ _ _ Es). simpl. unfold copy_from_slice. by rewrite Hk.
Qed.

End crypto_lemmas.

(** A wrapped DEK unwraps under the same KEK, through the 76 bytes of the
file header, and re-wrapping to a new KEK keeps the DEK. *)
Theorem header_envelope_roundtrip `{Aead} `{!AeadLaws} nonce nonce' dek kek kek_id kek' kek_id' :
  zlen dek = KEY_SIZE → zlen nonce = NONCE_SIZE → zlen kek_id = KEK_ID_SIZE →
  ∃ h, wrap_dek (Some nonce) dek kek kek_id = Ok h ∧
    (header_from_bytes (header_to_bytes h) ≫= λ h, unwrap_dek h kek) = Ok dek ∧
    ∃ h', rewrap_header (Some nonce') h kek kek' kek_id' = Ok h' ∧ unwrap_dek h' kek' = Ok dek.
Proof.
intros Hd Hn Hk. destruct (wrap_total nonce dek kek kek_id Hd) as (h & Hw & Hwf).
destruct (unwrap_wrap _ _ _ _ _ Hd Hw) as [Hu _]. exists h. split; [done|].
rewrite header_roundtrip by auto. split; [exact Hu|].
unfold rewrap_header. rewrite Hu. simpl.
destruct (wrap_total nonce' dek kek' kek_id' Hd) as (h' & Hw' & _). exists h'. split; [done|].
by apply (unwrap_wrap _ _ _ _ _ Hd Hw').
Qed.

(** Nonces are never shared: distinct WAL record numbers get distinct
nonces, distinct (file, block) pairs of an SST get distinct nonces, and no data
block of an SST shares the footer's. *)
Theorem nonces_distinct :
  (∀ a b, 0 <= a <= u64_max → 0 <= b <= u64_max → counter_nonce a = counter_nonce b → a = b) ∧
  (∀ s s' i j, 0 <= s <= u64_max → 0 <= s' <= u64_max → 0 <= i <= u32_max → 0 <= j <= u32_max →
     block_nonce s i = block_nonce s' j → s = s' ∧ i = j) ∧
  (∀ s i, 0 <= i < SST_FOOTER_BLOCK_INDEX → block_nonce s i ≠ block_nonce s SST_FOOTER_BLOCK_INDEX).
Proof.
unfold u64_max, SST_FOOTER_BLOCK_INDEX. split_and!.
- intros a b Ha Hb He. unfold counter_nonce in He. apply app_inj_1 in He as [He _].
  + apply (to_le_inj 8) in He; simpl; lia.
  + by rewrite !length_to_le.
- intros s s' i j Hs Hs' Hi Hj He. unfold block_nonce in He.
  apply app_inj_1 in He as [H1 H2]; [|by rewrite !length_to_le].
  unfold u32_max in *. split.
  + apply (to_le_inj 8) in H1; simpl; lia.
  + apply (to_le_inj 4) in H2; simpl; lia.
- intros s i Hi He. unfold block_nonce in He.
  apply app_inj_1 in He as [_ H2]; [|done]. unfold u32_max in *. apply (to_le_inj 4) in H2; simpl; lia.
Qed.

(** ** An instance of the cipher's laws

The text itself, followed by a tag that depends on the nonce. *)
Definition toy_tag (nonce : list byte) : list byte := take 16 (nonce ++ repeat x00 16).

Definition toy_aead : Aead := {|
  aead_seal _ nonce _ p := if zlen p <=? AEAD_MAX then Some (p ++ toy_tag nonce) else None;
  aead_open _ nonce _ c :=
    let n := Z.to_nat (zlen c - 16) in
    if (16 <=? zlen c) && (zlen c - 16 <=? AEAD_MAX) && bool_decide (drop n c = toy_tag nonce)
    then Some (take n c) else None
|}.

Lemma toy_tag_len nonce : zlen (toy_tag nonce) = 16.
Proof. unfold toy_tag, zlen. rewrite length_take, length_app, repeat_length. lia. Qed.

Lemma toy_aead_laws : @AeadLaws toy_aead.
Proof.
split; cbn [aead_seal aead_open toy_aead]; cbv zeta.
- intros _ n _ p Hp. rewrite (proj2 (Z.leb_le _ _) Hp). eauto.
- intros _ n _ p c. destruct (_ <=? _); [|done]. intros [= <-]. by rewrite zlen_app, toy_tag_len.
- intros _ n _ p c. destruct (Z.leb_spec (zlen p) AEAD_MAX) as [Hp|]; [|done]. intros [= <-].
  rewrite zlen_app, toy_tag_len. pose proof (zlen_nonneg p).
  rewrite (proj2 (Z.leb_le 16 (zlen p + 16))) by lia. replace (zlen p + 16 - 16) with (zlen p) by lia.
  rewrite (proj2 (Z.leb_le _ _) Hp). unfold zlen. rewrite Nat2Z.id.
  rewrite drop_app_length, take_app_length. by rewrite bool_decide_true.
- intros _ n _ p c. destruct (Z.leb_spec 16 (zlen c)) as [H16|]; [|done].
  destruct (Z.leb_spec (zlen c - 16) AEAD_MAX) as [Hm|]; [|done]. cbn [andb].
  case_bool_decide as Hd; [|done]. intros [= <-].
  assert (Hl : zlen (take (Z.to_nat (zlen c - 16)) c) = zlen c - 16).
  { unfold zlen in *. rewrite length_take. lia. }
  rewrite Hl, (proj2 (Z.leb_le _ _) Hm), <-Hd. by rewrite take_drop.
Qed.

(** A checksum for the examples: the first bytes. *)
Definition toy_crc : Crc32 := λ b, from_le (take 4 b).

Lemma toy_crc_laws : @Crc32Laws toy_crc.
Proof.
intros b. unfold crc32, toy_crc. pose proof (from_le_bound (take 4 b)) as Hb.
assert (2 ^ (8 * zlen (take 4 b)) <= 2 ^ 32).
{ apply Z.pow_le_mono_r; [lia|]. unfold zlen. rewrite length_take. lia. }
unfold u32_max. lia.
Qed.

Lemma header_envelope_roundtrip_witness :
  ∃ h, @wrap_dek toy_aead (Some (repeat x01 12)) (repeat x02 32) [] (repeat x03 16) = Ok h ∧
    @unwrap_dek toy_aead h [] = Ok (repeat x02 32).
Proof.
destruct (@header_envelope_roundtrip toy_aead toy_aead_laws (repeat x01 12) (repeat x01 12)
  (repeat x02 32) [] (repeat x03 16) [] (repeat x03 16)) as (h & Hw & Hu & _); [done..|].
exists h. split; [done|]. vm_compute in Hw. injection Hw as <-. vm_compute. reflexivity.
Defined.
