(* ===== verification/WalSegment.v ===== *)
(** * WAL segments

[storage/wal.rs] and [storage/migrations.rs]: the on-disk segment, its scan at
replay and recovery, the survivor probe, opening (fresh, partial header, v0
migration, torn tail), rotation and the unsynced append path. A segment file is
its bytes. The cipher is [Crypto.Aead]; the checksum is a parameter, the
[crc32fast] crate's. *)
From stdpp Require Import base list gmap strings.
From Stdlib Require Import Strings.Byte ZArith Lia.
From S2P Require Import Prelude OrdMap StorageTypes WalCodec Crypto.

Open Scope Z_scope.

Definition WAL_MAGIC : list byte := [x48; x57; x41; x4c].
Definition WAL_VERSION_CURRENT : Z := 1.
Definition WAL_VERSION_HEADER_SIZE : Z := 6.
Definition V1_RECORD_OFFSET : Z := WAL_VERSION_HEADER_SIZE + ENCRYPTION_HEADER_SIZE.
Definition SURVIVOR_PROBE_RECORD_WINDOW : nat := 32.

Section segment.
Context `{HA : Aead} `{HC : Crc32}.

(** A record on disk: length, ciphertext, checksum of the ciphertext. *)
Definition frame (ciphertext : list byte) : list byte :=
  to_le 4 (zlen ciphertext) ++ ciphertext ++ to_le 4 (crc32 ciphertext).

Definition record_aad (record_num : Z) : list byte := to_le 8 record_num.

Definition open_record (ciphertext dek : list byte) (record_num : Z) : res (list byte) :=
  decrypt_section ciphertext dek (counter_nonce record_num) (record_aad record_num).
Definition seal_record (plaintext dek : list byte) (record_num : Z) : res (list byte) :=
  encrypt_section plaintext dek (counter_nonce record_num) (record_aad record_num).

(** ** The survivor probe *)

(** [for record_num in next..next + window]: does the frame authenticate? *)
Fixpoint opens_within (window : nat) (ciphertext dek : list byte) (record_num : Z) : bool :=
  match window with
  | O => false
  | S window =>
      match open_record ciphertext dek record_num with
      | Ok _ => true
      | _ => opens_within window ciphertext dek (record_num + 1)
      end
  end.

Definition MIN_FRAME : Z := 4 + 16 + 4.

(** One byte offset of the probe: is a surviving record there? *)
Definition survivor_at (region : list byte) (off next_record_num : Z) (dek : list byte) : res bool :=
  len_bytes ← index_range off (off + 4) region;
  let len := from_le len_bytes in
  if (len <? 16) || (zlen region <? off + 4 + len + 4) then Ok false else
  ciphertext ← index_range (off + 4) (off + 4 + len) region;
  crc_bytes ← index_range (off + 4 + len) (off + 4 + len + 4) region;
  if negb (from_le crc_bytes =? crc32 ciphertext) then Ok false else
  Ok (opens_within SURVIVOR_PROBE_RECORD_WINDOW ciphertext dek next_record_num).

(** The [while] loop; [fuel] bounds the offsets left. *)
Fixpoint probe_loop (fuel : nat) (region : list byte) (off next_record_num : Z)
    (dek : list byte) : res (option Z) :=
  match fuel with
  | O => Ok None
  | S fuel =>
      if off + MIN_FRAME <=? zlen region then
        found ← survivor_at region off next_record_num dek;
        if found : bool then Ok (Some off)
        else probe_loop fuel region (off + 1) next_record_num dek
      else Ok None
  end.

Definition probe_survivors (region : list byte) (from next_record_num : Z) (dek : list byte)
    : res (option Z) :=
  probe_loop (Z.to_nat (zlen region - from)) region from next_record_num dek.

Definition refuse_if_survivors (region : list byte) (corrupt_start recovered_records : Z)
    (dek : list byte) : res unit :=
  survivor ← probe_survivors region (corrupt_start + 1) (recovered_records + 1) dek;
  match survivor with
  | Some survivor_off =>
      Err (WalMidSegmentCorruption (V1_RECORD_OFFSET + corrupt_start)
             (V1_RECORD_OFFSET + survivor_off) recovered_records)
  | None => Ok tt
  end.

(** ** Replay *)

Record RecordScan := MkRecordScan {
  rs_entries : list WalEntry;
  rs_count : Z;
  rs_valid_len : Z
}.

(** The message of a record that authenticates but does not decode; the decoder's
own message, which it quotes, is left out. *)
Definition undecodable (record_num record_start : Z) : StorageError :=
  DeserializationFailed ("WAL record " +:+ show record_num +:+ " at offset " +:+
    show (V1_RECORD_OFFSET + record_start) +:+ " authenticated but does not decode").

(** What an iteration of the replay loop does at [pos]. *)
Inductive ScanStep := Stop | Record_ (e : WalEntry) (next : Z).

Definition scan_step (region dek : list byte) (pos record_num : Z) : res ScanStep :=
  if pos + 4 <=? zlen region then
    let record_start := pos in
    len_bytes ← index_range pos (pos + 4) region;
    let payload_len := from_le len_bytes in
    let pos := pos + 4 in
    if zlen region <? pos + payload_len + 4 then
      _ ← refuse_if_survivors region record_start record_num dek;
      Ok Stop
    else
    ciphertext ← index_range pos (pos + payload_len) region;
    let pos := pos + payload_len in
    crc_bytes ← index_range pos (pos + 4) region;
    let pos := pos + 4 in
    if negb (from_le crc_bytes =? crc32 ciphertext) then
      _ ← refuse_if_survivors region record_start record_num dek;
      Ok Stop
    else
    plaintext ← open_record ciphertext dek record_num;
    match deserialize plaintext with
    | Ok entry => Ok (Record_ entry pos)
    | Err _ => Err (undecodable record_num record_start)
    | Panic => Panic
    end
  else Ok Stop.

(** The loop of [scan_records]. A record is at least eight bytes, so the region's
length bounds its iterations; running out of fuel would be [Panic]. *)
Fixpoint scan_loop (fuel : nat) (region dek : list byte) (entries : list WalEntry)
    (valid_len record_num : Z) : res RecordScan :=
  match fuel with
  | O => Panic
  | S fuel =>
      step ← scan_step region dek valid_len record_num;
      match step with
      | Stop => Ok (MkRecordScan entries record_num valid_len)
      | Record_ e next => scan_loop fuel region dek (entries ++ [e]) next (record_num + 1)
      end
  end.

Definition scan_records (region dek : list byte) : res RecordScan :=
  scan_loop (S (length region)) region dek [] 0 0.

(** ** Writing a segment *)

Definition segment_header (h : EncryptionHeader) : list byte :=
  WAL_MAGIC ++ to_le 2 WAL_VERSION_CURRENT ++ header_to_bytes h.

Definition encode_record (dek : list byte) (record_num : Z) (plaintext : list byte) : res (list byte) :=
  ciphertext ← seal_record plaintext dek record_num;
  Ok (frame ciphertext).

(** The loop of [rebuild_truncated_segment] over the recovered entries. *)
Fixpoint encode_entries (dek : list byte) (record_num : Z) (entries : list WalEntry) : res (list byte) :=
  match entries with
  | [] => Ok []
  | e :: rest =>
      r ← encode_record dek record_num (serialize e);
      rest ← encode_entries dek (record_num + 1) rest;
      Ok (r ++ rest)
  end.

(** The draws of the random source a step makes: a DEK and a wrapping nonce. *)
Record Draw := MkDraw { draw_dek : option (list byte); draw_nonce : option (list byte) }.

Definition new_segment_key (rng : Draw) (kek kek_id : list byte)
    : res (list byte * EncryptionHeader) :=
  dek ← generate_dek (draw_dek rng);
  h ← wrap_dek (draw_nonce rng) dek kek kek_id;
  Ok (dek, h).

(** The bytes [rebuild_truncated_segment] stages and renames into place. *)
Definition rebuild_truncated_segment (rng : Draw) (kek kek_id : list byte) (entries : list WalEntry)
    : res (list byte * EncryptionHeader * list byte) :=
  '(dek, h) ← new_segment_key rng kek kek_id;
  records ← encode_entries dek 0 entries;
  Ok (dek, h, segment_header h ++ records).

(** ** Opening *)

(** What an open does to the segment's file, in order. A crash can leave the
result of any prefix, and any prefix of the bytes of a write. *)
Inductive FileOp :=
| SetLen0
| WriteAll (bytes : list byte)
| RenameOver (bytes : list byte).

Definition apply_op (content : list byte) (op : FileOp) : list byte :=
  match op with
  | SetLen0 => []
  | WriteAll bytes => content ++ bytes
  | RenameOver bytes => bytes
  end.

Fixpoint crash_states (content : list byte) (ops : list FileOp) : list (list byte) :=
  match ops with
  | [] => [content]
  | op :: rest =>
      match op with
      | WriteAll bytes => (λ n, content ++ take n bytes) <$> seq 0 (length bytes)
      | SetLen0 | RenameOver _ => [content]
      end ++ crash_states (apply_op content op) rest
  end.

(** [repair_partial_header]: the operations it makes and the size to go on with. *)
Definition repair_partial_header (content : list byte) : list FileOp * Z :=
  let file_size := zlen content in
  if (file_size =? 0) || (V1_RECORD_OFFSET <=? file_size) then ([], file_size) else
  let partial_v1 := bool_decide (WAL_MAGIC `prefix_of` content) in
  let partial_v0 := negb partial_v1 && (zlen content <? ENCRYPTION_HEADER_SIZE) in
  if partial_v1 || partial_v0 then ([SetLen0], 0) else ([], file_size).

(** *** Migrations *)

Record WalMigration := MkMigration {
  mg_from : Z; mg_to : Z; mg_apply : list byte → list byte
}.

Definition migrate_v0_to_v1 (content : list byte) : list byte :=
  WAL_MAGIC ++ to_le 2 WAL_VERSION_CURRENT ++ content.

Definition MIGRATIONS : list WalMigration := [MkMigration 0 1 migrate_v0_to_v1].

Fixpoint apply_chain_loop (migrations : list WalMigration) (from target : Z)
    (data : list byte) (ver : Z) : res (list byte * Z) :=
  match migrations with
  | [] => Ok (data, ver)
  | m :: rest =>
      if (mg_from m <? from) || (target <=? mg_from m)
      then apply_chain_loop rest from target data ver
      else if negb (mg_from m =? ver)
      then Err (DeserializationFailed ("no WAL migration step available from v" +:+ show ver))
      else apply_chain_loop rest from target (mg_apply m data) (mg_to m)
  end.

Definition apply_chain (migrations : list WalMigration) (content : list byte) (from target : Z)
    : res (list byte) :=
  '(data, ver) ← apply_chain_loop migrations from target content from;
  if negb (ver =? target)
  then Err (DeserializationFailed ("WAL migration incomplete: reached v" +:+ show ver +:+
              " but target is v" +:+ show target))
  else Ok data.

(** *** The open itself *)

Inductive SyncMode := EveryWrite | NoSync.
Record WalConfig := MkWalConfig { max_size : Z; sync_mode : SyncMode }.

(** The state of an open WAL: [RotationState], the file, the fence. *)
Record Wal := MkWal {
  w_dek : list byte;
  w_header : EncryptionHeader;
  w_counter : Z;
  w_file : list byte;
  w_fenced : bool;
  w_kek : list byte;
  w_kek_id : list byte;
  w_config : WalConfig
}.

(** Format detection: the v1 form of the segment, and whether it is a migration
of a v0 file still to be persisted. *)
Definition detect_version (content : list byte) : res (list byte * bool) :=
  if bool_decide (WAL_MAGIC `prefix_of` content) then
    if zlen content <? WAL_VERSION_HEADER_SIZE
    then Err (Crypto "WAL version header is truncated") else
    b4 ← index_at 4 content;
    b5 ← index_at 5 content;
    let version := from_le [b4; b5] in
    if WAL_VERSION_CURRENT <? version then Err (UnsupportedWalVersion version)
    else Ok (content, false)
  else
    migrated ← apply_chain MIGRATIONS content 0 WAL_VERSION_CURRENT;
    Ok (migrated, true).

(** The rest of the existing-file branch: the segment key, the record count and
the operations on the file. *)
Definition open_data (rng : Draw) (kek kek_id all_data : list byte) (persist_migration : bool)
    : res (list byte * EncryptionHeader * Z * list FileOp) :=
  let enc_start := WAL_VERSION_HEADER_SIZE in
  let enc_end := enc_start + ENCRYPTION_HEADER_SIZE in
  if zlen all_data <? enc_end
  then Err (Crypto ("WAL file too small for headers: " +:+ show (zlen all_data) +:+ " bytes"))
  else
  header_arr ← index_range enc_start enc_end all_data;
  enc_header ← header_from_bytes header_arr;
  dek ← unwrap_dek enc_header kek;
  record_data ← index_range enc_end (zlen all_data) all_data;
  scan ← scan_records record_data dek;
  if rs_valid_len scan =? zlen record_data then
    Ok (dek, enc_header, rs_count scan,
        if persist_migration then [SetLen0; WriteAll all_data] else [])
  else
    '(new_dek, new_header, rebuilt) ← rebuild_truncated_segment rng kek kek_id (rs_entries scan);
    Ok (new_dek, new_header, rs_count scan, [RenameOver rebuilt]).

Definition open_existing (rng : Draw) (kek kek_id content : list byte)
    : res (list byte * EncryptionHeader * Z * list FileOp) :=
  '(all_data, persist_migration) ← detect_version content;
  open_data rng kek kek_id all_data persist_migration.

(** [Wal::open_with_fs], with every file operation succeeding: the WAL, and the
operations it made on the segment's file. *)
Definition open_with_fs (rng : Draw) (config : WalConfig) (kek kek_id content : list byte)
    : res (Wal * list FileOp) :=
  let '(ops, file_size) := repair_partial_header content in
  let content := foldl apply_op content ops in
  '(dek, enc_header, record_count, more) ←
    (if file_size =? 0 then
       '(dek, h) ← new_segment_key rng kek kek_id;
       Ok (dek, h, 0, [WriteAll (segment_header h)])
     else open_existing rng kek kek_id content);
  Ok (MkWal dek enc_header record_count (foldl apply_op content more) false kek kek_id config,
      ops ++ more).

Definition read_all (w : Wal) : res (list WalEntry) :=
  let file_size := zlen (w_file w) in
  if file_size <=? V1_RECORD_OFFSET then Ok [] else
  all_data ← index_range V1_RECORD_OFFSET file_size (w_file w);
  scan ← scan_records all_data (w_dek w);
  Ok (rs_entries scan).

(** ** Rotation and the unsynced append *)

(** How the file operations of a rotation or an append end: success, or a fault
at one of them; a failed write leaves a prefix of its bytes. *)
Inductive RotateFault := RotateOk | SetLenFails | HeaderWriteFails (n : nat) | SyncFails.
Inductive WriteFault := WriteOk | WriteFails (n : nat) (rollback_ok : bool).

Definition io_error : StorageError := Io "injected".

Definition engage_fence (w : Wal) : Wal :=
  MkWal (w_dek w) (w_header w) (w_counter w) (w_file w) true (w_kek w) (w_kek_id w) (w_config w).
Definition set_file (file : list byte) (w : Wal) : Wal :=
  MkWal (w_dek w) (w_header w) (w_counter w) file (w_fenced w) (w_kek w) (w_kek_id w) (w_config w).
Definition set_counter (n : Z) (w : Wal) : Wal :=
  MkWal (w_dek w) (w_header w) n (w_file w) (w_fenced w) (w_kek w) (w_kek_id w) (w_config w).

(** [rotate_locked]; [flush] is the outcome of the registered [pre_rotate_fn]. *)
Definition rotate_locked (rng : Draw) (flush : res unit) (fault : RotateFault) (w : Wal)
    : res unit * Wal :=
  match new_segment_key rng (w_kek w) (w_kek_id w) with
  | Err e => (Err e, w)
  | Panic => (Panic, w)
  | Ok (new_dek, new_enc_header) =>
      match flush with
      | Err e => (Err e, w)
      | Panic => (Panic, w)
      | Ok _ =>
          let header := segment_header new_enc_header in
          let fault := match fault, sync_mode (w_config w) with
                       | SyncFails, NoSync => RotateOk
                       | f, _ => f
                       end in
          match fault with
          | SetLenFails => (Err io_error, engage_fence w)
          | HeaderWriteFails n => (Err io_error, engage_fence (set_file (take n header) w))
          | SyncFails => (Err io_error, engage_fence (set_file header w))
          | RotateOk =>
              (Ok tt, MkWal new_dek new_enc_header 0 header (w_fenced w) (w_kek w) (w_kek_id w) (w_config w))
          end
      end
  end.

(** [write_entry_no_sync]: [pre_rotate] and [apply] are the outcomes of the
caller's closures. *)
Definition write_entry_no_sync (rng : Draw) (pre_rotate flush : res unit) (rotate_fault : RotateFault)
    (apply : res unit) (fault : WriteFault) (plaintext : list byte) (w : Wal) : res unit * Wal :=
  let file_size := zlen (w_file w) in
  let approx_record_size := 4 + zlen plaintext + TAG_SIZE + 4 in
  let '(r, w) :=
    if (0 <? max_size (w_config w)) && (max_size (w_config w) <? file_size + approx_record_size) then
      match pre_rotate with
      | Ok _ => rotate_locked rng flush rotate_fault w
      | Err e => (Err e, w)
      | Panic => (Panic, w)
      end
    else (Ok tt, w) in
  match r with
  | Err e => (Err e, w)
  | Panic => (Panic, w)
  | Ok _ =>
      let base := w_file w in
      match apply with
      | Err e => (Err e, w)
      | Panic => (Panic, w)
      | Ok _ =>
          let record_num := w_counter w in
          let w := set_counter (record_num + 1) w in
          let '(write_result, file, rollback_ok) :=
            match seal_record plaintext (w_dek w) record_num with
            | Err e => (Err e, base, true)
            | Panic => (Panic, base, true)
            | Ok ciphertext =>
                match fault with
                | WriteOk => (Ok tt, base ++ frame ciphertext, true)
                | WriteFails n ok => (Err io_error, base ++ take n (frame ciphertext), ok)
                end
            end in
          match write_result with
          | Err err =>
              if rollback_ok : bool then (Err err, set_counter record_num (set_file base w))
              else (Err err, engage_fence (set_file file w))
          | _ => (write_result, set_file file w)
          end
      end
  end.

(** ** The group commit's file operations *)

(** The loop of [commit_batch] that fills the batch's buffer. *)
Fixpoint batch_buffer (dek : list byte) (record_num : Z) (batch : list (list byte)) (buf : list byte)
    : res (list byte) :=
  match batch with
  | [] => Ok buf
  | plaintext :: rest =>
      let payload_len := zlen plaintext + TAG_SIZE in
      let buf := buf ++ to_le 4 payload_len in
      let ct_start := zlen buf in
      '(buf, ct_len) ← seal_into dek buf plaintext (counter_nonce record_num) (record_aad record_num);
      ciphertext ← index_range ct_start (ct_start + ct_len) buf;
      batch_buffer dek (record_num + 1) rest (buf ++ to_le 4 (crc32 ciphertext))
  end.

Inductive CommitFault := CommitOk | BatchWriteFails (n : nat) | SyncDataFails.

(** The estimate that decides whether the batch rotates first. *)
Definition approx_total (batch : list (list byte)) : Z :=
  foldr (λ p acc, 4 + zlen p + TAG_SIZE + 4 + acc) 0 batch.

(** [commit_batch]: the outcome of the batch, and the WAL after it; a fault
engages the fence. [pre_rotate] is the leader's closure, if it still has it. *)
Definition commit_batch (rng : Draw) (pre_rotate : option (res unit)) (flush : res unit)
    (rotate_fault : RotateFault) (fault : CommitFault) (batch : list (list byte)) (w : Wal)
    : res unit * Wal :=
  let file_size := zlen (w_file w) in
  let '(r, w) :=
    if (0 <? max_size (w_config w)) && (max_size (w_config w) <? file_size + approx_total batch) then
      match default (Ok tt) pre_rotate with
      | Ok _ => rotate_locked rng flush rotate_fault w
      | Err e => (Err e, w)
      | Panic => (Panic, w)
      end
    else (Ok tt, w) in
  let '(commit_result, w) :=
    match r with
    | Err e => (Err e, w)
    | Panic => (Panic, w)
    | Ok _ =>
        let first := w_counter w in
        let w := set_counter (first + zlen batch) w in
        match batch_buffer (w_dek w) first batch [] with
        | Err e => (Err e, w)
        | Panic => (Panic, w)
        | Ok buf =>
            match fault with
            | CommitOk => (Ok tt, set_file (w_file w ++ buf) w)
            | BatchWriteFails n => (Err io_error, set_file (w_file w ++ take n buf) w)
            | SyncDataFails => (Err io_error, set_file (w_file w ++ buf) w)
            end
        end
    end in
  match commit_result with
  | Err e => (Err e, engage_fence w)
  | _ => (commit_result, w)
  end.

End segment.
#[global] Arguments frame : simpl never.
#[global] Arguments scan_step : simpl never.

(** ** Specification of a scan *)

Section spec.
Context `{HA : Aead} `{HC : Crc32}.

(** [region] is exactly the frames of the entries, numbered from [n]. *)
Inductive records (dek : list byte) : Z → list byte → list WalEntry → Prop :=
| records_nil n : records dek n [] []
| records_cons n c p e rest es :
    zlen c <= u32_max → open_record c dek n = Ok p → deserialize p = Ok e →
    records dek (n + 1) rest es → records dek n (frame c ++ rest) (e :: es).

(** The bytes do not start with a complete frame whose checksum matches. *)
Definition torn_tail (tail : list byte) : bool :=
  match slice 0 4 tail with
  | None => true
  | Some lb =>
      let len := from_le lb in
      match slice 4 (4 + len) tail, slice (4 + len) (4 + len + 4) tail with
      | Some c, Some cb => negb (from_le cb =? crc32 c)
      | _, _ => true
      end
  end.

(** No acknowledged record survives in the tail that starts at [start]. *)
Definition no_survivor (region : list byte) (start n : Z) (dek : list byte) : Prop :=
  probe_survivors region (start + 1) (n + 1) dek = Ok None.

End spec.

Section lemmas.
Context `{HA : Aead} `{HC : Crc32} `{HAL : !AeadLaws} `{HCL : !Crc32Laws}.

Lemma zlen_frame c : zlen (frame c) = zlen c + 8.
Proof. unfold frame. zlia. Qed.

Lemma crc_field c : from_le (to_le 4 (crc32 c)) = crc32 c.
Proof. apply from_to_le_small. pose proof (crc32_bound c). unfold u32_max in *. simpl. lia. Qed.

Lemma len_field (c : list byte) : zlen c <= u32_max → from_le (to_le 4 (zlen c)) = zlen c.
Proof. apply fits_u32_le. Qed.

Lemma leb_true a b : a <= b → (a <=? b) = true.
Proof. apply Z.leb_le. Qed.

(** The fields of a frame inside a region. *)
Lemma frame_fields pre c post :
  zlen c <= u32_max →
  let region := pre ++ frame c ++ post in
  let pos := zlen pre in
  index_range (E := StorageError) pos (pos + 4) region = Ok (to_le 4 (zlen c)) ∧
  index_range (E := StorageError) (pos + 4) (pos + 4 + zlen c) region = Ok c ∧
  index_range (E := StorageError) (pos + 4 + zlen c) (pos + 4 + zlen c + 4) region = Ok (to_le 4 (crc32 c)) ∧
  pos + 4 + zlen c + 4 <= zlen region.
Proof.
intros Hc region pos. unfold region, pos, frame. rewrite <-!app_assoc.
split_and!; [repeat field_step; done..|zlia].
Qed.

Lemma scan_step_record pre c post dek n p e :
  zlen c <= u32_max → open_record c dek n = Ok p → deserialize p = Ok e →
  scan_step (pre ++ frame c ++ post) dek (zlen pre) n =
  Ok (Record_ e (zlen pre + zlen (frame c))).
Proof.
intros Hc Ho Hd. destruct (frame_fields pre c post Hc) as (H1 & H2 & H3 & H4).
unfold scan_step. pose proof (zlen_nonneg c). rewrite leb_true by lia.
rewrite H1, bind_ok. cbv zeta. rewrite len_field, ltb_ge_false by lia.
rewrite H2, bind_ok, H3, bind_ok, crc_field, Z.eqb_refl. cbn [negb].
rewrite Ho, bind_ok, Hd, zlen_frame. do 2 f_equal. lia.
Qed.

(** A complete frame with a matching checksum is cut from the region. *)
Lemma frame_cut region pos lb c cb :
  index_range (E := StorageError) pos (pos + 4) region = Ok lb →
  index_range (E := StorageError) (pos + 4) (pos + 4 + from_le lb) region = Ok c →
  index_range (E := StorageError) (pos + 4 + from_le lb) (pos + 4 + from_le lb + 4) region = Ok cb →
  from_le cb = crc32 c →
  zlen c <= u32_max ∧ zlen (frame c) = 8 + from_le lb ∧
  drop (Z.to_nat pos) region = frame c ++ drop (Z.to_nat (pos + zlen (frame c))) region.
Proof.
intros H1 H2 H3 Hcrc. pose proof (index_range_len _ _ _ _ H1) as (L1 & _).
pose proof (index_range_len _ _ _ _ H2) as (L2 & _).
pose proof (index_range_len _ _ _ _ H3) as (L3 & _).
pose proof (u32_field_bound lb ltac:(lia)) as Hb.
assert (Hlen : zlen c = from_le lb) by lia.
split_and!; [lia|rewrite zlen_frame; lia|].
apply index_range_drop in H1, H2, H3. rewrite H1, H2, H3.
unfold frame. rewrite Hlen, to_le_4_from by lia. rewrite <-Hcrc, to_le_4_from by lia.
rewrite <-!app_assoc. do 4 f_equal. zlia.
Qed.

Lemma scan_step_record_inv region dek pos n e next :
  scan_step region dek pos n = Ok (Record_ e next) →
  ∃ c p, zlen c <= u32_max ∧ open_record c dek n = Ok p ∧ deserialize p = Ok e ∧
    next = pos + zlen (frame c) ∧ next <= zlen region ∧
    drop (Z.to_nat pos) region = frame c ++ drop (Z.to_nat next) region.
Proof.
unfold scan_step. cbv zeta. destruct (pos + 4 <=? zlen region); [|done]. intros Hs.
bind_inv Hs lb Hlb. destruct (_ <? _) in Hs; [by bind_inv Hs u Hu|].
bind_inv Hs c Hc. bind_inv Hs cb Hcb.
destruct (Z.eqb_spec (from_le cb) (crc32 c)) as [He|]; cbn [negb] in Hs; [|by bind_inv Hs u Hu].
bind_inv Hs p Hp. destruct (deserialize p) as [e'| |] eqn:Hd; try done. injection Hs as <- <-.
destruct (frame_cut _ _ _ _ _ Hlb Hc Hcb He) as (H1 & H2 & H3).
pose proof (index_range_len _ _ _ _ Hcb) as (_ & _ & Hle).
replace (pos + 4 + from_le lb + 4) with (pos + zlen (frame c)) in * by lia.
exists c, p. split_and!; done.
Qed.

(** At a torn tail of at least four bytes, the step probes for survivors. *)
Lemma scan_step_torn pre tail dek n :
  torn_tail tail = true → 4 <= zlen tail →
  scan_step (pre ++ tail) dek (zlen pre) n =
  (_ ← refuse_if_survivors (pre ++ tail) (zlen pre) n dek; Ok Stop).
Proof.
unfold scan_step, torn_tail. cbv zeta. rewrite zlen_app. intros Ht H4.
rewrite leb_true by lia.
assert (Hsk : ∀ a b, 0 <= a → index_range (E := StorageError) (zlen pre + a) (zlen pre + b) (pre ++ tail) =
  match slice a b tail with Some s => Ok s | None => Panic end).
{ intros a b Ha. unfold index_range. rewrite slice_skip by lia.
  by replace (zlen pre + a - zlen pre) with a by lia; replace (zlen pre + b - zlen pre) with b by lia. }
replace (zlen pre) with (zlen pre + 0) at 1 by lia. rewrite Hsk by lia.
destruct (slice_is_Some 0 4 tail) as [lb Hlb]; [lia..|]. rewrite Hlb in Ht |- *. rewrite bind_ok.
apply slice_Some in Hlb as (_ & _ & Hlb & _).
pose proof (u32_field_bound lb ltac:(lia)) as Hb.
destruct (Z.ltb_spec (zlen pre + zlen tail) (zlen pre + 4 + from_le lb + 4)) as [Hlt|Hge]; [done|].
rewrite <-!Z.add_assoc in *. rewrite !Hsk by lia.
destruct (slice_is_Some 4 (4 + from_le lb) tail) as [c Hc]; [lia..|].
destruct (slice_is_Some (4 + from_le lb) (4 + (from_le lb + 4)) tail) as [cb Hcb]; [lia..|].
rewrite Hc, Hcb in Ht. by rewrite Hc, bind_ok, Hcb, bind_ok, Ht.
Qed.

(** At a complete frame with a matching checksum, it does not stop. *)
Lemma scan_step_not_torn pre tail dek n :
  torn_tail tail = false → scan_step (pre ++ tail) dek (zlen pre) n ≠ Ok Stop.
Proof.
unfold scan_step, torn_tail. cbv zeta. rewrite zlen_app. intros Ht.
destruct (slice 0 4 tail) as [lb|] eqn:Hlb; [|done].
destruct (slice 4 (4 + from_le lb) tail) as [c|] eqn:Hc; [|done].
destruct (slice (4 + from_le lb) (4 + from_le lb + 4) tail) as [cb|] eqn:Hcb; [|done].
assert (Hsk : ∀ a b s, slice a b tail = Some s →
  index_range (E := StorageError) (zlen pre + a) (zlen pre + b) (pre ++ tail) = Ok s).
{ intros a b s' Hs. pose proof (slice_Some _ _ _ _ Hs) as (Ha & _). unfold index_range.
  rewrite slice_skip by lia. replace (zlen pre + a - zlen pre) with a by lia.
  replace (zlen pre + b - zlen pre) with b by lia. by rewrite Hs. }
pose proof (slice_Some _ _ _ _ Hlb) as (_ & H4 & _). pose proof (slice_Some _ _ _ _ Hcb) as (_ & Hl & _).
rewrite leb_true by lia. replace (zlen pre) with (zlen pre + 0) at 1 by lia.
rewrite (Hsk _ _ _ Hlb), bind_ok, ltb_ge_false by lia.
rewrite <-!Z.add_assoc in *. rewrite (Hsk _ _ _ Hc), bind_ok, (Hsk _ _ _ Hcb), bind_ok, Ht.
intros Hs. bind_inv Hs p Hp. by destruct (deserialize p).
Qed.

Lemma scan_step_stop_eq pre tail dek n :
  scan_step (pre ++ tail) dek (zlen pre) n = Ok Stop ↔
  torn_tail tail = true ∧ (4 <= zlen tail → no_survivor (pre ++ tail) (zlen pre) n dek).
Proof.
destruct (torn_tail tail) eqn:Ht.
2: { split; [|by intros [? _]]. intros Hs. by apply scan_step_not_torn in Hs. }
destruct (Z.le_gt_cases 4 (zlen tail)) as [H4|H4].
- rewrite scan_step_torn by done. unfold refuse_if_survivors, no_survivor.
  destruct (probe_survivors _ _ _ _) as [[o|]| |]; simpl; split; try congruence; try tauto;
    intros [_ Hn]; specialize (Hn H4); congruence.
- unfold scan_step. rewrite zlen_app, (proj2 (Z.leb_gt _ _)) by lia. split; [|done]. intros _.
  split; [done|lia].
Qed.

Lemma records_len dek n valid es : records dek n valid es → zlen es <= zlen valid.
Proof.
induction 1 as [|n c p e rest es Hc Ho Hd Hr IH]; [done|].
rewrite zlen_app, zlen_frame, zlen_cons. pose proof (zlen_nonneg c). lia.
Qed.

Lemma records_app dek n v1 es1 v2 es2 :
  records dek n v1 es1 → records dek (n + zlen es1) v2 es2 → records dek n (v1 ++ v2) (es1 ++ es2).
Proof.
induction 1 as [n|n c p e rest es Hc Ho Hd Hr IH]; intros H2; simpl.
- by rewrite zlen_nil, Z.add_0_r in H2.
- rewrite <-app_assoc. econstructor; [done..|]. apply IH.
  rewrite zlen_cons in H2. by replace (n + 1 + zlen es) with (n + (1 + zlen es)) by lia.
Qed.

(** *** The replay loop *)

Lemma scan_loop_records dek n valid es pre tail acc fuel :
  records dek n valid es →
  scan_loop (length es + fuel) (pre ++ valid ++ tail) dek acc (zlen pre) n =
  scan_loop fuel (pre ++ valid ++ tail) dek (acc ++ es) (zlen pre + zlen valid) (n + zlen es).
Proof.
intros Hr. revert pre acc. induction Hr as [n|n c p e rest es Hc Ho Hd Hr IH]; intros pre acc.
- by rewrite !zlen_nil, !Z.add_0_r, app_nil_r.
- cbn [length Nat.add scan_loop].
  rewrite <-app_assoc, (scan_step_record pre c (rest ++ tail) dek n p e), bind_ok by done.
  specialize (IH (pre ++ frame c) (acc ++ [e])).
  rewrite !zlen_app, zlen_cons, <-!app_assoc in *. rewrite <-!Z.add_assoc in *. exact IH.
Qed.

(** After the intact records, the scan is decided by its step at the tail. *)
Lemma scan_records_tail dek valid es tail :
  records dek 0 valid es →
  scan_records (valid ++ tail) dek =
  (step ← scan_step (valid ++ tail) dek (zlen valid) (zlen es);
   match step with
   | Stop => Ok (MkRecordScan es (zlen es) (zlen valid))
   | Record_ e next =>
       scan_loop (length (valid ++ tail) - length es) (valid ++ tail) dek (es ++ [e]) next (zlen es + 1)
   end).
Proof.
intros Hr. unfold scan_records. pose proof (records_len _ _ _ _ Hr) as Hl.
pose proof (scan_loop_records dek 0 valid es [] tail [] (S (length (valid ++ tail) - length es)) Hr) as Hs.
rewrite !app_nil_l, zlen_nil, !Z.add_0_l in Hs. cbn [scan_loop] in Hs.
replace (S (length (valid ++ tail))) with (length es + S (length (valid ++ tail) - length es))%nat.
- exact Hs.
- unfold zlen in Hl. rewrite length_app. lia.
Qed.

Lemma scan_loop_inv fuel region dek acc pos n s :
  0 <= pos <= zlen region → scan_loop fuel region dek acc pos n = Ok s →
  ∃ valid es, rs_entries s = acc ++ es ∧ records dek n valid es ∧
    rs_count s = n + zlen es ∧ rs_valid_len s = pos + zlen valid ∧ rs_valid_len s <= zlen region ∧
    drop (Z.to_nat pos) region = valid ++ drop (Z.to_nat (rs_valid_len s)) region ∧
    scan_step region dek (rs_valid_len s) (rs_count s) = Ok Stop.
Proof.
revert acc pos n. induction fuel as [|fuel IH]; intros acc pos n Hp; cbn [scan_loop]; [done|].
intros Hl. bind_inv Hl st Hst. destruct st as [|e next].
- injection Hl as <-. simpl. exists [], []. rewrite app_nil_r, zlen_nil, !Z.add_0_r.
  split_and!; try done; [constructor|lia].
- apply scan_step_record_inv in Hst as (c & p & Hc & Ho & Hd & -> & Hle & Hdrop).
  pose proof (zlen_nonneg c). rewrite zlen_frame in *.
  apply IH in Hl as (valid & es & H1 & H2 & H3 & H4 & H5 & H6 & H7); [|lia].
  exists (frame c ++ valid), (e :: es). rewrite zlen_app, zlen_frame, zlen_cons, H1.
  split_and!; try done; try lia.
  + by rewrite <-app_assoc.
  + by econstructor.
  + by rewrite Hdrop, H6, <-app_assoc.
Qed.

(** What a successful scan means. *)
Lemma scan_records_ok dek valid es tail :
  records dek 0 valid es → torn_tail tail = true →
  (4 <= zlen tail → no_survivor (valid ++ tail) (zlen valid) (zlen es) dek) →
  scan_records (valid ++ tail) dek = Ok (MkRecordScan es (zlen es) (zlen valid)).
Proof.
intros Hr Ht Hs. rewrite (scan_records_tail dek valid es tail Hr).
by rewrite (proj2 (scan_step_stop_eq valid tail dek (zlen es)) (conj Ht Hs)).
Qed.

Lemma scan_records_inv region dek s :
  scan_records region dek = Ok s →
  ∃ valid tail, region = valid ++ tail ∧ records dek 0 valid (rs_entries s) ∧
    rs_count s = zlen (rs_entries s) ∧ rs_valid_len s = zlen valid ∧ torn_tail tail = true ∧
    (4 <= zlen tail → no_survivor region (zlen valid) (rs_count s) dek).
Proof.
intros Hs. pose proof (zlen_nonneg region).
apply scan_loop_inv in Hs as (valid & es & H1 & H2 & H3 & H4 & H5 & H6 & H7); [|lia].
exists valid, (drop (Z.to_nat (rs_valid_len s)) region). rewrite Z.add_0_l in H3, H4. simpl in H1.
rewrite drop_0 in H6. rewrite H1, H3 in *. rewrite H4 in *. rewrite H6 in H7.
apply scan_step_stop_eq in H7 as [H7 H8]. rewrite <-H6 in H8. split_and!; done.
Qed.

(** *** The probe *)

Lemma survivor_at_no_panic region off n dek :
  0 <= off → off + MIN_FRAME <= zlen region → ∃ b, survivor_at region off n dek = Ok b.
Proof.
unfold MIN_FRAME. intros H0 Hl. unfold survivor_at.
destruct (index_range_no_panic off (off + 4) region) as (lb & -> & L1); [lia..|]. rewrite bind_ok. cbv zeta.
destruct (Z.ltb_spec (from_le lb) 16); [by eexists|]. cbn [orb].
destruct (Z.ltb_spec (zlen region) (off + 4 + from_le lb + 4)); [by eexists|].
destruct (index_range_no_panic (off + 4) (off + 4 + from_le lb) region) as (c & -> & _); [lia..|]. rewrite bind_ok.
destruct (index_range_no_panic (off + 4 + from_le lb) (off + 4 + from_le lb + 4) region) as (cb & -> & _); [lia..|].
rewrite bind_ok. destruct (negb _); by eexists.
Qed.

Lemma probe_loop_total fuel region off n dek :
  0 <= off → ∃ o, probe_loop fuel region off n dek = Ok o ∧
    (∀ s, o = Some s → off <= s ∧ survivor_at region s n dek = Ok true).
Proof.
revert off. induction fuel as [|fuel IH]; intros off H0; cbn [probe_loop]; [by eexists|].
destruct (Z.leb_spec (off + MIN_FRAME) (zlen region)); [|by eexists].
destruct (survivor_at_no_panic region off n dek) as [[] Hb]; [lia..| |]; rewrite Hb, bind_ok.
- eexists. split; [done|]. intros s [= <-]. split; [lia|done].
- destruct (IH (off + 1) ltac:(lia)) as (o & Ho & Hs). exists o. split; [done|].
  intros s Hs'. destruct (Hs s Hs'). split; [lia|done].
Qed.

Lemma probe_loop_finds fuel region off n dek target :
  0 <= off <= target → target + MIN_FRAME <= zlen region → target - off < Z.of_nat fuel →
  survivor_at region target n dek = Ok true →
  ∃ s, probe_loop fuel region off n dek = Ok (Some s) ∧ off <= s <= target.
Proof.
revert off. induction fuel as [|fuel IH]; intros off H0 Hl Hf Ht; [lia|]. cbn [probe_loop].
rewrite leb_true by (unfold MIN_FRAME in *; lia).
destruct (survivor_at_no_panic region off n dek) as [[] Hb]; [unfold MIN_FRAME in *; lia..| |];
  rewrite Hb, bind_ok.
- exists off. split; [done|lia].
- assert (off ≠ target) by congruence.
  destruct (IH (off + 1)) as (s & Hs & Hr); [lia..|done|]. exists s. split; [done|lia].
Qed.

(** An intact frame that authenticates within the window is a survivor. *)
Lemma frame_survives pre c post n m p dek :
  16 <= zlen c <= u32_max → n <= m < n + 32 → open_record c dek m = Ok p →
  survivor_at (pre ++ frame c ++ post) (zlen pre) n dek = Ok true.
Proof.
intros Hc Hm Ho. destruct (frame_fields pre c post ltac:(lia)) as (H1 & H2 & H3 & H4).
unfold survivor_at. rewrite H1, bind_ok. cbv zeta. rewrite len_field by lia.
rewrite !ltb_ge_false by lia. cbn [orb]. rewrite H2, bind_ok, H3, bind_ok, crc_field, Z.eqb_refl.
cbn [negb]. f_equal.
assert (Hw : ∀ w n, n <= m < n + Z.of_nat w → opens_within w c dek n = true).
{ clear -Ho. induction w as [|w IH]; intros n Hn; [lia|]. cbn [opens_within].
  destruct (decide (n = m)) as [->|]; [by rewrite Ho|].
  destruct (open_record c dek n); [done|..]; apply IH; lia. }
apply Hw. unfold SURVIVOR_PROBE_RECORD_WINDOW. lia.
Qed.

Lemma refuse_no_panic region start n dek : 0 <= start → no_panic (refuse_if_survivors region start n dek).
Proof.
intros H0. unfold refuse_if_survivors, probe_survivors.
destruct (probe_loop_total (Z.to_nat (zlen region - (start + 1))) region (start + 1) (n + 1) dek)
  as (o & -> & _); [lia|]. rewrite bind_ok. by destruct o.
Qed.

Lemma scan_step_no_panic region dek pos n :
  0 <= pos → no_panic (scan_step region dek pos n).
Proof.
intros H0. unfold scan_step. cbv zeta. destruct (Z.leb_spec (pos + 4) (zlen region)); [|exact I].
destruct (index_range_no_panic pos (pos + 4) region) as (lb & -> & L1); [lia..|]. rewrite bind_ok.
pose proof (u32_field_bound lb ltac:(lia)).
destruct (Z.ltb_spec (zlen region) (pos + 4 + from_le lb + 4)).
{ apply no_panic_bind; [by apply refuse_no_panic|done]. }
destruct (index_range_no_panic (pos + 4) (pos + 4 + from_le lb) region) as (c & -> & _); [lia..|]. rewrite bind_ok.
destruct (index_range_no_panic (pos + 4 + from_le lb) (pos + 4 + from_le lb + 4) region) as (cb & -> & _); [lia..|].
rewrite bind_ok. destruct (negb _).
{ apply no_panic_bind; [by apply refuse_no_panic|done]. }
apply no_panic_bind; [apply no_panic_ok_or|]. intros p _.
pose proof (deserialize_total p) as Hp. by destruct (deserialize p).
Qed.

Lemma scan_loop_no_panic fuel region dek acc pos n :
  0 <= pos <= zlen region → zlen region - pos < Z.of_nat fuel →
  no_panic (scan_loop fuel region dek acc pos n).
Proof.
revert acc pos n. induction fuel as [|fuel IH]; intros acc pos n Hp Hf; [lia|]. cbn [scan_loop].
apply no_panic_bind; [apply scan_step_no_panic; lia|]. intros [|e next] Hs; [exact I|].
apply scan_step_record_inv in Hs as (c & p & _ & _ & _ & -> & Hle & _).
rewrite zlen_frame in *. pose proof (zlen_nonneg c). apply IH; lia.
Qed.

Lemma scan_records_no_panic region dek : no_panic (scan_records region dek).
Proof. apply scan_loop_no_panic; unfold zlen; lia. Qed.

(** A tail with a survivor stops the scan with an error. *)
Lemma scan_refused dek valid es tail off :
  records dek 0 valid es → torn_tail tail = true → 4 <= zlen tail →
  probe_survivors (valid ++ tail) (zlen valid + 1) (zlen es + 1) dek = Ok (Some off) →
  scan_records (valid ++ tail) dek =
  Err (WalMidSegmentCorruption (V1_RECORD_OFFSET + zlen valid) (V1_RECORD_OFFSET + off) (zlen es)).
Proof.
intros Hr Ht Hl Hp. rewrite (scan_records_tail dek valid es tail Hr).
rewrite (scan_step_torn valid tail dek (zlen es) Ht Hl). unfold refuse_if_survivors. by rewrite Hp.
Qed.

(** *** Encoding *)

(** An entry whose record fits the frame's length field. *)
Definition entry_fits (e : WalEntry) : Prop :=
  wal_entry_wf e ∧ zlen (serialize e) + TAG_SIZE <= u32_max.

Lemma records_fit dek n valid es : records dek n valid es → Forall entry_fits es.
Proof.
induction 1 as [|n c p e rest es Hc Ho Hd Hr IH]; constructor; [|done].
apply deserialize_inv in Hd as [Hwf [junk ->]]. split; [done|].
apply decrypt_sound, encrypt_len in Ho. rewrite zlen_app in Ho.
pose proof (zlen_nonneg junk). lia.
Qed.

Lemma encode_record_ok dek n e :
  entry_fits e → ∃ c, seal_record (serialize e) dek n = Ok c ∧
    zlen c <= u32_max ∧ open_record c dek n = Ok (serialize e) ∧ deserialize (serialize e) = Ok e.
Proof.
intros [Hwf Hl]. unfold seal_record, TAG_SIZE in *.
destruct (encrypt_total (serialize e) dek (counter_nonce n) (record_aad n)) as [c Hc].
{ unfold AEAD_MAX, u32_max in *. lia. }
exists c. pose proof (encrypt_len _ _ _ _ _ Hc) as Hlc. unfold TAG_SIZE in Hlc.
split_and!; [done|lia|by apply decrypt_encrypt|].
pose proof (deserialize_serialize e [] Hwf) as Hd. by rewrite app_nil_r in Hd.
Qed.

Lemma encode_entries_ok dek n es :
  Forall entry_fits es → ∃ bs, encode_entries dek n es = Ok bs ∧ records dek n bs es.
Proof.
intros Hes. revert n. induction Hes as [|e es He _ IH]; intros n; cbn [encode_entries].
- exists []. split; [done|constructor].
- destruct (encode_record_ok dek n e He) as (c & Hs & Hc & Ho & Hd).
  unfold encode_record. rewrite Hs, !bind_ok.
  destruct (IH (n + 1)) as (bs & -> & Hbs). rewrite bind_ok. eexists. split; [done|]. by econstructor.
Qed.

(** *** Headers *)

Lemma segment_header_len h : header_wf h → zlen (segment_header h) = V1_RECORD_OFFSET.
Proof.
intros Hh. unfold segment_header. rewrite !zlen_app, zlen_to_le, header_to_bytes_len by done. done.
Qed.

Lemma segment_header_magic h rest : bool_decide (WAL_MAGIC `prefix_of` segment_header h ++ rest) = true.
Proof.
apply bool_decide_eq_true. exists (to_le 2 WAL_VERSION_CURRENT ++ header_to_bytes h ++ rest).
unfold segment_header. by rewrite <-!app_assoc.
Qed.

(** Two random draws of the right sizes yield a segment key. *)
Definition good_draw (rng : Draw) : Prop :=
  ∃ d n, rng = MkDraw (Some d) (Some n) ∧ zlen d = KEY_SIZE ∧ zlen n = NONCE_SIZE.

Lemma new_segment_key_ok rng kek kek_id :
  good_draw rng → zlen kek_id = KEK_ID_SIZE →
  ∃ dek h, new_segment_key rng kek kek_id = Ok (dek, h) ∧ header_wf h ∧ unwrap_dek h kek = Ok dek.
Proof.
intros (d & n & -> & Hd & Hn) Hk. unfold new_segment_key. simpl.
destruct (wrap_total n d kek kek_id Hd) as (h & Hw & Hwf). rewrite Hw. simpl.
exists d, h. split_and!; [done|auto|]. by apply (unwrap_wrap _ _ _ _ _ Hd Hw).
Qed.

(** The v1 layout: version header, encryption header, record region. *)
Lemma open_data_v1 rng kek kek_id h dek region persist :
  header_wf h → unwrap_dek h kek = Ok dek →
  open_data rng kek kek_id (segment_header h ++ region) persist =
  (scan ← scan_records region dek;
   if rs_valid_len scan =? zlen region
   then Ok (dek, h, rs_count scan,
            if persist then [SetLen0; WriteAll (segment_header h ++ region)] else [])
   else '(new_dek, new_header, rebuilt) ← rebuild_truncated_segment rng kek kek_id (rs_entries scan);
        Ok (new_dek, new_header, rs_count scan, [RenameOver rebuilt])).
Proof.
intros Hh Hu. unfold open_data. cbv zeta.
pose proof (segment_header_len h Hh) as Hl. pose proof (header_to_bytes_len h Hh) as Hlh.
pose proof (zlen_nonneg region) as Hr.
change (WAL_VERSION_HEADER_SIZE + ENCRYPTION_HEADER_SIZE) with 82.
change V1_RECORD_OFFSET with 82 in Hl. change ENCRYPTION_HEADER_SIZE with 76 in Hlh.
change WAL_VERSION_HEADER_SIZE with 6. rewrite zlen_app, Hl, ltb_ge_false by lia.
assert (Hi : index_range (E := StorageError) 6 82 (segment_header h ++ region) = Ok (header_to_bytes h)).
{ unfold segment_header. rewrite <-!app_assoc, app_assoc.
  rewrite index_range_skip by (rewrite zlen_app, zlen_to_le; done).
  apply index_range_head; rewrite zlen_app, zlen_to_le; [done|]. rewrite Hlh. done. }
rewrite Hi, bind_ok, header_roundtrip, bind_ok, Hu, bind_ok by done.
rewrite index_range_skip by lia. rewrite index_range_all, bind_ok by lia. done.
Qed.

Lemma detect_v1 h region :
  header_wf h → detect_version (segment_header h ++ region) = Ok (segment_header h ++ region, false).
Proof.
intros Hh. unfold detect_version. rewrite segment_header_magic.
pose proof (segment_header_len h Hh) as Hl. pose proof (zlen_nonneg region).
change V1_RECORD_OFFSET with 82 in Hl. change WAL_VERSION_HEADER_SIZE with 6.
rewrite zlen_app, Hl, ltb_ge_false by lia.
assert (Hv : index_at (E := StorageError) 4 (segment_header h ++ region) = Ok x01 ∧
  index_at (E := StorageError) 5 (segment_header h ++ region) = Ok x00).
{ unfold segment_header. by replace (to_le 2 WAL_VERSION_CURRENT) with [x01; x00] by (vm_compute; done). }
destruct Hv as [-> ->]. rewrite !bind_ok.
replace (from_le [x01; x00]) with 1 by (vm_compute; done). done.
Qed.

(** A v0 file is the encryption header and the records. *)
Lemma detect_v0 h region :
  bool_decide (WAL_MAGIC `prefix_of` header_to_bytes h ++ region) = false →
  detect_version (header_to_bytes h ++ region) = Ok (segment_header h ++ region, true).
Proof.
intros Hm. unfold detect_version. rewrite Hm. unfold apply_chain. cbn.
unfold migrate_v0_to_v1, segment_header. by rewrite <-!app_assoc.
Qed.

(** *** The invariant of an open WAL *)

Record wal_inv (w : Wal) (es : list WalEntry) : Prop := {
  wi_header : header_wf (w_header w);
  wi_key : unwrap_dek (w_header w) (w_kek w) = Ok (w_dek w);
  wi_counter : w_counter w = zlen es;
  wi_file : ∃ bs, w_file w = segment_header (w_header w) ++ bs ∧ records (w_dek w) 0 bs es
}.

Lemma torn_nil : torn_tail [] = true.
Proof. done. Qed.

Lemma scan_records_all dek bs es :
  records dek 0 bs es → scan_records bs dek = Ok (MkRecordScan es (zlen es) (zlen bs)).
Proof.
intros Hr. pose proof (scan_records_ok dek bs es [] Hr torn_nil) as Hs.
rewrite app_nil_r in Hs. apply Hs. rewrite zlen_nil. lia.
Qed.

(** Replay of an open WAL returns exactly its records. *)
Lemma wal_inv_read w es : wal_inv w es → read_all w = Ok es.
Proof.
intros [Hh _ _ (bs & Hf & Hr)]. unfold read_all. rewrite Hf, zlen_app, segment_header_len by done.
pose proof (zlen_nonneg bs).
destruct (Z.leb_spec (V1_RECORD_OFFSET + zlen bs) V1_RECORD_OFFSET).
- assert (bs = []) as -> by (apply length_zero_iff_nil; unfold zlen in *; lia).
  pose proof (records_len _ _ _ _ Hr) as Hl. destruct es; [done|].
  rewrite zlen_cons in Hl. pose proof (zlen_nonneg es). change (zlen []) with 0 in Hl. lia.
- rewrite index_range_skip by (rewrite segment_header_len by done; lia).
  rewrite segment_header_len by done. rewrite index_range_all by lia.
  rewrite bind_ok, (scan_records_all _ _ _ Hr). done.
Qed.

(** A segment file: a valid header, intact records and a torn tail in which no
record survives. *)
Definition segment_of (kek : list byte) (es : list WalEntry) (content : list byte) : Prop :=
  ∃ h dek valid tail, content = segment_header h ++ valid ++ tail ∧ header_wf h ∧
    unwrap_dek h kek = Ok dek ∧ records dek 0 valid es ∧ torn_tail tail = true ∧
    (4 <= zlen tail → no_survivor (valid ++ tail) (zlen valid) (zlen es) dek).

Lemma repair_full content : V1_RECORD_OFFSET <= zlen content → repair_partial_header content = ([], zlen content).
Proof.
intros Hl. unfold repair_partial_header. rewrite (leb_true _ _ Hl). by rewrite orb_true_r.
Qed.

Lemma open_segment rng config kek kek_id es content :
  good_draw rng → zlen kek_id = KEK_ID_SIZE → segment_of kek es content →
  ∃ w ops, open_with_fs rng config kek kek_id content = Ok (w, ops) ∧ wal_inv w es ∧
    w_fenced w = false ∧ w_kek w = kek ∧
    (ops = [] ∧ w_file w = content ∨ ops = [RenameOver (w_file w)]).
Proof.
intros Hg Hk (h & dek & valid & tail & -> & Hh & Hu & Hr & Ht & Hs).
unfold open_with_fs. pose proof (segment_header_len h Hh) as Hl.
pose proof (zlen_nonneg (valid ++ tail)) as Hnn.
rewrite repair_full by (rewrite zlen_app; lia). cbn [foldl]. rewrite zlen_app, Hl.
replace (V1_RECORD_OFFSET + zlen (valid ++ tail) =? 0) with false
  by (symmetry; apply Z.eqb_neq; unfold V1_RECORD_OFFSET, WAL_VERSION_HEADER_SIZE, ENCRYPTION_HEADER_SIZE,
        KEK_ID_SIZE, NONCE_SIZE, KEY_SIZE, TAG_SIZE; lia).
unfold open_existing. rewrite detect_v1, bind_ok by done. cbv beta iota.
rewrite (open_data_v1 rng kek kek_id h dek) by done.
rewrite (scan_records_ok dek valid es tail Hr Ht Hs), bind_ok. cbn [rs_valid_len rs_count rs_entries].
rewrite zlen_app. destruct (Z.eqb_spec (zlen valid) (zlen valid + zlen tail)) as [He|He].
- assert (tail = []) as -> by (apply length_zero_iff_nil; unfold zlen in *; lia). rewrite app_nil_r.
  rewrite bind_ok. eexists _, _. split; [done|]. split_and!; try done; [|by left].
  split; simpl; try done. by exists valid.
- unfold rebuild_truncated_segment. destruct (new_segment_key_ok rng kek kek_id Hg Hk) as (dek' & h' & Hn & Hh' & Hu').
  rewrite Hn, bind_ok. cbv beta iota.
  destruct (encode_entries_ok dek' 0 es (records_fit _ _ _ _ Hr)) as (bs & Hbs & Hrs).
  rewrite Hbs, !bind_ok. eexists _, _. split; [done|]. split_and!; try done; [|by right].
  split; simpl; try done. by exists bs.
Qed.

Lemma wal_inv_segment w es : wal_inv w es → segment_of (w_kek w) es (w_file w).
Proof.
intros [Hh Hu _ (bs & Hf & Hr)]. exists (w_header w), (w_dek w), bs, [].
rewrite app_nil_r. by split_and!.
Qed.

(** A header shorter than one complete header. *)
Lemma repair_partial h n :
  header_wf h → (n < 82)%nat →
  repair_partial_header (take n (segment_header h)) =
  (if (n =? 0)%nat then [] else [SetLen0], 0).
Proof.
intros Hh Hn. assert (Hl : zlen (take n (segment_header h)) = Z.of_nat n).
{ pose proof (segment_header_len h Hh) as Hl. change V1_RECORD_OFFSET with 82 in Hl.
  unfold zlen in *. rewrite length_take. lia. }
unfold repair_partial_header. rewrite Hl. change V1_RECORD_OFFSET with 82.
change ENCRYPTION_HEADER_SIZE with 76.
destruct n as [|n]; [done|]. rewrite (proj2 (Z.eqb_neq _ _)) by lia.
rewrite (proj2 (Z.leb_gt _ _)) by lia. cbn [orb Nat.eqb].
destruct (Z.ltb_spec (Z.of_nat (S n)) 76) as [Hlt|Hge].
- by destruct (bool_decide _).
- rewrite bool_decide_true; [done|].
  replace (S n) with (4 + (S n - 4))%nat by lia. unfold segment_header.
  exists (take (S n - 4) (to_le 2 WAL_VERSION_CURRENT ++ header_to_bytes h)). done.
Qed.

Lemma open_fresh rng config kek kek_id h n :
  good_draw rng → zlen kek_id = KEK_ID_SIZE → header_wf h → (n < 82)%nat →
  ∃ w ops, open_with_fs rng config kek kek_id (take n (segment_header h)) = Ok (w, ops) ∧
    wal_inv w [] ∧ w_fenced w = false ∧ w_kek w = kek ∧
    ops = (if (n =? 0)%nat then [] else [SetLen0]) ++ [WriteAll (segment_header (w_header w))].
Proof.
intros Hg Hk Hh Hn. unfold open_with_fs. rewrite repair_partial by done. cbn [Z.eqb].
destruct (new_segment_key_ok rng kek kek_id Hg Hk) as (dek' & h' & Hn' & Hh' & Hu').
rewrite Hn', !bind_ok. cbv beta iota.
eexists _, _. split; [done|]. split_and!; try done.
split; simpl; try done. exists []. split; [|constructor]. rewrite app_nil_r.
by destruct (Nat.eqb_spec n 0) as [->|].
Qed.

(** *** Rotation and append *)

(** The size condition under which an append rotates first. *)
Definition rotates (plaintext : list byte) (w : Wal) : bool :=
  (0 <? max_size (w_config w)) &&
  (max_size (w_config w) <? zlen (w_file w) + (4 + zlen plaintext + TAG_SIZE + 4)).

Lemma rotate_outcome rng flush fault w es r w' :
  wal_inv w es → good_draw rng → zlen (w_kek_id w) = KEK_ID_SIZE →
  rotate_locked rng flush fault w = (r, w') →
  (r = Ok tt → flush = Ok tt ∧ wal_inv w' [] ∧ w_kek_id w' = w_kek_id w) ∧
  (r ≠ Ok tt → w' = w ∨ w_fenced w' = true) ∧
  (flush ≠ Ok tt → w' = w ∧ r ≠ Ok tt).
Proof.
intros Hi Hg Hk. unfold rotate_locked.
destruct (new_segment_key_ok rng (w_kek w) (w_kek_id w) Hg Hk) as (dek & h & -> & Hh & Hu).
destruct flush as [[]|e|]; cbv beta iota; [|intros [= <- <-]; split_and!; by auto..].
set (f := match fault with SyncFails => _ | _ => _ end). clearbody f.
destruct f; intros [= <- <-]; split_and!; try done; try (by right).
intros _. split_and!; try done. split; simpl; try done. exists []. rewrite app_nil_r. split; [done|constructor].
Qed.

(** Appending a frame to a segment that holds [es]. *)
Lemma wal_inv_append w es e c :
  wal_inv w es → zlen c <= u32_max → open_record c (w_dek w) (w_counter w) = Ok (serialize e) →
  deserialize (serialize e) = Ok e →
  wal_inv (set_file (w_file w ++ frame c) (set_counter (w_counter w + 1) w)) (es ++ [e]).
Proof.
intros [Hh Hu Hn (bs & Hf & Hr)] Hc Ho Hd. split; simpl; try done.
- rewrite Hn, zlen_app. done.
- exists (bs ++ frame c). rewrite Hf, <-app_assoc. split; [done|].
  eapply records_app; [exact Hr|]. rewrite <-(app_nil_r (frame c)). econstructor; [done| |done|constructor].
  by rewrite Hn in Ho.
Qed.

Lemma wal_inv_restore w es f n : wal_inv w es →
  wal_inv (set_counter (w_counter w) (set_file (w_file w) (set_counter n (set_file f w)))) es.
Proof. by intros [Hh Hu Hn Hf]; split. Qed.

(** The write itself, after the rotation check. *)
Lemma write_outcome w es e apply fault r w' :
  wal_inv w es → entry_fits e →
  (let w1 := set_counter (w_counter w + 1) w in
   match apply with
   | Err err => (Err err, w)
   | Panic => (Panic, w)
   | Ok _ =>
       let '(write_result, file, rollback_ok) :=
         match seal_record (serialize e) (w_dek w1) (w_counter w) with
         | Err e => (Err e, w_file w, true)
         | Panic => (Panic, w_file w, true)
         | Ok ciphertext =>
             match fault with
             | WriteOk => (Ok tt, w_file w ++ frame ciphertext, true)
             | WriteFails n ok => (Err io_error, w_file w ++ take n (frame ciphertext), ok)
             end
         end in
       match write_result with
       | Err err =>
           if rollback_ok : bool then (Err err, set_counter (w_counter w) (set_file (w_file w) w1))
           else (Err err, engage_fence (set_file file w1))
       | _ => (write_result, set_file file w1)
       end
   end) = (r, w') →
  (r = Ok tt → apply = Ok tt ∧ wal_inv w' (es ++ [e])) ∧
  (r ≠ Ok tt → wal_inv w' es ∨ w_fenced w' = true).
Proof.
intros Hi He. cbv zeta. destruct apply as [[]|err|]; [|intros [= <- <-]; split; by auto..].
destruct (encode_record_ok (w_dek w) (w_counter w) e He) as (c & Hc & Hl & Ho & Hd).
simpl w_dek. rewrite Hc.
destruct fault as [|n []]; intros [= <- <-]; split; try done.
- intros _. split; [done|]. by apply wal_inv_append.
- intros _. left. apply (wal_inv_restore w es (w_file w) (w_counter w + 1) Hi).
- intros _. by right.
Qed.

(** The buffer of a batch is its frames, one after the other. *)
Lemma batch_buffer_ok dek n es buf :
  Forall entry_fits es →
  ∃ bs, batch_buffer dek n (serialize <$> es) buf = Ok (buf ++ bs) ∧ records dek n bs es.
Proof.
intros Hes. revert n buf. induction Hes as [|e es He _ IH]; intros n buf.
- exists []. rewrite app_nil_r. split; [done|constructor].
- destruct (encode_record_ok dek n e He) as (c & Hs & Hc & Ho & Hd).
  pose proof (encrypt_len _ _ _ _ _ Hs) as Hlc.
  rewrite fmap_cons. cbn [batch_buffer]. cbv zeta. rewrite seal_into_eq.
  unfold seal_record in Hs. rewrite Hs, !bind_ok. cbv beta iota.
  rewrite index_range_skip by lia. rewrite index_range_all by lia. rewrite bind_ok, <-Hlc.
  destruct (IH (n + 1) (((buf ++ to_le 4 (zlen c)) ++ c) ++ to_le 4 (crc32 c))) as (bs & Hb & Hr).
  rewrite Hb. exists (frame c ++ bs). split; [|by econstructor].
  unfold frame. by rewrite <-!app_assoc.
Qed.

End lemmas.

(** ** Theorems *)

Section theorems.
Context `{HA : Aead} `{HC : Crc32} `{HAL : !AeadLaws} `{HCL : !Crc32Laws}.

(** A replay scan succeeds exactly when the region is a run of intact
records, numbered from zero, followed by a torn tail (too short, incomplete, or
with a wrong checksum) in which no later record survives; it returns those
records and where the tail starts. It never panics and always terminates. *)
Theorem scan_records_exact region dek :
  no_panic (scan_records region dek) ∧
  ∀ s, scan_records region dek = Ok s ↔
    ∃ valid tail, region = valid ++ tail ∧ records dek 0 valid (rs_entries s) ∧
      rs_count s = zlen (rs_entries s) ∧ rs_valid_len s = zlen valid ∧ torn_tail tail = true ∧
      (4 <= zlen tail → no_survivor region (zlen valid) (rs_count s) dek).
Proof.
split; [apply scan_records_no_panic|]. intros s. split; [apply scan_records_inv|].
intros (valid & tail & -> & Hr & Hc & Hl & Ht & Hs). rewrite Hc in Hs.
rewrite (scan_records_ok dek valid _ tail Hr Ht Hs). destruct s. simpl in *. by subst.
Qed.

(** Corruption in the middle of a segment is never truncated away. If an
intact record follows the damaged bytes, within the probe's window of record
numbers, the scan fails with the offset of the damage and of a survivor, and
returns no entries. *)
Theorem mid_segment_corruption_refused dek valid es damage c post m p :
  records dek 0 valid es → torn_tail (damage ++ frame c ++ post) = true → damage ≠ [] →
  16 <= zlen c <= u32_max → zlen es < m <= zlen es + 32 → open_record c dek m = Ok p →
  ∃ off, zlen valid < off <= zlen valid + zlen damage ∧
    scan_records (valid ++ damage ++ frame c ++ post) dek =
    Err (WalMidSegmentCorruption (V1_RECORD_OFFSET + zlen valid) (V1_RECORD_OFFSET + off) (zlen es)).
Proof.
intros Hr Ht Hd Hc Hm Ho. set (region := valid ++ damage ++ frame c ++ post).
assert (Hdl : 1 <= zlen damage) by (destruct damage; [done|rewrite zlen_cons; pose proof (zlen_nonneg damage); lia]).
destruct (probe_loop_finds (Z.to_nat (zlen region - (zlen valid + 1))) region (zlen valid + 1)
  (zlen es + 1) dek (zlen valid + zlen damage)) as (off & Hp & Hoff).
- pose proof (zlen_nonneg valid). lia.
- unfold region. rewrite !zlen_app, zlen_frame. pose proof (zlen_nonneg post). unfold MIN_FRAME. lia.
- unfold region. rewrite !zlen_app, zlen_frame. pose proof (zlen_nonneg post). lia.
- pose proof (frame_survives (valid ++ damage) c post (zlen es + 1) m p dek Hc ltac:(lia) Ho) as Hf.
  rewrite zlen_app, <-app_assoc in Hf. exact Hf.
- exists off. split; [lia|]. apply scan_refused; [done|done| |exact Hp].
  rewrite !zlen_app, zlen_frame. pose proof (zlen_nonneg post). lia.
Qed.


(** A segment whose header was cut short by a crash, at any byte, reopens
empty and ready; so does whatever a crash during that reopening leaves. *)
Theorem open_repairs_header rng rng' config kek kek_id h n :
  good_draw rng → good_draw rng' → zlen kek_id = KEK_ID_SIZE → header_wf h → (n < 82)%nat →
  ∃ w ops, open_with_fs rng config kek kek_id (take n (segment_header h)) = Ok (w, ops) ∧
    wal_inv w [] ∧
    Forall (λ c, ∃ w' ops', open_with_fs rng' config kek kek_id c = Ok (w', ops') ∧
                            read_all w' = Ok []) (crash_states (take n (segment_header h)) ops).
Proof.
intros Hg Hg' Hk Hh Hn.
destruct (open_fresh rng config kek kek_id h n Hg Hk Hh Hn) as (w & ops & Ho & Hi & _ & Hkw & ->).
eexists w, _. split_and!; [exact Ho|done|].
assert (Hpart : ∀ h n, header_wf h → (n < 82)%nat → ∃ w' ops',
  open_with_fs rng' config kek kek_id (take n (segment_header h)) = Ok (w', ops') ∧ read_all w' = Ok []).
{ intros h' n' Hh' Hn'. destruct (open_fresh rng' config kek kek_id h' n' Hg' Hk Hh' Hn') as (w' & ops' & Ho' & Hi' & _).
  exists w', ops'. split; [done|]. by apply wal_inv_read. }
assert (Hfull : ∃ w' ops', open_with_fs rng' config kek kek_id (segment_header (w_header w)) = Ok (w', ops') ∧
  read_all w' = Ok []).
{ destruct (open_segment rng' config kek kek_id [] (segment_header (w_header w)) Hg' Hk) as (w' & ops' & Ho' & Hi' & _).
  - destruct Hi as [Hwh Hwk _ _]. rewrite Hkw in Hwk. exists (w_header w), (w_dek w), [], [].
    rewrite app_nil_r. split_and!; try done. constructor.
  - exists w', ops'. split; [done|]. by apply wal_inv_read. }
assert (Hlen : length (segment_header (w_header w)) = 82%nat).
{ pose proof (segment_header_len _ (wi_header _ _ Hi)) as Hl. change V1_RECORD_OFFSET with 82 in Hl.
  unfold zlen in Hl. lia. }
assert (Hrest : Forall (λ c, ∃ w' ops', open_with_fs rng' config kek kek_id c = Ok (w', ops') ∧ read_all w' = Ok [])
  (crash_states [] [WriteAll (segment_header (w_header w))])).
{ cbn [crash_states apply_op]. apply Forall_app; split; [|repeat constructor; exact Hfull].
  apply Forall_fmap, Forall_forall. intros k Hk'%elem_of_seq. apply Hpart; [apply (wi_header _ _ Hi)|lia]. }
destruct (Nat.eqb_spec n 0) as [->|Hn0]; [exact Hrest|].
cbn [app crash_states apply_op]. constructor; [by apply Hpart|exact Hrest].
Qed.

(** An append either stores its record or leaves no trace. On success the
segment holds the records it held (none, after a rotation) and the new one,
last; on failure it holds exactly the records it held, or the fence is engaged
and refuses every later write. A rotation drops the old records only after both
flush callbacks succeeded. *)
Theorem append_all_or_nothing rng pre_rotate flush rotate_fault apply fault e w es r w' :
  wal_inv w es → entry_fits e → good_draw rng → zlen (w_kek_id w) = KEK_ID_SIZE →
  write_entry_no_sync rng pre_rotate flush rotate_fault apply fault (serialize e) w = (r, w') →
  let rot := rotates (serialize e) w in
  let kept := if rot then [] else es in
  (r = Ok tt → apply = Ok tt ∧ wal_inv w' (kept ++ [e])) ∧
  (r ≠ Ok tt → w_fenced w' = true ∨ wal_inv w' es ∨ wal_inv w' kept) ∧
  (rot = true → (pre_rotate ≠ Ok tt ∨ flush ≠ Ok tt) → w' = w ∧ r ≠ Ok tt).
Proof.
intros Hi He Hg Hk Hw. cbv zeta. unfold write_entry_no_sync in Hw. cbv zeta in Hw.
fold (rotates (serialize e) w) in Hw. destruct (rotates (serialize e) w).
- destruct pre_rotate as [[]|err|];
    [|injection Hw as <- <-; split_and!; by auto..].
  destruct (rotate_locked rng flush rotate_fault w) as [r1 w1] eqn:Er.
  destruct (rotate_outcome _ _ _ _ _ _ _ Hi Hg Hk Er) as (Hok & Hbad & Hfl).
  destruct r1 as [[]|err|].
  + destruct (Hok eq_refl) as (Hf & Hi1 & _).
    destruct (write_outcome w1 [] e apply fault r w' Hi1 He Hw) as [H1 H2]. split_and!; [done| |].
    * intros Hr. destruct (H2 Hr); auto.
    * intros _ [?|?]; done.
  + injection Hw as <- <-. split_and!; [done| |].
    * intros _. destruct Hbad as [->|?]; auto; done.
    * intros _ [?|Hf]; [done|]. destruct (Hfl Hf) as [-> _]. done.
  + injection Hw as <- <-. split_and!; [done| |].
    * intros _. destruct Hbad as [->|?]; auto; done.
    * intros _ [?|Hf]; [done|]. destruct (Hfl Hf) as [-> _]. done.
- destruct (write_outcome w es e apply fault r w' Hi He Hw) as [H1 H2]. split_and!; [done| |done].
  intros Hr. destruct (H2 Hr); auto.
Qed.

(** A group commit stores its whole batch, in order, or fences. On success
the segment holds the records it held (none, after a rotation) followed by the
batch's, so that every record of the batch is replayed; on any fault the fence
is engaged, and no later append is accepted. *)
Theorem commit_batch_all_or_fence rng pre_rotate flush rotate_fault fault batch w es r w' :
  wal_inv w es → Forall entry_fits batch → good_draw rng → zlen (w_kek_id w) = KEK_ID_SIZE →
  commit_batch rng pre_rotate flush rotate_fault fault (serialize <$> batch) w = (r, w') →
  (r = Ok tt → wal_inv w' (es ++ batch) ∨
     (wal_inv w' batch ∧ flush = Ok tt ∧ default (Ok tt) pre_rotate = Ok tt)) ∧
  (∀ e, r = Err e → w_fenced w' = true).
Proof.
intros Hi Hb Hg Hk Hc. unfold commit_batch in Hc. cbv zeta in Hc.
set (step1 := if _ && _ then _ else _) in Hc. destruct step1 as [r1 w1] eqn:E1. subst step1.
assert (H1 : r1 = Ok tt → w1 = w ∨ wal_inv w1 [] ∧ flush = Ok tt ∧ default (Ok tt) pre_rotate = Ok tt).
{ intros ->. destruct (_ && _); [|injection E1 as <-; by left].
  destruct (default (Ok tt) pre_rotate) as [[]| |]; try done.
  destruct (rotate_outcome _ _ _ _ _ _ _ Hi Hg Hk E1) as (Hok & _). destruct (Hok eq_refl) as (? & ? & _). auto. }
destruct r1 as [[]|e|]; [|by injection Hc as <- <-..].
assert (H2 : ∃ kept, wal_inv w1 kept ∧ (kept = es ∨ kept = [] ∧ flush = Ok tt ∧ default (Ok tt) pre_rotate = Ok tt)).
{ destruct (H1 eq_refl) as [->|(? & ? & ?)]; [exists es; auto|exists []; auto]. }
destruct H2 as (kept & Hi1 & Hkept). clear E1 H1.
destruct (batch_buffer_ok (w_dek w1) (w_counter w1) batch [] Hb) as (bs & Hbs & Hr).
simpl w_dek in Hc. rewrite Hbs in Hc. rewrite app_nil_l in Hc.
destruct fault as [|n|]; injection Hc as <- <-; split; try done. intros _.
assert (Hw : wal_inv (set_file (w_file w1 ++ bs) (set_counter (w_counter w1 + zlen (serialize <$> batch)) w1)) (kept ++ batch)).
{ destruct Hi1 as [Hh Hu Hn (old & Hf & Hro)]. split; simpl; try done.
  - rewrite Hn, zlen_app. unfold zlen. by rewrite length_fmap.
  - exists (old ++ bs). rewrite Hf, <-app_assoc. split; [done|]. eapply records_app; [exact Hro|].
    by rewrite Hn in Hr. }
destruct Hkept as [->|(-> & ? & ?)]; [by left|by right].
Qed.

(** Persisting a v0-to-v1 migration is not crash-safe. The open replays a
legacy segment's records, and then rewrites the file in place; a crash between
the truncation and the write leaves an empty file, which the next open accepts
as a fresh segment: every record of the legacy segment is lost. *)
Theorem migration_not_crash_safe rng rng' config kek kek_id h dek valid es :
  good_draw rng → good_draw rng' → zlen kek_id = KEK_ID_SIZE → header_wf h →
  unwrap_dek h kek = Ok dek → records dek 0 valid es → es ≠ [] →
  bool_decide (WAL_MAGIC `prefix_of` header_to_bytes h ++ valid) = false →
  let content := header_to_bytes h ++ valid in
  ∃ w ops, open_with_fs rng config kek kek_id content = Ok (w, ops) ∧ read_all w = Ok es ∧
    [] ∈ crash_states content ops ∧
    ∃ w' ops', open_with_fs rng' config kek kek_id [] = Ok (w', ops') ∧ read_all w' = Ok [].
Proof.
intros Hg Hg' Hk Hh Hu Hr Hne Hm content.
pose proof (header_to_bytes_len h Hh) as Hl. change ENCRYPTION_HEADER_SIZE with 76 in Hl.
assert (Hv : 8 <= zlen valid).
{ destruct Hr as [|n c p e rest es Hc _ _ _]; [done|]. rewrite zlen_app, zlen_frame.
  pose proof (zlen_nonneg rest). pose proof (zlen_nonneg c). lia. }
assert (Ho : open_existing rng kek kek_id content =
  Ok (dek, h, zlen es, [SetLen0; WriteAll (segment_header h ++ valid)])).
{ unfold open_existing, content. rewrite detect_v0, bind_ok by done. cbv beta iota.
  rewrite (open_data_v1 rng kek kek_id h dek valid true Hh Hu), (scan_records_all _ _ _ Hr), bind_ok.
  cbn [rs_valid_len rs_count]. by rewrite Z.eqb_refl. }
exists (MkWal dek h (zlen es) (segment_header h ++ valid) false kek kek_id config).
exists [SetLen0; WriteAll (segment_header h ++ valid)].
split_and!.
- unfold open_with_fs. rewrite repair_full by (unfold content; rewrite zlen_app, Hl; change V1_RECORD_OFFSET with 82; lia).
  cbn [foldl]. unfold content. rewrite zlen_app, Hl. rewrite (proj2 (Z.eqb_neq _ _)) by lia.
  fold content. by rewrite Ho, bind_ok.
- apply wal_inv_read. split; simpl; try done. by exists valid.
- cbn [crash_states apply_op]. right. apply elem_of_app. left.
  apply list_elem_of_fmap. exists 0%nat. split; [done|]. apply elem_of_seq.
  pose proof (segment_header_len h Hh) as Hlh. change V1_RECORD_OFFSET with 82 in Hlh.
  unfold zlen in Hlh. rewrite length_app. lia.
- destruct (open_fresh rng' config kek kek_id h 0 Hg' Hk Hh ltac:(lia)) as (w' & ops' & Ho' & Hi' & _).
  exists w', ops'. split; [exact Ho'|]. by apply wal_inv_read.
Qed.

End theorems.

(** ** Witnesses *)

Definition wit_dek : list byte := repeat x02 32.
Definition wit_kek_id : list byte := repeat x03 16.
Definition wit_draw : Draw := MkDraw (Some wit_dek) (Some (repeat x01 12)).
Definition wit_entry : WalEntry := MkWalEntry 1 (repeat x07 16) Put [x61] [x01].

Lemma wit_fits : entry_fits wit_entry.
Proof. repeat split; vm_compute; discriminate. Qed.

Lemma wit_good_draw : good_draw wit_draw.
Proof. by exists wit_dek, (repeat x01 12). Qed.

(** The frame of [wit_entry] as record [n]. *)
Definition wit_cipher (n : Z) : list byte := serialize wit_entry ++ toy_tag (counter_nonce n).

Lemma wit_open n : @open_record toy_aead (wit_cipher n) wit_dek n = Ok (serialize wit_entry).
Proof. apply (@decrypt_encrypt toy_aead toy_aead_laws). vm_compute. reflexivity. Qed.

Lemma wit_records : @records toy_aead toy_crc wit_dek 0 (@frame toy_crc (wit_cipher 0)) [wit_entry].
Proof.
rewrite <-(app_nil_r (frame _)). econstructor; [vm_compute; discriminate|apply wit_open| |constructor].
vm_compute. reflexivity.
Qed.

Lemma scan_records_exact_witness :
  @scan_records toy_aead toy_crc (@frame toy_crc (wit_cipher 0)) wit_dek =
  Ok (MkRecordScan [wit_entry] 1 (zlen (@frame toy_crc (wit_cipher 0)))).
Proof.
apply (scan_records_exact (HA := toy_aead) (HC := toy_crc) (HCL := toy_crc_laws)).
exists (@frame toy_crc (wit_cipher 0)), []. rewrite app_nil_r.
split_and!; [done|exact wit_records|done..].
Defined.

Lemma mid_segment_corruption_refused_witness :
  ∃ off, @scan_records toy_aead toy_crc
    (@frame toy_crc (wit_cipher 0) ++ (x10 :: repeat x00 9) ++ @frame toy_crc (wit_cipher 2) ++ []) wit_dek =
  Err (WalMidSegmentCorruption (V1_RECORD_OFFSET + zlen (@frame toy_crc (wit_cipher 0)))
         (V1_RECORD_OFFSET + off) 1).
Proof.
destruct (mid_segment_corruption_refused (HA := toy_aead) (HC := toy_crc) (HCL := toy_crc_laws) wit_dek
  (@frame toy_crc (wit_cipher 0)) [wit_entry] (x10 :: repeat x00 9) (wit_cipher 2) [] 2 (serialize wit_entry))
  as (off & _ & Hs).
- exact wit_records.
- vm_compute. reflexivity.
- done.
- vm_compute. split; discriminate.
- done.
- apply wit_open.
- exists off. exact Hs.
Defined.

Definition wit_config : WalConfig := MkWalConfig 4096 NoSync.

(** A header made by wrapping [wit_dek], and a segment with one record and three
stray bytes. *)
Definition wit_header : EncryptionHeader := MkEncHeader wit_kek_id (wit_dek ++ toy_tag (repeat x01 12)) (repeat x01 12).

Lemma wit_header_wf : header_wf wit_header.
Proof. done. Qed.

Lemma wit_unwrap : @unwrap_dek toy_aead wit_header [] = Ok wit_dek.
Proof. vm_compute. reflexivity. Qed.


Lemma open_repairs_header_witness :
  ∃ w ops, @open_with_fs toy_aead toy_crc wit_draw wit_config [] wit_kek_id
      (take 40 (segment_header wit_header)) = Ok (w, ops) ∧ @wal_inv toy_aead toy_crc w [].
Proof.
destruct (open_repairs_header (HA := toy_aead) (HC := toy_crc) (HAL := toy_aead_laws) (HCL := toy_crc_laws)
  wit_draw wit_draw wit_config [] wit_kek_id wit_header 40) as (w & ops & Ho & Hi & _).
- exact wit_good_draw.
- exact wit_good_draw.
- done.
- exact wit_header_wf.
- lia.
- exists w, ops. split; [exact Ho|exact Hi].
Defined.

(** An open WAL holding one record. *)
Definition wit_wal : Wal :=
  MkWal wit_dek wit_header 1 (segment_header wit_header ++ @frame toy_crc (wit_cipher 0)) false []
    wit_kek_id wit_config.

Lemma wit_wal_inv : @wal_inv toy_aead toy_crc wit_wal [wit_entry].
Proof.
split; [exact wit_header_wf|exact wit_unwrap|done|].
exists (@frame toy_crc (wit_cipher 0)). split; [done|exact wit_records].
Qed.

Lemma append_all_or_nothing_witness :
  ∃ w', @write_entry_no_sync toy_aead toy_crc wit_draw (Ok tt) (Ok tt) RotateOk (Ok tt)
      (WriteFails 5 true) (serialize wit_entry) wit_wal = (Err io_error, w') ∧
    (w_fenced w' = true ∨ @wal_inv toy_aead toy_crc w' [wit_entry] ∨ @wal_inv toy_aead toy_crc w' [wit_entry]).
Proof.
destruct (@write_entry_no_sync toy_aead toy_crc wit_draw (Ok tt) (Ok tt) RotateOk (Ok tt)
  (WriteFails 5 true) (serialize wit_entry) wit_wal) as [r w'] eqn:E.
pose proof (append_all_or_nothing (HA := toy_aead) (HC := toy_crc) (HAL := toy_aead_laws)
  wit_draw (Ok tt) (Ok tt) RotateOk (Ok tt) (WriteFails 5 true) wit_entry wit_wal [wit_entry] r w'
  wit_wal_inv wit_fits wit_good_draw eq_refl E) as (_ & Hbad & _).
assert (fst (@write_entry_no_sync toy_aead toy_crc wit_draw (Ok tt) (Ok tt) RotateOk (Ok tt)
  (WriteFails 5 true) (serialize wit_entry) wit_wal) = Err io_error) as Hr by (vm_compute; reflexivity).
rewrite E in Hr. simpl in Hr. subst r.
exists w'. split; [done|]. exact (Hbad ltac:(discriminate)).
Defined.

Lemma migration_not_crash_safe_witness :
  ∃ w ops, @open_with_fs toy_aead toy_crc wit_draw wit_config [] wit_kek_id
      (header_to_bytes wit_header ++ @frame toy_crc (wit_cipher 0)) = Ok (w, ops) ∧
    @read_all toy_aead toy_crc w = Ok [wit_entry] ∧
    [] ∈ crash_states (header_to_bytes wit_header ++ @frame toy_crc (wit_cipher 0)) ops.
Proof.
destruct (migration_not_crash_safe (HA := toy_aead) (HC := toy_crc) (HAL := toy_aead_laws) (HCL := toy_crc_laws)
  wit_draw wit_draw wit_config [] wit_kek_id wit_header wit_dek (@frame toy_crc (wit_cipher 0)) [wit_entry])
  as (w & ops & Ho & Hr & Hin & _).
- exact wit_good_draw.
- exact wit_good_draw.
- done.
- exact wit_header_wf.
- exact wit_unwrap.
- exact wit_records.
- done.
- vm_compute. reflexivity.
- exists w, ops. split_and!; [exact Ho|exact Hr|exact Hin].
Defined.

Lemma commit_batch_all_or_fence_witness :
  ∃ w', @commit_batch toy_aead toy_crc wit_draw None (Ok tt) RotateOk CommitOk
      (serialize <$> [wit_entry; wit_entry]) wit_wal = (Ok tt, w') ∧
    (@wal_inv toy_aead toy_crc w' ([wit_entry] ++ [wit_entry; wit_entry]) ∨
     @wal_inv toy_aead toy_crc w' [wit_entry; wit_entry] ∧ Ok tt = Ok (E := StorageError) tt ∧ Ok tt = Ok (E := StorageError) tt).
Proof.
destruct (@commit_batch toy_aead toy_crc wit_draw None (Ok tt) RotateOk CommitOk
  (serialize <$> [wit_entry; wit_entry]) wit_wal) as [r w'] eqn:E.
pose proof (commit_batch_all_or_fence (HA := toy_aead) (HC := toy_crc) (HAL := toy_aead_laws)
  wit_draw None (Ok tt) RotateOk CommitOk [wit_entry; wit_entry] wit_wal [wit_entry] r w'
  wit_wal_inv ltac:(repeat constructor; apply wit_fits) wit_good_draw eq_refl E) as (Hok & _).
assert (fst (@commit_batch toy_aead toy_crc wit_draw None (Ok tt) RotateOk CommitOk
  (serialize <$> [wit_entry; wit_entry]) wit_wal) = Ok tt) as Hr by (vm_compute; reflexivity).
rewrite E in Hr. simpl in Hr. subst r. exists w'. split; [exact eq_refl|]. exact (Hok eq_refl).
Defined.
