(* ===== verification/GroupCommit.v ===== *)
(** * Group commit

The thread protocol of [storage/wal.rs] under [SyncMode::EveryWrite]:
[append_applying], [enqueue_slot], [lead_group_commit], [commit_batch],
[announce_leader_vacancy], [await_ticket_or_lead] and [LeaderGuard::drop]. The
state is what the threads share (the group mutex's queue, the commit signal, the
fence) and each thread's program point; a step is one critical section, or one
file operation, of one thread. The bytes a batch writes are
[WalSegment.commit_batch]'s; here a batch is its tickets and the file operation's
outcome is part of the step. *)
From stdpp Require Import base list gmap strings relations.
From Stdlib Require Import ZArith Lia.
From S2P Require Import Prelude.

Open Scope Z_scope.

Definition MAX_LEADER_BATCHES : nat := 16.

(** Where a writer is. [Leading] is the top of the leader's loop; [Committing]
holds a drained batch whose file operations are not finished, [Publishing] one
whose outcome is not announced yet; [Unwinding] is a panicking leader between the
two critical sections of its guard's [drop]. *)
Inductive Phase :=
| Idle
| Ready
| Leading (ticket : Z) (committed : nat)
| Committing (ticket : Z) (committed : nat) (batch : list Z)
| Publishing (ticket : Z) (committed : nat) (batch : list Z) (ok : bool)
| Announcing (ticket : Z)
| Waiting (ticket : Z)
| Claiming (ticket : Z)
| Unwinding (failed : option Z) (highest : Z)
| Acked (ticket : Z)
| Failed (ticket : Z)
| Refused
| Dead.

Record State := MkState {
  pending : list Z;
  leader_active : bool;
  next_ticket : Z;
  completed : Z;
  failed_from : option Z;
  leader_vacant : bool;
  fenced : bool;
  poisoned : bool;
  (** Ghosts: the tickets whose records replay will find, and the tickets whose
  writes the memtable holds, each in order. *)
  durable : list Z;
  applied : list Z;
  threads : nat → Phase
}.

Definition init : State :=
  MkState [] false 1 0 None false false false [] [] (λ _, Idle).

Definition set_thread (i : nat) (p : Phase) (th : nat → Phase) : nat → Phase :=
  λ j, if decide (j = i) then p else th j.

Definition goto (i : nat) (p : Phase) (s : State) : State :=
  MkState (pending s) (leader_active s) (next_ticket s) (completed s) (failed_from s)
    (leader_vacant s) (fenced s) (poisoned s) (durable s) (applied s) (set_thread i p (threads s)).

(** Updates of the group mutex's state and of the commit signal. *)
Definition with_group (pend : list Z) (active : bool) (next : Z) (s : State) : State :=
  MkState pend active next (completed s) (failed_from s) (leader_vacant s) (fenced s) (poisoned s)
    (durable s) (applied s) (threads s).
Definition with_signal (compl : Z) (failed : option Z) (vacant : bool) (s : State) : State :=
  MkState (pending s) (leader_active s) (next_ticket s) compl failed vacant (fenced s) (poisoned s)
    (durable s) (applied s) (threads s).

Inductive Event :=
| EvCheck (i : nat)
| EvEnqueue (i : nat) (apply_ok : bool)
| EvLoop (i : nat)
| EvIo (i : nat) (ok : bool)
| EvPublish (i : nat)
| EvAnnounce (i : nat)
| EvWake (i : nat)
| EvClaim (i : nat)
| EvPanic (i : nat)
| EvUnwind (i : nat).

(** The fence check that opens [append_applying]. *)
Definition check_fence (i : nat) (s : State) : option State :=
  match threads s i with
  | Idle => Some (goto i (if fenced s then Refused else Ready) s)
  | _ => None
  end.

(** [enqueue_slot]: apply, take a ticket, queue, and claim a vacant post, in one
critical section. *)
Definition enqueue_slot (i : nat) (apply_ok : bool) (s : State) : option State :=
  match threads s i with
  | Ready =>
      if apply_ok then
        let ticket := next_ticket s in
        let am_leader := negb (leader_active s) in
        let s' := with_group (pending s ++ [ticket]) true (ticket + 1) s in
        Some (goto i (if am_leader then Leading ticket 0 else Waiting ticket)
          (MkState (pending s') (leader_active s') (next_ticket s') (completed s') (failed_from s')
             (leader_vacant s') (fenced s') (poisoned s') (durable s') (applied s' ++ [ticket])
             (threads s')))
      else Some (goto i Refused s)
  | _ => None
  end.

(** The head of the leader's loop: leave, step down, or drain the queue. *)
Definition lead_loop (i : nat) (s : State) : option State :=
  match threads s i with
  | Leading ticket committed =>
      match pending s with
      | [] => Some (goto i (Waiting ticket) (with_group [] false (next_ticket s) s))
      | _ =>
          if (MAX_LEADER_BATCHES <=? committed)%nat then
            Some (goto i (Announcing ticket) (with_group (pending s) false (next_ticket s) s))
          else
            Some (goto i (Committing ticket committed (pending s))
                    (with_group [] (leader_active s) (next_ticket s) s))
      end
  | _ => None
  end.

(** The file operations of [commit_batch]: on a fault, the fence. Bytes written
after a fault are not found by replay. A poisoned file mutex is a fault. *)
Definition commit_io (i : nat) (ok : bool) (s : State) : option State :=
  match threads s i with
  | Committing ticket committed batch =>
      if ok then
        if poisoned s then None else
        Some (goto i (Publishing ticket committed batch true)
          (MkState (pending s) (leader_active s) (next_ticket s) (completed s) (failed_from s)
             (leader_vacant s) (fenced s) (poisoned s)
             (if fenced s then durable s else durable s ++ batch) (applied s) (threads s)))
      else
        Some (goto i (Publishing ticket committed batch false)
          (MkState (pending s) (leader_active s) (next_ticket s) (completed s) (failed_from s)
             (leader_vacant s) true (poisoned s) (durable s) (applied s) (threads s)))
  | _ => None
  end.

(** The signal update that ends [commit_batch]. *)
Definition publish (i : nat) (s : State) : option State :=
  match threads s i with
  | Publishing ticket committed batch ok =>
      let s' :=
        match last batch with
        | Some last_ticket =>
            let failed :=
              if ok then failed_from s else
              match failed_from s with Some f => Some f | None => head batch end in
            with_signal (Z.max (completed s) last_ticket) failed (leader_vacant s) s
        | None => s
        end in
      Some (goto i (Leading ticket (S committed)) s')
  | _ => None
  end.

Definition announce_leader_vacancy (i : nat) (s : State) : option State :=
  match threads s i with
  | Announcing ticket =>
      Some (goto i (Waiting ticket) (with_signal (completed s) (failed_from s) true s))
  | _ => None
  end.

(** A waiter that holds the signal's mutex and does not sleep: its outcome, or a
vacancy to consume. *)
Definition await_ticket (i : nat) (s : State) : option State :=
  match threads s i with
  | Waiting ticket =>
      if ticket <=? completed s then
        Some (goto i
          match failed_from s with
          | Some from => if from <=? ticket then Failed ticket else Acked ticket
          | None => Acked ticket
          end s)
      else if leader_vacant s then
        Some (goto i (Claiming ticket) (with_signal (completed s) (failed_from s) false s))
      else None
  | _ => None
  end.

(** The claim under the group mutex. *)
Definition claim (i : nat) (s : State) : option State :=
  match threads s i with
  | Claiming ticket =>
      match leader_active s, pending s with
      | false, _ :: _ =>
          Some (goto i (Leading ticket 0) (with_group (pending s) true (next_ticket s) s))
      | _, _ => Some (goto i (Waiting ticket) s)
      end
  | _ => None
  end.

(** A panic inside [commit_batch] poisons the file mutex and runs
[LeaderGuard::drop]: first its critical section on the group mutex... *)
Definition panic (i : nat) (s : State) : option State :=
  match threads s i with
  | Committing ticket committed batch =>
      let first_queued := head (pending s) in
      let s' := with_group [] false (next_ticket s) s in
      let failed := match head batch with Some t => Some t | None => first_queued end in
      Some (goto i (Unwinding failed (next_ticket s - 1))
        (MkState (pending s') (leader_active s') (next_ticket s') (completed s') (failed_from s')
           (leader_vacant s') (fenced s') true (durable s') (applied s') (threads s')))
  | _ => None
  end.

(** ... then the one on the commit signal. *)
Definition unwind (i : nat) (s : State) : option State :=
  match threads s i with
  | Unwinding failed highest =>
      let failed' :=
        match failed with
        | Some from => match failed_from s with Some f => Some f | None => Some from end
        | None => failed_from s
        end in
      Some (goto i Dead (with_signal (Z.max (completed s) highest) failed' (leader_vacant s) s))
  | _ => None
  end.

Definition gc_exec (ev : Event) (s : State) : option State :=
  match ev with
  | EvCheck i => check_fence i s
  | EvEnqueue i ok => enqueue_slot i ok s
  | EvLoop i => lead_loop i s
  | EvIo i ok => commit_io i ok s
  | EvPublish i => publish i s
  | EvAnnounce i => announce_leader_vacancy i s
  | EvWake i => await_ticket i s
  | EvClaim i => claim i s
  | EvPanic i => panic i s
  | EvUnwind i => unwind i s
  end.

Definition gc_run (evs : list Event) (s : State) : option State :=
  foldl (λ o ev, o ≫= gc_exec ev) (Some s) evs.

Definition is_panic (ev : Event) : bool := match ev with EvPanic _ => true | _ => false end.

(** ** The leader *)

(** The thread runs the commit loop. *)
Definition leads (p : Phase) : bool :=
  match p with Leading _ _ | Committing _ _ _ | Publishing _ _ _ _ => true | _ => false end.

(** The batch a leader holds. *)
Definition batch_of (p : Phase) : list Z :=
  match p with Committing _ _ b | Publishing _ _ b _ => b | _ => [] end.

(** The ticket of a writer that has one and no answer yet. *)
Definition ticket_of (p : Phase) : option Z :=
  match p with
  | Leading t _ | Committing t _ _ | Publishing t _ _ _ | Announcing t | Waiting t | Claiming t => Some t
  | _ => None
  end.

Record leader_inv (s : State) : Prop := {
  li_unique i j : leads (threads s i) = true → leads (threads s j) = true → i = j;
  li_active : leader_active s = true ↔ ∃ i, leads (threads s i) = true;
  li_no_unwind i : match threads s i with Unwinding _ _ | Dead => False | _ => True end;
  li_poisoned : poisoned s = false
}.

(** Invert a step of the protocol. *)
Ltac gc_inv H :=
  unfold gc_exec, check_fence, enqueue_slot, lead_loop, commit_io, publish,
    announce_leader_vacancy, await_ticket, claim, panic, unwind in H;
  repeat (case_match; try discriminate); simplify_eq/=;
  rewrite ?negb_true_iff, ?negb_false_iff in *.

(** Split the threads of a state into the one that moved and the others. *)
Ltac split_threads :=
  unfold set_thread in *; simpl in *;
  repeat match goal with
  | H : context [decide (?a = ?b)] |- _ => destruct (decide (a = b)); simplify_eq/=
  | |- context [decide (?a = ?b)] => destruct (decide (a = b)); simplify_eq/=
  end.

Lemma set_thread_same i p th : set_thread i p th i = p.
Proof. unfold set_thread. by rewrite decide_True. Qed.

Lemma set_thread_other i j p th : j ≠ i → set_thread i p th j = th j.
Proof. intros. unfold set_thread. by rewrite decide_False. Qed.

(** A step of thread [i] that keeps its leadership, and the flag. *)
Lemma leader_inv_keep s s' i p :
  leader_inv s → threads s' = set_thread i p (threads s) →
  leader_active s' = leader_active s → poisoned s' = poisoned s →
  leads p = leads (threads s i) → match p with Unwinding _ _ | Dead => False | _ => True end →
  leader_inv s'.
Proof.
intros [Hu Ha Hn Hp] Ht Hact Hpo Hl Hx.
assert (Hsame : ∀ j, leads (threads s' j) = leads (threads s j)).
{ intros j. rewrite Ht. unfold set_thread. case_decide; [by subst|done]. }
split.
- intros j k. rewrite !Hsame. apply Hu.
- rewrite Hact, Ha. by setoid_rewrite Hsame.
- intros j. rewrite Ht. unfold set_thread. case_decide; [done|apply Hn].
- by rewrite Hpo.
Qed.

(** A step of thread [i] that gives up leadership. *)
Lemma leader_inv_leave s s' i p :
  leader_inv s → threads s' = set_thread i p (threads s) →
  leads (threads s i) = true → leader_active s' = false → poisoned s' = poisoned s →
  leads p = false → match p with Unwinding _ _ | Dead => False | _ => True end →
  leader_inv s'.
Proof.
intros [Hu Ha Hn Hp] Ht Hi Hact Hpo Hl Hx.
assert (Hnone : ∀ j, leads (threads s' j) = false).
{ intros j. rewrite Ht. unfold set_thread. case_decide; [done|].
  destruct (leads (threads s j)) eqn:E; [|done]. by specialize (Hu j i E Hi). }
split.
- intros j k Hj. by rewrite Hnone in Hj.
- rewrite Hact. split; [done|]. intros [j Hj]. by rewrite Hnone in Hj.
- intros j. rewrite Ht. unfold set_thread. case_decide; [done|apply Hn].
- by rewrite Hpo.
Qed.

(** A step of thread [i] that takes a vacant post. *)
Lemma leader_inv_take s s' i p :
  leader_inv s → threads s' = set_thread i p (threads s) →
  leader_active s = false → leader_active s' = true → poisoned s' = poisoned s →
  leads p = true → leader_inv s'.
Proof.
intros [Hu Ha Hn Hp] Ht Hact0 Hact Hpo Hl.
assert (Hnone : ∀ j, leads (threads s j) = false).
{ intros j. destruct (leads (threads s j)) eqn:E; [|done].
  assert (leader_active s = true) by (apply Ha; eauto). congruence. }
assert (Honly : ∀ j, leads (threads s' j) = true → j = i).
{ intros j. rewrite Ht. unfold set_thread. case_decide; [done|]. by rewrite Hnone. }
split.
- intros j k Hj Hk. by rewrite (Honly j Hj), (Honly k Hk).
- rewrite Hact. split; [|done]. intros _. exists i. by rewrite Ht, set_thread_same.
- intros j. rewrite Ht. unfold set_thread. case_decide; [by destruct p|apply Hn].
- by rewrite Hpo.
Qed.

Lemma leader_inv_step ev s s' :
  gc_exec ev s = Some s' → is_panic ev = false → leader_inv s → leader_inv s'.
Proof.
intros He Hp Hi. pose proof Hi as [Hu Ha Hn Hpo].
destruct ev as [i|i ok|i|i ok|i|i|i|i|i|i]; try done; gc_inv He;
  try (by eapply (leader_inv_keep s _ i); simpl; rewrite ?H; try reflexivity; try done);
  try (by eapply (leader_inv_leave s _ i); simpl; rewrite ?H; try reflexivity; try done);
  try (by eapply (leader_inv_take s _ i); simpl; rewrite ?H; try reflexivity; try done).
all: by specialize (Hn i); rewrite H in Hn.
Qed.

(** ** The queue *)

(** The tickets not completed yet, in order: the leader's batch and the queue. *)
Record queue_inv (s : State) : Prop := {
  qi_tickets : ∃ inflight,
    (∀ i, leads (threads s i) = true → batch_of (threads s i) = inflight) ∧
    (leader_active s = false → inflight = []) ∧
    inflight ++ pending s = seqZ (completed s + 1) (next_ticket s - 1 - completed s);
  qi_completed : 0 <= completed s < next_ticket s;
  qi_batch i : match threads s i with
               | Committing _ _ b | Publishing _ _ b _ => b ≠ []
               | _ => True
               end;
  qi_applied : applied s = seqZ 1 (next_ticket s - 1)
}.

Lemma seqZ_last m n t l : l ++ [t] = seqZ m n → t = m + n - 1 ∧ 0 < n.
Proof.
intros Hl. assert (Hn : 0 < n).
{ apply (f_equal length) in Hl. rewrite length_app, length_seqZ in Hl. simpl in Hl. lia. }
assert (Hn1 : n = (n - 1) + 1) by lia. rewrite Hn1, <-seqZ_snoc in Hl by lia.
apply app_inj_2 in Hl as [_ [= ->]]; [|done]. lia.
Qed.

(** The last ticket of a batch that heads the uncompleted tickets. *)
Lemma batch_last b pend c n t :
  b ++ pend = seqZ (c + 1) n → last b = Some t →
  t = c + zlen b ∧ pend = seqZ (t + 1) (n - zlen b) ∧ zlen b <= n ∧ 0 < zlen b.
Proof.
intros Hs Hl. assert (Hlen : zlen b + zlen pend = Z.max 0 n).
{ apply (f_equal length) in Hs. rewrite length_app, length_seqZ in Hs. unfold zlen. lia. }
pose proof (zlen_nonneg pend).
assert (Hb : 0 < zlen b) by (destruct b; [done|rewrite zlen_cons; pose proof (zlen_nonneg b); lia]).
assert (Hsplit : seqZ (c + 1) n = seqZ (c + 1) (zlen b) ++ seqZ (c + 1 + zlen b) (n - zlen b)).
{ replace n with (zlen b + (n - zlen b)) at 1 by lia. apply seqZ_app; lia. }
rewrite Hsplit in Hs. apply app_inj_1 in Hs as [Hb' ->].
2: { rewrite length_seqZ. unfold zlen. lia. }
assert (t = c + zlen b) as ->.
{ apply last_Some in Hl as [l Hl]. rewrite Hl in Hb' at 1. apply seqZ_last in Hb' as [-> _]. lia. }
split_and!; try done; [|lia]. f_equal. lia.
Qed.

Lemma batch_prefix b pend c n : b ++ pend = seqZ c n → b = seqZ c (zlen b).
Proof.
intros Hs. assert (Hlen : zlen b + zlen pend = Z.max 0 n).
{ apply (f_equal length) in Hs. rewrite length_app, length_seqZ in Hs. unfold zlen. lia. }
pose proof (zlen_nonneg pend). pose proof (zlen_nonneg b).
destruct (Z.le_gt_cases n 0) as [Hn|Hn].
- rewrite seqZ_nil in Hs by lia. by apply app_eq_nil in Hs as [-> _].
- replace n with (zlen b + (n - zlen b)) in Hs by lia. rewrite seqZ_app in Hs by lia.
  apply app_inj_1 in Hs as [Hb _]; [done|]. rewrite length_seqZ. unfold zlen. lia.
Qed.

(** A step that leaves the queue, the watermark and the leader's batch alone. *)
Lemma queue_inv_keep s s' i p :
  queue_inv s → threads s' = set_thread i p (threads s) →
  pending s' = pending s → leader_active s' = leader_active s → next_ticket s' = next_ticket s →
  completed s' = completed s → applied s' = applied s →
  leads p = leads (threads s i) → batch_of p = batch_of (threads s i) →
  match p with Committing _ _ b | Publishing _ _ b _ => b ≠ [] | _ => True end →
  queue_inv s'.
Proof.
intros [(fl & H1 & H2 & H3) Hc Hb Ha] Ht Ep El En Ec Ea Hl Hbo Hx.
split; rewrite ?Ep, ?El, ?En, ?Ec, ?Ea; try done.
- exists fl. split_and!; [|done|done]. intros j. rewrite Ht. unfold set_thread. case_decide as Hj; [|apply H1].
  rewrite Hl, Hbo. subst. apply H1.
- intros j. rewrite Ht. unfold set_thread. case_decide; [done|apply Hb].
Qed.

(** A step that moves the queue: [fl] is the leader's batch after it. *)
Lemma queue_inv_move s s' i p fl :
  leader_inv s' → queue_inv s → threads s' = set_thread i p (threads s) →
  (leads p = true → batch_of p = fl) → (leads p = false → leader_active s' = true →
     ∀ j, leads (threads s j) = true → batch_of (threads s j) = fl) →
  (leader_active s' = false → fl = []) →
  fl ++ pending s' = seqZ (completed s' + 1) (next_ticket s' - 1 - completed s') →
  0 <= completed s' < next_ticket s' → applied s' = seqZ 1 (next_ticket s' - 1) →
  match p with Committing _ _ b | Publishing _ _ b _ => b ≠ [] | _ => True end →
  queue_inv s'.
Proof.
intros Hli [_ Hc Hb Ha] Ht Hfl Hother Hact Hseq Hcomp Happ Hx. split; try done.
- exists fl. split_and!; [|done|done]. intros j Hj.
  assert (Hact' : leader_active s' = true) by (apply (li_active _ Hli); eauto).
  pose proof (li_unique _ Hli j i Hj) as Huq. rewrite Ht in Hj, Huq |- *.
  rewrite set_thread_same in Huq. unfold set_thread in Hj |- *. case_decide; [by apply Hfl|].
  apply Hother; try done. destruct (leads p); [|done]. by specialize (Huq eq_refl).
- intros j. rewrite Ht. unfold set_thread. case_decide; [done|apply Hb].
Qed.

Lemma queue_inv_step ev s s' :
  gc_exec ev s = Some s' → is_panic ev = false → leader_inv s → queue_inv s → queue_inv s'.
Proof.
intros He Hp Hli Hq. pose proof (leader_inv_step _ _ _ He Hp Hli) as Hli'.
pose proof (li_no_unwind _ Hli) as Hn. pose proof Hq as [(fl & H1 & H2 & H3) Hc Hb Ha].
destruct ev as [i|i ok|i|i ok|i|i|i|i|i|i]; try done; gc_inv He;
  try (by specialize (Hn i); rewrite H in Hn);
  try (by eapply (queue_inv_keep s _ i); simpl; rewrite ?H; try reflexivity; try done;
       specialize (Hb i); rewrite H in Hb).
all: try (match goal with
  | Hth : threads _ ?i = Publishing _ _ ?b _, Hlast : last ?b = Some _ |- _ =>
      assert (b = fl) as -> by (specialize (H1 i); rewrite Hth in H1; by apply H1);
      destruct (batch_last _ _ _ _ _ H3 Hlast) as (-> & Hpend & Hle & Hlt);
      assert (Hact : leader_active s = true) by (apply (li_active _ Hli); exists i; by rewrite Hth);
      eapply (queue_inv_move s _ i _ []); simpl; try reflexivity; try done; try lia;
      rewrite Z.max_r by lia; rewrite Hpend; f_equal; lia
  | Hth : threads _ ?i = Publishing _ _ ?b _, Hlast : last ?b = None |- _ =>
      apply last_None in Hlast; specialize (Hb i); by rewrite Hth in Hb
  end).
- (* enqueue, leading *)
  rewrite H2 in H3 by done. simpl in H3.
  eapply (queue_inv_move s _ i _ []); simpl; try reflexivity; try done; [|lia|].
  + rewrite H3. replace (next_ticket s) with (completed s + 1 + (next_ticket s - 1 - completed s)) at 2 by lia.
    rewrite seqZ_snoc by lia. f_equal. lia.
  + rewrite Ha. replace (next_ticket s) with (1 + (next_ticket s - 1)) at 2 by lia.
    rewrite seqZ_snoc by lia. f_equal. lia.
- (* enqueue, waiting *)
  eapply (queue_inv_move s _ i _ fl); simpl; try reflexivity; try done; [auto|..|lia|].
  + rewrite app_assoc, H3. replace (next_ticket s) with (completed s + 1 + (next_ticket s - 1 - completed s)) at 2 by lia.
    rewrite seqZ_snoc by lia. f_equal. lia.
  + rewrite Ha. replace (next_ticket s) with (1 + (next_ticket s - 1)) at 2 by lia.
    rewrite seqZ_snoc by lia. f_equal. lia.
- (* exit *)
  assert (fl = []) as -> by (symmetry; specialize (H1 i); rewrite H in H1; by apply H1).
  eapply (queue_inv_move s _ i _ []); simpl; try reflexivity; try done; congruence.
- (* step down *)
  assert (fl = []) as -> by (symmetry; specialize (H1 i); rewrite H in H1; by apply H1).
  eapply (queue_inv_move s _ i _ []); simpl; try reflexivity; try done; congruence.
- (* drain *)
  assert (fl = []) as -> by (symmetry; specialize (H1 i); rewrite H in H1; by apply H1).
  assert (Hact : leader_active s = true) by (apply (li_active _ Hli); exists i; by rewrite H).
  eapply (queue_inv_move s _ i _ (pending s)); simpl; try reflexivity; try done; try congruence.
  rewrite app_nil_r. simpl in H3. congruence.
- (* claim *)
  rewrite H2 in H3 by done.
  eapply (queue_inv_move s _ i _ []); simpl; try reflexivity; try done; congruence.
Qed.

(** ** Durability *)

Definition is_publishing (p : Phase) : bool :=
  match p with Publishing _ _ _ _ => true | _ => false end.

(** What a leader has made durable beyond the watermark. *)
Definition unpublished (p : Phase) : Z :=
  match p with Publishing _ _ b _ => zlen b | _ => 0 end.

Record durable_inv (s : State) : Prop := {
  di_seq : durable s = seqZ 1 (zlen (durable s));
  di_issued : zlen (durable s) < next_ticket s;
  di_safe : match failed_from s with
            | None => completed s <= zlen (durable s)
            | Some f => f - 1 <= zlen (durable s)
            end;
  di_clean : fenced s = false →
    failed_from s = None ∧ (∀ i t c b, threads s i ≠ Publishing t c b false) ∧
    (leader_active s = false → zlen (durable s) = completed s) ∧
    (∀ i, leads (threads s i) = true → zlen (durable s) = completed s + unpublished (threads s i));
  di_fault : fenced s = true → failed_from s = None →
    ∃ i t c b, threads s i = Publishing t c b false;
  di_published i t c b : threads s i = Publishing t c b true → failed_from s = None →
    completed s + zlen b <= zlen (durable s);
  di_ticket i t : ticket_of (threads s i) = Some t → 1 <= t < next_ticket s;
  di_acked i t : threads s i = Acked t → t ∈ durable s
}.

(** A step that neither writes nor publishes, and answers no one. *)
Lemma durable_inv_keep s s' i p :
  durable_inv s → threads s' = set_thread i p (threads s) →
  durable s' = durable s → fenced s' = fenced s → failed_from s' = failed_from s →
  completed s' = completed s → next_ticket s <= next_ticket s' →
  is_publishing p = false → is_publishing (threads s i) = false →
  (leads p = true → leads (threads s i) = true ∨ leader_active s = false) →
  (leader_active s' = false → leads (threads s i) = true ∨ leader_active s = false) →
  (∀ t, ticket_of p = Some t → 1 <= t < next_ticket s') →
  match p with Acked t => t ∈ durable s | _ => True end →
  durable_inv s'.
Proof.
intros [H1 H0 H2 H3 H4 H5 H6 H7] Ht Ed Ef Eff Ec En Hp Hpi Hl Hact Htk Hack.
assert (Hun : leads (threads s i) = true → fenced s = false → zlen (durable s) = completed s).
{ intros Hi Hf. destruct (H3 Hf) as (_ & _ & _ & Hlead). rewrite (Hlead i Hi).
  destruct (threads s i); try done; simpl; lia. }
split; rewrite ?Ed, ?Ef, ?Eff, ?Ec; try done; try lia.
- intros Hf. destruct (H3 Hf) as (Hff & Hno & Hidle & Hlead). split_and!; [done|..].
  + intros j t c b. rewrite Ht. unfold set_thread. case_decide; [by intros ->|apply Hno].
  + intros Ha. destruct (Hact Ha) as [Hi|Hi]; [by apply Hun|by apply Hidle].
  + intros j. rewrite Ht. unfold set_thread. case_decide; [|apply Hlead].
    intros Hlp. replace (unpublished p) with 0 by (by destruct p). rewrite Z.add_0_r.
    destruct (Hl Hlp) as [Hi|Hi]; [by apply Hun|by apply Hidle].
- intros Hf Hff. destruct (H4 Hf Hff) as (j & t & c & b & Hj). exists j, t, c, b.
  rewrite Ht. rewrite set_thread_other; [done|]. intros ->. by rewrite Hj in Hpi.
- intros j t c b. rewrite Ht. unfold set_thread. case_decide; [by intros ->|apply H5].
- intros j t. rewrite Ht. unfold set_thread. case_decide; [apply Htk|]. intros Hj%H6. lia.
- intros j t. rewrite Ht. unfold set_thread. case_decide; [by intros ->|apply H7].
Qed.

Lemma durable_elem s t : durable_inv s → 1 <= t <= zlen (durable s) → t ∈ durable s.
Proof. intros Hd Ht. rewrite (di_seq _ Hd). apply elem_of_seqZ. lia. Qed.

Lemma di_step_wake i s s' :
  leader_inv s → durable_inv s → await_ticket i s = Some s' → durable_inv s'.
Proof.
intros Hli Hd He. unfold await_ticket in He.
destruct (threads s i) as [| | | | | |t| | | | | |] eqn:Hth; try done.
pose proof (di_ticket _ Hd i t ltac:(by rewrite Hth)) as Htk. pose proof (di_safe _ Hd) as Hsafe.
destruct (Z.leb_spec t (completed s)) as [Hle|_].
- injection He as <-. eapply (durable_inv_keep s _ i); simpl; rewrite ?Hth; try reflexivity; try done;
    destruct (failed_from s) as [f|]; try (destruct (Z.leb_spec f t)); try done; try (by right);
    try (apply (durable_elem s _ Hd); lia); auto.
- destruct (leader_vacant s); [|done]. injection He as <-.
  eapply (durable_inv_keep s _ i); simpl; rewrite ?Hth; try reflexivity; try done; auto.
  by intros ? [= <-].
Qed.

Lemma di_step_io i ok s s' :
  leader_inv s → queue_inv s → durable_inv s → commit_io i ok s = Some s' → durable_inv s'.
Proof.
intros Hli Hq Hd He. unfold commit_io in He.
destruct (threads s i) as [| | |t c b| | | | | | | | |] eqn:Hth; try done.
assert (Hlead : leads (threads s i) = true) by by rewrite Hth.
assert (Huq : ∀ j, leads (threads s j) = true → j = i) by (intros j Hj; by apply (li_unique _ Hli)).
pose proof Hd as [H1 H0 H2 H3 H4 H5 H6 H7].
assert (Hnf : fenced s = true → failed_from s ≠ None).
{ intros Hf Hff. destruct (H4 Hf Hff) as (j & t' & c' & b' & Hj).
  assert (j = i) as -> by (apply Huq; by rewrite Hj). congruence. }
assert (Hothers : ∀ j p, j ≠ i → threads s j = p → is_publishing p = false).
{ intros j p Hji Hj. destruct (is_publishing p) eqn:E; [|done]. exfalso. apply Hji, Huq. rewrite Hj. by destruct p. }
destruct ok.
- destruct (poisoned s); [done|]. injection He as <-. destruct (fenced s) eqn:Hf.
  + split; simpl; rewrite ?Hf; try done.
    * intros _ Hff. by destruct (Hnf eq_refl).
    * intros j t' c' b' _ Hff. by destruct (Hnf eq_refl).
    * intros j t'. unfold set_thread. case_decide; [|apply H6]. intros [= <-]. apply (H6 i). by rewrite Hth.
    * intros j t'. unfold set_thread. case_decide; [done|apply H7].
  + destruct (H3 eq_refl) as (Hff & Hno & Hidle & Hle). specialize (Hle i Hlead). rewrite Hth in Hle. simpl in Hle.
    rewrite Z.add_0_r in Hle.
    destruct (qi_tickets _ Hq) as (fl & Hfl & _ & Hseq). specialize (Hfl i Hlead). rewrite Hth in Hfl. simpl in Hfl.
    subst fl. pose proof (qi_batch _ Hq i) as Hbn. rewrite Hth in Hbn.
    destruct (last b) as [tl|] eqn:Hlast; [|by apply last_None in Hlast].
    destruct (batch_last _ _ _ _ _ Hseq Hlast) as (_ & _ & Hble & Hb0).
    assert (Hb : b = seqZ (1 + completed s) (zlen b)).
    { apply batch_prefix in Hseq. rewrite Z.add_comm in Hseq. exact Hseq. }
    split; simpl; rewrite ?Hf, ?Hff, ?zlen_app; try done.
    * rewrite H1 at 1. rewrite Hb at 1. rewrite Hle.
      pose proof (qi_completed _ Hq); rewrite <-seqZ_app by lia. done.
    * lia.
    * lia.
    * intros _. split_and!; [done|..].
      -- intros j t' c' b'. unfold set_thread. case_decide; [done|apply Hno].
      -- intros Ha. assert (leader_active s = true) by (apply (li_active _ Hli); eauto). congruence.
      -- intros j. unfold set_thread. case_decide; [intros _; simpl; lia|]. intros Hj. by apply Huq in Hj.
    * intros j t' c' b'. unfold set_thread. case_decide; [intros [= <- <- <-] _; lia|].
      intros Hj. by eapply Hothers in Hj.
    * intros j t'. unfold set_thread. case_decide; [|apply H6]. intros [= <-]. apply (H6 i). by rewrite Hth.
    * intros j t'. unfold set_thread. case_decide; [done|]. intros Hj%H7. set_solver.
- injection He as <-. split; simpl; try done.
  + intros _ _. exists i, t, c, b. by rewrite set_thread_same.
  + intros j t' c' b'. unfold set_thread. case_decide; [done|]. intros Hj. by eapply Hothers in Hj.
  + intros j t'. unfold set_thread. case_decide; [|apply H6]. intros [= <-]. apply (H6 i). by rewrite Hth.
  + intros j t'. unfold set_thread. case_decide; [done|apply H7].
Qed.

Lemma di_step_publish i s s' :
  leader_inv s → queue_inv s → durable_inv s → publish i s = Some s' → durable_inv s'.
Proof.
intros Hli Hq Hd He. unfold publish in He.
destruct (threads s i) as [| | | |t c b ok| | | | | | | |] eqn:Hth; try done.
assert (Hlead : leads (threads s i) = true) by by rewrite Hth.
assert (Huq : ∀ j, leads (threads s j) = true → j = i) by (intros j Hj; by apply (li_unique _ Hli)).
pose proof Hd as [H1 H0 H2 H3 H4 H5 H6 H7].
destruct (qi_tickets _ Hq) as (fl & Hfl & _ & Hseq). specialize (Hfl i Hlead). rewrite Hth in Hfl. simpl in Hfl.
subst fl. pose proof (qi_batch _ Hq i) as Hbn. rewrite Hth in Hbn.
destruct (last b) as [tl|] eqn:Hlast; [|by apply last_None in Hlast].
destruct (batch_last _ _ _ _ _ Hseq Hlast) as (-> & _ & Hble & Hb0). cbv zeta in He.
assert (Hhead : head b = Some (completed s + 1)).
{ apply batch_prefix in Hseq. rewrite Hseq. by rewrite (seqZ_cons _ (zlen b)) by lia. }
assert (Hno : ∀ j t' c' b' ok', j ≠ i → threads s j ≠ Publishing t' c' b' ok').
{ intros j t' c' b' ok' Hji Hj. apply Hji, Huq. by rewrite Hj. }
injection He as <-. destruct ok.
- split; simpl; try done.
  + destruct (failed_from s) eqn:Hff; [done|]. specialize (H5 i t c b Hth eq_refl). lia.
  + intros Hf. destruct (H3 Hf) as (Hff & Hnf & _ & Hle). specialize (Hle i Hlead).
    rewrite Hth in Hle. simpl in Hle. split_and!; [done|..].
    * intros j t' c' b'. unfold set_thread. case_decide; [done|apply Hnf].
    * intros Ha. assert (leader_active s = true) by (apply (li_active _ Hli); eauto). congruence.
    * intros j. unfold set_thread. case_decide; [intros _; simpl; lia|]. intros Hj. by apply Huq in Hj.
  + intros Hf Hff. destruct (H4 Hf Hff) as (j & t' & c' & b' & Hj).
    assert (j = i) as -> by (apply Huq; by rewrite Hj). congruence.
  + intros j t' c' b'. unfold set_thread. case_decide; [done|]. intros Hj. by eapply Hno in Hj.
  + intros j t'. unfold set_thread. case_decide; [|apply H6]. intros [= <-]. apply (H6 i). by rewrite Hth.
  + intros j t'. unfold set_thread. case_decide; [done|apply H7].
- assert (Hf : fenced s = true).
  { destruct (fenced s) eqn:Hf; [done|]. destruct (H3 eq_refl) as (_ & Hnf & _). by destruct (Hnf i t c b). }
  rewrite Hhead. split; simpl; rewrite ?Hf; try done.
  + destruct (failed_from s); [done|lia].
  + intros _ Hff. by destruct (failed_from s).
  + intros j t' c' b' _ Hff. by destruct (failed_from s).
  + intros j t'. unfold set_thread. case_decide; [|apply H6]. intros [= <-]. apply (H6 i). by rewrite Hth.
  + intros j t'. unfold set_thread. case_decide; [done|apply H7].
Qed.

Lemma durable_inv_step ev s s' :
  gc_exec ev s = Some s' → is_panic ev = false → leader_inv s → queue_inv s → durable_inv s → durable_inv s'.
Proof.
intros He Hp Hli Hq Hd.
pose proof (li_no_unwind _ Hli) as Hn. pose proof (qi_completed _ Hq) as Hc.
assert (Htk : ∀ i t, ticket_of (threads s i) = Some t → 1 <= t < next_ticket s) by apply Hd.
destruct ev as [i|i ok|i|i ok|i|i|i|i|i|i]; try done;
  [| | |by eapply di_step_io|by eapply di_step_publish| |by eapply di_step_wake| |];
  specialize (Htk i); gc_inv He; try (by specialize (Hn i); rewrite H in Hn);
  eapply (durable_inv_keep s _ i); simpl; rewrite ?H in *; try reflexivity; try done; try lia; auto;
  try (by intros ? [= <-]; try lia; apply Htk).
Qed.

(** ** Every writer is answered *)

(** The tickets a step keeps, and the one an enqueue adds. *)
Lemma owner_keep c c' n i p th :
  (∀ t, c < t < n → ∃ j, ticket_of (th j) = Some t) → c <= c' →
  (∀ t, c' < t → ticket_of (th i) = Some t → ticket_of p = Some t) →
  ∀ t, c' < t < n → ∃ j, ticket_of (set_thread i p th j) = Some t.
Proof.
intros Ho Hc Hp t Ht. destruct (Ho t ltac:(lia)) as [j Hj]. exists j.
unfold set_thread. case_decide; [|done]. subst. apply Hp; [lia|done].
Qed.

Lemma owner_new c n i p th :
  (∀ t, c < t < n → ∃ j, ticket_of (th j) = Some t) →
  ticket_of (th i) = None → ticket_of p = Some n →
  ∀ t, c < t < n + 1 → ∃ j, ticket_of (set_thread i p th j) = Some t.
Proof.
intros Ho Hi Hp t Ht. destruct (decide (t = n)) as [->|].
- exists i. by rewrite set_thread_same.
- destruct (Ho t ltac:(lia)) as [j Hj]. exists j. rewrite set_thread_other; [done|]. congruence.
Qed.

(** A thread about to announce or to claim. *)
Definition successor (p : Phase) : bool :=
  match p with Announcing _ | Claiming _ => true | _ => false end.

Definition share_ok (p : Phase) : Prop :=
  match p with
  | Leading _ c => (c <= MAX_LEADER_BATCHES)%nat
  | Committing _ c _ | Publishing _ c _ _ => (c < MAX_LEADER_BATCHES)%nat
  | _ => True
  end.

(** The writers of uncompleted tickets are alive; a queue without a leader has
someone to lead it; a leader stops after its share. *)
Record live_inv (s : State) : Prop := {
  lv_owner t : completed s < t < next_ticket s → ∃ i, ticket_of (threads s i) = Some t;
  lv_vacancy : pending s ≠ [] → leader_active s = false →
    leader_vacant s = true ∨ ∃ i, successor (threads s i) = true;
  lv_share i : share_ok (threads s i)
}.

Lemma successor_keep i p th :
  successor (th i) = false → (∃ j, successor (th j) = true) →
  ∃ j, successor (set_thread i p th j) = true.
Proof.
intros Hi (j & Hj). exists j. rewrite set_thread_other; [done|]. intros ->. congruence.
Qed.

Lemma share_keep i p th :
  (∀ j, share_ok (th j)) → share_ok p → ∀ j, share_ok (set_thread i p th j).
Proof. intros Hs Hp j. unfold set_thread. case_decide; [done|apply Hs]. Qed.

(** Vacancy under a step that keeps the queue and the post. *)
Lemma vacancy_keep s i p vacant :
  live_inv s → successor (threads s i) = false → (leader_vacant s = true → vacant = true) →
  pending s ≠ [] → leader_active s = false →
  vacant = true ∨ ∃ j, successor (set_thread i p (threads s) j) = true.
Proof.
intros Hl Hi Hv H1 H2. destruct (lv_vacancy _ Hl H1 H2) as [?|?]; [auto|right]. by apply successor_keep.
Qed.

Lemma vacancy_here s i p : successor p = true → ∃ j, successor (set_thread i p (threads s) j) = true.
Proof. intros Hp. exists i. by rewrite set_thread_same. Qed.

Lemma live_inv_step ev s s' :
  gc_exec ev s = Some s' → is_panic ev = false → leader_inv s → queue_inv s → live_inv s → live_inv s'.
Proof.
intros He Hp Hli Hq Hl. pose proof Hl as [Ho Hv Hs].
pose proof (li_no_unwind _ Hli) as Hn. pose proof (qi_completed _ Hq) as Hc.
destruct ev as [i|i ok|i|i ok|i|i|i|i|i|i]; try done; pose proof (Hs i) as Hsi; gc_inv He;
  try (by specialize (Hn i); rewrite H in Hn); try rewrite H in Hsi; simpl in Hsi.
all: split; simpl.
all: try (apply share_keep; simpl; try done; try lia; apply Nat.leb_gt in H1; lia).
all: try (by apply (owner_keep (completed s)); rewrite ?H; try done; lia).
all: try (by apply owner_new; rewrite ?H).
all: try (by intros ??; right; apply vacancy_here).
all: try (by apply vacancy_keep; rewrite ?H).
all: try (by intros; auto).
all: try (apply (owner_keep (completed s)); rewrite ?H; [done..|];
          apply Z.leb_le in H0; intros ? ? [= <-]; lia).
all: try (by intros; congruence).
apply share_keep; [done|]. simpl.
change ((MAX_LEADER_BATCHES <=? committed)%nat = false) in H1. by apply Nat.leb_gt.
Qed.

(** ** Reachability *)

Record gc_inv_all (s : State) : Prop := {
  ga_leader : leader_inv s;
  ga_queue : queue_inv s;
  ga_durable : durable_inv s;
  ga_live : live_inv s
}.

Lemma gc_init_inv : gc_inv_all init.
Proof.
split.
- split; try done. split; [done|]. by intros [i ?].
- split; try done. by exists [].
- by split.
- split; simpl; try done. intros t Ht. lia.
Qed.

Lemma gc_step_inv ev s s' :
  gc_exec ev s = Some s' → is_panic ev = false → gc_inv_all s → gc_inv_all s'.
Proof.
intros He Hp [H1 H2 H3 H4]. split.
- by eapply leader_inv_step.
- by eapply queue_inv_step.
- by eapply durable_inv_step.
- by eapply live_inv_step.
Qed.

Lemma gc_run_inv evs s s' :
  gc_run evs s = Some s' → Forall (λ ev, is_panic ev = false) evs → gc_inv_all s → gc_inv_all s'.
Proof.
unfold gc_run. revert s'. induction evs as [|ev evs IH] using rev_ind; intros s' He Hp Hi.
- by injection He as <-.
- rewrite foldl_app in He. simpl in He. destruct (foldl _ _ evs) as [s1|]; [|done]. simpl in He.
  apply Forall_app in Hp as [Hp1 Hp2]. apply Forall_cons in Hp2 as [Hp2 _].
  eapply gc_step_inv; [exact He|done|]. by apply IH.
Qed.

(** The threads that have not returned to their callers. *)
Definition unanswered (p : Phase) : bool :=
  match p with
  | Idle | Acked _ | Failed _ | Refused | Dead => false
  | _ => true
  end.

(** A thread that is not asleep on the commit signal can take its next step. *)
Lemma awake_enabled s i :
  leader_inv s → unanswered (threads s i) = true →
  match threads s i with Waiting t => t <= completed s ∨ leader_vacant s = true | _ => True end →
  ∃ ev s', gc_exec ev s = Some s' ∧ is_panic ev = false.
Proof.
intros Hli Hu Hw. pose proof (li_no_unwind _ Hli i) as Hn.
destruct (threads s i) as [| |t c|t c b|t c b ok|t|t|t|f h|t|t| |] eqn:Hth; try done.
- exists (EvEnqueue i false). simpl. unfold enqueue_slot. rewrite Hth. by eexists.
- exists (EvLoop i). simpl. unfold lead_loop. rewrite Hth.
  destruct (pending s); [by eexists|]. destruct (_ <=? _)%nat; by eexists.
- exists (EvIo i false). simpl. unfold commit_io. rewrite Hth. by eexists.
- exists (EvPublish i). simpl. unfold publish. rewrite Hth. by eexists.
- exists (EvAnnounce i). simpl. unfold announce_leader_vacancy. rewrite Hth. by eexists.
- exists (EvWake i). simpl. unfold await_ticket. rewrite Hth.
  destruct (Z.leb_spec t (completed s)); [by eexists|]. destruct Hw as [?| ->]; [lia|by eexists].
- exists (EvClaim i). simpl. unfold claim. rewrite Hth.
  destruct (leader_active s); [by eexists|]. destruct (pending s); by eexists.
Qed.

(** A sleeping writer has someone else to wake it. *)
Lemma sleeper_has_worker s i t :
  gc_inv_all s → threads s i = Waiting t → completed s < t → leader_vacant s = false →
  ∃ j, leads (threads s j) = true ∨ successor (threads s j) = true.
Proof.
intros [Hli Hq Hd Hl] Hth Ht Hv.
destruct (leader_active s) eqn:Ha; [destruct (proj1 (li_active _ Hli) Ha) as [j Hj]; eauto|].
destruct (qi_tickets _ Hq) as (fl & _ & Hfl & Hseq). rewrite (Hfl Ha) in Hseq. simpl in Hseq.
pose proof (di_ticket _ Hd i t ltac:(by rewrite Hth)) as Htk.
destruct (lv_vacancy _ Hl) as [?|[j Hj]]; [|done|congruence|eauto].
rewrite Hseq. intros Hnil. apply (f_equal length) in Hnil. rewrite length_seqZ in Hnil. simpl in Hnil. lia.
Qed.

(** ** Theorems *)

(** C37: an acknowledged write is durable. In every execution in which no
leader panics, whatever the interleaving and the file faults, a writer that
returns success has its record among those replay finds; those are an initial
run of the tickets; and the memtable received the writes in the same order. *)
Theorem acked_is_durable evs s :
  gc_run evs init = Some s → Forall (λ ev, is_panic ev = false) evs →
  (∀ i t, threads s i = Acked t → t ∈ durable s) ∧
  durable s `prefix_of` applied s ∧ applied s = seqZ 1 (next_ticket s - 1).
Proof.
intros Hr Hp. destruct (gc_run_inv _ _ _ Hr Hp gc_init_inv) as [Hli Hq Hd _].
split_and!; [apply (di_acked _ Hd)| |apply (qi_applied _ Hq)].
rewrite (di_seq _ Hd), (qi_applied _ Hq). pose proof (di_issued _ Hd).
pose proof (zlen_nonneg (durable s)).
replace (next_ticket s - 1) with (zlen (durable s) + (next_ticket s - 1 - zlen (durable s))) by lia.
rewrite seqZ_app by lia. by eexists.
Qed.

(** At most one thread leads, and it leads exactly while the flag says so;
it commits at most its share of batches before it hands over; and the tickets
not completed yet are exactly the leader's batch followed by the queue, in
order. *)
Theorem single_bounded_leader evs s :
  gc_run evs init = Some s → Forall (λ ev, is_panic ev = false) evs →
  (∀ i j, leads (threads s i) = true → leads (threads s j) = true → i = j) ∧
  (leader_active s = true ↔ ∃ i, leads (threads s i) = true) ∧
  (∀ i, share_ok (threads s i)) ∧
  (∃ inflight, (∀ i, leads (threads s i) = true → batch_of (threads s i) = inflight) ∧
     inflight ++ pending s = seqZ (completed s + 1) (next_ticket s - 1 - completed s)).
Proof.
intros Hr Hp. destruct (gc_run_inv _ _ _ Hr Hp gc_init_inv) as [Hli Hq _ Hl].
split_and!; [apply Hli|apply Hli|apply Hl|].
destruct (qi_tickets _ Hq) as (fl & H1 & _ & H3). eauto.
Qed.


(** The panic path can acknowledge a lost write. The guard of a panicking
leader releases the group mutex, with the queue discarded, before it records the
failure; a writer that enqueues in between leads, fails on the poisoned file
mutex, and records its own ticket as the first failed one. A writer of the
panicked leader's batch then finds its ticket completed and below the first
failed one, and returns success, though nothing was written. *)
Theorem panic_race_acks_lost_write :
  ∃ evs s, gc_run evs init = Some s ∧ threads s 1 = Acked 2 ∧ durable s = [] ∧
    threads s 0 = Unwinding (Some 1) 2.
Proof.
pose (evs := [EvCheck 0; EvCheck 1; EvCheck 2; EvEnqueue 0 true; EvEnqueue 1 true; EvLoop 0; EvPanic 0;
        EvEnqueue 2 true; EvLoop 2; EvIo 2 false; EvPublish 2; EvWake 1]).
assert (Ho : (λ s, (threads s 0%nat, threads s 1%nat, durable s)) <$> gc_run evs init =
  Some (Unwinding (Some 1) 2, Acked 2, [])) by (vm_compute; reflexivity).
destruct (gc_run evs init) as [s|] eqn:E; [|done]. simpl in Ho. injection Ho as H0 H1 H2.
exists evs, s. split_and!; [exact E|exact H1|exact H2|exact H0].
Qed.

(** ** Witnesses *)

(** Two writers share one batch. *)
Definition wit_events : list Event :=
  [EvCheck 0; EvCheck 1; EvEnqueue 0 true; EvEnqueue 1 true; EvLoop 0; EvIo 0 true; EvPublish 0; EvWake 1].

Lemma wit_run : ∃ s, gc_run wit_events init = Some s ∧ threads s 1 = Acked 2 ∧ threads s 0 = Leading 1 1.
Proof.
assert (Ho : (λ s, (threads s 0%nat, threads s 1%nat)) <$> gc_run wit_events init =
  Some (Leading 1 1, Acked 2)) by (vm_compute; reflexivity).
destruct (gc_run wit_events init) as [s|] eqn:E; [|done]. simpl in Ho. injection Ho as H0 H1.
exists s. split_and!; [exact eq_refl|exact H1|exact H0].
Qed.

Lemma wit_no_panic : Forall (λ ev, is_panic ev = false) wit_events.
Proof. by repeat constructor. Qed.

Lemma acked_is_durable_witness :
  ∃ s, gc_run wit_events init = Some s ∧ threads s 1 = Acked 2 ∧ 2 ∈ durable s.
Proof.
destruct wit_run as (s & Hr & H1 & _). exists s. split_and!; [exact Hr|exact H1|].
exact (proj1 (acked_is_durable wit_events s Hr wit_no_panic) 1%nat 2 H1).
Defined.

Lemma single_bounded_leader_witness :
  ∃ s, gc_run wit_events init = Some s ∧ (leader_active s = true ↔ ∃ i, leads (threads s i) = true).
Proof.
destruct wit_run as (s & Hr & _). exists s. split; [exact Hr|].
exact (proj1 (proj2 (single_bounded_leader wit_events s Hr wit_no_panic))).
Defined.

