(* ===== verification/HotTier.v ===== *)
(** * The hot tier

[storage/tiered.rs]: the sharded cache in front of the memtable and the SST
files. A shard is a hash map in its iteration order, with the clock hand, the
invalidation epoch and the gauges its write lock guards. The hash function
([hashbrown::DefaultHashBuilder]), the place a new key takes in the iteration
order and the growth of the table's allocation belong to the [hashbrown] crate and
are parameters. The second part interleaves readers that fill the cache with writers
that invalidate it, at the granularity of the shard's critical sections. *)
From stdpp Require Import functions base list gmap strings relations.
From Stdlib Require Import Strings.Byte ZArith Lia.
From S2P Require Import Prelude StorageTypes.

Open Scope Z_scope.

Record HotKey := MkHotKey { hk_realm : RealmId; hk_key : list byte }.

#[export] Instance hot_key_eq_dec : EqDecision HotKey.
Proof. solve_decision. Defined.

Record HotEntry := MkHotEntry { value : list byte; reference_bit : bool }.

(** [HotEntry::new]: just accessed. *)
Definition hot_entry_new (v : list byte) : HotEntry := MkHotEntry v true.

Definition set_bit (b : bool) (e : HotEntry) : HotEntry := MkHotEntry (value e) b.

Abbreviation HotMap := (list (HotKey * HotEntry)).

(** What the tier takes from [hashbrown]; [grow] is the table's allocation after
an insertion, from the one before and the new number of entries. *)
Class HashTable := {
  hash_key : RealmId → list byte → Z;
  place : HotMap → HotMap;
  grow : Z → Z → Z
}.
Class HashTableLaws `{HashTable} : Prop := {
  place_perm m : place m ≡ₚ m
}.

(** The map's operations: [get], [insert], [remove]. *)
Fixpoint hm_get (k : HotKey) (m : HotMap) : option HotEntry :=
  match m with
  | [] => None
  | (k', e) :: m' => if decide (k' = k) then Some e else hm_get k m'
  end.

Fixpoint hm_update (k : HotKey) (f : HotEntry → HotEntry) (m : HotMap) : HotMap :=
  match m with
  | [] => []
  | (k', e) :: m' => if decide (k' = k) then (k', f e) :: m' else (k', e) :: hm_update k f m'
  end.

Definition hm_remove (k : HotKey) (m : HotMap) : HotMap :=
  filter (λ p, p.1 ≠ k) m.

Record TieredConfig := MkTieredConfig {
  hot_tier_capacity : Z;
  eviction_batch_size : Z;
  promote_sample_rate : Z;
  per_realm_metrics : bool
}.

Record FillGuard := MkFillGuard { fg_shard : Z; fg_epoch : Z }.

Record ShardGauges := MkShardGauges { g_entries : Z; g_bytes : Z; g_content_bytes : Z }.

Record Shard := MkShard {
  data : HotMap;
  table : Z;
  gauges : ShardGauges;
  clock_hand : Z;
  invalidation_epoch : Z
}.

(** The process's hot-tier metrics. *)
Record Metrics := MkMetrics {
  m_entries : Z;
  m_bytes : Z;
  m_promotions : Z;
  m_promotions_by_realm : RealmId → Z;
  m_evictions : Z;
  m_evictions_by_realm : RealmId → Z;
  m_stale_fills : Z
}.

Record HotTier := MkHotTier {
  shards : list Shard;
  capacity : Z;
  shard_capacity : Z;
  sweep_cursor : Z;
  promote_counter : Z;
  admitted_promotions : Z;
  config : TieredConfig;
  metrics : Metrics
}.

Definition MAX_SHARDS : Z := 4096.
Definition MIN_SHARD_CAPACITY : Z := 1024.

Definition clamp (lo hi z : Z) : Z := if z <? lo then lo else if hi <? z then hi else z.

(** [leading_zeros] of a 64-bit [usize]. *)
Definition leading_zeros (n : Z) : Z := if n =? 0 then 64 else 63 - Z.log2 n.

Definition shard_count_for (capacity : Z) : Z :=
  let n := clamp 1 MAX_SHARDS (capacity / MIN_SHARD_CAPACITY) in
  Z.shiftl 1 (64 - 1 - leading_zeros n).

Definition div_ceil (a b : Z) : Z := if a mod b =? 0 then a / b else a / b + 1.

Definition wrap64 (z : Z) : Z := z mod 2 ^ 64.

(** [arc_bytes]: two reference counts and the bytes, rounded up to a multiple of
the counts' alignment. *)
Definition arc_bytes (len : Z) : Z :=
  let n := 2 * 8 + len in
  if n mod 8 =? 0 then n else n + (8 - n mod 8).

Definition entry_bytes (k : HotKey) (e : HotEntry) : Z :=
  arc_bytes (zlen (hk_key k)) + arc_bytes (zlen (value e)).

(** [usize::saturating_sub]. *)
Definition sat_sub (a b : Z) : Z := Z.max 0 (a - b).

Definition count_by_realm (r : RealmId) (c : RealmId → Z) : RealmId → Z :=
  λ r', if decide (r' = r) then c r' + 1 else c r'.

Definition count_eviction (by_realm : bool) (k : HotKey) (mt : Metrics) : Metrics :=
  MkMetrics (m_entries mt) (m_bytes mt) (m_promotions mt) (m_promotions_by_realm mt)
    (m_evictions mt + 1)
    (if by_realm then count_by_realm (hk_realm k) (m_evictions_by_realm mt)
     else m_evictions_by_realm mt)
    (m_stale_fills mt).

Definition count_promotion (by_realm : bool) (r : RealmId) (mt : Metrics) : Metrics :=
  MkMetrics (m_entries mt) (m_bytes mt) (m_promotions mt + 1)
    (if by_realm then count_by_realm r (m_promotions_by_realm mt) else m_promotions_by_realm mt)
    (m_evictions mt) (m_evictions_by_realm mt) (m_stale_fills mt).

Definition count_stale_fill (mt : Metrics) : Metrics :=
  MkMetrics (m_entries mt) (m_bytes mt) (m_promotions mt) (m_promotions_by_realm mt)
    (m_evictions mt) (m_evictions_by_realm mt) (m_stale_fills mt + 1).

Definition set_content (c : Z) (g : ShardGauges) : ShardGauges :=
  MkShardGauges (g_entries g) (g_bytes g) c.

Definition sum_Z (l : list Z) : Z := foldr Z.add 0 l.

(** One turn of the clock: the entries from position [start], cyclically, at
most [n] of them. A referenced entry loses its bit, the first unreferenced one
is the victim. *)
Fixpoint clock_scan (n : nat) (pos : nat) (m : HotMap) (scanned : Z)
  : HotMap * option HotKey * Z :=
  match n with
  | O => (m, None, scanned)
  | S n' =>
      let i := (pos mod length m)%nat in
      match m !! i with
      | None => (m, None, scanned)
      | Some (k, e) =>
          if reference_bit e then
            clock_scan n' (S pos) (<[i := (k, set_bit false e)]> m) (scanned + 1)
          else (m, Some k, scanned + 1)
      end
  end.

Section tier.
Context `{HT : HashTable}.

(** [HashMap::insert]: a present key keeps its place, a new one is placed by the
table. *)
Definition hm_insert (k : HotKey) (e : HotEntry) (m : HotMap) : HotMap :=
  match hm_get k m with
  | Some _ => hm_update k (λ _, e) m
  | None => place (m ++ [(k, e)])
  end.

(** [publish]: add the shard's change to the process gauges. *)
Definition publish (g : ShardGauges) (m : HotMap) (allocation_size : Z) (mt : Metrics) : ShardGauges * Metrics :=
  let entries := zlen m in
  let bytes := allocation_size + g_content_bytes g in
  (MkShardGauges entries bytes (g_content_bytes g),
   MkMetrics (m_entries mt + (entries - g_entries g)) (m_bytes mt + (bytes - g_bytes g))
     (m_promotions mt) (m_promotions_by_realm mt) (m_evictions mt) (m_evictions_by_realm mt)
     (m_stale_fills mt)).

(** [evict_locked] on the write's private clone: the new map, the new hand, the
victim and the bytes freed. *)
Definition evict_locked (hand : Z) (m : HotMap) : HotMap * Z * option HotKey * Z :=
  let len := zlen m in
  if len =? 0 then (m, hand, None, 0)
  else
    let start := hand mod len in
    let '(m', victim, scanned) := clock_scan (length m * 2) (Z.to_nat start) m 0 in
    let hand' := (start + scanned) mod len in
    let evicted :=
      match victim with
      | Some k => Some k
      | None => fst <$> m' !! Z.to_nat start
      end in
    match evicted with
    | None => (m', hand', None, 0)
    | Some k =>
        let freed := match hm_get k m' with Some e => entry_bytes k e | None => 0 end in
        (hm_remove k m', hand', Some k, freed)
    end.

Definition tier_new (cfg : TieredConfig) (mt : Metrics) : HotTier :=
  let capacity := hot_tier_capacity cfg in
  let shard_count := shard_count_for capacity in
  MkHotTier (replicate (Z.to_nat shard_count) (MkShard [] 0 (MkShardGauges 0 0 0) 0 0))
    capacity (div_ceil capacity shard_count) 0 0 0 cfg mt.

Definition shard_index (t : HotTier) (hash : Z) : Z :=
  Z.land (Z.shiftr hash 32) (zlen (shards t) - 1).

Definition shard_of (t : HotTier) (k : HotKey) : nat :=
  Z.to_nat (shard_index t (hash_key (hk_realm k) (hk_key k))).

(** Replace one shard, and the metrics. *)
Definition with_shard (i : nat) (s : Shard) (mt : Metrics) (t : HotTier) : HotTier :=
  MkHotTier (<[i := s]> (shards t)) (capacity t) (shard_capacity t) (sweep_cursor t)
    (promote_counter t) (admitted_promotions t) (config t) mt.

(** A missing shard is an index panic in the source; [shard_index] is always in
range. *)
Definition begin_fill (k : HotKey) (t : HotTier) : option FillGuard :=
  let i := shard_of t k in
  (λ s, MkFillGuard (Z.of_nat i) (invalidation_epoch s)) <$> shards t !! i.

(** [HotTier::get]: the value, and its entry's bit set. *)
Definition get (k : HotKey) (t : HotTier) : option (list byte) * HotTier :=
  let i := shard_of t k in
  match shards t !! i with
  | None => (None, t)
  | Some s =>
      match hm_get k (data s) with
      | None => (None, t)
      | Some e =>
          (Some (value e),
           with_shard i (MkShard (hm_update k (set_bit true) (data s)) (table s) (gauges s) (clock_hand s)
             (invalidation_epoch s)) (metrics t) t)
      end
  end.

(** The sampler and, under the shard's lock, the epoch check that open
[promote]; [true] when the fill is admitted. *)
Definition promote_admit (guard : FillGuard) (k : HotKey) (t : HotTier) : HotTier * bool :=
  let rate := promote_sample_rate (config t) in
  let n := promote_counter t in
  let t1 := if 1 <? rate then
      MkHotTier (shards t) (capacity t) (shard_capacity t) (sweep_cursor t) (wrap64 (n + 1))
        (admitted_promotions t) (config t) (metrics t)
    else t in
  if (1 <? rate) && negb (n mod rate =? 0) then (t1, false)
  else
    match shards t1 !! shard_of t1 k with
    | None => (t1, false)
    | Some s =>
        if negb (invalidation_epoch s =? fg_epoch guard) then
          (MkHotTier (shards t1) (capacity t1) (shard_capacity t1) (sweep_cursor t1)
             (promote_counter t1) (admitted_promotions t1) (config t1)
             (count_stale_fill (metrics t1)), false)
        else (t1, true)
    end.

(** The rest of [promote], with the lock held. *)
Definition promote_store (k : HotKey) (v : list byte) (t : HotTier) : HotTier :=
  let i := shard_of t k in
  match shards t !! i with
  | None => t
  | Some s =>
      let by_realm := per_realm_metrics (config t) in
      let mt := count_promotion by_realm (hk_realm k) (metrics t) in
      let t1 := MkHotTier (shards t) (capacity t) (shard_capacity t) (sweep_cursor t)
        (promote_counter t) (wrap64 (admitted_promotions t + 1)) (config t) mt in
      match hm_get k (data s) with
      | Some old =>
          let m := hm_insert k (hot_entry_new v) (data s) in
          let g := set_content (sat_sub (g_content_bytes (gauges s)) (arc_bytes (zlen (value old)))
            + arc_bytes (zlen v)) (gauges s) in
          let '(g', mt') := publish g m (table s) mt in
          with_shard i (MkShard m (table s) g' (clock_hand s) (invalidation_epoch s)) mt' t1
      | None =>
          let '(m1, hand, g1, mt1) :=
            if shard_capacity t <=? zlen (data s) then
              let '(m1, hand, victim, freed) := evict_locked (clock_hand s) (data s) in
              (m1, hand, set_content (sat_sub (g_content_bytes (gauges s)) freed) (gauges s),
               match victim with Some kv => count_eviction by_realm kv mt | None => mt end)
            else (data s, clock_hand s, gauges s, mt) in
          let g2 := set_content (g_content_bytes g1
            + (arc_bytes (zlen (hk_key k)) + arc_bytes (zlen v))) g1 in
          let m2 := hm_insert k (hot_entry_new v) m1 in
          let table' := grow (table s) (zlen m2) in
          let '(g3, mt3) := publish g2 m2 table' mt1 in
          with_shard i (MkShard m2 table' g3 hand (invalidation_epoch s)) mt3 t1
      end
  end.

Definition promote (guard : FillGuard) (k : HotKey) (v : list byte) (t : HotTier) : HotTier :=
  let '(t', admitted) := promote_admit guard k t in
  if admitted then promote_store k v t' else t'.

(** [invalidate]: the epoch first, outside the lock; then the entry. *)
Definition bump_epoch (k : HotKey) (t : HotTier) : HotTier :=
  let i := shard_of t k in
  match shards t !! i with
  | None => t
  | Some s => with_shard i (MkShard (data s) (table s) (gauges s) (clock_hand s)
      (wrap64 (invalidation_epoch s + 1))) (metrics t) t
  end.

Definition remove_entry (k : HotKey) (t : HotTier) : HotTier :=
  let i := shard_of t k in
  match shards t !! i with
  | None => t
  | Some s =>
      match hm_get k (data s) with
      | None => t
      | Some e =>
          let m := hm_remove k (data s) in
          let g := set_content (sat_sub (g_content_bytes (gauges s)) (entry_bytes k e)) (gauges s) in
          let '(g', mt') := publish g m (table s) (metrics t) in
          with_shard i (MkShard m (table s) g' (clock_hand s) (invalidation_epoch s)) mt' t
      end
  end.

Definition invalidate (k : HotKey) (t : HotTier) : HotTier :=
  remove_entry k (bump_epoch k t).

(** [clock_sweep_step]: one bounded turn on the next shard. *)
Definition swept_shard (t : HotTier) : nat :=
  Z.to_nat (sweep_cursor t mod zlen (shards t)).

Definition clock_sweep_step (t : HotTier) : option HotKey * HotTier :=
  let i := swept_shard t in
  let t1 := MkHotTier (shards t) (capacity t) (shard_capacity t) (wrap64 (sweep_cursor t + 1))
    (promote_counter t) (admitted_promotions t) (config t) (metrics t) in
  match shards t !! i with
  | None => (None, t1)
  | Some s =>
      let len := zlen (data s) in
      if len =? 0 then (None, t1)
      else
        let scan_count := Z.min (eviction_batch_size (config t)) len in
        let start := clock_hand s mod len in
        let '(m', victim, scanned) :=
          clock_scan (Z.to_nat scan_count) (Z.to_nat start) (data s) 0 in
        let hand' := (start + scanned) mod len in
        match victim with
        | None => (None, with_shard i (MkShard m' (table s) (gauges s) hand' (invalidation_epoch s))
                     (metrics t) t1)
        | Some k =>
            let g := match hm_get k m' with
              | Some e => set_content (sat_sub (g_content_bytes (gauges s)) (entry_bytes k e)) (gauges s)
              | None => gauges s
              end in
            let m'' := hm_remove k m' in
            let '(g', mt') := publish g m'' (table s) (metrics t) in
            (Some k, with_shard i (MkShard m'' (table s) g' hand' (invalidation_epoch s))
               (count_eviction (per_realm_metrics (config t)) k mt') t1)
        end
  end.

Definition tier_len (t : HotTier) : Z := sum_Z ((λ s, zlen (data s)) <$> shards t).

(** [HotTier::contains], and the cached value without touching its bit. *)
Definition peek (k : HotKey) (t : HotTier) : option (list byte) :=
  shards t !! shard_of t k ≫= λ s, value <$> hm_get k (data s).
Definition contains (k : HotKey) (t : HotTier) : bool :=
  match peek k t with Some _ => true | None => false end.

(** [Drop]: take the shards out of the gauges. *)
Definition tier_drop (t : HotTier) : Metrics :=
  foldl (λ mt s, MkMetrics (m_entries mt + (0 - g_entries (gauges s)))
           (m_bytes mt + (0 - g_bytes (gauges s))) (m_promotions mt) (m_promotions_by_realm mt)
           (m_evictions mt) (m_evictions_by_realm mt) (m_stale_fills mt))
    (metrics t) (shards t).

End tier.

#[global] Arguments shard_of : simpl never.
#[global] Arguments shard_index : simpl never.
#[global] Arguments wrap64 : simpl never.
#[global] Arguments arc_bytes : simpl never.

(** ** The map *)

(** The contents of a map, without the reference bits. *)
Definition contents (m : HotMap) : list (HotKey * list byte) :=
  (λ p, (p.1, value p.2)) <$> m.

Definition keys (m : HotMap) : list HotKey := fst <$> m.

Definition entry_sum (m : HotMap) : Z := sum_Z ((λ p, entry_bytes p.1 p.2) <$> m).

(** The cached value of a key. *)
Definition hm_value (k : HotKey) (m : HotMap) : option (list byte) := value <$> hm_get k m.

Lemma sum_Z_app l1 l2 : sum_Z (l1 ++ l2) = sum_Z l1 + sum_Z l2.
Proof. unfold sum_Z. induction l1 as [|x l1 IH]; simpl; [done|]. rewrite IH. lia. Qed.

Lemma sum_Z_perm l1 l2 : l1 ≡ₚ l2 → sum_Z l1 = sum_Z l2.
Proof. unfold sum_Z. induction 1; simpl in *; lia. Qed.

Lemma sum_Z_insert l i x y : l !! i = Some x → sum_Z (<[i := y]> l) = sum_Z l - x + y.
Proof.
unfold sum_Z. revert i. induction l as [|z l IH]; intros [|i] Hi; simplify_eq/=; [lia|]. rewrite (IH i Hi). lia.
Qed.

Lemma hm_get_elem k e m : NoDup (keys m) → hm_get k m = Some e ↔ (k, e) ∈ m.
Proof.
unfold keys. induction m as [|[k' e'] m IH]; simpl; intros Hn.
- split; [done|]. by intros ?%elem_of_nil.
- apply NoDup_cons in Hn as [Hk Hn]. case_decide as Hd; subst.
  + split; [intros [= ->]; apply list_elem_of_here|].
    intros [Heq|Hin]%elem_of_cons; [by simplify_eq|]. destruct Hk. apply list_elem_of_fmap. by exists (k, e).
  + rewrite (IH Hn), elem_of_cons. naive_solver.
Qed.

Lemma hm_get_none k m : hm_get k m = None ↔ k ∉ keys m.
Proof.
unfold keys. induction m as [|[k' e'] m IH]; simpl; [split; [intros _; apply not_elem_of_nil|done]|].
rewrite not_elem_of_cons, <-IH. case_decide; naive_solver.
Qed.

Lemma hm_get_some_key k e m : hm_get k m = Some e → k ∈ keys m.
Proof.
intros Hg. destruct (decide (k ∈ keys m)) as [|Hn]; [done|]. apply hm_get_none in Hn. congruence.
Qed.

Lemma hm_get_perm k m1 m2 : m1 ≡ₚ m2 → NoDup (keys m1) → hm_get k m1 = hm_get k m2.
Proof.
intros Hp Hn. assert (Hn2 : NoDup (keys m2)) by (unfold keys; by rewrite <-Hp).
apply option_eq. intros e. by rewrite !hm_get_elem, Hp.
Qed.

Lemma hm_get_app k m1 m2 :
  hm_get k (m1 ++ m2) = match hm_get k m1 with Some e => Some e | None => hm_get k m2 end.
Proof. induction m1 as [|[k' e'] m1 IH]; simpl; [done|]. by case_decide. Qed.

Lemma hm_get_update k k' f m :
  hm_get k' (hm_update k f m) = if decide (k' = k) then f <$> hm_get k m else hm_get k' m.
Proof.
induction m as [|[k0 e0] m IH]; simpl; [by case_decide|].
repeat (case_decide; simplify_eq/=); rewrite ?IH; repeat case_decide; naive_solver.
Qed.

Lemma hm_get_remove k k' m :
  hm_get k' (hm_remove k m) = if decide (k' = k) then None else hm_get k' m.
Proof.
induction m as [|[k0 e0] m IH]; [simpl; by case_decide|].
unfold hm_remove in *. rewrite filter_cons. cbn [fst]. destruct (decide (k0 ≠ k)) as [Hne|He]; cbn [hm_get].
- rewrite IH. repeat case_decide; naive_solver.
- apply dec_stable in He. rewrite IH. repeat case_decide; naive_solver.
Qed.

Lemma keys_update k f m : keys (hm_update k f m) = keys m.
Proof.
unfold keys. induction m as [|[k' e] m IH]; simpl; [done|]. case_decide; simpl; [done|]. by f_equal.
Qed.

Lemma keys_remove_nodup k m : NoDup (keys m) → NoDup (keys (hm_remove k m)).
Proof.
unfold keys, hm_remove. induction m as [|[k' e] m IH]; [done|].
rewrite filter_cons. cbn [fst]. rewrite fmap_cons, NoDup_cons. cbn [fst]. intros [Hk Hn]. case_decide; [|auto].
rewrite fmap_cons, NoDup_cons. cbn [fst]. split; [|auto].
intros (p & -> & Hp)%list_elem_of_fmap. apply Hk, list_elem_of_fmap. exists p. split; [done|].
by apply list_elem_of_filter in Hp as [_ ?].
Qed.

(** Removing an absent key changes nothing; removing a present one takes out
exactly its entry. *)
Lemma hm_remove_absent k m : k ∉ keys m → hm_remove k m = m.
Proof.
unfold keys, hm_remove. induction m as [|[k' e] m IH]; [done|].
rewrite fmap_cons, not_elem_of_cons, filter_cons. cbn [fst]. intros [Hne Hk].
rewrite decide_True by done. by rewrite IH.
Qed.

Lemma hm_remove_perm k e m :
  NoDup (keys m) → hm_get k m = Some e → m ≡ₚ (k, e) :: hm_remove k m.
Proof.
induction m as [|[k' e'] m IH]; [done|]. unfold keys. rewrite fmap_cons, NoDup_cons. cbn [fst hm_get].
intros [Hk Hn] Hg. unfold hm_remove. rewrite filter_cons. cbn [fst].
destruct (decide (k' = k)) as [->|Hne]; simplify_eq.
- rewrite decide_False by (intros Hx; by apply Hx).
  fold (hm_remove k m). by rewrite hm_remove_absent.
- rewrite decide_True by done. fold (hm_remove k m). rewrite (IH Hn Hg) at 1. apply Permutation_swap.
Qed.

Lemma entry_sum_perm m1 m2 : m1 ≡ₚ m2 → entry_sum m1 = entry_sum m2.
Proof. intros Hp. apply sum_Z_perm. by rewrite Hp. Qed.

Lemma entry_sum_cons k e m : entry_sum ((k, e) :: m) = entry_bytes k e + entry_sum m.
Proof. done. Qed.

Lemma entry_sum_app m1 m2 : entry_sum (m1 ++ m2) = entry_sum m1 + entry_sum m2.
Proof. unfold entry_sum. by rewrite fmap_app, sum_Z_app. Qed.

Lemma arc_bytes_nonneg n : 0 <= n → 0 <= arc_bytes n.
Proof. intros. unfold arc_bytes. pose proof (Z.mod_pos_bound (2 * 8 + n) 8). case_match; lia. Qed.

Lemma entry_bytes_nonneg k e : 0 <= entry_bytes k e.
Proof.
unfold entry_bytes. pose proof (arc_bytes_nonneg _ (zlen_nonneg (hk_key k))).
pose proof (arc_bytes_nonneg _ (zlen_nonneg (value e))). lia.
Qed.

Lemma entry_sum_nonneg m : 0 <= entry_sum m.
Proof.
induction m as [|[k e] m IH]; [done|]. rewrite entry_sum_cons. pose proof (entry_bytes_nonneg k e). lia.
Qed.

Lemma entry_sum_remove k e m :
  NoDup (keys m) → hm_get k m = Some e → entry_sum m = entry_bytes k e + entry_sum (hm_remove k m).
Proof. intros Hn Hg. by rewrite (entry_sum_perm _ _ (hm_remove_perm _ _ _ Hn Hg)). Qed.

Lemma length_hm_remove k e m :
  NoDup (keys m) → hm_get k m = Some e → zlen m = 1 + zlen (hm_remove k m).
Proof.
intros Hn Hg. pose proof (Permutation_length (hm_remove_perm _ _ _ Hn Hg)) as Hl.
simpl in Hl. unfold zlen. lia.
Qed.

(** What depends on the contents only. *)
Lemma keys_contents m1 m2 : contents m1 = contents m2 → keys m1 = keys m2.
Proof.
intros Hc. apply (f_equal (fmap fst)) in Hc. unfold contents in Hc.
rewrite <-!list_fmap_compose in Hc. exact Hc.
Qed.

Lemma hm_value_contents k m1 m2 : contents m1 = contents m2 → hm_value k m1 = hm_value k m2.
Proof.
unfold hm_value. revert m2. induction m1 as [|[k1 e1] m1 IH]; intros [|[k2 e2] m2] Hc; simplify_eq/=; [done|].
case_decide; simpl; [congruence|]. by apply IH.
Qed.

Lemma entry_sum_contents m1 m2 : contents m1 = contents m2 → entry_sum m1 = entry_sum m2.
Proof.
revert m2. induction m1 as [|[k1 e1] m1 IH]; intros [|[k2 e2] m2] Hc; simplify_eq/=; [done|].
rewrite !entry_sum_cons. rewrite (IH m2) by done. unfold entry_bytes. by rewrite H1.
Qed.

Lemma zlen_contents m1 m2 : contents m1 = contents m2 → zlen m1 = zlen m2.
Proof.
intros Hc. apply (f_equal length) in Hc. unfold contents in Hc. rewrite !length_fmap in Hc.
unfold zlen. by rewrite Hc.
Qed.

Lemma contents_update_bit k b m : contents (hm_update k (set_bit b) m) = contents m.
Proof.
induction m as [|[k' e] m IH]; simpl; [done|]. case_decide; simpl; [done|]. by f_equal.
Qed.

Lemma contents_set_bit i k e b m :
  m !! i = Some (k, e) → contents (<[i := (k, set_bit b e)]> m) = contents m.
Proof.
intros Hi. unfold contents. rewrite list_fmap_insert. cbn [fst snd set_bit value].
apply list_insert_id. by rewrite list_lookup_fmap, Hi.
Qed.

(** ** The clock *)

Lemma clock_scan_contents n pos m sc m' v sc' :
  clock_scan n pos m sc = (m', v, sc') →
  contents m' = contents m ∧ (∀ k, v = Some k → k ∈ keys m).
Proof.
revert pos m sc. induction n as [|n IH]; intros pos m sc; simpl; [intros [= -> <- ->]; done|].
destruct (m !! (pos mod length m)%nat) as [[k e]|] eqn:Hi; [|intros [= -> <- ->]; done].
destruct (reference_bit e).
- intros Hs. apply IH in Hs as [Hc Hv]. pose proof (contents_set_bit _ _ _ false _ Hi) as Hc'.
  split; [by rewrite Hc|]. intros k' Hk. by rewrite <-(keys_contents _ _ Hc'); apply Hv.
- intros [= <- <- _]. split; [done|]. intros k' [= <-]. unfold keys. apply list_elem_of_fmap.
  exists (k, e). split; [done|]. by eapply list_elem_of_lookup_2.
Qed.

(** The entry [i] places after [pos]. *)
Definition ahead (pos i : nat) (m : HotMap) : option (HotKey * HotEntry) :=
  m !! ((pos + i) mod length m)%nat.

Definition cleared (p : HotKey * HotEntry) : HotKey * HotEntry := (p.1, set_bit false p.2).

Lemma length_contents (m1 m2 : HotMap) : contents m1 = contents m2 → length m1 = length m2.
Proof. intros Hc. apply zlen_contents in Hc. unfold zlen in Hc. lia. Qed.

Lemma ahead_inj pos i j n : (i < n → j < n → (pos + i) mod n = (pos + j) mod n → i = j)%nat.
Proof.
intros Hi Hj Hm. pose proof (Nat.div_mod_eq (pos + i) n) as H1. pose proof (Nat.div_mod_eq (pos + j) n) as H2.
rewrite Hm in H1.
assert (Hq : ((pos + i) / n = (pos + j) / n)%nat) by nia. rewrite Hq in H1. lia.
Qed.

(** A run of [d] referenced entries is cleared and passed. *)
Lemma clock_scan_run d n pos m sc :
  (d <= length m)%nat →
  (∀ i, (i < d)%nat → reference_bit ∘ snd <$> ahead pos i m = Some true) →
  ∃ m', contents m' = contents m ∧
    (∀ i, (i < length m)%nat →
       ahead pos i m' = (if decide (i < d)%nat then cleared else id) <$> ahead pos i m) ∧
    clock_scan (d + n) pos m sc = clock_scan n (pos + d) m' (sc + Z.of_nat d).
Proof.
revert n. induction d as [|d IH]; intros n Hd Hr.
- exists m. split_and!; [done| |by rewrite Z.add_0_r, Nat.add_0_r].
  intros i _. rewrite decide_False by lia. by destruct (ahead pos i m).
- destruct (IH (S n)) as (m1 & Hc & Hl & He); [lia|intros; apply Hr; lia|].
  pose proof (length_contents _ _ Hc) as Hlen.
  pose proof (Hr d ltac:(lia)) as Hd'. destruct (ahead pos d m) as [[k e]|] eqn:Ea; [|done].
  simpl in Hd'. injection Hd' as Hbit.
  pose proof (Hl d ltac:(lia)) as Hd1. rewrite decide_False, Ea in Hd1 by lia. simpl in Hd1.
  unfold ahead in Hd1.
  exists (<[((pos + d) mod length m1)%nat := (k, set_bit false e)]> m1). split_and!.
  + by rewrite (contents_set_bit _ _ _ _ _ Hd1).
  + intros i Hi. unfold ahead at 1. rewrite length_insert.
    destruct (decide (i = d)) as [->|Hne].
    * rewrite list_lookup_insert_eq by (apply lookup_lt_is_Some; eauto).
      rewrite decide_True by lia. by rewrite Ea.
    * rewrite list_lookup_insert_ne.
      2: { rewrite Hlen. intros Heq. apply Hne. by eapply ahead_inj. }
      pose proof (Hl i Hi) as Hli. unfold ahead at 1 in Hli. rewrite Hli.
      destruct (decide (i < d)%nat), (decide (i < S d)%nat); try lia; done.
  + replace (S d + n)%nat with (d + S n)%nat by lia. rewrite He. cbn [clock_scan].
    rewrite Hd1. rewrite Hbit. f_equal; lia.
Qed.

Lemma first_false (f : nat → bool) n :
  (∀ i, (i < n)%nat → f i = true) ∨
  ∃ j, (j < n)%nat ∧ f j = false ∧ ∀ i, (i < j)%nat → f i = true.
Proof.
induction n as [|n [IH|(j & Hj & Hf & Ht)]]; [left; lia| |right; exists j; split; [lia|done]].
destruct (f n) eqn:E; [left|right; exists n; split_and!; auto with lia].
intros i Hi. destruct (decide (i = n)) as [->|]; [done|apply IH; lia].
Qed.

(** The victim of the clock: [j] places after the hand, either the first
unreferenced entry or, when every entry is referenced, the one at the hand. *)
Definition clock_victim (start : nat) (m : HotMap) (j : nat) (k : HotKey) (e : HotEntry) : Prop :=
  (j < length m)%nat ∧ ahead start j m = Some (k, e) ∧
  ((reference_bit e = false ∧
    ∀ i, (i < j)%nat → reference_bit ∘ snd <$> ahead start i m = Some true) ∨
   (j = 0%nat ∧ ∀ i, (i < length m)%nat → reference_bit ∘ snd <$> ahead start i m = Some true)).

Lemma clock_scan_victim start m sc :
  m ≠ [] →
  ∃ j k e m' sc', clock_victim start m j k e ∧ contents m' = contents m ∧
    clock_scan (length m * 2) start m sc = (m', Some k, sc').
Proof.
intros Hm. assert (Hlen : (0 < length m)%nat) by (destruct m; [done|simpl; lia]).
assert (Hin : ∀ i, ∃ k e, ahead start i m = Some (k, e)).
{ intros i. destruct (ahead start i m) as [[k e]|] eqn:E; [eauto|].
  apply lookup_ge_None in E. pose proof (Nat.mod_upper_bound (start + i) (length m)). lia. }
pose (f i := default true (reference_bit ∘ snd <$> ahead start i m)).
assert (Hf : ∀ i, reference_bit ∘ snd <$> ahead start i m = Some (f i)).
{ intros i. unfold f. by destruct (Hin i) as (k & e & ->). }
destruct (first_false f (length m)) as [Hall|(j & Hj & Hfj & Hrun)].
- destruct (clock_scan_run (length m) (length m) start m sc) as (m' & Hc & Hl & He); [lia| |].
  { intros i Hi. by rewrite Hf, Hall. }
  destruct (Hin 0%nat) as (k & e & Ha). pose proof (length_contents _ _ Hc) as Hlen'.
  exists 0%nat, k, e, m'. replace (length m * 2)%nat with (length m + length m)%nat by lia. rewrite He.
  pose proof (Hl 0%nat Hlen) as H0. rewrite decide_True, Ha in H0 by lia. simpl in H0.
  destruct (length m) as [|len] eqn:El; [lia|]. cbn [clock_scan].
  unfold ahead in H0. rewrite Hlen' in H0. rewrite Nat.add_0_r in H0.
  replace ((start + S len) mod length m')%nat with (start mod S len)%nat.
  2: { rewrite Hlen'. rewrite <-(Nat.Div0.add_mod_idemp_r start (S len)). rewrite Nat.Div0.mod_same. by rewrite Nat.add_0_r. }
  rewrite H0. cbn [reference_bit set_bit]. eexists. split_and!; [|done|reflexivity].
  split_and!; [lia|done|]. right. split; [done|]. rewrite El. intros i Hi. by rewrite Hf, Hall.
- destruct (clock_scan_run j (length m * 2 - j) start m sc) as (m' & Hc & Hl & He); [lia| |].
  { intros i Hi. by rewrite Hf, Hrun. }
  destruct (Hin j) as (k & e & Ha). exists j, k, e, m'.
  replace (length m * 2)%nat with (j + (length m * 2 - j))%nat by lia. rewrite He.
  pose proof (Hl j Hj) as H0. rewrite decide_False, Ha in H0 by lia. simpl in H0. unfold ahead in H0.
  assert (Hb : reference_bit e = false) by (pose proof (Hf j) as Hx; rewrite Ha, Hfj in Hx; simpl in Hx; congruence).
  destruct (length m * 2 - j)%nat eqn:En; [lia|]. cbn [clock_scan]. rewrite H0. rewrite Hb.
  eexists. split_and!; [|done|reflexivity]. split_and!; [done|done|]. left. split; [done|].
  intros i Hi. by rewrite Hf, Hrun.
Qed.

Lemma contents_remove k m1 m2 :
  contents m1 = contents m2 → contents (hm_remove k m1) = contents (hm_remove k m2).
Proof.
unfold hm_remove. revert m2. induction m1 as [|[k1 e1] m1 IH]; intros [|[k2 e2] m2] Hc; simplify_eq/=; [done|].
rewrite !filter_cons. cbn [fst]. case_decide; [|by apply IH].
unfold contents in *. rewrite !fmap_cons. cbn [fst snd]. rewrite H1. f_equal. by apply IH.
Qed.

Lemma evict_locked_spec hand m :
  NoDup (keys m) → m ≠ [] →
  ∃ j k e m' hand', clock_victim (Z.to_nat (hand mod zlen m)) m j k e ∧
    evict_locked hand m = (m', hand', Some k, entry_bytes k e) ∧
    contents m' = contents (hm_remove k m).
Proof.
intros Hn Hm. destruct (clock_scan_victim (Z.to_nat (hand mod zlen m)) m 0 Hm)
  as (j & k & e & m' & sc & Hv & Hc & Hs).
pose proof Hv as (_ & Ha & _). unfold ahead in Ha. apply list_elem_of_lookup_2 in Ha.
exists j, k, e. unfold evict_locked. rewrite Hs.
destruct (zlen m =? 0) eqn:Ez; [destruct m; [done|rewrite zlen_cons in Ez; pose proof (zlen_nonneg m); lia]|].
eexists _, _. split_and!; [done| |by apply contents_remove].
assert (Hg : hm_value k m' = Some (value e)).
{ rewrite (hm_value_contents _ _ _ Hc). unfold hm_value. apply (hm_get_elem _ _ _ Hn) in Ha. by rewrite Ha. }
unfold hm_value in Hg. destruct (hm_get k m') as [e'|]; [|done]. simpl in Hg. injection Hg as Hg.
unfold entry_bytes. by rewrite Hg.
Qed.

(** ** The invariant of the tier *)

Record shard_ok (cap : Z) (s : Shard) : Prop := {
  so_nodup : NoDup (keys (data s));
  so_len : zlen (data s) <= Z.max 1 cap;
  so_content : g_content_bytes (gauges s) = entry_sum (data s);
  so_entries : g_entries (gauges s) = zlen (data s);
  so_bytes : g_bytes (gauges s) = table s + g_content_bytes (gauges s)
}.

(** [base] is what the process gauges hold apart from this tier. *)
Record tier_ok (base : Metrics) (t : HotTier) : Prop := {
  to_shards : Forall (shard_ok (shard_capacity t)) (shards t);
  to_count : zlen (shards t) = shard_count_for (capacity t);
  to_share : shard_capacity t = div_ceil (capacity t) (zlen (shards t));
  to_entries : m_entries (metrics t) =
    m_entries base + sum_Z ((λ s, g_entries (gauges s)) <$> shards t);
  to_bytes : m_bytes (metrics t) =
    m_bytes base + sum_Z ((λ s, g_bytes (gauges s)) <$> shards t)
}.

Lemma shard_count_pow2 cap : ∃ k, 0 <= k <= 12 ∧ shard_count_for cap = 2 ^ k.
Proof.
unfold shard_count_for, leading_zeros, clamp, MAX_SHARDS, MIN_SHARD_CAPACITY.
set (n := if cap / 1024 <? 1 then 1 else if 4096 <? cap / 1024 then 4096 else cap / 1024).
assert (Hn : 1 <= n <= 4096) by (unfold n; repeat case_match; lia).
destruct (n =? 0) eqn:E; [lia|]. exists (Z.log2 n).
assert (Hl : 0 <= Z.log2 n <= 12).
{ split; [apply Z.log2_nonneg|]. change 12 with (Z.log2 4096). apply Z.log2_le_mono. lia. }
split; [done|]. rewrite Z.shiftl_mul_pow2 by lia. rewrite Z.mul_1_l. f_equal. lia.
Qed.

Lemma tier_ok_with_shard base t i s s' mt' :
  tier_ok base t → shards t !! i = Some s → shard_ok (shard_capacity t) s' →
  m_entries mt' = m_entries (metrics t) + (g_entries (gauges s') - g_entries (gauges s)) →
  m_bytes mt' = m_bytes (metrics t) + (g_bytes (gauges s') - g_bytes (gauges s)) →
  tier_ok base (with_shard i s' mt' t).
Proof.
intros [Hs Hc Hsh He Hb] Hi Hs' Hme Hmb. split; simpl; unfold zlen in *; rewrite ?length_insert; try done.
- by apply Forall_insert.
- rewrite Hme, He, list_fmap_insert. erewrite sum_Z_insert; [|by rewrite list_lookup_fmap, Hi]. simpl. lia.
- rewrite Hmb, Hb, list_fmap_insert. erewrite sum_Z_insert; [|by rewrite list_lookup_fmap, Hi]. simpl. lia.
Qed.

(** The other fields carry nothing of the invariant. *)
Lemma tier_ok_same base t t' :
  tier_ok base t → shards t' = shards t → capacity t' = capacity t →
  shard_capacity t' = shard_capacity t → m_entries (metrics t') = m_entries (metrics t) →
  m_bytes (metrics t') = m_bytes (metrics t) → tier_ok base t'.
Proof. intros [Hs Hc Hsh He Hb] E1 E2 E3 E4 E5. split; rewrite ?E1, ?E2, ?E3, ?E4, ?E5; done. Qed.

Section tier_lemmas.
Context `{HT : HashTable} `{HL : !HashTableLaws}.

Lemma tier_ok_shard base t i s :
  tier_ok base t → shards t !! i = Some s → shard_ok (shard_capacity t) s.
Proof. intros Ht Hi. by eapply Forall_lookup_1; [apply Ht|]. Qed.

Lemma shard_of_lt base t k : tier_ok base t → (shard_of t k < length (shards t))%nat.
Proof.
intros Ht. unfold shard_of, shard_index. rewrite (to_count _ _ Ht).
destruct (shard_count_pow2 (capacity t)) as (n & Hn & Hp). rewrite Hp.
replace (2 ^ n - 1) with (Z.ones n) by (rewrite Z.ones_equiv; lia).
rewrite Z.land_ones by lia. pose proof (to_count _ _ Ht) as Hc. rewrite Hp in Hc. unfold zlen in Hc.
pose proof (Z.mod_pos_bound (Z.shiftr (hash_key (hk_realm k) (hk_key k)) 32) (2 ^ n)). lia.
Qed.

Lemma shard_of_some base t k : tier_ok base t → ∃ s, shards t !! shard_of t k = Some s.
Proof. intros Ht. apply lookup_lt_is_Some, (shard_of_lt base). done. Qed.

Lemma shard_of_same t t' k : length (shards t') = length (shards t) → shard_of t' k = shard_of t k.
Proof. intros E. unfold shard_of, shard_index, zlen. by rewrite E. Qed.

#[global] Opaque shard_of.

(** Operations on maps, through the table. *)
Lemma hm_insert_new k e m :
  hm_get k m = None → hm_insert k e m ≡ₚ (k, e) :: m.
Proof. intros Hg. unfold hm_insert. rewrite Hg, place_perm. symmetry. apply Permutation_cons_append. Qed.

Lemma hm_insert_old k e old m :
  hm_get k m = Some old → hm_insert k e m = hm_update k (λ _, e) m.
Proof. intros Hg. unfold hm_insert. by rewrite Hg. Qed.

Lemma keys_insert_nodup k e m : NoDup (keys m) → NoDup (keys (hm_insert k e m)).
Proof.
intros Hn. destruct (hm_get k m) as [old|] eqn:Hg.
- rewrite (hm_insert_old _ _ _ _ Hg). by rewrite keys_update.
- unfold keys. rewrite (hm_insert_new _ _ _ Hg). rewrite fmap_cons, NoDup_cons. cbn [fst].
  split; [by apply hm_get_none in Hg|done].
Qed.

Lemma hm_get_insert k k' e m :
  NoDup (keys m) → hm_get k' (hm_insert k e m) = if decide (k' = k) then Some e else hm_get k' m.
Proof.
intros Hn. destruct (hm_get k m) as [old|] eqn:Hg.
- rewrite (hm_insert_old _ _ _ _ Hg), hm_get_update. by rewrite Hg.
- rewrite (hm_get_perm _ _ _ (hm_insert_new k e _ Hg)) by (by apply keys_insert_nodup).
  cbn [hm_get]. repeat case_decide; naive_solver.
Qed.

Lemma entry_sum_insert_old k e old m :
  NoDup (keys m) → hm_get k m = Some old →
  entry_sum (hm_insert k e m) = entry_sum m - arc_bytes (zlen (value old)) + arc_bytes (zlen (value e)).
Proof.
intros Hn Hg. rewrite (hm_insert_old _ _ _ _ Hg). clear Hn. induction m as [|[k' e'] m IH]; [done|].
cbn [hm_get hm_update] in *. destruct (decide (k' = k)); rewrite !entry_sum_cons.
- simplify_eq. unfold entry_bytes. lia.
- rewrite IH by done. lia.
Qed.

Lemma zlen_insert_old k e old m : hm_get k m = Some old → zlen (hm_insert k e m) = zlen m.
Proof.
intros Hg. rewrite (hm_insert_old _ _ _ _ Hg). pose proof (keys_update k (λ _, e) m) as Hk.
apply (f_equal length) in Hk. unfold keys in Hk. rewrite !length_fmap in Hk. unfold zlen. lia.
Qed.

Lemma zlen_insert_new k e m : hm_get k m = None → zlen (hm_insert k e m) = zlen m + 1.
Proof.
intros Hg. pose proof (Permutation_length (hm_insert_new k e _ Hg)) as Hl. simpl in Hl. unfold zlen. lia.
Qed.

Lemma entry_sum_insert_new k e m :
  hm_get k m = None → entry_sum (hm_insert k e m) = entry_bytes k e + entry_sum m.
Proof. intros Hg. by rewrite (entry_sum_perm _ _ (hm_insert_new k e _ Hg)). Qed.

(** What an eviction leaves. *)
Lemma evict_locked_sub hand m m' hand' v freed :
  NoDup (keys m) → evict_locked hand m = (m', hand', v, freed) →
  NoDup (keys m') ∧ entry_sum m' = entry_sum m - freed ∧ zlen m' = Z.max 0 (zlen m - 1) ∧
  (∀ k w, hm_value k m' = Some w → hm_value k m = Some w).
Proof.
intros Hn He. destruct (decide (m = [])) as [->|Hm].
{ injection He as <- <- <- <-. by split_and!. }
destruct (evict_locked_spec hand m Hn Hm) as (j & k & e & m1 & h1 & (_ & Ha & _) & He' & Hc).
rewrite He' in He. injection He as -> -> <- <-.
assert (Hg : hm_get k m = Some e) by (apply hm_get_elem; [done|]; by eapply list_elem_of_lookup_2).
split_and!.
- rewrite (keys_contents _ _ Hc). by apply keys_remove_nodup.
- rewrite (entry_sum_contents _ _ Hc), (entry_sum_remove _ _ _ Hn Hg). lia.
- rewrite (zlen_contents _ _ Hc), (length_hm_remove _ _ _ Hn Hg). pose proof (zlen_nonneg (hm_remove k m)). lia.
- intros k' w. rewrite (hm_value_contents _ _ _ Hc). unfold hm_value. rewrite hm_get_remove. by case_decide.
Qed.

Lemma hm_value_none k m : hm_value k m = None ↔ hm_get k m = None.
Proof. unfold hm_value. by destruct (hm_get k m). Qed.

(** Reading through a replaced shard. *)
Lemma peek_with_shard t i s' mt k :
  (i < length (shards t))%nat →
  peek k (with_shard i s' mt t) =
    if decide (shard_of t k = i) then hm_value k (data s') else peek k t.
Proof.
intros Hi. unfold peek. rewrite (shard_of_same t) by (apply length_insert). cbn [with_shard shards].
case_decide as Hd; [subst; by rewrite list_lookup_insert_eq|by rewrite list_lookup_insert_ne].
Qed.

Lemma peek_shard t k s : shards t !! shard_of t k = Some s → peek k t = hm_value k (data s).
Proof. intros Hs. unfold peek. by rewrite Hs. Qed.

(** The number of shards, the epochs and the configuration an operation keeps. *)
Definition epoch_at (i : nat) (t : HotTier) : option Z := invalidation_epoch <$> shards t !! i.

Definition same_frame (t t' : HotTier) : Prop :=
  length (shards t') = length (shards t) ∧ ∀ i, epoch_at i t' = epoch_at i t.

Lemma same_frame_with_shard t i s s' mt :
  shards t !! i = Some s → invalidation_epoch s' = invalidation_epoch s →
  same_frame t (with_shard i s' mt t).
Proof.
intros Hi He. split; [apply length_insert|]. intros j. unfold epoch_at. simpl.
destruct (decide (i = j)) as [<-|Hne]; [|by rewrite list_lookup_insert_ne].
rewrite list_lookup_insert_eq by (apply lookup_lt_is_Some; eauto). by rewrite Hi; simpl; rewrite He.
Qed.

Lemma get_spec base t k :
  tier_ok base t →
  (get k t).1 = peek k t ∧ tier_ok base (get k t).2 ∧ same_frame t (get k t).2 ∧
  ∀ k', peek k' (get k t).2 = peek k' t.
Proof.
intros Ht. destruct (shard_of_some base t k Ht) as [s Hs]. unfold get. rewrite Hs.
pose proof (tier_ok_shard _ _ _ _ Ht Hs) as [Hn Hl Hc He Hb].
rewrite (peek_shard _ _ _ Hs). unfold hm_value. destruct (hm_get k (data s)) as [e|] eqn:Hg; simpl.
2: { split_and!; try done. }
pose proof (contents_update_bit k true (data s)) as Hu. split_and!; [done| | |].
- eapply (tier_ok_with_shard base t _ s); [exact Ht|exact Hs| |simpl; lia|simpl; lia].
  split; simpl; rewrite ?(keys_contents _ _ Hu), ?(zlen_contents _ _ Hu), ?(entry_sum_contents _ _ Hu); done.
- eapply same_frame_with_shard; [exact Hs|done].
- intros k'. rewrite peek_with_shard by (apply lookup_lt_is_Some; eauto). cbn [data].
  case_decide as Hd; [|done]. rewrite (hm_value_contents _ _ _ Hu). rewrite <-Hd in Hs. by rewrite (peek_shard _ _ _ Hs).
Qed.

Lemma promote_admit_spec base guard k t :
  tier_ok base t →
  tier_ok base (promote_admit guard k t).1 ∧ same_frame t (promote_admit guard k t).1 ∧
  (∀ k', peek k' (promote_admit guard k t).1 = peek k' t) ∧
  ((promote_admit guard k t).2 = true → epoch_at (shard_of t k) t = Some (fg_epoch guard)).
Proof.
intros Ht. destruct (shard_of_some base t k Ht) as [s Hs].
assert (Hs' : ∀ t', shards t' = shards t → shards t' !! shard_of t' k = Some s).
{ intros t' E. rewrite (shard_of_same t) by (by rewrite E). by rewrite E. }
unfold promote_admit. set (t1 := if 1 <? _ then _ else _).
assert (E1 : shards t1 = shards t) by (unfold t1; by case_match).
assert (Hok : tier_ok base t1) by (eapply tier_ok_same; [exact Ht|unfold t1; by case_match..]).
assert (Hpeek : ∀ t', shards t' = shards t → ∀ k', peek k' t' = peek k' t).
{ intros t' E k'. unfold peek. rewrite (shard_of_same t) by (by rewrite E). by rewrite E. }
assert (Hframe : ∀ t', shards t' = shards t → same_frame t t').
{ intros t' E. split; [by rewrite E|]. intros i. unfold epoch_at. by rewrite E. }
destruct (_ && _); simpl; [split_and!; auto; done|]. rewrite (Hs' _ E1).
destruct (negb (invalidation_epoch s =? fg_epoch guard)) eqn:E; simpl; split_and!; auto; try done.
- by eapply tier_ok_same.
- intros _. unfold epoch_at. rewrite Hs. simpl. f_equal. lia.
Qed.

Lemma bump_epoch_spec base k t :
  tier_ok base t →
  tier_ok base (bump_epoch k t) ∧ length (shards (bump_epoch k t)) = length (shards t) ∧
  (∀ k', peek k' (bump_epoch k t) = peek k' t) ∧
  (∀ i, epoch_at i (bump_epoch k t) =
     if decide (i = shard_of t k) then (λ e, wrap64 (e + 1)) <$> epoch_at i t else epoch_at i t).
Proof.
intros Ht. destruct (shard_of_some base t k Ht) as [s Hs]. unfold bump_epoch. rewrite Hs.
pose proof (tier_ok_shard _ _ _ _ Ht Hs) as Hok. split_and!.
- eapply (tier_ok_with_shard base t _ s); [exact Ht|exact Hs| |simpl; lia|simpl; lia]. by destruct Hok.
- apply length_insert.
- intros k'. rewrite peek_with_shard by (apply lookup_lt_is_Some; eauto). cbn [data].
  case_decide as Hd; [|reflexivity]. rewrite <-Hd in Hs. by rewrite (peek_shard _ _ _ Hs).
- intros i. unfold epoch_at. cbn [with_shard shards]. case_decide as Hd; [subst|by rewrite list_lookup_insert_ne].
  rewrite list_lookup_insert_eq by (apply lookup_lt_is_Some; eauto). by rewrite Hs.
Qed.

Lemma remove_entry_spec base k t :
  tier_ok base t →
  tier_ok base (remove_entry k t) ∧ same_frame t (remove_entry k t) ∧
  ∀ k', peek k' (remove_entry k t) = if decide (k' = k) then None else peek k' t.
Proof.
intros Ht. destruct (shard_of_some base t k Ht) as [s Hs]. unfold remove_entry. rewrite Hs.
pose proof (tier_ok_shard _ _ _ _ Ht Hs) as [Hn Hl Hc He Hb].
destruct (hm_get k (data s)) as [e|] eqn:Hg; simpl.
- pose proof (length_hm_remove _ _ _ Hn Hg). pose proof (entry_sum_remove _ _ _ Hn Hg).
  pose proof (entry_sum_nonneg (hm_remove k (data s))). pose proof (zlen_nonneg (hm_remove k (data s))).
  split_and!.
  + eapply (tier_ok_with_shard base t _ s); [exact Ht|exact Hs| |simpl; lia|simpl; unfold sat_sub; lia].
    split; simpl; [by apply keys_remove_nodup|lia|unfold sat_sub; lia|lia|unfold sat_sub; lia].
  + eapply same_frame_with_shard; [exact Hs|done].
  + intros k'. rewrite peek_with_shard by (apply lookup_lt_is_Some; eauto). cbn [data]. unfold hm_value.
    rewrite hm_get_remove. destruct (decide (shard_of t k' = shard_of t k)) as [Hd|Hd].
    * unfold peek. rewrite Hd, Hs. simpl. by destruct (decide (k' = k)).
    * destruct (decide (k' = k)) as [->|]; [done|reflexivity].
- split_and!; try done. intros k'. case_decide; [|done]. subst. by rewrite (peek_shard _ _ _ Hs), hm_value_none.
Qed.

(** The map [promote_store] publishes, in each branch. *)
Lemma fill_update_ok cap s k v old g mt :
  shard_ok cap s → hm_get k (data s) = Some old →
  g = set_content (sat_sub (g_content_bytes (gauges s)) (arc_bytes (zlen (value old)))
        + arc_bytes (zlen v)) (gauges s) →
  let m := hm_insert k (hot_entry_new v) (data s) in
  shard_ok cap (MkShard m (table s) (publish g m (table s) mt).1 (clock_hand s) (invalidation_epoch s)).
Proof.
intros [Hn Hl Hc He Hb] Hg -> m. split; simpl; unfold m.
- by apply keys_insert_nodup.
- by rewrite (zlen_insert_old _ _ _ _ Hg).
- rewrite (entry_sum_insert_old _ _ _ _ Hn Hg), Hc. simpl. unfold sat_sub.
  pose proof (entry_sum_remove _ _ _ Hn Hg) as Hr. pose proof (entry_sum_nonneg (hm_remove k (data s))).
  unfold entry_bytes in Hr. pose proof (arc_bytes_nonneg _ (zlen_nonneg (hk_key k))). lia.
- done.
- done.
Qed.

Lemma fill_insert_ok cap s k v m1 g1 hand tb mt :
  NoDup (keys m1) → hm_get k m1 = None → zlen m1 + 1 <= Z.max 1 cap →
  g_content_bytes g1 = entry_sum m1 →
  let m := hm_insert k (hot_entry_new v) m1 in
  let g := set_content (g_content_bytes g1 + (arc_bytes (zlen (hk_key k)) + arc_bytes (zlen v))) g1 in
  shard_ok cap (MkShard m tb (publish g m tb mt).1 hand (invalidation_epoch s)).
Proof.
intros Hn Hg Hl Hc m g. split; simpl; unfold m.
- by apply keys_insert_nodup.
- by rewrite (zlen_insert_new _ _ _ Hg).
- rewrite (entry_sum_insert_new _ _ _ Hg), Hc. unfold entry_bytes. simpl. lia.
- done.
- done.
Qed.

Lemma promote_store_spec base k v t :
  tier_ok base t →
  tier_ok base (promote_store k v t) ∧ same_frame t (promote_store k v t) ∧
  peek k (promote_store k v t) = Some v ∧
  (∀ k' w, k' ≠ k → peek k' (promote_store k v t) = Some w → peek k' t = Some w).
Proof.
intros Ht. destruct (shard_of_some base t k Ht) as [s Hs]. unfold promote_store. rewrite Hs.
pose proof (tier_ok_shard _ _ _ _ Ht Hs) as Hok. pose proof Hok as [Hn Hl Hc He Hb].
assert (Hlt : (shard_of t k < length (shards t))%nat) by (apply lookup_lt_is_Some; eauto).
set (t1 := MkHotTier _ _ _ _ _ _ _ _).
assert (Ht1 : tier_ok base t1) by (by eapply tier_ok_same).
assert (Hs1 : shards t1 !! shard_of t1 k = Some s) by (by rewrite (shard_of_same t)).
assert (Hi1 : shard_of t1 k = shard_of t k) by (by apply shard_of_same).
assert (Hp1 : ∀ k', peek k' t1 = peek k' t) by (intros k'; unfold peek; by rewrite (shard_of_same t)).
(* A published shard whose map holds [k] and otherwise only what the old one held. *)
assert (Hgen : ∀ s' mt', shard_ok (shard_capacity t) s' → invalidation_epoch s' = invalidation_epoch s →
  m_entries mt' = m_entries (metrics t) + (g_entries (gauges s') - g_entries (gauges s)) →
  m_bytes mt' = m_bytes (metrics t) + (g_bytes (gauges s') - g_bytes (gauges s)) →
  hm_value k (data s') = Some v →
  (∀ k' w, k' ≠ k → hm_value k' (data s') = Some w → hm_value k' (data s) = Some w) →
  let t' := with_shard (shard_of t k) s' mt' t1 in
  tier_ok base t' ∧ same_frame t t' ∧ peek k t' = Some v ∧
  (∀ k' w, k' ≠ k → peek k' t' = Some w → peek k' t = Some w)).
{ intros s' mt' Hs' Hep Hme Hmb Hk Hother t'. unfold t'. rewrite <-Hi1. split_and!.
  - by eapply (tier_ok_with_shard base t1).
  - pose proof (same_frame_with_shard t1 _ _ s' mt' Hs1 Hep) as [H1 H2]. by split.
  - rewrite peek_with_shard by (apply lookup_lt_is_Some; eauto). by rewrite decide_True.
  - intros k' w Hne. rewrite peek_with_shard by (apply lookup_lt_is_Some; eauto).
    case_decide as Hd; [|by rewrite Hp1]. intros Hw. rewrite <-Hp1. unfold peek. rewrite Hd, Hs1.
    by apply Hother. }
destruct (hm_get k (data s)) as [old|] eqn:Hg.
- cbn [publish]. apply Hgen; simpl; try lia; try done.
  + exact (fill_update_ok _ s k v old _ (metrics t) Hok Hg eq_refl).
  + unfold hm_value. by rewrite hm_get_insert, decide_True.
  + intros k' w Hne. unfold hm_value. by rewrite hm_get_insert, decide_False.
- destruct (if shard_capacity t <=? zlen (data s) then _ else _) as [[[m1 hand] g1] mt1] eqn:Eroom.
  assert (Hroom : NoDup (keys m1) ∧ zlen m1 + 1 <= Z.max 1 (shard_capacity t) ∧
    g_content_bytes g1 = entry_sum m1 ∧ g_entries g1 = g_entries (gauges s) ∧ g_bytes g1 = g_bytes (gauges s) ∧
    m_entries mt1 = m_entries (metrics t) ∧ m_bytes mt1 = m_bytes (metrics t) ∧
    (∀ k' w, hm_value k' m1 = Some w → hm_value k' (data s) = Some w)).
  { destruct (shard_capacity t <=? zlen (data s)) eqn:Ecap.
    - destruct (evict_locked (clock_hand s) (data s)) as [[[m' h'] vic] freed] eqn:Ev.
      apply (evict_locked_sub _ _ _ _ _ _ Hn) in Ev as (H1 & H2 & H3 & H4).
      injection Eroom as <- <- <- <-. pose proof (entry_sum_nonneg m').
      split_and!; simpl; try done; try (by destruct vic); [lia|unfold sat_sub; lia].
    - injection Eroom as <- <- <- <-. split_and!; simpl; try done; lia. }
  destruct Hroom as (H1 & H2 & H3 & H4 & H5 & H6 & H7 & H8).
  assert (Hg1 : hm_get k m1 = None).
  { apply hm_value_none. destruct (hm_value k m1) as [w|] eqn:E; [|done]. apply H8 in E.
    unfold hm_value in E. by rewrite Hg in E. }
  cbn [publish]. apply Hgen; simpl; try lia; try done.
  + exact (fill_insert_ok _ s k v m1 g1 hand _ mt1 H1 Hg1 H2 H3).
  + unfold hm_value. by rewrite hm_get_insert, decide_True.
  + intros k' w Hne. unfold hm_value. rewrite hm_get_insert, decide_False by done. apply H8.
Qed.

Lemma clock_sweep_spec base t :
  tier_ok base t →
  tier_ok base (clock_sweep_step t).2 ∧ same_frame t (clock_sweep_step t).2 ∧
  (∀ k w, peek k (clock_sweep_step t).2 = Some w → peek k t = Some w).
Proof.
intros Ht. unfold clock_sweep_step.
set (t1 := MkHotTier _ _ _ _ _ _ _ _).
assert (Ht1 : tier_ok base t1) by (by eapply tier_ok_same).
assert (Hp1 : ∀ k', peek k' t1 = peek k' t) by (intros k'; unfold peek; by rewrite (shard_of_same t)).
destruct (shards t !! swept_shard t) as [s|] eqn:Hs; [|done].
destruct (zlen (data s) =? 0) eqn:Ez; [done|].
pose proof (tier_ok_shard _ _ _ _ Ht Hs) as Hok. pose proof Hok as [Hn Hl Hc He Hb].
destruct (clock_scan _ _ _ _) as [[m' vic] sc] eqn:Ec.
apply clock_scan_contents in Ec as [Hcont Hvic].
assert (Hgen : ∀ s' mt', shard_ok (shard_capacity t) s' → invalidation_epoch s' = invalidation_epoch s →
  m_entries mt' = m_entries (metrics t) + (g_entries (gauges s') - g_entries (gauges s)) →
  m_bytes mt' = m_bytes (metrics t) + (g_bytes (gauges s') - g_bytes (gauges s)) →
  (∀ k' w, hm_value k' (data s') = Some w → hm_value k' (data s) = Some w) →
  let t' := with_shard (swept_shard t) s' mt' t1 in
  tier_ok base t' ∧ same_frame t t' ∧ (∀ k' w, peek k' t' = Some w → peek k' t = Some w)).
{ intros s' mt' Hs' Hep Hme Hmb Hother t'. unfold t'. split_and!.
  - by eapply (tier_ok_with_shard base t1).
  - pose proof (same_frame_with_shard t1 _ _ s' mt' Hs Hep) as [H1 H2]. by split.
  - intros k' w. rewrite peek_with_shard by (apply lookup_lt_is_Some; eauto).
    case_decide as Hd; [|by rewrite Hp1]. intros Hw. rewrite <-Hp1. unfold peek. rewrite Hd. simpl. rewrite Hs.
    by apply Hother. }
destruct vic as [k|].
- cbn [publish snd]. apply Hgen; simpl; try lia; try done.
  + assert (∃ e, hm_get k m' = Some e) as [e Hg].
    { destruct (hm_get k m') eqn:E; [eauto|]. apply hm_get_none in E.
      rewrite (keys_contents _ _ Hcont) in E. by destruct E; apply Hvic. }
    assert (Hn' : NoDup (keys m')) by (by rewrite (keys_contents _ _ Hcont)).
    rewrite Hg. pose proof (entry_sum_remove _ _ _ Hn' Hg). pose proof (length_hm_remove _ _ _ Hn' Hg).
    pose proof (entry_sum_nonneg (hm_remove k m')). rewrite (entry_sum_contents _ _ Hcont) in *.
    rewrite (zlen_contents _ _ Hcont) in *.
    split; simpl; try done; [by apply keys_remove_nodup|lia|unfold sat_sub; lia].
  + by case_match.
  + by case_match.
  + intros k' w. unfold hm_value. rewrite hm_get_remove. case_decide; [done|].
    fold (hm_value k' m'). by rewrite (hm_value_contents _ _ _ Hcont).
- cbn [snd]. apply Hgen; simpl; try lia; try done.
  + split; simpl; rewrite ?(keys_contents _ _ Hcont), ?(zlen_contents _ _ Hcont), ?(entry_sum_contents _ _ Hcont); done.
  + intros k' w. by rewrite (hm_value_contents _ _ _ Hcont).
Qed.

End tier_lemmas.

(** ** Readers and writers

The engine's [get] opens a fill window, reads the authoritative layers, and
promotes what it read; a write updates the authoritative layers and then
invalidates its keys, each first bumping the shard's epoch outside the shard's
lock and then removing the entry under it. [promote] checks the epoch and stores
under one hold of the lock, so that another thread can run in between but cannot
take the lock. The layers below are the map [auth]. *)
Inductive CPhase :=
| CIdle
| COpened (k : HotKey) (guard : FillGuard)
| CFilling (k : HotKey) (guard : FillGuard) (v : list byte)
| CAdmitted (k : HotKey) (v : list byte)
| CWrote (ks : list HotKey)
| CBumped (k : HotKey) (ks : list HotKey).

Record CState := MkCState {
  tier : HotTier;
  auth : HotKey → option (list byte);
  locked : nat → bool;
  cthreads : nat → CPhase
}.

Inductive CEvent :=
| CvHit (k : HotKey)
| CvOpen (i : nat) (k : HotKey)
| CvRead (i : nat)
| CvAdmit (i : nat)
| CvStore (i : nat)
| CvWrite (i : nat) (ws : list (HotKey * option (list byte)))
| CvBump (i : nat)
| CvRemove (i : nat)
| CvDone (i : nat)
| CvSweep.

Definition write_auth (ws : list (HotKey * option (list byte))) (a : HotKey → option (list byte)) :=
  foldl (λ a w, <[w.1 := w.2]> a) a ws.

Section cache.
Context `{HT : HashTable}.

Definition c_exec (ev : CEvent) (s : CState) : option CState :=
  match ev with
  | CvHit k => Some (MkCState (get k (tier s)).2 (auth s) (locked s) (cthreads s))
  | CvOpen i k =>
      match cthreads s i, begin_fill k (tier s) with
      | CIdle, Some g => Some (MkCState (tier s) (auth s) (locked s) (<[i := COpened k g]> (cthreads s)))
      | _, _ => None
      end
  | CvRead i =>
      match cthreads s i with
      | COpened k g =>
          let p := match auth s k with Some v => CFilling k g v | None => CIdle end in
          Some (MkCState (tier s) (auth s) (locked s) (<[i := p]> (cthreads s)))
      | _ => None
      end
  | CvAdmit i =>
      match cthreads s i with
      | CFilling k g v =>
          if locked s (shard_of (tier s) k) then None
          else
            let '(t', admitted) := promote_admit g k (tier s) in
            if admitted then
              Some (MkCState t' (auth s) (<[shard_of (tier s) k := true]> (locked s))
                      (<[i := CAdmitted k v]> (cthreads s)))
            else Some (MkCState t' (auth s) (locked s) (<[i := CIdle]> (cthreads s)))
      | _ => None
      end
  | CvStore i =>
      match cthreads s i with
      | CAdmitted k v =>
          Some (MkCState (promote_store k v (tier s)) (auth s)
                  (<[shard_of (tier s) k := false]> (locked s)) (<[i := CIdle]> (cthreads s)))
      | _ => None
      end
  | CvWrite i ws =>
      match cthreads s i with
      | CIdle => Some (MkCState (tier s) (write_auth ws (auth s)) (locked s)
                         (<[i := CWrote (fst <$> ws)]> (cthreads s)))
      | _ => None
      end
  | CvBump i =>
      match cthreads s i with
      | CWrote (k :: ks) => Some (MkCState (bump_epoch k (tier s)) (auth s) (locked s)
                                    (<[i := CBumped k ks]> (cthreads s)))
      | _ => None
      end
  | CvRemove i =>
      match cthreads s i with
      | CBumped k ks =>
          if locked s (shard_of (tier s) k) then None
          else Some (MkCState (remove_entry k (tier s)) (auth s) (locked s)
                       (<[i := CWrote ks]> (cthreads s)))
      | _ => None
      end
  | CvDone i =>
      match cthreads s i with
      | CWrote [] => Some (MkCState (tier s) (auth s) (locked s) (<[i := CIdle]> (cthreads s)))
      | _ => None
      end
  | CvSweep =>
      if locked s (swept_shard (tier s)) then None
      else Some (MkCState (clock_sweep_step (tier s)).2 (auth s) (locked s) (cthreads s))
  end.

Definition c_run (evs : list CEvent) (s : CState) : option CState :=
  foldl (λ o ev, o ≫= c_exec ev) (Some s) evs.

Definition c_init (cfg : TieredConfig) (base : Metrics) (a : HotKey → option (list byte)) : CState :=
  MkCState (tier_new cfg base) a (λ _, false) (λ _, CIdle).

End cache.

(** A writer still has to bump the epoch for [k], or still has to remove it. *)
Definition unbumped (p : CPhase) (k : HotKey) : Prop :=
  match p with CWrote ks | CBumped _ ks => k ∈ ks | _ => False end.
Definition unremoved (p : CPhase) (k : HotKey) : Prop :=
  match p with CWrote ks => k ∈ ks | CBumped k' ks => k = k' ∨ k ∈ ks | _ => False end.

Section cache_lemmas.
Context `{HT : HashTable} `{HL : !HashTableLaws}.

Record cache_inv (base : Metrics) (n : Z) (s : CState) : Prop := {
  ci_tier : tier_ok base (tier s);
  ci_epoch i e : epoch_at i (tier s) = Some e → 0 <= e <= n;
  ci_guard j k g : cthreads s j = COpened k g ∨ (∃ v, cthreads s j = CFilling k g v) →
    ∃ e, epoch_at (shard_of (tier s) k) (tier s) = Some e ∧ fg_epoch g <= e;
  ci_lock j k v : cthreads s j = CAdmitted k v → locked s (shard_of (tier s) k) = true;
  ci_excl i j k k' v v' : cthreads s i = CAdmitted k v → cthreads s j = CAdmitted k' v' →
    shard_of (tier s) k = shard_of (tier s) k' → i = j;
  ci_fill j k g v : cthreads s j = CFilling k g v →
    epoch_at (shard_of (tier s) k) (tier s) = Some (fg_epoch g) →
    auth s k = Some v ∨ ∃ j', unbumped (cthreads s j') k;
  ci_admitted j k v : cthreads s j = CAdmitted k v →
    auth s k = Some v ∨ ∃ j', unremoved (cthreads s j') k;
  ci_cached k v : peek k (tier s) = Some v →
    auth s k = Some v ∨ ∃ j', unremoved (cthreads s j') k
}.

Lemma unbumped_unremoved p k : unbumped p k → unremoved p k.
Proof. destruct p; simpl; auto. Qed.

Lemma pending_insert (P : CPhase → HotKey → Prop) (i : nat) p (th : nat → CPhase) k :
  (P (th i) k → P p k) → (∃ j, P (th j) k) → ∃ j, P (<[i := p]> th j) k.
Proof.
intros Hi [j Hj]. destruct (decide (j = i)) as [->|Hne].
- exists i. rewrite fn_lookup_insert. auto.
- exists j. by rewrite fn_lookup_insert_ne.
Qed.

Lemma write_auth_other ws a k : k ∉ ws.*1 → write_auth ws a k = a k.
Proof.
unfold write_auth. revert a. induction ws as [|[k' w] ws IH]; intros a; [done|].
rewrite fmap_cons, not_elem_of_cons. cbn [fst foldl]. intros [Hne Hk]. rewrite IH by done.
by rewrite fn_lookup_insert_ne.
Qed.

Lemma write_auth_wrote ws a (i : nat) th k :
  th i = CIdle → (∀ j, unbumped (th j) k → unbumped (<[i := CWrote ws.*1]> th j) k) ∧
  (write_auth ws a k = a k ∨ unbumped (<[i := CWrote ws.*1]> th i) k).
Proof.
intros Hi. split.
- intros j. destruct (decide (j = i)) as [->|]; [by rewrite Hi|by rewrite fn_lookup_insert_ne].
- destruct (decide (k ∈ ws.*1)); [right; by rewrite fn_lookup_insert|left; by apply write_auth_other].
Qed.

(** A step of one thread that keeps the epochs and the layers below. *)
Lemma cache_inv_frame base n s i t' lk' th' :
  cache_inv base n s → tier_ok base t' → same_frame (tier s) t' →
  (∀ j, j ≠ i → th' j = cthreads s j) →
  (∀ k, unbumped (cthreads s i) k → unbumped (th' i) k) →
  (∀ k, unremoved (cthreads s i) k →
     unremoved (th' i) k ∨ (peek k t' = None ∧ locked s (shard_of (tier s) k) = false)) →
  (∀ k v, peek k t' = Some v →
     peek k (tier s) = Some v ∨ auth s k = Some v ∨ ∃ j, unremoved (th' j) k) →
  (∀ k g, th' i = COpened k g ∨ (∃ v, th' i = CFilling k g v) →
     ∃ e, epoch_at (shard_of (tier s) k) (tier s) = Some e ∧ fg_epoch g <= e) →
  (∀ k g v, th' i = CFilling k g v → epoch_at (shard_of (tier s) k) (tier s) = Some (fg_epoch g) →
     auth s k = Some v ∨ ∃ j, unbumped (th' j) k) →
  (∀ k v, th' i = CAdmitted k v → cthreads s i = CAdmitted k v ∨ (locked s (shard_of (tier s) k) = false ∧
     (auth s k = Some v ∨ ∃ j, unremoved (th' j) k))) →
  (∀ j k v, th' j = CAdmitted k v → lk' (shard_of (tier s) k) = true) →
  cache_inv base n (MkCState t' (auth s) lk' th').
Proof.
intros Hinv Ht' [Hlen Hep] Hoth Hub Hur Hpk Hg Hf Ha Hl. pose proof Hinv as [Ht He Hgu Hlo Hex Hfi Had Hca].
assert (Hso : ∀ k, shard_of t' k = shard_of (tier s) k) by (intros; by apply shard_of_same).
assert (Hpb : ∀ k, (∃ j, unbumped (cthreads s j) k) → ∃ j, unbumped (th' j) k).
{ intros k [j Hj]. exists j. destruct (decide (j = i)) as [->|Hne]; [auto|by rewrite Hoth]. }
assert (Hpr : ∀ k, (∃ j, unremoved (cthreads s j) k) → (∃ j, unremoved (th' j) k) ∨
  (peek k t' = None ∧ locked s (shard_of (tier s) k) = false)).
{ intros k [j Hj]. destruct (decide (j = i)) as [->|Hne]; [apply Hur in Hj as [?|?]; eauto|].
  left. exists j. by rewrite Hoth. }
assert (Hadm : ∀ j k v, th' j = CAdmitted k v → cthreads s j = CAdmitted k v ∨ (j = i ∧
  locked s (shard_of (tier s) k) = false ∧ (auth s k = Some v ∨ ∃ j, unremoved (th' j) k))).
{ intros j k v Hj. destruct (decide (j = i)) as [->|Hne]; [|left; by rewrite <-Hoth].
  destruct (Ha k v Hj) as [?|[? ?]]; auto. }
split; cbn [tier auth locked cthreads]; [done| | | | | | |].
- intros j e. rewrite Hep. apply He.
- intros j k g Hj. rewrite Hso, Hep. destruct (decide (j = i)) as [->|Hne]; [by apply Hg|].
  rewrite Hoth in Hj by done. by apply (Hgu j).
- intros j k v Hj. rewrite Hso. by eapply Hl.
- intros j1 j2 k1 k2 v1 v2 H1 H2. rewrite !Hso. intros Hsh.
  destruct (Hadm _ _ _ H1) as [H1'|(-> & Hu1 & _)], (Hadm _ _ _ H2) as [H2'|(-> & Hu2 & _)]; [by eapply Hex| | |done].
  + apply Hlo in H1'. congruence.
  + apply Hlo in H2'. congruence.
- intros j k g v Hj. rewrite Hso, Hep. intros Heq. destruct (decide (j = i)) as [->|Hne]; [by eapply Hf|].
  rewrite Hoth in Hj by done. destruct (Hfi j k g v Hj Heq); auto.
- intros j k v Hj. destruct (Hadm _ _ _ Hj) as [Hj'|(_ & _ & ?)]; [|done].
  destruct (Had j k v Hj') as [?|Hp]; [auto|]. apply Hpr in Hp as [?|[_ Hx]]; [auto|].
  apply Hlo in Hj'. congruence.
- intros k v Hk. destruct (Hpk k v Hk) as [Hk'|?]; [|done]. destruct (Hca k v Hk') as [?|Hp]; [auto|].
  apply Hpr in Hp as [?|[Hx _]]; [auto|]. congruence.
Qed.

(** Steps that move no thread: a hit, a sweep. *)
Lemma cache_inv_tier base n s t' :
  cache_inv base n s → tier_ok base t' → same_frame (tier s) t' →
  (∀ k v, peek k t' = Some v → peek k (tier s) = Some v) →
  cache_inv base n (MkCState t' (auth s) (locked s) (cthreads s)).
Proof.
intros Hinv Ht' Hf Hpk. apply (cache_inv_frame _ _ _ 0 _ _ _ Hinv Ht' Hf); auto.
- intros k g. apply (ci_guard _ _ _ Hinv).
- intros k g v. apply (ci_fill _ _ _ Hinv).
- intros j k v. apply (ci_lock _ _ _ Hinv).
Qed.

(** Steps of thread [i] to a phase without a fill in it. *)
Lemma cache_inv_thread base n s i t' lk' p :
  cache_inv base n s → tier_ok base t' → same_frame (tier s) t' →
  (∀ k, unbumped (cthreads s i) k → unbumped p k) →
  (∀ k, unremoved (cthreads s i) k →
     unremoved p k ∨ (peek k t' = None ∧ locked s (shard_of (tier s) k) = false)) →
  (∀ k v, peek k t' = Some v →
     peek k (tier s) = Some v ∨ auth s k = Some v ∨ ∃ j, unremoved (<[i := p]> (cthreads s) j) k) →
  match p with COpened _ _ | CFilling _ _ _ | CAdmitted _ _ => False | _ => True end →
  (∀ j k v, j ≠ i → cthreads s j = CAdmitted k v → lk' (shard_of (tier s) k) = true) →
  cache_inv base n (MkCState t' (auth s) lk' (<[i := p]> (cthreads s))).
Proof.
intros Hinv Ht' Hf Hub Hur Hpk Hp Hl. apply (cache_inv_frame _ _ _ i _ _ _ Hinv Ht' Hf);
  rewrite ?fn_lookup_insert; auto.
- intros j Hj. by rewrite fn_lookup_insert_ne.
- intros k g [Hx|[v Hx]]; by destruct p.
- intros k g v Hx. by destruct p.
- intros k v Hx. by destruct p.
- intros j k v. destruct (decide (j = i)) as [->|Hne]; [rewrite fn_lookup_insert; by destruct p|].
  rewrite fn_lookup_insert_ne by done. by apply Hl.
Qed.

Lemma cache_inv_open base n s i k g :
  cache_inv base n s → cthreads s i = CIdle → begin_fill k (tier s) = Some g →
  cache_inv base n (MkCState (tier s) (auth s) (locked s) (<[i := COpened k g]> (cthreads s))).
Proof.
intros Hinv Hi Hg. apply (cache_inv_frame _ _ _ i _ _ _ Hinv (ci_tier _ _ _ Hinv));
  rewrite ?fn_lookup_insert, ?Hi; auto; try done.
- intros j Hj. by rewrite fn_lookup_insert_ne.
- intros k' g' [[= <- <-]|[v Hx]]; [|done]. unfold begin_fill in Hg.
  unfold epoch_at. destruct (shards (tier s) !! shard_of (tier s) k) as [sh|]; [|done].
  simpl in *. injection Hg as <-. simpl. eauto with lia.
- intros j k' v. destruct (decide (j = i)) as [->|Hne]; [by rewrite fn_lookup_insert|].
  rewrite fn_lookup_insert_ne by done. apply (ci_lock _ _ _ Hinv).
Qed.

Lemma cache_inv_read base n s i k g v :
  cache_inv base n s → cthreads s i = COpened k g → auth s k = Some v →
  cache_inv base n (MkCState (tier s) (auth s) (locked s) (<[i := CFilling k g v]> (cthreads s))).
Proof.
intros Hinv Hi Hv. apply (cache_inv_frame _ _ _ i _ _ _ Hinv (ci_tier _ _ _ Hinv));
  rewrite ?fn_lookup_insert, ?Hi; auto; try done.
- intros j Hj. by rewrite fn_lookup_insert_ne.
- intros k' g' [Hx|[v' [= <- <- _]]]; [done|]. apply (ci_guard _ _ _ Hinv i). auto.
- intros k' g' v' [= <- <- <-] _. auto.
- intros j k' v'. destruct (decide (j = i)) as [->|Hne]; [by rewrite fn_lookup_insert|].
  rewrite fn_lookup_insert_ne by done. apply (ci_lock _ _ _ Hinv).
Qed.

Lemma cache_inv_admit base n s i k g v :
  cache_inv base n s → cthreads s i = CFilling k g v → locked s (shard_of (tier s) k) = false →
  (promote_admit g k (tier s)).2 = true →
  cache_inv base n (MkCState (promote_admit g k (tier s)).1 (auth s)
    (<[shard_of (tier s) k := true]> (locked s)) (<[i := CAdmitted k v]> (cthreads s))).
Proof.
intros Hinv Hi Hlk Hadm.
destruct (promote_admit_spec base g k (tier s) (ci_tier _ _ _ Hinv)) as (Ht & Hfr & Hpk & Hep).
apply (cache_inv_frame _ _ _ i _ _ _ Hinv Ht Hfr); rewrite ?fn_lookup_insert, ?Hi; auto; try done.
- intros j Hj. by rewrite fn_lookup_insert_ne.
- intros k' v'. rewrite Hpk. auto.
- intros k' g' [Hx|[v' Hx]]; done.
- intros k' v' [= <- <-]. right. split; [done|].
  destruct (ci_fill _ _ _ Hinv i k g v Hi (Hep Hadm)) as [?|[j Hj]]; [auto|]. right. exists j.
  destruct (decide (j = i)) as [->|Hne]; [by rewrite Hi in Hj|].
  rewrite fn_lookup_insert_ne by done. by apply unbumped_unremoved.
- intros j k' v'. destruct (decide (shard_of (tier s) k' = shard_of (tier s) k)) as [->|Hsh];
    [by rewrite fn_lookup_insert|]. rewrite (fn_lookup_insert_ne (locked s)) by done.
  destruct (decide (j = i)) as [->|Hne]; [rewrite fn_lookup_insert; by intros [= -> ->]|].
  rewrite fn_lookup_insert_ne by done. apply (ci_lock _ _ _ Hinv).
Qed.

Lemma cache_inv_store base n s i k v :
  cache_inv base n s → cthreads s i = CAdmitted k v →
  cache_inv base n (MkCState (promote_store k v (tier s)) (auth s)
    (<[shard_of (tier s) k := false]> (locked s)) (<[i := CIdle]> (cthreads s))).
Proof.
intros Hinv Hi.
destruct (promote_store_spec base k v (tier s) (ci_tier _ _ _ Hinv)) as (Ht & Hfr & Hpk & Hoth).
apply (cache_inv_thread _ _ _ i _ _ _ Hinv Ht Hfr); rewrite ?Hi; auto; try done.
- intros k' w Hw. destruct (decide (k' = k)) as [->|Hne]; [|left; by apply Hoth].
  rewrite Hpk in Hw. injection Hw as <-. right.
  destruct (ci_admitted _ _ _ Hinv i k v Hi) as [?|Hp]; [auto|right].
  apply pending_insert; [by rewrite Hi|done].
- intros j k' v' Hne Hj. rewrite fn_lookup_insert_ne; [by eapply (ci_lock _ _ _ Hinv)|].
  intros Heq. apply Hne. symmetry. by eapply (ci_excl _ _ _ Hinv i j).
Qed.

Lemma cache_inv_remove base n s i k ks :
  cache_inv base n s → cthreads s i = CBumped k ks → locked s (shard_of (tier s) k) = false →
  cache_inv base n (MkCState (remove_entry k (tier s)) (auth s) (locked s)
    (<[i := CWrote ks]> (cthreads s))).
Proof.
intros Hinv Hi Hlk.
destruct (remove_entry_spec base k (tier s) (ci_tier _ _ _ Hinv)) as (Ht & Hfr & Hpk).
apply (cache_inv_thread _ _ _ i _ _ _ Hinv Ht Hfr); rewrite ?Hi; auto.
- intros k' [->|?]; [right|by left]. by rewrite Hpk, decide_True.
- intros k' w. rewrite Hpk. case_decide; auto; done.
- intros j k' v' _. apply (ci_lock _ _ _ Hinv).
Qed.

Lemma cache_inv_bump base n s i k ks :
  cache_inv base n s → n + 1 < 2 ^ 64 → cthreads s i = CWrote (k :: ks) →
  cache_inv base (n + 1) (MkCState (bump_epoch k (tier s)) (auth s) (locked s)
    (<[i := CBumped k ks]> (cthreads s))).
Proof.
intros Hinv Hn Hi. pose proof Hinv as [Ht He Hgu Hlo Hex Hfi Had Hca].
destruct (bump_epoch_spec base k (tier s) Ht) as (Ht' & Hlen & Hpk & Hep).
assert (Hso : ∀ k', shard_of (bump_epoch k (tier s)) k' = shard_of (tier s) k') by (intros; by apply shard_of_same).
assert (Hup : ∀ j e, epoch_at j (tier s) = Some e → epoch_at j (bump_epoch k (tier s)) =
  Some (if decide (j = shard_of (tier s) k) then e + 1 else e)).
{ intros j e Hj. rewrite Hep. case_decide; [|done]. rewrite Hj. simpl. f_equal. unfold wrap64.
  apply He in Hj. apply Z.mod_small. lia. }
assert (Hpr : ∀ k', (∃ j, unremoved (cthreads s j) k') → ∃ j, unremoved (<[i := CBumped k ks]> (cthreads s) j) k').
{ intros k'. apply pending_insert. rewrite Hi. simpl. by rewrite elem_of_cons. }
assert (Hold : ∀ j p, <[i := CBumped k ks]> (cthreads s) j = p → match p with CBumped _ _ => False | _ => True end →
  cthreads s j = p).
{ intros j p. destruct (decide (j = i)) as [->|Hne]; [rewrite fn_lookup_insert; by intros <-|by rewrite fn_lookup_insert_ne]. }
split; cbn [tier auth locked cthreads]; [done| | | | | | |].
- intros j e Hj. destruct (epoch_at j (tier s)) as [e0|] eqn:E0.
  + rewrite (Hup _ _ E0) in Hj. apply He in E0. case_decide; simplify_eq; lia.
  + rewrite Hep, E0 in Hj. by case_decide.
- intros j k' g Hj. rewrite Hso. destruct (Hgu j k' g) as (e & He' & Hge).
  { destruct Hj as [Hj|[v Hj]]; apply Hold in Hj; eauto. }
  rewrite (Hup _ _ He'). eexists. split; [done|]. case_decide; lia.
- intros j k' v Hj. rewrite Hso. apply Hold in Hj; [|done]. by eapply Hlo.
- intros j1 j2 k1 k2 v1 v2 H1 H2. rewrite !Hso. apply Hold in H1, H2; try done. by eapply Hex.
- intros j k' g v Hj. rewrite Hso. apply Hold in Hj; [|done].
  destruct (Hgu j k' g) as (e & He' & Hge); [eauto|]. rewrite (Hup _ _ He').
  intros [= Heq]. destruct (decide (shard_of (tier s) k' = shard_of (tier s) k)) as [|Hsh]; [lia|]. subst e.
  destruct (Hfi j k' g v Hj He') as [?|Hp]; [auto|right]. revert Hp. apply pending_insert.
  rewrite Hi. simpl. rewrite elem_of_cons. intros [->|?]; done.
- intros j k' v Hj. apply Hold in Hj; [|done]. destruct (Had j k' v Hj); auto.
- intros k' v. rewrite Hpk. intros Hk. destruct (Hca k' v Hk); auto.
Qed.

Lemma cache_inv_write base n s i ws :
  cache_inv base n s → cthreads s i = CIdle →
  cache_inv base n (MkCState (tier s) (write_auth ws (auth s)) (locked s)
    (<[i := CWrote ws.*1]> (cthreads s))).
Proof.
intros [Ht He Hgu Hlo Hex Hfi Had Hca] Hi.
assert (Hold : ∀ j p, <[i := CWrote ws.*1]> (cthreads s) j = p → match p with CWrote _ => False | _ => True end →
  cthreads s j = p).
{ intros j p. destruct (decide (j = i)) as [->|Hne]; [rewrite fn_lookup_insert; by intros <-|by rewrite fn_lookup_insert_ne]. }
assert (Hnew : ∀ k, write_auth ws (auth s) k = auth s k ∨ unbumped (<[i := CWrote ws.*1]> (cthreads s) i) k)
  by (intros k; by apply write_auth_wrote).
assert (Hpr : ∀ k v, auth s k = Some v ∨ (∃ j, unremoved (cthreads s j) k) →
  write_auth ws (auth s) k = Some v ∨ ∃ j, unremoved (<[i := CWrote ws.*1]> (cthreads s) j) k).
{ intros k v [Hv|Hp]; [destruct (Hnew k) as [->|?]; eauto using unbumped_unremoved|right].
  revert Hp. apply pending_insert. by rewrite Hi. }
split; cbn [tier auth locked cthreads]; try done.
- intros j k g Hj. apply (Hgu j). destruct Hj as [Hj|[v Hj]]; apply Hold in Hj; eauto.
- intros j k v Hj. apply Hold in Hj; [|done]. by eapply Hlo.
- intros j1 j2 k1 k2 v1 v2 H1 H2. apply Hold in H1, H2; try done. by eapply Hex.
- intros j k g v Hj Heq. apply Hold in Hj; [|done].
  destruct (Hfi j k g v Hj Heq) as [Hv|Hp]; [destruct (Hnew k) as [->|?]; eauto|right].
  revert Hp. apply pending_insert. by rewrite Hi.
- intros j k v Hj. apply Hold in Hj; [|done]. apply Hpr. by eapply Had.
- intros k v Hk. apply Hpr. by apply Hca.
Qed.

Lemma cache_inv_mono base n n' s : n <= n' → cache_inv base n s → cache_inv base n' s.
Proof. intros Hn [Ht He Hgu Hlo Hex Hfi Had Hca]. split; try done. intros i e Hi. apply He in Hi. lia. Qed.

Lemma c_exec_inv base n ev s s' :
  c_exec ev s = Some s' → n + 1 < 2 ^ 64 → cache_inv base n s → cache_inv base (n + 1) s'.
Proof.
intros Hx Hn Hinv. assert (Hmono : cache_inv base n s' → cache_inv base (n + 1) s') by (apply cache_inv_mono; lia).
pose proof (ci_tier _ _ _ Hinv) as Ht.
destruct ev as [k|i k|i|i|i|i ws|i|i|i|]; unfold c_exec in Hx.
- injection Hx as <-. apply Hmono. destruct (get_spec base (tier s) k Ht) as (_ & Ht' & Hf & Hpk).
  apply cache_inv_tier; auto. intros k' v. by rewrite Hpk.
- destruct (cthreads s i) eqn:Hi, (begin_fill k (tier s)) eqn:Hg; try done. injection Hx as <-.
  apply Hmono. by apply cache_inv_open.
- destruct (cthreads s i) as [|k g| | | |] eqn:Hi; try done. injection Hx as <-. apply Hmono.
  destruct (auth s k) eqn:Ha; [by apply cache_inv_read|].
  apply cache_inv_thread; rewrite ?Hi; auto; try done. intros j k' v _. apply (ci_lock _ _ _ Hinv).
- destruct (cthreads s i) as [| |k g v| | |] eqn:Hi; try done.
  destruct (locked s (shard_of (tier s) k)) eqn:Hl; [done|].
  pose proof (cache_inv_admit base n s i k g v Hinv Hi Hl) as Hadm.
  destruct (promote_admit_spec base g k (tier s) Ht) as (Ht' & Hf & Hpk & _).
  destruct (promote_admit g k (tier s)) as [t' b]; simpl in *. apply Hmono.
  destruct b; injection Hx as <-; [by apply Hadm|].
  apply cache_inv_thread; rewrite ?Hi; auto; try done.
  + intros k' w. rewrite Hpk. auto.
  + intros j k' v' _. apply (ci_lock _ _ _ Hinv).
- destruct (cthreads s i) eqn:Hi; try done. injection Hx as <-. apply Hmono. by apply cache_inv_store.
- destruct (cthreads s i) eqn:Hi; try done. injection Hx as <-. apply Hmono. by apply cache_inv_write.
- destruct (cthreads s i) as [| | | |[|k ks]|] eqn:Hi; try done. injection Hx as <-. by apply cache_inv_bump.
- destruct (cthreads s i) as [| | | | |k ks] eqn:Hi; try done.
  destruct (locked s (shard_of (tier s) k)) eqn:Hl; [done|]. injection Hx as <-. apply Hmono.
  by apply cache_inv_remove.
- destruct (cthreads s i) as [| | | |[|k ks]|] eqn:Hi; try done. injection Hx as <-. apply Hmono.
  apply cache_inv_thread; rewrite ?Hi; simpl; auto; try done.
  + intros k Hk. by apply elem_of_nil in Hk.
  + intros k Hk. by apply elem_of_nil in Hk.
  + intros j k' v' _. apply (ci_lock _ _ _ Hinv).
- destruct (locked s _); [done|]. injection Hx as <-. apply Hmono.
  destruct (clock_sweep_spec base (tier s) Ht) as (Ht' & Hf & Hpk). by apply cache_inv_tier.
Qed.

Lemma c_run_inv base evs n s s' :
  c_run evs s = Some s' → n + zlen evs < 2 ^ 64 → cache_inv base n s → cache_inv base (n + zlen evs) s'.
Proof.
unfold c_run. revert n s. induction evs as [|ev evs IH]; intros n s Hr Hn Hi.
- injection Hr as <-. by rewrite Z.add_0_r.
- cbn [foldl] in Hr. cbn [mbind option_bind] in Hr. rewrite zlen_cons in *. pose proof (zlen_nonneg evs).
  destruct (c_exec ev s) as [s1|] eqn:E.
  + replace (n + (1 + zlen evs)) with (n + 1 + zlen evs) by lia.
    apply (IH _ s1); [done|lia|]. eapply c_exec_inv; [done|lia|done].
  + exfalso. clear -Hr. induction evs as [|e evs IH]; simpl in Hr; [done|]. by apply IH.
Qed.

Lemma tier_new_ok cfg base : tier_ok base (tier_new cfg base).
Proof.
destruct (shard_count_pow2 (hot_tier_capacity cfg)) as (k & Hk & Hp).
assert (0 < 2 ^ k) by (apply Z.pow_pos_nonneg; lia).
assert (Hz : ∀ (f : Shard → Z), f (MkShard [] 0 (MkShardGauges 0 0 0) 0 0) = 0 →
  sum_Z (f <$> shards (tier_new cfg base)) = 0).
{ intros f Hf. simpl. rewrite fmap_replicate, Hf. induction (Z.to_nat _) as [|m IH]; simpl; [done|]. by rewrite IH. }
split.
- simpl. apply Forall_replicate. split; simpl; try done; [constructor|]. unfold zlen. simpl. lia.
- simpl. unfold zlen. rewrite length_replicate. lia.
- simpl. unfold zlen. rewrite length_replicate. f_equal. lia.
- rewrite Hz by done. simpl. lia.
- rewrite Hz by done. simpl. lia.
Qed.

Lemma c_init_inv cfg base a : cache_inv base 0 (c_init cfg base a).
Proof.
pose proof (tier_new_ok cfg base) as Ht.
assert (Hsh : ∀ i s, shards (tier_new cfg base) !! i = Some s → s = MkShard [] 0 (MkShardGauges 0 0 0) 0 0).
{ intros i s Hi. simpl in Hi. by apply lookup_replicate in Hi as [-> _]. }
split; unfold c_init; cbn [tier auth locked cthreads]; try done.
- intros i e. unfold epoch_at. destruct (shards _ !! i) as [s|] eqn:Hs; [|done].
  apply Hsh in Hs as ->. intros [= <-]. lia.
- intros j k g [?|[v ?]]; done.
- intros k v. unfold peek. destruct (shards _ !! shard_of _ k) as [s|] eqn:Hs; [|done].
  apply Hsh in Hs as ->. done.
Qed.

Lemma sum_Z_le (f g : Shard → Z) l : Forall (λ s, f s <= g s) l → sum_Z (f <$> l) <= sum_Z (g <$> l).
Proof. unfold sum_Z. induction 1; [done|]. rewrite !fmap_cons. cbn [foldr]. lia. Qed.

Lemma sum_Z_eq (f g : Shard → Z) l : Forall (λ s, f s = g s) l → sum_Z (f <$> l) = sum_Z (g <$> l).
Proof. unfold sum_Z. induction 1; [done|]. rewrite !fmap_cons. cbn [foldr]. lia. Qed.

Lemma sum_Z_const (c : Z) (l : list Shard) : sum_Z ((λ _, c) <$> l) = zlen l * c.
Proof. induction l as [|x l IH]; [done|]. rewrite fmap_cons, zlen_cons. unfold sum_Z in *. cbn [foldr]. lia. Qed.

Lemma div_ceil_mul a b : 0 < b → b * div_ceil a b <= a + b - 1.
Proof. intros Hb. unfold div_ceil. pose proof (Z.div_mod a b). pose proof (Z.mod_pos_bound a b). case_match; nia. Qed.

Lemma tier_drop_gauges t :
  m_entries (tier_drop t) = m_entries (metrics t) - sum_Z ((λ s, g_entries (gauges s)) <$> shards t) ∧
  m_bytes (tier_drop t) = m_bytes (metrics t) - sum_Z ((λ s, g_bytes (gauges s)) <$> shards t).
Proof.
unfold tier_drop. generalize (metrics t). induction (shards t) as [|s l IH]; intros mt.
- simpl. lia.
- cbn [foldl]. rewrite !fmap_cons. destruct (IH (MkMetrics (m_entries mt + (0 - g_entries (gauges s)))
    (m_bytes mt + (0 - g_bytes (gauges s))) (m_promotions mt) (m_promotions_by_realm mt)
    (m_evictions mt) (m_evictions_by_realm mt) (m_stale_fills mt))) as [-> ->].
  unfold sum_Z. cbn [foldr m_entries m_bytes]. lia.
Qed.

(** ** Theorems *)

(** C39: the cache is coherent. Under every interleaving of hits, fills, sweeps and
writes, a value the hot tier returns is the value the layers below hold, or a
write of that key is still under way: it has updated the layers below and has not
yet removed the cached entry. Once the write has returned, no stale value is
served. (The epoch counter is 64 bits wide: runs shorter than 2^64 steps.) *)
Theorem hot_tier_coherent cfg base a evs s k v :
  c_run evs (c_init cfg base a) = Some s → zlen evs < 2 ^ 64 →
  (get k (tier s)).1 = Some v →
  auth s k = Some v ∨ ∃ i, unremoved (cthreads s i) k.
Proof.
intros Hr Hn Hg. pose proof (c_run_inv base evs 0 _ _ Hr Hn (c_init_inv cfg base a)) as Hinv.
destruct (get_spec base (tier s) k (ci_tier _ _ _ Hinv)) as (Hv & _). rewrite Hv in Hg.
by apply (ci_cached _ _ _ Hinv).
Qed.

(** The tier stays within its capacity and its gauges are exact. In every
reachable state each shard holds at most its share of the capacity (one entry at
least), the tier at most its capacity plus one entry less than it has shards; the
process gauges exceed what they held before by exactly the tier's entries and the
heap of its tables, keys and values; and dropping the tier takes that out again. *)
Theorem hot_tier_bounded_exact cfg base a evs s :
  c_run evs (c_init cfg base a) = Some s → zlen evs < 2 ^ 64 →
  let t := tier s in
  Forall (λ sh, zlen (data sh) <= Z.max 1 (shard_capacity t)) (shards t) ∧
  tier_len t <= Z.max (zlen (shards t)) (capacity t + zlen (shards t) - 1) ∧
  m_entries (metrics t) = m_entries base + tier_len t ∧
  m_bytes (metrics t) = m_bytes base + sum_Z ((λ sh, table sh + entry_sum (data sh)) <$> shards t) ∧
  m_entries (tier_drop t) = m_entries base ∧ m_bytes (tier_drop t) = m_bytes base.
Proof.
intros Hr Hn t. pose proof (c_run_inv base evs 0 _ _ Hr Hn (c_init_inv cfg base a)) as Hinv.
pose proof (ci_tier _ _ _ Hinv) as [Hs Hc Hsh He Hb]. fold t in Hs, Hc, Hsh, He, Hb.
assert (Hlen : Forall (λ sh, zlen (data sh) <= Z.max 1 (shard_capacity t)) (shards t)).
{ eapply Forall_impl; [exact Hs|]. intros sh []. done. }
assert (Hpos : 0 < zlen (shards t)).
{ destruct (shard_count_pow2 (capacity t)) as (k & Hk & Hp). rewrite Hc, Hp. apply Z.pow_pos_nonneg; lia. }
assert (Htl : tier_len t = sum_Z ((λ s, g_entries (gauges s)) <$> shards t)).
{ apply sum_Z_eq. eapply Forall_impl; [exact Hs|]. intros sh []. done. }
destruct (tier_drop_gauges t) as [Hd1 Hd2]. split_and!; [done| |lia| |lia|lia].
- unfold tier_len. etransitivity; [apply sum_Z_le; exact Hlen|]. rewrite sum_Z_const.
  pose proof (div_ceil_mul (capacity t) (zlen (shards t)) Hpos). rewrite <-Hsh in *. nia.
- rewrite Hb. f_equal. apply sum_Z_eq. eapply Forall_impl; [exact Hs|]. intros sh [? ? E ? ->]. by rewrite E.
Qed.

End cache_lemmas.

(** Eviction gives every entry a second chance and always makes room. On a
non-empty map the victim is the first entry from the hand whose reference bit is
clear or, when every bit is set, the entry at the hand; exactly that entry leaves,
its key and value bytes are what is reported freed, and no value changes. *)
Theorem evict_second_chance hand m :
  NoDup (keys m) → m ≠ [] →
  ∃ j k e m' hand', clock_victim (Z.to_nat (hand mod zlen m)) m j k e ∧
    evict_locked hand m = (m', hand', Some k, entry_bytes k e) ∧
    contents m' = contents (hm_remove k m) ∧ zlen m' = zlen m - 1.
Proof.
intros Hn Hm. destruct (evict_locked_spec hand m Hn Hm) as (j & k & e & m' & h' & Hv & He & Hc).
exists j, k, e, m', h'. split_and!; try done. rewrite (zlen_contents _ _ Hc).
assert (Hg : hm_get k m = Some e).
{ destruct Hv as (_ & Ha & _). apply hm_get_elem; [done|]. by eapply list_elem_of_lookup_2. }
rewrite (length_hm_remove _ _ _ Hn Hg). lia.
Qed.

(** ** Witnesses *)

Definition toy_table : HashTable := Build_HashTable (λ _ k, from_le k) (λ m, m) (λ old n, Z.max old (24 * n)).

Lemma toy_table_laws : @HashTableLaws toy_table.
Proof. split. done. Qed.

Definition wit_hot_key : HotKey := MkHotKey (repeat x07 16) [x61].
Definition wit_hot_config : TieredConfig := MkTieredConfig 2 64 1 true.
Definition wit_metrics : Metrics := MkMetrics 0 0 0 (λ _, 0) 0 (λ _, 0) 0.

(** A reader fills the cache with a value while a writer has not started its
invalidation: the entry is stale until the writer removes it. *)
Definition wit_fill : list CEvent :=
  [CvOpen 0 wit_hot_key; CvRead 0; CvAdmit 0; CvWrite 1 [(wit_hot_key, Some [x02])]; CvStore 0].
Definition wit_auth : HotKey → option (list byte) := λ _, Some [x01].

Lemma hot_tier_coherent_witness :
  ∃ s, c_run (HT := toy_table) wit_fill (c_init wit_hot_config wit_metrics wit_auth) = Some s ∧
    (get (HT := toy_table) wit_hot_key (tier s)).1 = Some [x01] ∧
    (auth s wit_hot_key = Some [x01] ∨ ∃ i, unremoved (cthreads s i) wit_hot_key).
Proof.
assert (Ho : (λ s, (get (HT := toy_table) wit_hot_key (tier s)).1) <$>
  c_run (HT := toy_table) wit_fill (c_init wit_hot_config wit_metrics wit_auth) = Some (Some [x01]))
  by (vm_compute; reflexivity).
destruct (c_run (HT := toy_table) wit_fill (c_init wit_hot_config wit_metrics wit_auth)) as [s|] eqn:E;
  [|discriminate]. simpl in Ho. injection Ho as Ho.
exists s. split; [reflexivity|]. split; [exact Ho|].
apply (hot_tier_coherent (HL := toy_table_laws) wit_hot_config wit_metrics wit_auth wit_fill s _ _ E);
  [vm_compute; reflexivity|exact Ho].
Defined.

Lemma hot_tier_bounded_exact_witness :
  ∃ s, c_run (HT := toy_table) wit_fill (c_init wit_hot_config wit_metrics wit_auth) = Some s ∧
    tier_len (tier s) = 1 ∧ m_entries (metrics (tier s)) = m_entries wit_metrics + tier_len (tier s).
Proof.
assert (Ho : (λ s, tier_len (tier s)) <$>
  c_run (HT := toy_table) wit_fill (c_init wit_hot_config wit_metrics wit_auth) = Some 1)
  by (vm_compute; reflexivity).
destruct (c_run (HT := toy_table) wit_fill (c_init wit_hot_config wit_metrics wit_auth)) as [s|] eqn:E;
  [|discriminate]. simpl in Ho. injection Ho as Ho.
exists s. split; [reflexivity|]. split; [exact Ho|].
apply (hot_tier_bounded_exact (HL := toy_table_laws) wit_hot_config wit_metrics wit_auth wit_fill s E).
vm_compute. reflexivity.
Defined.

Definition wit_map : HotMap :=
  [(MkHotKey (repeat x07 16) [x61], MkHotEntry [x01] true);
   (MkHotKey (repeat x07 16) [x62], MkHotEntry [x02] false)].

Lemma evict_second_chance_witness :
  ∃ j k e m' hand', clock_victim (Z.to_nat (0 mod zlen wit_map)) wit_map j k e ∧
    evict_locked 0 wit_map = (m', hand', Some k, entry_bytes k e) ∧
    contents m' = contents (hm_remove k wit_map) ∧ zlen m' = zlen wit_map - 1.
Proof.
apply (evict_second_chance 0 wit_map); [|discriminate].
apply (bool_decide_unpack (NoDup (keys wit_map))). vm_compute. exact I.
Defined.
