(* ===== verification/Bloom.v ===== *)
(** * The Bloom filter of an SST file

[BloomFilter] and [bloom_hashes] of [storage/sst.rs]: the filter that lets a
reader skip a file, or a partition of it, without reading a block. The checksum
comes from the [crc32fast] crate and is the parameter [Crc32]. *)
From stdpp Require Import base list gmap strings.
From Stdlib Require Import Strings.Byte ZArith Lia.
From S2P Require Import Prelude OrdMap StorageTypes.

Open Scope Z_scope.

Record BloomFilter := MkBloom { bf_bits : list byte; bf_k : byte }.

(** [empty_for]: about ten bits an entry and seven probes; no bits for no entry. *)
Definition empty_for (n : Z) : BloomFilter :=
  if n =? 0 then MkBloom [] x00
  else
    let bit_count := Z.max (Z.min (n * 10) u64_max) 64 in
    let byte_count := (bit_count + 7) / 8 in
    MkBloom (repeat x00 (Z.to_nat byte_count)) x07.

(** The position of probe [i], with the wrapping arithmetic of [u64]. *)
Definition probe (h1 h2 m i : Z) : Z :=
  ((h1 + (i * h2) mod 2 ^ 64) mod 2 ^ 64) mod m.

(** [bits[bit / 8] |= 1 << (bit % 8)]. *)
Definition set_bit_at (bit : Z) (bits : list byte) : list byte :=
  alter (λ b, byte_of (Z.lor (byte_val b) (Z.shiftl 1 (bit mod 8)))) (Z.to_nat (bit / 8)) bits.

Definition test_bit_at (bit : Z) (bits : list byte) : bool :=
  negb (Z.land (byte_val (default x00 (bits !! Z.to_nat (bit / 8)))) (Z.shiftl 1 (bit mod 8)) =? 0).

Definition insert_hashes (h1 h2 : Z) (f : BloomFilter) : BloomFilter :=
  match bf_bits f with
  | [] => f
  | _ =>
      let m := zlen (bf_bits f) * 8 in
      MkBloom (foldl (λ bits i, set_bit_at (probe h1 h2 m i) bits) (bf_bits f)
                 (seqZ 0 (byte_val (bf_k f))))
        (bf_k f)
  end.

Definition from_hashes (hashes : list (Z * Z)) : BloomFilter :=
  foldl (λ f h, insert_hashes h.1 h.2 f) (empty_for (zlen hashes)) hashes.

Definition bloom_encode (f : BloomFilter) : list byte := bf_k f :: bf_bits f.

Definition bloom_decode (plaintext : list byte) : res BloomFilter :=
  match plaintext with
  | [] => Err (InvalidSstFormat "v4 filter block is empty")
  | k :: bits => Ok (MkBloom bits k)
  end.

Section hashed.
Context `{HC : Crc32}.

Definition bloom_hashes (realm key : list byte) : Z * Z :=
  (crc32 ([x9e; x37; x79; xb1] ++ realm ++ key),
   Z.lor (crc32 ([x51; x4e; x28; xb7] ++ key ++ realm)) 1).

Definition bloom_insert (realm key : list byte) (f : BloomFilter) : BloomFilter :=
  let '(h1, h2) := bloom_hashes realm key in insert_hashes h1 h2 f.

Definition bloom_build (entries : list (CompositeKey * MemtableValue)) : BloomFilter :=
  foldl (λ f p, bloom_insert (ck_realm p.1) (ck_key p.1) f) (empty_for (zlen entries)) entries.

(** [might_contain]. *)
Definition might_contain_hashes (h1 h2 : Z) (f : BloomFilter) : bool :=
  match bf_bits f with
  | [] => true
  | _ =>
      let m := zlen (bf_bits f) * 8 in
      forallb (λ i, test_bit_at (probe h1 h2 m i) (bf_bits f)) (seqZ 0 (byte_val (bf_k f)))
  end.

Definition might_contain (realm key : list byte) (f : BloomFilter) : bool :=
  let '(h1, h2) := bloom_hashes realm key in might_contain_hashes h1 h2 f.

End hashed.

(** ** Lemmas *)

Lemma set_bit_len bit bits : length (set_bit_at bit bits) = length bits.
Proof. apply length_alter. Qed.

Lemma foldl_set_len (g : Z → Z) l bits :
  length (foldl (λ bits i, set_bit_at (g i) bits) bits l) = length bits.
Proof. revert bits. induction l as [|i l IH]; intros bits; simpl; [done|]. by rewrite IH, set_bit_len. Qed.

Lemma land_pow2_testbit a n : 0 <= n → (Z.land a (Z.shiftl 1 n) =? 0) = negb (Z.testbit a n).
Proof.
intros Hn. rewrite Z.shiftl_mul_pow2, Z.mul_1_l by lia. destruct (Z.testbit a n) eqn:E; simpl.
- apply Z.eqb_neq. intros Heq. assert (Ht : Z.testbit (Z.land a (2 ^ n)) n = true).
  { rewrite Z.land_spec, E, Z.pow2_bits_true by lia. done. }
  by rewrite Heq, Z.bits_0 in Ht.
- apply Z.eqb_eq. apply Z.bits_inj'. intros m Hm. rewrite Z.land_spec, Z.bits_0, Z.pow2_bits_eqb by lia.
  destruct (n =? m) eqn:Em; [|apply andb_false_r]. apply Z.eqb_eq in Em as ->. by rewrite E.
Qed.

Lemma test_bit_spec bit bits :
  test_bit_at bit bits = Z.testbit (byte_val (default x00 (bits !! Z.to_nat (bit / 8)))) (bit mod 8).
Proof.
unfold test_bit_at. rewrite land_pow2_testbit by (apply Z.mod_pos_bound; lia). apply negb_involutive.
Qed.

Lemma byte_of_lor b n :
  0 <= n < 8 → byte_val (byte_of (Z.lor (byte_val b) (Z.shiftl 1 n))) = Z.lor (byte_val b) (Z.shiftl 1 n).
Proof.
intros Hn. pose proof (byte_val_bound b) as Hb. rewrite byte_val_of. apply Z.mod_small.
split; [apply Z.lor_nonneg; split; [lia|]; apply Z.shiftl_nonneg; lia|].
change 256 with (2 ^ 8).
assert (Hs : 0 <= Z.shiftl 1 n < 2 ^ 8).
{ rewrite Z.shiftl_mul_pow2, Z.mul_1_l by lia. split; [apply Z.pow_nonneg; lia|].
  apply Z.pow_lt_mono_r; lia. }
assert (Hl : 0 <= Z.lor (byte_val b) (Z.shiftl 1 n)) by (apply Z.lor_nonneg; lia).
destruct (decide (Z.lor (byte_val b) (Z.shiftl 1 n) = 0)) as [->|Hne]; [lia|].
apply Z.log2_lt_pow2; [lia|]. rewrite Z.log2_lor by lia.
apply Z.max_lub_lt.
- destruct (decide (byte_val b = 0)) as [->|]; [simpl; lia|]. apply Z.log2_lt_pow2; lia.
- apply Z.log2_lt_pow2; [|lia]. rewrite Z.shiftl_mul_pow2, Z.mul_1_l by lia. apply Z.pow_pos_nonneg; lia.
Qed.

(** Setting a bit sets it and clears none. *)
Lemma test_set_bit bit bit' bits :
  0 <= bit < zlen bits * 8 → 0 <= bit' →
  test_bit_at bit' (set_bit_at bit bits) = (bit' =? bit) || test_bit_at bit' bits.
Proof.
intros Hb Hb'. rewrite !test_bit_spec. unfold set_bit_at.
pose proof (Z.mod_pos_bound bit 8 ltac:(lia)). pose proof (Z.mod_pos_bound bit' 8 ltac:(lia)).
pose proof (Z.div_mod bit 8 ltac:(lia)). pose proof (Z.div_mod bit' 8 ltac:(lia)).
pose proof (Z.div_pos bit 8). pose proof (Z.div_pos bit' 8).
destruct (decide (bit' / 8 = bit / 8)) as [Hq|Hq].
- rewrite Hq. rewrite list_lookup_alter. rewrite decide_True by done.
  destruct (bits !! Z.to_nat (bit / 8)) as [b|] eqn:El.
  2: { apply lookup_ge_None in El. unfold zlen in *. lia. }
  simpl. rewrite byte_of_lor by lia. rewrite Z.lor_spec, Z.shiftl_mul_pow2, Z.mul_1_l, Z.pow2_bits_eqb by lia.
  rewrite orb_comm. f_equal. destruct (bit mod 8 =? bit' mod 8) eqn:E1, (bit' =? bit) eqn:E2; lia.
- rewrite list_lookup_alter_ne by lia. destruct (bit' =? bit) eqn:E; [|done].
  apply Z.eqb_eq in E. subst. done.
Qed.

Lemma probe_range h1 h2 m i : 0 < m → 0 <= probe h1 h2 m i < m.
Proof. intros. unfold probe. apply Z.mod_pos_bound. lia. Qed.

Lemma foldl_set_test (g : Z → Z) l bits bit :
  (∀ i, 0 <= g i < zlen bits * 8) → 0 <= bit →
  test_bit_at bit (foldl (λ bits i, set_bit_at (g i) bits) bits l) =
    existsb (λ i, bit =? g i) l || test_bit_at bit bits.
Proof.
intros Hg Hb. revert bits Hg. induction l as [|i l IH]; intros bits Hg; simpl; [done|].
rewrite IH by (intros j; unfold zlen; rewrite set_bit_len; apply Hg).
rewrite test_set_bit by auto. destruct (existsb _ l), (bit =? g i), (test_bit_at bit bits); done.
Qed.

Lemma insert_hashes_shape h1 h2 f :
  length (bf_bits (insert_hashes h1 h2 f)) = length (bf_bits f) ∧ bf_k (insert_hashes h1 h2 f) = bf_k f.
Proof.
unfold insert_hashes. destruct (bf_bits f) as [|b bs] eqn:E; [by rewrite E|]. simpl bf_bits. simpl bf_k.
split; [|done]. by rewrite (foldl_set_len (λ i, probe h1 h2 (zlen (b :: bs) * 8) i)).
Qed.

(** The probes of a filter with bits. *)
Lemma might_contain_all h1 h2 f :
  might_contain_hashes h1 h2 f = true ↔
  bf_bits f = [] ∨
  ∀ i, 0 <= i < byte_val (bf_k f) → test_bit_at (probe h1 h2 (zlen (bf_bits f) * 8) i) (bf_bits f) = true.
Proof.
unfold might_contain_hashes. destruct (bf_bits f) as [|b bs] eqn:E; [naive_solver|].
rewrite forallb_forall. split.
- intros Ha. right. intros i Hi. apply Ha, list_elem_of_In, elem_of_seqZ. lia.
- intros [?|Ha] i Hi; [done|]. apply list_elem_of_In, elem_of_seqZ in Hi. apply Ha. lia.
Qed.

Lemma insert_hashes_test h1 h2 f bit :
  bf_bits f ≠ [] → 0 <= bit →
  test_bit_at bit (bf_bits (insert_hashes h1 h2 f)) =
    existsb (λ i, bit =? probe h1 h2 (zlen (bf_bits f) * 8) i) (seqZ 0 (byte_val (bf_k f)))
    || test_bit_at bit (bf_bits f).
Proof.
intros Hne Hb. assert (Hm : 0 < zlen (bf_bits f)) by (destruct (bf_bits f); [done|rewrite zlen_cons; pose proof (zlen_nonneg l); lia]).
unfold insert_hashes. destruct (bf_bits f) as [|b bs] eqn:E; [done|]. simpl bf_bits.
apply (foldl_set_test (λ i, probe h1 h2 (zlen (b :: bs) * 8) i)); [|done]. intros i. apply probe_range. lia.
Qed.

(** An insertion keeps every key that passed, and makes its own pass. *)
Lemma insert_hashes_keep h1 h2 g1 g2 f :
  might_contain_hashes g1 g2 f = true → might_contain_hashes g1 g2 (insert_hashes h1 h2 f) = true.
Proof.
rewrite !might_contain_all. destruct (insert_hashes_shape h1 h2 f) as [Hl Hk]. unfold zlen. rewrite Hl, Hk.
intros [Hn|Ha]; [left; destruct (bf_bits (insert_hashes h1 h2 f)); [done|by rewrite Hn in Hl]|].
destruct (decide (bf_bits f = [])) as [Hn|Hne];
  [left; destruct (bf_bits (insert_hashes h1 h2 f)); [done|by rewrite Hn in Hl]|].
right. intros i Hi. assert (0 < zlen (bf_bits f)) by (destruct (bf_bits f); [done|rewrite zlen_cons; pose proof (zlen_nonneg l); lia]).
rewrite insert_hashes_test; [|done|apply probe_range; unfold zlen in *; lia].
by rewrite (Ha i Hi), orb_true_r.
Qed.

Lemma insert_hashes_here h1 h2 f : might_contain_hashes h1 h2 (insert_hashes h1 h2 f) = true.
Proof.
rewrite might_contain_all. destruct (insert_hashes_shape h1 h2 f) as [Hl Hk]. unfold zlen. rewrite Hl, Hk.
destruct (decide (bf_bits f = [])) as [Hn|Hne];
  [left; destruct (bf_bits (insert_hashes h1 h2 f)); [done|by rewrite Hn in Hl]|].
right. intros i Hi. assert (0 < zlen (bf_bits f)) by (destruct (bf_bits f); [done|rewrite zlen_cons; pose proof (zlen_nonneg l); lia]).
rewrite insert_hashes_test; [|done|apply probe_range; unfold zlen in *; lia].
apply orb_true_iff. left. apply existsb_exists. exists i.
split; [apply list_elem_of_In, elem_of_seqZ; lia|]. apply Z.eqb_refl.
Qed.

Lemma foldl_insert_keep hashes f g1 g2 :
  might_contain_hashes g1 g2 f = true →
  might_contain_hashes g1 g2 (foldl (λ f h, insert_hashes h.1 h.2 f) f hashes) = true.
Proof. revert f. induction hashes as [|h hs IH]; intros f Hf; simpl; [done|]. by apply IH, insert_hashes_keep. Qed.

Lemma foldl_insert_in hashes f g1 g2 :
  (g1, g2) ∈ hashes → might_contain_hashes g1 g2 (foldl (λ f h, insert_hashes h.1 h.2 f) f hashes) = true.
Proof.
revert f. induction hashes as [|h hs IH]; intros f; [by intros ?%elem_of_nil|].
intros [<-|Hin]%elem_of_cons; simpl; [apply foldl_insert_keep, insert_hashes_here|by apply IH].
Qed.

Lemma bloom_roundtrip f : bloom_decode (bloom_encode f) = Ok f.
Proof. by destruct f. Qed.

Section no_false_negatives.
Context `{HC : Crc32}.

Lemma from_hashes_contains hashes realm key :
  bloom_hashes realm key ∈ hashes → might_contain realm key (from_hashes hashes) = true.
Proof.
intros Hin. unfold might_contain. destruct (bloom_hashes realm key) as [h1 h2]. by apply foldl_insert_in.
Qed.

Lemma build_from_hashes entries :
  bloom_build entries = from_hashes ((λ p, bloom_hashes (ck_realm p.1) (ck_key p.1)) <$> entries).
Proof.
unfold bloom_build, from_hashes. replace (zlen ((λ p, bloom_hashes (ck_realm p.1) (ck_key p.1)) <$> entries))
  with (zlen entries) by (unfold zlen; by rewrite length_fmap).
generalize (empty_for (zlen entries)). induction entries as [|p entries IH]; intros f; [done|].
rewrite fmap_cons. cbn [foldl]. by rewrite IH.
Qed.

(** The filter has no false negatives. A key of the entries a filter was built
from always passes it, also after the filter was written to its block and read
back; an empty filter passes everything; and no probe, of any filter read from a
block, leaves the bit array. *)
Theorem bloom_no_false_negatives entries key v :
  (key, v) ∈ entries →
  might_contain (ck_realm key) (ck_key key) (bloom_build entries) = true ∧
  (f ← bloom_decode (bloom_encode (bloom_build entries));
   Ok (might_contain (ck_realm key) (ck_key key) f)) = Ok true ∧
  (∀ f h1 h2 i, bf_bits f ≠ [] → 0 <= i →
     0 <= probe h1 h2 (zlen (bf_bits f) * 8) i / 8 < zlen (bf_bits f)).
Proof.
intros Hin. assert (Hm : might_contain (ck_realm key) (ck_key key) (bloom_build entries) = true).
{ rewrite build_from_hashes. apply from_hashes_contains, list_elem_of_fmap. by exists (key, v). }
split_and!; [done| |].
- rewrite bloom_roundtrip. cbn [mbind outcome_bind]. by rewrite Hm.
- intros f h1 h2 i Hne Hi. assert (Hl : 0 < zlen (bf_bits f)) by (destruct (bf_bits f); [done|rewrite zlen_cons; pose proof (zlen_nonneg l); lia]).
  pose proof (probe_range h1 h2 (zlen (bf_bits f) * 8) i ltac:(lia)).
  split; [apply Z.div_pos; lia|apply Z.div_lt_upper_bound; lia].
Qed.

End no_false_negatives.

(** ** Witness *)

Lemma bloom_no_false_negatives_witness :
  let key := CKey (repeat x07 16) [x61] in
  might_contain (HC := λ b, from_le (take 4 (rev b))) (ck_realm key) (ck_key key)
    (bloom_build (HC := λ b, from_le (take 4 (rev b))) [(key, Tombstone)]) = true.
Proof.
intros key. apply (bloom_no_false_negatives (HC := λ b, from_le (take 4 (rev b))) [(key, Tombstone)] key Tombstone).
apply list_elem_of_here.
Defined.
