(* ===== verification/SstCodec.v ===== *)
(** * SST blocks

The serialized pieces of an SST file ([storage/sst.rs]): entries, block handles,
footer keys, and the data, index and filter blocks a reader decodes and searches.
A block keeps its plaintext and the offset of each entry, and every lookup parses
the entry again, as the code does. *)
From stdpp Require Import base list gmap strings sorting lexico.
From Stdlib Require Import Strings.Byte ZArith Lia.
From S2P Require Import Prelude OrdMap StorageTypes Bloom.

Open Scope Z_scope.

Definition BLOCK_TARGET_BYTES : Z := 4096.
Definition INDEX_PARTITION_TARGET_BYTES : Z := 16 * 1024.
Definition SST_MIN_ENTRY_BYTES : Z := 1 + 16 + 4 + 4.
Definition HANDLE_BYTES : Z := 8 + 4 + 4 + 4.

(** Lower-case hexadecimal of a byte, as [{:#x}] prints it. *)
Definition hex_digit (n : Z) : string :=
  if n <? 10 then show n else
  match n with
  | 10 => "a" | 11 => "b" | 12 => "c" | 13 => "d" | 14 => "e" | _ => "f"
  end.
Definition show_hex (b : byte) : string :=
  let n := byte_val b in
  "0x" +:+ (if n <? 16 then hex_digit n else hex_digit (n / 16) +:+ hex_digit (n mod 16)).

(** ** Entries *)

Record EntryRef := MkEntryRef {
  er_realm : list byte;
  er_key : list byte;
  er_value : option (list byte)
}.

Definition entry_key (e : EntryRef) : CompositeKey := CKey (er_realm e) (er_key e).

(** [EntryRef::cmp_to]: realm bytes first, then key bytes, as composite keys
compare. *)
Definition cmp_to (e : EntryRef) (realm key : list byte) : comparison :=
  ord_cmp (entry_key e) (CKey realm key).

Definition memtable_value (e : EntryRef) : MemtableValue :=
  match er_value e with None => Tombstone | Some v => Data v end.

Definition into_owned (e : EntryRef) : CompositeKey * MemtableValue :=
  (entry_key e, memtable_value e).

Definition serialize_entry (key : CompositeKey) (value : MemtableValue) : list byte :=
  [match value with Data _ => x00 | Tombstone => x01 end] ++
  ck_realm key ++
  to_le 4 (zlen (ck_key key)) ++ ck_key key ++
  match value with
  | Data v => to_le 4 (zlen v) ++ v
  | Tombstone => to_le 4 0
  end.

(** [len_at]: the 32-bit length at a position. *)
Definition len_at (data : list byte) (pos : Z) : option Z :=
  from_le <$> slice pos (pos + 4) data.

Definition read_entry (data : list byte) (pos : Z) : res (EntryRef * Z) :=
  entry_type ← ok_or (InvalidSstFormat "truncated entry: missing type byte") (at_ pos data);
  let p := pos + 1 in
  realm ← ok_or (InvalidSstFormat "truncated entry: missing realm UUID") (slice p (p + 16) data);
  let p := p + 16 in
  key_len ← ok_or (InvalidSstFormat "truncated entry: missing key length") (len_at data p);
  let p := p + 4 in
  key ← ok_or (InvalidSstFormat "truncated entry: missing key data") (slice p (p + key_len) data);
  let p := p + key_len in
  val_len ← ok_or (InvalidSstFormat "truncated entry: missing value length") (len_at data p);
  let p := p + 4 in
  value ← ok_or (InvalidSstFormat "truncated entry: missing value data") (slice p (p + val_len) data);
  let p := p + val_len in
  value ← (if decide (entry_type = x00) then Ok (Some value)
           else if decide (entry_type = x01) then Ok None
           else Err (InvalidSstFormat ("unknown entry type: " +:+ show_hex entry_type)));
  Ok (MkEntryRef realm key value, p).

(** The offsets of a decoded block: [while pos < plaintext.len()]. An entry takes
at least 25 bytes, so the length of the text is enough fuel. *)
Fixpoint decode_offsets (fuel : nat) (too_large : string) (read : list byte → Z → res Z)
    (plaintext : list byte) (pos : Z) (offsets : list Z) : res (list Z) :=
  if pos <? zlen plaintext then
    match fuel with
    | O => Panic
    | S fuel' =>
        if u32_max <? pos then Err (InvalidSstFormat too_large)
        else
          next ← read plaintext pos;
          decode_offsets fuel' too_large read plaintext next (offsets ++ [pos])
    end
  else Ok offsets.

Record DataBlock := MkDataBlock { db_plaintext : list byte; db_offsets : list Z }.

Definition entry_end (data : list byte) (pos : Z) : res Z := snd <$> read_entry data pos.

Definition data_decode (plaintext : list byte) : res DataBlock :=
  offsets ← decode_offsets (length plaintext) "v3 block larger than 4 GiB" entry_end plaintext 0 [];
  Ok (MkDataBlock plaintext offsets).

Definition data_len (b : DataBlock) : Z := zlen (db_offsets b).

Definition data_entry (b : DataBlock) (index : Z) : option EntryRef :=
  pos ← at_ index (db_offsets b);
  match read_entry (db_plaintext b) pos with Ok (e, _) => Some e | _ => None end.

(** [DataBlock::iter]. *)
Definition data_iter (b : DataBlock) : list EntryRef :=
  omap (data_entry b) (seqZ 0 (data_len b)).

(** The binary searches of the module: the first position in [lo, hi) at which
[p] is false, for a [p] that is true up to some position. *)
Fixpoint bisect (fuel : nat) (p : Z → bool) (lo hi : Z) : Z :=
  match fuel with
  | O => lo
  | S fuel' =>
      if lo <? hi then
        let mid := lo + (hi - lo) / 2 in
        if p mid then bisect fuel' p (mid + 1) hi else bisect fuel' p lo mid
      else lo
  end.

Definition is_lt (c : comparison) : bool := match c with Lt => true | _ => false end.
Definition is_le (c : comparison) : bool := match c with Gt => false | _ => true end.
Definition is_eq (c : comparison) : bool := match c with Eq => true | _ => false end.
Definition is_ge (c : comparison) : bool := match c with Lt => false | _ => true end.

Definition lower_bound (b : DataBlock) (realm key : list byte) : Z :=
  bisect (length (db_offsets b)) (λ mid,
    match data_entry b mid with Some e => is_lt (cmp_to e realm key) | None => false end)
    0 (data_len b).

Definition data_find (b : DataBlock) (realm key : list byte) : option EntryRef :=
  match data_entry b (lower_bound b realm key) with
  | Some e => if is_eq (cmp_to e realm key) then Some e else None
  | None => None
  end.

(** ** Handles, footer keys and index blocks *)

Record BlockHandle := MkHandle {
  bh_file_offset : Z;
  bh_ciphertext_len : Z;
  bh_plaintext_len : Z;
  bh_ordinal : Z
}.

Definition handle_write (h : BlockHandle) : list byte :=
  to_le 8 (bh_file_offset h) ++ to_le 4 (bh_ciphertext_len h) ++
  to_le 4 (bh_plaintext_len h) ++ to_le 4 (bh_ordinal h).

Definition handle_read (data : list byte) (pos : Z) : option BlockHandle :=
  bytes ← slice pos (pos + HANDLE_BYTES) data;
  off ← slice 0 8 bytes;
  ct ← slice 8 12 bytes;
  pt ← slice 12 16 bytes;
  ord ← slice 16 20 bytes;
  Some (MkHandle (from_le off) (from_le ct) (from_le pt) (from_le ord)).

Definition write_footer_key (key : CompositeKey) : list byte :=
  ck_realm key ++ to_le 4 (zlen (ck_key key)) ++ ck_key key.

Definition read_footer_key (data : list byte) (pos : Z) : res (CompositeKey * Z) :=
  let err := InvalidSstFormat "v3 footer: truncated key" in
  if zlen data <? pos + 20 then Err err
  else
    uuid ← index_range pos (pos + 16) data;
    uuid ← try_into 16 err uuid;
    lenb ← index_range (pos + 16) (pos + 20) data;
    lenb ← try_into 4 err lenb;
    let key_len := from_le lenb in
    let start := pos + 20 in
    if zlen data <? start + key_len then Err err
    else
      key ← index_range start (start + key_len) data;
      Ok (CKey uuid key, start + key_len).

Record IndexEntryRef := MkIndexEntry {
  ie_realm : list byte;
  ie_key : list byte;
  ie_handle : BlockHandle
}.

Definition ie_first (e : IndexEntryRef) : CompositeKey := CKey (ie_realm e) (ie_key e).

Definition ie_cmp_to (e : IndexEntryRef) (realm key : list byte) : comparison :=
  ord_cmp (ie_first e) (CKey realm key).

Definition write_index_entry (first : CompositeKey) (h : BlockHandle) : list byte :=
  write_footer_key first ++ handle_write h.

Definition read_index_entry (data : list byte) (pos : Z) : res (IndexEntryRef * Z) :=
  let truncated := InvalidSstFormat "v4 index block: truncated entry" in
  realm ← ok_or truncated (slice pos (pos + 16) data);
  key_len ← ok_or truncated (from_le <$> slice (pos + 16) (pos + 20) data);
  let key_start := pos + 20 in
  let key_end := key_start + key_len in
  key ← ok_or truncated (slice key_start key_end data);
  handle ← ok_or truncated (handle_read data key_end);
  Ok (MkIndexEntry realm key handle, key_end + HANDLE_BYTES).

Record IndexBlock := MkIndexBlock { ib_plaintext : list byte; ib_offsets : list Z }.

Definition index_entry_end (data : list byte) (pos : Z) : res Z := snd <$> read_index_entry data pos.

Definition index_decode (plaintext : list byte) : res IndexBlock :=
  offsets ← decode_offsets (length plaintext) "v4 index block larger than 4 GiB" index_entry_end
              plaintext 0 [];
  Ok (MkIndexBlock plaintext offsets).

Definition index_len (b : IndexBlock) : Z := zlen (ib_offsets b).

Definition index_entry (b : IndexBlock) (index : Z) : option IndexEntryRef :=
  pos ← at_ index (ib_offsets b);
  match read_index_entry (ib_plaintext b) pos with Ok (e, _) => Some e | _ => None end.

(** [checked_sub(1)]. *)
Definition checked_pred (n : Z) : option Z := if n =? 0 then None else Some (n - 1).

Definition position_for (b : IndexBlock) (realm key : list byte) : option Z :=
  checked_pred (bisect (length (ib_offsets b)) (λ mid,
    match index_entry b mid with Some e => is_le (ie_cmp_to e realm key) | None => false end)
    0 (index_len b)).

(** ** Cached blocks *)

Inductive BlockKind := KData | KIndex | KFilter.

Inductive Block :=
| BData (b : DataBlock)
| BIndex (b : IndexBlock)
| BFilter (f : BloomFilter).

#[export] Instance BlockKind_eq_dec : EqDecision BlockKind.
Proof. solve_decision. Defined.

Definition block_kind (b : Block) : BlockKind :=
  match b with BData _ => KData | BIndex _ => KIndex | BFilter _ => KFilter end.

Definition block_decode (kind : BlockKind) (plaintext : list byte) : res Block :=
  match kind with
  | KData => BData <$> data_decode plaintext
  | KIndex => BIndex <$> index_decode plaintext
  | KFilter => BFilter <$> bloom_decode plaintext
  end.

Definition wrong_kind : StorageError := InvalidSstFormat "SST block of the wrong kind".

Definition block_data (b : Block) : res DataBlock :=
  match b with BData d => Ok d | _ => Err wrong_kind end.
Definition block_index (b : Block) : res IndexBlock :=
  match b with BIndex i => Ok i | _ => Err wrong_kind end.
Definition block_filter (b : Block) : res BloomFilter :=
  match b with BFilter f => Ok f | _ => Err wrong_kind end.

(** ** Reading entries back *)

Definition entry_ok (key : CompositeKey) (value : MemtableValue) : Prop :=
  zlen (ck_realm key) = 16 ∧ zlen (ck_key key) <= u32_max ∧
  zlen (default [] (value_view value)) <= u32_max.

Definition entry_ref (key : CompositeKey) (value : MemtableValue) : EntryRef :=
  MkEntryRef (ck_realm key) (ck_key key) (value_view value).

Lemma at_mid {A} (pre : list A) x post : at_ (zlen pre) (pre ++ x :: post) = Some x.
Proof.
unfold at_. pose proof (zlen_nonneg pre). destruct (Z.leb_spec 0 (zlen pre)); [|lia].
unfold zlen. rewrite Nat2Z.id. by rewrite lookup_app_r, Nat.sub_diag.
Qed.

Lemma slice_here {A} a b (l1 l2 : list A) : a = 0 → b = zlen l1 → slice a b (l1 ++ l2) = Some l1.
Proof. intros -> ->. by apply slice_head. Qed.

(** Reduce a slice of a concatenation to the piece it covers. *)
Ltac slice_pieces :=
  rewrite <-?app_assoc; rewrite ?slice_skip by zlia; rewrite slice_here by zlia.

Lemma from_to_le4 z : 0 <= z <= u32_max → from_le (to_le 4 z) = z.
Proof. intros. apply from_to_le_small. unfold u32_max in *. lia. Qed.

Lemma from_to_le8 z : 0 <= z <= u64_max → from_le (to_le 8 z) = z.
Proof. intros. apply from_to_le_small. unfold u64_max in *. lia. Qed.

Lemma serialize_entry_len key value :
  zlen (ck_realm key) = 16 →
  zlen (serialize_entry key value) = 25 + zlen (ck_key key) + zlen (default [] (value_view value)).
Proof.
intros Hr. unfold serialize_entry. destruct value; autorewrite with zlen; simpl; autorewrite with zlen; lia.
Qed.

Lemma read_serialize_entry pre key value post :
  entry_ok key value →
  read_entry (pre ++ serialize_entry key value ++ post) (zlen pre) =
    Ok (entry_ref key value, zlen pre + zlen (serialize_entry key value)).
Proof.
intros (Hr & Hk & Hv). rewrite serialize_entry_len by done.
set (vbytes := default [] (value_view value)) in *.
assert (Hser : serialize_entry key value = (match value with Data _ => x00 | Tombstone => x01 end) ::
  ck_realm key ++ to_le 4 (zlen (ck_key key)) ++ ck_key key ++ to_le 4 (zlen vbytes) ++ vbytes).
{ unfold serialize_entry, vbytes. destruct value; simpl; [done|]. by rewrite app_nil_r. }
rewrite Hser. set (ty := match value with Data _ => x00 | Tombstone => x01 end).
pose proof (zlen_nonneg (ck_key key)). pose proof (zlen_nonneg vbytes). pose proof (zlen_nonneg pre).
unfold read_entry, len_at. cbn [app]. rewrite at_mid. cbn [ok_or mbind outcome_bind].
set (body := _ ++ post).
assert (Hdata : pre ++ ty :: body = (pre ++ [ty]) ++ ck_realm key ++ to_le 4 (zlen (ck_key key)) ++
  ck_key key ++ to_le 4 (zlen vbytes) ++ vbytes ++ post).
{ unfold body. by rewrite <-!app_assoc. }
rewrite Hdata. assert (Hp : zlen (pre ++ [ty]) = zlen pre + 1) by zlia. revert Hp.
generalize (pre ++ [ty]). intros pre' Hp.
replace (slice (zlen pre + 1) _ _) with (Some (ck_realm key)) by (by slice_pieces).
cbn [ok_or mbind outcome_bind].
replace (slice (zlen pre + 1 + 16) (zlen pre + 1 + 16 + 4) _) with (Some (to_le 4 (zlen (ck_key key))))
  by (by slice_pieces).
cbn [fmap option_fmap option_map ok_or mbind outcome_bind]. rewrite from_to_le4 by lia.
replace (slice (zlen pre + 1 + 16 + 4) _ _) with (Some (ck_key key)) by (by slice_pieces).
cbn [ok_or mbind outcome_bind].
replace (slice (zlen pre + 1 + 16 + 4 + zlen (ck_key key)) (zlen pre + 1 + 16 + 4 + zlen (ck_key key) + 4) _)
  with (Some (to_le 4 (zlen vbytes))) by (by slice_pieces).
cbn [fmap option_fmap option_map ok_or mbind outcome_bind]. rewrite from_to_le4 by lia.
replace (slice (zlen pre + 1 + 16 + 4 + zlen (ck_key key) + 4) _ _) with (Some vbytes) by (by slice_pieces).
cbn [ok_or mbind outcome_bind]. unfold entry_ref, ty, vbytes. destruct value; simpl; do 2 f_equal; lia.
Qed.

(** On any bytes, an entry ends inside the text and takes its minimal length. *)
Lemma read_entry_total data pos :
  0 <= pos → no_panic (read_entry data pos) ∧
  ∀ e p, read_entry data pos = Ok (e, p) → pos + SST_MIN_ENTRY_BYTES <= p <= zlen data.
Proof.
intros Hp. unfold read_entry, len_at, SST_MIN_ENTRY_BYTES. split.
- repeat first [apply no_panic_bind; [auto with hearth|intros ? _] | done].
  all: repeat case_decide; done.
- intros e p H. bind_inv H x1 Hty. bind_inv H x2 Hr. bind_inv H x3 Hkl. bind_inv H x4 Hk.
  bind_inv H x5 Hvl. bind_inv H x6 Hv. bind_inv H x7 Hv'. injection H as <- <-.
  destruct (slice (pos + 1 + 16) _ _) as [klb|] eqn:Ekl; [|done]. injection Hkl as <-.
  destruct (slice _ (_ + 4) _) as [vlb|] eqn:Evl in Hvl; [|done]. injection Hvl as <-.
  pose proof (from_le_bound klb). pose proof (from_le_bound vlb).
  destruct (slice (pos + 1 + 16 + 4 + from_le klb + 4) _ _) as [vv|] eqn:Ev in Hv; [|done].
  apply slice_Some in Ev. lia.
Qed.

Lemma read_write_footer_key pre key post :
  zlen (ck_realm key) = 16 → zlen (ck_key key) <= u32_max →
  read_footer_key (pre ++ write_footer_key key ++ post) (zlen pre) =
    Ok (key, zlen pre + zlen (write_footer_key key)).
Proof.
intros Hr Hk. pose proof (zlen_nonneg (ck_key key)). pose proof (zlen_nonneg post).
unfold read_footer_key, write_footer_key, index_range, try_into.
destruct (Z.ltb_spec (zlen (pre ++ (ck_realm key ++ to_le 4 (zlen (ck_key key)) ++ ck_key key) ++ post)) (zlen pre + 20));
  [autorewrite with zlen in *; lia|].
replace (slice (zlen pre) _ _) with (Some (ck_realm key)) by (by slice_pieces).
cbn [mbind outcome_bind]. rewrite Hr. cbn [Z.eqb Pos.eqb mbind outcome_bind].
replace (slice (zlen pre + 16) _ _) with (Some (to_le 4 (zlen (ck_key key)))) by (by slice_pieces).
cbn [mbind outcome_bind]. rewrite zlen_to_le. change (Z.of_nat 4 =? 4) with true. cbn [mbind outcome_bind].
rewrite from_to_le4 by lia.
destruct (Z.ltb_spec (zlen (pre ++ (ck_realm key ++ to_le 4 (zlen (ck_key key)) ++ ck_key key) ++ post))
  (zlen pre + 20 + zlen (ck_key key))); [autorewrite with zlen in *; lia|].
replace (slice (zlen pre + 20) _ _) with (Some (ck_key key)) by (by slice_pieces).
cbn [mbind outcome_bind]. destruct key as [r k]. simpl in *. do 2 f_equal. autorewrite with zlen. lia.
Qed.

Definition handle_ok (h : BlockHandle) : Prop :=
  0 <= bh_file_offset h <= u64_max ∧ 0 <= bh_ciphertext_len h <= u32_max ∧
  0 <= bh_plaintext_len h <= u32_max ∧ 0 <= bh_ordinal h <= u32_max.

Lemma handle_write_len h : zlen (handle_write h) = HANDLE_BYTES.
Proof. unfold handle_write. by autorewrite with zlen. Qed.

Lemma read_write_handle pre h post :
  handle_ok h → handle_read (pre ++ handle_write h ++ post) (zlen pre) = Some h.
Proof.
intros (H1 & H2 & H3 & H4). unfold handle_read. pose proof (handle_write_len h).
replace (slice (zlen pre) _ _) with (Some (handle_write h)) by (by slice_pieces). cbn [mbind option_bind].
unfold handle_write. rewrite <-(app_nil_r (to_le 4 (bh_ordinal h))).
replace (slice 0 8 _) with (Some (to_le 8 (bh_file_offset h))) by (by slice_pieces). cbn [mbind option_bind].
replace (slice 8 12 _) with (Some (to_le 4 (bh_ciphertext_len h))) by (by slice_pieces). cbn [mbind option_bind].
replace (slice 12 16 _) with (Some (to_le 4 (bh_plaintext_len h))) by (by slice_pieces). cbn [mbind option_bind].
replace (slice 16 20 _) with (Some (to_le 4 (bh_ordinal h))) by (by slice_pieces). cbn [mbind option_bind].
rewrite from_to_le8, !from_to_le4 by done. by destruct h.
Qed.

Definition index_item_ok (p : CompositeKey * BlockHandle) : Prop :=
  zlen (ck_realm p.1) = 16 ∧ zlen (ck_key p.1) <= u32_max ∧ handle_ok p.2.

Lemma write_index_entry_len first h :
  zlen (ck_realm first) = 16 → zlen (write_index_entry first h) = 40 + zlen (ck_key first).
Proof.
intros Hr. unfold write_index_entry, write_footer_key. autorewrite with zlen. rewrite handle_write_len.
unfold HANDLE_BYTES. lia.
Qed.

Lemma read_write_index_entry pre first h post :
  index_item_ok (first, h) →
  read_index_entry (pre ++ write_index_entry first h ++ post) (zlen pre) =
    Ok (MkIndexEntry (ck_realm first) (ck_key first) h, zlen pre + zlen (write_index_entry first h)).
Proof.
intros (Hr & Hk & Hh). simpl in *. rewrite write_index_entry_len by done.
pose proof (zlen_nonneg (ck_key first)). pose proof (handle_write_len h) as Hlh.
unfold read_index_entry, write_index_entry, write_footer_key. rewrite <-!app_assoc.
replace (slice (zlen pre) _ _) with (Some (ck_realm first)) by (by slice_pieces).
cbn [ok_or mbind outcome_bind].
replace (slice (zlen pre + 16) _ _) with (Some (to_le 4 (zlen (ck_key first)))) by (by slice_pieces).
cbn [fmap option_fmap option_map ok_or mbind outcome_bind]. rewrite from_to_le4 by lia.
replace (slice (zlen pre + 20) _ _) with (Some (ck_key first)) by (by slice_pieces).
cbn [ok_or mbind outcome_bind].
replace (handle_read _ _) with (Some h).
2: { set (pre' := pre ++ ck_realm first ++ to_le 4 (zlen (ck_key first)) ++ ck_key first).
  assert (Hz : zlen pre + 20 + zlen (ck_key first) = zlen pre').
  { unfold pre'. autorewrite with zlen. rewrite Hr. lia. }
  rewrite Hz. replace (pre ++ _) with (pre' ++ handle_write h ++ post).
  - symmetry. by apply read_write_handle.
  - unfold pre'. by rewrite <-!app_assoc. }
cbn [ok_or mbind outcome_bind]. unfold HANDLE_BYTES. do 2 f_equal. lia.
Qed.

Lemma handle_read_total data pos h : handle_read data pos = Some h → 0 <= pos ∧ pos + HANDLE_BYTES <= zlen data.
Proof.
unfold handle_read. destruct (slice pos _ data) as [bytes|] eqn:E; [|done]. intros _.
apply slice_Some in E. lia.
Qed.

Lemma read_index_entry_total data pos :
  0 <= pos → no_panic (read_index_entry data pos) ∧
  ∀ e p, read_index_entry data pos = Ok (e, p) → pos + 40 <= p <= zlen data.
Proof.
intros Hp. unfold read_index_entry. split.
- repeat first [apply no_panic_bind; [auto with hearth|intros ? _] | done].
- intros e p H. bind_inv H x1 H1. bind_inv H x2 H2. bind_inv H x3 H3. bind_inv H x4 H4. injection H as <- <-.
  destruct (slice (pos + 16) _ _) as [klb|] eqn:Ekl; [|done]. injection H2 as <-.
  pose proof (from_le_bound klb).
  destruct (handle_read data _) as [h|] eqn:E; [|done]. apply handle_read_total in E.
  unfold HANDLE_BYTES in *. lia.
Qed.

(** ** Decoding a block *)

(** The starts of encodings of the given lengths, laid end to end. *)
Fixpoint starts (pos : Z) (lens : list Z) : list Z :=
  match lens with [] => [] | n :: lens' => pos :: starts (pos + n) lens' end.

Lemma starts_lookup pos lens i n :
  lens !! i = Some n → starts pos lens !! i = Some (pos + foldr Z.add 0 (take i lens)).
Proof.
revert pos i. induction lens as [|m lens IH]; intros pos [|i] Hi; simplify_eq/=; [f_equal; lia|].
rewrite (IH _ _ Hi). f_equal. lia.
Qed.

Lemma length_starts pos lens : length (starts pos lens) = length lens.
Proof. revert pos. induction lens; intros; simpl; auto. Qed.

Section decode.
Context {A : Type} (enc : A → list byte) (ok : A → Prop) (read : list byte → Z → res Z).
Hypothesis read_enc : ∀ pre x post, ok x → read (pre ++ enc x ++ post) (zlen pre) = Ok (zlen pre + zlen (enc x)).
Hypothesis enc_pos : ∀ x, ok x → 0 < zlen (enc x).

Definition encs (xs : list A) : list byte := mjoin (enc <$> xs).
Definition lens (xs : list A) : list Z := (λ x, zlen (enc x)) <$> xs.

Lemma encs_app xs ys : encs (xs ++ ys) = encs xs ++ encs ys.
Proof. unfold encs. by rewrite fmap_app, join_app. Qed.

Lemma encs_cons x xs : encs (x :: xs) = enc x ++ encs xs.
Proof. done. Qed.

Lemma zlen_encs xs : zlen (encs xs) = foldr Z.add 0 (lens xs).
Proof. unfold lens. induction xs as [|x xs IH]; [done|]. rewrite encs_cons, zlen_app, IH. done. Qed.

Lemma zlen_encs_ge xs : Forall ok xs → zlen xs <= zlen (encs xs).
Proof.
induction 1 as [|x xs Hx _ IH]; [done|]. rewrite encs_cons, zlen_app, zlen_cons.
pose proof (enc_pos x Hx). lia.
Qed.

Lemma decode_offsets_encs fuel msg pre xs offs :
  Forall ok xs → zlen xs <= Z.of_nat fuel → zlen (pre ++ encs xs) <= u32_max + 1 →
  decode_offsets fuel msg read (pre ++ encs xs) (zlen pre) offs =
    Ok (offs ++ starts (zlen pre) (lens xs)).
Proof.
intros Hok. revert fuel pre offs. induction Hok as [|x xs Hx Hok IH]; intros fuel pre offs Hf Hl.
- unfold encs. simpl. rewrite app_nil_r. rewrite app_nil_r.
  destruct fuel; simpl; destruct (Z.ltb_spec (zlen pre) (zlen pre)); try lia; done.
- rewrite zlen_cons in Hf. pose proof (zlen_nonneg xs). pose proof (enc_pos x Hx).
  rewrite encs_cons in *. rewrite !zlen_app in Hl. pose proof (zlen_nonneg (encs xs)).
  destruct fuel as [|fuel]; [lia|]. cbn [decode_offsets].
  destruct (Z.ltb_spec (zlen pre) (zlen (pre ++ enc x ++ encs xs))); [|autorewrite with zlen in *; lia].
  destruct (Z.ltb_spec u32_max (zlen pre)); [lia|].
  rewrite read_enc by done. cbn [mbind outcome_bind].
  replace (pre ++ enc x ++ encs xs) with ((pre ++ enc x) ++ encs xs) by (by rewrite <-app_assoc).
  rewrite <-zlen_app. rewrite IH; [|lia|rewrite !zlen_app; lia].
  unfold lens. rewrite fmap_cons. cbn [starts]. rewrite zlen_app. by rewrite <-app_assoc.
Qed.

(** The start of each encoding, and the text around it. *)
Lemma starts_split xs i x :
  xs !! i = Some x → ∃ pre post, encs xs = pre ++ enc x ++ post ∧
    starts 0 (lens xs) !! i = Some (zlen pre).
Proof.
intros Hi. exists (encs (take i xs)), (encs (drop (S i) xs)). split.
- rewrite <-(take_drop_middle xs i x Hi) at 1. by rewrite encs_app, encs_cons.
- erewrite starts_lookup by (unfold lens; by rewrite list_lookup_fmap, Hi).
  rewrite zlen_encs. unfold lens. by rewrite fmap_take.
Qed.

End decode.

(** ** Searching a block *)

(** The number of leading elements that satisfy [f]. *)
Fixpoint count_while {A} (f : A → bool) (l : list A) : nat :=
  match l with [] => 0%nat | x :: l' => if f x then S (count_while f l') else 0%nat end.

Lemma count_while_le {A} (f : A → bool) l : (count_while f l <= length l)%nat.
Proof. induction l as [|x l IH]; simpl; [lia|]. destruct (f x); lia. Qed.

Lemma count_while_none {A} (f : A → bool) l : Forall (λ x, f x = false) l → count_while f l = 0%nat.
Proof. destruct 1 as [|x l Hx _]; simpl; [done|]. by rewrite Hx. Qed.

Lemma count_while_true {A} (f : A → bool) l i x :
  (i < count_while f l)%nat → l !! i = Some x → f x = true.
Proof.
revert i. induction l as [|y l IH]; intros i Hi Hx; simpl in *; [done|]. destruct (f y) eqn:E; [|lia].
destruct i as [|i]; simplify_eq/=; [done|]. apply (IH i); [lia|done].
Qed.

Lemma count_while_next {A} (f : A → bool) l x : l !! count_while f l = Some x → f x = false.
Proof. induction l as [|y l IH]; simpl; [done|]. destruct (f y) eqn:E; [done|]. by intros [= <-]. Qed.

(** On a sorted list, a predicate that holds below what it holds for holds exactly
up to that number. *)
Lemma count_while_sorted {A} (R : relation A) (f : A → bool) l i x :
  StronglySorted R l → (∀ x y, R x y → f y = true → f x = true) →
  l !! i = Some x → f x = bool_decide (i < count_while f l)%nat.
Proof.
intros Hs Hd. revert i x. induction Hs as [|y l Hs IH Hf]; intros i x Hi; [done|].
assert (Hno : f y = false → ∀ x, x ∈ l → f x = false).
{ intros Hy z Hz. destruct (f z) eqn:E; [|done]. rewrite Forall_forall in Hf.
  rewrite (Hd y z) in Hy; [done|by apply Hf|done]. }
simpl. destruct i as [|i]; simplify_eq/=.
- destruct (f x); [by rewrite bool_decide_eq_true_2 by lia|by rewrite bool_decide_eq_false_2 by lia].
- destruct (f y) eqn:Ey.
  + rewrite (IH i x Hi). apply bool_decide_ext. lia.
  + rewrite (Hno eq_refl x) by (by eapply list_elem_of_lookup_2). by rewrite bool_decide_eq_false_2 by lia.
Qed.

Lemma bisect_spec p m n lo hi fuel :
  (∀ i, 0 <= i < m → p i = true) → (∀ i, m <= i < n → p i = false) →
  0 <= lo <= m → m <= hi <= n → hi - lo <= Z.of_nat fuel → bisect fuel p lo hi = m.
Proof.
intros Ht Hf. revert lo hi. induction fuel as [|fuel IH]; intros lo hi Hlo Hhi Hfu; simpl; [lia|].
destruct (Z.ltb_spec lo hi); [|lia].
pose proof (Z.div_lt_upper_bound (hi - lo) 2 (hi - lo)). pose proof (Z.div_pos (hi - lo) 2).
set (mid := lo + (hi - lo) / 2). destruct (p mid) eqn:E.
- apply IH; try lia. destruct (Z.le_gt_cases m mid); [|lia]. rewrite Hf in E by lia. done.
- apply IH; try lia. destruct (Z.le_gt_cases m mid); [lia|]. rewrite Ht in E by lia. done.
Qed.

(** A bisection over a list with a predicate on its elements. *)
Lemma bisect_list {A} (R : relation A) (f : A → bool) (g : Z → bool) l fuel :
  StronglySorted R l → (∀ x y, R x y → f y = true → f x = true) →
  (∀ i, 0 <= i < zlen l → g i = match at_ i l with Some x => f x | None => false end) →
  zlen l <= Z.of_nat fuel →
  bisect fuel g 0 (zlen l) = Z.of_nat (count_while f l).
Proof.
intros Hs Hd Hg Hfu. pose proof (count_while_le f l) as Hc. unfold zlen in *.
assert (Hp : ∀ i, 0 <= i < zlen l → g i = bool_decide (Z.to_nat i < count_while f l)%nat).
{ intros i Hi. rewrite Hg by done. unfold at_. destruct (Z.leb_spec 0 i); [|lia].
  destruct (l !! Z.to_nat i) as [x|] eqn:E; [by eapply count_while_sorted|].
  apply lookup_ge_None in E. unfold zlen in Hi. lia. }
apply (bisect_spec _ _ (zlen l)); unfold zlen in *; try lia.
- intros i Hi. rewrite Hp by lia. apply bool_decide_eq_true_2. lia.
- intros i Hi. rewrite Hp by lia. apply bool_decide_eq_false_2. lia.
Qed.

Abbreviation Entry := (CompositeKey * MemtableValue)%type.

Definition ser_entry (p : Entry) : list byte := serialize_entry p.1 p.2.
Definition entry_wf (p : Entry) : Prop := entry_ok p.1 p.2.
Definition ser_entries (es : list Entry) : list byte := encs ser_entry es.
Definition to_ref (p : Entry) : EntryRef := entry_ref p.1 p.2.

(** The decoded block of a run of entries. *)
Definition data_block_of (es : list Entry) : DataBlock :=
  MkDataBlock (ser_entries es) (starts 0 (lens ser_entry es)).

Lemma ser_entry_pos p : entry_wf p → 0 < zlen (ser_entry p).
Proof.
intros (Hr & _). unfold ser_entry. rewrite serialize_entry_len by done.
pose proof (zlen_nonneg (ck_key p.1)). pose proof (zlen_nonneg (default [] (value_view p.2))). lia.
Qed.

Lemma entry_end_ser pre p post :
  entry_wf p → entry_end (pre ++ ser_entry p ++ post) (zlen pre) = Ok (zlen pre + zlen (ser_entry p)).
Proof. intros Hp. unfold entry_end, ser_entry. by rewrite read_serialize_entry. Qed.

Lemma data_decode_ser es :
  Forall entry_wf es → zlen (ser_entries es) <= u32_max + 1 →
  data_decode (ser_entries es) = Ok (data_block_of es).
Proof.
intros Hok Hl. unfold data_decode. pose proof (zlen_encs_ge ser_entry entry_wf ser_entry_pos es Hok) as Hg.
pose proof (decode_offsets_encs ser_entry entry_wf entry_end entry_end_ser ser_entry_pos
  (length (ser_entries es)) "v3 block larger than 4 GiB" [] es [] Hok) as Hd.
cbn [app] in Hd. rewrite zlen_nil in Hd. unfold ser_entries in *.
rewrite Hd; [done| |done]. unfold zlen in Hg. unfold zlen. lia.
Qed.

Lemma data_entry_of es i :
  Forall entry_wf es → data_entry (data_block_of es) i = to_ref <$> at_ i es.
Proof.
intros Hok. unfold data_entry, data_block_of, at_. cbn [db_offsets db_plaintext].
destruct (Z.leb_spec 0 i); [|done]. destruct (es !! Z.to_nat i) as [p|] eqn:E.
- destruct (starts_split ser_entry es _ _ E) as (pre & post & Hs & Hst). rewrite Hst.
  cbn [mbind option_bind]. unfold ser_entries. rewrite Hs. unfold ser_entry at 1.
  assert (entry_wf p) by (by eapply Forall_lookup_1). by rewrite read_serialize_entry.
- apply lookup_ge_None in E. rewrite (proj2 (lookup_ge_None (starts 0 (lens ser_entry es)) _)); [done|].
  rewrite length_starts. unfold lens. by rewrite length_fmap.
Qed.

Lemma data_len_of es : data_len (data_block_of es) = zlen es.
Proof. unfold data_len, data_block_of, zlen. simpl. rewrite length_starts. unfold lens. by rewrite length_fmap. Qed.

Lemma omap_seqZ {A B} (g : Z → option B) (h : A → B) (l : list A) :
  (∀ i, g i = h <$> at_ i l) → omap g (seqZ 0 (zlen l)) = h <$> l.
Proof.
revert g. induction l as [|x l IH] using rev_ind; intros g Hg; [done|].
rewrite zlen_app. change (zlen [x]) with 1. rewrite seqZ_app by (pose proof (zlen_nonneg l); lia).
rewrite omap_app, fmap_app, Z.add_0_l. pose proof (zlen_nonneg l). f_equal.
- transitivity (omap (λ i, h <$> at_ i l) (seqZ 0 (zlen l))); [|by apply IH].
  assert (Hext : ∀ i, i ∈ seqZ 0 (zlen l) → g i = h <$> at_ i l).
  { intros i Hi%elem_of_seqZ. rewrite Hg. f_equal. unfold at_. destruct (Z.leb_spec 0 i); [|lia].
    apply lookup_app_l. unfold zlen in *. lia. }
  apply list_omap_ext, Forall_Forall2_diag, Forall_forall. intros i Hi. by apply Hext.
- change (seqZ (zlen l) 1) with [zlen l]. simpl. rewrite Hg, at_mid. done.
Qed.

Lemma data_iter_of es : Forall entry_wf es → data_iter (data_block_of es) = to_ref <$> es.
Proof.
intros Hok. unfold data_iter. rewrite data_len_of. apply omap_seqZ. intros i. by apply data_entry_of.
Qed.

Lemma bt_sorted_pairs {K V} `{KeyOrder K} (m : list (K * V)) :
  bt_sorted m → StronglySorted (λ p q, lexico p.1 q.1) m.
Proof.
unfold bt_sorted. induction m as [|p m IH]; intros Hs; [constructor|].
rewrite fmap_cons in Hs. apply StronglySorted_cons in Hs as [Hf Hs]. constructor; [by apply IH|].
apply Forall_forall. intros q Hq. eapply (proj1 (Forall_forall _ _)); [exact Hf|].
apply list_elem_of_fmap. by exists q.
Qed.

Section sorted_search.
Context {K V : Type} `{KeyOrder K}.
Implicit Types (m : list (K * V)).

(** The entry at the lower bound decides the lookup. *)
Lemma bt_get_lower_bound k m :
  bt_sorted m →
  bt_get k m = match m !! count_while (λ p, ord_lt p.1 k) m with
               | Some p => if ord_eq p.1 k then Some p.2 else None
               | None => None
               end.
Proof.
intros Hs%bt_sorted_pairs. induction Hs as [|[k1 v1] m Hs IH Hf]; [done|]. simpl.
unfold ord_lt at 1. pose proof (ord_cmp_spec k k1) as Hc. destruct (ord_cmp k k1).
- subst. rewrite ord_cmp_refl. simpl. by rewrite ord_eq_refl.
- rewrite (ord_cmp_Gt k1 k) by done. simpl. rewrite ord_eq_ne.
  + apply bt_get_notin. intros (p & -> & Hp)%list_elem_of_fmap. rewrite Forall_forall in Hf.
    apply Hf in Hp. simpl in Hp. apply (irreflexivity lexico k1). by transitivity p.1.
  + intros ->. by apply (irreflexivity lexico k).
- rewrite (ord_cmp_Lt k1 k) by done. simpl. apply IH.
Qed.

Lemma ord_lt_mono k (p q : K * V) : lexico p.1 q.1 → ord_lt q.1 k = true → ord_lt p.1 k = true.
Proof. rewrite !ord_lt_iff. intros ??. by transitivity q.1. Qed.

Lemma ord_le_iff a b : ord_le a b = true ↔ a = b ∨ lexico a b.
Proof.
rewrite ord_le_lt, negb_true_iff, ord_lt_false. split; intros [->|?]; auto.
Qed.

Lemma bt_get_app_low k m1 m2 :
  (∀ p, p ∈ m2 → lexico k p.1) → bt_get k (m1 ++ m2) = bt_get k m1.
Proof.
intros Hlt. induction m1 as [|[k1 v1] m1 IH]; simpl; [|by rewrite IH].
apply bt_get_notin. intros (p & -> & Hp)%list_elem_of_fmap. apply Hlt in Hp. by apply (irreflexivity lexico p.1).
Qed.

Lemma bt_get_app_high k m1 m2 :
  (∀ p, p ∈ m1 → lexico p.1 k) → bt_get k (m1 ++ m2) = bt_get k m2.
Proof.
intros Hlt. induction m1 as [|[k1 v1] m1 IH]; simpl; [done|].
assert (lexico k1 k) by (apply (Hlt (k1, v1)); set_solver).
rewrite (ord_cmp_Gt k k1) by done. apply IH. set_solver.
Qed.

Lemma sorted_app_lt m1 m2 p q : bt_sorted (m1 ++ m2) → p ∈ m1 → q ∈ m2 → lexico p.1 q.1.
Proof.
intros Hs%bt_sorted_pairs. induction m1 as [|x m1 IH]; simpl in Hs; [by intros ?%elem_of_nil|].
apply StronglySorted_cons in Hs as [Hf Hs]. intros [->|Hp]%elem_of_cons Hq; [|by apply IH].
rewrite Forall_forall in Hf. apply Hf. set_solver.
Qed.

Lemma bt_sorted_app_inv m1 m2 : bt_sorted (m1 ++ m2) → bt_sorted m1 ∧ bt_sorted m2.
Proof.
unfold bt_sorted. rewrite fmap_app. intros Hs. induction m1 as [|x m1 IH]; [split; [constructor|done]|].
rewrite fmap_cons in *. simpl in Hs. apply StronglySorted_cons in Hs as [Hf Hs]. destruct (IH Hs) as [H1 H2].
split; [|done]. constructor; [done|]. apply Forall_app in Hf. tauto.
Qed.

(** ** Runs

A sorted sequence cut into non-empty runs, each known by its first key. *)
Definition first_of (c : list (K * V)) (k : K) : Prop := ∃ v rest, c = (k, v) :: rest.

Lemma first_of_least c k k' v : first_of c k → bt_sorted c → (k', v) ∈ c → ord_le k k' = true.
Proof.
intros (v0 & rest & ->) Hs%bt_sorted_pairs Hin. apply ord_le_iff.
apply StronglySorted_cons in Hs as [Hf _]. apply elem_of_cons in Hin as [[= -> ->]|Hin]; [auto|].
rewrite Forall_forall in Hf. apply Hf in Hin. auto.
Qed.

(** The run that may hold a key: the last one whose first key is at or before it. *)
Lemma bt_get_runs (cs : list (list (K * V))) (firsts : list K) k :
  Forall2 first_of cs firsts → bt_sorted (mjoin cs) →
  bt_get k (mjoin cs) =
    match count_while (λ f, ord_le f k) firsts with
    | O => None
    | S n => match cs !! n with Some c => bt_get k c | None => None end
    end.
Proof.
intros Hf. induction Hf as [|c f cs firsts Hc Hf IH]; [done|]. simpl mjoin. intros Hs.
pose proof (bt_sorted_app_inv _ _ Hs) as [Hsc Hsr]. cbn [count_while].
destruct (ord_le f k) eqn:Ef.
- specialize (IH Hsr). destruct (count_while (λ f, ord_le f k) firsts) as [|n] eqn:En.
  + simpl. apply bt_get_app_low. intros p Hp. destruct Hf as [|c' f' cs' firsts' Hc' Hf']; [by apply elem_of_nil in Hp|].
    simpl in En. destruct (ord_le f' k) eqn:Ef'; [done|].
    assert (Hk : lexico k f') by (apply ord_lt_iff; rewrite ord_le_lt in Ef'; by destruct (ord_lt k f')).
    destruct Hc' as (v' & rest' & ->). simpl in Hp, Hsr.
    apply bt_sorted_pairs, StronglySorted_cons in Hsr as [Hf1 _].
    apply elem_of_cons in Hp as [->|Hp]; [done|]. rewrite Forall_forall in Hf1. apply Hf1 in Hp.
    by transitivity f'.
  + simpl. rewrite <-IH. apply bt_get_app_high. intros p Hp.
    destruct Hf as [|c' f' cs' firsts' Hc' Hf']; [done|]. simpl in En. destruct (ord_le f' k) eqn:Ef'; [|done].
    destruct Hc' as (v' & rest' & ->). assert (Hlt : lexico p.1 f').
    { apply (sorted_app_lt _ _ p (f', v') Hs Hp). simpl. set_solver. }
    apply ord_le_iff in Ef' as [->|?]; [done|by transitivity f'].
- destruct Hc as (v & rest & ->). apply bt_get_notin. intros (p & -> & Hp)%list_elem_of_fmap.
  simpl in Hs, Hp. apply bt_sorted_pairs, StronglySorted_cons in Hs as [Hf1 _].
  rewrite ord_le_lt in Ef. apply negb_false_iff, ord_lt_iff in Ef.
  apply elem_of_cons in Hp as [->|Hp]; [by apply (irreflexivity lexico f)|].
  rewrite Forall_forall in Hf1. apply Hf1 in Hp. simpl in Hp.
  apply (irreflexivity lexico p.1). by transitivity f.
Qed.

Lemma runs_firsts_sorted cs firsts :
  Forall2 first_of cs firsts → bt_sorted (mjoin cs) → StronglySorted lexico firsts.
Proof.
intros Hf. induction Hf as [|c f cs firsts Hc Hf IH]; [constructor|]. simpl mjoin. intros Hs.
constructor; [apply IH; by eapply bt_sorted_app_inv|].
apply Forall_forall. intros f' Hf'. destruct Hc as (v & rest & ->).
apply list_elem_of_lookup in Hf' as [i Hi]. destruct (Forall2_lookup_r _ _ _ _ _ Hf Hi) as (c' & Hc' & v' & rest' & ->).
change f with ((f, v).1). change f' with ((f', v').1). apply (sorted_app_lt _ _ (f, v) (f', v') Hs); [set_solver|].
apply list_elem_of_join. exists ((f', v') :: rest'). split; [set_solver|]. by eapply list_elem_of_lookup_2.
Qed.

Lemma runs_before cs firsts (m : nat) f p :
  Forall2 first_of cs firsts → bt_sorted (mjoin cs) → firsts !! m = Some f →
  p ∈ mjoin (take m cs) → lexico p.1 f.
Proof.
intros Hf Hs Hm Hp. destruct (Forall2_lookup_r _ _ _ _ _ Hf Hm) as (c & Hc & v & rest & ->).
rewrite <-(take_drop_middle cs m _ Hc), join_app in Hs.
change f with ((f, v).1). apply (sorted_app_lt _ _ p (f, v) Hs Hp). simpl. set_solver.
Qed.

Lemma runs_after cs firsts k p :
  Forall2 first_of cs firsts → bt_sorted (mjoin cs) →
  p ∈ mjoin (drop (count_while (λ f, ord_le f k) firsts) cs) → lexico k p.1.
Proof.
intros Hf Hs. set (m := count_while _ _). destruct (firsts !! m) as [f|] eqn:Em.
- destruct (Forall2_lookup_r _ _ _ _ _ Hf Em) as (c & Hc & v & rest & ->).
  apply (count_while_next (λ f, ord_le f k)) in Em. rewrite ord_le_lt in Em. apply negb_false_iff, ord_lt_iff in Em.
  rewrite <-(take_drop m cs), join_app in Hs. apply bt_sorted_app_inv in Hs as [_ Hs].
  intros Hp. destruct p as [pk pv]. simpl.
  assert (Hfirst : first_of (mjoin (drop m cs)) f) by (rewrite (drop_S _ _ _ Hc); by eexists _, _).
  pose proof (first_of_least _ _ _ _ Hfirst Hs Hp) as Hle. apply ord_le_iff in Hle as [->|?]; [done|by transitivity f].
- apply lookup_ge_None in Em. apply Forall2_length in Hf. rewrite drop_ge by lia. by intros ?%elem_of_nil.
Qed.

Lemma ord_le_mono k (x y : K) : lexico x y → ord_le y k = true → ord_le x k = true.
Proof. rewrite !ord_le_iff. intros Hxy [->|?]; [auto|]. right. by transitivity y. Qed.

End sorted_search.

Lemma lower_bound_of es realm key :
  Forall entry_wf es → bt_sorted es →
  lower_bound (data_block_of es) realm key =
    Z.of_nat (count_while (λ p, ord_lt p.1 (CKey realm key)) es).
Proof.
intros Hok Hs. unfold lower_bound. rewrite data_len_of.
apply (bisect_list (λ p q, lexico p.1 q.1)); [by apply bt_sorted_pairs|intros p q; apply ord_lt_mono| |].
- intros i Hi. rewrite data_entry_of by done. destruct (at_ i es) as [[[r k] v]|]; done.
- pose proof (data_len_of es) as Hl. unfold data_len in Hl. unfold zlen in *. lia.
Qed.

Lemma data_find_of es realm key :
  Forall entry_wf es → bt_sorted es →
  memtable_value <$> data_find (data_block_of es) realm key = bt_get (CKey realm key) es.
Proof.
intros Hok Hs. unfold data_find. rewrite lower_bound_of, data_entry_of by done.
rewrite (bt_get_lower_bound _ _ Hs). unfold at_.
destruct (Z.leb_spec 0 (Z.of_nat (count_while (λ p, ord_lt p.1 (CKey realm key)) es))); [|lia].
rewrite Nat2Z.id. destruct (es !! _) as [[[r k] v]|]; [|done]. cbn [fmap option_fmap option_map].
unfold cmp_to, ord_eq, is_eq, to_ref, entry_ref, entry_key. simpl.
destruct (ord_cmp (CKey r k) (CKey realm key)); [|done..]. by destruct v.
Qed.

(** ** Index blocks *)

Abbreviation IndexItem := (CompositeKey * BlockHandle)%type.

Definition ser_item (p : IndexItem) : list byte := write_index_entry p.1 p.2.
Definition index_block_of (items : list IndexItem) : IndexBlock :=
  MkIndexBlock (encs ser_item items) (starts 0 (lens ser_item items)).
Definition to_index_ref (p : IndexItem) : IndexEntryRef :=
  MkIndexEntry (ck_realm p.1) (ck_key p.1) p.2.

Lemma ser_item_pos p : index_item_ok p → 0 < zlen (ser_item p).
Proof.
intros (Hr & _). unfold ser_item. rewrite write_index_entry_len by done. pose proof (zlen_nonneg (ck_key p.1)). lia.
Qed.

Lemma index_entry_end_ser pre p post :
  index_item_ok p → index_entry_end (pre ++ ser_item p ++ post) (zlen pre) = Ok (zlen pre + zlen (ser_item p)).
Proof. intros Hp. unfold index_entry_end, ser_item. destruct p. simpl. by rewrite read_write_index_entry. Qed.

Lemma index_decode_ser items :
  Forall index_item_ok items → zlen (encs ser_item items) <= u32_max + 1 →
  index_decode (encs ser_item items) = Ok (index_block_of items).
Proof.
intros Hok Hl. unfold index_decode. pose proof (zlen_encs_ge ser_item index_item_ok ser_item_pos items Hok) as Hg.
pose proof (decode_offsets_encs ser_item index_item_ok index_entry_end index_entry_end_ser ser_item_pos
  (length (encs ser_item items)) "v4 index block larger than 4 GiB" [] items [] Hok) as Hd.
cbn [app] in Hd. rewrite zlen_nil in Hd.
rewrite Hd; [done| |done]. unfold zlen in Hg. unfold zlen. lia.
Qed.

Lemma index_entry_of items i :
  Forall index_item_ok items → index_entry (index_block_of items) i = to_index_ref <$> at_ i items.
Proof.
intros Hok. unfold index_entry, index_block_of, at_. cbn [ib_offsets ib_plaintext].
destruct (Z.leb_spec 0 i); [|done]. destruct (items !! Z.to_nat i) as [p|] eqn:E.
- destruct (starts_split ser_item items _ _ E) as (pre & post & Hs & Hst). rewrite Hst.
  cbn [mbind option_bind]. rewrite Hs. unfold ser_item at 1.
  assert (index_item_ok p) by (by eapply Forall_lookup_1). destruct p. by rewrite read_write_index_entry.
- apply lookup_ge_None in E. rewrite (proj2 (lookup_ge_None (starts 0 (lens ser_item items)) _)); [done|].
  rewrite length_starts. unfold lens. by rewrite length_fmap.
Qed.

Lemma index_len_of items : index_len (index_block_of items) = zlen items.
Proof. unfold index_len, index_block_of, zlen. simpl. rewrite length_starts. unfold lens. by rewrite length_fmap. Qed.

Lemma position_for_of items realm key :
  Forall index_item_ok items → StronglySorted lexico items.*1 →
  position_for (index_block_of items) realm key =
    checked_pred (Z.of_nat (count_while (λ f, ord_le f (CKey realm key)) items.*1)).
Proof.
intros Hok Hs. unfold position_for. rewrite index_len_of. f_equal.
replace (zlen items) with (zlen items.*1) by (unfold zlen; by rewrite length_fmap).
apply (bisect_list lexico); [done|intros x y; apply ord_le_mono| |].
- intros i Hi. rewrite index_entry_of by done. unfold at_. destruct (Z.leb_spec 0 i); [|done].
  rewrite list_lookup_fmap. destruct (items !! Z.to_nat i) as [[[r k] h]|]; done.
- pose proof (index_len_of items) as Hl. unfold index_len in Hl. unfold zlen in *. rewrite length_fmap. lia.
Qed.
