(* ===== verification/SstWriter.v ===== *)
(** * Writing an SST file

[V4BodyWriter] and the two write paths of [storage/sst.rs]: entries are packed
into sealed data blocks, data blocks into partitions with their own filter and
index block, and the footer lists the partitions. The file is a byte string;
[sync_all] and [sync_data] change no byte of it. *)
From stdpp Require Import base list gmap strings sorting lexico.
From Stdlib Require Import Strings.Byte ZArith Lia.
From S2P Require Import Prelude OrdMap StorageTypes Crypto Bloom SstCodec.

Open Scope Z_scope.

Definition SST_MAGIC : list byte := [x48; x53; x53; x54].
Definition SST_MAGIC_V2 : list byte := [x48; x53; x53; x32].
Definition SST_MAGIC_V3 : list byte := [x48; x53; x53; x33].
Definition SST_MAGIC_V4 : list byte := [x48; x53; x53; x34].
Definition BASE_HEADER_SIZE : Z := 12.
Definition TOTAL_HEADER_SIZE : Z := BASE_HEADER_SIZE + ENCRYPTION_HEADER_SIZE.
Definition TRAILER_SIZE : Z := 12.
Definition WRITE_CHUNK_BYTES : Z := 256 * 1024.
Definition SYNC_EVERY_BYTES : Z := 4 * 1024 * 1024.

Record SstMetadata := MkSstMetadata { sm_entry_count : Z; sm_file_size : Z }.

Record V4BodyWriter := MkWriter {
  vw_file : list byte;
  vw_sst_number : Z;
  vw_dek : list byte;
  vw_file_offset : Z;
  vw_pending : list byte;
  vw_unsynced : Z;
  vw_next_ordinal : Z;
  vw_block : list byte;
  vw_block_first_key : option CompositeKey;
  vw_partition_index : list byte;
  vw_partition_first_key : option CompositeKey;
  vw_partition_hashes : list (Z * Z);
  vw_partitions : list byte;
  vw_partition_count : Z;
  vw_min_key : option CompositeKey;
  vw_max_key : option CompositeKey;
  vw_written : Z
}.

(** [Option::get_or_insert]-style: keep a key that is there. *)
Definition or_key (o : option CompositeKey) (k : CompositeKey) : option CompositeKey :=
  match o with Some k' => Some k' | None => Some k end.

Definition writer_start (enc_header : EncryptionHeader) (sst_number : Z) (dek : list byte)
  : V4BodyWriter :=
  MkWriter (repeat x00 12 ++ header_to_bytes enc_header) sst_number dek TOTAL_HEADER_SIZE
    [] 0 0 [] None [] None [] [] 0 None None 0.

(** Field updates of the writer, one per method below. *)
Definition with_sealed (w : V4BodyWriter) (file pending : list byte) (unsynced offset ordinal : Z)
  : V4BodyWriter :=
  MkWriter file (vw_sst_number w) (vw_dek w) offset pending unsynced ordinal (vw_block w)
    (vw_block_first_key w) (vw_partition_index w) (vw_partition_first_key w) (vw_partition_hashes w)
    (vw_partitions w) (vw_partition_count w) (vw_min_key w) (vw_max_key w) (vw_written w).

Definition with_block (w : V4BodyWriter) (block : list byte) (first : option CompositeKey)
    (index : list byte) : V4BodyWriter :=
  MkWriter (vw_file w) (vw_sst_number w) (vw_dek w) (vw_file_offset w) (vw_pending w) (vw_unsynced w)
    (vw_next_ordinal w) block first index (vw_partition_first_key w) (vw_partition_hashes w)
    (vw_partitions w) (vw_partition_count w) (vw_min_key w) (vw_max_key w) (vw_written w).

Definition with_partition (w : V4BodyWriter) (index : list byte) (first : option CompositeKey)
    (hashes : list (Z * Z)) (partitions : list byte) (count : Z) : V4BodyWriter :=
  MkWriter (vw_file w) (vw_sst_number w) (vw_dek w) (vw_file_offset w) (vw_pending w) (vw_unsynced w)
    (vw_next_ordinal w) (vw_block w) (vw_block_first_key w) index first hashes partitions count
    (vw_min_key w) (vw_max_key w) (vw_written w).

Section writer.
Context `{HA : Aead} `{HC : Crc32}.

Definition seal (w : V4BodyWriter) (plaintext : list byte) : res (BlockHandle * V4BodyWriter) :=
  let ordinal := vw_next_ordinal w in
  if ordinal =? SST_FOOTER_BLOCK_INDEX
  then Err (InvalidSstFormat "v4 writer: too many blocks for one file")
  else
    let too_large := InvalidSstFormat "v4 writer: block larger than 4 GiB" in
    let nonce := block_nonce (vw_sst_number w) ordinal in
    ct ← encrypt_section plaintext (vw_dek w) nonce nonce;
    if u32_max <? zlen ct then Err too_large
    else if u32_max <? zlen plaintext then Err too_large
    else
      let handle := MkHandle (vw_file_offset w) (zlen ct) (zlen plaintext) ordinal in
      let offset := sat_add_u64 (vw_file_offset w) (zlen ct) in
      let flush := negb (zlen (vw_pending w) =? 0) &&
                   (WRITE_CHUNK_BYTES <? zlen (vw_pending w) + zlen ct) in
      let '(file, pending, unsynced) :=
        if flush then
          let unsynced := vw_unsynced w + zlen (vw_pending w) in
          (vw_file w ++ vw_pending w, [], if SYNC_EVERY_BYTES <=? unsynced then 0 else unsynced)
        else (vw_file w, vw_pending w, vw_unsynced w) in
      Ok (handle, with_sealed w file (pending ++ ct) unsynced offset (ordinal + 1)).

Definition seal_partition (w : V4BodyWriter) : res V4BodyWriter :=
  match vw_partition_index w with
  | [] => Ok w
  | _ =>
      first_key ← ok_or (InvalidSstFormat "v4 writer: non-empty partition without a first key")
                    (vw_partition_first_key w);
      let filter := bloom_encode (from_hashes (vw_partition_hashes w)) in
      '(filter_handle, w1) ← seal w filter;
      '(index_handle, w2) ← seal w1 (vw_partition_index w1);
      let partitions := vw_partitions w2 ++ write_footer_key first_key ++
        handle_write index_handle ++ [x01] ++ handle_write filter_handle in
      if vw_partition_count w2 =? u32_max
      then Err (InvalidSstFormat "v4 writer: too many partitions for one file")
      else Ok (with_partition w2 [] None [] partitions (vw_partition_count w2 + 1))
  end.

Definition seal_data_block (w : V4BodyWriter) : res V4BodyWriter :=
  match vw_block w with
  | [] => Ok w
  | _ =>
      first_key ← ok_or (InvalidSstFormat "v4 writer: non-empty block without a first key")
                    (vw_block_first_key w);
      '(handle, w1) ← seal w (vw_block w);
      let w2 := with_block w1 [] None
        (vw_partition_index w1 ++ write_footer_key first_key ++ handle_write handle) in
      if INDEX_PARTITION_TARGET_BYTES <=? zlen (vw_partition_index w2)
      then seal_partition w2 else Ok w2
  end.

Definition push (w : V4BodyWriter) (key : CompositeKey) (value : MemtableValue) : res V4BodyWriter :=
  let w1 := MkWriter (vw_file w) (vw_sst_number w) (vw_dek w) (vw_file_offset w) (vw_pending w)
    (vw_unsynced w) (vw_next_ordinal w)
    (vw_block w ++ serialize_entry key value)
    (or_key (vw_block_first_key w) key)
    (vw_partition_index w)
    (or_key (vw_partition_first_key w) key)
    (vw_partition_hashes w ++ [bloom_hashes (ck_realm key) (ck_key key)])
    (vw_partitions w) (vw_partition_count w)
    (or_key (vw_min_key w) key) (Some key)
    (sat_add_u64 (vw_written w) 1) in
  if BLOCK_TARGET_BYTES <=? zlen (vw_block w1) then seal_data_block w1 else Ok w1.

(** [finish]: the file's bytes, and its metadata. *)
Definition finish (w : V4BodyWriter) : res (list byte * SstMetadata) :=
  w ← seal_data_block w;
  w ← seal_partition w;
  let file := vw_file w ++ vw_pending w in
  let footer := to_le 8 (vw_written w) ++ to_le 4 (vw_partition_count w) ++ vw_partitions w ++
    match vw_min_key w, vw_max_key w with
    | Some mn, Some mx => [x01] ++ write_footer_key mn ++ write_footer_key mx
    | _, _ => [x00]
    end in
  let footer_nonce := block_nonce (vw_sst_number w) SST_FOOTER_BLOCK_INDEX in
  footer_ct ← encrypt_section footer (vw_dek w) footer_nonce footer_nonce;
  let footer_offset := vw_file_offset w in
  let footer_crc := crc32 footer_ct in
  if u32_max <? zlen footer_ct then Err (InvalidSstFormat "v4 writer: footer larger than 4 GiB")
  else
    let file := file ++ footer_ct ++ to_le 8 footer_offset ++ to_le 4 (zlen footer_ct) in
    let file_size := sat_add_u64 (sat_add_u64 footer_offset (zlen footer_ct)) TRAILER_SIZE in
    let entry_count := if vw_written w <=? u32_max then vw_written w else u32_max in
    let base_header := SST_MAGIC_V4 ++ to_le 4 entry_count ++ to_le 4 footer_crc in
    Ok (base_header ++ drop 12 file, MkSstMetadata entry_count file_size).

Fixpoint push_all (w : V4BodyWriter) (entries : list Entry) : res V4BodyWriter :=
  match entries with
  | [] => Ok w
  | (key, value) :: rest => w ← push w key value; push_all w rest
  end.

(** The body both write paths produce: [write_sst_with_fs] feeds the entries of a
memtable, [write_sst_streaming_with_fs] those of a merge, less the tombstones when
it may drop them. An error of the source ends the write. *)
Definition write_sst (enc_header : EncryptionHeader) (sst_number : Z) (dek : list byte)
    (entries : list Entry) : res (list byte * SstMetadata) :=
  w ← push_all (writer_start enc_header sst_number dek) entries;
  finish w.

Fixpoint push_streaming (w : V4BodyWriter) (drop_tombstones : bool) (items : list (res Entry))
  : res V4BodyWriter :=
  match items with
  | [] => Ok w
  | item :: rest =>
      '(key, value) ← item;
      if drop_tombstones && negb (is_live value) then push_streaming w drop_tombstones rest
      else w ← push w key value; push_streaming w drop_tombstones rest
  end.

Definition write_sst_streaming (enc_header : EncryptionHeader) (sst_number : Z) (dek : list byte)
    (drop_tombstones : bool) (items : list (res Entry)) : res (list byte * SstMetadata) :=
  w ← push_streaming (writer_start enc_header sst_number dek) drop_tombstones items;
  finish w.

End writer.

(** ** The contents of a file under construction *)


(** A data block: its index item and its entries. *)
Abbreviation DBlock := (IndexItem * list Entry)%type.

Section layout.
Context `{HA : Aead} `{HC : Crc32}.

(** The bytes written or queued. *)
Definition body_of (w : V4BodyWriter) : list byte := vw_file w ++ vw_pending w.

(** The handle [h] names a sealed block of [file] with the given plaintext. *)
Definition block_at (file dek : list byte) (n : Z) (h : BlockHandle) (plaintext : list byte) : Prop :=
  ∃ ct, aead_seal dek (block_nonce n (bh_ordinal h)) (block_nonce n (bh_ordinal h)) plaintext = Some ct ∧
    slice (bh_file_offset h) (bh_file_offset h + zlen ct) file = Some ct ∧
    bh_ciphertext_len h = zlen ct ∧ bh_plaintext_len h = zlen plaintext ∧
    TOTAL_HEADER_SIZE <= bh_file_offset h ∧ handle_ok h ∧ bh_ordinal h ≠ SST_FOOTER_BLOCK_INDEX.

(** A sealed partition. *)
Record Part := MkPart {
  pa_first : CompositeKey;
  pa_blocks : list DBlock;
  pa_index : BlockHandle;
  pa_filter : BlockHandle
}.

Definition blocks_entries (bs : list DBlock) : list Entry := mjoin bs.*2.
Definition pa_entries (p : Part) : list Entry := blocks_entries (pa_blocks p).
Definition parts_entries (ps : list Part) : list Entry := mjoin (pa_entries <$> ps).
Definition hashes_of (es : list Entry) : list (Z * Z) :=
  (λ p, bloom_hashes (ck_realm p.1) (ck_key p.1)) <$> es.

Definition dblock_ok (file dek : list byte) (n : Z) (b : DBlock) : Prop :=
  first_of b.2 b.1.1 ∧ Forall entry_wf b.2 ∧ block_at file dek n b.1.2 (ser_entries b.2).

Definition part_ok (file dek : list byte) (n : Z) (p : Part) : Prop :=
  first_of (pa_entries p) (pa_first p) ∧ Forall (dblock_ok file dek n) (pa_blocks p) ∧
  block_at file dek n (pa_index p) (encs ser_item (pa_blocks p).*1) ∧
  block_at file dek n (pa_filter p) (bloom_encode (from_hashes (hashes_of (pa_entries p)))).

Definition part_bytes (p : Part) : list byte :=
  write_footer_key (pa_first p) ++ handle_write (pa_index p) ++ [x01] ++ handle_write (pa_filter p).

Lemma slice_app_l {A} a b (l1 l2 s : list A) : slice a b l1 = Some s → slice a b (l1 ++ l2) = Some s.
Proof.
intros Hs. pose proof (slice_Some _ _ _ _ Hs) as (Hab & Hb & _ & Hsl). pose proof (zlen_nonneg l2).
destruct (slice_is_Some a b (l1 ++ l2)) as [s' Hs']; [lia|rewrite zlen_app; lia|].
rewrite Hs'. f_equal. apply slice_Some in Hs' as (_ & _ & _ & ->). rewrite Hsl.
unfold zlen in *. rewrite drop_app_le by lia. rewrite take_app_le; [done|]. rewrite length_drop. lia.
Qed.

Lemma block_at_app file more dek n h pt : block_at file dek n h pt → block_at (file ++ more) dek n h pt.
Proof. intros (ct & H1 & H2 & H3). exists ct. split_and!; try tauto. by apply slice_app_l. Qed.

Lemma dblock_ok_app file more dek n b : dblock_ok file dek n b → dblock_ok (file ++ more) dek n b.
Proof. intros (H1 & H2 & H3). split_and!; try done. by apply block_at_app. Qed.

Lemma part_ok_app file more dek n p : part_ok file dek n p → part_ok (file ++ more) dek n p.
Proof.
intros (H1 & H2 & H3 & H4). split_and!; try done; try by apply block_at_app.
eapply Forall_impl; [exact H2|]. intros. by apply dblock_ok_app.
Qed.

(** The writer after the partitions [ps], with the data blocks [bs] in the open
partition and the entries [cur] in the open block. *)
Record winv (dek : list byte) (n : Z) (hdr : EncryptionHeader) (ps : list Part) (bs : list DBlock)
    (cur : list Entry) (w : V4BodyWriter) : Prop := {
  wi_static : vw_sst_number w = n ∧ vw_dek w = dek;
  wi_head : ∃ rest, body_of w = repeat x00 12 ++ header_to_bytes hdr ++ rest;
  wi_offset : vw_file_offset w = zlen (body_of w);
  wi_ordinal : 0 <= vw_next_ordinal w <= u32_max;
  wi_parts : Forall (part_ok (body_of w) dek n) ps;
  wi_parts_bytes : vw_partitions w = mjoin (part_bytes <$> ps);
  wi_parts_count : vw_partition_count w = zlen ps ∧ zlen ps <= u32_max;
  wi_blocks : Forall (dblock_ok (body_of w) dek n) bs;
  wi_index : vw_partition_index w = encs ser_item bs.*1;
  wi_cur : Forall entry_wf cur ∧ vw_block w = ser_entries cur;
  wi_block_first : vw_block_first_key w = fst <$> head cur;
  wi_part_first : vw_partition_first_key w = fst <$> head (blocks_entries bs ++ cur);
  wi_hashes : vw_partition_hashes w = hashes_of (blocks_entries bs ++ cur);
  wi_min : vw_min_key w = fst <$> head (parts_entries ps ++ blocks_entries bs ++ cur);
  wi_max : vw_max_key w = fst <$> last (parts_entries ps ++ blocks_entries bs ++ cur);
  wi_written : vw_written w = Z.min u64_max (zlen (parts_entries ps ++ blocks_entries bs ++ cur))
}.

(** The handles in write order: a partition's data blocks, its filter, its index. *)
Definition part_handles (p : Part) : list BlockHandle :=
  (snd ∘ fst <$> pa_blocks p) ++ [pa_filter p; pa_index p].
Definition all_handles (ps : list Part) (bs : list DBlock) : list BlockHandle :=
  mjoin (part_handles <$> ps) ++ (snd ∘ fst <$> bs).

(** The blocks are numbered in write order. *)
Definition numbered (ps : list Part) (bs : list DBlock) (w : V4BodyWriter) : Prop :=
  bh_ordinal <$> all_handles ps bs = seqZ 0 (vw_next_ordinal w).

(** Sealing appends the ciphertext and changes nothing but the output fields. *)
Lemma seal_spec w pt h w' :
  seal w pt = Ok (h, w') → vw_file_offset w = zlen (body_of w) → TOTAL_HEADER_SIZE <= zlen (body_of w) →
  zlen (body_of w') <= u64_max → 0 <= vw_next_ordinal w <= u32_max →
  ∃ ct, body_of w' = body_of w ++ ct ∧
    block_at (body_of w') (vw_dek w) (vw_sst_number w) h pt ∧ bh_ordinal h = vw_next_ordinal w ∧
    w' = with_sealed w (vw_file w') (vw_pending w') (vw_unsynced w') (zlen (body_of w')) (vw_next_ordinal w + 1) ∧
    vw_next_ordinal w + 1 <= u32_max.
Proof.
unfold seal. intros Hs Hoff Hhead Hlen Hord.
destruct (Z.eqb_spec (vw_next_ordinal w) SST_FOOTER_BLOCK_INDEX) as [|Hne]; [done|].
bind_inv Hs ct Hct. unfold encrypt_section in Hct.
destruct (aead_seal _ _ _ _) as [ct'|] eqn:Eseal; [|done]. injection Hct as <-.
destruct (Z.ltb_spec u32_max (zlen ct')); [done|]. destruct (Z.ltb_spec u32_max (zlen pt)); [done|].
destruct (if negb (zlen (vw_pending w) =? 0) && (WRITE_CHUNK_BYTES <? zlen (vw_pending w) + zlen ct') then _ else _)
  as [[file pending] unsynced] eqn:Efl.
assert (Hbody : file ++ pending = body_of w).
{ unfold body_of. destruct (_ && _); injection Efl as <- <- <-; [by rewrite app_nil_r|done]. }
injection Hs as <- <-. unfold with_sealed, body_of in Hlen |- *. simpl in *.
rewrite app_assoc, Hbody in *. rewrite zlen_app in *. pose proof (zlen_nonneg ct'). pose proof (zlen_nonneg pt).
exists ct'. split_and!; [done| |done| |].
- exists ct'. simpl. split_and!; try done; try lia.
  + rewrite Hoff. rewrite <-(app_nil_r ct') at 2. apply slice_mid; lia.
  + unfold handle_ok. simpl. rewrite Hoff. change TOTAL_HEADER_SIZE with 88 in *. lia.
- rewrite Hoff. unfold sat_add_u64. by rewrite Z.min_l by lia.
- unfold SST_FOOTER_BLOCK_INDEX in Hne. lia.
Qed.

Lemma seal_grows w pt h w' : seal w pt = Ok (h, w') → ∃ ct, body_of w' = body_of w ++ ct.
Proof.
unfold seal. intros Hs. destruct (_ =? _); [done|]. bind_inv Hs ct Hct.
destruct (u32_max <? zlen ct); [done|]. destruct (u32_max <? zlen pt); [done|].
destruct (_ && _); injection Hs as <- <-; exists ct; unfold body_of; simpl; by rewrite ?app_nil_l, <-?app_assoc.
Qed.

Lemma seal_partition_grows w w' : seal_partition w = Ok w' → ∃ more, body_of w' = body_of w ++ more.
Proof.
unfold seal_partition. destruct (vw_partition_index w); [intros [= <-]; exists []; by rewrite app_nil_r|].
intros Hs. bind_inv Hs fk Hfk. bind_inv Hs r1 H1. destruct r1 as [h1 w1]. bind_inv Hs r2 H2. destruct r2 as [h2 w2].
destruct (_ =? _); [done|]. injection Hs as <-. apply seal_grows in H1 as [c1 E1], H2 as [c2 E2].
exists (c1 ++ c2). unfold body_of in *. simpl in *. by rewrite E2, E1, app_assoc.
Qed.

Lemma seal_data_block_grows w w' : seal_data_block w = Ok w' → ∃ more, body_of w' = body_of w ++ more.
Proof.
unfold seal_data_block. destruct (vw_block w); [intros [= <-]; exists []; by rewrite app_nil_r|].
intros Hs. bind_inv Hs fk Hfk. bind_inv Hs r1 H1. destruct r1 as [h1 w1]. apply seal_grows in H1 as [c1 E1].
destruct (_ <=? _).
- apply seal_partition_grows in Hs as [c2 E2]. exists (c1 ++ c2). rewrite E2. unfold body_of in *. simpl.
  by rewrite E1, app_assoc.
- injection Hs as <-. exists c1. by rewrite <-E1.
Qed.

Lemma push_grows w k v w' : push w k v = Ok w' → ∃ more, body_of w' = body_of w ++ more.
Proof.
unfold push. destruct (_ <=? _).
- intros Hs. apply seal_data_block_grows in Hs as [c E]. by exists c.
- intros [= <-]. exists []. by rewrite app_nil_r.
Qed.

Lemma push_all_grows w es w' : push_all w es = Ok w' → ∃ more, body_of w' = body_of w ++ more.
Proof.
revert w. induction es as [|[k v] es IH]; intros w Hs; simpl in Hs.
- injection Hs as <-. exists []. by rewrite app_nil_r.
- bind_inv Hs w1 H1. apply push_grows in H1 as [c1 E1]. apply IH in Hs as [c2 E2].
  exists (c1 ++ c2). by rewrite E2, E1, app_assoc.
Qed.

Lemma block_at_handle file dek n h pt : block_at file dek n h pt → handle_ok h ∧ zlen pt <= u32_max.
Proof. intros (ct & _ & _ & _ & Hpl & _ & Hok & _). split; [done|]. rewrite <-Hpl. apply Hok. Qed.

Lemma dblock_item_ok file dek n b : dblock_ok file dek n b → index_item_ok b.1.
Proof.
intros ((v & rest & Hf) & Hwf & Hb). rewrite Hf in Hwf. apply Forall_cons in Hwf as [(Hr & Hk & _) _].
split_and!; [exact Hr|exact Hk|]. by eapply block_at_handle.
Qed.

Lemma dblocks_items_ok file dek n bs : Forall (dblock_ok file dek n) bs → Forall index_item_ok bs.*1.
Proof. intros Hf. apply Forall_fmap. eapply Forall_impl; [exact Hf|]. intros b Hb. by eapply dblock_item_ok. Qed.

Lemma encs_items_nil file dek n bs :
  Forall (dblock_ok file dek n) bs → encs ser_item bs.*1 = [] → bs = [].
Proof.
intros Hf He. destruct bs as [|b bs]; [done|]. apply dblocks_items_ok in Hf.
pose proof (zlen_encs_ge _ _ ser_item_pos _ Hf) as Hg. rewrite He in Hg.
rewrite fmap_cons, zlen_cons in Hg. pose proof (zlen_nonneg bs.*1). rewrite zlen_nil in Hg. lia.
Qed.

Lemma ser_entries_nil es : Forall entry_wf es → ser_entries es = [] → es = [].
Proof.
intros Hf He. destruct es as [|e es]; [done|]. pose proof (zlen_encs_ge _ _ ser_entry_pos _ Hf) as Hg.
unfold ser_entries in He. rewrite He in Hg. rewrite zlen_cons, zlen_nil in Hg. pose proof (zlen_nonneg es). lia.
Qed.

Lemma blocks_entries_snoc bs b : blocks_entries (bs ++ [b]) = blocks_entries bs ++ b.2.
Proof. unfold blocks_entries. rewrite fmap_app, join_app. simpl. by rewrite app_nil_r. Qed.

Lemma parts_entries_snoc ps p : parts_entries (ps ++ [p]) = parts_entries ps ++ pa_entries p.
Proof. unfold parts_entries. rewrite fmap_app, join_app. simpl. by rewrite app_nil_r. Qed.

Lemma encs_snoc {A} (f : A → list byte) xs x : encs f (xs ++ [x]) = encs f xs ++ f x.
Proof. unfold encs. rewrite fmap_app, join_app. simpl. by rewrite app_nil_r. Qed.

Lemma winv_header dek n hdr ps bs cur w :
  header_wf hdr → winv dek n hdr ps bs cur w → TOTAL_HEADER_SIZE <= zlen (body_of w).
Proof.
intros Hh Hw. destruct (wi_head _ _ _ _ _ _ _ Hw) as [rest ->]. rewrite !zlen_app, header_to_bytes_len by done.
change (zlen (repeat x00 12)) with 12. pose proof (zlen_nonneg rest). change TOTAL_HEADER_SIZE with 88.
change ENCRYPTION_HEADER_SIZE with 76. lia.
Qed.

(** The part of the invariant that sealing a block keeps. *)
Lemma winv_sealed dek n hdr ps bs cur w w' ct :
  winv dek n hdr ps bs cur w → body_of w' = body_of w ++ ct →
  w' = with_sealed w (vw_file w') (vw_pending w') (vw_unsynced w') (zlen (body_of w')) (vw_next_ordinal w + 1) →
  vw_next_ordinal w + 1 <= u32_max →
  winv dek n hdr ps bs cur w'.
Proof.
intros [] Hb Hw' Hord. rewrite Hw'. split; unfold body_of in *; simpl in *; try done; try rewrite Hb; try lia.
- destruct wi_head0 as [rest ->]. exists (rest ++ ct). simpl. by rewrite <-app_assoc.
- eapply Forall_impl; [exact wi_parts0|]. intros. by apply part_ok_app.
- eapply Forall_impl; [exact wi_blocks0|]. intros. by apply dblock_ok_app.
Qed.

Lemma seal_winv dek n hdr ps bs cur w pt h w' :
  header_wf hdr → winv dek n hdr ps bs cur w → seal w pt = Ok (h, w') → zlen (body_of w') <= u64_max →
  winv dek n hdr ps bs cur w' ∧ block_at (body_of w') dek n h pt ∧
  vw_partition_index w' = vw_partition_index w ∧ vw_partition_count w' = vw_partition_count w ∧
  vw_partitions w' = vw_partitions w ∧ bh_ordinal h = vw_next_ordinal w ∧
  vw_next_ordinal w' = vw_next_ordinal w + 1.
Proof.
intros Hh Hw Hs Hl. pose proof (wi_static _ _ _ _ _ _ _ Hw) as [<- <-].
destruct (seal_spec w pt h w' Hs (wi_offset _ _ _ _ _ _ _ Hw) (winv_header _ _ _ _ _ _ _ Hh Hw) Hl
  (wi_ordinal _ _ _ _ _ _ _ Hw)) as (ct & Hb & Hat & Ho & Hw' & Hord).
split_and!; [by eapply winv_sealed|done|by rewrite Hw'..|done|by rewrite Hw'].
Qed.

Lemma seal_partition_winv dek n hdr ps bs w w' :
  header_wf hdr → winv dek n hdr ps bs [] w → seal_partition w = Ok w' → zlen (body_of w') <= u64_max →
  ∃ ps', winv dek n hdr ps' [] [] w' ∧ parts_entries ps' = parts_entries ps ++ blocks_entries bs ∧
    (numbered ps bs w → numbered ps' [] w').
Proof.
intros Hh Hw Hs Hl. unfold seal_partition in Hs. pose proof (wi_index _ _ _ _ _ _ _ Hw) as Hi.
destruct (vw_partition_index w) as [|b0 rest0] eqn:Ei.
{ injection Hs as <-. symmetry in Hi. apply (encs_items_nil _ _ _ _ (wi_blocks _ _ _ _ _ _ _ Hw)) in Hi. subst bs.
  exists ps. rewrite app_nil_r. split_and!; done. }
bind_inv Hs fk Hfk. rewrite (wi_part_first _ _ _ _ _ _ _ Hw), app_nil_r in Hfk.
destruct (blocks_entries bs) as [|[fk' v'] es'] eqn:Ebs; [done|]. injection Hfk as ->.
bind_inv Hs r1 H1. destruct r1 as [hf w1]. bind_inv Hs r2 H2. destruct r2 as [hi w2].
destruct (Z.eqb_spec (vw_partition_count w2) u32_max) as [|Hcnt]; [done|]. injection Hs as <-.
assert (Hl2 : zlen (body_of w2) <= u64_max) by done.
assert (Hl1 : zlen (body_of w1) <= u64_max).
{ apply seal_grows in H2 as [c2 E2]. rewrite E2, zlen_app in Hl2. pose proof (zlen_nonneg c2). lia. }
destruct (seal_winv _ _ _ _ _ _ _ _ _ _ Hh Hw H1 Hl1) as (Hw1 & Hat1 & Hi1 & Hc1 & Hp1 & Ho1 & Hn1).
destruct (seal_winv _ _ _ _ _ _ _ _ _ _ Hh Hw1 H2 Hl2) as (Hw2 & Hat2 & Hi2 & Hc2 & Hp2 & Ho2 & Hn2).
apply seal_grows in H2 as [c2 E2].
pose (p := MkPart fk bs hi hf).
assert (Hpa : pa_entries p = blocks_entries bs) by done.
exists (ps ++ [p]). rewrite parts_entries_snoc, Hpa. split_and!; [|by rewrite Ebs|].
2: { unfold numbered, all_handles. simpl. intros Hnum. rewrite Hn2, Hn1, <-!seqZ_snoc by (apply (wi_ordinal _ _ _ _ _ _ _ Hw) || (rewrite <-Hn1; apply (wi_ordinal _ _ _ _ _ _ _ Hw1))).
  rewrite <-Hnum, !fmap_app, join_app. simpl. rewrite app_nil_r, !fmap_app, <-!app_assoc. simpl.
  unfold part_handles. rewrite fmap_app, app_nil_r. simpl. by rewrite Ho2, Ho1, Hn1. }
pose proof Hw2 as []. split; try done; simpl.
- apply Forall_app. split; [done|]. apply Forall_singleton. split_and!.
  + rewrite Hpa, Ebs. by eexists _, _.
  + done.
  + simpl. rewrite <-(wi_index _ _ _ _ _ _ _ Hw1). done.
  + rewrite Hpa. pose proof (wi_hashes _ _ _ _ _ _ _ Hw) as Hh0. rewrite app_nil_r in Hh0. rewrite <-Hh0.
    change (body_of (with_partition w2 [] None [] (vw_partitions w2 ++ write_footer_key fk ++ handle_write hi ++
      x01 :: handle_write hf) (vw_partition_count w2 + 1))) with (body_of w2).
    rewrite E2. by apply block_at_app.
- rewrite wi_parts_bytes0, fmap_app, join_app. simpl. unfold part_bytes. by rewrite app_nil_r.
- rewrite zlen_app. change (zlen [p]) with 1. lia.
- rewrite app_nil_r. rewrite app_nil_r in wi_min0. by rewrite parts_entries_snoc, Hpa.
- rewrite app_nil_r. rewrite app_nil_r in wi_max0. by rewrite parts_entries_snoc, Hpa.
- rewrite app_nil_r. rewrite app_nil_r in wi_written0. by rewrite parts_entries_snoc, Hpa.
Qed.

Lemma seal_data_block_winv dek n hdr ps bs cur w w' :
  header_wf hdr → winv dek n hdr ps bs cur w → seal_data_block w = Ok w' → zlen (body_of w') <= u64_max →
  ∃ ps' bs', winv dek n hdr ps' bs' [] w' ∧
    parts_entries ps' ++ blocks_entries bs' = parts_entries ps ++ blocks_entries bs ++ cur ∧
    (numbered ps bs w → numbered ps' bs' w').
Proof.
intros Hh Hw Hs Hl. unfold seal_data_block in Hs. pose proof (wi_cur _ _ _ _ _ _ _ Hw) as [Hwf Hc].
destruct (vw_block w) as [|b0 rest0] eqn:Eb.
{ injection Hs as <-. symmetry in Hc. apply ser_entries_nil in Hc as ->; [|done].
  exists ps, bs. rewrite app_nil_r. split_and!; done. }
bind_inv Hs fk Hfk. rewrite (wi_block_first _ _ _ _ _ _ _ Hw) in Hfk.
destruct cur as [|[fk' v'] es'] eqn:Ecur; [done|]. injection Hfk as ->. rewrite <-Ecur in *.
bind_inv Hs r1 H1. destruct r1 as [h w1]. rewrite <-Eb in H1.
set (w2 := with_block w1 [] None (vw_partition_index w1 ++ write_footer_key fk ++ handle_write h)) in Hs.
assert (Hl1 : zlen (body_of w1) <= u64_max).
{ change (body_of w1) with (body_of w2). destruct (_ <=? _) in Hs; [|by injection Hs as <-].
  apply seal_partition_grows in Hs as [c E]. rewrite E, zlen_app in Hl. pose proof (zlen_nonneg c). lia. }
destruct (seal_winv _ _ _ _ _ _ _ _ _ _ Hh Hw H1 Hl1) as (Hw1 & Hat1 & Hi1 & Hc1 & Hp1 & Ho1 & Hn1).
rewrite Eb, Hc in Hat1.
assert (Hnum2 : numbered ps bs w → numbered ps (bs ++ [((fk, h), cur)]) w2).
{ unfold numbered, all_handles. simpl. intros Hnum. rewrite Hn1, <-seqZ_snoc by apply (wi_ordinal _ _ _ _ _ _ _ Hw).
  rewrite <-Hnum, !fmap_app, <-app_assoc. simpl. by rewrite Ho1, Z.add_0_l. }
assert (Hw2 : winv dek n hdr ps (bs ++ [((fk, h), cur)]) [] w2).
{ pose proof Hw1 as []. split; try done; simpl; rewrite ?blocks_entries_snoc, ?app_nil_r; simpl; try done.
  - apply Forall_app. split; [done|]. apply Forall_singleton. split_and!; [|done|done].
    rewrite Ecur. by eexists _, _.
  - rewrite wi_index0, fmap_app. cbn [fmap list_fmap fst]. by rewrite encs_snoc. }
destruct (_ <=? _) in Hs.
- destruct (seal_partition_winv _ _ _ _ _ _ _ Hh Hw2 Hs Hl) as (ps' & Hw' & He & Hnum'). exists ps', [].
  split_and!; [done| |auto]. rewrite He, blocks_entries_snoc. simpl. unfold blocks_entries at 1. simpl. by rewrite app_nil_r.
- injection Hs as <-. exists ps, (bs ++ [((fk, h), cur)]). split_and!; [done| |done]. by rewrite blocks_entries_snoc.
Qed.

Lemma or_key_head (l : list Entry) k v : or_key (fst <$> head l) k = fst <$> head (l ++ [(k, v)]).
Proof. by destruct l. Qed.

Lemma push_winv dek n hdr ps bs cur w k v w' :
  header_wf hdr → entry_wf (k, v) → winv dek n hdr ps bs cur w → push w k v = Ok w' →
  zlen (body_of w') <= u64_max →
  ∃ ps' bs' cur', winv dek n hdr ps' bs' cur' w' ∧
    parts_entries ps' ++ blocks_entries bs' ++ cur' =
      (parts_entries ps ++ blocks_entries bs ++ cur) ++ [(k, v)] ∧
    (numbered ps bs w → numbered ps' bs' w').
Proof.
intros Hh Hkv Hw Hs Hl. unfold push in Hs. set (w1 := MkWriter _ _ _ _ _ _ _ _ _ _ _ _ _ _ _ _ _) in Hs.
assert (Hw1 : winv dek n hdr ps bs (cur ++ [(k, v)]) w1).
{ destruct Hw. split; try done; simpl.
  - destruct wi_cur0 as [H1 H2]. split; [apply Forall_app; split; [done|by apply Forall_singleton]|].
    rewrite H2. unfold ser_entries. by rewrite encs_snoc.
  - rewrite wi_block_first0. apply or_key_head.
  - rewrite wi_part_first0, app_assoc. apply or_key_head.
  - rewrite wi_hashes0. unfold hashes_of. rewrite !fmap_app. simpl. by rewrite app_assoc.
  - rewrite wi_min0, !app_assoc. apply or_key_head.
  - rewrite !app_assoc, last_snoc. done.
  - rewrite wi_written0, !app_assoc. unfold sat_add_u64. rewrite (zlen_app _ [(k, v)]).
    change (zlen [(k, v)]) with 1. lia. }
destruct (_ <=? _) in Hs.
- destruct (seal_data_block_winv _ _ _ _ _ _ _ _ Hh Hw1 Hs Hl) as (ps' & bs' & Hw' & He & Hnum).
  exists ps', bs', []. split_and!; [done| |exact Hnum]. by rewrite app_nil_r, He, <-!app_assoc.
- injection Hs as <-. exists ps, bs, (cur ++ [(k, v)]). split_and!; [done| |done]. by rewrite <-!app_assoc.
Qed.

Lemma push_all_winv dek n hdr es ps bs cur w w' :
  header_wf hdr → Forall entry_wf es → winv dek n hdr ps bs cur w → push_all w es = Ok w' →
  zlen (body_of w') <= u64_max →
  ∃ ps' bs' cur', winv dek n hdr ps' bs' cur' w' ∧
    parts_entries ps' ++ blocks_entries bs' ++ cur' =
      (parts_entries ps ++ blocks_entries bs ++ cur) ++ es ∧
    (numbered ps bs w → numbered ps' bs' w').
Proof.
intros Hh Hwf. revert ps bs cur w. induction Hwf as [|[k v] es Hkv Hwf IH]; intros ps bs cur w Hw Hs Hl; simpl in Hs.
- injection Hs as <-. exists ps, bs, cur. rewrite app_nil_r. split_and!; done.
- bind_inv Hs w1 H1. assert (Hl1 : zlen (body_of w1) <= u64_max).
  { apply push_all_grows in Hs as [c E]. rewrite E, zlen_app in Hl. pose proof (zlen_nonneg c). lia. }
  destruct (push_winv _ _ _ _ _ _ _ _ _ _ Hh Hkv Hw H1 Hl1) as (ps1 & bs1 & cur1 & Hw1 & He1 & Hn1).
  destruct (IH _ _ _ _ Hw1 Hs Hl) as (ps2 & bs2 & cur2 & Hw2 & He2 & Hn2). exists ps2, bs2, cur2.
  split_and!; [done| |auto]. by rewrite He2, He1, <-app_assoc.
Qed.

Lemma winv_start hdr n dek : header_wf hdr → winv dek n hdr [] [] [] (writer_start hdr n dek).
Proof.
intros Hh. split; try done; simpl; try by constructor.
- exists []. unfold body_of. simpl. by rewrite !app_nil_r.
- unfold body_of. simpl. rewrite app_nil_r, !zlen_cons, header_to_bytes_len by done. done.
Qed.

(** ** The finished file *)

Definition range_bytes (es : list Entry) : list byte :=
  match fst <$> head es, fst <$> last es with
  | Some mn, Some mx => [x01] ++ write_footer_key mn ++ write_footer_key mx
  | _, _ => [x00]
  end.

Definition footer_bytes (ps : list Part) (es : list Entry) : list byte :=
  to_le 8 (Z.min u64_max (zlen es)) ++ to_le 4 (zlen ps) ++ mjoin (part_bytes <$> ps) ++ range_bytes es.

Record sst_layout (hdr : EncryptionHeader) (n : Z) (dek : list byte) (es : list Entry)
    (ps : list Part) (body footer_ct file : list byte) : Prop := {
  sl_entries : parts_entries ps = es;
  sl_body : ∃ count mid, body =
    (SST_MAGIC_V4 ++ to_le 4 count ++ to_le 4 (crc32 footer_ct)) ++ header_to_bytes hdr ++ mid;
  sl_parts : Forall (part_ok body dek n) ps;
  sl_count : zlen ps <= u32_max;
  sl_ordinals : bh_ordinal <$> mjoin (part_handles <$> ps) = seqZ 0 (zlen (mjoin (part_handles <$> ps)));
  sl_footer : aead_seal dek (block_nonce n SST_FOOTER_BLOCK_INDEX) (block_nonce n SST_FOOTER_BLOCK_INDEX)
    (footer_bytes ps es) = Some footer_ct;
  sl_footer_len : zlen footer_ct <= u32_max;
  sl_file : file = body ++ footer_ct ++ to_le 8 (zlen body) ++ to_le 4 (zlen footer_ct);
  sl_len : zlen file <= u64_max
}.

Lemma block_at_header h1 h2 rest dek n h pt :
  zlen h1 = 12 → zlen h2 = 12 → block_at (h1 ++ rest) dek n h pt → block_at (h2 ++ rest) dek n h pt.
Proof.
intros H1 H2 (ct & Hs & Hsl & Hc & Hp & Ho & Hok). exists ct. split_and!; try tauto.
change TOTAL_HEADER_SIZE with 88 in Ho. rewrite slice_skip in Hsl by lia. rewrite H1 in Hsl.
rewrite slice_skip by lia. rewrite H2. exact Hsl.
Qed.

Lemma part_ok_header h1 h2 rest dek n p :
  zlen h1 = 12 → zlen h2 = 12 → part_ok (h1 ++ rest) dek n p → part_ok (h2 ++ rest) dek n p.
Proof.
intros H1 H2 (Ha & Hb & Hc & Hd). split_and!;
  [done| |exact (block_at_header _ _ _ _ _ _ _ H1 H2 Hc)|exact (block_at_header _ _ _ _ _ _ _ H1 H2 Hd)].
eapply Forall_impl; [exact Hb|]. intros b (Hb1 & Hb2 & Hb3). split_and!; [done|done|].
exact (block_at_header _ _ _ _ _ _ _ H1 H2 Hb3).
Qed.

Lemma write_sst_layout hdr n dek es file meta :
  header_wf hdr → Forall entry_wf es → write_sst hdr n dek es = Ok (file, meta) → zlen file <= u64_max →
  ∃ ps body footer_ct, sst_layout hdr n dek es ps body footer_ct file.
Proof.
intros Hh Hwf Hs Hl. unfold write_sst in Hs. bind_inv Hs w0 H0. unfold finish in Hs.
bind_inv Hs w1 H1. bind_inv Hs w2 H2. bind_inv Hs fct Hf. unfold encrypt_section in Hf.
destruct (aead_seal _ _ _ _) as [fct'|] eqn:Eseal; [|done]. injection Hf as ->.
destruct (Z.ltb_spec u32_max (zlen fct)) as [|Hfl]; [done|]. injection Hs as <- _.
fold (body_of w2) in Hl |- *.
assert (Hl2 : zlen (body_of w2) <= u64_max).
{ assert (Hd : ∀ l : list byte, zlen (drop 12 l) = Z.max 0 (zlen l - 12))
    by (intros l; unfold zlen; rewrite length_drop; lia).
  autorewrite with zlen in Hl. rewrite Hd in Hl. autorewrite with zlen in Hl.
  pose proof (zlen_nonneg fct). change (zlen SST_MAGIC_V4) with 4 in Hl. lia. }
pose proof (seal_data_block_grows _ _ H1) as [c1 E1]. pose proof (seal_partition_grows _ _ H2) as [c2 E2].
pose proof (zlen_nonneg c1). pose proof (zlen_nonneg c2).
assert (Hl1 : zlen (body_of w1) <= u64_max) by (rewrite E2, zlen_app in Hl2; lia).
assert (Hl0 : zlen (body_of w0) <= u64_max) by (rewrite E1, zlen_app in Hl1; lia).
destruct (push_all_winv _ _ _ _ _ _ _ _ _ Hh Hwf (winv_start hdr n dek Hh) H0 Hl0)
  as (ps0 & bs0 & cur0 & Hw0 & He0 & Hnum0).
destruct (seal_data_block_winv _ _ _ _ _ _ _ _ Hh Hw0 H1 Hl1) as (ps1 & bs1 & Hw1 & He1 & Hnum1).
destruct (seal_partition_winv _ _ _ _ _ _ _ Hh Hw1 H2 Hl2) as (ps & Hw2 & He2 & Hnum2).
specialize (Hnum2 (Hnum1 (Hnum0 eq_refl))). unfold numbered, all_handles in Hnum2. simpl in Hnum2.
rewrite app_nil_r in Hnum2.
assert (Hes : parts_entries ps = es) by (by rewrite He2, He1, He0).
pose proof Hw2 as [[Hn Hdk] [mid Hhead] Hoff _ Hparts Hpb [Hpc Hpl] _ _ _ _ _ _ Hmin Hmax Hwr].
change (blocks_entries [] ++ []) with (@nil Entry) in Hmin, Hmax, Hwr.
rewrite app_nil_r, Hes in Hmin, Hmax, Hwr.
set (base := SST_MAGIC_V4 ++ to_le 4 (if vw_written w2 <=? u32_max then vw_written w2 else u32_max) ++
  to_le 4 (crc32 fct)).
assert (Hbase : zlen base = 12) by (unfold base; autorewrite with zlen; done).
exists ps, (base ++ header_to_bytes hdr ++ mid), fct. rewrite Hhead in Hparts.
split; try done.
- eexists _, _. reflexivity.
- eapply Forall_impl; [exact Hparts|]. intros p. by apply part_ok_header.
- rewrite Hnum2 at 1. f_equal. apply (f_equal length) in Hnum2.
  rewrite length_fmap, length_seqZ in Hnum2. pose proof (wi_ordinal _ _ _ _ _ _ _ Hw2). unfold zlen. lia.
- rewrite <-Eseal, Hn, Hdk. f_equal. unfold footer_bytes, range_bytes. by rewrite Hpb, Hmin, Hmax, Hwr, Hpc.
- assert (Hdrop : ∀ X Y : list byte, drop 12 ((repeat x00 12 ++ X) ++ Y) = X ++ Y).
  { intros X Y. rewrite <-app_assoc. by apply (drop_app_length' (repeat x00 12)). }
  rewrite Hoff, Hhead, Hdrop, <-!app_assoc. unfold base. rewrite <-!app_assoc.
  reflexivity.
Qed.

End layout.

(** ** Sizes *)

Section sizes.
Context `{HA : Aead} `{HC : Crc32} `{HAL : !AeadLaws}.

(** *** An entry takes a byte of the file at least *)

Definition weight (w : V4BodyWriter) : Z := zlen (body_of w) + zlen (vw_block w).

Lemma seal_weight w pt h w' :
  seal w pt = Ok (h, w') → vw_block w' = vw_block w ∧ zlen (body_of w) + zlen pt <= zlen (body_of w').
Proof.
unfold seal. intros Hs. destruct (_ =? _); [done|]. bind_inv Hs ct Hct. apply encrypt_len in Hct.
destruct (u32_max <? zlen ct); [done|]. destruct (u32_max <? zlen pt); [done|].
unfold TAG_SIZE in Hct. destruct (_ && _); injection Hs as <- <-; (split; [done|]); unfold body_of; simpl; rewrite !zlen_app;
  rewrite ?zlen_nil; lia.
Qed.

Lemma seal_partition_block w w' : seal_partition w = Ok w' → vw_block w' = vw_block w.
Proof.
unfold seal_partition. destruct (vw_partition_index w); [by intros [= <-]|].
intros Hs. bind_inv Hs fk Hfk. bind_inv Hs r1 H1. destruct r1 as [h1 w1]. bind_inv Hs r2 H2. destruct r2 as [h2 w2].
destruct (_ =? _); [done|]. injection Hs as <-. apply seal_weight in H1 as [E1 _], H2 as [E2 _]. simpl. congruence.
Qed.

Lemma seal_partition_weight w w' : seal_partition w = Ok w' → weight w <= weight w'.
Proof.
unfold seal_partition. destruct (vw_partition_index w); [by intros [= <-]|].
intros Hs. bind_inv Hs fk Hfk. bind_inv Hs r1 H1. destruct r1 as [h1 w1]. bind_inv Hs r2 H2. destruct r2 as [h2 w2].
destruct (_ =? _); [done|]. injection Hs as <-. apply seal_weight in H1 as [E1 L1], H2 as [E2 L2].
unfold weight, body_of in *. simpl in *. rewrite E2, E1. pose proof (zlen_nonneg (vw_partition_index w1)).
pose proof (zlen_nonneg (bloom_encode (from_hashes (vw_partition_hashes w)))). lia.
Qed.

Lemma seal_data_block_weight w w' : seal_data_block w = Ok w' → weight w <= weight w'.
Proof.
unfold seal_data_block. destruct (vw_block w) eqn:Eb; [by intros [= <-]|]. rewrite <-Eb.
intros Hs. bind_inv Hs fk Hfk. bind_inv Hs r1 H1. destruct r1 as [h1 w1]. apply seal_weight in H1 as [E1 L1].
assert (Hw : ∀ ix, weight w <= weight (with_block w1 [] None ix)).
{ intros ix. unfold weight, body_of in *. simpl in *. rewrite zlen_nil. lia. }
destruct (_ <=? _); [|injection Hs as <-; apply Hw].
apply seal_partition_weight in Hs. etrans; [apply Hw|exact Hs].
Qed.

Lemma push_all_weight w es w' : Forall entry_wf es → push_all w es = Ok w' → weight w + zlen es <= weight w'.
Proof.
intros Hwf. revert w. induction Hwf as [|[k v] es He _ IH]; intros w Hs; simpl in Hs.
{ injection Hs as <-. rewrite zlen_nil. lia. }
bind_inv Hs w1 H1. apply IH in Hs. rewrite zlen_cons. enough (weight w + 1 <= weight w1) by lia.
unfold push in H1. pose proof (ser_entry_pos _ He) as Hp. unfold ser_entry in Hp. simpl in Hp.
destruct (_ <=? _); [apply seal_data_block_weight in H1|injection H1 as <-]; unfold weight, body_of in *; simpl in *;
  autorewrite with zlen in *; lia.
Qed.

Lemma write_sst_count hdr n dek es file meta :
  Forall entry_wf es → write_sst hdr n dek es = Ok (file, meta) → zlen es <= zlen file.
Proof.
intros Hwf Hs. unfold write_sst in Hs. bind_inv Hs w0 H0. apply push_all_weight in H0; [|done].
unfold finish in Hs. bind_inv Hs w1 H1. bind_inv Hs w2 H2. bind_inv Hs fct Hf.
destruct (_ <? _); [done|]. injection Hs as <- _.
assert (Hb : vw_block w1 = [] ∧ vw_block w2 = []).
{ assert (H1' : vw_block w1 = []).
  { unfold seal_data_block in H1. destruct (vw_block w0) eqn:Eb; [injection H1 as <-; exact Eb|].
    bind_inv H1 fk Hfk. bind_inv H1 r1 H1'. destruct r1 as [h1 w1'].
    destruct (_ <=? _); [|injection H1 as <-; done]. exact (seal_partition_block _ _ H1). }
  split; [done|]. rewrite <-H1'. exact (seal_partition_block _ _ H2). }
assert (Hw0 : 0 <= weight (writer_start hdr n dek)) by (unfold weight; pose proof (zlen_nonneg (body_of (writer_start hdr n dek))); done || lia).
apply seal_data_block_weight in H1. apply seal_partition_weight in H2. unfold weight at 2 in H2.
destruct Hb as [_ E2]. rewrite E2, zlen_nil in H2. fold (body_of w2).
assert (Hd : ∀ l : list byte, zlen l - 12 <= zlen (drop 12 l)) by (intros l; unfold zlen; rewrite length_drop; lia).
specialize (Hd (body_of w2 ++ fct ++ to_le 8 (vw_file_offset w2) ++ to_le 4 (zlen fct))).
rewrite !zlen_cons, !zlen_app. autorewrite with zlen in Hd |- *. pose proof (zlen_nonneg fct). lia.
Qed.


Definition entries_bytes (es : list Entry) : Z := zlen (ser_entries es).

(** The largest total the size bounds below are proved for: 512 MiB of entries. *)
Definition SMALL_FILE : Z := 2 ^ 29.

Definition key16 (k : CompositeKey) : Prop := zlen (ck_realm k) = 16.

(** What [t] bytes of entries can have made of the writer. *)
Record fits (w : V4BodyWriter) (t : Z) : Prop := {
  ft_total : 0 <= t <= SMALL_FILE;
  ft_ordinal : 0 <= vw_next_ordinal w ∧
    8 * vw_next_ordinal w + zlen (vw_partition_index w) + 3 * zlen (vw_block w) <= 3 * t;
  ft_partitions : zlen (vw_partitions w) + 2 * zlen (vw_partition_index w) + 4 * zlen (vw_block w) <= 4 * t;
  ft_body : zlen (body_of w) + 8 * zlen (vw_partition_index w) + 18 * zlen (vw_block w) +
    2 * zlen (vw_partition_hashes w) <= 88 + 20 * t;
  ft_hashes : zlen (vw_partition_hashes w) <= t;
  ft_count : 0 <= vw_partition_count w <= vw_next_ordinal w;
  ft_block : vw_block w = [] ∧ vw_block_first_key w = None ∨
    ∃ k, vw_block_first_key w = Some k ∧ key16 k ∧ 25 + zlen (ck_key k) <= zlen (vw_block w);
  ft_index : vw_partition_index w = [] ∧ vw_partition_first_key w = vw_block_first_key w ∨
    ∃ k, vw_partition_first_key w = Some k ∧ key16 k ∧ 40 + zlen (ck_key k) <= zlen (vw_partition_index w);
  ft_range : ∀ k, vw_min_key w = Some k ∨ vw_max_key w = Some k → key16 k ∧ 25 + zlen (ck_key k) <= t
}.

Lemma seal_ok w pt :
  0 <= vw_next_ordinal w < SST_FOOTER_BLOCK_INDEX → zlen pt + TAG_SIZE <= u32_max →
  ∃ h w' ct, seal w pt = Ok (h, w') ∧ body_of w' = body_of w ++ ct ∧ zlen ct = zlen pt + TAG_SIZE ∧
    w' = with_sealed w (vw_file w') (vw_pending w') (vw_unsynced w') (vw_file_offset w') (vw_next_ordinal w + 1).
Proof.
intros Ho Hl. unfold seal. cbv zeta. destruct (Z.eqb_spec (vw_next_ordinal w) SST_FOOTER_BLOCK_INDEX); [lia|].
unfold encrypt_section. destruct (seal_total (vw_dek w) (block_nonce (vw_sst_number w) (vw_next_ordinal w))
  (block_nonce (vw_sst_number w) (vw_next_ordinal w)) pt) as [ct Hct].
{ unfold AEAD_MAX, u32_max, TAG_SIZE in *. lia. }
rewrite Hct. cbn [ok_or mbind outcome_bind]. pose proof (seal_len _ _ _ _ _ Hct) as Hcl. unfold TAG_SIZE in *.
destruct (Z.ltb_spec u32_max (zlen ct)); [lia|]. destruct (Z.ltb_spec u32_max (zlen pt)); [lia|].
destruct (_ && _).
- eexists _, _, ct. split; [reflexivity|]. unfold body_of. simpl. split_and!; [|done|done]. done.
- eexists _, _, ct. split; [reflexivity|]. unfold body_of. simpl. split_and!; [|done|done]. by rewrite app_assoc.
Qed.

Lemma filter_size hs : zlen (bloom_encode (from_hashes hs)) <= 2 * zlen hs + 10.
Proof.
assert (Hf : ∀ l f, length (bf_bits (foldl (λ f h, insert_hashes h.1 h.2 f) f l)) = length (bf_bits f)).
{ intros l. induction l as [|h l IH]; intros f; simpl; [done|]. rewrite IH. by destruct (insert_hashes_shape h.1 h.2 f). }
unfold bloom_encode, from_hashes. rewrite zlen_cons. unfold zlen at 1. rewrite Hf. unfold empty_for.
pose proof (zlen_nonneg hs). destruct (Z.eqb_spec (zlen hs) 0) as [E|E]; simpl; [lia|]. rewrite repeat_length.
assert (Hd : (Z.max (Z.min (zlen hs * 10) u64_max) 64 + 7) / 8 < 2 * zlen hs + 9) by (apply Z.div_lt_upper_bound; lia).
pose proof (Z.div_pos (Z.max (Z.min (zlen hs * 10) u64_max) 64 + 7) 8). lia.
Qed.

Lemma footer_key_size k : key16 k → zlen (write_footer_key k) = 20 + zlen (ck_key k).
Proof. intros Hk. unfold write_footer_key. autorewrite with zlen. rewrite Hk. lia. Qed.

Lemma seal_partition_fits w t :
  fits w t → vw_block w = [] → ∃ w', seal_partition w = Ok w' ∧ fits w' t ∧ vw_block w' = [] ∧ vw_partition_index w' = [].
Proof.
intros Hw Hb. pose proof Hw as [Ht [Ho0 Ho] Hp Hbd Hh Hc Hblk Hi Hr]. unfold seal_partition.
destruct (vw_partition_index w) as [|b0 l0] eqn:Ei; [exists w; split_and!; done|]. rewrite <-Ei in *.
destruct Hi as [[Hi _]|(k & Hk & Hk16 & Hkl)]; [by rewrite Ei in Hi|]. rewrite Hk. cbn [ok_or mbind outcome_bind].
pose proof (zlen_nonneg (vw_block w)). pose proof (zlen_nonneg (vw_partitions w)). pose proof (zlen_nonneg (ck_key k)).
pose proof (filter_size (vw_partition_hashes w)) as Hfs. pose proof (zlen_nonneg (body_of w)).
unfold SMALL_FILE in Ht. pose proof (zlen_nonneg (vw_partition_hashes w)).
destruct (seal_ok w (bloom_encode (from_hashes (vw_partition_hashes w)))) as (fh & w1 & c1 & -> & Hb1 & Hc1 & Hw1).
{ unfold SST_FOOTER_BLOCK_INDEX, u32_max. lia. }
{ unfold u32_max, TAG_SIZE. lia. }
cbn [mbind outcome_bind].
assert (Hi1 : vw_partition_index w1 = vw_partition_index w) by (by rewrite Hw1).
assert (Hn1 : vw_next_ordinal w1 = vw_next_ordinal w + 1) by (by rewrite Hw1).
destruct (seal_ok w1 (vw_partition_index w1)) as (ih & w2 & c2 & -> & Hb2 & Hc2 & Hw2).
{ rewrite Hn1. unfold SST_FOOTER_BLOCK_INDEX, u32_max. lia. }
{ rewrite Hi1. unfold u32_max, TAG_SIZE. lia. }
cbn [mbind outcome_bind].
assert (Hpc : vw_partition_count w2 = vw_partition_count w) by (by rewrite Hw2, Hw1).
rewrite Hpc. destruct (Z.eqb_spec (vw_partition_count w) u32_max); [unfold u32_max in *; lia|].
eexists. split; [reflexivity|]. rewrite Hi1 in Hc2. unfold TAG_SIZE in *.
assert (Hn2 : vw_next_ordinal w2 = vw_next_ordinal w + 2) by (rewrite Hw2; simpl; lia).
assert (Hpp : vw_partitions w2 = vw_partitions w) by (by rewrite Hw2, Hw1).
assert (Hbb : vw_block w2 = vw_block w) by (by rewrite Hw2, Hw1).
assert (Hbf : vw_block_first_key w2 = vw_block_first_key w) by (by rewrite Hw2, Hw1).
assert (Hmn : vw_min_key w2 = vw_min_key w) by (by rewrite Hw2, Hw1).
assert (Hmx : vw_max_key w2 = vw_max_key w) by (by rewrite Hw2, Hw1).
split; [|simpl; rewrite Hbb; done].
assert (Hbody : zlen (body_of w2) = zlen (body_of w) + zlen c1 + zlen c2) by (rewrite Hb2, Hb1, !zlen_app; lia).
split; simpl; rewrite ?Hbb, ?Hn2, ?Hmn, ?Hmx; try done.
- change (zlen []) with 0. lia.
- rewrite Hpp. autorewrite with zlen. rewrite !handle_write_len, footer_key_size by done. unfold HANDLE_BYTES. lia.
- change (body_of (with_partition w2 [] None [] _ _)) with (body_of w2). rewrite Hbody. change (zlen []) with 0. lia.
- change (zlen []) with 0. lia.
- lia.
- by rewrite Hbf.
- left. split; [done|]. rewrite Hbf. destruct Hblk as [[_ ->]|(k' & _ & _ & Hk')]; [done|]. rewrite Hb in Hk'.
  change (zlen []) with 0 in Hk'. pose proof (zlen_nonneg (ck_key k')). lia.
Qed.

Lemma seal_data_block_fits w t :
  fits w t → ∃ w', seal_data_block w = Ok w' ∧ fits w' t ∧ vw_block w' = [].
Proof.
intros Hw. pose proof Hw as [Ht [Ho0 Ho] Hp Hbd Hh Hc Hblk Hi Hr]. unfold seal_data_block.
destruct (vw_block w) as [|b0 l0] eqn:Eb; [exists w; split_and!; done|]. rewrite <-Eb in *.
destruct Hblk as [[Hn _]|(k & Hk & Hk16 & Hkl)]; [by rewrite Eb in Hn|]. rewrite Hk. cbn [ok_or mbind outcome_bind].
pose proof (zlen_nonneg (vw_partition_index w)). pose proof (zlen_nonneg (ck_key k)). pose proof (zlen_nonneg (body_of w)).
unfold SMALL_FILE in Ht.
destruct (seal_ok w (vw_block w)) as (h & w1 & c & -> & Hb1 & Hc1 & Hw1).
{ unfold SST_FOOTER_BLOCK_INDEX, u32_max. lia. }
{ unfold u32_max, TAG_SIZE. lia. }
cbn [mbind outcome_bind]. unfold TAG_SIZE in *.
set (w2 := with_block w1 [] None _).
assert (Hil : zlen (vw_partition_index w2) = zlen (vw_partition_index w) + 40 + zlen (ck_key k)).
{ unfold w2. rewrite Hw1. simpl. autorewrite with zlen. rewrite handle_write_len, footer_key_size by done. unfold HANDLE_BYTES. lia. }
assert (Hb2 : zlen (body_of w2) = zlen (body_of w) + zlen (vw_block w) + 16).
{ change (body_of w2) with (body_of w1). rewrite Hb1, zlen_app. lia. }
assert (Hn2 : vw_next_ordinal w2 = vw_next_ordinal w + 1) by (unfold w2; by rewrite Hw1).
assert (Hpp : vw_partitions w2 = vw_partitions w) by (unfold w2; by rewrite Hw1).
assert (Hpf : vw_partition_first_key w2 = vw_partition_first_key w) by (unfold w2; by rewrite Hw1).
assert (Hph : vw_partition_hashes w2 = vw_partition_hashes w) by (unfold w2; by rewrite Hw1).
assert (Hpc : vw_partition_count w2 = vw_partition_count w) by (unfold w2; by rewrite Hw1).
assert (Hmn : vw_min_key w2 = vw_min_key w) by (unfold w2; by rewrite Hw1).
assert (Hmx : vw_max_key w2 = vw_max_key w) by (unfold w2; by rewrite Hw1).
assert (Hk2 : vw_block w2 = []) by done.
assert (Hw2 : fits w2 t).
{ split; rewrite ?Hil, ?Hb2, ?Hn2, ?Hpp, ?Hph, ?Hpc, ?Hmn, ?Hmx, ?Hk2, ?Hpf; try change (zlen (@nil byte)) with 0;
    unfold SMALL_FILE; try lia; [by left| |done].
  right. destruct Hi as [[_ Hi]|(k' & Hk' & Hk16' & Hl')].
  - exists k. split_and!; [congruence|done|lia].
  - exists k'. split_and!; [done|done|lia]. }
destruct (_ <=? _); [|by exists w2].
destruct (seal_partition_fits w2 t Hw2 Hk2) as (w3 & H3 & Hf3 & Hb3 & _). by exists w3.
Qed.

Lemma push_fits w t k v :
  fits w t → key16 k → t + zlen (serialize_entry k v) <= SMALL_FILE →
  ∃ w', push w k v = Ok w' ∧ fits w' (t + zlen (serialize_entry k v)).
Proof.
intros [Ht [Ho0 Ho] Hp Hbd Hh Hc Hblk Hi Hr] Hk Hl. unfold push. set (w1 := MkWriter _ _ _ _ _ _ _ _ _ _ _ _ _ _ _ _ _).
pose proof (serialize_entry_len k v Hk) as Hs. set (s := zlen (serialize_entry k v)) in *.
pose proof (zlen_nonneg (ck_key k)). pose proof (zlen_nonneg (default [] (value_view v))).
assert (Hw1 : fits w1 (t + s)).
{ split; simpl; rewrite ?zlen_app; fold s; try change (zlen [_]) with 1; try lia.
  - change (body_of w1) with (body_of w). lia.
  - right. destruct Hblk as [[-> ->]|(k' & -> & Hk' & Hl')]; simpl; [exists k|exists k']; split_and!; try done; try lia.
    change (zlen (@nil byte)) with 0. lia.
  - destruct Hi as [[-> ->]|(k' & -> & Hk' & Hl')]; [by left|]. right. by exists k'.
  - intros k' Hk'. assert (key16 k' ∧ 25 + zlen (ck_key k') <= t ∨ k' = k) as [[? ?]|Hx].
    { destruct Hk' as [Hk'|Hk']; [|right; congruence]. destruct (vw_min_key w) as [m|] eqn:Em; simpl in Hk';
      injection Hk' as ->; [|by right]. left. apply Hr. by left. }
    + split; [done|lia].
    + subst k'. split; [done|lia]. }
destruct (_ <=? _); [|by exists w1]. destruct (seal_data_block_fits w1 _ Hw1) as (w2 & H2 & Hf2 & _). by exists w2.
Qed.

Lemma ser_entries_cons e es : ser_entries (e :: es) = serialize_entry e.1 e.2 ++ ser_entries es.
Proof. done. Qed.

Lemma push_all_fits es w t :
  fits w t → Forall (key16 ∘ fst) es → t + entries_bytes es <= SMALL_FILE →
  ∃ w', push_all w es = Ok w' ∧ fits w' (t + entries_bytes es).
Proof.
unfold entries_bytes. intros Hw Hes. revert w t Hw. induction Hes as [|[k v] es Hk Hes IH]; intros w t Hw Hl.
{ exists w. change (zlen (ser_entries [])) with 0. by rewrite Z.add_0_r. }
rewrite ser_entries_cons, zlen_app in *. cbn [fst snd] in *. pose proof (zlen_nonneg (ser_entries es)).
destruct (push_fits w t k v Hw Hk) as (w1 & H1 & Hf1); [lia|]. cbn [push_all]. rewrite H1. cbn [mbind outcome_bind].
rewrite Z.add_assoc. apply IH; [done|lia].
Qed.

Lemma finish_fits w t : fits w t → ∃ file meta, finish w = Ok (file, meta) ∧ zlen file <= u64_max.
Proof.
intros Hw. unfold finish. destruct (seal_data_block_fits w t Hw) as (w1 & -> & Hf1 & Hb1). cbn [mbind outcome_bind].
destruct (seal_partition_fits w1 t Hf1 Hb1) as (w2 & -> & [Ht [Ho0 Ho] Hp Hbd Hh Hc _ _ Hr] & Hb2 & Hi2). cbn [mbind outcome_bind].
fold (body_of w2). cbv zeta. rewrite Hb2, Hi2 in *. change (zlen (@nil byte)) with 0 in *. unfold SMALL_FILE in Ht.
pose proof (zlen_nonneg (vw_partition_hashes w2)).
set (rng := match vw_min_key w2 with Some _ => _ | None => _ end).
assert (Hrng : zlen rng <= 1 + 2 * t).
{ unfold rng. destruct (vw_min_key w2) as [mn|] eqn:En, (vw_max_key w2) as [mx|] eqn:Ex;
    [|change (zlen [x00]) with 1; lia..].
  destruct (Hr mn) as [Hn1 Hn2]; [by left|]. destruct (Hr mx) as [Hx1 Hx2]; [by right|].
  autorewrite with zlen. rewrite !footer_key_size by done. lia. }
set (footer := to_le 8 _ ++ _). assert (Hfl : zlen footer <= 13 + 6 * t) by (unfold footer; autorewrite with zlen; lia).
unfold encrypt_section. destruct (seal_total (vw_dek w2) (block_nonce (vw_sst_number w2) SST_FOOTER_BLOCK_INDEX)
  (block_nonce (vw_sst_number w2) SST_FOOTER_BLOCK_INDEX) footer) as [ct Hct]; [unfold AEAD_MAX; lia|].
rewrite Hct. cbn [ok_or mbind outcome_bind]. pose proof (seal_len _ _ _ _ _ Hct) as Hcl. unfold TAG_SIZE in *.
destruct (Z.ltb_spec u32_max (zlen ct)); [unfold u32_max in *; lia|]. eexists _, _. split; [reflexivity|].
assert (Hd : ∀ l : list byte, zlen (drop 12 l) <= zlen l) by (intros l; unfold zlen; rewrite length_drop; lia).
rewrite zlen_app. etrans; [apply Z.add_le_mono_l, Hd|]. autorewrite with zlen. change (zlen SST_MAGIC_V4) with 4.
unfold u64_max. lia.
Qed.

Lemma fits_start hdr n dek : header_wf hdr → fits (writer_start hdr n dek) 0.
Proof.
intros Hh. split; simpl; try (change (zlen []) with 0; unfold SMALL_FILE; lia).
- unfold body_of. simpl. rewrite app_nil_r, !zlen_cons, header_to_bytes_len by done. done.
- by left.
- by left.
- by intros k [|].
Qed.

(** A file of moderate size is always written. For entries whose serialisations
total at most 512 MiB, no block, index, filter or footer reaches its 32-bit length,
no ordinal reaches the one the footer reserves, and the writer returns a file. *)
Theorem write_sst_total hdr n dek es :
  header_wf hdr → Forall (λ p, zlen (ck_realm p.1) = 16) es → entries_bytes es <= SMALL_FILE →
  ∃ file meta, write_sst hdr n dek es = Ok (file, meta) ∧ zlen file <= u64_max.
Proof.
intros Hh Hes Hl. unfold write_sst.
destruct (push_all_fits es _ 0 (fits_start hdr n dek Hh) Hes) as (w & -> & Hw); [lia|].
cbn [mbind outcome_bind]. by eapply finish_fits.
Qed.

End sizes.

Lemma write_sst_total_witness :
  ∃ file meta, @write_sst toy_aead toy_crc (MkEncHeader (repeat x03 16) (repeat x04 48) (repeat x05 12)) 7 (repeat x06 32)
    [(CKey (repeat x01 16) [x61], Data [x31])] = Ok (file, meta) ∧ zlen file <= u64_max.
Proof.
apply (write_sst_total (HA := toy_aead) (HC := toy_crc) (HAL := toy_aead_laws)); [repeat split|by repeat constructor|].
vm_compute. congruence.
Defined.
