(* ===== verification/SstReader.v ===== *)
(** * Reading an SST file

[SstReader] of [storage/sst.rs]: opening the four formats, point lookups, block
walks, range scans and key cursors. A reader reads blocks through the shared block
cache; the cache is the function [cache] from a block's ordinal to the decoded
block it holds for this reader, and which blocks it holds does not matter as long
as each is the one the file holds ([cache_coherent]). *)
From stdpp Require Import base list gmap strings sorting lexico.
From Stdlib Require Import Strings.Byte ZArith Lia.
From S2P Require Import Prelude OrdMap StorageTypes Crypto Bloom SstCodec SstWriter KeyMerge.

Open Scope Z_scope.

Inductive Piece :=
| Pinned (b : Block)
| Stored (h : BlockHandle).

Record Partition := MkPartition {
  pt_first_key : CompositeKey;
  pt_index : Piece;
  pt_filter : option Piece
}.

Record BlockedBody := MkBlocked {
  bb_backing : list byte;
  bb_blocks_end : Z;
  bb_partitions : list Partition;
  bb_dek : list byte;
  bb_max_entries : Z
}.

Inductive SstBody :=
| Eager (entries : list Entry)
| Blocked (body : BlockedBody).

Record SstReader := MkReader {
  sr_body : SstBody;
  sr_entry_count : Z;
  sr_sst_number : Z;
  sr_bloom_filter : option BloomFilter;
  sr_key_range : option (CompositeKey * CompositeKey)
}.

(** [slice::partition_point]. *)
Definition partition_point {A} (f : A → bool) (l : list A) : Z :=
  bisect (length l) (λ i, match at_ i l with Some x => f x | None => false end) 0 (zlen l).

Section open.
Context `{HA : Aead} `{HC : Crc32}.

Definition read_footer (backing : list byte) (stored_crc sst_number : Z) (dek : list byte)
  : res (Z * list byte) :=
  let len := zlen backing in
  if len <? TOTAL_HEADER_SIZE + TRAILER_SIZE
  then Err (InvalidSstFormat "SST file too small for its trailer")
  else
    trailer ← index_range (len - TRAILER_SIZE) len backing;
    offb ← index_range 0 8 trailer;
    offb ← try_into 8 (InvalidSstFormat "SST trailer: invalid footer offset") offb;
    lenb ← index_range 8 12 trailer;
    lenb ← try_into 4 (InvalidSstFormat "SST trailer: invalid footer length") lenb;
    let footer_offset := from_le offb in
    let footer_len := from_le lenb in
    let footer_end := footer_offset + footer_len in
    if negb ((footer_end <=? u64_max) && (TOTAL_HEADER_SIZE <=? footer_offset) &&
             (footer_end <=? len - TRAILER_SIZE))
    then Err (InvalidSstFormat "SST footer offset/length out of range (truncated?)")
    else
      footer_ct ← index_range footer_offset footer_end backing;
      if negb (crc32 footer_ct =? stored_crc) then Err (ChecksumMismatch footer_offset)
      else
        let footer_nonce := block_nonce sst_number SST_FOOTER_BLOCK_INDEX in
        footer_plain ← decrypt_section footer_ct dek footer_nonce footer_nonce;
        Ok (footer_offset, footer_plain).

Definition check_block_range (h : BlockHandle) (blocks_end : Z) : res unit :=
  let start := bh_file_offset h in
  let end_ := start + bh_ciphertext_len h in
  if u64_max <? end_ then Err (InvalidSstFormat "SST block length overflow")
  else if (start <? TOTAL_HEADER_SIZE) || (blocks_end <? end_) ||
          (bh_ordinal h =? SST_FOOTER_BLOCK_INDEX)
  then Err (InvalidSstFormat "SST block range out of bounds (truncated?)")
  else Ok tt.

(** The loop over the partition entries of a v4 footer. *)
Fixpoint parse_partitions (n : nat) (data : list byte) (pos : Z) (acc : list Partition)
  : res (list Partition * Z) :=
  match n with
  | O => Ok (acc, pos)
  | S n' =>
      let trunc := InvalidSstFormat "v4: truncated footer" in
      '(first_key, next) ← read_footer_key data pos;
      index ← ok_or trunc (handle_read data next);
      has_filter ← ok_or trunc (at_ (next + HANDLE_BYTES) data);
      let filter_pos := next + HANDLE_BYTES + 1 in
      filter ← ok_or trunc (handle_read data filter_pos);
      parse_partitions n' data (filter_pos + HANDLE_BYTES)
        (acc ++ [MkPartition first_key (Stored index)
                   (if decide (has_filter = x01) then Some (Stored filter) else None)])
  end.

Definition parse_v4_footer (data : list byte)
  : res (Z * list Partition * option (CompositeKey * CompositeKey)) :=
  let trunc := InvalidSstFormat "v4: truncated footer" in
  entry_count ← ok_or trunc (from_le <$> slice 0 8 data);
  partition_count ← ok_or trunc (from_le <$> slice 8 12 data);
  '(partitions, pos) ← parse_partitions (Z.to_nat partition_count) data 12 [];
  has_range ← ok_or trunc (at_ pos data);
  key_range ← (if decide (has_range = x01) then
                 '(mn, p1) ← read_footer_key data (pos + 1);
                 '(mx, _) ← read_footer_key data p1;
                 Ok (Some (mn, mx))
               else Ok None);
  Ok (entry_count, partitions, key_range).

Fixpoint check_pieces (pieces : list Piece) (blocks_end : Z) : res unit :=
  match pieces with
  | [] => Ok tt
  | Stored h :: rest => check_block_range h blocks_end ≫= λ _, check_pieces rest blocks_end
  | Pinned _ :: rest => check_pieces rest blocks_end
  end.

Definition pieces_of (p : Partition) : list Piece :=
  pt_index p :: match pt_filter p with Some f => [f] | None => [] end.

Definition open_v4 (backing : list byte) (entry_count stored_crc sst_number : Z) (dek : list byte)
  : res SstReader :=
  '(footer_offset, footer_plain) ← read_footer backing stored_crc sst_number dek;
  '(max_entries, partitions, key_range) ← parse_v4_footer footer_plain;
  check_pieces (partitions ≫= pieces_of) footer_offset ≫= λ _,
  Ok (MkReader (Blocked (MkBlocked backing footer_offset partitions dek max_entries))
        entry_count sst_number None key_range).

(** The v3 footer: the whole block index and Bloom filter. *)
Record BlockIndexEntry := MkBlockIndexEntry {
  bi_first_key : CompositeKey;
  bi_file_offset : Z;
  bi_ciphertext_len : Z;
  bi_plaintext_len : Z
}.

Definition read_uint (w : Z) (data : list byte) (pos : Z) : res Z :=
  ok_or (InvalidSstFormat "v3: truncated footer") (from_le <$> slice pos (pos + w) data).

Fixpoint parse_v3_index (n : nat) (data : list byte) (pos : Z) (acc : list BlockIndexEntry)
  : res (list BlockIndexEntry * Z) :=
  match n with
  | O => Ok (acc, pos)
  | S n' =>
      file_offset ← read_uint 8 data pos;
      ciphertext_len ← read_uint 4 data (pos + 8);
      plaintext_len ← read_uint 4 data (pos + 12);
      '(first_key, next) ← read_footer_key data (pos + 16);
      parse_v3_index n' data next
        (acc ++ [MkBlockIndexEntry first_key file_offset ciphertext_len plaintext_len])
  end.

Definition parse_v3_footer (data : list byte)
  : res (list BlockIndexEntry * option (CompositeKey * CompositeKey) * option BloomFilter) :=
  let trunc := InvalidSstFormat "v3: truncated footer" in
  block_count ← read_uint 4 data 0;
  '(index, pos) ← parse_v3_index (Z.to_nat block_count) data 4 [];
  has_range ← ok_or trunc (at_ pos data);
  let pos := pos + 1 in
  '(key_range, pos) ← (if decide (has_range = x01) then
                 '(mn, p1) ← read_footer_key data pos;
                 '(mx, p2) ← read_footer_key data p1;
                 Ok (Some (mn, mx), p2)
               else Ok (None, pos));
  bloom_byte_count ← read_uint 4 data pos;
  let pos := pos + 4 in
  bloom_filter ← (if 0 <? bloom_byte_count then
                    k ← ok_or trunc (at_ pos data);
                    bits ← ok_or trunc (slice (pos + 1) (pos + 1 + bloom_byte_count) data);
                    Ok (Some (MkBloom bits k))
                  else Ok None);
  Ok (index, key_range, bloom_filter).

(** The loop that turns a v3 index into the plaintext of one index block. *)
Fixpoint v3_index_plaintext (index : list BlockIndexEntry) (ordinal : Z) (footer_offset : Z)
    (acc : list byte) : res (list byte) :=
  match index with
  | [] => Ok acc
  | e :: rest =>
      if u32_max <? ordinal then Err (InvalidSstFormat "v3: too many blocks")
      else
        let handle := MkHandle (bi_file_offset e) (bi_ciphertext_len e) (bi_plaintext_len e) ordinal in
        check_block_range handle footer_offset ≫= λ _,
        v3_index_plaintext rest (ordinal + 1) footer_offset
          (acc ++ write_footer_key (bi_first_key e) ++ handle_write handle)
  end.

Definition open_v3 (backing : list byte) (entry_count stored_crc sst_number : Z) (dek : list byte)
  : res SstReader :=
  '(footer_offset, footer_plain) ← read_footer backing stored_crc sst_number dek;
  '(index, key_range, bloom_filter) ← parse_v3_footer footer_plain;
  index_plaintext ← v3_index_plaintext index 0 footer_offset [];
  let max_entries := foldl sat_add_u64 0
    ((λ e, bi_plaintext_len e / SST_MIN_ENTRY_BYTES) <$> index) in
  partitions ← match index with
    | [] => Ok []
    | first :: _ =>
        ib ← index_decode index_plaintext;
        Ok [MkPartition (bi_first_key first) (Pinned (BIndex ib))
              ((λ f, Pinned (BFilter f)) <$> bloom_filter)]
    end;
  Ok (MkReader (Blocked (MkBlocked backing footer_offset partitions dek max_entries))
        entry_count sst_number None key_range).

(** The eager formats. *)
Fixpoint parse_entries_loop (fuel : nat) (data : list byte) (pos : Z) (acc : list Entry)
  : res (list Entry) :=
  if pos <? zlen data then
    match fuel with
    | O => Panic
    | S fuel' =>
        '(e, next) ← read_entry data pos;
        parse_entries_loop fuel' data next (acc ++ [into_owned e])
    end
  else Ok acc.

Definition deserialize_entries (data : list byte) (expected_count : Z) : res (list Entry) :=
  entries ← parse_entries_loop (length data) data 0 [];
  let actual_count := zlen entries mod 2 ^ 32 in
  if negb (actual_count =? expected_count)
  then Err (InvalidSstFormat ("entry count mismatch: header says " +:+ show expected_count +:+
         ", found " +:+ show actual_count))
  else Ok entries.

Definition parse_v2_plaintext (data : list byte) (expected_count : Z)
  : res (list Entry * option BloomFilter) :=
  if zlen data <? 4 then Err (InvalidSstFormat "V2: truncated bloom header")
  else
    cb ← index_range 0 4 data;
    cb ← try_into 4 (InvalidSstFormat "V2: invalid bloom byte count bytes") cb;
    let bloom_byte_count := from_le cb in
    let pos := 4 in
    '(bloom_filter, pos) ←
      (if 0 <? bloom_byte_count then
         if zlen data <=? pos then Err (InvalidSstFormat "V2: missing bloom k byte")
         else
           bloom_k ← index_at pos data;
           let pos := pos + 1 in
           if zlen data <? pos + bloom_byte_count
           then Err (InvalidSstFormat "V2: truncated bloom bits")
           else
             bits ← index_range pos (pos + bloom_byte_count) data;
             Ok (Some (MkBloom bits bloom_k), pos + bloom_byte_count)
       else Ok (None, pos));
    rest ← index_range pos (zlen data) data;
    entries ← deserialize_entries rest expected_count;
    Ok (entries, bloom_filter).

Definition eager_range (entries : list Entry) : option (CompositeKey * CompositeKey) :=
  match head entries, last entries with
  | Some (mn, _), Some (mx, _) => Some (mn, mx)
  | _, _ => None
  end.

Definition open_with_fs (backing : list byte) (sst_number : Z) (dek : list byte) : res SstReader :=
  if zlen backing <? TOTAL_HEADER_SIZE
  then Err (InvalidSstFormat ("file too small: " +:+ show (zlen backing) +:+ " bytes"))
  else
    cb ← index_range 4 8 backing;
    cb ← try_into 4 (InvalidSstFormat "invalid entry count bytes") cb;
    let entry_count := from_le cb in
    kb ← index_range 8 12 backing;
    kb ← try_into 4 (InvalidSstFormat "invalid CRC bytes") kb;
    let stored_crc := from_le kb in
    enc ← index_range BASE_HEADER_SIZE TOTAL_HEADER_SIZE backing;
    enc ← try_into ENCRYPTION_HEADER_SIZE (InvalidSstFormat "truncated encryption header") enc;
    _h ← header_from_bytes enc;
    magic ← index_range 0 4 backing;
    if decide (magic = SST_MAGIC_V4) then open_v4 backing entry_count stored_crc sst_number dek
    else if decide (magic = SST_MAGIC_V3) then open_v3 backing entry_count stored_crc sst_number dek
    else
      is_v2 ← (if decide (magic = SST_MAGIC) then Ok false
               else if decide (magic = SST_MAGIC_V2) then Ok true
               else Err (InvalidSstFormat "invalid magic bytes"));
      ciphertext ← index_range TOTAL_HEADER_SIZE (zlen backing) backing;
      plaintext ← decrypt_section ciphertext dek (counter_nonce sst_number) (to_le 8 sst_number);
      if negb (stored_crc =? crc32 plaintext) then Err (ChecksumMismatch TOTAL_HEADER_SIZE)
      else
        '(entries, bloom_filter) ←
          (if (is_v2 : bool) then parse_v2_plaintext plaintext entry_count
           else entries ← deserialize_entries plaintext entry_count; Ok (entries, None));
        Ok (MkReader (Eager entries) entry_count sst_number bloom_filter (eager_range entries)).

End open.

Section read.
Context `{HA : Aead} `{HC : Crc32}.
(** The blocks of this reader the cache holds, by ordinal. *)
Variable cache : Z → option Block.

Definition partition_for_key (body : BlockedBody) (realm key : list byte) : option Z :=
  checked_pred (partition_point (λ p, is_le (ord_cmp (pt_first_key p) (CKey realm key)))
    (bb_partitions body)).

(** The decryption and decoding [load] does on a cache miss. *)
Definition load_uncached (body : BlockedBody) (h : BlockHandle) (kind : BlockKind) (sst_number : Z)
  : res Block :=
  let start := bh_file_offset h in
  let end_ := start + bh_ciphertext_len h in
  if negb ((end_ <=? u64_max) && (TOTAL_HEADER_SIZE <=? start) && (end_ <=? bb_blocks_end body))
  then Err (InvalidSstFormat "SST block lies outside the data section")
  else
    let nonce := block_nonce sst_number (bh_ordinal h) in
    ct ← index_range start end_ (bb_backing body);
    plaintext ← decrypt_section ct (bb_dek body) nonce nonce;
    block_decode kind plaintext.

Definition load (body : BlockedBody) (h : BlockHandle) (kind : BlockKind) (sst_number : Z)
    (cached : bool) : res Block :=
  match (if cached then cache (bh_ordinal h) else None) with
  | Some b => if decide (block_kind b = kind) then Ok b else Err wrong_kind
  | None => load_uncached body h kind sst_number
  end.

Definition read_piece (body : BlockedBody) (p : Piece) (kind : BlockKind) (sst_number : Z) (cached : bool)
  : res Block :=
  match p with
  | Pinned b => Ok b
  | Stored h => load body h kind sst_number cached
  end.

Definition blocked_get (body : BlockedBody) (realm key : list byte) (sst_number : Z) (cached : bool)
  : res (option MemtableValue) :=
  match partition_for_key body realm key ≫= λ p, at_ p (bb_partitions body) with
  | None => Ok None
  | Some partition =>
      passes ← match pt_filter partition with
        | None => Ok true
        | Some f =>
            b ← read_piece body f KFilter sst_number cached;
            filter ← block_filter b;
            Ok (might_contain realm key filter)
        end;
      if negb passes then Ok None
      else
        b ← read_piece body (pt_index partition) KIndex sst_number cached;
        index ← block_index b;
        match position_for index realm key ≫= index_entry index with
        | None => Ok None
        | Some e =>
            b ← load body (ie_handle e) KData sst_number cached;
            d ← block_data b;
            Ok (memtable_value <$> data_find d realm key)
        end
  end.

Definition may_contain (r : SstReader) (realm key : list byte) : bool :=
  match sr_key_range r with
  | None => false
  | Some (mn, mx) => is_le (ord_cmp mn (CKey realm key)) && is_ge (ord_cmp mx (CKey realm key))
  end.

Definition overlaps_range (r : SstReader) (realm start_key end_key : list byte) : bool :=
  match sr_key_range r with
  | None => false
  | Some (mn, mx) => is_lt (ord_cmp mn (CKey realm end_key)) && is_ge (ord_cmp mx (CKey realm start_key))
  end.

(** [binary_search_by] on the resident entries of an eager reader. *)
Definition eager_get (entries : list Entry) (realm key : list byte) : option MemtableValue :=
  match at_ (partition_point (λ p, is_lt (ord_cmp p.1 (CKey realm key))) entries) entries with
  | Some (k, v) => if is_eq (ord_cmp k (CKey realm key)) then Some v else None
  | None => None
  end.

Definition get_with (r : SstReader) (realm key : list byte) (cached : bool)
  : res (option MemtableValue) :=
  if negb (may_contain r realm key) then Ok None
  else if match sr_bloom_filter r with Some f => negb (might_contain realm key f) | None => false end
  then Ok None
  else
    match sr_body r with
    | Eager entries => Ok (eager_get entries realm key)
    | Blocked body => blocked_get body realm key (sr_sst_number r) cached
    end.

(** ** Walking the data blocks *)

Record BlockWalk := MkWalk {
  wk_partition : Z;
  wk_index : option Block;
  wk_next : Z
}.

Definition walk_from_start : BlockWalk := MkWalk 0 None 0.

Definition load_index (body : BlockedBody) (sst_number : Z) (cached : bool) (partition : Z) : res Block :=
  p ← ok_or (InvalidSstFormat "SST partition out of range") (at_ partition (bb_partitions body));
  read_piece body (pt_index p) KIndex sst_number cached.

Definition walk_seek (body : BlockedBody) (sst_number : Z) (cached : bool) (realm key : list byte)
  : res BlockWalk :=
  match partition_for_key body realm key with
  | None => Ok walk_from_start
  | Some p =>
      b ← load_index body sst_number cached p;
      index ← block_index b;
      Ok (MkWalk p (Some b) (default 0 (position_for index realm key)))
  end.

Definition past_end (end_ : option CompositeKey) (k : CompositeKey) : bool :=
  match end_ with Some e => is_ge (ord_cmp k e) | None => false end.

(** [next_block]: the loop steps over exhausted partitions, so one more iteration
than there are partitions is enough. *)
Fixpoint next_block (fuel : nat) (body : BlockedBody) (sst_number : Z) (cached : bool)
    (end_ : option CompositeKey) (walk : BlockWalk) : res (option Block * BlockWalk) :=
  match fuel with
  | O => Panic
  | S fuel' =>
      match at_ (wk_partition walk) (bb_partitions body) with
      | None => Ok (None, walk)
      | Some partition =>
          let continue b :=
            index ← block_index b;
            match index_entry index (wk_next walk) with
            | Some e =>
                if past_end end_ (ie_first e)
                then Ok (None, MkWalk (wk_partition walk) (Some b) (wk_next walk))
                else
                  d ← load body (ie_handle e) KData sst_number cached;
                  Ok (Some d, MkWalk (wk_partition walk) (Some b) (wk_next walk + 1))
            | None =>
                next_block fuel' body sst_number cached end_ (MkWalk (wk_partition walk + 1) None 0)
            end in
          match wk_index walk with
          | Some b => continue b
          | None =>
              if past_end end_ (pt_first_key partition) then Ok (None, walk)
              else b ← load_index body sst_number cached (wk_partition walk); continue b
          end
      end
  end.

Definition walk_step (body : BlockedBody) (sst_number : Z) (cached : bool)
    (end_ : option CompositeKey) (walk : BlockWalk) : res (option Block * BlockWalk) :=
  next_block (S (length (bb_partitions body))) body sst_number cached end_ walk.

(** The [while let Some(block) = walk.next_block(end)] loops: every entry of every
block the walk meets, in order. A block holds an entry, so the entry count of the
authenticated footer bounds the iterations. *)
Fixpoint walk_entries (fuel : nat) (body : BlockedBody) (sst_number : Z) (cached : bool)
    (end_ : option CompositeKey) (walk : BlockWalk) (acc : list EntryRef) : res (list EntryRef) :=
  match fuel with
  | O => Panic
  | S fuel' =>
      '(ob, walk) ← walk_step body sst_number cached end_ walk;
      match ob with
      | None => Ok acc
      | Some b =>
          d ← block_data b;
          walk_entries fuel' body sst_number cached end_ walk (acc ++ data_iter d)
      end
  end.

Definition walk_fuel (body : BlockedBody) : nat := S (Z.to_nat (bb_max_entries body)).

Definition iter_all (r : SstReader) : res (list Entry) :=
  match sr_body r with
  | Eager entries => Ok entries
  | Blocked body =>
      refs ← walk_entries (walk_fuel body) body (sr_sst_number r) true None walk_from_start [];
      Ok (into_owned <$> (refs : list EntryRef))
  end.

Definition iter_realm (r : SstReader) (realm : list byte) : res (list (list byte * MemtableValue)) :=
  entries ← iter_all r;
  Ok ((λ p, (ck_key p.1, p.2)) <$> filter (λ p, ck_realm p.1 = realm) (entries : list Entry)).

Definition in_window (start end_ k : CompositeKey) : bool :=
  is_ge (ord_cmp k start) && is_lt (ord_cmp k end_).

Definition range_scan_inner {T} (r : SstReader) (realm start_key end_key : list byte)
    (project : option (list byte) → T) : res (list (list byte * T)) :=
  if ord_lt end_key start_key then Err InvalidRange
  else if negb (overlaps_range r realm start_key end_key) then Ok []
  else
    let start := CKey realm start_key in
    let end_ := CKey realm end_key in
    match sr_body r with
    | Eager entries =>
        let lo := partition_point (λ p, is_lt (ord_cmp p.1 start)) entries in
        let hi := partition_point (λ p, is_lt (ord_cmp p.1 end_)) entries in
        window ← index_range lo hi entries;
        Ok ((λ p, (ck_key p.1, project (value_view p.2))) <$> (window : list Entry))
    | Blocked body =>
        walk ← walk_seek body (sr_sst_number r) true realm start_key;
        refs ← walk_entries (walk_fuel body) body (sr_sst_number r) true (Some end_) walk [];
        Ok ((λ e, (er_key e, project (er_value e))) <$>
              filter (λ e, in_window start end_ (entry_key e) = true) (refs : list EntryRef))
    end.

Definition range_scan (r : SstReader) (realm start_key end_key : list byte)
  : res (list (list byte * MemtableValue)) :=
  range_scan_inner r realm start_key end_key
    (λ v, match v with None => Tombstone | Some d => Data d end).

Definition range_scan_keys (r : SstReader) (realm start_key end_key : list byte)
  : res (list (list byte * bool)) :=
  range_scan_inner r realm start_key end_key (λ v, match v with Some _ => true | None => false end).

(** ** Key cursors *)

Record BlockedKeyCursor := MkBlockedCursor {
  bc_body : BlockedBody;
  bc_sst_number : Z;
  bc_cached : bool;
  bc_walk : BlockWalk;
  bc_end : CompositeKey;
  bc_block : option DataBlock;
  bc_pos : Z
}.

Definition load_block (c : BlockedKeyCursor) : res BlockedKeyCursor :=
  '(ob, walk) ← walk_step (bc_body c) (bc_sst_number c) (bc_cached c) (Some (bc_end c)) (bc_walk c);
  d ← match ob with None => Ok None | Some b => Some <$> block_data b end;
  Ok (MkBlockedCursor (bc_body c) (bc_sst_number c) (bc_cached c) walk (bc_end c) d 0).

Definition end_cursor (c : BlockedKeyCursor) : BlockedKeyCursor :=
  MkBlockedCursor (bc_body c) (bc_sst_number c) (bc_cached c) (bc_walk c) (bc_end c) None (bc_pos c).

Fixpoint settle (fuel : nat) (c : BlockedKeyCursor) : res BlockedKeyCursor :=
  match fuel with
  | O => Panic
  | S fuel' =>
      match bc_block c with
      | None => Ok c
      | Some d =>
          match data_entry d (bc_pos c) with
          | Some e => Ok (if is_ge (ord_cmp (entry_key e) (bc_end c)) then end_cursor c else c)
          | None => load_block c ≫= settle fuel'
          end
      end
  end.

Inductive SstKeyCursor :=
| CDone
| CEager (entries : list Entry)
| CBlocked (c : BlockedKeyCursor).

Definition cursor_entry (c : SstKeyCursor) : option (list byte * option (list byte)) :=
  match c with
  | CDone => None
  | CEager entries => (λ p, (ck_key p.1, value_view p.2)) <$> head entries
  | CBlocked c => d ← bc_block c; (λ e, (er_key e, er_value e)) <$> data_entry d (bc_pos c)
  end.

Definition cursor_fuel (c : BlockedKeyCursor) : nat := S (walk_fuel (bc_body c)).

Definition cursor_advance (c : SstKeyCursor) : res SstKeyCursor :=
  match c with
  | CDone => Ok CDone
  | CEager entries => Ok (CEager (tail entries))
  | CBlocked c =>
      let c' := MkBlockedCursor (bc_body c) (bc_sst_number c) (bc_cached c) (bc_walk c) (bc_end c)
        (bc_block c) (bc_pos c + 1) in
      CBlocked <$> settle (cursor_fuel c') c'
  end.

Definition sst_cursor (r : SstReader) (realm start_key end_key : list byte) (cached : bool)
  : res SstKeyCursor :=
  if ord_lt end_key start_key then Err InvalidRange
  else if negb (overlaps_range r realm start_key end_key) then Ok CDone
  else
    let start := CKey realm start_key in
    let end_ := CKey realm end_key in
    match sr_body r with
    | Eager entries =>
        let lo := partition_point (λ p, is_lt (ord_cmp p.1 start)) entries in
        let hi := partition_point (λ p, is_lt (ord_cmp p.1 end_)) entries in
        window ← index_range lo hi entries;
        Ok (CEager window)
    | Blocked body =>
        walk ← walk_seek body (sr_sst_number r) cached realm start_key;
        c ← load_block (MkBlockedCursor body (sr_sst_number r) cached walk end_ None 0);
        let c := match bc_block c with
          | Some d => MkBlockedCursor (bc_body c) (bc_sst_number c) (bc_cached c) (bc_walk c) (bc_end c)
                        (Some d) (lower_bound d realm start_key)
          | None => c
          end in
        CBlocked <$> settle (cursor_fuel c) c
    end.

End read.

(** ** Opening a written file *)

Definition range_of (es : list Entry) : option (CompositeKey * CompositeKey) :=
  match fst <$> head es, fst <$> last es with
  | Some mn, Some mx => Some (mn, mx)
  | _, _ => None
  end.

Definition partition_of (p : Part) : Partition :=
  MkPartition (pa_first p) (Stored (pa_index p)) (Some (Stored (pa_filter p))).

Definition blocked_of (file body dek : list byte) (ps : list Part) (es : list Entry) : BlockedBody :=
  MkBlocked file (zlen body) (partition_of <$> ps) dek (Z.min u64_max (zlen es)).

Lemma at_skip {A} i (l1 l2 : list A) : zlen l1 <= i → at_ i (l1 ++ l2) = at_ (i - zlen l1) l2.
Proof.
intros Hi. unfold at_. pose proof (zlen_nonneg l1).
destruct (Z.leb_spec 0 i), (Z.leb_spec 0 (i - zlen l1)); try lia.
unfold zlen in *. rewrite lookup_app_r by lia. f_equal. lia.
Qed.

Section open_lemmas.
Context `{HA : Aead} `{HC : Crc32} `{HAL : !AeadLaws} `{HCL : !Crc32Laws}.

(** A key that a file holds fits its fields. *)
Definition key_fits (k : CompositeKey) : Prop := zlen (ck_realm k) = 16 ∧ zlen (ck_key k) <= u32_max.

Lemma entry_wf_fits p : entry_wf p → key_fits p.1.
Proof. intros (H1 & H2 & _). by split. Qed.

Lemma dblocks_wf file dek n bs : Forall (dblock_ok file dek n) bs → Forall entry_wf (blocks_entries bs).
Proof.
intros Hf. unfold blocks_entries. apply Forall_join, Forall_fmap. eapply Forall_impl; [exact Hf|].
intros b (_ & Hw & _). exact Hw.
Qed.

Lemma part_ok_wf file dek n p : part_ok file dek n p → Forall entry_wf (pa_entries p) ∧ key_fits (pa_first p).
Proof.
intros ((v & rest & Hf) & Hb & _). pose proof (dblocks_wf _ _ _ _ Hb) as Hw. split; [exact Hw|].
unfold pa_entries in Hf. rewrite Hf in Hw. apply Forall_cons in Hw as [Hw _]. by apply entry_wf_fits in Hw.
Qed.

Lemma part_bytes_len p : zlen (part_bytes p) = zlen (write_footer_key (pa_first p)) + 41.
Proof. unfold part_bytes. autorewrite with zlen. rewrite !handle_write_len. unfold HANDLE_BYTES. lia. Qed.

Lemma parse_partitions_bytes file dek n ps pre post acc :
  Forall (part_ok file dek n) ps →
  parse_partitions (length ps) (pre ++ mjoin (part_bytes <$> ps) ++ post) (zlen pre) acc =
    Ok (acc ++ (partition_of <$> ps), zlen (pre ++ mjoin (part_bytes <$> ps))).
Proof.
intros Hok. revert pre acc. induction Hok as [|p ps Hp Hok IH]; intros pre acc.
{ simpl. by rewrite !app_nil_r. }
rewrite fmap_cons. cbn [mjoin list_join length parse_partitions].
destruct (part_ok_wf _ _ _ _ Hp) as [_ [Hr Hk]]. destruct Hp as (_ & _ & Hi & Hf).
apply block_at_handle in Hi as [Hi _], Hf as [Hf _].
set (tl := mjoin (part_bytes <$> ps)).
assert (Hdata : pre ++ (part_bytes p ++ tl) ++ post = pre ++ write_footer_key (pa_first p) ++
  handle_write (pa_index p) ++ [x01] ++ handle_write (pa_filter p) ++ tl ++ post).
{ unfold part_bytes. by rewrite <-!app_assoc. }
change (mjoin (part_bytes p :: (part_bytes <$> ps))) with (part_bytes p ++ tl) in *. rewrite Hdata.
rewrite read_write_footer_key by done. cbn [mbind outcome_bind].
set (fk := write_footer_key (pa_first p)).
replace (handle_read _ (zlen pre + zlen fk)) with (Some (pa_index p)).
2: { rewrite <-zlen_app, (app_assoc pre). symmetry. by apply read_write_handle. }
cbn [ok_or mbind outcome_bind].
replace (at_ (zlen pre + zlen fk + HANDLE_BYTES) _) with (Some x01).
2: { pose proof (handle_write_len (pa_index p)). unfold HANDLE_BYTES in *. pose proof (zlen_nonneg fk).
  rewrite (at_skip _ pre), (at_skip _ fk), (at_skip _ (handle_write _)) by lia.
  replace (_ - _) with 0 by lia. done. }
cbn [ok_or mbind outcome_bind].
replace (handle_read _ (zlen pre + zlen fk + HANDLE_BYTES + 1)) with (Some (pa_filter p)).
2: { set (pre' := pre ++ fk ++ handle_write (pa_index p) ++ [x01]).
  assert (Hz : zlen pre + zlen fk + HANDLE_BYTES + 1 = zlen pre').
  { unfold pre'. autorewrite with zlen. rewrite handle_write_len. lia. }
  rewrite Hz. replace (pre ++ _) with (pre' ++ handle_write (pa_filter p) ++ tl ++ post);
    [symmetry; by apply read_write_handle|]. unfold pre'. by rewrite <-!app_assoc. }
cbn [ok_or mbind outcome_bind]. rewrite decide_True by done.
set (pre' := pre ++ part_bytes p).
replace (zlen pre + zlen fk + HANDLE_BYTES + 1 + HANDLE_BYTES) with (zlen pre').
2: { unfold pre'. rewrite zlen_app, part_bytes_len. unfold HANDLE_BYTES, fk. lia. }
replace (pre ++ fk ++ _) with (pre' ++ tl ++ post).
2: { unfold pre', part_bytes. by rewrite <-!app_assoc. }
unfold tl. rewrite IH. do 2 f_equal; [by rewrite <-app_assoc|]. unfold pre'. by rewrite <-app_assoc.
Qed.

Lemma read_range_bytes es pre :
  Forall entry_wf es →
  (has_range ← ok_or (InvalidSstFormat "v4: truncated footer") (at_ (zlen pre) (pre ++ range_bytes es));
   if decide (has_range = x01) then
     '(mn, p1) ← read_footer_key (pre ++ range_bytes es) (zlen pre + 1);
     '(mx, _) ← read_footer_key (pre ++ range_bytes es) p1;
     Ok (Some (mn, mx))
   else Ok None) = Ok (range_of es).
Proof.
intros Hwf. unfold range_bytes, range_of.
destruct (head es) as [[mn v1]|] eqn:Eh; simpl; [|by rewrite at_mid].
destruct (last es) as [[mx v2]|] eqn:El; simpl; [|by rewrite at_mid].
rewrite at_mid. cbn [ok_or mbind outcome_bind]. rewrite decide_True by done.
assert (Hmn : key_fits mn).
{ destruct es as [|e es']; [done|]. simpl in Eh. injection Eh as ->. apply Forall_cons in Hwf as [Hw _].
  by apply entry_wf_fits in Hw. }
assert (Hmx : key_fits mx).
{ apply last_Some in El as [es' ->]. apply Forall_app in Hwf as [_ Hw]. apply Forall_cons in Hw as [Hw _].
  by apply entry_wf_fits in Hw. }
destruct Hmn, Hmx.
replace (zlen pre + 1) with (zlen (pre ++ [x01])) by zlia.
replace (pre ++ x01 :: write_footer_key mn ++ write_footer_key mx)
  with ((pre ++ [x01]) ++ write_footer_key mn ++ write_footer_key mx) by (by rewrite <-app_assoc).
rewrite read_write_footer_key by done. cbn [mbind outcome_bind].
rewrite <-zlen_app, (app_assoc (pre ++ [x01])). rewrite <-(app_nil_r (write_footer_key mx)).
by rewrite read_write_footer_key.
Qed.

Lemma parse_footer_bytes file dek n ps es :
  Forall (part_ok file dek n) ps → Forall entry_wf es → zlen ps <= u32_max →
  parse_v4_footer (footer_bytes ps es) = Ok (Z.min u64_max (zlen es), partition_of <$> ps, range_of es).
Proof.
intros Hps Hes Hc. pose proof (zlen_nonneg ps). pose proof (zlen_nonneg es).
unfold parse_v4_footer, footer_bytes.
replace (slice 0 8 _) with (Some (to_le 8 (Z.min u64_max (zlen es)))) by (by slice_pieces).
cbn [fmap option_fmap option_map ok_or mbind outcome_bind]. rewrite from_to_le8 by (unfold u64_max in *; lia).
replace (slice 8 12 _) with (Some (to_le 4 (zlen ps))) by (by slice_pieces).
cbn [fmap option_fmap option_map ok_or mbind outcome_bind]. rewrite from_to_le4 by lia.
set (pre := to_le 8 (Z.min u64_max (zlen es)) ++ to_le 4 (zlen ps)).
rewrite (app_assoc (to_le 8 _)). fold pre. assert (Hp : zlen pre = 12) by (unfold pre; by autorewrite with zlen).
rewrite <-Hp. replace (Z.to_nat (zlen ps)) with (length ps) by (unfold zlen; lia).
rewrite (parse_partitions_bytes file dek n) by done.
cbn [mbind outcome_bind app]. rewrite (app_assoc pre).
pose proof (read_range_bytes es (pre ++ mjoin (part_bytes <$> ps)) Hes) as Hr.
destruct (at_ (zlen (pre ++ _)) _) as [hr|]; [|done]. cbn [ok_or mbind outcome_bind] in Hr |- *.
by rewrite Hr.
Qed.

Lemma block_at_range file dek n h pt : block_at file dek n h pt → check_block_range h (zlen file) = Ok tt ∨ u64_max < zlen file.
Proof.
intros (ct & _ & Hs & Hc & _ & Ho & _ & Hne). apply slice_Some in Hs. unfold check_block_range. rewrite Hc.
destruct (Z.ltb_spec u64_max (bh_file_offset h + zlen ct)); [right; lia|left].
destruct (Z.ltb_spec (bh_file_offset h) TOTAL_HEADER_SIZE); [lia|].
destruct (Z.ltb_spec (zlen file) (bh_file_offset h + zlen ct)); [lia|].
destruct (Z.eqb_spec (bh_ordinal h) SST_FOOTER_BLOCK_INDEX); [done|]. done.
Qed.

Lemma check_pieces_ok file dek n ps :
  Forall (part_ok file dek n) ps → zlen file <= u64_max →
  check_pieces ((partition_of <$> ps) ≫= pieces_of) (zlen file) = Ok tt.
Proof.
intros Hps Hl. induction Hps as [|p ps Hp _ IH]; [done|]. destruct Hp as (_ & _ & Hi & Hf).
rewrite fmap_cons, bind_cons. cbn [pieces_of partition_of pt_index pt_filter app check_pieces].
destruct (block_at_range _ _ _ _ _ Hi) as [->|]; [|lia]. cbn [mbind outcome_bind].
destruct (block_at_range _ _ _ _ _ Hf) as [->|]; [|lia]. cbn [mbind outcome_bind]. exact IH.
Qed.

Lemma index_range_eq {A} a b (l s : list A) : slice a b l = Some s → index_range (E := StorageError) a b l = Ok s.
Proof. intros Hs. unfold index_range. by rewrite Hs. Qed.

Lemma read_footer_layout hdr n dek es ps body fct file :
  header_wf hdr → sst_layout hdr n dek es ps body fct file →
  read_footer file (crc32 fct) n dek = Ok (zlen body, footer_bytes ps es).
Proof.
intros Hh [_ [cnt [mid Hbody]] _ _ _ Hseal Hfl Hfile Hlen]. unfold read_footer.
assert (Hb : 88 <= zlen body).
{ rewrite Hbody. autorewrite with zlen. rewrite header_to_bytes_len by done. pose proof (zlen_nonneg mid).
  change (zlen SST_MAGIC_V4) with 4. change ENCRYPTION_HEADER_SIZE with 76. lia. }
pose proof (zlen_nonneg fct). rewrite Hfile in Hlen.
assert (Hz : zlen file = zlen body + zlen fct + 12) by (rewrite Hfile; autorewrite with zlen; lia).
rewrite Hz. change (TOTAL_HEADER_SIZE + TRAILER_SIZE) with 100. change TRAILER_SIZE with 12.
destruct (Z.ltb_spec (zlen body + zlen fct + 12) 100); [lia|].
rewrite Hfile, (app_assoc body).
rewrite (index_range_eq _ _ _ (to_le 8 (zlen body) ++ to_le 4 (zlen fct))).
2: { rewrite <-(app_nil_r (to_le 8 (zlen body) ++ to_le 4 (zlen fct))). apply slice_mid; autorewrite with zlen; lia. }
cbn [mbind outcome_bind]. rewrite (index_range_eq 0 8 _ (to_le 8 (zlen body))) by (by apply slice_head).
cbn [mbind outcome_bind]. unfold try_into. rewrite zlen_to_le. change (Z.of_nat 8 =? 8) with true.
cbn [mbind outcome_bind]. rewrite (index_range_eq 8 12 _ (to_le 4 (zlen fct))).
2: { rewrite <-(app_nil_r (to_le 4 (zlen fct))). by apply slice_mid. }
cbn [mbind outcome_bind]. rewrite zlen_to_le. change (Z.of_nat 4 =? 4) with true. cbn [mbind outcome_bind].
autorewrite with zlen in Hlen. rewrite from_to_le8, from_to_le4 by lia.
destruct (Z.leb_spec (zlen body + zlen fct) u64_max); [|lia].
change TOTAL_HEADER_SIZE with 88. destruct (Z.leb_spec 88 (zlen body)); [|lia].
destruct (Z.leb_spec (zlen body + zlen fct) (zlen body + zlen fct + 12 - 12)); [|lia]. cbn [negb andb].
rewrite <-(app_assoc body). rewrite (index_range_eq _ _ _ fct) by (by apply slice_mid).
cbn [mbind outcome_bind]. rewrite Z.eqb_refl. cbn [negb]. unfold decrypt_section.
rewrite (open_seal _ _ _ _ _ Hseal). done.
Qed.

Lemma open_layout hdr n dek es ps body fct file :
  header_wf hdr → Forall entry_wf es → sst_layout hdr n dek es ps body fct file →
  ∃ count, open_with_fs file n dek =
    Ok (MkReader (Blocked (blocked_of file body dek ps es)) count n None (range_of es)).
Proof.
intros Hh Hes Hlay. pose proof (read_footer_layout _ _ _ _ _ _ _ _ Hh Hlay) as Hrf.
destruct Hlay as [_ [cnt [mid Hbody]] Hps Hcount _ Hseal Hfl Hfile Hlen].
pose proof (header_to_bytes_len _ Hh) as Hhl. pose proof (crc32_bound fct) as Hcrc.
assert (Hshape : file = SST_MAGIC_V4 ++ to_le 4 cnt ++ to_le 4 (crc32 fct) ++ header_to_bytes hdr ++
  (mid ++ fct ++ to_le 8 (zlen body) ++ to_le 4 (zlen fct))).
{ rewrite Hfile at 1. rewrite Hbody at 1. by rewrite <-!app_assoc. }
assert (Hlb : zlen body <= u64_max).
{ rewrite Hfile in Hlen. autorewrite with zlen in Hlen. pose proof (zlen_nonneg fct). lia. }
exists (from_le (to_le 4 cnt)). unfold open_with_fs.
assert (Hge : 88 <= zlen file).
{ rewrite Hshape. autorewrite with zlen. rewrite Hhl. change (zlen SST_MAGIC_V4) with 4.
  change ENCRYPTION_HEADER_SIZE with 76. pose proof (zlen_nonneg mid). pose proof (zlen_nonneg fct). lia. }
change TOTAL_HEADER_SIZE with 88. destruct (Z.ltb_spec (zlen file) 88); [lia|].
change ENCRYPTION_HEADER_SIZE with 76 in *. change BASE_HEADER_SIZE with 12.
assert (Hm : zlen SST_MAGIC_V4 = 4) by done.
rewrite (index_range_eq 4 8 _ (to_le 4 cnt)) by (rewrite Hshape; by slice_pieces). cbn [mbind outcome_bind].
unfold try_into. rewrite zlen_to_le. change (Z.of_nat 4 =? 4) with true. cbn [mbind outcome_bind].
rewrite (index_range_eq 8 12 _ (to_le 4 (crc32 fct))) by (rewrite Hshape; by slice_pieces).
cbn [mbind outcome_bind]. rewrite zlen_to_le. change (Z.of_nat 4 =? 4) with true. cbn [mbind outcome_bind].
rewrite (index_range_eq 12 88 _ (header_to_bytes hdr)) by (rewrite Hshape; by slice_pieces).
cbn [mbind outcome_bind]. rewrite Hhl. cbn [Z.eqb Pos.eqb mbind outcome_bind].
rewrite header_roundtrip by done. cbn [mbind outcome_bind].
rewrite (index_range_eq 0 4 _ SST_MAGIC_V4) by (rewrite Hshape; by apply slice_head).
cbn [mbind outcome_bind]. rewrite decide_True by done. rewrite (from_to_le4 (crc32 fct)) by done.
unfold open_v4. rewrite Hrf. cbn [mbind outcome_bind]. rewrite (parse_footer_bytes body dek n) by done.
cbn [mbind outcome_bind]. by rewrite (check_pieces_ok body dek n).
Qed.

End open_lemmas.

(** ** Reading blocks of a written file *)

Inductive file_block `{Crc32} (ps : list Part) : BlockHandle → BlockKind → list byte → Prop :=
| fb_index p : p ∈ ps → file_block ps (pa_index p) KIndex (encs ser_item (pa_blocks p).*1)
| fb_filter p : p ∈ ps →
    file_block ps (pa_filter p) KFilter (bloom_encode (from_hashes (hashes_of (pa_entries p))))
| fb_data p b : p ∈ ps → b ∈ pa_blocks p → file_block ps b.1.2 KData (ser_entries b.2).

(** Every block the cache holds is the file's block of that ordinal. *)
Definition cache_coherent `{Crc32} (ps : list Part) (cache : Z → option Block) : Prop :=
  ∀ h kind pt b, file_block ps h kind pt → cache (bh_ordinal h) = Some b → block_decode kind pt = Ok b.

Lemma block_decode_kind kind pt b : block_decode kind pt = Ok b → block_kind b = kind.
Proof.
destruct kind; simpl; [destruct (data_decode pt)|destruct (index_decode pt)|destruct (bloom_decode pt)];
  simpl; intros; by simplify_eq/=.
Qed.

Lemma partition_point_spec {A} (R : relation A) (f : A → bool) l :
  StronglySorted R l → (∀ x y, R x y → f y = true → f x = true) →
  partition_point f l = Z.of_nat (count_while f l).
Proof. intros Hs Hd. unfold partition_point. by apply (bisect_list R). Qed.

Lemma count_while_fmap {A B} (g : A → B) (f : B → bool) l : count_while f (g <$> l) = count_while (f ∘ g) l.
Proof. induction l as [|x l IH]; [done|]. rewrite fmap_cons. simpl. by rewrite IH. Qed.

Lemma StronglySorted_fmap_inv {A B} (R : relation B) (g : A → B) (l : list A) :
  StronglySorted R (g <$> l) → StronglySorted (λ x y, R (g x) (g y)) l.
Proof.
induction l as [|x l IH]; [constructor|]. rewrite fmap_cons. intros Hs. apply StronglySorted_cons in Hs as [Hf Hs].
constructor; [by apply IH|]. apply Forall_forall. intros y Hy. eapply (proj1 (Forall_forall _ _)); [exact Hf|].
apply list_elem_of_fmap. by exists y.
Qed.

Lemma at_nat {A} (i : nat) (l : list A) : at_ (Z.of_nat i) l = l !! i.
Proof. unfold at_. destruct (Z.leb_spec 0 (Z.of_nat i)); [|lia]. by rewrite Nat2Z.id. Qed.

Section get_lemmas.
Context `{HA : Aead} `{HC : Crc32} `{HAL : !AeadLaws} `{HCL : !Crc32Laws}.
Context (hdr : EncryptionHeader) (n : Z) (dek : list byte) (es : list Entry) (ps : list Part)
  (body fct file : list byte).
Hypothesis layout : sst_layout hdr n dek es ps body fct file.
Hypothesis sorted : bt_sorted es.
Context (cache : Z → option Block).
Hypothesis coherent : cache_coherent ps cache.

Let bb := blocked_of file body dek ps es.

Lemma part_at p : p ∈ ps → part_ok body dek n p.
Proof. intros Hp. eapply (proj1 (Forall_forall _ _)); [exact (sl_parts _ _ _ _ _ _ _ _ layout)|done]. Qed.

Lemma dblock_at p b : p ∈ ps → b ∈ pa_blocks p → dblock_ok body dek n b.
Proof.
intros Hp Hb. destruct (part_at p Hp) as (_ & Hbs & _). eapply (proj1 (Forall_forall _ _)); [exact Hbs|done].
Qed.

Lemma file_block_at h kind pt : file_block ps h kind pt → block_at body dek n h pt.
Proof.
intros [p Hp|p Hp|p b Hp Hb].
- destruct (part_at p Hp) as (_ & _ & Hi & _). exact Hi.
- destruct (part_at p Hp) as (_ & _ & _ & Hf). exact Hf.
- destruct (dblock_at p b Hp Hb) as (_ & _ & Hd). exact Hd.
Qed.

Lemma load_uncached_ok h kind pt :
  file_block ps h kind pt → load_uncached bb h kind n = block_decode kind pt.
Proof.
intros Hb%file_block_at. destruct Hb as (ct & Hs & Hsl & Hc & _ & Ho & _). pose proof (slice_Some _ _ _ _ Hsl) as Hr.
unfold load_uncached. rewrite Hc. simpl.
pose proof (sl_file _ _ _ _ _ _ _ _ layout) as Hfile. pose proof (sl_len _ _ _ _ _ _ _ _ layout) as Hlen.
assert (zlen body <= zlen file) by (rewrite Hfile, zlen_app; pose proof (zlen_nonneg (fct ++ to_le 8 (zlen body) ++ to_le 4 (zlen fct))); lia).
destruct (Z.leb_spec (bh_file_offset h + zlen ct) u64_max); [|lia].
destruct (Z.leb_spec TOTAL_HEADER_SIZE (bh_file_offset h)); [|lia].
destruct (Z.leb_spec (bh_file_offset h + zlen ct) (zlen body)); [|lia]. cbn [negb andb].
rewrite (index_range_eq _ _ _ ct) by (rewrite Hfile; by apply slice_app_l). cbn [mbind outcome_bind].
unfold decrypt_section. by rewrite (open_seal _ _ _ _ _ Hs).
Qed.

Lemma load_ok h kind pt b cached :
  file_block ps h kind pt → block_decode kind pt = Ok b → load cache bb h kind n cached = Ok b.
Proof.
intros Hb Hd. unfold load. destruct cached; [|by rewrite (load_uncached_ok h kind pt)].
destruct (cache (bh_ordinal h)) as [b'|] eqn:E; [|by rewrite (load_uncached_ok h kind pt)].
apply (coherent h kind pt) in E; [|done]. rewrite Hd in E. injection E as <-.
by rewrite decide_True by (by eapply block_decode_kind).
Qed.

Lemma part_items_ok p : p ∈ ps → Forall index_item_ok (pa_blocks p).*1.
Proof. intros Hp. destruct (part_at p Hp) as (_ & Hbs & _). by eapply dblocks_items_ok. Qed.

Lemma block_at_len h pt : block_at body dek n h pt → zlen pt <= u32_max + 1.
Proof. intros Hb. apply block_at_handle in Hb as [_ ?]. lia. Qed.

Lemma load_index_ok p cached :
  p ∈ ps → load cache bb (pa_index p) KIndex n cached = Ok (BIndex (index_block_of (pa_blocks p).*1)).
Proof.
intros Hp. eapply load_ok; [by apply fb_index|]. simpl. rewrite index_decode_ser; [done|by apply part_items_ok|].
eapply block_at_len, file_block_at. by apply fb_index.
Qed.

Lemma load_filter_ok p cached :
  p ∈ ps → load cache bb (pa_filter p) KFilter n cached = Ok (BFilter (from_hashes (hashes_of (pa_entries p)))).
Proof. intros Hp. eapply load_ok; [by apply fb_filter|]. cbn [block_decode]. by rewrite bloom_roundtrip. Qed.

Lemma load_data_ok p b cached :
  p ∈ ps → b ∈ pa_blocks p → load cache bb b.1.2 KData n cached = Ok (BData (data_block_of b.2)).
Proof.
intros Hp Hb. eapply load_ok; [by eapply fb_data|]. simpl. destruct (dblock_at p b Hp Hb) as (_ & Hw & Hat).
rewrite data_decode_ser; [done|done|]. by eapply block_at_len.
Qed.

(** The runs of the file: its partitions, and a partition's data blocks. *)
Lemma parts_runs : Forall2 first_of (pa_entries <$> ps) (pa_first <$> ps).
Proof.
apply Forall2_fmap, Forall_Forall2_diag, Forall_forall. intros p Hp. by destruct (part_at p Hp) as (Hf & _).
Qed.

Lemma blocks_runs p : p ∈ ps → Forall2 first_of (pa_blocks p).*2 (pa_blocks p).*1.*1.
Proof.
intros Hp. rewrite <-list_fmap_compose. apply Forall2_fmap, Forall_Forall2_diag, Forall_forall. intros b Hb.
by destruct (dblock_at p b Hp Hb) as (Hf & _).
Qed.

Lemma parts_join : mjoin (pa_entries <$> ps) = es.
Proof. apply (sl_entries _ _ _ _ _ _ _ _ layout). Qed.

Lemma part_sorted p : p ∈ ps → bt_sorted (pa_entries p).
Proof.
intros (i & Hi)%list_elem_of_lookup. pose proof sorted as Hs. rewrite <-parts_join in Hs.
rewrite <-(take_drop_middle ps i p Hi), fmap_app, fmap_cons, join_app in Hs. simpl in Hs.
apply bt_sorted_app_inv in Hs as [_ Hs]. by apply bt_sorted_app_inv in Hs as [? _].
Qed.

Lemma dblock_sorted p b : p ∈ ps → b ∈ pa_blocks p → bt_sorted b.2.
Proof.
intros Hp (i & Hi)%list_elem_of_lookup. pose proof (part_sorted p Hp) as Hs. unfold pa_entries, blocks_entries in Hs.
rewrite <-(take_drop_middle _ i b Hi), fmap_app, fmap_cons, join_app in Hs. simpl in Hs.
apply bt_sorted_app_inv in Hs as [_ Hs]. by apply bt_sorted_app_inv in Hs as [? _].
Qed.

Lemma firsts_sorted : StronglySorted lexico (pa_first <$> ps).
Proof. eapply runs_firsts_sorted; [apply parts_runs|]. by rewrite parts_join. Qed.

Lemma block_firsts_sorted p : p ∈ ps → StronglySorted lexico (pa_blocks p).*1.*1.
Proof. intros Hp. eapply runs_firsts_sorted; [by apply blocks_runs|]. by apply part_sorted. Qed.

Lemma partition_for_ok realm key :
  partition_for_key bb realm key =
    checked_pred (Z.of_nat (count_while (λ f, ord_le f (CKey realm key)) (pa_first <$> ps))).
Proof.
unfold partition_for_key, bb, blocked_of. simpl. f_equal.
pose proof firsts_sorted as Hs. apply StronglySorted_fmap_inv in Hs.
rewrite (partition_point_spec (λ x y, lexico (pt_first_key x) (pt_first_key y))).
- f_equal. by rewrite !count_while_fmap.
- clear -Hs. induction Hs as [|p l Hs IH Hf]; [constructor|]. rewrite fmap_cons. constructor; [done|].
  apply Forall_fmap. exact Hf.
- intros x y. apply (ord_le_mono (CKey realm key)).
Qed.

Lemma blocked_get_ok realm key cached :
  blocked_get cache bb realm key n cached = Ok (bt_get (CKey realm key) es).
Proof.
set (k := CKey realm key). unfold blocked_get. rewrite partition_for_ok. fold k.
rewrite <-parts_join, (bt_get_runs _ _ k parts_runs) by (by rewrite parts_join).
pose proof (count_while_le (λ f, ord_le f k) (pa_first <$> ps)) as Hle. rewrite length_fmap in Hle.
destruct (count_while (λ f, ord_le f k) (pa_first <$> ps)) as [|m]; [done|].
unfold checked_pred. destruct (Z.eqb_spec (Z.of_nat (S m)) 0); [lia|]. cbn [mbind option_bind].
replace (Z.of_nat (S m) - 1) with (Z.of_nat m) by lia. rewrite at_nat. simpl. rewrite !list_lookup_fmap.
destruct (ps !! m) as [p|] eqn:Ep; [|apply lookup_ge_None in Ep; lia]. simpl.
assert (Hp : p ∈ ps) by (by eapply list_elem_of_lookup_2).
rewrite load_filter_ok by done. cbn [mbind outcome_bind block_filter].
destruct (might_contain realm key _) eqn:Emc; cbn [negb].
2: { destruct (bt_get k (pa_entries p)) as [v|] eqn:Eg; [|done]. exfalso.
  apply bt_get_elem in Eg. rewrite from_hashes_contains in Emc; [done|].
  unfold hashes_of. apply list_elem_of_fmap. by exists (k, v). }
rewrite load_index_ok by done. cbn [mbind outcome_bind block_index].
rewrite position_for_of by auto using part_items_ok, block_firsts_sorted. fold k.
unfold pa_entries, blocks_entries. rewrite (bt_get_runs _ _ k (blocks_runs p Hp)) by (by apply part_sorted).
pose proof (count_while_le (λ f, ord_le f k) (pa_blocks p).*1.*1) as Hle'. rewrite !length_fmap in Hle'.
destruct (count_while (λ f, ord_le f k) (pa_blocks p).*1.*1) as [|m']; [done|].
unfold checked_pred. destruct (Z.eqb_spec (Z.of_nat (S m')) 0); [lia|]. cbn [mbind option_bind].
replace (Z.of_nat (S m') - 1) with (Z.of_nat m') by lia.
rewrite index_entry_of by (by apply part_items_ok). rewrite at_nat, !list_lookup_fmap.
destruct (pa_blocks p !! m') as [b|] eqn:Eb; [|apply lookup_ge_None in Eb; lia]. simpl.
assert (Hb : b ∈ pa_blocks p) by (by eapply list_elem_of_lookup_2).
rewrite (load_data_ok p b) by done. cbn [mbind outcome_bind block_data].
destruct (dblock_at p b Hp Hb) as (_ & Hw & _). by rewrite data_find_of by (done || by eapply dblock_sorted).
Qed.

(** ** Walks *)

Definition all_blocks (qs : list Part) : list DBlock := mjoin (pa_blocks <$> qs).

(** The data blocks a walk has still to visit. *)
Inductive walk_at : BlockWalk → list DBlock → Prop :=
| walk_at_partition (i : nat) : walk_at (MkWalk (Z.of_nat i) None 0) (all_blocks (drop i ps))
| walk_at_index (i j : nat) p :
    ps !! i = Some p →
    walk_at (MkWalk (Z.of_nat i) (Some (BIndex (index_block_of (pa_blocks p).*1))) (Z.of_nat j))
      (drop j (pa_blocks p) ++ all_blocks (drop (S i) ps)).

Lemma drop_part i p : ps !! i = Some p → all_blocks (drop i ps) = pa_blocks p ++ all_blocks (drop (S i) ps).
Proof. intros Hi. rewrite (drop_S ps p i Hi). unfold all_blocks. by rewrite fmap_cons. Qed.

(** A partition starts with its first block. *)
Lemma part_first_block p : p ∈ ps → ∃ b bs, pa_blocks p = b :: bs ∧ b.1.1 = pa_first p.
Proof.
intros Hp. destruct (part_at p Hp) as ((v & rest & He) & Hbs & _). unfold pa_entries, blocks_entries in He.
destruct (pa_blocks p) as [|b bs] eqn:Eb; [done|]. exists b, bs. split; [done|].
apply Forall_cons in Hbs as [((v' & rest' & Hb') & _) _]. rewrite fmap_cons in He. simpl in He.
rewrite Hb' in He. simpl in He. by injection He.
Qed.

Lemma bb_parts_at (i : nat) : at_ (Z.of_nat i) (bb_partitions bb) = partition_of <$> ps !! i.
Proof. rewrite at_nat. unfold bb, blocked_of. cbn [bb_partitions]. apply list_lookup_fmap. Qed.

Lemma next_block_ok fuel cached end_ walk rest :
  walk_at walk rest → (length ps - Z.to_nat (wk_partition walk) < fuel)%nat →
  ∃ walk', next_block cache fuel bb n cached end_ walk =
    Ok (match rest with
        | [] => None
        | b :: _ => if past_end end_ b.1.1 then None else Some (BData (data_block_of b.2))
        end, walk') ∧
    (∀ b rest', rest = b :: rest' → past_end end_ b.1.1 = false → walk_at walk' rest').
Proof.
revert walk rest. induction fuel as [|fuel IH]; intros walk rest Hat Hf; [lia|].
assert (Hidx : ∀ i j p, ps !! i = Some p → (length ps - i < S fuel)%nat →
  let w := MkWalk (Z.of_nat i) (Some (BIndex (index_block_of (pa_blocks p).*1))) (Z.of_nat j) in
  let rest := drop j (pa_blocks p) ++ all_blocks (drop (S i) ps) in
  ∃ walk', next_block cache (S fuel) bb n cached end_ w =
    Ok (match rest with
        | [] => None
        | b :: _ => if past_end end_ b.1.1 then None else Some (BData (data_block_of b.2))
        end, walk') ∧
    (∀ b rest', rest = b :: rest' → past_end end_ b.1.1 = false → walk_at walk' rest')).
{ intros i j p Hi Hlt w rest'. assert (Hp : p ∈ ps) by (by eapply list_elem_of_lookup_2). unfold w.
  cbn [next_block wk_partition wk_index wk_next]. rewrite bb_parts_at, Hi. cbn [fmap option_fmap option_map].
  cbn [block_index mbind outcome_bind]. rewrite index_entry_of by (by apply part_items_ok). rewrite at_nat.
  rewrite list_lookup_fmap. destruct (pa_blocks p !! j) as [b|] eqn:Eb.
  - cbn [fmap option_fmap option_map]. unfold rest'. rewrite (drop_S _ _ _ Eb). cbn [app].
    assert (Hb : b ∈ pa_blocks p) by (by eapply list_elem_of_lookup_2).
    replace (ie_first (to_index_ref b.1)) with b.1.1 by (by destruct b as [[[r k] h] c]).
    destruct (past_end end_ b.1.1) eqn:Epe.
    + eexists. split; [reflexivity|]. intros b' r' [= <- <-]. congruence.
    + rewrite (load_data_ok p b) by done. cbn [mbind outcome_bind].
      eexists. split; [reflexivity|]. intros b' r' [= <- <-] _.
      replace (Z.of_nat j + 1) with (Z.of_nat (S j)) by lia. by apply walk_at_index.
  - cbn [fmap option_fmap option_map].
    replace (Z.of_nat i + 1) with (Z.of_nat (S i)) by lia.
    assert (Hrest : rest' = all_blocks (drop (S i) ps)).
    { unfold rest'. apply lookup_ge_None in Eb. by rewrite drop_ge. }
    rewrite Hrest. apply lookup_lt_Some in Hi. apply IH; [apply walk_at_partition|]. simpl. lia. }
destruct Hat as [i|i j p Hi].
- simpl in Hf. rewrite Nat2Z.id in Hf. destruct (ps !! i) as [p|] eqn:Hi.
  + assert (Hp : p ∈ ps) by (by eapply list_elem_of_lookup_2).
    destruct (part_first_block p Hp) as (b & bs & Eb & Hb).
    rewrite (drop_part i p Hi). pose proof (Hidx i 0%nat p Hi Hf) as Hx. rewrite drop_0 in Hx. rewrite Eb in Hx |- *.
    cbn [app] in Hx |- *. cbn [next_block wk_partition wk_index wk_next] in Hx |- *.
    rewrite bb_parts_at, Hi in Hx |- *. cbn [fmap option_fmap option_map] in Hx |- *.
    replace (pt_first_key (partition_of p)) with b.1.1 by done.
    destruct (past_end end_ b.1.1) eqn:Epe.
    * eexists. split; [reflexivity|]. intros b' r' [= <- <-]. congruence.
    * unfold load_index. rewrite bb_parts_at, Hi.
      cbn [fmap option_fmap option_map ok_or mbind outcome_bind partition_of pt_index read_piece].
      rewrite load_index_ok by done. cbn [mbind outcome_bind]. rewrite Eb. exact Hx.
  + pose proof Hi as Hge. apply lookup_ge_None in Hge. rewrite drop_ge by done.
    cbn [next_block wk_partition]. rewrite bb_parts_at, Hi. cbn [fmap option_fmap option_map]. eexists. split; [reflexivity|done].
- simpl in Hf. rewrite Nat2Z.id in Hf. exact (Hidx i j p Hi Hf).
Qed.

Lemma walk_at_bound walk rest : walk_at walk rest → (length ps - Z.to_nat (wk_partition walk) < S (length ps))%nat.
Proof. intros _. lia. Qed.

Lemma walk_step_ok cached end_ walk rest :
  walk_at walk rest →
  ∃ walk', walk_step cache bb n cached end_ walk =
    Ok (match rest with
        | [] => None
        | b :: _ => if past_end end_ b.1.1 then None else Some (BData (data_block_of b.2))
        end, walk') ∧
    (∀ b rest', rest = b :: rest' → past_end end_ b.1.1 = false → walk_at walk' rest').
Proof.
intros Hat. apply (next_block_ok _ cached end_ walk rest Hat). simpl. rewrite length_fmap. lia.
Qed.

(** The blocks before the window's end. *)
Definition before (end_ : option CompositeKey) (rest : list DBlock) : list DBlock :=
  take (count_while (λ b, negb (past_end end_ b.1.1)) rest) rest.

Lemma walk_entries_ok fuel cached end_ walk rest acc :
  walk_at walk rest → Forall (dblock_ok body dek n) rest → (length rest < fuel)%nat →
  walk_entries cache fuel bb n cached end_ walk acc = Ok (acc ++ (to_ref <$> blocks_entries (before end_ rest))).
Proof.
revert walk rest acc. induction fuel as [|fuel IH]; intros walk rest acc Hat Hok Hf; [lia|].
destruct (walk_step_ok cached end_ walk rest Hat) as (walk' & Hs & Hnext). cbn [walk_entries]. rewrite Hs.
cbn [mbind outcome_bind]. unfold before. destruct rest as [|b rest']; [simpl; by rewrite app_nil_r|].
cbn [count_while]. destruct (past_end end_ b.1.1) eqn:Epe; cbn [negb]; [simpl; by rewrite app_nil_r|].
apply Forall_cons in Hok as [(_ & Hw & _) Hok]. cbn [block_data mbind outcome_bind].
rewrite (IH _ rest'); [|by eapply Hnext|done|simpl in Hf; lia].
rewrite data_iter_of by done. cbn [take]. unfold blocks_entries. rewrite fmap_cons. simpl mjoin.
by rewrite fmap_app, <-app_assoc.
Qed.

Lemma all_blocks_ok qs : (∀ p, p ∈ qs → p ∈ ps) → Forall (dblock_ok body dek n) (all_blocks qs).
Proof.
intros Hsub. unfold all_blocks. apply Forall_join, Forall_fmap, Forall_forall. intros p Hp. simpl.
by destruct (part_at p (Hsub p Hp)) as (_ & Hbs & _).
Qed.

Lemma all_blocks_entries qs : blocks_entries (all_blocks qs) = mjoin (pa_entries <$> qs).
Proof.
unfold all_blocks, pa_entries, blocks_entries. induction qs as [|p qs IH]; [done|].
rewrite !fmap_cons. simpl mjoin. by rewrite fmap_app, join_app, IH.
Qed.

Lemma blocks_entries_app bs1 bs2 : blocks_entries (bs1 ++ bs2) = blocks_entries bs1 ++ blocks_entries bs2.
Proof. unfold blocks_entries. by rewrite fmap_app, join_app. Qed.

(** Every block holds an entry. *)
Lemma blocks_count bs : Forall (dblock_ok body dek n) bs → zlen bs <= zlen (blocks_entries bs).
Proof.
induction 1 as [|b bs ((v & rest & Hb) & _) _ IH]; [done|]. unfold blocks_entries in *. rewrite fmap_cons. simpl mjoin.
rewrite zlen_app, zlen_cons, Hb, zlen_cons. pose proof (zlen_nonneg rest). lia.
Qed.

Lemma walk_fuel_enough rest pre :
  Forall (dblock_ok body dek n) rest → es = pre ++ blocks_entries rest → zlen es <= u64_max →
  (length rest < walk_fuel bb)%nat.
Proof.
intros Hok He Hl. apply blocks_count in Hok. unfold walk_fuel, bb, blocked_of. simpl.
rewrite He, zlen_app in *. pose proof (zlen_nonneg pre). unfold zlen in *. lia.
Qed.

Lemma iter_blocked_ok cached :
  zlen es <= u64_max →
  walk_entries cache (walk_fuel bb) bb n cached None walk_from_start [] = Ok (to_ref <$> es).
Proof.
intros Hl. rewrite (walk_entries_ok _ cached None walk_from_start (all_blocks ps)).
- f_equal. cbn [app]. f_equal. unfold before.
  assert (Hall : ∀ l : list DBlock, count_while (λ b, negb (past_end None b.1.1)) l = length l)
    by (intros l; induction l; simpl; auto).
  by rewrite Hall, take_ge, all_blocks_entries, parts_join by done.
- exact (walk_at_partition 0).
- by apply all_blocks_ok.
- apply (walk_fuel_enough _ []); [by apply all_blocks_ok| |done]. by rewrite all_blocks_entries, parts_join.
Qed.

Lemma elem_of_blocks_entries b bs p : b ∈ bs → p ∈ b.2 → p ∈ blocks_entries bs.
Proof.
intros Hb Hp. unfold blocks_entries. apply list_elem_of_join. exists b.2. split; [done|].
apply list_elem_of_fmap. by exists b.
Qed.

Lemma tail_blocks bs p : p ∈ blocks_entries (tail bs) → p ∈ blocks_entries bs.
Proof.
destruct bs as [|b bs]; [done|]. simpl. intros Hp. unfold blocks_entries in *. rewrite fmap_cons. simpl.
apply elem_of_app. by right.
Qed.

(** A seek skips only keys below its start, and every block after the first one it
keeps lies above. *)
Lemma walk_seek_ok realm key cached :
  ∃ walk rest pre, walk_seek cache bb n cached realm key = Ok walk ∧ walk_at walk rest ∧
    es = pre ++ blocks_entries rest ∧ Forall (dblock_ok body dek n) rest ∧
    (∀ p, p ∈ pre → lexico p.1 (CKey realm key)) ∧
    (∀ p, p ∈ blocks_entries (tail rest) → lexico (CKey realm key) p.1).
Proof.
set (k := CKey realm key). unfold walk_seek. rewrite partition_for_ok. fold k.
destruct (count_while (λ f, ord_le f k) (pa_first <$> ps)) as [|m] eqn:Ec.
{ exists walk_from_start, (all_blocks ps), []. split_and!; [done|exact (walk_at_partition 0)| | | |].
  - by rewrite all_blocks_entries, parts_join.
  - by apply all_blocks_ok.
  - by intros p ?%elem_of_nil.
  - intros p Hp. apply (runs_after _ _ k p parts_runs); [by rewrite parts_join|]. rewrite Ec, drop_0, <-all_blocks_entries.
    by apply tail_blocks. }
unfold checked_pred at 1. destruct (Z.eqb_spec (Z.of_nat (S m)) 0); [lia|].
replace (Z.of_nat (S m) - 1) with (Z.of_nat m) by lia.
pose proof (count_while_le (λ f, ord_le f k) (pa_first <$> ps)) as Hle. rewrite length_fmap, Ec in Hle.
destruct (ps !! m) as [p|] eqn:Ep; [|apply lookup_ge_None in Ep; lia].
assert (Hp : p ∈ ps) by (by eapply list_elem_of_lookup_2).
unfold load_index. rewrite bb_parts_at, Ep.
cbn [fmap option_fmap option_map ok_or mbind outcome_bind partition_of pt_index read_piece].
rewrite load_index_ok by done. cbn [mbind outcome_bind block_index].
rewrite position_for_of by auto using part_items_ok, block_firsts_sorted. fold k.
set (c := count_while (λ f, ord_le f k) (pa_blocks p).*1.*1).
replace (default 0 (checked_pred (Z.of_nat c))) with (Z.of_nat (pred c)).
2: { unfold checked_pred. destruct (Z.eqb_spec (Z.of_nat c) 0); simpl; lia. }
exists (MkWalk (Z.of_nat m) (Some (BIndex (index_block_of (pa_blocks p).*1))) (Z.of_nat (pred c))),
  (drop (pred c) (pa_blocks p) ++ all_blocks (drop (S m) ps)),
  (mjoin (pa_entries <$> take m ps) ++ blocks_entries (take (pred c) (pa_blocks p))).
pose proof (count_while_le (λ f, ord_le f k) (pa_blocks p).*1.*1) as Hle'. fold c in Hle'. rewrite !length_fmap in Hle'.
assert (Hpf : ord_le (pa_first p) k = true).
{ eapply (count_while_true (λ f, ord_le f k) (pa_first <$> ps) m); [lia|]. by rewrite list_lookup_fmap, Ep. }
assert (Hc1 : (0 < c)%nat).
{ destruct (part_first_block p Hp) as (b & bs & Eb & Hb). unfold c. rewrite Eb, !fmap_cons. cbn [count_while fst].
  rewrite Hb, Hpf. lia. }
split_and!; [done|by apply walk_at_index| | | |].
- rewrite blocks_entries_app, all_blocks_entries, <-app_assoc, (app_assoc (blocks_entries (take _ _))), <-blocks_entries_app.
  rewrite take_drop. rewrite <-parts_join at 1. rewrite <-(take_drop_middle ps m p Ep) at 1.
  rewrite fmap_app, fmap_cons, join_app. done.
- apply Forall_app. split; [apply Forall_drop; by destruct (part_at p Hp) as (_ & Hbs & _)|].
  apply all_blocks_ok. intros q Hq. apply list_elem_of_lookup in Hq as [i Hi]. rewrite lookup_drop in Hi.
  by eapply list_elem_of_lookup_2.
- assert (Htr : ∀ x f, lexico x f → ord_le f k = true → lexico x k).
  { intros x f Hx Hf. apply ord_le_iff in Hf as [->|Hf]; [done|by transitivity f]. }
  intros q [Hq|Hq]%elem_of_app.
  + eapply Htr; [eapply (runs_before _ _ m (pa_first p) q parts_runs)|].
    * by rewrite parts_join.
    * by rewrite list_lookup_fmap, Ep.
    * by rewrite <-fmap_take.
    * done.
  + destruct c as [|c'] eqn:Ecc; simpl in Hq; [by apply elem_of_nil in Hq|].
    destruct (pa_blocks p !! c') as [b|] eqn:Eb; [|apply lookup_ge_None in Eb; lia].
    eapply Htr; [eapply (runs_before _ _ c' b.1.1 q (blocks_runs p Hp))|].
    * by apply part_sorted.
    * by rewrite !list_lookup_fmap, Eb.
    * unfold blocks_entries in Hq. by rewrite fmap_take in Hq.
    * eapply (count_while_true (λ f, ord_le f k) (pa_blocks p).*1.*1 c'); [fold c; lia|]. by rewrite !list_lookup_fmap, Eb.
- destruct (pa_blocks p !! pred c) as [b|] eqn:Eb; [|apply lookup_ge_None in Eb; lia].
  rewrite (drop_S _ _ _ Eb). cbn [app tail]. replace (S (pred c)) with c by lia.
  rewrite blocks_entries_app, all_blocks_entries. intros q [Hq|Hq]%elem_of_app.
  + apply (runs_after _ _ k q (blocks_runs p Hp)); [by apply part_sorted|]. fold c. rewrite <-fmap_drop. exact Hq.
  + apply (runs_after _ _ k q parts_runs); [by rewrite parts_join|]. rewrite Ec, <-fmap_drop. exact Hq.
Qed.

(** The window of the entries lies in the blocks a bounded walk visits. *)
Lemma window_before rest pre start end_ :
  es = pre ++ blocks_entries rest → Forall (dblock_ok body dek n) rest →
  (∀ p, p ∈ pre → lexico p.1 start) →
  filter (λ p, in_window start end_ p.1 = true) es =
  filter (λ p, in_window start end_ p.1 = true) (blocks_entries (before (Some end_) rest)).
Proof.
intros He Hok Hpre. pose proof sorted as Hs. rewrite He in Hs. apply bt_sorted_app_inv in Hs as [_ Hs].
set (c := count_while (λ b : DBlock, negb (past_end (Some end_) b.1.1)) rest).
rewrite He, filter_app. rewrite (filter_none _ pre).
2: { intros p Hp. unfold in_window. rewrite (ord_cmp_Lt p.1 start) by auto. done. }
rewrite <-(take_drop c rest) at 1. rewrite blocks_entries_app, filter_app.
rewrite (filter_none _ (blocks_entries (drop c rest))); [unfold before; by rewrite app_nil_r|].
rewrite <-(take_drop c rest), blocks_entries_app in Hs. apply bt_sorted_app_inv in Hs as [_ Hs].
intros p Hp. destruct (rest !! c) as [b|] eqn:Eb.
2: { apply lookup_ge_None in Eb. rewrite drop_ge in Hp by done. by apply elem_of_nil in Hp. }
assert (Hb : past_end (Some end_) b.1.1 = true).
{ pose proof (count_while_next (λ b : DBlock, negb (past_end (Some end_) b.1.1)) rest b Eb) as Hn.
  by apply negb_false_iff in Hn. }
assert (Hfirst : first_of (blocks_entries (drop c rest)) b.1.1).
{ rewrite (drop_S _ _ _ Eb). unfold blocks_entries. rewrite fmap_cons. simpl mjoin.
  assert (Hd : dblock_ok body dek n b) by (by eapply Forall_lookup_1).
  destruct Hd as ((v & r & ->) & _). by eexists _, _. }
destruct p as [pk pv]. pose proof (first_of_least _ _ _ _ Hfirst Hs Hp) as Hle.
unfold in_window, past_end in *. simpl. rewrite andb_true_iff. intros [_ Hlt].
assert (Hend : lexico pk end_) by (by apply ord_lt_iff).
assert (Hfe : lexico b.1.1 end_) by (apply ord_le_iff in Hle as [->|?]; [done|by transitivity pk]).
by rewrite (ord_cmp_Lt _ _ Hfe) in Hb.
Qed.

(** ** Cursors *)

(** The entries below the window's end. *)
Definition upto (end_ : CompositeKey) (l : list Entry) : list Entry :=
  take (count_while (λ p, ord_lt p.1 end_) l) l.

(** The cursor holds the block [b], at [pos], with the blocks [rest] to come. *)
Record cursor_at (c : BlockedKeyCursor) (b : list Entry) (pos : nat) (rest : list DBlock) : Prop := {
  ca_body : bc_body c = bb ∧ bc_sst_number c = n;
  ca_block : bc_block c = Some (data_block_of b);
  ca_pos : bc_pos c = Z.of_nat pos;
  ca_walk : walk_at (bc_walk c) rest;
  ca_wf : Forall entry_wf b ∧ Forall (dblock_ok body dek n) rest;
  ca_fuel : (length rest < walk_fuel bb)%nat
}.

Definition settled (c : BlockedKeyCursor) (l : list Entry) : Prop :=
  (bc_block c = None ∧ upto (bc_end c) l = []) ∨
  ∃ b pos rest e, cursor_at c b pos rest ∧ b !! pos = Some e ∧ ord_lt e.1 (bc_end c) = true ∧
    l = drop pos b ++ blocks_entries rest.

Lemma upto_stop end_ e l : ord_lt e.1 end_ = false → upto end_ (e :: l) = [].
Proof. intros He. unfold upto. simpl. by rewrite He. Qed.

Lemma upto_step end_ e l : ord_lt e.1 end_ = true → upto end_ (e :: l) = e :: upto end_ l.
Proof. intros He. unfold upto. simpl. by rewrite He. Qed.

Lemma is_ge_lt (a b : CompositeKey) : is_ge (ord_cmp a b) = negb (ord_lt a b).
Proof. unfold ord_lt. by destruct (ord_cmp a b). Qed.

Lemma blocks_head b rest : dblock_ok body dek n b →
  ∃ v l, blocks_entries (b :: rest) = (b.1.1, v) :: l.
Proof.
intros ((v & r & Hb) & _). unfold blocks_entries. rewrite fmap_cons. simpl mjoin. rewrite Hb. by eexists _, _.
Qed.

Lemma load_block_ok c rest :
  bc_body c = bb → bc_sst_number c = n → walk_at (bc_walk c) rest → Forall (dblock_ok body dek n) rest →
  (length rest < walk_fuel bb)%nat →
  ∃ c', load_block cache c = Ok c' ∧ bc_end c' = bc_end c ∧ bc_cached c' = bc_cached c ∧
    match rest with
    | b :: rest' =>
        if ord_lt b.1.1 (bc_end c) then cursor_at c' b.2 0 rest'
        else bc_block c' = None ∧ upto (bc_end c) (blocks_entries rest) = []
    | [] => bc_block c' = None
    end.
Proof.
intros Hb Hn Hat Hok Hf. unfold load_block. rewrite Hb, Hn.
destruct (walk_step_ok (bc_cached c) (Some (bc_end c)) (bc_walk c) rest Hat) as (walk' & Hs & Hnext). rewrite Hs.
cbn [mbind outcome_bind]. destruct rest as [|b rest']; [eexists; split_and!; [reflexivity|done..]|].
cbn [past_end] in *. rewrite is_ge_lt in *. pose proof (Forall_inv Hok) as Hbok. pose proof (Forall_inv_tail Hok) as Hok'.
destruct (ord_lt b.1.1 (bc_end c)) eqn:El; cbn [negb] in *.
- cbn [block_data fmap outcome_fmap mbind outcome_bind]. eexists. split_and!; [reflexivity|done|done|].
  specialize (Hnext b rest' eq_refl). rewrite is_ge_lt, El in Hnext. split; simpl; auto.
  + by destruct Hbok as (_ & Hw & _).
  + simpl in Hf. lia.
- cbn [mbind outcome_bind]. eexists. split_and!; [reflexivity|done|done|done|].
  destruct (blocks_head b rest' Hbok) as (v & l & ->). by apply upto_stop.
Qed.

Lemma settle_ok rest fuel c b pos :
  cursor_at c b pos rest → (S (length rest) < fuel)%nat →
  ∃ c', settle cache fuel c = Ok c' ∧ bc_end c' = bc_end c ∧ settled c' (drop pos b ++ blocks_entries rest).
Proof.
revert fuel c b pos. induction rest as [|b0 rest IH]; intros fuel c b pos Hc Hf;
  (destruct fuel as [|fuel]; [lia|]); pose proof Hc as [[Hb Hn] Hblk Hpos Hat [Hw Hok] Hfu];
  cbn [settle]; rewrite Hblk, Hpos, data_entry_of, at_nat by done;
  (destruct (b !! pos) as [e|] eqn:Ee;
    [cbn [fmap option_fmap option_map]; replace (entry_key (to_ref e)) with e.1 by (by destruct e as [[]]);
     rewrite is_ge_lt; destruct (ord_lt e.1 (bc_end c)) eqn:El; cbn [negb];
     [exists c; split_and!; [done|done|]; right; by eexists b, pos, _, e
     |exists (end_cursor c); split_and!; [done|done|]; left; split; [done|];
      rewrite (drop_S _ _ _ Ee); by apply upto_stop]|]); cbn [fmap option_fmap option_map];
  apply lookup_ge_None in Ee; rewrite drop_ge by done; cbn [app];
  destruct (load_block_ok c _ Hb Hn Hat Hok Hfu) as (c1 & Hl & He1 & _ & H1); rewrite Hl; cbn [mbind outcome_bind].
- destruct fuel as [|fuel]; [simpl in Hf; lia|]. cbn [settle]. rewrite H1. exists c1. split_and!; [done|done|].
  by left.
- destruct (ord_lt b0.1.1 (bc_end c)) eqn:El.
  + destruct (IH fuel c1 b0.2 0%nat H1) as (c2 & Hs & He2 & Hset); [simpl in Hf; lia|].
    exists c2. split_and!; [done|congruence|]. rewrite drop_0 in Hset. exact Hset.
  + destruct H1 as [H1 Hup]. destruct fuel as [|fuel]; [simpl in Hf; lia|]. cbn [settle]. rewrite H1.
    exists c1. split_and!; [done|done|]. left. split; [done|]. by rewrite He1.
Qed.

Definition sst_key_cursor : KeyCursor SstKeyCursor := {|
  current c := '(k, v) ← cursor_entry c; Some (k, match v with Some _ => true | None => false end);
  value c := '(_, v) ← cursor_entry c; v;
  advance c := cursor_advance cache c
|}.

(** A settled cursor yields the rest of its window. *)
Lemma settled_yields m c l :
  (length (upto (bc_end c) l) <= m)%nat → settled c l →
  @yields _ sst_key_cursor (CBlocked c) ((λ p, (ck_key p.1, p.2)) <$> upto (bc_end c) l).
Proof.
revert c l. induction m as [|m IH]; intros c l Hm [[Hn Hu]|(b & pos & rest & e & Hc & He & Hlt & ->)].
- rewrite Hu. apply yields_nil. simpl. by rewrite Hn.
- rewrite (drop_S _ _ _ He) in Hm. cbn [app] in Hm. rewrite upto_step in Hm by done. simpl in Hm. lia.
- rewrite Hu. apply yields_nil. simpl. by rewrite Hn.
- pose proof Hc as [[Hb Hn] Hblk Hpos Hat [Hw Hok] Hfu].
  assert (Hent : cursor_entry (CBlocked c) = Some (ck_key e.1, value_view e.2)).
  { simpl. rewrite Hblk. simpl. rewrite Hpos, data_entry_of, at_nat, He by done. done. }
  rewrite (drop_S _ _ _ He) in Hm |- *. cbn [app] in Hm |- *. rewrite upto_step in Hm |- * by done.
  rewrite fmap_cons. set (c1 := MkBlockedCursor (bc_body c) (bc_sst_number c) (bc_cached c) (bc_walk c) (bc_end c)
    (bc_block c) (bc_pos c + 1)).
  assert (Hc1 : cursor_at c1 b (S pos) rest) by (split; simpl; auto; lia).
  destruct (settle_ok rest (cursor_fuel c1) c1 b (S pos) Hc1) as (c2 & Hs & He2 & Hset).
  { unfold cursor_fuel, c1. simpl. rewrite Hb. lia. }
  apply (@yields_cons _ sst_key_cursor _ _ _ (CBlocked c2)).
  + unfold current. cbn [sst_key_cursor]. rewrite Hent. by destruct e as [? []].
  + unfold value. cbn [sst_key_cursor]. by rewrite Hent.
  + unfold advance. cbn [sst_key_cursor cursor_advance]. fold c1. by rewrite Hs.
  + replace (bc_end c) with (bc_end c2) in * by done. apply IH; [|done].
    simpl in Hm. lia.
Qed.

Lemma in_window_spec (s e k : CompositeKey) : in_window s e k = negb (ord_lt k s) && ord_lt k e.
Proof. unfold in_window. rewrite is_ge_lt. done. Qed.

Lemma upto_filter end_ l : bt_sorted l → filter (λ p, ord_lt p.1 end_ = true) l = upto end_ l.
Proof.
induction l as [|e l IH]; intros Hs; [done|]. rewrite filter_cons. destruct (ord_lt e.1 end_) eqn:El.
- rewrite decide_True by done. rewrite upto_step by done. f_equal. apply IH. by eapply bt_sorted_cons_inv.
- rewrite decide_False by done. rewrite upto_stop by done. apply filter_none. intros p Hp Hx.
  apply bt_sorted_pairs, StronglySorted_cons in Hs as [Hf _]. rewrite Forall_forall in Hf. apply Hf in Hp.
  apply ord_lt_iff in Hx. assert (ord_lt e.1 end_ = true) by (apply ord_lt_iff; by transitivity p.1). congruence.
Qed.

(** The window of the entries, once those below its start are set aside. *)
Lemma window_split start end_ pre l :
  es = pre ++ l → (∀ p, p ∈ pre → lexico p.1 start) → (∀ p, p ∈ l → ord_lt p.1 start = false) →
  filter (λ p, in_window start end_ p.1 = true) es = upto end_ l.
Proof.
intros He Hpre Hl. assert (Hs : bt_sorted l) by (pose proof sorted as Hs; rewrite He in Hs; by apply bt_sorted_app_inv in Hs as [_ ?]).
rewrite He, filter_app, (filter_none _ pre).
2: { intros p Hp. rewrite in_window_spec. apply Hpre, ord_lt_iff in Hp. by rewrite Hp. }
rewrite <-upto_filter by done. cbn [app]. clear He Hs Hpre.
induction l as [|p l IH]; [done|]. rewrite !filter_cons, in_window_spec, (Hl p) by set_solver.
cbn [negb andb]. case_decide; [f_equal|]; apply IH; intros q Hq; apply Hl; set_solver.
Qed.

Lemma range_of_bounds mn mx k :
  range_of es = Some (mn, mx) → k ∈ es.*1 → ord_le mn k = true ∧ ord_le k mx = true.
Proof.
unfold range_of. intros Hr Hk. apply list_elem_of_fmap in Hk as ([k' v] & -> & Hp). simpl.
destruct (head es) as [[mn' v1]|] eqn:Eh; [|done]. destruct (last es) as [[mx' v2]|] eqn:El; [|done].
simpl in Hr. injection Hr as -> ->. pose proof sorted as Hs. split.
- eapply first_of_least; [|exact Hs|exact Hp]. destruct es as [|e es']; [done|]. simpl in Eh. injection Eh as ->.
  by eexists _, _.
- apply last_Some in El as [es' He]. rewrite He in Hs, Hp. apply ord_le_iff.
  apply elem_of_app in Hp as [Hp|Hp].
  + right. apply (sorted_app_lt _ _ _ (mx, v2) Hs Hp). set_solver.
  + apply list_elem_of_singleton in Hp. injection Hp as -> ->. by left.
Qed.

Lemma range_of_none : range_of es = None → es = [].
Proof.
unfold range_of. destruct es as [|e es'] eqn:Ees; [done|]. simpl.
destruct (last (e :: es')) eqn:El; [done|]. by apply last_None in El.
Qed.

Section reader.
Context (count : Z).
Let r := MkReader (Blocked bb) count n None (range_of es).

Lemma get_with_ok realm key cached : get_with cache r realm key cached = Ok (bt_get (CKey realm key) es).
Proof.
unfold get_with. destruct (may_contain r realm key) eqn:Em; cbn [negb].
{ unfold r. cbn [sr_body sr_bloom_filter sr_sst_number]. apply blocked_get_ok. }
f_equal. symmetry. unfold may_contain in Em. simpl in Em. destruct (range_of es) as [[mn mx]|] eqn:Er.
- apply bt_get_notin. intros Hin. destruct (range_of_bounds _ _ _ Er Hin) as [H1 H2].
  unfold ord_le in H1, H2. pose proof (ord_cmp_spec mx (CKey realm key)) as Hc.
  pose proof (ord_cmp_spec (CKey realm key) mx) as Hc'.
  unfold is_le, is_ge in Em. destruct (ord_cmp mn (CKey realm key)); try done; simpl in Em;
  destruct (ord_cmp mx (CKey realm key)) eqn:E2; try done;
  rewrite (ord_cmp_Gt _ mx) in H2 by done; done.
- apply range_of_none in Er. by rewrite Er.
Qed.

Lemma overlaps_window realm s e :
  overlaps_range r realm s e = false →
  filter (λ p, in_window (CKey realm s) (CKey realm e) p.1 = true) es = [].
Proof.
intros Ho. apply filter_none. intros p Hp Hw. unfold overlaps_range in Ho. simpl in Ho.
destruct (range_of es) as [[mn mx]|] eqn:Er.
- destruct (range_of_bounds _ _ p.1 Er) as [H1 H2]; [apply list_elem_of_fmap; by exists p|].
  rewrite in_window_spec in Hw. apply andb_true_iff in Hw as [Hge Hlt]. apply negb_true_iff in Hge.
  rewrite is_ge_lt in Ho. apply andb_false_iff in Ho as [Ho|Ho].
  + assert (Hx : ord_lt mn (CKey realm e) = true).
    { apply ord_lt_iff. apply ord_lt_iff in Hlt. apply ord_le_iff in H1 as [->|?]; [done|by transitivity p.1]. }
    unfold ord_lt in Hx. unfold is_lt in Ho. congruence.
  + apply negb_false_iff in Ho. assert (Hx : ord_lt p.1 (CKey realm s) = true).
    { apply ord_lt_iff. apply ord_lt_iff in Ho. apply ord_le_iff in H2 as [->|?]; [done|by transitivity mx]. }
    congruence.
- apply range_of_none in Er. rewrite Er in Hp. by apply elem_of_nil in Hp.
Qed.

Lemma iter_all_ok : zlen es <= u64_max → iter_all cache r = Ok es.
Proof.
intros Hl. unfold iter_all, r. cbn [sr_body sr_sst_number]. rewrite iter_blocked_ok by done. cbn [mbind outcome_bind]. f_equal.
rewrite <-list_fmap_compose. rewrite <-(list_fmap_id es) at 2. apply list_fmap_ext. intros i [[rk kk] v] _. simpl.
unfold into_owned, to_ref, entry_ref, entry_key, memtable_value. simpl. by destruct v.
Qed.

Lemma range_scan_inner_ok {T} realm s e (project : option (list byte) → T) :
  zlen es <= u64_max → ord_lt e s = false →
  range_scan_inner cache r realm s e project =
    Ok ((λ p, (ck_key p.1, project (value_view p.2))) <$>
          filter (λ p, in_window (CKey realm s) (CKey realm e) p.1 = true) es).
Proof.
intros Hl Hse. unfold range_scan_inner. rewrite Hse.
destruct (overlaps_range r realm s e) eqn:Eo; cbn [negb]; [|by rewrite overlaps_window].
simpl sr_body. cbv iota beta. simpl sr_sst_number.
destruct (walk_seek_ok realm s true) as (walk & rest & pre & Hs & Hat & He & Hok & Hpre & _). rewrite Hs.
cbn [mbind outcome_bind]. rewrite (walk_entries_ok _ true (Some (CKey realm e)) walk rest);
  [|done|done|by eapply walk_fuel_enough]. cbn [mbind outcome_bind app]. f_equal.
rewrite (window_before rest pre) by done. generalize (blocks_entries (before (Some (CKey realm e)) rest)).
intros l. induction l as [|p l IH]; [done|]. rewrite fmap_cons, !filter_cons.
replace (entry_key (to_ref p)) with p.1 by (by destruct p as [[]]).
case_decide; [|done]. rewrite !fmap_cons, IH. done.
Qed.

Lemma sst_cursor_ok realm s e cached :
  zlen es <= u64_max → ord_lt e s = false →
  ∃ c, sst_cursor cache r realm s e cached = Ok c ∧
    @yields _ sst_key_cursor c ((λ p, (ck_key p.1, p.2)) <$>
      filter (λ p, in_window (CKey realm s) (CKey realm e) p.1 = true) es).
Proof.
intros Hl Hse. unfold sst_cursor. rewrite Hse.
destruct (overlaps_range r realm s e) eqn:Eo; cbn [negb].
2: { exists CDone. split; [done|]. rewrite overlaps_window by done. by apply yields_nil. }
simpl sr_body. cbv iota beta. simpl sr_sst_number.
destruct (walk_seek_ok realm s cached) as (walk & rest & pre & Hs & Hat & He & Hok & Hpre & Hpost). rewrite Hs.
cbn [mbind outcome_bind].
pose proof (walk_fuel_enough rest pre Hok He Hl) as Hfu.
destruct (load_block_ok (MkBlockedCursor bb n cached walk (CKey realm e) None 0) rest eq_refl eq_refl Hat Hok Hfu)
  as (c1 & Hl1 & He1 & Hc1 & H1). rewrite Hl1. cbn [mbind outcome_bind]. simpl in He1.
assert (Hdone : bc_block c1 = None → ∃ c, (CBlocked <$> settle cache (cursor_fuel c1) c1) = Ok c ∧
  @yields _ sst_key_cursor c []).
{ intros Hn. exists (CBlocked c1). unfold cursor_fuel. cbn [settle]. rewrite Hn. split; [done|].
  apply yields_nil. simpl. by rewrite Hn. }
destruct rest as [|b rest].
{ rewrite H1. rewrite (window_split _ _ pre []); [by apply Hdone|done|done|by intros ? ?%elem_of_nil]. }
simpl bc_end in H1. simpl tail in Hpost. pose proof (Forall_inv Hok) as Hb. destruct Hb as (Hfirst & Hw & Hat0).
assert (Hsb : bt_sorted b.2).
{ pose proof sorted as Hsrt. rewrite He in Hsrt. apply bt_sorted_app_inv in Hsrt as [_ Hsrt].
  unfold blocks_entries in Hsrt. rewrite fmap_cons in Hsrt. by apply bt_sorted_app_inv in Hsrt as [? _]. }
set (pos := count_while (λ p, ord_lt p.1 (CKey realm s)) b.2).
assert (Hge : ∀ p, p ∈ drop pos b.2 ++ blocks_entries rest → ord_lt p.1 (CKey realm s) = false).
{ intros p [Hp|Hp]%elem_of_app; [|apply ord_lt_asym, ord_lt_iff; by apply Hpost].
  apply list_elem_of_lookup in Hp as [i Hi]. rewrite lookup_drop in Hi.
  rewrite (count_while_sorted (λ p q, lexico p.1 q.1) (λ p, ord_lt p.1 (CKey realm s)) b.2 _ p
    (bt_sorted_pairs _ Hsb) (ord_lt_mono _) Hi). apply bool_decide_eq_false_2. fold pos. lia. }
assert (Hes : es = (pre ++ take pos b.2) ++ drop pos b.2 ++ blocks_entries rest).
{ rewrite He. unfold blocks_entries. rewrite fmap_cons. simpl mjoin. rewrite <-app_assoc, (app_assoc (take pos b.2)).
  by rewrite take_drop. }
rewrite (window_split _ (CKey realm e) _ _ Hes); [|intros p [Hp|Hp]%elem_of_app; [by apply Hpre|]|done].
2: { apply list_elem_of_lookup in Hp as [i Hi]. apply lookup_take_Some in Hi as [Hi Hlt].
  apply ord_lt_iff. by eapply (count_while_true (λ p, ord_lt p.1 (CKey realm s)) b.2 i). }
destruct (ord_lt b.1.1 (CKey realm e)) eqn:El.
- pose proof H1 as [[Hbb Hnn] Hblk Hpos1 Hwalk [_ Hokr] Hfr]. rewrite Hblk.
  set (c2 := MkBlockedCursor (bc_body c1) (bc_sst_number c1) (bc_cached c1) (bc_walk c1) (bc_end c1)
    (Some (data_block_of b.2)) (lower_bound (data_block_of b.2) realm s)).
  assert (Hc2 : cursor_at c2 b.2 pos rest).
  { split; simpl; auto. by rewrite lower_bound_of. }
  destruct (settle_ok rest (cursor_fuel c2) c2 b.2 pos Hc2) as (c3 & Hs3 & He3 & Hset).
  { unfold cursor_fuel. simpl. rewrite Hbb. lia. }
  exists (CBlocked c3). rewrite Hs3. split; [done|]. simpl in He3. rewrite He1 in He3.
  rewrite <-He3. by eapply settled_yields.
- destruct H1 as [Hn Hup]. rewrite Hn.
  assert (Hempty : upto (CKey realm e) (drop pos b.2 ++ blocks_entries rest) = []).
  { rewrite <-(window_split (CKey realm s) (CKey realm e) _ _ Hes); [|intros p [Hp|Hp]%elem_of_app; [by apply Hpre|]|done].
    2: { apply list_elem_of_lookup in Hp as [i Hi]. apply lookup_take_Some in Hi as [Hi Hlt].
      apply ord_lt_iff. by eapply (count_while_true (λ p, ord_lt p.1 (CKey realm s)) b.2 i). }
    rewrite (window_before (b :: rest) pre) by done. unfold before. cbn [count_while past_end].
    rewrite is_ge_lt, El. done. }
  rewrite Hempty. by apply Hdone.
Qed.

End reader.

End get_lemmas.

(** ** The caches a reader can meet *)

(** The blocks a reader loads: the pieces its footer names, and the data blocks its
index blocks name. *)
Inductive loads `{HA : Aead} (body : BlockedBody) (n : Z) : BlockHandle → BlockKind → Prop :=
| loads_index p h : p ∈ bb_partitions body → pt_index p = Stored h → loads body n h KIndex
| loads_filter p h : p ∈ bb_partitions body → pt_filter p = Some (Stored h) → loads body n h KFilter
| loads_data p h ix i e :
    p ∈ bb_partitions body → pt_index p = Stored h → load_uncached body h KIndex n = Ok (BIndex ix) →
    index_entry ix i = Some e → loads body n (ie_handle e) KData.

(** The contents the reader's own loads leave in its slots of the block cache, with
evictions at any time. *)
Inductive reader_cache `{HA : Aead} (body : BlockedBody) (n : Z) : (Z → option Block) → Prop :=
| rc_empty : reader_cache body n (λ _, None)
| rc_fill cache h kind b :
    reader_cache body n cache → loads body n h kind → load_uncached body h kind n = Ok b →
    reader_cache body n (λ o, if decide (o = bh_ordinal h) then Some b else cache o)
| rc_evict cache o :
    reader_cache body n cache → reader_cache body n (λ o', if decide (o' = o) then None else cache o').

Definition cache_of `{HA : Aead} (r : SstReader) (cache : Z → option Block) : Prop :=
  match sr_body r with Eager _ => True | Blocked body => reader_cache body (sr_sst_number r) cache end.

Section caches.
Context `{HA : Aead} `{HC : Crc32} `{HAL : !AeadLaws} `{HCL : !Crc32Laws}.
Context (hdr : EncryptionHeader) (n : Z) (dek : list byte) (es : list Entry) (ps : list Part)
  (body fct file : list byte).
Hypothesis layout : sst_layout hdr n dek es ps body fct file.

(** The blocks of a partition, in the order of their ordinals. *)
Definition part_triples (p : Part) : list (BlockHandle * (BlockKind * list byte)) :=
  ((λ b, (b.1.2, (KData, ser_entries b.2))) <$> pa_blocks p) ++
  [(pa_filter p, (KFilter, bloom_encode (from_hashes (hashes_of (pa_entries p)))));
   (pa_index p, (KIndex, encs ser_item (pa_blocks p).*1))].

Lemma part_triples_handles p : (part_triples p).*1 = part_handles p.
Proof. unfold part_triples, part_handles. rewrite fmap_app, <-!list_fmap_compose. done. Qed.

Lemma file_block_triple h kind pt :
  file_block ps h kind pt → (h, (kind, pt)) ∈ mjoin (part_triples <$> ps).
Proof.
assert (Hin : ∀ p x, p ∈ ps → x ∈ part_triples p → x ∈ mjoin (part_triples <$> ps)).
{ intros p x Hp Hx. apply list_elem_of_join. exists (part_triples p). split; [done|].
  apply list_elem_of_fmap. by exists p. }
intros [p Hp|p Hp|p b Hp Hb]; apply (Hin p); try done; unfold part_triples; apply elem_of_app.
- right. set_solver.
- right. set_solver.
- left. apply list_elem_of_fmap. by exists b.
Qed.

(** Blocks of equal ordinal are the same block: the nonces of a file are used once. *)
Lemma file_block_unique h kind pt h' kind' pt' :
  file_block ps h kind pt → file_block ps h' kind' pt' → bh_ordinal h = bh_ordinal h' →
  h = h' ∧ kind = kind' ∧ pt = pt'.
Proof.
intros H1%file_block_triple H2%file_block_triple Ho.
assert (Hnd : NoDup ((bh_ordinal ∘ fst) <$> mjoin (part_triples <$> ps))).
{ rewrite list_fmap_compose.
  assert (Hj : (mjoin (part_triples <$> ps)).*1 = mjoin (part_handles <$> ps)).
  { clear. induction ps as [|p l IH]; [done|]. rewrite !fmap_cons. simpl mjoin.
    by rewrite fmap_app, IH, part_triples_handles. }
  rewrite Hj, (sl_ordinals _ _ _ _ _ _ _ _ layout). apply NoDup_seqZ. }
apply list_elem_of_lookup in H1 as [i Hi], H2 as [j Hj].
assert (i = j) as ->.
{ eapply NoDup_lookup; [exact Hnd|..]; rewrite list_lookup_fmap; [rewrite Hi|rewrite Hj]; simpl; [done|by rewrite Ho]. }
rewrite Hi in Hj. by injection Hj as -> -> ->.
Qed.

Lemma empty_coherent : cache_coherent ps (λ _, None).
Proof. intros h kind pt b _ [=]. Qed.

Lemma loads_file_block h kind :
  loads (blocked_of file body dek ps es) n h kind → ∃ pt, file_block ps h kind pt.
Proof.
intros Hl. destruct Hl as [p h Hp Hx|p h Hp Hx|p h ix i e Hp Hx Hld He];
  apply list_elem_of_fmap in Hp as (q & -> & Hq); injection Hx as <-.
- eexists. by apply fb_index.
- eexists. by apply fb_filter.
- pose proof (load_index_ok _ _ _ _ _ _ _ _ layout _ empty_coherent q false Hq) as Hok.
  unfold load in Hok. rewrite Hok in Hld. injection Hld as <-.
  rewrite index_entry_of in He by (by eapply part_items_ok). unfold at_ in He. destruct (0 <=? i); [|done].
  rewrite list_lookup_fmap in He. destruct (pa_blocks q !! Z.to_nat i) as [b|] eqn:Eb; [|done]. injection He as <-.
  exists (ser_entries b.2). destruct b as [[f h] l]. apply (fb_data ps q ((f, h), l)); [done|].
  by eapply list_elem_of_lookup_2.
Qed.

Lemma reader_cache_coherent cache : reader_cache (blocked_of file body dek ps es) n cache → cache_coherent ps cache.
Proof.
intros Hc. induction Hc as [|cache h kind b Hc IH Hl Hb|cache o Hc IH].
- apply empty_coherent.
- intros h' kind' pt' b' Hf Hb'. simpl in Hb'. case_decide as Ho; [|by eapply IH]. injection Hb' as <-.
  apply loads_file_block in Hl as [pt Hfb].
  destruct (file_block_unique _ _ _ _ _ _ Hf Hfb Ho) as (-> & -> & ->). rewrite <-Hb. symmetry.
  by apply (load_uncached_ok _ _ _ _ _ _ _ _ layout).
- intros h' kind' pt' b' Hf Hb'. simpl in Hb'. case_decide; [done|by eapply IH].
Qed.

(** What the readers of a written file answer. *)
Lemma read_back_ok r cache :
  bt_sorted es → zlen es <= u64_max →
  (∃ count, r = MkReader (Blocked (blocked_of file body dek ps es)) count n None (range_of es)) →
  cache_of r cache →
  (∀ realm key cached, get_with cache r realm key cached = Ok (bt_get (CKey realm key) es)) ∧
  iter_all cache r = Ok es ∧
  (∀ realm s e, range_scan cache r realm s e =
    if ord_lt e s then Err InvalidRange
    else Ok ((λ p, (ck_key p.1, p.2)) <$> filter (λ p, in_window (CKey realm s) (CKey realm e) p.1 = true) es)) ∧
  (∀ realm s e cached, ord_lt e s = false →
    ∃ c, sst_cursor cache r realm s e cached = Ok c ∧
      @yields _ (sst_key_cursor cache) c ((λ p, (ck_key p.1, p.2)) <$>
        filter (λ p, in_window (CKey realm s) (CKey realm e) p.1 = true) es)).
Proof.
intros Hs Hl [count ->] Hc%reader_cache_coherent. split_and!.
- intros. by eapply get_with_ok.
- by eapply iter_all_ok.
- intros realm s e. unfold range_scan. destruct (ord_lt e s) eqn:E.
  + unfold range_scan_inner. by rewrite E.
  + erewrite range_scan_inner_ok by done. f_equal. apply list_fmap_ext. intros i [k v] _. simpl. f_equal. by destruct v.
- intros. by eapply sst_cursor_ok.
Qed.

End caches.


(** ** Arbitrary bytes *)

Lemma decode_offsets_total fuel msg read plaintext pos offsets :
  (∀ pos, 0 <= pos → no_panic (read plaintext pos) ∧ ∀ p, read plaintext pos = Ok p → pos < p) →
  0 <= pos → zlen plaintext - pos <= Z.of_nat fuel →
  no_panic (decode_offsets fuel msg read plaintext pos offsets).
Proof.
intros Hr. revert pos offsets. induction fuel as [|fuel IH]; intros pos offsets Hp Hf; cbn [decode_offsets].
- destruct (Z.ltb_spec pos (zlen plaintext)); [lia|done].
- destruct (Z.ltb_spec pos (zlen plaintext)); [|done]. destruct (u32_max <? pos); [done|].
  destruct (Hr pos Hp) as [Hn Hadv]. apply no_panic_bind; [done|]. intros p Hok. apply Hadv in Hok. apply IH; lia.
Qed.

Lemma no_panic_fmap {A B} (f : A → B) (m : res A) : no_panic m → no_panic (f <$> m).
Proof. by destruct m. Qed.

Lemma data_decode_total pt : no_panic (data_decode pt).
Proof.
unfold data_decode. apply no_panic_bind; [|done]. apply decode_offsets_total; [|lia|unfold zlen; lia].
intros pos Hp. destruct (read_entry_total pt pos Hp) as [Hn Hb]. unfold entry_end. split; [by apply no_panic_fmap|].
intros p. destruct (read_entry pt pos) as [[e q]| |]; [|done..]. intros [= <-]. specialize (Hb e q eq_refl).
unfold SST_MIN_ENTRY_BYTES in Hb. lia.
Qed.

Lemma index_decode_total pt : no_panic (index_decode pt).
Proof.
unfold index_decode. apply no_panic_bind; [|done]. apply decode_offsets_total; [|lia|unfold zlen; lia].
intros pos Hp. destruct (read_index_entry_total pt pos Hp) as [Hn Hb]. unfold index_entry_end.
split; [by apply no_panic_fmap|].
intros p. destruct (read_index_entry pt pos) as [[e q]| |]; [|done..]. intros [= <-]. specialize (Hb e q eq_refl). lia.
Qed.

Lemma block_decode_total kind pt : no_panic (block_decode kind pt).
Proof.
destruct kind; simpl; apply no_panic_fmap;
  [apply data_decode_total|apply index_decode_total|by destruct pt].
Qed.

Lemma index_range_total {A} a b (l : list A) : 0 <= a <= b → b <= zlen l → no_panic (index_range (E := StorageError) a b l).
Proof. intros H1 H2. unfold index_range. destruct (slice_is_Some a b l H1 H2) as [s ->]. done. Qed.

Lemma read_footer_key_total data pos :
  0 <= pos → no_panic (read_footer_key data pos) ∧ ∀ k p, read_footer_key data pos = Ok (k, p) → pos + 20 <= p.
Proof.
intros Hp. unfold read_footer_key. destruct (Z.ltb_spec (zlen data) (pos + 20)); [done|].
split.
- apply no_panic_bind; [apply index_range_total; lia|intros u _]. apply no_panic_bind; [auto with hearth|intros ? _].
  apply no_panic_bind; [apply index_range_total; lia|intros lb _]. apply no_panic_bind; [auto with hearth|intros lb' _].
  destruct (Z.ltb_spec (zlen data) (pos + 20 + from_le lb')); [done|]. pose proof (from_le_bound lb').
  apply no_panic_bind; [apply index_range_total; lia|done].
- intros k p H1. bind_inv H1 u Hu. bind_inv H1 u' Hu'. bind_inv H1 lb Hlb. bind_inv H1 lb' Hlb'.
  destruct (_ <? _); [done|]. bind_inv H1 key Hkey. injection H1 as _ <-. pose proof (from_le_bound lb'). lia.
Qed.

(** Walk a chain of binds whose heads are known not to panic. *)
Ltac no_panic_chain :=
  repeat first
    [ progress cbn [no_panic]; exact I
    | apply no_panic_bind; [solve [auto with hearth | apply read_footer_key_total; lia]|intros ? ?]
    | case_match ].

(** Handles read from bytes hold unsigned values. *)
Definition handle_unsigned (h : BlockHandle) : Prop := 0 <= bh_file_offset h ∧ 0 <= bh_ciphertext_len h.

Lemma handle_read_unsigned data pos h : handle_read data pos = Some h → handle_unsigned h.
Proof.
unfold handle_read. destruct (slice pos _ data) as [b|]; [|done]. cbn [mbind option_bind].
destruct (slice 0 8 b) as [b1|]; [|done]. cbn [mbind option_bind].
destruct (slice 8 12 b) as [b2|]; [|done]. cbn [mbind option_bind].
destruct (slice 12 16 b) as [b3|]; [|done]. cbn [mbind option_bind].
destruct (slice 16 20 b) as [b4|]; [|done]. intros [= <-].
split; simpl; [pose proof (from_le_bound b1)|pose proof (from_le_bound b2)]; lia.
Qed.

Definition partition_unsigned (p : Partition) : Prop :=
  Forall (λ c, match c with Stored h => handle_unsigned h | Pinned _ => True end) (pieces_of p).

Lemma parse_partitions_total m data pos acc :
  0 <= pos → Forall partition_unsigned acc → no_panic (parse_partitions m data pos acc) ∧
  ∀ ps p, parse_partitions m data pos acc = Ok (ps, p) → pos <= p ∧ Forall partition_unsigned ps.
Proof.
revert pos acc. induction m as [|m IH]; intros pos acc Hp Hacc; cbn [parse_partitions].
{ split; [done|]. intros ps p [= <- <-]. split; [lia|done]. }
destruct (read_footer_key_total data pos Hp) as [Hn Hadv]. destruct (read_footer_key data pos) as [[k next]|e|]; [|done..].
cbn [mbind outcome_bind]. specialize (Hadv k next eq_refl). unfold HANDLE_BYTES.
destruct (handle_read data next) as [ih|] eqn:Ei; cbn [ok_or mbind outcome_bind]; [|done].
destruct (at_ (next + (8 + 4 + 4 + 4)) data) as [hf|]; cbn [ok_or mbind outcome_bind]; [|done].
destruct (handle_read data (next + _ + 1)) as [fh|] eqn:Ef; cbn [ok_or mbind outcome_bind]; [|done].
apply handle_read_unsigned in Ei, Ef.
match goal with |- context [parse_partitions m data ?q ?a] => destruct (IH q a) as [H1 H2]; [lia| |] end.
{ apply Forall_app. split; [done|]. apply Forall_singleton. unfold partition_unsigned, pieces_of. simpl.
  case_decide; simpl; repeat (apply Forall_cons; split; [done|]); apply Forall_nil_2. }
split; [done|]. intros ps p Hx. apply H2 in Hx as [? ?]. split; [lia|done].
Qed.

Lemma parse_v4_footer_unsigned data c ps kr :
  parse_v4_footer data = Ok (c, ps, kr) → Forall partition_unsigned ps.
Proof.
unfold parse_v4_footer. cbv zeta. intros Hp. bind_inv Hp c' Hc. bind_inv Hp pc Hpc. bind_inv Hp x Hx.
destruct x as [ps' pos]. bind_inv Hp hr Hhr. bind_inv Hp kr' Hkr. injection Hp as _ <- _.
destruct (parse_partitions_total (Z.to_nat pc) data 12 [] ltac:(lia) (Forall_nil_2 _)) as [_ Hadv].
by apply Hadv in Hx as [_ ?].
Qed.

Lemma parse_v4_footer_total data : no_panic (parse_v4_footer data).
Proof.
unfold parse_v4_footer. apply no_panic_bind; [auto with hearth|intros c _].
apply no_panic_bind; [auto with hearth|intros pc _].
destruct (parse_partitions_total (Z.to_nat pc) data 12 [] ltac:(lia) (Forall_nil_2 _)) as [Hn Hadv].
apply no_panic_bind; [done|]. intros [ps pos] Hps. apply Hadv in Hps as [Hps _].
apply no_panic_bind; [auto with hearth|intros hr _]. apply no_panic_bind; [|done].
case_decide; [|done].
destruct (read_footer_key_total data (pos + 1) ltac:(lia)) as [H1 H1'].
apply no_panic_bind; [done|]. intros [mn p1] Hp1. apply H1' in Hp1.
destruct (read_footer_key_total data p1 ltac:(lia)) as [H2 _]. apply no_panic_bind; [done|]. by intros [mx p2] _.
Qed.

Lemma parse_v3_index_total m data pos acc :
  0 <= pos → no_panic (parse_v3_index m data pos acc) ∧
  ∀ ix p, parse_v3_index m data pos acc = Ok (ix, p) → pos <= p.
Proof.
revert pos acc. induction m as [|m IH]; intros pos acc Hp; cbn [parse_v3_index].
{ split; [done|]. intros ix p [= _ <-]. lia. }
unfold read_uint. destruct (slice pos (pos + 8) data); cbn [fmap option_fmap option_map ok_or mbind outcome_bind]; [|done].
destruct (slice (pos + 8) _ data); cbn [fmap option_fmap option_map ok_or mbind outcome_bind]; [|done].
destruct (slice (pos + 12) _ data); cbn [fmap option_fmap option_map ok_or mbind outcome_bind]; [|done].
destruct (read_footer_key_total data (pos + 16) ltac:(lia)) as [Hn Hadv].
destruct (read_footer_key data (pos + 16)) as [[k next]|e|]; [|done..]. cbn [mbind outcome_bind].
specialize (Hadv k next eq_refl).
match goal with |- context [parse_v3_index m data ?q ?a] => destruct (IH q a) as [H1 H2]; [lia|] end.
split; [done|]. intros ix p Hx. apply H2 in Hx. lia.
Qed.

Lemma parse_v3_footer_total data : no_panic (parse_v3_footer data).
Proof.
unfold parse_v3_footer, read_uint. cbv zeta. apply no_panic_bind; [auto with hearth|].
intros nb _. destruct (parse_v3_index_total (Z.to_nat nb) data 4 [] ltac:(lia)) as [Hn Hadv].
apply no_panic_bind; [done|]. intros [ix pos] Hix. apply Hadv in Hix.
apply no_panic_bind; [auto with hearth|intros hr _]. apply no_panic_bind.
- case_decide; [|done]. destruct (read_footer_key_total data (pos + 1) ltac:(lia)) as [H1 H1'].
  apply no_panic_bind; [done|]. intros [mn p1] Hp1. apply H1' in Hp1.
  destruct (read_footer_key_total data p1 ltac:(lia)) as [H2 _]. apply no_panic_bind; [done|]. by intros [mx p2] _.
- intros [kr pos'] _. apply no_panic_bind; [auto with hearth|intros bb _].
  apply no_panic_bind; [|done]. case_match; [|done].
  apply no_panic_bind; [auto with hearth|intros k _]. apply no_panic_bind; [auto with hearth|done].
Qed.

Lemma check_block_range_total h e : no_panic (check_block_range h e).
Proof. unfold check_block_range. repeat case_match; done. Qed.

Lemma check_pieces_total l e : no_panic (check_pieces l e).
Proof.
induction l as [|[b|h] l IH]; simpl; [done|done|]. apply no_panic_bind; [apply check_block_range_total|auto].
Qed.

Lemma v3_index_plaintext_total ix ord e acc : no_panic (v3_index_plaintext ix ord e acc).
Proof.
revert ord acc. induction ix as [|x ix IH]; intros ord acc; simpl; [done|]. case_match; [done|].
apply no_panic_bind; [apply check_block_range_total|auto].
Qed.

Lemma parse_entries_total fuel data pos acc :
  0 <= pos → zlen data - pos <= Z.of_nat fuel → no_panic (parse_entries_loop fuel data pos acc).
Proof.
revert pos acc. induction fuel as [|fuel IH]; intros pos acc Hp Hf; cbn [parse_entries_loop].
- destruct (Z.ltb_spec pos (zlen data)); [lia|done].
- destruct (Z.ltb_spec pos (zlen data)); [|done]. destruct (read_entry_total data pos Hp) as [Hn Hb].
  apply no_panic_bind; [done|]. intros [e p] Hok. apply Hb in Hok. unfold SST_MIN_ENTRY_BYTES in Hok. apply IH; lia.
Qed.

Lemma deserialize_entries_total data c : no_panic (deserialize_entries data c).
Proof.
unfold deserialize_entries. apply no_panic_bind; [apply parse_entries_total; [lia|unfold zlen; lia]|].
intros es _. by case_match.
Qed.

Lemma parse_v2_total data c : no_panic (parse_v2_plaintext data c).
Proof.
unfold parse_v2_plaintext. destruct (Z.ltb_spec (zlen data) 4); [done|].
apply no_panic_bind; [apply index_range_total; lia|intros cb _]. apply no_panic_bind; [auto with hearth|intros cb' _].
pose proof (from_le_bound cb'). destruct (Z.ltb_spec 0 (from_le cb')).
- destruct (Z.leb_spec (zlen data) 4); [done|].
  apply no_panic_bind.
  + apply no_panic_bind; [|intros k _].
    { unfold index_at. destruct (at_ 4 data) eqn:E; [done|]. unfold at_ in E. simpl in E.
      apply lookup_ge_None in E. unfold zlen in *. lia. }
    destruct (Z.ltb_spec (zlen data) (4 + 1 + from_le cb')); [done|].
    apply no_panic_bind; [apply index_range_total; lia|done].
  + intros [bf pos] Hpos.
    assert (Hb : 0 <= pos <= zlen data).
    { bind_inv Hpos k Hk. destruct (Z.ltb_spec (zlen data) (4 + 1 + from_le cb')); [done|].
      bind_inv Hpos bits Hbits. injection Hpos as _ <-. lia. }
    apply no_panic_bind; [apply index_range_total; lia|intros rest _].
    apply no_panic_bind; [apply deserialize_entries_total|done].
- cbn [mbind outcome_bind]. apply no_panic_bind; [apply index_range_total; lia|intros rest _].
  apply no_panic_bind; [apply deserialize_entries_total|done].
Qed.

Section any_bytes.
Context `{HA : Aead} `{HC : Crc32}.

Lemma read_footer_total backing crc n dek :
  no_panic (read_footer backing crc n dek) ∧
  ∀ off pt, read_footer backing crc n dek = Ok (off, pt) → off <= zlen backing.
Proof.
unfold read_footer. change (TOTAL_HEADER_SIZE + TRAILER_SIZE) with 100. change TRAILER_SIZE with 12.
change TOTAL_HEADER_SIZE with 88.
destruct (Z.ltb_spec (zlen backing) 100); [done|].
destruct (slice_is_Some (zlen backing - 12) (zlen backing) backing) as [tr Htr]; [lia|lia|].
rewrite (index_range_eq _ _ _ tr) by done. cbn [mbind outcome_bind].
apply slice_Some in Htr as (_ & _ & Hl & _).
destruct (slice_is_Some 0 8 tr) as [ob Hob]; [lia|lia|]. rewrite (index_range_eq 0 8 _ ob) by done. cbn [mbind outcome_bind].
destruct (slice_is_Some 8 12 tr) as [lb Hlb]; [lia|lia|]. rewrite (index_range_eq 8 12 _ lb) by done.
unfold try_into. apply slice_Some in Hob as (_ & _ & Hob & _), Hlb as (_ & _ & Hlb & _). rewrite Hob.
change (8 - 0 =? 8) with true. cbn [mbind outcome_bind]. rewrite Hlb. change (12 - 8 =? 4) with true.
cbn [mbind outcome_bind].
pose proof (from_le_bound ob). pose proof (from_le_bound lb). cbv zeta.
destruct (negb _) eqn:Eg; [done|]. apply negb_false_iff, andb_true_iff in Eg as [[Hg1 Hg2]%andb_true_iff Hg3].
apply Z.leb_le in Hg1, Hg2, Hg3.
destruct (slice_is_Some (from_le ob) (from_le ob + from_le lb) backing) as [fct Hf]; [lia|lia|].
rewrite (index_range_eq _ _ _ fct) by done. cbn [mbind outcome_bind]. case_match; [done|].
unfold decrypt_section. split.
- destruct (aead_open _ _ _ _); done.
- intros off pt. destruct (aead_open _ _ _ _); [|done]. cbn [ok_or mbind outcome_bind]. intros [= <- _]. lia.
Qed.

(** The blocks of an open reader lie inside its file. *)
Definition reader_in_file (r : SstReader) : Prop :=
  match sr_body r with
  | Eager _ => True
  | Blocked b => bb_blocks_end b <= zlen (bb_backing b) ∧ Forall partition_unsigned (bb_partitions b)
  end.

Lemma try_into_exact {A} m (e : StorageError) (l : list A) : zlen l = m → try_into m e l = Ok l.
Proof. intros <-. unfold try_into. by rewrite Z.eqb_refl. Qed.

Lemma open_total backing n dek :
  no_panic (open_with_fs backing n dek) ∧ ∀ r, open_with_fs backing n dek = Ok r → reader_in_file r.
Proof.
unfold open_with_fs. change TOTAL_HEADER_SIZE with 88. change BASE_HEADER_SIZE with 12.
destruct (Z.ltb_spec (zlen backing) 88); [done|].
destruct (slice_is_Some 4 8 backing) as [cb Hcb]; [lia|lia|]. rewrite (index_range_eq 4 8 _ cb) by done.
apply slice_Some in Hcb as (_ & _ & Hcb & _). cbn [mbind outcome_bind]. rewrite (try_into_exact 4 _ cb) by lia.
cbn [mbind outcome_bind].
destruct (slice_is_Some 8 12 backing) as [kb Hkb]; [lia|lia|]. rewrite (index_range_eq 8 12 _ kb) by done.
apply slice_Some in Hkb as (_ & _ & Hkb & _). cbn [mbind outcome_bind]. rewrite (try_into_exact 4 _ kb) by lia.
cbn [mbind outcome_bind].
destruct (slice_is_Some 12 88 backing) as [enc Henc]; [lia|lia|]. rewrite (index_range_eq 12 88 _ enc) by done.
apply slice_Some in Henc as (_ & _ & Henc & _). cbn [mbind outcome_bind]. change ENCRYPTION_HEADER_SIZE with 76.
rewrite (try_into_exact 76 _ enc) by lia. cbn [mbind outcome_bind].
assert (∃ hd, header_from_bytes enc = Ok hd) as [hd ->].
{ unfold header_from_bytes.
  destruct (slice_is_Some 0 16 enc) as [s1 E1]; [lia|lia|]. rewrite (index_range_eq 0 16 _ s1) by done. cbn [mbind outcome_bind].
  destruct (slice_is_Some 16 28 enc) as [s2 E2]; [lia|lia|]. rewrite (index_range_eq 16 28 _ s2) by done. cbn [mbind outcome_bind].
  destruct (slice_is_Some 28 76 enc) as [s3 E3]; [lia|lia|]. rewrite (index_range_eq 28 76 _ s3) by done. cbn [mbind outcome_bind].
  eauto. }
cbn [mbind outcome_bind].
destruct (slice_is_Some 0 4 backing) as [mg Hmg]; [lia|lia|]. rewrite (index_range_eq 0 4 _ mg) by done.
cbn [mbind outcome_bind]. case_decide.
{ unfold open_v4. destruct (read_footer_total backing (from_le kb) n dek) as [Hn Hoff]. split.
  - apply no_panic_bind; [done|]. intros [off pt] _. apply no_panic_bind; [apply parse_v4_footer_total|].
    intros [[c ps] kr] _. apply no_panic_bind; [apply check_pieces_total|done].
  - intros r Hr. bind_inv Hr x Hx. destruct x as [off pt]. apply Hoff in Hx. bind_inv Hr y Hy. destruct y as [[c ps] kr].
    bind_inv Hr u Hu. injection Hr as <-. split; [exact Hx|]. by eapply parse_v4_footer_unsigned. }
case_decide.
{ unfold open_v3. destruct (read_footer_total backing (from_le kb) n dek) as [Hn Hoff]. split.
  - apply no_panic_bind; [done|]. intros [off pt] _. apply no_panic_bind; [apply parse_v3_footer_total|].
    intros [[ix kr] bf] _. apply no_panic_bind; [apply v3_index_plaintext_total|intros ipt _].
    apply no_panic_bind; [|done]. destruct ix; [done|]. apply no_panic_bind; [apply index_decode_total|done].
  - intros r Hr. bind_inv Hr x Hx. destruct x as [off pt]. apply Hoff in Hx. bind_inv Hr y Hy. destruct y as [[ix kr] bf].
    bind_inv Hr ipt Hi. bind_inv Hr ps Hps. injection Hr as <-. split; [exact Hx|]. simpl.
    destruct ix as [|i0 ix]; [by injection Hps as <-|]. bind_inv Hps ib Hib. injection Hps as <-.
    apply Forall_singleton. unfold partition_unsigned, pieces_of. simpl. by destruct bf; repeat constructor. }
split.
- apply no_panic_bind; [repeat case_decide; done|intros v2 _].
  apply no_panic_bind; [apply index_range_total; lia|intros ct _].
  apply no_panic_bind; [unfold decrypt_section; auto with hearth|intros pt _]. case_match; [done|].
  apply no_panic_bind; [|by intros [] _]. destruct v2; [apply parse_v2_total|].
  apply no_panic_bind; [apply deserialize_entries_total|done].
- intros r Hr. bind_inv Hr v2 Hv. bind_inv Hr ct Hct. bind_inv Hr pt Hpt. case_match; [done|].
  bind_inv Hr x Hx. destruct x as [ents bf]. injection Hr as <-. exact I.
Qed.

Lemma load_total cache body h kind n cached :
  0 <= bh_file_offset h → 0 <= bh_ciphertext_len h → bb_blocks_end body <= zlen (bb_backing body) →
  no_panic (load cache body h kind n cached).
Proof.
intros Ho Hc Hb. unfold load. destruct (if cached then _ else _); [by case_decide|]. unfold load_uncached.
destruct (negb _) eqn:E; [done|].
apply negb_false_iff, andb_true_iff in E as [[H1 H2]%andb_true_iff H3]. apply Z.leb_le in H1, H2, H3.
apply no_panic_bind; [apply index_range_total; lia|intros ct _].
apply no_panic_bind; [unfold decrypt_section; auto with hearth|intros pt _]. apply block_decode_total.
Qed.

Lemma index_entry_unsigned b i e : index_entry b i = Some e → handle_unsigned (ie_handle e).
Proof.
unfold index_entry. destruct (at_ i (ib_offsets b)) as [pos|]; [|done]. cbn [mbind option_bind].
destruct (read_index_entry (ib_plaintext b) pos) as [[e' q]| |] eqn:E; [|done..]. intros [= <-].
unfold read_index_entry in E. bind_inv E x1 H1. bind_inv E x2 H2. bind_inv E x3 H3. bind_inv E x4 H4.
injection E as <- _. simpl. destruct (handle_read _ _) eqn:Eh in H4; [|done]. injection H4 as <-.
by eapply handle_read_unsigned.
Qed.

Lemma get_total cache r realm key cached : reader_in_file r → no_panic (get_with cache r realm key cached).
Proof.
intros Hr. unfold get_with. destruct (negb _); [done|]. destruct (match sr_bloom_filter r with Some _ => _ | None => _ end); [done|].
unfold reader_in_file in Hr. destruct (sr_body r) as [ents|body]; [done|]. destruct Hr as [Hend Hps].
unfold blocked_get. destruct (partition_for_key body realm key ≫= _) as [p|] eqn:Ep; [|done].
assert (Hp : partition_unsigned p).
{ destruct (partition_for_key body realm key); [|done]. simpl in Ep. unfold at_ in Ep. case_match; [|done].
  by eapply Forall_lookup_1. }
unfold partition_unsigned, pieces_of in Hp. apply Forall_cons in Hp as [Hi Hf].
assert (Hpiece : ∀ c kind, match c with Stored h => handle_unsigned h | Pinned _ => True end →
  no_panic (read_piece cache body c kind (sr_sst_number r) cached)).
{ intros [b|h] kind Hc; [done|]. destruct Hc. by apply load_total. }
apply no_panic_bind.
- destruct (pt_filter p) as [f|]; [|done]. apply Forall_cons in Hf as [Hf _].
  apply no_panic_bind; [by apply Hpiece|intros b _]. apply no_panic_bind; [by destruct b|done].
- intros passes _. destruct passes; [|done]. cbn [negb]. apply no_panic_bind; [by apply Hpiece|intros b _].
  apply no_panic_bind; [by destruct b|intros ix _]. destruct (position_for ix realm key ≫= _) as [e|] eqn:Ee; [|done].
  destruct (position_for ix realm key); [|done]. apply index_entry_unsigned in Ee as [? ?].
  apply no_panic_bind; [by apply load_total|intros b' _]. apply no_panic_bind; [by destruct b'|done].
Qed.

(** No bytes crash a reader. Opening a file of any format, whatever its bytes,
returns a reader or an error; and a point lookup on a reader so opened, through
any cache contents, returns a value or an error. *)
Theorem sst_open_get_no_panic backing n dek :
  no_panic (open_with_fs backing n dek) ∧
  ∀ r cache realm key cached, open_with_fs backing n dek = Ok r →
    no_panic (get_with cache r realm key cached).
Proof.
destruct (open_total backing n dek) as [Hn Hr]. split; [exact Hn|].
intros r cache realm key cached Ho. apply get_total. by apply Hr.
Qed.

End any_bytes.

(** ** Writing and reading back *)

Section read_back.
Context `{HA : Aead} `{HC : Crc32} `{HAL : !AeadLaws} `{HCL : !Crc32Laws}.

Lemma written_reader hdr n dek es file meta :
  header_wf hdr → Forall entry_wf es → write_sst hdr n dek es = Ok (file, meta) → zlen file <= u64_max →
  ∃ ps body fct r, sst_layout hdr n dek es ps body fct file ∧ open_with_fs file n dek = Ok r ∧
    ∃ count, r = MkReader (Blocked (blocked_of file body dek ps es)) count n None (range_of es).
Proof.
intros Hh Hes Hw Hl. destruct (write_sst_layout _ _ _ _ _ _ Hh Hes Hw Hl) as (ps & body & fct & Hlay).
destruct (open_layout _ _ _ _ _ _ _ _ Hh Hes Hlay) as [count Ho]. exists ps, body, fct. eauto.
Qed.

(** C40: a written file opens and holds exactly the entries written. For entries in
key order, whatever the shape of the blocks and partitions the writer cuts them
into, and for every content the reader's own loads and evictions can leave in the
block cache: a point lookup returns the entry of the key or nothing (the range
check and the Bloom filters never hide an entry), the full iteration returns the
entries, and a range scan the entries of the window, or the error for a reversed
range. *)
Theorem sst_read_back hdr n dek es file meta :
  header_wf hdr → Forall entry_wf es → bt_sorted es →
  write_sst hdr n dek es = Ok (file, meta) → zlen file <= u64_max → zlen es <= u64_max →
  ∃ r, open_with_fs file n dek = Ok r ∧ ∀ cache, cache_of r cache →
    (∀ realm key cached, get_with cache r realm key cached = Ok (bt_get (CKey realm key) es)) ∧
    iter_all cache r = Ok es ∧
    (∀ realm s e, range_scan cache r realm s e =
      if ord_lt e s then Err InvalidRange
      else Ok ((λ p, (ck_key p.1, p.2)) <$>
                 filter (λ p, in_window (CKey realm s) (CKey realm e) p.1 = true) es)).
Proof.
intros Hh Hes Hs Hw Hl Hc. destruct (written_reader _ _ _ _ _ _ Hh Hes Hw Hl) as (ps & body & fct & r & Hlay & Ho & Hr).
exists r. split; [done|]. intros cache Hcache.
destruct (read_back_ok _ _ _ _ _ _ _ _ Hlay r cache Hs Hc Hr Hcache) as (H1 & H2 & H3 & _). done.
Qed.

(** A key cursor over a written file keeps the contract of the merge: opened on a
window, it stands in turn on each entry of the window, in key order, and then
ends; so a walk that merges such cursors sees the file exactly. *)
Theorem sst_cursor_window hdr n dek es file meta realm s e cached :
  header_wf hdr → Forall entry_wf es → bt_sorted es →
  write_sst hdr n dek es = Ok (file, meta) → zlen file <= u64_max → zlen es <= u64_max →
  ord_lt e s = false →
  ∃ r, open_with_fs file n dek = Ok r ∧ ∀ cache, cache_of r cache →
    ∃ c, sst_cursor cache r realm s e cached = Ok c ∧
      @yields _ (sst_key_cursor cache) c ((λ p, (ck_key p.1, p.2)) <$>
        filter (λ p, in_window (CKey realm s) (CKey realm e) p.1 = true) es).
Proof.
intros Hh Hes Hs Hw Hl Hc Hse. destruct (written_reader _ _ _ _ _ _ Hh Hes Hw Hl) as (ps & body & fct & r & Hlay & Ho & Hr).
exists r. split; [done|]. intros cache Hcache.
destruct (read_back_ok _ _ _ _ _ _ _ _ Hlay r cache Hs Hc Hr Hcache) as (_ & _ & _ & H4). by apply H4.
Qed.

End read_back.

(** ** Instances of the theorems *)

Definition ex_entries : list Entry :=
  [(CKey (repeat x01 16) [x61], Data [x31; x32]); (CKey (repeat x01 16) [x62], Tombstone);
   (CKey (repeat x02 16) [x61], Data [])].

Definition ex_header : EncryptionHeader := MkEncHeader (repeat x03 16) (repeat x04 48) (repeat x05 12).

Definition ex_file : res (list byte * SstMetadata) :=
  @write_sst toy_aead toy_crc ex_header 7 (repeat x06 32) ex_entries.

Lemma ex_entries_wf : Forall entry_wf ex_entries.
Proof. repeat constructor; simpl; vm_compute; congruence. Qed.

Lemma ex_sorted : bt_sorted ex_entries.
Proof. by apply bt_sortedb_sound. Qed.

Lemma ex_header_wf : header_wf ex_header.
Proof. repeat split. Qed.

Lemma sst_read_back_witness :
  ∃ file meta r, ex_file = Ok (file, meta) ∧ @open_with_fs toy_aead toy_crc file 7 (repeat x06 32) = Ok r ∧
    get_with (HA := toy_aead) (HC := toy_crc) (λ _, None) r (repeat x01 16) [x62] true = Ok (Some Tombstone) ∧
    range_scan (HA := toy_aead) (λ _, None) r (repeat x01 16) [x62] [x63] = Ok [([x62], Tombstone)].
Proof.
destruct ex_file as [[file meta]| |] eqn:E; [|vm_compute in E; discriminate E..].
destruct (sst_read_back (HA := toy_aead) (HC := toy_crc) (HAL := toy_aead_laws) (HCL := toy_crc_laws)
  ex_header 7 (repeat x06 32) ex_entries file meta ex_header_wf ex_entries_wf ex_sorted E) as (r & Ho & Hr);
  [vm_compute in E; injection E as <- _; vm_compute; congruence|vm_compute; congruence|].
exists file, meta, r. split; [done|]. split; [done|].
destruct (Hr (λ _, None)) as (Hg & _ & Hs).
{ unfold cache_of. destruct (sr_body r); [done|apply rc_empty]. }
rewrite Hg, Hs. split; vm_compute; reflexivity.
Defined.

Lemma sst_cursor_window_witness :
  ∃ file meta r c, ex_file = Ok (file, meta) ∧ @open_with_fs toy_aead toy_crc file 7 (repeat x06 32) = Ok r ∧
    sst_cursor (HA := toy_aead) (λ _, None) r (repeat x01 16) [x61] [x63] true = Ok c ∧
    @yields _ (sst_key_cursor (HA := toy_aead) (λ _, None)) c [([x61], Data [x31; x32]); ([x62], Tombstone)].
Proof.
destruct ex_file as [[file meta]| |] eqn:E; [|vm_compute in E; discriminate E..].
destruct (sst_cursor_window (HA := toy_aead) (HC := toy_crc) (HAL := toy_aead_laws) (HCL := toy_crc_laws)
  ex_header 7 (repeat x06 32) ex_entries file meta (repeat x01 16) [x61] [x63] true
  ex_header_wf ex_entries_wf ex_sorted E) as (r & Ho & Hr);
  [vm_compute in E; injection E as <- _; vm_compute; congruence|vm_compute; congruence|done|].
destruct (Hr (λ _, None)) as (c & Hc & Hy).
{ unfold cache_of. destruct (sr_body r); [done|apply rc_empty]. }
exists file, meta, r, c. split; [done|]. split; [done|]. split; [done|]. exact Hy.
Defined.
