(* ===== verification/Merge.v ===== *)
(** * The compaction merge

[KMergeIter] of [storage/sst.rs]: the k-way merge that compaction streams into the
SST writer. Its inputs are cursors that can peek and pop; the merge is proved
against that interface ([EntryCursor] with [EntryCursorLaws]), which the SST cursor
of [Compaction] implements. *)
From stdpp Require Import base list gmap strings sorting lexico.
From Stdlib Require Import Strings.Byte ZArith Lia.
From S2P Require Import Prelude OrdMap StorageTypes SstCodec.

Open Scope Z_scope.

(** What the merge calls of a cursor. Both operations may load a block, so both
return the cursor as they leave it. *)
Class EntryCursor (C : Type) := {
  peek_key : C → res (option CompositeKey * C);
  pop : C → res (option Entry * C)
}.

(** The cursor holds the entries [es]: peeking shows the first key and consumes
nothing, popping takes the first entry. *)
Class EntryCursorLaws (C : Type) `{EntryCursor C} := {
  streams : C → list Entry → Prop;
  peek_streams c es : streams c es → ∃ c', peek_key c = Ok (fst <$> head es, c') ∧ streams c' es;
  pop_streams c es : streams c es → ∃ c', pop c = Ok (head es, c') ∧ streams c' (tail es)
}.

Record MergeHead := MkHead { mh_key : CompositeKey; mh_idx : nat }.

(** [Ord for MergeHead], inverted. *)
Definition head_cmp (a b : MergeHead) : comparison :=
  match ord_cmp (mh_key b) (mh_key a) with
  | Eq => Nat.compare (mh_idx b) (mh_idx a)
  | c => c
  end.

(** [BinaryHeap<MergeHead>]: a list kept with its greatest element first. [pop] and
[peek] see that element; elements that compare equal are equal, so nothing else of
the heap's layout can be observed. *)
Fixpoint heap_push (h : MergeHead) (heap : list MergeHead) : list MergeHead :=
  match heap with
  | [] => [h]
  | x :: rest => match head_cmp h x with Lt => x :: heap_push h rest | _ => h :: x :: rest end
  end.

Section merge.
Context {C : Type} `{HCur : !EntryCursor C}.

Record KMergeIter := MkKMerge {
  km_cursors : list C;
  km_heap : list MergeHead;
  km_seeded : bool
}.

Definition kmerge_new (inputs : list C) : KMergeIter := MkKMerge inputs [] false.

Definition cursor_at_idx (m : KMergeIter) (idx : nat) : res C :=
  match km_cursors m !! idx with Some c => Ok c | None => Panic end.

Definition repush (idx : nat) (m : KMergeIter) : res KMergeIter :=
  c ← cursor_at_idx m idx;
  '(key, c) ← peek_key c;
  let cursors := <[idx := c]> (km_cursors m) in
  Ok (MkKMerge cursors
        match key with Some key => heap_push (MkHead key idx) (km_heap m) | None => km_heap m end
        (km_seeded m)).

Fixpoint repush_all (idxs : list nat) (m : KMergeIter) : res KMergeIter :=
  match idxs with
  | [] => Ok m
  | idx :: rest => repush idx m ≫= repush_all rest
  end.

Definition seed (m : KMergeIter) : res KMergeIter :=
  m ← repush_all (seq 0 (length (km_cursors m))) m;
  Ok (MkKMerge (km_cursors m) (km_heap m) true).

(** The heads that share the key of the popped one. *)
Fixpoint pop_equal (min_key : CompositeKey) (heap : list MergeHead) : list nat * list MergeHead :=
  match heap with
  | top :: rest =>
      if ord_eq (mh_key top) min_key
      then let '(equal, heap) := pop_equal min_key rest in (mh_idx top :: equal, heap)
      else ([], heap)
  | [] => ([], [])
  end.

(** The loop that advances every input holding the key, and keeps the newest value. *)
Fixpoint advance_equal (equal : list nat) (newest : nat) (winner : option MemtableValue) (m : KMergeIter)
  : res (option MemtableValue * KMergeIter) :=
  match equal with
  | [] => Ok (winner, m)
  | ci :: rest =>
      c ← cursor_at_idx m ci;
      '(popped, c) ← pop c;
      let winner := match popped with
        | Some (_, value) => if Nat.eqb ci newest then Some value else winner
        | None => winner
        end in
      m ← repush ci (MkKMerge (<[ci := c]> (km_cursors m)) (km_heap m) (km_seeded m));
      advance_equal rest newest winner m
  end.

(** [KMergeIter::advance]. *)
Definition kmerge_advance (m : KMergeIter) : res (option Entry * KMergeIter) :=
  m ← (if km_seeded m then Ok m else seed m);
  match km_heap m with
  | [] => Ok (None, m)
  | MkHead min_key idx :: heap =>
      let '(equal, heap) := pop_equal min_key heap in
      let newest := foldl Nat.max idx equal in
      '(winner, m) ← advance_equal (idx :: equal) newest None (MkKMerge (km_cursors m) heap (km_seeded m));
      value ← ok_or (InvalidSstFormat "compaction merge: winning entry vanished") winner;
      Ok (Some (min_key, value), m)
  end.

(** The items the iterator yields to a consumer that stops at the first error. *)
Fixpoint kmerge_items (fuel : nat) (m : KMergeIter) : list (res Entry) :=
  match fuel with
  | O => [Panic]
  | S fuel =>
      match kmerge_advance m with
      | Ok (Some e, m) => Ok e :: kmerge_items fuel m
      | Ok (None, _) => []
      | Err e => [Err e]
      | Panic => [Panic]
      end
  end.

End merge.
Arguments KMergeIter C : clear implicits.

(** ** The heap *)

Definition head_before (a b : MergeHead) : Prop :=
  lexico (mh_key a) (mh_key b) ∨ mh_key a = mh_key b ∧ (mh_idx a < mh_idx b)%nat.

Lemma head_cmp_spec a b :
  match head_cmp a b with Gt => head_before a b | Eq => a = b | Lt => head_before b a end.
Proof.
unfold head_cmp, head_before. destruct a as [k i], b as [k' i']. simpl.
pose proof (ord_cmp_spec k' k) as Hk. destruct (ord_cmp k' k); [|auto..].
subst k'. pose proof (Nat.compare_spec i' i) as Hi. destruct (Nat.compare i' i); inversion Hi; subst; auto.
Qed.

#[export] Instance head_before_trans : Transitive head_before.
Proof.
intros a b c [H1|[H1 H1']] [H2|[H2 H2']]; unfold head_before.
- left. by etrans.
- left. by rewrite <-H2.
- left. by rewrite H1.
- right. split; [congruence|lia].
Qed.

Lemma heap_push_perm h heap : heap_push h heap ≡ₚ h :: heap.
Proof.
induction heap as [|x heap IH]; [done|]. simpl. destruct (head_cmp h x); [done| |done].
rewrite IH. by apply Permutation_swap.
Qed.

Lemma heap_push_sorted h heap :
  StronglySorted head_before heap → h ∉ heap → StronglySorted head_before (heap_push h heap).
Proof.
induction heap as [|x heap IH]; intros Hs Hn; [by repeat constructor|]. simpl. apply not_elem_of_cons in Hn as [Hne Hn].
pose proof Hs as [Hf Hs']%StronglySorted_cons. pose proof (head_cmp_spec h x) as Hc. destruct (head_cmp h x); [done| |].
- apply StronglySorted_cons. split; [|auto]. rewrite heap_push_perm. by constructor.
- apply StronglySorted_cons. split; [|done]. constructor; [done|]. eapply Forall_impl; [exact Hf|]. intros y Hy. by etrans.
Qed.

Lemma pop_equal_spec k heap equal rest :
  StronglySorted head_before heap → Forall (λ h, ord_lt (mh_key h) k = false) heap →
  pop_equal k heap = (equal, rest) →
  ∃ hs, heap = hs ++ rest ∧ equal = mh_idx <$> hs ∧ Forall (λ h, mh_key h = k) hs ∧
    Forall (λ h, mh_key h ≠ k) rest.
Proof.
revert equal rest. induction heap as [|x heap IH]; intros equal rest Hs Hge He; simpl in He.
{ injection He as <- <-. by exists []. }
pose proof Hs as [Hf Hs']%StronglySorted_cons. apply Forall_cons in Hge as [Hx Hge].
destruct (ord_eq (mh_key x) k) eqn:Ek.
- destruct (pop_equal k heap) as [e r] eqn:Ep. injection He as <- <-. apply ord_eq_iff in Ek.
  destruct (IH e r Hs' Hge eq_refl) as (hs & -> & -> & H1 & H2). exists (x :: hs). split_and!; try done. by constructor.
- injection He as <- <-. exists []. split_and!; [done..|].
  assert (Hlt : lexico k (mh_key x)).
  { apply ord_lt_false in Hx as [<-|?]; [by rewrite ord_eq_refl in Ek|done]. }
  constructor; [intros <-; by rewrite ord_eq_refl in Ek|]. eapply Forall_impl; [exact Hf|].
  intros y Hy Hyk. apply (irreflexivity lexico k). destruct Hy as [Hy|[Hy _]].
  + etrans; [exact Hlt|]. by rewrite <-Hyk.
  + by rewrite Hy, Hyk in Hlt.
Qed.

Lemma equal_idx_nodup (hs : list MergeHead) k :
  StronglySorted head_before hs → Forall (λ h, mh_key h = k) hs → NoDup (mh_idx <$> hs).
Proof.
induction hs as [|h hs IH]; intros Hs Hk; [constructor|]. apply StronglySorted_cons in Hs as [Hf Hs].
apply Forall_cons in Hk as [Hk1 Hk]. rewrite fmap_cons. constructor; [|auto].
intros (y & Hy & Hin)%list_elem_of_fmap. eapply (proj1 (Forall_forall _ _)) in Hf; [|exact Hin].
eapply (proj1 (Forall_forall _ _)) in Hk; [|exact Hin]. destruct Hf as [Hf|[_ Hf]]; [|lia].
rewrite Hk1, Hk in Hf. by eapply irreflexivity in Hf; [|apply _].
Qed.

Lemma foldl_max_spec l (i : nat) :
  foldl Nat.max i l ∈ i :: l ∧ Forall (λ j, (j <= foldl Nat.max i l)%nat) (i :: l).
Proof.
revert i. induction l as [|j l IH]; intros i; simpl; [split; [set_solver|by repeat constructor]|].
destruct (IH (Nat.max i j)) as [H1 H2]. apply Forall_cons in H2 as [H2 H3]. split.
- apply elem_of_cons in H1 as [->|H1]; [|set_solver]. destruct (Nat.max_spec i j) as [[_ ->]|[_ ->]]; set_solver.
- constructor; [lia|]. constructor; [lia|done].
Qed.

(** ** The merge, against the cursor's contract *)

Section correct.
Context {C : Type} `{HCur : !EntryCursor C} `{HL : !EntryCursorLaws C}.

(** The merge holds the inputs [ess], and its heap their heads but for the inputs
[pending]. *)
Record kinv (m : KMergeIter C) (ess : list (list Entry)) (pending : list nat) : Prop := {
  ki_cursors : Forall2 streams (km_cursors m) ess;
  ki_sorted : StronglySorted head_before (km_heap m);
  ki_heads h : h ∈ km_heap m ↔ (ess !! mh_idx h ≫= head_key) = Some (mh_key h) ∧ mh_idx h ∉ pending
}.

Lemma kinv_cursor m ess pending idx es :
  kinv m ess pending → ess !! idx = Some es → ∃ c, cursor_at_idx m idx = Ok c ∧ streams c es.
Proof.
intros [Hc _ _] He. destruct (Forall2_lookup_r _ _ _ _ _ Hc He) as (c & Hl & Hs).
exists c. unfold cursor_at_idx. by rewrite Hl.
Qed.

Lemma repush_ok m ess idx pending es :
  kinv m ess (idx :: pending) → ess !! idx = Some es → idx ∉ pending →
  ∃ m', repush idx m = Ok m' ∧ kinv m' ess pending ∧ km_seeded m' = km_seeded m.
Proof.
intros Hk He Hn. destruct (kinv_cursor _ _ _ _ _ Hk He) as (c & Hc & Hs). destruct Hk as [Hcs Hsort Hh].
destruct (peek_streams c es Hs) as (c' & Hp & Hs'). unfold repush. rewrite Hc. cbn [mbind outcome_bind].
rewrite Hp. cbn [mbind outcome_bind]. eexists. split; [reflexivity|]. split; [|done]. split; cbn [km_cursors km_heap].
- rewrite <-(list_insert_id ess idx es He). by apply Forall2_insert.
- fold (head_key es). destruct (head_key es) as [k|] eqn:Ek; [|done]. apply heap_push_sorted; [done|].
  intros Hin. apply Hh in Hin as [_ Hin]. set_solver.
- intros h. fold (head_key es). destruct (head_key es) as [k|] eqn:Ek.
  + rewrite (heap_push_perm (MkHead k idx) (km_heap m)). rewrite elem_of_cons, Hh. destruct (decide (mh_idx h = idx)) as [Hi|Hi].
    * rewrite Hi, He. cbn [mbind option_bind]. rewrite Ek. destruct h as [hk hi]. simpl in *. subst hi. split.
      { intros [[= ->]|[_ Hx]]; [done|set_solver]. }
      { intros [[= ->] _]. by left. }
    * split; [intros [->|[H1 H2]]; [done|set_solver]|]. intros [H1 H2]. right. split; [done|]. set_solver.
  + rewrite Hh. split; intros [H1 H2]; (split; [done|]); [set_solver|].
    apply not_elem_of_cons. split; [|done]. intros Hi. rewrite Hi, He in H1. cbn [mbind option_bind] in H1. congruence.
Qed.

Lemma repush_all_ok idxs m ess :
  kinv m ess idxs → NoDup idxs → Forall (λ i, (i < length ess)%nat) idxs →
  ∃ m', repush_all idxs m = Ok m' ∧ kinv m' ess [] ∧ km_seeded m' = km_seeded m.
Proof.
revert m. induction idxs as [|idx idxs IH]; intros m Hk Hnd Hlt; [by exists m|].
apply NoDup_cons in Hnd as [Hn Hnd]. apply Forall_cons in Hlt as [Hi Hlt].
apply lookup_lt_is_Some in Hi as [es He]. destruct (repush_ok _ _ _ _ _ Hk He Hn) as (m1 & H1 & Hk1 & Hs1).
simpl. rewrite H1. cbn [mbind outcome_bind]. destruct (IH m1 Hk1 Hnd Hlt) as (m2 & H2 & Hk2 & Hs2). exists m2.
split_and!; [done|done|congruence].
Qed.

(** A started merge. *)
Lemma seed_ok cs ess :
  Forall2 streams cs ess → ∃ m, seed (kmerge_new cs) = Ok m ∧ kinv m ess [] ∧ km_seeded m = true.
Proof.
intros Hc. unfold seed. change (km_cursors (kmerge_new cs)) with cs. pose proof (Forall2_length _ _ _ Hc) as Hl.
destruct (repush_all_ok (seq 0 (length cs)) (kmerge_new cs) ess) as (m & Hm & Hk & _).
- split; simpl; [done|constructor|]. intros h. split; [by intros ?%elem_of_nil|]. intros [H1 H2]. exfalso. apply H2.
  destruct (ess !! mh_idx h) eqn:E; [|done]. apply lookup_lt_Some in E. apply elem_of_seq. lia.
- apply NoDup_seq.
- apply Forall_forall. intros i Hi%elem_of_seq. lia.
- rewrite Hm. cbn [mbind outcome_bind]. eexists. split; [reflexivity|]. split; [|done].
  destruct Hk. by split.
Qed.

(** One round of the loop takes the head of each input that holds the key. *)
Definition take_heads (equal : list nat) (ess : list (list Entry)) : list (list Entry) :=
  foldl (λ ess ci, alter tail ci ess) ess equal.

Lemma advance_equal_ok k equal newest winner m ess :
  kinv m ess equal → NoDup equal →
  Forall (λ i, ∃ v rest, ess !! i = Some ((k, v) :: rest)) equal →
  ∃ m', advance_equal equal newest winner m =
      Ok (if decide (newest ∈ equal) then snd <$> (ess !! newest ≫= head) else winner, m') ∧
    kinv m' (take_heads equal ess) [] ∧ km_seeded m' = km_seeded m.
Proof.
revert winner m ess. induction equal as [|ci equal IH]; intros winner m ess Hk Hnd Hall.
{ exists m. split; [|done]. cbn [advance_equal]. by rewrite decide_False by (by intros ?%elem_of_nil). }
apply NoDup_cons in Hnd as [Hn Hnd]. apply Forall_cons in Hall as [(v & rest & He) Hall].
destruct (kinv_cursor _ _ _ _ _ Hk He) as (c & Hc & Hs). destruct (pop_streams c _ Hs) as (c' & Hp & Hs').
cbn [advance_equal]. rewrite Hc. cbn [mbind outcome_bind]. rewrite Hp. cbn [mbind outcome_bind head].
set (m1 := MkKMerge _ _ _).
assert (Hk1 : kinv m1 (alter tail ci ess) (ci :: equal)).
{ destruct Hk as [Hcs Hsort Hh]. split; cbn [km_cursors km_heap m1].
  - rewrite list_insert_alter. apply Forall2_alter; [done|]. intros x y _ Hy _. rewrite He in Hy. by injection Hy as <-.
  - done.
  - intros h. rewrite Hh. destruct (decide (mh_idx h = ci)) as [->|Hne]; [set_solver|].
    by rewrite list_lookup_alter_ne. }
assert (He1 : alter tail ci ess !! ci = Some rest) by (by rewrite list_lookup_alter_eq, He).
destruct (repush_ok _ _ _ _ _ Hk1 He1 Hn) as (m2 & H2 & Hk2 & Hs2). rewrite H2. cbn [mbind outcome_bind].
assert (Hall2 : Forall (λ i, ∃ v rest, alter tail ci ess !! i = Some ((k, v) :: rest)) equal).
{ apply Forall_forall. intros i Hi. eapply (proj1 (Forall_forall _ _)) in Hall; [|exact Hi].
  rewrite list_lookup_alter_ne; [done|]. intros ->. done. }
destruct (IH (if Nat.eqb ci newest then Some v else winner) m2 _ Hk2 Hnd Hall2) as (m3 & H3 & Hk3 & Hs3).
exists m3. rewrite H3. split; [|split; [done|by rewrite Hs3, Hs2]]. do 2 f_equal.
destruct (decide (newest = ci)) as [->|Hne].
- rewrite (decide_False _ _ (P := ci ∈ equal)), decide_True by set_solver. rewrite Nat.eqb_refl, He. done.
- destruct (Nat.eqb_spec ci newest); [done|]. rewrite list_lookup_alter_ne by done.
  destruct (decide (newest ∈ equal)); [rewrite decide_True by set_solver|rewrite decide_False by set_solver]; done.
Qed.

Lemma take_heads_lookup equal ess i :
  NoDup equal → take_heads equal ess !! i = if decide (i ∈ equal) then tail <$> ess !! i else ess !! i.
Proof.
unfold take_heads. revert ess. induction equal as [|ci equal IH]; intros ess Hnd.
{ by rewrite decide_False by (by intros ?%elem_of_nil). }
apply NoDup_cons in Hnd as [Hn Hnd]. cbn [foldl]. rewrite IH by done. destruct (decide (i = ci)) as [->|Hne].
- rewrite decide_False by done. rewrite decide_True by set_solver. apply list_lookup_alter_eq.
- rewrite list_lookup_alter_ne by done. destruct (decide (i ∈ equal));
    [rewrite decide_True by set_solver|rewrite decide_False by set_solver]; done.
Qed.

(** The merged entries, newest input first: the inputs are given oldest first. *)
Definition merged (ess : list (list Entry)) : list Entry := merge_layers (reverse ess).

(** The newest input that holds the least key decides. *)
Lemma newest_decides (ess : list (list Entry)) k i v rest :
  Forall bt_sorted ess → heads_above k ess → ess !! i = Some ((k, v) :: rest) →
  (∀ j es, ess !! j = Some es → head_key es = Some k → (j <= i)%nat) →
  layers_get k (reverse ess) = Some v.
Proof.
intros Hs Hge Hi Hmax. rewrite <-(take_drop_middle ess i _ Hi). rewrite reverse_app, reverse_cons, <-app_assoc, layers_get_app.
assert (Hnone : layers_get k (reverse (drop (S i) ess)) = None).
{ assert (Hall : ∀ es, es ∈ reverse (drop (S i) ess) → bt_get k es = None).
  { intros es Hin. rewrite elem_of_reverse in Hin. apply list_elem_of_lookup in Hin as [j Hj]. rewrite lookup_drop in Hj.
    destruct es as [|[k1 v1] es]; [done|].
    assert (Hne : k1 ≠ k) by (intros ->; specialize (Hmax _ _ Hj eq_refl); lia).
    assert (Hlt : ord_lt k1 k = false) by (by eapply (Forall_lookup_1 _ _ _ _ Hge Hj)).
    apply bt_sorted_head_le; [by eapply Forall_lookup_1|]. apply ord_lt_false in Hlt as [->|?]; [done|by apply ord_lt_iff]. }
  induction (reverse (drop (S i) ess)) as [|es l IH]; [done|]. simpl. rewrite Hall by set_solver. apply IH. set_solver. }
rewrite Hnone. simpl. by rewrite ord_cmp_refl.
Qed.

(** The heap's top and the heads popped with it: exactly the inputs that start with
the least key. *)
Lemma pop_equal_inputs m ess k idx heap equal rest :
  kinv m ess [] → km_heap m = MkHead k idx :: heap → pop_equal k heap = (equal, rest) →
  heads_above k ess ∧ NoDup (idx :: equal) ∧
  (∀ j, j ∈ idx :: equal ↔ (ess !! j ≫= head_key) = Some k) ∧
  kinv (MkKMerge (km_cursors m) rest (km_seeded m)) ess (idx :: equal).
Proof.
intros [Hcs Hsort Hh] Eheap Ep. rewrite Eheap in Hsort, Hh. pose proof Hsort as [Hf Hsort']%StronglySorted_cons.
assert (Hin : ∀ k' j, MkHead k' j ∈ MkHead k idx :: heap ↔ (ess !! j ≫= head_key) = Some k').
{ intros k' j. rewrite Hh. simpl. split; [by intros [? _]|]. intros Hj. split; [done|by intros ?%elem_of_nil]. }
assert (Hge : Forall (λ h, ord_lt (mh_key h) k = false) heap).
{ eapply Forall_impl; [exact Hf|]. intros y [Hy|[Hy _]]; simpl in Hy; [apply ord_lt_asym; by apply ord_lt_iff|].
  rewrite <-Hy. apply ord_lt_irrefl. }
destruct (pop_equal_spec _ _ _ _ Hsort' Hge Ep) as (hs & -> & -> & Hek & Hrk).
assert (Hkey : ∀ j, j ∈ idx :: (mh_idx <$> hs) ↔ (ess !! j ≫= head_key) = Some k).
{ intros j. rewrite <-Hin, !elem_of_cons, elem_of_app, list_elem_of_fmap. split.
  - intros [->|([yk yi] & -> & Hy)]; [by left|]. right. left.
    eapply (proj1 (Forall_forall _ _)) in Hek; [|exact Hy]. simpl in *. by subst.
  - intros [[= ->]|[Hj|Hj]]; [by left|right; by exists (MkHead k j)|].
    eapply (proj1 (Forall_forall _ _)) in Hrk; [|exact Hj]. done. }
split_and!; [| |exact Hkey|].
- apply Forall_forall. intros es Hes k' Hk'. apply list_elem_of_lookup in Hes as [j Hj].
  assert (Hin' : MkHead k' j ∈ MkHead k idx :: hs ++ rest) by (apply Hin; by rewrite Hj).
  apply elem_of_cons in Hin' as [[= -> _]|Hin']; [apply ord_lt_irrefl|].
  by eapply (proj1 (Forall_forall _ _)) in Hge; [|exact Hin'].
- apply (equal_idx_nodup (MkHead k idx :: hs) k); [|by constructor].
  rewrite app_comm_cons in Hsort. by apply StronglySorted_app in Hsort as (_ & ? & _).
- split; cbn [km_cursors km_heap]; [done|by apply StronglySorted_app in Hsort' as (_ & _ & ?)|].
  intros [hk hi]. simpl. rewrite Hkey, <-Hin, elem_of_cons, elem_of_app. split.
  + intros Hr. split; [by right; right|]. intros Hx.
    assert (Hk' : Some hk = Some k) by (rewrite <-Hx; symmetry; apply Hin; set_solver).
    eapply (proj1 (Forall_forall _ _)) in Hrk; [|exact Hr]. simpl in Hrk. congruence.
  + assert (Hno : MkHead hk hi ∈ MkHead k idx :: hs → (ess !! hi ≫= head_key) = Some k).
    { intros Hm. assert (hk = k) as ->; [|apply Hin; set_solver].
      apply elem_of_cons in Hm as [[= -> _]|Hm]; [done|]. by eapply (proj1 (Forall_forall _ _)) in Hek; [|exact Hm]. }
    intros [[Hx|[Hx|Hx]] Hn]; [|exfalso; apply Hn, Hno; set_solver|done]. rewrite Hx in Hno. exfalso. apply Hn, Hno. set_solver.
Qed.

(** Taking the heads of those inputs passes the key in every input. *)
Lemma take_heads_drop k equal ess :
  NoDup equal → (∀ j, j ∈ equal ↔ (ess !! j ≫= head_key) = Some k) → take_heads equal ess = drop_key k <$> ess.
Proof.
intros Hnd Hkey. apply list_eq. intros i. rewrite take_heads_lookup, list_lookup_fmap by done.
destruct (decide (i ∈ equal)) as [Hi|Hi]; rewrite Hkey in Hi; destruct (ess !! i) as [[|[k1 v1] es]|]; try done.
- injection Hi as ->. simpl. by rewrite ord_eq_refl.
- simpl. rewrite ord_eq_ne; [done|]. intros ->. done.
Qed.

(** An advance of a started merge yields the first merged entry. *)
Lemma kmerge_advance_seeded m ess :
  kinv m ess [] → km_seeded m = true → Forall bt_sorted ess →
  ∃ m', match merged ess with
        | [] => kmerge_advance m = Ok (None, m')
        | e :: rest => kmerge_advance m = Ok (Some e, m') ∧ km_seeded m' = true ∧
            ∃ k, kinv m' (drop_key k <$> ess) [] ∧ merged (drop_key k <$> ess) = rest
        end.
Proof.
intros Hk Hseed Hs. unfold kmerge_advance. rewrite Hseed. cbn [mbind outcome_bind].
destruct (km_heap m) as [|[k idx] heap] eqn:Eheap.
{ exists m. unfold merged. rewrite merge_all_empty; [done|]. apply Forall_forall. intros es Hin.
  rewrite elem_of_reverse in Hin. apply list_elem_of_lookup in Hin as [j Hj]. destruct (head_key es) as [k|] eqn:Ek; [|done].
  exfalso. apply (elem_of_nil (MkHead k j)). rewrite <-Eheap. apply (ki_heads _ _ _ Hk). simpl. rewrite Hj.
  cbn [mbind option_bind]. split; [done|by intros ?%elem_of_nil]. }
destruct (pop_equal k heap) as [equal rest] eqn:Ep.
destruct (pop_equal_inputs _ _ _ _ _ _ _ Hk Eheap Ep) as (Habove & Hnd & Hkey & Hk1).
destruct (foldl_max_spec equal idx) as [Hnew Hmax]. set (newest := foldl Nat.max idx equal) in *.
assert (Hheads : Forall (λ i, ∃ v r, ess !! i = Some ((k, v) :: r)) (idx :: equal)).
{ apply Forall_forall. intros i Hi. apply Hkey in Hi. destruct (ess !! i) as [[|[k1 v1] es]|]; try done.
  injection Hi as ->. eauto. }
destruct (advance_equal_ok k (idx :: equal) newest None _ ess Hk1 Hnd Hheads) as (m2 & H2 & Hk2 & Hs2).
rewrite H2, (take_heads_drop k) in *; [|done..]. cbn [mbind outcome_bind]. rewrite decide_True by done.
pose proof (proj1 (Forall_forall _ _) Hheads _ Hnew) as (v & r & Hv). rewrite Hv.
cbn [mbind option_bind head fmap option_fmap option_map snd ok_or outcome_bind].
exists m2. unfold merged. rewrite (merge_layers_min k v (reverse ess)).
- split; [done|]. split; [by rewrite Hs2|]. exists k. split; [done|]. by rewrite <-fmap_reverse.
- by rewrite (reverse_Permutation ess).
- unfold heads_above. by rewrite (reverse_Permutation ess).
- eapply newest_decides; [done..|]. intros j es Hj Hjk. eapply (proj1 (Forall_forall _ _)) in Hmax; [exact Hmax|].
  apply Hkey. by rewrite Hj.
Qed.

(** The items of a merge are the merged entries, in order; the entries of the inputs
bound their number. *)
Lemma kmerge_items_seeded fuel m ess :
  kinv m ess [] → km_seeded m = true → Forall bt_sorted ess → (length (merged ess) < fuel)%nat →
  kmerge_items fuel m = Ok <$> merged ess.
Proof.
revert m ess. induction fuel as [|fuel IH]; intros m ess Hk Hseed Hs Hf; [lia|]. cbn [kmerge_items].
destruct (kmerge_advance_seeded m ess Hk Hseed Hs) as [m' Ha]. destruct (merged ess) as [|e rest] eqn:Em.
- by rewrite Ha.
- destruct Ha as (-> & Hseed' & k & Hk' & Hm'). rewrite fmap_cons. f_equal. rewrite <-Hm'.
  apply IH; [done|done|by apply drop_keys_sorted|]. rewrite Hm'. simpl in Hf. lia.
Qed.

Lemma kmerge_items_ok fuel cs ess :
  Forall2 streams cs ess → Forall bt_sorted ess → (length (merged ess) < fuel)%nat →
  kmerge_items fuel (kmerge_new cs) = Ok <$> merged ess.
Proof.
intros Hc Hs Hf. destruct (seed_ok cs ess Hc) as (m & Hm & Hk & Hseed).
rewrite <-(kmerge_items_seeded fuel m ess) by done. destruct fuel as [|fuel]; [lia|]. cbn [kmerge_items].
replace (kmerge_advance (kmerge_new cs)) with (kmerge_advance m); [done|].
unfold kmerge_advance at 1 2. rewrite Hseed. simpl km_seeded. cbv iota. rewrite Hm. done.
Qed.

End correct.
