(* ===== verification/Compaction.v ===== *)
(** * Compaction of SST files

The compaction cursor and entry points of [storage/sst.rs] ([SstCursor],
[compact_with_fs_opts]) and the choice of the run to merge ([select_partial_run] of
[storage/engine.rs]). The cursor implements the interface of [Merge]; the output of
a compaction is the file of the merged entries. *)
From stdpp Require Import base list gmap strings sorting lexico.
From Stdlib Require Import Strings.Byte ZArith Lia.
From S2P Require Import Prelude OrdMap StorageTypes Crypto Bloom SstCodec SstWriter KeyMerge SstReader Merge.

Open Scope Z_scope.

Record SstCursor := MkSstCursor {
  sc_reader : SstReader;
  sc_buf : list Entry;
  sc_walk : option BlockWalk;
  sc_exhausted : bool
}.

(** Compaction reads past the cache. *)
Definition no_cache : Z → option Block := λ _, None.

Section cursor.
Context `{HA : Aead}.

Definition sst_cursor_new (reader : SstReader) : SstCursor :=
  MkSstCursor reader []
    match sr_body reader with Blocked _ => Some walk_from_start | Eager _ => None end false.

(** [SstCursor::fill]: a block holds an entry, so two rounds are enough for the
files the writer makes; the fuel allows one round per entry. *)
Fixpoint fill (fuel : nat) (c : SstCursor) : res SstCursor :=
  match fuel with
  | O => Panic
  | S fuel =>
      match sc_buf c with
      | _ :: _ => Ok c
      | [] =>
          if sc_exhausted c then Ok c
          else
            match sr_body (sc_reader c), sc_walk c with
            | Blocked body, Some walk =>
                '(ob, walk) ← walk_step no_cache body (sr_sst_number (sc_reader c)) false None walk;
                match ob with
                | Some b =>
                    d ← block_data b;
                    fill fuel (MkSstCursor (sc_reader c) (into_owned <$> data_iter d) (Some walk) false)
                | None => fill fuel (MkSstCursor (sc_reader c) [] (Some walk) true)
                end
            | Eager entries, w => fill fuel (MkSstCursor (sc_reader c) entries w true)
            | Blocked _, None => fill fuel (MkSstCursor (sc_reader c) [] None true)
            end
      end
  end.

(** [authenticated_max_entries]. *)
Definition max_entries (r : SstReader) : Z :=
  match sr_body r with Eager entries => zlen entries | Blocked body => bb_max_entries body end.

Definition fill_fuel (c : SstCursor) : nat := (2 + Z.to_nat (max_entries (sc_reader c)))%nat.

Definition sst_peek_key (c : SstCursor) : res (option CompositeKey * SstCursor) :=
  c ← fill (fill_fuel c) c;
  Ok (fst <$> head (sc_buf c), c).

Definition sst_pop (c : SstCursor) : res (option Entry * SstCursor) :=
  c ← fill (fill_fuel c) c;
  Ok (head (sc_buf c), MkSstCursor (sc_reader c) (tail (sc_buf c)) (sc_walk c) (sc_exhausted c)).

#[export] Instance sst_entry_cursor : EntryCursor SstCursor := {| peek_key := sst_peek_key; pop := sst_pop |}.

Context `{HC : Crc32}.

Definition merge_fuel (inputs : list SstReader) : nat :=
  S (sum_list_with (λ r, Z.to_nat (max_entries r)) inputs).

(** [compact_with_fs_opts]: the merge streamed into the writer. *)
Definition compact_with_fs_opts (input_ssts : list SstReader) (output_sst_number : Z) (dek : list byte)
    (enc_header : EncryptionHeader) (drop_tombstones : bool) : res (list byte * SstMetadata) :=
  let merged := kmerge_items (merge_fuel input_ssts) (kmerge_new (sst_cursor_new <$> input_ssts)) in
  write_sst_streaming enc_header output_sst_number dek drop_tombstones merged.

(** [compact_with_fs]: the full merge. *)
Definition compact_with_fs (input_ssts : list SstReader) (output_sst_number : Z) (dek : list byte)
    (enc_header : EncryptionHeader) : res (list byte * SstMetadata) :=
  compact_with_fs_opts input_ssts output_sst_number dek enc_header true.

End cursor.

(** ** Choice of the run to merge *)

(** The span of one size tier: while the next file keeps the largest entry count
within twice the smallest, extend. The counts are [u32]s turned to [f64] and their
quotient is compared with [2.0]; the quotient of two such integers exceeds 2 in
[f64] exactly when it does in the rationals, so the test is [hi <= 2 * lo]. *)
Fixpoint extend_tier (fuel : nat) (counts : list Z) (lo hi : Z) (j : nat) : nat :=
  match fuel with
  | O => j
  | S fuel =>
      match counts !! S j with
      | Some c =>
          let next := Z.max c 1 in
          let nlo := Z.min lo next in
          let nhi := Z.max hi next in
          if nhi <=? 2 * nlo then extend_tier fuel counts nlo nhi (S j) else j
      | None => j
      end
  end.

Fixpoint select_from (fuel : nat) (counts : list Z) (merge_min : Z) (i : nat) : option (nat * nat) :=
  match fuel with
  | O => None
  | S fuel =>
      match counts !! i with
      | Some c =>
          let base := Z.max c 1 in
          let j := extend_tier (length counts) counts base base i in
          if merge_min <=? Z.of_nat (j - i + 1) then Some (i, j)
          else select_from fuel counts merge_min (S j)
      | None => None
      end
  end.

(** [select_partial_run]: [readers] newest first; each round starts after the last
span, so the number of readers bounds the rounds. *)
Definition select_partial_run (readers : list SstReader) (merge_min : Z) : option (nat * nat) :=
  select_from (S (length readers)) (sr_entry_count <$> readers) merge_min 0.

(** ** Readers of written files *)

Section holds.
Context `{HA : Aead} `{HC : Crc32} `{HAL : !AeadLaws} `{HCL : !Crc32Laws}.

(** The reader was opened on a file of the entries [es]. *)
Definition reader_of (r : SstReader) (es : list Entry) : Prop :=
  bt_sorted es ∧ zlen es <= u64_max ∧
  ∃ hdr n dek ps body fct file count, sst_layout hdr n dek es ps body fct file ∧
    r = MkReader (Blocked (blocked_of file body dek ps es)) count n None (range_of es).

(** What the cursor has still to yield. *)
Definition cursor_streams (c : SstCursor) (es : list Entry) : Prop :=
  ∃ hdr n dek all ps body fct file count walk rest,
    sst_layout hdr n dek all ps body fct file ∧ bt_sorted all ∧ zlen all <= u64_max ∧
    sc_reader c = MkReader (Blocked (blocked_of file body dek ps all)) count n None (range_of all) ∧
    sc_walk c = Some walk ∧ es = sc_buf c ++ blocks_entries rest ∧
    (if sc_exhausted c then rest = [] else walk_at ps walk rest) ∧
    Forall (dblock_ok body dek n) rest ∧ ∃ pre, all = pre ++ blocks_entries rest.

Lemma sst_cursor_new_streams r es : reader_of r es → cursor_streams (sst_cursor_new r) es.
Proof.
intros (Hs & Hl & hdr & n & dek & ps & body & fct & file & count & Hlay & ->).
exists hdr, n, dek, es, ps, body, fct, file, count, walk_from_start, (all_blocks ps).
pose proof (all_blocks_entries ps) as Hall. pose proof (sl_entries _ _ _ _ _ _ _ _ Hlay) as Hes.
unfold parts_entries in Hes. split_and!; try done.
- simpl. congruence.
- exact (walk_at_partition ps 0).
- eapply all_blocks_ok; [exact Hlay|done].
- exists []. simpl. congruence.
Qed.

Lemma owned_refs (es : list Entry) : into_owned <$> (to_ref <$> es) = es.
Proof.
rewrite <-list_fmap_compose. rewrite <-(list_fmap_id es) at 2. apply list_fmap_ext. intros i [[rk kk] v] _. simpl.
unfold into_owned, to_ref, entry_ref, entry_key, memtable_value. simpl. by destruct v.
Qed.

Lemma fill_ok fuel c es :
  cursor_streams c es →
  ∃ c', fill (S (S fuel)) c = Ok c' ∧ cursor_streams c' es ∧ (sc_buf c' = [] → es = []).
Proof.
intros Hc. pose proof Hc as (hdr & n & dek & all & ps & body & fct & file & count & walk & rest & Hlay & Hs & Hl & Hr & Hw & He & Hat & Hok & pre & Hall).
destruct c as [r buf w ex]. simpl in *. subst r w es. destruct buf as [|e0 buf].
2: { eexists. by split_and!. }
destruct ex.
{ eexists. split_and!; [done..|]. subst rest. done. }
cbn [fill sc_buf sc_exhausted sc_reader sr_body sc_walk sr_sst_number].
destruct (walk_step_ok _ _ _ _ _ _ _ _ Hlay no_cache (empty_coherent ps) false None walk rest Hat) as (walk' & Hst & Hnext).
rewrite Hst. cbn [mbind outcome_bind]. destruct rest as [|b rest].
- eexists. split_and!; [reflexivity| |done].
  exists hdr, n, dek, all, ps, body, fct, file, count, walk', []. split_and!; try done. by exists pre.
- cbn [past_end block_data mbind outcome_bind]. pose proof (Forall_inv Hok) as ((v & more & Hb) & Hwf & _).
  rewrite data_iter_of, owned_refs by done.
  assert (Hsplit : blocks_entries (b :: rest) = b.2 ++ blocks_entries rest) by (unfold blocks_entries; by rewrite fmap_cons).
  eexists. split_and!; [by rewrite Hb| |simpl; done].
  exists hdr, n, dek, all, ps, body, fct, file, count, walk', rest. simpl. split_and!; try done.
  + by rewrite Hsplit, Hb.
  + by eapply Hnext.
  + by eapply Forall_inv_tail.
  + exists (pre ++ b.2). by rewrite <-app_assoc, <-Hsplit.
Qed.

Lemma streams_head c es : cursor_streams c es → (sc_buf c = [] → es = []) → head es = head (sc_buf c).
Proof.
intros (hdr & n & dek & all & ps & body & fct & file & count & walk & rest & _ & _ & _ & _ & _ & He & _) Hn.
destruct (sc_buf c) as [|e buf]; [by rewrite Hn|]. by rewrite He.
Qed.

#[export] Program Instance sst_cursor_laws : EntryCursorLaws SstCursor := {| streams := cursor_streams |}.
Next Obligation.
intros c es Hc. simpl. unfold sst_peek_key. destruct (fill_ok (Z.to_nat (max_entries (sc_reader c))) c es Hc) as (c' & Hf & Hc' & Hn).
unfold fill_fuel. simpl plus. rewrite Hf. cbn [mbind outcome_bind]. exists c'. split; [|done]. by rewrite (streams_head c' es).
Qed.
Next Obligation.
intros c es Hc. simpl. unfold sst_pop. destruct (fill_ok (Z.to_nat (max_entries (sc_reader c))) c es Hc) as (c' & Hf & Hc' & Hn).
unfold fill_fuel. simpl plus. rewrite Hf. cbn [mbind outcome_bind]. eexists. split; [by rewrite (streams_head c' es)|].
destruct Hc' as (hdr & n & dek & all & ps & body & fct & file & count & walk & rest & Hlay & Hs & Hl & Hr & Hw & He & Hat & Hok & Hall).
exists hdr, n, dek, all, ps, body, fct, file, count, walk, rest. simpl. split_and!; try done.
destruct (sc_buf c') as [|e buf]; [|by rewrite He]. specialize (Hn eq_refl). by rewrite Hn in *.
Qed.

(** ** The output *)

(** The entries a merge writes. *)
Definition kept (drop_tombstones : bool) (es : list Entry) : list Entry :=
  filter (λ p, drop_tombstones && negb (is_live p.2) = false) es.

Lemma push_streaming_ok w drop es : push_streaming w drop (Ok <$> es) = push_all w (kept drop es).
Proof.
unfold kept. revert w. induction es as [|[k v] es IH]; intros w; [done|]. rewrite fmap_cons. cbn [push_streaming mbind outcome_bind].
rewrite filter_cons. cbn [snd]. destruct (drop && negb (is_live v)).
- rewrite decide_False by done. apply IH.
- rewrite decide_True by done. cbn [push_all]. destruct (push w k v); [|done..]. cbn [mbind outcome_bind]. apply IH.
Qed.

Lemma write_streaming_ok hdr n dek drop es :
  write_sst_streaming hdr n dek drop (Ok <$> es) = write_sst hdr n dek (kept drop es).
Proof. unfold write_sst_streaming, write_sst. by rewrite push_streaming_ok. Qed.

Lemma merge_fuel_enough rs ess :
  Forall2 reader_of rs ess → (length (merged ess) < merge_fuel rs)%nat.
Proof.
intros Hr. unfold merge_fuel, merged. enough (length (merge_layers (reverse ess)) <= sum_list_with (λ r, Z.to_nat (max_entries r)) rs)%nat by lia.
etrans; [apply length_merge_layers|]. rewrite total_length_reverse.
induction Hr as [|r es rs ess (_ & Hl & hdr & n & dek & ps & body & fct & file & count & _ & ->) _ IH]; [done|].
unfold total_length in *. cbn [sum_list_with]. unfold max_entries at 1. cbn [sr_body blocked_of bb_max_entries].
unfold zlen in *. lia.
Qed.

Lemma compact_ok rs ess n dek hdr drop :
  Forall2 reader_of rs ess →
  compact_with_fs_opts rs n dek hdr drop = write_sst hdr n dek (kept drop (merged ess)).
Proof.
intros Hr. unfold compact_with_fs_opts. rewrite (kmerge_items_ok _ _ ess).
- apply write_streaming_ok.
- apply Forall2_fmap_l. eapply Forall2_impl; [exact Hr|]. intros r es Hx. by apply sst_cursor_new_streams.
- apply Forall_forall. intros es Hin. apply list_elem_of_lookup in Hin as [i Hi].
  destruct (Forall2_lookup_r _ _ _ _ _ Hr Hi) as (r & _ & Hs & _). exact Hs.
- by apply merge_fuel_enough.
Qed.

(** The reader of a file the writer made of the entries [es]. *)
Definition opened (r : SstReader) (es : list Entry) : Prop :=
  bt_sorted es ∧ Forall entry_wf es ∧
  ∃ hdr n dek file meta, header_wf hdr ∧ write_sst hdr n dek es = Ok (file, meta) ∧ zlen file <= u64_max ∧
    open_with_fs file n dek = Ok r.

Lemma opened_reader r es : opened r es → reader_of r es ∧ Forall entry_wf es.
Proof.
intros (Hs & Hwf & hdr & n & dek & file & meta & Hh & Hw & Hf & Ho). split; [|done].
destruct (written_reader _ _ _ _ _ _ Hh Hwf Hw Hf) as (ps & body & fct & r' & Hlay & Ho' & count & ->).
split; [done|]. split; [pose proof (write_sst_count _ _ _ _ _ _ Hwf Hw); lia|].
exists hdr, n, dek, ps, body, fct, file, count. split; [done|]. congruence.
Qed.

Lemma opened_readers rs ess : Forall2 opened rs ess → Forall2 reader_of rs ess ∧ Forall (Forall entry_wf) ess.
Proof.
induction 1 as [|r es rs ess Hr _ [IH1 IH2]]; [done|]. apply opened_reader in Hr as [H1 H2]. split; by constructor.
Qed.

Lemma reader_of_get cache r es realm key cached :
  reader_of r es → cache_of r cache → get_with cache r realm key cached = Ok (bt_get (CKey realm key) es).
Proof.
intros (Hs & Hl & hdr & n & dek & ps & body & fct & file & count & Hlay & Hr) Hc.
destruct (read_back_ok _ _ _ _ _ _ _ _ Hlay r cache Hs Hl (ex_intro _ count Hr) Hc) as [Hg _]. apply Hg.
Qed.

Lemma merged_wf ess : Forall (Forall entry_wf) ess → Forall entry_wf (merged ess).
Proof.
intros Hw. apply Forall_forall. intros p Hp. unfold merged in Hp.
assert (Hin : ∃ es, es ∈ ess ∧ p ∈ es).
{ apply elem_of_merge_layers in Hp as (es & Hes & Hp). rewrite elem_of_reverse in Hes. eauto. }
destruct Hin as (es & Hes & Hpe). eapply (proj1 (Forall_forall _ _)) in Hw; [|exact Hes].
by eapply (proj1 (Forall_forall _ _)) in Hw; [|exact Hpe].
Qed.

Lemma kept_wf drop es : Forall entry_wf es → Forall entry_wf (kept drop es).
Proof.
intros Hw. apply Forall_forall. intros p [_ Hp]%list_elem_of_filter. by eapply (proj1 (Forall_forall _ _)) in Hw; [|exact Hp].
Qed.

Lemma kept_sorted drop es : bt_sorted es → bt_sorted (kept drop es).
Proof. apply bt_sorted_filter. Qed.

(** A compaction drops a key's tombstone, or keeps everything. *)
Definition compacted (drop : bool) (o : option MemtableValue) : option MemtableValue :=
  match o with
  | Some Tombstone => if drop then None else Some Tombstone
  | _ => o
  end.

Lemma kept_get drop es k : bt_sorted es → bt_get k (kept drop es) = compacted drop (bt_get k es).
Proof.
intros Hs. unfold kept. destruct (bt_get k (filter _ es)) as [v|] eqn:Ef.
- apply bt_get_elem in Ef as [Hd Hin]%list_elem_of_filter. apply bt_elem_get in Hin; [|done]. rewrite Hin.
  simpl in Hd. destruct v as [d|]; [done|]. by destruct drop.
- destruct (bt_get k es) as [v|] eqn:Eg; [|done]. destruct v as [d|].
  + exfalso. apply bt_get_elem in Eg. assert (Hin : (k, Data d) ∈ filter (λ p, drop && negb (is_live p.2) = false) es).
    { apply list_elem_of_filter. split; [by destruct drop|done]. }
    apply bt_elem_get in Hin; [|by apply bt_sorted_filter]. congruence.
  + destruct drop; [done|]. exfalso. apply bt_get_elem in Eg.
    assert (Hin : (k, Tombstone) ∈ filter (λ p, false && negb (is_live p.2) = false) es) by (by apply list_elem_of_filter).
    apply bt_elem_get in Hin; [|by apply bt_sorted_filter]. congruence.
Qed.

Lemma compact_opened rs ess n dek hdr drop file meta :
  Forall2 opened rs ess → header_wf hdr → compact_with_fs_opts rs n dek hdr drop = Ok (file, meta) →
  zlen file <= u64_max →
  ∃ r, open_with_fs file n dek = Ok r ∧ opened r (kept drop (merged ess)).
Proof.
intros Hr Hh Hc Hf. apply opened_readers in Hr as [Hr Hwf]. rewrite (compact_ok _ ess) in Hc by done.
assert (Hw : Forall entry_wf (kept drop (merged ess))) by (by apply kept_wf, merged_wf).
destruct (written_reader _ _ _ _ _ _ Hh Hw Hc Hf) as (ps & body & fct & r & Hlay & Ho & count & Hr').
exists r. split; [done|]. split_and!; [apply kept_sorted, merge_layers_sorted|done|by eauto 10].
Qed.

(** C6: a compaction writes exactly the merge of its inputs. The inputs are readers
of files, oldest first; the output file opens, and for every key a lookup in it
answers what a search of the inputs from the newest to the oldest answers, except
that a full merge drops the tombstones. *)
Theorem compaction_output_exact rs ess n dek hdr drop file meta :
  Forall2 opened rs ess → header_wf hdr → compact_with_fs_opts rs n dek hdr drop = Ok (file, meta) →
  zlen file <= u64_max →
  ∃ r, open_with_fs file n dek = Ok r ∧
    ∀ cache realm key cached, cache_of r cache →
      get_with cache r realm key cached =
      Ok (compacted drop (layers_get (CKey realm key) (reverse ess))).
Proof.
intros Hr Hh Hc Hf. destruct (compact_opened _ _ _ _ _ _ _ _ Hr Hh Hc Hf) as (r & Ho & Hop). exists r. split; [done|].
intros cache realm key cached Hcache. apply opened_reader in Hop as [Hro _]. rewrite (reader_of_get _ _ _ _ _ _ Hro Hcache).
f_equal. unfold merged. rewrite kept_get, merge_layers_get; [done| |apply merge_layers_sorted].
rewrite (reverse_Permutation ess). apply Forall_forall. intros es Hin. apply list_elem_of_lookup in Hin as [i Hi].
destruct (Forall2_lookup_r _ _ _ _ _ Hr Hi) as (r' & _ & Hs & _). exact Hs.
Qed.

End holds.

(** ** The run *)

(** Every file of the span holds, counting an empty file as one entry, between [lo]
and [hi] entries. *)
Definition tier_within (counts : list Z) (lo hi : Z) (i j : nat) : Prop :=
  ∀ m c, (i <= m <= j)%nat → counts !! m = Some c → lo <= Z.max c 1 <= hi.

Lemma extend_tier_spec fuel counts lo hi i j :
  (i <= j < length counts)%nat → hi <= 2 * lo → tier_within counts lo hi i j →
  let j' := extend_tier fuel counts lo hi j in
  (j <= j' < length counts)%nat ∧ ∃ lo' hi', hi' <= 2 * lo' ∧ tier_within counts lo' hi' i j'.
Proof.
revert lo hi j. induction fuel as [|fuel IH]; intros lo hi j Hj Hr Ht; simpl; [split; [lia|eauto]|].
destruct (counts !! S j) as [c|] eqn:Ec; [|split; [lia|eauto]].
destruct (Z.leb_spec (Z.max hi (Z.max c 1)) (2 * Z.min lo (Z.max c 1))); [|split; [lia|eauto]].
pose proof (lookup_lt_Some _ _ _ Ec).
destruct (IH (Z.min lo (Z.max c 1)) (Z.max hi (Z.max c 1)) (S j)) as [H1 H2]; [lia|done| |split; [lia|done]].
intros m c' Hm Hc'. destruct (decide (m = S j)) as [->|]; [rewrite Ec in Hc'; injection Hc' as <-; lia|].
specialize (Ht m c' ltac:(lia) Hc'). lia.
Qed.

Lemma select_from_spec fuel counts merge_min i a b :
  select_from fuel counts merge_min i = Some (a, b) →
  (i <= a <= b)%nat ∧ (b < length counts)%nat ∧ merge_min <= Z.of_nat (b - a + 1) ∧
  ∃ lo hi, hi <= 2 * lo ∧ tier_within counts lo hi a b.
Proof.
revert i. induction fuel as [|fuel IH]; intros i Hs; [done|]. simpl in Hs.
destruct (counts !! i) as [c|] eqn:Ec; [|done]. pose proof (lookup_lt_Some _ _ _ Ec).
destruct (extend_tier_spec (length counts) counts (Z.max c 1) (Z.max c 1) i i) as [H1 H2]; [lia|lia| |].
{ intros m c' Hm Hc'. replace m with i in Hc' by lia. rewrite Ec in Hc'. injection Hc' as <-. lia. }
destruct (Z.leb_spec merge_min (Z.of_nat (extend_tier (length counts) counts (Z.max c 1) (Z.max c 1) i - i + 1))).
- injection Hs as <- <-. split; [lia|]. split; [lia|]. by split; [lia|].
- apply IH in Hs as (H3 & H4 & H5 & H6). split; [lia|]. split; [lia|]. by split.
Qed.

(** The run a partial compaction merges is a contiguous span of the readers, has
at least the configured number of files, and no file of it is more than twice the
size of another, an empty file counting as one entry. *)
Theorem select_partial_run_tier readers merge_min a b :
  select_partial_run readers merge_min = Some (a, b) →
  (a <= b < length readers)%nat ∧ merge_min <= Z.of_nat (b - a + 1) ∧
  ∀ i j r r', (a <= i <= b)%nat → (a <= j <= b)%nat → readers !! i = Some r → readers !! j = Some r' →
    Z.max (sr_entry_count r) 1 <= 2 * Z.max (sr_entry_count r') 1.
Proof.
intros Hs. apply select_from_spec in Hs as (H1 & H2 & H3 & lo & hi & H4 & Ht). rewrite length_fmap in H2.
split; [lia|]. split; [done|]. intros i j r r' Hi Hj Hr Hr'.
pose proof (Ht i (sr_entry_count r) Hi ltac:(by rewrite list_lookup_fmap, Hr)).
pose proof (Ht j (sr_entry_count r') Hj ltac:(by rewrite list_lookup_fmap, Hr')). lia.
Qed.

(** ** Instances of the theorems *)

Definition ex_reader (n : Z) : SstReader := MkReader (Eager []) n n None None.

Lemma select_partial_run_tier_witness :
  select_partial_run (ex_reader <$> [5; 6; 9; 40]) 3 = Some (0%nat, 2%nat) ∧
  Z.max (sr_entry_count (ex_reader 9)) 1 <= 2 * Z.max (sr_entry_count (ex_reader 5)) 1.
Proof.
assert (Hs : select_partial_run (ex_reader <$> [5; 6; 9; 40]) 3 = Some (0%nat, 2%nat)) by (vm_compute; reflexivity).
split; [exact Hs|]. destruct (select_partial_run_tier _ _ _ _ Hs) as (_ & _ & H).
apply (H 2%nat 0%nat); [lia|lia|reflexivity|reflexivity].
Defined.

Lemma compaction_output_exact_witness :
  ∃ f1 m1 r1 f2 m2 r, ex_file = Ok (f1, m1) ∧ @open_with_fs toy_aead toy_crc f1 7 (repeat x06 32) = Ok r1 ∧
    @compact_with_fs_opts toy_aead toy_crc [r1] 8 (repeat x07 32) ex_header true = Ok (f2, m2) ∧
    @open_with_fs toy_aead toy_crc f2 8 (repeat x07 32) = Ok r ∧
    get_with (HA := toy_aead) (HC := toy_crc) (λ _, None) r (repeat x01 16) [x62] true = Ok None.
Proof.
destruct ex_file as [[f1 m1]| |] eqn:E1; [|vm_compute in E1; discriminate E1..].
assert (Hl1 : zlen f1 <= u64_max) by (vm_compute in E1; injection E1 as <- _; vm_compute; congruence).
destruct (@open_with_fs toy_aead toy_crc f1 7 (repeat x06 32)) as [r1| |] eqn:Eo;
  [|vm_compute in E1; injection E1 as <- _; vm_compute in Eo; discriminate Eo..].
destruct (@compact_with_fs_opts toy_aead toy_crc [r1] 8 (repeat x07 32) ex_header true) as [[f2 m2]| |] eqn:Ec;
  [|vm_compute in E1; injection E1 as <- _; vm_compute in Eo; injection Eo as <-; vm_compute in Ec; discriminate Ec..].
assert (Hl2 : zlen f2 <= u64_max).
{ vm_compute in E1. injection E1 as <- _. vm_compute in Eo. injection Eo as <-. vm_compute in Ec. injection Ec as <- _.
  vm_compute. congruence. }
destruct (compaction_output_exact (HA := toy_aead) (HC := toy_crc) (HAL := toy_aead_laws) (HCL := toy_crc_laws)
  [r1] [ex_entries] 8 (repeat x07 32) ex_header true f2 m2) as (r & Hr & Hg).
- constructor; [|constructor]. split_and!; [exact ex_sorted|exact ex_entries_wf|].
  exists ex_header, 7, (repeat x06 32), f1, m1. split_and!; [exact ex_header_wf|exact E1|exact Hl1|exact Eo].
- exact ex_header_wf.
- exact Ec.
- exact Hl2.
- exists f1, m1, r1, f2, m2, r. split_and!; [done|exact Eo|exact Ec|exact Hr|].
  rewrite (Hg (λ _, None)); [vm_compute; reflexivity|]. unfold cache_of. destruct (sr_body r); [done|apply rc_empty].
Defined.
