(* ===== verification/EngineReads.v ===== *)
(** * The engine's reads

The read path of [storage/engine.rs] over the memtable and the SST readers: [get],
[get_uncached], [scan], [scan_keys], [visit_keys], [visit_entries] and
[list_realms], with the layers newest first. The hot tier in front of [get] is
[HotTier]; here it is a map the caller passes, and [get] returns the value it would
promote. The reads are an instance of the interface paging is written against. *)
From stdpp Require Import base list gmap strings sorting lexico.
From Stdlib Require Import Strings.Byte ZArith Lia.
From S2P Require Import Prelude OrdMap StorageTypes WalCodec Memtable KeyMerge Paging Crypto Bloom.
From S2P Require Import SstCodec SstWriter SstReader Merge Compaction.

Open Scope Z_scope.

(** The blocks the shared block cache holds for each reader. *)
Abbreviation BlockCaches := (SstReader → Z → option Block).

Section reads.
Context `{HA : Aead} `{HC : Crc32} {M : Type} `{HM : !SkipMap CompositeKey MemtableValue M}.

(** What the reads of the engine share: the memtable and the reader list, newest
first. *)
Record Store := MkStore {
  st_memtable : Memtable M;
  st_readers : list SstReader;
  st_caches : BlockCaches
}.

(** The loop over the readers: the first that holds the key ends the search, also
with a tombstone. *)
Fixpoint probe_readers (caches : BlockCaches) (readers : list SstReader) (r : RealmId) (key : list byte)
    (cached : bool) : res (option (list byte)) :=
  match readers with
  | [] => Ok None
  | reader :: rest =>
      v ← get_with (caches reader) reader r key cached;
      match v with
      | Some (Data data) => Ok (Some data)
      | Some Tombstone => Ok None
      | None => probe_readers caches rest r key cached
      end
  end.

(** The layers under the hot tier. *)
Definition get_layers (st : Store) (r : RealmId) (key : list byte) (cached : bool) : res (option (list byte)) :=
  match Memtable.get_entry r key (st_memtable st) with
  | Some (Data data) => Ok (Some data)
  | Some Tombstone => Ok None
  | None => probe_readers (st_caches st) (st_readers st) r key cached
  end.

(** [get]: the answer, and whether the value is handed to the hot tier. *)
Definition engine_get (hot : RealmId → list byte → option (list byte)) (st : Store) (r : RealmId)
    (key : list byte) : res (option (list byte) * bool) :=
  match hot r key with
  | Some v => Ok (Some v, false)
  | None =>
      v ← get_layers st r key true;
      Ok (v, match v with Some _ => true | None => false end)
  end.

Definition engine_get_uncached (hot : RealmId → list byte → option (list byte)) (st : Store) (r : RealmId)
    (key : list byte) : res (option (list byte)) :=
  match hot r key with
  | Some v => Ok (Some v)
  | None => get_layers st r key false
  end.

(** The oldest-first loop of [scan] over the readers. *)
Fixpoint merge_scans {V} (scan_reader : SstReader → res (list (list byte * V))) (readers : list SstReader)
    (merged : list (list byte * V)) : res (list (list byte * V)) :=
  match readers with
  | [] => Ok merged
  | reader :: rest =>
      entries ← scan_reader reader;
      merge_scans scan_reader rest (bt_insert_all entries merged)
  end.

Definition engine_scan (st : Store) (r : RealmId) (start end_ : list byte) : res (list ScanEntry) :=
  if ord_lt end_ start then Err InvalidRange
  else
    let memtable_entries := iter_realm_range r start end_ (st_memtable st) in
    merged ← merge_scans (λ reader, range_scan (st_caches st reader) reader r start end_)
      (reverse (st_readers st)) [];
    let merged := bt_insert_all memtable_entries merged in
    Ok (omap (λ e, match e.2 with Data data => Some (Scan e.1 data) | Tombstone => None end) merged).

Definition engine_scan_keys (st : Store) (r : RealmId) (start end_ : list byte) : res (list (list byte)) :=
  if ord_lt end_ start then Err InvalidRange
  else
    let memtable_keys := iter_realm_range_keys r start end_ (st_memtable st) in
    merged ← merge_scans (λ reader, range_scan_keys (st_caches st reader) reader r start end_)
      (reverse (st_readers st)) [];
    let merged := bt_insert_all memtable_keys merged in
    Ok (filter (λ e, e.2 = true) merged).*1.

(** A [Box<dyn KeyCursor>] of a walk. An SST cursor carries the blocks the cache
holds for its reader. *)
Inductive AnyCursor :=
| MemCursor (c : MemtableKeyCursor M)
| SstCursorBox (cache : Z → option Block) (c : SstKeyCursor).

#[export] Instance any_cursor : KeyCursor AnyCursor := {|
  current c := match c with MemCursor c => current c | SstCursorBox cache c => @current _ (sst_key_cursor cache) c end;
  value c := match c with MemCursor c => value c | SstCursorBox cache c => @value _ (sst_key_cursor cache) c end;
  advance c := match c with
    | MemCursor c => MemCursor <$> advance c
    | SstCursorBox cache c => SstCursorBox cache <$> @advance _ (sst_key_cursor cache) c
    end
|}.

Fixpoint open_cursors (caches : BlockCaches) (readers : list SstReader) (r : RealmId) (start end_ : list byte)
    (cached : bool) : res (list AnyCursor) :=
  match readers with
  | [] => Ok []
  | reader :: rest =>
      c ← sst_cursor (caches reader) reader r start end_ cached;
      cs ← open_cursors caches rest r start end_ cached;
      Ok (SstCursorBox (caches reader) c :: cs)
  end.

(** The entries of the layers bound the rounds of the merge. *)
Definition visit_fuel (st : Store) : nat :=
  S (sum_list_with (λ m, Z.to_nat (sm_len m)) (maps (st_memtable st)) +
     sum_list_with (λ r, Z.to_nat (max_entries r)) (st_readers st))%nat.

Definition visit_layers {A} (st : Store) (r : RealmId) (start end_ : list byte) (cached : bool)
    (visit : A → list byte → list byte → A * ControlFlow) (a : A) : res A :=
  if ord_lt end_ start then Err InvalidRange
  else
    let mem := (λ m, MemCursor (mem_cursor_new m r start end_)) <$> maps (st_memtable st) in
    ssts ← open_cursors (st_caches st) (st_readers st) r start end_ cached;
    default Panic (visit_merged_entries visit (visit_fuel st) (mem ++ ssts) a).

(** [visit_entries]: past the block cache. *)
Definition engine_visit_entries {A} (st : Store) (r : RealmId) (start end_ : list byte)
    (visit : A → list byte → list byte → A * ControlFlow) (a : A) : res A :=
  visit_layers st r start end_ false visit a.

(** [visit_keys] runs [visit_merged], the walk that ignores the values. *)
Definition engine_visit_keys {A} (st : Store) (r : RealmId) (start end_ : list byte)
    (visit : A → list byte → A * ControlFlow) (a : A) : res A :=
  visit_layers st r start end_ true (λ a k _, visit a k) a.

(** [list_realms]: a [BTreeSet] of the realms of every layer. *)
Fixpoint collect_realms (caches : BlockCaches) (readers : list SstReader) (realms : list (RealmId * unit))
  : res (list (RealmId * unit)) :=
  match readers with
  | [] => Ok realms
  | reader :: rest =>
      entries ← SstReader.iter_all (caches reader) reader;
      collect_realms caches rest (bt_insert_all ((λ e : Entry, (ck_realm e.1, tt)) <$> entries) realms)
  end.

Definition engine_list_realms (st : Store) : res (list RealmId) :=
  let realms := bt_insert_all ((λ r, (r, tt)) <$> list_realm_ids (st_memtable st)) [] in
  realms ← collect_realms (st_caches st) (st_readers st) realms;
  Ok realms.*1.

End reads.
Arguments Store M : clear implicits.
Arguments AnyCursor M : clear implicits.

(** ** The map the layers stand for *)

(** The window of a realm in one layer. *)
Definition layer_window (r : RealmId) (start end_ : list byte) (es : list Entry) : list (list byte * MemtableValue) :=
  (λ e, (ck_key e.1, e.2)) <$> filter (λ e, ck_realm e.1 = r ∧ key_in start end_ (ck_key e.1) = true) es.

(** The entries of a realm in a map. *)
Definition realm_part (r : RealmId) (es : list Entry) : list (list byte * MemtableValue) :=
  (λ e, (ck_key e.1, e.2)) <$> filter (λ e, ck_realm e.1 = r) es.

(** The live entries of a realm: what the layers, newest first, hold. *)
Definition layers_view (layers : list (list Entry)) (r : RealmId) : realm_view :=
  live_entries (realm_part r (merge_layers layers)).

Definition live_value (o : option MemtableValue) : option (list byte) := o ≫= value_view.

Lemma realm_filter_all (P : Entry → Prop) `{!∀ x, Decision (P x)} (r : RealmId) es :
  (∀ e, P e → ck_realm e.1 = r) → Forall (λ e, ck_realm e.1 = r) (filter P es).
Proof. intros HP. apply Forall_forall. intros e [He _]%list_elem_of_filter. auto. Qed.

Lemma layer_window_sorted r start end_ es : bt_sorted es → bt_sorted (layer_window r start end_ es).
Proof.
intros Hs. unfold layer_window. apply (realm_fmap_sorted id r); [by apply bt_sorted_filter|].
apply realm_filter_all. by intros e [? _].
Qed.

Lemma layer_window_get r start end_ es k :
  bt_get k (layer_window r start end_ es) = if key_in start end_ k then bt_get (CKey r k) es else None.
Proof.
unfold layer_window. rewrite (realm_fmap_get id r) by (apply realm_filter_all; by intros e [? _]).
rewrite option_fmap_id. etrans; [exact (bt_get_filter_key (λ ck, ck_realm ck = r ∧ key_in start end_ (ck_key ck) = true) (CKey r k) es)|]. simpl.
destruct (key_in start end_ k); [by rewrite decide_True|]. rewrite decide_False by naive_solver. done.
Qed.

Lemma realm_part_sorted r es : bt_sorted es → bt_sorted (realm_part r es).
Proof.
intros Hs. unfold realm_part. apply (realm_fmap_sorted id r); [by apply bt_sorted_filter|]. by apply realm_filter_all.
Qed.

Lemma realm_part_get r es k : bt_get k (realm_part r es) = bt_get (CKey r k) es.
Proof.
unfold realm_part. rewrite (realm_fmap_get id r) by (by apply realm_filter_all).
rewrite option_fmap_id. etrans; [exact (bt_get_filter_key (λ ck, ck_realm ck = r) (CKey r k) es)|]. by rewrite decide_True.
Qed.

Lemma layers_window_get r start end_ layers k :
  layers_get k (layer_window r start end_ <$> layers) =
  if key_in start end_ k then layers_get (CKey r k) layers else None.
Proof.
induction layers as [|es layers IH]; [by simpl; destruct (key_in _ _ _)|].
rewrite fmap_cons. cbn [layers_get]. rewrite layer_window_get, IH. by destruct (key_in start end_ k).
Qed.

(** Merging the windows is the window of the merge. *)
Lemma merge_windows r start end_ layers :
  Forall bt_sorted layers →
  merge_layers (layer_window r start end_ <$> layers) =
  filter (λ e, key_in start end_ e.1 = true) (realm_part r (merge_layers layers)).
Proof.
intros Hs. apply bt_ext.
- apply merge_layers_sorted.
- apply bt_sorted_filter, realm_part_sorted, merge_layers_sorted.
- intros k. rewrite merge_layers_get.
  2: { apply Forall_fmap. eapply Forall_impl; [exact Hs|]. intros es. apply layer_window_sorted. }
  rewrite layers_window_get. symmetry. etrans; [exact (bt_get_filter_key (λ k, key_in start end_ k = true) k _)|].
  rewrite realm_part_get, merge_layers_get by done. by destruct (key_in start end_ k).
Qed.

Lemma live_cons k v (es : list (list byte * MemtableValue)) :
  live_entries ((k, v) :: es) = match pair k <$> value_view v with Some e => e :: live_entries es | None => live_entries es end.
Proof. done. Qed.

Lemma live_filter start end_ (es : list (list byte * MemtableValue)) :
  live_entries (filter (λ e, key_in start end_ e.1 = true) es) = view_window start end_ (live_entries es).
Proof.
unfold view_window. induction es as [|[k v] es IH]; [done|]. rewrite filter_cons, live_cons. cbn [fst snd].
destruct v as [d|]; cbn [value_view fmap option_fmap option_map]; [rewrite filter_cons; cbn [fst]|];
  (destruct (key_in start end_ k); [rewrite ?(decide_True (P := true = true)) by done; rewrite live_cons; cbn [fst snd]; by rewrite IH
   |rewrite ?(decide_False (P := false = true)) by done; exact IH]).
Qed.

Lemma live_sorted es : bt_sorted es → bt_sorted (live_entries es).
Proof.
unfold bt_sorted, live_entries. induction es as [|[k v] es IH]; [done|]. rewrite fmap_cons.
intros [Hf Hs]%StronglySorted_cons. simpl. destruct v as [d|]; simpl; [|auto]. apply StronglySorted_cons. split; [|auto].
apply Forall_forall. intros k' (e & -> & He)%list_elem_of_fmap. apply list_elem_of_omap in He as ([k1 v1] & Hin & Hv).
eapply (proj1 (Forall_forall _ _)) in Hf; [|apply list_elem_of_fmap; eauto]. simpl in *.
destruct v1; [|done]. injection Hv as <-. done.
Qed.

Lemma live_get (es : list (list byte * MemtableValue)) k :
  bt_sorted es → bt_get k (live_entries es) = live_value (bt_get k es).
Proof.
intros Hs. induction es as [|[k1 v1] es IH]; [done|]. simpl. pose proof (bt_sorted_cons_inv _ _ Hs) as Hs'.
unfold live_entries in *. simpl. destruct v1 as [d|]; simpl.
- destruct (ord_cmp k k1); auto.
- rewrite IH by done. destruct (ord_cmp k k1) eqn:E; try done.
  apply ord_cmp_Eq_iff in E as ->. rewrite bt_get_notin; [done|]. unfold bt_sorted in Hs. rewrite fmap_cons in Hs.
  apply StronglySorted_cons in Hs as [Hf _]. intros Hin. eapply (proj1 (Forall_forall _ _)) in Hf; [|exact Hin].
  by eapply irreflexivity in Hf; [|apply _].
Qed.

(** ** The reads, against that map *)

Section exact.
Context `{HA : Aead} `{HC : Crc32} `{HAL : !AeadLaws} `{HCL : !Crc32Laws}.
Context {M : Type} `{HM : !SkipMap CompositeKey MemtableValue M} `{HML : !SkipMapLaws CompositeKey MemtableValue M}.

(** The readers hold the files [ess], newest first, and the cache their blocks. *)
Record store_ok (st : Store M) (ess : list (list Entry)) : Prop := {
  so_readers : Forall2 reader_of (st_readers st) ess;
  so_caches r : r ∈ st_readers st → cache_of r (st_caches st r)
}.

Definition store_layers (st : Store M) (ess : list (list Entry)) : list (list Entry) :=
  (sm_iter <$> maps (st_memtable st)) ++ ess.

Lemma reader_of_facts cache r es :
  reader_of r es → cache_of r cache →
  (∀ realm key cached, get_with cache r realm key cached = Ok (bt_get (CKey realm key) es)) ∧
  SstReader.iter_all cache r = Ok es ∧
  (∀ realm s e, ord_lt e s = false → range_scan cache r realm s e = Ok (layer_window realm s e es)) ∧
  (∀ realm s e, ord_lt e s = false →
    range_scan_keys cache r realm s e = Ok ((λ p, (p.1, is_live p.2)) <$> layer_window realm s e es)) ∧
  (∀ realm s e cached, ord_lt e s = false →
    ∃ c, sst_cursor cache r realm s e cached = Ok c ∧
      @yields _ (sst_key_cursor cache) c (layer_window realm s e es)).
Proof.
intros (Hs & Hl & hdr & n & dek & ps & body & fct & file & count & Hlay & Hr) Hc.
assert (Hwin : ∀ realm s e, filter (λ p, SstReader.in_window (CKey realm s) (CKey realm e) p.1 = true) es =
  filter (λ p, ck_realm p.1 = realm ∧ key_in s e (ck_key p.1) = true) es).
{ intros realm s e. apply list_filter_iff. intros [[r' k] v]. simpl. rewrite in_window_spec, andb_true_iff, negb_true_iff, key_in_true.
  split.
  - intros [Hge Hlt]. pose proof (ck_between_realm _ _ _ _ Hge Hlt) as Hr'. simpl in Hr'. subst r'.
    by rewrite ord_lt_same_realm in Hge, Hlt.
  - intros (-> & Hge & Hlt). by rewrite !ord_lt_same_realm. }
destruct (read_back_ok _ _ _ _ _ _ _ _ Hlay r cache Hs Hl (ex_intro _ count Hr) Hc) as (H1 & H2 & H3 & H4).
split_and!; [done|done|..].
- intros realm s e Hse. rewrite H3, Hse. unfold layer_window. by rewrite Hwin.
- intros realm s e Hse. unfold range_scan_keys. rewrite Hr in *.
  assert (Hcoh : cache_coherent ps cache) by (by apply (reader_cache_coherent _ _ _ _ _ _ _ _ Hlay)).
  rewrite (range_scan_inner_ok _ _ _ _ _ _ _ _ Hlay Hs cache Hcoh) by done. f_equal. rewrite Hwin. unfold layer_window.
  rewrite <-list_fmap_compose. apply list_fmap_ext. intros i [k v] _. simpl. by destruct v.
- intros realm s e cached Hse. destruct (H4 realm s e cached Hse) as (c & Hc' & Hy). exists c. split; [done|].
  unfold layer_window. by rewrite <-Hwin.
Qed.

Lemma probe_readers_ok caches readers ess r key cached :
  Forall2 reader_of readers ess → (∀ rd, rd ∈ readers → cache_of rd (caches rd)) →
  probe_readers caches readers r key cached = Ok (live_value (layers_get (CKey r key) ess)).
Proof.
intros Hr. induction Hr as [|rd es readers ess Hrd _ IH]; intros Hc; [done|]. cbn [probe_readers].
destruct (reader_of_facts (caches rd) rd es Hrd) as [Hg _]; [apply Hc; set_solver|]. rewrite Hg. cbn [mbind outcome_bind layers_get].
destruct (bt_get (CKey r key) es) as [[d|]|]; [done|done|]. apply IH. intros rd' Hin. apply Hc. set_solver.
Qed.

Lemma memtable_layers r key (mt : Memtable M) rest :
  layers_get (CKey r key) ((sm_iter <$> maps mt) ++ rest) =
  match Memtable.get_entry r key mt with Some v => Some v | None => layers_get (CKey r key) rest end.
Proof.
unfold maps, Memtable.get_entry. simpl. rewrite sm_iter_get. destruct (sm_get _ (mt_data mt)); [done|].
destruct (mt_flushing mt); simpl; [|done]. rewrite sm_iter_get. by destruct (sm_get _ _).
Qed.

Lemma get_layers_ok st ess r key cached :
  store_ok st ess → get_layers st r key cached = Ok (live_value (layers_get (CKey r key) (store_layers st ess))).
Proof.
intros [Hr Hc]. unfold get_layers, store_layers. rewrite memtable_layers.
destruct (Memtable.get_entry r key (st_memtable st)) as [[d|]|]; [done|done|]. by apply probe_readers_ok.
Qed.

Lemma readers_sorted readers ess : Forall2 reader_of readers ess → Forall bt_sorted ess.
Proof. induction 1 as [|r es readers ess (Hs & _) _ IH]; by constructor. Qed.

Lemma layers_sorted st ess : store_ok st ess → Forall bt_sorted (store_layers st ess).
Proof.
intros [Hr _]. unfold store_layers. apply Forall_app. split; [|by eapply readers_sorted].
apply Forall_fmap, Forall_forall. intros m _. apply sm_iter_sorted.
Qed.

(** The maps inserted oldest first are the merge of the layers. *)
Lemma merge_scans_ok {V} (f : SstReader → res (list (list byte * V))) (g : list Entry → list (list byte * V)) readers ess :
  Forall2 (λ r es, f r = Ok (g es)) readers ess →
  merge_scans f (reverse readers) [] = Ok (merge_layers (g <$> ess)).
Proof.
assert (Happ : ∀ rs1 rs2 acc, merge_scans f (rs1 ++ rs2) acc = merge_scans f rs1 acc ≫= merge_scans f rs2).
{ intros rs1. induction rs1 as [|r rs1 IH]; intros rs2 acc; [done|]. simpl. destruct (f r); [|done..]. simpl. apply IH. }
induction 1 as [|r es readers ess Hr _ IH]; [done|]. rewrite reverse_cons, Happ, IH. cbn [mbind outcome_bind merge_scans].
by rewrite Hr.
Qed.

(** Inserting the memtable's window over the merged files. *)
Lemma memtable_over {B} (g : MemtableValue → B) r start end_ (mt : Memtable M) layers entries :
  bt_sorted entries → (∀ k, bt_get k entries = if key_in start end_ k then g <$> Memtable.get_entry r k mt else None) →
  Forall bt_sorted layers →
  bt_insert_all entries (merge_layers (fmap (λ e, (e.1, g e.2)) <$> (layer_window r start end_ <$> layers))) =
  (λ e, (e.1, g e.2)) <$> filter (λ e, key_in start end_ e.1 = true) (realm_part r (merge_layers ((sm_iter <$> maps mt) ++ layers))).
Proof.
intros Hs Hg Hl.
assert (Hfs : ∀ es : list (list byte * MemtableValue), bt_sorted es → bt_sorted ((λ e, (e.1, g e.2)) <$> es)).
{ intros es. unfold bt_sorted. by rewrite <-list_fmap_compose. }
assert (Hall : Forall bt_sorted ((sm_iter <$> maps mt) ++ layers)).
{ apply Forall_app. split; [|done]. apply Forall_fmap, Forall_forall. intros m _. apply sm_iter_sorted. }
apply bt_ext.
- apply bt_insert_all_sorted, merge_layers_sorted.
- apply Hfs, bt_sorted_filter, realm_part_sorted, merge_layers_sorted.
- intros k. rewrite bt_get_insert_all, last_write_sorted, Hg by done. rewrite merge_layers_get.
  2: { apply Forall_fmap, Forall_fmap. eapply Forall_impl; [exact Hl|]. intros es He. by apply Hfs, layer_window_sorted. }
  rewrite bt_get_fmap.
  replace (bt_get k (filter _ _)) with (if decide (key_in start end_ k = true) then bt_get (CKey r k) (merge_layers ((sm_iter <$> maps mt) ++ layers)) else None).
  2: { symmetry. etrans; [exact (bt_get_filter_key (λ k, key_in start end_ k = true) k _)|]. by rewrite realm_part_get. }
  rewrite merge_layers_get, memtable_layers by done.
  assert (Hrest : layers_get k (fmap (λ e, (e.1, g e.2)) <$> (layer_window r start end_ <$> layers)) =
    if key_in start end_ k then g <$> layers_get (CKey r k) layers else None).
  { clear. induction layers as [|es layers IH]; [by simpl; destruct (key_in _ _ _)|]. rewrite !fmap_cons. cbn [layers_get].
    rewrite bt_get_fmap, layer_window_get, IH. destruct (key_in start end_ k); [|done]. by destruct (bt_get (CKey r k) es). }
  rewrite Hrest. destruct (key_in start end_ k); [|by rewrite decide_False].
  rewrite decide_True by done. by destruct (Memtable.get_entry r k mt).
Qed.

Lemma range_get r start end_ (mt : Memtable M) k :
  bt_sorted (iter_realm_range r start end_ mt) ∧
  bt_get k (iter_realm_range r start end_ mt) = if key_in start end_ k then id <$> Memtable.get_entry r k mt else None.
Proof. exact (iter_merged_get id r start end_ mt k _ eq_refl). Qed.

Lemma range_keys_get r start end_ (mt : Memtable M) k :
  bt_sorted (iter_realm_range_keys r start end_ mt) ∧
  bt_get k (iter_realm_range_keys r start end_ mt) =
    if key_in start end_ k then is_live <$> Memtable.get_entry r k mt else None.
Proof. exact (iter_merged_get is_live r start end_ mt k _ eq_refl). Qed.

Lemma fmap_pair_id {A B} (es : list (A * B)) : (λ e, (e.1, id e.2)) <$> es = es.
Proof. rewrite <-(list_fmap_id es) at 2. apply list_fmap_ext. by intros i [a b] _. Qed.

Lemma scan_ok st ess r start end_ :
  store_ok st ess → ord_lt end_ start = false →
  engine_scan st r start end_ = Ok (to_scan (view_window start end_ (layers_view (store_layers st ess) r))).
Proof.
intros Hst Hse. pose proof Hst as [Hr Hc]. unfold engine_scan. rewrite Hse.
rewrite (merge_scans_ok _ (fmap (λ e, (e.1, id e.2)) ∘ layer_window r start end_) _ ess).
2: { clear Hst. induction Hr as [|rd es readers ess Hrd _ IH]; constructor.
  - destruct (reader_of_facts (st_caches st rd) rd es Hrd) as (_ & _ & Hs & _); [apply Hc; set_solver|].
    rewrite Hs by done. unfold compose. by rewrite fmap_pair_id.
  - apply IH. intros rd' Hin. apply Hc. set_solver. }
cbn [mbind outcome_bind]. f_equal. rewrite (list_fmap_compose (layer_window r start end_)).
rewrite (memtable_over id r start end_ (st_memtable st) ess).
- rewrite fmap_pair_id. unfold layers_view. rewrite <-live_filter. unfold to_scan, live_entries, store_layers.
  generalize (filter (λ e, key_in start end_ e.1 = true) (realm_part r (merge_layers ((sm_iter <$> maps (st_memtable st)) ++ ess)))).
  intros l. induction l as [|[k v] l IH]; [done|]. simpl. destruct v; simpl; [f_equal; exact IH|exact IH].
- apply range_get. exact [].
- intros k. apply range_get.
- by eapply readers_sorted.
Qed.

Lemma scan_keys_ok st ess r start end_ :
  store_ok st ess → ord_lt end_ start = false →
  engine_scan_keys st r start end_ = Ok (view_window start end_ (layers_view (store_layers st ess) r)).*1.
Proof.
intros Hst Hse. pose proof Hst as [Hr Hc]. unfold engine_scan_keys. rewrite Hse.
rewrite (merge_scans_ok _ (fmap (λ e, (e.1, is_live e.2)) ∘ layer_window r start end_) _ ess).
2: { clear Hst. induction Hr as [|rd es readers ess Hrd _ IH]; constructor.
  - destruct (reader_of_facts (st_caches st rd) rd es Hrd) as (_ & _ & _ & Hs & _); [apply Hc; set_solver|]. by apply Hs.
  - apply IH. intros rd' Hin. apply Hc. set_solver. }
cbn [mbind outcome_bind]. f_equal. rewrite (list_fmap_compose (layer_window r start end_)).
rewrite (memtable_over is_live r start end_ (st_memtable st) ess).
- unfold layers_view. rewrite <-live_filter. unfold live_entries, store_layers.
  generalize (filter (λ e, key_in start end_ e.1 = true) (realm_part r (merge_layers ((sm_iter <$> maps (st_memtable st)) ++ ess)))).
  intros l. induction l as [|[k v] l IH]; [done|]. rewrite fmap_cons, filter_cons. destruct v; simpl; [|exact IH].
  f_equal. exact IH.
- apply range_keys_get. exact [].
- intros k. apply range_keys_get.
- by eapply readers_sorted.
Qed.

(** *** Walks *)

Lemma mem_yields (c : MemtableKeyCursor M) es : yields c es → yields (MemCursor c) es.
Proof.
induction 1 as [c Hc|c k v c' es Hc Hv Ha _ IH]; [by constructor|].
econstructor; [done|done| |exact IH]. change (MemCursor <$> advance c = Ok (MemCursor c')). by rewrite Ha.
Qed.

Lemma sst_yields cache c es : @yields _ (sst_key_cursor cache) c es → yields (C := AnyCursor M) (SstCursorBox cache c) es.
Proof.
induction 1 as [c Hc|c k v c' es Hc Hv Ha _ IH]; [by constructor|].
econstructor; [done|done| |exact IH].
change (SstCursorBox (M := M) cache <$> @advance _ (sst_key_cursor cache) c = Ok (SstCursorBox cache c')). by rewrite Ha.
Qed.

Lemma open_cursors_ok caches readers ess r start end_ cached :
  Forall2 reader_of readers ess → (∀ rd, rd ∈ readers → cache_of rd (caches rd)) → ord_lt end_ start = false →
  ∃ cs, open_cursors (M := M) caches readers r start end_ cached = Ok cs ∧ Forall2 yields cs (layer_window r start end_ <$> ess).
Proof.
intros Hr Hc Hse. induction Hr as [|rd es readers ess Hrd _ IH]; [by exists []|].
destruct (reader_of_facts (caches rd) rd es Hrd) as (_ & _ & _ & _ & Hcur); [apply Hc; set_solver|].
destruct (Hcur r start end_ cached Hse) as (c & Ho & Hy). destruct IH as (cs & Hcs & Hys); [intros rd' Hin; apply Hc; set_solver|].
simpl. rewrite Ho. cbn [mbind outcome_bind]. rewrite Hcs. cbn [mbind outcome_bind]. eexists. split; [reflexivity|].
constructor; [by apply sst_yields|done].
Qed.

Lemma scan_realm_window m r start end_ : scan_realm_range m r start end_ = layer_window r start end_ (sm_iter m).
Proof. unfold scan_realm_range, layer_window. by rewrite window_filter. Qed.

Lemma layer_window_length r start end_ es : (length (layer_window r start end_ es) <= length es)%nat.
Proof. unfold layer_window. rewrite length_fmap. apply length_filter. Qed.

Lemma visit_fuel_enough st ess r start end_ :
  store_ok st ess → (total_length (layer_window r start end_ <$> store_layers st ess) < visit_fuel st)%nat.
Proof.
intros [Hr _]. unfold store_layers, visit_fuel. rewrite fmap_app, total_length_app. apply Nat.lt_succ_r, Nat.add_le_mono.
- unfold total_length. induction (maps (st_memtable st)) as [|m l IH]; [done|]. rewrite !fmap_cons. cbn [sum_list_with].
  pose proof (layer_window_length r start end_ (sm_iter m)). rewrite sm_len_iter. unfold zlen in *. lia.
- unfold total_length. induction Hr as [|rd es readers ess (_ & Hl & hdr & n & dek & ps & body & fct & file & count & _ & ->) _ IH]; [done|].
  rewrite fmap_cons. cbn [sum_list_with]. unfold max_entries at 1. cbn [sr_body blocked_of bb_max_entries].
  pose proof (layer_window_length r start end_ es). unfold zlen in *. lia.
Qed.

Lemma visit_layers_ok {A} st ess r start end_ cached (visit : A → list byte → list byte → A * ControlFlow) a :
  store_ok st ess → ord_lt end_ start = false →
  visit_layers st r start end_ cached visit a =
  Ok (visit_all visit (view_window start end_ (layers_view (store_layers st ess) r)) a).
Proof.
intros Hst Hse. pose proof Hst as [Hr Hc]. unfold visit_layers. rewrite Hse. pose proof (layers_sorted _ _ Hst) as Hls.
destruct (open_cursors_ok (st_caches st) _ _ r start end_ cached Hr Hc Hse) as (cs & -> & Hy). cbn [mbind outcome_bind].
rewrite (visit_merged_spec visit (visit_fuel st) _ (layer_window r start end_ <$> store_layers st ess)).
- rewrite merge_windows by exact Hls. rewrite live_filter. done.
- unfold store_layers. rewrite fmap_app. apply Forall2_app; [|done].
  rewrite <-list_fmap_compose. apply Forall2_fmap_2. apply Forall_Forall2_diag, Forall_forall. intros m _.
  apply mem_yields. simpl. rewrite <-scan_realm_window. apply mem_cursor_yields.
- apply Forall_fmap. eapply Forall_impl; [exact Hls|]. intros es. apply layer_window_sorted.
- by apply visit_fuel_enough.
Qed.

Lemma visit_all_keys {A} (visit : A → list byte → A * ControlFlow) (m : realm_view) a :
  visit_all (λ a k _, visit a k) m a = walk visit m.*1 a.
Proof. revert a. induction m as [|[k v] m IH]; intros a; [done|]. simpl. destruct (visit a k) as [a' f]. by destruct (is_break f). Qed.

(** *** Realms *)

Lemma realm_set_elem es (acc : list (RealmId * unit)) r :
  bt_sorted acc → r ∈ (bt_insert_all ((λ e : Entry, (ck_realm e.1, tt)) <$> es) acc).*1 ↔
    r ∈ acc.*1 ∨ ∃ e, e ∈ es ∧ ck_realm e.1 = r.
Proof.
unfold bt_insert_all. revert acc. induction es as [|e es IH]; intros acc Hs; simpl; [set_solver|].
rewrite IH by (by apply bt_insert_sorted). rewrite elem_of_bt_insert_keys. set_solver.
Qed.

Lemma collect_realms_ok caches readers ess acc :
  Forall2 reader_of readers ess → (∀ rd, rd ∈ readers → cache_of rd (caches rd)) → bt_sorted acc →
  ∃ realms, collect_realms caches readers acc = Ok realms ∧ bt_sorted realms ∧
    ∀ r, r ∈ realms.*1 ↔ r ∈ acc.*1 ∨ ∃ es e, es ∈ ess ∧ e ∈ es ∧ ck_realm e.1 = r.
Proof.
intros Hr. revert acc. induction Hr as [|rd es readers ess Hrd _ IH]; intros acc Hc Hs.
{ exists acc. split; [done|]. split; [done|]. set_solver. }
cbn [collect_realms]. destruct (reader_of_facts (caches rd) rd es Hrd) as (_ & Hi & _); [apply Hc; set_solver|].
rewrite Hi. cbn [mbind outcome_bind].
destruct (IH (bt_insert_all ((λ e : Entry, (ck_realm e.1, tt)) <$> es) acc)) as (realms & Hc' & Hs' & Hm).
- intros rd' Hin. apply Hc. set_solver.
- by apply bt_insert_all_sorted.
- exists realms. split; [done|]. split; [done|]. intros r. rewrite Hm, realm_set_elem by done. set_solver.
Qed.

Lemma view_sorted_ok st ess r : bt_sorted (layers_view (store_layers st ess) r).
Proof. apply live_sorted, realm_part_sorted, merge_layers_sorted. Qed.

Lemma view_get st ess r k :
  store_ok st ess → bt_get k (layers_view (store_layers st ess) r) = live_value (layers_get (CKey r k) (store_layers st ess)).
Proof.
intros Hst. unfold layers_view. rewrite live_get by (apply realm_part_sorted, merge_layers_sorted).
rewrite realm_part_get, merge_layers_get; [done|by apply layers_sorted].
Qed.

(** C5: every read of the engine serves one map. Over a memtable, its parked map if a
flush runs, and readers of written files, whatever the block cache holds: a point
read returns the live value of the key in the newest layer that has it, through the
hot tier if that is coherent, and past the caches; [scan], [scan_keys],
[visit_entries] and [visit_keys] return exactly the window of the realm's live
entries, in key order; and all four refuse a reversed window. *)
Theorem engine_reads_exact (st : Store M) ess r :
  store_ok st ess →
  let view := layers_view (store_layers st ess) r in
  (∀ hot key, (∀ v, hot r key = Some v → bt_get key view = Some v) →
     (∃ fill, engine_get hot st r key = Ok (bt_get key view, fill)) ∧
     engine_get_uncached hot st r key = Ok (bt_get key view)) ∧
  ∀ start end_,
    if ord_lt end_ start then
      engine_scan st r start end_ = Err InvalidRange ∧ engine_scan_keys st r start end_ = Err InvalidRange ∧
      (∀ A visit (a : A), engine_visit_entries st r start end_ visit a = Err InvalidRange) ∧
      (∀ A visit (a : A), engine_visit_keys st r start end_ visit a = Err InvalidRange)
    else
      engine_scan st r start end_ = Ok (to_scan (view_window start end_ view)) ∧
      engine_scan_keys st r start end_ = Ok (view_window start end_ view).*1 ∧
      (∀ A visit (a : A), engine_visit_entries st r start end_ visit a =
         Ok (visit_all visit (view_window start end_ view) a)) ∧
      (∀ A visit (a : A), engine_visit_keys st r start end_ visit a =
         Ok (walk visit (view_window start end_ view).*1 a)).
Proof.
intros Hst view. split.
- intros hot key Hhot. pose proof (view_get st ess r key Hst) as Hv. fold view in Hv.
  unfold engine_get, engine_get_uncached. destruct (hot r key) as [v|] eqn:Eh.
  + rewrite (Hhot v eq_refl). eauto.
  + rewrite !(get_layers_ok st ess) by done. cbn [mbind outcome_bind]. rewrite <-Hv. eauto.
- intros start end_. destruct (ord_lt end_ start) eqn:Hse.
  + unfold engine_scan, engine_scan_keys, engine_visit_entries, engine_visit_keys, visit_layers. rewrite Hse. done.
  + split_and!; [by apply scan_ok|by apply scan_keys_ok| |].
    * intros A visit a. by apply visit_layers_ok.
    * intros A visit a. unfold engine_visit_keys. rewrite (visit_layers_ok st ess) by done. by rewrite visit_all_keys.
Qed.

(** [list_realms] finds every realm of every layer, once. *)
Lemma list_realms_exact st ess :
  store_ok st ess →
  ∃ realms, engine_list_realms st = Ok realms ∧ NoDup realms ∧
    ∀ r, r ∈ realms ↔ ∃ es e, es ∈ store_layers st ess ∧ e ∈ es ∧ ck_realm e.1 = r.
Proof.
intros [Hr Hc]. unfold engine_list_realms.
assert (Hnil : bt_sorted (@nil (RealmId * unit))) by constructor.
assert (Hmem : ∀ r, r ∈ list_realm_ids (st_memtable st) ↔ ∃ es e, es ∈ sm_iter <$> maps (st_memtable st) ∧ e ∈ es ∧ ck_realm e.1 = r).
{ intros r. unfold list_realm_ids, realm_set_of, maps. destruct (mt_flushing (st_memtable st)) as [parked|].
  - rewrite realm_set_elem by (by apply bt_insert_all_sorted). rewrite realm_set_elem by done. set_solver.
  - rewrite realm_set_elem by done. set_solver. }
assert (Hins : ∀ l : list RealmId, bt_sorted (bt_insert_all ((λ r, (r, tt)) <$> l) []) ∧
  ∀ r, r ∈ (bt_insert_all ((λ r, (r, tt)) <$> l) []).*1 ↔ r ∈ l).
{ intros l. split; [by apply bt_insert_all_sorted|]. intros r.
  pose proof (realm_set_elem ((λ r, (CKey r [], Tombstone)) <$> l) [] r Hnil) as Hx. rewrite <-list_fmap_compose in Hx.
  unfold compose in Hx. simpl in Hx. rewrite Hx. set_solver. }
destruct (Hins (list_realm_ids (st_memtable st))) as [Hs0 Hm0].
destruct (collect_realms_ok (st_caches st) (st_readers st) ess _ Hr Hc Hs0) as (realms & -> & Hs & Hm).
cbn [mbind outcome_bind]. eexists. split; [reflexivity|]. split.
- unfold bt_sorted in Hs. clear -Hs. induction realms.*1 as [|x l IH]; [constructor|].
  apply StronglySorted_cons in Hs as [Hf Hs]. constructor; [|auto]. intros Hin.
  eapply (proj1 (Forall_forall _ _)) in Hf; [|exact Hin]. by eapply irreflexivity in Hf; [|apply _].
- intros r. rewrite Hm, Hm0, Hmem. unfold store_layers. set_solver.
Qed.

(** A store with the files its readers hold. *)
Record LiveStore := MkLive { ls_store : Store M; ls_files : list (list Entry); ls_ok : store_ok ls_store ls_files }.

#[export] Instance live_reads : EngineReads LiveStore := {|
  Paging.scan s := engine_scan (ls_store s);
  Paging.visit_keys A s := engine_visit_keys (ls_store s)
|}.

(** The engine meets what paging asks of it, so the paging theorems hold of it. *)
#[export] Instance live_read_laws :
  ReadLaws LiveStore (λ s, layers_view (store_layers (ls_store s) (ls_files s))).
Proof.
split.
- intros st r. apply view_sorted_ok.
- intros st r start end_ Hse. apply scan_ok; [apply ls_ok|done].
- intros A st r start end_ visit a Hse. simpl. unfold engine_visit_keys.
  rewrite (visit_layers_ok _ (ls_files st)) by (done || apply ls_ok). by rewrite visit_all_keys.
Qed.

End exact.

(** ** Instances of the theorem *)

(** A memtable with a put over the key the file below also holds. *)
Definition ex_store (r1 : SstReader) : res (Store ref_map) :=
  mt ← Memtable.put (repeat x01 16) [x61] [x09] (Memtable.new wit_config);
  Ok (MkStore mt [r1] (λ _ _, None)).

Lemma engine_reads_exact_witness :
  ∃ f1 m1 r1 st, ex_file = Ok (f1, m1) ∧ @open_with_fs toy_aead toy_crc f1 7 (repeat x06 32) = Ok r1 ∧ ex_store r1 = Ok st ∧
    engine_get_uncached (HA := toy_aead) (HC := toy_crc) (λ _ _, None) st (repeat x01 16) [x61] = Ok (Some [x09]) ∧
    engine_scan (HA := toy_aead) st (repeat x01 16) [x61] [x60] = Err InvalidRange.
Proof.
destruct ex_file as [[f1 m1]| |] eqn:E1; [|vm_compute in E1; discriminate E1..].
assert (Hl1 : zlen f1 <= u64_max) by (vm_compute in E1; injection E1 as <- _; vm_compute; congruence).
destruct (@open_with_fs toy_aead toy_crc f1 7 (repeat x06 32)) as [r1| |] eqn:Eo;
  [|vm_compute in E1; injection E1 as <- _; vm_compute in Eo; discriminate Eo..].
destruct (put_wrote (M := ref_map) (repeat x01 16) [x61] [x09] (Memtable.new wit_config) eq_refl) as (mt & Hmt & Hw).
set (st := MkStore mt [r1] (λ _ _, None)).
exists f1, m1, r1, st. split; [reflexivity|]. split; [exact Eo|]. split; [unfold ex_store; rewrite Hmt; reflexivity|].
assert (Hok : store_ok (HA := toy_aead) (HC := toy_crc) st [ex_entries]).
{ split; [|intros r Hin].
  - constructor; [|constructor]. apply (opened_reader (HA := toy_aead) (HC := toy_crc) (HAL := toy_aead_laws) (HCL := toy_crc_laws)).
    split_and!; [exact ex_sorted|exact ex_entries_wf|].
    exists ex_header, 7, (repeat x06 32), f1, m1. split_and!; [exact ex_header_wf|exact E1|exact Hl1|exact Eo].
  - unfold cache_of. simpl. destruct (sr_body r); [done|apply rc_empty]. }
destruct (engine_reads_exact (HA := toy_aead) (HC := toy_crc) (HAL := toy_aead_laws) (HCL := toy_crc_laws) st [ex_entries]
  (repeat x01 16) Hok) as [Hget Hwin].
split.
- destruct (Hget (λ _ _, None) [x61] ltac:(done)) as [_ ->]. f_equal.
  rewrite (view_get (HA := toy_aead) (HC := toy_crc) st [ex_entries]) by exact Hok. unfold store_layers. rewrite memtable_layers.
  unfold Memtable.get_entry. rewrite (proj1 Hw). vm_compute. reflexivity.
- specialize (Hwin [x61] [x60]). apply Hwin.
Defined.
