(* ===== verification/WalCrash.v ===== *)
(** * What a crash leaves of the write-ahead log

The segment after an interrupted group commit, and what the next open of it
replays: the records that were durable and a prefix of the interrupted batch, in
whole records. *)
From stdpp Require Import base list gmap strings sorting lexico.
From Stdlib Require Import Strings.Byte ZArith Lia.
From S2P Require Import Prelude OrdMap StorageTypes WalCodec Crypto WalSegment.

Open Scope Z_scope.

Section crash.
Context `{HA : Aead} `{HC : Crc32} `{HAL : !AeadLaws} `{HCL : !Crc32Laws}.

(** A scan returns the intact records it starts with, and perhaps more. *)
Lemma scan_extends dek valid es tail s :
  records dek 0 valid es → scan_records (valid ++ tail) dek = Ok s → es `prefix_of` rs_entries s.
Proof.
intros Hr Hs. rewrite (scan_records_tail _ _ _ _ Hr) in Hs. bind_inv Hs step Hst. destruct step as [|e next].
- injection Hs as <-. done.
- apply scan_step_record_inv in Hst as (c & p & _ & _ & _ & -> & Hle & _).
  apply scan_loop_inv in Hs as (v & es' & -> & _); [by exists (e :: es'); rewrite <-app_assoc|].
  pose proof (zlen_nonneg valid). pose proof (zlen_nonneg (frame c)). lia.
Qed.

(** Cutting the bytes of a batch keeps the old records and a prefix of the batch. *)
Lemma scan_cut dek old es buf batch n s :
  records dek 0 old es → records dek 0 (old ++ buf) (es ++ batch) → scan_records (old ++ take n buf) dek = Ok s →
  ∃ j, rs_entries s = es ++ take j batch.
Proof.
intros Ho Hall Hs. destruct (scan_extends _ _ _ _ _ Ho Hs) as [more Hmore].
destruct (scan_records_inv _ _ _ Hs) as (valid & tail & Hreg & Hv & _).
pose proof (scan_records_all _ _ _ Hall) as Hfull.
assert (Hsplit : old ++ buf = valid ++ tail ++ drop n buf).
{ rewrite (app_assoc valid), <-Hreg, <-app_assoc. by rewrite take_drop. }
rewrite Hsplit in Hfull. destruct (scan_extends _ _ _ _ _ Hv Hfull) as [rest Hrest]. simpl in Hrest.
rewrite Hmore, <-app_assoc in Hrest. apply app_inv_head in Hrest. exists (length more).
rewrite Hmore, Hrest. by rewrite take_app_length.
Qed.

(** Every open of [content] that succeeds replays records that satisfy [P]. *)
Definition recovers (kek kek_id content : list byte) (P : list WalEntry → Prop) : Prop :=
  ∀ rng config w ops, good_draw rng → open_with_fs rng config kek kek_id content = Ok (w, ops) →
    ∃ es, wal_inv w es ∧ w_fenced w = false ∧ w_kek w = kek ∧ w_kek_id w = kek_id ∧ P es.

Lemma open_keys rng config kek kek_id content w ops :
  open_with_fs rng config kek kek_id content = Ok (w, ops) → w_kek_id w = kek_id.
Proof.
unfold open_with_fs. destruct (repair_partial_header content) as [ops0 size]. intros Ho. bind_inv Ho x Hx.
destruct x as [[[d h] c] more]. by injection Ho as <- _.
Qed.

Lemma recovers_region kek kek_id h dek region (P : list WalEntry → Prop) :
  zlen kek_id = KEK_ID_SIZE → header_wf h → unwrap_dek h kek = Ok dek →
  (∀ s, scan_records region dek = Ok s → P (rs_entries s)) → recovers kek kek_id (segment_header h ++ region) P.
Proof.
intros Hk Hh Hu HP rng config w ops Hg Ho.
assert (Hscan : ∃ s, scan_records region dek = Ok s).
{ unfold open_with_fs in Ho. pose proof (segment_header_len h Hh) as Hl. pose proof (zlen_nonneg region).
  rewrite repair_full in Ho by (rewrite zlen_app; lia). cbn [foldl] in Ho. rewrite zlen_app, Hl in Ho.
  change V1_RECORD_OFFSET with 82 in *. rewrite (proj2 (Z.eqb_neq _ _)) in Ho by lia. unfold open_existing in Ho.
  rewrite detect_v1, bind_ok in Ho by done. cbv beta iota in Ho. rewrite (open_data_v1 rng kek kek_id h dek) in Ho by done.
  destruct (scan_records region dek); [by eauto|done..]. }
destruct Hscan as [s Hs]. pose proof (scan_records_inv _ _ _ Hs) as (valid & tail & -> & Hv & Hc & _ & Ht & Hn).
destruct (open_segment rng config kek kek_id (rs_entries s) (segment_header h ++ valid ++ tail) Hg Hk) as (w' & ops' & Ho' & Hi & Hf & Hkk & _).
- exists h, dek, valid, tail. split_and!; try done. by rewrite <-Hc.
- rewrite Ho in Ho'. injection Ho' as -> ->. exists (rs_entries s). split_and!; [done..|by eapply open_keys|by apply HP].
Qed.

Lemma recovers_header kek kek_id h n (P : list WalEntry → Prop) :
  zlen kek_id = KEK_ID_SIZE → header_wf h → (∃ dek, unwrap_dek h kek = Ok dek) → P [] →
  recovers kek kek_id (take n (segment_header h)) P.
Proof.
intros Hk Hh [dek Hu] HP. pose proof (segment_header_len h Hh) as Hl. change V1_RECORD_OFFSET with 82 in Hl.
destruct (decide (n < 82)%nat) as [Hn|Hn].
- intros rng config w ops Hg Ho. destruct (open_fresh rng config kek kek_id h n Hg Hk Hh Hn) as (w' & ops' & Ho' & Hi & Hf & Hkk & _).
  rewrite Ho in Ho'. injection Ho' as -> ->. exists []. split_and!; [done..|by eapply open_keys|done].
- rewrite take_ge by (unfold zlen in Hl; lia). rewrite <-(app_nil_r (segment_header h)).
  apply (recovers_region _ _ _ dek); [done..|]. intros s Hs. by injection Hs as <-.
Qed.

Lemma recovers_inv w es (P : list WalEntry → Prop) :
  wal_inv w es → zlen (w_kek_id w) = KEK_ID_SIZE → P es → recovers (w_kek w) (w_kek_id w) (w_file w) P.
Proof.
intros [Hh Hu _ (bs & -> & Hr)] Hk HP. apply (recovers_region _ _ _ (w_dek w)); [done..|]. intros s Hs.
rewrite (scan_records_all _ _ _ Hr) in Hs. by injection Hs as <-.
Qed.

Lemma rotate_crash rng flush fault w es r w' :
  wal_inv w es → good_draw rng → zlen (w_kek_id w) = KEK_ID_SIZE → no_panic flush →
  rotate_locked rng flush fault w = (r, w') →
  w_kek w' = w_kek w ∧ w_kek_id w' = w_kek_id w ∧
  ((r = Ok tt ∧ flush = Ok tt ∧ w_fenced w' = w_fenced w ∧ wal_inv w' []) ∨
   (∃ e, r = Err e ∧
      recovers (w_kek w) (w_kek_id w) (w_file w') (λ es', es' = es ∨ flush = Ok tt ∧ es' = []))).
Proof.
intros Hi Hg Hk Hnp. unfold rotate_locked.
destruct (new_segment_key_ok rng (w_kek w) (w_kek_id w) Hg Hk) as (dek & h & -> & Hh & Hu).
assert (Hsame : recovers (w_kek w) (w_kek_id w) (w_file w) (λ es', es' = es ∨ flush = Ok tt ∧ es' = [])).
{ apply (recovers_inv w es); auto. }
destruct flush as [[]|e|]; cbv beta iota; [|intros [= <- <-]; split_and!; eauto|done].
set (f := match fault with SyncFails => _ | _ => _ end). clearbody f.
destruct f as [| |n|]; intros [= <- <-]; split_and!; try done.
- left. split_and!; try done. split; simpl; try done. exists []. rewrite app_nil_r. split; [done|constructor].
- right. exists io_error. split; [done|]. simpl. exact Hsame.
- right. exists io_error. split; [done|]. simpl. apply recovers_header; eauto.
- right. exists io_error. split; [done|]. simpl. rewrite <-(take_ge (segment_header h) (length (segment_header h))) by done.
  apply recovers_header; eauto.
Qed.

(** The outcome of a group commit, faults and crashes included. *)
Lemma commit_batch_outcome rng pre_rotate flush rotate_fault fault batch w es r w' :
  wal_inv w es → Forall entry_fits batch → good_draw rng → zlen (w_kek_id w) = KEK_ID_SIZE →
  no_panic flush → no_panic (default (Ok tt) pre_rotate) →
  commit_batch rng pre_rotate flush rotate_fault fault (serialize <$> batch) w = (r, w') →
  let flushed := flush = Ok tt ∧ default (Ok tt) pre_rotate = Ok tt in
  w_kek w' = w_kek w ∧ w_kek_id w' = w_kek_id w ∧
  ((r = Ok tt ∧ w_fenced w' = w_fenced w ∧ (wal_inv w' (es ++ batch) ∨ flushed ∧ wal_inv w' batch)) ∨
   (∃ e, r = Err e ∧ w_fenced w' = true ∧
      recovers (w_kek w) (w_kek_id w) (w_file w')
        (λ es', (∃ j, es' = es ++ take j batch) ∨ flushed ∧ ∃ j, es' = take j batch))).
Proof.
intros Hi Hb Hg Hk Hnf Hnp Hc flushed. unfold commit_batch in Hc. cbv zeta in Hc.
set (step1 := if _ && _ then _ else _) in Hc. destruct step1 as [r1 w1] eqn:E1. subst step1.
assert (H1 : w_kek w1 = w_kek w ∧ w_kek_id w1 = w_kek_id w ∧
  ((r1 = Ok tt ∧ w_fenced w1 = w_fenced w ∧ (wal_inv w1 es ∨ flushed ∧ wal_inv w1 [])) ∨
   (∃ e, r1 = Err e ∧ recovers (w_kek w) (w_kek_id w) (w_file w1) (λ es', es' = es ∨ flushed ∧ es' = [])))).
{ destruct (_ && _).
  - destruct (default (Ok tt) pre_rotate) as [[]|e|] eqn:Ep; [| |done].
    + destruct (rotate_crash _ _ _ _ _ _ _ Hi Hg Hk Hnf E1) as (Hk1 & Hk2 & [(-> & Hfl & Hfe & Hi1)|(e & -> & Hre)]).
      * split; [done|]. split; [done|]. left. split; [done|]. split; [done|]. right. by unfold flushed.
      * split_and!; [done..|]. right. exists e. split; [done|]. intros rng' config w2 ops Hg' Ho.
        destruct (Hre rng' config w2 ops Hg' Ho) as (es2 & ? & ? & ? & ? & Hes). exists es2. split_and!; try done.
        destruct Hes as [?|[? ?]]; [by left|right]. by unfold flushed.
    + injection E1 as <- <-. split_and!; [done..|]. right. exists e. split; [done|]. apply (recovers_inv w es); auto.
  - injection E1 as <- <-. split_and!; [done..|]. left. auto. }
destruct H1 as (Hk1 & Hk2 & [(-> & Hfe & Hinv)|(e & -> & Hre)]).
2: { injection Hc as <- <-. split_and!; [done..|]. right. exists e. split_and!; [done..|].
     intros rng' config w2 ops Hg' Ho. destruct (Hre rng' config w2 ops Hg' Ho) as (es2 & ? & ? & ? & ? & Hes).
     exists es2. split_and!; try done.
     destruct Hes as [->|[? ->]]; [left; exists 0%nat; by rewrite app_nil_r|right; split; [done|by exists 0%nat]]. }
assert (H2 : ∃ kept, wal_inv w1 kept ∧ (kept = es ∨ flushed ∧ kept = [])).
{ destruct Hinv as [?|[? ?]]; eauto. }
destruct H2 as (kept & Hi1 & Hkept). clear E1 Hinv Hi.
destruct (batch_buffer_ok (w_dek w1) (w_counter w1) batch [] Hb) as (bs & Hbs & Hr).
cbn [set_counter w_dek] in Hc. rewrite Hbs, app_nil_l in Hc. pose proof Hi1 as [Hh Hu Hn (old & Hf & Hro)]. rewrite Hn in Hr.
assert (Hall : records (w_dek w1) 0 (old ++ bs) (kept ++ batch)) by (by eapply records_app).
assert (Hcut : ∀ n, recovers (w_kek w) (w_kek_id w) (w_file w1 ++ take n bs)
  (λ es', (∃ j, es' = es ++ take j batch) ∨ flushed ∧ ∃ j, es' = take j batch)).
{ intros n. rewrite Hf, <-app_assoc. apply (recovers_region _ _ _ (w_dek w1)); [done|done|congruence|]. intros s Hs.
  destruct (scan_cut _ _ _ _ _ _ _ Hro Hall Hs) as [j ->]. destruct Hkept as [->|[? ->]]; eauto. }
destruct fault as [|n|]; injection Hc as <- <-.
- split_and!; [done..|]. left. split_and!; [done..|].
  assert (Hw : wal_inv (set_file (w_file w1 ++ bs) (set_counter (w_counter w1 + zlen (serialize <$> batch)) w1)) (kept ++ batch)).
  { split; simpl; try done.
    - rewrite Hn, zlen_app. unfold zlen. by rewrite length_fmap.
    - exists (old ++ bs). by rewrite Hf, <-app_assoc. }
  destruct Hkept as [->|[? ->]]; [by left|by right].
- split_and!; [done..|]. right. exists io_error. split_and!; [done..|]. apply Hcut.
- split_and!; [done..|]. right. exists io_error. split_and!; [done..|]. cbn [engage_fence set_file w_file].
  rewrite <-(take_ge bs (length bs)) by done. apply Hcut.
Qed.

End crash.
