(* ===== verification/EngineFiles.v ===== *)
(** * The engine's SST files

What [storage/engine.rs] does with the files of its data directory: the reader list
([load_sst_readers]), the file of a flush, and the plan and the commit of a
compaction ([compact_ssts], [compact_partial]). The directory maps a file number to
the bytes of its [*.sst] file; a file appears and changes by a rename, so that the
directory never holds a partial one. *)
From stdpp Require Import base list gmap strings sorting lexico.
From Stdlib Require Import Strings.Byte ZArith Lia.
From S2P Require Import Prelude OrdMap StorageTypes WalCodec Memtable KeyMerge Paging Crypto WalSegment Bloom SstCodec.
From S2P Require Import SstWriter SstReader Merge Compaction EngineReads.

Open Scope Z_scope.

(** The system realm, whose key wraps the keys of the files. *)
Definition SYSTEM_REALM : RealmId := repeat x00 15 ++ [x01].

(** The key-encryption keys the registry has loaded; a key's id is the realm's UUID. *)
Abbreviation Keks := (gmap RealmId (list byte)).
Abbreviation Dir := (gmap Z (list byte)).

(** ** Recency: a higher number is newer *)

Definition newer {A} : relation (Z * A) := λ a b, b.1 <= a.1.

#[export] Instance newer_dec {A} : RelDecision (@newer A).
Proof. intros a b. unfold newer. apply _. Defined.

(** The files, newest first. *)
Definition newest_first {A} (m : gmap Z A) : list (Z * A) := merge_sort newer (map_to_list m).

Section files.
Context `{HA : Aead} `{HC : Crc32}.

Definition is_sst_magic (m : list byte) : bool :=
  existsb (λ magic, bool_decide (m = magic)) [SST_MAGIC; SST_MAGIC_V2; SST_MAGIC_V3; SST_MAGIC_V4].

Definition read_encryption_header (file : list byte) : res (list byte * EncryptionHeader) :=
  let data := take (Z.to_nat TOTAL_HEADER_SIZE) file in
  if zlen data <? TOTAL_HEADER_SIZE
  then Err (InvalidSstFormat ("file too small for header: " +:+ show (zlen data) +:+ " bytes"))
  else
    magic ← index_range 0 4 data;
    if negb (is_sst_magic magic) then Err (InvalidSstFormat "invalid magic bytes")
    else
      enc ← index_range BASE_HEADER_SIZE TOTAL_HEADER_SIZE data;
      enc_bytes ← try_into ENCRYPTION_HEADER_SIZE (InvalidSstFormat "truncated encryption header") enc;
      enc_header ← header_from_bytes enc_bytes;
      Ok (eh_kek_id enc_header, enc_header).

(** One file of the loop of [load_sst_readers]: [None] is the [continue] that skips
a file whose key is missing. *)
Definition open_listed (keks : Keks) (allow_missing_keks : bool) (num : Z) (file : list byte)
  : res (option SstReader) :=
  '(kek_id, enc_header) ← read_encryption_header file;
  match keks !! kek_id with
  | None =>
      if allow_missing_keks then Ok None
      else Err (Crypto "references a KEK that is not registered; refusing to rebuild the reader set")
  | Some kek =>
      match unwrap_dek enc_header kek with
      | Err _ => if allow_missing_keks then Ok None else Err (Crypto "DEK unwrapping failed")
      | Panic => Panic
      | Ok dek =>
          match SstReader.open_with_fs file num dek with
          | Ok reader => Ok (Some reader)
          | Err _ => Err (Crypto "failed to open reader")
          | Panic => Panic
          end
      end
  end.

Fixpoint load_listed (keks : Keks) (allow_missing_keks : bool) (unchanged : list SstReader)
    (paths : list (Z * list byte)) : res (list SstReader) :=
  match paths with
  | [] => Ok []
  | (num, file) :: rest =>
      found ← match List.find (λ r, sr_sst_number r =? num) unchanged with
              | Some open => Ok (Some open)
              | None => open_listed keks allow_missing_keks num file
              end;
      readers ← load_listed keks allow_missing_keks unchanged rest;
      Ok match found with Some r => r :: readers | None => readers end
  end.

(** [load_sst_readers]: a file with a reader in [unchanged] keeps it. *)
Definition load_sst_readers (keks : Keks) (dir : Dir) (allow_missing_keks : bool) (unchanged : list SstReader)
  : res (list SstReader) :=
  load_listed keks allow_missing_keks unchanged (newest_first dir).

(** The data key of a new file, wrapped by the system realm's key. *)
Definition new_sst_key (keks : Keks) (rng : Draw) : res (list byte * EncryptionHeader) :=
  system_kek ← ok_or (Crypto "system KEK not found") (keks !! SYSTEM_REALM);
  dek ← generate_dek (draw_dek rng);
  enc_header ← wrap_dek (draw_nonce rng) dek system_kek SYSTEM_REALM;
  Ok (dek, enc_header).

(** The file a flush writes of the parked map's entries. *)
Definition flush_file (keks : Keks) (rng : Draw) (sst_num : Z) (entries : list Entry) : res (list byte) :=
  '(dek, enc_header) ← new_sst_key keks rng;
  '(file, _) ← write_sst enc_header sst_num dek entries;
  Ok file.

(** ** Compaction *)

(** What a compaction decides before it merges: the inputs, oldest first, the
number of the output, the files to unlink, in the order of the unlink loop, and
whether the merge may drop the tombstones. *)
Record CompactPlan := MkPlan {
  cp_inputs : list SstReader;
  cp_target : Z;
  cp_unlinks : list Z;
  cp_drop : bool
}.

(** [compact_ssts]: every reader, into a new number; [None] below the minimum. *)
Definition plan_full (readers : list SstReader) (min_sst_count sst_num : Z) : option CompactPlan :=
  if zlen readers <? min_sst_count then None
  else Some (MkPlan (reverse readers) sst_num (reverse (sr_sst_number <$> readers)) true).

(** [compact_partial]: the chosen run, into the number of its oldest member. *)
Definition plan_partial (readers : list SstReader) (merge_min : Z) : option CompactPlan :=
  '(start, end_) ← select_partial_run readers (Z.max merge_min 2);
  let run := take (S end_ - start) (drop start readers) in
  target ← sr_sst_number <$> last run;
  Some (MkPlan (reverse run) target (reverse (sr_sst_number <$> take (length run - 1) run))
    (bool_decide (S end_ = length readers))).

Definition compact_file (keks : Keks) (rng : Draw) (p : CompactPlan) : res (list byte) :=
  '(dek, enc_header) ← new_sst_key keks rng;
  '(file, _) ← compact_with_fs_opts (cp_inputs p) (cp_target p) dek enc_header (cp_drop p);
  Ok file.

(** The directory after the rename and the first [i] unlinks: what a crash, or a
failed unlink, leaves. *)
Definition commit_state {A} (p : CompactPlan) (output : A) (i : nat) (dir : gmap Z A) : gmap Z A :=
  foldl (λ d n, base.delete n d) (<[cp_target p := output]> dir) (take i (cp_unlinks p)).

(** The reader list a compaction publishes. [compact_ssts] keeps the open readers;
[compact_partial] leaves out those of its run. *)
Definition publish_full (keks : Keks) (dir : Dir) (allow : bool) (open : list SstReader) : res (list SstReader) :=
  load_sst_readers keks dir allow open.

Definition publish_partial (keks : Keks) (dir : Dir) (allow : bool) (p : CompactPlan) (open : list SstReader)
  : res (list SstReader) :=
  load_sst_readers keks dir allow
    (filter (λ r, sr_sst_number r ≠ cp_target p ∧ sr_sst_number r ∉ cp_unlinks p) open).

End files.

(** ** What the files hold *)

Lemma newest_first_perm {A} (m : gmap Z A) : newest_first m ≡ₚ map_to_list m.
Proof. apply merge_sort_Permutation. Qed.

Lemma elem_of_newest_first {A} (m : gmap Z A) n x : (n, x) ∈ newest_first m ↔ m !! n = Some x.
Proof. rewrite newest_first_perm. apply elem_of_map_to_list. Qed.

Lemma newest_first_sorted {A} (m : gmap Z A) : StronglySorted (λ a b, b.1 < a.1) (newest_first m).
Proof.
assert (Hs : StronglySorted newer (newest_first m)).
{ apply StronglySorted_merge_sort; [|].
  - intros a b c Hab Hbc. unfold newer in *. lia.
  - intros a b. unfold newer. lia. }
assert (Hn : NoDup (newest_first m).*1).
{ rewrite newest_first_perm. apply NoDup_fst_map_to_list. }
induction Hs as [|a l Hs IH Hf]; [constructor|]. rewrite fmap_cons in Hn. apply NoDup_cons in Hn as [Hni Hn].
constructor; [auto|]. rewrite Forall_forall in Hf |- *. intros b Hb. specialize (Hf b Hb). unfold newer in Hf.
assert (a.1 ≠ b.1) by (intros E; apply Hni; rewrite E; by apply list_elem_of_fmap_2). lia.
Qed.

(** The value of a key in the newest file that holds it. *)
Definition files_get {V} (ck : CompositeKey) (files : gmap Z (list (CompositeKey * V))) : option V :=
  layers_get ck (newest_first files).*2.

(** [v] is what the newest of the files holds for the key. *)
Definition newest {V} (ck : CompositeKey) (files : gmap Z (list (CompositeKey * V))) (o : option V) : Prop :=
  match o with
  | None => ∀ n es, files !! n = Some es → bt_get ck es = None
  | Some v => ∃ n es, files !! n = Some es ∧ bt_get ck es = Some v ∧
      ∀ n' es', files !! n' = Some es' → n < n' → bt_get ck es' = None
  end.

Lemma newest_det {V} ck (files : gmap Z (list (CompositeKey * V))) o1 o2 :
  newest ck files o1 → newest ck files o2 → o1 = o2.
Proof.
destruct o1 as [v1|], o2 as [v2|]; simpl; [|intros (n & e & H & G & _) H'; by rewrite (H' _ _ H) in G
  |intros H' (n & e & H & G & _); by rewrite (H' _ _ H) in G|done].
intros (n1 & e1 & H1 & G1 & M1) (n2 & e2 & H2 & G2 & M2). destruct (Z.lt_trichotomy n1 n2) as [Hlt|[->|Hgt]].
- by rewrite (M1 _ _ H2 Hlt) in G2.
- congruence.
- by rewrite (M2 _ _ H1 Hgt) in G1.
Qed.

Lemma files_get_newest {V} ck (files : gmap Z (list (CompositeKey * V))) : newest ck files (files_get ck files).
Proof.
unfold files_get.
assert (Hgen : ∀ l, StronglySorted (λ a b : Z * list (CompositeKey * V), b.1 < a.1) l →
  match layers_get ck l.*2 with
  | None => ∀ n es, (n, es) ∈ l → bt_get ck es = None
  | Some v => ∃ n es, (n, es) ∈ l ∧ bt_get ck es = Some v ∧ ∀ n' es', (n', es') ∈ l → n < n' → bt_get ck es' = None
  end).
{ induction 1 as [|[n es] l Hs IH Hf]; [by intros n es ?%elem_of_nil|]. rewrite fmap_cons. cbn [layers_get snd].
  rewrite Forall_forall in Hf. destruct (bt_get ck es) as [v|] eqn:Eg.
  - exists n, es. split; [left|]. split; [done|]. intros n' es' [[= -> ->]|Hin]%elem_of_cons Hlt; [lia|].
    specialize (Hf _ Hin). simpl in Hf. lia.
  - destruct (layers_get ck l.*2) as [v|].
    + destruct IH as (n1 & es1 & Hin & Hg & Hm). exists n1, es1. split; [by right|]. split; [done|].
      intros n' es' [[= -> ->]|Hin']%elem_of_cons Hlt; [done|]. eauto.
    + intros n' es' [[= -> ->]|Hin']%elem_of_cons; eauto. }
specialize (Hgen _ (newest_first_sorted files)). unfold newest. destruct (layers_get ck (newest_first files).*2).
- destruct Hgen as (n & es & Hin & Hg & Hm). apply elem_of_newest_first in Hin. exists n, es. split_and!; [done..|].
  intros n' es' Hn'. apply Hm. by apply elem_of_newest_first.
- intros n es Hn. eapply Hgen. by apply elem_of_newest_first.
Qed.

Lemma files_get_eq {V} ck (files : gmap Z (list (CompositeKey * V))) o : newest ck files o → files_get ck files = o.
Proof. intros Hn. eapply newest_det; [apply files_get_newest|done]. Qed.

(** A file newer than every other one is in front of them. *)
Lemma files_get_insert_top {V} ck n es (files : gmap Z (list (CompositeKey * V))) :
  (∀ n' es', files !! n' = Some es' → n' < n) →
  files_get ck (<[n := es]> files) = match bt_get ck es with Some v => Some v | None => files_get ck files end.
Proof.
intros Htop. apply files_get_eq. destruct (bt_get ck es) as [v|] eqn:Eg.
- exists n, es. split; [by rewrite lookup_insert_eq|]. split; [done|]. intros n' es' Hn' Hlt.
  rewrite lookup_insert_ne in Hn' by lia. apply Htop in Hn'. lia.
- pose proof (files_get_newest ck files) as Hnew. destruct (files_get ck files) as [v|]; simpl in *.
  + destruct Hnew as (n1 & es1 & H1 & G1 & M1). exists n1, es1. pose proof (Htop _ _ H1).
    split; [by rewrite lookup_insert_ne by lia|]. split; [done|]. intros n' es' Hn' Hlt.
    destruct (decide (n' = n)) as [->|]; [rewrite lookup_insert_eq in Hn'; congruence|].
    rewrite lookup_insert_ne in Hn' by done. eauto.
  + intros n' es' Hn'. destruct (decide (n' = n)) as [->|]; [rewrite lookup_insert_eq in Hn'; congruence|].
    rewrite lookup_insert_ne in Hn' by done. eauto.
Qed.

(** ** A commit in progress does not change what is read

[run] is merged into [out] at number [t]; of the run, [left] is still on disk. *)
Section commit_view.
Context (files : gmap Z (list Entry)) (run left : Z → Prop) (t : Z) (out : list Entry) (drop : bool).
Context (files' : gmap Z (list Entry)).

Record committing : Prop := {
  cm_left : ∀ n, left n → run n ∧ n ≠ t;
  (** The unlinks go from the oldest file up. *)
  cm_upward : ∀ n m, left n → run m → n < m → left m;
  (** The run and its output are a band no other file is in; a merge that drops
  tombstones has nothing below it. *)
  cm_band n es : files !! n = Some es → ¬ run n →
    (drop = false ∧ n < t ∧ ∀ m, run m → n < m) ∨ (t < n ∧ ∀ m, run m → m < n);
  cm_target : files' !! t = Some out;
  cm_kept n : n ≠ t → ¬ run n → files' !! n = files !! n;
  cm_remains n : left n → files' !! n = files !! n;
  cm_gone n : n ≠ t → run n → ¬ left n → files' !! n = None
}.

Hypothesis Hc : committing.
Context `{!∀ n, Decision (run n)} `{!∀ n, Decision (left n)}.

Lemma committing_lookup n es : n ≠ t → files' !! n = Some es → files !! n = Some es ∧ (run n → left n).
Proof.
intros Hn Hl. destruct (decide (run n)) as [Hr|Hr]; [|by rewrite (cm_kept Hc) in Hl].
destruct (decide (left n)) as [Hle|Hle]; [by rewrite (cm_remains Hc) in Hl|].
by rewrite (cm_gone Hc) in Hl.
Qed.

Lemma commit_view ck :
  bt_get ck out = compacted drop (files_get ck (filter (λ p, run p.1) files)) →
  live_value (files_get ck files') = live_value (files_get ck files).
Proof.
intros Hout. pose proof (files_get_newest ck files) as Hf. destruct (files_get ck files) as [v|] eqn:EF.
- destruct Hf as (n & es & Hn & Hg & Hm).
  assert (Hother : ∀ n' es', n' ≠ t → files' !! n' = Some es' → n < n' → bt_get ck es' = None).
  { intros n' es' Hne Hl Hlt. apply committing_lookup in Hl as [Hl _]; [|done]. eauto. }
  destruct (decide (run n)) as [Hr|Hr].
  + assert (Ho : files_get ck (filter (λ p, run p.1) files) = Some v).
    { apply files_get_eq. exists n, es. split; [by apply map_lookup_filter_Some|]. split; [done|].
      intros n' es' [Hl _]%map_lookup_filter_Some. eauto. }
    rewrite Ho in Hout. destruct (decide (left n)) as [Hle|Hle].
    * f_equal. apply files_get_eq. pose proof (cm_remains Hc n Hle) as Hrem. destruct (cm_left Hc n Hle) as [_ Hnt].
      destruct (bt_get ck out) as [v'|] eqn:Eo, (decide (n < t)); simpl.
      -- exists t, out. split; [apply (cm_target Hc)|]. split; [|intros n' es' Hl Hlt; apply (Hother n'); [lia|done|lia]].
         rewrite Eo. destruct v as [d|]; simpl in Hout; [done|]. by destruct drop.
      -- exists n, es. split; [congruence|]. split; [done|]. intros n' es' Hl Hlt. apply (Hother n'); [lia|done|lia].
      -- exists n, es. split; [congruence|]. split; [done|]. intros n' es' Hl Hlt.
         destruct (decide (n' = t)) as [->|]; [rewrite (cm_target Hc) in Hl; congruence|eauto].
      -- exists n, es. split; [congruence|]. split; [done|]. intros n' es' Hl Hlt. apply (Hother n'); [lia|done|lia].
    * assert (Hnone : ∀ n' es', n' ≠ t → files' !! n' = Some es' → bt_get ck es' = None ∨ drop = false ∧ n' < t).
      { intros n' es' Hne Hl. destruct (committing_lookup _ _ Hne Hl) as [Hl' Hrl].
        destruct (decide (run n')) as [Hr'|Hr'].
        - left. destruct (Z.lt_trichotomy n' n) as [Hlt|[->|Hlt]]; [|by destruct Hle; auto|eauto].
          destruct Hle. apply (cm_upward Hc n'); auto.
        - destruct (cm_band Hc _ _ Hl' Hr') as [(Hd & Hlt & _)|[_ Hab]]; [by right|left; eauto]. }
      destruct (bt_get ck out) as [v'|] eqn:Eo.
      -- f_equal. apply files_get_eq. exists t, out. split; [apply (cm_target Hc)|]. split.
         { rewrite Eo. destruct v as [d|]; simpl in Hout; [done|]. by destruct drop. }
         intros n' es' Hl Hlt. destruct (Hnone n' es') as [|[_ ?]]; [lia|done|done|lia].
      -- destruct v as [d|]; simpl in Hout; [done|]. destruct drop eqn:Ed; [|done].
         rewrite (files_get_eq ck files' None); [done|]. intros n' es' Hl.
         destruct (decide (n' = t)) as [->|Hne]; [rewrite (cm_target Hc) in Hl; congruence|].
         destruct (Hnone n' es' Hne Hl) as [|[? _]]; done.
  + assert (Hnt : n ≠ t) by (destruct (cm_band Hc _ _ Hn Hr) as [(_ & ? & _)|[? _]]; lia).
    f_equal. apply files_get_eq. exists n, es. split; [by rewrite (cm_kept Hc)|]. split; [done|].
    intros n' es' Hl Hlt. destruct (decide (n' = t)) as [->|]; [|eauto].
    rewrite (cm_target Hc) in Hl. injection Hl as <-. rewrite Hout.
    destruct (cm_band Hc _ _ Hn Hr) as [(_ & _ & Hb)|[? _]]; [|lia].
    rewrite (files_get_eq ck _ None); [done|]. intros m em [Hl Hrm]%map_lookup_filter_Some. eauto.
- rewrite (files_get_eq ck files' None); [done|]. intros n es Hl. destruct (decide (n = t)) as [->|Hne].
  + rewrite (cm_target Hc) in Hl. injection Hl as <-. rewrite Hout, (files_get_eq ck _ None); [done|].
    intros m em [Hm _]%map_lookup_filter_Some. eauto.
  + apply committing_lookup in Hl as [Hl _]; eauto.
Qed.

End commit_view.

(** ** The files hold their entries *)

Lemma newest_first_keys {A} (m : gmap Z A) : StronglySorted (λ a b, b < a) (newest_first m).*1.
Proof.
induction (newest_first_sorted m) as [|a l Hs IH Hf]; [constructor|]. rewrite fmap_cons. constructor; [done|].
by apply Forall_fmap.
Qed.

Lemma elem_of_newest_first_keys {A} (m : gmap Z A) n : n ∈ (newest_first m).*1 ↔ is_Some (m !! n).
Proof.
rewrite list_elem_of_fmap. split.
- intros ([n' x] & -> & Hin). apply elem_of_newest_first in Hin. eauto.
- intros [x Hx]. exists (n, x). split; [done|]. by apply elem_of_newest_first.
Qed.

Lemma newest_first_keys_nodup {A} (m : gmap Z A) : NoDup (newest_first m).*1.
Proof. rewrite newest_first_perm. apply NoDup_fst_map_to_list. Qed.

Lemma newest_first_Forall2 {A B} (P : Z → A → B → Prop) (m1 : gmap Z A) (m2 : gmap Z B) :
  map_Forall2 P m1 m2 → Forall2 (λ a b, a.1 = b.1 ∧ P a.1 a.2 b.2) (newest_first m1) (newest_first m2).
Proof.
intros Hm.
assert (Hk : (newest_first m1).*1 = (newest_first m2).*1).
{ apply (StronglySorted_unique (λ a b : Z, b < a) (AntiSymm0 := ltac:(intros a b; lia))); [apply newest_first_keys..|].
  apply NoDup_Permutation; [apply newest_first_keys_nodup..|]. intros n. rewrite !elem_of_newest_first_keys.
  destruct (Hm n); split; intros [? ?]; by eauto. }
apply Forall2_same_length_lookup_2.
- by rewrite <-(length_fmap fst (newest_first m1)), Hk, length_fmap.
- intros i [n a] [n' b] Ha Hb. simpl.
  assert (n = n') as <-.
  { apply (f_equal (.!! i)) in Hk. rewrite !list_lookup_fmap, Ha, Hb in Hk. by injection Hk. }
  split; [done|]. apply list_elem_of_lookup_2, elem_of_newest_first in Ha, Hb. specialize (Hm n).
  rewrite Ha, Hb in Hm. by inversion Hm.
Qed.

Section holds.
Context `{HA : Aead} `{HC : Crc32} `{HAL : !AeadLaws} `{HCL : !Crc32Laws}.

(** A file the writer made of [es] under number [n], with a registered key. *)
Definition file_holds (keks : Keks) (n : Z) (file : list byte) (es : list Entry) : Prop :=
  bt_sorted es ∧ Forall entry_wf es ∧ zlen file <= u64_max ∧
  ∃ hdr dek kek meta, header_wf hdr ∧ write_sst hdr n dek es = Ok (file, meta) ∧
    keks !! eh_kek_id hdr = Some kek ∧ unwrap_dek hdr kek = Ok dek.

Definition dir_holds (keks : Keks) (dir : Dir) (files : gmap Z (list Entry)) : Prop :=
  map_Forall2 (file_holds keks) dir files.

Definition opened_at (n : Z) (r : SstReader) (es : list Entry) : Prop := opened r es ∧ sr_sst_number r = n.

(** The readers, newest first, are those of the files. *)
Definition readers_hold (readers : list SstReader) (files : gmap Z (list Entry)) : Prop :=
  Forall2 (λ r p, opened_at p.1 r p.2) readers (newest_first files).

Lemma dir_holds_empty keks : dir_holds keks ∅ ∅.
Proof. intros n. rewrite !lookup_empty. constructor. Qed.

Lemma dir_holds_insert keks n file es dir files :
  file_holds keks n file es → dir_holds keks dir files → dir_holds keks (<[n := file]> dir) (<[n := es]> files).
Proof.
intros Hf Hd m. destruct (decide (m = n)) as [->|]; [rewrite !lookup_insert_eq; by constructor|].
rewrite !lookup_insert_ne by done. apply Hd.
Qed.

Lemma read_header_ok hdr n dek es file meta :
  header_wf hdr → Forall entry_wf es → write_sst hdr n dek es = Ok (file, meta) → zlen file <= u64_max →
  read_encryption_header file = Ok (eh_kek_id hdr, hdr).
Proof.
intros Hh Hwf Hw Hl. destruct (write_sst_layout _ _ _ _ _ _ Hh Hwf Hw Hl) as (ps & body & fct & Hlay).
destruct (sl_body _ _ _ _ _ _ _ _ Hlay) as (count & mid & Hbody). pose proof (header_to_bytes_len hdr Hh) as Hhl.
assert (Hpre : take (Z.to_nat TOTAL_HEADER_SIZE) file =
  (SST_MAGIC_V4 ++ to_le 4 count ++ to_le 4 (crc32 fct)) ++ header_to_bytes hdr).
{ rewrite (sl_file _ _ _ _ _ _ _ _ Hlay), Hbody, (app_assoc _ (header_to_bytes hdr)), <-(app_assoc _ mid).
  apply take_app_length'. unfold zlen, TOTAL_HEADER_SIZE in *. rewrite !length_app, !length_to_le. simpl.
  change BASE_HEADER_SIZE with 12. change ENCRYPTION_HEADER_SIZE with 76 in *. lia. }
unfold read_encryption_header. rewrite Hpre.
assert (Hz : zlen ((SST_MAGIC_V4 ++ to_le 4 count ++ to_le 4 (crc32 fct)) ++ header_to_bytes hdr) = TOTAL_HEADER_SIZE).
{ autorewrite with zlen. rewrite Hhl. done. }
rewrite Hz, Z.ltb_irrefl. unfold index_range.
rewrite <-!app_assoc, (slice_head 4 SST_MAGIC_V4) by done. cbn [mbind outcome_bind ok_or].
replace (is_sst_magic SST_MAGIC_V4) with true by done. cbn [negb].
replace (slice BASE_HEADER_SIZE TOTAL_HEADER_SIZE _) with (Some (header_to_bytes hdr)).
- cbn [mbind outcome_bind ok_or]. unfold try_into. rewrite Hhl, Z.eqb_refl. cbn [mbind outcome_bind].
  by rewrite header_roundtrip.
- symmetry. rewrite !app_assoc. change BASE_HEADER_SIZE with 12. change TOTAL_HEADER_SIZE with 88.
  rewrite slice_skip by (autorewrite with zlen; done). autorewrite with zlen. change (zlen SST_MAGIC_V4) with 4. simpl.
  rewrite <-(app_nil_r (header_to_bytes hdr)) at 1. by apply slice_head.
Qed.

Lemma open_listed_ok keks allow n file es :
  file_holds keks n file es → ∃ r, open_listed keks allow n file = Ok (Some r) ∧ opened_at n r es.
Proof.
intros (Hs & Hwf & Hl & hdr & dek & kek & meta & Hh & Hw & Hk & Hu).
unfold open_listed. rewrite (read_header_ok _ _ _ _ _ _ Hh Hwf Hw Hl). cbn [mbind outcome_bind]. rewrite Hk, Hu.
destruct (written_reader _ _ _ _ _ _ Hh Hwf Hw Hl) as (ps & body & fct & r & _ & Ho & count & Hr).
rewrite Ho. exists r. split; [done|]. split; [|by rewrite Hr]. split_and!; [done..|]. eauto 10.
Qed.

Lemma load_listed_ok keks dir files allow unchanged :
  dir_holds keks dir files → (∀ r es, r ∈ unchanged → files !! sr_sst_number r = Some es → opened r es) →
  ∃ readers, load_sst_readers keks dir allow unchanged = Ok readers ∧ readers_hold readers files.
Proof.
intros Hd Hu. unfold load_sst_readers, readers_hold.
assert (Hin : ∀ n es, (n, es) ∈ newest_first files → files !! n = Some es) by (intros n es; by rewrite elem_of_newest_first).
induction (newest_first_Forall2 _ _ _ Hd) as [|[n file] [n' es] l1 l2 [E Hf] _ IH]; [by exists []|].
simpl in E, Hf. subst n'. cbn [load_listed].
destruct IH as (readers & Hl & Hr); [intros m em Hm; apply Hin; by right|].
assert (Hone : ∃ r, match List.find (λ r, sr_sst_number r =? n) unchanged with
                    | Some open => Ok (Some open)
                    | None => open_listed keks allow n file
                    end = Ok (Some r) ∧ opened_at n r es).
{ destruct (List.find _ unchanged) as [r|] eqn:Ef; [|by apply open_listed_ok].
  apply List.find_some in Ef as [Hru Hn]. apply Z.eqb_eq in Hn. exists r. split; [done|]. split; [|done].
  apply Hu; [by apply list_elem_of_In|]. rewrite Hn. apply Hin. left. }
destruct Hone as (r & -> & Hro). cbn [mbind outcome_bind]. rewrite Hl. cbn [mbind outcome_bind].
exists (r :: readers). split; [done|]. by constructor.
Qed.

Lemma new_sst_key_ok keks rng kek :
  keks !! SYSTEM_REALM = Some kek → good_draw rng →
  ∃ dek hdr, new_sst_key keks rng = Ok (dek, hdr) ∧ header_wf hdr ∧ unwrap_dek hdr kek = Ok dek ∧
    eh_kek_id hdr = SYSTEM_REALM.
Proof.
intros Hk Hg. destruct (new_segment_key_ok rng kek SYSTEM_REALM Hg eq_refl) as (dek & hdr & Hn & Hh & Hu).
exists dek, hdr. unfold new_sst_key. rewrite Hk. cbn [ok_or mbind outcome_bind]. fold (new_segment_key rng kek SYSTEM_REALM).
split_and!; try done. unfold new_segment_key in Hn. bind_inv Hn d Hd. bind_inv Hn h Hw. injection Hn as <- <-.
unfold wrap_dek in Hw. bind_inv Hw a Ha. bind_inv Hw b Hb. bind_inv Hw c Hc'. by injection Hw as <-.
Qed.

Lemma flush_file_holds keks rng n es file :
  is_Some (keks !! SYSTEM_REALM) → good_draw rng → bt_sorted es → Forall entry_wf es →
  flush_file keks rng n es = Ok file → zlen file <= u64_max → file_holds keks n file es.
Proof.
intros [kek Hk] Hg Hs Hwf Hf Hl. unfold flush_file in Hf.
destruct (new_sst_key_ok keks rng kek Hk Hg) as (dek & hdr & Hn & Hh & Hu & Hid). rewrite Hn in Hf.
cbn [mbind outcome_bind] in Hf. bind_inv Hf fm Hw. destruct fm as [file' meta]. injection Hf as ->.
split_and!; [done..|]. exists hdr, dek, kek, meta. split_and!; try done. by rewrite Hid.
Qed.

(** *** Plans *)

(** The plan merges the files [l], which are next to each other in the list; its
output sorts among them. *)
Record plan_fits (p : CompactPlan) (above l below : list (Z * list Entry)) : Prop := {
  pf_inputs : Forall2 (λ r q, opened_at q.1 r q.2) (reverse (cp_inputs p)) l;
  pf_drop : cp_drop p = true → below = [];
  pf_above : Forall (λ q, cp_target p < q.1) above;
  pf_below : Forall (λ q, q.1 < cp_target p) below;
  pf_unlinks : cp_unlinks p = reverse (filter (λ n, n ≠ cp_target p) l.*1);
  pf_oldest : cp_target p ∈ l.*1 → Forall (λ q, cp_target p <= q.1) l
}.

(** The entries of the output. *)
Definition plan_output (p : CompactPlan) (l : list (Z * list Entry)) : list Entry :=
  kept (cp_drop p) (merge_layers l.*2).

Lemma fits_opened p above l below : plan_fits p above l below → Forall2 opened (cp_inputs p) (reverse l.*2).
Proof.
intros Hp. pose proof (pf_inputs _ _ _ _ Hp) as Hi. apply Forall2_reverse in Hi. rewrite reverse_involutive in Hi.
rewrite <-fmap_reverse. apply Forall2_fmap_r. eapply Forall2_impl; [exact Hi|]. by intros r q [Hr _].
Qed.

Lemma compact_file_holds keks rng p above l below file :
  is_Some (keks !! SYSTEM_REALM) → good_draw rng → plan_fits p above l below →
  compact_file keks rng p = Ok file → zlen file <= u64_max → file_holds keks (cp_target p) file (plan_output p l).
Proof.
intros [kek Hk] Hg Hp Hf Hl. pose proof (fits_opened _ _ _ _ Hp) as Hop. pose proof (opened_readers _ _ Hop) as [Hro Hwf].
unfold compact_file in Hf.
destruct (new_sst_key_ok keks rng kek Hk Hg) as (dek & hdr & Hn & Hh & Hu & Hid). rewrite Hn in Hf.
cbn [mbind outcome_bind] in Hf. bind_inv Hf fm Hw. destruct fm as [file' meta]. injection Hf as ->.
rewrite (compact_ok _ _ _ _ _ _ Hro) in Hw.
assert (He : kept (cp_drop p) (merged (reverse l.*2)) = plan_output p l).
{ unfold merged, plan_output. by rewrite reverse_involutive. }
split_and!; [by apply kept_sorted, merge_layers_sorted| |done|].
- rewrite <-He. by apply kept_wf, merged_wf.
- exists hdr, dek, kek, meta. rewrite <-He. split_and!; try done. by rewrite Hid.
Qed.

Lemma commit_state_lookup {A} p (out : A) i dir n :
  commit_state p out i dir !! n = if decide (n ∈ take i (cp_unlinks p)) then None else <[cp_target p := out]> dir !! n.
Proof.
unfold commit_state. generalize (take i (cp_unlinks p)) as ns. generalize (<[cp_target p := out]> dir) as d.
intros d ns. revert d. induction ns as [|m ns IH]; intros d; [by rewrite decide_False by apply not_elem_of_nil|].
cbn [foldl]. rewrite IH. destruct (decide (n = m)) as [->|Hne].
- rewrite lookup_delete_eq, (decide_True (P := m ∈ m :: ns)) by left. by destruct (decide _).
- rewrite lookup_delete_ne by done. destruct (decide (n ∈ ns)); [rewrite decide_True by (by right); done|].
  rewrite decide_False; [done|]. intros [?|?]%elem_of_cons; done.
Qed.

Lemma commit_state_holds keks p out es i dir files :
  file_holds keks (cp_target p) out es → dir_holds keks dir files →
  dir_holds keks (commit_state p out i dir) (commit_state p es i files).
Proof.
intros Ho Hd n. rewrite !commit_state_lookup. destruct (decide _); [constructor|].
destruct (decide (n = cp_target p)) as [->|]; [rewrite !lookup_insert_eq; by constructor|].
rewrite !lookup_insert_ne by done. apply Hd.
Qed.

Lemma elem_of_take_1 {A} (x : A) i u : x ∈ take i u → x ∈ u.
Proof. intros Hx. rewrite <-(take_drop i u). apply elem_of_app. by left. Qed.

Lemma sorted_take_closed (u : list Z) i n m :
  StronglySorted Z.lt u → m ∈ take i u → n ∈ u → n < m → n ∈ take i u.
Proof.
revert i. induction u as [|a u IH]; intros i Hs Hm Hn Hlt; [by destruct i|]. destruct i as [|i]; [by apply elem_of_nil in Hm|].
simpl in *. apply StronglySorted_cons in Hs as [Hf Hs]. rewrite elem_of_cons in Hn, Hm |- *.
destruct Hn as [->|Hn]; [by left|]. right. destruct Hm as [->|Hm]; [|eauto].
rewrite Forall_forall in Hf. specialize (Hf _ Hn). lia.
Qed.

Lemma newest_first_unique {A} (m : gmap Z A) l :
  StronglySorted (λ a b, b.1 < a.1) l → (∀ n x, (n, x) ∈ l ↔ m !! n = Some x) → newest_first m = l.
Proof.
intros Hs Hin. apply (StronglySorted_unique (λ a b : Z * A, b.1 < a.1) (AntiSymm0 := ltac:(intros a b ? ?; lia)));
  [apply newest_first_sorted|done|].
assert (Hn : ∀ l' : list (Z * A), StronglySorted (λ a b, b.1 < a.1) l' → NoDup l').
{ induction 1 as [|a l' _ IH Hf]; [constructor|]. constructor; [|done]. intros Ha.
  rewrite Forall_forall in Hf. specialize (Hf _ Ha). lia. }
apply NoDup_Permutation; [apply Hn, newest_first_sorted|by apply Hn|]. intros [n x]. by rewrite elem_of_newest_first, Hin.
Qed.

Section fits.
Context (p : CompactPlan) (files : gmap Z (list Entry)) (above l below : list (Z * list Entry)).
Context (Hp : plan_fits p above l below) (Hl : newest_first files = above ++ l ++ below).

Let run (n : Z) : Prop := n ∈ l.*1.
Let left (i : nat) (n : Z) : Prop := n ∈ l.*1 ∧ n ≠ cp_target p ∧ n ∉ take i (cp_unlinks p).

Lemma unlinks_sorted : StronglySorted Z.lt (cp_unlinks p).
Proof.
rewrite (pf_unlinks _ _ _ _ Hp). pose proof (newest_first_keys files) as Hs. rewrite Hl, !fmap_app in Hs.
apply StronglySorted_app in Hs as (_ & _ & Hs). apply StronglySorted_app in Hs as (_ & Hs & _).
induction Hs as [|a k Hs IH Hf]; [constructor|]. rewrite filter_cons. destruct (decide _); [|done].
rewrite reverse_cons. apply StronglySorted_app. split_and!; [|done|repeat constructor].
intros x y Hx Hy. apply list_elem_of_singleton in Hy as ->. rewrite elem_of_reverse in Hx.
apply list_elem_of_filter in Hx as [_ Hx]. rewrite Forall_forall in Hf. by apply Hf.
Qed.

Lemma elem_of_unlinks n : n ∈ cp_unlinks p ↔ n ∈ l.*1 ∧ n ≠ cp_target p.
Proof. rewrite (pf_unlinks _ _ _ _ Hp), elem_of_reverse, list_elem_of_filter. tauto. Qed.

Lemma fits_lookup n es : files !! n = Some es → (n, es) ∈ above ∨ (n, es) ∈ l ∨ (n, es) ∈ below.
Proof. rewrite <-elem_of_newest_first, Hl, !elem_of_app. tauto. Qed.

Lemma fits_committing i out :
  committing files run (left i) (cp_target p) out (cp_drop p) (commit_state p out i files).
Proof.
pose proof (newest_first_keys files) as Hs. rewrite Hl, !fmap_app in Hs.
apply StronglySorted_app in Hs as (Hal & _ & Hs). apply StronglySorted_app in Hs as (Hlb & _ & _).
split.
- intros n (Hn & Hne & _). done.
- intros n m (Hn & Hne & Hni) Hm Hlt. split_and!; [done| |].
  + intros ->. pose proof (pf_oldest _ _ _ _ Hp Hm) as Hf. rewrite Forall_forall in Hf.
    apply list_elem_of_fmap in Hn as (q & -> & Hq). specialize (Hf _ Hq). simpl in *. lia.
  + intros Hmi. apply Hni. eapply sorted_take_closed; [apply unlinks_sorted|done|by apply elem_of_unlinks|done].
- intros n es Hn Hr. apply fits_lookup in Hn as [Hn|[Hn|Hn]].
  + right. split; [by apply (proj1 (Forall_forall _ _) (pf_above _ _ _ _ Hp) _ Hn)|]. intros m Hm.
    apply Hal; [by apply (list_elem_of_fmap_2 fst _ _ Hn)|]. apply elem_of_app. by left.
  + destruct Hr. by apply (list_elem_of_fmap_2 fst _ _ Hn).
  + left. split; [|split].
    * destruct (cp_drop p) eqn:Ed; [|done]. rewrite (pf_drop _ _ _ _ Hp Ed) in Hn. by apply elem_of_nil in Hn.
    * by apply (proj1 (Forall_forall _ _) (pf_below _ _ _ _ Hp) _ Hn).
    * intros m Hm. apply Hlb; [done|]. by apply (list_elem_of_fmap_2 fst _ _ Hn).
- rewrite commit_state_lookup, decide_False, lookup_insert_eq; [done|]. intros Hin.
  assert (cp_target p ∈ cp_unlinks p) as [_ ?]%elem_of_unlinks; [|done].
  by eapply elem_of_take_1.
- intros n Hne Hr. rewrite commit_state_lookup, decide_False, lookup_insert_ne; [done|done|]. intros Hin. apply Hr.
  eapply elem_of_unlinks. by eapply elem_of_take_1.
- intros n (Hn & Hne & Hni). by rewrite commit_state_lookup, decide_False, lookup_insert_ne.
- intros n Hne Hr Hnl. rewrite commit_state_lookup, decide_True; [done|]. apply dec_stable. intros Hni. by apply Hnl.
Qed.

Lemma fits_sorted : Forall bt_sorted l.*2.
Proof.
apply Forall_fmap, Forall_forall. intros q Hq. apply list_elem_of_lookup in Hq as [i Hi].
destruct (Forall2_lookup_r _ _ _ _ _ (pf_inputs _ _ _ _ Hp) Hi) as (r & _ & (Hs & _) & _). exact Hs.
Qed.

(** However far the commit came, every key reads as before it. *)
Lemma fits_view i ck :
  live_value (files_get ck (commit_state p (plan_output p l) i files)) = live_value (files_get ck files).
Proof.
assert (∀ n, Decision (run n)) by (intros n; unfold run; apply _).
assert (∀ n, Decision (left i n)) by (intros n; unfold left; apply _).
apply (commit_view files run (left i) _ _ _ _ (fits_committing i _)).
unfold plan_output. rewrite kept_get, merge_layers_get; [|apply fits_sorted|apply merge_layers_sorted].
f_equal. unfold files_get. do 2 f_equal. symmetry. apply newest_first_unique.
- pose proof (newest_first_sorted files) as Hs. rewrite Hl in Hs.
  by apply StronglySorted_app_1_r, StronglySorted_app_1_l in Hs.
- intros n es. rewrite map_lookup_filter_Some. simpl. split.
  + intros Hn. split; [|by apply (list_elem_of_fmap_2 fst _ _ Hn)]. apply elem_of_newest_first. rewrite Hl, !elem_of_app. auto.
  + intros [Hf Hr]. apply list_elem_of_fmap in Hr as ([n' es'] & -> & Hq). simpl in *.
    assert (files !! n' = Some es') as E; [|by rewrite E in Hf; injection Hf as <-].
    apply elem_of_newest_first. rewrite Hl, !elem_of_app. auto.
Qed.

End fits.

Lemma readers_numbers readers files : readers_hold readers files → sr_sst_number <$> readers = (newest_first files).*1.
Proof. unfold readers_hold. induction 1 as [|r q rs l [_ Hn] _ IH]; [done|]. by rewrite !fmap_cons, IH, Hn. Qed.

Lemma plan_full_fits readers files min n p :
  readers_hold readers files → (∀ m es, files !! m = Some es → m < n) → plan_full readers min n = Some p →
  plan_fits p [] (newest_first files) [] ∧ cp_target p = n.
Proof.
intros Hr Hn Hp. unfold plan_full in Hp. destruct (_ <? _); [done|]. injection Hp as <-.
assert (Hk : ∀ m, m ∈ (newest_first files).*1 → m < n) by (intros m [es Hm]%elem_of_newest_first_keys; eauto).
split; [|done]. split; simpl; try done.
- by rewrite reverse_involutive.
- f_equal. rewrite (readers_numbers _ _ Hr). symmetry. apply filter_all. intros m Hm. apply Hk in Hm. lia.
- intros Hin. apply Hk in Hin. lia.
Qed.

Lemma plan_partial_fits readers files mm p :
  readers_hold readers files → plan_partial readers mm = Some p →
  ∃ above l below, newest_first files = above ++ l ++ below ∧ plan_fits p above l below ∧ cp_target p ∈ l.*1.
Proof.
intros Hr Hp. unfold plan_partial in Hp. destruct (select_partial_run readers (Z.max mm 2)) as [[a b]|] eqn:Es; [|done].
cbn [mbind option_bind] in Hp. apply select_from_spec in Es as (Hab & Hb & _). rewrite length_fmap in Hb.
assert (Hlen : length readers = length (newest_first files)) by (by eapply Forall2_length).
set (nf := newest_first files) in *. set (l := take (S b - a) (drop a nf)).
assert (Hnf : nf = take a nf ++ l ++ drop (S b) nf).
{ unfold l. rewrite <-(take_drop a nf) at 1. f_equal. rewrite <-(take_drop (S b - a) (drop a nf)) at 1. f_equal.
  rewrite drop_drop. f_equal. lia. }
assert (Hrun : Forall2 (λ r q, opened_at q.1 r q.2) (take (S b - a) (drop a readers)) l).
{ apply Forall2_take, Forall2_drop, Hr. }
pose proof (newest_first_keys files) as Hs. fold nf in Hs. rewrite Hnf, !fmap_app in Hs.
apply StronglySorted_app in Hs as (Hal & _ & Hs). apply StronglySorted_app in Hs as (Hlb & Hsl & _).
set (run := take (S b - a) (drop a readers)) in *.
assert (Hnum : sr_sst_number <$> run = l.*1).
{ clear -Hrun. induction Hrun as [|r q rs l' [_ Hn] _ IH]; [done|]. by rewrite !fmap_cons, IH, Hn. }
destruct (last run) as [r|] eqn:Elast; [|done]. injection Hp as <-.
assert (Hlast : last l.*1 = Some (sr_sst_number r)) by (by rewrite <-Hnum, fmap_last, Elast).
apply last_Some in Hlast as [ks Hks].
exists (take a nf), l, (drop (S b) nf). split; [done|]. simpl.
assert (Hin : sr_sst_number r ∈ l.*1) by (rewrite Hks; apply elem_of_app; right; left).
split; [|done]. split; cbn [cp_inputs cp_target cp_unlinks cp_drop].
- by rewrite reverse_involutive.
- intros Hd%bool_decide_eq_true. apply drop_ge. lia.
- apply Forall_forall. intros q Hq. apply Hal; [by apply list_elem_of_fmap_2|]. apply elem_of_app. by left.
- apply Forall_forall. intros q Hq. apply Hlb; [done|]. by apply list_elem_of_fmap_2.
- f_equal. rewrite fmap_take, Hnum. replace (length run) with (length l.*1) by (by rewrite <-Hnum, length_fmap).
  rewrite Hks in Hsl |- *. rewrite length_app. simpl. rewrite take_app_length' by lia.
  apply StronglySorted_app in Hsl as (Hlt & _ & _). rewrite filter_app, (filter_none _ [sr_sst_number r]), app_nil_r; [|by intros x ->%list_elem_of_singleton; intros []].
  symmetry. apply filter_all. intros n Hn. specialize (Hlt n (sr_sst_number r) Hn ltac:(left)). lia.
- intros _. rewrite Hks in Hsl. apply StronglySorted_app in Hsl as (Hlt & _ & _). apply Forall_forall. intros q Hq.
  assert (Hqk : q.1 ∈ l.*1) by (by apply list_elem_of_fmap_2). rewrite Hks in Hqk.
  apply elem_of_app in Hqk as [Hq1|Hq1%list_elem_of_singleton]; [|lia].
  specialize (Hlt q.1 (sr_sst_number r) Hq1 ltac:(left)). lia.
Qed.

Lemma readers_layers readers files : readers_hold readers files → Forall2 reader_of readers (newest_first files).*2.
Proof.
intros Hr. apply Forall2_fmap_r. eapply Forall2_impl; [exact Hr|]. intros r q [Ho _]. by apply opened_reader in Ho as [? _].
Qed.

Lemma empty_cache_of r : cache_of r (λ _, None).
Proof. unfold cache_of. destruct (sr_body r); [done|apply rc_empty]. Qed.

Lemma probe_files readers files r key cached :
  readers_hold readers files →
  probe_readers (λ _ _, None) readers r key cached = Ok (live_value (files_get (CKey r key) files)).
Proof.
intros Hr. apply probe_readers_ok; [by apply readers_layers|]. intros rd _. apply empty_cache_of.
Qed.

(** C2: a compaction's commit is crash-safe at every point. A full or a partial
compaction renames its output into place and then unlinks its inputs one by one;
however many unlinks a crash leaves done, the directory opens, and every key of
every realm reads as it did before the compaction. So no unlink order the code uses
brings a deleted key back. *)
Theorem compaction_crash_safe keks rng allow dir files readers p out i :
  is_Some (keks !! SYSTEM_REALM) → good_draw rng → dir_holds keks dir files → readers_hold readers files →
  (∃ min n, plan_full readers min n = Some p ∧ ∀ m es, files !! m = Some es → m < n) ∨
    (∃ merge_min, plan_partial readers merge_min = Some p) →
  compact_file keks rng p = Ok out → zlen out <= u64_max →
  ∃ readers', load_sst_readers keks (commit_state p out i dir) allow [] = Ok readers' ∧
    ∀ r key, probe_readers (λ _ _, None) readers' r key false = probe_readers (λ _ _, None) readers r key false.
Proof.
intros Hk Hg Hd Hr Hplan Hout Hl.
assert (Hfit : ∃ above l below, newest_first files = above ++ l ++ below ∧ plan_fits p above l below).
{ destruct Hplan as [(min & n & Hp & Hn)|(mm & Hp)].
  - destruct (plan_full_fits _ _ _ _ _ Hr Hn Hp) as [Hf _]. exists [], (newest_first files), []. by rewrite app_nil_r.
  - destruct (plan_partial_fits _ _ _ _ Hr Hp) as (a & l & b & H1 & H2 & _). eauto 10. }
destruct Hfit as (above & l & below & Hnf & Hf).
pose proof (compact_file_holds _ _ _ _ _ _ _ Hk Hg Hf Hout Hl) as Ho.
destruct (load_listed_ok keks (commit_state p out i dir) (commit_state p (plan_output p l) i files) allow []) as (readers' & Hload & Hr').
- by apply commit_state_holds.
- by intros r es ?%elem_of_nil.
- exists readers'. split; [done|]. intros r key. rewrite !(probe_files _ _ _ _ _ Hr'), (probe_files _ _ _ _ _ Hr).
  f_equal. by apply (fits_view p files above l below).
Qed.

End holds.

(** ** A partial commit that stops *)

Section stale.
Context `{HA : Aead} `{HC : Crc32}.

(** Three files of one key each, a partial compaction whose second unlink fails, a
flush, and then a full compaction: the value of the second file's key before, after
the flush, after a restart that follows the flush, and after a restart that follows
the full compaction. *)
Definition stale_run (keks : Keks) (rng : Draw) (r : RealmId) (f1 f2 f3 f4 : list Entry) (key : list byte)
  : res (list (option (list byte))) :=
  d1 ← flush_file keks rng 1 f1;
  d2 ← flush_file keks rng 2 f2;
  d3 ← flush_file keks rng 3 f3;
  let dir := <[3 := d3]> (<[2 := d2]> (<[1 := d1]> ∅)) in
  open ← load_sst_readers keks dir false [];
  v1 ← probe_readers (λ _ _, None) open r key true;
  p ← ok_or InvalidRange (plan_partial open 2);
  out ← compact_file keks rng p;
  (* the unlink of file 2 succeeds, that of file 3 fails: the commit returns an
     error and leaves the open readers as they are *)
  let dir := commit_state p out 1 dir in
  d4 ← flush_file keks rng 4 f4;
  let dir := <[4 := d4]> dir in
  published ← load_sst_readers keks dir false open;
  v2 ← probe_readers (λ _ _, None) published r key true;
  restarted ← load_sst_readers keks dir false [];
  v3 ← probe_readers (λ _ _, None) restarted r key true;
  q ← ok_or InvalidRange (plan_full published 2 5);
  out ← compact_file keks rng q;
  let dir := commit_state q out (length (cp_unlinks q)) dir in
  restarted ← load_sst_readers keks dir false [];
  v4 ← probe_readers (λ _ _, None) restarted r key true;
  Ok [v1; v2; v3; v4].

End stale.

Definition ex_keks : Keks := {[ SYSTEM_REALM := repeat x09 32 ]}.
Definition ex_entry (k v : byte) : list Entry := [(CKey (repeat x01 16) [k], Data [v])].


(** ** Instances of the theorem *)

(** Two files, and a partial compaction of both. *)
Definition ex_compaction : res (list byte * list byte * list SstReader * CompactPlan * list byte) :=
  d1 ← @flush_file toy_aead toy_crc ex_keks wit_draw 1 (ex_entry x61 x31);
  d2 ← @flush_file toy_aead toy_crc ex_keks wit_draw 2 (ex_entry x62 x32);
  open ← @load_sst_readers toy_aead toy_crc ex_keks (<[2 := d2]> (<[1 := d1]> ∅)) false [];
  p ← ok_or InvalidRange (plan_partial open 2);
  out ← @compact_file toy_aead toy_crc ex_keks wit_draw p;
  Ok (d1, d2, open, p, out).

Lemma ex_entry_ok k v : bt_sorted (ex_entry k v) ∧ Forall entry_wf (ex_entry k v).
Proof. split; [apply bt_sortedb_sound; reflexivity|]. repeat constructor; simpl; vm_compute; congruence. Qed.

Lemma compaction_crash_safe_witness :
  ∃ d1 d2 open p out, ex_compaction = Ok (d1, d2, open, p, out) ∧
  ∃ readers', @load_sst_readers toy_aead toy_crc ex_keks (commit_state p out 1 (<[2 := d2]> (<[1 := d1]> ∅))) false [] = Ok readers' ∧
    probe_readers (HA := toy_aead) (HC := toy_crc) (λ _ _, None) readers' (repeat x01 16) [x62] false = Ok (Some [x32]).
Proof.
destruct ex_compaction as [[[[[d1 d2] open] p] out]| |] eqn:E; [|vm_compute in E; discriminate E..].
exists d1, d2, open, p, out. split; [reflexivity|].
assert (Hv : zlen d1 <= u64_max ∧ zlen d2 <= u64_max ∧ zlen out <= u64_max ∧
  probe_readers (HA := toy_aead) (HC := toy_crc) (λ _ _, None) open (repeat x01 16) [x62] false = Ok (Some [x32])).
{ vm_compute in E. injection E as <- <- <- <- <-. vm_compute. split_and!; congruence. }
destruct Hv as (H1 & H2 & H3 & Hv). unfold ex_compaction in E.
bind_inv E x1 E1. bind_inv E x2 E2. bind_inv E x3 E3. bind_inv E x4 E4. bind_inv E x5 E5. injection E as -> -> -> -> ->.
pose proof wit_good_draw as Hg.
assert (Hk : is_Some (ex_keks !! SYSTEM_REALM)) by (eexists; apply lookup_singleton_eq).
assert (Hd : dir_holds (HA := toy_aead) (HC := toy_crc) ex_keks (<[2 := d2]> (<[1 := d1]> ∅))
  (<[2 := ex_entry x62 x32]> (<[1 := ex_entry x61 x31]> ∅))).
{ apply dir_holds_insert; [|apply dir_holds_insert; [|apply dir_holds_empty]].
  - exact (flush_file_holds (HAL := toy_aead_laws) _ _ _ _ _ Hk Hg (proj1 (ex_entry_ok _ _)) (proj2 (ex_entry_ok _ _)) E2 H2).
  - exact (flush_file_holds (HAL := toy_aead_laws) _ _ _ _ _ Hk Hg (proj1 (ex_entry_ok _ _)) (proj2 (ex_entry_ok _ _)) E1 H1). }
destruct (load_listed_ok (HA := toy_aead) (HC := toy_crc) (HAL := toy_aead_laws) (HCL := toy_crc_laws) _ _ _ false [] Hd) as (open' & Ho & Hr);
  [intros r es Hin; exfalso; exact (proj1 (elem_of_nil r) Hin)|].
rewrite E3 in Ho. injection Ho as <-.
destruct (plan_partial open 2) as [p'|] eqn:Ep; [injection E4 as ->|discriminate E4].
destruct (compaction_crash_safe (HA := toy_aead) (HC := toy_crc) (HAL := toy_aead_laws) (HCL := toy_crc_laws)
  ex_keks wit_draw false _ _ open p out 1 Hk Hg Hd Hr (or_intror (ex_intro _ 2 Ep)) E5 H3) as (readers' & Hl & Hp).
exists readers'. split; [exact Hl|]. rewrite Hp. exact Hv.
Defined.
