(* ===== verification/DurableMap.v ===== *)
(** * The contract of the storage engine: a durable map

A map from realm and key to a value, and the writes that are readable but not yet
acknowledged. A crash keeps every acknowledged write; of the others it keeps, for
each key by itself, those up to some point. *)
From stdpp Require Import base list gmap strings sorting lexico.
From Stdlib Require Import Strings.Byte ZArith Lia.
From S2P Require Import Prelude OrdMap StorageTypes WalCodec Memtable KeyMerge.

Open Scope Z_scope.

Abbreviation View := (CompositeKey → option (list byte)).

(** The map after the writes [ws], in order. *)
Definition over (ws : list Write) (m : View) : View :=
  λ ck, match log_get ck ws with Some v => value_view v | None => m ck end.

Record DurableMap := MkDurable { dm_committed : View; dm_pending : list Write }.

Definition dm_empty : DurableMap := MkDurable (λ _, None) [].

(** A read sees every write. *)
Definition dm_read (s : DurableMap) : View := over (dm_pending s) (dm_committed s).

(** A visible step: writes that become readable, the first [n] waiting writes
acknowledged, and a crash with its restart. *)
Inductive Label :=
| LTau
| LWrite (ws : list Write)
| LAck (n : nat)
| LCrash.

Inductive dm_step : Label → DurableMap → DurableMap → Prop :=
| dm_tau s : dm_step LTau s s
| dm_write s ws : dm_step (LWrite ws) s (MkDurable (dm_committed s) (dm_pending s ++ ws))
| dm_ack s n : (n <= length (dm_pending s))%nat →
    dm_step (LAck n) s (MkDurable (over (take n (dm_pending s)) (dm_committed s)) (drop n (dm_pending s)))
| dm_crash s m : (∀ ck, ∃ j, m ck = over (take j (dm_pending s)) (dm_committed s) ck) →
    dm_step LCrash s (MkDurable m []).

Inductive dm_run : list Label → DurableMap → DurableMap → Prop :=
| dm_run_nil s : dm_run [] s s
| dm_run_cons l ls s s' s'' : dm_step l s s' → dm_run ls s' s'' → dm_run (l :: ls) s s''.

Lemma over_nil m ck : over [] m ck = m ck.
Proof. done. Qed.

Lemma over_app ws1 ws2 m ck : over (ws1 ++ ws2) m ck = over ws2 (over ws1 m) ck.
Proof. unfold over. rewrite log_get_app. by destruct (log_get ck ws2). Qed.

Lemma over_ext ws m m' ck : m ck = m' ck → over ws m ck = over ws m' ck.
Proof. unfold over. intros ->. done. Qed.

(** What was acknowledged survives a crash, unless a later write of the same key was
waiting. *)
Lemma dm_crash_keeps s s' ck :
  dm_step LCrash s s' → log_get ck (dm_pending s) = None → dm_read s' ck = dm_committed s ck.
Proof.
intros Hs Hn. inversion Hs as [| | |s0 m Hm]; subst. unfold dm_read. simpl. rewrite over_nil.
destruct (Hm ck) as [j ->]. unfold over. rewrite <-(take_drop j (dm_pending s)), log_get_app in Hn.
destruct (log_get ck (drop j (dm_pending s))); [done|]. by rewrite Hn.
Qed.

(** ** A log and its positions *)

Section log.
Context (B : View) (G : list Write).

(** The map at a position of the log, and the writes between two positions. *)
Definition upto (i : nat) : View := over (take i G) B.
Definition between (a b : nat) : list Write := take (b - a) (drop a G).

Lemma take_between a b : (a <= b)%nat → take b G = take a G ++ between a b.
Proof.
intros Hab. unfold between. replace b with (a + (b - a))%nat at 1 by lia. by rewrite <-take_take_drop.
Qed.

Lemma between_app a b c : (a <= b <= c)%nat → between a c = between a b ++ between b c.
Proof.
intros Hab. unfold between. replace (c - a)%nat with ((b - a) + (c - b))%nat by lia.
rewrite <-take_take_drop, drop_drop. by replace (a + (b - a))%nat with b by lia.
Qed.

Lemma between_end a : (a <= length G)%nat → between a (length G) = drop a G.
Proof. intros Ha. unfold between. apply take_ge. rewrite length_drop. lia. Qed.

(** The writes of [a..b) over the map at a position between them. *)
Lemma upto_between a i b ck :
  (a <= i <= b)%nat → over (between a b) (upto i) ck = upto b ck.
Proof.
intros Hab. unfold upto. rewrite (take_between i b), over_app by lia.
rewrite (between_app a i b), over_app by lia. apply over_ext.
rewrite (take_between a i) by lia. unfold over. rewrite !log_get_app. by destruct (log_get ck (between a i)).
Qed.

Lemma upto_unwritten a b ck : (a <= b)%nat → log_get ck (between a b) = None → upto b ck = upto a ck.
Proof. intros Hab Hn. rewrite <-(upto_between a a b) by lia. unfold over at 1. by rewrite Hn. Qed.

Lemma upto_written a b m ck :
  (a <= b)%nat → log_get ck (between a b) ≠ None → over (between a b) m ck = upto b ck.
Proof.
intros Hab Hn. rewrite <-(upto_between a a b) by lia. unfold over at 1 2. by destruct (log_get ck (between a b)).
Qed.

End log.

Lemma upto_snoc B G ws i ck : (i <= length G)%nat → upto B (G ++ ws) i ck = upto B G i ck.
Proof. intros Hi. unfold upto. by rewrite take_app_le. Qed.

Lemma between_snoc G ws a b : (b <= length G)%nat → between (G ++ ws) a b = between G a b.
Proof.
intros Hb. unfold between. destruct (decide (a <= length G)%nat).
- rewrite drop_app_le, take_app_le by (rewrite ?length_drop; lia). done.
- by replace (b - a)%nat with 0%nat by lia.
Qed.
