(* ===== verification/Engine.v ===== *)
(** * The storage engine

The engine of [storage/engine.rs]: the write path ([put], [delete], [put_batch],
[write_batch], [enqueue_batch]), the group commit with its rotation, memtable
flushes, compactions, and start-up after a crash. Threads interleave: each
operation is the sequence of its steps under the locks the code takes, and an event
is one step of one thread.

The engine refines a map whose acknowledged writes survive a crash. *)
From stdpp Require Import base list gmap strings sorting lexico.
From Stdlib Require Import Strings.Byte ZArith Lia.
From S2P Require Import Prelude OrdMap StorageTypes WalCodec Memtable KeyMerge Paging Crypto WalSegment WalCrash Bloom.
From S2P Require Import SstCodec SstWriter SstReader Merge Compaction EngineReads EngineFiles DurableMap.

Open Scope Z_scope.

(** ** Operations *)

(** The writes a caller asks for. [enqueue_batch], and [put_if_absent] through it, is
[OPutBatch]; [increment_u64] is an [OPut]. *)
Inductive Op :=
| OPut (r : RealmId) (key value : list byte)
| ODelete (r : RealmId) (key : list byte)
| OPutBatch (r : RealmId) (entries : list (list byte * list byte))
| OWriteBatch (r : RealmId) (puts : list (list byte * list byte)) (deletes : list (list byte)).

(** One call of the memtable inside an operation's [apply] closure. *)
Inductive MemOp :=
| MPut (r : RealmId) (key value : list byte)
| MDelete (r : RealmId) (key : list byte)
| MPutBatch (r : RealmId) (entries : list (list byte * list byte)).

Definition put_entries (entries : list (list byte * list byte)) : list BatchEntry :=
  (λ e, MkBatchEntry Put e.1 e.2) <$> entries.
Definition delete_entries (deletes : list (list byte)) : list BatchEntry :=
  (λ k, MkBatchEntry Delete k []) <$> deletes.

(** The record an operation appends; an empty batch is a no-op and has none. *)
Definition op_entry (now : Z) (op : Op) : res (option WalEntry) :=
  match op with
  | OPut r key value => Ok (Some (MkWalEntry now r Put key value))
  | ODelete r key => Ok (Some (MkWalEntry now r Delete key []))
  | OPutBatch r entries =>
      match entries with
      | [] => Ok None
      | _ => payload ← encode_batch_payload (put_entries entries); Ok (Some (MkWalEntry now r Batch [] payload))
      end
  | OWriteBatch r puts deletes =>
      match puts, deletes with
      | [], [] => Ok None
      | _, _ =>
          payload ← encode_batch_payload (put_entries puts ++ delete_entries deletes);
          Ok (Some (MkWalEntry now r Batch [] payload))
      end
  end.

(** The memtable calls of its [apply] closure, each under the memtable's lock. *)
Definition op_apply (op : Op) : list MemOp :=
  match op with
  | OPut r key value => [MPut r key value]
  | ODelete r key => [MDelete r key]
  | OPutBatch r entries => [MPutBatch r entries]
  | OWriteBatch r puts deletes => MPutBatch r puts :: (MDelete r <$> deletes)
  end.

Definition memop_writes (m : MemOp) : list Write :=
  match m with
  | MPut r key value => [WPut (CKey r key) value]
  | MDelete r key => [WDelete (CKey r key)]
  | MPutBatch r entries => (λ e, WPut (CKey r e.1) e.2) <$> entries
  end.

Section engine.
Context `{HA : Aead} `{HC : Crc32} {M : Type} `{HM : !SkipMap CompositeKey MemtableValue M}.
(** The registered keys, whether a file with a missing key may be skipped, and the
configurations of the WAL and of the memtable. *)
Context (keks : Keks) (allow : bool) (wal_config : WalConfig) (mem_config : MemtableConfig).

Definition exec_memop (m : MemOp) (mt : Memtable M) : res (Memtable M) :=
  match m with
  | MPut r key value => Memtable.put r key value mt
  | MDelete r key => Memtable.delete r key mt
  | MPutBatch r entries => Memtable.put_batch r entries mt
  end.

(** ** Conditional writes

What [put_if_absent] and [increment_u64] decide under their locks: the write to
make, if any. *)

Definition put_if_absent (hot : RealmId → list byte → option (list byte)) (st : Store M) (r : RealmId)
    (key value : list byte) : res (option Op) :=
  '(found, _) ← engine_get hot st r key;
  match found with
  | Some _ => Ok None
  | None => Ok (Some (OPutBatch r [(key, value)]))
  end.

Definition increment_u64 (hot : RealmId → list byte → option (list byte)) (st : Store M) (r : RealmId)
    (key : list byte) : res (Z * Op) :=
  '(raw, _) ← engine_get hot st r key;
  n ← decode_u64_counter raw;
  let next := sat_add_u64 n 1 in
  Ok (next, OPut r key (encode_u64 next)).

(** What the holder of [flush_lock] is doing. [by_leader] marks a flush the
group-commit leader waits for before it rotates the segment. *)
Inductive FlushPhase :=
| FlushIdle
| FlushParked (by_leader : bool) (parked : M)
| FlushPublished (by_leader : bool)
| FlushCommit.

(** A compaction: merged to its temporary file, or [i] unlinks into its commit. *)
Inductive CompactPhase :=
| CompactIdle
| CompactMerged (full : bool) (p : CompactPlan) (output : list byte)
| CompactCommit (full : bool) (p : CompactPlan) (output : list byte) (i : nat).

Record Engine := MkEngine {
  en_wal : Wal;
  en_queue : list WalEntry;                     (* applied, waiting for a commit *)
  en_apply : option (WalEntry * list MemOp);    (* the writer in the critical section *)
  en_lead : option (nat * nat);                 (* the leader's batch, flushes it has seen succeed *)
  en_mem : Memtable M;
  en_flush : FlushPhase;
  en_compact : CompactPhase;
  en_readers : list SstReader;
  en_dir : Dir;
  en_counter : Z
}.

Definition set_writers (w : Wal) (queue : list WalEntry) (apply : option (WalEntry * list MemOp))
    (lead : option (nat * nat)) (mem : Memtable M) (en : Engine) : Engine :=
  MkEngine w queue apply lead mem (en_flush en) (en_compact en) (en_readers en) (en_dir en) (en_counter en).
Definition set_flush (lead : option (nat * nat)) (mem : Memtable M) (phase : FlushPhase) (readers : list SstReader)
    (dir : Dir) (counter : Z) (en : Engine) : Engine :=
  MkEngine (en_wal en) (en_queue en) (en_apply en) lead mem phase (en_compact en) readers dir counter.
Definition set_compact (flush : FlushPhase) (phase : CompactPhase) (readers : list SstReader) (dir : Dir) (counter : Z)
    (en : Engine) : Engine :=
  MkEngine (en_wal en) (en_queue en) (en_apply en) (en_lead en) (en_mem en) flush phase readers dir counter.

Inductive Event :=
| EvBegin (op : Op) (now : Z)
| EvApply
| EvQueue
| EvLead (n : nat)
| EvCommit (rng : Draw) (first : bool) (rotate_fault : RotateFault) (fault : CommitFault)
| EvFlushBegin (by_leader only_if_full : bool)
| EvFlushWrite (rng : Draw) (io_ok : bool)
| EvFlushDone
| EvCompactFull (rng : Draw) (min_sst_count : Z)
| EvCompactPartial (rng : Draw) (merge_min : Z)
| EvCompactRename
| EvCompactUnlink
| EvCompactPublish
| EvCrash (rng : Draw).

(** ** The steps *)

(** The fields of a record are within the widths of the format: a realm id has 16
bytes, a timestamp 64 bits, and a record is shorter than 4 GiB. *)
Definition record_fits (e : WalEntry) : bool :=
  (- 2 ^ 63 <=? we_timestamp e) && (we_timestamp e <? 2 ^ 63) && (zlen (we_realm_id e) =? 16) &&
  (zlen (serialize e) + TAG_SIZE <=? u32_max).

(** [append_applying] up to the critical section: the fence refuses the write. *)
Definition begin_op (op : Op) (now : Z) (en : Engine) : option Engine :=
  if w_fenced (en_wal en) then Some en
  else
    match en_apply en, op_entry now op with
    | None, Ok (Some e) =>
        if record_fits e
        then Some (set_writers (en_wal en) (en_queue en) (Some (e, op_apply op)) (en_lead en) (en_mem en) en)
        else None
    | None, _ => Some en
    | Some _, _ => None
    end.

(** The next call of the [apply] closure. *)
Definition apply_op (en : Engine) : option (Engine * Label) :=
  match en_apply en with
  | Some (e, m :: rest) =>
      match exec_memop m (en_mem en) with
      | Ok mem => Some (set_writers (en_wal en) (en_queue en) (Some (e, rest)) (en_lead en) mem en, LWrite (memop_writes m))
      | _ => None
      end
  | _ => None
  end.

(** The closure returned: the record joins the queue. *)
Definition queue_op (en : Engine) : option Engine :=
  match en_apply en with
  | Some (e, []) => Some (set_writers (en_wal en) (en_queue en ++ [e]) None (en_lead en) (en_mem en) en)
  | _ => None
  end.

(** A leader drains [n] records. *)
Definition lead (n : nat) (en : Engine) : option Engine :=
  match en_lead en with
  | None =>
      if w_fenced (en_wal en) || bool_decide (n = 0%nat ∨ length (en_queue en) < n)%nat then None
      else Some (set_writers (en_wal en) (en_queue en) (en_apply en) (Some (n, 0%nat)) (en_mem en) en)
  | Some _ => None
  end.

(** The result of the [k]-th flush of a rotation when [seen] have succeeded. *)
Definition flush_result (k seen : nat) : res unit := if (k <=? seen)%nat then Ok tt else Err io_error.

(** The leader waits for its flush. *)
Definition leader_waits (phase : FlushPhase) : bool :=
  match phase with FlushParked by_leader _ | FlushPublished by_leader => by_leader | _ => false end.

(** [commit_batch] by the leader. When it rotates, the caller's [trigger_flush] has
run, if this is the leader's first batch and it still has that closure, and then the
registered [pre_rotate_fn]. *)
Definition commit (rng : Draw) (first : bool) (rotate_fault : RotateFault) (fault : CommitFault) (en : Engine)
  : option (Engine * Label) :=
  match en_lead en, leader_waits (en_flush en) with
  | Some (n, seen), false =>
      let batch := take n (en_queue en) in
      let pre_rotate := if first then Some (flush_result 1 seen) else None in
      let flush := flush_result (if first then 2 else 1) seen in
      let '(r, w) := commit_batch rng pre_rotate flush rotate_fault fault (serialize <$> batch) (en_wal en) in
      match r with
      | Ok _ => Some (set_writers w (drop n (en_queue en)) (en_apply en) None (en_mem en) en,
                      LAck (length (concat (entry_writes <$> batch))))
      | _ => Some (set_writers w (en_queue en) (en_apply en) None (en_mem en) en, LTau)
      end
  | _, _ => None
  end.

(** The leader has seen one more flush succeed. *)
Definition seen_flush (by_leader : bool) (lead : option (nat * nat)) : option (nat * nat) :=
  if by_leader then (λ p, (p.1, S p.2)) <$> lead else lead.

(** [flush_active] up to the parked map. *)
Definition flush_start (by_leader only_if_full : bool) (en : Engine) : option Engine :=
  match en_flush en, by_leader && bool_decide (en_lead en = None) with
  | FlushIdle, false =>
      if only_if_full && negb (should_flush (en_mem en)) then Some en
      else
        match flush_begin (en_mem en) with
        | Ok (Some parked, mem) =>
            Some (set_flush (en_lead en) mem (FlushParked by_leader parked) (en_readers en) (en_dir en) (en_counter en) en)
        | Ok (None, mem) =>
            Some (set_flush (seen_flush by_leader (en_lead en)) mem FlushIdle (en_readers en) (en_dir en) (en_counter en) en)
        | _ => None
        end
  | _, _ => None
  end.

(** The closure of [flush_streaming] failed: the parked map is folded back. *)
Definition flush_fold_back (parked : M) (dir : Dir) (en : Engine) : option Engine :=
  match flush_failed parked (en_mem en) with
  | Ok mem => Some (set_flush (en_lead en) mem FlushIdle (en_readers en) dir (en_counter en + 1) en)
  | _ => None
  end.

(** The closure of [flush_streaming]: the file, and the rebuilt reader list. File
numbers do not run out. *)
Definition flush_write (rng : Draw) (io_ok : bool) (en : Engine) : option Engine :=
  match en_flush en with
  | FlushParked by_leader parked =>
      if u64_max <=? en_counter en then None
      else
        match (if io_ok then flush_file keks rng (en_counter en) (sm_iter parked) else Err io_error) with
        | Ok file =>
            if u64_max <? zlen file then flush_fold_back parked (en_dir en) en
            else
              let dir := <[en_counter en := file]> (en_dir en) in
              match load_sst_readers keks dir allow (en_readers en) with
              | Ok readers =>
                  Some (set_flush (en_lead en) (en_mem en) (FlushPublished by_leader) readers dir (en_counter en + 1) en)
              | _ => flush_fold_back parked dir en
              end
        | _ => flush_fold_back parked (en_dir en) en
        end
  | _ => None
  end.

Definition flush_finish (en : Engine) : option Engine :=
  match en_flush en with
  | FlushPublished by_leader =>
      Some (set_flush (seen_flush by_leader (en_lead en)) (flush_done (en_mem en)) FlushIdle (en_readers en)
        (en_dir en) (en_counter en) en)
  | _ => None
  end.

(** The merge of a compaction into its temporary file. *)
Definition compact_merge (rng : Draw) (full : bool) (plan : option CompactPlan) (counter : Z) (en : Engine) : Engine :=
  let done := set_compact (en_flush en) CompactIdle (en_readers en) (en_dir en) counter en in
  match plan with
  | None => en
  | Some p =>
      match compact_file keks rng p with
      | Ok output =>
          if u64_max <? zlen output then done
          else set_compact (en_flush en) (CompactMerged full p output) (en_readers en) (en_dir en) counter en
      | _ => done
      end
  end.

(** [compact_ssts] takes the reader list and its number under [flush_lock]. *)
Definition compact_full (rng : Draw) (min_sst_count : Z) (en : Engine) : option Engine :=
  match en_compact en, en_flush en with
  | CompactIdle, FlushIdle =>
      if u64_max <=? en_counter en then None
      else Some (compact_merge rng true (plan_full (en_readers en) min_sst_count (en_counter en)) (en_counter en + 1) en)
  | _, _ => None
  end.

Definition compact_partial (rng : Draw) (merge_min : Z) (en : Engine) : option Engine :=
  match en_compact en with
  | CompactIdle => Some (compact_merge rng false (plan_partial (en_readers en) merge_min) (en_counter en) en)
  | _ => None
  end.

(** The commit phase takes [flush_lock] and renames. *)
Definition compact_rename (en : Engine) : option Engine :=
  match en_compact en, en_flush en with
  | CompactMerged full p output, FlushIdle =>
      Some (set_compact FlushCommit (CompactCommit full p output 0) (en_readers en) (commit_state p output 0 (en_dir en))
        (en_counter en) en)
  | _, _ => None
  end.

Definition compact_unlink (en : Engine) : option Engine :=
  match en_compact en with
  | CompactCommit full p output i =>
      match cp_unlinks p !! i with
      | Some n => Some (set_compact (en_flush en) (CompactCommit full p output (S i)) (en_readers en)
                    (base.delete n (en_dir en)) (en_counter en) en)
      | None => None
      end
  | _ => None
  end.

Definition compact_publish (en : Engine) : option Engine :=
  match en_compact en with
  | CompactCommit full p output i =>
      match cp_unlinks p !! i,
            (if full then publish_full keks (en_dir en) allow (en_readers en)
             else publish_partial keks (en_dir en) allow p (en_readers en)) with
      | None, Ok readers => Some (set_compact FlushIdle CompactIdle readers (en_dir en) (en_counter en) en)
      | None, _ => Some (set_compact FlushIdle CompactIdle (en_readers en) (en_dir en) (en_counter en) en)
      | Some _, _ => None
      end
  | _ => None
  end.

(** [open_with_fs]: the segment is replayed into a fresh memtable and every file is
opened; the counter continues after the highest number opened. *)
Definition max_sst_num (readers : list SstReader) : Z := foldr (λ r m, Z.max (sr_sst_number r) m) 0 readers.

Definition open_engine (rng : Draw) (segment : list byte) (dir : Dir) : res Engine :=
  system_kek ← ok_or (Crypto "failed to get system KEK") (keks !! SYSTEM_REALM);
  '(wal, _) ← WalSegment.open_with_fs rng wal_config system_kek SYSTEM_REALM segment;
  entries ← read_all wal;
  memtable ← replay entries (Memtable.new mem_config);
  readers ← load_sst_readers keks dir allow [];
  Ok (MkEngine wal [] None None memtable FlushIdle CompactIdle readers dir (max_sst_num readers + 1)).

Definition tau (o : option Engine) : option (Engine * Label) := (λ en, (en, LTau)) <$> o.

Definition engine_exec (ev : Event) (en : Engine) : option (Engine * Label) :=
  match ev with
  | EvBegin op now => tau (begin_op op now en)
  | EvApply => apply_op en
  | EvQueue => tau (queue_op en)
  | EvLead n => tau (lead n en)
  | EvCommit rng first rotate_fault fault => commit rng first rotate_fault fault en
  | EvFlushBegin by_leader only_if_full => tau (flush_start by_leader only_if_full en)
  | EvFlushWrite rng io_ok => tau (flush_write rng io_ok en)
  | EvFlushDone => tau (flush_finish en)
  | EvCompactFull rng min_sst_count => tau (compact_full rng min_sst_count en)
  | EvCompactPartial rng merge_min => tau (compact_partial rng merge_min en)
  | EvCompactRename => tau (compact_rename en)
  | EvCompactUnlink => tau (compact_unlink en)
  | EvCompactPublish => tau (compact_publish en)
  | EvCrash rng =>
      match open_engine rng (w_file (en_wal en)) (en_dir en) with
      | Ok en' => Some (en', LCrash)
      | _ => None
      end
  end.

Fixpoint engine_run (evs : list Event) (en : Engine) : option (Engine * list Label) :=
  match evs with
  | [] => Some (en, [])
  | ev :: rest =>
      '(en, l) ← engine_exec ev en;
      '(en, ls) ← engine_run rest en;
      Some (en, l :: ls)
  end.

(** What a read sees: the memtable and the published readers. *)
Definition en_store (caches : BlockCaches) (en : Engine) : Store M := MkStore (en_mem en) (en_readers en) caches.

End engine.
Arguments Engine M : clear implicits.
Arguments FlushPhase M : clear implicits.
