(* ===== verification/EngineRefines.v ===== *)
(** * The engine refines the durable map

The invariant that links an engine to the durable map of [DurableMap], its
preservation by every step of [Engine], and the refinement. The state is described
by a log of all writes since the engine opened and by positions in it: the files
hold the writes up to [f], the parked map those up to [p], the active map the rest;
the segment holds a stretch that ends at the durable position [d]. *)
From stdpp Require Import base list gmap strings sorting lexico.
From Stdlib Require Import Strings.Byte ZArith Lia.
From S2P Require Import Prelude OrdMap StorageTypes WalCodec Memtable KeyMerge Paging Crypto WalSegment WalCrash Bloom.
From S2P Require Import SstCodec SstWriter SstReader Merge Compaction EngineReads EngineFiles DurableMap Engine.

Open Scope Z_scope.

(** ** An operation and its record *)

(** A write the SST format can store. *)
Definition write_wf (w : Write) : Prop := entry_wf (write_entry w).

Lemma batch_entry_in_payload e es : e ∈ es → zlen (batch_entry_bytes e) <= zlen (concat (batch_entry_bytes <$> es)).
Proof.
induction es as [|e' es IH]; [by intros ?%elem_of_nil|]. rewrite fmap_cons, concat_cons, zlen_app.
pose proof (zlen_nonneg (batch_entry_bytes e')). pose proof (zlen_nonneg (concat (batch_entry_bytes <$> es))).
intros [->|Hin]%elem_of_cons; [lia|]. specialize (IH Hin). lia.
Qed.

Lemma payload_entries es payload :
  Forall (λ e, be_operation e ≠ Batch) es → encode_batch_payload es = Ok payload → zlen payload <= u32_max →
  decode_batch_payload payload = Ok es ∧ Forall (λ e, fits_u32 (be_key e) ∧ fits_u32 (be_value e)) es.
Proof.
intros Hops He Hl. pose proof He as Hp. unfold encode_batch_payload in Hp. rewrite encode_batch_loop_ok in Hp by done.
injection Hp as Hp. rewrite <-Hp, zlen_app, zlen_to_le in Hl.
assert (Hf : Forall (λ e, fits_u32 (be_key e) ∧ fits_u32 (be_value e)) es).
{ apply Forall_forall. intros e Hin. pose proof (batch_entry_in_payload e es Hin) as Hb. unfold batch_entry_bytes in Hb at 1.
  autorewrite with zlen in Hb. unfold fits_u32. pose proof (zlen_nonneg (be_key e)). pose proof (zlen_nonneg (be_value e)). lia. }
split; [|done]. rewrite <-(app_nil_r payload). apply decode_encode_payload; [| |done].
- rewrite Forall_forall in Hops, Hf |- *. intros e Hin. split; [by apply Hops|by apply Hf].
- pose proof (concat_batch_min es). unfold MIN_BATCH_ENTRY_SIZE in *. pose proof (zlen_nonneg es). lia.
Qed.

Lemma record_fits_ok e :
  record_fits e = true → entry_fits e ∧ zlen (we_realm_id e) = 16 ∧ fits_u32 (we_key e) ∧ zlen (we_value e) <= u32_max.
Proof.
unfold record_fits. rewrite !andb_true_iff, !Z.leb_le, Z.ltb_lt, Z.eqb_eq. intros (((H1 & H2) & H3) & H4).
assert (Hl : zlen (we_key e) + zlen (we_value e) <= u32_max).
{ unfold serialize in H4. autorewrite with zlen in H4. unfold TAG_SIZE in H4. pose proof (zlen_nonneg (we_realm_id e)). lia. }
pose proof (zlen_nonneg (we_key e)). pose proof (zlen_nonneg (we_value e)).
split_and!; [|done|unfold fits_u32; lia|lia]. split; [|done]. split_and!; [done|done|done|unfold fits_u32; lia|unfold fits_u32; lia].
Qed.

(** The record of an operation replays to the writes its [apply] makes. *)
Lemma op_entry_ok now op e :
  op_entry now op = Ok (Some e) → record_fits e = true →
  entry_writes e = concat (memop_writes <$> op_apply op) ∧ replayable e = true ∧ entry_fits e ∧
  Forall write_wf (entry_writes e).
Proof.
intros Ho Hf. destruct (record_fits_ok e Hf) as (Hfits & Hr & Hk & Hv).
assert (Hbatch : ∀ r subs, Forall (λ b, be_operation b ≠ Batch) subs →
  (payload ← encode_batch_payload subs; Ok (Some (MkWalEntry now r Batch [] payload))) = Ok (Some e) →
  entry_writes e = sub_write r <$> subs ∧ replayable e = true ∧ Forall write_wf (entry_writes e)).
{ intros r subs Hops Hb. bind_inv Hb payload Hp. injection Hb as <-. simpl in Hr, Hk, Hv.
  destruct (payload_entries subs payload Hops Hp Hv) as [Hd Hsz]. unfold entry_writes, replayable. simpl. rewrite Hd.
  split_and!; [done..|]. apply Forall_fmap. eapply Forall_impl; [exact Hsz|]. intros b [Hbk Hbv].
  unfold write_wf, entry_wf, entry_ok, write_entry, sub_write. simpl.
  destruct (be_operation b); simpl; (split_and!; [done|done|try done]); vm_compute; congruence. }
destruct op as [r k v|r k|r es|r puts dels]; simpl in Ho.
- injection Ho as <-. simpl in Hr, Hk, Hv. split_and!; [done..|]. constructor; [|constructor]. by split_and!.
- injection Ho as <-. simpl in Hr, Hk, Hv. split_and!; [done..|]. constructor; [|constructor].
  split_and!; [done|done|]. vm_compute. congruence.
- destruct es as [|e0 es]; [done|]. destruct (Hbatch r (put_entries (e0 :: es))) as (Hw & Hrep & Hwf); [|exact Ho|].
  { apply Forall_fmap, Forall_forall. done. }
  split_and!; [|done..]. rewrite Hw. cbn [op_apply]. rewrite fmap_cons, fmap_nil. simpl concat. rewrite app_nil_r.
  unfold put_entries. cbn [memop_writes]. by rewrite <-list_fmap_compose.
- destruct (Hbatch r (put_entries puts ++ delete_entries dels)) as (Hw & Hrep & Hwf).
  { apply Forall_app. split; apply Forall_fmap, Forall_forall; done. }
  { destruct puts, dels; [done|exact Ho..]. }
  split_and!; [|done..]. rewrite Hw. cbn [op_apply]. rewrite fmap_cons. simpl concat. rewrite fmap_app. f_equal.
  + unfold put_entries. by rewrite <-list_fmap_compose.
  + unfold delete_entries. rewrite <-!list_fmap_compose. clear. induction dels as [|k dels IH]; [done|].
    rewrite !fmap_cons. simpl. f_equal. exact IH.
Qed.

(** ** The invariant *)

Section refines.
Context `{HA : Aead} `{HC : Crc32} `{HAL : !AeadLaws} `{HCL : !Crc32Laws}.
Context {M : Type} `{HM : !SkipMap CompositeKey MemtableValue M} `{HML : !SkipMapLaws CompositeKey MemtableValue M}.
Context (keks : Keks) (allow : bool) (wal_config : WalConfig) (mem_config : MemtableConfig).
Context (kek : list byte) (Hkek : keks !! SYSTEM_REALM = Some kek).

Abbreviation Files := (gmap Z (list Entry)).

(** A compaction that has merged, over the files it will commit to. *)
Definition plan_ready (full : bool) (p : CompactPlan) (output : list byte) (files : Files) (counter : Z) : Prop :=
  ∃ above l below, newest_first files = above ++ l ++ below ∧ plan_fits p above l below ∧
    file_holds keks (cp_target p) output (plan_output p l) ∧ cp_target p < counter ∧
    (full = true → files !! cp_target p = None).

(** The files on disk are [files]; the published readers are those of [rfiles]. They
differ only while a compaction commits. *)
Record files_ok (dir : Dir) (readers : list SstReader) (counter : Z) (flush : FlushPhase M) (compact : CompactPhase)
    (files rfiles : Files) : Prop := {
  fo_dir : dir_holds keks dir files;
  fo_readers : readers_hold readers rfiles;
  fo_counter n es : files !! n = Some es → n < counter;
  fo_compact :
    match compact with
    | CompactIdle => rfiles = files ∧ flush ≠ FlushCommit
    | CompactMerged full p output => rfiles = files ∧ flush ≠ FlushCommit ∧ plan_ready full p output files counter
    | CompactCommit full p output i =>
        flush = FlushCommit ∧ ∃ above l below, newest_first rfiles = above ++ l ++ below ∧ plan_fits p above l below ∧
          cp_target p < counter ∧ (full = true → rfiles !! cp_target p = None) ∧
          files = commit_state p (plan_output p l) i rfiles
    end
}.

Definition files_view (files : Files) : View := λ ck, live_value (files_get ck files).

Record mem_ok (mem : Memtable M) (flush : FlushPhase M) (G : list Write) (f p : nat) : Prop := {
  mo_live : mt_poisoned mem = false;
  mo_size : size_ok mem;
  mo_order : (f <= p <= length G)%nat;
  mo_active ck : sm_get ck (mt_data mem) = log_get ck (drop p G);
  mo_parked :
    match flush with
    | FlushIdle | FlushCommit => mt_flushing mem = None ∧ f = p
    | FlushParked _ parked => mt_flushing mem = Some parked ∧ ∀ ck, sm_get ck parked = log_get ck (between G f p)
    | FlushPublished _ => f = p ∧ ∃ parked q, (q <= p)%nat ∧ mt_flushing mem = Some parked ∧
        ∀ ck, sm_get ck parked = log_get ck (between G q p)
    end
}.

(** The records of a segment, as a stretch of the log: from a position the files have
reached to a position past the durable one. *)
Definition segment_ok (G : list Write) (d f : nat) (es : list WalEntry) : Prop :=
  ∃ t d', (t <= f)%nat ∧ (t <= d')%nat ∧ (d <= d' <= length G)%nat ∧
    concat (entry_writes <$> es) = between G t d' ∧ Forall (λ e, replayable e = true) es.

(** The writes the writer in the critical section has applied so far. *)
Definition applied (apply : option (WalEntry * list MemOp)) (pre : list Write) : Prop :=
  match apply with
  | None => pre = []
  | Some (e, rest) => pre ++ concat (memop_writes <$> rest) = entry_writes e ∧ replayable e = true ∧ entry_fits e ∧
      Forall write_wf (entry_writes e)
  end.

Record log_ok (w : Wal) (queue : list WalEntry) (apply : option (WalEntry * list MemOp)) (lead : option (nat * nat))
    (flush : FlushPhase M) (G : list Write) (d f p : nat) : Prop := {
  lo_kek : w_kek w = kek ∧ w_kek_id w = SYSTEM_REALM;
  lo_bound : (d <= length G)%nat;
  lo_wf : Forall write_wf G;
  (** Whatever is on disk, an open replays every durable write the files lack. *)
  lo_disk : recovers kek SYSTEM_REALM (w_file w) (segment_ok G d f);
  lo_open : w_fenced w = false → ∃ es t, wal_inv w es ∧ (t <= f)%nat ∧ (t <= d)%nat ∧
    concat (entry_writes <$> es) = between G t d ∧ Forall (λ e, replayable e = true) es;
  lo_queue : ∃ pre, drop d G = concat (entry_writes <$> queue) ++ pre ∧ applied apply pre;
  lo_records : Forall (λ e, replayable e = true ∧ entry_fits e) queue;
  lo_lead n c : lead = Some (n, c) → w_fenced w = false ∧ ((1 <= c)%nat → (d <= f)%nat);
  lo_rotate : leader_waits flush = true → (d <= p)%nat
}.

Record engine_inv (s : DurableMap) (en : Engine M) (files rfiles : Files) (B : View) (G : list Write)
    (d f p : nat) : Prop := {
  ei_files : files_ok (en_dir en) (en_readers en) (en_counter en) (en_flush en) (en_compact en) files rfiles;
  ei_view ck : files_view files ck = upto B G f ck;
  ei_rview ck : files_view rfiles ck = upto B G f ck;
  ei_mem : mem_ok (en_mem en) (en_flush en) G f p;
  ei_log : log_ok (en_wal en) (en_queue en) (en_apply en) (en_lead en) (en_flush en) G d f p;
  ei_committed ck : dm_committed s ck = upto B G d ck;
  ei_pending : dm_pending s = drop d G
}.

Arguments ei_files {_ _ _ _ _ _ _ _ _} _.
Arguments ei_view {_ _ _ _ _ _ _ _ _} _ _.
Arguments ei_rview {_ _ _ _ _ _ _ _ _} _ _.
Arguments ei_mem {_ _ _ _ _ _ _ _ _} _.
Arguments ei_log {_ _ _ _ _ _ _ _ _} _.
Arguments ei_committed {_ _ _ _ _ _ _ _ _} _ _.
Arguments ei_pending {_ _ _ _ _ _ _ _ _} _.
Arguments fo_dir {_ _ _ _ _ _ _} _ _.
Arguments fo_readers {_ _ _ _ _ _ _} _.
Arguments fo_counter {_ _ _ _ _ _ _} _ _ _ _.
Arguments fo_compact {_ _ _ _ _ _ _} _.
Arguments lo_bound {_ _ _ _ _ _ _ _ _} _.

Definition engine_rel (s : DurableMap) (en : Engine M) : Prop :=
  ∃ files rfiles B G d f p, engine_inv s en files rfiles B G d f p.

(** ** Reads *)

(** Every layer together is the log. *)
Lemma engine_view s en caches :
  engine_rel s en → (∀ r, r ∈ en_readers en → cache_of r (caches r)) →
  ∃ ess, store_ok (en_store caches en) ess ∧
    ∀ ck, live_value (layers_get ck (store_layers (en_store caches en) ess)) = dm_read s ck.
Proof.
intros (files & rfiles & B & G & d & f & p & Hi) Hc. exists (newest_first rfiles).*2.
split; [split; [apply readers_layers, (fo_readers (ei_files Hi))|done]|].
intros [r k]. unfold store_layers. rewrite memtable_layers. simpl. unfold Memtable.get_entry.
destruct (ei_mem Hi) as [_ _ Ho Ha Hp]. rewrite Ha.
assert (Hs : dm_read s (CKey r k) = over (drop p G) (upto B G p) (CKey r k)).
{ unfold dm_read. rewrite (ei_pending Hi). pose proof (lo_bound (ei_log Hi)).
  erewrite over_ext by apply (ei_committed Hi).
  rewrite <-!(between_end G) by lia. by rewrite !upto_between by lia. }
rewrite Hs. unfold over at 1. destruct (log_get (CKey r k) (drop p G)); [done|].
pose proof (ei_rview Hi (CKey r k)) as Hv. unfold files_view, files_get in Hv.
destruct (en_flush en) as [|b parked|b|].
- destruct Hp as [-> <-]. simpl. exact Hv.
- destruct Hp as [-> Hg]. simpl. rewrite Hg. rewrite <-(upto_between B G f f p) by lia. unfold over at 1.
  by destruct (log_get _ (between G f p)).
- destruct Hp as [<- (parked & q & Hq & -> & Hg)]. simpl. rewrite Hg. rewrite <-(upto_between B G q f f) by lia.
  unfold over at 1. by destruct (log_get _ (between G q f)).
- destruct Hp as [-> <-]. simpl. exact Hv.
Qed.

(** ** Changes that keep parts of the invariant *)

Lemma recovers_mono content (P Q : list WalEntry → Prop) :
  recovers kek SYSTEM_REALM content P → (∀ es, P es → Q es) → recovers kek SYSTEM_REALM content Q.
Proof.
intros Hr HPQ rng config w ops Hg Ho. destruct (Hr rng config w ops Hg Ho) as (es & ? & ? & ? & ? & HP). eauto 10.
Qed.

Lemma segment_ok_mono G ws d f f' es : (f <= f')%nat → segment_ok G d f es → segment_ok (G ++ ws) d f' es.
Proof.
intros Hf (t & d' & Ht & Htd & Hd & Hc & Hr). exists t, d'. rewrite between_snoc, length_app by lia. split_and!; [lia..|done|done].
Qed.

(** Everything but a commit and a crash changes the log in this way. *)
Lemma log_ok_change w queue apply lead flush G d f p queue' apply' lead' flush' ws f' p' :
  log_ok w queue apply lead flush G d f p → Forall write_wf ws → (f <= f')%nat →
  (∃ pre, drop d (G ++ ws) = concat (entry_writes <$> queue') ++ pre ∧ applied apply' pre) →
  Forall (λ e, replayable e = true ∧ entry_fits e) queue' →
  (∀ n c, lead' = Some (n, c) → w_fenced w = false ∧ ((1 <= c)%nat → (d <= f')%nat)) →
  (leader_waits flush' = true → (d <= p')%nat) →
  log_ok w queue' apply' lead' flush' (G ++ ws) d f' p'.
Proof.
intros [Hk Hb Hw Hd Ho Hq Hr Hl Hro] Hws Hf Hq' Hr' Hl' Hro'. split; try done.
- rewrite length_app. lia.
- by apply Forall_app.
- eapply recovers_mono; [exact Hd|]. intros es. by apply segment_ok_mono.
- intros Hfe. destruct (Ho Hfe) as (es & t & Hi & Ht & Htd & Hc & Hre). exists es, t.
  rewrite between_snoc by lia. split_and!; [done|lia|done|done|done].
Qed.

Lemma files_ok_flush dir readers counter flush compact files rfiles flush' :
  files_ok dir readers counter flush compact files rfiles → flush ≠ FlushCommit → flush' ≠ FlushCommit →
  files_ok dir readers counter flush' compact files rfiles.
Proof.
intros [Hd Hr Hc Hp] Hf Hf'. split; try done. destruct compact as [|full p out|full p out i].
- by destruct Hp.
- by destruct Hp as (? & ? & ?).
- by destruct Hp as [? _].
Qed.

Lemma files_ok_counter dir readers counter flush compact files rfiles counter' :
  files_ok dir readers counter flush compact files rfiles → counter <= counter' →
  files_ok dir readers counter' flush compact files rfiles.
Proof.
intros [Hd Hr Hc Hp] Hle. split; try done.
- intros n es Hn. apply Hc in Hn. lia.
- destruct compact as [|full p out|full p out i]; [done| |].
  + destruct Hp as (? & ? & above & l & below & ? & ? & ? & ? & ?). split_and!; [done..|]. exists above, l, below. split_and!; try done. lia.
  + destruct Hp as (? & above & l & below & ? & ? & ? & ? & ?). split; [done|]. exists above, l, below. split_and!; try done. lia.
Qed.

Lemma exec_memop_wrote m (mem : Memtable M) :
  mt_poisoned mem = false → ∃ mem', exec_memop m mem = Ok mem' ∧ wrote (memop_writes m) mem mem'.
Proof. destruct m; simpl; [apply put_wrote|apply delete_wrote|apply put_batch_wrote]. Qed.

Lemma mem_ok_write mem mem' flush G f p ws :
  mem_ok mem flush G f p → wrote ws mem mem' → mem_ok mem' flush (G ++ ws) f p.
Proof.
intros [Hl Hs Ho Ha Hp] (Hg & Hf & Hl' & _ & Hs'). split; [done|auto|rewrite length_app; lia| |].
- intros ck. rewrite Hg, drop_app_le, log_get_app, Ha by lia. by destruct (log_get ck ws).
- destruct flush as [|b X|b|]; rewrite Hf.
  + done.
  + destruct Hp as [? Hx]. split; [done|]. intros ck. by rewrite between_snoc by lia.
  + destruct Hp as (? & X & q & Hq & ? & Hx). split; [done|]. exists X, q. split_and!; try done. intros ck.
    by rewrite between_snoc by lia.
  + done.
Qed.

(** The files after the parked map is published. *)
Lemma publish_view B G f p X files n ck :
  (f <= p <= length G)%nat → (∀ ck, sm_get ck X = log_get ck (between G f p)) → (∀ n' es, files !! n' = Some es → n' < n) →
  files_view files ck = upto B G f ck → files_view (<[n := sm_iter X]> files) ck = upto B G p ck.
Proof.
intros Ho Hx Hn Hv. unfold files_view. rewrite files_get_insert_top by done. rewrite sm_iter_get, Hx.
rewrite <-(upto_between B G f f p) by lia. unfold over at 1. by destruct (log_get ck (between G f p)).
Qed.

Lemma log_get_elem ck ws v : log_get ck ws = Some v → ∃ w, w ∈ ws ∧ write_entry w = (ck, v).
Proof.
induction ws as [|w ws IH] using rev_ind; [done|]. rewrite log_get_snoc. destruct (ord_eq ck (write_key w)) eqn:E.
- apply ord_eq_iff in E as ->. intros [= <-]. exists w. split; [apply elem_of_app; right; left|done].
- intros Hg. destruct (IH Hg) as (w' & ? & ?). exists w'. split; [apply elem_of_app; by left|done].
Qed.

Lemma parked_wf X ws : (∀ ck, sm_get ck X = log_get ck ws) → Forall write_wf ws → Forall entry_wf (sm_iter X).
Proof.
intros Hx Hw. apply Forall_forall. intros [ck v] Hin. apply bt_elem_get in Hin; [|apply sm_iter_sorted].
rewrite sm_iter_get, Hx in Hin. destruct (log_get_elem _ _ _ Hin) as (w & Hin' & He). rewrite Forall_forall in Hw.
specialize (Hw w Hin'). unfold write_wf in Hw. by rewrite He in Hw.
Qed.

Lemma between_wf G a b : Forall write_wf G → Forall write_wf (between G a b).
Proof. intros Hw. unfold between. by apply Forall_take, Forall_drop. Qed.

(** ** Steps of a writer *)

Ltac inv_step H := inversion H; subst; clear H.

Lemma log_ok_same w queue apply lead flush G d f p queue' apply' lead' flush' p' :
  log_ok w queue apply lead flush G d f p →
  (∃ pre, drop d G = concat (entry_writes <$> queue') ++ pre ∧ applied apply' pre) →
  Forall (λ e, replayable e = true ∧ entry_fits e) queue' →
  (∀ n c, lead' = Some (n, c) → w_fenced w = false ∧ ((1 <= c)%nat → (d <= f)%nat)) →
  (leader_waits flush' = true → (d <= p')%nat) →
  log_ok w queue' apply' lead' flush' G d f p'.
Proof.
intros Hl Hq Hr Hle Hro. rewrite <-(app_nil_r G). eapply log_ok_change; [exact Hl|constructor|lia| |done..].
by rewrite app_nil_r.
Qed.

(** The rest of the invariant of a step that changes only the log. *)
Lemma rel_log s en queue apply lead files rfiles B G d f p :
  engine_inv s en files rfiles B G d f p →
  log_ok (en_wal en) queue apply lead (en_flush en) G d f p →
  engine_inv s (set_writers (en_wal en) queue apply lead (en_mem en) en) files rfiles B G d f p.
Proof. intros [] Hl. by split. Qed.

Lemma begin_op_ok s en op now en' : engine_rel s en → begin_op op now en = Some en' → engine_rel s en'.
Proof.
intros Hrel. unfold begin_op. destruct (w_fenced (en_wal en)) eqn:Ef; [by intros [= <-]|].
destruct (en_apply en) eqn:Ea; [done|]. destruct (op_entry now op) as [[e|]| |] eqn:Eo; try by intros [= <-].
destruct (record_fits e) eqn:Er; [|done]. intros [= <-].
destruct Hrel as (files & rfiles & B & G & d & f & p & Hi). exists files, rfiles, B, G, d, f, p.
destruct (op_entry_ok _ _ _ Eo Er) as (Hw & Hrep & Hfit & Hwf). apply rel_log; [done|].
pose proof (ei_log Hi) as [_ _ _ _ _ (pre & Hq & Hpre) Hrec Hlead Hro].
eapply log_ok_same; [exact (ei_log Hi)| |done..].
exists pre. split; [done|]. rewrite Ea in Hpre. simpl in *. subst pre. by split_and!.
Qed.

Lemma apply_op_ok s en en' l :
  engine_rel s en → apply_op en = Some (en', l) → ∃ s', dm_step l s s' ∧ engine_rel s' en'.
Proof.
intros (files & rfiles & B & G & d & f & p & Hi). unfold apply_op. destruct (en_apply en) as [[e [|m rest]]|] eqn:Ea; try done.
pose proof (ei_log Hi) as [_ Hb Hwf _ _ (pre & Hq & Hpre) Hrec Hlead Hro]. rewrite Ea in Hpre.
destruct Hpre as (Hpre & Hrep & Hfit & Hew). rewrite fmap_cons in Hpre. simpl in Hpre.
destruct (exec_memop_wrote m (en_mem en) (mo_live _ _ _ _ _ (ei_mem Hi))) as (mem' & -> & Hw). intros [= <- <-].
exists (MkDurable (dm_committed s) (dm_pending s ++ memop_writes m)). split; [constructor|].
exists files, rfiles, B, (G ++ memop_writes m), d, f, p.
pose proof (mo_order _ _ _ _ _ (ei_mem Hi)) as Ho.
split; cbn [en_dir en_readers en_counter en_flush en_compact en_mem en_wal en_queue en_apply en_lead set_writers dm_committed dm_pending].
- apply (ei_files Hi).
- intros ck. rewrite upto_snoc by lia. apply (ei_view Hi).
- intros ck. rewrite upto_snoc by lia. apply (ei_rview Hi).
- by eapply mem_ok_write; [apply (ei_mem Hi)|].
- eapply log_ok_change; [exact (ei_log Hi)| |done| |done..].
  + rewrite <-Hpre in Hew. apply Forall_app in Hew as [_ Hew]. by apply Forall_app in Hew as [Hew _].
  + exists (pre ++ memop_writes m). rewrite drop_app_le, Hq, <-app_assoc by lia. split; [done|].
    split_and!; [by rewrite <-app_assoc|done..].
- intros ck. rewrite upto_snoc by lia. apply (ei_committed Hi).
- rewrite drop_app_le by lia. by rewrite (ei_pending Hi).
Qed.

Lemma queue_op_ok s en en' : engine_rel s en → queue_op en = Some en' → engine_rel s en'.
Proof.
intros (files & rfiles & B & G & d & f & p & Hi). unfold queue_op. destruct (en_apply en) as [[e [|m rest]]|] eqn:Ea; try done.
intros [= <-]. exists files, rfiles, B, G, d, f, p. apply rel_log; [done|].
pose proof (ei_log Hi) as [_ _ _ _ _ (pre & Hq & Hpre) Hrec Hlead Hro]. rewrite Ea in Hpre.
destruct Hpre as (Hpre & Hrep & Hfit & _). simpl in Hpre. rewrite app_nil_r in Hpre.
eapply log_ok_same; [exact (ei_log Hi)| | |done..].
- exists []. split; [|done]. rewrite Hq, Hpre, fmap_app, concat_app, app_nil_r. simpl. by rewrite app_nil_r.
- apply Forall_app. split; [done|]. constructor; [done|constructor].
Qed.

Lemma lead_ok s en n en' : engine_rel s en → lead n en = Some en' → engine_rel s en'.
Proof.
intros (files & rfiles & B & G & d & f & p & Hi). unfold lead. destruct (en_lead en) eqn:El; [done|].
destruct (w_fenced (en_wal en)) eqn:Ef; [done|]. destruct (bool_decide _); [done|]. intros [= <-].
exists files, rfiles, B, G, d, f, p. apply rel_log; [done|].
pose proof (ei_log Hi) as [_ _ _ _ _ Hq Hrec Hlead Hro]. eapply log_ok_same; [exact (ei_log Hi)|done..| |done].
intros n' c [= -> <-]. split; [done|lia].
Qed.

(** ** The commit *)

(** The first records of the queue are the next writes of the log. *)
Lemma queue_split G d queue pre j :
  (d <= length G)%nat → drop d G = concat (entry_writes <$> queue) ++ pre →
  let k := length (concat (entry_writes <$> take j queue)) in
  (d + k <= length G)%nat ∧ between G d (d + k) = concat (entry_writes <$> take j queue) ∧
  drop (d + k) G = concat (entry_writes <$> drop j queue) ++ pre.
Proof.
intros Hd Hq k. rewrite <-(take_drop j queue), fmap_app, concat_app, <-app_assoc in Hq.
assert (Hk : (d + k <= length G)%nat).
{ apply (f_equal length) in Hq. rewrite length_drop, length_app in Hq. unfold k. lia. }
split; [done|]. split.
- unfold between. replace (d + k - d)%nat with k by lia. rewrite Hq. unfold k. by rewrite take_app_length.
- rewrite <-drop_drop, Hq. unfold k. by rewrite drop_app_length.
Qed.

Lemma commit_segment G d f queue pre j es t :
  (d <= length G)%nat → drop d G = concat (entry_writes <$> queue) ++ pre →
  Forall (λ e, replayable e = true ∧ entry_fits e) queue → (t <= f)%nat → (t <= d)%nat →
  concat (entry_writes <$> es) = between G t d → Forall (λ e, replayable e = true) es →
  let k := length (concat (entry_writes <$> take j queue)) in
  concat (entry_writes <$> (es ++ take j queue)) = between G t (d + k) ∧
  Forall (λ e, replayable e = true) (es ++ take j queue).
Proof.
intros Hd Hq Hr Htf Htd Hes Hre k. destruct (queue_split G d queue pre j Hd Hq) as (Hk & Hb & _). fold k in Hk, Hb.
split.
- rewrite fmap_app, concat_app, Hes, <-Hb. symmetry. apply between_app. lia.
- apply Forall_app. split; [done|]. apply Forall_take. eapply Forall_impl; [exact Hr|]. by intros e [? _].
Qed.

Lemma flush_result_ok k c : flush_result k c = Ok tt → (k <= c)%nat.
Proof. unfold flush_result. destruct (Nat.leb_spec k c); [done|]. done. Qed.

Lemma commit_ok s en rng first rotate_fault fault en' l :
  good_draw rng → engine_rel s en → commit rng first rotate_fault fault en = Some (en', l) →
  ∃ s', dm_step l s s' ∧ engine_rel s' en'.
Proof.
intros Hg (files & rfiles & B & G & d & f & p & Hi) Hc. unfold commit in Hc.
destruct (en_lead en) as [[n seen]|] eqn:El; [|done]. destruct (leader_waits (en_flush en)) eqn:Ew; [done|].
pose proof (ei_log Hi) as [[Hk1 Hk2] Hb Hwf _ Hop (pre & Hq & Hpre) Hrec Hlead _].
destruct (Hlead n seen El) as [Hfe Hdf]. destruct (Hop Hfe) as (es & t & Hinv & Htf & Htd & Hes & Hre).
destruct (commit_batch _ _ _ _ _ _ _) as [r w] eqn:Ec in Hc.
assert (Hnp : ∀ k, no_panic (flush_result k seen)) by (intros k; unfold flush_result; by destruct (_ <=? _)%nat).
destruct (commit_batch_outcome rng (if first then Some (flush_result 1 seen) else None) (flush_result (if first then 2 else 1) seen)
  rotate_fault fault (take n (en_queue en))
  _ _ _ _ Hinv
  ltac:(apply Forall_take; eapply Forall_impl; [exact Hrec|]; by intros e [_ ?]) Hg ltac:(by rewrite Hk2) (Hnp _)
  ltac:(by destruct first; [apply Hnp|]) Ec)
  as (Hk1' & Hk2' & [(-> & Hfe' & Hres)|(e & -> & Hfe' & Hres)]).
- injection Hc as <- <-. set (k := length (concat (entry_writes <$> take n (en_queue en)))).
  destruct (queue_split G d _ pre n Hb Hq) as (Hkl & Hbt & Hdr). fold k in Hkl, Hbt, Hdr.
  exists (MkDurable (over (take k (dm_pending s)) (dm_committed s)) (drop k (dm_pending s))). split.
  { constructor. rewrite (ei_pending Hi), length_drop. lia. }
  assert (Hseg : ∃ es' t', wal_inv w es' ∧ (t' <= f)%nat ∧ (t' <= d + k)%nat ∧
    concat (entry_writes <$> es') = between G t' (d + k) ∧ Forall (λ e, replayable e = true) es').
  { destruct Hres as [Hw|[[Hf1 Hf2] Hw]].
    - destruct (commit_segment G d f _ pre n es t Hb Hq Hrec Htf Htd Hes Hre) as [H1 H2].
      exists (es ++ take n (en_queue en)), t. split_and!; [done|done|lia|done|done].
    - apply flush_result_ok in Hf1. assert (1 <= seen)%nat by (destruct first; lia). exists (take n (en_queue en)), d. split_and!; [done|auto|lia|done|].
      apply Forall_take. eapply Forall_impl; [exact Hrec|]. by intros x [? _]. }
  destruct Hseg as (es' & t' & Hw & Ht'f & Ht'd & Hes' & Hre').
  exists files, rfiles, B, G, (d + k)%nat, f, p.
  split; cbn [en_dir en_readers en_counter en_flush en_compact en_mem en_wal en_queue en_apply en_lead set_writers dm_committed dm_pending];
    [apply (ei_files Hi)|apply (ei_view Hi)|apply (ei_rview Hi)|apply (ei_mem Hi)| | |].
  + split; try done.
    * split; congruence.
    * rewrite <-Hk1, <-Hk1', <-Hk2, <-Hk2'. apply (recovers_inv w es'); [done|by rewrite Hk2', Hk2|].
      exists t', (d + k)%nat. split_and!; [done|done|lia|lia|done|done].
    * intros _. exists es', t'. done.
    * exists pre. done.
    * by apply Forall_drop.
    * by rewrite Ew.
  + intros ck. rewrite (ei_pending Hi). replace (take k (drop d G)) with (between G d (d + k))
      by (unfold between; f_equal; lia).
    erewrite over_ext by apply (ei_committed Hi). apply upto_between. lia.
  + by rewrite (ei_pending Hi), drop_drop.
- injection Hc as <- <-. exists s. split; [constructor|]. exists files, rfiles, B, G, d, f, p.
  split; cbn [en_dir en_readers en_counter en_flush en_compact en_mem en_wal en_queue en_apply en_lead set_writers];
    [apply (ei_files Hi)|apply (ei_view Hi)|apply (ei_rview Hi)|apply (ei_mem Hi)| |apply (ei_committed Hi)|apply (ei_pending Hi)].
  split; try done.
  + split; congruence.
  + rewrite Hk1, Hk2 in Hres. eapply recovers_mono; [exact Hres|]. intros es' [[j ->]|[[Hf1 Hf2] [j ->]]].
    * rewrite take_take. destruct (commit_segment G d f _ pre (j `min` n) es t Hb Hq Hrec Htf Htd Hes Hre) as [H1 H2].
      destruct (queue_split G d _ pre (j `min` n) Hb Hq) as (Hkl & _ & _).
      exists t, (d + length (concat (entry_writes <$> take (j `min` n) (en_queue en))))%nat. split_and!; [done|lia|lia|lia|done|done].
    * apply flush_result_ok in Hf1. assert (1 <= seen)%nat by (destruct first; lia). rewrite take_take.
      destruct (queue_split G d _ pre (j `min` n) Hb Hq) as (Hkl & Hbt & _).
      exists d, (d + length (concat (entry_writes <$> take (j `min` n) (en_queue en))))%nat.
      split_and!; [auto|lia|lia|lia|done|]. apply Forall_take. eapply Forall_impl; [exact Hrec|]. by intros x [? _].
  + intros Hx. congruence.
  + exists pre. done.
  + by rewrite Ew.
Qed.

(** ** Flushes *)

Lemma log_get_nil_all ws : (∀ ck, log_get ck ws = None) → ws = [].
Proof.
destruct ws as [|w ws] using rev_ind; [done|]. intros Hn. specialize (Hn (write_key w)). rewrite log_get_snoc, ord_eq_refl in Hn. done.
Qed.

Lemma seen_flush_ok by_leader lead fenced (d f : nat) :
  (∀ n c, lead = Some (n, c) → fenced = false ∧ ((1 <= c)%nat → (d <= f)%nat)) → (by_leader = true → (d <= f)%nat) →
  ∀ n c, seen_flush by_leader lead = Some (n, c) → fenced = false ∧ ((1 <= c)%nat → (d <= f)%nat).
Proof.
intros Hl Hb n c. unfold seen_flush. destruct by_leader; [|apply Hl]. destruct lead as [[n' c']|]; [|done].
intros [= <- <-]. simpl. destruct (Hl n' c' eq_refl). auto.
Qed.

Lemma flush_start_ok s en by_leader only_if_full en' :
  engine_rel s en → flush_start by_leader only_if_full en = Some en' → engine_rel s en'.
Proof.
intros (files & rfiles & B & G & d & f & p & Hi). unfold flush_start.
destruct (en_flush en) eqn:Ef; try done. destruct (by_leader && _); [done|].
destruct (only_if_full && _); [intros [= <-]; by exists files, rfiles, B, G, d, f, p|].
destruct (ei_mem Hi) as [Hl Hs Ho Ha Hp]. rewrite Ef in Hp. destruct Hp as [Hnp ->]. unfold flush_begin. rewrite Hl.
pose proof (ei_log Hi) as [_ Hb _ _ _ Hq Hrec Hlead _]. pose proof (ei_files Hi) as Hfo. rewrite Ef in Hfo.
destruct (sm_is_empty (mt_data (en_mem en))) eqn:Ee; intros [= <-].
- assert (Hend : p = length G).
  { assert (drop p G = []) as Hd%(f_equal length); [|rewrite length_drop in Hd; simpl in Hd; lia].
    apply log_get_nil_all. intros ck. rewrite <-Ha, <-sm_iter_get. rewrite sm_is_empty_iter in Ee. by destruct (sm_iter _). }
  exists files, rfiles, B, G, d, p, p. split; cbn; [done|apply (ei_view Hi)|apply (ei_rview Hi)| | |apply (ei_committed Hi)|apply (ei_pending Hi)].
  + by split.
  + eapply log_ok_same; [exact (ei_log Hi)|done|done| |done]. eapply seen_flush_ok; [exact Hlead|]. intros _. lia.
- exists files, rfiles, B, G, d, p, (length G). split; cbn;
    [by eapply files_ok_flush|apply (ei_view Hi)|apply (ei_rview Hi)| | |apply (ei_committed Hi)|apply (ei_pending Hi)].
  + split; cbn; [done| |lia| |].
    * split; cbn; [by rewrite map_size_new|by rewrite sm_len_new].
    * intros ck. rewrite sm_get_new, drop_ge by lia. done.
    * split; [done|]. intros ck. rewrite Ha, between_end by lia. done.
  + eapply log_ok_same; [exact (ei_log Hi)|done..|]. intros _. lia.
Qed.

Lemma fold_back_ok s en by_leader parked dir en' :
  engine_rel s en → en_flush en = FlushParked by_leader parked → dir = en_dir en →
  flush_fold_back parked dir en = Some en' → engine_rel s en'.
Proof.
intros (files & rfiles & B & G & d & f & p & Hi) Ef -> Hfb. unfold flush_fold_back in Hfb.
destruct (ei_mem Hi) as [Hl Hs Ho Ha Hp]. rewrite Ef in Hp. destruct Hp as [Hfl Hx].
destruct (flush_failed_spec parked (en_mem en) Hl Hs) as (mem' & Hm & Hg & Hn & Hl' & Hs'). rewrite Hm in Hfb.
injection Hfb as <-. pose proof (ei_log Hi) as [_ Hb _ _ _ Hq Hrec Hlead _]. pose proof (ei_files Hi) as Hfo. rewrite Ef in Hfo.
exists files, rfiles, B, G, d, f, f. split; cbn; [|apply (ei_view Hi)|apply (ei_rview Hi)| | |apply (ei_committed Hi)|apply (ei_pending Hi)].
- eapply files_ok_counter; [by eapply files_ok_flush|lia].
- split; [done|done|lia| |done]. intros ck. rewrite Hg, Ha, Hx. rewrite <-(between_end G f), (between_app G f p (length G)), log_get_app by lia.
  rewrite between_end by lia. by destruct (log_get ck (drop p G)).
- by eapply log_ok_same; [exact (ei_log Hi)|..].
Qed.

Lemma newest_first_insert_top n (es : list Entry) (files : Files) :
  (∀ n' es', files !! n' = Some es' → n' < n) → newest_first (<[n := es]> files) = (n, es) :: newest_first files.
Proof.
intros Ht. apply newest_first_unique.
- constructor; [apply newest_first_sorted|]. apply Forall_forall. intros [n' es'] Hin. simpl.
  apply elem_of_newest_first in Hin. eauto.
- intros n' x. rewrite elem_of_cons, elem_of_newest_first. destruct (decide (n' = n)) as [->|Hne].
  + rewrite lookup_insert_eq. split; [|intros [= <-]; by left]. intros [[= ->]|Hf]; [done|]. apply Ht in Hf. lia.
  + rewrite lookup_insert_ne by done. split; [|by right]. by intros [[= ->]|?].
Qed.

Lemma readers_opened readers files r es :
  readers_hold readers files → r ∈ readers → files !! sr_sst_number r = Some es → opened r es.
Proof.
intros Hr Hin Hf. apply list_elem_of_lookup in Hin as [i Hi]. destruct (Forall2_lookup_l _ _ _ _ _ Hr Hi) as ([n es'] & Hl & Ho & Hn).
simpl in *. apply list_elem_of_lookup_2, elem_of_newest_first in Hl. rewrite Hn, Hl in Hf. by injection Hf as <-.
Qed.

Lemma flush_write_ok s en rng io_ok en' :
  good_draw rng → engine_rel s en → flush_write keks allow rng io_ok en = Some en' → engine_rel s en'.
Proof.
intros Hgd Hrel Hfw. unfold flush_write in Hfw. destruct (en_flush en) as [|b X|b|] eqn:Ef; try done.
destruct (u64_max <=? en_counter en); [done|].
destruct (if io_ok then _ else _) as [file|e|] eqn:Ew; [|by eapply fold_back_ok..].
destruct (Z.ltb_spec u64_max (zlen file)) as [|Hz]; [by eapply fold_back_ok|].
destruct io_ok; [|done]. destruct Hrel as (files & rfiles & B & G & d & f & p & Hi).
pose proof (ei_log Hi) as [_ Hb Hwf _ _ Hq Hrec Hlead Hro]. destruct (ei_mem Hi) as [Hl Hs Ho Ha Hp]. rewrite Ef in Hp, Hro.
destruct Hp as [Hfl Hx]. pose proof (ei_files Hi) as [Hd Hr Hc Hcp]. rewrite Ef in Hcp.
assert (Hsame : rfiles = files) by (destruct (en_compact en); [by destruct Hcp|by destruct Hcp|by destruct Hcp]). subst rfiles.
assert (Hfh : file_holds keks (en_counter en) file (sm_iter X)).
{ eapply flush_file_holds; [by eauto|done|apply sm_iter_sorted| |done|done].
  eapply parked_wf; [exact Hx|]. by apply between_wf. }
assert (Hd' : dir_holds keks (<[en_counter en := file]> (en_dir en)) (<[en_counter en := sm_iter X]> files)) by (by apply dir_holds_insert).
destruct (load_listed_ok keks _ _ allow (en_readers en) Hd') as (readers' & Hload & Hr').
{ intros r es Hin Hl'. destruct (decide (sr_sst_number r = en_counter en)) as [E|Hne].
  - apply list_elem_of_lookup in Hin as [i Hi']. destruct (Forall2_lookup_l _ _ _ _ _ Hr Hi') as ([n es'] & Hl2 & _ & Hn).
    apply list_elem_of_lookup_2, elem_of_newest_first in Hl2. apply Hc in Hl2. simpl in Hn. lia.
  - rewrite lookup_insert_ne in Hl' by done. by eapply readers_opened. }
rewrite Hload in Hfw. injection Hfw as <-.
assert (Hv : ∀ ck, files_view (<[en_counter en := sm_iter X]> files) ck = upto B G p ck).
{ intros ck. eapply publish_view; [exact Ho|exact Hx|exact Hc|apply (ei_view Hi)]. }
exists (<[en_counter en := sm_iter X]> files), (<[en_counter en := sm_iter X]> files), B, G, d, p, p.
split; cbn; [|done|done| | |apply (ei_committed Hi)|apply (ei_pending Hi)].
- split; [done|done| |].
  + intros n es Hn. destruct (decide (n = en_counter en)) as [->|]; [lia|]. rewrite lookup_insert_ne in Hn by done.
    apply Hc in Hn. lia.
  + destruct (en_compact en) as [|full pl out|full pl out i]; [done| |by destruct Hcp].
    destruct Hcp as (_ & _ & above & l & below & Hnf & [Hp1 Hp2 Hp3 Hp4 Hp5 Hp6] & Hout & Ht & Hfull).
    split_and!; [done..|]. exists ((en_counter en, sm_iter X) :: above), l, below.
    split_and!; [by rewrite newest_first_insert_top, Hnf| |done|lia|].
    * split; try done. by constructor.
    * intros Hf. rewrite lookup_insert_ne by lia. auto.
- split; [done|done|lia|done|]. split; [done|]. exists X, f. split_and!; [lia|done|done].
- rewrite <-(app_nil_r G). eapply log_ok_change; [exact (ei_log Hi)|constructor|lia|by rewrite app_nil_r|done| |exact Hro].
  intros n c Hlc. destruct (Hlead n c Hlc) as [? Hdf]. split; [done|]. intros Hle. specialize (Hdf Hle). lia.
Qed.

Lemma flush_finish_ok s en en' : engine_rel s en → flush_finish en = Some en' → engine_rel s en'.
Proof.
intros (files & rfiles & B & G & d & f & p & Hi). unfold flush_finish. destruct (en_flush en) as [|b X|b|] eqn:Ef; try done.
intros [= <-]. destruct (ei_mem Hi) as [Hl Hs Ho Ha Hp]. rewrite Ef in Hp. destruct Hp as [-> _].
pose proof (ei_log Hi) as [_ Hb _ _ _ Hq Hrec Hlead Hro]. rewrite Ef in Hro. pose proof (ei_files Hi) as Hfo. rewrite Ef in Hfo.
exists files, rfiles, B, G, d, p, p.
split; cbn; [by eapply files_ok_flush|apply (ei_view Hi)|apply (ei_rview Hi)| | |apply (ei_committed Hi)|apply (ei_pending Hi)].
- split; cbn; [done| |lia|done|done]. destruct Hs as [Hs Hs']. split; cbn; [exact Hs|]. rewrite Hl. exact Hs'.
- eapply log_ok_same; [exact (ei_log Hi)|done|done| |done]. eapply seen_flush_ok; [exact Hlead|]. intros ->. by apply Hro.
Qed.

(** ** Compactions *)

Lemma rel_compact s en flush compact readers dir counter files rfiles files' rfiles' B G d f p :
  engine_inv s en files rfiles B G d f p →
  files_ok dir readers counter flush compact files' rfiles' →
  (∀ ck, files_view files' ck = files_view rfiles ck) → (∀ ck, files_view rfiles' ck = files_view rfiles ck) →
  (flush = en_flush en ∨ flush ∈ [FlushIdle; FlushCommit] ∧ en_flush en ∈ [FlushIdle; FlushCommit]) →
  engine_inv s (set_compact flush compact readers dir counter en) files' rfiles' B G d f p.
Proof.
intros Hi Hf Hv Hrv Hfl. split; cbn; [done| | | | |apply (ei_committed Hi)|apply (ei_pending Hi)].
- intros ck. rewrite Hv. apply (ei_rview Hi).
- intros ck. rewrite Hrv. apply (ei_rview Hi).
- destruct (ei_mem Hi) as [Hl Hs Ho Ha Hp]. split; try done. destruct Hfl as [->|[H1 H2]]; [done|].
  rewrite !elem_of_cons, elem_of_nil in H1, H2. destruct H1 as [->|[->|[]]], H2 as [E|[E|[]]]; by rewrite E in Hp.
- pose proof (ei_log Hi) as [_ Hb _ _ _ Hq Hrec Hlead Hro]. eapply log_ok_same; [exact (ei_log Hi)|done..|].
  destruct Hfl as [->|[H1 _]]; [done|]. rewrite !elem_of_cons, elem_of_nil in H1. destruct H1 as [->|[->|[]]]; done.
Qed.

Lemma rel_same s en flush compact readers dir counter files rfiles B G d f p :
  engine_inv s en files rfiles B G d f p →
  files_ok dir readers counter flush compact files rfiles →
  (flush = en_flush en ∨ flush ∈ [FlushIdle; FlushCommit] ∧ en_flush en ∈ [FlushIdle; FlushCommit]) →
  engine_rel s (set_compact flush compact readers dir counter en).
Proof.
intros Hi Hf Hfl. exists files, rfiles, B, G, d, f, p. eapply rel_compact; [done|done| |done|done].
intros ck. by rewrite (ei_view Hi), (ei_rview Hi).
Qed.

Lemma compact_merge_ok s en rng full plan counter :
  good_draw rng → engine_rel s en → en_compact en = CompactIdle → en_counter en <= counter →
  (∀ p files, readers_hold (en_readers en) files → (∀ n es, files !! n = Some es → n < en_counter en) → plan = Some p →
     ∃ above l below, newest_first files = above ++ l ++ below ∧ plan_fits p above l below ∧ cp_target p < counter ∧
       (full = true → files !! cp_target p = None)) →
  engine_rel s (compact_merge keks rng full plan counter en).
Proof.
intros Hg (files & rfiles & B & G & d & f & p & Hi) Ec Hle Hplan. unfold compact_merge.
pose proof (ei_files Hi) as Hfo. rewrite Ec in Hfo. pose proof Hfo as [Hd Hr Hc [Hsame Hfl]]. simpl in Hsame. subst rfiles.
destruct plan as [pl|]; [|by exists files, files, B, G, d, f, p].
assert (Hdone : engine_rel s (set_compact (en_flush en) CompactIdle (en_readers en) (en_dir en) counter en)).
{ eapply rel_same; [exact Hi| |by left]. by eapply files_ok_counter. }
destruct (compact_file keks rng pl) as [out|e|] eqn:Eo; [|done..].
destruct (Z.ltb_spec u64_max (zlen out)) as [|Hz]; [done|].
eapply rel_same; [exact Hi| |by left].
destruct (Hplan pl files Hr Hc eq_refl) as (above & l & below & Hnf & Hfit & Ht & Hfull).
split; [done|done| |].
- intros n es Hn. apply Hc in Hn. lia.
- split_and!; [done|done|]. exists above, l, below. split_and!; try done.
  eapply compact_file_holds; [by eauto|done..].
Qed.

Lemma compact_full_ok s en rng min en' :
  good_draw rng → engine_rel s en → compact_full keks rng min en = Some en' → engine_rel s en'.
Proof.
intros Hg Hrel. unfold compact_full. destruct (en_compact en) eqn:Ec; [|done..]. destruct (en_flush en); try done.
destruct (_ <=? _); [done|]. intros [= <-]. apply compact_merge_ok; [done..|lia|].
intros p files Hr Hc Hp. destruct (plan_full_fits _ _ _ _ _ Hr Hc Hp) as [Hfit Ht].
exists [], (newest_first files), []. rewrite app_nil_r, Ht. split_and!; [done|done|lia|].
intros _. destruct (files !! en_counter en) as [es|] eqn:E; [apply Hc in E; lia|done].
Qed.

Lemma compact_partial_ok s en rng mm en' :
  good_draw rng → engine_rel s en → compact_partial keks rng mm en = Some en' → engine_rel s en'.
Proof.
intros Hg Hrel. unfold compact_partial. destruct (en_compact en) eqn:Ec; [|done..]. intros [= <-].
apply compact_merge_ok; [done..|]. intros p files Hr Hc Hp.
destruct (plan_partial_fits _ _ _ _ Hr Hp) as (above & l & below & Hnf & Hfit & Hin). exists above, l, below.
split_and!; [done|done| |done]. apply list_elem_of_fmap in Hin as ([n es] & E & Hin). rewrite E. eapply Hc.
apply elem_of_newest_first. rewrite Hnf, !elem_of_app. eauto.
Qed.

Lemma commit_counter p (out : list Entry) i (files : Files) counter :
  (∀ n es, files !! n = Some es → n < counter) → cp_target p < counter →
  ∀ n es, commit_state p out i files !! n = Some es → n < counter.
Proof.
intros Hc Ht n es. rewrite commit_state_lookup. destruct (decide _); [done|].
destruct (decide (n = cp_target p)) as [->|]; [done|]. rewrite lookup_insert_ne by done. apply Hc.
Qed.

Lemma compact_rename_ok s en en' : engine_rel s en → compact_rename en = Some en' → engine_rel s en'.
Proof.
intros (files & rfiles & B & G & d & f & p & Hi). unfold compact_rename.
destruct (en_compact en) as [|full pl out|] eqn:Ec; try done. destruct (en_flush en) eqn:Ef; try done. intros [= <-].
pose proof (ei_files Hi) as [Hd Hr Hc Hcp]. rewrite Ec, Ef in Hcp.
destruct Hcp as (-> & _ & above & l & below & Hnf & Hfit & Hout & Ht & Hfull).
exists (commit_state pl (plan_output pl l) 0 files), files, B, G, d, f, p. eapply rel_compact; [exact Hi| | |done|].
- split; [by apply commit_state_holds|done|by apply commit_counter|]. split; [done|]. exists above, l, below. by split_and!.
- intros ck. by apply (fits_view pl files above l below).
- right. rewrite Ef. split; [right; left|left].
Qed.

Lemma commit_state_snoc {A} p (out : A) i n (dir : gmap Z A) :
  cp_unlinks p !! i = Some n → commit_state p out (S i) dir = base.delete n (commit_state p out i dir).
Proof. intros Hn. unfold commit_state. by rewrite (take_S_r _ _ _ Hn), foldl_app. Qed.

Lemma compact_unlink_ok s en en' : engine_rel s en → compact_unlink en = Some en' → engine_rel s en'.
Proof.
intros (files & rfiles & B & G & d & f & p & Hi). unfold compact_unlink.
destruct (en_compact en) as [|full pl out|full pl out i] eqn:Ec; try done. destruct (cp_unlinks pl !! i) as [n|] eqn:En; [|done].
intros [= <-]. pose proof (ei_files Hi) as [Hd Hr Hc Hcp]. rewrite Ec in Hcp.
destruct Hcp as (Hf & above & l & below & Hnf & Hfit & Ht & Hfull & ->).
exists (commit_state pl (plan_output pl l) (S i) rfiles), rfiles, B, G, d, f, p. eapply rel_compact; [exact Hi| | |done|by left].
- split; [rewrite (commit_state_snoc _ _ _ _ _ En); by apply map_Forall2_delete|done| |].
  + intros m es. rewrite (commit_state_snoc _ _ _ _ _ En). intros [_ Hm]%lookup_delete_Some. by eapply Hc.
  + split; [done|]. exists above, l, below. by split_and!.
- intros ck. by apply (fits_view pl rfiles above l below).
Qed.

Lemma compact_publish_ok s en en' : engine_rel s en → compact_publish keks allow en = Some en' → engine_rel s en'.
Proof.
intros (files & rfiles & B & G & d & f & p & Hi). unfold compact_publish.
destruct (en_compact en) as [|full pl out|full pl out i] eqn:Ec; try done. destruct (cp_unlinks pl !! i) as [n|] eqn:En; [done|].
pose proof (ei_files Hi) as [Hd Hr Hc Hcp]. rewrite Ec in Hcp.
destruct Hcp as (Hf & above & l & below & Hnf & Hfit & Ht & Hfull & Hfiles).
assert (Hun : ∀ r es, r ∈ en_readers en → sr_sst_number r ≠ cp_target pl → files !! sr_sst_number r = Some es → opened r es).
{ intros r es Hin Hne Hl. rewrite Hfiles, commit_state_lookup in Hl. destruct (decide _); [done|].
  rewrite lookup_insert_ne in Hl by done. by eapply readers_opened. }
assert (Hload : ∃ readers', (if full then publish_full keks (en_dir en) allow (en_readers en)
  else publish_partial keks (en_dir en) allow pl (en_readers en)) = Ok readers' ∧ readers_hold readers' files).
{ destruct full; [apply load_listed_ok; [done|]|apply load_listed_ok; [done|]].
  - intros r es Hin Hl. apply Hun; [done| |done]. intros E. specialize (Hfull eq_refl).
    apply list_elem_of_lookup in Hin as [j Hj]. destruct (Forall2_lookup_l _ _ _ _ _ Hr Hj) as ([m es'] & Hl2 & _ & Hm).
    apply list_elem_of_lookup_2, elem_of_newest_first in Hl2. simpl in Hm. congruence.
  - intros r es [[Hne _] Hin]%list_elem_of_filter Hl. by apply Hun. }
destruct Hload as (readers' & -> & Hr'). intros [= <-].
exists files, files, B, G, d, f, p. eapply rel_compact; [exact Hi|by split| | |].
- intros ck. by rewrite (ei_view Hi), (ei_rview Hi).
- intros ck. by rewrite (ei_view Hi), (ei_rview Hi).
- right. rewrite Hf. split; [left|right; left].
Qed.

(** ** Opening *)

Lemma max_sst_num_ge readers r : r ∈ readers → sr_sst_number r <= max_sst_num readers.
Proof.
induction readers as [|r' readers IH]; [by intros ?%elem_of_nil|]. unfold max_sst_num in *. simpl.
intros [->|Hin]%elem_of_cons; [lia|]. specialize (IH Hin). lia.
Qed.

(** An engine opened over a segment and files: the replayed writes over the files. *)
Lemma open_engine_ok rng segment dir files en (P : list WalEntry → Prop) :
  good_draw rng → recovers kek SYSTEM_REALM segment P → dir_holds keks dir files →
  (∀ es, P es → Forall (λ e, replayable e = true) es ∧ Forall write_wf (concat (entry_writes <$> es))) →
  open_engine keks allow wal_config mem_config rng segment dir = Ok en →
  ∃ es, P es ∧ engine_rel (MkDurable (over (concat (entry_writes <$> es)) (files_view files)) []) en.
Proof.
intros Hg Hrec Hd HP Ho. unfold open_engine in Ho. rewrite Hkek in Ho. cbn [ok_or mbind outcome_bind] in Ho.
bind_inv Ho x Hw. destruct x as [w ops]. destruct (Hrec rng wal_config w ops Hg Hw) as (es & Hi & Hfe & Hk1 & Hk2 & HPes).
destruct (HP es HPes) as [Hre Hwf]. exists es. split; [done|]. rewrite (wal_inv_read w es Hi) in Ho.
cbn [mbind outcome_bind] in Ho.
destruct (replay_wrote es (Memtable.new (M := M) mem_config) eq_refl Hre) as (mem & Hrp & Hwr). rewrite Hrp in Ho.
cbn [mbind outcome_bind] in Ho. destruct (load_listed_ok keks dir files allow [] Hd) as (readers & Hload & Hr);
  [by intros r es' ?%elem_of_nil|].
rewrite Hload in Ho. cbn [mbind outcome_bind] in Ho. injection Ho as <-.
set (G := concat (entry_writes <$> es)) in *. destruct Hwr as (Hget & Hfl & Hl & _ & Hs).
exists files, files, (files_view files), G, (length G), 0%nat, 0%nat.
split; cbn [en_dir en_readers en_counter en_flush en_compact en_mem en_wal en_queue en_apply en_lead dm_committed dm_pending].
- split; [done|done| |done]. intros n es' Hn.
  assert (Hin : n ∈ sr_sst_number <$> readers) by (rewrite (readers_numbers _ _ Hr), elem_of_newest_first_keys; eauto).
  apply list_elem_of_fmap in Hin as (r & -> & Hin). apply max_sst_num_ge in Hin. lia.
- done.
- done.
- split; [done| |lia| |done].
  + apply Hs. split; cbn; [by rewrite map_size_new|by rewrite sm_len_new].
  + intros ck. rewrite Hget, drop_0. cbn. rewrite sm_get_new. by destruct (log_get ck G).
- split; try done.
  + rewrite <-Hk1, <-Hk2. apply (recovers_inv w es); [done|by rewrite Hk2|]. exists 0%nat, (length G).
    split_and!; [lia..| |done]. by rewrite between_end, drop_0 by lia.
  + intros _. exists es, 0%nat. split_and!; [done|lia|lia| |done]. by rewrite between_end, drop_0 by lia.
  + exists []. by rewrite drop_all.
- intros ck. unfold upto. by rewrite take_ge.
- by rewrite drop_all.
Qed.

Lemma crash_ok s en rng en' :
  good_draw rng → engine_rel s en →
  open_engine keks allow wal_config mem_config rng (w_file (en_wal en)) (en_dir en) = Ok en' →
  ∃ s', dm_step LCrash s s' ∧ engine_rel s' en'.
Proof.
intros Hg (files & rfiles & B & G & d & f & p & Hi) Ho.
pose proof (ei_log Hi) as [_ Hb Hwf Hdisk _ _ _ _ _]. destruct (ei_mem Hi) as [_ _ Hfp _ _].
destruct (open_engine_ok rng _ _ files en' (segment_ok G d f) Hg Hdisk (fo_dir (ei_files Hi))) as (es & Hseg & Hrel); [|exact Ho|].
{ intros es (t & d' & _ & _ & _ & Hc & Hre). split; [done|]. rewrite Hc. by apply between_wf. }
eexists. split; [|exact Hrel]. constructor. intros ck.
destruct Hseg as (t & d' & Htf & Htd & Hdd & -> & _).
assert (Hat : ∀ i, (d <= i <= length G)%nat → ∃ j, upto B G i ck = over (take j (dm_pending s)) (dm_committed s) ck).
{ intros i Hdi. exists (i - d)%nat. rewrite (ei_pending Hi). erewrite over_ext by apply (ei_committed Hi).
  symmetry. apply (upto_between B G d d i). lia. }
destruct (log_get ck (between G t d')) as [v|] eqn:El.
- rewrite (upto_written B) by (lia || congruence). apply Hat. lia.
- unfold over at 1. rewrite El, (ei_view Hi). destruct (decide (d <= f)%nat); [apply Hat; lia|].
  assert (Hn : log_get ck (between G f d) = None).
  { rewrite (between_app G t f d'), (between_app G f d d'), !log_get_app in El by lia.
    destruct (log_get ck (between G d d')); [done|]. by destruct (log_get ck (between G f d)). }
  rewrite <-(upto_unwritten B G f d ck) by (lia || done). apply Hat. lia.
Qed.

(** ** The refinement *)

(** The random source gave a key and a nonce of their sizes. *)
Definition event_ok (ev : Event) : Prop :=
  match ev with
  | EvCommit rng _ _ _ | EvFlushWrite rng _ | EvCompactFull rng _ | EvCompactPartial rng _ | EvCrash rng => good_draw rng
  | _ => True
  end.

Lemma engine_step s en ev en' l :
  event_ok ev → engine_rel s en → engine_exec keks allow wal_config mem_config ev en = Some (en', l) →
  ∃ s', dm_step l s s' ∧ engine_rel s' en'.
Proof.
assert (Htau : ∀ o, tau o = Some (en', l) → (o = Some en' → engine_rel s en') → ∃ s', dm_step l s s' ∧ engine_rel s' en').
{ intros [en1|] Ht Hr; [|done]. injection Ht as -> <-. exists s. split; [constructor|auto]. }
intros Hev Hrel Hx. destruct ev as [op now| | |n|rng fi rf fl|b o|rng io| |rng mn|rng mm| | | |rng]; simpl in Hx, Hev.
- eapply Htau; [exact Hx|]. by apply begin_op_ok.
- by eapply apply_op_ok.
- eapply Htau; [exact Hx|]. by apply queue_op_ok.
- eapply Htau; [exact Hx|]. by apply lead_ok.
- by eapply commit_ok.
- eapply Htau; [exact Hx|]. by apply flush_start_ok.
- eapply Htau; [exact Hx|]. by apply flush_write_ok.
- eapply Htau; [exact Hx|]. by apply flush_finish_ok.
- eapply Htau; [exact Hx|]. by apply compact_full_ok.
- eapply Htau; [exact Hx|]. by apply compact_partial_ok.
- eapply Htau; [exact Hx|]. by apply compact_rename_ok.
- eapply Htau; [exact Hx|]. by apply compact_unlink_ok.
- eapply Htau; [exact Hx|]. by apply compact_publish_ok.
- destruct (open_engine _ _ _ _ _ _ _) as [en1| |] eqn:Eo; [|done..]. injection Hx as -> <-. by eapply crash_ok.
Qed.

Lemma engine_run_ok s en evs en' ls :
  Forall event_ok evs → engine_rel s en → engine_run keks allow wal_config mem_config evs en = Some (en', ls) →
  ∃ s', dm_run ls s s' ∧ engine_rel s' en'.
Proof.
intros Hevs. revert s en ls. induction Hevs as [|ev evs Hev _ IH]; intros s en ls Hrel Hx.
{ injection Hx as -> <-. exists s. split; [constructor|done]. }
cbn [engine_run] in Hx. destruct (engine_exec _ _ _ _ ev en) as [[en1 l]|] eqn:E1; [|done]. cbn [mbind option_bind] in Hx.
destruct (engine_run _ _ _ _ evs en1) as [[en2 ls2]|] eqn:E2; [|done]. injection Hx as -> <-.
destruct (engine_step _ _ _ _ _ Hev Hrel E1) as (s1 & Hs1 & Hr1). destruct (IH s1 en1 ls2 Hr1 E2) as (s2 & Hs2 & Hr2).
exists s2. split; [|done]. by econstructor.
Qed.

Lemma fresh_engine_ok rng en :
  good_draw rng → open_engine keks allow wal_config mem_config rng [] ∅ = Ok en → ∃ s, engine_rel s en ∧
    dm_pending s = [] ∧ ∀ ck, dm_committed s ck = None.
Proof.
intros Hg Ho.
assert (Hrec : recovers kek SYSTEM_REALM [] (λ es, es = [])).
{ intros rng' config w ops Hg' Hw. destruct (new_segment_key_ok rng' kek SYSTEM_REALM Hg' eq_refl) as (dek & h & Hn & Hh & Hu).
  destruct (open_fresh rng' config kek SYSTEM_REALM h 0 Hg' eq_refl Hh) as (w' & ops' & Hw' & Hi & Hf & Hk & _); [lia|].
  rewrite take_0, Hw in Hw'. injection Hw' as -> ->. exists []. split_and!; [done..|by eapply open_keys|done]. }
destruct (open_engine_ok rng [] ∅ ∅ en _ Hg Hrec (dir_holds_empty keks)) as (es & -> & Hrel); [|exact Ho|].
- intros es ->. split; constructor.
- eexists. split; [exact Hrel|]. split; [done|]. intros ck. simpl. unfold over, files_view. simpl.
  by rewrite (files_get_eq ck ∅ None).
Qed.

Lemma engine_rel_ext s s' en :
  engine_rel s en → (∀ ck, dm_committed s ck = dm_committed s' ck) → dm_pending s = dm_pending s' → engine_rel s' en.
Proof.
intros (files & rfiles & B & G & d & f & p & [H1 H2 H3 H4 H5 H6 H7]) Hc Hp. exists files, rfiles, B, G, d, f, p.
split; try done; [intros ck; by rewrite <-Hc|congruence].
Qed.


(** ** Conditional writes *)

Lemma engine_get_ok s en caches hot r key :
  engine_rel s en → (∀ rd, rd ∈ en_readers en → cache_of rd (caches rd)) →
  (∀ v, hot r key = Some v → dm_read s (CKey r key) = Some v) →
  ∃ fill, engine_get hot (en_store caches en) r key = Ok (dm_read s (CKey r key), fill).
Proof.
intros Hr Hc Hh. destruct (engine_view s en caches Hr Hc) as (ess & Hst & Hv). unfold engine_get.
destruct (hot r key) as [v|] eqn:E; [rewrite (Hh v eq_refl); eauto|].
rewrite (get_layers_ok _ ess) by done. rewrite Hv. cbn [mbind outcome_bind]. eauto.
Qed.

(** The writes of an operation, once they are all applied and queued. *)
Lemma write_run s en op now en' ls :
  engine_rel s en → w_fenced (en_wal en) = false → en_apply en = None → (∃ e, op_entry now op = Ok (Some e)) →
  engine_run keks allow wal_config mem_config (EvBegin op now :: repeat EvApply (length (op_apply op)) ++ [EvQueue]) en =
    Some (en', ls) →
  ∃ s', engine_rel s' en' ∧ dm_committed s' = dm_committed s ∧
    dm_pending s' = dm_pending s ++ concat (memop_writes <$> op_apply op).
Proof.
intros Hrel Hf Ha [e He] Hrun. cbn [engine_run engine_exec] in Hrun. unfold begin_op in Hrun. rewrite Hf, Ha, He in Hrun.
destruct (record_fits e) eqn:Er; [|done]. cbn [tau fmap option_fmap option_map mbind option_bind] in Hrun.
set (en1 := set_writers (en_wal en) (en_queue en) (Some (e, op_apply op)) (en_lead en) (en_mem en) en) in *.
assert (Hrel1 : engine_rel s en1).
{ apply (begin_op_ok s en op now); [done|]. unfold begin_op. by rewrite Hf, Ha, He, Er. }
assert (Hgen : ∀ parts s1 en2 en3 ls3, engine_rel s1 en2 → en_apply en2 = Some (e, parts) →
  engine_run keks allow wal_config mem_config (repeat EvApply (length parts) ++ [EvQueue]) en2 = Some (en3, ls3) →
  ∃ s', engine_rel s' en3 ∧ dm_committed s' = dm_committed s1 ∧
    dm_pending s' = dm_pending s1 ++ concat (memop_writes <$> parts)).
{ induction parts as [|m parts IH]; intros s1 en2 en3 ls3 Hr2 Ha2 Hx.
  - cbn [length repeat app engine_run engine_exec] in Hx. destruct (queue_op en2) as [en4|] eqn:Eq; [|done].
    cbn [tau fmap option_fmap option_map mbind option_bind] in Hx. injection Hx as <- _. exists s1.
    split; [by eapply queue_op_ok|]. split; [done|]. by rewrite app_nil_r.
  - cbn [length repeat app engine_run engine_exec] in Hx. destruct (apply_op en2) as [[en4 l4]|] eqn:Eq; [|done].
    cbn [mbind option_bind] in Hx.
    destruct (engine_run keks allow wal_config mem_config (repeat EvApply (length parts) ++ [EvQueue]) en4) as [[en5 ls5]|] eqn:E5; [|done].
    injection Hx as <- _. destruct (apply_op_ok _ _ _ _ Hr2 Eq) as (s2 & Hs2 & Hr4).
    unfold apply_op in Eq. rewrite Ha2 in Eq. destruct (exec_memop m (en_mem en2)); [|done..]. injection Eq as <- <-.
    inversion Hs2; subst. destruct (IH _ _ _ _ Hr4 eq_refl E5) as (s' & Hr' & Hc' & Hp'). exists s'.
    split; [done|]. split; [by rewrite Hc'|]. rewrite Hp'. simpl. by rewrite <-app_assoc. }
destruct (engine_run _ _ _ _ (repeat _ _ ++ _) en1) as [[en2 ls2]|] eqn:E2; [|done]. injection Hrun as <- _.
exact (Hgen (op_apply op) s en1 en2 ls2 Hrel1 eq_refl E2).
Qed.


End refines.

(** ** Instances *)

Definition ex_wal_config : WalConfig := MkWalConfig 4096 EveryWrite.
Definition ex_realm : RealmId := repeat x01 16.

Definition ex_start : res (Engine ref_map) :=
  @open_engine toy_aead toy_crc ref_map _ ex_keks false ex_wal_config Memtable.wit_config wit_draw [] ∅.

Definition ex_run (evs : list Event) : option (Engine ref_map * list Label) :=
  match ex_start with
  | Ok en => engine_run (HA := toy_aead) (HC := toy_crc) ex_keks false ex_wal_config Memtable.wit_config evs en
  | _ => None
  end.

Definition ex_read (o : option (Engine ref_map * list Label)) (key : list byte) : option (res (option (list byte))) :=
  (λ p, get_layers (HA := toy_aead) (HC := toy_crc) (en_store (λ _ _, None) p.1) ex_realm key false) <$> o.

(** A write of one record, and its commit. *)
Definition ex_write (op : Op) : list Event :=
  EvBegin op 1 :: repeat EvApply (length (op_apply op)) ++ [EvQueue].
Definition ex_commit : list Event := [EvLead 1; EvCommit wit_draw true RotateOk CommitOk].
Definition ex_flush : list Event := [EvFlushBegin false false; EvFlushWrite wit_draw true; EvFlushDone].

(** A batch is not atomic across a crash. A key is written and acknowledged; then
a [put_batch] of two keys, which the code says is all-or-nothing, has applied to the
memtable and waits for its commit, while a flush by another writer puts both its keys
into an SST. After a crash the log replays the old value of the first key over the
SST, and the second key has its new value. *)
Theorem unacknowledged_batch_torn :
  let torn := ex_run (ex_write (OPut ex_realm [x61] [x31]) ++ ex_commit ++
    ex_write (OPutBatch ex_realm [([x61], [x41]); ([x62], [x42])]) ++ ex_flush ++ [EvCrash wit_draw]) in
  ex_read torn [x61] = Some (Ok (Some [x31])) ∧ ex_read torn [x62] = Some (Ok (Some [x42])).
Proof. vm_compute. split; reflexivity. Qed.

(** Two flushed files, a partial compaction that a crash interrupts after the rename,
and a write that was not acknowledged. *)
Definition ex_events : list Event :=
  ex_write (OPut ex_realm [x61] [x31]) ++ ex_commit ++ ex_flush ++
  ex_write (OWriteBatch ex_realm [([x62], [x32])] [[x61]]) ++ ex_commit ++ ex_flush ++
  [EvCompactPartial wit_draw 2; EvCompactRename] ++
  ex_write (OPut ex_realm [x63] [x33]) ++ [EvCrash wit_draw].


Definition ex_no_cache : BlockCaches := λ _ _, None.

