(* ===== verification/OrdSet.v ===== *)
(** * Ordered sets

[BTreeSet] of Rust's standard library, as a strictly ascending list, and the
iteration order of [HashSet], which the library leaves unspecified. *)
From stdpp Require Import base list gmap sorting lexico.
From Stdlib Require Import ZArith Lia.
From S2P Require Import Prelude OrdMap.

Section bset.
Context {K : Type} `{KeyOrder K}.
Implicit Types (k : K) (s : list K).

(** [BTreeSet::insert], [extend] and [collect]; [contains] is membership. *)
Fixpoint bs_insert k s : list K :=
  match s with
  | [] => [k]
  | k' :: s' =>
      match ord_cmp k k' with
      | Lt => k :: s
      | Eq => s
      | Gt => k' :: bs_insert k s'
      end
  end.
Definition bs_extend (ks s : list K) : list K := foldl (λ acc k, bs_insert k acc) s ks.
Definition bs_collect (ks : list K) : list K := bs_extend ks [].

Definition bs_sorted s : Prop := StronglySorted lexico s.

Lemma elem_of_bs_insert x k s : x ∈ bs_insert k s ↔ x = k ∨ x ∈ s.
Proof.
induction s as [|k' s IH]; simpl; [by rewrite list_elem_of_singleton, elem_of_nil; naive_solver|].
pose proof (ord_cmp_spec k k') as Hc. destruct (ord_cmp k k').
- subst. rewrite elem_of_cons. naive_solver.
- by rewrite !elem_of_cons.
- rewrite !elem_of_cons, IH. naive_solver.
Qed.

Lemma bs_insert_sorted k s : bs_sorted s → bs_sorted (bs_insert k s).
Proof.
induction 1 as [|k' s Hs IH Hf]; simpl; [repeat constructor|].
pose proof (ord_cmp_spec k k') as Hc. destruct (ord_cmp k k').
- by constructor.
- constructor; [by constructor|]. constructor; [done|]. eapply Forall_impl; [exact Hf|]. intros x Hx. by etrans.
- constructor; [done|]. apply Forall_forall. intros x [->|Hx]%elem_of_bs_insert; [done|]. by eapply Forall_forall in Hf.
Qed.

Lemma elem_of_bs_extend x ks s : x ∈ bs_extend ks s ↔ x ∈ ks ∨ x ∈ s.
Proof.
unfold bs_extend. revert s. induction ks as [|k ks IH]; intros s; simpl; [rewrite elem_of_nil; naive_solver|].
rewrite IH, elem_of_bs_insert, elem_of_cons. naive_solver.
Qed.

Lemma bs_extend_sorted ks s : bs_sorted s → bs_sorted (bs_extend ks s).
Proof. unfold bs_extend. revert s. induction ks as [|k ks IH]; intros s Hs; simpl; [done|]. by apply IH, bs_insert_sorted. Qed.

Lemma elem_of_bs_collect x ks : x ∈ bs_collect ks ↔ x ∈ ks.
Proof. unfold bs_collect. rewrite elem_of_bs_extend, elem_of_nil. naive_solver. Qed.

Lemma bs_sorted_nil : bs_sorted [].
Proof. constructor. Qed.

Lemma bs_collect_sorted ks : bs_sorted (bs_collect ks).
Proof. apply bs_extend_sorted, bs_sorted_nil. Qed.

Lemma bs_filter_sorted (P : K → Prop) `{!∀ x, Decision (P x)} s : bs_sorted s → bs_sorted (filter P s).
Proof.
induction 1 as [|k s Hs IH Hf]; [by rewrite filter_nil; constructor|]. rewrite filter_cons.
case_decide; [|done]. constructor; [done|]. apply Forall_forall. intros x [_ Hx]%list_elem_of_filter.
by eapply Forall_forall in Hf.
Qed.

Lemma bs_sorted_NoDup s : bs_sorted s → NoDup s.
Proof.
induction 1 as [|k s Hs IH Hf]; constructor; [|done]. intros Hin.
eapply Forall_forall in Hf; [|exact Hin]. by apply irreflexivity in Hf; [|apply _].
Qed.

(** Sorted sets with the same members are the same list: the [Vec] collected
from one is determined by its members. *)
Lemma bs_ext s1 s2 : bs_sorted s1 → bs_sorted s2 → (∀ x, x ∈ s1 ↔ x ∈ s2) → s1 = s2.
Proof.
intros H1 H2 Heq. apply (StronglySorted_unique_strong lexico); [|done|done|].
- intros x y _ _ Hxy Hyx. exfalso. eapply (irreflexivity lexico x). by etrans.
- apply NoDup_Permutation; [by apply bs_sorted_NoDup..|done].
Qed.
End bset.

(** [HashSet]'s iteration order: some order of the members. *)
Class HashOrder (K : Type) `{Countable K} := {
  hash_iter : gset K → list K;
  hash_iter_perm s : hash_iter s ≡ₚ elements s
}.

(** One such order. *)
#[export] Instance elements_hash_order `{Countable K} : HashOrder K | 100 :=
  { hash_iter := elements; hash_iter_perm := λ s, Permutation_refl _ }.

Lemma elem_of_hash_iter `{HashOrder K} (x : K) s : x ∈ hash_iter s ↔ x ∈ s.
Proof. by rewrite hash_iter_perm, elem_of_elements. Qed.
