(* ===== verification/RealmRows.v ===== *)
(** * The rows of one realm

The live map of a realm, as the storage engine refines it, and its range scan: what
the components above the storage layer read and write. *)
From stdpp Require Import base list gmap sorting lexico.
From Stdlib Require Import Strings.Byte ZArith Lia.
From S2P Require Import Prelude OrdMap StorageTypes OrdSet.

Open Scope Z_scope.

(** The live map of a realm, as the storage engine refines it. *)
Abbreviation Store := (gmap (list byte) (list byte)).

Definition in_window (start end_ k : list byte) : bool := negb (ord_lt k start) && ord_lt k end_.

(** [StorageEngine::scan(start, end)]: the rows of the window, by ascending key. *)
Definition scan (start end_ : list byte) (s : Store) : list ScanEntry :=
  omap (λ k, Scan k <$> s !! k) (bs_collect (filter (λ k, in_window start end_ k = true) (elements (dom s)))).
(** [scan_keys]. *)
Definition scan_keys (start end_ : list byte) (s : Store) : list (list byte) := se_key <$> scan start end_ s.

(** A batch of puts, and a batch of deletes, in order. *)
Definition put_all (kvs : list (list byte * list byte)) (s : Store) : Store :=
  foldl (λ s kv, <[kv.1 := kv.2]> s) s kvs.
Definition delete_all (ks : list (list byte)) (s : Store) : Store := foldl (λ s k, base.delete k s) s ks.

Implicit Type s : Store.

(** ** Lemmas *)

Lemma elem_of_scan start end_ s e :
  e ∈ scan start end_ s ↔ s !! se_key e = Some (se_value e) ∧ in_window start end_ (se_key e) = true.
Proof.
unfold scan. rewrite list_elem_of_omap. split.
- intros (k & Hk & He). apply elem_of_bs_collect, list_elem_of_filter in Hk as [Hw Hk].
  destruct (s !! k) as [v|] eqn:Hs; [|done]. simpl in He. by simplify_eq.
- intros [Hs Hw]. exists (se_key e). rewrite Hs. split; [|by destruct e].
  apply elem_of_bs_collect, list_elem_of_filter. split; [done|]. apply elem_of_elements, elem_of_dom. by eexists.
Qed.

Lemma scan_nodup start end_ s : NoDup (se_key <$> scan start end_ s).
Proof.
unfold scan. set (l := bs_collect _). assert (NoDup l) as Hl by apply bs_sorted_NoDup, bs_collect_sorted.
clearbody l. induction l as [|k l IH]; simpl; [constructor|]. apply NoDup_cons in Hl as [Hk Hl].
destruct (s !! k) as [v|]; simpl; [|by apply IH]. apply NoDup_cons. split; [|by apply IH].
rewrite list_elem_of_fmap. intros (e & -> & (k' & Hk' & He)%list_elem_of_omap).
destruct (s !! k') as [v'|]; simpl in He; by simplify_eq.
Qed.


Definition key_before (e e' : ScanEntry) : Prop := lexico (se_key e) (se_key e').

Lemma scan_sorted start end_ s : StronglySorted key_before (scan start end_ s).
Proof.
unfold scan. set (l := bs_collect _). assert (StronglySorted lexico l) as Hl by apply bs_collect_sorted.
clearbody l. induction Hl as [|k l Hl IH Hk]; simpl; [constructor|].
destruct (s !! k) as [v|]; simpl; [|done]. constructor; [done|].
apply list.Forall_forall. intros e (k' & Hk' & He)%list_elem_of_omap. rewrite list.Forall_forall in Hk. specialize (Hk k' Hk').
destruct (s !! k') as [v'|]; simpl in He; by simplify_eq.
Qed.

Lemma key_before_irrefl e : ¬ key_before e e.
Proof. unfold key_before. intros Hlt. exact (irreflexivity lexico _ Hlt). Qed.

Lemma sorted_nodup l : StronglySorted key_before l → NoDup l.
Proof.
induction 1 as [|e l Hl IH He]; constructor; [|done]. intros Hin. rewrite list.Forall_forall in He.
by apply (key_before_irrefl e), He.
Qed.

(** Sorted lists with the same members are equal. *)
Lemma sorted_ext l1 l2 : StronglySorted key_before l1 → StronglySorted key_before l2 → (∀ e, e ∈ l1 ↔ e ∈ l2) → l1 = l2.
Proof.
intros Hs1. revert l2. induction Hs1 as [|e1 l1 Hs1 IH H1]; intros [|e2 l2] Hs2 Hin.
- done.
- exfalso. apply (not_elem_of_nil e2), Hin. left.
- exfalso. apply (not_elem_of_nil e1), Hin. left.
- apply StronglySorted_inv in Hs2 as [Hs2 H2]. rewrite list.Forall_forall in H1, H2. assert (e1 = e2) as ->.
  { assert (e1 ∈ e2 :: l2) as [->|Ha]%elem_of_cons by (apply Hin; left); [done|].
    assert (e2 ∈ e1 :: l1) as [->|Hb]%elem_of_cons by (apply Hin; left); [done|].
    exfalso. apply (key_before_irrefl e1). unfold key_before. etrans; [apply (H1 e2 Hb)|apply (H2 e1 Ha)]. }
  f_equal. apply IH; [done|]. intros e. specialize (Hin e). rewrite !elem_of_cons in Hin. split; intros He.
  + destruct (proj1 Hin (or_intror He)) as [->|]; [|done]. exfalso. by apply (key_before_irrefl e2), H1.
  + destruct (proj2 Hin (or_intror He)) as [->|]; [|done]. exfalso. by apply (key_before_irrefl e2), H2.
Qed.

(** A scan is the sorted list of the rows of its window. *)
Lemma scan_unique start end_ s l : StronglySorted key_before l →
  (∀ e, e ∈ l ↔ s !! se_key e = Some (se_value e) ∧ in_window start end_ (se_key e) = true) → scan start end_ s = l.
Proof. intros Hl Hin. apply sorted_ext; [apply scan_sorted|done|]. intros e. by rewrite elem_of_scan, Hin. Qed.

(** Batches. *)
Lemma lookup_delete_all ks s (k : list byte) : delete_all ks s !! k = if decide (k ∈ ks) then None else s !! k.
Proof.
unfold delete_all. revert s. induction ks as [|k' ks IH]; intros s; cbn [foldl]; [by rewrite decide_False by apply not_elem_of_nil|].
rewrite IH. destruct (decide (k ∈ ks)) as [Hk|Hk]; [by rewrite decide_True by (by right)|].
destruct (decide (k' = k)) as [->|Hne]; [rewrite lookup_delete_eq; by rewrite decide_True by left|].
rewrite lookup_delete_ne by done. rewrite decide_False; [done|]. by rewrite elem_of_cons; intros [->|?].
Qed.

Lemma lookup_put_all_other kvs s (k : list byte) : k ∉ kvs.*1 → put_all kvs s !! k = s !! k.
Proof.
unfold put_all. revert s. induction kvs as [|[k' v] kvs IH]; intros s Hk; cbn [foldl]; [done|].
cbn in Hk. apply not_elem_of_cons in Hk as [Hne Hk]. rewrite IH by done. by rewrite lookup_insert_ne.
Qed.

Lemma lookup_put_all_in kvs s (k v : list byte) : k ∈ kvs.*1 → (∀ v', (k, v') ∈ kvs → v' = v) → put_all kvs s !! k = Some v.
Proof.
unfold put_all. revert s. induction kvs as [|[k' v'] kvs IH]; intros s Hk Hv; [by apply elem_of_nil in Hk|]. cbn [foldl fst snd].
destruct (decide (k ∈ kvs.*1)) as [Hin|Hin].
- apply IH; [done|]. intros v'' ?. apply Hv. by right.
- fold (put_all kvs (<[k' := v']> s)). rewrite lookup_put_all_other by done. cbn in Hk. apply elem_of_cons in Hk as [->|?]; [|done].
  rewrite lookup_insert_eq. f_equal. apply Hv. left.
Qed.
