(* ===== verification/RbacTypes.v ===== *)
(** * Role-based access control: data model

The types of [rbac/types.rs] and [rbac/error.rs], the permission grammar
([Permission::validate]) and the syntactic classification of OAuth scope strings
([classify_scope_string], [validate_bundle_name] of [rbac/registry.rs]). A
[String] is its UTF-8 bytes, which is how Rust orders and measures it; an
identifier newtype is the 16 bytes of its UUID. *)
From stdpp Require Import base list gmap strings sorting lexico.
From Stdlib Require Import Strings.Byte ZArith Lia.
From S2P Require Import Prelude OrdMap StorageTypes.

Open Scope Z_scope.

(** ** Strings *)

Abbreviation Str := (list byte).
(** A string literal. *)
Definition lit (s : string) : Str := String.list_byte_of_string s.

(** [s.contains(c)], [s.starts_with(p)], [s.starts_with(c)], [s.ends_with(c)]. *)
Definition str_contains (c : byte) (s : Str) : bool := bool_decide (c ∈ s).
Definition str_starts_with (p s : Str) : bool := bool_decide (take (length p) s = p).
Definition str_starts_with_char (c : byte) (s : Str) : bool := bool_decide (head s = Some c).
Definition str_ends_with_char (c : byte) (s : Str) : bool := bool_decide (last s = Some c).

(** [s.split(c).collect()]: never empty; a separator at an end, or two in a row,
delimits an empty segment. *)
Fixpoint split_on (c : byte) (s : Str) : list Str :=
  match s with
  | [] => [[]]
  | b :: s' =>
      if decide (b = c) then [] :: split_on c s'
      else match split_on c s' with
           | [] => [[b]]
           | seg :: segs => (b :: seg) :: segs
           end
  end.

(** The inverse: segments joined by the separator. *)
Fixpoint join_with (c : byte) (segs : list Str) : Str :=
  match segs with
  | [] => []
  | [seg] => seg
  | seg :: segs' => seg ++ c :: join_with c segs'
  end.

Definition in_range (a b : Z) (c : byte) : bool := (a <=? byte_val c) && (byte_val c <=? b).
(** [char::is_ascii_lowercase], [is_ascii_digit] and [is_ascii_alphanumeric]. A
character outside ASCII is encoded in bytes above 127, on each of which all three
are false, so a test over every character is a test over every byte. *)
Definition is_ascii_lowercase (c : byte) : bool := in_range 97 122 c.
Definition is_ascii_digit (c : byte) : bool := in_range 48 57 c.
Definition is_ascii_alphanumeric (c : byte) : bool :=
  is_ascii_digit c || in_range 65 90 c || is_ascii_lowercase c.

(** ['.'], [':'], ['_'], ['-']. *)
Definition dot : byte := x2e.
Definition colon : byte := x3a.
Definition underscore : byte := x5f.
Definition dash : byte := x2d.

(** ** Identifiers *)

Abbreviation Uuid := (list byte).
Abbreviation UserId := Uuid.
Abbreviation OrganizationId := Uuid.
Abbreviation RoleId := Uuid.
Abbreviation GroupId := Uuid.
Abbreviation AssignmentId := Uuid.

(** [Uuid]'s [Display], of the [uuid] crate. *)
Class UuidText := uuid_to_string : Uuid → Str.

(** ** Permissions *)

Abbreviation Permission := Str.

Definition MAX_PERMISSION_LENGTH : Z := 128.
Definition RESERVED_PREFIX : Str := Eval compute in lit "hearth.".

(** The reason a name is refused, by the branch that refuses it; the source
renders each as a message. [BadChar] and [EmptySegment] carry the segment's
index. *)
Inductive NameReason :=
| EmptyName
| TooLong
| ForbiddenSeparator
| MissingSeparator
| EdgeSeparator
| EmptySegment (i : nat)
| BadChar (i : nat).

(** What a segment may hold. *)
Definition segment_char (c : byte) : bool :=
  is_ascii_alphanumeric c || bool_decide (c = underscore) || bool_decide (c = dash).

(** The loop over the segments, shared by permission and bundle names. *)
Fixpoint check_segments (i : nat) (segs : list Str) : outcome NameReason unit :=
  match segs with
  | [] => Ok tt
  | seg :: segs' =>
      match seg with
      | [] => Err (EmptySegment i)
      | _ => if forallb segment_char seg then check_segments (S i) segs' else Err (BadChar i)
      end
  end.

(** [Permission::validate]. *)
Definition perm_validate (s : Str) : outcome NameReason unit :=
  if bool_decide (s = []) then Err EmptyName
  else if MAX_PERMISSION_LENGTH <? zlen s then Err TooLong
  else if str_contains colon s then Err ForbiddenSeparator
  else
    let segments := split_on dot s in
    if zlen segments <? 2 then Err MissingSeparator
    else if str_starts_with_char dot s || str_ends_with_char dot s then Err EdgeSeparator
    else check_segments 0 segments.

(** [Permission::new] and [Permission::is_reserved]. *)
Definition perm_new (raw : Str) : outcome NameReason Permission :=
  match perm_validate raw with Ok _ => Ok raw | Err e => Err e | Panic => Panic end.
Definition is_reserved (p : Permission) : bool := str_starts_with RESERVED_PREFIX p.

(** ** Scope strings *)

Inductive ScopeKind := OidcStandard | KPermission | KBundle.

#[export] Instance ScopeKind_eq_dec : EqDecision ScopeKind.
Proof. solve_decision. Defined.

Definition OIDC_SCOPES : list Str := Eval compute in
  lit <$> ["openid"; "profile"; "email"; "address"; "phone"; "offline_access"]%string.

Definition classify_scope_string (scope : Str) : option ScopeKind :=
  if bool_decide (scope ∈ OIDC_SCOPES) then Some OidcStandard
  else if str_contains dot scope && negb (str_contains colon scope) then Some KPermission
  else if str_contains colon scope && negb (str_contains dot scope) then Some KBundle
  else None.

Definition is_oidc_standard_scope (scope : Str) : bool :=
  bool_decide (classify_scope_string scope = Some OidcStandard).

(** [validate_bundle_name]. *)
Definition validate_bundle_name (name : Str) : outcome NameReason unit :=
  if bool_decide (name = []) then Err EmptyName
  else if 128 <? zlen name then Err TooLong
  else if str_contains dot name then Err ForbiddenSeparator
  else if negb (str_contains colon name) then Err MissingSeparator
  else check_segments 0 (split_on colon name).

(** ** Entities *)

Abbreviation Timestamp := Z.

Inductive PermissionStatus := PermActive | PermArchived.
Record PermissionRecord := MkPermissionRecord { pr_name : Permission; pr_status : PermissionStatus }.

Inductive RoleScopeKind := RskRealm | RskOrganization | RskAny.
Inductive RoleStatus := RoleActive | RoleArchivedSt.

Record Role := MkRole {
  ro_id : RoleId;
  ro_realm_id : RealmId;
  ro_name : Str;
  ro_description : option Str;
  ro_permissions : list Permission;
  ro_parent_roles : list RoleId;
  ro_scope_kind : RoleScopeKind;
  ro_status : RoleStatus;
  ro_yaml_managed : bool;
  ro_created_at : Timestamp;
  ro_updated_at : Timestamp
}.

Inductive GroupMember := MUser (u : UserId) | MGroup (g : GroupId).
Inductive Subject := SUser (u : UserId) | SGroup (g : GroupId).
Inductive Scope := ScRealm | ScOrg (org_id : OrganizationId).

Record Group := MkGroup {
  gr_id : GroupId;
  gr_realm_id : RealmId;
  gr_name : Str;
  gr_slug : Str;
  gr_description : option Str;
  gr_created_at : Timestamp;
  gr_updated_at : Timestamp;
  gr_yaml_managed : bool
}.

Record RoleAssignment := MkRoleAssignment {
  ra_id : AssignmentId;
  ra_realm_id : RealmId;
  ra_subject : Subject;
  ra_role_id : RoleId;
  ra_scope : Scope;
  ra_assigned_at : Timestamp;
  ra_assigned_by : option UserId
}.

Record UserPermissionGrant := MkUserPermissionGrant {
  upg_realm_id : RealmId;
  upg_user_id : UserId;
  upg_permission : Permission;
  upg_scope : Scope;
  upg_granted_at : Timestamp;
  upg_granted_by : option UserId
}.

(** Registry references that resolution skipped. The derived order compares the
kind first, in declaration order, then the reference. *)
Inductive OrphanKind := OkPermission | OkRole | OkRoleName.
Record OrphanRef := MkOrphanRef { or_kind : OrphanKind; or_reference : Str }.

Record ResolvedPermissions := MkResolved {
  rp_roles : list Str;
  rp_groups : list Str;
  rp_permissions : list Permission;
  rp_granted_scopes : list Str;
  rp_orphans : list OrphanRef;
  rp_scope_narrowed : bool
}.
(** [ResolvedPermissions::default()]. *)
Definition resolved_default : ResolvedPermissions := MkResolved [] [] [] [] [] false.

Inductive ScopeMode := Request | Reissue.
Inductive ClientTrustLevel := FirstParty | ThirdParty.

(** [ScopeRequest]; [Uri] is the canonical resource identifier's text. *)
Abbreviation Uri := Str.
Record ScopeRequest := MkScopeRequest {
  sr_user_id : option UserId;
  sr_org_id : option OrganizationId;
  sr_requested : list Str;
  sr_trust_level : ClientTrustLevel;
  sr_declared : list Str;
  sr_resource : option Uri;
  sr_mode : ScopeMode;
  sr_narrowed : bool
}.

Inductive CycleKind := CycleRoles | CycleGroups.
Inductive TraversalKind := TraverseGroups | TraverseRoles.

(** Why scope resolution refuses a request: the branch that builds
[RbacError::InvalidScope], with the scope its message quotes. *)
Inductive ScopeRefusal :=
| UnknownScope (scope : Str)
| RawPermissionUnderResource (scope : Str)
| RawPermissionThirdParty (scope : Str)
| MustRequestScope
| NotDeclared (scope : Str)
| NotHeld (scope : Str)
| NothingGranted.

(** The constructors of [RbacError] that the modelled code builds; the text of a
serialization failure is not kept. *)
Inductive RbacError :=
| RoleNotFound
| GroupNotFound
| AssignmentNotFound
| DuplicateRoleName
| DuplicateGroupSlug
| InvalidPermission (reason : NameReason)
| InvalidRoleName (reason : NameReason)
| InvalidGroupSlug (reason : NameReason)
| ReservedNamespace (permission : Str)
| RoleArchived
| RoleInUse (assignments child_roles org_roles : nat)
| YamlManaged (kind : string)
| Serialization
| CycleDetected (kind : CycleKind) (entity : Str)
| DepthExceeded (kind : TraversalKind) (limit : nat)
| BreadthExceeded (kind : TraversalKind) (limit : nat)
| TokenSizeExceeded (limit : string) (limit_value actual : Z)
| InvalidScope (reason : ScopeRefusal)
| RbacStorage (e : StorageError).

Abbreviation rres := (outcome RbacError).

#[export] Instance NameReason_eq_dec : EqDecision NameReason.
Proof. solve_decision. Defined.
#[export] Instance RoleScopeKind_eq_dec : EqDecision RoleScopeKind.
Proof. solve_decision. Defined.
#[export] Instance PermissionStatus_eq_dec : EqDecision PermissionStatus.
Proof. solve_decision. Defined.
#[export] Instance Subject_eq_dec : EqDecision Subject.
Proof. solve_decision. Defined.
#[export] Instance RoleStatus_eq_dec : EqDecision RoleStatus.
Proof. solve_decision. Defined.
#[export] Instance Scope_eq_dec : EqDecision Scope.
Proof. solve_decision. Defined.
#[export] Instance GroupMember_eq_dec : EqDecision GroupMember.
Proof. solve_decision. Defined.
#[export] Instance OrphanKind_eq_dec : EqDecision OrphanKind.
Proof. solve_decision. Defined.
#[export] Instance OrphanRef_eq_dec : EqDecision OrphanRef.
Proof. solve_decision. Defined.
#[export] Instance CycleKind_eq_dec : EqDecision CycleKind.
Proof. solve_decision. Defined.
#[export] Instance TraversalKind_eq_dec : EqDecision TraversalKind.
Proof. solve_decision. Defined.
#[export] Instance ScopeRefusal_eq_dec : EqDecision ScopeRefusal.
Proof. solve_decision. Defined.
#[export] Instance RbacError_eq_dec : EqDecision RbacError.
Proof. solve_decision. Defined.
#[export] Instance ScopeMode_eq_dec : EqDecision ScopeMode.
Proof. solve_decision. Defined.
#[export] Instance ClientTrustLevel_eq_dec : EqDecision ClientTrustLevel.
Proof. solve_decision. Defined.

(** The derived [Ord] of [OrphanRef]. *)
Definition orphan_rank (o : OrphanRef) : Z * Str :=
  (match or_kind o with OkPermission => 0 | OkRole => 1 | OkRoleName => 2 end, or_reference o).

#[export] Instance orphan_rank_inj : Inj (=) (=) orphan_rank.
Proof. intros [[] r] [[] r'] Heq; unfold orphan_rank in Heq; simpl in Heq; by simplify_eq. Qed.

#[export] Instance OrphanRef_lexico : Lexico OrphanRef :=
  λ a b, lexico (orphan_rank a) (orphan_rank b).

#[export] Instance OrphanRef_order : KeyOrder OrphanRef.
Proof.
split.
- split.
  + intros a. apply (irreflexivity lexico (orphan_rank a)).
  + intros a b c H1 H2. exact (transitivity (x := orphan_rank a) (y := orphan_rank b) (z := orphan_rank c) H1 H2).
- intros a b. destruct (trichotomyT lexico (orphan_rank a) (orphan_rank b)) as [[Hlt|Heq]|Hgt].
  + left; left. exact Hlt.
  + left; right. by apply orphan_rank_inj.
  + right. exact Hgt.
Defined.

(** ** The grammar of names *)

(** [^[A-Za-z0-9_\-]+(c[A-Za-z0-9_\-]+)+$]: two or more non-empty segments of
legal characters, separated by [c]. *)
Definition name_grammar (c : byte) (s : Str) : Prop :=
  ∃ segs, (2 <= length segs)%nat ∧ Forall (λ seg, seg ≠ [] ∧ Forall (λ b, segment_char b = true) seg) segs ∧
    s = join_with c segs.

Lemma forallb_Forall_true {A} (f : A → bool) l : forallb f l = true ↔ Forall (λ x, f x = true) l.
Proof. rewrite forallb_forall, Forall_forall. by setoid_rewrite list_elem_of_In. Qed.

Section names.
Variable c : byte.
Hypothesis sep : segment_char c = false.

Lemma split_on_ne s : split_on c s ≠ [].
Proof. destruct s as [|b s]; simpl; [done|]. repeat case_match; done. Qed.

Lemma join_split s : join_with c (split_on c s) = s.
Proof.
induction s as [|b s IH]; simpl; [done|].
case_decide as Hb; subst.
- pose proof (split_on_ne s). destruct (split_on c s) as [|seg segs]; [done|]. simpl in *. by rewrite IH.
- pose proof (split_on_ne s). destruct (split_on c s) as [|seg [|seg' segs]]; [done|..]; simpl in *; by rewrite <-IH.
Qed.

Lemma split_segment seg s : c ∉ seg →
  split_on c (seg ++ s) =
    match split_on c s with [] => [seg] | seg' :: segs => (seg ++ seg') :: segs end.
Proof.
induction seg as [|b seg IH]; intros Hin; simpl.
- pose proof (split_on_ne s). by destruct (split_on c s).
- apply not_elem_of_cons in Hin as [Hb Hin]. rewrite decide_False by done. rewrite IH by done.
  pose proof (split_on_ne s). by destruct (split_on c s).
Qed.

Lemma split_join segs : segs ≠ [] → Forall (λ seg, c ∉ seg) segs → split_on c (join_with c segs) = segs.
Proof.
intros Hne Hf. induction Hf as [|seg segs Hseg Hf IH]; [done|].
destruct segs as [|seg' segs].
- simpl. rewrite <-(app_nil_r seg) at 1. rewrite split_segment by done. simpl. by rewrite app_nil_r.
- change (join_with c (seg :: seg' :: segs)) with (seg ++ c :: join_with c (seg' :: segs)).
  rewrite split_segment by done.
  change (split_on c (c :: join_with c (seg' :: segs))) with
    (if decide (c = c) then [] :: split_on c (join_with c (seg' :: segs))
     else match split_on c (join_with c (seg' :: segs)) with [] => [[c]] | s :: ss => (c :: s) :: ss end).
  rewrite decide_True, IH by done. by rewrite app_nil_r.
Qed.

Lemma check_segments_ok i segs :
  check_segments i segs = Ok tt ↔
  Forall (λ seg, seg ≠ [] ∧ Forall (λ b, segment_char b = true) seg) segs.
Proof.
revert i. induction segs as [|seg segs IH]; intros i; simpl; [by split|].
rewrite Forall_cons. destruct seg as [|b seg]; [naive_solver|].
destruct (forallb segment_char (b :: seg)) eqn:E.
- rewrite IH. apply forallb_Forall_true in E. naive_solver.
- split; [done|]. intros [[_ Hf] _]. apply forallb_Forall_true in Hf. congruence.
Qed.

Lemma segments_sep segs :
  Forall (λ seg, seg ≠ [] ∧ Forall (λ b, segment_char b = true) seg) segs → Forall (λ seg, c ∉ seg) segs.
Proof.
intros Hf. eapply Forall_impl; [exact Hf|]. intros seg [_ Hs] Hin.
eapply Forall_forall in Hs; [|exact Hin]. simpl in Hs. congruence.
Qed.

(** Splitting into good segments is the grammar. *)
Lemma split_grammar s :
  name_grammar c s ↔ (2 <= length (split_on c s))%nat ∧ check_segments 0 (split_on c s) = Ok tt.
Proof.
rewrite check_segments_ok. split.
- intros (segs & Hlen & Hf & ->). rewrite split_join; [done| |by apply segments_sep].
  by destruct segs; simpl in *; [lia|].
- intros [Hlen Hf]. exists (split_on c s). by rewrite join_split.
Qed.

Lemma grammar_chars b s : name_grammar c s → b ∈ s → segment_char b = true ∨ b = c.
Proof.
intros (segs & _ & Hf & ->). clear sep. induction Hf as [|seg segs [_ Hs] Hf IH]; simpl; [by intros ?%elem_of_nil|].
destruct segs as [|seg' segs].
- intros Hin. left. by eapply Forall_forall in Hs.
- intros [Hin|[->|Hin]%elem_of_cons]%elem_of_app; [left; by eapply Forall_forall in Hs|by right|by apply IH].
Qed.

Lemma split_one s : c ∉ s → split_on c s = [s].
Proof.
intros Hin. rewrite <-(app_nil_r s) at 1. rewrite split_segment by done. simpl. by rewrite app_nil_r.
Qed.

Lemma split_contains s : (2 <= length (split_on c s))%nat → c ∈ s.
Proof. intros Hlen. destruct (decide (c ∈ s)) as [|Hn]; [done|]. rewrite split_one in Hlen by done. simpl in Hlen. lia. Qed.
End names.

Lemma grammar_contains c s : segment_char c = false → name_grammar c s → c ∈ s.
Proof. intros Hs Hg. apply split_grammar in Hg as [Hlen _]; [|done]. by apply split_contains. Qed.

Lemma split_trailing c s : split_on c (s ++ [c]) = split_on c s ++ [[]].
Proof.
induction s as [|b s IH]; simpl; [by rewrite decide_True by done|].
rewrite IH. case_decide; [done|]. pose proof (split_on_ne c s). by destruct (split_on c s).
Qed.

Lemma split_edges c s :
  (head s = Some c → [] ∈ split_on c s) ∧ (last s = Some c → [] ∈ split_on c s).
Proof.
split.
- destruct s as [|b s]; [done|]. simpl. intros [= ->]. rewrite decide_True by done. left.
- intros [s' ->]%last_Some. rewrite split_trailing. apply elem_of_app. right. by left.
Qed.

Lemma str_contains_true c s : str_contains c s = true ↔ c ∈ s.
Proof. unfold str_contains. by rewrite bool_decide_eq_true. Qed.

Lemma str_contains_false c s : str_contains c s = false ↔ c ∉ s.
Proof. unfold str_contains. by rewrite bool_decide_eq_false. Qed.

Lemma perm_validate_iff s : perm_validate s = Ok tt ↔ zlen s <= MAX_PERMISSION_LENGTH ∧ name_grammar dot s.
Proof.
unfold perm_validate. rewrite (split_grammar dot) by done.
assert (zlen (split_on dot s) <? 2 = negb (2 <=? length (split_on dot s))%nat) as ->.
{ unfold zlen. destruct (Z.ltb_spec (Z.of_nat (length (split_on dot s))) 2), (Nat.leb_spec 2 (length (split_on dot s)));
    simpl; try done; lia. }
case_bool_decide as Hs; [subst; simpl; split; [done|intros (_ & Hl & _); simpl in Hl; lia]|].
destruct (Z.ltb_spec MAX_PERMISSION_LENGTH (zlen s)) as [Hlen|Hlen]; [split; [done|lia]|].
destruct (str_contains colon s) eqn:Hc.
{ split; [done|]. intros [_ Hg]. rewrite <-split_grammar in Hg by done. apply str_contains_true in Hc.
  destruct (grammar_chars _ _ _ Hg Hc); done. }
destruct (Nat.leb_spec 2 (length (split_on dot s))) as [H2|H2]; simpl; [|split; [done|lia]].
destruct (str_starts_with_char dot s || str_ends_with_char dot s) eqn:He; [|naive_solver].
split; [done|]. intros (_ & _ & Hg). apply check_segments_ok in Hg.
assert ([] ∈ split_on dot s) as Hin.
{ unfold str_starts_with_char, str_ends_with_char in He. apply orb_true_iff in He as [He|He];
    apply bool_decide_eq_true in He; by apply split_edges in He. }
eapply Forall_forall in Hg; [|exact Hin]. naive_solver.
Qed.

Lemma bundle_validate_iff s : validate_bundle_name s = Ok tt ↔ zlen s <= 128 ∧ name_grammar colon s.
Proof.
unfold validate_bundle_name.
case_bool_decide as Hs.
{ subst. split; [done|]. intros [_ Hg%grammar_contains]; [|done]. by apply elem_of_nil in Hg. }
destruct (Z.ltb_spec 128 (zlen s)) as [Hlen|Hlen]; [split; [done|lia]|].
destruct (str_contains dot s) eqn:Hd.
{ split; [done|]. intros [_ Hg]. apply str_contains_true in Hd. destruct (grammar_chars _ _ _ Hg Hd); done. }
destruct (str_contains colon s) eqn:Hc; simpl.
- rewrite (split_grammar colon) by done. split; [|naive_solver]. intros Hg. split; [done|]. split; [|done].
  apply str_contains_true in Hc. destruct (split_on colon s) as [|a [|b l]] eqn:E; simpl; [|exfalso|lia].
  + by destruct (split_on_ne colon s).
  + pose proof (join_split colon s) as Hj. rewrite E in Hj. simpl in Hj. subst a.
    apply check_segments_ok in Hg. apply Forall_inv in Hg as [_ Hg]. eapply Forall_forall in Hg; [|exact Hc]. done.
- split; [done|]. intros [_ Hg%grammar_contains]; [|done]. apply str_contains_false in Hc. done.
Qed.

Lemma oidc_no_separator s : s ∈ OIDC_SCOPES → dot ∉ s ∧ colon ∉ s.
Proof.
intros Hs. assert (Forall (λ s, dot ∉ s ∧ colon ∉ s) OIDC_SCOPES) as Hf; [|by eapply Forall_forall in Hf].
apply (bool_decide_unpack _). vm_compute. exact I.
Qed.

Lemma classify_perm s : name_grammar dot s → classify_scope_string s = Some KPermission.
Proof.
intros Hg. pose proof (grammar_contains dot s eq_refl Hg) as Hd. unfold classify_scope_string.
rewrite bool_decide_eq_false_2 by (intros ?%oidc_no_separator; tauto).
rewrite (proj2 (str_contains_true _ _) Hd), (proj2 (str_contains_false colon s)); [done|].
intros Hc. destruct (grammar_chars _ _ _ Hg Hc); done.
Qed.

Lemma classify_bundle s : name_grammar colon s → classify_scope_string s = Some KBundle.
Proof.
intros Hg. pose proof (grammar_contains colon s eq_refl Hg) as Hd. unfold classify_scope_string.
rewrite bool_decide_eq_false_2 by (intros ?%oidc_no_separator; tauto).
rewrite (proj2 (str_contains_true _ _) Hd), (proj2 (str_contains_false dot s)); [done|].
intros Hc. destruct (grammar_chars _ _ _ Hg Hc); done.
Qed.

(** C33: The name validators accept exactly the documented grammars, and the syntax
alone tells the namespaces apart: a valid permission name always classifies as a
permission, a valid bundle name as a bundle, and no name is both. *)
Theorem scope_names_exact s :
  (perm_validate s = Ok tt ↔ zlen s <= 128 ∧ name_grammar dot s) ∧
  (validate_bundle_name s = Ok tt ↔ zlen s <= 128 ∧ name_grammar colon s) ∧
  (perm_validate s = Ok tt → classify_scope_string s = Some KPermission) ∧
  (validate_bundle_name s = Ok tt → classify_scope_string s = Some KBundle).
Proof.
split; [exact (perm_validate_iff s)|]. split; [exact (bundle_validate_iff s)|]. split.
- intros [_ Hg]%perm_validate_iff. by apply classify_perm.
- intros [_ Hg]%bundle_validate_iff. by apply classify_bundle.
Qed.
