(* ===== verification/RbacResolve.v ===== *)
(** * Role-based access control: permission resolution

[rbac/resolve.rs]: the breadth-first walk of nested groups, the depth-first
expansion of composed roles, the union of the permissions they grant, and the
narrowing of that union to OAuth scopes. The storage the algorithm reads is the
[Resolver] interface, as in the source. *)
From stdpp Require Import base list gmap strings sorting lexico.
From Stdlib Require Import Strings.Byte ZArith Lia.
From S2P Require Import Prelude OrdMap StorageTypes OrdSet RbacTypes.

Open Scope Z_scope.

Definition MAX_GROUP_DEPTH : nat := 10.
Definition MAX_GROUP_BREADTH : nat := 1000.
Definition MAX_ROLE_DEPTH : nat := 10.
Definition MAX_PERMISSIONS_PER_TOKEN : Z := 100.
Definition MAX_ROLES_PER_TOKEN : Z := 50.
Definition MAX_GROUPS_PER_TOKEN : Z := 50.

(** What a scope name maps to in a scope registry. *)
Inductive ScopeLookup :=
| Missing
| NoNarrowing
| Bundle (permissions : list Permission).

(** The data-access surface of the resolver, for one state of the stored graph. *)
Class Resolver := {
  parent_groups_of : RealmId → GroupMember → rres (list GroupId);
  user_assignments : RealmId → UserId → rres (list RoleAssignment);
  group_assignments : RealmId → GroupId → rres (list RoleAssignment);
  get_role : RealmId → RoleId → rres (option Role);
  get_group_slug : RealmId → GroupId → rres (option Str);
  scope_permissions : RealmId → Str → rres ScopeLookup;
  resource_scope_permissions : RealmId → Uri → Str → rres ScopeLookup;
  user_permissions : RealmId → UserId → rres (list UserPermissionGrant);
  get_role_id_by_name : RealmId → Str → rres (option RoleId);
  permission_archived : RealmId → Permission → rres bool;
  additional_roles : RealmId → OrganizationId → UserId → rres (list Str)
}.

(** A [for] loop whose body may return early with [?]. *)
Fixpoint fold_res {E A B} (f : A → B → outcome E A) (a : A) (l : list B) : outcome E A :=
  match l with
  | [] => Ok a
  | b :: l' => a' ← f a b; fold_res f a' l'
  end.

Section resolve.
Context `{!UuidText, !HashOrder (list byte), !Resolver}.

(** ** Group membership *)

(** The loop over the groups that contain one member. *)
Fixpoint bfs_parents (next_depth : nat) (parents : list GroupId) (visited : gset GroupId)
    (queue : list (GroupMember * nat)) : rres (gset GroupId * list (GroupMember * nat)) :=
  match parents with
  | [] => Ok (visited, queue)
  | parent :: parents' =>
      if decide (parent ∈ visited) then bfs_parents next_depth parents' visited queue
      else
        let visited := {[parent]} ∪ visited in
        if (MAX_GROUP_BREADTH <? size visited)%nat
        then Err (BreadthExceeded TraverseGroups MAX_GROUP_BREADTH)
        else if (MAX_GROUP_DEPTH <? next_depth)%nat
        then Err (DepthExceeded TraverseGroups MAX_GROUP_DEPTH)
        else bfs_parents next_depth parents' visited (queue ++ [(MGroup parent, next_depth)])
  end.

(** The [while let Some(..) = queue.pop_front()] loop; [None] is exhausted fuel. *)
Fixpoint bfs_loop (fuel : nat) (realm : RealmId) (visited : gset GroupId)
    (queue : list (GroupMember * nat)) : option (rres (gset GroupId)) :=
  match fuel with
  | O => None
  | S fuel =>
      match queue with
      | [] => Some (Ok visited)
      | (member, depth) :: queue =>
          match (parents ← parent_groups_of realm member; bfs_parents (S depth) parents visited queue) with
          | Ok (visited', queue') => bfs_loop fuel realm visited' queue'
          | Err e => Some (Err e)
          | Panic => Some Panic
          end
      end
  end.

(** The breadth cap bounds the loop: the user and each visited group is dequeued
once, and one more turn finds the queue empty. *)
Definition bfs_fuel : nat := S (S MAX_GROUP_BREADTH).

Definition bfs_groups (realm : RealmId) (user : UserId) : rres (list GroupId) :=
  match bfs_loop bfs_fuel realm ∅ [(MUser user, O)] with
  | Some r => visited ← r; Ok (hash_iter visited)
  | None => Panic
  end.

(** ** Role composition *)

Record RoleWalk := MkRoleWalk {
  rw_role_names : list Str;
  rw_perms : list Permission;
  rw_visited : gset RoleId;
  rw_path : gset RoleId;
  rw_orphans : list OrphanRef
}.
Definition walk_new : RoleWalk := MkRoleWalk [] [] ∅ ∅ [].

Definition walk_enter (id : RoleId) (w : RoleWalk) : RoleWalk :=
  MkRoleWalk (rw_role_names w) (rw_perms w) (rw_visited w) ({[id]} ∪ rw_path w) (rw_orphans w).
Definition walk_leave (id : RoleId) (w : RoleWalk) : RoleWalk :=
  MkRoleWalk (rw_role_names w) (rw_perms w) (rw_visited w) (rw_path w ∖ {[id]}) (rw_orphans w).
Definition walk_orphan (o : OrphanRef) (w : RoleWalk) : RoleWalk :=
  MkRoleWalk (rw_role_names w) (rw_perms w) (rw_visited w) (rw_path w) (bs_insert o (rw_orphans w)).
(** Mark a role visited and collect its name and direct permissions. *)
Definition walk_collect (id : RoleId) (role : Role) (w : RoleWalk) : RoleWalk :=
  MkRoleWalk (bs_insert (ro_name role) (rw_role_names w)) (bs_extend (ro_permissions role) (rw_perms w))
    ({[id]} ∪ rw_visited w) (rw_path w) (rw_orphans w).

(** [expand_role]; [Panic] with no fuel left. *)
Fixpoint expand_role (fuel : nat) (realm : RealmId) (role_id : RoleId) (walk : RoleWalk)
    (depth : nat) : rres RoleWalk :=
  match fuel with
  | O => Panic
  | S fuel =>
      if (MAX_ROLE_DEPTH <? depth)%nat then Err (DepthExceeded TraverseRoles MAX_ROLE_DEPTH)
      else if decide (role_id ∈ rw_path walk)
      then Err (CycleDetected CycleRoles (uuid_to_string role_id))
      else
        let walk := walk_enter role_id walk in
        if decide (role_id ∈ rw_visited walk) then Ok (walk_leave role_id walk)
        else
          found ← get_role realm role_id;
          let orphan reference := Ok (walk_leave role_id (walk_orphan (MkOrphanRef OkRole reference) walk)) in
          match found with
          | None => orphan (uuid_to_string role_id)
          | Some role =>
              if decide (ro_status role = RoleArchivedSt) then orphan (ro_name role)
              else
                walk ← fold_res (λ w parent, expand_role fuel realm parent w (S depth))
                         (walk_collect role_id role walk) (ro_parent_roles role);
                Ok (walk_leave role_id walk)
          end
  end.

(** Depth 11 is refused, so a walk that starts at depth 0 nests 12 calls. *)
Definition role_fuel : nat := S (S MAX_ROLE_DEPTH).

(** ** Full resolution *)

Definition extra_applies (extra : UserPermissionGrant) (org_id : option OrganizationId) : bool :=
  match upg_scope extra with
  | ScRealm => true
  | ScOrg oid => match org_id with Some requested => bool_decide (requested = oid) | None => false end
  end.

Definition assignment_applies (ra : RoleAssignment) (org_id : option OrganizationId) : bool :=
  match ra_scope ra with
  | ScRealm => true
  | ScOrg oid => match org_id with Some requested => bool_decide (requested = oid) | None => false end
  end.

(** Step 2: the assignments that apply, of the user and of each group. *)
Definition gather_assignments (realm : RealmId) (user : UserId) (org_id : option OrganizationId)
    (groups : list GroupId) : rres (list RoleAssignment) :=
  own ← user_assignments realm user;
  fold_res (λ acc gid,
    ras ← group_assignments realm gid;
    Ok (acc ++ filter (λ ra, assignment_applies ra org_id = true) ras))
    (filter (λ ra, assignment_applies ra org_id = true) own) groups.

(** Step 4: direct grants, then the extra roles of the organization. *)
Definition add_extras (realm : RealmId) (user : UserId) (org_id : option OrganizationId)
    (walk : RoleWalk) : rres RoleWalk :=
  extras ← user_permissions realm user;
  let granted := upg_permission <$> filter (λ e, extra_applies e org_id = true) extras in
  Ok (MkRoleWalk (rw_role_names walk) (bs_extend granted (rw_perms walk)) (rw_visited walk)
        (rw_path walk) (rw_orphans walk)).

Definition expand_additional (realm : RealmId) (user : UserId) (org_id : option OrganizationId)
    (walk : RoleWalk) : rres RoleWalk :=
  match org_id with
  | None => Ok walk
  | Some oid =>
      names ← additional_roles realm oid user;
      fold_res (λ w name,
        found ← get_role_id_by_name realm name;
        match found with
        | Some rid => expand_role role_fuel realm rid w O
        | None => Ok (walk_orphan (MkOrphanRef OkRoleName name) w)
        end) walk names
  end.

(** Step 4b: the collected permissions the registry has archived. *)
Definition find_archived (realm : RealmId) (perms : list Permission) : rres (list Permission) :=
  fold_res (λ acc p, a ← permission_archived realm p; Ok (if (a : bool) then acc ++ [p] else acc)) [] perms.

(** Step 5: the slugs of the groups that still exist. *)
Definition collect_slugs (realm : RealmId) (groups : list GroupId) : rres (list Str) :=
  fold_res (λ acc gid,
    slug ← get_group_slug realm gid;
    Ok (match slug with Some s => bs_insert s acc | None => acc end)) [] groups.

Definition resolve_full (user : UserId) (realm : RealmId) (org_id : option OrganizationId)
    : rres ResolvedPermissions :=
  groups ← bfs_groups realm user;
  assignments ← gather_assignments realm user org_id groups;
  walk ← fold_res (λ w ra, expand_role role_fuel realm (ra_role_id ra) w O) walk_new assignments;
  walk ← add_extras realm user org_id walk;
  walk ← expand_additional realm user org_id walk;
  archived ← find_archived realm (rw_perms walk);
  let perms := filter (λ p, p ∉ archived) (rw_perms walk) in
  let orphans := bs_extend (MkOrphanRef OkPermission <$> archived) (rw_orphans walk) in
  slugs ← collect_slugs realm groups;
  Ok (MkResolved (rw_role_names walk) slugs perms [] orphans false).

(** The permissions a role grants, as a role assignment's privilege ceiling sees
them. *)
Definition expand_role_permissions (realm : RealmId) (role_id : RoleId) : rres (list Permission) :=
  walk ← expand_role role_fuel realm role_id walk_new O;
  fold_res (λ granted p,
    a ← permission_archived realm p;
    Ok (if (a : bool) then granted else bs_insert p granted)) [] (rw_perms walk).

(** Every organization an org-scoped source of the user's permissions names. *)
Definition note_orgs (scopes : list Scope) (orgs : list OrganizationId) : list OrganizationId :=
  bs_extend (omap (λ s, match s with ScOrg o => Some o | ScRealm => None end) scopes) orgs.

Definition org_contexts (realm : RealmId) (user : UserId) : rres (list OrganizationId) :=
  own ← user_assignments realm user;
  groups ← bfs_groups realm user;
  orgs ← fold_res (λ orgs gid,
    ras ← group_assignments realm gid;
    Ok (note_orgs (ra_scope <$> ras) orgs)) (note_orgs (ra_scope <$> own) []) groups;
  grants ← user_permissions realm user;
  Ok (note_orgs (upg_scope <$> grants) orgs).
End resolve.
