(* ===== verification/RbacGroups.v ===== *)
(** * Role-based access control: the walk over nested groups

What [bfs_groups] computes: the transitive closure of the membership relation,
with the depth and breadth limits of the source. *)
From stdpp Require Import base list gmap strings sorting lexico.
From Stdlib Require Import Strings.Byte ZArith Lia.
From S2P Require Import Prelude OrdMap StorageTypes OrdSet RbacTypes RbacResolve.

Section groups.
Context `{!UuidText, !HashOrder (list byte), !Resolver}.
Variables (realm : RealmId) (user : UserId).

(** The stored graph says that [g] directly contains [m]. *)
Definition contains_member (g : GroupId) (m : GroupMember) : Prop :=
  ∃ ps, parent_groups_of realm m = Ok ps ∧ g ∈ ps.

(** The user is in [g] through a chain of [n] memberships. *)
Inductive in_group : nat → GroupId → Prop :=
| in_direct g : contains_member g (MUser user) → in_group 1 g
| in_nested n g g' : in_group n g → contains_member g' (MGroup g) → in_group (S n) g'.

(** The members the walk asks about: the user and the groups it is in. *)
Inductive walk_member : nat → GroupMember → Prop :=
| wm_user : walk_member 0 (MUser user)
| wm_group n g : in_group n g → walk_member n (MGroup g).

Lemma walk_member_contains n m g : walk_member n m → contains_member g m → in_group (S n) g.
Proof. intros [] Hc; [by constructor|]. by eapply in_nested. Qed.

Lemma in_group_inv n g : in_group (S n) g → ∃ m, walk_member n m ∧ contains_member g m.
Proof.
intros Hg. inversion Hg; subst; [exists (MUser user)|exists (MGroup g0)]; (split; [by constructor|done]).
Qed.

Lemma in_group_pos n g : in_group n g → (1 <= n)%nat.
Proof. destruct 1; lia. Qed.

(** ** One member's containing groups *)

Lemma bfs_parents_ok nd ps V Q V' Q' :
  bfs_parents nd ps V Q = Ok (V', Q') → (size V <= MAX_GROUP_BREADTH)%nat →
  ∃ new, V' = list_to_set new ∪ V ∧ Q' = Q ++ ((λ g, (MGroup g, nd)) <$> new) ∧
    (∀ g, g ∈ new → g ∈ ps ∧ g ∉ V) ∧ (∀ g, g ∈ ps → g ∈ V') ∧ (new ≠ [] → (nd <= MAX_GROUP_DEPTH)%nat) ∧
    size V' = (length new + size V)%nat ∧ (size V' <= MAX_GROUP_BREADTH)%nat.
Proof.
revert V Q. induction ps as [|p ps IH]; intros V Q Hb Hs; cbn [bfs_parents] in Hb.
- injection Hb as <- <-. exists []. rewrite app_nil_r. repeat split; try set_solver; simpl; try lia.
- case_decide as Hp.
  + destruct (IH _ _ Hb Hs) as (new & HV & HQ & Hn & Hps & Hd & Hsz & Hm). exists new.
    split; [done|]. split; [done|]. split; [set_solver|]. split; [|done].
    intros g [->|Hg]%elem_of_cons; [|by apply Hps]. rewrite HV. set_solver.
  + destruct (Nat.ltb_spec MAX_GROUP_BREADTH (size ({[p]} ∪ V))) as [|Hs']; [done|].
    destruct (Nat.ltb_spec MAX_GROUP_DEPTH nd) as [|Hd']; [done|].
    destruct (IH _ _ Hb Hs') as (new & HV & HQ & Hn & Hps & Hd & Hsz & Hm). exists (p :: new).
    assert (size ({[p]} ∪ V) = S (size V)) as Hone.
    { rewrite size_union by set_solver. by rewrite size_singleton. }
    split; [rewrite HV; simpl; set_solver|]. split; [by rewrite HQ, <-app_assoc|].
    split; [intros g [->|Hg]%elem_of_cons; [set_solver|]; apply Hn in Hg; set_solver|].
    split; [intros g [->|Hg]%elem_of_cons; [rewrite HV; set_solver|by apply Hps]|].
    split; [done|]. split; [|done]. rewrite Hsz, Hone. simpl. lia.
Qed.

(** Why one member's loop refuses: a group that was not seen yet is one too many,
or too deep. *)
Lemma bfs_parents_err nd ps V Q e :
  bfs_parents nd ps V Q = Err e → (size V <= MAX_GROUP_BREADTH)%nat →
  (e = BreadthExceeded TraverseGroups MAX_GROUP_BREADTH ∧
     ∃ new, NoDup new ∧ length new = S MAX_GROUP_BREADTH ∧ ∀ g, g ∈ new → g ∈ ps ∨ g ∈ V) ∨
  (e = DepthExceeded TraverseGroups MAX_GROUP_DEPTH ∧ (MAX_GROUP_DEPTH < nd)%nat ∧
     ∃ g, g ∈ ps ∧ g ∉ V).
Proof.
revert V Q. induction ps as [|p ps IH]; intros V Q Hb Hs; cbn [bfs_parents] in Hb; [done|].
case_decide as Hp.
{ destruct (IH _ _ Hb Hs) as [(He & new & Hnd & Hl & Hn)|(He & Hnd & g & Hg & HgV)].
  - left. split; [done|]. exists new. split; [done|]. split; [done|]. intros g Hg. apply Hn in Hg. set_solver.
  - right. split; [done|]. split; [done|]. exists g. set_solver. }
destruct (Nat.ltb_spec MAX_GROUP_BREADTH (size ({[p]} ∪ V))) as [Hs'|Hs'].
{ left. injection Hb as <-. split; [done|]. exists (elements ({[p]} ∪ V)). split; [apply NoDup_elements|]. split.
  - assert (size ({[p]} ∪ V) = S (size V)) as Hone.
    { rewrite size_union by set_solver. by rewrite size_singleton. }
    change (length (elements ({[p]} ∪ V))) with (size ({[p]} ∪ V)). lia.
  - intros g Hg%elem_of_elements. set_solver. }
destruct (Nat.ltb_spec MAX_GROUP_DEPTH nd) as [Hd'|Hd'].
{ right. injection Hb as <-. split; [done|]. split; [done|]. exists p. set_solver. }
destruct (IH _ _ Hb Hs') as [(He & new & Hnd & Hl & Hn)|(He & Hnd & g & Hg & HgV)].
- left. split; [done|]. exists new. split; [done|]. split; [done|]. intros g Hg. apply Hn in Hg. set_solver.
- lia.
Qed.

Lemma bfs_parents_no_panic nd ps V Q : bfs_parents nd ps V Q ≠ Panic.
Proof. revert V Q. induction ps as [|p ps IH]; intros V Q; simpl; [done|]. repeat case_match; try done; apply IH. Qed.

(** ** The breadth-first invariant *)

(** What holds whenever the loop tests its queue: members are queued at their
distance from the user, by non-decreasing depths that span at most two levels;
every group up to the depth of the queue's head has been seen; and what has been
seen is queued or has had its containing groups examined. *)
Record bfs_inv (V : gset GroupId) (Q : list (GroupMember * nat)) : Prop := {
  bi_seen g : g ∈ V → ∃ n, (n <= MAX_GROUP_DEPTH)%nat ∧ in_group n g;
  bi_queue m d : (m, d) ∈ Q →
    walk_member d m ∧ (d <= MAX_GROUP_DEPTH)%nat ∧ (∀ g, m = MGroup g → g ∈ V ∧ ∀ n, in_group n g → (d <= n)%nat);
  bi_depths m d Q' : Q = (m, d) :: Q' → Forall (λ e, e.2 = d ∨ e.2 = S d) Q' ∧ StronglySorted Nat.le Q.*2;
  bi_level m d Q' : Q = (m, d) :: Q' → ∀ n g, (n <= d)%nat → in_group n g → g ∈ V;
  bi_closed m : (m = MUser user ∨ ∃ g, m = MGroup g ∧ g ∈ V) →
    (∃ d, (m, d) ∈ Q) ∨ (∀ g, contains_member g m → g ∈ V);
  bi_size : (size V <= MAX_GROUP_BREADTH)%nat
}.

Lemma bfs_inv_init : bfs_inv ∅ [(MUser user, 0%nat)].
Proof.
split.
- set_solver.
- intros m d [= -> ->]%list_elem_of_singleton. split; [constructor|]. split; [unfold MAX_GROUP_DEPTH; lia|done].
- intros m d Q' [= <- <- <-]. split; [constructor|]. repeat constructor.
- intros m d Q' [= <- <- <-] n g Hn Hg. apply in_group_pos in Hg. lia.
- intros m [->|(g & _ & Hg)]; [|set_solver]. left. exists 0%nat. by left.
- rewrite size_empty. lia.
Qed.

Lemma SSorted_app_const (l : list nat) n d :
  StronglySorted Nat.le (d :: l) → Forall (λ e, e = d ∨ e = S d) l →
  StronglySorted Nat.le (l ++ replicate n (S d)).
Proof.
intros Hs Hf. inversion Hs as [|? ? Hs' _]; subst. clear Hs.
induction Hs' as [|x l Hs IH Hx]; simpl.
- induction n as [|n IH]; simpl; constructor; [done|]. apply Forall_replicate. done.
- apply Forall_cons in Hf as [Hx' Hf]. constructor; [by apply IH|]. apply Forall_app. split; [done|].
  apply Forall_replicate. unfold Nat.le. lia.
Qed.

Section step.
Variables (m : GroupMember) (d : nat) (Q : list (GroupMember * nat)) (V V' : gset GroupId) (new ps : list GroupId).
Hypothesis Hinv : bfs_inv V ((m, d) :: Q).
Hypothesis Hps : parent_groups_of realm m = Ok ps.
Hypothesis HV' : V' = list_to_set new ∪ V.
Hypothesis Hnew : ∀ g, g ∈ new → g ∈ ps ∧ g ∉ V.
Hypothesis Hall : ∀ g, g ∈ ps → g ∈ V'.
Hypothesis Hdep : new ≠ [] → (S d <= MAX_GROUP_DEPTH)%nat.
Hypothesis Hsize : (size V' <= MAX_GROUP_BREADTH)%nat.
Let Q' := Q ++ ((λ g, (MGroup g, S d)) <$> new).

Lemma bfs_new_in_group g : g ∈ new → in_group (S d) g ∧ (S d <= MAX_GROUP_DEPTH)%nat ∧ ∀ n, in_group n g → (S d <= n)%nat.
Proof.
intros Hg. destruct (Hnew _ Hg) as [Hgp HgV].
destruct (bi_queue _ _ Hinv m d ltac:(left)) as (Hw & _ & _). split.
- eapply walk_member_contains; [exact Hw|]. by exists ps.
- split; [apply Hdep; by intros ->; apply elem_of_nil in Hg|]. intros n Hn. destruct (decide (S d <= n)%nat); [done|].
  exfalso. apply HgV. eapply (bi_level _ _ Hinv); [done| |exact Hn]. lia.
Qed.

Lemma bfs_queue_in m' d' : (m', d') ∈ Q' ↔ (m', d') ∈ Q ∨ ∃ g, g ∈ new ∧ m' = MGroup g ∧ d' = S d.
Proof. unfold Q'. rewrite elem_of_app, list_elem_of_fmap. naive_solver. Qed.

Lemma bfs_closed_step m' : (m' = MUser user ∨ ∃ g, m' = MGroup g ∧ g ∈ V') →
  (∃ d', (m', d') ∈ Q') ∨ (∀ g, contains_member g m' → g ∈ V').
Proof.
intros Hm.
assert ((∃ g, m' = MGroup g ∧ g ∈ new) ∨ (m' = MUser user ∨ ∃ g, m' = MGroup g ∧ g ∈ V)) as [(g & -> & Hg)|Hm'].
{ destruct Hm as [->|(g & -> & Hg)]; [tauto|]. rewrite HV' in Hg. apply elem_of_union in Hg as [Hg|Hg]; [|eauto 6].
  apply elem_of_list_to_set in Hg. eauto. }
- left. exists (S d). apply bfs_queue_in. eauto.
- destruct (bi_closed _ _ Hinv m' Hm') as [(d' & [[= -> ->]|Hd']%elem_of_cons)|Hc].
  + right. intros g (ps' & Hps' & Hg). rewrite Hps in Hps'. injection Hps' as <-. by apply Hall.
  + left. exists d'. apply bfs_queue_in. tauto.
  + right. intros g Hg. rewrite HV'. set_solver.
Qed.

Lemma bfs_depths_step m1 d1 Q1 : Q' = (m1, d1) :: Q1 →
  (d1 = d ∨ d1 = S d) ∧ Forall (λ e, e.2 = d1 ∨ e.2 = S d1) Q1 ∧ StronglySorted Nat.le Q'.*2.
Proof.
intros HQ. destruct (bi_depths _ _ Hinv m d Q eq_refl) as [Hf Hs].
assert (Forall (λ e, e = d ∨ e = S d) Q.*2) as Hf2.
{ apply Forall_fmap. eapply Forall_impl; [exact Hf|]. done. }
assert (Q'.*2 = Q.*2 ++ replicate (length new) (S d)) as HQ2.
{ unfold Q'. rewrite fmap_app, <-list_fmap_compose. f_equal. by apply const_fmap. }
pose proof (SSorted_app_const (Q.*2) (length new) d Hs Hf2) as Hs2. rewrite <-HQ2 in Hs2.
assert (Forall (λ e, e = d ∨ e = S d) Q'.*2) as Hf3.
{ rewrite HQ2. apply Forall_app. split; [done|]. apply Forall_replicate. tauto. }
rewrite HQ in Hf3, Hs2 |- *. simpl in *. apply Forall_cons in Hf3 as [H1 Hf3].
split; [done|]. split; [|done]. inversion Hs2 as [|? ? _ Hle]; subst.
rewrite Forall_fmap in Hf3, Hle. rewrite Forall_forall in Hf3, Hle |- *. intros e He.
specialize (Hf3 e He). specialize (Hle e He). simpl in *. unfold Nat.le in Hle. lia.
Qed.

(** The level argument: when the head moves to the next depth, every member at
the previous one has been examined. *)
Lemma bfs_level_step m1 d1 Q1 n g : Q' = (m1, d1) :: Q1 → (n <= d1)%nat → in_group n g → g ∈ V'.
Proof.
intros HQ Hn Hg. destruct (bfs_depths_step _ _ _ HQ) as (Hd1 & _ & Hs).
assert (∀ n g, (n <= d)%nat → in_group n g → g ∈ V') as Hold.
{ intros n' g' Hn' Hg'. rewrite HV'. apply elem_of_union. right. by eapply (bi_level _ _ Hinv). }
destruct (decide (n <= d)%nat) as [Hle|Hgt]; [by eapply Hold|].
assert (d1 = S d) as -> by lia. assert (n = S d) as -> by lia.
apply in_group_inv in Hg as (m2 & Hm2 & Hc).
assert (m2 = MUser user ∨ ∃ g, m2 = MGroup g ∧ g ∈ V') as Hcl.
{ inversion Hm2; subst; [by left|]. right. eexists. split; [done|]. by eapply Hold. }
destruct (bfs_closed_step m2 Hcl) as [(d2 & Hd2)|Hall']; [|by apply Hall'].
exfalso. assert (S d <= d2)%nat as Hge.
{ rewrite HQ in Hd2, Hs. simpl in Hs. inversion Hs as [|? ? _ Hle]; subst.
  apply elem_of_cons in Hd2 as [[= _ ->]|Hd2]; [done|]. rewrite Forall_fmap, Forall_forall in Hle. by apply (Hle _ Hd2). }
apply bfs_queue_in in Hd2 as [Hd2|(g' & Hg' & -> & ->)].
- destruct (bi_queue _ _ Hinv m2 d2 ltac:(by right)) as (Hw & _ & Hmin). inversion Hm2 as [|? g2 Hg2]; subst.
  + inversion Hw; subst. lia.
  + destruct (Hmin _ eq_refl) as [_ Hmin']. specialize (Hmin' _ Hg2). lia.
- destruct (bfs_new_in_group _ Hg') as (_ & _ & Hmin). inversion Hm2 as [|? g2 Hg2]; subst. specialize (Hmin _ Hg2). lia.
Qed.

Lemma bfs_inv_step : bfs_inv V' Q'.
Proof.
split.
- intros g Hg. rewrite HV' in Hg. apply elem_of_union in Hg as [Hg|Hg]; [|by apply (bi_seen _ _ Hinv)].
  apply elem_of_list_to_set, bfs_new_in_group in Hg as (? & ? & _). eauto.
- intros m' d' [Hin|(g & Hg & -> & ->)]%bfs_queue_in.
  + destruct (bi_queue _ _ Hinv m' d' ltac:(by right)) as (Hw & Hle & Hmin). split; [done|]. split; [done|].
    intros g ->. destruct (Hmin _ eq_refl). split; [|done]. rewrite HV'. set_solver.
  + destruct (bfs_new_in_group _ Hg) as (Hin & Hle & Hmin). split; [by constructor|]. split; [done|].
    intros g' [= <-]. split; [|done]. rewrite HV'. set_solver.
- intros m' d' Q1 HQ. by apply bfs_depths_step in HQ as (_ & ? & ?).
- intros m' d' Q1 HQ n g. by eapply bfs_level_step.
- exact bfs_closed_step.
- done.
Qed.
End step.

(** ** The loop *)

(** The walk's three ways to end, once it ends. *)
Definition bfs_result (r : rres (gset GroupId)) : Prop :=
  match r with
  | Ok V => (size V <= MAX_GROUP_BREADTH)%nat ∧ (∀ g, g ∈ V ↔ ∃ n, in_group n g) ∧
            (∀ g, g ∈ V → ∃ n, (n <= MAX_GROUP_DEPTH)%nat ∧ in_group n g)
  | Err e =>
      (e = BreadthExceeded TraverseGroups MAX_GROUP_BREADTH ∧
        ∃ gs, NoDup gs ∧ length gs = S MAX_GROUP_BREADTH ∧ ∀ g, g ∈ gs → ∃ n, in_group n g) ∨
      (e = DepthExceeded TraverseGroups MAX_GROUP_DEPTH ∧
        ∃ g, (∃ n, in_group n g) ∧ ∀ n, in_group n g → (MAX_GROUP_DEPTH < n)%nat) ∨
      (∃ n m, walk_member n m ∧ parent_groups_of realm m = Err e)
  | Panic => ∃ n m, walk_member n m ∧ parent_groups_of realm m = Panic
  end.

Lemma bfs_done V : bfs_inv V [] → bfs_result (Ok V).
Proof.
intros Hinv. split; [apply (bi_size _ _ Hinv)|].
assert (∀ n m, walk_member n m → m = MUser user ∨ ∃ g, m = MGroup g ∧ g ∈ V) as Hall.
{ intros n. induction n as [|n IH]; intros m Hm; inversion Hm as [|? g Hg]; subst; [by left|by apply in_group_pos in Hg; lia|].
  right. exists g. split; [done|]. apply in_group_inv in Hg as (m' & Hm' & Hc).
  destruct (bi_closed _ _ Hinv m' (IH _ Hm')) as [(d & Hd)|Hcl]; [by apply elem_of_nil in Hd|by apply Hcl]. }
split.
- intros g. split; [intros Hg; apply (bi_seen _ _ Hinv) in Hg as (n & _ & ?); eauto|].
  intros (n & Hg). destruct (Hall n (MGroup g)) as [|(g' & [= ->] & ?)]; [by constructor|done..].
- apply (bi_seen _ _ Hinv).
Qed.

Lemma bfs_refuse m d Q V ps e :
  bfs_inv V ((m, d) :: Q) → parent_groups_of realm m = Ok ps → bfs_parents (S d) ps V Q = Err e →
  bfs_result (Err e).
Proof.
intros Hinv Hps Hb. destruct (bi_queue _ _ Hinv m d ltac:(left)) as (Hw & Hd & _).
assert (∀ g, g ∈ ps → in_group (S d) g) as Hin.
{ intros g Hg. eapply walk_member_contains; [exact Hw|]. by exists ps. }
apply bfs_parents_err in Hb as [(-> & gs & Hnd & Hlen & Hgs)|(-> & Hdeep & g & Hg & HgV)]; [| |apply (bi_size _ _ Hinv)].
- left. split; [done|]. exists gs. split; [done|]. split; [done|]. intros g [Hg|Hg]%Hgs; [by eauto|].
  apply (bi_seen _ _ Hinv) in Hg as (n & _ & ?). eauto.
- right; left. split; [done|]. exists g. split; [by eauto|]. intros n Hn.
  destruct (decide (MAX_GROUP_DEPTH < n)%nat); [done|]. exfalso. apply HgV.
  eapply (bi_level _ _ Hinv); [done| |exact Hn]. lia.
Qed.

(** Enough fuel for the queue and the groups that may still join it gives a
result, and the result is right. *)
Lemma bfs_loop_result fuel V Q :
  bfs_inv V Q → (length Q + (MAX_GROUP_BREADTH - size V) < fuel)%nat →
  ∃ r, bfs_loop fuel realm V Q = Some r ∧ bfs_result r.
Proof.
revert V Q. induction fuel as [|fuel IH]; intros V Q Hinv Hf; [lia|].
destruct Q as [|[m d] Q]; cbn [bfs_loop]; [exists (Ok V); split; [done|by apply bfs_done]|].
destruct (bi_queue _ _ Hinv m d ltac:(left)) as (Hw & _ & _).
destruct (parent_groups_of realm m) as [ps|e|] eqn:Hps; cbn [mbind outcome_bind].
- destruct (bfs_parents (S d) ps V Q) as [[V' Q']|e|] eqn:Hb.
  + apply bfs_parents_ok in Hb as (new & HV & HQ & Hn & Hall & Hd & Hsz & Hm); [|apply (bi_size _ _ Hinv)].
    subst Q'. apply IH; [by eapply bfs_inv_step|].
    rewrite length_app, length_fmap, Hsz. simpl in Hf. rewrite Hsz in Hm. lia.
  + exists (Err e). split; [done|]. by eapply bfs_refuse.
  + by apply bfs_parents_no_panic in Hb.
- exists (Err e). split; [done|]. right; right. eauto.
- exists Panic. split; [done|]. exists d, m. done.
Qed.

Lemma bfs_groups_result : ∃ r, bfs_loop bfs_fuel realm ∅ [(MUser user, 0%nat)] = Some r ∧ bfs_result r.
Proof. apply bfs_loop_result; [apply bfs_inv_init|]. rewrite size_empty. unfold bfs_fuel. simpl length. lia. Qed.

(** The members a resolved walk returns. *)
Lemma bfs_groups_ok gs : bfs_groups realm user = Ok gs →
  NoDup gs ∧ (length gs <= MAX_GROUP_BREADTH)%nat ∧ ∀ g, g ∈ gs ↔ ∃ n, in_group n g.
Proof.
unfold bfs_groups. destruct bfs_groups_result as (r & -> & Hr). intros Hok.
apply bind_Ok_inv in Hok as (V & -> & [= <-]). destruct Hr as (Hs & Hin & _).
split; [rewrite hash_iter_perm; apply NoDup_elements|]. split.
- by rewrite (Permutation_length (hash_iter_perm V)).
- intros g. by rewrite elem_of_hash_iter.
Qed.

(** C10: The walk over nested groups always ends, cycles in the graph included. It
returns each group the user is transitively in exactly once, all of them within
ten memberships; it refuses for breadth only when the user is in more than 1000
groups, and for depth only when some group is more than ten memberships away by
every route; and it fails otherwise only when a lookup fails. *)
Theorem bfs_groups_exact :
  match bfs_groups realm user with
  | Ok gs => NoDup gs ∧ (length gs <= 1000)%nat ∧ (∀ g, g ∈ gs ↔ ∃ n, in_group n g) ∧
             (∀ g, g ∈ gs → ∃ n, (n <= 10)%nat ∧ in_group n g)
  | Err e =>
      (e = BreadthExceeded TraverseGroups 1000 ∧
        ∃ gs, NoDup gs ∧ length gs = 1001%nat ∧ ∀ g, g ∈ gs → ∃ n, in_group n g) ∨
      (e = DepthExceeded TraverseGroups 10 ∧
        ∃ g, (∃ n, in_group n g) ∧ ∀ n, in_group n g → (10 < n)%nat) ∨
      (∃ n m, walk_member n m ∧ parent_groups_of realm m = Err e)
  | Panic => ∃ n m, walk_member n m ∧ parent_groups_of realm m = Panic
  end.
Proof.
destruct (bfs_groups realm user) as [gs|e|] eqn:Hb.
- pose proof (bfs_groups_ok _ Hb) as (Hnd & Hlen & Hin). split; [done|]. split; [exact Hlen|]. split; [done|].
  unfold bfs_groups in Hb. destruct bfs_groups_result as (r & Hr & Hres). rewrite Hr in Hb.
  apply bind_Ok_inv in Hb as (V & -> & [= <-]). intros g Hg%elem_of_hash_iter. by apply Hres.
- unfold bfs_groups in Hb. destruct bfs_groups_result as (r & Hr & Hres). rewrite Hr in Hb.
  destruct r as [V|e'|]; cbn [mbind outcome_bind] in Hb; [discriminate| |discriminate].
  injection Hb as ->. exact Hres.
- unfold bfs_groups in Hb. destruct bfs_groups_result as (r & Hr & Hres). rewrite Hr in Hb.
  destruct r as [V|e'|]; cbn [mbind outcome_bind] in Hb; [discriminate|discriminate|]. exact Hres.
Qed.
End groups.
