(* ===== verification/RbacRoles.v ===== *)
(** * Role-based access control: the expansion of composed roles

What [expand_role] computes: the roles inherited through active roles, each
once, with their names and permissions; that it succeeds only on acyclic
composition; and why it refuses. *)
From stdpp Require Import base list gmap strings sorting lexico relations.
From Stdlib Require Import Strings.Byte ZArith Lia.
From S2P Require Import Prelude OrdMap StorageTypes OrdSet RbacTypes RbacResolve.

Section roles.
Context `{!UuidText, !HashOrder (list byte), !Resolver}.
Variable realm : RealmId.
Implicit Types (id p u v : RoleId) (w : RoleWalk) (role : Role).

(** The role exists and is not archived. *)
Definition active id role : Prop := get_role realm id = Ok (Some role) ∧ ro_status role ≠ RoleArchivedSt.
Definition is_active id : Prop := ∃ role, active id role.
(** An active role names [p] among its parents. *)
Definition composes id p : Prop := ∃ role, active id role ∧ p ∈ ro_parent_roles role.
Abbreviation inherits := (rtc composes).

Lemma active_unique id role role' : active id role → active id role' → role = role'.
Proof. intros [H1 _] [H2 _]. rewrite H1 in H2. by injection H2. Qed.

Lemma composes_active id p : composes id p → is_active id.
Proof. intros (role & ? & _). by exists role. Qed.

(** ** The walk's invariant *)

(** A role is finished when it is visited and not on the current path: then it is
active, lies on no cycle, and its active parents are finished too. *)
Definition finished w u : Prop := u ∈ rw_visited w ∧ u ∉ rw_path w.
Definition walk_ok w : Prop := ∀ u, finished w u →
  is_active u ∧ ¬ tc composes u u ∧ ∀ p, composes u p → is_active p → finished w p.

Lemma walk_ok_new : walk_ok walk_new.
Proof. intros u [Hu _]. set_solver. Qed.

Lemma finished_inherits w u v : walk_ok w → finished w u → inherits u v → is_active v → finished w v.
Proof.
intros Hw Hu Hr Hv. revert Hu. induction Hr as [u|u p v Hc Hr IH]; intros Hu; [done|].
apply IH; [done|]. eapply (Hw u); [done..|].
inversion Hr as [|? ? ? Hc']; subst; [done|]. by eapply composes_active.
Qed.

(** What a walk collects on the way from [w] to [w']: exactly the newly visited
roles' contributions. *)
Definition newly w w' v role : Prop := v ∈ rw_visited w' ∧ v ∉ rw_visited w ∧ active v role.

Record expands (ids : list RoleId) w w' : Prop := {
  ex_path : rw_path w' = rw_path w;
  ex_off_path id : id ∈ ids → id ∉ rw_path w;
  ex_mono : rw_visited w ⊆ rw_visited w';
  ex_ok : walk_ok w';
  ex_roots id : id ∈ ids → is_active id → id ∈ rw_visited w';
  ex_reach v : v ∈ rw_visited w' → v ∉ rw_visited w → ∃ id, id ∈ ids ∧ inherits id v ∧ is_active v;
  ex_names n : n ∈ rw_role_names w' ↔ n ∈ rw_role_names w ∨ ∃ v role, newly w w' v role ∧ n = ro_name role;
  ex_perms q : q ∈ rw_perms w' ↔ q ∈ rw_perms w ∨ ∃ v role, newly w w' v role ∧ q ∈ ro_permissions role;
  ex_sorted : bs_sorted (rw_role_names w) → bs_sorted (rw_perms w) → bs_sorted (rw_orphans w) →
    bs_sorted (rw_role_names w') ∧ bs_sorted (rw_perms w') ∧ bs_sorted (rw_orphans w')
}.

Lemma expands_nil w : walk_ok w → expands [] w w.
Proof. intros Hw. split; unfold newly; try done; set_solver. Qed.

Lemma newly_trans w w1 w2 v role :
  rw_visited w ⊆ rw_visited w1 → rw_visited w1 ⊆ rw_visited w2 →
  newly w w2 v role ↔ newly w w1 v role ∨ newly w1 w2 v role.
Proof. intros H1 H2. unfold newly. destruct (decide (v ∈ rw_visited w1)); set_solver. Qed.

Lemma expands_app ids1 ids2 w w1 w2 :
  expands ids1 w w1 → expands ids2 w1 w2 → expands (ids1 ++ ids2) w w2.
Proof.
intros H1 H2. pose proof (ex_mono _ _ _ H1) as Hm1. pose proof (ex_mono _ _ _ H2) as Hm2. split.
- by rewrite (ex_path _ _ _ H2), (ex_path _ _ _ H1).
- intros id [Hid|Hid]%elem_of_app; [by eapply ex_off_path|]. rewrite <-(ex_path _ _ _ H1). by eapply ex_off_path.
- set_solver.
- by eapply ex_ok.
- intros id [Hid|Hid]%elem_of_app Ha; [apply Hm2; by eapply ex_roots|by eapply ex_roots].
- intros v Hv Hn. setoid_rewrite elem_of_app. destruct (decide (v ∈ rw_visited w1)) as [Hd|Hd].
  + destruct (ex_reach _ _ _ H1 v Hd Hn) as (id & ? & ?). eauto.
  + destruct (ex_reach _ _ _ H2 v Hv Hd) as (id & ? & ?). eauto.
- intros n. rewrite (ex_names _ _ _ H2), (ex_names _ _ _ H1). setoid_rewrite (newly_trans w w1 w2); [|done..]. naive_solver.
- intros q. rewrite (ex_perms _ _ _ H2), (ex_perms _ _ _ H1). setoid_rewrite (newly_trans w w1 w2); [|done..]. naive_solver.
- intros Hn Hp Ho. destruct (ex_sorted _ _ _ H1 Hn Hp Ho) as (? & ? & ?). by apply (ex_sorted _ _ _ H2).
Qed.

Lemma fold_expands {B} (f : RoleWalk → B → rres RoleWalk) (ids : B → list RoleId) l w w' :
  (∀ b w1 w2, f w1 b = Ok w2 → walk_ok w1 → expands (ids b) w1 w2) →
  fold_res f w l = Ok w' → walk_ok w → expands (l ≫= ids) w w'.
Proof.
intros Hf. revert w. induction l as [|b l IH]; intros w Hok Hw; simpl in Hok.
- injection Hok as <-. by apply expands_nil.
- apply bind_Ok_inv in Hok as (w1 & H1 & Hok). apply Hf in H1; [|done].
  rewrite bind_cons. eapply expands_app; [done|]. apply IH; [done|]. by eapply ex_ok.
Qed.

Lemma bind_singletons {A} (l : list A) : (l ≫= λ x, [x]) = l.
Proof. induction l as [|x l IH]; [done|]. rewrite bind_cons, IH. done. Qed.

(** ** Entering and leaving a role *)

Lemma leave_enter id w w' :
  id ∉ rw_path w → rw_path w' = rw_path (walk_enter id w) → rw_path (walk_leave id w') = rw_path w.
Proof. intros Hid Hp. simpl. rewrite Hp. simpl. set_solver. Qed.

(** A role that contributes nothing: it is visited already, missing or archived. *)
Lemma expands_skip id w w' :
  walk_ok w → id ∉ rw_path w → (is_active id → id ∈ rw_visited w) →
  rw_visited w' = rw_visited w → rw_path w' = rw_path (walk_enter id w) →
  rw_role_names w' = rw_role_names w → rw_perms w' = rw_perms w →
  (bs_sorted (rw_orphans w) → bs_sorted (rw_orphans w')) →
  expands [id] w (walk_leave id w').
Proof.
intros Hw Hid Ha Hv Hp Hn Hq Ho. pose proof (leave_enter id w w' Hid Hp) as Hl.
assert (rw_visited (walk_leave id w') = rw_visited w) as Hv' by done.
split; rewrite ?Hl, ?Hv'.
- done.
- set_solver.
- done.
- intros u Hu. unfold finished in Hu |- *. rewrite Hl, Hv' in *. by apply Hw.
- intros u ->%list_elem_of_singleton. done.
- done.
- intros n. unfold newly. rewrite Hv'. simpl. rewrite Hn. naive_solver.
- intros q. unfold newly. rewrite Hv'. simpl. rewrite Hq. naive_solver.
- simpl. rewrite Hn, Hq. naive_solver.
Qed.

Lemma walk_ok_collect id role w :
  walk_ok w → id ∉ rw_visited w → walk_ok (walk_collect id role (walk_enter id w)).
Proof.
intros Hw Hid u [Hu Hp]. simpl in Hu, Hp.
assert (finished w u) as Hf by (split; set_solver). destruct (Hw u Hf) as (Ha & Hc & Hpar).
split; [done|]. split; [done|]. intros q Hq Hqa. destruct (Hpar q Hq Hqa) as [Hv Hn].
split; simpl; set_solver.
Qed.

(** When every parent has been expanded, the role itself is finished. *)
Lemma walk_ok_leave id role w w2 :
  active id role → id ∉ rw_path w →
  expands (ro_parent_roles role) (walk_collect id role (walk_enter id w)) w2 → walk_ok (walk_leave id w2).
Proof.
intros Ha Hid Hex. pose proof (ex_path _ _ _ Hex) as Hp. simpl in Hp.
pose proof (ex_ok _ _ _ Hex) as Hw2.
assert (∀ u, finished w2 u → finished (walk_leave id w2) u) as Hfin.
{ intros u [Hv Hn]. split; simpl; [done|]. set_solver. }
assert (∀ p, composes id p → is_active p → finished w2 p) as Hpar.
{ intros p (role' & Ha' & Hin) Hpa. rewrite (active_unique _ _ _ Ha' Ha) in Hin.
  split; [by eapply ex_roots|]. rewrite Hp. by apply (ex_off_path _ _ _ Hex). }
intros u [Hv Hn]. simpl in Hv, Hn. destruct (decide (u = id)) as [->|Hne].
- split; [by exists role|]. split.
  + intros Hcyc.
    assert (∃ p, composes id p ∧ inherits p id) as (p & Hc & Hr).
    { inversion Hcyc as [? ? Hc|? p ? Hc Ht]; subst; [exists id; split; [done|apply rtc_refl]|].
      exists p. split; [done|]. by apply tc_rtc. }
    assert (is_active p) as Hpa.
    { apply rtc_inv in Hr as [->|(q & Hq & _)]; [by exists role|by eapply composes_active]. }
    assert (finished w2 id) as [_ Hoff] by (eapply finished_inherits; [done|by eapply Hpar|done|by exists role]).
    rewrite Hp in Hoff. set_solver.
  + intros p Hc Hpa. apply Hfin. by apply Hpar.
- assert (finished w2 u) as Hf by (split; [done|]; rewrite Hp in *; set_solver).
  destruct (Hw2 u Hf) as (? & ? & Hu). split; [done|]. split; [done|]. intros p Hc Hpa. by apply Hfin, Hu.
Qed.

Lemma expands_role id role w w2 :
  active id role → id ∉ rw_path w → id ∉ rw_visited w →
  expands (ro_parent_roles role) (walk_collect id role (walk_enter id w)) w2 →
  expands [id] w (walk_leave id w2).
Proof.
intros Ha Hid Hnv Hex. pose proof (ex_mono _ _ _ Hex) as Hm. simpl in Hm.
assert (∀ v role', newly w (walk_leave id w2) v role' ↔
  (v = id ∧ role' = role) ∨ newly (walk_collect id role (walk_enter id w)) w2 v role') as Hnew.
{ intros v role'. unfold newly. simpl. split.
  - intros (Hv & Hn & Har). destruct (decide (v = id)) as [->|]; [left; split; [done|by eapply active_unique]|].
    right. set_solver.
  - intros [[-> ->]|(Hv & Hn & Har)]; [set_solver|]. set_solver. }
split.
- apply leave_enter; [done|]. apply (ex_path _ _ _ Hex).
- set_solver.
- simpl. set_solver.
- by eapply walk_ok_leave.
- intros u ->%list_elem_of_singleton _. simpl. set_solver.
- intros v Hv Hn. exists id. split; [by left|]. simpl in Hv. destruct (decide (v = id)) as [->|].
  + split; [apply rtc_refl|by exists role].
  + destruct (ex_reach _ _ _ Hex v Hv) as (p & Hp & Hr & ?); [simpl; set_solver|]. split; [|done].
    eapply rtc_l; [|exact Hr]. by exists role.
- intros n. setoid_rewrite Hnew. simpl. rewrite (ex_names _ _ _ Hex). simpl. rewrite elem_of_bs_insert. naive_solver.
- intros q. setoid_rewrite Hnew. simpl. rewrite (ex_perms _ _ _ Hex). simpl. rewrite elem_of_bs_extend. naive_solver.
- intros Hn Hp Ho. simpl. apply (ex_sorted _ _ _ Hex); simpl; [by apply bs_insert_sorted|by apply bs_extend_sorted|done].
Qed.

(** A successful expansion collects exactly the new active roles it inherits. *)
Lemma expand_role_ok fuel id w depth w' :
  expand_role fuel realm id w depth = Ok w' → walk_ok w → expands [id] w w'.
Proof.
revert id w depth w'. induction fuel as [|fuel IH]; intros id w depth w' Hok Hw; [done|]. cbn [expand_role] in Hok.
destruct (MAX_ROLE_DEPTH <? depth)%nat; [done|]. case_decide as Hid; [done|].
case_decide as Hv.
{ injection Hok as <-. by apply expands_skip. }
apply bind_Ok_inv in Hok as (found & Hg & Hok).
assert (∀ r, (∀ role, ¬ active id role) →
  expands [id] w (walk_leave id (walk_orphan (MkOrphanRef OkRole r) (walk_enter id w)))) as Hskip.
{ intros r Hna. apply expands_skip; try done; [intros [role Ha]; by destruct (Hna role)|]. apply bs_insert_sorted. }
destruct found as [role|].
- case_decide as Hst.
  + injection Hok as <-. apply Hskip. intros role' [Hg' Hs]. rewrite Hg in Hg'. injection Hg' as <-. done.
  + apply bind_Ok_inv in Hok as (w2 & Hf & Hok). injection Hok as <-.
    eapply expands_role; [by split|done|exact Hv|].
    eapply (fold_expands _ (λ p, [p])) in Hf; [by rewrite bind_singletons in Hf| |by apply walk_ok_collect].
    intros p w1 w3 H1 H2. by eapply IH.
- injection Hok as <-. apply Hskip. intros role' [Hg' _]. congruence.
Qed.

(** ** Refusals *)

(** Why an expansion that started at [root] refuses with [e]. *)
Definition role_refusal (root : RoleId) (e : RbacError) : Prop :=
  (e = DepthExceeded TraverseRoles MAX_ROLE_DEPTH ∧ ∃ v, nsteps composes (S MAX_ROLE_DEPTH) root v) ∨
  (∃ v, e = CycleDetected CycleRoles (uuid_to_string v) ∧ inherits root v ∧ tc composes v v) ∨
  (∃ v, inherits root v ∧ get_role realm v = Err e).

Lemma fold_res_err {E A B} (f : A → B → outcome E A) (P : A → Prop) l a r :
  fold_res f a l = r → (∀ x, r ≠ Ok x) → P a → (∀ a b a', b ∈ l → P a → f a b = Ok a' → P a') →
  ∃ a' b, b ∈ l ∧ P a' ∧ f a' b = r.
Proof.
revert a. induction l as [|b l IH]; intros a Hr Hno Ha Hp; simpl in Hr; [by destruct (Hno a)|].
destruct (f a b) as [a'|e|] eqn:Hb; cbn [mbind outcome_bind] in Hr.
- destruct (IH a' Hr Hno) as (a'' & b' & Hin & ? & ?).
  + eapply Hp; [left|done..].
  + intros a1 b1 a2 Hin. apply Hp. by right.
  + exists a'', b'. split; [by right|done].
- exists a, b. split; [left|]. split; [done|congruence].
- exists a, b. split; [left|]. split; [done|congruence].
Qed.

Lemma expand_role_not_ok fuel root id w depth r :
  expand_role fuel realm id w depth = r → (∀ x, r ≠ Ok x) → walk_ok w →
  nsteps composes depth root id → (∀ q, q ∈ rw_path w → tc composes q id) →
  (depth <= S MAX_ROLE_DEPTH)%nat → (S (S MAX_ROLE_DEPTH) <= fuel + depth)%nat →
  (∃ e, r = Err e ∧ role_refusal root e) ∨ (r = Panic ∧ ∃ v, inherits root v ∧ get_role realm v = Panic).
Proof.
revert id w depth. induction fuel as [|fuel IH]; intros id w depth Hr Hno Hw Hn Hpath Hd Hf; [lia|]. cbn [expand_role] in Hr.
destruct (Nat.ltb_spec MAX_ROLE_DEPTH depth) as [Hdeep|Hdeep].
{ left. eexists. split; [done|]. left. split; [done|]. exists id. by replace (S MAX_ROLE_DEPTH) with depth by lia. }
case_decide as Hid.
{ left. eexists. split; [done|]. right; left. exists id. split; [done|]. split; [by eapply rtc_nsteps_2|by apply Hpath]. }
case_decide as Hv; [by symmetry in Hr; apply Hno in Hr|].
destruct (get_role realm id) as [found|e|] eqn:Hg; cbn [mbind outcome_bind] in Hr.
- destruct found as [role|]; [case_decide as Hst|]; [by symmetry in Hr; apply Hno in Hr|..|by symmetry in Hr; apply Hno in Hr].
  destruct (fold_res _ _ _) as [w2|e|] eqn:Hfold in Hr; cbn [mbind outcome_bind] in Hr; [by symmetry in Hr; apply Hno in Hr|..].
  all: rewrite Hr in Hfold; eapply (fold_res_err _ (λ w1, walk_ok w1 ∧ rw_path w1 = rw_path (walk_enter id w))) in Hfold
         as (w1 & p & Hp & [Hw1 Hp1] & He);
       [|exact Hno|split; [by apply walk_ok_collect|done]|].
  all: try (intros w1 p w3 Hp [Hw1 Hp1] H13; apply expand_role_ok in H13; [|done];
            split; [by eapply ex_ok|by rewrite (ex_path _ _ _ H13)]).
  all: assert (composes id p) as Hc by (exists role; by split).
  all: eapply IH; [exact He|done|done|by eapply nsteps_r| |lia|lia].
  all: intros q Hq; rewrite Hp1 in Hq; apply elem_of_union in Hq as [->%elem_of_singleton|Hq];
       [by apply tc_once|eapply tc_r; [by apply Hpath|done]].
- left. exists e. split; [done|]. right; right. exists id. split; [by eapply rtc_nsteps_2|done].
- right. split; [done|]. exists id. split; [by eapply rtc_nsteps_2|done].
Qed.

(** ** From an empty walk *)

Lemma expands_visited ids w v : expands ids walk_new w →
  v ∈ rw_visited w ↔ is_active v ∧ ∃ id, id ∈ ids ∧ inherits id v.
Proof.
intros Hex. split.
- intros Hv. destruct (ex_reach _ _ _ Hex v Hv) as (id & ? & ? & ?); [set_solver|]. eauto.
- intros (Ha & id & Hid & Hr). pose proof (ex_path _ _ _ Hex) as Hp. simpl in Hp.
  eapply (finished_inherits w id v); [by eapply ex_ok| |done|done]. split; [|rewrite Hp; set_solver].
  eapply ex_roots; [done|done|]. apply rtc_inv in Hr as [->|(q & Hq & _)]; [done|by eapply composes_active].
Qed.

Lemma expands_acyclic ids w id v : expands ids walk_new w → id ∈ ids → inherits id v → ¬ tc composes v v.
Proof.
intros Hex Hid Hr Hc. assert (is_active v) as Ha.
{ inversion Hc; subst; by eapply composes_active. }
assert (v ∈ rw_visited w) as Hv by (apply (expands_visited _ _ _ Hex); eauto).
pose proof (ex_path _ _ _ Hex) as Hp. simpl in Hp.
by destruct (ex_ok _ _ _ Hex v) as (_ & Hno & _); [split; [done|rewrite Hp; set_solver]|].
Qed.

(** The effective permissions of a role: its own and, transitively through active
roles only, those of the roles it composes. *)
Definition role_grants id (q : Permission) : Prop := ∃ v role, inherits id v ∧ active v role ∧ q ∈ ro_permissions role.

(** C11: Expanding a role always ends, whatever the stored composition. When it
succeeds it has collected exactly the names and permissions inherited through
active roles and no role it inherits lies on a cycle; it refuses for depth only
when a chain of eleven compositions exists, for a cycle only when the named role
lies on one, and otherwise only when a lookup fails. *)
Theorem expand_role_exact id :
  match expand_role role_fuel realm id walk_new 0 with
  | Ok w => (∀ q, q ∈ rw_perms w ↔ role_grants id q) ∧
            (∀ n, n ∈ rw_role_names w ↔ ∃ v role, inherits id v ∧ active v role ∧ n = ro_name role) ∧
            (∀ v, inherits id v → ¬ tc composes v v) ∧ bs_sorted (rw_perms w) ∧ bs_sorted (rw_role_names w)
  | Err e => role_refusal id e
  | Panic => ∃ v, inherits id v ∧ get_role realm v = Panic
  end.
Proof.
destruct (expand_role role_fuel realm id walk_new 0) as [w|e|] eqn:Hr.
- apply expand_role_ok in Hr; [|apply walk_ok_new].
  assert (∀ v role, newly walk_new w v role ↔ inherits id v ∧ active v role) as Hnew.
  { intros v role. unfold newly. rewrite (expands_visited _ _ _ Hr). unfold is_active. set_solver. }
  split; [|split; [|split]].
  + intros q. rewrite (ex_perms _ _ _ Hr). setoid_rewrite Hnew. unfold role_grants. set_solver.
  + intros n. rewrite (ex_names _ _ _ Hr). setoid_rewrite Hnew. set_solver.
  + intros v. eapply expands_acyclic; [done|by left].
  + destruct (ex_sorted _ _ _ Hr) as (? & ? & _); [apply bs_sorted_nil..|]. done.
- eapply (expand_role_not_ok _ id) in Hr as [(e' & [= ->] & ?)|[[=] _]];
    [done|done|apply walk_ok_new|constructor|set_solver|lia|unfold role_fuel; lia].
- eapply (expand_role_not_ok _ id) in Hr as [(e' & [=] & ?)|[_ ?]];
    [done|done|apply walk_ok_new|constructor|set_solver|lia|unfold role_fuel; lia].
Qed.
End roles.
