(* ===== verification/RbacFull.v ===== *)
(** * Role-based access control: the effective permissions of a user

[resolve_full] against a declarative account of authority: a permission is
effective when an applicable assignment, of the user or of a group it is
transitively in, or an extra role of the organization, leads through active roles
to a role that grants it, or when it is granted directly. *)
From stdpp Require Import base list gmap strings sorting lexico relations.
From Stdlib Require Import Strings.Byte ZArith Lia.
From S2P Require Import Prelude OrdMap StorageTypes OrdSet RbacTypes RbacResolve RbacGroups RbacRoles.

(** ** Loops that accumulate members *)

Lemma fold_res_elem {E B X} (f : list X → B → outcome E (list X)) (R : B → X → Prop) l acc acc' x :
  fold_res f acc l = Ok acc' → (∀ a b a', f a b = Ok a' → ∀ x, x ∈ a' ↔ x ∈ a ∨ R b x) →
  x ∈ acc' ↔ x ∈ acc ∨ ∃ b, b ∈ l ∧ R b x.
Proof.
intros Hok Hf. revert acc Hok. induction l as [|b l IH]; intros acc Hok; simpl in Hok.
- injection Hok as <-. set_solver.
- apply bind_Ok_inv in Hok as (a1 & H1 & Hok). rewrite (IH _ Hok), (Hf _ _ _ H1). set_solver.
Qed.

Lemma fold_res_ok_all {E A B} (f : A → B → outcome E A) l a a' b :
  fold_res f a l = Ok a' → b ∈ l → ∃ a1 a2, f a1 b = Ok a2.
Proof.
revert a. induction l as [|b' l IH]; intros a Hok Hb; simpl in Hok; [by apply elem_of_nil in Hb|].
apply bind_Ok_inv in Hok as (a1 & H1 & Hok). apply elem_of_cons in Hb as [->|Hb]; eauto.
Qed.

Lemma fold_res_inv {E A B} (f : A → B → outcome E A) (P : A → Prop) l a a' :
  (∀ a b a', f a b = Ok a' → P a → P a') → fold_res f a l = Ok a' → P a → P a'.
Proof.
intros Hf. revert a. induction l as [|b l IH]; intros a Hok Ha; simpl in Hok; [by injection Hok as <-|].
apply bind_Ok_inv in Hok as (a1 & H1 & Hok). eauto.
Qed.

Section full.
Context `{!UuidText, !HashOrder (list byte), !Resolver}.
Variables (realm : RealmId) (user : UserId) (org : option OrganizationId).

(** An assignment or grant with this scope counts in the requested context. *)
Definition scope_applies (s : Scope) : Prop :=
  match s with ScRealm => True | ScOrg o => org = Some o end.

(** The roles assigned to the user, directly or not. *)
Definition assigned_role (root : RoleId) : Prop :=
  (∃ ras ra, user_assignments realm user = Ok ras ∧ ra ∈ ras ∧ scope_applies (ra_scope ra) ∧ ra_role_id ra = root) ∨
  (∃ n g ras ra, in_group realm user n g ∧ group_assignments realm g = Ok ras ∧ ra ∈ ras ∧
     scope_applies (ra_scope ra) ∧ ra_role_id ra = root) ∨
  (∃ o names name, org = Some o ∧ additional_roles realm o user = Ok names ∧ name ∈ names ∧
     get_role_id_by_name realm name = Ok (Some root)).

Definition effective_role (v : RoleId) (role : Role) : Prop :=
  ∃ root, assigned_role root ∧ rtc (composes realm) root v ∧ active realm v role.

Definition granted_directly (q : Permission) : Prop :=
  ∃ gs g, user_permissions realm user = Ok gs ∧ g ∈ gs ∧ scope_applies (upg_scope g) ∧ upg_permission g = q.

Definition effective (q : Permission) : Prop :=
  (∃ v role, effective_role v role ∧ q ∈ ro_permissions role) ∨ granted_directly q.

(** ** The steps *)

Lemma assignment_applies_iff ra : assignment_applies ra org = true ↔ scope_applies (ra_scope ra).
Proof.
unfold assignment_applies, scope_applies. destruct (ra_scope ra) as [|o]; [done|].
destruct org as [o'|]; [|done]. rewrite bool_decide_eq_true. naive_solver.
Qed.

Lemma extra_applies_iff e : extra_applies e org = true ↔ scope_applies (upg_scope e).
Proof.
unfold extra_applies, scope_applies. destruct (upg_scope e) as [|o]; [done|].
destruct org as [o'|]; [|done]. rewrite bool_decide_eq_true. naive_solver.
Qed.

Lemma gather_elem groups asgs ra : gather_assignments realm user org groups = Ok asgs →
  ra ∈ asgs ↔ scope_applies (ra_scope ra) ∧
    ((∃ ras, user_assignments realm user = Ok ras ∧ ra ∈ ras) ∨
     (∃ g ras, g ∈ groups ∧ group_assignments realm g = Ok ras ∧ ra ∈ ras)).
Proof.
intros (own & Hown & Hok)%bind_Ok_inv.
rewrite (fold_res_elem _ (λ g ra, scope_applies (ra_scope ra) ∧ ∃ ras, group_assignments realm g = Ok ras ∧ ra ∈ ras) _ _ _ _ Hok).
- rewrite list_elem_of_filter, assignment_applies_iff, Hown. naive_solver.
- intros a g a' (ras & Hras & Ha)%bind_Ok_inv x. injection Ha as <-.
  rewrite elem_of_app, list_elem_of_filter, assignment_applies_iff, Hras. naive_solver.
Qed.

Lemma expand_assignments groups asgs w :
  bfs_groups realm user = Ok groups → gather_assignments realm user org groups = Ok asgs →
  fold_res (λ w ra, expand_role role_fuel realm (ra_role_id ra) w O) walk_new asgs = Ok w →
  expands realm (ra_role_id <$> asgs) walk_new w.
Proof.
intros _ _ Hok. eapply (fold_expands _ _ (λ ra, [ra_role_id ra])) in Hok; [|intros; by eapply expand_role_ok|apply walk_ok_new].
assert ((asgs ≫= λ ra, [ra_role_id ra]) = ra_role_id <$> asgs) as Heq; [|by rewrite Heq in Hok].
clear. induction asgs as [|a asgs IH]; [done|]. rewrite bind_cons, IH. done.
Qed.

(** The roots [expand_additional] expands. *)
Definition named_roots (names : list Str) : list RoleId :=
  names ≫= λ name, match get_role_id_by_name realm name with Ok (Some rid) => [rid] | _ => [] end.

Lemma elem_of_named_roots names root :
  root ∈ named_roots names ↔ ∃ name, name ∈ names ∧ get_role_id_by_name realm name = Ok (Some root).
Proof.
unfold named_roots. rewrite list_elem_of_bind. split.
- intros (name & Hr & Hn). exists name. split; [done|].
  destruct (get_role_id_by_name realm name) as [[rid|]|e|]; try by apply elem_of_nil in Hr.
  apply list_elem_of_singleton in Hr as ->. done.
- intros (name & Hn & Hg). exists name. rewrite Hg. split; [by left|done].
Qed.

Lemma expands_orphan o w : walk_ok realm w → expands realm [] w (walk_orphan o w).
Proof. intros Hw. split; unfold newly; simpl; try done; try set_solver. intros. split_and!; [done..|by apply bs_insert_sorted]. Qed.

Lemma expand_additional_ok w w' : expand_additional realm user org w = Ok w' → walk_ok realm w →
  ∃ roots, expands realm roots w w' ∧ ∀ root, root ∈ roots ↔
    ∃ o names name, org = Some o ∧ additional_roles realm o user = Ok names ∧ name ∈ names ∧
      get_role_id_by_name realm name = Ok (Some root).
Proof.
unfold expand_additional. destruct org as [o|].
- intros (names & Hn & Hok)%bind_Ok_inv Hw. exists (named_roots names). split.
  + eapply fold_expands; [|exact Hok|done]. intros name w1 w2 H1 Hw1. apply bind_Ok_inv in H1 as (found & -> & H1).
    destruct found as [rid|]; [by eapply expand_role_ok|]. injection H1 as <-. by apply expands_orphan.
  + intros root. rewrite elem_of_named_roots. split; [naive_solver|]. intros (o' & names' & name & [= <-] & Hn' & ? & ?).
    rewrite Hn in Hn'. injection Hn' as <-. eauto.
- intros [= <-] Hw. exists []. split; [by apply expands_nil|]. set_solver.
Qed.

Lemma find_archived_ok perms archived q : find_archived realm perms = Ok archived →
  q ∈ filter (λ p, p ∉ archived) perms ↔ q ∈ perms ∧ permission_archived realm q = Ok false.
Proof.
unfold find_archived. intros Hok. rewrite list_elem_of_filter.
rewrite (fold_res_elem _ (λ p x, x = p ∧ permission_archived realm p = Ok true) _ _ _ _ Hok).
- split; [|intros [Hq Hf]; split; [|done]; rewrite elem_of_nil; intros [?|(b & _ & -> & Hb)]; [done|congruence]].
  intros [Hno Hq]. split; [done|]. destruct (fold_res_ok_all _ _ _ _ _ Hok Hq) as (a1 & a2 & H12).
  apply bind_Ok_inv in H12 as ([] & Ha & _); [|done]. destruct Hno. right. eauto.
- intros a p a' (b & Hb & Ha)%bind_Ok_inv x. injection Ha as <-. destruct b; [|naive_solver congruence].
  rewrite elem_of_app, list_elem_of_singleton. naive_solver.
Qed.

Lemma collect_slugs_ok groups slugs : collect_slugs realm groups = Ok slugs →
  bs_sorted slugs ∧ ∀ s, s ∈ slugs ↔ ∃ g, g ∈ groups ∧ get_group_slug realm g = Ok (Some s).
Proof.
intros Hok. split.
- eapply (fold_res_inv _ bs_sorted); [|exact Hok|apply bs_sorted_nil].
  intros a g a' (slug & _ & Ha)%bind_Ok_inv Hs. injection Ha as <-. destruct slug; [by apply bs_insert_sorted|done].
- intros s. unfold collect_slugs in Hok.
  rewrite (fold_res_elem _ (λ g s, get_group_slug realm g = Ok (Some s)) _ _ _ _ Hok), elem_of_nil.
  + naive_solver.
  + intros a g a' (slug & Hg & Ha)%bind_Ok_inv x. injection Ha as <-. rewrite Hg.
  destruct slug; [rewrite elem_of_bs_insert|]; naive_solver.
Qed.

Lemma add_extras_ok w w' : add_extras realm user org w = Ok w' → ∃ gs,
  user_permissions realm user = Ok gs ∧
  rw_perms w' = bs_extend (upg_permission <$> filter (λ e, extra_applies e org = true) gs) (rw_perms w) ∧
  rw_role_names w' = rw_role_names w ∧ rw_visited w' = rw_visited w ∧ rw_path w' = rw_path w ∧
  rw_orphans w' = rw_orphans w.
Proof. intros (gs & Hgs & Hw)%bind_Ok_inv. exists gs. injection Hw as <-. done. Qed.

Lemma walk_ok_ext w w' : rw_visited w' = rw_visited w → rw_path w' = rw_path w → walk_ok realm w → walk_ok realm w'.
Proof. intros Hv Hp Hw u. unfold finished. rewrite Hv, Hp. apply Hw. Qed.

(** ** The two expansions together *)

Section phases.
Variables (ids roots : list RoleId) (w1 w2 w3 : RoleWalk).
Hypothesis Hex1 : expands realm ids walk_new w1.
Hypothesis Hvis : rw_visited w2 = rw_visited w1.
Hypothesis Hpath : rw_path w2 = rw_path w1.
Hypothesis Hex2 : expands realm roots w2 w3.

Lemma phases_visited v :
  v ∈ rw_visited w3 ↔ is_active realm v ∧ ∃ root, (root ∈ ids ∨ root ∈ roots) ∧ rtc (composes realm) root v.
Proof.
pose proof (ex_mono _ _ _ _ Hex2) as Hm. rewrite Hvis in Hm.
assert (rw_path w3 = ∅) as Hp by (rewrite (ex_path _ _ _ _ Hex2), Hpath; exact (ex_path _ _ _ _ Hex1)).
split.
- intros Hv. destruct (decide (v ∈ rw_visited w1)) as [H1|H1].
  + apply (expands_visited _ _ _ _ Hex1) in H1. naive_solver.
  + destruct (ex_reach _ _ _ _ Hex2 v Hv) as (root & ? & ? & ?); [by rewrite Hvis|]. eauto.
- intros (Ha & root & Hroot & Hr).
  assert (is_active realm root) as Hra.
  { apply rtc_inv in Hr as [->|(q & Hq & _)]; [done|by eapply composes_active]. }
  eapply (finished_inherits realm w3 root v); [by eapply ex_ok| |done|done]. split; [|rewrite Hp; set_solver].
  destruct Hroot as [Hroot|Hroot]; [apply Hm; by eapply ex_roots|by eapply ex_roots].
Qed.

Lemma phases_newly v role : newly realm walk_new w1 v role ∨ newly realm w2 w3 v role ↔
  active realm v role ∧ ∃ root, (root ∈ ids ∨ root ∈ roots) ∧ rtc (composes realm) root v.
Proof.
assert (newly realm w2 w3 v role ↔ newly realm w1 w3 v role) as -> by (unfold newly; by rewrite Hvis).
rewrite <-(newly_trans realm walk_new w1 w3 v role); [|set_solver|rewrite <-Hvis; apply (ex_mono _ _ _ _ Hex2)].
unfold newly. rewrite phases_visited. unfold is_active. set_solver.
Qed.
End phases.

(** C7: A full resolution that succeeds reports exactly the authority the stored
graph gives the user in the requested context: the permissions effective through
assignments, nested groups, inherited roles, extra organization roles and direct
grants, less those the registry has archived; the names of exactly those roles;
the slugs of exactly the groups the user is in; each sorted and without
duplicates. *)
Theorem resolve_full_exact rp : resolve_full user realm org = Ok rp →
  (∀ q, q ∈ rp_permissions rp ↔ effective q ∧ permission_archived realm q = Ok false) ∧
  (∀ n, n ∈ rp_roles rp ↔ ∃ v role, effective_role v role ∧ n = ro_name role) ∧
  (∀ s, s ∈ rp_groups rp ↔ ∃ n g, in_group realm user n g ∧ get_group_slug realm g = Ok (Some s)) ∧
  bs_sorted (rp_permissions rp) ∧ bs_sorted (rp_roles rp) ∧ bs_sorted (rp_groups rp) ∧ bs_sorted (rp_orphans rp).
Proof.
unfold resolve_full. intros (groups & Hgr & Hok)%bind_Ok_inv.
apply bind_Ok_inv in Hok as (asgs & Has & Hok). apply bind_Ok_inv in Hok as (w1 & Hw1 & Hok).
apply bind_Ok_inv in Hok as (w2 & Hw2 & Hok). apply bind_Ok_inv in Hok as (w3 & Hw3 & Hok).
apply bind_Ok_inv in Hok as (archived & Harch & Hok). apply bind_Ok_inv in Hok as (slugs & Hsl & Hok).
injection Hok as <-. pose proof (expand_assignments _ _ _ Hgr Has Hw1) as Hex1.
apply add_extras_ok in Hw2 as (gs & Hgs & Hq2 & Hn2 & Hv2 & Hpa2 & Ho2).
apply expand_additional_ok in Hw3 as (roots & Hex2 & Hroots);
  [|eapply walk_ok_ext; [exact Hv2|exact Hpa2|exact (ex_ok _ _ _ _ Hex1)]].
assert (∀ root, root ∈ ra_role_id <$> asgs ∨ root ∈ roots ↔ assigned_role root) as Hassigned.
{ intros root. rewrite Hroots, list_elem_of_fmap. setoid_rewrite (gather_elem _ _ _ Has).
  apply bfs_groups_ok in Hgr as (_ & _ & Hgr). setoid_rewrite Hgr. unfold assigned_role. naive_solver. }
assert (∀ v role, newly realm walk_new w1 v role ∨ newly realm w2 w3 v role ↔ effective_role v role) as Hnew.
{ intros v role. rewrite (phases_newly _ _ _ _ _ Hex1 Hv2 Hpa2 Hex2). setoid_rewrite Hassigned.
  unfold effective_role. naive_solver. }
pose proof (collect_slugs_ok _ _ Hsl) as [Hss Hslug].
destruct (ex_sorted _ _ _ _ Hex1) as (Hn1 & Hp1 & Ho1); [apply bs_sorted_nil..|].
destruct (ex_sorted _ _ _ _ Hex2) as (Hn3 & Hp3 & Ho3);
  [by rewrite Hn2|by rewrite Hq2; apply bs_extend_sorted|by rewrite Ho2|]. simpl.
split_and!; [| | |by apply bs_filter_sorted|done|done|by apply bs_extend_sorted].
- intros q. rewrite (find_archived_ok _ _ _ Harch), (ex_perms _ _ _ _ Hex2), Hq2.
  rewrite elem_of_bs_extend, (ex_perms _ _ _ _ Hex1), list_elem_of_fmap. setoid_rewrite list_elem_of_filter.
  setoid_rewrite extra_applies_iff. unfold effective, granted_directly. setoid_rewrite <-Hnew. rewrite Hgs.
  set_solver by naive_solver.
- intros n. rewrite (ex_names _ _ _ _ Hex2), Hn2, (ex_names _ _ _ _ Hex1). setoid_rewrite <-Hnew. set_solver by naive_solver.
- intros s. rewrite Hslug. apply bfs_groups_ok in Hgr as (_ & _ & Hgr). setoid_rewrite Hgr. naive_solver.
Qed.
End full.

(** ** A concrete graph

A user in a group nested in another; the outer group holds an organization-scoped
role that composes a second role; that one grants two permissions, one of them
archived, and composes an archived role. *)
Module Demo.
Definition realm : RealmId := [x52].
Definition alice : UserId := [x01].
Definition inner : GroupId := [x11].
Definition outer : GroupId := [x12].
Definition org : OrganizationId := [x21].
Definition editor : RoleId := [x31].
Definition viewer : RoleId := [x32].
Definition retired : RoleId := [x33].
Definition read : Permission := Eval compute in lit "docs.read".
Definition edit : Permission := Eval compute in lit "docs.edit".
Definition legacy : Permission := Eval compute in lit "docs.legacy".
Definition fax : Permission := Eval compute in lit "fax.send".

Definition role (id : RoleId) (name : string) (perms : list Permission) (parents : list RoleId) (st : RoleStatus) : Role :=
  MkRole id realm (lit name) None perms parents RskAny st false 0 0.

Definition text : UuidText := λ id, id.

Definition resolver : Resolver := {|
  parent_groups_of _ m := Ok (match m with
    | MUser u => if decide (u = alice) then [inner] else []
    | MGroup g => if decide (g = inner) then [outer] else if decide (g = outer) then [inner] else [] end);
  user_assignments _ _ := Ok [];
  group_assignments _ g := Ok (if decide (g = outer)
    then [MkRoleAssignment [x41] realm (SGroup outer) editor (ScOrg org) 0 None] else []);
  get_role _ id := Ok (
    if decide (id = editor) then Some (role editor "editor" [edit] [viewer; retired] RoleActive)
    else if decide (id = viewer) then Some (role viewer "viewer" [read; legacy] [] RoleActive)
    else if decide (id = retired) then Some (role retired "retired" [fax] [] RoleArchivedSt)
    else None);
  get_group_slug _ g := Ok (if decide (g = outer) then Some (lit "staff") else None);
  scope_permissions _ s := Ok (if decide (s = lit "docs:all") then Bundle [read; edit]
    else if decide (s = lit "docs:old") then Bundle [read; legacy] else Missing);
  resource_scope_permissions _ _ _ := Ok Missing;
  user_permissions _ _ := Ok [];
  get_role_id_by_name _ _ := Ok None;
  permission_archived _ p := Ok (bool_decide (p = legacy));
  additional_roles _ _ _ := Ok []
|}.

Definition resolved : ResolvedPermissions :=
  MkResolved [lit "editor"; lit "viewer"] [lit "staff"] [edit; read] []
    [MkOrphanRef OkPermission legacy; MkOrphanRef OkRole (lit "retired")] false.
End Demo.

Lemma resolve_full_exact_witness :
  @resolve_full Demo.text _ Demo.resolver Demo.alice Demo.realm (Some Demo.org) = Ok Demo.resolved ∧
  @effective Demo.resolver Demo.realm Demo.alice (Some Demo.org) Demo.read ∧
  ¬ @effective Demo.resolver Demo.realm Demo.alice (Some Demo.org) Demo.fax.
Proof.
assert (@resolve_full Demo.text _ Demo.resolver Demo.alice Demo.realm (Some Demo.org) = Ok Demo.resolved) as Hok
  by (vm_compute; reflexivity).
split; [exact Hok|].
destruct (@resolve_full_exact Demo.text _ Demo.resolver Demo.realm Demo.alice (Some Demo.org) _ Hok) as (Hq & _).
split.
- apply (Hq Demo.read). right. left.
- intros Hf. assert (Demo.fax ∈ rp_permissions Demo.resolved) as Hin by (apply Hq; split; [exact Hf|reflexivity]).
  apply (bool_decide_unpack (Demo.fax ∉ rp_permissions Demo.resolved)) in Hin; [exact Hin|vm_compute; exact I].
Defined.
