(* ===== verification/RbacScopes.v ===== *)
(** * Role-based access control: OAuth scope narrowing

[resolve_permissions], [resolve_with_scopes] and [scope_definitions] of
[rbac/resolve.rs]: what a token may carry of a user's effective permissions, given
the scopes asked for, the client's trust level and the audience, and the per-token
size caps. *)
From stdpp Require Import base list gmap strings sorting lexico relations.
From Stdlib Require Import Strings.Byte ZArith Lia.
From S2P Require Import Prelude OrdMap StorageTypes OrdSet RbacTypes RbacResolve RbacGroups RbacRoles RbacFull.

Open Scope Z_scope.

(** ** [str::split_whitespace]

Unicode white space by its UTF-8 encoding: one byte (U+0009 to U+000D, U+0020),
two (U+0085, U+00A0) or three (U+1680, U+2000 to U+200A, U+2028, U+2029, U+202F,
U+205F, U+3000). A lead byte never occurs inside another character, so scanning
bytes finds exactly the white-space characters. *)
Definition ws1 (a : byte) : bool := in_range 9 13 a || bool_decide (byte_val a = 32).
Definition ws2 (a b : byte) : bool :=
  bool_decide (a = xc2) && (bool_decide (b = x85) || bool_decide (b = xa0)).
Definition ws3 (a b c : byte) : bool :=
  (bool_decide (a = xe1) && bool_decide (b = x9a) && bool_decide (c = x80)) ||
  (bool_decide (a = xe2) && bool_decide (b = x80) &&
     (in_range 128 138 c || bool_decide (c = xa8) || bool_decide (c = xa9) || bool_decide (c = xaf))) ||
  (bool_decide (a = xe2) && bool_decide (b = x81) && bool_decide (c = x9f)) ||
  (bool_decide (a = xe3) && bool_decide (b = x80) && bool_decide (c = x80)).

(** Emit the word read so far, unless it is empty. *)
Definition push_word (cur : Str) (rest : list Str) : list Str :=
  match cur with [] => rest | _ => cur :: rest end.

Fixpoint split_words (cur s : Str) : list Str :=
  match s with
  | [] => push_word cur []
  | a :: s1 =>
      if ws1 a then push_word cur (split_words [] s1)
      else match s1 with
           | b :: s2 =>
               if ws2 a b then push_word cur (split_words [] s2)
               else match s2 with
                    | c :: s3 =>
                        if ws3 a b c then push_word cur (split_words [] s3)
                        else split_words (cur ++ [a]) s1
                    | [] => split_words (cur ++ [a]) s1
                    end
           | [] => push_word (cur ++ [a]) []
           end
  end.
Definition split_whitespace (s : Str) : list Str := split_words [] s.

(** ** Per-token size caps *)

Definition enforce_token_caps (permissions : list Permission) (roles groups : list Str) : rres unit :=
  if MAX_PERMISSIONS_PER_TOKEN <? zlen permissions
  then Err (TokenSizeExceeded "permissions_per_token" MAX_PERMISSIONS_PER_TOKEN (zlen permissions))
  else if MAX_ROLES_PER_TOKEN <? zlen roles
  then Err (TokenSizeExceeded "roles_per_token" MAX_ROLES_PER_TOKEN (zlen roles))
  else if MAX_GROUPS_PER_TOKEN <? zlen groups
  then Err (TokenSizeExceeded "groups_per_token" MAX_GROUPS_PER_TOKEN (zlen groups))
  else Ok tt.

(** What one requested scope is, once classified against the selected registry. *)
Inductive ScopeEntry := EOidc | EBearing (perms : list Permission).

Section scopes.
Context `{!Resolver}.
(** [Resolver::resolve_full_cached]: the memoised full resolution. *)
Variable resolve_full_cached : UserId → RealmId → option OrganizationId → rres ResolvedPermissions.

(** ** Narrowing by a scope string *)

(** The loop body: whether some scope does not filter, and what the others allow. *)
Definition narrow_step (realm : RealmId) (st : bool * list Permission) (scope_name : Str)
    : rres (bool * list Permission) :=
  lookup ← scope_permissions realm scope_name;
  Ok (match lookup with
      | NoNarrowing => (true, st.2)
      | Bundle l => (st.1, bs_extend l st.2)
      | Missing => st
      end).

Definition narrow_by_scope (realm : RealmId) (scope_str : Str) (perms : list Permission) : rres (list Permission) :=
  st ← fold_res (narrow_step realm) (false, []) (split_whitespace scope_str);
  if (st.1 : bool) then Ok perms else Ok (filter (λ p, p ∈ st.2) perms).

Definition resolve_permissions (user : UserId) (realm : RealmId) (org : option OrganizationId)
    (requested_scope : option Str) : rres ResolvedPermissions :=
  full ← resolve_full_cached user realm org;
  permissions ← match requested_scope with
                | Some scope_str => narrow_by_scope realm scope_str (bs_collect (rp_permissions full))
                | None => Ok (rp_permissions full)
                end;
  _ ← enforce_token_caps permissions (rp_roles full) (rp_groups full);
  Ok (MkResolved (rp_roles full) (rp_groups full) permissions [] (rp_orphans full) false).

(** ** Requested scopes *)

Definition classify_requested_scope (realm : RealmId) (scope : Str) (request : ScopeRequest) : rres ScopeEntry :=
  let unknown := InvalidScope (UnknownScope scope) in
  let registered (lookup : rres ScopeLookup) :=
    l ← lookup;
    match l with
    | Bundle list => Ok (EBearing list)
    | Missing | NoNarrowing => Err unknown
    end in
  match classify_scope_string scope with
  | Some OidcStandard => Ok EOidc
  | Some KPermission =>
      match sr_resource request with
      | Some _ => Err (InvalidScope (RawPermissionUnderResource scope))
      | None =>
          if decide (sr_trust_level request = ThirdParty)
          then Err (InvalidScope (RawPermissionThirdParty scope))
          else match perm_new scope with Ok p => Ok (EBearing [p]) | _ => Err unknown end
      end
  | kind =>
      match sr_resource request with
      | Some uri =>
          if decide (kind = Some KBundle) then registered (resource_scope_permissions realm uri scope)
          else Err unknown
      | None => registered (scope_permissions realm scope)
      end
  end.

Definition scope_definitions (realm : RealmId) (scopes : list Str) (resource : option Uri) : rres (list Str) :=
  fold_res (λ out scope,
    let add (lookup : rres ScopeLookup) :=
      l ← lookup;
      Ok (match l with Bundle list => bs_extend list out | Missing | NoNarrowing => out end) in
    match classify_scope_string scope with
    | Some OidcStandard => Ok out
    | Some KPermission => Ok (bs_insert scope out)
    | kind =>
        match resource with
        | Some uri => if decide (kind = Some KBundle) then add (resource_scope_permissions realm uri scope) else Ok out
        | None => add (scope_permissions realm scope)
        end
    end) [] scopes.

(** The loop over the requested scopes: granted scopes, admitted permissions, and
whether a permission-bearing scope was named. *)
Record ScopeAcc := MkScopeAcc {
  sa_granted : list Str;
  sa_admitted : list Permission;
  sa_named : bool
}.

Definition scope_step (realm : RealmId) (request : ScopeRequest) (full : option ResolvedPermissions)
    (acc : ScopeAcc) (scope : Str) : rres ScopeAcc :=
  entry ← classify_requested_scope realm scope request;
  match entry with
  | EOidc => Ok (MkScopeAcc (sa_granted acc ++ [scope]) (sa_admitted acc) (sa_named acc))
  | EBearing perms =>
      if bool_decide (sr_mode request = Request) && negb (bool_decide (sr_declared request = []))
         && negb (bool_decide (scope ∈ sr_declared request))
      then Err (InvalidScope (NotDeclared scope))
      else
        match full with
        | None => Ok (MkScopeAcc (sa_granted acc ++ [scope]) (sa_admitted acc) true)
        | Some f =>
            if bool_decide (Forall (λ p, p ∈ rp_permissions f) perms)
            then Ok (MkScopeAcc (sa_granted acc ++ [scope]) (bs_extend perms (sa_admitted acc)) true)
            else if bool_decide (sr_trust_level request = ThirdParty) && bool_decide (sr_mode request = Request)
            then Err (InvalidScope (NotHeld scope))
            else Ok (MkScopeAcc (sa_granted acc) (sa_admitted acc) true)
        end
  end.

Definition resolve_with_scopes (realm : RealmId) (request : ScopeRequest) : rres ResolvedPermissions :=
  let first_party := bool_decide (sr_trust_level request = FirstParty) in
  if bool_decide (sr_requested request = []) && negb first_party && bool_decide (sr_mode request = Request)
  then Err (InvalidScope MustRequestScope)
  else
    full ← match sr_user_id request with
           | Some user => f ← resolve_full_cached user realm (sr_org_id request); Ok (Some f)
           | None => Ok None
           end;
    acc ← fold_res (scope_step realm request full) (MkScopeAcc [] [] (sr_narrowed request)) (sr_requested request);
    if negb (bool_decide (sr_requested request = [])) && bool_decide (sa_granted acc = [])
    then Err (InvalidScope NothingGranted)
    else
      match full with
      | None => Ok (MkResolved [] [] [] (sa_granted acc) [] (sa_named acc))
      | Some f =>
          let permissions :=
            if sa_named acc then filter (λ p, p ∈ sa_admitted acc) (rp_permissions f)
            else if first_party then rp_permissions f else [] in
          Ok (MkResolved (rp_roles f) (rp_groups f) permissions (sa_granted acc) (rp_orphans f) (sa_named acc))
      end.

(** ** What the requested scopes stand for *)

Section request.
Variables (realm : RealmId) (request : ScopeRequest).
Implicit Types (f : ResolvedPermissions) (s : Str) (full : option ResolvedPermissions).

(** The scope names permissions in the registry the request selects. *)
Definition bearing s (perms : list Permission) : Prop := classify_requested_scope realm s request = Ok (EBearing perms).
Definition holds_all f (perms : list Permission) : Prop := ∀ p, p ∈ perms → p ∈ rp_permissions f.
(** An identity scope, or one whose every permission the user (if any) holds. *)
Definition grantable full s : Prop :=
  classify_requested_scope realm s request = Ok EOidc ∨
  ∃ perms, bearing s perms ∧ ∀ f, full = Some f → holds_all f perms.
(** A request by a third-party client, which is refused rather than trimmed. *)
Definition strict : Prop := sr_trust_level request = ThirdParty ∧ sr_mode request = Request.

Record scopes_read full (l : list Str) (acc acc' : ScopeAcc) (g : list Str) : Prop := {
  so_granted : sa_granted acc' = sa_granted acc ++ g;
  so_order : g `sublist_of` l;
  so_grantable s : s ∈ g ↔ s ∈ l ∧ grantable full s;
  so_admitted p : p ∈ sa_admitted acc' ↔ p ∈ sa_admitted acc ∨
    ∃ f s perms, full = Some f ∧ s ∈ l ∧ bearing s perms ∧ holds_all f perms ∧ p ∈ perms;
  so_named : sa_named acc' = true ↔ sa_named acc = true ∨ ∃ s perms, s ∈ l ∧ bearing s perms;
  so_declared s perms : s ∈ l → bearing s perms → sr_mode request = Request → sr_declared request ≠ [] →
    s ∈ sr_declared request;
  so_legal s : s ∈ l → ∃ entry, classify_requested_scope realm s request = Ok entry;
  so_strict : strict → g = l
}.

Lemma scopes_read_nil full acc : scopes_read full [] acc acc [].
Proof. split; try set_solver; try done. by rewrite app_nil_r. Qed.

Lemma scopes_read_cons full s l acc acc1 acc2 g1 g2 :
  scopes_read full [s] acc acc1 g1 → scopes_read full l acc1 acc2 g2 → scopes_read full (s :: l) acc acc2 (g1 ++ g2).
Proof.
intros H1 H2. split.
- by rewrite (so_granted _ _ _ _ _ H2), (so_granted _ _ _ _ _ H1), app_assoc.
- apply (sublist_app _ [s] _ l); [apply (so_order _ _ _ _ _ H1)|apply (so_order _ _ _ _ _ H2)].
- intros x. rewrite elem_of_app, (so_grantable _ _ _ _ _ H1), (so_grantable _ _ _ _ _ H2). set_solver.
- intros p. rewrite (so_admitted _ _ _ _ _ H2), (so_admitted _ _ _ _ _ H1). set_solver.
- rewrite (so_named _ _ _ _ _ H2), (so_named _ _ _ _ _ H1). set_solver.
- intros x perms [->|Hx]%elem_of_cons; [apply (so_declared _ _ _ _ _ H1); by left|by apply (so_declared _ _ _ _ _ H2)].
- intros x [->|Hx]%elem_of_cons; [apply (so_legal _ _ _ _ _ H1); by left|by apply (so_legal _ _ _ _ _ H2)].
- intros Hs. by rewrite (so_strict _ _ _ _ _ H1 Hs), (so_strict _ _ _ _ _ H2 Hs).
Qed.

Lemma scope_step_read full acc s acc' : scope_step realm request full acc s = Ok acc' → ∃ g, scopes_read full [s] acc acc' g.
Proof.
unfold scope_step. intros (entry & He & Hok)%bind_Ok_inv.
assert (∀ perms, bearing s perms ↔ entry = EBearing perms) as Hb.
{ intros perms. unfold bearing. rewrite He. naive_solver. }
assert (grantable full s ↔ entry = EOidc ∨ ∃ perms, entry = EBearing perms ∧ ∀ f, full = Some f → holds_all f perms) as Hg.
{ unfold grantable. setoid_rewrite Hb. rewrite He. naive_solver. }
destruct entry as [|perms].
- injection Hok as <-. exists [s]. split; simpl; try done; try set_solver.
- destruct (bool_decide (sr_mode request = Request) && _ && _) eqn:Hdecl; [done|].
  assert (sr_mode request = Request → sr_declared request ≠ [] → s ∈ sr_declared request) as Hd.
  { intros Hm Hne. destruct (decide (s ∈ sr_declared request)); [done|].
    rewrite bool_decide_eq_true_2, !bool_decide_eq_false_2 in Hdecl by done. done. }
  assert (∀ g a n, acc' = MkScopeAcc (sa_granted acc ++ g) a n → n = true →
    (g = [s] ∧ (∀ f, full = Some f → holds_all f perms) ∨ g = [] ∧ (∃ f, full = Some f ∧ ¬ holds_all f perms) ∧ ¬ strict) →
    (∀ p, p ∈ a ↔ p ∈ sa_admitted acc ∨ ∃ f, full = Some f ∧ holds_all f perms ∧ p ∈ perms) →
    ∃ g, scopes_read full [s] acc acc' g) as Hmk.
  { intros g a n -> -> Hcase Ha. exists g. split; simpl.
    - done.
    - destruct Hcase as [[-> _]|[-> _]]; [done|apply sublist_nil_l].
    - intros x. destruct Hcase as [[-> Hh]|(-> & Hh & _)]; set_solver.
    - intros p. rewrite Ha. set_solver.
    - set_solver.
    - intros x perms' ->%list_elem_of_singleton _. done.
    - intros x ->%list_elem_of_singleton. eauto.
    - intros Hst. by destruct Hcase as [[-> _]|(_ & _ & ?)]. }
  destruct full as [f|].
  + case_bool_decide as Hall.
    * injection Hok as <-. rewrite Forall_forall in Hall. eapply (Hmk [s]); [done|done| |].
      -- left. split; [done|]. by intros f' [= <-].
      -- intros p. rewrite elem_of_bs_extend. unfold holds_all. naive_solver.
    * destruct (bool_decide (sr_trust_level request = ThirdParty) && bool_decide (sr_mode request = Request)) eqn:Hst; [done|].
      injection Hok as <-. rewrite Forall_forall in Hall. eapply (Hmk []); [by rewrite app_nil_r|done| |].
      -- right. split; [done|]. split; [by exists f|]. intros [H1 H2]. by rewrite !bool_decide_eq_true_2 in Hst.
      -- naive_solver.
  + injection Hok as <-. eapply (Hmk [s]); [done|done|by left|]. naive_solver.
Qed.

Lemma scopes_fold full l acc acc' : fold_res (scope_step realm request full) acc l = Ok acc' → ∃ g, scopes_read full l acc acc' g.
Proof.
revert acc. induction l as [|s l IH]; intros acc Hok; simpl in Hok.
- injection Hok as <-. exists []. apply scopes_read_nil.
- apply bind_Ok_inv in Hok as (acc1 & H1 & Hok). apply scope_step_read in H1 as (g1 & H1).
  destruct (IH _ Hok) as (g2 & H2). exists (g1 ++ g2). by eapply scopes_read_cons.
Qed.

(** The grant named a permission-bearing scope, now or when it was first made. *)
Definition names_permissions : Prop :=
  sr_narrowed request = true ∨ ∃ s perms, s ∈ sr_requested request ∧ bearing s perms.

(** C8: A token never carries more than its user holds, nor more than its scopes
name. When scope resolution succeeds: the granted scopes are, in order, the
requested ones that are identity scopes or whose every permission the user holds;
its permissions are those of the full resolution that a granted scope names, once
any permission-bearing scope was named (a re-issue keeps an earlier narrowing);
with none named a first-party client carries the full set and a third-party
client nothing; without a user there are no permissions. A third-party request is
granted whole or not at all, and, when the client declares scopes, only within
them. *)
Theorem resolve_with_scopes_exact rp : resolve_with_scopes realm request = Ok rp → ∃ full,
  match sr_user_id request with
  | None => full = None
  | Some user => ∃ f, full = Some f ∧ resolve_full_cached user realm (sr_org_id request) = Ok f
  end ∧
  rp_granted_scopes rp `sublist_of` sr_requested request ∧
  (∀ s, s ∈ rp_granted_scopes rp ↔ s ∈ sr_requested request ∧ grantable full s) ∧
  (∀ p, p ∈ rp_permissions rp ↔ ∃ f, full = Some f ∧ p ∈ rp_permissions f ∧
     ((names_permissions ∧ ∃ s perms, s ∈ rp_granted_scopes rp ∧ bearing s perms ∧ p ∈ perms) ∨
      (¬ names_permissions ∧ sr_trust_level request = FirstParty))) ∧
  (rp_scope_narrowed rp = true ↔ names_permissions) ∧
  (strict → rp_granted_scopes rp = sr_requested request ∧ sr_requested request ≠ []) ∧
  (∀ s perms, s ∈ rp_granted_scopes rp → bearing s perms → sr_mode request = Request → sr_declared request ≠ [] →
     s ∈ sr_declared request).
Proof.
unfold resolve_with_scopes. destruct (_ && _ && _) eqn:Hmust; [done|].
intros (full & Hfull & Hok)%bind_Ok_inv. apply bind_Ok_inv in Hok as (acc & Hacc & Hok).
destruct (_ && _) eqn:Hnone in Hok; [done|]. exists full.
apply scopes_fold in Hacc as (g & Hread). pose proof (so_granted _ _ _ _ _ Hread) as Hg. simpl in Hg.
assert (sa_named acc = true ↔ names_permissions) as Hnamed by (rewrite (so_named _ _ _ _ _ Hread); done).
assert (rp_granted_scopes rp = g ∧ rp_scope_narrowed rp = sa_named acc) as [Hrg Hrn].
{ destruct full; injection Hok as <-; by rewrite <-Hg. }
rewrite Hrg, Hrn. split.
{ destruct (sr_user_id request) as [user|]; [|by injection Hfull]. apply bind_Ok_inv in Hfull as (f & Hf & [= <-]). eauto. }
split; [apply (so_order _ _ _ _ _ Hread)|]. split; [apply (so_grantable _ _ _ _ _ Hread)|].
split; [|split; [done|split]].
- intros p. destruct full as [f|]; injection Hok as <-; simpl; [|set_solver].
  assert (p ∈ sa_admitted acc ↔ ∃ s perms, s ∈ g ∧ bearing s perms ∧ p ∈ perms) as Hadm.
  { rewrite (so_admitted _ _ _ _ _ Hread). setoid_rewrite (so_grantable _ _ _ _ _ Hread). simpl. split.
    - intros [?|(f' & s & perms & [= <-] & ? & ? & ? & ?)]; [set_solver|]. exists s, perms. split; [|done]. split; [done|].
      right. exists perms. split; [done|]. by intros f' [= <-].
    - intros (s & perms & [Hs [Ho|(perms' & Hb' & Hh)]] & Hb & Hp); unfold bearing in *; [congruence|].
      rewrite Hb in Hb'. injection Hb' as <-. right. exists f, s, perms. split_and!; [done..|by apply Hh|done]. }
  destruct (sa_named acc).
  + assert names_permissions as Hn by (by apply Hnamed). rewrite list_elem_of_filter, Hadm. naive_solver.
  + assert (¬ names_permissions) as Hn by (intros ?%Hnamed; done). clear Hadm Hread Hnone Hmust. split.
    * case_bool_decide; [|by intros ?%elem_of_nil]. intros Hp. exists f. split; [done|]. split; [done|]. by right.
    * intros (f' & [= <-] & Hp & [[? _]|[_ ->]]); done.
- intros Hst. split; [by apply (so_strict _ _ _ _ _ Hread)|]. intros Hr. destruct Hst as [Ht Hm].
  rewrite Hr, Ht, Hm in Hmust. done.
- intros s perms [Hs _]%(so_grantable _ _ _ _ _ Hread). by apply (so_declared _ _ _ _ _ Hread).
Qed.
End request.

(** ** Narrowing by a scope string *)

Lemma enforce_token_caps_ok permissions roles groups : enforce_token_caps permissions roles groups = Ok tt ↔
  zlen permissions <= 100 ∧ zlen roles <= 50 ∧ zlen groups <= 50.
Proof.
unfold enforce_token_caps, MAX_PERMISSIONS_PER_TOKEN, MAX_ROLES_PER_TOKEN, MAX_GROUPS_PER_TOKEN.
destruct (Z.ltb_spec 100 (zlen permissions)), (Z.ltb_spec 50 (zlen roles)), (Z.ltb_spec 50 (zlen groups));
  split; try done; lia.
Qed.

(** What one word of a scope string admits. *)
Definition admits (realm : RealmId) (word : Str) (p : Permission) : Prop :=
  scope_permissions realm word = Ok NoNarrowing ∨ ∃ l, scope_permissions realm word = Ok (Bundle l) ∧ p ∈ l.

Lemma ex_elem_cons {A} (P : A → Prop) x l : (∃ y, y ∈ x :: l ∧ P y) ↔ P x ∨ ∃ y, y ∈ l ∧ P y.
Proof. setoid_rewrite elem_of_cons. naive_solver. Qed.

Lemma narrow_by_scope_ok realm str perms out p : narrow_by_scope realm str perms = Ok out →
  p ∈ out ↔ p ∈ perms ∧ ∃ word, word ∈ split_whitespace str ∧ admits realm word p.
Proof.
unfold narrow_by_scope. generalize (split_whitespace str). intros words ((any & allowed) & Hfold & Hok)%bind_Ok_inv.
simpl in Hok.
assert (∀ any0 allowed0, fold_res (narrow_step realm) (any0, allowed0) words = Ok (any, allowed) →
  (any = true ↔ any0 = true ∨ ∃ w, w ∈ words ∧ scope_permissions realm w = Ok NoNarrowing) ∧
  (p ∈ allowed ↔ p ∈ allowed0 ∨ ∃ w, w ∈ words ∧ ∃ l, scope_permissions realm w = Ok (Bundle l) ∧ p ∈ l)) as Hinv.
{ clear Hfold Hok. induction words as [|w words IH]; intros any0 allowed0 Hf; simpl in Hf.
  - injection Hf as <- <-. set_solver.
  - apply bind_Ok_inv in Hf as ((any1 & allowed1) & H1 & Hf). apply bind_Ok_inv in H1 as (lk & Hlk & H1). injection H1 as H1.
    destruct (IH _ _ Hf) as [-> ->]. clear IH Hf. rewrite !ex_elem_cons, Hlk.
    destruct lk as [| |l]; simplify_eq/=; rewrite ?elem_of_bs_extend; naive_solver. }
destruct (Hinv _ _ Hfold) as [Hany Hall]. unfold admits.
destruct any; injection Hok as <-.
- destruct (proj1 Hany eq_refl) as [|(w & ? & ?)]; [done|]. naive_solver.
- rewrite list_elem_of_filter, Hall. assert (¬ ∃ w, w ∈ words ∧ scope_permissions realm w = Ok NoNarrowing) as Hno.
  { intros Hw. assert (false = true); [|done]. apply Hany. by right. }
  clear Hany Hall Hinv Hfold. rewrite elem_of_nil. naive_solver.
Qed.

(** A resolved token set respects the per-token caps and never exceeds the user's
full resolution: without a scope string it is that resolution, and with one it is
what some word of the string admits of it, an unknown word admitting nothing. *)
Theorem resolve_permissions_exact user realm org scope rp :
  resolve_permissions user realm org scope = Ok rp → ∃ full,
  resolve_full_cached user realm org = Ok full ∧
  zlen (rp_permissions rp) <= 100 ∧ zlen (rp_roles rp) <= 50 ∧ zlen (rp_groups rp) <= 50 ∧
  rp_roles rp = rp_roles full ∧ rp_groups rp = rp_groups full ∧
  match scope with
  | None => rp_permissions rp = rp_permissions full
  | Some str => ∀ p, p ∈ rp_permissions rp ↔
      p ∈ rp_permissions full ∧ ∃ word, word ∈ split_whitespace str ∧ admits realm word p
  end.
Proof.
unfold resolve_permissions. intros (full & Hfull & Hok)%bind_Ok_inv. apply bind_Ok_inv in Hok as (perms & Hp & Hok).
apply bind_Ok_inv in Hok as ([] & Hcaps & Hok). injection Hok as <-. exists full. split; [done|]. simpl.
apply enforce_token_caps_ok in Hcaps as (H1 & H2 & H3). split_and!; try done.
destruct scope as [str|]; [|by injection Hp]. intros p. rewrite (narrow_by_scope_ok _ _ _ _ _ Hp), elem_of_bs_collect. done.
Qed.
End scopes.

(** ** At a concrete graph *)

Definition demo_request (trust : ClientTrustLevel) : ScopeRequest :=
  MkScopeRequest (Some Demo.alice) (Some Demo.org) [lit "openid"; lit "docs:all"; lit "docs:old"] trust [] None Request false.

Definition demo_full : UserId → RealmId → option OrganizationId → rres ResolvedPermissions :=
  @resolve_full Demo.text _ Demo.resolver.

(** The first-party request drops the bundle that is not wholly held; the same
request by a third party is refused. *)
Lemma resolve_with_scopes_exact_witness :
  @resolve_with_scopes Demo.resolver demo_full Demo.realm (demo_request ThirdParty)
    = Err (InvalidScope (NotHeld (lit "docs:old"))) ∧
  ∃ rp, @resolve_with_scopes Demo.resolver demo_full Demo.realm (demo_request FirstParty) = Ok rp ∧
    rp_granted_scopes rp = [lit "openid"; lit "docs:all"] ∧ rp_permissions rp = [Demo.edit; Demo.read] ∧
    names_permissions (H := Demo.resolver) Demo.realm (demo_request FirstParty).
Proof.
split; [vm_compute; reflexivity|].
eexists. split; [vm_compute; reflexivity|]. split; [reflexivity|]. split; [reflexivity|].
destruct (@resolve_with_scopes_exact Demo.resolver demo_full Demo.realm (demo_request FirstParty)
  (MkResolved [lit "editor"; lit "viewer"] [lit "staff"] [Demo.edit; Demo.read] [lit "openid"; lit "docs:all"]
     [MkOrphanRef OkPermission Demo.legacy; MkOrphanRef OkRole (lit "retired")] true))
  as (full & _ & _ & _ & _ & Hn & _); [vm_compute; reflexivity|]. apply Hn. reflexivity.
Defined.

Lemma resolve_permissions_exact_witness : ∃ full,
  demo_full Demo.alice Demo.realm (Some Demo.org) = Ok full ∧ Demo.edit ∈ rp_permissions full.
Proof.
destruct (@resolve_permissions_exact Demo.resolver demo_full Demo.alice Demo.realm (Some Demo.org)
  (Some (lit "nope  docs:all")) (MkResolved [lit "editor"; lit "viewer"] [lit "staff"] [Demo.edit; Demo.read] []
     [MkOrphanRef OkPermission Demo.legacy; MkOrphanRef OkRole (lit "retired")] false))
  as (full & Hf & _ & _ & _ & _ & _ & Hp); [vm_compute; reflexivity|].
exists full. split; [exact Hf|]. apply (Hp Demo.edit). left.
Defined.
