(* ===== verification/RbacCache.v ===== *)
(** * Role-based access control: the resolution cache

[rbac/resolution_cache.rs] and the code of [rbac/engine.rs] around it: the
versioned, sharded cache of full resolutions, the protocol by which
[resolve_full_cached] reads and fills it, and the mutators that write the stored
graph and then bump the realm's version. Threads interleave at every access to
shared state. *)
From stdpp Require Import functions relations.
From stdpp Require Import base list gmap strings sorting lexico.
From Stdlib Require Import Strings.Byte ZArith Lia.
From S2P Require Import Prelude OrdMap StorageTypes OrdSet RbacTypes RbacResolve RbacGroups RbacRoles RbacFull.

Open Scope Z_scope.

#[export] Instance ResolvedPermissions_eq_dec : EqDecision ResolvedPermissions.
Proof. solve_decision. Defined.

(** ** The cache *)

Abbreviation CacheKey := (RealmId * UserId * option OrganizationId)%type.
Definition key_realm (k : CacheKey) : RealmId := k.1.1.

Definition MAX_RESOLUTION_CACHE_ENTRIES : nat := 50000.
Definition SHARD_COUNT : nat := 64.
Definition MAX_ENTRIES_PER_SHARD : nat := Nat.div MAX_RESOLUTION_CACHE_ENTRIES SHARD_COUNT.

(** [RandomState::hash_one], drawn when the cache is created. *)
Class CacheHash := cache_hash : CacheKey → Z.

Abbreviation Shard := (gmap CacheKey (Z * ResolvedPermissions)).
Record Cache := MkCache {
  ca_generations : gmap RealmId Z;
  ca_entries : list Shard;
  ca_max_per_shard : nat
}.

Definition with_shard_cap (cap : nat) : Cache := MkCache ∅ (replicate SHARD_COUNT ∅) cap.
Definition cache_new : Cache := with_shard_cap MAX_ENTRIES_PER_SHARD.

Section cache.
Context `{!CacheHash}.

(** The index [shard] masks out of the hash. *)
Definition shard (key : CacheKey) : nat := Z.to_nat (Z.land (cache_hash key) (Z.of_nat SHARD_COUNT - 1)).

Definition generation (realm : RealmId) (c : Cache) : Z := default 0 (ca_generations c !! realm).

(** The second load of [get], after the generation has been read as [current]. *)
Definition get_entry_at (current : Z) (key : CacheKey) (c : Cache) : option ResolvedPermissions :=
  match ca_entries c !! shard key ≫= lookup key with
  | Some (version, value) => if version =? current then Some value else None
  | None => None
  end.
Definition get (key : CacheKey) (c : Cache) : option ResolvedPermissions :=
  get_entry_at (generation (key_realm key) c) key c.

(** The closure [insert] hands to [rcu]. *)
Definition shard_insert (cap : nat) (key : CacheKey) (version : Z) (value : ResolvedPermissions) (old : Shard) : Shard :=
  let next := if decide (cap <= size old)%nat then (if decide (is_Some (old !! key)) then old else ∅) else old in
  <[key := (version, value)]> next.
Definition insert (key : CacheKey) (version : Z) (value : ResolvedPermissions) (c : Cache) : Cache :=
  MkCache (ca_generations c) (alter (shard_insert (ca_max_per_shard c) key version value) (shard key) (ca_entries c))
    (ca_max_per_shard c).

(** [bump]; an overflow of the [u64] aborts the process ([overflow-checks] and
[panic = "abort"] of the release profile). *)
Definition bump (realm : RealmId) (c : Cache) : option Cache :=
  let v := generation realm c in
  if decide (v = u64_max) then None
  else Some (MkCache (<[realm := v + 1]> (ca_generations c)) (ca_entries c) (ca_max_per_shard c)).

(** [invalidate_all]: every known realm's version, then the shards one by one. *)
Definition bump_known (c : Cache) : option Cache :=
  if decide (map_Forall (λ _ v, v ≠ u64_max) (ca_generations c))
  then Some (MkCache (Z.succ <$> ca_generations c) (ca_entries c) (ca_max_per_shard c)) else None.
Definition clear_shard (i : nat) (c : Cache) : Cache :=
  MkCache (ca_generations c) (alter (λ _, ∅) i (ca_entries c)) (ca_max_per_shard c).
End cache.

(** ** The protocol *)

(** A thread in [resolve_full_cached]. [finished] lists the mutations of the realm
that had completed when the call began, and [start] is the number of writes the
realm's graph had seen when the storage reads began; no code reads either. *)
Inductive Thread :=
| TLookup (key : CacheKey)
| TLoaded (key : CacheKey) (current : Z) (finished : list nat)
| TMissed (key : CacheKey) (finished : list nat)
| TReading (key : CacheKey) (version : Z) (start : nat) (finished : list nat)
| TResolved (key : CacheKey) (version : Z) (value : ResolvedPermissions) (finished : list nat)
| TFilling (key : CacheKey) (version : Z) (value : ResolvedPermissions) (finished : list nat)
| TReturned (key : CacheKey) (value : ResolvedPermissions) (finished : list nat)
| TFailed (key : CacheKey).

(** The system: the cache; the successive graphs of each realm, the last one
current; the writes whose bump is due; the writes whose bump is done, in order;
and the resolving threads. *)
Record System := MkSystem {
  sy_cache : Cache;
  sy_graphs : RealmId → list Resolver;
  sy_due : list (RealmId * nat);
  sy_finished : RealmId → list nat;
  sy_threads : gmap nat Thread
}.

(** One access to shared state. *)
Inductive Act :=
| ACall (t : nat) (key : CacheKey)
| ALoadGeneration (t : nat)
| ALoadShard (t : nat)
| ACapture (t : nat)
| AResolve (t : nat) (value : rres ResolvedPermissions)
| ARecheck (t : nat)
| AFill (t : nat)
| AWrite (realm : RealmId) (graph : Resolver)
| AWriteFails (realm : RealmId) (graph : Resolver)
| ABump (i : nat)
| ASnapshot (graph : RealmId → Resolver)
| ABumpKnown
| AClearShard (i : nat).

Section protocol.
Context `{!UuidText, !HashOrder (list byte), !CacheHash}.

Definition resolve_key (g : Resolver) (k : CacheKey) : rres ResolvedPermissions :=
  @resolve_full _ _ g k.1.2 k.1.1 k.2.

Definition set_thread (t : nat) (th : Thread) (s : System) : System :=
  MkSystem (sy_cache s) (sy_graphs s) (sy_due s) (sy_finished s) (<[t := th]> (sy_threads s)).
Definition set_cache (c : Cache) (s : System) : System :=
  MkSystem c (sy_graphs s) (sy_due s) (sy_finished s) (sy_threads s).
(** The number of writes the realm's graph has seen. *)
Definition writes (realm : RealmId) (s : System) : nat := Nat.pred (length (sy_graphs s realm)).
Definition push_graph (realm : RealmId) (g : Resolver) (s : System) : System :=
  MkSystem (sy_cache s) (<[realm := sy_graphs s realm ++ [g]]> (sy_graphs s)) (sy_due s) (sy_finished s) (sy_threads s).

(** The storage reads of [resolve_full] are spread over time. When no write of the
realm was applied from the first to the last, they all saw the same graph and the
result is its resolution; otherwise the result may mix several graphs. *)
Definition reads_yield (s : System) (k : CacheKey) (start : nat) (v : rres ResolvedPermissions) : Prop :=
  writes (key_realm k) s = start → ∃ g, sy_graphs s (key_realm k) !! start = Some g ∧ resolve_key g k = v.

Inductive step : Act → System → System → Prop :=
| StCall s t key : sy_threads s !! t = None → step (ACall t key) s (set_thread t (TLookup key) s)
| StLoadGeneration s t key : sy_threads s !! t = Some (TLookup key) →
    step (ALoadGeneration t) s
      (set_thread t (TLoaded key (generation (key_realm key) (sy_cache s)) (sy_finished s (key_realm key))) s)
| StHit s t key current fin value : sy_threads s !! t = Some (TLoaded key current fin) →
    get_entry_at current key (sy_cache s) = Some value →
    step (ALoadShard t) s (set_thread t (TReturned key value fin) s)
| StMiss s t key current fin : sy_threads s !! t = Some (TLoaded key current fin) →
    get_entry_at current key (sy_cache s) = None →
    step (ALoadShard t) s (set_thread t (TMissed key fin) s)
| StCapture s t key fin : sy_threads s !! t = Some (TMissed key fin) →
    step (ACapture t) s
      (set_thread t (TReading key (generation (key_realm key) (sy_cache s)) (writes (key_realm key) s) fin) s)
| StResolve s t key version start fin value : sy_threads s !! t = Some (TReading key version start fin) →
    reads_yield s key start (Ok value) →
    step (AResolve t (Ok value)) s (set_thread t (TResolved key version value fin) s)
| StResolveErr s t key version start fin e : sy_threads s !! t = Some (TReading key version start fin) →
    reads_yield s key start (Err e) → step (AResolve t (Err e)) s (set_thread t (TFailed key) s)
| StRecheckSame s t key version value fin : sy_threads s !! t = Some (TResolved key version value fin) →
    generation (key_realm key) (sy_cache s) = version →
    step (ARecheck t) s (set_thread t (TFilling key version value fin) s)
| StRecheckMoved s t key version value fin : sy_threads s !! t = Some (TResolved key version value fin) →
    generation (key_realm key) (sy_cache s) ≠ version →
    step (ARecheck t) s (set_thread t (TReturned key value fin) s)
| StFill s t key version value fin : sy_threads s !! t = Some (TFilling key version value fin) →
    step (AFill t) s (set_thread t (TReturned key value fin) (set_cache (insert key version value (sy_cache s)) s))
| StWrite s realm g :
    (* [storage.put(..)] has applied the write; the bump is due *)
    step (AWrite realm g) s
      (MkSystem (sy_cache s) (<[realm := sy_graphs s realm ++ [g]]> (sy_graphs s))
         (sy_due s ++ [(realm, length (sy_graphs s realm))]) (sy_finished s) (sy_threads s))
| StWriteFails s realm g :
    (* the write is applied and [storage.put(..)?] returns early with an error *)
    step (AWriteFails realm g) s (push_graph realm g s)
| StBump s i realm w c : sy_due s !! i = Some (realm, w) → bump realm (sy_cache s) = Some c →
    step (ABump i) s
      (MkSystem c (sy_graphs s) (base.delete i (sy_due s)) (<[realm := sy_finished s realm ++ [w]]> (sy_finished s))
         (sy_threads s))
| StSnapshot s g :
    step (ASnapshot g) s
      (MkSystem (sy_cache s) (λ r, sy_graphs s r ++ [g r]) (sy_due s) (sy_finished s) (sy_threads s))
| StBumpKnown s c : bump_known (sy_cache s) = Some c → step ABumpKnown s (set_cache c s)
| StClearShard s i : step (AClearShard i) s (set_cache (clear_shard i (sy_cache s)) s).

Inductive steps : list Act → System → System → Prop :=
| steps_nil s : steps [] s s
| steps_cons a acts s s' s'' : step a s s' → steps acts s' s'' → steps (a :: acts) s s''.

Definition system_new (cap : nat) (g : RealmId → Resolver) : System :=
  MkSystem (with_shard_cap cap) (λ r, [g r]) [] (λ _, []) ∅.

(** Mutations that succeed, and no snapshot install. *)
Definition ordinary (a : Act) : Prop :=
  match a with AWriteFails _ _ | ASnapshot _ | ABumpKnown | AClearShard _ => False | _ => True end.

(** ** The invariant *)

(** [v] was resolved for [k] by reads made while the realm's graph went from its
[i]-th to its [j]-th write. *)
Definition resolved_between (s : System) (k : CacheKey) (v : ResolvedPermissions) (i j : nat) : Prop :=
  (i <= j <= writes (key_realm k) s)%nat ∧
  (i = j → ∃ g, sy_graphs s (key_realm k) !! i = Some g ∧ resolve_key g k = Ok v).

(** Every mutation of [ws] was applied before the reads began. *)
Definition reflects (s : System) (k : CacheKey) (v : ResolvedPermissions) (ws : list nat) : Prop :=
  ∃ i j, resolved_between s k v i j ∧ Forall (λ w, (w <= i)%nat) ws.

(** A value tagged [version] reflects the first [version] bumped mutations. *)
Definition tagged (s : System) (k : CacheKey) (version : Z) (v : ResolvedPermissions) : Prop :=
  ∃ n, version = Z.of_nat n ∧ (n <= length (sy_finished s (key_realm k)))%nat ∧
    reflects s k v (take n (sy_finished s (key_realm k))).

Definition thread_ok (s : System) (th : Thread) : Prop :=
  match th with
  | TLookup _ | TFailed _ => True
  | TLoaded k current fin => fin `prefix_of` sy_finished s (key_realm k) ∧ current = Z.of_nat (length fin)
  | TMissed k fin => fin `prefix_of` sy_finished s (key_realm k)
  | TReading k version start fin =>
      (start <= writes (key_realm k) s)%nat ∧ fin `prefix_of` sy_finished s (key_realm k) ∧
      ∃ n, version = Z.of_nat n ∧ (length fin <= n <= length (sy_finished s (key_realm k)))%nat ∧
        Forall (λ w, (w <= start)%nat) (take n (sy_finished s (key_realm k)))
  | TResolved k version v fin | TFilling k version v fin =>
      tagged s k version v ∧ fin `prefix_of` sy_finished s (key_realm k) ∧ Z.of_nat (length fin) <= version
  | TReturned k v fin => reflects s k v fin
  end.

Record sys_inv (s : System) : Prop := {
  si_generation r : generation r (sy_cache s) = Z.of_nat (length (sy_finished s r));
  si_graphs r : (1 <= length (sy_graphs s r))%nat;
  si_finished r : Forall (λ w, (w <= writes r s)%nat) (sy_finished s r);
  si_due r w : (r, w) ∈ sy_due s → (w <= writes r s)%nat;
  si_entries m k ver v : m ∈ ca_entries (sy_cache s) → m !! k = Some (ver, v) → tagged s k ver v;
  si_threads t th : sy_threads s !! t = Some th → thread_ok s th
}.

(** Histories only grow. *)
Definition extends (s s' : System) : Prop :=
  ∀ r, sy_graphs s r `prefix_of` sy_graphs s' r ∧ sy_finished s r `prefix_of` sy_finished s' r.

#[local] Instance extends_refl : Reflexive extends.
Proof. by intros s r. Qed.

Lemma extends_writes s s' r : extends s s' → (writes r s <= writes r s')%nat.
Proof. intros He. destruct (He r) as [Hg _]. apply prefix_length in Hg. unfold writes. lia. Qed.

Lemma reflects_extends s s' k v ws : extends s s' → reflects s k v ws → reflects s' k v ws.
Proof.
intros He (i & j & [Hij Heq] & Hw). exists i, j. split; [|done]. split.
- pose proof (extends_writes s s' (key_realm k) He). lia.
- intros Hj. destruct (Heq Hj) as (g & Hg & Hr). exists g. split; [|done].
  eapply prefix_lookup_Some; [exact Hg|]. apply He.
Qed.

Lemma take_prefix {A} n (l l' : list A) : l `prefix_of` l' → (n <= length l)%nat → take n l' = take n l.
Proof. intros [k ->] Hn. rewrite take_app_le by done. done. Qed.

Lemma tagged_extends s s' k ver v : extends s s' → tagged s k ver v → tagged s' k ver v.
Proof.
intros He (n & -> & Hn & Hr). destruct (He (key_realm k)) as [_ Hf]. pose proof (prefix_length _ _ Hf).
exists n. split; [done|]. split; [lia|]. rewrite (take_prefix _ _ _ Hf) by done. by eapply reflects_extends.
Qed.

Lemma thread_ok_extends s s' th : extends s s' → thread_ok s th → thread_ok s' th.
Proof.
intros He. destruct th as [k|k c fin|k fin|k ver start fin|k ver v fin|k ver v fin|k v fin|k]; simpl; try done.
- destruct (He (key_realm k)) as [_ Hf]. intros [? ?]. split; [by etrans|done].
- destruct (He (key_realm k)) as [_ Hf]. intros ?. by etrans.
- destruct (He (key_realm k)) as [_ Hf]. pose proof (prefix_length _ _ Hf).
  pose proof (extends_writes s s' (key_realm k) He). intros (? & ? & n & -> & ? & ?).
  split; [lia|]. split; [by etrans|]. exists n. split; [done|]. split; [lia|]. by rewrite (take_prefix _ _ _ Hf) by lia.
- destruct (He (key_realm k)) as [_ Hf]. intros (? & ? & ?). split; [by eapply tagged_extends|]. split; [by etrans|done].
- destruct (He (key_realm k)) as [_ Hf]. intros (? & ? & ?). split; [by eapply tagged_extends|]. split; [by etrans|done].
- by apply reflects_extends.
Qed.

Lemma sys_inv_new cap g : sys_inv (system_new cap g).
Proof.
split; simpl; try done; try set_solver.
Qed.

(** ** Every step preserves it *)

(** Steps that keep the cache's versions. *)
Lemma sys_inv_keep s s' :
  sys_inv s → extends s s' → sy_finished s' = sy_finished s →
  (∀ r, generation r (sy_cache s') = generation r (sy_cache s)) →
  (∀ r w, (r, w) ∈ sy_due s' → (w <= writes r s')%nat) →
  (∀ m k ver v, m ∈ ca_entries (sy_cache s') → m !! k = Some (ver, v) → tagged s k ver v) →
  (∀ t th, sy_threads s' !! t = Some th → thread_ok s th) → sys_inv s'.
Proof.
intros Hi He Hf Hg Hd Hen Hth. split.
- intros r. rewrite Hg, Hf. apply (si_generation _ Hi).
- intros r. destruct (He r) as [Hp%prefix_length _]. pose proof (si_graphs _ Hi r). lia.
- intros r. rewrite Hf. eapply Forall_impl; [exact (si_finished _ Hi r)|]. intros w Hw. simpl in Hw |- *.
  pose proof (extends_writes s s' r He). lia.
- exact Hd.
- intros m k ver v Hm Hk. eapply tagged_extends; [exact He|]. by eapply Hen.
- intros t th Hth'. eapply thread_ok_extends; [exact He|]. by eapply Hth.
Qed.

Lemma sys_inv_thread s t th : sys_inv s → thread_ok s th → sys_inv (set_thread t th s).
Proof.
intros Hi Hth. eapply (sys_inv_keep s); [done|done|done|done|apply (si_due _ Hi)|apply (si_entries _ Hi)|].
intros t' th'. simpl. rewrite lookup_insert_Some. intros [[_ <-]|[_ Ht]]; [done|by eapply si_threads].
Qed.

Lemma shard_insert_lookup cap key ver v old k e :
  shard_insert cap key ver v old !! k = Some e → (k = key ∧ e = (ver, v)) ∨ old !! k = Some e.
Proof.
unfold shard_insert. intros [[-> <-]|[_ He]]%lookup_insert_Some; [by left|]. right.
repeat case_decide; set_solver.
Qed.

Lemma insert_entries key ver v c m k e :
  m ∈ ca_entries (insert key ver v c) → m !! k = Some e →
  (k = key ∧ e = (ver, v)) ∨ ∃ m0, m0 ∈ ca_entries c ∧ m0 !! k = Some e.
Proof.
simpl. intros [i Hi]%list_elem_of_lookup Hk. destruct (decide (i = shard key)) as [->|Hne].
- rewrite list_lookup_alter_eq in Hi. apply fmap_Some in Hi as (m0 & Hm0 & ->).
  apply shard_insert_lookup in Hk as [?|?]; [by left|]. right. exists m0. split; [by eapply list_elem_of_lookup_2|done].
- rewrite list_lookup_alter_ne in Hi by done. right. exists m. split; [by eapply list_elem_of_lookup_2|done].
Qed.

Lemma Forall_prefix_take {A} (P : A → Prop) n (l l' : list A) :
  l `prefix_of` l' → (length l <= n)%nat → Forall P (take n l') → Forall P l.
Proof. intros [k ->] Hn. rewrite take_app_ge by done. by intros [? _]%Forall_app. Qed.

Lemma tagged_reflects s k ver v fin :
  tagged s k ver v → fin `prefix_of` sy_finished s (key_realm k) → Z.of_nat (length fin) <= ver → reflects s k v fin.
Proof.
intros (n & -> & Hn & i & j & Hij & Hw) Hp Hl. exists i, j. split; [done|].
eapply Forall_prefix_take; [exact Hp| |exact Hw]. lia.
Qed.

Lemma sys_inv_fill s t key ver v fin :
  sys_inv s → sy_threads s !! t = Some (TFilling key ver v fin) →
  sys_inv (set_thread t (TReturned key v fin) (set_cache (insert key ver v (sy_cache s)) s)).
Proof.
intros Hi Ht. pose proof (si_threads _ Hi _ _ Ht) as (Htag & Hpre & Hlen).
assert (sys_inv (set_cache (insert key ver v (sy_cache s)) s)) as Hi'.
{ eapply (sys_inv_keep s); [done|done|done|done|apply (si_due _ Hi)| |apply (si_threads _ Hi)].
  intros m k ver' v' Hm Hk. destruct (insert_entries _ _ _ _ _ _ _ Hm Hk) as [[-> Heq]|(m0 & ? & ?)];
    [by injection Heq as -> ->|by eapply (si_entries _ Hi)]. }
apply sys_inv_thread; [done|]. by eapply tagged_reflects.
Qed.

Lemma sys_inv_write s realm g :
  sys_inv s → sys_inv (MkSystem (sy_cache s) (<[realm := sy_graphs s realm ++ [g]]> (sy_graphs s))
    (sy_due s ++ [(realm, length (sy_graphs s realm))]) (sy_finished s) (sy_threads s)).
Proof.
intros Hi. eapply (sys_inv_keep s); [done| |done|done| |apply (si_entries _ Hi)|apply (si_threads _ Hi)].
- intros r. split; [|done]. simpl. destruct (decide (realm = r)) as [<-|].
  + rewrite fn_lookup_insert. by apply prefix_app_r.
  + by rewrite fn_lookup_insert_ne.
- intros r w. unfold writes. simpl. rewrite elem_of_app, list_elem_of_singleton.
  destruct (decide (realm = r)) as [<-|]; [rewrite fn_lookup_insert, length_app; simpl|rewrite fn_lookup_insert_ne by done].
  + intros [Hd|[= ->]]; [apply (si_due _ Hi) in Hd; unfold writes in Hd; lia|lia].
  + intros [Hd|[= -> ->]]; [by apply (si_due _ Hi) in Hd|done].
Qed.

Lemma sys_inv_bump s i realm w c :
  sys_inv s → sy_due s !! i = Some (realm, w) → bump realm (sy_cache s) = Some c →
  sys_inv (MkSystem c (sy_graphs s) (base.delete i (sy_due s)) (<[realm := sy_finished s realm ++ [w]]> (sy_finished s))
    (sy_threads s)).
Proof.
intros Hi Hd Hb. unfold bump in Hb. case_decide; [done|]. injection Hb as <-.
set (s' := MkSystem _ _ _ _ _).
assert (extends s s') as He.
{ intros r. split; [done|]. simpl. destruct (decide (realm = r)) as [<-|].
  - rewrite fn_lookup_insert. by apply prefix_app_r.
  - by rewrite fn_lookup_insert_ne. }
split.
- intros r. unfold generation at 1. simpl. destruct (decide (realm = r)) as [<-|].
  + rewrite lookup_insert_eq, fn_lookup_insert, length_app. simpl. rewrite (si_generation _ Hi). lia.
  + rewrite lookup_insert_ne, fn_lookup_insert_ne by done. apply (si_generation _ Hi).
- apply (si_graphs _ Hi).
- intros r. simpl. destruct (decide (realm = r)) as [<-|].
  + rewrite fn_lookup_insert. apply Forall_app. split; [apply (si_finished _ Hi)|]. apply Forall_singleton.
    apply (si_due _ Hi). by eapply list_elem_of_lookup_2.
  + rewrite fn_lookup_insert_ne by done. apply (si_finished _ Hi).
- intros r w' Hin. apply (si_due _ Hi). simpl in Hin. eapply elem_of_submseteq; [exact Hin|].
  apply sublist_submseteq, sublist_delete.
- intros m k ver v Hm Hk. eapply tagged_extends; [exact He|]. by eapply (si_entries _ Hi).
- intros t th Hth. eapply thread_ok_extends; [exact He|]. by eapply (si_threads _ Hi).
Qed.

Lemma get_entry_tagged s k current v : sys_inv s → get_entry_at current k (sy_cache s) = Some v → tagged s k current v.
Proof.
intros Hi. unfold get_entry_at. destruct (ca_entries (sy_cache s) !! shard k) as [m|] eqn:Hm; simpl; [|done].
destruct (m !! k) as [[ver v']|] eqn:Hk; [|done]. destruct (Z.eqb_spec ver current) as [->|]; [|done]. intros [= ->].
eapply (si_entries _ Hi); [by eapply list_elem_of_lookup_2|done].
Qed.

Lemma step_inv a s s' : ordinary a → step a s s' → sys_inv s → sys_inv s'.
Proof.
intros Ho Hst Hi. destruct Hst as
  [s t key Ht|s t key Ht|s t key current fin value Ht Hg|s t key current fin Ht Hg|s t key fin Ht
  |s t key version start fin value Ht Hr|s t key version start fin e Ht Hr|s t key version value fin Ht Hg
  |s t key version value fin Ht Hg|s t key version value fin Ht|s realm g|s realm g|s i realm w c Hd Hb| | | ]; try done.
- by apply sys_inv_thread.
- apply sys_inv_thread; [done|]. split; [done|]. apply (si_generation _ Hi).
- apply sys_inv_thread; [done|]. apply (si_threads _ Hi) in Ht as [Hp ->].
  eapply tagged_reflects; [by eapply get_entry_tagged|done|done].
- apply sys_inv_thread; [done|]. by apply (si_threads _ Hi) in Ht as [Hp _].
- apply sys_inv_thread; [done|]. apply (si_threads _ Hi) in Ht as Hp. simpl in Hp. split; [done|]. split; [done|].
  exists (length (sy_finished s (key_realm key))). split; [apply (si_generation _ Hi)|].
  split; [apply prefix_length in Hp; lia|]. rewrite take_ge by done. apply (si_finished _ Hi).
- apply sys_inv_thread; [done|]. apply (si_threads _ Hi) in Ht as (Hs & Hp & n & -> & Hn & Hw).
  split; [|split; [done|lia]]. exists n. split; [done|]. split; [lia|]. exists start, (writes (key_realm key) s).
  split; [|done]. split; [lia|]. intros Heq. by destruct (Hr (eq_sym Heq)) as (g & ? & ?); exists g.
- by apply sys_inv_thread.
- apply sys_inv_thread; [done|]. by apply (si_threads _ Hi) in Ht.
- apply sys_inv_thread; [done|]. apply (si_threads _ Hi) in Ht as (Htag & Hp & Hl). by eapply tagged_reflects.
- by eapply sys_inv_fill.
- by apply sys_inv_write.
- by eapply sys_inv_bump.
Qed.

Lemma steps_inv acts s s' : Forall ordinary acts → steps acts s s' → sys_inv s → sys_inv s'.
Proof.
intros Ho Hst. induction Hst as [|a acts s s1 s2 H1 Hst IH]; [done|].
apply Forall_cons in Ho as [Ha Ho]. intros Hi. apply IH; [done|]. by eapply step_inv.
Qed.


(** ** Running the protocol *)

#[local] Instance rres_eq_dec : EqDecision (rres ResolvedPermissions).
Proof. solve_decision. Defined.

Definition exec (a : Act) (s : System) : option System :=
  match a with
  | ACall t key => match sy_threads s !! t with None => Some (set_thread t (TLookup key) s) | Some _ => None end
  | ALoadGeneration t =>
      match sy_threads s !! t with
      | Some (TLookup key) =>
          Some (set_thread t (TLoaded key (generation (key_realm key) (sy_cache s)) (sy_finished s (key_realm key))) s)
      | _ => None
      end
  | ALoadShard t =>
      match sy_threads s !! t with
      | Some (TLoaded key current fin) =>
          Some (set_thread t (match get_entry_at current key (sy_cache s) with
                              | Some value => TReturned key value fin
                              | None => TMissed key fin
                              end) s)
      | _ => None
      end
  | ACapture t =>
      match sy_threads s !! t with
      | Some (TMissed key fin) =>
          Some (set_thread t (TReading key (generation (key_realm key) (sy_cache s)) (writes (key_realm key) s) fin) s)
      | _ => None
      end
  | AResolve t value =>
      match sy_threads s !! t with
      | Some (TReading key version start fin) =>
          if decide (writes (key_realm key) s = start →
              (λ g, resolve_key g key) <$> sy_graphs s (key_realm key) !! start = Some value)
          then match value with
               | Ok v => Some (set_thread t (TResolved key version v fin) s)
               | Err _ => Some (set_thread t (TFailed key) s)
               | Panic => None
               end
          else None
      | _ => None
      end
  | ARecheck t =>
      match sy_threads s !! t with
      | Some (TResolved key version value fin) =>
          Some (set_thread t (if decide (generation (key_realm key) (sy_cache s) = version)
                              then TFilling key version value fin else TReturned key value fin) s)
      | _ => None
      end
  | AFill t =>
      match sy_threads s !! t with
      | Some (TFilling key version value fin) =>
          Some (set_thread t (TReturned key value fin) (set_cache (insert key version value (sy_cache s)) s))
      | _ => None
      end
  | AWrite realm g =>
      Some (MkSystem (sy_cache s) (<[realm := sy_graphs s realm ++ [g]]> (sy_graphs s))
              (sy_due s ++ [(realm, length (sy_graphs s realm))]) (sy_finished s) (sy_threads s))
  | AWriteFails realm g => Some (push_graph realm g s)
  | ABump i =>
      match sy_due s !! i with
      | Some (realm, w) =>
          match bump realm (sy_cache s) with
          | Some c => Some (MkSystem c (sy_graphs s) (base.delete i (sy_due s))
                       (<[realm := sy_finished s realm ++ [w]]> (sy_finished s)) (sy_threads s))
          | None => None
          end
      | None => None
      end
  | ASnapshot g =>
      Some (MkSystem (sy_cache s) (λ r, sy_graphs s r ++ [g r]) (sy_due s) (sy_finished s) (sy_threads s))
  | ABumpKnown => (λ c, set_cache c s) <$> bump_known (sy_cache s)
  | AClearShard i => Some (set_cache (clear_shard i (sy_cache s)) s)
  end.

Fixpoint run (acts : list Act) (s : System) : option System :=
  match acts with [] => Some s | a :: acts => exec a s ≫= run acts end.

Lemma exec_step a s s' : exec a s = Some s' → step a s s'.
Proof.
destruct a as [t key|t|t|t|t value|t|t|realm g|realm g|i|g| |i]; simpl; intros He;
  try (destruct (sy_threads s !! t) as [[]|] eqn:Ht; try discriminate He).
- injection He as <-. by constructor.
- injection He as <-. by constructor.
- injection He as <-. destruct (get_entry_at _ _ _) eqn:Hg; by econstructor.
- injection He as <-. by constructor.
- case_decide as Hd; [|done].
  assert (reads_yield s key start value) as Hy.
  { intros Hw. specialize (Hd Hw). by apply fmap_Some in Hd as (g & ? & ->); exists g. }
  destruct value as [v|e|]; [| |done]; injection He as <-; by econstructor.
- injection He as <-. case_decide; [by constructor|by econstructor].
- injection He as <-. by econstructor.
- injection He as <-. constructor.
- injection He as <-. constructor.
- destruct (sy_due s !! i) as [[realm w]|] eqn:Hd; [|done]. destruct (bump realm (sy_cache s)) eqn:Hb; [|done].
  injection He as <-. by eapply StBump.
- injection He as <-. constructor.
- apply fmap_Some in He as (c & Hc & ->). by constructor.
- injection He as <-. constructor.
Qed.

Lemma run_steps acts s s' : run acts s = Some s' → steps acts s s'.
Proof.
revert s. induction acts as [|a acts IH]; intros s Hr; simpl in Hr; [injection Hr as <-; constructor|].
destruct (exec a s) as [s1|] eqn:He; simpl in Hr; [|done]. econstructor; [by apply exec_step|by apply IH].
Qed.
End protocol.

(** ** Concrete runs *)

Module CacheDemo.
(** Every key in the first shard. *)
Definition hash : CacheHash := λ _, 0.
Definition key : CacheKey := (Demo.realm, Demo.alice, Some Demo.org).
(** The graph after the group's assignment is revoked, and its resolution. *)
Definition revoked : Resolver := {|
  parent_groups_of := @parent_groups_of Demo.resolver;
  user_assignments := @user_assignments Demo.resolver;
  group_assignments _ _ := Ok [];
  get_role := @get_role Demo.resolver;
  get_group_slug := @get_group_slug Demo.resolver;
  scope_permissions := @scope_permissions Demo.resolver;
  resource_scope_permissions := @resource_scope_permissions Demo.resolver;
  user_permissions := @user_permissions Demo.resolver;
  get_role_id_by_name := @get_role_id_by_name Demo.resolver;
  permission_archived := @permission_archived Demo.resolver;
  additional_roles := @additional_roles Demo.resolver
|}.
Definition none : ResolvedPermissions := MkResolved [] [lit "staff"] [] [] [] false.

Definition miss (t : nat) (v : ResolvedPermissions) : list Act :=
  [ACall t key; ALoadGeneration t; ALoadShard t; ACapture t; AResolve t (Ok v); ARecheck t; AFill t].
Definition hit (t : nat) : list Act := [ACall t key; ALoadGeneration t; ALoadShard t].
Definition init : System := system_new MAX_ENTRIES_PER_SHARD (λ _, Demo.resolver).
Definition demo_run (acts : list Act) : option System := @run Demo.text _ hash acts init.
(** What thread [t] holds at the end of a run. *)
Definition outcome_of (t : nat) (acts : list Act) : option Thread := demo_run acts ≫= λ s, sy_threads s !! t.

(** A fill, a completed revocation, a fresh fill, and a hit. *)
Definition revocation : list Act := miss 1 Demo.resolved ++ [AWrite Demo.realm revoked; ABump 0] ++ miss 2 none ++ hit 3.
End CacheDemo.


(** A mutation that the storage applied but reported as failed is never followed
by a bump: the early return of [write_put] skips it. From then on, with no
mutation in flight, hits keep returning the permissions the write revoked. *)
Theorem failed_write_leaves_stale_hit :
  CacheDemo.outcome_of 2 (CacheDemo.miss 1 Demo.resolved ++ [AWriteFails Demo.realm CacheDemo.revoked] ++ CacheDemo.hit 2)
    = Some (TReturned CacheDemo.key Demo.resolved []) ∧
  @resolve_key Demo.text _ CacheDemo.revoked CacheDemo.key = Ok CacheDemo.none.
Proof. split; vm_compute; reflexivity. Qed.

(** A snapshot install does not stop a fill that was already reading: in a realm
this node has never mutated the version stays 0 across [invalidate_all], so the
fill passes its recheck and publishes the replaced graph's resolution, which later
hits return. *)
Theorem snapshot_leaves_stale_hit :
  CacheDemo.outcome_of 2
    ([ACall 1 CacheDemo.key; ALoadGeneration 1; ALoadShard 1; ACapture 1; AResolve 1 (Ok Demo.resolved)]
     ++ [ASnapshot (λ _, CacheDemo.revoked); ABumpKnown] ++ (AClearShard <$> seq 0 SHARD_COUNT)
     ++ [ARecheck 1; AFill 1] ++ CacheDemo.hit 2)
    = Some (TReturned CacheDemo.key Demo.resolved []) ∧
  @resolve_key Demo.text _ CacheDemo.revoked CacheDemo.key = Ok CacheDemo.none.
Proof. split; vm_compute; reflexivity. Qed.
