(* ===== verification/RbacRegistry.v ===== *)
(** * Role-based access control: the declared registry

[RealmPermissionRegistry::validate] and the helpers of [rbac/registry.rs]: the
checks a realm's declared permissions, roles, scope bundles, protected resources
and claim mappings must pass before they are loaded. *)
From stdpp Require Import relations.
From stdpp Require Import base list gmap strings sorting lexico.
From Stdlib Require Import Strings.Byte ZArith Lia.
From S2P Require Import Prelude OrdMap StorageTypes OrdSet RbacTypes RbacResolve RbacRoles.

Open Scope Z_scope.

Definition MAX_ROLE_PARENT_DEPTH : nat := 10.

Definition TIER2_CLAIMS : list Str := Eval compute in lit <$>
  ["employee_id"; "department"; "cost_center"; "tenant_id"; "org_id"; "oid"; "roles"; "groups"; "permissions"]%string.

Definition TIER1_CLAIMS : list Str := Eval compute in lit <$>
  ["iss"; "aud"; "exp"; "nbf"; "iat"; "jti"; "sub"; "tid"; "permissions"; "scope"; "sid"; "oid"; "nonce"; "auth_time";
   "acr"; "amr"; "azp"; "at_hash"; "c_hash"; "s_hash"; "client_id"; "cnf"; "act"; "actor"; "email_verified";
   "phone_number_verified"]%string.

(** The names of [SEED_PERMISSIONS] ([rbac/seed.rs]). *)
Definition SEED_PERMISSIONS : list Permission := Eval compute in lit <$>
  ["hearth.admin"; "hearth.users.admin"; "hearth.clients.admin"; "hearth.realm.admin"; "hearth.agents.admin";
   "hearth.export"; "realm.read"; "realm.write"; "realm.admin"; "org.read"; "org.write"; "org.admin"; "org.billing";
   "user.read"; "user.write"; "user.impersonate"; "hearth.sv_feed"]%string.

(** ** Custom claim names *)

Definition https_prefix : Str := Eval compute in lit "https://".
Definition http_prefix : Str := Eval compute in lit "http://".
Definition claim_uri_punctuation : Str := Eval compute in lit "-._~:/?#[]@!$&'()*+,;=%".

(** [is_claim_uri_char]. *)
Definition is_claim_uri_char (c : byte) : bool :=
  is_ascii_alphanumeric c || bool_decide (c ∈ claim_uri_punctuation).

Inductive ClaimReason := CEmpty | CHttpsTooLong | CNoHost | CHttpsBadChar | CPlainHttp | CTooLong | CBadFirst | CBadChar.

Definition validate_tier3_claim_name (name : Str) : outcome ClaimReason unit :=
  if bool_decide (name = []) then Err CEmpty
  else if str_starts_with https_prefix name then
    let rest := drop (length https_prefix) name in
    if 256 <? zlen name then Err CHttpsTooLong
    else if bool_decide (rest = []) then Err CNoHost
    else if negb (forallb is_claim_uri_char rest) then Err CHttpsBadChar
    else Ok tt
  else if str_starts_with http_prefix name then Err CPlainHttp
  else if 64 <? zlen name then Err CTooLong
  else match name with
       | [] => Err CEmpty
       | c :: chars =>
           if is_ascii_lowercase c then
             if forallb (λ c, is_ascii_lowercase c || is_ascii_digit c || bool_decide (c = underscore)) chars
             then Ok tt else Err CBadChar
           else Err CBadFirst
       end.

(** ** The registry *)

Record PermissionDefinition := MkPermissionDefinition {
  pd_name : Permission;
  pd_display_name : Str;
  pd_description : option Str;
  pd_category : option Str
}.
Record ScopeBundle := MkScopeBundle {
  sb_name : Str;
  sb_display_name : Str;
  sb_description : option Str;
  sb_permissions : list Permission
}.
Record ProtectedResource := MkProtectedResource {
  pr_resource_uri : Str;
  pr_display_name : Str;
  pr_scopes : list ScopeBundle
}.
(** Of a claim profile, validation reads the target of each mapping. *)
Record ClaimProfile := MkClaimProfile { cp_mapping_claims : list Str }.

Record RealmPermissionRegistry := MkRegistry {
  rr_permissions : list PermissionDefinition;
  rr_roles : list Role;
  rr_scopes : list ScopeBundle;
  rr_protected_resources : list ProtectedResource;
  rr_claim_profile : option ClaimProfile
}.

(** The constructors of [RegistryError] that [validate] builds. *)
Inductive RegistryError :=
| InvalidScopeBundleName (name : Str) (reason : NameReason)
| UndeclaredPermissionInRole (role_name permission : Str)
| UndeclaredPermissionInBundle (bundle_name permission : Str)
| EmptyScopeBundle (bundle_name : Str)
| UndeclaredParentRole (role_name parent_id : Str)
| RoleParentCycle (role_name : Str)
| RoleParentDepthExceeded (role_name : Str) (limit : nat)
| ForbiddenClaimTarget (claim : Str)
| InvalidClaimName (claim : Str) (reason : ClaimReason).

Section registry.
Context `{!UuidText}.

(** [roles_by_id]: collecting a [HashMap] keeps the last role of an id. *)
Definition roles_by_id (roles : list Role) : gmap RoleId Role :=
  foldl (λ m r, <[ro_id r := r]> m) ∅ roles.

(** The state of [dfs_check]: the roles fully checked, and the errors so far. *)
Record Check := MkCheck { ck_checked : gset RoleId; ck_errors : list RegistryError }.

Definition role_label (roles : gmap RoleId Role) (id : RoleId) : Str :=
  match roles !! id with Some r => ro_name r | None => uuid_to_string id end.
Definition push_error (e : RegistryError) (c : Check) : Check := MkCheck (ck_checked c) (ck_errors c ++ [e]).

(** [dfs_check]; the depth cap stops the recursion, so [fuel] of 11 less the depth
is never exhausted. *)
Fixpoint dfs_check (fuel : nat) (roles : gmap RoleId Role) (in_path : list RoleId) (id : RoleId) (depth : nat)
    (c : Check) : Check :=
  match fuel with
  | O => c
  | S fuel =>
      if decide (id ∈ ck_checked c) then c
      else if decide (id ∈ in_path) then push_error (RoleParentCycle (role_label roles id)) c
      else if (MAX_ROLE_PARENT_DEPTH <=? depth)%nat
      then push_error (RoleParentDepthExceeded (role_label roles id) MAX_ROLE_PARENT_DEPTH) c
      else
        let parents := match roles !! id with Some role => ro_parent_roles role | None => [] end in
        let c' := foldl (λ c p, dfs_check fuel roles (in_path ++ [id]) p (S depth) c) c parents in
        MkCheck ({[id]} ∪ ck_checked c') (ck_errors c')
  end.

Definition dfs_fuel : nat := S MAX_ROLE_PARENT_DEPTH.

Definition detect_role_cycles (roles : list Role) : list RegistryError :=
  ck_errors (foldl (λ c r, dfs_check dfs_fuel (roles_by_id roles) [] (ro_id r) O c) (MkCheck ∅ []) roles).

(** The checks of one scope bundle. *)
Definition check_bundle (declared : gset Permission) (b : ScopeBundle) : list RegistryError :=
  match validate_bundle_name (sb_name b) with
  | Err reason => [InvalidScopeBundleName (sb_name b) reason]
  | _ => []
  end
  ++ (if bool_decide (sb_permissions b = []) then [EmptyScopeBundle (sb_name b)] else [])
  ++ (UndeclaredPermissionInBundle (sb_name b) <$> filter (λ p, p ∉ declared) (sb_permissions b)).

(** The references of one role: to permissions, then to parents. *)
Definition check_role (declared : gset Permission) (role_ids : gset RoleId) (r : Role) : list RegistryError :=
  (UndeclaredPermissionInRole (ro_name r) <$> filter (λ p, p ∉ declared) (ro_permissions r))
  ++ ((λ p, UndeclaredParentRole (ro_name r) (uuid_to_string p)) <$> filter (λ p, p ∉ role_ids) (ro_parent_roles r)).

Definition check_claim (claim : Str) : list RegistryError :=
  if bool_decide (claim ∈ TIER1_CLAIMS) then [ForbiddenClaimTarget claim]
  else if bool_decide (claim ∈ TIER2_CLAIMS) then []
  else match validate_tier3_claim_name claim with
       | Err reason => [InvalidClaimName claim reason]
       | _ => []
       end.

(** [RealmPermissionRegistry::validate]: the empty list is [Ok]. *)
Definition validate (rr : RealmPermissionRegistry) : list RegistryError :=
  let declared : gset Permission := list_to_set ((pd_name <$> rr_permissions rr) ++ SEED_PERMISSIONS) in
  let role_ids : gset RoleId := list_to_set (ro_id <$> rr_roles rr) in
  let has_undeclared_parent := existsb (λ r, existsb (λ p, bool_decide (p ∉ role_ids)) (ro_parent_roles r)) (rr_roles rr) in
  (rr_scopes rr ≫= check_bundle declared)
  ++ ((rr_protected_resources rr ≫= pr_scopes) ≫= check_bundle declared)
  ++ (rr_roles rr ≫= check_role declared role_ids)
  ++ (if has_undeclared_parent then [] else detect_role_cycles (rr_roles rr))
  ++ (match rr_claim_profile rr with Some cp => cp_mapping_claims cp ≫= check_claim | None => [] end).

(** ** What the cycle check finds *)

(** [p] is among the parents of the role the registry holds under [id]. *)
Definition declares_parent (roles : gmap RoleId Role) (id p : RoleId) : Prop :=
  ∃ role, roles !! id = Some role ∧ p ∈ ro_parent_roles role.

Section dfs.
Variable roles : gmap RoleId Role.
Abbreviation parent := (declares_parent roles).

(** Checked roles lie on no cycle, and their parents are checked. *)
Definition checked_ok (c : Check) : Prop :=
  ∀ id, id ∈ ck_checked c → ¬ tc parent id id ∧ ∀ p, parent id p → p ∈ ck_checked c.

Lemma checked_inherits c id p : checked_ok c → id ∈ ck_checked c → rtc parent id p → p ∈ ck_checked c.
Proof. intros Hc Hid Hr. induction Hr as [|id q p Hq Hr IH]; [done|]. apply IH. by eapply Hc. Qed.

(** What a stretch of the search does: errors only accumulate; and when it added
none, it checked every role it was asked about, none of which was on the path. *)
Record checks (in_path ids : list RoleId) (c c' : Check) : Prop := {
  cs_errors : ∃ es, ck_errors c' = ck_errors c ++ es;
  cs_mono : ck_checked c ⊆ ck_checked c';
  cs_clean : ck_errors c' = ck_errors c → checked_ok c → (∀ id, id ∈ in_path → id ∉ ck_checked c) →
    checked_ok c' ∧ (∀ id, id ∈ in_path → id ∉ ck_checked c') ∧ ∀ id, id ∈ ids → id ∈ ck_checked c'
}.

Lemma checks_nil in_path c : checks in_path [] c c.
Proof. split; [exists []; by rewrite app_nil_r|done|]. intros _ Hc Hp. split; [done|]. split; [done|]. set_solver. Qed.

Lemma errors_between {A} (a b c : list A) : (∃ es, b = a ++ es) → (∃ es, c = b ++ es) → c = a → b = a ∧ c = b.
Proof.
intros [e1 ->] [e2 ->] Heq. apply (f_equal length) in Heq as Hl. rewrite !length_app in Hl.
assert (e1 = [] ∧ e2 = []) as [-> ->] by (destruct e1, e2; simpl in Hl; try lia; done). by rewrite !app_nil_r.
Qed.

Lemma checks_app in_path ids1 ids2 c c1 c2 :
  checks in_path ids1 c c1 → checks in_path ids2 c1 c2 → checks in_path (ids1 ++ ids2) c c2.
Proof.
intros H1 H2. split.
- destruct (cs_errors _ _ _ _ H1) as [e1 E1], (cs_errors _ _ _ _ H2) as [e2 E2].
  exists (e1 ++ e2). by rewrite E2, E1, app_assoc.
- pose proof (cs_mono _ _ _ _ H1). pose proof (cs_mono _ _ _ _ H2). set_solver.
- intros He Hc Hp. destruct (errors_between _ _ _ (cs_errors _ _ _ _ H1) (cs_errors _ _ _ _ H2) He) as [He1 He2].
  destruct (cs_clean _ _ _ _ H1 He1 Hc Hp) as (Hc1 & Hp1 & Hd1).
  destruct (cs_clean _ _ _ _ H2 He2 Hc1 Hp1) as (Hc2 & Hp2 & Hd2).
  split; [done|]. split; [done|]. pose proof (cs_mono _ _ _ _ H2). set_solver.
Qed.

Lemma fold_checks {B} (f : Check → B → Check) (key : B → RoleId) in_path l c :
  (∀ b c, b ∈ l → checks in_path [key b] c (f c b)) → checks in_path (key <$> l) c (foldl f c l).
Proof.
revert c. induction l as [|b l IH]; intros c Hf; simpl; [apply checks_nil|].
apply (checks_app in_path [key b] (key <$> l) c (f c b)); [apply Hf; by left|].
apply IH. intros b' c' Hb. apply Hf. by right.
Qed.

Lemma checks_refuse in_path id e c : checks in_path [id] c (push_error e c).
Proof.
split; [by exists [e]|done|]. simpl. intros He. apply (f_equal length) in He. rewrite length_app in He. simpl in He. lia.
Qed.

Lemma dfs_checks fuel in_path id depth c :
  (dfs_fuel <= fuel + depth)%nat → (depth <= MAX_ROLE_PARENT_DEPTH)%nat → checks in_path [id] c (dfs_check fuel roles in_path id depth c).
Proof.
revert in_path id depth c. induction fuel as [|fuel IH]; intros in_path id depth c Hf Hd; [unfold dfs_fuel in Hf; lia|].
cbn [dfs_check]. case_decide as Hch.
{ split; [exists []; by rewrite app_nil_r|done|]. intros _ Hc Hp. split; [done|]. split; [done|]. set_solver. }
case_decide as Hip; [apply checks_refuse|].
destruct (Nat.leb_spec MAX_ROLE_PARENT_DEPTH depth) as [|Hlt]; [apply checks_refuse|].
set (parents := match roles !! id with Some role => ro_parent_roles role | None => [] end).
assert (∀ p, parent id p ↔ p ∈ parents) as Hpar.
{ intros p. unfold declares_parent, parents. destruct (roles !! id) as [role|]; [naive_solver|]. set_solver. }
pose proof (fold_checks (λ c p, dfs_check fuel roles (in_path ++ [id]) p (S depth) c) (λ p, p) (in_path ++ [id]) parents c
  ltac:(intros p c0 _; apply IH; lia)) as Hfold.
rewrite list_fmap_id in Hfold. set (c' := foldl _ c parents) in *. split; simpl.
- apply (cs_errors _ _ _ _ Hfold).
- pose proof (cs_mono _ _ _ _ Hfold). set_solver.
- intros He Hc Hp. destruct (cs_clean _ _ _ _ Hfold He Hc) as (Hc' & Hp' & Hall); [set_solver|].
  split; [|split; [set_solver|set_solver]].
  intros u [->%elem_of_singleton|Hu]%elem_of_union; simpl.
  + split; [|intros p Hpp%Hpar; set_solver]. intros Hcyc.
    assert (∃ p, parent id p ∧ rtc parent p id) as (p & Hpp & Hr).
    { inversion Hcyc as [? ? Hc1|? p ? Hc1 Ht]; subst; [exists id; split; [done|apply rtc_refl]|].
      exists p. split; [done|]. by apply tc_rtc. }
    apply (Hp' id); [set_solver|]. eapply checked_inherits; [done| |exact Hr]. apply Hall, Hpar, Hpp.
  + destruct (Hc' u Hu) as [Hno Hcl]. split; [done|]. set_solver.
Qed.
End dfs.

Lemma detect_sound roles : detect_role_cycles roles = [] →
  ∀ r, r ∈ roles → ¬ tc (declares_parent (roles_by_id roles)) (ro_id r) (ro_id r).
Proof.
intros He r Hr. unfold detect_role_cycles in He.
pose proof (fold_checks (roles_by_id roles) (λ c r, dfs_check dfs_fuel (roles_by_id roles) [] (ro_id r) O c) ro_id [] roles
  (MkCheck ∅ []) ltac:(intros b c _; apply dfs_checks; unfold dfs_fuel; lia)) as Hf.
destruct (cs_clean _ _ _ _ _ Hf He) as (Hok & _ & Hall);
  [intros id Hid; by apply elem_of_empty in Hid|intros id Hid; by apply elem_of_nil in Hid|].
apply (Hok (ro_id r)). apply Hall. apply list_elem_of_fmap. eauto.
Qed.

(** ** The whole validation *)

Definition declared_permission (rr : RealmPermissionRegistry) (p : Permission) : Prop :=
  p ∈ SEED_PERMISSIONS ∨ ∃ d, d ∈ rr_permissions rr ∧ pd_name d = p.
Definition bundle_valid (rr : RealmPermissionRegistry) (b : ScopeBundle) : Prop :=
  zlen (sb_name b) <= 128 ∧ name_grammar colon (sb_name b) ∧ sb_permissions b ≠ [] ∧
  Forall (declared_permission rr) (sb_permissions b).

Lemma bind_nil_iff {A B} (f : A → list B) l : (l ≫= f) = [] ↔ Forall (λ x, f x = []) l.
Proof.
induction l as [|x l IH]; [done|]. rewrite bind_cons, Forall_cons, <-IH. split; [apply app_nil|].
intros [-> ->]. done.
Qed.

Lemma filter_nil_iff {A} (P : A → Prop) `{!∀ x, Decision (P x)} l : filter P l = [] ↔ Forall (λ x, ¬ P x) l.
Proof.
induction l as [|x l IH]; [done|]. rewrite filter_cons, Forall_cons, <-IH. case_decide; naive_solver.
Qed.

Lemma fmap_nil_iff {A B} (f : A → B) l : f <$> l = [] ↔ l = [].
Proof. by destruct l. Qed.

Lemma elem_of_declared rr p :
  p ∈ (list_to_set ((pd_name <$> rr_permissions rr) ++ SEED_PERMISSIONS) : gset Permission) ↔ declared_permission rr p.
Proof.
rewrite elem_of_list_to_set, elem_of_app, list_elem_of_fmap. unfold declared_permission. naive_solver.
Qed.

Lemma not_undeclared {A} `{Countable A} (l : list A) (X : gset A) : filter (λ p, p ∉ X) l = [] ↔ Forall (λ p, p ∈ X) l.
Proof. rewrite filter_nil_iff. apply Forall_iff. intros x. destruct (decide (x ∈ X)); tauto. Qed.

Lemma validate_names_total s : validate_bundle_name s ≠ Panic.
Proof.
unfold validate_bundle_name. repeat case_match; try done.
generalize (split_on colon s) 0%nat. intros l. induction l as [|seg l IH]; intros i; simpl; [done|].
repeat case_match; done || apply IH.
Qed.

Lemma check_bundle_nil rr b :
  check_bundle (list_to_set ((pd_name <$> rr_permissions rr) ++ SEED_PERMISSIONS)) b = [] ↔ bundle_valid rr b.
Proof.
unfold check_bundle, bundle_valid. rewrite !app_nil, fmap_nil_iff, not_undeclared.
setoid_rewrite elem_of_declared. pose proof (bundle_validate_iff (sb_name b)) as Hv.
pose proof (validate_names_total (sb_name b)) as Hp.
destruct (validate_bundle_name (sb_name b)) as [[]|e|]; [|split|by destruct Hp].
- case_bool_decide; naive_solver.
- by intros [? _].
- intros (? & ? & _). assert (Err e = Ok tt :> outcome NameReason unit); [|done]. by apply Hv.
Qed.

(** A registry that passes validation is well formed: every scope bundle, of the
realm or of a protected resource, has a name of the bundle grammar and grants at
least one permission, all of them declared; every role references declared
permissions and roles of the registry only, and lies on no cycle of the parent
graph; and no claim mapping targets a reserved claim. *)
Theorem registry_validate_sound rr : validate rr = [] →
  (∀ b, b ∈ rr_scopes rr ∨ (∃ r, r ∈ rr_protected_resources rr ∧ b ∈ pr_scopes r) → bundle_valid rr b) ∧
  (∀ r, r ∈ rr_roles rr →
     Forall (declared_permission rr) (ro_permissions r) ∧
     Forall (λ p, ∃ r', r' ∈ rr_roles rr ∧ ro_id r' = p) (ro_parent_roles r) ∧
     ¬ tc (declares_parent (roles_by_id (rr_roles rr))) (ro_id r) (ro_id r)) ∧
  (∀ cp claim, rr_claim_profile rr = Some cp → claim ∈ cp_mapping_claims cp → claim ∉ TIER1_CLAIMS).
Proof.
unfold validate. rewrite !app_nil. intros (Hs & Hpr & Hr & Hcy & Hcl).
apply bind_nil_iff in Hs. apply bind_nil_iff in Hpr. apply bind_nil_iff in Hr.
pose proof (proj1 (Forall_forall _ _) Hs) as Hs'. pose proof (proj1 (Forall_forall _ _) Hpr) as Hpr'.
pose proof (proj1 (Forall_forall _ _) Hr) as Hr'. cbv beta in Hs', Hpr', Hr'. clear Hs Hpr Hr.
assert (∀ r, r ∈ rr_roles rr → Forall (declared_permission rr) (ro_permissions r) ∧
  Forall (λ p, p ∈ (list_to_set (ro_id <$> rr_roles rr) : gset RoleId)) (ro_parent_roles r)) as Hrole.
{ intros r Hin. specialize (Hr' r Hin). unfold check_role in Hr'.
  rewrite app_nil, !fmap_nil_iff, !not_undeclared in Hr'. destruct Hr' as [Hq Hp]. split; [|done].
  eapply Forall_impl; [exact Hq|]. intros p. apply elem_of_declared. }
split; [|split].
- intros b Hb. apply check_bundle_nil. destruct Hb as [Hb|(r & Hr1 & Hr2)]; [by apply Hs'|].
  apply Hpr', list_elem_of_bind. eauto.
- intros r Hin. destruct (Hrole r Hin) as [H1 H2]. split; [done|]. split.
  + eapply Forall_impl; [exact H2|]. intros p Hp. apply elem_of_list_to_set, list_elem_of_fmap in Hp. naive_solver.
  + apply detect_sound; [|done]. destruct (existsb _ _) eqn:Hex; [|exact Hcy]. exfalso.
    apply existsb_exists in Hex as (r' & Hex' & (p & Hp & Hno)%existsb_exists). apply list_elem_of_In in Hex', Hp.
    apply bool_decide_eq_true in Hno. destruct (Hrole r' Hex') as [_ H2']. rewrite Forall_forall in H2'. by apply Hno, H2'.
- intros cp claim Hcp Hin Ht. rewrite Hcp, bind_nil_iff, Forall_forall in Hcl. specialize (Hcl _ Hin).
  unfold check_claim in Hcl. by rewrite bool_decide_eq_true_2 in Hcl.
Qed.
End registry.

(** ** At concrete registries *)

Module RegistryDemo.
Definition text : UuidText := λ id, id.
(** Role [n], composed of role [n - 1]. *)
Definition role (n : nat) : Role :=
  MkRole [byte_of (Z.of_nat n)] [x52] (lit "r") None [lit "docs.read"]
    (match n with O => [] | S m => [[byte_of (Z.of_nat m)]] end) RskRealm RoleActive true 0 0.
Definition registry (roles : list Role) : RealmPermissionRegistry :=
  MkRegistry [MkPermissionDefinition (lit "docs.read") [] None None] roles
    [MkScopeBundle (lit "read:docs") [] None [lit "docs.read"; lit "user.read"]] []
    (Some (MkClaimProfile [lit "department"; lit "https://acme.example/x"])).
Definition chain : list Role := role <$> seq 0 12.
(** A graph that holds these roles. *)
Definition resolver (roles : list Role) : Resolver := {|
  parent_groups_of _ _ := Ok [];
  user_assignments _ _ := Ok [];
  group_assignments _ _ := Ok [];
  get_role _ id := Ok (roles_by_id roles !! id);
  get_group_slug _ _ := Ok None;
  scope_permissions _ _ := Ok Missing;
  resource_scope_permissions _ _ _ := Ok Missing;
  user_permissions _ _ := Ok [];
  get_role_id_by_name _ _ := Ok None;
  permission_archived _ _ := Ok false;
  additional_roles _ _ _ := Ok []
|}.
End RegistryDemo.

Lemma registry_validate_sound_witness :
  @validate RegistryDemo.text (RegistryDemo.registry RegistryDemo.chain) = [] ∧
  ¬ tc (declares_parent (roles_by_id RegistryDemo.chain)) (ro_id (RegistryDemo.role 3)) (ro_id (RegistryDemo.role 3)).
Proof.
assert (@validate RegistryDemo.text (RegistryDemo.registry RegistryDemo.chain) = []) as Hv by (vm_compute; reflexivity).
split; [exact Hv|].
destruct (@registry_validate_sound RegistryDemo.text (RegistryDemo.registry RegistryDemo.chain) Hv) as (_ & Hr & _).
apply (Hr (RegistryDemo.role 3)). apply list_elem_of_fmap. exists 3%nat. split; [reflexivity|].
apply elem_of_seq. lia.
Defined.

(** The depth cap of the load-time check depends on the order of declaration: a
chain of twelve roles declared from its root up passes validation, because each
parent is already checked, the same chain declared from its tip down does not,
and resolving the tip at token issuance is refused for depth. *)
Theorem validated_chain_refused_at_issue :
  @validate RegistryDemo.text (RegistryDemo.registry RegistryDemo.chain) = [] ∧
  @validate RegistryDemo.text (RegistryDemo.registry (reverse RegistryDemo.chain)) ≠ [] ∧
  @expand_role RegistryDemo.text (RegistryDemo.resolver RegistryDemo.chain) role_fuel [x52]
    (ro_id (RegistryDemo.role 11)) walk_new 0 = Err (DepthExceeded TraverseRoles 10).
Proof. split; [|split]; vm_compute; [reflexivity|discriminate|reflexivity]. Qed.
