(* ===== verification/RbacKeys.v ===== *)
(** * Role-based access control: storage keys

[rbac/keys.rs]. Every key is a sequence of fields, each followed by a colon, and a
tail; the fields are fixed words, UUIDs, scope keys and hashes, none of which holds
a colon. Which rows a prefix scan visits, and that keys of different records never
collide, follow from comparing fields. *)
From stdpp Require Import base list gmap strings sorting lexico.
From Stdlib Require Import Strings.Byte ZArith Lia.
From S2P Require Import Prelude OrdMap StorageTypes OrdSet RbacTypes.

(** The characters of a hyphenated lowercase UUID. *)
Definition uuid_char (c : byte) : bool := is_ascii_digit c || in_range 97 102 c || bool_decide (c = dash).

(** The text of a UUID is hexadecimal digits and dashes, and parses back; so the
texts of distinct UUIDs are distinct. *)
Class UuidTextLaws `{!UuidText} := {
  uuid_parse : Str → option Uuid;
  uuid_parse_to_string u : uuid_parse (uuid_to_string u) = Some u;
  uuid_text_chars u : Forall (λ c, uuid_char c = true) (uuid_to_string u)
}.

#[export] Instance uuid_to_string_inj `{UuidTextLaws} : Inj (=) (=) uuid_to_string.
Proof.
intros u v Heq. assert (Some u = Some v) as [= ->]; [|done].
by rewrite <-(uuid_parse_to_string u), <-(uuid_parse_to_string v), Heq.
Qed.

Lemma uuid_text_without `{UuidTextLaws} c u : uuid_char c = false → c ∉ uuid_to_string u.
Proof. intros Hc Hin. pose proof (proj1 (Forall_forall _ _) (uuid_text_chars u) c Hin). congruence. Qed.

Lemma uuid_text_no_colon `{UuidTextLaws} u : colon ∉ uuid_to_string u.
Proof. by apply uuid_text_without. Qed.

(** No text of a UUID is a word with another character. *)
Lemma uuid_text_not_word `{UuidTextLaws} u w : existsb (λ c, negb (uuid_char c)) w = true → uuid_to_string u ≠ w.
Proof.
intros (c & Hin & Hc)%existsb_exists <-. apply negb_true_iff in Hc.
by apply (uuid_text_without c u Hc), list_elem_of_In.
Qed.

(** [format!("{f1}:{f2}:...:{tail}")]. *)
Fixpoint key_of (fields : list Str) (tail : Str) : list byte :=
  match fields with
  | [] => tail
  | f :: fs => f ++ colon :: key_of fs tail
  end.

Definition w_rba : Str := Eval compute in lit "rba".
Definition w_role : Str := Eval compute in lit "role".
Definition w_name : Str := Eval compute in lit "name".
Definition w_group : Str := Eval compute in lit "group".
Definition w_slug : Str := Eval compute in lit "slug".
Definition w_assign : Str := Eval compute in lit "assign".
Definition w_user : Str := Eval compute in lit "user".
Definition w_pri : Str := Eval compute in lit "pri".
Definition w_gm : Str := Eval compute in lit "gm".
Definition w_member : Str := Eval compute in lit "member".
Definition w_perm : Str := Eval compute in lit "perm".
Definition w_scope : Str := Eval compute in lit "scope".
Definition w_res_scope : Str := Eval compute in lit "res_scope".
Definition w_user_perm : Str := Eval compute in lit "user_perm".
Definition w_by_perm : Str := Eval compute in lit "by_perm".
Definition w_org_role : Str := Eval compute in lit "org_role".
Definition w_realm_scope : Str := Eval compute in lit "_realm".

Section keys.
Context `{!UuidText}.
Local Abbreviation txt := uuid_to_string.

Definition RBAC_KEY_PREFIX : list byte := key_of [w_rba] [].

Definition encode_role (id : RoleId) := key_of [w_rba; w_role] (txt id).
Definition encode_role_name (realm : RealmId) (name : Str) := key_of [w_rba; w_role; w_name; txt realm] name.
Definition role_name_scan_prefix (realm : RealmId) := key_of [w_rba; w_role; w_name; txt realm] [].

Definition encode_group (id : GroupId) := key_of [w_rba; w_group] (txt id).
Definition encode_group_slug (realm : RealmId) (slug : Str) := key_of [w_rba; w_group; w_slug; txt realm] slug.
Definition group_slug_scan_prefix (realm : RealmId) := key_of [w_rba; w_group; w_slug; txt realm] [].

Definition encode_assignment (id : AssignmentId) := key_of [w_rba; w_assign; w_pri] (txt id).
Definition assignment_scan_prefix := key_of [w_rba; w_assign; w_pri] [].
Definition encode_assign_user (u : UserId) (id : AssignmentId) := key_of [w_rba; w_assign; w_user; txt u] (txt id).
Definition assign_user_scan_prefix (u : UserId) := key_of [w_rba; w_assign; w_user; txt u] [].
Definition encode_assign_group (g : GroupId) (id : AssignmentId) := key_of [w_rba; w_assign; w_group; txt g] (txt id).
Definition assign_group_scan_prefix (g : GroupId) := key_of [w_rba; w_assign; w_group; txt g] [].
Definition encode_assign_role (r : RoleId) (id : AssignmentId) := key_of [w_rba; w_assign; w_role; txt r] (txt id).
Definition assign_role_scan_prefix (r : RoleId) := key_of [w_rba; w_assign; w_role; txt r] [].

(** [member_parts]. *)
Definition member_parts (m : GroupMember) : Str * Str :=
  match m with MUser u => (w_user, txt u) | MGroup g => (w_group, txt g) end.
Definition encode_gm_forward (g : GroupId) (m : GroupMember) :=
  key_of [w_rba; w_gm; w_group; txt g; w_member; (member_parts m).1] (member_parts m).2.
Definition gm_forward_scan_prefix (g : GroupId) := key_of [w_rba; w_gm; w_group; txt g; w_member] [].
Definition gm_forward_realm_scan_prefix := key_of [w_rba; w_gm; w_group] [].
Definition encode_gm_reverse (m : GroupMember) (g : GroupId) :=
  key_of [w_rba; w_gm; w_member; (member_parts m).1; (member_parts m).2; w_group] (txt g).
Definition gm_reverse_scan_prefix (m : GroupMember) :=
  key_of [w_rba; w_gm; w_member; (member_parts m).1; (member_parts m).2; w_group] [].

Definition encode_permission (realm : RealmId) (p : Str) := key_of [w_rba; w_perm; txt realm] p.
Definition permission_scan_prefix (realm : RealmId) := key_of [w_rba; w_perm; txt realm] [].
Definition encode_scope (realm : RealmId) (name : Str) := key_of [w_rba; w_scope; txt realm] name.
Definition scope_scan_prefix (realm : RealmId) := key_of [w_rba; w_scope; txt realm] [].
Definition encode_resource_scope (realm : RealmId) (hash name : Str) := key_of [w_rba; w_res_scope; txt realm; hash] name.
Definition resource_scope_realm_scan_prefix (realm : RealmId) := key_of [w_rba; w_res_scope; txt realm] [].

Definition scope_key (s : Scope) : Str := match s with ScRealm => w_realm_scope | ScOrg o => txt o end.
Definition encode_user_permission (realm : RealmId) (u : UserId) (s : Scope) (p : Str) :=
  key_of [w_rba; w_user_perm; txt realm; txt u; scope_key s] p.
Definition encode_user_permission_by_perm (realm : RealmId) (p : Str) (s : Scope) (u : UserId) :=
  key_of [w_rba; w_user_perm; w_by_perm; txt realm] (p ++ colon :: scope_key s ++ colon :: txt u).
Definition user_permission_realm_scan_prefix (realm : RealmId) := key_of [w_rba; w_user_perm; txt realm] [].
Definition user_permission_scan_prefix (realm : RealmId) (u : UserId) := key_of [w_rba; w_user_perm; txt realm; txt u] [].

Definition encode_org_extra_role (realm : RealmId) (o : OrganizationId) (u : UserId) (name : Str) :=
  key_of [w_rba; w_org_role; txt realm; txt o; txt u] name.
Definition org_extra_role_org_scan_prefix (realm : RealmId) (o : OrganizationId) := key_of [w_rba; w_org_role; txt realm; txt o] [].
Definition org_extra_role_realm_scan_prefix (realm : RealmId) := key_of [w_rba; w_org_role; txt realm] [].
Definition org_extra_role_scan_prefix (realm : RealmId) (o : OrganizationId) (u : UserId) :=
  key_of [w_rba; w_org_role; txt realm; txt o; txt u] [].

(** [prefix_end]. *)
Definition prefix_end (prefix : list byte) : list byte := prefix_scan_end prefix.
End keys.

(** ** Fields *)

(** The fields of a key: what splitting it at colons gives. *)
Definition key_fields (k : list byte) : list Str := split_on colon k.

Lemma fields_key_of fs t : Forall (λ f, colon ∉ f) fs → key_fields (key_of fs t) = fs ++ key_fields t.
Proof.
unfold key_fields. induction 1 as [|f fs Hf Hfs IH]; [done|]. cbn [key_of].
rewrite split_segment by done. cbn [split_on]. rewrite decide_True by done. rewrite IH. by rewrite app_nil_r.
Qed.

Lemma fields_single t : colon ∉ t → key_fields t = [t].
Proof. apply split_one. Qed.

Lemma key_of_app fs fs' t : key_of (fs ++ fs') t = key_of fs (key_of fs' t).
Proof. induction fs as [|f fs IH]; simpl; [done|]. by rewrite IH. Qed.

(** A key starts with the prefix of [fs] exactly when its fields do, with at least
one more. *)
Lemma prefix_fields fs k : Forall (λ f, colon ∉ f) fs →
  key_of fs [] `prefix_of` k ↔ ∃ rest, key_fields k = fs ++ rest ∧ rest ≠ [].
Proof.
intros Hf. assert (∀ t, key_of fs t = key_of fs [] ++ t) as Happ.
{ intros t. clear Hf. induction fs as [|f fs IH]; simpl; [done|]. by rewrite IH, <-app_assoc. }
split.
- intros [t ->]. rewrite <-Happ. exists (key_fields t). rewrite fields_key_of by done. split; [done|apply split_on_ne].
- intros (rest & Hk & Hne). exists (join_with colon rest). rewrite <-Happ.
  rewrite <-(join_split colon k). fold (key_fields k). rewrite Hk. clear Happ Hf Hk.
  induction fs as [|f fs IH]; simpl; [done|]. rewrite <-IH. destruct (fs ++ rest) eqn:E; [|done].
  apply app_nil in E as [_ ->]. done.
Qed.
