(* ===== verification/RbacStore.v ===== *)
(** * Role-based access control: stored rows

The reads and writes of [EmbeddedRbacEngine] ([rbac/engine.rs]) on the rows of one
realm: the storage engine's ordered map, the JSON rows it holds, the loads and
scans that make the engine a [Resolver], and the write helpers that invalidate the
resolution cache. *)
From stdpp Require Import base list gmap strings sorting lexico.
From Stdlib Require Import Strings.Byte ZArith Lia.
From S2P Require Import Prelude OrdMap StorageTypes OrdSet RealmRows RbacTypes RbacResolve RbacKeys.

Open Scope Z_scope.

(** ** Prefix scans *)

(** [scan(&prefix, &prefix_end(&prefix))]. *)
Definition scan_prefix (p : list byte) (s : Store) : list ScanEntry := scan p (prefix_end p) s.

(** ** JSON

[serde_json] over the derived [Serialize] and [Deserialize]; serialising these
types does not fail, and a row reads back as the value it was written from. *)

(** A scope mapping at rest ([seed.rs]). *)
Record StoredScope := MkStoredScope { ss_name : Str; ss_permissions : option (list Permission) }.

Class Json := {
  ser_role : Role → list byte; de_role : list byte → option Role;
  ser_group : Group → list byte; de_group : list byte → option Group;
  ser_id : Uuid → list byte; de_id : list byte → option Uuid;
  ser_member : GroupMember → list byte; de_member : list byte → option GroupMember;
  ser_assignment : RoleAssignment → list byte; de_assignment : list byte → option RoleAssignment;
  ser_grant : UserPermissionGrant → list byte; de_grant : list byte → option UserPermissionGrant;
  ser_text : Str → list byte; de_text : list byte → option Str;
  ser_scope : StoredScope → list byte; de_scope : list byte → option StoredScope;
  ser_permission : PermissionRecord → list byte; de_permission : list byte → option PermissionRecord
}.

Class JsonLaws `{!Json} := {
  de_ser_role r : de_role (ser_role r) = Some r;
  de_ser_group g : de_group (ser_group g) = Some g;
  de_ser_id i : de_id (ser_id i) = Some i;
  de_ser_member m : de_member (ser_member m) = Some m;
  de_ser_assignment a : de_assignment (ser_assignment a) = Some a;
  de_ser_grant g : de_grant (ser_grant g) = Some g;
  de_ser_text t : de_text (ser_text t) = Some t;
  de_ser_scope c : de_scope (ser_scope c) = Some c;
  de_ser_permission p : de_permission (ser_permission p) = Some p
}.

(** [Uri::storage_hash], of the [sha2] and [hex] crates. *)
Class UriHash := uri_hash : Uri → Str.

(** [Self::de(..)?]. *)
Definition de_or {A} (o : option A) : rres A := ok_or Serialization o.

Section store.
Context `{!UuidText, !Json, !UriHash}.
Variable realm : RealmId.
Implicit Type s : Store.

(** A row that decodes to a value of this realm, or no row. *)
Definition load {A} (de : list byte → option A) (realm_of : A → RealmId) (k : list byte) s : rres (option A) :=
  match s !! k with
  | Some bytes => a ← de_or (de bytes); Ok (if decide (realm_of a = realm) then Some a else None)
  | None => Ok None
  end.

Definition load_role s (id : RoleId) : rres (option Role) := load de_role ro_realm_id (encode_role id) s.
Definition load_group s (id : GroupId) : rres (option Group) := load de_group gr_realm_id (encode_group id) s.
Definition load_assignment s (id : AssignmentId) : rres (option RoleAssignment) :=
  load de_assignment ra_realm_id (encode_assignment id) s.

Definition load_id (k : list byte) s : rres (option Uuid) :=
  match s !! k with Some bytes => i ← de_or (de_id bytes); Ok (Some i) | None => Ok None end.
Definition load_role_id_by_name s (name : Str) : rres (option RoleId) := load_id (encode_role_name realm name) s.
Definition load_group_id_by_slug s (slug : Str) : rres (option GroupId) := load_id (encode_group_slug realm slug) s.

Definition get_role_by_name s (name : Str) : rres (option Role) :=
  id ← load_role_id_by_name s name;
  match id with Some id => load_role s id | None => Ok None end.

(** The values of a scan, decoded; the first that does not decode fails it. *)
Definition scan_values {A} (de : list byte → option A) (p : list byte) s : rres (list A) :=
  fold_res (λ acc e, a ← de_or (de (se_value e)); Ok (acc ++ [a])) [] (scan_prefix p s).
(** The same, skipping the rows that do not decode. *)
Definition scan_decodable {A} (de : list byte → option A) (p : list byte) s : list A :=
  omap (λ e, de (se_value e)) (scan_prefix p s).

Definition scan_assignments_by_prefix s (p : list byte) : rres (list RoleAssignment) :=
  fold_res (λ acc e,
    aid ← de_or (de_id (se_value e));
    a ← load_assignment s aid;
    Ok (match a with Some a => acc ++ [a] | None => acc end)) [] (scan_prefix p s).

Definition list_user_assignments s (u : UserId) := scan_assignments_by_prefix s (assign_user_scan_prefix u).
Definition list_group_assignments s (g : GroupId) := scan_assignments_by_prefix s (assign_group_scan_prefix g).
Definition subject_assignments s (sub : Subject) : rres (list RoleAssignment) :=
  match sub with SUser u => list_user_assignments s u | SGroup g => list_group_assignments s g end.

Definition load_user_permissions s (u : UserId) : rres (list UserPermissionGrant) :=
  scan_values de_grant (user_permission_scan_prefix realm u) s.
Definition list_additional_roles s (o : OrganizationId) (u : UserId) : rres (list Str) :=
  scan_values de_text (org_extra_role_scan_prefix realm o u) s.

Definition scope_lookup (stored : StoredScope) : ScopeLookup :=
  match ss_permissions stored with None => NoNarrowing | Some l => Bundle l end.
Definition load_scope (k : list byte) s : rres ScopeLookup :=
  match s !! k with
  | None => Ok Missing
  | Some bytes => stored ← de_or (de_scope bytes); Ok (scope_lookup stored)
  end.

Definition load_permission_archived s (p : Permission) : rres bool :=
  match s !! encode_permission realm p with
  | None => Ok false
  | Some raw => record ← de_or (de_permission raw); Ok (bool_decide (pr_status record = PermArchived))
  end.

Definition load_parent_groups s (m : GroupMember) : rres (list GroupId) := scan_values de_id (gm_reverse_scan_prefix m) s.

Definition load_group_slug s (g : GroupId) : rres (option Str) :=
  gr ← load_group s g; Ok (match gr with Some gr => Some (gr_slug gr) | None => None end).

(** [impl Resolver for EmbeddedRbacEngine]: the stored graph of the realm. Every
caller passes the realm of the rows. *)
Definition store_resolver s : Resolver := {|
  parent_groups_of _ m := load_parent_groups s m;
  user_assignments _ u := list_user_assignments s u;
  group_assignments _ g := list_group_assignments s g;
  get_role _ id := load_role s id;
  get_group_slug _ g := load_group_slug s g;
  scope_permissions _ name := load_scope (encode_scope realm name) s;
  resource_scope_permissions _ uri name := load_scope (encode_resource_scope realm (uri_hash uri) name) s;
  user_permissions _ u := load_user_permissions s u;
  get_role_id_by_name _ name := load_role_id_by_name s name;
  permission_archived _ p := load_permission_archived s p;
  additional_roles _ o u := list_additional_roles s o u
|}.
End store.

(** ** Effects *)

(** What the engine does besides returning, in order: a row written or deleted, the
realm's graph version bumped, a user's session version bumped. *)
Inductive Event := EvWrite (key : list byte) | EvInvalidate | EvSessionBump (u : UserId).

Record EngState := MkEng {
  es_store : Store;
  es_events : list Event;
  es_ids : nat;
  es_ticks : nat
}.

(** A method: an error leaves the writes made before it. *)
Definition eng (A : Type) : Type := EngState → rres A * EngState.

#[export] Instance eng_ret : MRet eng := λ A a st, (Ok a, st).
#[export] Instance eng_bind : MBind eng := λ A B f m st,
  match m st with
  | (Ok a, st') => f a st'
  | (Err e, st') => (Err e, st')
  | (Panic, st') => (Panic, st')
  end.

Definition fail {A} (e : RbacError) : eng A := λ st, (Err e, st).
(** A read of the current rows. *)
Definition reading {A} (f : Store → rres A) : eng A := λ st, (f (es_store st), st).
(** A step that cannot fail, on the rows and the event log. *)
Definition effect (f : Store → Store) (evs : list Event) : eng unit := λ st,
  (Ok tt, MkEng (f (es_store st)) (es_events st ++ evs) (es_ids st) (es_ticks st)).
Definition guard_ok {A} (o : outcome RbacError A) : eng A := λ st, (o, st).

Fixpoint for_each {A} (l : list A) (f : A → eng unit) : eng unit :=
  match l with
  | [] => mret ()
  | a :: l' => _ ← f a; for_each l' f
  end.

(** [storage.delete], and the four write helpers: the write, then
[invalidate_realm]. *)
Definition raw_delete (k : list byte) : eng unit := effect (base.delete k) [EvWrite k].
Definition write_put (k v : list byte) : eng unit := effect <[k := v]> [EvWrite k; EvInvalidate].
Definition write_put_batch (kvs : list (list byte * list byte)) : eng unit :=
  effect (put_all kvs) ((EvWrite <$> kvs.*1) ++ [EvInvalidate]).
Definition write_batch (puts : list (list byte * list byte)) (deletes : list (list byte)) : eng unit :=
  effect (λ s, delete_all deletes (put_all puts s)) ((EvWrite <$> puts.*1) ++ (EvWrite <$> deletes) ++ [EvInvalidate]).
Definition write_delete (k : list byte) : eng unit := effect (base.delete k) [EvWrite k; EvInvalidate].

Section effects.
Context (ids : nat → Uuid) (clock : nat → Timestamp).
(** [RoleId::generate()] and its like: the next random identifier. *)
Definition generate : eng Uuid := λ st,
  (Ok (ids (es_ids st)), MkEng (es_store st) (es_events st) (S (es_ids st)) (es_ticks st)).
(** [clock.now()]. *)
Definition now : eng Timestamp := λ st,
  (Ok (clock (es_ticks st)), MkEng (es_store st) (es_events st) (es_ids st) (S (es_ticks st))).
End effects.

Section bumps.
Context `{!UuidText, !Json}.
Definition bump_sv_for_user (u : UserId) : eng unit := effect id [EvSessionBump u].
(** The direct user members of the group; rows that do not decode are skipped. *)
Definition bump_sv_for_group_members (g : GroupId) : eng unit :=
  members ← reading (λ s, Ok (scan_decodable de_member (gm_forward_scan_prefix g) s));
  for_each members (λ m, match m with MUser u => bump_sv_for_user u | MGroup _ => mret () end).
Definition bump_sv_for_subject (sub : Subject) : eng unit :=
  match sub with SUser u => bump_sv_for_user u | SGroup g => bump_sv_for_group_members g end.
Definition bump_sv_for_member (m : GroupMember) : eng unit :=
  match m with MUser u => bump_sv_for_user u | MGroup g => bump_sv_for_group_members g end.
End bumps.
