(* ===== verification/RbacEngine.v ===== *)
(** * Role-based access control: the engine's operations

[impl RbacEngine for EmbeddedRbacEngine] ([rbac/engine.rs]): roles, groups,
memberships, assignments, direct grants, extra organization roles, cascades,
listings, and the write-time cycle checks. *)
From stdpp Require Import base list gmap strings sorting lexico.
From Stdlib Require Import Strings.Byte ZArith Lia.
From S2P Require Import Prelude OrdMap StorageTypes OrdSet RbacTypes RbacResolve RealmRows RbacKeys RbacStore.

Open Scope Z_scope.

(** ** Requests and results *)

Record CreateRoleRequest := MkCreateRole {
  cr_name : Str;
  cr_description : option Str;
  cr_permissions : list Permission;
  cr_parent_roles : list RoleId;
  cr_scope_kind : RoleScopeKind;
  cr_allow_reserved_permissions : bool
}.
Record UpdateRoleRequest := MkUpdateRole {
  ur_name : option Str;
  ur_description : option (option Str);
  ur_permissions : option (list Permission);
  ur_parent_roles : option (list RoleId);
  ur_scope_kind : option RoleScopeKind;
  ur_status : option RoleStatus;
  ur_allow_reserved_permissions : bool
}.
Record CreateGroupRequest := MkCreateGroup { cg_name : Str; cg_slug : Str; cg_description : option Str }.
Record UpdateGroupRequest := MkUpdateGroup {
  ug_name : option Str;
  ug_slug : option Str;
  ug_description : option (option Str)
}.
Record AssignRoleRequest := MkAssignRole {
  ar_subject : Subject;
  ar_role_id : RoleId;
  ar_scope : Scope;
  ar_assigned_by : option UserId
}.
Record GroupMembership := MkGroupMembership {
  gm_group_id : GroupId;
  gm_member : GroupMember;
  gm_added_at : Timestamp;
  gm_added_by : option UserId
}.
Inductive RoleSubject := RsUser (u : UserId) | RsGroup (g : GroupId).
Record Page (A : Type) := MkPage { pg_items : list A; pg_next_cursor : option Str }.
Arguments MkPage {A}.
Arguments pg_items {A}.
Arguments pg_next_cursor {A}.

(** ** Field validation *)

Definition role_name_char (c : byte) : bool := segment_char c || bool_decide (c = dot).
Definition validate_role_name (name : Str) : rres unit :=
  if bool_decide (name = []) then Err (InvalidRoleName EmptyName)
  else if 128 <? zlen name then Err (InvalidRoleName TooLong)
  else if forallb role_name_char name then Ok tt else Err (InvalidRoleName (BadChar 0)).

Definition slug_char (c : byte) : bool :=
  is_ascii_lowercase c || is_ascii_digit c || bool_decide (c = dash) || bool_decide (c = underscore).
Definition validate_group_slug (slug : Str) : rres unit :=
  if bool_decide (slug = []) then Err (InvalidGroupSlug EmptyName)
  else if 128 <? zlen slug then Err (InvalidGroupSlug TooLong)
  else if forallb slug_char slug then Ok tt else Err (InvalidGroupSlug (BadChar 0)).

(** The first reserved permission refuses the list. *)
Fixpoint validate_permissions_for_operator (perms : list Permission) : rres unit :=
  match perms with
  | [] => Ok tt
  | p :: ps => if is_reserved p then Err (ReservedNamespace p) else validate_permissions_for_operator ps
  end.

Definition refuse_yaml_managed_role (role : Role) : rres unit :=
  if ro_yaml_managed role && negb (bool_decide (ro_status role = RoleArchivedSt))
  then Err (YamlManaged "role") else Ok tt.
Definition refuse_yaml_managed_group (group : Group) : rres unit :=
  if gr_yaml_managed group then Err (YamlManaged "group") else Ok tt.

Section engine.
Context `{!UuidText, !UuidTextLaws, !Json, !UriHash} (ids : nat → Uuid) (clock : nat → Timestamp).
Variable realm : RealmId.
Implicit Type s : Store.

(** ** Write-time cycle checks *)

(** [walk_role_parents]; the depth cap bounds the recursion. *)
Fixpoint walk_role_parents (fuel : nat) s (start current : RoleId) (visited : gset RoleId) (depth : nat)
    : rres (gset RoleId) :=
  match fuel with
  | O => Panic
  | S fuel =>
      if (MAX_ROLE_DEPTH <? depth)%nat then Err (DepthExceeded TraverseRoles MAX_ROLE_DEPTH)
      else if decide (current ∈ visited) then Ok visited
      else
        let visited := {[current]} ∪ visited in
        found ← load_role realm s current;
        match found with
        | None => Ok visited
        | Some role =>
            fold_res (λ visited parent,
              if decide (parent = start) then Err (CycleDetected CycleRoles (uuid_to_string start))
              else walk_role_parents fuel s start parent visited (S depth)) visited (ro_parent_roles role)
        end
  end.

Definition check_role_parents_no_cycle s (start : RoleId) (parents : list RoleId) : rres unit :=
  _ ← fold_res (λ visited p,
        if decide (p = start) then Err (CycleDetected CycleRoles (uuid_to_string start))
        else walk_role_parents (S MAX_ROLE_DEPTH) s start p visited 1) ∅ parents;
  Ok tt.

(** The group members of [g], in scan order, up to the one that closes a cycle. *)
Definition push_children s (target g : GroupId) (depth : nat) : rres (list (GroupId * nat)) :=
  fold_res (λ acc e,
    m ← de_or (de_member (se_value e));
    match m with
    | MGroup child =>
        if decide (child = target) then Err (CycleDetected CycleGroups (uuid_to_string target))
        else Ok ((child, S depth) :: acc)
    | MUser _ => Ok acc
    end) [] (scan_prefix (gm_forward_scan_prefix g) s).

(** The loop of [check_group_no_cycle]; the head of [stack] is its top. [None] is
exhausted fuel. *)
Fixpoint group_cycle_loop (fuel : nat) s (target : GroupId) (visited : gset GroupId) (stack : list (GroupId * nat))
    : option (rres unit) :=
  match fuel with
  | O => None
  | S fuel =>
      match stack with
      | [] => Some (Ok tt)
      | (cur, depth) :: stack =>
          if (MAX_GROUP_DEPTH <? depth)%nat then Some (Err (DepthExceeded TraverseGroups MAX_GROUP_DEPTH))
          else if decide (cur ∈ visited) then group_cycle_loop fuel s target visited stack
          else match push_children s target cur depth with
               | Ok children => group_cycle_loop fuel s target ({[cur]} ∪ visited) (children ++ stack)
               | Err e => Some (Err e)
               | Panic => Some Panic
               end
      end
  end.

(** Each forward row is pushed at most once, and the first member is pushed too. *)
Definition group_cycle_fuel s : nat := S (S (size s)).

Definition check_group_no_cycle s (target : GroupId) (m : GroupMember) : rres unit :=
  match m with
  | MUser _ => Ok tt
  | MGroup g =>
      if decide (g = target) then Err (CycleDetected CycleGroups (uuid_to_string target))
      else default Panic (group_cycle_loop (group_cycle_fuel s) s target ∅ [(g, O)])
  end.

(** ** Roles *)

(** [RoleNotFound] unless every listed parent exists. *)
Definition parents_exist s (parents : list RoleId) : rres unit :=
  fold_res (λ _ p, found ← load_role realm s p; match found with Some _ => Ok tt | None => Err RoleNotFound end) tt parents.

Definition create_role (req : CreateRoleRequest) : eng Role :=
  _ ← guard_ok (validate_role_name (cr_name req));
  _ ← guard_ok (if cr_allow_reserved_permissions req then Ok tt else validate_permissions_for_operator (cr_permissions req));
  existing ← reading (λ s, load_role_id_by_name realm s (cr_name req));
  match existing with
  | Some _ => fail DuplicateRoleName
  | None =>
      _ ← reading (λ s, parents_exist s (cr_parent_roles req));
      at_ ← now clock;
      id ← generate ids;
      let role := MkRole id realm (cr_name req) (cr_description req) (cr_permissions req) (cr_parent_roles req)
                    (cr_scope_kind req) RoleActive false at_ at_ in
      _ ← reading (λ s, check_role_parents_no_cycle s id (ro_parent_roles role));
      _ ← write_put_batch [(encode_role id, ser_role role); (encode_role_name realm (ro_name role), ser_id id)];
      mret role
  end.

(** The new name, when it is one, after its checks: the old and new index keys. *)
Definition update_role_name (role : Role) (name : option Str) : eng (Role * option (list byte * list byte)) :=
  match name with
  | None => mret (role, None)
  | Some new_name =>
      _ ← guard_ok (validate_role_name new_name);
      if decide (new_name = ro_name role) then mret (role, None)
      else
        existing ← reading (λ s, load_role_id_by_name realm s new_name);
        match existing with
        | Some _ => fail DuplicateRoleName
        | None =>
            mret (MkRole (ro_id role) (ro_realm_id role) new_name (ro_description role) (ro_permissions role)
                    (ro_parent_roles role) (ro_scope_kind role) (ro_status role) (ro_yaml_managed role)
                    (ro_created_at role) (ro_updated_at role),
                  Some (encode_role_name realm (ro_name role), encode_role_name realm new_name))
        end
  end.

Definition update_role (role_id : RoleId) (req : UpdateRoleRequest) : eng Role :=
  found ← reading (λ s, load_role realm s role_id);
  match found with
  | None => fail RoleNotFound
  | Some role0 =>
      _ ← guard_ok (refuse_yaml_managed_role role0);
      renamed ← update_role_name role0 (ur_name req);
      let role := renamed.1 in
      permissions ← match ur_permissions req with
                    | None => mret (ro_permissions role)
                    | Some perms =>
                        _ ← guard_ok (if ur_allow_reserved_permissions req then Ok tt
                                      else validate_permissions_for_operator perms);
                        mret perms
                    end;
      parents ← match ur_parent_roles req with
                | None => mret (ro_parent_roles role)
                | Some parents =>
                    _ ← reading (λ s, parents_exist s parents);
                    _ ← reading (λ s, check_role_parents_no_cycle s role_id parents);
                    mret parents
                end;
      at_ ← now clock;
      let role' := MkRole (ro_id role) (ro_realm_id role) (ro_name role) (default (ro_description role) (ur_description req))
                     permissions parents (default (ro_scope_kind role) (ur_scope_kind req))
                     (default (ro_status role) (ur_status req)) (ro_yaml_managed role) (ro_created_at role) at_ in
      _ ← write_put_batch ((encode_role (ro_id role'), ser_role role')
                             :: match renamed.2 with Some (_, new) => [(new, ser_id (ro_id role'))] | None => [] end);
      _ ← match renamed.2 with Some (old, _) => write_delete old | None => mret () end;
      mret role'
  end.

(** *** Extra organization roles by key *)

(** [str.splitn(n, ':')]: at most [n] parts, the last holding the rest. *)
Fixpoint splitn (n : nat) (t : Str) : list Str :=
  match n with
  | O => []
  | S O => [t]
  | S n' => match split_on colon t with
            | [] => []
            | [part] => [part]
            | part :: rest => part :: splitn n' (join_with colon rest)
            end
  end.

Definition strip_prefix (p k : list byte) : option (list byte) :=
  if bool_decide (p `prefix_of` k) then Some (drop (length p) k) else None.
Definition ORG_ROLE_PREFIX : list byte := key_of [w_rba; w_org_role] [].

(** [org_role_key_holder] and [org_role_key_names_user], on keys whose text is
valid UTF-8, as every key of this engine is. *)
Definition org_role_key_holder (k : list byte) (role_name : Str) : option UserId :=
  rest ← strip_prefix ORG_ROLE_PREFIX k;
  match splitn 4 rest with
  | [_; _; user; role] => if decide (role = role_name) then uuid_parse user else None
  | _ => None
  end.
Definition org_role_key_names_user (k : list byte) (u : UserId) : bool :=
  match strip_prefix ORG_ROLE_PREFIX k with
  | Some rest => bool_decide (splitn 4 rest !! 2%nat = Some (uuid_to_string u))
  | None => false
  end.

Definition purge_org_role_rows (p : list byte) (only_user : option UserId) : eng nat :=
  entries ← reading (λ s, Ok (scan_prefix p s));
  let doomed := filter (λ k, match only_user with
                             | Some u => org_role_key_names_user k u
                             | None => true
                             end = true) (se_key <$> entries) in
  _ ← for_each doomed write_delete;
  mret (length doomed).

(** [role_references]: assignments, child roles, extra-role rows. *)
Record RoleReferences := MkRoleReferences {
  rf_assignments : list (list byte * option RoleAssignment * AssignmentId);
  rf_children : list Role;
  rf_org_rows : list (list byte)
}.

Definition role_references s (role : Role) : rres RoleReferences :=
  assignments ← fold_res (λ acc e,
    aid ← de_or (de_id (se_value e));
    a ← load_assignment realm s aid;
    Ok (acc ++ [(se_key e, a, aid)])) [] (scan_prefix (assign_role_scan_prefix (ro_id role)) s);
  children ← fold_res (λ acc e,
    id ← de_or (de_id (se_value e));
    r ← load_role realm s id;
    Ok (match r with
        | Some r => if decide (ro_id role ∈ ro_parent_roles r) then acc ++ [r] else acc
        | None => acc
        end)) [] (scan_prefix (role_name_scan_prefix realm) s);
  let org_rows := filter (λ k, is_Some (org_role_key_holder k (ro_name role)))
                    (se_key <$> scan_prefix (org_extra_role_realm_scan_prefix realm) s) in
  Ok (MkRoleReferences assignments children org_rows).

Definition subject_index (sub : Subject) (aid : AssignmentId) : list byte :=
  match sub with SUser u => encode_assign_user u aid | SGroup g => encode_assign_group g aid end.

Definition delete_role (role_id : RoleId) (cascade : bool) : eng unit :=
  found ← reading (λ s, load_role realm s role_id);
  match found with
  | None => fail RoleNotFound
  | Some role =>
      _ ← guard_ok (refuse_yaml_managed_role role);
      refs ← reading (λ s, role_references s role);
      if negb cascade && negb (bool_decide (rf_assignments refs = []) && bool_decide (rf_children refs = [])
                               && bool_decide (rf_org_rows refs = []))
      then fail (RoleInUse (length (rf_assignments refs)) (length (rf_children refs)) (length (rf_org_rows refs)))
      else
        at_ ← now clock;
        let puts := (λ child,
          (encode_role (ro_id child),
           ser_role (MkRole (ro_id child) (ro_realm_id child) (ro_name child) (ro_description child) (ro_permissions child)
                       (filter (λ p, p ≠ role_id) (ro_parent_roles child)) (ro_scope_kind child) (ro_status child)
                       (ro_yaml_managed child) (ro_created_at child) at_))) <$> rf_children refs in
        let deletes := rf_org_rows refs
          ++ (rf_assignments refs ≫= λ '(role_idx, a, aid),
                [role_idx; encode_assignment aid]
                ++ match a with Some a => [subject_index (ra_subject a) aid] | None => [] end)
          ++ [encode_role role_id; encode_role_name realm (ro_name role)] in
        _ ← write_batch puts deletes;
        for_each (omap (λ '(_, a, _), ra_subject <$> a) (rf_assignments refs)) bump_sv_for_subject
  end.

(** The page of a name-ordered scan: the items before the limit, and the key suffix
of the first entry past it. [String::from_utf8_lossy] is the identity on the
suffixes this engine writes. *)
Fixpoint page_entries {A} (limit : nat) (plen : nat) (one : ScanEntry → rres (option A)) (entries : list ScanEntry)
    (items : list A) : rres (Page A) :=
  match entries with
  | [] => Ok (MkPage items None)
  | e :: entries' =>
      if decide (limit <= length items)%nat then Ok (MkPage items (Some (drop plen (se_key e))))
      else r ← one e; page_entries limit plen one entries' (match r with Some x => items ++ [x] | None => items end)
  end.

Definition page_start (prefix : list byte) (cursor : option Str) : list byte :=
  match cursor with Some c => prefix ++ c ++ [x00] | None => prefix end.

Definition list_roles s (cursor : option Str) (limit : nat) : rres (Page Role) :=
  let prefix := role_name_scan_prefix realm in
  page_entries limit (length prefix) (λ e, id ← de_or (de_id (se_value e)); load_role realm s id)
    (scan (page_start prefix cursor) (prefix_end prefix) s) [].

Definition list_role_members s (role_id : RoleId) (cursor : option Str) (limit : nat) : rres (Page RoleSubject) :=
  let prefix := assign_role_scan_prefix role_id in
  page_entries limit (length prefix) (λ e,
    aid ← de_or (de_id (se_value e));
    a ← load_assignment realm s aid;
    Ok (match a with
        | Some a => Some (match ra_subject a with SUser u => RsUser u | SGroup g => RsGroup g end)
        | None => None
        end)) (scan (page_start prefix cursor) (prefix_end prefix) s) [].

(** ** Groups *)

Definition create_group (req : CreateGroupRequest) : eng Group :=
  _ ← guard_ok (validate_group_slug (cg_slug req));
  if bool_decide (cg_name req = []) then fail (InvalidGroupSlug EmptyName)
  else
    existing ← reading (λ s, load_group_id_by_slug realm s (cg_slug req));
    match existing with
    | Some _ => fail DuplicateGroupSlug
    | None =>
        at_ ← now clock;
        id ← generate ids;
        let group := MkGroup id realm (cg_name req) (cg_slug req) (cg_description req) at_ at_ false in
        _ ← write_put_batch [(encode_group id, ser_group group); (encode_group_slug realm (gr_slug group), ser_id id)];
        mret group
    end.

Definition update_group (group_id : GroupId) (req : UpdateGroupRequest) : eng Group :=
  found ← reading (λ s, load_group realm s group_id);
  match found with
  | None => fail GroupNotFound
  | Some group =>
      _ ← guard_ok (refuse_yaml_managed_group group);
      reslug ← match ug_slug req with
               | None => mret None
               | Some new_slug =>
                   _ ← guard_ok (validate_group_slug new_slug);
                   if decide (new_slug = gr_slug group) then mret None
                   else
                     existing ← reading (λ s, load_group_id_by_slug realm s new_slug);
                     match existing with Some _ => fail DuplicateGroupSlug | None => mret (Some new_slug) end
               end;
      at_ ← now clock;
      let group' := MkGroup (gr_id group) (gr_realm_id group) (default (gr_name group) (ug_name req))
                      (default (gr_slug group) reslug) (default (gr_description group) (ug_description req))
                      (gr_created_at group) at_ (gr_yaml_managed group) in
      _ ← write_put_batch ((encode_group (gr_id group'), ser_group group')
             :: match reslug with Some new => [(encode_group_slug realm new, ser_id (gr_id group'))] | None => [] end);
      _ ← match reslug with Some _ => write_delete (encode_group_slug realm (gr_slug group)) | None => mret () end;
      mret group'
  end.

(** An assignment's primary row and its by-role index, when the primary loads. *)
Definition drop_assignment_rows (aid : AssignmentId) : eng unit :=
  found ← reading (λ s, load_assignment realm s aid);
  match found with
  | Some a =>
      _ ← raw_delete (encode_assignment aid);
      raw_delete (encode_assign_role (ra_role_id a) aid)
  | None => mret ()
  end.

Definition delete_group (group_id : GroupId) : eng unit :=
  found ← reading (λ s, load_group realm s group_id);
  match found with
  | None => fail GroupNotFound
  | Some group =>
      _ ← guard_ok (refuse_yaml_managed_group group);
      fwd ← reading (λ s, Ok (scan_prefix (gm_forward_scan_prefix group_id) s));
      _ ← for_each fwd (λ e,
            member ← guard_ok (de_or (de_member (se_value e)));
            _ ← write_delete (se_key e);
            raw_delete (encode_gm_reverse member group_id));
      rev ← reading (λ s, Ok (scan_prefix (gm_reverse_scan_prefix (MGroup group_id)) s));
      _ ← for_each rev (λ e,
            parent ← guard_ok (de_or (de_id (se_value e)));
            _ ← write_delete (se_key e);
            write_delete (encode_gm_forward parent (MGroup group_id)));
      asgn ← reading (λ s, Ok (scan_prefix (assign_group_scan_prefix group_id) s));
      _ ← for_each asgn (λ e,
            aid ← guard_ok (de_or (de_id (se_value e)));
            _ ← drop_assignment_rows aid;
            write_delete (se_key e));
      _ ← raw_delete (encode_group group_id);
      raw_delete (encode_group_slug realm (gr_slug group))
  end.

Definition list_groups s (offset limit : nat) : rres (list Group * nat) :=
  let all := scan_prefix (group_slug_scan_prefix realm) s in
  let start := Nat.min offset (length all) in
  let end_idx := Nat.min (start + limit) (length all) in
  items ← fold_res (λ acc e,
    gid ← de_or (de_id (se_value e));
    g ← load_group realm s gid;
    Ok (match g with Some g => acc ++ [g] | None => acc end)) [] (take (end_idx - start) (drop start all));
  Ok (items, length all).

Definition member_exists s (m : GroupMember) : rres unit :=
  match m with
  | MUser _ => Ok tt
  | MGroup g => found ← load_group realm s g; match found with Some _ => Ok tt | None => Err GroupNotFound end
  end.

Definition add_group_member (group_id : GroupId) (m : GroupMember) : eng GroupMembership :=
  _ ← reading (λ s, found ← load_group realm s group_id; match found with Some _ => Ok tt | None => Err GroupNotFound end);
  _ ← reading (λ s, member_exists s m);
  _ ← reading (λ s, check_group_no_cycle s group_id m);
  at_ ← now clock;
  _ ← write_put_batch [(encode_gm_forward group_id m, ser_member m); (encode_gm_reverse m group_id, ser_id group_id)];
  _ ← bump_sv_for_member m;
  mret (MkGroupMembership group_id m at_ None).

Definition remove_group_member (group_id : GroupId) (m : GroupMember) : eng unit :=
  _ ← write_delete (encode_gm_forward group_id m);
  _ ← write_delete (encode_gm_reverse m group_id);
  bump_sv_for_member m.

Definition list_group_members s (group_id : GroupId) (limit : nat) : rres (list GroupMember) :=
  fold_res (λ acc e, m ← de_or (de_member (se_value e)); Ok (acc ++ [m])) []
    (take limit (scan_prefix (gm_forward_scan_prefix group_id) s)).

(** ** Assignments *)

Definition subject_exists s (sub : Subject) : rres unit :=
  match sub with
  | SUser _ => Ok tt
  | SGroup g => found ← load_group realm s g; match found with Some _ => Ok tt | None => Err GroupNotFound end
  end.

Definition assign_role (req : AssignRoleRequest) : eng RoleAssignment :=
  found ← reading (λ s, load_role realm s (ar_role_id req));
  match found with
  | None => fail RoleNotFound
  | Some role =>
      if decide (ro_status role = RoleActive) then
        _ ← reading (λ s, subject_exists s (ar_subject req));
        all ← reading (λ s, subject_assignments realm s (ar_subject req));
        match list_find (λ a, ra_role_id a = ar_role_id req ∧ ra_scope a = ar_scope req) all with
        | Some (_, existing) => mret existing
        | None =>
            at_ ← now clock;
            id ← generate ids;
            let a := MkRoleAssignment id realm (ar_subject req) (ar_role_id req) (ar_scope req) at_ (ar_assigned_by req) in
            _ ← write_put_batch [(encode_assignment id, ser_assignment a); (subject_index (ra_subject a) id, ser_id id);
                                 (encode_assign_role (ra_role_id a) id, ser_id id)];
            _ ← bump_sv_for_subject (ra_subject a);
            mret a
        end
      else fail RoleArchived
  end.

Definition unassign_role (aid : AssignmentId) : eng unit :=
  found ← reading (λ s, load_assignment realm s aid);
  match found with
  | None => fail AssignmentNotFound
  | Some a =>
      _ ← raw_delete (encode_assignment aid);
      _ ← write_delete (subject_index (ra_subject a) aid);
      _ ← write_delete (encode_assign_role (ra_role_id a) aid);
      bump_sv_for_subject (ra_subject a)
  end.

(** ** Direct grants and extra organization roles *)

Definition seed_user_permission_unchecked (g : UserPermissionGrant) : eng UserPermissionGrant :=
  _ ← write_put_batch [
    (encode_user_permission realm (upg_user_id g) (upg_scope g) (upg_permission g), ser_grant g);
    (encode_user_permission_by_perm realm (upg_permission g) (upg_scope g) (upg_user_id g), [])];
  mret g.
Definition grant_user_permission (g : UserPermissionGrant) : eng UserPermissionGrant :=
  if is_reserved (upg_permission g) then fail (ReservedNamespace (upg_permission g))
  else seed_user_permission_unchecked g.
Definition revoke_user_permission (u : UserId) (p : Permission) (sc : Scope) : eng unit :=
  _ ← write_delete (encode_user_permission realm u sc p);
  write_delete (encode_user_permission_by_perm realm p sc u).

Definition add_additional_role (o : OrganizationId) (u : UserId) (name : Str) : eng unit :=
  if bool_decide (name = []) then fail (InvalidRoleName EmptyName)
  else
    found ← reading (λ s, get_role_by_name realm s name);
    match found with
    | None => fail RoleNotFound
    | Some _ => write_put (encode_org_extra_role realm o u name) (ser_text name)
    end.
Definition remove_additional_role (o : OrganizationId) (u : UserId) (name : Str) : eng unit :=
  write_delete (encode_org_extra_role realm o u name).

(** ** Cascades *)

Definition purge_org_roles_for_user (o : OrganizationId) (u : UserId) : eng nat :=
  purge_org_role_rows (org_extra_role_scan_prefix realm o u) None.
Definition purge_org_roles_for_org (o : OrganizationId) : eng nat :=
  purge_org_role_rows (org_extra_role_org_scan_prefix realm o) None.

Definition purge_user_from_realm (u : UserId) : eng unit :=
  asgn ← reading (λ s, Ok (scan_prefix (assign_user_scan_prefix u) s));
  _ ← for_each asgn (λ e,
        aid ← guard_ok (de_or (de_id (se_value e)));
        _ ← drop_assignment_rows aid;
        write_delete (se_key e));
  gms ← reading (λ s, Ok (scan_prefix (gm_reverse_scan_prefix (MUser u)) s));
  _ ← for_each gms (λ e,
        g ← guard_ok (de_or (de_id (se_value e)));
        _ ← raw_delete (encode_gm_forward g (MUser u));
        write_delete (se_key e));
  _ ← purge_org_role_rows (org_extra_role_realm_scan_prefix realm) (Some u);
  mret ().
End engine.
