(* ===== verification/RbacSeed.v ===== *)
(** * Role-based access control: seeding, reconciliation, export and import

What a realm starts with ([rbac/seed.rs]), how the declared configuration is folded
into the stored rows, and the export and import paths of [rbac/engine.rs]. *)
From stdpp Require Import base list gmap strings sorting lexico.
From Stdlib Require Import Strings.Byte ZArith Lia.
From S2P Require Import Prelude OrdMap StorageTypes OrdSet RbacTypes RbacResolve RbacRegistry RealmRows RbacKeys RbacStore RbacEngine.

Open Scope Z_scope.

(** ** Specifications and records *)

Record SeedRoleSpec := MkSeedRole {
  sd_name : Str;
  sd_permissions : list Str;
  sd_parent_names : list Str;
  sd_scope_kind : RoleScopeKind
}.
Record RoleSpec := MkRoleSpec {
  rsp_name : Str;
  rsp_description : option Str;
  rsp_permissions : list Str;
  rsp_parent_names : list Str;
  rsp_scope_kind : RoleScopeKind
}.
Record ScopeSpec := MkScopeSpec { ssp_name : Str; ssp_permissions : option (list Str) }.
Record GroupMembershipEdge := MkEdge { ge_group_id : GroupId; ge_member : GroupMember }.
Inductive ImportOutcome := Created | Skipped | Overwritten.

Definition SEED_ROLES : list SeedRoleSpec := Eval compute in
  map (λ '(n, ps, parents, kind), MkSeedRole (lit n) (map lit ps) (map lit parents) kind)
  [("realm.admin",
    ["hearth.admin"; "hearth.users.admin"; "hearth.clients.admin"; "hearth.realm.admin"; "hearth.agents.admin";
     "hearth.export"; "hearth.sv_feed"; "realm.read"; "realm.write"; "realm.admin"; "org.read"; "org.write";
     "org.admin"; "org.billing"; "user.read"; "user.write"; "user.impersonate"], [], RskRealm);
   ("hearth.users.admin", ["hearth.users.admin"], [], RskRealm);
   ("hearth.clients.admin", ["hearth.clients.admin"], [], RskRealm);
   ("hearth.realm.admin", ["hearth.realm.admin"], [], RskRealm);
   ("hearth.agents.admin", ["hearth.agents.admin"], [], RskRealm);
   ("realm.member", [], [], RskRealm);
   ("org.member", ["org.read"], [], RskOrganization);
   ("org.admin", ["org.write"; "org.admin"], ["org.member"], RskOrganization);
   ("org.owner", ["org.billing"], ["org.admin"], RskOrganization)]%string.

Definition seed_scope_map : list (Str * option (list Str)) := Eval compute in
  map (λ '(n, ps), (lit n, option_map (map lit) ps))
  [("openid", None); ("profile", None); ("email", None);
   ("admin", Some ["hearth.admin"; "realm.read"; "realm.write"; "realm.admin"; "user.read"; "user.write"; "user.impersonate"]);
   ("org", Some ["org.read"; "org.write"; "org.admin"; "org.billing"])]%string.

(** [format!("Seed role: {}", name)]. *)
Definition seed_description (name : Str) : Str := lit "Seed role: " ++ name.

(** [Permission::new(..).map_err(..)?] over a list. *)
Definition perm_checked (p : Str) : rres Permission :=
  match perm_new p with Ok q => Ok q | Err e => Err (InvalidPermission e) | Panic => Panic end.
Definition perms_checked (ps : list Str) : rres (list Permission) :=
  fold_res (λ acc p, q ← perm_checked p; Ok (acc ++ [q])) [] ps.
Definition scope_perms (ps : option (list Str)) : rres (option (list Permission)) :=
  match ps with None => Ok None | Some l => qs ← perms_checked l; Ok (Some qs) end.

(** [Uri::try_from], of the [url] crate: the canonical text, or a parse error. *)
Class UriParse := uri_try_from : Str → option Uri.

Section seed.
Context `{!UuidText, !UuidTextLaws, !Json, !UriHash, !UriParse} (ids : nat → Uuid) (clock : nat → Timestamp).
Variable realm : RealmId.
Implicit Type s : Store.

(** [storage.put] and [storage.put_batch], past the helpers. *)
Definition raw_put (k v : list byte) : eng unit := effect <[k := v]> [EvWrite k].
Definition raw_put_batch (kvs : list (list byte * list byte)) : eng unit := effect (put_all kvs) (EvWrite <$> kvs.*1).

(** ** Seeding *)

Definition row_present (k : list byte) : eng bool := reading (λ s, Ok (bool_decide (is_Some (s !! k)))).

Definition seed_permissions : eng unit :=
  for_each SEED_PERMISSIONS (λ p,
    perm ← guard_ok (perm_checked p);
    let key := encode_permission realm perm in
    present ← row_present key;
    if (present : bool) then mret () else raw_put key (ser_permission (MkPermissionRecord perm PermActive))).

(** The parents' identifiers, which are seeded before their children. *)
Definition parent_ids s (names : list Str) : rres (list RoleId) :=
  fold_res (λ acc n,
    found ← load_role_id_by_name realm s n;
    match found with Some id => Ok (acc ++ [id]) | None => Err Serialization end) [] names.

Definition seed_role (at_ : Timestamp) (spec : SeedRoleSpec) : eng unit :=
  existing ← reading (λ s, load_role_id_by_name realm s (sd_name spec));
  match existing with
  | Some existing_id =>
      raw ← reading (λ s, Ok (s !! encode_role existing_id));
      match raw with
      | None => mret ()
      | Some bytes =>
          role ← guard_ok (de_or (de_role bytes));
          if decide (ro_scope_kind role = sd_scope_kind spec) then mret ()
          else raw_put (encode_role existing_id)
                 (ser_role (MkRole (ro_id role) (ro_realm_id role) (ro_name role) (ro_description role) (ro_permissions role)
                    (ro_parent_roles role) (sd_scope_kind spec) (ro_status role) (ro_yaml_managed role)
                    (ro_created_at role) at_))
      end
  | None =>
      parent_roles ← reading (λ s, parent_ids s (sd_parent_names spec));
      permissions ← guard_ok (perms_checked (sd_permissions spec));
      id ← generate ids;
      let role := MkRole id realm (sd_name spec) (Some (seed_description (sd_name spec))) permissions parent_roles
                    (sd_scope_kind spec) RoleActive false at_ at_ in
      raw_put_batch [(encode_role id, ser_role role); (encode_role_name realm (ro_name role), ser_id id)]
  end.

Definition seed_roles : eng unit := at_ ← now clock; for_each SEED_ROLES (seed_role at_).

Definition seed_scopes : eng unit :=
  for_each seed_scope_map (λ '(name, perms),
    let key := encode_scope realm name in
    present ← row_present key;
    if (present : bool) then mret ()
    else permissions ← guard_ok (scope_perms perms); raw_put key (ser_scope (MkStoredScope name permissions))).

Definition seed_realm : eng unit :=
  _ ← seed_permissions; _ ← seed_roles; _ ← seed_scopes; effect id [EvInvalidate].

(** ** Reconciliation *)

Definition reconcile_permission (name : Str) : eng unit :=
  perm ← guard_ok (perm_checked name);
  let key := encode_permission realm perm in
  raw ← reading (λ s, Ok (s !! key));
  match raw with
  | Some bytes =>
      match de_permission bytes with
      | Some record =>
          if decide (pr_status record = PermArchived)
          then write_put key (ser_permission (MkPermissionRecord (pr_name record) PermActive)) else mret ()
      | None => mret ()
      end
  | None => write_put key (ser_permission (MkPermissionRecord perm PermActive))
  end.
Definition reconcile_permissions (names : list Str) : eng unit := for_each names reconcile_permission.

(** Only the [hearth.*] namespace is never archived. *)
Definition archive_permission (yaml_names : gset Str) (e : ScanEntry) : eng unit :=
  match de_permission (se_value e) with
  | None => mret ()
  | Some record =>
      if decide (pr_status record = PermActive) then
        if str_starts_with RESERVED_PREFIX (pr_name record) then mret ()
        else if decide (pr_name record ∈ yaml_names) then mret ()
        else write_put (encode_permission realm (pr_name record)) (ser_permission (MkPermissionRecord (pr_name record) PermArchived))
      else mret ()
  end.
Definition archive_removed_permissions (yaml_names : gset Str) : eng unit :=
  entries ← reading (λ s, Ok (scan_prefix (permission_scan_prefix realm) s));
  for_each entries (archive_permission yaml_names).

Definition archive_role (at_ : Timestamp) (yaml_names : gset Str) (e : ScanEntry) : eng unit :=
  match de_id (se_value e) with
  | None => mret ()
  | Some id =>
      found ← reading (λ s, load_role realm s id);
      match found with
      | None => mret ()
      | Some role =>
          if negb (ro_yaml_managed role) || bool_decide (ro_status role = RoleArchivedSt) then mret ()
          else if decide (ro_name role ∈ yaml_names) then mret ()
          else write_put (encode_role (ro_id role))
                 (ser_role (MkRole (ro_id role) (ro_realm_id role) (ro_name role) (ro_description role) (ro_permissions role)
                    (ro_parent_roles role) (ro_scope_kind role) RoleArchivedSt (ro_yaml_managed role) (ro_created_at role) at_))
      end
  end.
Definition archive_removed_roles (yaml_names : gset Str) : eng unit :=
  at_ ← now clock;
  entries ← reading (λ s, Ok (scan_prefix (role_name_scan_prefix realm) s));
  for_each entries (archive_role at_ yaml_names).

Definition role_drift (role : Role) (spec : RoleSpec) (permissions : list Permission) (parent_roles : list RoleId) : bool :=
  negb (bool_decide (ro_description role = rsp_description spec)) || negb (bool_decide (ro_permissions role = permissions))
  || negb (bool_decide (ro_parent_roles role = parent_roles)) || negb (bool_decide (ro_scope_kind role = rsp_scope_kind spec))
  || bool_decide (ro_status role = RoleArchivedSt) || negb (ro_yaml_managed role).

Definition reconcile_role (at_ : Timestamp) (spec : RoleSpec) : eng unit :=
  _ ← guard_ok (validate_role_name (rsp_name spec));
  permissions ← guard_ok (perms_checked (rsp_permissions spec));
  _ ← guard_ok (validate_permissions_for_operator permissions);
  parent_roles ← reading (λ s, parent_ids s (rsp_parent_names spec));
  existing ← reading (λ s, load_role_id_by_name realm s (rsp_name spec));
  match existing with
  | Some existing_id =>
      found ← reading (λ s, load_role realm s existing_id);
      match found with
      | None => mret ()
      | Some role =>
          if role_drift role spec permissions parent_roles then
            let role := MkRole (ro_id role) (ro_realm_id role) (ro_name role) (rsp_description spec) permissions parent_roles
                          (rsp_scope_kind spec) RoleActive true (ro_created_at role) at_ in
            _ ← reading (λ s, check_role_parents_no_cycle realm s (ro_id role) (ro_parent_roles role));
            write_put (encode_role (ro_id role)) (ser_role role)
          else mret ()
      end
  | None =>
      id ← generate ids;
      let role := MkRole id realm (rsp_name spec) (rsp_description spec) permissions parent_roles
                    (rsp_scope_kind spec) RoleActive true at_ at_ in
      _ ← reading (λ s, check_role_parents_no_cycle realm s id (ro_parent_roles role));
      write_put_batch [(encode_role id, ser_role role); (encode_role_name realm (ro_name role), ser_id id)]
  end.
Definition reconcile_roles (specs : list RoleSpec) : eng unit := at_ ← now clock; for_each specs (reconcile_role at_).

Definition reconcile_scope (spec : ScopeSpec) : eng unit :=
  permissions ← guard_ok (scope_perms (ssp_permissions spec));
  write_put (encode_scope realm (ssp_name spec)) (ser_scope (MkStoredScope (ssp_name spec) permissions)).
Definition drop_undeclared_bundle (declared : gset Str) (e : ScanEntry) : eng unit :=
  match de_scope (se_value e) with
  | None => mret ()
  | Some stored =>
      if bool_decide (classify_scope_string (ss_name stored) = Some KBundle) && negb (bool_decide (ss_name stored ∈ declared))
      then write_delete (se_key e) else mret ()
  end.
Definition reconcile_scopes (specs : list ScopeSpec) : eng unit :=
  _ ← for_each specs reconcile_scope;
  entries ← reading (λ s, Ok (scan_prefix (scope_scan_prefix realm) s));
  for_each entries (drop_undeclared_bundle (list_to_set (ssp_name <$> specs))).

(** The rows declared for the protected resources; an invalid URI refuses them all. *)
Definition desired_rows (resources : list ProtectedResource) : rres (list (list byte * list byte)) :=
  fold_res (λ acc r,
    uri ← ok_or Serialization (uri_try_from (pr_resource_uri r));
    Ok (acc ++ ((λ b, (encode_resource_scope realm (uri_hash uri) (sb_name b),
                       ser_scope (MkStoredScope (sb_name b) (if bool_decide (sb_permissions b = []) then None else Some (sb_permissions b)))))
                <$> pr_scopes r))) [] resources.
Definition reconcile_protected_resources (resources : list ProtectedResource) : eng unit :=
  desired ← guard_ok (desired_rows resources);
  entries ← reading (λ s, Ok (scan_prefix (resource_scope_realm_scan_prefix realm) s));
  _ ← for_each entries (λ e, if decide (se_key e ∈ desired.*1) then mret () else write_delete (se_key e));
  for_each desired (λ '(k, v), write_put k v).

Definition reconcile_group (at_ : Timestamp) (group : Group) : eng unit :=
  if bool_decide (gr_slug group = []) then mret ()
  else
    found ← reading (λ s, load_group_id_by_slug realm s (gr_slug group));
    match found with
    | Some gid =>
        existing ← reading (λ s, load_group realm s gid);
        match existing with
        | None => mret ()
        | Some existing =>
            if negb (bool_decide (gr_name existing = gr_name group)) || negb (bool_decide (gr_description existing = gr_description group))
               || negb (gr_yaml_managed existing)
            then write_put (encode_group (gr_id existing))
                   (ser_group (MkGroup (gr_id existing) (gr_realm_id existing) (gr_name group) (gr_slug existing) (gr_description group)
                      (gr_created_at existing) at_ true))
            else mret ()
        end
    | None =>
        id ← generate ids;
        write_put_batch [(encode_group id, ser_group (MkGroup id realm (gr_name group) (gr_slug group) (gr_description group) at_ at_ true));
                         (encode_group_slug realm (gr_slug group), ser_id id)]
    end.
Definition release_group (at_ : Timestamp) (declared : gset Str) (e : ScanEntry) : eng unit :=
  match de_id (se_value e) with
  | None => mret ()
  | Some gid =>
      existing ← reading (λ s, load_group realm s gid);
      match existing with
      | None => mret ()
      | Some existing =>
          if gr_yaml_managed existing && negb (bool_decide (gr_slug existing ∈ declared))
          then write_put (encode_group (gr_id existing))
                 (ser_group (MkGroup (gr_id existing) (gr_realm_id existing) (gr_name existing) (gr_slug existing) (gr_description existing)
                    (gr_created_at existing) at_ false))
          else mret ()
      end
  end.
Definition reconcile_groups (groups : list Group) : eng unit :=
  at_ ← now clock;
  _ ← for_each groups (reconcile_group at_);
  entries ← reading (λ s, Ok (scan_prefix (group_slug_scan_prefix realm) s));
  for_each entries (release_group at_ (list_to_set (filter (λ slug, slug ≠ []) (gr_slug <$> groups)))).

(** ** Export *)

Definition export_all_permissions s : list PermissionRecord := scan_decodable de_permission (permission_scan_prefix realm) s.
Definition export_all_scopes s : list StoredScope := scan_decodable de_scope (scope_scan_prefix realm) s.
Definition export_all_assignments s : list RoleAssignment := scan_decodable de_assignment assignment_scan_prefix s.

(** [rest.split_once(":member:")], on the text after the prefix. *)
Definition member_sep : Str := Eval compute in lit ":member:".
Fixpoint split_once (sep t : Str) : option (Str * Str) :=
  if bool_decide (sep `prefix_of` t) then Some ([], drop (length sep) t)
  else match t with
       | [] => None
       | b :: t' => (λ p, (b :: p.1, p.2)) <$> split_once sep t'
       end.
Definition decode_gm_forward_group (key : list byte) : option GroupId :=
  rest ← strip_prefix gm_forward_realm_scan_prefix key;
  parts ← split_once member_sep rest;
  uuid_parse parts.1.
Definition export_all_group_memberships s : list GroupMembershipEdge :=
  omap (λ e, g ← decode_gm_forward_group (se_key e); m ← de_member (se_value e); Some (MkEdge g m))
    (scan_prefix gm_forward_realm_scan_prefix s).

(** ** Import *)

Definition import_rows (primary : list byte) (kvs : list (list byte * list byte)) (overwrite : bool) : eng ImportOutcome :=
  exists_ ← row_present primary;
  if exists_ && negb overwrite then mret Skipped
  else _ ← write_put_batch kvs; mret (if exists_ then Overwritten else Created).

Definition import_role (role : Role) : bool → eng ImportOutcome :=
  import_rows (encode_role (ro_id role))
    [(encode_role (ro_id role), ser_role role); (encode_role_name realm (ro_name role), ser_id (ro_id role))].
Definition import_permission (record : PermissionRecord) : bool → eng ImportOutcome :=
  import_rows (encode_permission realm (pr_name record)) [(encode_permission realm (pr_name record), ser_permission record)].
Definition import_group (group : Group) : bool → eng ImportOutcome :=
  import_rows (encode_group (gr_id group))
    [(encode_group (gr_id group), ser_group group); (encode_group_slug realm (gr_slug group), ser_id (gr_id group))].
Definition import_assignment (a : RoleAssignment) : bool → eng ImportOutcome :=
  import_rows (encode_assignment (ra_id a))
    [(encode_assignment (ra_id a), ser_assignment a); (subject_index (ra_subject a) (ra_id a), ser_id (ra_id a));
     (encode_assign_role (ra_role_id a) (ra_id a), ser_id (ra_id a))].
Definition import_scope (scope : StoredScope) : bool → eng ImportOutcome :=
  import_rows (encode_scope realm (ss_name scope)) [(encode_scope realm (ss_name scope), ser_scope scope)].
Definition import_group_membership (edge : GroupMembershipEdge) : bool → eng ImportOutcome :=
  import_rows (encode_gm_forward (ge_group_id edge) (ge_member edge))
    [(encode_gm_forward (ge_group_id edge) (ge_member edge), ser_member (ge_member edge));
     (encode_gm_reverse (ge_member edge) (ge_group_id edge), ser_id (ge_group_id edge))].

(** ** References that resolution would skip *)

Definition role_orphan (roles : gmap RoleId Role) (id : RoleId) : list OrphanRef :=
  match roles !! id with
  | None => [MkOrphanRef OkRole (uuid_to_string id)]
  | Some role => if decide (ro_status role = RoleArchivedSt) then [MkOrphanRef OkRole (ro_name role)] else []
  end.
Definition perm_orphan (archived : gset Permission) (p : Permission) : list OrphanRef :=
  if decide (p ∈ archived) then [MkOrphanRef OkPermission p] else [].

Definition orphaned_references s : rres (list OrphanRef) :=
  let archived : gset Permission := list_to_set
    (omap (λ r, if decide (pr_status r = PermArchived) then Some (pr_name r) else None)
      (scan_decodable de_permission (permission_scan_prefix realm) s)) in
  roles ← fold_res (λ (roles : gmap RoleId Role) e,
    match de_id (se_value e) with
    | None => Ok roles
    | Some id => found ← load_role realm s id; Ok (match found with Some role => <[id := role]> roles | None => roles end)
    end) ∅ (scan_prefix (role_name_scan_prefix realm) s);
  let of_roles := filter (λ r, ro_status r ≠ RoleArchivedSt) (map_to_list roles).*2 ≫= λ role,
    (ro_permissions role ≫= perm_orphan archived) ++ (ro_parent_roles role ≫= role_orphan roles) in
  let of_assignments := export_all_assignments s ≫= λ a, role_orphan roles (ra_role_id a) in
  let of_grants := scan_decodable de_grant (user_permission_realm_scan_prefix realm) s ≫= λ g, perm_orphan archived (upg_permission g) in
  of_names ← fold_res (λ acc e,
    match de_text (se_value e) with
    | None => Ok acc
    | Some name =>
        found ← load_role_id_by_name realm s name;
        Ok (acc ++ match found with Some id => role_orphan roles id | None => [MkOrphanRef OkRoleName name] end)
    end) [] (scan_prefix (org_extra_role_realm_scan_prefix realm) s);
  Ok (bs_collect (of_roles ++ of_assignments ++ of_grants ++ of_names)).

(** ** Holders of a role or a permission *)

(** The distinct users that the keys of a scan name, at most [limit] of them. *)
Fixpoint collect_users (holder : list byte → option UserId) (limit : nat) (ks : list (list byte)) (out : list UserId) : list UserId :=
  match ks with
  | [] => out
  | k :: ks' =>
      if (limit <=? length out)%nat then out
      else collect_users holder limit ks' (match holder k with
             | Some u => if decide (u ∈ out) then out else out ++ [u]
             | None => out
             end)
  end.

Definition first_holder (k : list byte) (role_names : list Str) : option UserId :=
  head (omap (org_role_key_holder k) role_names).
Definition list_additional_role_holders s (role_names : list Str) (limit : nat) : list UserId :=
  let p := org_extra_role_realm_scan_prefix realm in
  collect_users (λ k, first_holder k role_names) limit (scan_keys p (prefix_end p) s) [].

Definition grantee (permissions : list Str) (k : list byte) : option UserId :=
  rest ← strip_prefix (user_permission_realm_scan_prefix realm) k;
  match splitn 3 rest with
  | [user; _; perm] => if decide (perm ∈ permissions) then uuid_parse user else None
  | _ => None
  end.
Definition list_permission_grantees s (permissions : list Str) (limit : nat) : list UserId :=
  let p := user_permission_realm_scan_prefix realm in
  collect_users (grantee permissions) limit (scan_keys p (prefix_end p) s) [].
End seed.
