(* ===== verification/RbacRows.v ===== *)
(** * Role-based access control: the rows of a realm

Typed keys for the rows that [RbacKeys] encodes, that the encoding separates them,
and what the prefix scans of the engine visit: the rows of one kind with one owner,
and no others. *)
From stdpp Require Import base list gmap strings sorting lexico.
From Stdlib Require Import Strings.Byte ZArith Lia.
From S2P Require Import Prelude OrdMap StorageTypes OrdSet RbacTypes RbacResolve RealmRows RbacKeys RbacStore RbacEngine.

Open Scope Z_scope.

(** ** Typed keys *)

(** One constructor per index of [keys.rs]. [KResourceScope] keeps the hash and the
bundle name joined, since the hash is another crate's text. *)
Inductive RowKey :=
| KRole (id : RoleId)
| KRoleName (name : Str)
| KGroup (id : GroupId)
| KGroupSlug (slug : Str)
| KAssign (id : AssignmentId)
| KAssignUser (u : UserId) (id : AssignmentId)
| KAssignGroup (g : GroupId) (id : AssignmentId)
| KAssignRole (r : RoleId) (id : AssignmentId)
| KForward (g : GroupId) (m : GroupMember)
| KReverse (m : GroupMember) (g : GroupId)
| KPermission (p : Permission)
| KScope (name : Str)
| KResourceScope (hash_name : Str)
| KGrant (u : UserId) (s : Scope) (p : Permission)
| KGrantIndex (p : Permission) (s : Scope) (u : UserId)
| KOrgRole (o : OrganizationId) (u : UserId) (name : Str).

#[export] Instance RowKey_eq_dec : EqDecision RowKey.
Proof. solve_decision. Defined.

Section rows.
Context `{!UuidText, !UuidTextLaws}.
Variable realm : RealmId.
Implicit Type s : Store.

Definition enc (k : RowKey) : list byte :=
  match k with
  | KRole id => encode_role id
  | KRoleName name => encode_role_name realm name
  | KGroup id => encode_group id
  | KGroupSlug slug => encode_group_slug realm slug
  | KAssign id => encode_assignment id
  | KAssignUser u id => encode_assign_user u id
  | KAssignGroup g id => encode_assign_group g id
  | KAssignRole r id => encode_assign_role r id
  | KForward g m => encode_gm_forward g m
  | KReverse m g => encode_gm_reverse m g
  | KPermission p => encode_permission realm p
  | KScope name => encode_scope realm name
  | KResourceScope hn => key_of [w_rba; w_res_scope; uuid_to_string realm] hn
  | KGrant u sc p => encode_user_permission realm u sc p
  | KGrantIndex p sc u => encode_user_permission_by_perm realm p sc u
  | KOrgRole o u name => encode_org_extra_role realm o u name
  end.

Lemma enc_resource_scope hash name : encode_resource_scope realm hash name = enc (KResourceScope (hash ++ colon :: name)).
Proof. done. Qed.

(** The fields of a row's key, and the free text after them. *)
Definition row_fields (k : RowKey) : list Str :=
  let txt := uuid_to_string in
  match k with
  | KRole id => [w_rba; w_role; txt id]
  | KRoleName name => w_rba :: w_role :: w_name :: txt realm :: key_fields name
  | KGroup id => [w_rba; w_group; txt id]
  | KGroupSlug slug => w_rba :: w_group :: w_slug :: txt realm :: key_fields slug
  | KAssign id => [w_rba; w_assign; w_pri; txt id]
  | KAssignUser u id => [w_rba; w_assign; w_user; txt u; txt id]
  | KAssignGroup g id => [w_rba; w_assign; w_group; txt g; txt id]
  | KAssignRole r id => [w_rba; w_assign; w_role; txt r; txt id]
  | KForward g m => [w_rba; w_gm; w_group; txt g; w_member; (member_parts m).1; (member_parts m).2]
  | KReverse m g => [w_rba; w_gm; w_member; (member_parts m).1; (member_parts m).2; w_group; txt g]
  | KPermission p => w_rba :: w_perm :: txt realm :: key_fields p
  | KScope name => w_rba :: w_scope :: txt realm :: key_fields name
  | KResourceScope hn => w_rba :: w_res_scope :: txt realm :: key_fields hn
  | KGrant u sc p => w_rba :: w_user_perm :: txt realm :: txt u :: scope_key sc :: key_fields p
  | KGrantIndex p sc u => w_rba :: w_user_perm :: w_by_perm :: txt realm :: key_fields p ++ [scope_key sc; txt u]
  | KOrgRole o u name => w_rba :: w_org_role :: txt realm :: txt o :: txt u :: key_fields name
  end.

Lemma scope_key_no_colon sc : colon ∉ scope_key sc.
Proof. destruct sc as [|o]; simpl; [|apply uuid_text_no_colon]. by apply (bool_decide_unpack _). Qed.

Lemma member_parts_no_colon m : colon ∉ (member_parts m).1 ∧ colon ∉ (member_parts m).2.
Proof. destruct m; simpl; split; try apply uuid_text_no_colon; by apply (bool_decide_unpack _). Qed.

Lemma key_fields_cons f t : colon ∉ f → key_fields (f ++ colon :: t) = f :: key_fields t.
Proof. intros Hf. apply (fields_key_of [f] t). by repeat constructor. Qed.

Lemma key_fields_app t fs : key_fields (t ++ colon :: fs) = key_fields t ++ key_fields fs.
Proof.
unfold key_fields. induction t as [|b t IH]; [done|]; simpl.
case_decide; [by rewrite IH|]. rewrite IH. pose proof (split_on_ne colon t). by destruct (split_on colon t).
Qed.

Ltac no_colon :=
  repeat first [apply Forall_nil_2 | apply Forall_cons_2];
  first [apply uuid_text_no_colon | apply scope_key_no_colon | apply member_parts_no_colon | by apply (bool_decide_unpack _)].

Lemma fields_enc k : key_fields (enc k) = row_fields k.
Proof.
destruct k; cbn [enc row_fields];
  unfold encode_role, encode_role_name, encode_group, encode_group_slug, encode_assignment, encode_assign_user,
    encode_assign_group, encode_assign_role, encode_gm_forward, encode_gm_reverse, encode_permission, encode_scope,
    encode_user_permission, encode_user_permission_by_perm, encode_org_extra_role;
  rewrite fields_key_of by no_colon; cbn [app]; try done;
  try by rewrite fields_single by no_colon.
rewrite key_fields_app, key_fields_cons by no_colon. by rewrite (fields_single (uuid_to_string _)) by no_colon.
Qed.

Lemma key_fields_inj t t' : key_fields t = key_fields t' → t = t'.
Proof. unfold key_fields. intros Heq. by rewrite <-(join_split colon t), Heq, join_split. Qed.

Lemma scope_key_inj sc sc' : scope_key sc = scope_key sc' → sc = sc'.
Proof.
destruct sc, sc'; simpl; try done.
- intros Heq. symmetry in Heq. by apply uuid_text_not_word in Heq.
- intros Heq. by apply uuid_text_not_word in Heq.
- intros Heq. by apply (inj _) in Heq as ->.
Qed.

Lemma member_parts_inj m m' : member_parts m = member_parts m' → m = m'.
Proof. destruct m, m'; simpl; intros [=]; try done; f_equal; by apply (inj uuid_to_string). Qed.

(** Keys of distinct rows are distinct. *)
#[export] Instance enc_inj : Inj (=) (=) enc.
Proof.
intros k k' Heq. apply (f_equal key_fields) in Heq. rewrite !fields_enc in Heq.
destruct k, k'; cbn [row_fields] in Heq; try discriminate Heq; injection Heq; clear Heq; intros;
  repeat match goal with
  | H : key_fields _ ++ [_; _] = key_fields _ ++ [_; _] |- _ =>
      apply app_inj_2 in H as [H ?]; [|done]; simplify_eq
  | H : key_fields _ = key_fields _ |- _ => apply key_fields_inj in H
  | H : uuid_to_string _ = uuid_to_string _ |- _ => apply (inj uuid_to_string) in H
  | H : scope_key _ = scope_key _ |- _ => apply scope_key_inj in H
  | H : uuid_to_string _ = _ |- _ => by apply uuid_text_not_word in H
  | H : _ = uuid_to_string _ |- _ => symmetry in H; by apply uuid_text_not_word in H
  | H : (member_parts ?m).1 = (member_parts ?m').1, H' : (member_parts ?m).2 = (member_parts ?m').2 |- _ =>
      assert (m = m') by (apply member_parts_inj; by apply injective_projections); clear H H'
  end; by subst.
Qed.

(** ** Scans *)

(** The row under a typed key. *)
Definition row s (k : RowKey) : option (list byte) := s !! enc k.

Lemma row_insert s k v k' : row (<[enc k := v]> s) k' = if decide (k = k') then Some v else row s k'.
Proof.
unfold row. case_decide as Hk; [subst; apply lookup_insert_eq|].
apply lookup_insert_ne. intros Heq. by apply (inj enc) in Heq.
Qed.

Lemma row_delete s k k' : row (base.delete (enc k) s) k' = if decide (k = k') then None else row s k'.
Proof.
unfold row. case_decide as Hk; [subst; apply lookup_delete_eq|].
apply lookup_delete_ne. intros Heq. by apply (inj enc) in Heq.
Qed.

Lemma key_of_last f fs : last (key_of (f :: fs) []) = Some colon.
Proof.
revert f. induction fs as [|f' fs IH]; intros f; cbn [key_of].
- by rewrite last_app.
- change (key_of (f' :: fs) []) with (f' ++ colon :: key_of fs []) in IH.
  rewrite last_app, last_cons. cbn [key_of] in IH. by rewrite IH.
Qed.

(** A prefix scan visits the rows whose fields extend the prefix's. *)
Lemma elem_of_scan_prefix f fs s e : Forall (λ f, colon ∉ f) (f :: fs) →
  e ∈ scan_prefix (key_of (f :: fs) []) s ↔
  s !! se_key e = Some (se_value e) ∧ ∃ rest, key_fields (se_key e) = (f :: fs) ++ rest ∧ rest ≠ [].
Proof.
intros Hf. unfold scan_prefix, prefix_end. rewrite elem_of_scan, <-prefix_fields by done. apply and_iff_compat_l.
unfold in_window. rewrite andb_true_iff, negb_true_iff, ord_lt_iff. rewrite <-prefix_window.
- apply and_iff_compat_r. rewrite <-not_true_iff_false, ord_lt_iff. done.
- exists colon. split; [apply key_of_last|done].
Qed.

(** Every row has a typed key. *)
Definition keyed s : Prop := ∀ k, is_Some (s !! k) → ∃ K, k = enc K.

(** The rows of a typed kind that a scan visits. *)
Definition scans (p : list byte) (P : RowKey → Prop) : Prop := ∀ s e, keyed s →
  e ∈ scan_prefix p s ↔ ∃ K, P K ∧ se_key e = enc K ∧ row s K = Some (se_value e).

Lemma scans_fields f fs (P : RowKey → Prop) : Forall (λ f, colon ∉ f) (f :: fs) →
  (∀ K, (∃ rest, row_fields K = (f :: fs) ++ rest ∧ rest ≠ []) ↔ P K) → scans (key_of (f :: fs) []) P.
Proof.
intros Hf HP s e Hk. rewrite elem_of_scan_prefix by done. split.
- intros [Hs Hr]. destruct (Hk (se_key e)) as [K HK]; [by eexists|]. exists K.
  rewrite HK, fields_enc in Hr. unfold row. rewrite <-HK. by rewrite <-HP.
- intros (K & HK & Hek & Hr). unfold row in Hr. rewrite <-Hek in Hr. split; [done|].
  rewrite Hek, fields_enc. by apply HP.
Qed.

Ltac fields_inv :=
  repeat match goal with
  | H : key_fields _ = key_fields _ |- _ => apply key_fields_inj in H
  | H : uuid_to_string _ = uuid_to_string _ |- _ => apply (inj uuid_to_string) in H
  | H : uuid_to_string _ = _ |- _ => by apply uuid_text_not_word in H
  | H : _ = uuid_to_string _ |- _ => symmetry in H; by apply uuid_text_not_word in H
  | H : (member_parts ?m).1 = (member_parts ?m').1, H' : (member_parts ?m).2 = (member_parts ?m').2 |- _ =>
      assert (m = m') by (apply member_parts_inj; by apply injective_projections); clear H H'
  end; subst.

Ltac solve_scans :=
  apply scans_fields; [by no_colon|]; intros K; split;
  [ intros (rest & Hrest & Hne); destruct K; cbn [row_fields app] in Hrest; try discriminate Hrest;
    injection Hrest; clear Hrest; intros; fields_inv; eauto
  | intros HK; repeat match goal with HK : ex _ |- _ => destruct HK as [? HK] end; subst; cbn [row_fields app]; eexists; split; [reflexivity|];
    try apply split_on_ne; try done; by intros ?%app_nil ].

Lemma scans_forward g : scans (gm_forward_scan_prefix g) (λ K, ∃ m, K = KForward g m).
Proof. solve_scans. Qed.
Lemma scans_role_names : scans (role_name_scan_prefix realm) (λ K, ∃ name, K = KRoleName name).
Proof. solve_scans. Qed.
Lemma scans_group_slugs : scans (group_slug_scan_prefix realm) (λ K, ∃ slug, K = KGroupSlug slug).
Proof. solve_scans. Qed.
Lemma scans_assign_users u : scans (assign_user_scan_prefix u) (λ K, ∃ id, K = KAssignUser u id).
Proof. solve_scans. Qed.
Lemma scans_assign_groups g : scans (assign_group_scan_prefix g) (λ K, ∃ id, K = KAssignGroup g id).
Proof. solve_scans. Qed.
Lemma scans_assign_roles r : scans (assign_role_scan_prefix r) (λ K, ∃ id, K = KAssignRole r id).
Proof. solve_scans. Qed.
Lemma scans_assignments : scans assignment_scan_prefix (λ K, ∃ id, K = KAssign id).
Proof. solve_scans. Qed.
Lemma scans_forward_realm : scans gm_forward_realm_scan_prefix (λ K, ∃ g m, K = KForward g m).
Proof. solve_scans. Qed.
Lemma scans_reverse m : scans (gm_reverse_scan_prefix m) (λ K, ∃ g, K = KReverse m g).
Proof. solve_scans. Qed.
Lemma scans_permissions : scans (permission_scan_prefix realm) (λ K, ∃ p, K = KPermission p).
Proof. solve_scans. Qed.
Lemma scans_scope_rows : scans (scope_scan_prefix realm) (λ K, ∃ name, K = KScope name).
Proof. solve_scans. Qed.
Lemma scans_resource_scopes : scans (resource_scope_realm_scan_prefix realm) (λ K, ∃ hn, K = KResourceScope hn).
Proof. solve_scans. Qed.
Lemma scans_realm_grants : scans (user_permission_realm_scan_prefix realm) (λ K, ∃ u sc p, K = KGrant u sc p).
Proof. solve_scans. Qed.
Lemma scans_user_grants u : scans (user_permission_scan_prefix realm u) (λ K, ∃ sc p, K = KGrant u sc p).
Proof. solve_scans. Qed.
Lemma scans_org_roles_realm : scans (org_extra_role_realm_scan_prefix realm) (λ K, ∃ o u name, K = KOrgRole o u name).
Proof. solve_scans. Qed.
Lemma scans_org_roles_org o : scans (org_extra_role_org_scan_prefix realm o) (λ K, ∃ u name, K = KOrgRole o u name).
Proof. solve_scans. Qed.
Lemma scans_org_roles_user o u : scans (org_extra_role_scan_prefix realm o u) (λ K, ∃ name, K = KOrgRole o u name).
Proof. solve_scans. Qed.
End rows.

#[global] Arguments enc : simpl never.
