(* ===== verification/RbacIntegrity.v ===== *)
(** * Role-based access control: integrity of the stored graph

What the rows of a realm promise each other: every row decodes under its key, every
primary row has its index rows and conversely, no row refers to a role or group
that does not exist, and role composition and group nesting have no cycle. The
changes the engine's operations make preserve it. *)
From stdpp Require Import relations.
From stdpp Require Import base list gmap strings sorting lexico.
From Stdlib Require Import Strings.Byte ZArith Lia.
From S2P Require Import Prelude OrdMap StorageTypes OrdSet RbacTypes RbacResolve RealmRows RbacKeys RbacStore RbacEngine RbacRows.

Open Scope Z_scope.

(** ** Acyclic relations *)

Definition acyclic {A} (R : relation A) : Prop := ∀ x, ¬ tc R x x.

Lemma acyclic_mono {A} (R R' : relation A) : (∀ x y, R' x y → R x y) → acyclic R → acyclic R'.
Proof.
intros Hsub Hac x Hx. apply (Hac x). assert (∀ y z, tc R' y z → tc R y z) as Hall; [|by apply Hall].
induction 1; [by apply tc_once, Hsub|by eapply tc_l; [apply Hsub|]].
Qed.

(** Edges added at one node keep the relation acyclic when no new target leads back
to the node. *)
Lemma acyclic_add {A} (R R' : relation A) i :
  acyclic R → (∀ x y, R' x y → R x y ∨ (x = i ∧ ¬ rtc R y i)) → acyclic R'.
Proof.
intros Hac Hnew.
assert (∀ p, rtc R' p i → rtc R p i) as Hback.
{ intros p Hp. remember i as j eqn:Hj. induction Hp as [p|p q j Hpq _ IH]; [apply rtc_refl|]. subst.
  destruct (Hnew _ _ Hpq) as [HR|[-> _]]; [|apply rtc_refl]. by apply rtc_l with q; [|apply IH]. }
assert (∀ x y, tc R' x y → tc R x y ∨ ∃ p, R' i p ∧ ¬ rtc R p i ∧ rtc R' p y ∧ rtc R' x i) as Hsplit.
{ intros x y. induction 1 as [x y Hxy|x q y Hxq Hqy IH].
  - destruct (Hnew _ _ Hxy) as [?|[-> Hn]]; [left; by apply tc_once|right; exists y].
    split_and!; try done; apply rtc_refl.
  - destruct (Hnew _ _ Hxq) as [HR|[-> Hn]].
    + destruct IH as [IH|(p & ? & ? & ? & ?)]; [left; by apply tc_l with q|right; exists p].
      split_and!; try done. by apply rtc_l with q.
    + right. exists q. split_and!; try done. by apply tc_rtc. }
intros x Hx. destruct (Hsplit _ _ Hx) as [?|(p & Hp & Hn & Hpx & Hxi)]; [by apply (Hac x)|].
apply Hn, Hback. by transitivity x.
Qed.

Section integrity.
Context `{!UuidText, !UuidTextLaws, !Json, !JsonLaws}.
Variable realm : RealmId.
Local Abbreviation Rows := (RowKey → option (list byte)).
Implicit Type T : RowKey → option (list byte).

#[export] Instance ser_role_inj : Inj (=) (=) ser_role.
Proof. intros a b Heq. apply (inj Some). by rewrite <-(de_ser_role a), <-(de_ser_role b), Heq. Qed.
#[export] Instance ser_group_inj : Inj (=) (=) ser_group.
Proof. intros a b Heq. apply (inj Some). by rewrite <-(de_ser_group a), <-(de_ser_group b), Heq. Qed.
#[export] Instance ser_id_inj : Inj (=) (=) ser_id.
Proof. intros a b Heq. apply (inj Some). by rewrite <-(de_ser_id a), <-(de_ser_id b), Heq. Qed.
#[export] Instance ser_assignment_inj : Inj (=) (=) ser_assignment.
Proof. intros a b Heq. apply (inj Some). by rewrite <-(de_ser_assignment a), <-(de_ser_assignment b), Heq. Qed.

(** ** The invariant *)

(** The key of a subject's index row. *)
Definition subject_row (sub : Subject) (id : AssignmentId) : RowKey :=
  match sub with SUser u => KAssignUser u id | SGroup g => KAssignGroup g id end.

(** What a row holds under its key. *)
Definition val_ok (K : RowKey) (v : list byte) : Prop :=
  match K with
  | KRole id => ∃ r, v = ser_role r ∧ ro_id r = id ∧ ro_realm_id r = realm
  | KRoleName _ | KGroupSlug _ => ∃ id, v = ser_id id
  | KGroup id => ∃ g, v = ser_group g ∧ gr_id g = id ∧ gr_realm_id g = realm
  | KAssign id => ∃ a, v = ser_assignment a ∧ ra_id a = id ∧ ra_realm_id a = realm
  | KAssignUser _ id | KAssignGroup _ id | KAssignRole _ id => v = ser_id id
  | KForward _ m => v = ser_member m
  | KReverse _ g => v = ser_id g
  | KPermission p => ∃ rec, v = ser_permission rec ∧ pr_name rec = p
  | KScope name => ∃ sc, v = ser_scope sc ∧ ss_name sc = name
  | KResourceScope _ => ∃ sc, v = ser_scope sc
  | KGrant u sc p => ∃ g, v = ser_grant g ∧ upg_user_id g = u ∧ upg_scope g = sc ∧ upg_permission g = p
  | KGrantIndex _ _ _ => v = []
  | KOrgRole _ _ name => v = ser_text name
  end.

Definition has T (K : RowKey) : Prop := is_Some (T K).
Definition role_at T (id : RoleId) (r : Role) : Prop := T (KRole id) = Some (ser_role r).
Definition group_at T (id : GroupId) (g : Group) : Prop := T (KGroup id) = Some (ser_group g).
Definition assign_at T (id : AssignmentId) (a : RoleAssignment) : Prop := T (KAssign id) = Some (ser_assignment a).

(** Role composition and group nesting, as stored. *)
Definition role_edge T (id p : RoleId) : Prop := ∃ r, role_at T id r ∧ p ∈ ro_parent_roles r.
Definition group_edge T (g child : GroupId) : Prop := has T (KForward g (MGroup child)).

Record roles_ok T : Prop := {
  rk_index id r : role_at T id r → T (KRoleName (ro_name r)) = Some (ser_id id);
  rk_name n v : T (KRoleName n) = Some v → ∃ id r, v = ser_id id ∧ role_at T id r ∧ ro_name r = n;
  rk_parents id r p : role_at T id r → p ∈ ro_parent_roles r → has T (KRole p);
  rk_acyclic : acyclic (role_edge T)
}.

Record groups_ok T : Prop := {
  gk_index id g : group_at T id g → T (KGroupSlug (gr_slug g)) = Some (ser_id id);
  gk_slug n v : T (KGroupSlug n) = Some v → ∃ id g, v = ser_id id ∧ group_at T id g ∧ gr_slug g = n;
  gk_mirror g m : has T (KForward g m) ↔ has T (KReverse m g);
  gk_owner g m : has T (KForward g m) → has T (KGroup g);
  gk_child g c : group_edge T g c → has T (KGroup c);
  gk_acyclic : acyclic (group_edge T)
}.

Record assigns_ok T : Prop := {
  ak_subject id a : assign_at T id a → has T (subject_row (ra_subject a) id);
  ak_role id a : assign_at T id a → has T (KAssignRole (ra_role_id a) id);
  ak_of_subject sub id : has T (subject_row sub id) → ∃ a, assign_at T id a ∧ ra_subject a = sub;
  ak_of_role r id : has T (KAssignRole r id) → ∃ a, assign_at T id a ∧ ra_role_id a = r;
  ak_role_exists id a : assign_at T id a → has T (KRole (ra_role_id a));
  ak_group_exists id a g : assign_at T id a → ra_subject a = SGroup g → has T (KGroup g)
}.

Definition grants_ok T : Prop := ∀ u sc p, has T (KGrant u sc p) ↔ has T (KGrantIndex p sc u).

Record rows_ok T : Prop := {
  rs_vals K v : T K = Some v → val_ok K v;
  rs_roles : roles_ok T;
  rs_groups : groups_ok T;
  rs_assigns : assigns_ok T;
  rs_grants : grants_ok T
}.

(** A realm's rows are sound. *)
Definition integrity (s : Store) : Prop := keyed realm s ∧ rows_ok (row realm s).

(** ** Reading sound rows *)

Lemma role_at_ok T id v : rows_ok T → T (KRole id) = Some v → ∃ r, role_at T id r ∧ ro_id r = id ∧ ro_realm_id r = realm.
Proof. intros Hok Hv. destruct (rs_vals _ Hok _ _ Hv) as (r & -> & ? & ?). by exists r. Qed.

Lemma group_at_ok T id v : rows_ok T → T (KGroup id) = Some v → ∃ g, group_at T id g ∧ gr_id g = id ∧ gr_realm_id g = realm.
Proof. intros Hok Hv. destruct (rs_vals _ Hok _ _ Hv) as (g & -> & ? & ?). by exists g. Qed.

Lemma assign_at_ok T id v : rows_ok T → T (KAssign id) = Some v →
  ∃ a, assign_at T id a ∧ ra_id a = id ∧ ra_realm_id a = realm.
Proof. intros Hok Hv. destruct (rs_vals _ Hok _ _ Hv) as (a & -> & ? & ?). by exists a. Qed.

Lemma role_at_unique T id r r' : role_at T id r → role_at T id r' → r = r'.
Proof. unfold role_at. intros -> [= ?%(inj ser_role)]. done. Qed.
Lemma group_at_unique T id g g' : group_at T id g → group_at T id g' → g = g'.
Proof. unfold group_at. intros -> [= ?%(inj ser_group)]. done. Qed.
Lemma assign_at_unique T id a a' : assign_at T id a → assign_at T id a' → a = a'.
Proof. unfold assign_at. intros -> [= ?%(inj ser_assignment)]. done. Qed.

(** The loads of the engine on sound rows. *)
Lemma row_load_ok {A} (de : list byte → option A) (ser : A → list byte) (realm_of : A → RealmId) s k :
  (∀ a, de (ser a) = Some a) → (∀ v, s !! k = Some v → ∃ a, v = ser a ∧ realm_of a = realm) →
  ∃ o, load realm de realm_of k s = Ok o ∧ s !! k = ser <$> o.
Proof.
intros Hde Hv. unfold load. destruct (s !! k) as [v|] eqn:Hs; [|by exists None].
destruct (Hv v) as (a & -> & Hr); [done|]. exists (Some a). rewrite Hde. simpl. by rewrite decide_True.
Qed.

Lemma load_role_ok s id : rows_ok (row realm s) →
  ∃ o, load_role realm s id = Ok o ∧ row realm s (KRole id) = ser_role <$> o ∧ (∀ r, o = Some r → ro_id r = id).
Proof.
intros Hok. destruct (row_load_ok de_role ser_role ro_realm_id s (encode_role id)) as (o & Ho & Hr).
- apply de_ser_role.
- intros v Hv. destruct (rs_vals _ Hok (KRole id) v Hv) as (r & -> & _ & ?). by exists r.
- exists o. repeat split; [done..|]. intros r ->.
  destruct (role_at_ok _ id _ Hok Hr) as (r' & Hr' & <- & _). by rewrite (role_at_unique _ _ _ _ Hr Hr').
Qed.

Lemma load_group_ok s id : rows_ok (row realm s) →
  ∃ o, load_group realm s id = Ok o ∧ row realm s (KGroup id) = ser_group <$> o ∧ (∀ g, o = Some g → gr_id g = id).
Proof.
intros Hok. destruct (row_load_ok de_group ser_group gr_realm_id s (encode_group id)) as (o & Ho & Hr).
- apply de_ser_group.
- intros v Hv. destruct (rs_vals _ Hok (KGroup id) v Hv) as (r & -> & _ & ?). by exists r.
- exists o. repeat split; [done..|]. intros r ->.
  destruct (group_at_ok _ id _ Hok Hr) as (r' & Hr' & <- & _). by rewrite (group_at_unique _ _ _ _ Hr Hr').
Qed.

Lemma load_assignment_ok s id : rows_ok (row realm s) →
  ∃ o, load_assignment realm s id = Ok o ∧ row realm s (KAssign id) = ser_assignment <$> o.
Proof.
intros Hok. apply (row_load_ok de_assignment ser_assignment ra_realm_id s (encode_assignment id)); [apply de_ser_assignment|].
intros v Hv. destruct (rs_vals _ Hok (KAssign id) v Hv) as (r & -> & _ & ?). by exists r.
Qed.

Lemma load_id_ok s k : (∀ v, s !! k = Some v → ∃ id, v = ser_id id) → ∃ o, load_id k s = Ok o ∧ s !! k = ser_id <$> o.
Proof.
intros Hv. unfold load_id. destruct (s !! k) as [v|] eqn:Hs; [|by exists None].
destruct (Hv v) as (id & ->); [done|]. exists (Some id). by rewrite de_ser_id.
Qed.

Lemma load_name_ok s name : rows_ok (row realm s) →
  ∃ o, load_role_id_by_name realm s name = Ok o ∧ row realm s (KRoleName name) = ser_id <$> o.
Proof. intros Hok. apply load_id_ok. intros v. apply (rs_vals _ Hok (KRoleName name)). Qed.

Lemma load_slug_ok s slug : rows_ok (row realm s) →
  ∃ o, load_group_id_by_slug realm s slug = Ok o ∧ row realm s (KGroupSlug slug) = ser_id <$> o.
Proof. intros Hok. apply load_id_ok. intros v. apply (rs_vals _ Hok (KGroupSlug slug)). Qed.

(** ** Changes *)

Definition role_key (K : RowKey) : Prop := match K with KRole _ | KRoleName _ => True | _ => False end.
Definition group_key (K : RowKey) : Prop :=
  match K with KGroup _ | KGroupSlug _ | KForward _ _ | KReverse _ _ => True | _ => False end.
Definition assign_key (K : RowKey) : Prop :=
  match K with KAssign _ | KAssignUser _ _ | KAssignGroup _ _ | KAssignRole _ _ => True | _ => False end.
Definition grant_key (K : RowKey) : Prop := match K with KGrant _ _ _ | KGrantIndex _ _ _ => True | _ => False end.

(** [T'] and [T] hold the same rows of a kind. *)
Definition same (kind : RowKey → Prop) T T' : Prop := ∀ K, kind K → T' K = T K.

Lemma same_role_at T T' id r : same role_key T T' → role_at T' id r ↔ role_at T id r.
Proof. intros Hs. unfold role_at. by rewrite (Hs (KRole id)). Qed.
Lemma same_assign_at T T' id a : same assign_key T T' → assign_at T' id a ↔ assign_at T id a.
Proof. intros Hs. unfold assign_at. by rewrite (Hs (KAssign id)). Qed.
Lemma same_has kind T T' K : same kind T T' → kind K → has T' K ↔ has T K.
Proof. intros Hs HK. unfold has. by rewrite Hs. Qed.

Lemma roles_ok_same T T' : same role_key T T' → roles_ok T → roles_ok T'.
Proof.
intros Hs [A1 A2 A3 A4]. split.
- intros id r. rewrite same_role_at by done. rewrite (Hs (KRoleName _)) by done. apply A1.
- intros n v. rewrite (Hs (KRoleName n)) by done. intros (id & r & ? & ? & ?)%A2. exists id, r. by rewrite same_role_at.
- intros id r p. rewrite same_role_at by done. rewrite (same_has role_key) by done. apply A3.
- revert A4. apply acyclic_mono. intros x y (r & Hr & Hy). exists r. by rewrite <-same_role_at.
Qed.

Lemma groups_ok_same T T' : same group_key T T' → groups_ok T → groups_ok T'.
Proof.
intros Hs [A1 A2 A3 A4 A5 A6]. unfold group_edge, group_at in *.
split; intros *; unfold group_edge, group_at; rewrite ?(same_has group_key T T') by done;
  rewrite ?(Hs (KGroup _)), ?(Hs (KGroupSlug _)) by done; eauto.
- intros (id & g & ? & ? & ?)%A2. exists id, g. by rewrite (Hs (KGroup _)).
- apply (acyclic_mono (λ g c, has T (KForward g (MGroup c)))); [|done].
  intros g c. by rewrite (same_has group_key).
Qed.

Lemma assigns_ok_same T T' : same assign_key T T' →
  (∀ id, has T (KRole id) → has T' (KRole id)) → (∀ id, has T (KGroup id) → has T' (KGroup id)) →
  assigns_ok T → assigns_ok T'.
Proof.
intros Hs Hr Hg [A1 A2 A3 A4 A5 A6].
assert (∀ sub id, assign_key (subject_row sub id)) as Hk by (intros [] ?; exact I).
split; intros *; rewrite ?same_assign_at, ?(same_has assign_key T T') by done; eauto.
- intros (a & ? & ?)%A3. exists a. by rewrite same_assign_at.
- intros (a & ? & ?)%A4. exists a. by rewrite same_assign_at.
Qed.

Lemma grants_ok_same T T' : same grant_key T T' → grants_ok T → grants_ok T'.
Proof. intros Hs Hg u sc p. rewrite !(same_has grant_key T T') by done. apply Hg. Qed.

(** A role is created, or replaced under its identifier, and takes its name; a name
that led to it no longer does. *)
Lemma roles_ok_set T T' id r' :
  roles_ok T → role_at T' id r' → (∀ x, x ≠ id → T' (KRole x) = T (KRole x)) →
  T' (KRoleName (ro_name r')) = Some (ser_id id) →
  (T (KRoleName (ro_name r')) = None ∨ T (KRoleName (ro_name r')) = Some (ser_id id)) →
  (∀ n, n ≠ ro_name r' → T (KRoleName n) = Some (ser_id id) → T' (KRoleName n) = None) →
  (∀ n, n ≠ ro_name r' → T (KRoleName n) ≠ Some (ser_id id) → T' (KRoleName n) = T (KRoleName n)) →
  (∀ p, p ∈ ro_parent_roles r' → has T (KRole p) ∧ ¬ rtc (role_edge T) p id) →
  roles_ok T'.
Proof.
intros [A1 A2 A3 A4] Hr' Hx Hn Hfree Hold Hother Hpar.
assert (∀ x r, role_at T' x r → x = id ∧ r = r' ∨ x ≠ id ∧ role_at T x r) as Hat.
{ intros x r Hr. destruct (decide (x = id)) as [->|Hne]; [left; split; [done|by apply (role_at_unique T' id)]|right].
  split; [done|]. unfold role_at in *. by rewrite <-Hx. }
assert (∀ p, has T (KRole p) → has T' (KRole p)) as Hmono.
{ intros p Hp. unfold has. destruct (decide (p = id)) as [->|]; [by rewrite Hr'|by rewrite Hx]. }
split.
- intros x r [[-> ->]|[Hne Hr]]%Hat; [done|]. pose proof (A1 _ _ Hr) as Hnm.
  destruct (decide (ro_name r = ro_name r')) as [Heq|Hnn].
  + exfalso. rewrite Heq in Hnm. destruct Hfree as [Hf|Hf]; rewrite Hf in Hnm; [done|].
    by injection Hnm as ?%(inj ser_id).
  + rewrite Hother; [done..|]. rewrite Hnm. by intros [= ?%(inj ser_id)].
- intros n v Hv. destruct (decide (n = ro_name r')) as [->|Hnn].
  { rewrite Hn in Hv. injection Hv as <-. by exists id, r'. }
  destruct (decide (T (KRoleName n) = Some (ser_id id))) as [Hid|Hid]; [by rewrite (Hold n) in Hv|].
  rewrite Hother in Hv by done. destruct (A2 _ _ Hv) as (x & r & -> & Hr & <-). exists x, r. split_and!; try done.
  unfold role_at. rewrite Hx; [done|]. intros ->. by rewrite Hv in Hid.
- intros x r p [[-> ->]|[Hne Hr]]%Hat Hp; apply Hmono; [by apply Hpar|by apply (A3 x r)].
- apply (acyclic_add (role_edge T) _ id); [done|]. intros x y (r & [[-> ->]|[Hne Hr]]%Hat & Hy).
  + right. by split; [|apply Hpar].
  + left. by exists r.
Qed.

(** A role goes, with its name, and no role keeps it as a parent. *)
Lemma roles_ok_delete T T' id r0 :
  roles_ok T → role_at T id r0 → T' (KRole id) = None → T' (KRoleName (ro_name r0)) = None →
  (∀ n, n ≠ ro_name r0 → T' (KRoleName n) = T (KRoleName n)) →
  (∀ x r, x ≠ id → role_at T x r → ∃ r', role_at T' x r' ∧ ro_name r' = ro_name r ∧
     ∀ p, p ∈ ro_parent_roles r' ↔ p ∈ ro_parent_roles r ∧ p ≠ id) →
  (∀ x, x ≠ id → T (KRole x) = None → T' (KRole x) = None) →
  (∀ x v, T (KRole x) = Some v → ∃ r, v = ser_role r) →
  roles_ok T'.
Proof.
intros [A1 A2 A3 A4] Hr0 Hid Hn Hnames Hkeep Hnone Hdec.
assert (∀ x r', role_at T' x r' → x ≠ id ∧ ∃ r, role_at T x r ∧ ro_name r' = ro_name r ∧
  ∀ p, p ∈ ro_parent_roles r' ↔ p ∈ ro_parent_roles r ∧ p ≠ id) as Hat.
{ intros x r' Hr'. assert (x ≠ id) as Hx by (intros ->; unfold role_at in Hr'; by rewrite Hid in Hr').
  split; [done|]. destruct (T (KRole x)) as [v|] eqn:HT; [|by apply Hnone in HT; [unfold role_at in Hr'; rewrite HT in Hr'|]].
  destruct (Hdec _ _ HT) as [r ->]. destruct (Hkeep x r Hx HT) as (r'' & Hr'' & ?). exists r.
  by rewrite (role_at_unique _ _ _ _ Hr' Hr''). }
split.
- intros x r' (Hx & r & Hr & Hnm & _)%Hat. rewrite Hnm. pose proof (A1 _ _ Hr) as Hi. rewrite Hnames; [done|].
  intros Heq. rewrite Heq, (A1 _ _ Hr0) in Hi. by injection Hi as ?%(inj ser_id).
- intros n v Hv. destruct (decide (n = ro_name r0)) as [->|Hne]; [by rewrite Hn in Hv|]. rewrite Hnames in Hv by done.
  destruct (A2 _ _ Hv) as (x & r & -> & Hr & <-). assert (x ≠ id) as Hx.
  { intros ->. by rewrite (role_at_unique _ _ _ _ Hr Hr0) in Hne. }
  destruct (Hkeep x r Hx Hr) as (r' & ? & ? & _). by exists x, r'.
- intros x r' p (Hx & r & Hr & _ & Hps)%Hat [Hp Hpid]%Hps. destruct (A3 _ _ _ Hr Hp) as [v Hv].
  destruct (Hdec _ _ Hv) as [rp ->]. destruct (Hkeep p rp Hpid Hv) as (rp' & Hrp' & _). unfold has. by rewrite Hrp'.
- apply (acyclic_mono (role_edge T)); [|done]. intros x y (r' & (_ & r & Hr & _ & Hps)%Hat & [Hy _]%Hps). by exists r.
Qed.

(** A group is created, or replaced under its identifier, and takes its slug. *)
Lemma groups_ok_set T T' id g' :
  groups_ok T → group_at T' id g' → (∀ x, x ≠ id → T' (KGroup x) = T (KGroup x)) →
  T' (KGroupSlug (gr_slug g')) = Some (ser_id id) →
  (T (KGroupSlug (gr_slug g')) = None ∨ T (KGroupSlug (gr_slug g')) = Some (ser_id id)) →
  (∀ n, n ≠ gr_slug g' → T (KGroupSlug n) = Some (ser_id id) → T' (KGroupSlug n) = None) →
  (∀ n, n ≠ gr_slug g' → T (KGroupSlug n) ≠ Some (ser_id id) → T' (KGroupSlug n) = T (KGroupSlug n)) →
  (∀ g m, T' (KForward g m) = T (KForward g m) ∧ T' (KReverse m g) = T (KReverse m g)) →
  groups_ok T'.
Proof.
intros [A1 A2 A3 A4 A5 A6] Hg' Hx Hn Hfree Hold Hother Hmem.
assert (∀ x g, group_at T' x g → x = id ∧ g = g' ∨ x ≠ id ∧ group_at T x g) as Hat.
{ intros x g Hg. destruct (decide (x = id)) as [->|Hne]; [left; split; [done|by apply (group_at_unique T' id)]|right].
  split; [done|]. unfold group_at in *. by rewrite <-Hx. }
assert (∀ p, has T (KGroup p) → has T' (KGroup p)) as Hmono.
{ intros p Hp. unfold has. destruct (decide (p = id)) as [->|]; [by rewrite Hg'|by rewrite Hx]. }
assert (∀ g m, has T' (KForward g m) ↔ has T (KForward g m)) as Hfw by (intros; unfold has; by rewrite (proj1 (Hmem _ _))).
assert (∀ g m, has T' (KReverse m g) ↔ has T (KReverse m g)) as Hrv by (intros; unfold has; by rewrite (proj2 (Hmem _ _))).
split.
- intros x g [[-> ->]|[Hne Hg]]%Hat; [done|]. pose proof (A1 _ _ Hg) as Hnm.
  destruct (decide (gr_slug g = gr_slug g')) as [Heq|Hnn].
  + exfalso. rewrite Heq in Hnm. destruct Hfree as [Hf|Hf]; rewrite Hf in Hnm; [done|].
    by injection Hnm as ?%(inj ser_id).
  + rewrite Hother; [done..|]. rewrite Hnm. by intros [= ?%(inj ser_id)].
- intros n v Hv. destruct (decide (n = gr_slug g')) as [->|Hnn].
  { rewrite Hn in Hv. injection Hv as <-. by exists id, g'. }
  destruct (decide (T (KGroupSlug n) = Some (ser_id id))) as [Hid|Hid]; [by rewrite (Hold n) in Hv|].
  rewrite Hother in Hv by done. destruct (A2 _ _ Hv) as (x & g & -> & Hg & <-). exists x, g. split_and!; try done.
  unfold group_at. rewrite Hx; [done|]. intros ->. by rewrite Hv in Hid.
- intros g m. by rewrite Hfw, Hrv.
- intros g m. rewrite Hfw. intros ?%A4. by apply Hmono.
- intros g c Hc. apply Hmono, (A5 g). unfold group_edge in *. by rewrite <-Hfw.
- apply (acyclic_mono (group_edge T)); [|done]. intros g c. unfold group_edge. by rewrite Hfw.
Qed.

(** A group goes, with its slug; no membership row mentions it. *)
Lemma groups_ok_delete T T' id g0 :
  groups_ok T → group_at T id g0 → T' (KGroup id) = None → (∀ x, x ≠ id → T' (KGroup x) = T (KGroup x)) →
  T' (KGroupSlug (gr_slug g0)) = None → (∀ n, n ≠ gr_slug g0 → T' (KGroupSlug n) = T (KGroupSlug n)) →
  (∀ g m, T' (KForward g m) = T (KForward g m) ∧ T' (KReverse m g) = T (KReverse m g)) →
  (∀ m, ¬ has T (KForward id m)) → (∀ g, ¬ has T (KForward g (MGroup id))) →
  groups_ok T'.
Proof.
intros [A1 A2 A3 A4 A5 A6] Hg0 Hid Hx Hn Hnames Hmem Hno1 Hno2.
assert (∀ g m, has T' (KForward g m) ↔ has T (KForward g m)) as Hfw by (intros; unfold has; by rewrite (proj1 (Hmem _ _))).
assert (∀ g m, has T' (KReverse m g) ↔ has T (KReverse m g)) as Hrv by (intros; unfold has; by rewrite (proj2 (Hmem _ _))).
assert (∀ x g, group_at T' x g → x ≠ id ∧ group_at T x g) as Hat.
{ intros x g Hg. assert (x ≠ id) as Hne by (intros ->; unfold group_at in Hg; by rewrite Hid in Hg).
  split; [done|]. unfold group_at in *. by rewrite <-Hx. }
split.
- intros x g [Hne Hg]%Hat. pose proof (A1 _ _ Hg) as Hi. rewrite Hnames; [done|]. intros Heq.
  rewrite Heq, (A1 _ _ Hg0) in Hi. by injection Hi as ?%(inj ser_id).
- intros n v Hv. destruct (decide (n = gr_slug g0)) as [->|Hne]; [by rewrite Hn in Hv|]. rewrite Hnames in Hv by done.
  destruct (A2 _ _ Hv) as (x & g & -> & Hg & <-). exists x, g. split_and!; try done. unfold group_at. rewrite Hx; [done|].
  intros ->. by rewrite (group_at_unique _ _ _ _ Hg Hg0) in Hne.
- intros g m. by rewrite Hfw, Hrv.
- intros g m. rewrite Hfw. intros Hm. unfold has. rewrite Hx; [by apply (A4 g m)|]. intros ->. by apply (Hno1 m).
- intros g c. unfold group_edge. rewrite Hfw. intros Hc. unfold has. rewrite Hx; [by apply (A5 g c)|].
  intros ->. by apply (Hno2 g).
- apply (acyclic_mono (group_edge T)); [|done]. intros g c. unfold group_edge. by rewrite Hfw.
Qed.

(** A membership is recorded, both ways. *)
Lemma groups_ok_link T T' g m v w :
  groups_ok T → same (λ K, group_key K ∧ K ≠ KForward g m ∧ K ≠ KReverse m g) T T' →
  T' (KForward g m) = Some v → T' (KReverse m g) = Some w → has T (KGroup g) →
  (∀ c, m = MGroup c → has T (KGroup c) ∧ ¬ rtc (group_edge T) c g) →
  groups_ok T'.
Proof.
intros [A1 A2 A3 A4 A5 A6] Hs Hf Hr Hg Hc.
assert (∀ K, group_key K → K ≠ KForward g m → K ≠ KReverse m g → T' K = T K) as Hsame by (intros; by apply Hs).
assert (∀ g' m', has T' (KForward g' m') ↔ has T (KForward g' m') ∨ (g' = g ∧ m' = m)) as Hfw.
{ intros g' m'. unfold has. destruct (decide (KForward g' m' = KForward g m)) as [[= -> ->]|Hne].
  - rewrite Hf. split; [by right|done].
  - rewrite Hsame by done. split; [by left|]. by intros [?|[-> ->]]. }
assert (∀ g' m', has T' (KReverse m' g') ↔ has T (KReverse m' g') ∨ (g' = g ∧ m' = m)) as Hrv.
{ intros g' m'. unfold has. destruct (decide (KReverse m' g' = KReverse m g)) as [[= -> ->]|Hne].
  - rewrite Hr. split; [by right|done].
  - rewrite Hsame by done. split; [by left|]. by intros [?|[-> ->]]. }
split; unfold group_at, group_edge in *.
- intros *. rewrite !Hsame by done. apply A1.
- intros *. rewrite Hsame by done. intros (id & gr & ?)%A2. exists id, gr. by rewrite Hsame.
- intros g' m'. by rewrite Hfw, Hrv, A3.
- intros g' m'. rewrite Hfw. unfold has. rewrite Hsame by done. intros [?%A4|[-> _]]; done.
- intros g' c. rewrite Hfw. unfold has. rewrite Hsame by done. intros [?%A5|[_ ?]]; [done|]. by apply Hc.
- apply (acyclic_add (λ g c, has T (KForward g (MGroup c))) _ g); [done|]. intros x y. rewrite Hfw.
  intros [?|[-> Hm]]; [by left|right]. split; [done|]. by apply Hc.
Qed.

(** A membership goes, both ways. *)
Lemma groups_ok_unlink T T' g m :
  groups_ok T → same (λ K, group_key K ∧ K ≠ KForward g m ∧ K ≠ KReverse m g) T T' →
  T' (KForward g m) = None → T' (KReverse m g) = None → groups_ok T'.
Proof.
intros [A1 A2 A3 A4 A5 A6] Hs Hf Hr.
assert (∀ K, group_key K → K ≠ KForward g m → K ≠ KReverse m g → T' K = T K) as Hsame by (intros; by apply Hs).
assert (∀ g' m', has T' (KForward g' m') ↔ has T (KForward g' m') ∧ ¬ (g' = g ∧ m' = m)) as Hfw.
{ intros g' m'. unfold has. destruct (decide (KForward g' m' = KForward g m)) as [[= -> ->]|Hne].
  - rewrite Hf. rewrite <-not_eq_None_Some. naive_solver.
  - rewrite Hsame by done. naive_solver. }
assert (∀ g' m', has T' (KReverse m' g') ↔ has T (KReverse m' g') ∧ ¬ (g' = g ∧ m' = m)) as Hrv.
{ intros g' m'. unfold has. destruct (decide (KReverse m' g' = KReverse m g)) as [[= -> ->]|Hne].
  - rewrite Hr. rewrite <-not_eq_None_Some. naive_solver.
  - rewrite Hsame by done. naive_solver. }
split; unfold group_at, group_edge in *.
- intros *. rewrite !Hsame by done. apply A1.
- intros *. rewrite Hsame by done. intros (id & gr & ?)%A2. exists id, gr. by rewrite Hsame.
- intros g' m'. by rewrite Hfw, Hrv, A3.
- intros g' m'. rewrite Hfw. unfold has. rewrite Hsame by done. intros [?%A4 _]; done.
- intros g' c. rewrite Hfw. unfold has. rewrite Hsame by done. intros [?%A5 _]; done.
- apply (acyclic_mono (λ g c, has T (KForward g (MGroup c)))); [|done]. intros x y. rewrite Hfw. by intros [? _].
Qed.

(** An assignment is recorded under an unused identifier. *)
Lemma assigns_ok_add T T' id a v w :
  assigns_ok T → T (KAssign id) = None →
  same (λ K, assign_key K ∧ K ≠ KAssign id ∧ K ≠ subject_row (ra_subject a) id ∧ K ≠ KAssignRole (ra_role_id a) id) T T' →
  assign_at T' id a → T' (subject_row (ra_subject a) id) = Some v → T' (KAssignRole (ra_role_id a) id) = Some w →
  (∀ x, has T (KRole x) → has T' (KRole x)) → (∀ x, has T (KGroup x) → has T' (KGroup x)) →
  has T (KRole (ra_role_id a)) → (∀ g, ra_subject a = SGroup g → has T (KGroup g)) →
  assigns_ok T'.
Proof.
intros [A1 A2 A3 A4 A5 A6] Hnone Hs Ha Hsub Hrole Hmr Hmg Hr Hg.
assert (∀ K, assign_key K → K ≠ KAssign id → K ≠ subject_row (ra_subject a) id →
  K ≠ KAssignRole (ra_role_id a) id → T' K = T K) as Hsame by (intros; by apply Hs).
assert (∀ sub x, assign_key (subject_row sub x)) as Hk by (intros [] ?; exact I).
assert (∀ sub x sub' x', subject_row sub x = subject_row sub' x' → sub = sub' ∧ x = x') as Hinj
  by (intros [] ? [] ?; simpl; intros; by simplify_eq).
assert (∀ x b, assign_at T' x b → x = id ∧ b = a ∨ x ≠ id ∧ assign_at T x b) as Hat.
{ intros x b Hb. destruct (decide (x = id)) as [->|Hne]; [left; split; [done|by apply (assign_at_unique T' id)]|right].
  split; [done|]. unfold assign_at in *. rewrite Hsame in Hb; try done; [congruence|by destruct (ra_subject a)]. }
assert (∀ x b, x ≠ id → assign_at T x b → assign_at T' x b) as Hat'.
{ intros x b Hne Hb. unfold assign_at in *. rewrite Hsame; try done; [congruence|by destruct (ra_subject a)]. }
split.
- intros x b [[-> ->]|[Hne Hb]]%Hat; [unfold has; by rewrite Hsub|]. unfold has. rewrite Hsame; try done.
  + by apply A1.
  + by destruct (ra_subject b).
  + intros [_ ?]%Hinj. done.
  + by destruct (ra_subject b).
- intros x b [[-> ->]|[Hne Hb]]%Hat; [unfold has; by rewrite Hrole|]. unfold has. rewrite Hsame; try done.
  + by apply A2.
  + by destruct (ra_subject a).
  + congruence.
- intros sub x Hx. destruct (decide (subject_row sub x = subject_row (ra_subject a) id)) as [Heq|Hne].
  { apply Hinj in Heq as [-> ->]. by exists a. }
  unfold has in Hx. rewrite Hsame in Hx; try done; [|by destruct sub..]. destruct (A3 _ _ Hx) as (b & Hb & Hbs). exists b.
  split; [|done]. apply Hat'; [|done]. intros ->. unfold assign_at in Hb. by rewrite Hnone in Hb.
- intros r x Hx. destruct (decide (KAssignRole r x = KAssignRole (ra_role_id a) id)) as [[= -> ->]|Hne]; [by exists a|].
  unfold has in Hx. rewrite Hsame in Hx; try done; [|by destruct (ra_subject a)].
  destruct (A4 _ _ Hx) as (b & Hb & Hbr). exists b.
  split; [|done]. apply Hat'; [|done]. intros ->. unfold assign_at in Hb. by rewrite Hnone in Hb.
- intros x b [[-> ->]|[Hne Hb]]%Hat; apply Hmr; [done|by apply (A5 x)].
- intros x b g [[-> ->]|[Hne Hb]]%Hat Hbg; apply Hmg; [by apply Hg|by apply (A6 x b)].
Qed.

(** Assignments go, with their index rows; what the others refer to stays. *)
Lemma assigns_ok_remove T T' (D : AssignmentId → Prop) :
  assigns_ok T →
  (∀ K id, K = KAssign id ∨ (∃ sub, K = subject_row sub id) ∨ (∃ r, K = KAssignRole r id) →
     (D id → T' K = None) ∧ (¬ D id → T' K = T K)) →
  (∀ id, D id ∨ ¬ D id) →
  (∀ id a, ¬ D id → assign_at T id a → has T' (KRole (ra_role_id a)) ∧ ∀ g, ra_subject a = SGroup g → has T' (KGroup g)) →
  assigns_ok T'.
Proof.
intros [A1 A2 A3 A4 A5 A6] Hrows Hdec Hrefs.
assert (∀ id K, K = KAssign id ∨ (∃ sub, K = subject_row sub id) ∨ (∃ r, K = KAssignRole r id) →
  is_Some (T' K) → ¬ D id ∧ T' K = T K) as Hin.
{ intros id K HK [v Hv]. destruct (Hrows K id HK) as [B1 B2]. destruct (Hdec id) as [Hd|Hd].
  - by rewrite (B1 Hd) in Hv.
  - split; [done|by apply B2]. }
assert (∀ id a, assign_at T' id a ↔ ¬ D id ∧ assign_at T id a) as Hat.
{ intros id a. unfold assign_at. split.
  - intros Ha. destruct (Hin id (KAssign id)) as [Hd Heq]; [by left|by eexists|]. by rewrite <-Heq.
  - intros [Hd Ha]. by rewrite (proj2 (Hrows (KAssign id) id ltac:(by left)) Hd). }
split.
- intros id a [Hd Ha]%Hat. unfold has. rewrite (proj2 (Hrows (subject_row (ra_subject a) id) id ltac:(right; left; by eexists)) Hd).
  by apply A1.
- intros id a [Hd Ha]%Hat. unfold has. rewrite (proj2 (Hrows (KAssignRole (ra_role_id a) id) id ltac:(right; right; by eexists)) Hd).
  by apply A2.
- intros sub id Hx. destruct (Hin id (subject_row sub id)) as [Hd Heq]; [right; left; by eexists|done|].
  unfold has in Hx. rewrite Heq in Hx. destruct (A3 _ _ Hx) as (a & Ha & ?). exists a. by rewrite Hat.
- intros r id Hx. destruct (Hin id (KAssignRole r id)) as [Hd Heq]; [right; right; by eexists|done|].
  unfold has in Hx. rewrite Heq in Hx. destruct (A4 _ _ Hx) as (a & Ha & ?). exists a. by rewrite Hat.
- intros id a [Hd Ha]%Hat. by apply (Hrefs id).
- intros id a g [Hd Ha]%Hat Hg. by apply (Hrefs id a).
Qed.
End integrity.
