(* ===== verification/RbacCycles.v ===== *)
(** * Role-based access control: the write-time cycle checks

[check_role_parents_no_cycle] and [check_group_no_cycle] ([rbac/engine.rs]): a check
that passes rules out that the edge about to be written closes a cycle, and the
walk over nested groups always ends. *)
From stdpp Require Import relations.
From stdpp Require Import base list gmap strings sorting lexico.
From Stdlib Require Import Strings.Byte ZArith Lia.
From S2P Require Import Prelude OrdMap StorageTypes OrdSet RbacTypes RbacResolve RealmRows RbacKeys RbacStore RbacEngine RbacRows.
From S2P Require Import RbacIntegrity.

Open Scope Z_scope.

Lemma fold_res_chain {E A B} (f : A → B → outcome E A) (P : list B → A → Prop) l a a' :
  fold_res f a l = Ok a' → P [] a →
  (∀ done b a a', b ∈ l → P done a → f a b = Ok a' → P (done ++ [b]) a') → P l a'.
Proof.
intros Hf H0 Hstep. cut (∀ done todo a, l = done ++ todo → P done a → fold_res f a todo = Ok a' → P l a').
{ intros Hcut. by apply (Hcut [] l a). }
clear a Hf H0. intros done todo. revert done. induction todo as [|b todo IH]; intros done a Hl HP Hf; simpl in Hf.
- injection Hf as <-. by rewrite Hl, app_nil_r.
- destruct (f a b) as [a1| |] eqn:Hb; simpl in Hf; try done. apply (IH (done ++ [b]) a1); [|..|done].
  + by rewrite Hl, <-app_assoc.
  + apply (Hstep done b a); [rewrite Hl; set_solver|done..].
Qed.

Section cycles.
Context `{!UuidText, !UuidTextLaws, !Json, !JsonLaws}.
Variable realm : RealmId.
Variable s : Store.
Hypothesis Hrows : rows_ok realm (row realm s).
Local Abbreviation T := (row realm s).

(** ** Roles *)

(** From [V] to [V'] a walk has explored: what it added is not [start], and has all
its parents in [V'], none of them [start]. *)
Definition explored (start : RoleId) (V V' : gset RoleId) : Prop :=
  V ⊆ V' ∧ ∀ x, x ∈ V' → x ∉ V → x ≠ start ∧ ∀ y, role_edge T x y → y ∈ V' ∧ y ≠ start.

Lemma explored_refl start V : explored start V V.
Proof. split; [done|]. intros x ? ?. done. Qed.

Lemma explored_trans start V V1 V2 : explored start V V1 → explored start V1 V2 → explored start V V2.
Proof.
intros [Hs1 He1] [Hs2 He2]. split; [set_solver|]. intros x Hx Hn. destruct (decide (x ∈ V1)) as [Hx1|Hx1]; [|by apply He2].
destruct (He1 x Hx1 Hn) as [? Hy]. split; [done|]. intros y [? ?]%Hy. set_solver.
Qed.

(** Walking a list of nodes none of which is [start]. *)
Lemma fold_explored (start : RoleId) (walk : gset RoleId → RoleId → rres (gset RoleId)) (l : list RoleId) (V V' : gset RoleId) :
  fold_res (λ (V : gset RoleId) (p : RoleId), if decide (p = start) then Err (CycleDetected CycleRoles (uuid_to_string start)) else walk V p) V l = Ok V' →
  (∀ V p (V' : gset RoleId), p ∈ l → p ≠ start → walk V p = Ok V' → explored start V V' ∧ p ∈ V') →
  explored start V V' ∧ ∀ p, p ∈ l → p ∈ V' ∧ p ≠ start.
Proof.
intros Hf Hw. eapply (fold_res_chain _ (λ done W, explored start V W ∧ ∀ p, p ∈ done → p ∈ W ∧ p ≠ start) _ _ _ Hf).
- split; [apply explored_refl|]. by intros p ?%elem_of_nil.
- intros done b W W' Hb [He Hin] Hstep. cbv beta in Hstep. case_decide as Hbs; [done|].
  destruct (Hw _ _ _ Hb Hbs Hstep) as [He' Hb']. split; [by apply explored_trans with W|].
  intros p [Hp| ->%list_elem_of_singleton]%elem_of_app; [|done]. destruct (Hin p Hp). destruct He' as [Hsub _]. set_solver.
Qed.

Lemma walk_explored fuel start cur V depth V' :
  walk_role_parents realm fuel s start cur V depth = Ok V' → cur ≠ start → explored start V V' ∧ cur ∈ V'.
Proof.
revert cur V depth V'. induction fuel as [|fuel IH]; intros cur V depth V'; cbn [walk_role_parents]; [done|].
case_match; [done|]. case_decide as Hcur; [intros [= <-] _; split; [apply explored_refl|done]|].
destruct (load_role_ok realm s cur Hrows) as (o & -> & Ho & _). cbn [mbind outcome_bind]. intros Hw Hne.
destruct o as [role|].
- apply fold_explored in Hw as [He Hpar]; [|intros W p W' _ Hp HW; by apply (IH _ _ _ _ HW)].
  destruct He as [Hsub He]. split; [|set_solver]. split; [set_solver|]. intros x Hx Hn.
  destruct (decide (x = cur)) as [->|Hxc]; [|apply He; set_solver].
  split; [done|]. intros y (r & Hr & Hy). assert (role_at T cur role) as Hrole by exact Ho.
  rewrite (role_at_unique _ _ _ _ Hr Hrole) in Hy. by apply Hpar.
- injection Hw as <-. split; [|set_solver]. split; [set_solver|]. intros x Hx Hn.
  assert (x = cur) as -> by set_solver. split; [done|]. intros y (r & Hr & _). unfold role_at in Hr.
  simpl in Ho. congruence.
Qed.

(** A passed check: no listed parent leads back to the role. *)
Lemma check_role_sound start parents :
  check_role_parents_no_cycle realm s start parents = Ok tt → ∀ p, p ∈ parents → ¬ rtc (role_edge T) p start.
Proof.
unfold check_role_parents_no_cycle. intros Hc p Hp Hback.
destruct (fold_res _ _ parents) as [V| |] eqn:Hf; try done. clear Hc.
apply fold_explored in Hf as [[_ He] Hpar].
- destruct (Hpar p Hp) as [HpV Hps]. assert (∀ x y, rtc (role_edge T) x y → x ∈ V → y ≠ start) as Hno.
  { induction 1 as [x|x y z Hxy _ IH]; intros Hx; [by apply He|]. apply IH. by apply (He x). }
  by apply (Hno _ _ Hback).
- intros W q W' _ Hq HW. by apply (walk_explored _ _ _ _ _ _ HW).
Qed.

(** The walk never nests deeper than its fuel. *)
Lemma walk_fuel fuel start cur V depth : (S MAX_ROLE_DEPTH < fuel + depth)%nat → (0 < fuel)%nat →
  walk_role_parents realm fuel s start cur V depth ≠ Panic.
Proof.
revert cur V depth. induction fuel as [|fuel IH]; intros cur V depth Hf Hpos; [lia|]. cbn [walk_role_parents].
destruct (Nat.ltb_spec MAX_ROLE_DEPTH depth); [done|]. case_decide; [done|].
destruct (load_role_ok realm s cur Hrows) as ([role|] & -> & _); cbn [mbind outcome_bind]; [|done].
generalize ({[cur]} ∪ V). induction (ro_parent_roles role) as [|p ps IHps]; intros W; cbn [fold_res]; [done|].
case_decide; cbn [mbind outcome_bind]; [done|].
destruct (walk_role_parents realm fuel s start p W (S depth)) eqn:HW; cbn [mbind outcome_bind]; [apply IHps|done|].
exfalso. revert HW. apply IH; lia.
Qed.

(** ** Groups *)

Hypothesis Hkeyed : keyed realm s.

Lemma forward_entry g e : e ∈ scan_prefix (gm_forward_scan_prefix g) s → ∃ m, se_value e = ser_member m ∧ has T (KForward g m).
Proof.
intros (K & [m ->] & _ & Hv)%(scans_forward realm g s e Hkeyed). exists m. split; [|by eexists].
by apply (rs_vals _ _ Hrows _ _ Hv).
Qed.

Lemma forward_listed g m : has T (KForward g m) → ∃ e, e ∈ scan_prefix (gm_forward_scan_prefix g) s ∧ se_value e = ser_member m.
Proof.
intros [v Hv]. exists (Scan (enc realm (KForward g m)) v). split; [|by apply (rs_vals _ _ Hrows _ _ Hv)].
apply (scans_forward realm g s _ Hkeyed). exists (KForward g m). eauto.
Qed.

(** The members pushed are the member groups, and the target is not among them. *)
Lemma push_children_ok target g depth children : push_children s target g depth = Ok children →
  (∀ c, group_edge T g c → c ∈ children.*1) ∧ target ∉ children.*1 ∧
  (length children ≤ length (scan_prefix (gm_forward_scan_prefix g) s))%nat.
Proof.
unfold push_children. intros Hf.
pose proof (fold_res_chain _ (λ done acc, (∀ e c, e ∈ done → se_value e = ser_member (MGroup c) → c ∈ acc.*1) ∧
  target ∉ acc.*1 ∧ (length acc ≤ length done)%nat) _ _ _ Hf) as (Hc & Ht & Hlen).
- split_and!; [by intros e c ?%elem_of_nil|apply not_elem_of_nil|done].
- intros done e acc acc' He (Hin & Ht & Hlen). destruct (forward_entry g e He) as (m & Hm & _). rewrite Hm, de_ser_member. simpl.
  assert (∀ c, se_value e = ser_member (MGroup c) → m = MGroup c) as Hmc.
  { intros c Hv. rewrite Hm in Hv. apply (f_equal de_member) in Hv. rewrite !de_ser_member in Hv. by simplify_eq. }
  destruct m as [u|c].
  + intros [= <-]. split_and!; [|done|rewrite length_app; simpl; lia].
    intros e' c [He'| ->%list_elem_of_singleton]%elem_of_app Hv; [by apply (Hin e')|by apply Hmc in Hv].
  + case_decide as Hct; simpl; [done|]. intros [= <-]. split_and!; [|set_solver|rewrite length_app; simpl; lia].
    intros e' c' [He'| ->%list_elem_of_singleton]%elem_of_app Hv; cbn [fmap list_fmap fst].
    * right. by apply (Hin e').
    * apply Hmc in Hv as [= ->]. left.
- split_and!; [|done..]. intros c (e & He & Hv)%forward_listed. by apply (Hc e).
Qed.

Lemma push_children_total target g depth : push_children s target g depth ≠ Panic.
Proof.
unfold push_children. assert (∀ e, e ∈ scan_prefix (gm_forward_scan_prefix g) s → ∃ m, de_member (se_value e) = Some m) as Hde.
{ intros e (m & -> & _)%forward_entry. exists m. apply de_ser_member. }
revert Hde. generalize (scan_prefix (gm_forward_scan_prefix g) s), (@nil (GroupId * nat)).
intros l. induction l as [|e l IH]; intros acc Hde; cbn [fold_res]; [done|].
destruct (Hde e) as [m ->]; [left|]. simpl.
destruct m as [u|c]; [|case_decide; simpl; [done|]]; simpl; apply IH; intros; apply Hde; by right.
Qed.

(** What the loop maintains: the target is not in sight, and every member of a
visited group is visited or waiting. *)
Definition cycle_inv (target : GroupId) (visited : gset GroupId) (stack : list GroupId) : Prop :=
  target ∉ visited ∧ target ∉ stack ∧ ∀ x c, x ∈ visited → group_edge T x c → c ∈ visited ∨ c ∈ stack.

Lemma group_loop_sound fuel target visited stack :
  group_cycle_loop fuel s target visited stack = Some (Ok tt) → cycle_inv target visited stack.*1 →
  ∃ V, visited ⊆ V ∧ (∀ x, x ∈ stack.*1 → x ∈ V) ∧ cycle_inv target V [].
Proof.
revert visited stack. induction fuel as [|fuel IH]; intros visited stack; cbn [group_cycle_loop]; [done|].
destruct stack as [|[cur depth] stack]; [intros _ Hinv; exists visited; set_solver|].
case_match; [done|]. cbn [fmap list_fmap fst]. intros Hloop (Ht & Hts & Hcl). apply not_elem_of_cons in Hts as [Htc Hts].
case_decide as Hcur.
- apply IH in Hloop as (V & HV & Hst & Hinv); [exists V; set_solver|]. split_and!; [done..|].
  intros x c Hx Hc. destruct (Hcl x c Hx Hc) as [?|[->|?]%elem_of_cons]; auto.
- destruct (push_children s target cur depth) as [children| |] eqn:Hp; try done.
  apply push_children_ok in Hp as (Hch & Htch & _). apply IH in Hloop as (V & HV & Hst & Hinv).
  + exists V. rewrite fmap_app in Hst. set_solver.
  + rewrite fmap_app. split_and!; [set_solver..|]. intros x c [->%elem_of_singleton|Hx]%elem_of_union Hc.
    * right. apply elem_of_app. left. by apply Hch.
    * destruct (Hcl x c Hx Hc) as [?|[->|?]%elem_of_cons]; set_solver.
Qed.

(** A passed check: the member group does not contain the target. *)
Lemma check_group_sound target g : check_group_no_cycle s target (MGroup g) = Ok tt → ¬ rtc (group_edge T) g target.
Proof.
unfold check_group_no_cycle. case_decide as Hg; [done|]. intros Hc Hback.
destruct (group_cycle_loop _ _ _ _ _) as [r|] eqn:Hl; simpl in Hc; [subst r|done].
apply group_loop_sound in Hl as (V & _ & Hst & Ht & _ & Hcl).
- assert (∀ x y, rtc (group_edge T) x y → x ∈ V → y ∈ V) as Hin.
  { induction 1 as [x|x y z Hxy _ IH]; intros Hx; [done|]. apply IH. destruct (Hcl x y Hx Hxy) as [?|?%elem_of_nil]; done. }
  apply Ht, (Hin g); [done|]. apply Hst. left.
- split_and!; [set_solver|set_solver|]. intros x c ?%elem_of_empty. done.
Qed.

(** *** The loop ends *)

(** The rows not under a visited group's prefix. *)
Definition unseen (visited : gset GroupId) (k : list byte) : Prop :=
  Forall (λ g, ¬ gm_forward_scan_prefix g `prefix_of` k) (elements visited).
Definition remaining (visited : gset GroupId) : nat := length (filter (unseen visited) (elements (dom s))).

Lemma forward_prefix_unique g g' k : gm_forward_scan_prefix g `prefix_of` k → gm_forward_scan_prefix g' `prefix_of` k → g = g'.
Proof.
assert (∀ x, Forall (λ f, colon ∉ f) [w_rba; w_gm; w_group; uuid_to_string x; w_member]) as Hc.
{ intros x. repeat constructor; try apply uuid_text_no_colon; by apply (bool_decide_unpack _). }
unfold gm_forward_scan_prefix. rewrite !prefix_fields by apply Hc. intros (r & Hr & _) (r' & Hr' & _).
rewrite Hr in Hr'. injection Hr' as Ht _. by apply (inj uuid_to_string).
Qed.

Lemma length_filter_split {A} (P Q R : A → Prop) `{!∀ x, Decision (P x), !∀ x, Decision (Q x), !∀ x, Decision (R x)} l :
  (∀ x, Q x ∨ R x → P x) → (∀ x, Q x → ¬ R x) → (length (filter Q l) + length (filter R l) ≤ length (filter P l))%nat.
Proof.
intros HP HQR. induction l as [|x l IH]; [done|]. rewrite !filter_cons.
repeat case_decide; simpl; try lia; exfalso; naive_solver.
Qed.

Lemma scan_prefix_length p : (∃ b, last p = Some b ∧ byte_val b ≠ 255) →
  length (scan_prefix p s) = length (filter (λ k, p `prefix_of` k) (elements (dom s))).
Proof.
intros Hp. rewrite <-(length_fmap se_key). apply Permutation_length, NoDup_Permutation.
- apply scan_nodup.
- apply NoDup_filter, NoDup_elements.
- intros k. rewrite list_elem_of_fmap, list_elem_of_filter, elem_of_elements, elem_of_dom. split.
  + intros (e & -> & [Hs Hw]%elem_of_scan). split; [|by eexists]. apply (prefix_window p (se_key e)); [done|].
    unfold in_window in Hw. apply andb_true_iff in Hw as [Hw1 Hw2]. rewrite negb_true_iff, <-not_true_iff_false, ord_lt_iff in Hw1.
    by rewrite ord_lt_iff in Hw2.
  + intros [Hpre [v Hv]]. exists (Scan k v). split; [done|]. apply elem_of_scan. split; [done|].
    apply (prefix_window p k) in Hpre as [H1' H2']; [|done]. unfold in_window. apply andb_true_iff. simpl.
    by rewrite negb_true_iff, <-not_true_iff_false, !ord_lt_iff.
Qed.

Lemma remaining_visit g visited : g ∉ visited →
  (length (scan_prefix (gm_forward_scan_prefix g) s) + remaining ({[g]} ∪ visited) ≤ remaining visited)%nat.
Proof.
intros Hg. rewrite scan_prefix_length by (exists colon; split; [apply key_of_last|done]).
unfold remaining. apply length_filter_split.
- intros k [Hk|Hk]; apply Forall_forall; intros g' Hg'%elem_of_elements Hpre.
  + apply Hg. by rewrite (forward_prefix_unique _ _ _ Hk Hpre).
  + apply (proj1 (Forall_forall _ _) Hk g'); [|done]. apply elem_of_elements. set_solver.
- intros k Hk Hu. apply (proj1 (Forall_forall _ _) Hu g); [|done]. apply elem_of_elements. set_solver.
Qed.

Lemma group_loop_ends fuel target visited stack : (length stack + remaining visited < fuel)%nat →
  group_cycle_loop fuel s target visited stack ≠ None.
Proof.
revert visited stack. induction fuel as [|fuel IH]; intros visited stack Hf; [lia|]. cbn [group_cycle_loop].
destruct stack as [|[cur depth] stack]; [done|]. cbn [length] in Hf. case_match; [done|].
case_decide as Hcur; [apply IH; lia|]. destruct (push_children s target cur depth) as [children| |] eqn:Hp; [|done..].
apply push_children_ok in Hp as (_ & _ & Hlen). apply IH. rewrite length_app. pose proof (remaining_visit cur visited Hcur). lia.
Qed.

Lemma check_group_total target m : check_group_no_cycle s target m ≠ Panic.
Proof.
unfold check_group_no_cycle. destruct m as [u|g]; [done|]. case_decide; [done|].
destruct (group_cycle_loop _ _ _ _ _) as [r|] eqn:Hl; cbn [default from_option].
- (* the loop itself never panics *) revert Hl. generalize (group_cycle_fuel s), (∅ : gset GroupId), [(g, O)]. intros fuel.
  induction fuel as [|fuel IH]; intros visited stack; cbn [group_cycle_loop]; [done|].
  destruct stack as [|[cur depth] stack]; [by intros [= <-]|]. case_match; [by intros [= <-]|].
  case_decide; [apply IH|]. destruct (push_children s target cur depth) as [children| |] eqn:Hp; [apply IH|by intros [= <-]|].
  exfalso. revert Hp. apply push_children_total.
- exfalso. revert Hl. apply group_loop_ends. unfold group_cycle_fuel. simpl.
  assert (remaining ∅ ≤ size s)%nat; [|lia]. unfold remaining. etrans; [apply length_filter|].
  by rewrite <-size_dom.
Qed.
End cycles.
