(* ===== verification/RbacPreserve.v ===== *)
(** * Role-based access control: the operations preserve integrity

A small program logic for the engine's methods, in which a failed method must leave
the invariant as a successful one does, and one triple per mutating operation of
[rbac/engine.rs]. *)
From stdpp Require Import relations.
From stdpp Require Import base list gmap strings sorting lexico.
From Stdlib Require Import Strings.Byte ZArith Lia.
From S2P Require Import Prelude OrdMap StorageTypes OrdSet RbacTypes RbacResolve RealmRows RbacKeys RbacStore RbacEngine RbacRows.
From S2P Require Import RbacIntegrity RbacCycles.

Open Scope Z_scope.

Section preserve.
Context `{!UuidText, !UuidTextLaws, !Json, !JsonLaws, !UriHash} (ids : nat → Uuid) (clock : nat → Timestamp).
Context `{!Inj (=) (=) ids}.
Variable realm : RealmId.
Local Abbreviation rows st := (row realm (es_store st)).

(** The identifiers still to be drawn name no row. *)
Definition fresh_from (n : nat) (T : RowKey → option (list byte)) : Prop :=
  ∀ i, (n ≤ i)%nat → T (KRole (ids i)) = None ∧ T (KGroup (ids i)) = None ∧ T (KAssign (ids i)) = None.

Definition inv (st : EngState) : Prop := integrity realm (es_store st) ∧ fresh_from (es_ids st) (rows st).

(** ** Weakest preconditions *)

(** Running [m] from [st] ends in [Q], or fails in [E]. *)
Definition wpe {A} (E : EngState → Prop) (m : eng A) (Q : A → EngState → Prop) (st : EngState) : Prop :=
  match m st with
  | (Ok a, st') => Q a st'
  | (_, st') => E st'
  end.

Section rules.
Context {E : EngState → Prop}.

Lemma wp_mono {A} (m : eng A) (Q Q' : A → EngState → Prop) st :
  (∀ a st', Q a st' → Q' a st') → wpe E m Q st → wpe E m Q' st.
Proof. unfold wpe. destruct (m st) as [[] ?]; auto. Qed.

Lemma wp_ret {A} (a : A) Q st : Q a st → wpe E (mret a) Q st.
Proof. done. Qed.

Lemma wp_bind {A B} (m : eng A) (f : A → eng B) Q st : wpe E m (λ a, wpe E (f a) Q) st → wpe E (m ≫= f) Q st.
Proof. unfold wpe, mbind, eng_bind. destruct (m st) as [[a| |] st']; done. Qed.

Lemma wp_fail {A} (e : RbacError) (Q : A → EngState → Prop) st : E st → wpe E (fail e) Q st.
Proof. done. Qed.

Lemma wp_guard {A} (o : rres A) Q st : E st → (∀ a, o = Ok a → Q a st) → wpe E (guard_ok o) Q st.
Proof. intros ? HQ. unfold wpe, guard_ok. destruct o; auto. Qed.

Lemma wp_read {A} (f : Store → rres A) Q st : E st → (∀ a, f (es_store st) = Ok a → Q a st) → wpe E (reading f) Q st.
Proof. intros ? HQ. unfold wpe, reading. destruct (f (es_store st)); auto. Qed.

(** A guard or a read that does not fail. *)
Lemma wp_guard_ok {A} (o : rres A) a Q st : o = Ok a → Q a st → wpe E (guard_ok o) Q st.
Proof. by intros ->. Qed.
Lemma wp_read_ok {A} (f : Store → rres A) a Q st : f (es_store st) = Ok a → Q a st → wpe E (reading f) Q st.
Proof. unfold wpe, reading. by intros ->. Qed.

Lemma wp_effect f evs Q st : Q tt (MkEng (f (es_store st)) (es_events st ++ evs) (es_ids st) (es_ticks st)) → wpe E (effect f evs) Q st.
Proof. done. Qed.

Lemma wp_now Q st :
  Q (clock (es_ticks st)) (MkEng (es_store st) (es_events st) (es_ids st) (S (es_ticks st))) → wpe E (now clock) Q st.
Proof. done. Qed.

Lemma wp_generate Q st :
  Q (ids (es_ids st)) (MkEng (es_store st) (es_events st) (S (es_ids st)) (es_ticks st)) → wpe E (generate ids) Q st.
Proof. done. Qed.

Lemma wp_for_each {A} (l : list A) (f : A → eng unit) (J : list A → EngState → Prop) Q st :
  J l st → (∀ a l' st, J (a :: l') st → wpe E (f a) (λ _ st', J l' st') st) → (∀ st, J [] st → Q tt st) →
  wpe E (for_each l f) Q st.
Proof.
intros HJ Hstep HQ. revert st HJ. induction l as [|a l IH]; intros st HJ; cbn [for_each]; [by apply wp_ret, HQ|].
apply wp_bind. eapply wp_mono; [|by apply Hstep]. intros [] st'. apply IH.
Qed.
End rules.

(** Failures keep the invariant. *)
Local Abbreviation wp := (wpe inv).

(** A loop whose body keeps the invariant keeps it. *)
Lemma wp_for_each_inv {A} (l : list A) (f : A → eng unit) st :
  inv st → (∀ a st, a ∈ l → inv st → wp (f a) (λ _, inv) st) → wp (for_each l f) (λ _, inv) st.
Proof.
intros Hinv Hf. apply (wp_for_each l f (λ l' st, inv st ∧ ∀ a, a ∈ l' → a ∈ l)); [done| |by intros ? [? _]].
intros a l' st' [Hi Hl]. eapply wp_mono; [|apply Hf; [apply Hl; left|done]]. simpl. intros _ ? ?. split; [done|].
intros ? ?. apply Hl. by right.
Qed.

(** ** Effects that change no row *)

Lemma inv_same st evs ticks : inv st → inv (MkEng (es_store st) evs (es_ids st) ticks).
Proof. done. Qed.

Lemma inv_generate st evs ticks : inv st → inv (MkEng (es_store st) evs (S (es_ids st)) ticks).
Proof. intros [Hi Hf]. split; [done|]. intros i Hle. apply Hf. simpl in Hle. lia. Qed.

Lemma wp_bump_user u Q st : inv st → (∀ st', inv st' → Q tt st') → wp (bump_sv_for_user u) Q st.
Proof. intros Hi HQ. apply wp_effect, HQ. by apply inv_same. Qed.

Lemma wp_bump_members g Q st : inv st → (∀ st', inv st' → Q tt st') → wp (bump_sv_for_group_members g) Q st.
Proof.
intros Hi HQ. unfold bump_sv_for_group_members. apply wp_bind, wp_read; [done|]. intros ms _.
eapply wp_mono; [|apply wp_for_each_inv; [done|]]; [intros []; apply HQ|].
intros [u|g'] st' _ Hi'; [by apply wp_bump_user|by apply wp_ret].
Qed.

Lemma wp_bump_subject sub Q st : inv st → (∀ st', inv st' → Q tt st') → wp (bump_sv_for_subject sub) Q st.
Proof. destruct sub; [apply wp_bump_user|apply wp_bump_members]. Qed.

Lemma wp_bump_member m Q st : inv st → (∀ st', inv st' → Q tt st') → wp (bump_sv_for_member m) Q st.
Proof. destruct m; [apply wp_bump_user|apply wp_bump_members]. Qed.

(** ** Changed rows *)

Lemma keyed_insert s K v : keyed realm s → keyed realm (<[enc realm K := v]> s).
Proof. intros Hk k [v' [[<- _]|[_ Hv]]%lookup_insert_Some]; [by exists K|]. apply Hk. by eexists. Qed.

Lemma keyed_delete s k : keyed realm s → keyed realm (base.delete k s).
Proof. intros Hk k' [v [_ Hv]%lookup_delete_Some]. apply Hk. by eexists. Qed.

(** Fresh identifiers stay fresh when the rows added are of drawn identifiers. *)
Lemma fresh_change n n' T T' : fresh_from n T → (n ≤ n')%nat →
  (∀ x K, K = KRole x ∨ K = KGroup x ∨ K = KAssign x → has T' K → has T K ∨ ∃ j, (j < n')%nat ∧ x = ids j) →
  fresh_from n' T'.
Proof.
intros Hf Hn Hnew i Hi. destruct (Hf i) as (F1 & F2 & F3); [lia|].
assert (∀ K, K = KRole (ids i) ∨ K = KGroup (ids i) ∨ K = KAssign (ids i) → T K = None → T' K = None) as Hkeep.
{ intros K HK HT. apply eq_None_not_Some. intros Hs. destruct (Hnew (ids i) K HK Hs) as [[v Hv]|(j & Hj & Heq)]; [congruence|].
  apply (inj ids) in Heq. lia. }
split_and!; apply Hkeep; auto.
Qed.

Lemma fresh_mono n T T' : fresh_from n T → (∀ K, has T' K → has T K) → fresh_from n T'.
Proof. intros Hf Hm. apply (fresh_change n n T); [done..|]. intros x K _ HK. left. by apply Hm. Qed.

(** *** Roles *)

(** A role set under [id], with its name; [old] is the name it gives up. *)
Lemma integrity_set_role s s' id r' (old : option Str) :
  integrity realm s → keyed realm s' → ro_id r' = id → ro_realm_id r' = realm →
  (∀ K, row realm s' K = if decide (K = KRole id) then Some (ser_role r')
        else if decide (K = KRoleName (ro_name r')) then Some (ser_id id)
        else if decide (Some K = KRoleName <$> old) then None else row realm s K) →
  (row realm s (KRoleName (ro_name r')) = None ∨ row realm s (KRoleName (ro_name r')) = Some (ser_id id)) →
  (∀ n, n ≠ ro_name r' → row realm s (KRoleName n) = Some (ser_id id) ↔ old = Some n) →
  (∀ p, p ∈ ro_parent_roles r' → has (row realm s) (KRole p) ∧ ¬ rtc (role_edge (row realm s)) p id) →
  integrity realm s'.
Proof.
intros [Hk Hok] Hk' Hid Hrealm Hrow Hfree Hold Hpar. split; [done|].
assert (∀ K, (∀ x, K ≠ KRole x) → (∀ n, K ≠ KRoleName n) → row realm s' K = row realm s K) as Hsame.
{ intros K HK1 HK2. rewrite Hrow. repeat case_decide; try done; subst; exfalso; [by eapply HK1|by eapply HK2|].
  destruct old; simplify_eq/=. by eapply HK2. }
assert (∀ x, has (row realm s) (KRole x) → has (row realm s') (KRole x)) as Hmono.
{ intros x Hx. unfold has. rewrite Hrow. repeat case_decide; try done. by destruct old. }
split.
- intros K v. rewrite Hrow. repeat case_decide; subst; [intros [= <-]; by exists r'|intros [= <-]; by eexists|done|].
  by apply (rs_vals _ _ Hok).
- apply (roles_ok_set (row realm s) _ id r').
  + apply Hok.
  + unfold role_at. by rewrite Hrow, decide_True.
  + intros x Hx. rewrite Hrow. repeat case_decide; try done; [congruence|by destruct old].
  + by rewrite Hrow, decide_False, decide_True.
  + done.
  + intros n Hn Hnid. rewrite Hrow, decide_False, decide_False by congruence. apply Hold in Hnid as ->; [|done].
    by rewrite decide_True.
  + intros n Hn Hnid. rewrite Hrow, decide_False, decide_False by congruence. rewrite decide_False; [done|].
    destruct old as [o|]; [|done]. simpl. intros [= <-]. by apply Hnid, Hold.
  + done.
- apply (groups_ok_same (row realm s)); [|apply Hok]. intros K HK. apply Hsame; intros; by destruct K.
- apply (assigns_ok_same (row realm s)); [intros K HK; apply Hsame; intros; by destruct K|done| |apply Hok].
  intros g Hg. unfold has. by rewrite Hsame.
- apply (grants_ok_same (row realm s)); [|apply Hok]. intros K HK. apply Hsame; intros; by destruct K.
Qed.

Lemma parents_exist_ok s parents : rows_ok realm (row realm s) → parents_exist realm s parents = Ok tt →
  ∀ p, p ∈ parents → has (row realm s) (KRole p).
Proof.
intros Hok Hf. eapply (fold_res_chain _ (λ done _, ∀ p, p ∈ done → has (row realm s) (KRole p)) _ _ _ Hf).
- by intros p ?%elem_of_nil.
- intros done b [] [] _ Hdone. destruct (load_role_ok realm s b Hok) as (o & -> & Ho & _). simpl. destruct o as [r|]; [|done].
  intros _ p [?| ->%list_elem_of_singleton]%elem_of_app; [by apply Hdone|]. unfold has. by rewrite Ho.
Qed.

Ltac row_eq := intros K; repeat first [rewrite row_insert | rewrite row_delete];
  repeat case_decide; subst; simpl in *; try done; try congruence.

Lemma create_role_inv req st : inv st → wp (create_role ids clock realm req) (λ _, inv) st.
Proof.
intros Hi. unfold create_role. apply wp_bind, wp_guard; [done|]; intros _ _. apply wp_bind, wp_guard; [done|]; intros _ _.
apply wp_bind, wp_read; [done|]; intros existing Hex. destruct existing; [by apply wp_fail|].
apply wp_bind, wp_read; [done|]; intros [] Hpar. apply wp_bind, wp_now. apply wp_bind, wp_generate.
pose proof (inv_generate st (es_events st) (S (es_ticks st)) Hi) as Hi'.
apply wp_bind, wp_read; [exact Hi'|]. intros [] Hchk. apply wp_bind, wp_effect, wp_ret.
destruct Hi as [Hint Hf]. pose proof Hint as [Hk Hok]. destruct (Hf (es_ids st)) as (Hnew & _); [done|].
destruct (load_name_ok realm (es_store st) (cr_name req) Hok) as (o & Ho & Hname). rewrite Ho in Hex. injection Hex as ->.
split; cbn [es_store es_ids put_all foldl fst snd].
- change (encode_role ?x) with (enc realm (KRole x)). change (encode_role_name realm ?x) with (enc realm (KRoleName x)).
  match goal with |- context [ser_role ?r] => apply (integrity_set_role (es_store st) _ (ids (es_ids st)) r None) end; cbn [ro_name ro_realm_id ro_parent_roles]; try done.
  + by repeat apply keyed_insert.
  + row_eq.
  + by left.
  + intros n _. split; [|done]. intros (x & r & Heq & Hr & _)%(rk_name _ (rs_roles _ _ Hok)).
    apply (inj ser_id) in Heq as <-. unfold role_at in Hr. congruence.
  + intros p Hp. split; [by apply (parents_exist_ok _ _ Hok Hpar)|by apply (check_role_sound realm _ Hok _ _ Hchk)].
- apply (fresh_change _ _ _ _ Hf); [lia|]. intros x K HK. change (encode_role ?x) with (enc realm (KRole x)).
  change (encode_role_name realm ?x) with (enc realm (KRoleName x)). unfold has. rewrite !row_insert.
  repeat case_decide; subst; destruct HK as [HK|[HK|HK]]; simplify_eq; eauto.
Qed.

(** What a stored role's parents satisfy. *)
Lemma stored_parents T id r : roles_ok T → role_at T id r →
  ∀ p, p ∈ ro_parent_roles r → has T (KRole p) ∧ ¬ rtc (role_edge T) p id.
Proof.
intros Hok Hr p Hp. split; [by apply (rk_parents _ Hok id r)|]. intros Hback.
apply (rk_acyclic _ Hok id). eapply tc_rtc_r; [|exact Hback]. apply tc_once. by exists r.
Qed.

(** The names that lead to a stored role: its own. *)
Lemma stored_name T id r n : roles_ok T → role_at T id r → T (KRoleName n) = Some (ser_id id) → n = ro_name r.
Proof.
intros Hok Hr (x & r' & Heq & Hr' & <-)%(rk_name _ Hok). apply (inj ser_id) in Heq as <-.
by rewrite (role_at_unique _ _ _ _ Hr Hr').
Qed.

(** A stored role rewritten under its own name. *)
Lemma integrity_rewrite_role s r0 r' : integrity realm s → role_at (row realm s) (ro_id r') r0 →
  ro_realm_id r' = realm → ro_name r' = ro_name r0 →
  (∀ p, p ∈ ro_parent_roles r' → has (row realm s) (KRole p) ∧ ¬ rtc (role_edge (row realm s)) p (ro_id r')) →
  integrity realm (<[enc realm (KRole (ro_id r')) := ser_role r']> s).
Proof.
intros Hint Hr0 Hrealm Hname Hpar. pose proof Hint as [Hk Hok]. pose proof (rk_index _ (rs_roles _ _ Hok) _ _ Hr0) as Hi.
apply (integrity_set_role s _ (ro_id r') r' None); try done.
- by apply keyed_insert.
- rewrite Hname. row_eq.
- rewrite Hname. by right.
- intros n Hn. split; [|done]. intros Hid. rewrite (stored_name _ _ _ _ (rs_roles _ _ Hok) Hr0 Hid) in Hn. by rewrite Hname in Hn.
Qed.

(** A state that differs from [st] in its clock and its log. *)
Definition same_rows (st st' : EngState) : Prop := es_store st' = es_store st ∧ es_ids st' = es_ids st.

Lemma inv_same_rows st st' : same_rows st st' → inv st → inv st'.
Proof. intros [Hs Hi] [? ?]. unfold inv. by rewrite Hs, Hi. Qed.

Lemma inv_put_role st evs ticks r0 r' : inv st → role_at (rows st) (ro_id r') r0 →
  ro_realm_id r' = realm → ro_name r' = ro_name r0 →
  (∀ p, p ∈ ro_parent_roles r' → has (rows st) (KRole p) ∧ ¬ rtc (role_edge (rows st)) p (ro_id r')) →
  inv (MkEng (<[encode_role (ro_id r') := ser_role r']> (es_store st)) evs (es_ids st) ticks).
Proof.
intros [Hint Hf] Hr0 Hrealm Hname Hpar. split; cbn [es_store es_ids]; change (encode_role ?x) with (enc realm (KRole x)).
- by apply (integrity_rewrite_role _ r0).
- apply (fresh_mono _ _ _ Hf). intros K. unfold has. rewrite row_insert. case_decide; [|done]. subst. by rewrite Hr0.
Qed.

(** What [update_role_name] hands on. *)
Definition renames (s : Store) (role role' : Role) (rename : option (list byte * list byte)) : Prop :=
  (role' = role ∧ rename = None) ∨
  (∃ n, n ≠ ro_name role ∧ row realm s (KRoleName n) = None ∧
     rename = Some (enc realm (KRoleName (ro_name role)), enc realm (KRoleName n)) ∧ ro_name role' = n ∧
     ro_id role' = ro_id role ∧ ro_realm_id role' = ro_realm_id role ∧ ro_parent_roles role' = ro_parent_roles role).

Lemma update_role_name_ok role name Q st : inv st →
  (∀ rn, renames (es_store st) role rn.1 rn.2 → Q rn st) → wp (update_role_name realm role name) Q st.
Proof.
intros Hi HQ. destruct name as [n|]; cbn [update_role_name]; [|apply wp_ret, HQ; by left].
apply wp_bind, wp_guard; [done|]; intros _ _. case_decide as Hn; [apply wp_ret, HQ; by left|].
apply wp_bind, wp_read; [done|]; intros o Ho. destruct o; [by apply wp_fail|]. apply wp_ret, HQ. right. exists n.
destruct (load_name_ok realm (es_store st) n (proj2 (proj1 Hi))) as (o' & Ho' & Hrow). rewrite Ho in Ho'. injection Ho' as <-.
split_and!; done.
Qed.

Lemma update_role_inv role_id req st : inv st → wp (update_role clock realm role_id req) (λ _, inv) st.
Proof.
intros Hi. unfold update_role. apply wp_bind, wp_read; [done|]; intros found Hfound.
destruct found as [role0|]; [|by apply wp_fail]. pose proof Hi as [[Hk Hok] Hf].
destruct (load_role_ok realm (es_store st) role_id Hok) as (o & Ho & Hrow & Hid). rewrite Hfound in Ho. injection Ho as <-.
specialize (Hid _ eq_refl). apply wp_bind, wp_guard; [done|]; intros _ _. apply wp_bind, update_role_name_ok; [done|].
intros [role rename] Hren. cbn [fst snd] in *. assert (ro_id role = role_id ∧ ro_realm_id role = realm ∧
  ro_parent_roles role = ro_parent_roles role0) as (Hrid & Hrealm & Hrpar).
{ destruct (role_at_ok realm _ _ _ Hok Hrow) as (r & Hr & Hr1 & Hr2). rewrite <-(role_at_unique _ _ _ _ Hrow Hr) in Hr1, Hr2.
  destruct Hren as [[-> _]|(n & _ & _ & _ & _ & H1' & H2' & H3')]; [done|]. by rewrite H1', H2', H3'. }
apply wp_bind, (wp_mono _ (λ _ st', st' = st)); [intros perms ? ->|by destruct (ur_permissions req);
  [apply wp_bind, wp_guard; [done|]; intros _ _|]; apply wp_ret].
apply wp_bind, (wp_mono _ (λ parents st', st' = st ∧
  ∀ p, p ∈ parents → has (rows st) (KRole p) ∧ ¬ rtc (role_edge (rows st)) p role_id)).
2: { destruct (ur_parent_roles req) as [ps|].
  - apply wp_bind, wp_read; [done|]; intros [] Hpar. apply wp_bind, wp_read; [done|]; intros [] Hchk. apply wp_ret. split; [done|].
    intros p Hp. split; [by apply (parents_exist_ok _ _ Hok Hpar)|by apply (check_role_sound realm _ Hok _ _ Hchk)].
  - apply wp_ret. split; [done|]. rewrite Hrpar. apply (stored_parents _ _ _ (rs_roles _ _ Hok) Hrow). }
intros parents st' [-> Hpar]. apply wp_bind, wp_now. cbn [es_ticks]. set (role' := MkRole _ _ _ _ _ _ _ _ _ _ _).
destruct Hren as [[-> ->]|(n & Hn & Hfree & -> & Hnm & _)].
- apply wp_bind, wp_effect, wp_bind, wp_ret, wp_ret. cbn [es_store es_ids es_events es_ticks put_all foldl fst snd].
  apply (inv_put_role st _ _ role0 role'); cbn [ro_id ro_realm_id ro_name ro_parent_roles role']; rewrite ?Hrid; done.
- apply wp_bind, wp_effect, wp_bind, wp_effect, wp_ret. split; cbn [es_store es_ids es_events es_ticks put_all foldl fst snd].
  + change (encode_role ?x) with (enc realm (KRole x)).
    apply (integrity_set_role (es_store st) _ role_id role' (Some (ro_name role0))); cbn [role' ro_id ro_realm_id ro_name ro_parent_roles];
      rewrite ?Hrid, ?Hnm; try done.
    * by apply keyed_delete; repeat apply keyed_insert.
    * row_eq.
    * by left.
    * intros n' Hn'. split.
      -- intros Hm. by rewrite (stored_name _ _ _ _ (rs_roles _ _ Hok) Hrow Hm).
      -- intros [= <-]. by apply (rk_index _ (rs_roles _ _ Hok)).
  + apply (fresh_change _ _ _ _ Hf); [done|]. intros x K HK. change (encode_role ?x) with (enc realm (KRole x)).
    unfold has. rewrite row_delete, !row_insert. cbn [role' ro_id]. rewrite Hrid.
    repeat case_decide; subst; destruct HK as [HK|[HK|HK]]; simplify_eq; eauto.
Qed.

(** *** Batches *)

Lemma fold_res_total {E A B} (f : list A → B → outcome E (list A)) (g : B → list A) l acc :
  (∀ acc b, b ∈ l → f acc b = Ok (acc ++ g b)) → fold_res f acc l = Ok (acc ++ (l ≫= g)).
Proof.
revert acc. induction l as [|b l IH]; intros acc Hf; cbn [fold_res]; [by rewrite app_nil_r|].
rewrite Hf by left. cbn [mbind outcome_bind]. rewrite IH by (intros; apply Hf; by right). by rewrite <-app_assoc.
Qed.

(** *** The references to a role *)

Record references_of (s : Store) (role : Role) (refs : RoleReferences) : Prop := {
  ro_listed aid : has (row realm s) (KAssignRole (ro_id role) aid) →
    ∃ a, (enc realm (KAssignRole (ro_id role) aid), Some a, aid) ∈ rf_assignments refs;
  ro_assigned x : x ∈ rf_assignments refs → ∃ aid a, x = (enc realm (KAssignRole (ro_id role) aid), Some a, aid) ∧
    assign_at (row realm s) aid a ∧ ra_role_id a = ro_id role;
  ro_child id r : role_at (row realm s) id r → ro_id role ∈ ro_parent_roles r → r ∈ rf_children refs;
  ro_children c : c ∈ rf_children refs → role_at (row realm s) (ro_id c) c;
  ro_org_rows k : k ∈ rf_org_rows refs → ∃ o u n, k = enc realm (KOrgRole o u n)
}.

Lemma assign_role_entry s r e : integrity realm s → e ∈ scan_prefix (assign_role_scan_prefix r) s →
  ∃ aid a, se_key e = enc realm (KAssignRole r aid) ∧ se_value e = ser_id aid ∧ load_assignment realm s aid = Ok (Some a) ∧
    assign_at (row realm s) aid a ∧ ra_role_id a = r.
Proof.
intros [Hk Hok] (K & [aid ->] & Hkey & Hv)%(scans_assign_roles realm r s e Hk).
destruct (ak_of_role _ (rs_assigns _ _ Hok) r aid) as (a & Ha & Har); [by eexists|]. exists aid, a. split_and!; try done.
- by apply (rs_vals _ _ Hok _ _ Hv).
- destruct (load_assignment_ok realm s aid Hok) as (o & -> & Ho). unfold assign_at in Ha. rewrite Ha in Ho.
  destruct o; simpl in Ho; [|done]. by injection Ho as ->%(inj ser_assignment).
Qed.

Lemma role_name_entry s e : integrity realm s → e ∈ scan_prefix (role_name_scan_prefix realm) s →
  ∃ id r, se_value e = ser_id id ∧ load_role realm s id = Ok (Some r) ∧ role_at (row realm s) id r ∧ ro_id r = id ∧
    se_key e = enc realm (KRoleName (ro_name r)).
Proof.
intros [Hk Hok] (K & [n ->] & Hkey & Hv)%(scans_role_names realm s e Hk).
destruct (rk_name _ (rs_roles _ _ Hok) _ _ Hv) as (id & r & Heq & Hr & <-). exists id, r.
destruct (load_role_ok realm s id Hok) as (o & Ho & Hrow & Hid). unfold role_at in Hr. rewrite Hr in Hrow.
destruct o as [r'|]; simpl in Hrow; [|done]. injection Hrow as <-%(inj ser_role). by rewrite (Hid r).
Qed.

Lemma role_references_ok s role refs : integrity realm s → role_references realm s role = Ok refs → references_of s role refs.
Proof.
intros Hint. pose proof Hint as [Hk Hok]. unfold role_references.
set (entry e := match de_id (se_value e) with
                | Some aid => match load_assignment realm s aid with Ok a => [(se_key e, a, aid)] | _ => [] end
                | None => [] end).
rewrite (fold_res_total _ entry).
2: { intros acc e (aid & a & _ & Hv & Hl & _)%assign_role_entry; [|done]. unfold entry. rewrite Hv, de_ser_id. simpl. by rewrite Hl. }
set (child e := match de_id (se_value e) with
                | Some id => match load_role realm s id with
                             | Ok (Some r) => if decide (ro_id role ∈ ro_parent_roles r) then [r] else []
                             | _ => [] end
                | None => [] end).
cbn [mbind outcome_bind]. rewrite (fold_res_total _ child).
2: { intros acc e (id & r & Hv & Hl & _)%role_name_entry; [|done]. unfold child. rewrite Hv, de_ser_id. simpl. rewrite Hl. simpl.
     case_decide; by rewrite ?app_nil_r. }
cbn [mbind outcome_bind]. intros [= <-]. split; cbn [rf_assignments rf_children rf_org_rows app].
- intros aid [v Hv]. destruct (assign_role_entry s (ro_id role) (Scan (enc realm (KAssignRole (ro_id role) aid)) v) Hint)
    as (aid' & a & Hkey & Hval & Hl & _).
  { apply (scans_assign_roles realm _ s _ Hk). exists (KAssignRole (ro_id role) aid). eauto. }
  cbn [se_key se_value] in Hkey. apply (inj (enc realm)) in Hkey as [= <-]. exists a.
  apply list_elem_of_bind. eexists. split; [|apply (scans_assign_roles realm (ro_id role) s (Scan (enc realm (KAssignRole (ro_id role) aid)) v) Hk)].
  + unfold entry. rewrite Hval, de_ser_id, Hl. left.
  + exists (KAssignRole (ro_id role) aid). eauto.
- intros x (e & Hx & He)%list_elem_of_bind. apply assign_role_entry in He as (aid & a & Hkey & Hv & Hl & Ha & Har); [|done].
  unfold entry in Hx. rewrite Hv, de_ser_id, Hl, Hkey in Hx. apply list_elem_of_singleton in Hx as ->. eauto.
- intros id r Hr Hp. pose proof (rk_index _ (rs_roles _ _ Hok) _ _ Hr) as Hi.
  destruct (load_role_ok realm s id Hok) as (o & Ho & Hrow & _). unfold role_at in Hr. rewrite Hr in Hrow.
  destruct o as [r'|]; simpl in Hrow; [|done]. injection Hrow as <-%(inj ser_role). apply list_elem_of_bind.
  exists (Scan (enc realm (KRoleName (ro_name r))) (ser_id id)). split.
  + unfold child. simpl. rewrite de_ser_id, Ho. rewrite decide_True by done. left.
  + apply (scans_role_names realm s _ Hk). exists (KRoleName (ro_name r)). eauto.
- intros c (e & Hc & He)%list_elem_of_bind. apply role_name_entry in He as (id & r & Hv & Hl & Hr & Hid & _); [|done].
  unfold child in Hc. rewrite Hv, de_ser_id, Hl in Hc. case_decide; [|by apply elem_of_nil in Hc].
  apply list_elem_of_singleton in Hc as ->. by rewrite Hid.
- intros k [_ (e & -> & He)%list_elem_of_fmap]%list_elem_of_filter.
  apply (scans_org_roles_realm realm s e Hk) in He as (K & (o & u & n & ->) & Hkey & _). eauto.
Qed.

Lemma subject_index_enc sub aid : subject_index sub aid = enc realm (subject_row sub aid).
Proof. by destruct sub. Qed.

(** The rows [delete_role] deletes. *)
Definition role_deletes (role : Role) (refs : RoleReferences) : list (list byte) :=
  rf_org_rows refs
  ++ (rf_assignments refs ≫= λ '(role_idx, a, aid),
        [role_idx; encode_assignment aid] ++ match a with Some a => [subject_index (ra_subject a) aid] | None => [] end)
  ++ [encode_role (ro_id role); encode_role_name realm (ro_name role)].

(** An assignment of the role, as stored. *)
Definition of_role (T : RowKey → option (list byte)) (rid : RoleId) (aid : AssignmentId) : Prop :=
  ∃ a, assign_at T aid a ∧ ra_role_id a = rid.

(** The rows that go with a role, extra organization roles apart. *)
Definition goes_with (s : Store) (role : Role) (K : RowKey) : Prop :=
  K = KRole (ro_id role) ∨ K = KRoleName (ro_name role) ∨
  ∃ aid a, assign_at (row realm s) aid a ∧ ra_role_id a = ro_id role ∧
    (K = KAssign aid ∨ K = KAssignRole (ro_id role) aid ∨ K = subject_row (ra_subject a) aid).

Lemma elem_of_role_deletes s role refs K : integrity realm s → references_of s role refs →
  (∀ o u n, K ≠ KOrgRole o u n) → enc realm K ∈ role_deletes role refs ↔ goes_with s role K.
Proof.
intros [Hk Hok] Hrefs HK. unfold role_deletes, goes_with. rewrite !elem_of_app, list_elem_of_bind, elem_of_cons, list_elem_of_singleton.
change (encode_role (ro_id role)) with (enc realm (KRole (ro_id role))).
change (encode_role_name realm (ro_name role)) with (enc realm (KRoleName (ro_name role))).
rewrite !(inj_iff (enc realm)). split.
- intros [Horg|[(x & Hx & Hin)|[->| ->]]]; [|right; right|by left|by right; left].
  + apply (ro_org_rows _ _ _ Hrefs) in Horg as (o & u & n & Heq%(inj (enc realm))). by apply HK in Heq.
  + apply (ro_assigned _ _ _ Hrefs) in Hin as (aid & a & -> & Ha & Har). exists aid, a. split_and!; [done..|].
    change (encode_assignment aid) with (enc realm (KAssign aid)) in Hx. rewrite subject_index_enc in Hx.
    rewrite elem_of_app, elem_of_cons, !list_elem_of_singleton, !(inj_iff (enc realm)) in Hx. tauto.
- intros [->|[->|(aid & a & Ha & Har & HKa)]]; [tauto..|]. right; left.
  destruct (ro_listed _ _ _ Hrefs aid) as (a' & Hin).
  { rewrite <-Har. by apply (ak_role _ (rs_assigns _ _ Hok)). }
  destruct (ro_assigned _ _ _ Hrefs _ Hin) as (aid' & a'' & [= Heq -> ->] & Ha' & _).
  rewrite (assign_at_unique _ _ _ _ Ha' Ha) in Hin. eexists. split; [|exact Hin]. cbv beta iota.
  change (encode_assignment aid') with (enc realm (KAssign aid')). rewrite subject_index_enc.
  rewrite elem_of_app, elem_of_cons, !list_elem_of_singleton, !(inj_iff (enc realm)). tauto.
Qed.

(** The role's children without it. *)
Definition strip_parent (role_id : RoleId) (at_ : Timestamp) (c : Role) : Role :=
  MkRole (ro_id c) (ro_realm_id c) (ro_name c) (ro_description c) (ro_permissions c)
    (filter (λ p, p ≠ role_id) (ro_parent_roles c)) (ro_scope_kind c) (ro_status c) (ro_yaml_managed c) (ro_created_at c) at_.

(** [s'] is [s] without the role: nothing that goes with it, no child of it. *)
Record role_removed (s s' : Store) (role : Role) : Prop := {
  rr_gone K : goes_with s role K → (∀ o u n, K ≠ KOrgRole o u n) → row realm s' K = None;
  rr_same K : ¬ goes_with s role K → (∀ x, K ≠ KRole x) → (∀ o u n, K ≠ KOrgRole o u n) → row realm s' K = row realm s K;
  rr_role x r : x ≠ ro_id role → role_at (row realm s) x r → ∃ r', role_at (row realm s') x r' ∧
    ro_id r' = ro_id r ∧ ro_realm_id r' = ro_realm_id r ∧ ro_name r' = ro_name r ∧
    ∀ p, p ∈ ro_parent_roles r' ↔ p ∈ ro_parent_roles r ∧ p ≠ ro_id role;
  rr_none x : row realm s (KRole x) = None → row realm s' (KRole x) = None;
  rr_org o u n v : row realm s' (KOrgRole o u n) = Some v → row realm s (KOrgRole o u n) = Some v
}.

Lemma delete_role_rows s role refs at_ : integrity realm s → role_at (row realm s) (ro_id role) role →
  references_of s role refs →
  role_removed s (delete_all (role_deletes role refs)
    (put_all ((λ c, (encode_role (ro_id c), ser_role (strip_parent (ro_id role) at_ c))) <$> rf_children refs) s)) role.
Proof.
intros Hint Hrole Hrefs. pose proof Hint as [Hk Hok]. set (puts := _ <$> rf_children refs). set (s' := delete_all _ _).
assert (∀ K, row realm s' K = if decide (enc realm K ∈ role_deletes role refs) then None else put_all puts s !! enc realm K) as Hrow
  by (intros K; apply lookup_delete_all).
assert (∀ K v, (enc realm K, v) ∈ puts → ∃ c, K = KRole (ro_id c) ∧ v = ser_role (strip_parent (ro_id role) at_ c) ∧
  role_at (row realm s) (ro_id c) c) as Hputs.
{ intros K v (c & [= HK ->] & Hc)%list_elem_of_fmap. change (encode_role ?x) with (enc realm (KRole x)) in HK.
  apply (inj (enc realm)) in HK as ->. exists c. split_and!; [done..|]. by apply (ro_children _ _ _ Hrefs). }
assert (∀ K, (∀ x, K ≠ KRole x) → put_all puts s !! enc realm K = row realm s K) as Hother.
{ intros K HK. apply lookup_put_all_other. intros ([k v] & Heq & Hin)%list_elem_of_fmap. simpl in Heq. subst k.
  apply Hputs in Hin as (c & -> & _). by eapply HK. }
assert (∀ x r, role_at (row realm s) x r → ∃ r', put_all puts s !! enc realm (KRole x) = Some (ser_role r') ∧
  ro_id r' = ro_id r ∧ ro_realm_id r' = ro_realm_id r ∧ ro_name r' = ro_name r ∧
  ∀ p, p ∈ ro_parent_roles r' ↔ p ∈ ro_parent_roles r ∧ p ≠ ro_id role) as Hkeep.
{ intros x r Hr. destruct (decide (enc realm (KRole x) ∈ puts.*1)) as [Hin|Hin].
  - exists (strip_parent (ro_id role) at_ r). split_and!; try done; [|intros p; simpl; rewrite list_elem_of_filter; tauto].
    apply lookup_put_all_in; [done|]. intros v (c & [= ->] & -> & Hc)%Hputs. by rewrite (role_at_unique _ _ _ _ Hc Hr).
  - exists r. split_and!; try done; [by rewrite lookup_put_all_other|]. intros p. split; [|by intros [? _]]. intros Hp. split; [done|].
    intros ->. apply Hin. pose proof (ro_child _ _ _ Hrefs _ _ Hr Hp) as Hc. destruct (role_at_ok realm _ _ _ Hok Hr) as (r' & Hr' & Hid & _).
    rewrite <-(role_at_unique _ _ _ _ Hr Hr') in Hid. rewrite <-Hid. unfold puts. rewrite <-list_fmap_compose.
    apply list_elem_of_fmap. by exists r. }
assert (∀ x, row realm s (KRole x) = None → put_all puts s !! enc realm (KRole x) = None) as Hnone.
{ intros x Hx. rewrite lookup_put_all_other; [done|]. intros ([k v] & Heq & Hin)%list_elem_of_fmap. simpl in Heq. subst k.
  apply Hputs in Hin as (c & [= ->] & _ & Hc). unfold role_at in Hc. congruence. }
split.
- intros K Hg HK. rewrite Hrow, decide_True; [done|]. by apply (elem_of_role_deletes s).
- intros K Hg HK1 HK2. rewrite Hrow, decide_False; [by apply Hother|]. by rewrite (elem_of_role_deletes s).
- intros x r Hx Hr. destruct (Hkeep x r Hr) as (r' & Hr' & ? & ? & ? & ?). exists r'. split_and!; try done.
  unfold role_at. rewrite Hrow, decide_False; [done|]. rewrite (elem_of_role_deletes s) by done.
  intros [[= ->]|[?|(aid & a & _ & _ & [?|[?|Hs]])]]; try done. by destruct (ra_subject a).
- intros x Hx. rewrite Hrow. case_decide; [done|]. by apply Hnone.
- intros o u n v. rewrite Hrow. case_decide; [done|]. by rewrite Hother.
Qed.

Lemma goes_with_assign s role aid K : rows_ok realm (row realm s) → goes_with s role K →
  K = KAssign aid ∨ (∃ sub, K = subject_row sub aid) ∨ (∃ r, K = KAssignRole r aid) → of_role (row realm s) (ro_id role) aid.
Proof.
intros Hok [->|[->|(aid' & a & Ha & Har & HK)]] HKa.
- destruct HKa as [?|[[[] ?]|[? ?]]]; done.
- destruct HKa as [?|[[[] ?]|[? ?]]]; done.
- assert (aid' = aid) as ->; [|by exists a].
  destruct HK as [->|[->| ->]], HKa as [?|[[sub ?]|[? ?]]]; simplify_eq; try done; try by destruct sub.
  + by destruct (ra_subject a).
  + destruct (ra_subject a), sub; by simplify_eq.
  + by destruct (ra_subject a).
Qed.

Lemma integrity_delete_role s s' role : integrity realm s → role_at (row realm s) (ro_id role) role → keyed realm s' →
  role_removed s s' role → integrity realm s'.
Proof.
intros Hint Hrole Hk' Hrr. pose proof Hint as [Hk Hok]. split; [done|]. split.
- intros K v Hv. destruct K; try (apply (rs_vals _ _ Hok); rewrite <-(rr_same _ _ _ Hrr); [done| |done..];
    by intros ?%(rr_gone _ _ _ Hrr); [congruence|]).
  + destruct (row realm s (KRole id)) as [v0|] eqn:Hv0; [|by rewrite (rr_none _ _ _ Hrr) in Hv].
    destruct (role_at_ok realm _ _ _ Hok Hv0) as (r & Hr & <- & Hrealm). destruct (decide (ro_id r = ro_id role)) as [Heq|Hne].
    { rewrite Heq, (rr_gone _ _ _ Hrr) in Hv; [done|by left|done]. }
    destruct (rr_role _ _ _ Hrr _ _ Hne Hr) as (r' & Hr' & ? & ? & _). unfold role_at in Hr'. rewrite Hr' in Hv.
    injection Hv as <-. exists r'. split_and!; congruence.
  + apply (rs_vals _ _ Hok). by apply (rr_org _ _ _ Hrr).
- apply (roles_ok_delete (row realm s) _ (ro_id role) role); try done.
  + apply Hok.
  + apply (rr_gone _ _ _ Hrr); [by left|done].
  + apply (rr_gone _ _ _ Hrr); [by right; left|done].
  + intros n Hn. apply (rr_same _ _ _ Hrr); try done. intros [?|[?|(aid & a & _ & _ & [?|[?|?]])]]; simplify_eq; try done.
    by destruct (ra_subject a).
  + intros x r Hx Hr. destruct (rr_role _ _ _ Hrr x r Hx Hr) as (r' & ? & _ & _ & ? & ?). by exists r'.
  + intros x _. apply (rr_none _ _ _ Hrr).
  + intros x v Hv. destruct (role_at_ok realm _ _ _ Hok Hv) as (r & Hr & _). exists r. unfold role_at in Hr. congruence.
- apply (groups_ok_same (row realm s)); [|apply Hok]. intros K HK. apply (rr_same _ _ _ Hrr); try (intros; by destruct K).
  intros [->|[->|(aid & a & _ & _ & [->|[->| ->]])]]; try done. by destruct (ra_subject a).
- apply (assigns_ok_remove (row realm s) _ (of_role (row realm s) (ro_id role))); [apply Hok| | |].
  + intros K aid HKa. assert ((∀ x, K ≠ KRole x) ∧ ∀ o u n, K ≠ KOrgRole o u n) as [HK1 HK2].
    { split; intros; destruct HKa as [->|[[[] ->]|[? ->]]]; done. }
    split.
    * intros (a & Ha & Har). destruct (row realm s K) as [v|] eqn:Hv.
      -- apply (rr_gone _ _ _ Hrr); [|done]. right; right. exists aid, a. split_and!; try done.
         destruct HKa as [->|[[sub ->]|[r ->]]]; [by left| |].
         ++ destruct (ak_of_subject _ (rs_assigns _ _ Hok) sub aid) as (a' & Ha' & <-); [by eexists|].
            rewrite (assign_at_unique _ _ _ _ Ha Ha'). by right; right.
         ++ destruct (ak_of_role _ (rs_assigns _ _ Hok) r aid) as (a' & Ha' & <-); [by eexists|].
            rewrite <-(assign_at_unique _ _ _ _ Ha Ha'), Har. by right; left.
      -- destruct (row realm s' K) eqn:Hv'; [|done]. rewrite (rr_same _ _ _ Hrr) in Hv'; try done; [congruence|].
         intros Hg. by rewrite (rr_gone _ _ _ Hrr _ Hg HK2) in Hv'.
    * intros Hno. apply (rr_same _ _ _ Hrr); try done. intros Hg. apply Hno. by apply (goes_with_assign s role aid K Hok).
  + intros aid. destruct (row realm s (KAssign aid)) as [v|] eqn:Hv.
    * destruct (assign_at_ok realm _ _ _ Hok Hv) as (a & Ha & _). destruct (decide (ra_role_id a = ro_id role)); [left; by exists a|].
      right. intros (a' & Ha' & ?). by rewrite (assign_at_unique _ _ _ _ Ha' Ha) in *.
    * right. intros (a & Ha & _). unfold assign_at in Ha. congruence.
  + intros aid a Hno Ha. destruct (ak_role_exists _ (rs_assigns _ _ Hok) _ _ Ha) as [v Hv].
    destruct (role_at_ok realm _ _ _ Hok Hv) as (r & Hr & _). split.
    * destruct (rr_role _ _ _ Hrr (ra_role_id a) r) as (r' & Hr' & _); [|done|unfold has; by rewrite Hr'].
      intros Heq. apply Hno. by exists a.
    * intros g Hg. pose proof (ak_group_exists _ (rs_assigns _ _ Hok) _ _ _ Ha Hg) as Hh. unfold has in *.
      rewrite (rr_same _ _ _ Hrr); try done. intros [?|[?|(aid' & a' & _ & _ & [?|[?|?]])]]; try done. by destruct (ra_subject a').
- apply (grants_ok_same (row realm s)); [|apply Hok]. intros K HK. apply (rr_same _ _ _ Hrr); try (intros; by destruct K).
  intros [->|[->|(aid & a & _ & _ & [->|[->| ->]])]]; try done. by destruct (ra_subject a).
Qed.

Lemma keyed_delete_all ks s : keyed realm s → keyed realm (delete_all ks s).
Proof. intros Hk k [v Hv]. rewrite lookup_delete_all in Hv. case_decide; [done|]. apply Hk. by eexists. Qed.

Lemma keyed_put_all kvs s : keyed realm s → (∀ k v, (k, v) ∈ kvs → ∃ K, k = enc realm K) → keyed realm (put_all kvs s).
Proof.
intros Hk Hkv k Hs. destruct (decide (k ∈ kvs.*1)) as [([k' v] & -> & Hin)%list_elem_of_fmap|Hn]; [by apply (Hkv k' v)|].
rewrite lookup_put_all_other in Hs by done. by apply Hk.
Qed.

(** A role that loads is the one stored under its identifier. *)
Lemma loaded_role s id r : rows_ok realm (row realm s) → load_role realm s id = Ok (Some r) →
  role_at (row realm s) id r ∧ ro_id r = id ∧ ro_realm_id r = realm.
Proof.
intros Hok Hl. destruct (load_role_ok realm s id Hok) as (o & Ho & Hrow & Hid). rewrite Hl in Ho. injection Ho as <-.
simpl in Hrow. destruct (role_at_ok realm _ _ _ Hok Hrow) as (r' & Hr' & ? & ?). by rewrite (role_at_unique _ _ _ _ Hrow Hr').
Qed.

Lemma delete_role_inv role_id cascade st : inv st → wp (delete_role clock realm role_id cascade) (λ _, inv) st.
Proof.
intros Hi. unfold delete_role. apply wp_bind, wp_read; [done|]; intros [role|] Hfound; [|by apply wp_fail].
pose proof Hi as [Hint Hf]. pose proof Hint as [Hk Hok]. destruct (loaded_role _ _ _ Hok Hfound) as (Hrole & <- & _).
apply wp_bind, wp_guard; [done|]; intros _ _. apply wp_bind, wp_read; [done|]; intros refs Hrefs%role_references_ok; [|done].
case_match; [by apply wp_fail|]. apply wp_bind, wp_now, wp_bind, wp_effect. cbn [es_store es_ids es_ticks es_events].
pose proof (delete_role_rows _ role refs (clock (es_ticks st)) Hint Hrole Hrefs) as Hrr.
unfold role_deletes, strip_parent in Hrr. apply wp_for_each_inv; [|intros; by apply wp_bump_subject].
match type of Hrr with role_removed _ ?s' _ => assert (keyed realm s') as Hk' end.
{ apply keyed_delete_all, keyed_put_all; [done|]. intros k v (c & [= -> _] & _)%list_elem_of_fmap. by exists (KRole (ro_id c)). }
split; cbn [es_store es_ids]; [by apply (integrity_delete_role _ _ role Hint)|].
apply (fresh_mono _ _ _ Hf). intros K HK. destruct (row realm (es_store st) K) as [v|] eqn:Hv; [unfold has; by rewrite Hv|exfalso].
assert (¬ has (row realm (es_store st)) K) as Hno by (unfold has; rewrite Hv; by intros []).
unfold has in HK. destruct HK as [v' Hv']. destruct K;
  try (rewrite (rr_same _ _ _ Hrr) in Hv'; [congruence|by intros Hg; rewrite (rr_gone _ _ _ Hrr _ Hg) in Hv'|done..]).
- by rewrite (rr_none _ _ _ Hrr) in Hv'.
- apply (rr_org _ _ _ Hrr) in Hv'. congruence.
Qed.
End preserve.
