(* ===== verification/RbacPreserve2.v ===== *)
(** * Role-based access control: groups, assignments, grants and cascades preserve integrity

The triples of the remaining operations of [rbac/engine.rs], and the theorem over
every sequence of operations. *)
From stdpp Require Import relations.
From stdpp Require Import base list gmap strings sorting lexico.
From Stdlib Require Import Strings.Byte ZArith Lia.
From S2P Require Import Prelude OrdMap StorageTypes OrdSet RbacTypes RbacResolve RealmRows RbacKeys RbacStore RbacEngine RbacRows.
From S2P Require Import RbacIntegrity RbacCycles RbacPreserve.

Open Scope Z_scope.

Section preserve.
Context `{!UuidText, !UuidTextLaws, !Json, !JsonLaws, !UriHash} (ids : nat → Uuid) (clock : nat → Timestamp).
Context `{!Inj (=) (=) ids}.
Variable realm : RealmId.
Local Abbreviation rows st := (row realm (es_store st)).
Local Abbreviation inv := (inv ids realm).
Local Abbreviation wp := (wpe inv).

Ltac row_eq := intros K; repeat first [rewrite row_insert | rewrite row_delete];
  repeat case_decide; subst; simpl in *; try done; try congruence.

(** Changed rows outside a kind leave the kind. *)
Ltac kind_same := let K := fresh "K" in intros K ?;
  repeat first [rewrite row_insert | rewrite row_delete]; repeat (case_decide; [by subst K|]); done.

(** ** Groups *)

Lemma integrity_set_group s s' id g' (old : option Str) :
  integrity realm s → keyed realm s' → gr_id g' = id → gr_realm_id g' = realm →
  (∀ K, row realm s' K = if decide (K = KGroup id) then Some (ser_group g')
        else if decide (K = KGroupSlug (gr_slug g')) then Some (ser_id id)
        else if decide (Some K = KGroupSlug <$> old) then None else row realm s K) →
  (row realm s (KGroupSlug (gr_slug g')) = None ∨ row realm s (KGroupSlug (gr_slug g')) = Some (ser_id id)) →
  (∀ n, n ≠ gr_slug g' → row realm s (KGroupSlug n) = Some (ser_id id) ↔ old = Some n) →
  integrity realm s'.
Proof.
intros [Hk Hok] Hk' Hid Hrealm Hrow Hfree Hold. split; [done|].
assert (∀ K, (∀ x, K ≠ KGroup x) → (∀ n, K ≠ KGroupSlug n) → row realm s' K = row realm s K) as Hsame.
{ intros K HK1 HK2. rewrite Hrow. repeat case_decide; try done; subst; exfalso; [by eapply HK1|by eapply HK2|].
  destruct old; simplify_eq/=. by eapply HK2. }
split.
- intros K v. rewrite Hrow. repeat case_decide; subst; [intros [= <-]; by exists g'|intros [= <-]; by eexists|done|].
  by apply (rs_vals _ _ Hok).
- apply (roles_ok_same (row realm s)); [|apply Hok]. intros K HK. apply Hsame; intros; by destruct K.
- apply (groups_ok_set (row realm s) _ id g').
  + apply Hok.
  + unfold group_at. by rewrite Hrow, decide_True.
  + intros x Hx. rewrite Hrow. repeat case_decide; try done; [congruence|by destruct old].
  + by rewrite Hrow, decide_False, decide_True.
  + done.
  + intros n Hn Hnid. rewrite Hrow, decide_False, decide_False by congruence. apply Hold in Hnid as ->; [|done].
    by rewrite decide_True.
  + intros n Hn Hnid. rewrite Hrow, decide_False, decide_False by congruence. rewrite decide_False; [done|].
    destruct old as [o|]; [|done]. simpl. intros [= <-]. by apply Hnid, Hold.
  + intros g m. split; by apply Hsame.
- apply (assigns_ok_same (row realm s)); [intros K HK; apply Hsame; intros; by destruct K| | |apply Hok].
  + intros r Hr. unfold has. by rewrite Hsame.
  + intros g Hg. unfold has. rewrite Hrow. repeat case_decide; try done. by destruct old.
- apply (grants_ok_same (row realm s)); [|apply Hok]. intros K HK. apply Hsame; intros; by destruct K.
Qed.

(** A group written under a drawn identifier and an unused slug. *)
Lemma inv_new_group st evs ticks g : inv st → gr_id g = ids (es_ids st) → gr_realm_id g = realm →
  rows st (KGroupSlug (gr_slug g)) = None →
  inv (MkEng (put_all [(encode_group (ids (es_ids st)), ser_group g);
    (encode_group_slug realm (gr_slug g), ser_id (ids (es_ids st)))] (es_store st)) evs (S (es_ids st)) ticks).
Proof.
intros [Hint Hf] Hid Hrealm Hname. pose proof Hint as [Hk Hok]. destruct (Hf (es_ids st)) as (_ & Hnew & _); [done|].
split; cbn [es_store es_ids put_all foldl fst snd]; change (encode_group ?x) with (enc realm (KGroup x));
  change (encode_group_slug realm ?x) with (enc realm (KGroupSlug x)).
- apply (integrity_set_group (es_store st) _ (ids (es_ids st)) g None); try done.
  + by repeat apply keyed_insert.
  + row_eq.
  + by left.
  + intros n _. split; [|done]. intros (x & g' & Heq & Hg & _)%(gk_slug _ (rs_groups _ _ Hok)).
    apply (inj ser_id) in Heq as <-. unfold group_at in Hg. congruence.
- apply (fresh_change ids _ _ _ _ Hf); [lia|]. intros x K HK. unfold has. rewrite !row_insert.
  repeat case_decide; subst; destruct HK as [HK|[HK|HK]]; simplify_eq; eauto.
Qed.

Lemma create_group_inv req st : inv st → wp (create_group ids clock realm req) (λ _, inv) st.
Proof.
intros Hi. unfold create_group. apply wp_bind, wp_guard; [done|]; intros _ _. case_match; [by apply wp_fail|].
apply wp_bind, wp_read; [done|]; intros [x|] Hex; [by apply wp_fail|]. apply wp_bind, wp_now. apply wp_bind, wp_generate.
apply wp_bind, wp_effect, wp_ret. destruct (load_slug_ok realm (es_store st) (cg_slug req) (proj2 (proj1 Hi))) as (o & Ho & Hname).
rewrite Ho in Hex. injection Hex as ->. cbn [es_store es_ids es_events es_ticks].
match goal with |- context [ser_group ?g'] => apply (inv_new_group st _ _ g') end; done.
Qed.

Lemma loaded_group s id g : rows_ok realm (row realm s) → load_group realm s id = Ok (Some g) →
  group_at (row realm s) id g ∧ gr_id g = id ∧ gr_realm_id g = realm.
Proof.
intros Hok Hl. destruct (load_group_ok realm s id Hok) as (o & Ho & Hrow & Hid). rewrite Hl in Ho. injection Ho as <-.
simpl in Hrow. destruct (group_at_ok realm _ _ _ Hok Hrow) as (g' & Hg' & ? & ?). by rewrite (group_at_unique _ _ _ _ Hrow Hg').
Qed.

Lemma stored_slug T id g n : groups_ok T → group_at T id g → T (KGroupSlug n) = Some (ser_id id) → n = gr_slug g.
Proof.
intros Hok Hg (x & g' & Heq & Hg' & <-)%(gk_slug _ Hok). apply (inj ser_id) in Heq as <-.
by rewrite (group_at_unique _ _ _ _ Hg Hg').
Qed.

(** A stored group rewritten under its own slug. *)
Lemma inv_put_group st evs ticks g0 g' : inv st → group_at (rows st) (gr_id g') g0 →
  gr_realm_id g' = realm → gr_slug g' = gr_slug g0 →
  inv (MkEng (<[encode_group (gr_id g') := ser_group g']> (es_store st)) evs (es_ids st) ticks).
Proof.
intros [Hint Hf] Hg0 Hrealm Hslug. pose proof Hint as [Hk Hok]. pose proof (gk_index _ (rs_groups _ _ Hok) _ _ Hg0) as Hx.
split; cbn [es_store es_ids]; change (encode_group ?x) with (enc realm (KGroup x)).
- apply (integrity_set_group (es_store st) _ (gr_id g') g' None); try done.
  + by apply keyed_insert.
  + rewrite Hslug. row_eq.
  + rewrite Hslug. by right.
  + intros n Hn. split; [|done]. intros Hid. rewrite (stored_slug _ _ _ _ (rs_groups _ _ Hok) Hg0 Hid) in Hn. by rewrite Hslug in Hn.
- apply (fresh_mono ids _ _ _ Hf). intros K. unfold has. rewrite row_insert. case_decide; [|done]. subst. by rewrite Hg0.
Qed.

Lemma update_group_inv group_id req st : inv st → wp (update_group clock realm group_id req) (λ _, inv) st.
Proof.
intros Hi. unfold update_group. apply wp_bind, wp_read; [done|]; intros [group|] Hfound; [|by apply wp_fail].
pose proof Hi as [Hint Hf]. pose proof Hint as [Hk Hok]. destruct (loaded_group _ _ _ Hok Hfound) as (Hg & <- & Hrealm).
apply wp_bind, wp_guard; [done|]; intros _ _.
apply wp_bind, (wp_mono _ (λ reslug st', st' = st ∧
  ∀ n, reslug = Some n → n ≠ gr_slug group ∧ row realm (es_store st) (KGroupSlug n) = None)).
2: { destruct (ug_slug req) as [n|]; [|by apply wp_ret]. apply wp_bind, wp_guard; [done|]; intros _ _. case_decide; [by apply wp_ret|].
  apply wp_bind, wp_read; [done|]; intros [x|] Hx; [by apply wp_fail|]. apply wp_ret. split; [done|]. intros n' [= <-]. split; [done|].
  destruct (load_slug_ok realm (es_store st) n Hok) as (o & Ho & Hrow). rewrite Hx in Ho. by injection Ho as <-. }
intros reslug st' [-> Hre]. apply wp_bind, wp_now. cbn [es_ticks]. set (group' := MkGroup _ _ _ _ _ _ _ _).
destruct reslug as [n|].
- destruct (Hre n eq_refl) as [Hn Hfree]. apply wp_bind, wp_effect, wp_bind, wp_effect, wp_ret.
  split; cbn [es_store es_ids es_events es_ticks put_all foldl fst snd]; change (encode_group ?x) with (enc realm (KGroup x));
    change (encode_group_slug realm ?x) with (enc realm (KGroupSlug x)).
  + apply (integrity_set_group (es_store st) _ (gr_id group) group' (Some (gr_slug group)));
      cbn [group' gr_id gr_realm_id gr_slug default]; try done.
    * by apply keyed_delete; repeat apply keyed_insert.
    * row_eq.
    * by left.
    * intros n' Hn'. split.
      -- intros Hm. by rewrite (stored_slug _ _ _ _ (rs_groups _ _ Hok) Hg Hm).
      -- intros [= <-]. by apply (gk_index _ (rs_groups _ _ Hok)).
  + apply (fresh_change ids _ _ _ _ Hf); [done|]. intros x K HK. unfold has. rewrite row_delete, !row_insert.
    repeat case_decide; subst; destruct HK as [HK|[HK|HK]]; simplify_eq; eauto.
- apply wp_bind, wp_effect, wp_bind, wp_ret, wp_ret. cbn [es_store es_ids es_events es_ticks put_all foldl fst snd].
  by apply (inv_put_group st _ _ group group').
Qed.

(** ** Memberships *)

Lemma inv_link st evs ticks g m : inv st → has (rows st) (KGroup g) →
  (∀ c, m = MGroup c → has (rows st) (KGroup c) ∧ ¬ rtc (group_edge (rows st)) c g) →
  inv (MkEng (<[enc realm (KReverse m g) := ser_id g]> (<[enc realm (KForward g m) := ser_member m]> (es_store st)))
    evs (es_ids st) ticks).
Proof.
intros [[Hk Hok] Hf] Hg Hc. split; [split|]; cbn [es_store es_ids]; [by repeat apply keyed_insert|split|].
- intros K v. rewrite !row_insert. repeat case_decide; subst; [by intros [= <-]..|]. by apply (rs_vals _ _ Hok).
- apply (roles_ok_same (rows st)); [kind_same|apply Hok].
- apply (groups_ok_link (rows st) _ g m (ser_member m) (ser_id g)); try done.
  + apply Hok.
  + intros K (HK & HK1 & HK2). rewrite !row_insert. by rewrite !decide_False by congruence.
  + by rewrite !row_insert, decide_False, decide_True.
  + by rewrite row_insert, decide_True.
- apply (assigns_ok_same (rows st)); [kind_same| | |apply Hok]; intros x; unfold has; rewrite !row_insert; by rewrite !decide_False.
- apply (grants_ok_same (rows st)); [kind_same|apply Hok].
- apply (fresh_change ids _ _ _ _ Hf); [done|]. intros x K HK. unfold has. rewrite !row_insert.
  repeat case_decide; subst; destruct HK as [HK|[HK|HK]]; simplify_eq; eauto.
Qed.

Lemma inv_unlink st evs ticks s' g m : inv st → keyed realm s' →
  (∀ K, row realm s' K = if decide (K = KForward g m) then None else if decide (K = KReverse m g) then None else rows st K) →
  inv (MkEng s' evs (es_ids st) ticks).
Proof.
intros [[Hk Hok] Hf] Hk' Hrow. split; [split|]; cbn [es_store es_ids]; [done|split|].
- intros K v. rewrite Hrow. repeat case_decide; [done..|]. by apply (rs_vals _ _ Hok).
- apply (roles_ok_same (rows st)); [|apply Hok]. intros K HK. rewrite Hrow. by rewrite !decide_False by (by intros ->).
- apply (groups_ok_unlink (rows st) _ g m); [apply Hok| |by rewrite Hrow, decide_True|by rewrite Hrow, decide_False, decide_True].
  intros K (HK & HK1 & HK2). rewrite Hrow. by rewrite !decide_False.
- apply (assigns_ok_same (rows st)); [| | |apply Hok].
  + intros K HK. rewrite Hrow. by rewrite !decide_False by (by intros ->).
  + intros x. unfold has. rewrite Hrow. by rewrite !decide_False.
  + intros x. unfold has. rewrite Hrow. by rewrite !decide_False.
- apply (grants_ok_same (rows st)); [|apply Hok]. intros K HK. rewrite Hrow. by rewrite !decide_False by (by intros ->).
- apply (fresh_mono ids _ _ _ Hf). intros K. unfold has. rewrite Hrow. repeat case_decide; [by intros []..|done].
Qed.

Lemma group_exists s g : rows_ok realm (row realm s) →
  (found ← load_group realm s g; match found with Some _ => Ok tt | None => Err GroupNotFound end) = Ok tt → has (row realm s) (KGroup g).
Proof.
intros Hok. destruct (load_group_ok realm s g Hok) as ([gr|] & -> & Hrow & _); cbn [mbind outcome_bind]; [|done].
intros _. unfold has. by rewrite Hrow.
Qed.

Lemma add_group_member_inv group_id m st : inv st → wp (add_group_member clock realm group_id m) (λ _, inv) st.
Proof.
intros Hi. pose proof Hi as [[Hk Hok] Hf]. unfold add_group_member. apply wp_bind, wp_read; [done|]; intros [] Hg%group_exists; [|done].
apply wp_bind, wp_read; [done|]; intros [] Hm. apply wp_bind, wp_read; [done|]; intros [] Hchk. apply wp_bind, wp_now.
apply wp_bind, wp_effect. apply wp_bind, wp_bump_member; [|intros; by apply wp_ret].
cbn [es_store es_ids es_events es_ticks put_all foldl fst snd].
change (encode_gm_forward group_id m) with (enc realm (KForward group_id m)).
change (encode_gm_reverse m group_id) with (enc realm (KReverse m group_id)).
apply (inv_link st); try done. intros c ->. split; [by apply group_exists|by apply (check_group_sound realm (es_store st) Hok Hk)].
Qed.

Lemma remove_group_member_inv group_id m st : inv st → wp (remove_group_member group_id m) (λ _, inv) st.
Proof.
intros Hi. unfold remove_group_member. apply wp_bind, wp_effect, wp_bind, wp_effect. apply wp_bump_member; [|done].
cbn [es_store es_ids es_events es_ticks]. destruct Hi as [[Hk Hok] Hf].
change (encode_gm_forward group_id m) with (enc realm (KForward group_id m)).
change (encode_gm_reverse m group_id) with (enc realm (KReverse m group_id)).
apply (inv_unlink st _ _ _ group_id m); [done|by repeat apply keyed_delete|]. row_eq.
Qed.

(** ** Assignments *)

Lemma loaded_assignment s id a : rows_ok realm (row realm s) → load_assignment realm s id = Ok (Some a) →
  assign_at (row realm s) id a.
Proof.
intros Hok Hl. destruct (load_assignment_ok realm s id Hok) as (o & Ho & Hrow). rewrite Hl in Ho. by injection Ho as <-.
Qed.

Lemma subject_exists_ok s sub g : rows_ok realm (row realm s) → subject_exists realm s sub = Ok tt → sub = SGroup g →
  has (row realm s) (KGroup g).
Proof. intros Hok Hs ->. by apply group_exists. Qed.

Lemma inv_add_assignment st evs ticks a n : inv st → (es_ids st ≤ n)%nat → ra_id a = ids n → ra_realm_id a = realm →
  has (rows st) (KRole (ra_role_id a)) → (∀ g, ra_subject a = SGroup g → has (rows st) (KGroup g)) →
  inv (MkEng (<[enc realm (KAssignRole (ra_role_id a) (ids n)) := ser_id (ids n)]>
    (<[enc realm (subject_row (ra_subject a) (ids n)) := ser_id (ids n)]>
    (<[enc realm (KAssign (ids n)) := ser_assignment a]> (es_store st)))) evs (S n) ticks).
Proof.
intros [[Hk Hok] Hf] Hn Hid Hrealm Hr Hg. destruct (Hf n Hn) as (_ & _ & Hnew).
assert (∀ kind : RowKey → Prop, (∀ sub x, ¬ kind (subject_row sub x)) → (∀ x, ¬ kind (KAssign x)) → (∀ r x, ¬ kind (KAssignRole r x)) →
  same kind (rows st) (row realm (<[enc realm (KAssignRole (ra_role_id a) (ids n)) := ser_id (ids n)]>
    (<[enc realm (subject_row (ra_subject a) (ids n)) := ser_id (ids n)]>
    (<[enc realm (KAssign (ids n)) := ser_assignment a]> (es_store st)))))) as Hsame.
{ intros kind N1 N2 N3 K HK. rewrite !row_insert. repeat (case_decide; [subst K; naive_solver|]). done. }
split; [split|]; cbn [es_store es_ids]; [by repeat apply keyed_insert|split|].
- intros K v. rewrite !row_insert. repeat case_decide; subst; [by intros [= <-]|intros [= <-]; by destruct (ra_subject a)| |].
  + intros [= <-]. by exists a.
  + by apply (rs_vals _ _ Hok).
- apply (roles_ok_same (rows st)); [|apply Hok]. apply Hsame; [intros [] ? []|intros ? []|intros ? ? []].
- apply (groups_ok_same (rows st)); [|apply Hok]. apply Hsame; [intros [] ? []|intros ? []|intros ? ? []].
- apply (assigns_ok_add (rows st) _ (ids n) a (ser_id (ids n)) (ser_id (ids n))); try done.
  + apply Hok.
  + intros K (_ & K1 & K2 & K3). rewrite !row_insert. by rewrite !decide_False by congruence.
  + unfold assign_at. rewrite !row_insert, decide_False, decide_False, decide_True; try done; by destruct (ra_subject a).
  + rewrite !row_insert, decide_False, decide_True; try done; by destruct (ra_subject a).
  + by rewrite row_insert, decide_True.
  + intros x. unfold has. rewrite !row_insert, !decide_False; try done; by destruct (ra_subject a).
  + intros x. unfold has. rewrite !row_insert, !decide_False; try done; by destruct (ra_subject a).
- apply (grants_ok_same (rows st)); [|apply Hok]. apply Hsame; [intros [] ? []|intros ? []|intros ? ? []].
- apply (fresh_change ids _ _ _ _ Hf); [lia|]. intros x K HK. unfold has. rewrite !row_insert.
  repeat case_decide; subst; destruct HK as [HK|[HK|HK]]; simplify_eq; eauto; by destruct (ra_subject a).
Qed.

Lemma assign_role_inv req st : inv st → wp (assign_role ids clock realm req) (λ _, inv) st.
Proof.
intros Hi. pose proof Hi as [[Hk Hok] Hf]. unfold assign_role. apply wp_bind, wp_read; [done|]; intros [role|] Hfound; [|by apply wp_fail].
case_decide; [|by apply wp_fail]. apply wp_bind, wp_read; [done|]; intros [] Hsub. apply wp_bind, wp_read; [done|]; intros all _.
destruct (list_find _ all) as [[i existing]|]; [by apply wp_ret|]. apply wp_bind, wp_now, wp_bind, wp_generate, wp_bind, wp_effect.
apply wp_bind, wp_bump_subject; [|intros; by apply wp_ret]. cbn [es_store es_ids es_events es_ticks put_all foldl fst snd].
rewrite subject_index_enc with (realm := realm). change (encode_assignment ?x) with (enc realm (KAssign x)).
change (encode_assign_role ?r ?x) with (enc realm (KAssignRole r x)).
match goal with |- context [ser_assignment ?a] => apply (inv_add_assignment st _ _ a (es_ids st)) end; try done; cbn [ra_role_id ra_subject].
- destruct (loaded_role realm _ _ _ Hok Hfound) as (Hr & _). unfold has. by rewrite Hr.
- intros g. by apply subject_exists_ok.
Qed.

(** The rows of one assignment gone. *)
Lemma inv_drop_assignment st evs ticks s' id a : inv st → assign_at (rows st) id a → keyed realm s' →
  (∀ K, row realm s' K = if decide (K = KAssign id ∨ K = subject_row (ra_subject a) id ∨ K = KAssignRole (ra_role_id a) id)
        then None else rows st K) →
  inv (MkEng s' evs (es_ids st) ticks).
Proof.
intros [[Hk Hok] Hf] Ha Hk' Hrow.
assert (∀ kind : RowKey → Prop, (∀ sub x, ¬ kind (subject_row sub x)) → (∀ x, ¬ kind (KAssign x)) → (∀ r x, ¬ kind (KAssignRole r x)) →
  same kind (rows st) (row realm s')) as Hsame.
{ intros kind N1 N2 N3 K HK. rewrite Hrow, decide_False; [done|]. naive_solver. }
split; [split|]; cbn [es_store es_ids]; [done|split|].
- intros K v. rewrite Hrow. case_decide; [done|]. by apply (rs_vals _ _ Hok).
- apply (roles_ok_same (rows st)); [|apply Hok]. apply Hsame; [intros [] ? []|intros ? []|intros ? ? []].
- apply (groups_ok_same (rows st)); [|apply Hok]. apply Hsame; [intros [] ? []|intros ? []|intros ? ? []].
- apply (assigns_ok_remove (rows st) _ (λ x, x = id)); [apply Hok| |intros x; destruct (decide (x = id)); auto|].
  + intros K x HK. split.
    * intros ->. rewrite Hrow. case_decide as Hn; [done|]. apply eq_None_not_Some. intros Hs. apply Hn.
      destruct HK as [->|[[sub ->]|[r ->]]]; [by left|right; left|right; right].
      -- destruct (ak_of_subject _ (rs_assigns _ _ Hok) _ _ Hs) as (a' & Ha' & <-). by rewrite (assign_at_unique _ _ _ _ Ha Ha').
      -- destruct (ak_of_role _ (rs_assigns _ _ Hok) _ _ Hs) as (a' & Ha' & <-). by rewrite (assign_at_unique _ _ _ _ Ha Ha').
    * intros Hx. rewrite Hrow, decide_False; [done|]. intros HK'.
      destruct (ra_subject a), HK as [->|[[[] ->]|[r ->]]], HK' as [?|[?|?]]; by simplify_eq.
  + intros x b _ Hb. assert (∀ K, ¬ assign_key K → has (rows st) K → has (row realm s') K) as Hm.
    { intros K HK. unfold has. rewrite Hrow, decide_False; [done|]. destruct (ra_subject a); by intros [->|[->| ->]]. }
    split; [apply Hm; [by intros []|by apply (ak_role_exists _ (rs_assigns _ _ Hok) x)]|].
    intros g Hg. apply Hm; [by intros []|by apply (ak_group_exists _ (rs_assigns _ _ Hok) x b)].
- apply (grants_ok_same (rows st)); [|apply Hok]. apply Hsame; [intros [] ? []|intros ? []|intros ? ? []].
- apply (fresh_mono ids _ _ _ Hf). intros K. unfold has. rewrite Hrow. case_decide; [by intros []|done].
Qed.

Lemma unassign_role_inv aid st : inv st → wp (unassign_role realm aid) (λ _, inv) st.
Proof.
intros Hi. pose proof Hi as [[Hk Hok] Hf]. unfold unassign_role. apply wp_bind, wp_read; [done|]; intros [a|] Hfound; [|by apply wp_fail].
apply loaded_assignment in Hfound; [|done]. apply wp_bind, wp_effect, wp_bind, wp_effect, wp_bind, wp_effect.
apply wp_bump_subject; [|done]. cbn [es_store es_ids es_events es_ticks]. rewrite subject_index_enc with (realm := realm).
change (encode_assignment ?x) with (enc realm (KAssign x)). change (encode_assign_role ?r ?x) with (enc realm (KAssignRole r x)).
apply (inv_drop_assignment st _ _ _ aid a); [done..|by repeat apply keyed_delete|].
intros K. rewrite !row_delete. repeat case_decide; naive_solver.
Qed.

(** ** Rows that no other row depends on *)

Definition loose (K : RowKey) : Prop :=
  match K with KPermission _ | KScope _ | KResourceScope _ | KOrgRole _ _ _ => True | _ => False end.

Lemma inv_loose st evs ticks s' : inv st → keyed realm s' → (∀ K, ¬ loose K → row realm s' K = rows st K) →
  (∀ K v, loose K → row realm s' K = Some v → val_ok realm K v) → inv (MkEng s' evs (es_ids st) ticks).
Proof.
intros [[Hk Hok] Hf] Hk' Hrow Hval.
assert (∀ kind : RowKey → Prop, (∀ K, kind K → ¬ loose K) → same kind (rows st) (row realm s')) as Hsame by (intros kind Hkind K HK; auto).
split; [split|]; cbn [es_store es_ids]; [done|split|].
- intros K v Hv. destruct K; try (by apply Hval); rewrite Hrow in Hv by (by intros []); by apply (rs_vals _ _ Hok).
- apply (roles_ok_same (rows st)); [|apply Hok]. apply Hsame. by intros [] [] [].
- apply (groups_ok_same (rows st)); [|apply Hok]. apply Hsame. by intros [] [] [].
- apply (assigns_ok_same (rows st)); [apply Hsame; by intros [] [] []| | |apply Hok]; intros x; unfold has; by rewrite Hrow by (by intros []).
- apply (grants_ok_same (rows st)); [|apply Hok]. apply Hsame. by intros [] [] [].
- intros i Hi. rewrite !Hrow by (by intros []). by apply Hf.
Qed.

Lemma inv_put_loose st evs ticks K v : inv st → loose K → val_ok realm K v →
  inv (MkEng (<[enc realm K := v]> (es_store st)) evs (es_ids st) ticks).
Proof.
intros Hi HK Hv. pose proof Hi as [[Hk Hok] _]. apply inv_loose; [done|by apply keyed_insert|..].
- intros K' HK'. rewrite row_insert, decide_False; [done|]. by intros <-.
- intros K' v' _. rewrite row_insert. case_decide; [subst; by intros [= <-]|]. by apply (rs_vals _ _ Hok).
Qed.

Lemma inv_delete_loose st evs ticks K : inv st → loose K → inv (MkEng (base.delete (enc realm K) (es_store st)) evs (es_ids st) ticks).
Proof.
intros Hi HK. pose proof Hi as [[Hk Hok] _]. apply inv_loose; [done|by apply keyed_delete|..].
- intros K' HK'. rewrite row_delete, decide_False; [done|]. by intros <-.
- intros K' v' _. rewrite row_delete. case_decide; [done|]. by apply (rs_vals _ _ Hok).
Qed.

Lemma add_additional_role_inv o u name st : inv st → wp (add_additional_role realm o u name) (λ _, inv) st.
Proof.
intros Hi. unfold add_additional_role. case_match; [by apply wp_fail|]. apply wp_bind, wp_read; [done|]; intros [role|] _; [|by apply wp_fail].
apply wp_effect. by apply (inv_put_loose st _ _ (KOrgRole o u name)).
Qed.

Lemma remove_additional_role_inv o u name st : inv st → wp (remove_additional_role realm o u name) (λ _, inv) st.
Proof. intros Hi. apply wp_effect. by apply (inv_delete_loose st _ _ (KOrgRole o u name)). Qed.

(** A purge of extra-role rows deletes the rows its prefix and filter select. *)
Lemma purge_org_role_rows_ok E p only_user (P : RowKey → Prop) st : inv st → scans realm p P →
  (∀ K, P K → ∃ o u n, K = KOrgRole o u n) →
  wpe E (purge_org_role_rows p only_user) (λ _ st', inv st' ∧ (∀ K, (∀ o u n, K ≠ KOrgRole o u n) → rows st' K = rows st K) ∧
    (∀ K, P K → match only_user with Some u => org_role_key_names_user (enc realm K) u | None => true end = true → rows st' K = None)) st.
Proof.
intros Hi Hscan HP. unfold purge_org_role_rows. apply wp_bind. eapply wp_read_ok; [done|].
set (doomed := filter _ _). apply wp_bind, (wp_for_each doomed _ (λ rest st', inv st' ∧
  (∀ K, (∀ o u n, K ≠ KOrgRole o u n) → rows st' K = rows st K) ∧
  (∀ k, k ∈ rest → ∃ K, P K ∧ k = enc realm K) ∧
  (∀ K, P K → match only_user with Some u => org_role_key_names_user (enc realm K) u | None => true end = true →
     rows st' K = None ∨ enc realm K ∈ rest))).
- pose proof Hi as [[Hk Hok] _]. split_and!; [done..| |].
  + intros k [_ (e & -> & He)%list_elem_of_fmap]%list_elem_of_filter. apply (Hscan _ _ Hk) in He as (K & ? & ? & _). eauto.
  + intros K HK Hu. destruct (rows st K) as [v|] eqn:Hv; [right|by left]. apply list_elem_of_filter. split; [done|].
    apply list_elem_of_fmap. exists (Scan (enc realm K) v). split; [done|]. apply (Hscan _ _ Hk). eauto.
- intros k rest st' (Hi' & Hsame & Hin & Hgone). destruct (Hin k) as (K & HK & ->); [left|].
  destruct (HP K HK) as (o & u & n & Heq). apply wp_effect. cbn [es_store]. split_and!.
  + apply inv_delete_loose; [done|]. by rewrite Heq.
  + intros K' HK'. rewrite row_delete, decide_False; [by apply Hsame|]. intros <-. by apply (HK' o u n).
  + intros k' Hk'. apply Hin. by right.
  + intros K' HK' Hu. rewrite row_delete. case_decide as Hd; [by left|].
    destruct (Hgone K' HK' Hu) as [?|[Heq'|?]%elem_of_cons]; auto. apply (inj (enc realm)) in Heq'. by subst.
- intros st' (Hi' & Hsame & _ & Hgone). apply wp_ret. split_and!; [done..|]. intros K HK Hu.
  by destruct (Hgone K HK Hu) as [?|?%elem_of_nil].
Qed.

(** ** Grants *)

Lemma inv_grant st evs ticks s' u sc p (o : option (list byte)) : inv st → keyed realm s' →
  (∀ K, row realm s' K = if decide (K = KGrant u sc p) then o
        else if decide (K = KGrantIndex p sc u) then (λ _, []) <$> o else rows st K) →
  (∀ v, o = Some v → val_ok realm (KGrant u sc p) v) → inv (MkEng s' evs (es_ids st) ticks).
Proof.
intros [[Hk Hok] Hf] Hk' Hrow Hval.
assert (∀ kind : RowKey → Prop, (∀ K, kind K → ¬ grant_key K) → same kind (rows st) (row realm s')) as Hsame.
{ intros kind Hkind K HK. rewrite Hrow. by rewrite !decide_False by (intros ->; by apply Hkind in HK). }
split; [split|]; cbn [es_store es_ids]; [done|split|].
- intros K v. rewrite Hrow. repeat case_decide; subst; [by apply Hval|by destruct o; intros [= <-]|]. by apply (rs_vals _ _ Hok).
- apply (roles_ok_same (rows st)); [|apply Hok]. apply Hsame. by intros [] [] [].
- apply (groups_ok_same (rows st)); [|apply Hok]. apply Hsame. by intros [] [] [].
- apply (assigns_ok_same (rows st)); [apply Hsame; by intros [] [] []| | |apply Hok]; intros x; unfold has; rewrite Hrow; by rewrite !decide_False.
- intros u' sc' p'. unfold has. rewrite !Hrow. pose proof (rs_grants _ _ Hok u' sc' p') as Hg. unfold has in Hg.
  destruct (decide (KGrant u' sc' p' = KGrant u sc p)) as [[= -> -> ->]|Hne].
  + rewrite (decide_False (P := KGrantIndex p sc u = KGrant u sc p)) by done. rewrite decide_True by done. by rewrite fmap_is_Some.
  + rewrite !decide_False by congruence. done.
- intros i Hi. rewrite !Hrow. rewrite !decide_False by done. by apply Hf.
Qed.

Lemma seed_user_permission_inv g st : inv st → wp (seed_user_permission_unchecked realm g) (λ _, inv) st.
Proof.
intros Hi. pose proof Hi as [[Hk Hok] _]. apply wp_bind, wp_effect, wp_ret. cbn [es_store es_ids es_events es_ticks put_all foldl fst snd].
apply (inv_grant st _ _ _ (upg_user_id g) (upg_scope g) (upg_permission g) (Some (ser_grant g))); [done|..].
- apply (keyed_insert realm _ (KGrantIndex _ _ _)), (keyed_insert realm _ (KGrant _ _ _)). done.
- change (encode_user_permission realm ?a ?b ?c) with (enc realm (KGrant a b c)).
  change (encode_user_permission_by_perm realm ?a ?b ?c) with (enc realm (KGrantIndex a b c)). row_eq.
- intros v [= <-]. by exists g.
Qed.

Lemma grant_user_permission_inv g st : inv st → wp (grant_user_permission realm g) (λ _, inv) st.
Proof. intros Hi. unfold grant_user_permission. case_match; [by apply wp_fail|by apply seed_user_permission_inv]. Qed.

Lemma revoke_user_permission_inv u p sc st : inv st → wp (revoke_user_permission realm u p sc) (λ _, inv) st.
Proof.
intros Hi. pose proof Hi as [[Hk Hok] _]. apply wp_bind, wp_effect, wp_effect. cbn [es_store es_ids es_events es_ticks].
apply (inv_grant st _ _ _ u sc p None); [done|by repeat apply keyed_delete| |done].
change (encode_user_permission realm ?a ?b ?c) with (enc realm (KGrant a b c)).
change (encode_user_permission_by_perm realm ?a ?b ?c) with (enc realm (KGrantIndex a b c)). row_eq.
Qed.

(** ** Cascades *)

(** The body that drops one index entry of a subject, and its assignment. *)
Definition drop_entry (e : ScanEntry) : eng unit :=
  aid ← guard_ok (de_or (de_id (se_value e)));
  _ ← drop_assignment_rows realm aid;
  write_delete (se_key e).

(** [sub]'s assignments gone between two states, every other row kept. *)
Definition subject_dropped (sub : Subject) (st st' : EngState) : Prop :=
  (∀ K, ¬ assign_key K → rows st' K = rows st K) ∧
  ∀ aid a, assign_at (rows st') aid a ↔ assign_at (rows st) aid a ∧ ra_subject a ≠ sub.

Lemma drop_entry_ok E sub aid a e st : inv st → se_key e = enc realm (subject_row sub aid) → se_value e = ser_id aid →
  assign_at (rows st) aid a → ra_subject a = sub →
  wpe E (drop_entry e) (λ _ st', inv st' ∧ (∀ K, rows st' K =
    if decide (K = KAssign aid ∨ K = subject_row (ra_subject a) aid ∨ K = KAssignRole (ra_role_id a) aid) then None else rows st K)) st.
Proof.
intros Hi Hkey Hval Ha <-. pose proof Hi as [[Hk Hok] _]. unfold drop_entry. apply wp_bind.
eapply wp_guard_ok; [by rewrite Hval, de_ser_id|]. unfold drop_assignment_rows.
destruct (load_assignment_ok realm (es_store st) aid Hok) as (found & Ho & Hrow). apply wp_bind, wp_bind. eapply wp_read_ok; [exact Ho|].
unfold assign_at in Ha. rewrite Ha in Hrow. destruct found as [a'|]; [|done]. injection Hrow as <-%(inj ser_assignment).
apply wp_bind, wp_effect, wp_effect, wp_effect. cbn [es_store es_ids es_events es_ticks]. rewrite Hkey.
change (encode_assignment ?x) with (enc realm (KAssign x)). change (encode_assign_role ?r ?x) with (enc realm (KAssignRole r x)).
assert (∀ K, row realm (base.delete (enc realm (subject_row (ra_subject a) aid)) (base.delete (enc realm (KAssignRole (ra_role_id a) aid))
  (base.delete (enc realm (KAssign aid)) (es_store st)))) K =
  if decide (K = KAssign aid ∨ K = subject_row (ra_subject a) aid ∨ K = KAssignRole (ra_role_id a) aid) then None else rows st K) as Hrows
  by (intros K; rewrite !row_delete; repeat case_decide; naive_solver).
split; [|done]. apply (inv_drop_assignment st _ _ _ aid a); [done..|by repeat apply keyed_delete|done].
Qed.

(** The loop over a subject's index. *)
Lemma drop_subject_ok E sub entries Q st : inv st →
  (∀ e, e ∈ entries ↔ ∃ aid, se_key e = enc realm (subject_row sub aid) ∧ rows st (subject_row sub aid) = Some (se_value e)) →
  NoDup (se_key <$> entries) → (∀ st', inv st' → subject_dropped sub st st' → Q tt st') → wpe E (for_each entries drop_entry) Q st.
Proof.
intros Hi Hent Hnd HQ. apply (wp_for_each entries drop_entry (λ rest st', inv st' ∧ NoDup (se_key <$> rest) ∧
  (∀ e, e ∈ rest ↔ ∃ aid, se_key e = enc realm (subject_row sub aid) ∧ rows st' (subject_row sub aid) = Some (se_value e)) ∧
  (∀ K, ¬ assign_key K → rows st' K = rows st K) ∧
  ∀ aid a, (assign_at (rows st') aid a → assign_at (rows st) aid a) ∧
    (assign_at (rows st) aid a → ra_subject a ≠ sub → assign_at (rows st') aid a))); [by split_and!| |].
- intros e rest st' (Hi' & Hnd' & Hent' & Hother & Has). pose proof Hi' as [[Hk Hok] _].
  destruct (proj1 (Hent' e)) as (aid & Hkey & Hv); [left|].
  destruct (ak_of_subject _ (rs_assigns _ _ Hok) sub aid) as (a & Ha & Hsub); [by eexists|].
  eapply wp_mono; [|apply (drop_entry_ok E sub aid a e st' Hi' Hkey); [|done..]].
  2: { pose proof (rs_vals _ _ Hok _ _ Hv) as Hval. by destruct sub. }
  cbn beta. intros _ st'' [Hi'' Hrow]. cbn [fmap list_fmap] in Hnd'. apply NoDup_cons in Hnd' as [Hn Hnd'']. split_and!; [done..| | |].
  + intros e'. rewrite Hsub in Hrow. destruct (decide (se_key e' = se_key e)) as [Heq|Hne].
    * split; [intros Hin; exfalso; apply Hn; rewrite <-Heq; by apply list_elem_of_fmap_2|].
      intros (aid' & Hkey' & Hv'). rewrite Hkey', Hkey in Heq. apply (inj (enc realm)) in Heq. rewrite Heq in Hv'.
      rewrite Hrow, decide_True in Hv' by tauto. done.
    * trans (e' ∈ e :: rest); [rewrite elem_of_cons; split; [by right|intros [->|?]; done]|]. rewrite Hent'.
      split; intros (aid' & Hkey' & Hv'); exists aid'; (split; [done|]); revert Hv'; rewrite Hrow;
        (case_decide as Hd; [exfalso|done]); destruct Hd as [Hd|[Hd|Hd]]; try (by destruct sub); apply Hne; by rewrite Hkey', Hkey, Hd.
  + intros K HK. rewrite Hrow, decide_False; [by apply Hother|]. intros [->|[->| ->]]; apply HK; [done|by destruct (ra_subject a)|done].
  + intros aid' a'. destruct (Has aid' a') as [Has1 Has2]. unfold assign_at. rewrite Hrow. split.
    * case_decide; [done|]. apply Has1.
    * intros Ha' Hs'. rewrite decide_False; [by apply Has2|]. intros [[= ->]|[Heq|Heq]]; [|by destruct (ra_subject a)|done].
      apply Hs'. rewrite <-Hsub. f_equal. by apply (assign_at_unique (rows st) aid); [|apply Has].
- intros st' (Hi' & _ & Hent' & Hother & Has). apply HQ; [done|]. split; [done|]. intros aid a. split.
  + intros Ha. split; [by apply Has|]. intros <-. pose proof Hi' as [[Hk Hok] _].
    destruct (ak_subject _ (rs_assigns _ _ Hok) _ _ Ha) as [v Hv].
    apply (elem_of_nil (Scan (enc realm (subject_row (ra_subject a) aid)) v)). apply Hent'. by exists aid.
  + intros [Ha Hs]. by apply Has.
Qed.

(** One membership gone between two states. *)
Definition unlinked (g : GroupId) (m : GroupMember) (st : EngState) (_ : unit) (st' : EngState) : Prop :=
  inv st' ∧ ∀ K, rows st' K = if decide (K = KForward g m) then None else if decide (K = KReverse m g) then None else rows st K.

Definition member_key (K : RowKey) : Prop := match K with KForward _ _ | KReverse _ _ => True | _ => False end.

(** A loop each of whose turns removes the membership its entry names. *)
Lemma unlink_loop E entries f (L : ScanEntry → GroupId * GroupMember) Q st : inv st →
  (∀ e st, e ∈ entries → inv st → wpe E (f e) (unlinked (L e).1 (L e).2 st) st) →
  (∀ st', inv st' → (∀ K, ¬ member_key K → rows st' K = rows st K) →
     (∀ g m, has (rows st') (KForward g m) ↔ has (rows st) (KForward g m) ∧ (g, m) ∉ L <$> entries) → Q tt st') →
  wpe E (for_each entries f) Q st.
Proof.
intros Hi Hf HQ. apply (wp_for_each entries f (λ rest st', inv st' ∧ (∀ e, e ∈ rest → e ∈ entries) ∧
  (∀ K, ¬ member_key K → rows st' K = rows st K) ∧
  (∀ g m, has (rows st') (KForward g m) → has (rows st) (KForward g m)) ∧
  (∀ g m, has (rows st) (KForward g m) → (g, m) ∉ L <$> entries → has (rows st') (KForward g m)) ∧
  (∀ g m, (g, m) ∈ L <$> entries → (g, m) ∈ L <$> rest ∨ ¬ has (rows st') (KForward g m)))).
- split_and!; try done. intros g m ?. by left.
- intros e rest st' (Hi' & Hin & Hother & Hle & Hkeep & Hgone).
  eapply wp_mono; [|apply (Hf e st'); [by apply Hin; left|done]]. cbn beta. intros _ st'' [Hi'' Hrow].
  assert (∀ g m, has (rows st'') (KForward g m) ↔ has (rows st') (KForward g m) ∧ (g, m) ≠ L e) as Hfw.
  { intros g m. unfold has. rewrite Hrow. destruct (L e) as [g0 m0]. cbn [fst snd].
    destruct (decide (KForward g m = KForward g0 m0)) as [[= -> ->]|Hne]; [by split; [intros []|intros []]|].
    rewrite decide_False by done. split; [|by intros [? _]]. intros ?. split; [done|]. congruence. }
  split_and!; [done|by intros e' ?; apply Hin; right| | | |].
  + intros K HK. rewrite Hrow, !decide_False; [by apply Hother|by intros ->; apply HK..].
  + intros g m [? _]%Hfw. by apply Hle.
  + intros g m Hg Hn. apply Hfw. split; [by apply Hkeep|]. intros Heq. apply Hn. rewrite Heq.
    apply list_elem_of_fmap_2, Hin. left.
  + intros g m Hgm. destruct (decide ((g, m) = L e)) as [Heq|Hne]; [right; rewrite Hfw; naive_solver|].
    destruct (Hgone g m Hgm) as [[?|?]%elem_of_cons|Hn]; [done|by left|right]. rewrite Hfw. naive_solver.
- intros st' (Hi' & _ & Hother & Hle & Hkeep & Hgone). apply HQ; [done..|]. intros g m. split.
  + intros Hh. split; [by apply Hle|]. intros Hin. by destruct (Hgone g m Hin) as [?%elem_of_nil|?].
  + intros [? ?]. by apply Hkeep.
Qed.

(** The turn of each of the three loops over memberships. *)
Lemma unlink_ok E (k1 k2 : list byte) evs1 evs2 g m st : inv st →
  (k1 = enc realm (KForward g m) ∧ k2 = enc realm (KReverse m g)) ∨ (k1 = enc realm (KReverse m g) ∧ k2 = enc realm (KForward g m)) →
  wpe E (_ ← effect (base.delete k1) evs1; effect (base.delete k2) evs2) (unlinked g m st) st.
Proof.
intros Hi Hk12. pose proof Hi as [[Hk Hok] _]. apply wp_bind, wp_effect, wp_effect. cbn [es_store es_ids es_events es_ticks].
assert (∀ K, row realm (base.delete k2 (base.delete k1 (es_store st))) K =
  if decide (K = KForward g m) then None else if decide (K = KReverse m g) then None else rows st K) as Hrow.
{ destruct Hk12 as [[-> ->]|[-> ->]]; row_eq. }
split; [|done]. apply (inv_unlink st _ _ _ g m); [done|by repeat apply keyed_delete|done].
Qed.

(** The membership entries of the three scans. *)
Definition forward_of (g : GroupId) (e : ScanEntry) : GroupId * GroupMember := (g, default (MUser []) (de_member (se_value e))).
Definition reverse_of (m : GroupMember) (e : ScanEntry) : GroupId * GroupMember := (default [] (de_id (se_value e)), m).

Lemma forward_entries g st e : inv st → e ∈ scan_prefix (gm_forward_scan_prefix g) (es_store st) →
  ∃ m, se_key e = enc realm (KForward g m) ∧ se_value e = ser_member m ∧ forward_of g e = (g, m).
Proof.
intros [[Hk Hok] _] (K & [m ->] & Hkey & Hv)%(scans_forward realm g (es_store st) e Hk). exists m.
pose proof (rs_vals _ _ Hok _ _ Hv) as Hval. unfold forward_of. rewrite Hval, de_ser_member. done.
Qed.

Lemma reverse_entries m st e : inv st → e ∈ scan_prefix (gm_reverse_scan_prefix m) (es_store st) →
  ∃ g, se_key e = enc realm (KReverse m g) ∧ se_value e = ser_id g ∧ reverse_of m e = (g, m).
Proof.
intros [[Hk Hok] _] (K & [g ->] & Hkey & Hv)%(scans_reverse realm m (es_store st) e Hk). exists g.
pose proof (rs_vals _ _ Hok _ _ Hv) as Hval. unfold reverse_of. rewrite Hval, de_ser_id. done.
Qed.

Lemma forward_complete g m st : inv st → has (rows st) (KForward g m) →
  (g, m) ∈ forward_of g <$> scan_prefix (gm_forward_scan_prefix g) (es_store st).
Proof.
intros Hi [v Hv]. pose proof Hi as [[Hk Hok] _]. apply list_elem_of_fmap. exists (Scan (enc realm (KForward g m)) v).
assert (Scan (enc realm (KForward g m)) v ∈ scan_prefix (gm_forward_scan_prefix g) (es_store st)) as Hin.
{ apply (scans_forward realm g _ _ Hk). exists (KForward g m). eauto. }
split; [|done]. destruct (forward_entries g st _ Hi Hin) as (m' & Hkey & _ & ->).
cbn [se_key] in Hkey. by apply (inj (enc realm)) in Hkey as [= ->].
Qed.

Lemma reverse_complete g m st : inv st → has (rows st) (KForward g m) →
  (g, m) ∈ reverse_of m <$> scan_prefix (gm_reverse_scan_prefix m) (es_store st).
Proof.
intros Hi Hh. pose proof Hi as [[Hk Hok] _]. apply (gk_mirror _ (rs_groups _ _ Hok)) in Hh as [v Hv].
apply list_elem_of_fmap. exists (Scan (enc realm (KReverse m g)) v).
assert (Scan (enc realm (KReverse m g)) v ∈ scan_prefix (gm_reverse_scan_prefix m) (es_store st)) as Hin.
{ apply (scans_reverse realm m _ _ Hk). exists (KReverse m g). eauto. }
split; [|done]. destruct (reverse_entries m st _ Hi Hin) as (g' & Hkey & _ & ->).
cbn [se_key] in Hkey. by apply (inj (enc realm)) in Hkey as [= ->].
Qed.

(** A group with no memberships and no assignments goes. *)
Lemma inv_delete_group st evs ticks g : inv st → group_at (rows st) (gr_id g) g →
  (∀ m, ¬ has (rows st) (KForward (gr_id g) m)) → (∀ p, ¬ has (rows st) (KForward p (MGroup (gr_id g)))) →
  (∀ aid a, assign_at (rows st) aid a → ra_subject a ≠ SGroup (gr_id g)) →
  inv (MkEng (base.delete (encode_group_slug realm (gr_slug g)) (base.delete (encode_group (gr_id g)) (es_store st))) evs (es_ids st) ticks).
Proof.
intros [[Hk Hok] Hf] Hg Hno1 Hno2 Hno3. change (encode_group ?x) with (enc realm (KGroup x)).
change (encode_group_slug realm ?x) with (enc realm (KGroupSlug x)).
split; [split|]; cbn [es_store es_ids]; [by repeat apply keyed_delete|split|].
- intros K v. rewrite !row_delete. repeat case_decide; [done..|]. by apply (rs_vals _ _ Hok).
- apply (roles_ok_same (rows st)); [kind_same|apply Hok].
- apply (groups_ok_delete (rows st) _ (gr_id g) g); try done.
  + apply Hok.
  + by rewrite !row_delete, decide_False, decide_True.
  + intros x Hx. by rewrite !row_delete, decide_False, decide_False by congruence.
  + by rewrite row_delete, decide_True.
  + intros n Hn. by rewrite !row_delete, decide_False, decide_False by congruence.
  + intros. by rewrite !row_delete, !decide_False.
- apply (assigns_ok_remove (rows st) _ (λ _, False)); [apply Hok| |intros; right; by intros []|].
  + intros K aid HK. split; [done|]. intros _. rewrite !row_delete, !decide_False; [done|intros <-..];
      destruct HK as [?|[[[] ?]|[? ?]]]; done.
  + intros aid a _ Ha. split.
    * pose proof (ak_role_exists _ (rs_assigns _ _ Hok) _ _ Ha) as Hr. unfold has in *. by rewrite !row_delete, !decide_False.
    * intros g' Hg'. pose proof (ak_group_exists _ (rs_assigns _ _ Hok) _ _ _ Ha Hg') as Hr. unfold has in *.
      rewrite !row_delete, !decide_False; [done| |done]. intros [= <-]. by apply (Hno3 aid a).
- apply (grants_ok_same (rows st)); [kind_same|apply Hok].
- apply (fresh_mono ids _ _ _ Hf). intros K. unfold has. rewrite !row_delete. repeat case_decide; [by intros []..|done].
Qed.

Lemma delete_group_inv group_id st : inv st → wp (delete_group realm group_id) (λ _, inv) st.
Proof.
intros Hi. unfold delete_group. apply wp_bind, wp_read; [done|]; intros [group|] Hfound; [|by apply wp_fail].
destruct (loaded_group _ _ _ (proj2 (proj1 Hi)) Hfound) as (Hg & <- & _). apply wp_bind, wp_guard; [done|]; intros _ _.
apply wp_bind, wp_read; [done|]; intros fwd [= <-].
apply wp_bind, (unlink_loop _ _ _ (forward_of (gr_id group))); [done| |].
{ intros e st' He Hi'. destruct (forward_entries _ _ _ Hi He) as (m & Hkey & Hval & ->). apply wp_bind.
  eapply wp_guard_ok; [by rewrite Hval, de_ser_member|]. apply unlink_ok; [done|left]. by rewrite Hkey. }
intros st1 Hi1 Hother1 Hfw1. apply wp_bind, wp_read; [done|]; intros rev [= <-].
apply wp_bind, (unlink_loop _ _ _ (reverse_of (MGroup (gr_id group)))); [done| |].
{ intros e st' He Hi'. destruct (reverse_entries _ _ _ Hi1 He) as (p & Hkey & Hval & ->). apply wp_bind.
  eapply wp_guard_ok; [by rewrite Hval, de_ser_id|]. apply unlink_ok; [done|right]. by rewrite Hkey. }
intros st2 Hi2 Hother2 Hfw2. apply wp_bind, wp_read; [done|]; intros asgn [= <-].
apply wp_bind, (drop_subject_ok _ (SGroup (gr_id group))); [done| |apply scan_nodup|].
{ intros e. rewrite (scans_assign_groups realm (gr_id group) _ _ (proj1 (proj1 Hi2))). split.
  - intros (K & [aid ->] & ? & ?). by exists aid.
  - intros (aid & ? & ?). by exists (KAssignGroup (gr_id group) aid); eauto. }
intros st3 Hi3 [Hother3 Has3]. apply wp_bind, wp_effect, wp_effect. cbn [es_store es_ids es_events es_ticks].
assert (∀ g m, has (rows st3) (KForward g m) ↔ has (rows st2) (KForward g m)) as Hfw3
  by (intros; unfold has; by rewrite Hother3 by (by intros [])).
apply (inv_delete_group st3); [done|..].
- unfold group_at. rewrite Hother3, Hother2, Hother1 by (by intros []). done.
- intros m Hh. apply Hfw3, Hfw2 in Hh as [[Hh Hn]%Hfw1 _]. by apply Hn, forward_complete.
- intros p Hh. apply Hfw3, Hfw2 in Hh as [Hh Hn]. by apply Hn, reverse_complete.
- intros aid a Ha. by apply Has3 in Ha as [_ ?].
Qed.

(** The user field of an extra-role key. *)
Lemma splitn_field n f rest : colon ∉ f → splitn (S (S n)) (f ++ colon :: rest) = f :: splitn (S n) rest.
Proof.
intros Hf. change (splitn (S (S n)) (f ++ colon :: rest)) with
  (match split_on colon (f ++ colon :: rest) with
   | [] => [] | [part] => [part] | part :: more => part :: splitn (S n) (join_with colon more) end).
fold (key_fields (f ++ colon :: rest)). rewrite key_fields_cons by done. unfold key_fields.
destruct (split_on colon rest) as [|seg segs] eqn:Hs; [by apply split_on_ne in Hs|]. by rewrite <-Hs, join_split.
Qed.

Lemma names_user o u n : org_role_key_names_user (enc realm (KOrgRole o u n)) u = true.
Proof.
unfold org_role_key_names_user, strip_prefix. change (enc realm (KOrgRole o u n)) with
  (ORG_ROLE_PREFIX ++ (uuid_to_string realm ++ colon :: uuid_to_string o ++ colon :: uuid_to_string u ++ colon :: n)).
rewrite bool_decide_true by (by eexists). rewrite drop_app_length, !splitn_field by apply uuid_text_no_colon.
by apply bool_decide_true.
Qed.

(** What is left of a user: no assignment, no membership, no extra role. *)
Lemma purge_user_ok E u st : inv st → wpe E (purge_user_from_realm realm u) (λ _ st', inv st' ∧
  (∀ aid a, assign_at (rows st') aid a ↔ assign_at (rows st) aid a ∧ ra_subject a ≠ SUser u) ∧
  (∀ g m, has (rows st') (KForward g m) ↔ has (rows st) (KForward g m) ∧ m ≠ MUser u) ∧
  (∀ o n, rows st' (KOrgRole o u n) = None) ∧
  (∀ K, role_key K ∨ grant_key K → rows st' K = rows st K)) st.
Proof.
intros Hi. unfold purge_user_from_realm. apply wp_bind. eapply wp_read_ok; [done|].
apply wp_bind, (drop_subject_ok _ (SUser u)); [done| |apply scan_nodup|].
{ intros e. rewrite (scans_assign_users realm u _ _ (proj1 (proj1 Hi))). split.
  - intros (K & [aid ->] & ? & ?). by exists aid.
  - intros (aid & ? & ?). by exists (KAssignUser u aid); eauto. }
intros st1 Hi1 [Hother1 Has1]. apply wp_bind. eapply wp_read_ok; [done|].
apply wp_bind, (unlink_loop _ _ _ (reverse_of (MUser u))); [done| |].
{ intros e st' He Hi'. destruct (reverse_entries _ _ _ Hi1 He) as (p & Hkey & Hval & ->). apply wp_bind.
  eapply wp_guard_ok; [by rewrite Hval, de_ser_id|]. apply unlink_ok; [done|left]. by rewrite Hkey. }
intros st2 Hi2 Hother2 Hfw2.
apply wp_bind. eapply wp_mono; [|apply (purge_org_role_rows_ok E _ _ _ st2 Hi2 (scans_org_roles_realm realm)); naive_solver].
cbn beta. intros _ st3 (Hi3 & Hother3 & Hgone3). apply wp_ret. split_and!; [done|..].
- intros aid a. unfold assign_at. rewrite Hother3, Hother2 by (done || by intros []). apply Has1.
- intros g m. assert (has (rows st3) (KForward g m) ↔ has (rows st2) (KForward g m)) as -> by (unfold has; by rewrite Hother3).
  assert (has (rows st) (KForward g m) ↔ has (rows st1) (KForward g m)) as -> by (unfold has; by rewrite Hother1 by (by intros [])).
  rewrite Hfw2. split; intros [Hh Hn]; (split; [done|]).
  + intros ->. by apply Hn, reverse_complete.
  + by intros (e & [= _ ->] & _)%list_elem_of_fmap.
- intros o n. apply Hgone3; [by eauto|]. apply names_user.
- intros K HK. rewrite Hother3, Hother2, Hother1; [done|..]; destruct K; try done; first [by intros []|by destruct HK].
Qed.
End preserve.
