(* ===== verification/RbacSound.v ===== *)
(** * Role-based access control: every operation preserves integrity

Seeding and reconciliation, and the theorems over sequences of operations of
[impl RbacEngine for EmbeddedRbacEngine]: whatever the administrators, the
configuration and the identity layer do, the stored graph stays sound. *)
From stdpp Require Import relations.
From stdpp Require Import base list gmap strings sorting lexico.
From Stdlib Require Import Strings.Byte ZArith Lia.
From S2P Require Import Prelude OrdMap StorageTypes OrdSet RbacTypes RbacResolve RbacRegistry RealmRows RbacKeys RbacStore RbacEngine.
From S2P Require Import RbacSeed RbacRows RbacIntegrity RbacCycles RbacPreserve RbacPreserve2.

Open Scope Z_scope.

(** ** Operations *)

(** The mutating methods of the trait, imports apart. *)
Inductive Op :=
| OpCreateRole (req : CreateRoleRequest)
| OpUpdateRole (id : RoleId) (req : UpdateRoleRequest)
| OpDeleteRole (id : RoleId) (cascade : bool)
| OpCreateGroup (req : CreateGroupRequest)
| OpUpdateGroup (id : GroupId) (req : UpdateGroupRequest)
| OpDeleteGroup (id : GroupId)
| OpAddGroupMember (g : GroupId) (m : GroupMember)
| OpRemoveGroupMember (g : GroupId) (m : GroupMember)
| OpAssignRole (req : AssignRoleRequest)
| OpUnassignRole (id : AssignmentId)
| OpGrantUserPermission (g : UserPermissionGrant)
| OpSeedUserPermission (g : UserPermissionGrant)
| OpRevokeUserPermission (u : UserId) (p : Permission) (sc : Scope)
| OpAddAdditionalRole (o : OrganizationId) (u : UserId) (name : Str)
| OpRemoveAdditionalRole (o : OrganizationId) (u : UserId) (name : Str)
| OpPurgeOrgRolesForUser (o : OrganizationId) (u : UserId)
| OpPurgeOrgRolesForOrg (o : OrganizationId)
| OpPurgeUserFromRealm (u : UserId)
| OpSeedRealm
| OpReconcilePermissions (names : list Str)
| OpArchiveRemovedPermissions (yaml_names : gset Str)
| OpArchiveRemovedRoles (yaml_names : gset Str)
| OpReconcileRoles (specs : list RoleSpec)
| OpReconcileScopes (specs : list ScopeSpec)
| OpReconcileProtectedResources (resources : list ProtectedResource)
| OpReconcileGroups (groups : list Group).

Section sound.
Context `{!UuidText, !UuidTextLaws, !Json, !JsonLaws, !UriHash, !UriParse} (ids : nat → Uuid) (clock : nat → Timestamp).
Variable realm : RealmId.

Definition ignore {A} (m : eng A) : eng unit := _ ← m; mret ().

Definition run_op (op : Op) : eng unit :=
  match op with
  | OpCreateRole req => ignore (create_role ids clock realm req)
  | OpUpdateRole id req => ignore (update_role clock realm id req)
  | OpDeleteRole id cascade => delete_role clock realm id cascade
  | OpCreateGroup req => ignore (create_group ids clock realm req)
  | OpUpdateGroup id req => ignore (update_group clock realm id req)
  | OpDeleteGroup id => delete_group realm id
  | OpAddGroupMember g m => ignore (add_group_member clock realm g m)
  | OpRemoveGroupMember g m => remove_group_member g m
  | OpAssignRole req => ignore (assign_role ids clock realm req)
  | OpUnassignRole id => unassign_role realm id
  | OpGrantUserPermission g => ignore (grant_user_permission realm g)
  | OpSeedUserPermission g => ignore (seed_user_permission_unchecked realm g)
  | OpRevokeUserPermission u p sc => revoke_user_permission realm u p sc
  | OpAddAdditionalRole o u name => add_additional_role realm o u name
  | OpRemoveAdditionalRole o u name => remove_additional_role realm o u name
  | OpPurgeOrgRolesForUser o u => ignore (purge_org_roles_for_user realm o u)
  | OpPurgeOrgRolesForOrg o => ignore (purge_org_roles_for_org realm o)
  | OpPurgeUserFromRealm u => purge_user_from_realm realm u
  | OpSeedRealm => seed_realm ids clock realm
  | OpReconcilePermissions names => reconcile_permissions realm names
  | OpArchiveRemovedPermissions names => archive_removed_permissions realm names
  | OpArchiveRemovedRoles names => archive_removed_roles clock realm names
  | OpReconcileRoles specs => reconcile_roles ids clock realm specs
  | OpReconcileScopes specs => reconcile_scopes realm specs
  | OpReconcileProtectedResources rs => reconcile_protected_resources realm rs
  | OpReconcileGroups groups => reconcile_groups ids clock realm groups
  end.

(** A sequence of operations, failed ones included. *)
Definition run_ops (ops : list Op) (st : EngState) : EngState := foldl (λ st op, (run_op op st).2) st ops.
Definition empty_realm : EngState := MkEng ∅ [] 0 0.

Section triples.
Context `{!Inj (=) (=) ids}.
Local Abbreviation rows st := (row realm (es_store st)).
Local Abbreviation inv := (inv ids realm).
Local Abbreviation wp := (wpe inv).

Lemma ignore_inv {A} (m : eng A) st : wp m (λ _, inv) st → wp (ignore m) (λ _, inv) st.
Proof. intros Hm. apply wp_bind. eapply wp_mono; [|exact Hm]. intros; by apply wp_ret. Qed.

(** ** Seeding *)

Lemma fresh_unreachable T id p : roles_ok T → T (KRole id) = None → has T (KRole p) → ¬ rtc (role_edge T) p id.
Proof.
intros Hok Hid Hp [->|(x & _ & (r & Hr & Hin))]%rtc_inv_r.
- destruct Hp. congruence.
- destruct (rk_parents _ Hok _ _ _ Hr Hin). congruence.
Qed.

Lemma parent_ids_ok s names l : rows_ok realm (row realm s) → parent_ids realm s names = Ok l →
  ∀ p, p ∈ l → has (row realm s) (KRole p).
Proof.
intros Hok Hf. eapply (fold_res_chain _ (λ _ l, ∀ p, p ∈ l → has (row realm s) (KRole p)) _ _ _ Hf); [by intros p ?%elem_of_nil|].
intros done n acc acc' _ Hacc. destruct (load_name_ok realm s n Hok) as (o & -> & Ho). cbn [mbind outcome_bind].
destruct o as [id|]; [|done]. intros [= <-] p [?| ->%list_elem_of_singleton]%elem_of_app; [by apply Hacc|].
destruct (rk_name _ (rs_roles _ _ Hok) _ _ Ho) as (x & r & Heq & Hr & _). apply (inj ser_id) in Heq as ->.
unfold has. by rewrite Hr.
Qed.

(** A role written under a drawn identifier and an unused name. *)
Lemma inv_new_role st evs ticks role : inv st → ro_id role = ids (es_ids st) → ro_realm_id role = realm →
  rows st (KRoleName (ro_name role)) = None → (∀ p, p ∈ ro_parent_roles role → has (rows st) (KRole p)) →
  inv (MkEng (put_all [(encode_role (ids (es_ids st)), ser_role role);
    (encode_role_name realm (ro_name role), ser_id (ids (es_ids st)))] (es_store st)) evs (S (es_ids st)) ticks).
Proof.
intros [Hint Hf] Hid Hrealm Hname Hpar. pose proof Hint as [Hk Hok]. destruct (Hf (es_ids st)) as (Hnew & _); [done|].
split; cbn [es_store es_ids put_all foldl fst snd]; change (encode_role ?x) with (enc realm (KRole x));
  change (encode_role_name realm ?x) with (enc realm (KRoleName x)).
- apply (integrity_set_role realm (es_store st) _ (ids (es_ids st)) role None); try done.
  + by repeat apply keyed_insert.
  + intros K. rewrite !row_insert. repeat case_decide; subst; try done; congruence.
  + by left.
  + intros n _. split; [|done]. intros (x & r & Heq & Hr & _)%(rk_name _ (rs_roles _ _ Hok)).
    apply (inj ser_id) in Heq as <-. unfold role_at in Hr. congruence.
  + intros p Hp. split; [by apply Hpar|]. apply fresh_unreachable; [apply Hok|done|by apply Hpar].
- apply (fresh_change ids _ _ _ _ Hf); [lia|]. intros x K HK. unfold has. rewrite !row_insert.
  repeat case_decide; subst; destruct HK as [HK|[HK|HK]]; simplify_eq; eauto.
Qed.

Lemma wp_present k Q st : inv st → (∀ b, Q b st) → wp (row_present k) Q st.
Proof. intros Hi HQ. by apply wp_read. Qed.

Lemma seed_permissions_inv st : inv st → wp (seed_permissions realm) (λ _, inv) st.
Proof.
intros Hi. apply wp_for_each_inv; [done|]. intros p st' _ Hi'. apply wp_bind, wp_guard; [done|]; intros perm _.
apply wp_bind, wp_present; [done|]; intros []; [by apply wp_ret|]. apply wp_effect.
apply (inv_put_loose ids realm st' _ _ (KPermission perm)); [done..|]. by eexists.
Qed.

Lemma seed_scopes_inv st : inv st → wp (seed_scopes realm) (λ _, inv) st.
Proof.
intros Hi. apply wp_for_each_inv; [done|]. intros [name perms] st' _ Hi'. apply wp_bind, wp_present; [done|]; intros []; [by apply wp_ret|].
apply wp_bind, wp_guard; [done|]; intros permissions _. apply wp_effect.
apply (inv_put_loose ids realm st' _ _ (KScope name)); [done..|]. by eexists.
Qed.

Lemma seed_role_inv at_ spec st : inv st → wp (seed_role ids realm at_ spec) (λ _, inv) st.
Proof.
intros Hi. pose proof Hi as [[Hk Hok] Hf]. unfold seed_role. apply wp_bind, wp_read; [done|]; intros existing Hex.
destruct (load_name_ok realm (es_store st) (sd_name spec) Hok) as (o & Ho & Hname). rewrite Ho in Hex. injection Hex as ->.
destruct existing as [id|].
- apply wp_bind, wp_read; [done|]; intros raw [= <-]. fold (rows st (KRole id)). change (es_store st !! encode_role id) with (rows st (KRole id)).
  destruct (rows st (KRole id)) as [bytes|] eqn:Hrow; [|by apply wp_ret].
  destruct (role_at_ok realm _ _ _ Hok Hrow) as (r & Hr & <- & Hrealm). unfold role_at in Hr. rewrite Hrow in Hr. injection Hr as ->.
  apply wp_bind, wp_guard; [done|]. rewrite de_ser_role. intros ? [= <-]. case_decide; [by apply wp_ret|]. apply wp_effect.
  match goal with |- context [ser_role ?r'] => apply (inv_put_role ids realm st _ _ r r') end; try done.
  exact (stored_parents _ _ r (rs_roles _ _ Hok) Hrow).
- apply wp_bind, wp_read; [done|]; intros parents Hpar. apply wp_bind, wp_guard; [done|]; intros perms _.
  apply wp_bind, wp_generate, wp_effect. cbn [es_store es_ids es_events es_ticks].
  match goal with |- context [ser_role ?r'] => apply (inv_new_role st _ _ r') end; try done.
  by apply (parent_ids_ok _ _ _ Hok Hpar).
Qed.

Lemma seed_realm_inv st : inv st → wp (seed_realm ids clock realm) (λ _, inv) st.
Proof.
intros Hi. unfold seed_realm. apply wp_bind, (wp_mono _ (λ _, inv)); [intros [] st1 Hi1|by apply seed_permissions_inv].
apply wp_bind, (wp_mono _ (λ _, inv)).
2: { apply wp_bind, wp_now. apply wp_for_each_inv; [by apply inv_same|]. intros; by apply seed_role_inv. }
intros [] st2 Hi2. apply wp_bind, (wp_mono _ (λ _, inv)); [intros [] st3 Hi3|by apply seed_scopes_inv].
by apply wp_effect, inv_same.
Qed.

(** ** Reconciliation *)

Lemma reconcile_permissions_inv names st : inv st → wp (reconcile_permissions realm names) (λ _, inv) st.
Proof.
intros Hi. apply wp_for_each_inv; [done|]. intros n st' _ Hi'. apply wp_bind, wp_guard; [done|]; intros perm _.
pose proof Hi' as [[_ Hok] _]. apply wp_bind, wp_read; [done|]; intros raw [= <-].
change (es_store st' !! encode_permission realm perm) with (rows st' (KPermission perm)).
destruct (rows st' (KPermission perm)) as [bytes|] eqn:Hrow.
- destruct (rs_vals _ _ Hok _ _ Hrow) as (rec & -> & <-). rewrite de_ser_permission. case_decide; [|by apply wp_ret].
  apply wp_effect. apply (inv_put_loose ids realm st' _ _ (KPermission (pr_name rec))); [done..|]. by eexists.
- apply wp_effect. apply (inv_put_loose ids realm st' _ _ (KPermission perm)); [done..|]. by eexists.
Qed.

Lemma archive_permissions_inv yaml st : inv st → wp (archive_removed_permissions realm yaml) (λ _, inv) st.
Proof.
intros Hi. apply wp_bind, wp_read; [done|]; intros entries [= <-]. apply wp_for_each_inv; [done|]. intros e st' _ Hi'.
unfold archive_permission. destruct (de_permission (se_value e)) as [rec|]; [|by apply wp_ret].
repeat case_match; try by apply wp_ret. apply wp_effect.
apply (inv_put_loose ids realm st' _ _ (KPermission (pr_name rec))); [done..|]. by eexists.
Qed.

Lemma archive_roles_inv yaml st : inv st → wp (archive_removed_roles clock realm yaml) (λ _, inv) st.
Proof.
intros Hi. apply wp_bind, wp_now, wp_bind, wp_read; [by apply inv_same|]; intros entries _. apply wp_for_each_inv; [by apply inv_same|].
intros e st' _ Hi'. unfold archive_role. destruct (de_id (se_value e)) as [id|]; [|by apply wp_ret].
pose proof Hi' as [[_ Hok] _]. apply wp_bind, wp_read; [done|]; intros [role|] Hl; [|by apply wp_ret].
destruct (loaded_role realm _ _ _ Hok Hl) as (Hr & <- & Hrealm). repeat case_match; try by apply wp_ret. apply wp_effect.
match goal with |- context [ser_role ?r'] => apply (inv_put_role ids realm st' _ _ role r') end; try done.
exact (stored_parents _ _ role (rs_roles _ _ Hok) Hr).
Qed.

Lemma reconcile_role_inv at_ spec st : inv st → wp (reconcile_role ids realm at_ spec) (λ _, inv) st.
Proof.
intros Hi. pose proof Hi as [[Hk Hok] Hf]. unfold reconcile_role. apply wp_bind, wp_guard; [done|]; intros _ _.
apply wp_bind, wp_guard; [done|]; intros perms _. apply wp_bind, wp_guard; [done|]; intros _ _.
apply wp_bind, wp_read; [done|]; intros parents Hpar. apply wp_bind, wp_read; [done|]; intros existing Hex.
destruct (load_name_ok realm (es_store st) (rsp_name spec) Hok) as (o & Ho & Hname). rewrite Ho in Hex. injection Hex as ->.
destruct existing as [id|].
- apply wp_bind, wp_read; [done|]; intros [role|] Hl; [|by apply wp_ret]. destruct (loaded_role realm _ _ _ Hok Hl) as (Hr & <- & Hrealm).
  case_match; [|by apply wp_ret]. apply wp_bind, wp_read; [done|]; intros [] Hchk. apply wp_effect.
  match goal with |- context [ser_role ?r'] => apply (inv_put_role ids realm st _ _ role r') end; try done.
  intros p Hp. split; [by apply (parent_ids_ok _ _ _ Hok Hpar)|by apply (check_role_sound realm _ Hok _ _ Hchk)].
- apply wp_bind, wp_generate, wp_bind, wp_read; [by apply inv_generate|]; intros [] _. apply wp_effect. cbn [es_store es_ids es_events es_ticks].
  match goal with |- context [ser_role ?r'] => apply (inv_new_role st _ _ r') end; try done.
  by apply (parent_ids_ok _ _ _ Hok Hpar).
Qed.

Lemma reconcile_scopes_inv specs st : inv st → wp (reconcile_scopes realm specs) (λ _, inv) st.
Proof.
intros Hi. unfold reconcile_scopes. apply wp_bind, (wp_mono _ (λ _, inv)).
2: { apply wp_for_each_inv; [done|]. intros spec st' _ Hi'. apply wp_bind, wp_guard; [done|]; intros perms _. apply wp_effect.
     apply (inv_put_loose ids realm st' _ _ (KScope (ssp_name spec))); [done..|]. by eexists. }
intros [] st1 Hi1. apply wp_bind, wp_read; [done|]; intros entries [= <-]. apply wp_for_each_inv; [done|]. intros e st' He Hi'.
apply (scans_scope_rows realm (es_store st1) e (proj1 (proj1 Hi1))) in He as (K & [name ->] & Hkey & _).
unfold drop_undeclared_bundle. destruct (de_scope (se_value e)); [|by apply wp_ret]. case_match; [|by apply wp_ret].
apply wp_effect. rewrite Hkey. by apply (inv_delete_loose ids realm st' _ _ (KScope name)).
Qed.

Lemma desired_rows_ok resources desired : desired_rows realm resources = Ok desired →
  ∀ k v, (k, v) ∈ desired → ∃ hn sc, k = enc realm (KResourceScope hn) ∧ v = ser_scope sc.
Proof.
intros Hf. eapply (fold_res_chain _ (λ _ l, ∀ k v, (k, v) ∈ l → ∃ hn sc, k = enc realm (KResourceScope hn) ∧ v = ser_scope sc) _ _ _ Hf).
- by intros k v ?%elem_of_nil.
- intros done r acc acc' _ Hacc. destruct (uri_try_from (pr_resource_uri r)) as [uri|]; simpl; [|done].
  intros [= <-] k v [?|(b & [= -> ->] & _)%list_elem_of_fmap]%elem_of_app; [by apply Hacc|]. rewrite enc_resource_scope. eauto.
Qed.

Lemma reconcile_resources_inv resources st : inv st → wp (reconcile_protected_resources realm resources) (λ _, inv) st.
Proof.
intros Hi. unfold reconcile_protected_resources. apply wp_bind, wp_guard; [done|]; intros desired Hd. pose proof (desired_rows_ok _ _ Hd) as Hdes.
apply wp_bind, wp_read; [done|]; intros entries [= <-]. apply wp_bind, (wp_mono _ (λ _, inv)).
2: { apply wp_for_each_inv; [done|]. intros e st' He Hi'. case_decide; [by apply wp_ret|]. apply wp_effect.
     apply (scans_resource_scopes realm (es_store st) e (proj1 (proj1 Hi))) in He as (K & [hn ->] & Hkey & _). rewrite Hkey.
     by apply (inv_delete_loose ids realm st' _ _ (KResourceScope hn)). }
intros [] st1 Hi1. apply wp_for_each_inv; [done|]. intros [k v] st' (hn & sc & -> & ->)%Hdes Hi'. apply wp_effect.
apply (inv_put_loose ids realm st' _ _ (KResourceScope hn)); [done..|]. by eexists.
Qed.

Lemma reconcile_group_inv at_ group st : inv st → wp (reconcile_group ids realm at_ group) (λ _, inv) st.
Proof.
intros Hi. pose proof Hi as [[Hk Hok] Hf]. unfold reconcile_group. case_match; [by apply wp_ret|].
apply wp_bind, wp_read; [done|]; intros found Hl.
destruct (load_slug_ok realm (es_store st) (gr_slug group) Hok) as (o & Ho & Hslug). rewrite Ho in Hl. injection Hl as ->.
destruct found as [gid|].
- apply wp_bind, wp_read; [done|]; intros [g|] Hg; [|by apply wp_ret]. destruct (loaded_group realm _ _ _ Hok Hg) as (Hat & <- & Hrealm).
  case_match; [|by apply wp_ret]. apply wp_effect.
  match goal with |- context [ser_group ?g'] => apply (inv_put_group ids realm st _ _ g g') end; done.
- apply wp_bind, wp_generate, wp_effect. cbn [es_store es_ids es_events es_ticks].
  match goal with |- context [ser_group ?g'] => apply (inv_new_group ids realm st _ _ g') end; done.
Qed.

Lemma reconcile_groups_inv groups st : inv st → wp (reconcile_groups ids clock realm groups) (λ _, inv) st.
Proof.
intros Hi. unfold reconcile_groups. apply wp_bind, wp_now, wp_bind, (wp_mono _ (λ _, inv)).
2: { apply wp_for_each_inv; [by apply inv_same|]. intros; by apply reconcile_group_inv. }
intros [] st1 Hi1. apply wp_bind, wp_read; [done|]; intros entries [= <-]. apply wp_for_each_inv; [done|]. intros e st' _ Hi'.
unfold release_group. destruct (de_id (se_value e)) as [gid|]; [|by apply wp_ret]. pose proof Hi' as [[_ Hok] _].
apply wp_bind, wp_read; [done|]; intros [g|] Hg; [|by apply wp_ret]. destruct (loaded_group realm _ _ _ Hok Hg) as (Hat & <- & Hrealm).
case_match; [|by apply wp_ret]. apply wp_effect.
match goal with |- context [ser_group ?g'] => apply (inv_put_group ids realm st' _ _ g g') end; done.
Qed.

(** ** Every operation *)

Lemma run_op_inv op st : inv st → inv (run_op op st).2.
Proof.
intros Hi. assert (wp (run_op op) (λ _, inv) st) as Hwp; [|unfold wpe in Hwp; by destruct (run_op op st) as [[] ?]].
destruct op; cbn [run_op].
- by apply ignore_inv, create_role_inv.
- by apply ignore_inv, update_role_inv.
- by apply delete_role_inv.
- by apply ignore_inv, create_group_inv.
- by apply ignore_inv, update_group_inv.
- by apply delete_group_inv.
- by apply ignore_inv, add_group_member_inv.
- by apply remove_group_member_inv.
- by apply ignore_inv, assign_role_inv.
- by apply unassign_role_inv.
- by apply ignore_inv, grant_user_permission_inv.
- by apply ignore_inv, seed_user_permission_inv.
- by apply revoke_user_permission_inv.
- by apply add_additional_role_inv.
- by apply remove_additional_role_inv.
- apply ignore_inv. eapply wp_mono; [|apply (purge_org_role_rows_ok ids realm _ _ None _ st Hi (scans_org_roles_user realm o u)); naive_solver].
  by intros ? ? [? _].
- apply ignore_inv. eapply wp_mono; [|apply (purge_org_role_rows_ok ids realm _ _ None _ st Hi (scans_org_roles_org realm o)); naive_solver].
  by intros ? ? [? _].
- eapply wp_mono; [|by apply purge_user_ok]. by intros ? ? [? _].
- by apply seed_realm_inv.
- by apply reconcile_permissions_inv.
- by apply archive_permissions_inv.
- by apply archive_roles_inv.
- apply wp_bind, wp_now, wp_for_each_inv; [by apply inv_same|]. intros; by apply reconcile_role_inv.
- by apply reconcile_scopes_inv.
- by apply reconcile_resources_inv.
- by apply reconcile_groups_inv.
Qed.

Lemma run_ops_inv ops st : inv st → inv (run_ops ops st).
Proof. revert st. induction ops as [|op ops IH]; intros st Hi; [done|]. apply IH, run_op_inv, Hi. Qed.

Lemma empty_realm_inv : inv empty_realm.
Proof.
unfold empty_realm. split; cbn [es_store es_ids]; [split; [intros k [v Hv]; by rewrite lookup_empty in Hv|]|intros i _; unfold row; by rewrite !lookup_empty].
assert (∀ K, row realm ∅ K = None) as Hno by (intros; apply lookup_empty).
assert (∀ {A} (R : relation A), (∀ x y, ¬ R x y) → acyclic R) as Hac.
{ intros A R HR x Hx. assert (∀ y z, ¬ tc R y z) as Hno'; [|by apply (Hno' x x)].
  intros y z Hyz. by destruct Hyz as [? ? ?%HR|? ? ? ?%HR]. }
split; [intros K v; by rewrite Hno|split|split|split|]; unfold role_at, group_at, group_edge, assign_at, has;
  try (intros *; rewrite ?Hno; first [done | by intros [] | by split; intros []]).
- apply Hac. intros x y (r & Hr & _). unfold role_at in Hr. by rewrite Hno in Hr.
- apply Hac. intros x y. rewrite Hno. by intros [].
Qed.
End triples.
End sound.
