(* ===== verification/RbacInstances.v ===== *)
(** * Role-based access control: concrete parameters

Instances of what [keys.rs] and [engine.rs] take from other crates, to evaluate the
engine on concrete realms: hexadecimal identifier texts, and row codecs derived from
stdpp's countable types in place of JSON. *)
From stdpp Require Import base list gmap strings sorting lexico countable.
From Stdlib Require Import Strings.Byte ZArith Lia.
From S2P Require Import Prelude OrdMap StorageTypes OrdSet RbacTypes RbacResolve RealmRows RbacKeys RbacStore RbacSeed.

Open Scope Z_scope.

(** ** Identifier texts *)

Definition hex_digit (z : Z) : byte := byte_of (if z <? 10 then 48 + z else 87 + z).
Definition hex_value (c : byte) : Z := let z := byte_val c in if z <? 58 then z - 48 else z - 87.

#[export] Instance hex_text : UuidText := λ u, u ≫= λ b, [hex_digit (byte_val b / 16); hex_digit (byte_val b mod 16)].

Fixpoint hex_parse (t : Str) : option Uuid :=
  match t with
  | [] => Some []
  | [_] => None
  | a :: b :: t' => cons (byte_of (16 * hex_value a + hex_value b)) <$> hex_parse t'
  end.

(** A statement about every byte, by evaluation. *)
Lemma forall_byte (f : byte → bool) : forallb (λ n, f (byte_of (Z.of_nat n))) (seq 0 256) = true → ∀ b, f b = true.
Proof.
intros Hall b. pose proof (byte_val_bound b) as Hb. rewrite <-(byte_of_val b).
rewrite forallb_forall in Hall. specialize (Hall (Z.to_nat (byte_val b))). rewrite Z2Nat.id in Hall by lia.
apply Hall, in_seq. lia.
Qed.

#[export] Instance hex_text_laws : UuidTextLaws.
Proof.
refine (Build_UuidTextLaws _ hex_parse _ _).
- intros u. unfold uuid_to_string, hex_text. induction u as [|b u IH]; [done|].
  cbn [mbind list_bind app hex_parse]. rewrite IH. cbn. do 2 f_equal.
  pose proof (forall_byte (λ b, bool_decide (byte_of (16 * hex_value (hex_digit (byte_val b / 16)) +
    hex_value (hex_digit (byte_val b mod 16))) = b)) ltac:(by vm_compute) b) as Hb. by apply bool_decide_eq_true in Hb.
- intros u. unfold uuid_to_string, hex_text. induction u as [|b u IH]; [constructor|]. cbn [mbind list_bind app].
  pose proof (forall_byte (λ b, uuid_char (hex_digit (byte_val b / 16)) && uuid_char (hex_digit (byte_val b mod 16)))
    ltac:(by vm_compute) b) as [? ?]%andb_true_iff. by repeat constructor.
Defined.

(** Sixteen bytes, the last of which counts. *)
Definition uuid_of (n : nat) : Uuid := replicate 8 x00 ++ rev (to_le 8 (Z.of_nat n)).

(** ** Row codecs *)

Fixpoint pos_bytes (p : positive) : list byte :=
  match p with
  | xH => []
  | xO p' => x30 :: pos_bytes p'
  | xI p' => x31 :: pos_bytes p'
  end.
Fixpoint bytes_pos (l : list byte) : positive :=
  match l with
  | [] => xH
  | b :: l' => if Byte.eqb b x30 then xO (bytes_pos l') else xI (bytes_pos l')
  end.
Lemma bytes_pos_bytes p : bytes_pos (pos_bytes p) = p.
Proof. induction p as [p IH|p IH|]; simpl; by rewrite ?IH. Qed.

Definition ser_any `{Countable A} (a : A) : list byte := pos_bytes (encode a).
Definition de_any `{Countable A} (l : list byte) : option A := decode (bytes_pos l).
Lemma de_ser_any `{Countable A} (a : A) : de_any (ser_any a) = Some a.
Proof. unfold de_any, ser_any. by rewrite bytes_pos_bytes, decode_encode. Qed.

#[local] Instance Subject_countable : Countable Subject.
Proof.
refine (inj_countable' (λ s, match s with SUser u => inl u | SGroup g => inr g end)
  (λ s, match s with inl u => SUser u | inr g => SGroup g end) _). by intros [].
Defined.
#[local] Instance GroupMember_countable : Countable GroupMember.
Proof.
refine (inj_countable' (λ s, match s with MUser u => inl u | MGroup g => inr g end)
  (λ s, match s with inl u => MUser u | inr g => MGroup g end) _). by intros [].
Defined.
#[local] Instance Scope_countable : Countable Scope.
Proof.
refine (inj_countable' (λ s, match s with ScRealm => None | ScOrg o => Some o end)
  (λ s, match s with None => ScRealm | Some o => ScOrg o end) _). by intros [].
Defined.
#[local] Instance RoleScopeKind_countable : Countable RoleScopeKind.
Proof.
refine (inj_countable' (λ s, match s with RskRealm => None | RskOrganization => Some false | RskAny => Some true end)
  (λ s, match s with None => RskRealm | Some false => RskOrganization | Some true => RskAny end) _). by intros [].
Defined.
#[local] Instance RoleStatus_countable : Countable RoleStatus.
Proof.
refine (inj_countable' (λ s, bool_decide (s = RoleActive)) (λ b, if b then RoleActive else RoleArchivedSt) _). by intros [].
Defined.
#[local] Instance PermissionStatus_countable : Countable PermissionStatus.
Proof.
refine (inj_countable' (λ s, bool_decide (s = PermActive)) (λ b, if b then PermActive else PermArchived) _). by intros [].
Defined.

#[local] Instance Role_eq_dec : EqDecision Role.
Proof. solve_decision. Defined.
#[local] Instance Group_eq_dec : EqDecision Group.
Proof. solve_decision. Defined.
#[local] Instance RoleAssignment_eq_dec : EqDecision RoleAssignment.
Proof. solve_decision. Defined.
#[local] Instance UserPermissionGrant_eq_dec : EqDecision UserPermissionGrant.
Proof. solve_decision. Defined.
#[local] Instance StoredScope_eq_dec : EqDecision StoredScope.
Proof. solve_decision. Defined.
#[local] Instance PermissionRecord_eq_dec : EqDecision PermissionRecord.
Proof. solve_decision. Defined.

#[local] Instance Role_countable : Countable Role.
Proof.
refine (inj_countable' (λ '(MkRole a b c d e f g h i j k), (a, b, c, d, e, f, g, h, i, j, k))
  (λ '(a, b, c, d, e, f, g, h, i, j, k), MkRole a b c d e f g h i j k) _). by intros [].
Defined.
#[local] Instance Group_countable : Countable Group.
Proof.
refine (inj_countable' (λ '(MkGroup a b c d e f g h), (a, b, c, d, e, f, g, h))
  (λ '(a, b, c, d, e, f, g, h), MkGroup a b c d e f g h) _). by intros [].
Defined.
#[local] Instance RoleAssignment_countable : Countable RoleAssignment.
Proof.
refine (inj_countable' (λ '(MkRoleAssignment a b c d e f g), (a, b, c, d, e, f, g))
  (λ '(a, b, c, d, e, f, g), MkRoleAssignment a b c d e f g) _). by intros [].
Defined.
#[local] Instance UserPermissionGrant_countable : Countable UserPermissionGrant.
Proof.
refine (inj_countable' (λ '(MkUserPermissionGrant a b c d e f), (a, b, c, d, e, f))
  (λ '(a, b, c, d, e, f), MkUserPermissionGrant a b c d e f) _). by intros [].
Defined.
#[local] Instance StoredScope_countable : Countable StoredScope.
Proof. refine (inj_countable' (λ '(MkStoredScope a b), (a, b)) (λ '(a, b), MkStoredScope a b) _). by intros []. Defined.
#[local] Instance PermissionRecord_countable : Countable PermissionRecord.
Proof. refine (inj_countable' (λ '(MkPermissionRecord a b), (a, b)) (λ '(a, b), MkPermissionRecord a b) _). by intros []. Defined.

#[export] Instance plain_codec : Json := {|
  ser_role := ser_any; de_role := de_any; ser_group := ser_any; de_group := de_any; ser_id := ser_any; de_id := de_any;
  ser_member := ser_any; de_member := de_any; ser_assignment := ser_any; de_assignment := de_any;
  ser_grant := ser_any; de_grant := de_any; ser_text := ser_any; de_text := de_any;
  ser_scope := ser_any; de_scope := de_any; ser_permission := ser_any; de_permission := de_any
|}.
#[export] Instance plain_codec_laws : JsonLaws.
Proof. split; intros; apply de_ser_any. Defined.

#[export] Instance plain_hash : UriHash := λ u, u.
#[export] Instance plain_uri : UriParse := Some.
