(* ===== verification/RbacProps.v ===== *)
(** * Role-based access control: what the stored graph answers

On sound rows the engine is an exact resolver: every lookup of the resolution
algorithm reads back what the operations recorded. With the invariant of
[RbacSound], the theorems about resolution speak of the stored graph. *)
From stdpp Require Import relations.
From stdpp Require Import base list gmap strings sorting lexico countable.
From Stdlib Require Import Strings.Byte ZArith Lia.
From S2P Require Import Prelude OrdMap StorageTypes OrdSet RbacTypes RbacResolve RbacGroups RbacRoles RbacFull RbacRegistry.
From S2P Require Import RealmRows RbacKeys RbacStore RbacEngine RbacSeed RbacRows RbacIntegrity RbacCycles RbacPreserve RbacPreserve2.
From S2P Require Import RbacSound RbacInstances.

Open Scope Z_scope.

(** The outcomes of a resolution that meets no damaged row: an answer, or one of the
documented limits. *)
Definition within_limits {A} (r : rres A) : Prop :=
  match r with
  | Ok _ => True
  | Err e => e = DepthExceeded TraverseGroups MAX_GROUP_DEPTH ∨ e = BreadthExceeded TraverseGroups MAX_GROUP_BREADTH ∨
             e = DepthExceeded TraverseRoles MAX_ROLE_DEPTH
  | Panic => False
  end.

Section props.
Context `{!UuidText, !UuidTextLaws, !Json, !JsonLaws, !UriHash}.
Variable realm : RealmId.
Implicit Type s : Store.
Local Abbreviation T s := (row realm s).

(** ** The resolver over sound rows *)

(** The values of a scan whose rows all decode. *)
Lemma scan_values_ok {A} (de : list byte → option A) p P s : keyed realm s → scans realm p P →
  (∀ K v, P K → T s K = Some v → ∃ a, de v = Some a) →
  ∃ l, scan_values de p s = Ok l ∧ ∀ a, a ∈ l ↔ ∃ K v, P K ∧ T s K = Some v ∧ de v = Some a.
Proof.
intros Hk Hscan Hde. unfold scan_values.
rewrite (fold_res_total _ (λ e, match de (se_value e) with Some a => [a] | None => [] end)).
- eexists. split; [done|]. intros a. cbn [app]. rewrite list_elem_of_bind. split.
  + intros (e & Ha & (K & HK & _ & Hv)%(Hscan s e Hk)). exists K, (se_value e).
    destruct (de (se_value e)) as [a'|]; [apply list_elem_of_singleton in Ha as ->|by apply elem_of_nil in Ha]. done.
  + intros (K & v & HK & Hv & Ha). exists (Scan (enc realm K) v). split; [simpl; rewrite Ha; left|]. apply (Hscan s _ Hk). eauto.
- intros acc e (K & HK & _ & Hv)%(Hscan s e Hk). destruct (Hde K _ HK Hv) as [a ->]. done.
Qed.

Lemma parent_groups_ok s m : integrity realm s →
  ∃ l, load_parent_groups s m = Ok l ∧ ∀ g, g ∈ l ↔ has (T s) (KForward g m).
Proof.
intros [Hk Hok]. destruct (scan_values_ok de_id _ _ s Hk (scans_reverse realm m)) as (l & Hl & Hin).
{ intros K v [g ->] Hv. rewrite (rs_vals _ _ Hok _ _ Hv). eexists. apply de_ser_id. }
exists l. split; [done|]. intros g. rewrite Hin, (gk_mirror _ (rs_groups _ _ Hok)). split.
- intros (K & v & [g' ->] & Hv & Hd). pose proof (rs_vals _ _ Hok _ _ Hv) as Hval. simpl in Hval. rewrite Hval, de_ser_id in Hd.
  injection Hd as <-. by eexists.
- intros [v Hv]. exists (KReverse m g), v. split_and!; [eauto|done|]. rewrite (rs_vals _ _ Hok _ _ Hv). apply de_ser_id.
Qed.

Lemma subject_assignments_ok s sub : integrity realm s →
  ∃ l, subject_assignments realm s sub = Ok l ∧ ∀ a, a ∈ l ↔ ∃ id, assign_at (T s) id a ∧ ra_subject a = sub.
Proof.
intros [Hk Hok]. set (p := match sub with SUser u => assign_user_scan_prefix u | SGroup g => assign_group_scan_prefix g end).
assert (scans realm p (λ K, ∃ id, K = subject_row sub id)) as Hscan by (destruct sub; [apply scans_assign_users|apply scans_assign_groups]).
assert (subject_assignments realm s sub = scan_assignments_by_prefix realm s p) as -> by (by destruct sub).
assert (∀ e, e ∈ scan_prefix p s → ∃ id a, se_value e = ser_id id ∧ load_assignment realm s id = Ok (Some a) ∧
  assign_at (T s) id a ∧ ra_subject a = sub) as Hent.
{ intros e (K & [id ->] & _ & Hv)%(Hscan s e Hk). destruct (ak_of_subject _ (rs_assigns _ _ Hok) sub id) as (a & Ha & Hsub); [by eexists|].
  exists id, a. split_and!; try done; [pose proof (rs_vals _ _ Hok _ _ Hv); by destruct sub|].
  destruct (load_assignment_ok realm s id Hok) as (o & -> & Ho). unfold assign_at in Ha. rewrite Ha in Ho.
  destruct o; simpl in Ho; [|done]. by injection Ho as ->%(inj ser_assignment). }
unfold scan_assignments_by_prefix. rewrite (fold_res_total _ (λ e, match de_id (se_value e) with
  | Some id => match load_assignment realm s id with Ok (Some a) => [a] | _ => [] end | None => [] end)).
- eexists. split; [done|]. intros a. cbn [app]. rewrite list_elem_of_bind. split.
  + intros (e & Ha & (id & a' & Hv & Hl & Hat & Hs)%Hent). rewrite Hv, de_ser_id, Hl in Ha. apply list_elem_of_singleton in Ha as ->. eauto.
  + intros (id & Ha & Hs). destruct (ak_subject _ (rs_assigns _ _ Hok) _ _ Ha) as [v Hv]. rewrite Hs in Hv.
    assert (Scan (enc realm (subject_row sub id)) v ∈ scan_prefix p s) as Hin by (apply (Hscan s _ Hk); eauto).
    eexists. split; [|exact Hin]. simpl. assert (v = ser_id id) as -> by (pose proof (rs_vals _ _ Hok _ _ Hv); by destruct sub).
    rewrite de_ser_id. destruct (load_assignment_ok realm s id Hok) as (o & -> & Ho). unfold assign_at in Ha. rewrite Ha in Ho.
    destruct o; simpl in Ho; [|done]. injection Ho as <-%(inj ser_assignment). left.
- intros acc e (id & a & Hv & Hl & _)%Hent. rewrite Hv, de_ser_id. simpl. by rewrite Hl.
Qed.

Lemma user_permissions_ok s u : integrity realm s →
  ∃ l, load_user_permissions realm s u = Ok l ∧ ∀ g, g ∈ l ↔ ∃ sc p, T s (KGrant u sc p) = Some (ser_grant g).
Proof.
intros [Hk Hok]. destruct (scan_values_ok de_grant _ _ s Hk (scans_user_grants realm u)) as (l & Hl & Hin).
{ intros K v (sc & p & ->) Hv. destruct (rs_vals _ _ Hok _ _ Hv) as (g & -> & _). eexists. apply de_ser_grant. }
exists l. split; [done|]. intros g. rewrite Hin. split.
- intros (K & v & (sc & p & ->) & Hv & Hd). destruct (rs_vals _ _ Hok _ _ Hv) as (g' & -> & _). rewrite de_ser_grant in Hd.
  injection Hd as ->. eauto.
- intros (sc & p & Hv). eexists _, _. split_and!; [by eauto|done|apply de_ser_grant].
Qed.

Lemma additional_roles_ok s o u : integrity realm s →
  ∃ l, list_additional_roles realm s o u = Ok l ∧ ∀ n, n ∈ l ↔ has (T s) (KOrgRole o u n).
Proof.
intros [Hk Hok]. destruct (scan_values_ok de_text _ _ s Hk (scans_org_roles_user realm o u)) as (l & Hl & Hin).
{ intros K v (n & ->) Hv. rewrite (rs_vals _ _ Hok _ _ Hv). eexists. apply de_ser_text. }
exists l. split; [done|]. intros n. rewrite Hin. split.
- intros (K & v & (n' & ->) & Hv & Hd). pose proof (rs_vals _ _ Hok _ _ Hv) as Hval. simpl in Hval. rewrite Hval, de_ser_text in Hd.
  injection Hd as <-. by eexists.
- intros [v Hv]. eexists _, v. split_and!; [by eauto|exact Hv|]. rewrite (rs_vals _ _ Hok _ _ Hv). apply de_ser_text.
Qed.

Lemma permission_archived_ok s p : integrity realm s → ∃ b, load_permission_archived realm s p = Ok b.
Proof.
intros [Hk Hok]. unfold load_permission_archived. change (encode_permission realm p) with (enc realm (KPermission p)).
fold (row realm s (KPermission p)). destruct (row realm s (KPermission p)) as [v|] eqn:Hv; [|by eexists].
destruct (rs_vals _ _ Hok _ _ Hv) as (rec & -> & _). rewrite de_ser_permission. by eexists.
Qed.

Lemma group_slug_ok s g : integrity realm s → ∃ o, load_group_slug realm s g = Ok o.
Proof.
intros [Hk Hok]. unfold load_group_slug. destruct (load_group_ok realm s g Hok) as (o & -> & _). by eexists.
Qed.

(** ** Listing roles by cursor *)

Lemma key_of_tail fs t : key_of fs t = key_of fs [] ++ t.
Proof. induction fs as [|f fs IH]; simpl; [done|]. by rewrite IH, <-app_assoc. Qed.

(** The scan of a page: what precedes the boundary is returned, the boundary entry's
key is the cursor. *)
Lemma page_entries_split {A} limit plen (one : ScanEntry → rres (option A)) entries items page :
  page_entries limit plen one entries items = Ok page →
  ∃ l1 l2, entries = l1 ++ l2 ∧
    (∀ a, a ∈ pg_items page → a ∈ items ∨ ∃ e, e ∈ l1 ∧ one e = Ok (Some a)) ∧
    (∀ c, pg_next_cursor page = Some c → ∃ e, head l2 = Some e ∧ c = drop plen (se_key e)).
Proof.
revert items. induction entries as [|e entries IH]; intros items; cbn [page_entries].
- intros [= <-]. exists [], []. split_and!; [done|by left|done].
- case_decide.
  + intros [= <-]. exists [], (e :: entries). split_and!; [done|by left|]. intros c [= <-]. by exists e.
  + destruct (one e) as [o| |] eqn:Ho; simpl; try done. intros Hp. apply IH in Hp as (l1 & l2 & -> & Hin & Hc).
    exists (e :: l1), l2. split_and!; [done| |done]. intros a [Ha|(e' & He' & Hone)]%Hin.
    * destruct o as [x|]; [apply elem_of_app in Ha as [?| ->%list_elem_of_singleton]|]; [by left| |by left].
      right. exists e. split; [left|done].
    * right. exists e'. split; [by right|done].
Qed.

Lemma name_entry_role s e r : integrity realm s → e ∈ scan_prefix (role_name_scan_prefix realm) s →
  (id ← de_or (de_id (se_value e)); load_role realm s id) = Ok (Some r) → se_key e = enc realm (KRoleName (ro_name r)).
Proof.
intros Hint (id & r' & Hv & Hl & _ & _ & Hkey)%role_name_entry Hr; [|done]. rewrite Hv, de_ser_id in Hr. simpl in Hr.
rewrite Hl in Hr. by injection Hr as <-.
Qed.

Lemma lexico_app_ge (p q : list byte) : ¬ lexico (p ++ q) p.
Proof.
induction p as [|b p IH]; simpl; [by intros ?%lexico_nil_r|]. rewrite lexico_cons. intros [?|[_ ?]]; [by eapply lexico_irrefl_b|done].
Qed.

Lemma lexico_app_snoc (p : list byte) b : lexico p (p ++ [b]).
Proof. induction p as [|c p IH]; simpl; [done|]. rewrite lexico_cons. by right. Qed.

(** A page scans part of the listing, and not the row its cursor names. *)
Lemma page_scan_sub s prefix cursor e : e ∈ scan (page_start prefix cursor) (prefix_end prefix) s →
  e ∈ scan_prefix prefix s ∧ ∀ c, cursor = Some c → se_key e ≠ prefix ++ c.
Proof.
unfold scan_prefix. rewrite !elem_of_scan. unfold in_window. rewrite !andb_true_iff, !negb_true_iff. intros (Hs & Hge & Hlt).
assert (ord_lt (page_start prefix cursor) prefix = false) as Hstart.
{ rewrite <-not_true_iff_false, ord_lt_iff. destruct cursor; simpl; [apply lexico_app_ge|apply (irreflexivity lexico)]. }
split; [split_and!; [done| |done]|].
- rewrite <-not_true_iff_false. intros Hk. apply ord_lt_false in Hstart as [Heq|Hlt']; [by rewrite Heq, Hk in Hge|].
  rewrite ord_lt_iff in Hk. apply not_true_iff_false in Hge. apply Hge, ord_lt_iff. by etrans.
- intros c -> Hk. rewrite Hk in Hge. cbn [page_start] in Hge. rewrite app_assoc in Hge.
  apply not_true_iff_false in Hge. apply Hge, ord_lt_iff, lexico_app_snoc.
Qed.

(** A page of [list_roles] that ends before the listing does hands out the first
name it did not return as the cursor, and the next page starts strictly after its
cursor: the role of that name exists and is on neither page. *)
Theorem list_roles_skips_boundary s cursor limit limit' page page' c : integrity realm s →
  list_roles realm s cursor limit = Ok page → pg_next_cursor page = Some c → list_roles realm s (Some c) limit' = Ok page' →
  ∃ r, get_role_by_name realm s c = Ok (Some r) ∧ ro_name r = c ∧ r ∉ pg_items page ∧ r ∉ pg_items page'.
Proof.
intros Hint Hpage Hc Hpage'. pose proof Hint as [Hk Hok]. unfold list_roles in Hpage, Hpage'. cbv zeta in Hpage, Hpage'.
set (prefix := role_name_scan_prefix realm) in *.
apply page_entries_split in Hpage as (l1 & l2 & Hl & Hitems & Hcur). destruct (Hcur c Hc) as (e & Hhead & ->).
destruct l2 as [|e' l2]; [done|]. injection Hhead as ->.
assert (e ∈ scan (page_start prefix cursor) (prefix_end prefix) s) as He by (rewrite Hl; set_solver).
apply page_scan_sub in He as [He _]. destruct (role_name_entry realm s e Hint He) as (id & r & Hv & Hload & Hr & Hid & Hkey).
assert (drop (length prefix) (se_key e) = ro_name r) as Hname.
{ rewrite Hkey. change (enc realm (KRoleName (ro_name r))) with (key_of [w_rba; w_role; w_name; uuid_to_string realm] (ro_name r)).
  unfold prefix, role_name_scan_prefix. rewrite (key_of_tail _ (ro_name r)). by rewrite drop_app_length. }
assert (se_key e = prefix ++ ro_name r) as Hkey'.
{ rewrite Hkey. unfold prefix, role_name_scan_prefix. by rewrite <-key_of_tail. }
rewrite Hname in *. exists r. split_and!; [|done|..].
- unfold get_role_by_name. destruct (load_name_ok realm s (ro_name r) Hok) as (o & -> & Ho).
  rewrite (rk_index _ (rs_roles _ _ Hok) _ _ Hr) in Ho. destruct o; simpl in Ho; [|done]. by injection Ho as <-%(inj ser_id).
- intros [?%elem_of_nil|(e1 & He1 & Hone)]%Hitems; [done|].
  assert (se_key e1 = se_key e) as Hsame.
  { rewrite Hkey. apply (name_entry_role s e1 r Hint); [|done]. apply (page_scan_sub s prefix cursor). rewrite Hl. set_solver. }
  pose proof (scan_nodup (page_start prefix cursor) (prefix_end prefix) s) as Hnd. rewrite Hl, fmap_app in Hnd.
  apply list.NoDup_app in Hnd as (_ & Hdisj & _). apply (Hdisj (se_key e1)); [by apply list_elem_of_fmap_2|]. rewrite Hsame. left.
- apply page_entries_split in Hpage' as (l1' & l2' & Hl' & Hitems' & _).
  intros [?%elem_of_nil|(e1 & He1 & Hone)]%Hitems'; [done|].
  destruct (page_scan_sub s prefix (Some (ro_name r)) e1) as [Hin Hne]; [rewrite Hl'; set_solver|].
  apply (Hne (ro_name r)); [done|]. rewrite <-Hkey', Hkey. by apply (name_entry_role s e1 r Hint).
Qed.

(** ** Resolution over sound rows *)

Section resolver.
Variable s : Store.
Hypothesis Hint : integrity realm s.
Local Instance stored : Resolver := store_resolver realm s.

Lemma stored_role id : ∃ o, get_role realm id = Ok o ∧ T s (KRole id) = ser_role <$> o.
Proof. destruct (load_role_ok realm s id (proj2 Hint)) as (o & ? & ? & _). by exists o. Qed.

Lemma composes_edge id p : composes realm id p → role_edge (T s) id p.
Proof.
intros (role & [Hget _] & Hp). destruct (stored_role id) as (o & Ho & Hrow). rewrite Hget in Ho. injection Ho as <-. by exists role.
Qed.

(** Expanding a role refuses for depth only. *)
Lemma expand_stored id w : walk_ok realm w → rw_path w = ∅ →
  (∃ w', expand_role role_fuel realm id w 0 = Ok w') ∨
  expand_role role_fuel realm id w 0 = Err (DepthExceeded TraverseRoles MAX_ROLE_DEPTH).
Proof.
intros Hw Hpath. destruct (expand_role role_fuel realm id w 0) as [w'|e|] eqn:Hr; [by left; eexists|right|exfalso].
- eapply (expand_role_not_ok realm _ id) in Hr as [(e' & [= <-] & Href)|[[=] _]]; try done;
    [|apply nsteps_O|by rewrite Hpath|unfold role_fuel; lia].
  destruct Href as [[-> _]|[(v & -> & _ & Hcyc)|(v & _ & Hv)]]; [done|exfalso..].
  + exact (acyclic_mono _ _ composes_edge (rk_acyclic _ (rs_roles _ _ (proj2 Hint))) v Hcyc).
  + destruct (stored_role v) as (o & Ho & _). congruence.
- eapply (expand_role_not_ok realm _ id) in Hr as [(e' & [=] & _)|[_ (v & _ & Hv)]]; try done;
    [|apply nsteps_O|by rewrite Hpath|unfold role_fuel; lia].
  destruct (stored_role v) as (o & Ho & _). congruence.
Qed.

Definition size_refusal (e : RbacError) : Prop :=
  e = DepthExceeded TraverseGroups MAX_GROUP_DEPTH ∨ e = BreadthExceeded TraverseGroups MAX_GROUP_BREADTH ∨
  e = DepthExceeded TraverseRoles MAX_ROLE_DEPTH.

(** A result, or a refusal because the graph is too deep or too wide. *)
Definition resolves {A} (o : rres A) (P : A → Prop) : Prop :=
  (∃ a, o = Ok a ∧ P a) ∨ ∃ e, o = Err e ∧ size_refusal e.

Lemma resolves_bind {A B} (o : rres A) (f : A → rres B) P Q : resolves o P → (∀ a, P a → resolves (f a) Q) → resolves (o ≫= f) Q.
Proof. intros [(a & -> & Ha)|(e & -> & He)] Hf; [by apply Hf|right; by exists e]. Qed.

Lemma resolves_fold {A B} (f : A → B → rres A) (P : A → Prop) l a :
  P a → (∀ a b, b ∈ l → P a → resolves (f a b) P) → resolves (fold_res f a l) P.
Proof.
revert a. induction l as [|b l IH]; intros a Ha Hf; cbn [fold_res]; [left; eauto|].
eapply resolves_bind; [apply Hf; [left|done]|]. intros a' Ha'. apply IH; [done|]. intros; apply Hf; [by right|done].
Qed.

Lemma resolves_ok {A} (o : rres A) (P : A → Prop) : (∃ a, o = Ok a ∧ P a) → resolves o P.
Proof. by left. Qed.

Lemma bfs_resolves user : resolves (bfs_groups realm user) (λ _, True).
Proof.
unfold bfs_groups. destruct (bfs_groups_result realm user) as (r & -> & Hr).
destruct r as [V|e|]; cbn [mbind outcome_bind]; [left; eauto|right; exists e; split; [done|]|exfalso].
- destruct Hr as [[-> _]|[[-> _]|(n & m & _ & Hm)]]; [by right; left|by left|].
  destruct (parent_groups_ok s m Hint) as (l & Hl & _). unfold parent_groups_of, stored in Hm. simpl in Hm. congruence.
- destruct Hr as (n & m & _ & Hm). destruct (parent_groups_ok s m Hint) as (l & Hl & _). simpl in Hm. congruence.
Qed.

Definition at_rest (w : RoleWalk) : Prop := walk_ok realm w ∧ rw_path w = ∅.

Lemma expand_resolves id w : at_rest w → resolves (expand_role role_fuel realm id w 0) at_rest.
Proof.
intros [Hw Hp]. destruct (expand_stored id w Hw Hp) as [[w' Hw']| ->]; [|right; eexists; split; [done|by right; right]].
rewrite Hw'. left. exists w'. split; [done|]. apply expand_role_ok in Hw'; [|done]. split; [apply (ex_ok _ _ _ _ Hw')|].
by rewrite (ex_path _ _ _ _ Hw').
Qed.

Lemma additional_resolves user org w : at_rest w → resolves (expand_additional realm user org w) at_rest.
Proof.
intros Hw. unfold expand_additional. destruct org as [o|]; [|left; eauto].
destruct (additional_roles_ok s o user Hint) as (l & Hl & _).
eapply (resolves_bind _ _ (λ _, True)); [left; exists l; split; [exact Hl|done]|]. intros names _.
apply resolves_fold; [done|]. intros w' n _ Hw'. destruct (load_name_ok realm s n (proj2 Hint)) as (found & Hf & _).
eapply (resolves_bind _ _ (λ _, True)); [left; exists found; split; [exact Hf|done]|].
intros [rid|] _; [by apply expand_resolves|left; eexists; split; [done|]]. exact Hw'.
Qed.

Lemma resolve_full_resolves user org : resolves (resolve_full user realm org) (λ _, True).
Proof.
unfold resolve_full. eapply resolves_bind; [apply bfs_resolves|]. intros groups _.
eapply (resolves_bind _ _ (λ _, True)).
{ unfold gather_assignments. destruct (subject_assignments_ok s (SUser user) Hint) as (own & Hown & _).
  eapply (resolves_bind _ _ (λ _, True)); [left; exists own; split; [exact Hown|done]|]. intros own' _.
  apply resolves_fold; [done|]. intros acc g _ _. destruct (subject_assignments_ok s (SGroup g) Hint) as (l & Hl & _).
  eapply (resolves_bind _ _ (λ _, True)); [left; exists l; split; [exact Hl|done]|]. intros; left; eauto. }
intros assignments _. eapply (resolves_bind _ _ at_rest).
{ apply resolves_fold; [split; [apply walk_ok_new|done]|]. intros w a _. apply expand_resolves. }
intros w1 Hw1. eapply (resolves_bind _ _ at_rest).
{ unfold add_extras. destruct (user_permissions_ok s user Hint) as (l & Hl & _).
  eapply (resolves_bind _ _ (λ _, True)); [left; exists l; split; [exact Hl|done]|]. intros extras _. left. eexists. split; [done|]. exact Hw1. }
intros w2 Hw2. eapply resolves_bind; [by apply additional_resolves|]. intros w3 Hw3.
eapply (resolves_bind _ _ (λ _, True)).
{ apply resolves_fold; [done|]. intros acc p _ _. destruct (permission_archived_ok s p Hint) as (b & Hb).
  eapply (resolves_bind _ _ (λ _, True)); [left; exists b; split; [exact Hb|done]|]. intros; left; eauto. }
intros archived _. eapply (resolves_bind _ _ (λ _, True)).
{ apply resolves_fold; [done|]. intros acc g _ _. destruct (group_slug_ok s g Hint) as (o & Ho).
  eapply (resolves_bind _ _ (λ _, True)); [left; exists o; split; [exact Ho|done]|]. intros; left; eauto. }
intros slugs _. left. eauto.
Qed.
End resolver.
End props.

(** ** Reachable realms *)

(** A scan depends on the rows of its window. *)
Lemma scan_ext (start end_ : list byte) (s s' : Store) : (∀ k, in_window start end_ k = true → s !! k = s' !! k) → scan start end_ s = scan start end_ s'.
Proof.
intros Heq. unfold scan. assert (bs_collect (filter (λ k, in_window start end_ k = true) (elements (dom s))) =
  bs_collect (filter (λ k, in_window start end_ k = true) (elements (dom s')))) as <-.
{ apply bs_ext; [apply bs_collect_sorted..|]. intros k. rewrite !elem_of_bs_collect, !list_elem_of_filter, !elem_of_elements, !elem_of_dom.
  split; intros [Hw Hs]; (split; [done|]); by rewrite ?(Heq k Hw), <-?(Heq k Hw) in *. }
apply list_omap_ext, Forall_Forall2_diag, list.Forall_forall. intros k [Hw _]%elem_of_bs_collect%list_elem_of_filter. by rewrite Heq.
Qed.

Lemma empty_members {A} (l : list A) : (∀ a, a ∉ l) → l = [].
Proof. destruct l as [|a l]; [done|]. intros Hno. exfalso. apply (Hno a). left. Qed.

Section engine.
Context `{!UuidText, !UuidTextLaws, !Json, !JsonLaws, !UriHash, !UriParse} (ids : nat → Uuid) (clock : nat → Timestamp).
Variable realm : RealmId.
Local Abbreviation reached ops := (run_ops ids clock realm ops empty_realm).
Local Abbreviation T st := (row realm (es_store st)).



(** Purging a deleted user always succeeds and leaves nothing of the user that
resolution reads through assignments, groups or extra organization roles, and
leaves every other subject's assignments; but the user's direct permission grants
are all still there. *)
Theorem purge_user_exact ops u : Inj (=) (=) ids →
  ∃ st', purge_user_from_realm realm u (reached ops) = (Ok tt, st') ∧
    list_user_assignments realm (es_store st') u = Ok [] ∧
    load_parent_groups (es_store st') (MUser u) = Ok [] ∧
    (∀ o, list_additional_roles realm (es_store st') o u = Ok []) ∧
    (∀ aid a, ra_subject a ≠ SUser u → assign_at (T st') aid a ↔ assign_at (T (reached ops)) aid a) ∧
    load_user_permissions realm (es_store st') u = load_user_permissions realm (es_store (reached ops)) u.
Proof.
intros Hinj. pose proof (run_ops_inv ids clock realm ops empty_realm (empty_realm_inv ids realm)) as Hi.
pose proof (purge_user_ok ids clock realm (λ _, False) u (reached ops) Hi) as Hp. unfold wpe in Hp.
destruct (purge_user_from_realm realm u (reached ops)) as [[[]|e|] st']; [|done..].
destruct Hp as ([Hint' _] & Has & Hfw & Horg & Hsame). pose proof Hi as [Hint _]. exists st'. split_and!; [done|..].
- destruct (subject_assignments_ok realm (es_store st') (SUser u) Hint') as (l & Hl & Hin). cbn in Hl. rewrite Hl. f_equal.
  apply empty_members. intros a (id & Ha & Hs)%Hin. by apply Has in Ha as [_ ?].
- destruct (parent_groups_ok realm (es_store st') (MUser u) Hint') as (l & Hl & Hin). rewrite Hl. f_equal.
  apply empty_members. intros g Hg%Hin. by apply Hfw in Hg as [_ ?].
- intros o. destruct (additional_roles_ok realm (es_store st') o u Hint') as (l & Hl & Hin). rewrite Hl. f_equal.
  apply empty_members. intros n [v Hv]%Hin. by rewrite Horg in Hv.
- intros aid a Hs. rewrite Has. tauto.
- unfold load_user_permissions, scan_values, scan_prefix. f_equal. apply scan_ext. intros k Hw.
  assert (∀ s v, integrity realm s → s !! k = Some v → ∃ sc p, k = enc realm (KGrant u sc p)) as Hkey.
  { intros s v [Hk _] Hs. assert (Scan k v ∈ scan_prefix (user_permission_scan_prefix realm u) s) as Hin by (by apply elem_of_scan).
    apply (scans_user_grants realm u s _ Hk) in Hin as (K & (sc & p & ->) & Hkey & _). eauto. }
  assert (∀ sc p, k = enc realm (KGrant u sc p) → es_store st' !! k = es_store (reached ops) !! k) as Hrow.
  { intros sc p ->. apply (Hsame (KGrant u sc p)). by right. }
  destruct (es_store st' !! k) as [v|] eqn:Hv; [by destruct (Hkey _ _ Hint' Hv) as (sc & p & ?); eapply Hrow|].
  destruct (es_store (reached ops) !! k) as [v|] eqn:Hv'; [by destruct (Hkey _ _ Hint Hv') as (sc & p & ?); eapply Hrow|done].
Qed.
End engine.
