(* ===== verification/RbacScenarios.v ===== *)
(** * Role-based access control: concrete realms

Executions of the engine on small realms, with hexadecimal identifiers and plain
row codecs: the witnesses of the theorems about reachable realms, and behaviours
that differ from what the documentation promises. *)
From stdpp Require Import relations.
From stdpp Require Import base list gmap strings sorting lexico countable.
From Stdlib Require Import Strings.Byte ZArith Lia.
From S2P Require Import Prelude OrdMap StorageTypes OrdSet RbacTypes RbacResolve RbacRegistry.
From S2P Require Import RealmRows RbacKeys RbacStore RbacEngine RbacSeed RbacRows RbacIntegrity RbacCycles RbacPreserve.
From S2P Require Import RbacSound RbacInstances RbacProps.

Open Scope Z_scope.

(** Distinct identifiers, and a clock that ticks. *)
Definition draw (n : nat) : Uuid := pos_bytes (encode n).
#[export] Instance draw_inj : Inj (=) (=) draw.
Proof. intros n m Heq. apply (inj encode). rewrite <-(bytes_pos_bytes (encode n)), <-(bytes_pos_bytes (encode m)). by f_equal. Qed.
Definition tick (n : nat) : Timestamp := Z.of_nat n.

Definition here : RealmId := [x01].
Definition alice : UserId := [xa1].
Definition acme : OrganizationId := [xc1].

#[local] Opaque run_ops.
Definition after (ops : list Op) : EngState := run_ops draw tick here ops empty_realm.
(** Whether each operation returned [Ok], in order. *)
Fixpoint returned_ok (ops : list Op) (st : EngState) : list bool :=
  match ops with
  | [] => []
  | op :: ops' =>
      let '(r, st') := run_op draw tick here op st in
      (match r with Ok _ => true | _ => false end) :: returned_ok ops' st'
  end.
Definition resolved (ops : list Op) (org : option OrganizationId) : rres ResolvedPermissions :=
  @resolve_full _ _ (store_resolver here (es_store (after ops))) alice here org.
Definition permissions_of (r : rres ResolvedPermissions) : list Permission := match r with Ok rp => rp_permissions rp | _ => [] end.

Definition grant_of (p : string) : UserPermissionGrant := MkUserPermissionGrant here alice (lit p) ScRealm 0 None.
Definition role_named (n : string) (perms : list string) : CreateRoleRequest :=
  MkCreateRole (lit n) None (lit <$> perms) [] RskAny false.
Definition rename_to (n : string) : UpdateRoleRequest := MkUpdateRole (Some (lit n)) None None None None None false.
Definition assign_to_alice (role : RoleId) : AssignRoleRequest := MkAssignRole (SUser alice) role ScRealm None.

(** ** Witnesses *)

Definition mixed : list Op :=
  [OpSeedRealm; OpAssignRole (assign_to_alice (draw 0)); OpCreateGroup (MkCreateGroup (lit "Staff") (lit "staff") None);
   OpAddGroupMember (draw 10) (MUser alice); OpGrantUserPermission (grant_of "docs.read");
   OpAddAdditionalRole acme alice (lit "org.member")].



Lemma purge_user_exact_witness :
  length (permissions_of (resolved mixed (Some acme))) = 18%nat ∧
  ∃ st', purge_user_from_realm here alice (after mixed) = (Ok tt, st') ∧
    list_user_assignments here (es_store st') alice = Ok [] ∧
    load_parent_groups (es_store st') (MUser alice) = Ok [] ∧
    (∀ o, list_additional_roles here (es_store st') o alice = Ok []) ∧
    (∀ aid a, ra_subject a ≠ SUser alice → assign_at (row here (es_store st')) aid a ↔ assign_at (row here (es_store (after mixed))) aid a) ∧
    load_user_permissions here (es_store st') alice = load_user_permissions here (es_store (after mixed)) alice.
Proof. split; [vm_compute; reflexivity|]. unfold after. exact (purge_user_exact draw tick here mixed alice draw_inj). Defined.

Definition page_of (cursor : option Str) (limit : nat) : Page Role :=
  match list_roles here (es_store (after [OpSeedRealm])) cursor limit with Ok p => p | _ => MkPage [] None end.

Lemma list_roles_skips_boundary_witness :
  ∃ r, get_role_by_name here (es_store (after [OpSeedRealm])) (lit "hearth.realm.admin") = Ok (Some r) ∧
    ro_name r = lit "hearth.realm.admin" ∧ r ∉ pg_items (page_of None 2) ∧ r ∉ pg_items (page_of (Some (lit "hearth.realm.admin")) 2).
Proof.
apply (list_roles_skips_boundary here (es_store (after [OpSeedRealm])) None 2 2 (page_of None 2)).
- apply (run_ops_inv draw tick here [OpSeedRealm] empty_realm), empty_realm_inv.
- vm_compute. reflexivity.
- vm_compute. reflexivity.
- vm_compute. reflexivity.
Defined.

(** ** Where the engine departs from its documentation *)

(** Whether alice holds a permission once the operations have run. *)
Definition may (p : string) (org : option OrganizationId) (ops : list Op) : bool :=
  bool_decide (lit p ∈ permissions_of (resolved ops org)).

Definition administered : list Op := [OpSeedRealm; OpAssignRole (assign_to_alice (draw 0))].
Definition redeclared : list Op := administered ++ [OpArchiveRemovedPermissions {[lit "docs.read"]}].

(** Reconciling a realm's declared permissions archives the seed permissions that
the declaration does not repeat: a realm administrator loses [user.read], a seed
permission of their role, although validation of a declaration takes the seed
permissions as always available. *)
Theorem archived_seed_permission :
  returned_ok redeclared empty_realm = [true; true; true] ∧ lit "user.read" ∈ SEED_PERMISSIONS ∧
  may "user.read" None administered = true ∧ may "user.read" None redeclared = false.
Proof. split_and!; [vm_compute; reflexivity|set_solver|vm_compute; reflexivity..]. Qed.

(** A role handed out by name in an organisation, renamed, and another role created
under the old name. *)
Definition viewer_given : list Op :=
  [OpCreateRole (role_named "viewer" ["docs.read"]); OpAddAdditionalRole acme alice (lit "viewer")].
Definition viewer_renamed : list Op := viewer_given ++ [OpUpdateRole (draw 0) (rename_to "reader")].
Definition viewer_reused : list Op := viewer_renamed ++ [OpCreateRole (role_named "viewer" ["docs.write"])].

(** Renaming a role does not follow the organisation rows that name it: alice loses
the permission the role still carries, and a role later created under the freed name
gives her permissions nobody assigned to her. *)
Theorem rename_moves_extra_roles :
  returned_ok viewer_reused empty_realm = [true; true; true; true] ∧
  may "docs.read" (Some acme) viewer_given = true ∧
  may "docs.read" (Some acme) viewer_renamed = false ∧
  may "docs.write" (Some acme) viewer_renamed = false ∧
  may "docs.write" (Some acme) viewer_reused = true.
Proof. split_and!; vm_compute; reflexivity. Qed.

(** [n] groups, each to contain the next, and alice in the innermost one. *)
Definition group_numbered (n : nat) : Op :=
  let name := lit "g" ++ replicate n x61 in OpCreateGroup (MkCreateGroup name name None).
Definition nest (n : nat) : Op := OpAddGroupMember (draw n) (MGroup (draw (S n))).
Definition nested (n : nat) (order : list nat) : list Op :=
  (group_numbered <$> seq 0 n) ++ (nest <$> order) ++ [OpAddGroupMember (draw (n - 1)) (MUser alice)].

(** [n] roles, each to inherit from the next, the first assigned to alice. *)
Definition role_numbered (n : nat) : Op :=
  OpCreateRole (MkCreateRole (lit "r" ++ replicate n x61) None [lit "docs.read"] [] RskAny false).
Definition inherit (n : nat) : Op := OpUpdateRole (draw n) (MkUpdateRole None None None (Some [draw (S n)]) None None false).
Definition inheriting (n : nat) (order : list nat) : list Op :=
  (role_numbered <$> seq 0 n) ++ [OpAssignRole (assign_to_alice (draw 0))] ++ (inherit <$> order).

(** The depth checks of the writes do not keep the graph within the depth that
resolution accepts. Eleven nested groups are accepted whatever the order of the calls,
and a chain of twelve roles is refused when it is built from its last role but accepted
when it is built from its first; the users concerned can then not be resolved at all. *)
Theorem depth_checks_admit_unresolvable :
  forallb id (returned_ok (nested 11 (seq 0 10)) empty_realm) = true ∧
  forallb id (returned_ok (nested 11 (reverse (seq 0 10))) empty_realm) = true ∧
  resolved (nested 11 (seq 0 10)) None = Err (DepthExceeded TraverseGroups MAX_GROUP_DEPTH) ∧
  resolved (nested 11 (reverse (seq 0 10))) None = Err (DepthExceeded TraverseGroups MAX_GROUP_DEPTH) ∧
  forallb id (returned_ok (inheriting 12 (reverse (seq 0 11))) empty_realm) = false ∧
  forallb id (returned_ok (inheriting 12 (seq 0 11)) empty_realm) = true ∧
  resolved (inheriting 12 (seq 0 11)) None = Err (DepthExceeded TraverseRoles MAX_ROLE_DEPTH).
Proof. split_and!; vm_compute; reflexivity. Qed.
