(* ===== verification/KeyEnvelope.v ===== *)
(** * Key material at rest

The AES-256-GCM envelope of stored key material ([identity/key_encryption.rs]). *)
From stdpp Require Import base list strings.
From Stdlib Require Import Strings.Byte ZArith Lia.
From S2P Require Import Prelude StorageTypes Crypto RbacTypes.

Open Scope Z_scope.

Definition ENVELOPE_MAGIC : list byte := Eval compute in lit "HKEY".
Definition ENVELOPE_VERSION_V1 : byte := x01.
Definition ENVELOPE_NONCE_LEN : Z := 12.
Definition ENVELOPE_HEADER_LEN : Z := 4 + 1 + ENVELOPE_NONCE_LEN.

(** [IdentityError::SigningError], by the branch that raises it. *)
Inductive EnvelopeError := SealFailed | NotEnveloped | NoKek | TooShort | BadVersion | OpenFailed.

Section envelope.
Context `{!Aead}.
Implicit Types (plaintext bytes : list byte) (kek : option (list byte)).

(** The nonce is drawn by the caller's generator. *)
Definition wrap_key plaintext kek (nonce : list byte) : outcome EnvelopeError (list byte) :=
  match kek with
  | None => Ok plaintext
  | Some kek =>
      ciphertext ← ok_or SealFailed (aead_seal kek nonce [] plaintext);
      Ok (ENVELOPE_MAGIC ++ [ENVELOPE_VERSION_V1] ++ nonce ++ ciphertext)
  end.

Definition is_enveloped bytes : bool :=
  (zlen ENVELOPE_MAGIC <=? zlen bytes) && bool_decide (take 4 bytes = ENVELOPE_MAGIC).

Definition unwrap_key bytes kek : outcome EnvelopeError (list byte) :=
  if negb (is_enveloped bytes) then Ok bytes
  else
    kek ← ok_or NoKek kek;
    if zlen bytes <? ENVELOPE_HEADER_LEN + 16 then Err TooShort
    else
      version ← index_at 4 bytes;
      if negb (bool_decide (version = ENVELOPE_VERSION_V1)) then Err BadVersion
      else
        nonce ← index_range 5 ENVELOPE_HEADER_LEN bytes;
        ok_or OpenFailed (aead_open kek nonce [] (drop (Z.to_nat ENVELOPE_HEADER_LEN) bytes)).

Definition unwrap_key_strict bytes kek : outcome EnvelopeError (list byte) :=
  if bool_decide (is_Some kek) && negb (is_enveloped bytes) then Err NotEnveloped else unwrap_key bytes kek.

(** ** Lemmas *)

Lemma is_enveloped_magic rest : is_enveloped (ENVELOPE_MAGIC ++ rest) = true.
Proof.
unfold is_enveloped. rewrite zlen_app, andb_true_iff, Z.leb_le. pose proof (zlen_nonneg rest).
split; [lia|]. apply bool_decide_eq_true. by rewrite take_app_length'.
Qed.

Context `{!AeadLaws}.

Lemma unwrap_enveloped k nonce p c : zlen nonce = ENVELOPE_NONCE_LEN → aead_seal k nonce [] p = Some c →
  unwrap_key (ENVELOPE_MAGIC ++ [ENVELOPE_VERSION_V1] ++ nonce ++ c) (Some k) = Ok p.
Proof.
intros Hn Hs. unfold unwrap_key. rewrite is_enveloped_magic. cbn [negb ok_or]. rewrite bind_ok.
pose proof (seal_len _ _ _ _ _ Hs) as Hc. pose proof (zlen_nonneg p) as Hp. unfold ENVELOPE_NONCE_LEN in *.
assert (length nonce = 12%nat) as Hn' by (unfold zlen in Hn; lia).
assert ((zlen (ENVELOPE_MAGIC ++ [ENVELOPE_VERSION_V1] ++ nonce ++ c) <? ENVELOPE_HEADER_LEN + 16) = false) as ->.
{ rewrite !zlen_app, Hn, Hc. apply Z.ltb_ge. unfold ENVELOPE_HEADER_LEN, ENVELOPE_NONCE_LEN, TAG_SIZE. change (zlen ENVELOPE_MAGIC) with 4.
  change (zlen [ENVELOPE_VERSION_V1]) with 1. lia. }
change (index_at 4 (ENVELOPE_MAGIC ++ [ENVELOPE_VERSION_V1] ++ nonce ++ c)) with (@Ok EnvelopeError _ ENVELOPE_VERSION_V1).
rewrite bind_ok. rewrite bool_decide_true by done. cbn [negb].
unfold index_range. rewrite app_assoc. rewrite (slice_mid 5 ENVELOPE_HEADER_LEN); [|done|].
- cbn [mbind outcome_bind]. rewrite app_assoc, drop_app_length'; [|rewrite length_app, Hn'; done]. by rewrite (open_seal _ _ _ _ _ Hs).
- unfold ENVELOPE_HEADER_LEN, ENVELOPE_NONCE_LEN. rewrite Hn. done.
Qed.

(** C32: Wrapped material reads back: with a key-encryption key always, and without one
exactly when the raw material does not begin with the envelope's magic; with a
key-encryption key, unwrapped material is refused. *)
Theorem envelope_exact p kek nonce w : zlen nonce = ENVELOPE_NONCE_LEN → wrap_key p kek nonce = Ok w →
  (unwrap_key_strict w kek = Ok p ↔ is_Some kek ∨ is_enveloped p = false) ∧
  (∀ k bytes, is_enveloped bytes = false → unwrap_key_strict bytes (Some k) = Err NotEnveloped).
Proof.
intros Hn Hw. split.
- destruct kek as [k|]; simpl in Hw.
  + destruct (aead_seal k nonce [] p) as [c|] eqn:Hs; simpl in Hw; [|done]. injection Hw as <-.
    assert (unwrap_key_strict (ENVELOPE_MAGIC ++ [ENVELOPE_VERSION_V1] ++ nonce ++ c) (Some k) = Ok p); [|naive_solver].
    unfold unwrap_key_strict. rewrite is_enveloped_magic, andb_false_r. by apply unwrap_enveloped.
  + injection Hw as ->. unfold unwrap_key_strict, unwrap_key. rewrite bool_decide_false by (by intros []). cbn [andb].
    destruct (is_enveloped w); simpl; split; [done| |by right|done]. by intros [[] |].
- intros k bytes Hb. unfold unwrap_key_strict. by rewrite Hb.
Qed.
End envelope.
