(* ===== verification/AuditTypes.v ===== *)
(** * Audit log: events

The audited actions and their wire names, events, requests and queries
([audit/types.rs]), and the errors of the audit engine ([audit/error.rs]). *)
From stdpp Require Import base list gmap strings.
From Stdlib Require Import Strings.Byte ZArith Lia.
From S2P Require Import Prelude OrdMap StorageTypes RbacTypes.

Open Scope Z_scope.

(** ** Actions *)

Inductive AuditAction :=
| AUserCreated | AUserUpdated | AUserDeleted | ACredentialSet | ACredentialChanged | ACredentialVerified
| ASessionCreated | ASessionRevoked | ASessionsRevoked | ASessionEvicted | ATokenIssued | ATokenRefreshed
| ARealmCreated | ARealmUpdated | ARealmDeleted | AClientRegistered | AAuthorizationCodeIssued
| AAuthorizationCodeExchanged | ATupleWritten | ATupleDeleted | AClientUpdated | AClientDeleted
| ABulkUsersCreated | ABulkUsersDisabled | AOrgCreated | AOrgUpdated | AOrgDeleted | AGroupCreated
| AGroupUpdated | AGroupDeleted | AGroupMemberAdded | AGroupMemberRemoved | AGroupMemberRoleChanged
| ARoleAssigned | ARoleRevoked | AConsentGranted | AConsentDenied | AConsentRevoked | AFederationLoginStarted
| AFederationLoginCompleted | AFederationAccountLinked | AFederationAccountUnlinked
| AFederationJitProvisioned | ASamlLoginInitiated | ASamlLoginCompleted | ASamlLoginFailed
| ASamlIdpAuthnRequestReceived | ASamlIdpResponseIssued | ASamlIdpInitiatedSso | ASamlSloRequested
| ASamlSloCompleted | AScimUserCreated | AScimUserUpdated | AScimUserDeleted | AScimGroupCreated
| AScimGroupUpdated | AScimGroupDeleted | AOrphanedReferenceSkipped | AUserPermissionGranted
| AUserPermissionRevoked | AClientConsentGranted | AClientConsentRevoked | AConsentRequiredOnRefresh
| ACleanup | ALoginFailed | ALoginLocked | AIpLoginLimitExceeded | ABackupCreated | ABackupRestored
| ARealmExportWatermarked | AAgentCreated | AAgentUpdated | AAgentSuspended | AAgentReactivated
| AAgentRevoked | AAgentDeleted | AAgentCredentialCreated | AAgentCredentialRevoked | ARequiredActionAssigned
| ARequiredActionRemoved | ARequiredActionCompleted | ARequiredActionAutoCleared
| APasswordCompromisedRejected | ABreachCheckUnavailable | ASessionLimitEnforced | AAbuseDetected
| AEmailChangeInitiated | AEmailChangeConfirmed | AOidcSilentAuthProbed | AAgentDelegation
| AAgentToolInvocation | AApprovalRequested | AApprovalGranted | AApprovalDenied | AAgentTokenRevoked
| ACrossRealmTrustCreated | ACrossRealmTrustRevoked | AProtectedResourceRegistered
| AProtectedResourceUpdated | AProtectedResourceDeleted | AAatIssued | AAatRevoked | ATransactionTokenIssued
| ACrossRealmTokenIssued | ASpiffeIdMapped | ASpiffeAuthSuccess | AAuditLogPruned | AMfaEnabled
| AMfaDisabled | AInvitationCreated | AInvitationAccepted | AInvitationRevoked | AMfaRequirementChanged.

(** [AuditAction::as_str]: the tag of storage keys. *)
Definition action_str (a : AuditAction) : string :=
  match a with
  | AUserCreated => "user_created" | AUserUpdated => "user_updated" | AUserDeleted => "user_deleted"
  | ACredentialSet => "credential_set" | ACredentialChanged => "credential_changed"
  | ACredentialVerified => "credential_verified" | ASessionCreated => "session_created"
  | ASessionRevoked => "session_revoked" | ASessionEvicted => "session_evicted" | ATokenIssued => "token_issued"
  | ATokenRefreshed => "token_refreshed" | ARealmCreated => "realm_created" | ARealmUpdated => "realm_updated"
  | ARealmDeleted => "realm_deleted" | AClientRegistered => "client_registered"
  | AAuthorizationCodeIssued => "authz_code_issued" | AAuthorizationCodeExchanged => "authz_code_exchanged"
  | ATupleWritten => "tuple_written" | ATupleDeleted => "tuple_deleted" | AClientUpdated => "client_updated"
  | AClientDeleted => "client_deleted" | ABulkUsersCreated => "bulk_users_created"
  | ABulkUsersDisabled => "bulk_users_disabled" | AOrgCreated => "org_created" | AOrgUpdated => "org_updated"
  | AOrgDeleted => "org_deleted" | AInvitationCreated => "invitation_created"
  | AInvitationAccepted => "invitation_accepted" | AInvitationRevoked => "invitation_revoked"
  | AMfaRequirementChanged => "mfa_requirement_changed" | AGroupCreated => "group_created"
  | AGroupUpdated => "group_updated" | AGroupDeleted => "group_deleted" | AGroupMemberAdded => "group_member_added"
  | AGroupMemberRemoved => "group_member_removed" | AGroupMemberRoleChanged => "group_member_role_changed"
  | AConsentGranted => "consent_granted" | AConsentDenied => "consent_denied" | AConsentRevoked => "consent_revoked"
  | AFederationLoginStarted => "federation_login_started" | AFederationLoginCompleted => "federation_login_completed"
  | AFederationAccountLinked => "federation_account_linked"
  | AFederationAccountUnlinked => "federation_account_unlinked"
  | AFederationJitProvisioned => "federation_jit_provisioned" | ASamlLoginInitiated => "saml_login_initiated"
  | ASamlLoginCompleted => "saml_login_completed" | ASamlLoginFailed => "saml_login_failed"
  | ASamlIdpAuthnRequestReceived => "saml_idp_authn_request_received"
  | ASamlIdpResponseIssued => "saml_idp_response_issued" | ASamlIdpInitiatedSso => "saml_idp_initiated_sso"
  | ASamlSloRequested => "saml_slo_requested" | ASamlSloCompleted => "saml_slo_completed"
  | AScimUserCreated => "scim_user_created" | AScimUserUpdated => "scim_user_updated"
  | AScimUserDeleted => "scim_user_deleted" | AScimGroupCreated => "scim_group_created"
  | AScimGroupUpdated => "scim_group_updated" | AScimGroupDeleted => "scim_group_deleted"
  | ARoleAssigned => "role_assigned" | ARoleRevoked => "role_revoked"
  | AOrphanedReferenceSkipped => "orphaned_reference_skipped" | AUserPermissionGranted => "user_permission_granted"
  | AUserPermissionRevoked => "user_permission_revoked" | AClientConsentGranted => "client_consent_granted"
  | AClientConsentRevoked => "client_consent_revoked" | AConsentRequiredOnRefresh => "consent_required_on_refresh"
  | ACleanup => "cleanup" | ALoginFailed => "login_failed" | ALoginLocked => "login_locked"
  | AIpLoginLimitExceeded => "ip_login_limit_exceeded" | ABackupCreated => "backup_created"
  | ABackupRestored => "backup_restored" | ARequiredActionAssigned => "required_action_assigned"
  | ARequiredActionRemoved => "required_action_removed" | ARequiredActionCompleted => "required_action_completed"
  | ARequiredActionAutoCleared => "required_action_auto_cleared"
  | APasswordCompromisedRejected => "password_compromised_rejected"
  | ABreachCheckUnavailable => "breach_check_unavailable" | ASessionLimitEnforced => "session_limit_enforced"
  | ASessionsRevoked => "sessions_revoked" | AAbuseDetected => "abuse_detected"
  | AEmailChangeInitiated => "email_change_initiated" | AEmailChangeConfirmed => "email_change_confirmed"
  | AOidcSilentAuthProbed => "oidc_silent_auth_probed" | ARealmExportWatermarked => "realm_export_watermarked"
  | AAgentCreated => "agent_created" | AAgentUpdated => "agent_updated" | AAgentSuspended => "agent_suspended"
  | AAgentReactivated => "agent_reactivated" | AAgentRevoked => "agent_revoked" | AAgentDeleted => "agent_deleted"
  | AAgentCredentialCreated => "agent_credential_created" | AAgentCredentialRevoked => "agent_credential_revoked"
  | AAgentDelegation => "agent_delegation" | AAgentToolInvocation => "agent_tool_invocation"
  | AApprovalRequested => "approval_requested" | AApprovalGranted => "approval_granted"
  | AApprovalDenied => "approval_denied" | AAgentTokenRevoked => "agent_token_revoked"
  | ACrossRealmTrustCreated => "cross_realm_trust_created" | ACrossRealmTrustRevoked => "cross_realm_trust_revoked"
  | AProtectedResourceRegistered => "protected_resource_registered"
  | AProtectedResourceUpdated => "protected_resource_updated"
  | AProtectedResourceDeleted => "protected_resource_deleted" | AAatIssued => "aat_issued"
  | AAatRevoked => "aat_revoked" | ATransactionTokenIssued => "transaction_token_issued"
  | ACrossRealmTokenIssued => "cross_realm_token_issued" | ASpiffeIdMapped => "spiffe_id_mapped"
  | ASpiffeAuthSuccess => "spiffe_auth_success" | AAuditLogPruned => "audit_log_pruned" | AMfaEnabled => "mfa_enabled"
  | AMfaDisabled => "mfa_disabled"
  end.
Definition as_str (a : AuditAction) : Str := lit (action_str a).

(** [AuditAction::from_str]. *)
Definition from_str (s : string) : option AuditAction :=
  if String.eqb s "user_created" then Some AUserCreated else
  if String.eqb s "user_updated" then Some AUserUpdated else
  if String.eqb s "user_deleted" then Some AUserDeleted else
  if String.eqb s "credential_set" then Some ACredentialSet else
  if String.eqb s "credential_changed" then Some ACredentialChanged else
  if String.eqb s "credential_verified" then Some ACredentialVerified else
  if String.eqb s "session_created" then Some ASessionCreated else
  if String.eqb s "session_revoked" then Some ASessionRevoked else
  if String.eqb s "session_evicted" then Some ASessionEvicted else
  if String.eqb s "token_issued" then Some ATokenIssued else
  if String.eqb s "token_refreshed" then Some ATokenRefreshed else
  if String.eqb s "realm_created" then Some ARealmCreated else
  if String.eqb s "realm_updated" then Some ARealmUpdated else
  if String.eqb s "realm_deleted" then Some ARealmDeleted else
  if String.eqb s "client_registered" then Some AClientRegistered else
  if String.eqb s "authz_code_issued" then Some AAuthorizationCodeIssued else
  if String.eqb s "authz_code_exchanged" then Some AAuthorizationCodeExchanged else
  if String.eqb s "tuple_written" then Some ATupleWritten else
  if String.eqb s "tuple_deleted" then Some ATupleDeleted else
  if String.eqb s "client_updated" then Some AClientUpdated else
  if String.eqb s "client_deleted" then Some AClientDeleted else
  if String.eqb s "bulk_users_created" then Some ABulkUsersCreated else
  if String.eqb s "bulk_users_disabled" then Some ABulkUsersDisabled else
  if String.eqb s "org_created" then Some AOrgCreated else
  if String.eqb s "org_updated" then Some AOrgUpdated else
  if String.eqb s "org_deleted" then Some AOrgDeleted else
  if String.eqb s "invitation_created" then Some AInvitationCreated else
  if String.eqb s "invitation_accepted" then Some AInvitationAccepted else
  if String.eqb s "invitation_revoked" then Some AInvitationRevoked else
  if String.eqb s "mfa_requirement_changed" then Some AMfaRequirementChanged else
  if String.eqb s "group_created" then Some AGroupCreated else
  if String.eqb s "group_updated" then Some AGroupUpdated else
  if String.eqb s "group_deleted" then Some AGroupDeleted else
  if String.eqb s "group_member_added" then Some AGroupMemberAdded else
  if String.eqb s "group_member_removed" then Some AGroupMemberRemoved else
  if String.eqb s "group_member_role_changed" then Some AGroupMemberRoleChanged else
  if String.eqb s "consent_granted" then Some AConsentGranted else
  if String.eqb s "consent_denied" then Some AConsentDenied else
  if String.eqb s "consent_revoked" then Some AConsentRevoked else
  if String.eqb s "federation_login_started" then Some AFederationLoginStarted else
  if String.eqb s "federation_login_completed" then Some AFederationLoginCompleted else
  if String.eqb s "federation_account_linked" then Some AFederationAccountLinked else
  if String.eqb s "federation_account_unlinked" then Some AFederationAccountUnlinked else
  if String.eqb s "federation_jit_provisioned" then Some AFederationJitProvisioned else
  if String.eqb s "saml_login_initiated" then Some ASamlLoginInitiated else
  if String.eqb s "saml_login_completed" then Some ASamlLoginCompleted else
  if String.eqb s "saml_login_failed" then Some ASamlLoginFailed else
  if String.eqb s "saml_idp_authn_request_received" then Some ASamlIdpAuthnRequestReceived else
  if String.eqb s "saml_idp_response_issued" then Some ASamlIdpResponseIssued else
  if String.eqb s "saml_idp_initiated_sso" then Some ASamlIdpInitiatedSso else
  if String.eqb s "saml_slo_requested" then Some ASamlSloRequested else
  if String.eqb s "saml_slo_completed" then Some ASamlSloCompleted else
  if String.eqb s "scim_user_created" then Some AScimUserCreated else
  if String.eqb s "scim_user_updated" then Some AScimUserUpdated else
  if String.eqb s "scim_user_deleted" then Some AScimUserDeleted else
  if String.eqb s "scim_group_created" then Some AScimGroupCreated else
  if String.eqb s "scim_group_updated" then Some AScimGroupUpdated else
  if String.eqb s "scim_group_deleted" then Some AScimGroupDeleted else
  if String.eqb s "role_assigned" then Some ARoleAssigned else
  if String.eqb s "role_revoked" then Some ARoleRevoked else
  if String.eqb s "orphaned_reference_skipped" then Some AOrphanedReferenceSkipped else
  if String.eqb s "user_permission_granted" then Some AUserPermissionGranted else
  if String.eqb s "user_permission_revoked" then Some AUserPermissionRevoked else
  if String.eqb s "client_consent_granted" then Some AClientConsentGranted else
  if String.eqb s "client_consent_revoked" then Some AClientConsentRevoked else
  if String.eqb s "consent_required_on_refresh" then Some AConsentRequiredOnRefresh else
  if String.eqb s "cleanup" then Some ACleanup else
  if String.eqb s "login_failed" then Some ALoginFailed else
  if String.eqb s "login_locked" then Some ALoginLocked else
  if String.eqb s "ip_login_limit_exceeded" then Some AIpLoginLimitExceeded else
  if String.eqb s "backup_created" then Some ABackupCreated else
  if String.eqb s "backup_restored" then Some ABackupRestored else
  if String.eqb s "required_action_assigned" then Some ARequiredActionAssigned else
  if String.eqb s "required_action_removed" then Some ARequiredActionRemoved else
  if String.eqb s "required_action_completed" then Some ARequiredActionCompleted else
  if String.eqb s "required_action_auto_cleared" then Some ARequiredActionAutoCleared else
  if String.eqb s "password_compromised_rejected" then Some APasswordCompromisedRejected else
  if String.eqb s "breach_check_unavailable" then Some ABreachCheckUnavailable else
  if String.eqb s "session_limit_enforced" then Some ASessionLimitEnforced else
  if String.eqb s "sessions_revoked" then Some ASessionsRevoked else
  if String.eqb s "abuse_detected" then Some AAbuseDetected else
  if String.eqb s "email_change_initiated" then Some AEmailChangeInitiated else
  if String.eqb s "email_change_confirmed" then Some AEmailChangeConfirmed else
  if String.eqb s "oidc_silent_auth_probed" then Some AOidcSilentAuthProbed else
  if String.eqb s "realm_export_watermarked" then Some ARealmExportWatermarked else
  if String.eqb s "agent_created" then Some AAgentCreated else
  if String.eqb s "agent_updated" then Some AAgentUpdated else
  if String.eqb s "agent_suspended" then Some AAgentSuspended else
  if String.eqb s "agent_reactivated" then Some AAgentReactivated else
  if String.eqb s "agent_revoked" then Some AAgentRevoked else
  if String.eqb s "agent_deleted" then Some AAgentDeleted else
  if String.eqb s "agent_credential_created" then Some AAgentCredentialCreated else
  if String.eqb s "agent_credential_revoked" then Some AAgentCredentialRevoked else
  if String.eqb s "agent_delegation" then Some AAgentDelegation else
  if String.eqb s "agent_tool_invocation" then Some AAgentToolInvocation else
  if String.eqb s "approval_requested" then Some AApprovalRequested else
  if String.eqb s "approval_granted" then Some AApprovalGranted else
  if String.eqb s "approval_denied" then Some AApprovalDenied else
  if String.eqb s "agent_token_revoked" then Some AAgentTokenRevoked else
  if String.eqb s "cross_realm_trust_created" then Some ACrossRealmTrustCreated else
  if String.eqb s "cross_realm_trust_revoked" then Some ACrossRealmTrustRevoked else
  if String.eqb s "protected_resource_registered" then Some AProtectedResourceRegistered else
  if String.eqb s "protected_resource_updated" then Some AProtectedResourceUpdated else
  if String.eqb s "protected_resource_deleted" then Some AProtectedResourceDeleted else
  if String.eqb s "aat_issued" then Some AAatIssued else
  if String.eqb s "aat_revoked" then Some AAatRevoked else
  if String.eqb s "transaction_token_issued" then Some ATransactionTokenIssued else
  if String.eqb s "cross_realm_token_issued" then Some ACrossRealmTokenIssued else
  if String.eqb s "spiffe_id_mapped" then Some ASpiffeIdMapped else
  if String.eqb s "spiffe_auth_success" then Some ASpiffeAuthSuccess else
  if String.eqb s "audit_log_pruned" then Some AAuditLogPruned else
  if String.eqb s "mfa_enabled" then Some AMfaEnabled else
  if String.eqb s "mfa_disabled" then Some AMfaDisabled else
  None.

Lemma from_action_str a : from_str (action_str a) = Some a.
Proof. by destruct a. Qed.

Lemma action_str_inj a b : action_str a = action_str b → a = b.
Proof. intros Heq. apply (inj Some). by rewrite <-!from_action_str, Heq. Qed.

#[export] Instance AuditAction_eq_dec : EqDecision AuditAction.
Proof. refine (λ a b, cast_if (decide (action_str a = action_str b))); [by apply action_str_inj|by intros ->]. Defined.

(** The variants [AuditAction::all] lists, before it sorts them by tag. *)
Definition all_listed : list AuditAction := [
  AUserCreated; AUserUpdated; AUserDeleted; ACredentialSet; ACredentialChanged; ACredentialVerified;
  ASessionCreated; ASessionRevoked; ASessionEvicted; ATokenIssued; ATokenRefreshed; ARealmCreated;
  ARealmUpdated; ARealmDeleted; AClientRegistered; AClientUpdated; AClientDeleted; AAuthorizationCodeIssued;
  AAuthorizationCodeExchanged; ATupleWritten; ATupleDeleted; ABulkUsersCreated; ABulkUsersDisabled;
  AOrgCreated; AOrgUpdated; AOrgDeleted; AConsentGranted; AConsentDenied; AConsentRevoked;
  AFederationLoginStarted; AFederationLoginCompleted; AFederationAccountLinked; AFederationAccountUnlinked;
  AFederationJitProvisioned; ASamlLoginInitiated; ASamlLoginCompleted; ASamlLoginFailed;
  ASamlIdpAuthnRequestReceived; ASamlIdpResponseIssued; ASamlIdpInitiatedSso; ASamlSloRequested;
  ASamlSloCompleted; AScimUserCreated; AScimUserUpdated; AScimUserDeleted; AScimGroupCreated;
  AScimGroupUpdated; AScimGroupDeleted; AGroupCreated; AGroupUpdated; AGroupDeleted; AGroupMemberAdded;
  AGroupMemberRemoved; AGroupMemberRoleChanged; AInvitationCreated; AInvitationAccepted; AInvitationRevoked;
  AMfaRequirementChanged; ARoleAssigned; ARoleRevoked; AOrphanedReferenceSkipped; AUserPermissionGranted;
  AUserPermissionRevoked; AClientConsentGranted; AClientConsentRevoked; AConsentRequiredOnRefresh; ACleanup;
  ALoginFailed; ALoginLocked; AIpLoginLimitExceeded; ABackupCreated; ABackupRestored;
  ARequiredActionAssigned; ARequiredActionRemoved; ARequiredActionCompleted; ARequiredActionAutoCleared;
  APasswordCompromisedRejected; ABreachCheckUnavailable; ASessionLimitEnforced; ASessionsRevoked;
  AAbuseDetected; AEmailChangeInitiated; AEmailChangeConfirmed; AOidcSilentAuthProbed;
  ARealmExportWatermarked; AAgentCreated; AAgentUpdated; AAgentSuspended; AAgentReactivated; AAgentRevoked;
  AAgentDeleted; AAgentCredentialCreated; AAgentCredentialRevoked; AAgentDelegation; AAgentToolInvocation;
  AApprovalRequested; AApprovalGranted; AApprovalDenied; AAgentTokenRevoked; ACrossRealmTrustCreated;
  ACrossRealmTrustRevoked; AProtectedResourceRegistered; AProtectedResourceUpdated;
  AProtectedResourceDeleted; AAatIssued; AAatRevoked; ATransactionTokenIssued; ACrossRealmTokenIssued;
  ASpiffeIdMapped; ASpiffeAuthSuccess; AAuditLogPruned; AMfaEnabled; AMfaDisabled].

(** ** What a failed append does to the operation *)

Inductive AuditFailurePolicy := LogOnly | FailOperation.
Definition failure_policy (a : AuditAction) : AuditFailurePolicy :=
  match a with
  | AUserCreated | AUserUpdated | ACredentialSet | ACredentialVerified | ASessionCreated | ASessionEvicted
  | ATokenIssued | ATokenRefreshed | ARealmCreated | ARealmUpdated | AClientRegistered
  | AAuthorizationCodeIssued | AAuthorizationCodeExchanged | ATupleWritten | AClientUpdated
  | ABulkUsersCreated | AOrgCreated | AOrgUpdated | AGroupCreated | AGroupUpdated | AGroupMemberAdded
  | AGroupMemberRoleChanged | ARoleAssigned | AConsentGranted | AFederationLoginStarted
  | AFederationLoginCompleted | AFederationAccountLinked | AFederationJitProvisioned | ASamlLoginInitiated
  | ASamlLoginCompleted | ASamlIdpAuthnRequestReceived | ASamlIdpResponseIssued | ASamlIdpInitiatedSso
  | ASamlSloRequested | ASamlSloCompleted | AScimUserCreated | AScimUserUpdated | AScimGroupCreated
  | AScimGroupUpdated | AOrphanedReferenceSkipped | AUserPermissionGranted | AUserPermissionRevoked
  | AClientConsentGranted | AConsentRequiredOnRefresh | ACleanup | ALoginFailed | AIpLoginLimitExceeded
  | ABackupCreated | ABackupRestored | ARealmExportWatermarked | AAgentCreated | AAgentUpdated
  | AAgentSuspended | AAgentReactivated | AAgentCredentialCreated | ARequiredActionAssigned
  | ARequiredActionRemoved | ARequiredActionCompleted | ARequiredActionAutoCleared | ABreachCheckUnavailable
  | ASessionLimitEnforced | AAbuseDetected | AEmailChangeInitiated | AOidcSilentAuthProbed
  | AAgentToolInvocation | AApprovalRequested | AApprovalGranted | AApprovalDenied | ACrossRealmTrustCreated
  | AProtectedResourceRegistered | AProtectedResourceUpdated | AAatIssued | ATransactionTokenIssued
  | ACrossRealmTokenIssued | ASpiffeIdMapped | ASpiffeAuthSuccess | AAuditLogPruned | AMfaEnabled
  | AInvitationCreated | AInvitationAccepted => LogOnly
  | AUserDeleted | ACredentialChanged | ASessionRevoked | ASessionsRevoked | ARealmDeleted | ATupleDeleted
  | AClientDeleted | ABulkUsersDisabled | AOrgDeleted | AGroupDeleted | AGroupMemberRemoved | ARoleRevoked
  | AConsentDenied | AConsentRevoked | AFederationAccountUnlinked | ASamlLoginFailed | AScimUserDeleted
  | AScimGroupDeleted | AClientConsentRevoked | ALoginLocked | AAgentRevoked | AAgentDeleted
  | AAgentCredentialRevoked | APasswordCompromisedRejected | AEmailChangeConfirmed | AAgentDelegation
  | AAgentTokenRevoked | ACrossRealmTrustRevoked | AProtectedResourceDeleted | AAatRevoked | AMfaDisabled
  | AInvitationRevoked | AMfaRequirementChanged => FailOperation
  end.

(** [v.sort_by_key(|a| a.as_str())]: the stable sort of [AuditAction::all]. *)
Fixpoint insert_by_tag (a : AuditAction) (l : list AuditAction) : list AuditAction :=
  match l with
  | [] => [a]
  | b :: l' => if ord_lt (as_str b) (as_str a) then b :: insert_by_tag a l' else a :: l
  end.
Definition all_actions : list AuditAction := foldr insert_by_tag [] all_listed.

(** ** Metadata

[serde_json::Value]; an object is a map ordered by key, as the crate keeps it without
its [preserve_order] feature. *)
Inductive JValue :=
| JNull
| JBool (b : bool)
| JInt (z : Z)
| JFloat (text : Str)
| JString (t : Str)
| JArray (l : list JValue)
| JObject (m : list (Str * JValue)).

(** A value without floating-point numbers: the crate reads those back exactly only
with its [float_roundtrip] feature. *)
Fixpoint float_free (v : JValue) : bool :=
  match v with
  | JFloat _ => false
  | JArray l => forallb float_free l
  | JObject m => forallb (λ p, float_free p.2) m
  | _ => true
  end.

(** [Map::insert] and [Value::get] on an object. *)
Fixpoint map_insert (k : Str) (v : JValue) (m : list (Str * JValue)) : list (Str * JValue) :=
  match m with
  | [] => [(k, v)]
  | (k', v') :: m' =>
      match ord_cmp k k' with
      | Lt => (k, v) :: m
      | Eq => (k, v) :: m'
      | Gt => (k', v') :: map_insert k v m'
      end
  end.
Definition value_get (k : Str) (v : JValue) : option JValue :=
  match v with JObject m => bt_get k m | _ => None end.
Definition value_as_str (v : JValue) : option Str := match v with JString t => Some t | _ => None end.

(** ** Events, requests and queries *)

Abbreviation AuditEventId := Uuid.

Record AuditEvent := MkEvent {
  ae_id : AuditEventId;
  ae_realm_id : RealmId;
  ae_actor : Str;
  ae_action : AuditAction;
  ae_resource_type : Str;
  ae_resource_id : Str;
  ae_timestamp : Timestamp;
  ae_metadata : option JValue;
  ae_integrity_hash : Str
}.

Record CreateAuditEvent := MkCreateEvent {
  ce_realm_id : RealmId;
  ce_actor : Str;
  ce_action : AuditAction;
  ce_resource_type : Str;
  ce_resource_id : Str;
  ce_metadata : option JValue
}.

Record AuditQuery := MkQuery {
  aq_start_time : option Timestamp;
  aq_end_time : option Timestamp;
  aq_actor : option Str;
  aq_action : option AuditAction;
  aq_limit : option nat;
  aq_agent_id : option Str;
  aq_tool : option Str
}.

Record AuditRetentionConfig := MkRetention { rc_retention_days : Z; rc_max_rows : option Z }.
Definition default_retention : AuditRetentionConfig := MkRetention 90 None.

(** [AuditImportOutcome]. *)
Record AuditImportOutcome := MkImportOutcome { io_imported : Z; io_duplicates : Z; io_restamped : bool }.

(** [AuditError], messages left out. *)
Inductive AuditError :=
| IntegrityViolation
| AuditStorage
| AuditSerialization
| UnknownRealm
| InvalidQuery.

Abbreviation ares := (outcome AuditError).

(** ** Lemmas *)

Definition tags_ascend (l : list AuditAction) : bool := forallb (λ p, ord_lt p.1 p.2) (zip (as_str <$> l) (tail (as_str <$> l))).

Lemma all_actions_sorted : tags_ascend all_actions = true.
Proof. vm_compute. reflexivity. Qed.

Lemma all_actions_complete a : a ∈ all_actions.
Proof. apply (bool_decide_unpack _). destruct a; vm_compute; exact I. Qed.

(** The tags of actions are a bijection onto the recognised names, and the listing
offered to administrators holds every action once, by ascending tag. *)
Theorem action_tags_exact : (∀ a s, from_str s = Some a ↔ action_str a = s) ∧ (∀ a, a ∈ all_actions) ∧
  NoDup all_actions ∧ tags_ascend all_actions = true.
Proof.
split_and!; [|apply all_actions_complete|apply (bool_decide_unpack _); vm_compute; exact I|apply all_actions_sorted].
intros a s. split; [|intros <-; apply from_action_str]. unfold from_str.
repeat match goal with
  | |- (if String.eqb ?x ?t then _ else _) = _ → _ => destruct (String.eqb_spec x t) as [->|_]; [intros [= <-]; reflexivity|]
  end.
discriminate.
Qed.
