(* ===== verification/AuditKeys.v ===== *)
(** * Audit log: storage keys

The keys of the audit rows of a realm ([audit/keys.rs]): the primary key orders the
events by timestamp, then by sequence number; two indexes name the primary key by
actor and by action. *)
From stdpp Require Import base list gmap strings sorting lexico.
From Stdlib Require Import Strings.Byte ZArith Lia.
From S2P Require Import Prelude OrdMap StorageTypes OrdSet RealmRows RbacTypes AuditTypes.

Open Scope Z_scope.

(** [to_be_bytes]. *)
Definition to_be (n : nat) (z : Z) : list byte := reverse (to_le n z).

Definition EVENT_PREFIX : list byte := Eval compute in lit "audit:evt:".
Definition ACTOR_PREFIX : list byte := Eval compute in lit "audit:actor:".
Definition ACTION_PREFIX : list byte := Eval compute in lit "audit:action:".
Definition retention_config_key : list byte := Eval compute in lit "audit:config:retention".
Definition audit_hmac_key : list byte := Eval compute in lit "audit:hmac:key".
Definition chain_head_key : list byte := Eval compute in lit "audit:chain:head".

(** [ts.as_micros() as u64] reads a negative time modulo 2{^64}. *)
Definition timestamp_bytes (ts : Timestamp) : list byte := to_be 8 ts.
Definition seq_bytes (seq : Z) : list byte := to_be 8 seq.

Definition encode_event_key (timestamp : Timestamp) (seq : Z) (event_id : AuditEventId) : list byte :=
  EVENT_PREFIX ++ timestamp_bytes timestamp ++ seq_bytes seq ++ event_id.
Definition event_scan_prefix : list byte := EVENT_PREFIX.
Definition event_scan_start (timestamp : Timestamp) : list byte := EVENT_PREFIX ++ timestamp_bytes timestamp.
Definition event_scan_end (timestamp : Timestamp) : list byte := event_scan_start timestamp.

Definition actor_scan_prefix (actor : Str) : list byte := ACTOR_PREFIX ++ actor ++ [colon].
Definition encode_actor_index (actor : Str) (timestamp : Timestamp) (event_id : AuditEventId) : list byte :=
  actor_scan_prefix actor ++ timestamp_bytes timestamp ++ event_id.
Definition action_scan_prefix (action : Str) : list byte := ACTION_PREFIX ++ action ++ [colon].
Definition encode_action_index (action : Str) (timestamp : Timestamp) (event_id : AuditEventId) : list byte :=
  action_scan_prefix action ++ timestamp_bytes timestamp ++ event_id.

(** [keys::prefix_end]. *)
Definition audit_prefix_end (prefix : list byte) : list byte := prefix_scan_end prefix.

(** ** Order of the primary keys *)

Lemma length_to_be n z : length (to_be n z) = n.
Proof. unfold to_be. by rewrite length_reverse, length_to_le. Qed.

Lemma to_le_S n z : to_le (S n) z = byte_of z :: to_le n (z / 256).
Proof.
apply (inj (fmap byte_val)). rewrite byte_val_to_le, fmap_cons, byte_val_to_le, byte_val_of.
rewrite Nat2Z.inj_succ, Z_to_little_endian_succ by lia. f_equal; [by rewrite Z.land_ones by lia|].
by rewrite Z.shiftr_div_pow2 by lia.
Qed.

Lemma to_be_S n z : to_be (S n) z = to_be n (z / 256) ++ [byte_of z].
Proof. unfold to_be. by rewrite to_le_S, reverse_cons. Qed.

(** Byte strings compare by their first parts when these have the same length. *)
Lemma lexico_app (a b c d : list byte) : length a = length b → lexico (a ++ c) (b ++ d) ↔ lexico a b ∨ a = b ∧ lexico c d.
Proof.
revert b. induction a as [|x a IH]; intros [|y b] Hlen; simplify_eq/=.
- split; [by right|]. intros [Hn|[_ Hcd]]; [by apply lexico_nil_r in Hn|done].
- rewrite !lexico_cons, IH by done. naive_solver.
Qed.

Lemma lexico_app_l (a c d : list byte) : lexico (a ++ c) (a ++ d) ↔ lexico c d.
Proof.
rewrite lexico_app by done. split; [|by right]. intros [Ha|[_ Hcd]]; [|done]. by eapply irreflexivity in Ha; [|apply _].
Qed.

(** Big-endian bytes order as the numbers do. *)
Lemma to_be_lt n x y : 0 <= x → y < 2 ^ (8 * Z.of_nat n) → x < y → lexico (to_be n x) (to_be n y).
Proof.
revert x y. induction n as [|n IH]; intros x y Hx Hy Hlt; [simpl in Hy; lia|].
rewrite !to_be_S. apply lexico_app; [by rewrite !length_to_be|].
assert (2 ^ (8 * Z.of_nat (S n)) = 256 * 2 ^ (8 * Z.of_nat n)) as Hp.
{ rewrite Nat2Z.inj_succ, Z.mul_succ_r, Z.pow_add_r by lia. change (2 ^ 8) with 256. lia. }
pose proof (Z.div_mod x 256 ltac:(lia)). pose proof (Z.div_mod y 256 ltac:(lia)).
pose proof (Z.mod_pos_bound x 256 ltac:(lia)). pose proof (Z.mod_pos_bound y 256 ltac:(lia)).
destruct (Z_lt_dec (x / 256) (y / 256)) as [Hd|Hd].
- left. apply IH; [apply Z.div_pos; lia|apply Z.div_lt_upper_bound; lia|done].
- right. assert (x / 256 = y / 256) as Hd' by lia. rewrite Hd'. split; [done|]. rewrite lexico_cons. left.
  unfold lexico, byte_lexico. rewrite !byte_val_of. lia.
Qed.

(** Where a primary key stands: its timestamp and sequence number. *)
Definition in_u64 (z : Z) : Prop := 0 <= z < 2 ^ 64.
Definition stamped_before (p q : Timestamp * Z) : Prop := p.1 < q.1 ∨ p.1 = q.1 ∧ p.2 < q.2.

Lemma event_key_before t n i t' n' i' : in_u64 t → in_u64 n → in_u64 t' → in_u64 n' →
  stamped_before (t, n) (t', n') → lexico (encode_event_key t n i) (encode_event_key t' n' i').
Proof.
unfold in_u64, encode_event_key, timestamp_bytes, seq_bytes. intros Ht Hn Ht' Hn' Hlt. apply lexico_app_l.
apply lexico_app; [by rewrite !length_to_be|]. destruct Hlt as [Hlt|[Heq Hlt]]; simpl in *; [left; apply to_be_lt; simpl; lia|right].
subst. split; [done|]. apply lexico_app; [by rewrite !length_to_be|]. left. apply to_be_lt; simpl; lia.
Qed.

Lemma event_prefix_window k : in_window event_scan_prefix (audit_prefix_end event_scan_prefix) k = true ↔ EVENT_PREFIX `prefix_of` k.
Proof.
unfold in_window, audit_prefix_end, event_scan_prefix. rewrite andb_true_iff, negb_true_iff, ord_lt_iff.
rewrite <-not_true_iff_false, ord_lt_iff. apply prefix_window. exists x3a. done.
Qed.

(** The windows cut at a time: below it lie exactly the keys of earlier times. *)
Lemma event_before_time k t n i t' : in_u64 t → in_u64 t' → k = encode_event_key t n i →
  in_window event_scan_prefix (event_scan_end t') k = true ↔ t < t'.
Proof.
unfold in_u64. intros Ht Ht' ->. unfold in_window, event_scan_end, event_scan_start, encode_event_key, event_scan_prefix, timestamp_bytes.
rewrite andb_true_iff, negb_true_iff, ord_lt_iff. rewrite <-not_true_iff_false, ord_lt_iff.
rewrite lexico_app_l. split.
- intros [_ Hlt]. destruct (Z_lt_dec t t') as [|Hge]; [done|exfalso].
  assert (t' = t ∨ t' < t) as [->|Hlt'] by lia.
  + rewrite <-(app_nil_r (to_be 8 t)) in Hlt at 2. apply lexico_app_l in Hlt. by apply lexico_nil_r in Hlt.
  + assert (lexico (to_be 8 t') (to_be 8 t)) as Hba by (apply to_be_lt; simpl; lia).
    rewrite <-(app_nil_r (to_be 8 t')) in Hlt. apply lexico_app in Hlt; [|by rewrite !length_to_be].
    destruct Hlt as [Hlt|[_ Hn]]; [|by apply lexico_nil_r in Hn]. eapply (irreflexivity lexico (to_be 8 t)). by etrans.
- intros Hlt. split.
  + intros Hn. rewrite <-(app_nil_r EVENT_PREFIX) in Hn at 2. apply lexico_app_l in Hn. by apply lexico_nil_r in Hn.
  + rewrite <-(app_nil_r (to_be 8 t')). apply lexico_app; [by rewrite !length_to_be|]. left. apply to_be_lt; simpl; lia.
Qed.
