(* ===== verification/AuditEngine.v ===== *)
(** * Audit log: the engine

[EmbeddedAuditEngine] ([audit/engine.rs]) on the rows of one realm: event records,
the HMAC chain and its signed head, appends, imports, prunes, queries and
verification. The clock's answers, fresh identifiers and keys, and the failures of
the storage layer are arguments of the operations that meet them. *)
From stdpp Require Import base list gmap strings sorting lexico.
From Stdlib Require Import Strings.Byte ZArith Lia.
From S2P Require Import Prelude OrdMap StorageTypes OrdSet RealmRows Crypto RbacTypes KeyEnvelope AuditTypes AuditKeys.

Open Scope Z_scope.

(** ** Hexadecimal *)

Definition hex_digit (n : Z) : byte := byte_of (if n <? 10 then 48 + n else 87 + n).
Definition hex_encode (bytes : list byte) : Str :=
  bytes ≫= λ b, [hex_digit (byte_val b / 16); hex_digit (byte_val b mod 16)].
(** [char::to_digit(16)]. *)
Definition to_digit (c : byte) : option Z :=
  let v := byte_val c in
  if (48 <=? v) && (v <=? 57) then Some (v - 48)
  else if (97 <=? v) && (v <=? 102) then Some (v - 87)
  else if (65 <=? v) && (v <=? 70) then Some (v - 55)
  else None.
Fixpoint hex_decode (s : Str) : option (list byte) :=
  match s with
  | [] => Some []
  | [_] => None
  | h :: l :: s' => hi ← to_digit h; lo ← to_digit l; rest ← hex_decode s'; Some (byte_of (Z.lor (Z.shiftl hi 4) lo) :: rest)
  end.

(** ** Records *)

Definition GENESIS_HASH : Str := Eval compute in lit "genesis".
Definition IMPORT_CHUNK : Z := 512.
Definition PRUNE_BATCH : Z := 10000.

(** An event at rest: 32 raw hash bytes, the metadata as JSON bytes. *)
Record StoredAuditEvent := MkStored {
  sv_id : AuditEventId;
  sv_realm_id : RealmId;
  sv_actor : Str;
  sv_action : AuditAction;
  sv_resource_type : Str;
  sv_resource_id : Str;
  sv_timestamp : Timestamp;
  sv_metadata_json : option (list byte);
  sv_integrity_hash : list byte
}.

Record ChainHead := MkHead { ch_anchor : Str; ch_last_hash : Str; ch_seq : Z; ch_count : Z; ch_mac : Str }.

(** The object that is hashed; an absent metadata is JSON's [null]. *)
Record Hashable := MkHashable {
  h_id : AuditEventId;
  h_realm_id : RealmId;
  h_actor : Str;
  h_action : AuditAction;
  h_resource_type : Str;
  h_resource_id : Str;
  h_timestamp : Timestamp;
  h_metadata : JValue
}.
Definition hashable (e : AuditEvent) : Hashable :=
  MkHashable (ae_id e) (ae_realm_id e) (ae_actor e) (ae_action e) (ae_resource_type e) (ae_resource_id e) (ae_timestamp e)
    (default JNull (ae_metadata e)).

(** The [ring], [sha2], [serde_json] and [postcard] crates. *)
Class AuditHash := {
  hmac_sha256 : list byte → list byte → list byte;
  sha256 : list byte → list byte
}.
Class AuditCodec := {
  json_hashable : Hashable → Str;
  json_value : JValue → list byte;
  parse_value : list byte → option JValue;
  postcard : StoredAuditEvent → list byte;
  parse_postcard : list byte → option StoredAuditEvent;
  json_head : ChainHead → list byte;
  parse_head : list byte → option ChainHead;
  json_retention : AuditRetentionConfig → list byte;
  parse_retention : list byte → option AuditRetentionConfig
}.

Class AuditHashLaws `{!AuditHash} := hmac_length k m : length (hmac_sha256 k m) = 32%nat.
Class AuditCodecLaws `{!AuditCodec} := {
  (** JSON objects are written between braces, and texts are equal only for equal objects. *)
  json_hashable_open h : ∃ t, json_hashable h = x7b :: t;
  json_hashable_close h : last (json_hashable h) = Some x7d;
  json_hashable_inj :: Inj (=) (=) json_hashable;
  parse_json_value v : float_free v = true → parse_value (json_value v) = Some v;
  parse_postcard_of r : length (sv_integrity_hash r) = 32%nat → parse_postcard (postcard r) = Some r;
  parse_json_head h : parse_head (json_head h) = Some h;
  parse_json_retention c : parse_retention (json_retention c) = Some c
}.

Section audit.
Context `{!AuditHash, !AuditCodec, !Aead}.
(** The realm, the key-encryption key, and whether only known realms may be audited. *)
Context (realm : RealmId) (kek : option (list byte)) (known_realms_only realm_stored : bool).
Implicit Type s : Store.

Definition from_event (event : AuditEvent) : ares StoredAuditEvent :=
  hash_bytes ← ok_or AuditSerialization (hex_decode (ae_integrity_hash event));
  if negb (zlen hash_bytes =? 32) then Err AuditSerialization
  else Ok (MkStored (ae_id event) (ae_realm_id event) (ae_actor event) (ae_action event) (ae_resource_type event)
         (ae_resource_id event) (ae_timestamp event) (json_value <$> ae_metadata event) hash_bytes).

Definition into_event (r : StoredAuditEvent) : ares AuditEvent :=
  metadata ← match sv_metadata_json r with
             | None => Ok None
             | Some bytes => v ← ok_or AuditSerialization (parse_value bytes); Ok (Some v)
             end;
  Ok (MkEvent (sv_id r) (sv_realm_id r) (sv_actor r) (sv_action r) (sv_resource_type r) (sv_resource_id r) (sv_timestamp r)
        metadata (hex_encode (sv_integrity_hash r))).

Definition encode_event (event : AuditEvent) : ares (list byte) := record ← from_event event; Ok (postcard record).
Definition decode_event (bytes : list byte) : ares AuditEvent :=
  record ← ok_or AuditSerialization (parse_postcard bytes); into_event record.

(** ** Hashes *)

Definition hash_input (prev_hash : Str) (event : AuditEvent) : list byte := prev_hash ++ json_hashable (hashable event).
Definition compute_hmac_hash (key : list byte) (prev_hash : Str) (event : AuditEvent) : Str :=
  hex_encode (hmac_sha256 key (hash_input prev_hash event)).

Definition head_mac_input (anchor last_hash : Str) (seq count : Z) : Str :=
  anchor ++ [x7c] ++ last_hash ++ [x7c] ++ lit (show seq) ++ [x7c] ++ lit (show count).
Definition compute_head_mac (key : list byte) (anchor last_hash : Str) (seq count : Z) : Str :=
  hex_encode (hmac_sha256 key (head_mac_input anchor last_hash seq count)).
Definition signed_head (key : list byte) (anchor last_hash : Str) (seq count : Z) : ChainHead :=
  MkHead anchor last_hash seq count (compute_head_mac key anchor last_hash seq count).

(** [ct_eq_secret_str] compares digests. *)
Definition integrity_tag_matches (stored expected : Str) : bool := bool_decide (sha256 stored = sha256 expected).

(** [first_broken_link]. *)
Fixpoint first_broken_link_from (i : nat) (events : list AuditEvent) (key : list byte) (prev : Str) : option nat :=
  match events with
  | [] => None
  | event :: events' =>
      if integrity_tag_matches (ae_integrity_hash event) (compute_hmac_hash key prev event)
      then first_broken_link_from (S i) events' key (ae_integrity_hash event)
      else Some i
  end.
Definition first_broken_link (events : list AuditEvent) (key : list byte) (anchor : Str) : option nat :=
  first_broken_link_from 0 events key anchor.

(** ** The chain head *)

Definition load_head s (key : list byte) : ares (option ChainHead) :=
  match s !! chain_head_key with
  | None => Ok None
  | Some bytes =>
      head ← ok_or AuditSerialization (parse_head bytes);
      stored_tag ← ok_or IntegrityViolation (hex_decode (ch_mac head));
      if bool_decide (stored_tag = hmac_sha256 key (head_mac_input (ch_anchor head) (ch_last_hash head) (ch_seq head) (ch_count head)))
      then Ok (Some head) else Err IntegrityViolation
  end.

Definition event_entries s : list ScanEntry := scan event_scan_prefix (audit_prefix_end event_scan_prefix) s.

Definition load_or_init_head s (key : list byte) : ares ChainHead :=
  found ← load_head s key;
  match found with
  | Some head => Ok head
  | None =>
      let entries := event_entries s in
      last_hash ← match last entries with
                  | Some e => event ← decode_event (se_value e); Ok (ae_integrity_hash event)
                  | None => Ok GENESIS_HASH
                  end;
      Ok (signed_head key GENESIS_HASH last_hash (zlen entries) (zlen entries))
  end.

(** ** The engine's state for the realm *)

Record AuditSt := MkAudit {
  au_rows : Store;
  (** The realm's anchor row, in the system realm. *)
  au_anchor : bool;
  (** The chain lock's cached head, and whether the lock exists. *)
  au_cached : option ChainHead;
  au_locked : bool;
  au_key_cache : option (list byte)
}.
Definition set_rows s (st : AuditSt) := MkAudit s (au_anchor st) (au_cached st) (au_locked st) (au_key_cache st).
Definition set_cached c (st : AuditSt) := MkAudit (au_rows st) (au_anchor st) c (au_locked st) (au_key_cache st).
Definition set_locked (st : AuditSt) := MkAudit (au_rows st) (au_anchor st) (au_cached st) true (au_key_cache st).
Definition set_key k (st : AuditSt) := MkAudit (au_rows st) (au_anchor st) (au_cached st) (au_locked st) (Some k).
(** [record_chain_anchor], when the system realm answers. *)
Definition record_chain_anchor (st : AuditSt) := MkAudit (au_rows st) true (au_cached st) (au_locked st) (au_key_cache st).

Definition put_rows (kvs : list (list byte * list byte)) s : Store := foldl (λ s kv, <[kv.1 := kv.2]> s) s kvs.
Definition delete_rows (ks : list (list byte)) s : Store := foldl (λ s k, base.delete k s) s ks.

Definition unwrapped_key (raw : list byte) : ares (list byte) :=
  match unwrap_key_strict raw kek with
  | Ok plaintext => if zlen plaintext =? 32 then Ok plaintext else Err AuditSerialization
  | _ => Err AuditSerialization
  end.

(** The key material a call would draw: a fresh key and an envelope nonce. *)
Record Fresh := MkFresh { fr_key : list byte; fr_nonce : list byte }.

Definition get_realm_hmac_key (fresh : Fresh) (st : AuditSt) : ares (list byte) * AuditSt :=
  match au_key_cache st with
  | Some k => (Ok k, st)
  | None =>
      match au_rows st !! audit_hmac_key with
      | Some raw =>
          match unwrapped_key raw with
          | Ok k => (Ok k, set_key k st)
          | e => (e, st)
          end
      | None =>
          match wrap_key (fr_key fresh) kek (fr_nonce fresh) with
          | Ok wrapped => (Ok (fr_key fresh), set_key (fr_key fresh) (set_rows (<[audit_hmac_key := wrapped]> (au_rows st)) st))
          | _ => (Err AuditSerialization, st)
          end
      end
  end.

Definition peek_realm_hmac_key (st : AuditSt) : ares (option (list byte)) * AuditSt :=
  match au_key_cache st with
  | Some k => (Ok (Some k), st)
  | None =>
      match au_rows st !! audit_hmac_key with
      | None => (Ok None, st)
      | Some raw =>
          match unwrapped_key raw with
          | Ok k => (Ok (Some k), set_key k st)
          | Err e => (Err e, st)
          | Panic => (Panic, st)
          end
      end
  end.

Definition current_head (key : list byte) (st : AuditSt) : ares ChainHead :=
  match au_cached st with
  | Some h => Ok h
  | None => load_or_init_head (au_rows st) key
  end.

(** Unsigned 64-bit addition, with the checks a release build leaves out. *)
Definition u64_add (a b : Z) : Z := (a + b) mod 2 ^ 64.
(** [u64::saturating_sub]. *)
Definition u64_sat_sub (a b : Z) : Z := Z.max 0 (a - b).

(** ** Appending *)

(** The rows of an event: primary, by actor, by action. *)
Definition event_rows (event : AuditEvent) (seq : Z) (value : list byte) : list (list byte * list byte) :=
  let primary_key := encode_event_key (ae_timestamp event) seq (ae_id event) in
  [(primary_key, value);
   (encode_actor_index (ae_actor event) (ae_timestamp event) (ae_id event), primary_key);
   (encode_action_index (as_str (ae_action event)) (ae_timestamp event) (ae_id event), primary_key)].

(** [realm_is_known], for a realm other than the system's. *)
Definition realm_is_known (st : AuditSt) : bool := au_locked st || realm_stored.

(** What one link adds: the hashed event, its rows, and the next head. *)
Definition chain_link (key : list byte) (head : ChainHead) (event : AuditEvent) : ares (AuditEvent * list (list byte * list byte) * ChainHead) :=
  let seq := u64_add (ch_seq head) 1 in
  let hashed := MkEvent (ae_id event) (ae_realm_id event) (ae_actor event) (ae_action event) (ae_resource_type event)
                  (ae_resource_id event) (ae_timestamp event) (ae_metadata event) (compute_hmac_hash key (ch_last_hash head) event) in
  value ← encode_event hashed;
  Ok (hashed, event_rows hashed seq value,
      signed_head key (ch_anchor head) (ae_integrity_hash hashed) seq (u64_add (ch_count head) 1)).

(** [with_pending_append] with [append]'s enqueue closure; [enqueue_ok] is the storage
layer's answer to [enqueue_batch]. *)
Definition with_pending_append (request : CreateAuditEvent) (fresh : Fresh) (id : AuditEventId) (now : Timestamp)
    (enqueue_ok : bool) (st : AuditSt) : ares AuditEvent * AuditSt :=
  if known_realms_only && negb (realm_is_known st) then (Err UnknownRealm, st)
  else
    match get_realm_hmac_key fresh (set_locked st) with
    | (Ok key, st) =>
        match (head ← current_head key st;
               chain_link key head (MkEvent id (ce_realm_id request) (ce_actor request) (ce_action request)
                 (ce_resource_type request) (ce_resource_id request) now (ce_metadata request) [])) with
        | Ok (event, rows, new_head) =>
            if enqueue_ok
            then (Ok event, set_cached (Some new_head) (set_rows (put_rows (rows ++ [(chain_head_key, json_head new_head)]) (au_rows st)) st))
            else (Err AuditStorage, set_cached None st)
        | Err e => (Err e, st)
        | Panic => (Panic, st)
        end
    | (Err e, st) => (Err e, st)
    | (Panic, st) => (Panic, st)
    end.

(** [append]; [durable_ok] is the answer of [await_batch_durable]. *)
Definition append (request : CreateAuditEvent) (fresh : Fresh) (id : AuditEventId) (now : Timestamp)
    (enqueue_ok durable_ok : bool) (st : AuditSt) : ares AuditEvent * AuditSt :=
  match with_pending_append request fresh id now enqueue_ok st with
  | (Ok event, st) => if durable_ok then (Ok event, record_chain_anchor st) else (Err AuditStorage, set_cached None st)
  | r => r
  end.

(** [on_replicated_row] and [on_replicated_snapshot], when the chain lock is free. *)
Definition on_replicated_row (k : list byte) (st : AuditSt) : AuditSt :=
  if bool_decide (k = chain_head_key) && au_locked st then set_cached None st else st.
Definition on_replicated_snapshot (st : AuditSt) : AuditSt := if au_locked st then set_cached None st else st.

(** ** Import *)

Definition RESTORE_MARKER : Str := Eval compute in lit "backup_restore".
Definition restore_marked_metadata (metadata : option JValue) (original_timestamp : Timestamp) : JValue :=
  let marker := JObject [(lit "original_timestamp", JInt original_timestamp)] in
  match metadata with
  | Some (JObject m) => JObject (map_insert RESTORE_MARKER marker m)
  | None | Some JNull => JObject [(RESTORE_MARKER, marker)]
  | Some other => JObject [(RESTORE_MARKER, marker); (lit "original_metadata", other)]
  end.

Definition decode_entries (entries : list ScanEntry) : ares (list AuditEvent) :=
  foldr (λ e acc, event ← decode_event (se_value e); events ← acc; Ok (event :: events)) (Ok []) entries.

Definition held_event_ids s : ares (gset AuditEventId * option Timestamp) :=
  events ← decode_entries (event_entries s);
  Ok (list_to_set (ae_id <$> events), foldl (λ newest e, Some (default (ae_timestamp e) ((λ n, Z.max n (ae_timestamp e)) <$> newest))) None events).

(** An import under way: what its local variables hold between two chunks. *)
Record ImportSt := MkImport {
  im_key : list byte;
  im_known : gset AuditEventId;
  im_restamp : bool;
  im_stamp : Timestamp;
  im_our_seq : option Z;
  im_rest : list AuditEvent;
  im_outcome : AuditImportOutcome
}.

Definition ascending (events : list AuditEvent) : bool :=
  forallb (λ p, ae_timestamp p.1 <=? ae_timestamp p.2) (zip events (tail events)).

(** What [import_events] does before its first chunk. *)
Definition import_start (events : list AuditEvent) (fresh : Fresh) (now : Timestamp) (st : AuditSt) : ares ImportSt * AuditSt :=
  match get_realm_hmac_key fresh st with
  | (Ok key, st) =>
      match held_event_ids (au_rows st) with
      | Ok (known, newest) =>
          (Ok (MkImport key known (negb (ascending events) || negb (forallb (λ e, ae_timestamp e <=? now) events))
                 (match newest with Some n => Z.max n now | None => now end) None events (MkImportOutcome 0 0 false)), set_locked st)
      | Err e => (Err e, st)
      | Panic => (Panic, st)
      end
  | (Err e, st) => (Err e, st)
  | (Panic, st) => (Panic, st)
  end.

(** The loop over one chunk: the batch, the head, what is known, and the counts. *)
Record ChunkSt := MkChunk {
  ck_head : ChainHead; ck_known : gset AuditEventId; ck_batch : list (list byte * list byte); ck_written : Z; ck_duplicates : Z
}.
Definition import_one (key : list byte) (restamp : bool) (stamp : Timestamp) (c : ChunkSt) (source : AuditEvent) : ares ChunkSt :=
  if decide (ae_id source ∈ ck_known c)
  then Ok (MkChunk (ck_head c) (ck_known c) (ck_batch c) (ck_written c) (ck_duplicates c + 1))
  else
    link ← chain_link key (ck_head c)
      (MkEvent (ae_id source) realm (ae_actor source) (ae_action source) (ae_resource_type source) (ae_resource_id source)
         (if restamp then stamp else ae_timestamp source)
         (Some (restore_marked_metadata (ae_metadata source) (ae_timestamp source))) []);
    Ok (MkChunk link.2 ({[ae_id source]} ∪ ck_known c) (ck_batch c ++ link.1.2) (ck_written c + 1) (ck_duplicates c)).
Fixpoint import_chunk_loop (key : list byte) (restamp : bool) (stamp : Timestamp) (c : ChunkSt) (events : list AuditEvent) : ares ChunkSt :=
  match events with
  | [] => Ok c
  | source :: events' => c ← import_one key restamp stamp c source; import_chunk_loop key restamp stamp c events'
  end.

(** One turn of the chunk loop: planned and enqueued under the chain lock, then made
durable. *)
Definition import_chunk (now : Timestamp) (enqueue_ok durable_ok : bool) (im : ImportSt) (st : AuditSt) : ares ImportSt * AuditSt :=
  match current_head (im_key im) st with
  | Ok head =>
      let interleaved := match im_our_seq im with None => 0 <? ch_count head | Some seq => negb (ch_seq head =? seq) end in
      let restamp := interleaved || im_restamp im in
      let stamp := if interleaved then Z.max (im_stamp im) now else im_stamp im in
      let n := Z.to_nat IMPORT_CHUNK in
      match import_chunk_loop (im_key im) restamp stamp (MkChunk head (im_known im) [] 0 (io_duplicates (im_outcome im))) (take n (im_rest im)) with
      | Ok c =>
          let outcome := MkImportOutcome (io_imported (im_outcome im) + ck_written c) (ck_duplicates c) restamp in
          let next our_seq := MkImport (im_key im) (ck_known c) restamp stamp our_seq (drop n (im_rest im)) outcome in
          if ck_written c =? 0 then (Ok (next (im_our_seq im)), st)
          else if negb enqueue_ok then (Err AuditStorage, set_cached None st)
          else
            let st := set_cached (Some (ck_head c)) (set_rows (put_rows (ck_batch c ++ [(chain_head_key, json_head (ck_head c))]) (au_rows st)) st) in
            if durable_ok then (Ok (next (Some (ch_seq (ck_head c)))), record_chain_anchor st)
            else (Err AuditStorage, set_cached None st)
      | Err e => (Err e, st)
      | Panic => (Panic, st)
      end
  | Err e => (Err e, st)
  | Panic => (Panic, st)
  end.

(** [import_events] without interleaved calls: every chunk succeeds, at time [now]. *)
Fixpoint import_chunks (fuel : nat) (now : Timestamp) (im : ImportSt) (st : AuditSt) : ares AuditImportOutcome * AuditSt :=
  match im_rest im, fuel with
  | [], _ | _, O => (Ok (im_outcome im), st)
  | _, S fuel =>
      match import_chunk now true true im st with
      | (Ok im, st) => import_chunks fuel now im st
      | (Err e, st) => (Err e, st)
      | (Panic, st) => (Panic, st)
      end
  end.
Definition import_events (events : list AuditEvent) (fresh : Fresh) (now : Timestamp) (st : AuditSt) : ares AuditImportOutcome * AuditSt :=
  match events with
  | [] => (Ok (MkImportOutcome 0 0 false), st)
  | _ =>
      match import_start events fresh now st with
      | (Ok im, st) => import_chunks (length events) now im st
      | (Err e, st) => (Err e, st)
      | (Panic, st) => (Panic, st)
      end
  end.

(** ** Pruning *)

Definition plan_prune (key : list byte) (head : ChainHead) (entries : list ScanEntry) : ares (ChainHead * list (list byte) * Z) :=
  plan ← foldl (λ acc e,
    p ← acc;
    event ← decode_event (se_value e);
    Ok (ae_integrity_hash event,
        p.1.2 ++ [se_key e; encode_actor_index (ae_actor event) (ae_timestamp event) (ae_id event);
                  encode_action_index (as_str (ae_action event)) (ae_timestamp event) (ae_id event)],
        p.2 + 1)) (Ok (ch_anchor head, [], 0)) entries;
  let '(anchor, delete_keys, deleted) := plan in
  let new_count := u64_sat_sub (ch_count head) deleted in
  let last_hash := if new_count =? 0 then anchor else ch_last_hash head in
  Ok (signed_head key anchor last_hash (ch_seq head) new_count, delete_keys, deleted).

(** One batch of at most [max] events below [end_]; the visitor pushes an entry before
it compares the count with [max]. *)
Definition prune_batch (end_ : list byte) (max : Z) (fresh : Fresh) (write_ok : bool) (st : AuditSt) : ares Z * AuditSt :=
  let st := set_locked st in
  match take (Z.to_nat (Z.max 1 max)) (scan event_scan_prefix end_ (au_rows st)) with
  | [] => (Ok 0, st)
  | entries =>
      match get_realm_hmac_key fresh st with
      | (Ok key, st) =>
          match (head ← current_head key st; plan_prune key head entries) with
          | Ok (new_head, delete_keys, deleted) =>
              if write_ok
              then (Ok deleted, set_cached (Some new_head)
                     (set_rows (delete_rows delete_keys (put_rows [(chain_head_key, json_head new_head)] (au_rows st))) st))
              else (Err AuditStorage, st)
          | Err e => (Err e, st)
          | Panic => (Panic, st)
          end
      | (Err e, st) => (Err e, st)
      | (Panic, st) => (Panic, st)
      end
  end.

(** The loops of [prune_before] and [prune_oldest], every write succeeding. *)
Fixpoint prune_before_loop (fuel : nat) (end_ : list byte) (fresh : Fresh) (deleted : Z) (st : AuditSt) : option (ares Z * AuditSt) :=
  match fuel with
  | O => None
  | S fuel =>
      match prune_batch end_ PRUNE_BATCH fresh true st with
      | (Ok batch, st) =>
          if batch <? PRUNE_BATCH then Some (Ok (deleted + batch), st)
          else prune_before_loop fuel end_ fresh (deleted + batch) st
      | r => Some r
      end
  end.
Fixpoint prune_oldest_loop (fuel : nat) (n : Z) (fresh : Fresh) (deleted : Z) (st : AuditSt) : option (ares Z * AuditSt) :=
  if deleted <? n then
    match fuel with
    | O => None
    | S fuel =>
        let want := Z.min (n - deleted) PRUNE_BATCH in
        match prune_batch (audit_prefix_end event_scan_prefix) want fresh true st with
        | (Ok batch, st) =>
            if batch <? want then Some (Ok (deleted + batch), st) else prune_oldest_loop fuel n fresh (deleted + batch) st
        | r => Some r
        end
    end
  else Some (Ok deleted, st).

(** Each full batch removes rows, so as many turns as there are rows, and one more,
are enough. *)
Definition loop_fuel (st : AuditSt) : nat := S (S (length (event_entries (au_rows st)))).
Definition prune_before (cutoff : Timestamp) (fresh : Fresh) (st : AuditSt) : option (ares Z * AuditSt) :=
  prune_before_loop (loop_fuel st) (event_scan_end cutoff) fresh 0 st.
Definition prune_oldest (n : Z) (fresh : Fresh) (st : AuditSt) : option (ares Z * AuditSt) :=
  prune_oldest_loop (loop_fuel st) n fresh 0 st.

(** [count_prefix] over the event rows. *)
Definition count_events (st : AuditSt) : Z := zlen (event_entries (au_rows st)).

Definition get_retention_config (st : AuditSt) : ares AuditRetentionConfig :=
  match au_rows st !! retention_config_key with
  | Some bytes => ok_or AuditSerialization (parse_retention bytes)
  | None => Ok default_retention
  end.
Definition set_retention_config (config : AuditRetentionConfig) (st : AuditSt) : AuditSt :=
  set_rows (<[retention_config_key := json_retention config]> (au_rows st)) st.

(** ** Queries *)

(** The storage layer refuses a reversed window. *)
Definition checked_scan (start end_ : list byte) s : ares (list ScanEntry) :=
  if ord_lt end_ start then Err AuditStorage else Ok (scan start end_ s).

Definition scan_bounds (start end_ : option Timestamp) : list byte * list byte :=
  (match start with Some ts => event_scan_start ts | None => event_scan_prefix end,
   match end_ with Some ts => event_scan_end ts | None => audit_prefix_end event_scan_prefix end).

Definition metadata_field_is (field : string) (wanted : option Str) (event : AuditEvent) : bool :=
  match wanted with
  | None => true
  | Some t => bool_decide ((m ← ae_metadata event; v ← value_get (lit field) m; value_as_str v) = Some t)
  end.
Definition event_matches_metadata_filters (query : AuditQuery) (event : AuditEvent) : bool :=
  metadata_field_is "agent_id" (aq_agent_id query) event && metadata_field_is "tool" (aq_tool query) event.

Definition at_limit (limit : option nat) (events : list AuditEvent) : bool :=
  match limit with Some n => (n <=? length events)%nat | None => false end.

(** The loop of a query: [keep] is its filter; the limit is tested after each push. *)
Fixpoint query_loop (keep : AuditEvent → bool) (limit : option nat) (fetch : list (option (list byte))) (acc : list AuditEvent) : ares (list AuditEvent) :=
  match fetch with
  | [] => Ok acc
  | None :: fetch' => query_loop keep limit fetch' acc
  | Some value :: fetch' =>
      event ← decode_event value;
      if keep event then
        let acc := acc ++ [event] in
        if at_limit limit acc then Ok acc else query_loop keep limit fetch' acc
      else query_loop keep limit fetch' acc
  end.

Definition in_time_range (query : AuditQuery) (event : AuditEvent) : bool :=
  match aq_start_time query with Some start => start <=? ae_timestamp event | None => true end &&
  match aq_end_time query with Some end_ => ae_timestamp event <? end_ | None => true end.
Definition query_by_index (query : AuditQuery) (prefix : list byte) s : ares (list AuditEvent) :=
  query_loop (in_time_range query) (aq_limit query) ((λ e, s !! se_value e) <$> scan prefix (audit_prefix_end prefix) s) [].
Definition query_by_actor (query : AuditQuery) (actor : Str) s := query_by_index query (actor_scan_prefix actor) s.
Definition query_by_action (query : AuditQuery) (action : AuditAction) s := query_by_index query (action_scan_prefix (as_str action)) s.

Definition run_query (query : AuditQuery) (st : AuditSt) : ares (list AuditEvent) :=
  let s := au_rows st in
  if match aq_start_time query, aq_end_time query with Some a, Some b => b <? a | _, _ => false end then Err InvalidQuery
  else
    match aq_actor query, aq_action query with
    | Some actor, _ => events ← query_by_actor query actor s; Ok (filter (λ e, event_matches_metadata_filters query e = true) events)
    | None, Some action => events ← query_by_action query action s; Ok (filter (λ e, event_matches_metadata_filters query e = true) events)
    | None, None =>
        let '(start, end_) := scan_bounds (aq_start_time query) (aq_end_time query) in
        entries ← checked_scan start end_ s;
        query_loop (event_matches_metadata_filters query) (aq_limit query) (Some <$> (se_value <$> entries)) []
    end.

(** ** Verification *)

(** The walk over the entries; [None] when a link is broken. *)
Fixpoint verify_walk (key : list byte) (prev_hash : Str) (count : Z) (entries : list ScanEntry) : option (Str * Z) :=
  match entries with
  | [] => Some (prev_hash, count)
  | e :: entries' =>
      match decode_event (se_value e) with
      | Ok event =>
          if integrity_tag_matches (ae_integrity_hash event) (compute_hmac_hash key prev_hash event)
          then verify_walk key (ae_integrity_hash event) (u64_add count 1) entries' else None
      | _ => None
      end
  end.

(** Where the walk starts, [None] when the event before the range does not decode. *)
Definition walk_start (start : option Timestamp) (head : option ChainHead) s : option Str :=
  match start with
  | None => Some (match head with Some h => ch_anchor h | None => GENESIS_HASH end)
  | Some ts =>
      match last (scan event_scan_prefix (event_scan_start ts) s) with
      | Some e => match decode_event (se_value e) with Ok event => Some (ae_integrity_hash event) | _ => None end
      | None => Some GENESIS_HASH
      end
  end.

Definition verify_rows (start end_ : option Timestamp) (established : bool) (key : option (list byte)) s : ares bool :=
  let '(scan_start, scan_end) := scan_bounds start end_ in
  entries ← checked_scan scan_start scan_end s;
  match key with
  | None => Ok (bool_decide (entries = []) && negb established)
  | Some key =>
      match load_head s key with
      | Err IntegrityViolation => Ok false
      | Err e => Err e
      | Panic => Panic
      | Ok head =>
          if bool_decide (head = None) && (bool_decide (entries ≠ []) || established) then Ok false
          else
            match (prev ← walk_start start head s; verify_walk key prev 0 entries) with
            | None => Ok false
            | Some (prev_hash, count) =>
                match start, end_, head with
                | None, None, Some head => Ok ((count =? ch_count head) && integrity_tag_matches prev_hash (ch_last_hash head))
                | _, _, _ => Ok true
                end
            end
      end
  end.

Definition verify_integrity (start end_ : option Timestamp) (st : AuditSt) : ares bool * AuditSt :=
  let '(scan_start, scan_end) := scan_bounds start end_ in
  match checked_scan scan_start scan_end (au_rows st) with
  | Ok _ =>
      match peek_realm_hmac_key st with
      | (Ok key, st') => (verify_rows start end_ (au_anchor st) key (au_rows st), st')
      | (Err e, st') => (Err e, st')
      | (Panic, st') => (Panic, st')
      end
  | Err e => (Err e, st)
  | Panic => (Panic, st)
  end.

(** [export_chain_material], the key not encoded. *)
Definition export_chain_material (st : AuditSt) : ares (option (list byte * Str)) * AuditSt :=
  match peek_realm_hmac_key st with
  | (Ok None, st) => (Ok None, st)
  | (Ok (Some key), st) =>
      (head ← load_head (au_rows st) key; Ok (Some (key, match head with Some h => ch_anchor h | None => GENESIS_HASH end)), st)
  | (Err e, st) => (Err e, st)
  | (Panic, st) => (Panic, st)
  end.
End audit.
