(* ===== verification/AuditRows.v ===== *)
(** * Audit log: the chain in the rows

What the rows of a sound audit log hold: a run of events chained by their hashes, in
key order, and a signed head that names both ends of the run. *)
From stdpp Require Import relations.
From stdpp Require Import base list gmap strings sorting lexico.
From Stdlib Require Import Strings.Byte ZArith Lia.
From S2P Require Import Prelude OrdMap StorageTypes OrdSet RealmRows Crypto RbacTypes KeyEnvelope AuditTypes AuditKeys AuditEngine.

Open Scope Z_scope.
Implicit Type s : Store.

(** ** Hexadecimal *)

Lemma hex_digit_back n : 0 <= n < 16 → to_digit (hex_digit n) = Some n.
Proof.
intros Hn. assert (n ∈ seqZ 0 16) as Hin by (apply elem_of_seqZ; lia). clear Hn. revert n Hin.
apply list.Forall_forall. repeat constructor.
Qed.

Lemma hex_decode_encode bs : hex_decode (hex_encode bs) = Some bs.
Proof.
induction bs as [|b bs IH]; [done|]. change (hex_encode (b :: bs)) with ([hex_digit (byte_val b / 16); hex_digit (byte_val b mod 16)] ++ hex_encode bs).
pose proof (byte_val_bound b) as Hb. cbn [app hex_decode].
rewrite !hex_digit_back by (split; [try apply Z.div_pos|try apply Z.div_lt_upper_bound]; try apply Z.mod_pos_bound; lia).
cbn [mbind option_bind]. rewrite IH. cbn [mbind option_bind]. do 2 f_equal.
rewrite <-(byte_of_val b) at 3. f_equal. rewrite Z.shiftl_mul_pow2 by lia. change (2 ^ 4) with 16.
assert (Z.land (byte_val b / 16 * 16) (byte_val b mod 16) = 0) as Hl.
{ apply Z.bits_inj_iff'. intros i Hi. rewrite Z.land_spec, Z.bits_0. change 16 with (2 ^ 4).
  destruct (Z_lt_dec i 4); [rewrite Z.mul_pow2_bits_low by lia; done|]. rewrite (Z.mod_pow2_bits_high _ 4) by lia. apply andb_false_r. }
pose proof (Z.add_lor_land (byte_val b / 16 * 16) (byte_val b mod 16)) as Ha. rewrite Hl in Ha.
pose proof (Z.div_mod (byte_val b) 16 ltac:(lia)). lia.
Qed.

#[export] Instance hex_encode_inj : Inj (=) (=) hex_encode.
Proof. intros a b Heq. apply (inj Some). by rewrite <-!hex_decode_encode, Heq. Qed.

Definition lower_hex (b : byte) : bool := let v := byte_val b in (48 <=? v) && (v <=? 57) || (97 <=? v) && (v <=? 102).

Lemma hex_digit_lower n : 0 <= n < 16 → lower_hex (hex_digit n) = true.
Proof.
intros Hn. assert (n ∈ seqZ 0 16) as Hin by (apply elem_of_seqZ; lia). clear Hn. revert n Hin.
apply list.Forall_forall. repeat constructor.
Qed.

Lemma hex_encode_lower bs : Forall (λ b, lower_hex b = true) (hex_encode bs).
Proof.
induction bs as [|b bs IH]; [constructor|]. change (hex_encode (b :: bs)) with ([hex_digit (byte_val b / 16); hex_digit (byte_val b mod 16)] ++ hex_encode bs).
pose proof (byte_val_bound b) as Hb. repeat constructor; [..|done].
- apply hex_digit_lower. split; [apply Z.div_pos|apply Z.div_lt_upper_bound]; lia.
- apply hex_digit_lower, Z.mod_pos_bound. lia.
Qed.

(** ** The event rows *)

Lemma event_entries_iff s l : event_entries s = l ↔
  StronglySorted key_before l ∧ ∀ e, e ∈ l ↔ s !! se_key e = Some (se_value e) ∧ EVENT_PREFIX `prefix_of` se_key e.
Proof.
unfold event_entries. split.
- intros <-. split; [apply scan_sorted|]. intros e. by rewrite elem_of_scan, event_prefix_window.
- intros [Hs Hin]. apply scan_unique; [done|]. intros e. by rewrite Hin, event_prefix_window.
Qed.

(** A row outside the events' prefix. *)
Lemma event_entries_insert_side k v s : ¬ EVENT_PREFIX `prefix_of` k → event_entries (<[k := v]> s) = event_entries s.
Proof.
intros Hk. destruct (proj1 (event_entries_iff s _) eq_refl) as [Hs Hin]. apply event_entries_iff. split; [done|].
intros e. rewrite Hin. destruct (decide (k = se_key e)) as [->|Hne]; [naive_solver|]. by rewrite lookup_insert_ne.
Qed.

Lemma event_entries_delete_side k s : ¬ EVENT_PREFIX `prefix_of` k → event_entries (base.delete k s) = event_entries s.
Proof.
intros Hk. destruct (proj1 (event_entries_iff s _) eq_refl) as [Hs Hin]. apply event_entries_iff. split; [done|].
intros e. rewrite Hin. destruct (decide (k = se_key e)) as [->|Hne]; [naive_solver|]. by rewrite lookup_delete_ne.
Qed.

Lemma sorted_snoc {A} (R : A → A → Prop) xs y : StronglySorted R xs → (∀ x, x ∈ xs → R x y) → StronglySorted R (xs ++ [y]).
Proof.
intros Hs Hy. induction Hs as [|x xs Hs IH Hf]; simpl; [by repeat constructor|]. constructor; [apply IH; set_solver|].
apply Forall_app. split; [done|]. constructor; [|done]. apply Hy. left.
Qed.

(** An event row after all others. *)
Lemma event_entries_snoc k v s : EVENT_PREFIX `prefix_of` k → (∀ e, e ∈ event_entries s → lexico (se_key e) k) →
  event_entries (<[k := v]> s) = event_entries s ++ [Scan k v].
Proof.
intros Hk Hlast. destruct (proj1 (event_entries_iff s _) eq_refl) as [Hs Hin]. apply event_entries_iff. split; [by apply sorted_snoc|].
intros e. rewrite elem_of_app, list_elem_of_singleton. destruct (decide (k = se_key e)) as [->|Hne].
- rewrite lookup_insert_eq. split.
  + intros [He| ->]; [|by simpl]. exfalso. apply (irreflexivity lexico (se_key e)). by apply Hlast.
  + intros [[= ->] _]. right. by destruct e.
- rewrite lookup_insert_ne, Hin by done. split; [intros [?| ->]; [done|by simpl in Hne]|by left].
Qed.

(** The first event row removed. *)
Lemma event_entries_delete_first e l s : event_entries s = e :: l → event_entries (base.delete (se_key e) s) = l.
Proof.
intros [Hs Hin]%event_entries_iff. apply event_entries_iff. apply StronglySorted_inv in Hs as [Hs Hf].
rewrite list.Forall_forall in Hf. split; [done|]. intros e'. specialize (Hin e'). rewrite elem_of_cons in Hin.
destruct (decide (se_key e = se_key e')) as [Heq|Hne].
- rewrite Heq, lookup_delete_eq. split; [|by intros []]. intros He'. exfalso. apply (irreflexivity lexico (se_key e)).
  rewrite Heq at 2. by apply Hf.
- rewrite lookup_delete_ne by done. rewrite <-Hin. split; [by right|]. intros [->|]; done.
Qed.

(** ** Which keys are which *)

Lemma actor_index_side a t i : ¬ EVENT_PREFIX `prefix_of` encode_actor_index a t i.
Proof. unfold encode_actor_index, actor_scan_prefix. intros [r Hr]. discriminate Hr. Qed.
Lemma action_index_side a t i : ¬ EVENT_PREFIX `prefix_of` encode_action_index a t i.
Proof. unfold encode_action_index, action_scan_prefix. intros [r Hr]. discriminate Hr. Qed.
Lemma head_side : ¬ EVENT_PREFIX `prefix_of` chain_head_key.
Proof. intros [r Hr]. discriminate Hr. Qed.
Lemma hmac_side : ¬ EVENT_PREFIX `prefix_of` audit_hmac_key.
Proof. intros [r Hr]. discriminate Hr. Qed.
Lemma retention_side : ¬ EVENT_PREFIX `prefix_of` retention_config_key.
Proof. intros [r Hr]. discriminate Hr. Qed.
Lemma event_key_prefix t n i : EVENT_PREFIX `prefix_of` encode_event_key t n i.
Proof. unfold encode_event_key. by eexists. Qed.

(** A key that holds neither the head nor the chain key. *)
Definition plain_key (k : list byte) : Prop := k ≠ chain_head_key ∧ k ≠ audit_hmac_key.
Lemma actor_index_plain a t i : plain_key (encode_actor_index a t i).
Proof. unfold encode_actor_index, actor_scan_prefix. split; intros Hr; discriminate Hr. Qed.
Lemma action_index_plain a t i : plain_key (encode_action_index a t i).
Proof. unfold encode_action_index, action_scan_prefix. split; intros Hr; discriminate Hr. Qed.
Lemma event_key_plain t n i : plain_key (encode_event_key t n i).
Proof. split; intros Hr; discriminate Hr. Qed.

Create HintDb audit.
#[export] Hint Resolve actor_index_side action_index_side head_side hmac_side retention_side event_key_prefix
  actor_index_plain action_index_plain event_key_plain : audit.

Section rows.
Context `{!AuditHash, !AuditCodec, !AuditHashLaws, !AuditCodecLaws}.
Implicit Types (key : list byte) (l : list (AuditEvent * Z)).

Lemma forall2_elem_r {A B} (R : A → B → Prop) (xs : list A) (ys : list B) y : Forall2 R xs ys → y ∈ ys → ∃ x, x ∈ xs ∧ R x y.
Proof.
intros Hf [i Hi]%list_elem_of_lookup. destruct (Forall2_lookup_r _ _ _ _ _ Hf Hi) as (x & Hx & Hxy).
exists x. split; [by eapply list_elem_of_lookup_2|done].
Qed.

Lemma forall2_elem_l {A B} (R : A → B → Prop) (xs : list A) (ys : list B) x : Forall2 R xs ys → x ∈ xs → ∃ y, y ∈ ys ∧ R x y.
Proof.
intros Hf [i Hi]%list_elem_of_lookup. destruct (Forall2_lookup_l _ _ _ _ _ Hf Hi) as (y & Hy & Hxy).
exists y. split; [by eapply list_elem_of_lookup_2|done].
Qed.

(** ** Events at rest *)

Lemma encode_decode e tag : ae_integrity_hash e = hex_encode tag → length tag = 32%nat →
  float_free (default JNull (ae_metadata e)) = true → ∃ v, encode_event e = Ok v ∧ decode_event v = Ok e.
Proof.
intros Htag Hlen Hff. unfold encode_event, from_event. rewrite Htag, hex_decode_encode. cbn [ok_or].
rewrite bind_ok. assert (zlen tag =? 32 = true) as -> by (unfold zlen; rewrite Hlen; done). cbn [negb]. rewrite bind_ok.
eexists. split; [done|]. unfold decode_event. rewrite parse_postcard_of by done. cbn [ok_or]. rewrite bind_ok.
unfold into_event. destruct e as [? ? ? ? ? ? ? [m|] ?]; simpl in *; [rewrite parse_json_value by done|]; simpl; by subst.
Qed.

(** ** Chains *)

Fixpoint linked key (prev : Str) (evs : list AuditEvent) : Prop :=
  match evs with
  | [] => True
  | e :: evs' => ae_integrity_hash e = compute_hmac_hash key prev e ∧ linked key (ae_integrity_hash e) evs'
  end.
Definition last_link (prev : Str) (evs : list AuditEvent) : Str := default prev (ae_integrity_hash <$> last evs).

Lemma last_link_cons prev e evs : last_link prev (e :: evs) = last_link (ae_integrity_hash e) evs.
Proof. unfold last_link. destruct evs as [|e' evs]; [done|]. rewrite last_cons_cons. destruct (last (e' :: evs)) eqn:Hl; [done|]. by apply last_None in Hl. Qed.
Lemma last_link_snoc prev evs e : last_link prev (evs ++ [e]) = ae_integrity_hash e.
Proof. unfold last_link. by rewrite last_snoc. Qed.

Lemma linked_app key prev evs1 evs2 : linked key prev (evs1 ++ evs2) ↔ linked key prev evs1 ∧ linked key (last_link prev evs1) evs2.
Proof.
revert prev. induction evs1 as [|e evs1 IH]; intros prev; cbn [app linked]; [by unfold last_link; simpl; naive_solver|].
rewrite IH, last_link_cons. naive_solver.
Qed.

Lemma last_link_app prev evs1 evs2 : last_link prev (evs1 ++ evs2) = last_link (last_link prev evs1) evs2.
Proof.
revert prev. induction evs1 as [|e evs1 IH]; intros prev; cbn [app]; [done|]. by rewrite !last_link_cons, IH.
Qed.

(** Where a logged event stands. *)
Definition stamp_of (p : AuditEvent * Z) : Timestamp * Z := (ae_timestamp p.1, p.2).
Definition logged (p : AuditEvent * Z) (e : ScanEntry) : Prop :=
  se_key e = encode_event_key (ae_timestamp p.1) p.2 (ae_id p.1) ∧ decode_event (se_value e) = Ok p.1.

(** Where a chain starts: the genesis text or an earlier tag. *)
Definition chain_start (a : Str) : Prop := a = GENESIS_HASH ∨ ∃ tag, a = hex_encode tag.

Lemma linked_hex key a evs : linked key a evs → Forall (λ e, ∃ tag, ae_integrity_hash e = hex_encode tag) evs.
Proof. revert a. induction evs as [|e evs IH]; intros a; [constructor|]. intros [He Hl]. constructor; [eexists; exact He|by eapply IH]. Qed.

Lemma last_link_start key a evs : chain_start a → linked key a evs → chain_start (last_link a evs).
Proof.
intros Ha Hl. apply linked_hex in Hl. rewrite list.Forall_forall in Hl. unfold last_link. destruct (last evs) as [e|] eqn:Hlast; [|done].
right. apply Hl. apply last_Some in Hlast as [l' ->]. apply elem_of_app. right. left.
Qed.

(** The rows hold the run [l], chained from [a]; no sequence number exceeds [n] and no
time [hi]. *)
Record chain_events key s l (a : Str) (n : Z) (hi : Timestamp) : Prop := {
  ce_entries : Forall2 logged l (event_entries s);
  ce_links : linked key a l.*1;
  ce_order : StronglySorted stamped_before (stamp_of <$> l);
  ce_bounds : Forall (λ p, 0 <= ae_timestamp p.1 <= hi ∧ 1 <= p.2 <= n) l;
  ce_count : zlen l <= n;
  ce_start : chain_start a
}.

(** The head of such a run. *)
Definition head_at key (a : Str) l (n : Z) : ChainHead := signed_head key a (last_link a l.*1) n (zlen l).

Lemma load_head_at key s a l n : s !! chain_head_key = Some (json_head (head_at key a l n)) →
  load_head s key = Ok (Some (head_at key a l n)).
Proof.
intros Hs. unfold load_head. rewrite Hs, parse_json_head. cbn [ok_or]. rewrite bind_ok. unfold head_at, signed_head, compute_head_mac.
cbn [ch_mac ch_anchor ch_last_hash ch_seq ch_count]. rewrite hex_decode_encode. cbn [ok_or]. rewrite bind_ok. by rewrite bool_decide_true.
Qed.

(** Nothing else changes the run. *)
Lemma chain_events_same key s s' l a n hi : event_entries s' = event_entries s → chain_events key s l a n hi → chain_events key s' l a n hi.
Proof. intros He [? ? ? ? ? ?]. split; [by rewrite He|done..]. Qed.

Lemma chain_events_mono key s l a n n' hi hi' : n <= n' → hi <= hi' → chain_events key s l a n hi → chain_events key s l a n' hi'.
Proof. intros Hn Hhi [? ? ? Hb ? ?]. split; [done|done|done| |lia|done]. eapply list.Forall_impl; [exact Hb|]. simpl. intros p Hp. lia. Qed.

(** ** A link *)

Definition with_hash (e : AuditEvent) (h : Str) : AuditEvent :=
  MkEvent (ae_id e) (ae_realm_id e) (ae_actor e) (ae_action e) (ae_resource_type e) (ae_resource_id e) (ae_timestamp e) (ae_metadata e) h.

Lemma chain_link_ok key a l n e : float_free (default JNull (ae_metadata e)) = true → 0 <= n → n + 1 < 2 ^ 64 → zlen l <= n →
  let h := with_hash e (compute_hmac_hash key (last_link a l.*1) e) in
  ∃ v, chain_link key (head_at key a l n) e = Ok (h, event_rows h (n + 1) v, head_at key a (l ++ [(h, n + 1)]) (n + 1)) ∧
    decode_event v = Ok h.
Proof.
intros Hff Hn Hmax Hc h. destruct (encode_decode h (hmac_sha256 key (hash_input (last_link a l.*1) e))) as (v & Hv & Hd); [done|apply hmac_length|done|].
exists v. split; [|done]. unfold chain_link. cbn [head_at signed_head ch_seq ch_last_hash ch_count ch_anchor].
fold (with_hash e (compute_hmac_hash key (last_link a l.*1) e)). fold h. rewrite Hv, bind_ok. unfold u64_add.
pose proof (zlen_nonneg l). rewrite !Z.mod_small by lia. unfold head_at. rewrite fmap_app. cbn [fmap list_fmap fst].
rewrite last_link_snoc, zlen_app. done.
Qed.

(** The rows of the new event extend the run. *)
Lemma chain_events_snoc key s l a n hi e v : chain_events key s l a n hi → decode_event v = Ok e →
  ae_integrity_hash e = compute_hmac_hash key (last_link a l.*1) e →
  Forall (λ p, ae_timestamp p.1 <= ae_timestamp e) l → 0 <= ae_timestamp e <= hi → hi < 2 ^ 64 → 0 <= n → n + 1 < 2 ^ 64 →
  chain_events key (put_rows (event_rows e (n + 1) v) s) (l ++ [(e, n + 1)]) a (n + 1) hi.
Proof.
intros [He Hl Ho Hb Hc Hst] Hd Hh Hts Hte Hhi Hn Hmax.
assert (event_entries (put_rows (event_rows e (n + 1) v) s) =
  event_entries s ++ [Scan (encode_event_key (ae_timestamp e) (n + 1) (ae_id e)) v]) as Hent.
{ unfold put_rows, event_rows. cbn [foldl fst snd]. rewrite !event_entries_insert_side by auto with audit.
  apply event_entries_snoc; [auto with audit|]. intros x Hx. destruct (forall2_elem_r _ _ _ _ He Hx) as (p & Hp & Hk & _).
  rewrite Hk. rewrite list.Forall_forall in Hts, Hb. pose proof (Hts p Hp). pose proof (Hb p Hp).
  apply event_key_before; unfold in_u64; [lia..|]. unfold stamped_before. simpl. lia. }
split.
- rewrite Hent. apply Forall2_app; [done|]. repeat constructor. done.
- rewrite fmap_app. apply linked_app. split; [done|]. split; [done|exact I].
- rewrite fmap_app. apply sorted_snoc; [done|]. intros x (p & -> & Hp)%list_elem_of_fmap. rewrite list.Forall_forall in Hts, Hb.
  pose proof (Hts p Hp). pose proof (Hb p Hp). unfold stamped_before, stamp_of. simpl. lia.
- apply Forall_app. split; [eapply list.Forall_impl; [exact Hb|]; simpl; intros; lia|]. repeat constructor; simpl; lia.
- rewrite zlen_app. change (zlen [(e, n + 1)]) with 1. lia.
- done.
Qed.
End rows.
