(* ===== verification/AuditSound.v ===== *)
(** * Audit log: verification of what the engine writes

Under every sequence of appends, acknowledgements, imports, prunes, replication
callbacks and restarts, with a clock that does not go back, the log verifies. *)
From stdpp Require Import relations.
From stdpp Require Import base list gmap strings sorting lexico.
From Stdlib Require Import Strings.Byte ZArith Lia.
From S2P Require Import Prelude OrdMap StorageTypes OrdSet RealmRows Crypto RbacTypes KeyEnvelope AuditTypes AuditKeys AuditEngine AuditRows.

Open Scope Z_scope.
Implicit Type s : Store.

Section sound.
Context `{!AuditHash, !AuditCodec, !AuditHashLaws, !AuditCodecLaws}.
Implicit Types (key : list byte) (l : list (AuditEvent * Z)).

(** ** Verification of a run *)

Lemma verify_walk_run key a l entries c : Forall2 logged l entries → linked key a l.*1 → 0 <= c → c + zlen l < 2 ^ 64 →
  verify_walk key a c entries = Some (last_link a l.*1, c + zlen l).
Proof.
intros Hf. revert a c. induction Hf as [|p e l entries [Hk Hd] Hf IH]; intros a c Hl Hc Hmax; cbn [verify_walk].
- unfold last_link, zlen. simpl. by rewrite Z.add_0_r.
- rewrite Hd. cbn [fmap list_fmap linked] in Hl. destruct Hl as [Hh Hl]. rewrite <-Hh. unfold integrity_tag_matches.
  rewrite bool_decide_true by done. rewrite zlen_cons in *. pose proof (zlen_nonneg l).
  unfold u64_add. rewrite Z.mod_small by lia. rewrite IH by (done || lia). cbn [fmap list_fmap]. rewrite last_link_cons. do 2 f_equal. lia.
Qed.

(** The head row, or none before the first event. *)
Definition head_row key s (a : Str) l (n : Z) : Prop :=
  s !! chain_head_key = Some (json_head (head_at key a l n)) ∨
  s !! chain_head_key = None ∧ l = [] ∧ a = GENESIS_HASH ∧ n = 0.

Lemma checked_scan_events s : checked_scan event_scan_prefix (audit_prefix_end event_scan_prefix) s = Ok (event_entries s).
Proof. done. Qed.

Lemma verify_rows_run key s l a n hi established : chain_events key s l a n hi → head_row key s a l n → n < 2 ^ 64 →
  (established = true → s !! chain_head_key ≠ None) → verify_rows None None established (Some key) s = Ok true.
Proof.
intros [He Hl Ho Hb Hc _] Hh Hn Hest. unfold verify_rows. cbn [scan_bounds]. rewrite checked_scan_events, bind_ok.
destruct Hh as [Hh|(Hh & -> & -> & ->)].
- rewrite (load_head_at _ _ _ _ _ Hh). rewrite bool_decide_false by done. cbn [andb walk_start mbind option_bind head_at signed_head ch_anchor].
  rewrite (verify_walk_run key a l) by (done || lia). cbn [ch_count ch_last_hash]. rewrite Z.eqb_refl. unfold integrity_tag_matches.
  by rewrite bool_decide_true.
- apply Forall2_nil_inv_l in He. rewrite He. unfold load_head. rewrite Hh. rewrite (bool_decide_true (@None ChainHead = None)) by done.
  rewrite (bool_decide_false ([] ≠ [])) by (intros Hne; by apply Hne). destruct established; [|done]. by specialize (Hest eq_refl).
Qed.

(** ** Pruning the oldest events of a run *)

Definition keys_of (p : AuditEvent * Z) : list (list byte) :=
  [encode_event_key (ae_timestamp p.1) p.2 (ae_id p.1); encode_actor_index (ae_actor p.1) (ae_timestamp p.1) (ae_id p.1);
   encode_action_index (as_str (ae_action p.1)) (ae_timestamp p.1) (ae_id p.1)].

Lemma plan_prune_run key a l1 l2 n entries : Forall2 logged l1 entries →
  plan_prune key (head_at key a (l1 ++ l2) n) entries =
  Ok (head_at key (last_link a l1.*1) l2 n, l1 ≫= keys_of, zlen l1).
Proof.
intros Hf. unfold plan_prune.
assert (∀ anchor ks c, foldl (λ acc e,
    p ← acc;
    event ← decode_event (se_value e);
    Ok (ae_integrity_hash event,
        p.1.2 ++ [se_key e; encode_actor_index (ae_actor event) (ae_timestamp event) (ae_id event);
                  encode_action_index (as_str (ae_action event)) (ae_timestamp event) (ae_id event)],
        p.2 + 1)) (Ok (anchor, ks, c)) entries = (Ok (last_link anchor l1.*1, ks ++ (l1 ≫= keys_of), c + zlen l1) : ares _)) as Hfold.
{ induction Hf as [|p e l1 entries [Hk Hd] Hf IH]; intros anchor ks c; cbn [foldl].
  - unfold last_link, zlen. simpl. by rewrite app_nil_r, Z.add_0_r.
  - rewrite bind_ok, Hd, bind_ok, IH. cbn [fst snd fmap list_fmap mbind list_bind]. rewrite last_link_cons, Hk, zlen_cons. f_equal. f_equal; [|lia].
    f_equal. by rewrite <-app_assoc. }
rewrite Hfold, bind_ok. cbn [app head_at signed_head ch_count ch_last_hash ch_seq].
assert (u64_sat_sub (zlen (l1 ++ l2)) (0 + zlen l1) = zlen l2) as ->.
{ unfold u64_sat_sub. rewrite zlen_app. pose proof (zlen_nonneg l2). lia. }
unfold head_at. rewrite Z.add_0_l. do 4 f_equal. destruct l2 as [|p l2].
- by rewrite app_nil_r.
- rewrite zlen_cons. pose proof (zlen_nonneg l2). rewrite (proj2 (Z.eqb_neq _ _)) by lia. by rewrite fmap_app, last_link_app.
Qed.

Lemma delete_rows_app ks1 ks2 s : delete_rows (ks1 ++ ks2) s = delete_rows ks2 (delete_rows ks1 s).
Proof. unfold delete_rows. by rewrite foldl_app. Qed.

Lemma delete_run l1 entries rest s : Forall2 logged l1 entries → event_entries s = entries ++ rest →
  event_entries (delete_rows (l1 ≫= keys_of) s) = rest.
Proof.
intros Hf. revert s. induction Hf as [|p e l1 entries [Hk Hd] Hf IH]; intros s Hs; [done|].
cbn [mbind list_bind]. rewrite delete_rows_app. apply IH. unfold delete_rows, keys_of. cbn [foldl].
rewrite !event_entries_delete_side by auto with audit. rewrite <-Hk. by apply (event_entries_delete_first e).
Qed.

Lemma delete_run_side l1 s k : k = chain_head_key ∨ k = audit_hmac_key → delete_rows (l1 ≫= keys_of) s !! k = s !! k.
Proof.
intros Hk. revert s. induction l1 as [|p l1 IH]; intros s; [done|]. cbn [mbind list_bind]. rewrite delete_rows_app, IH.
unfold delete_rows, keys_of. cbn [foldl].
rewrite !lookup_delete_ne; [done|..]; destruct Hk as [->| ->]; by (apply event_key_plain || apply actor_index_plain || apply action_index_plain).
Qed.

Lemma prune_run key s a l1 l2 n hi entries rest hd : chain_events key s (l1 ++ l2) a n hi → Forall2 logged l1 entries →
  event_entries s = entries ++ rest →
  chain_events key (delete_rows (l1 ≫= keys_of) (<[chain_head_key := hd]> s)) l2 (last_link a l1.*1) n hi.
Proof.
intros [He Hl Ho Hb Hc Hst] Hf Hs. rewrite Hs in He.
assert (Forall2 logged l2 rest) as Hrest.
{ apply Forall2_app_inv in He as [_ Hr]; [done|]. by eapply Forall2_length. }
split.
- rewrite (delete_run l1 entries rest); [done..|]. by rewrite event_entries_insert_side by auto with audit.
- rewrite fmap_app in Hl. by apply linked_app in Hl as [_ Hl].
- rewrite fmap_app in Ho. by apply StronglySorted_app_1_r in Ho.
- by apply Forall_app in Hb as [_ Hb].
- rewrite zlen_app in Hc. pose proof (zlen_nonneg l1). lia.
- rewrite fmap_app in Hl. apply linked_app in Hl as [Hl _]. by eapply last_link_start.
Qed.

(** A window that ends at or below the events' end is a first part of the run. *)
Lemma window_first end_ s : lexico end_ (audit_prefix_end event_scan_prefix) ∨ end_ = audit_prefix_end event_scan_prefix →
  ∃ rest, event_entries s = scan event_scan_prefix end_ s ++ rest.
Proof.
intros Hend. exists (filter (λ e, ord_lt (se_key e) end_ = false) (event_entries s)).
assert (∀ e, e ∈ scan event_scan_prefix end_ s ↔ e ∈ event_entries s ∧ lexico (se_key e) end_) as Hin.
{ intros e. unfold event_entries. rewrite !elem_of_scan. unfold in_window. rewrite !andb_true_iff, !ord_lt_iff.
  split; [|naive_solver]. intros (Hs & Hp & Hlt). split_and!; [done..| |done]. destruct Hend as [Hend| ->]; [by etrans|done]. }
apply sorted_ext; [apply scan_sorted| |].
- pose proof (scan_sorted event_scan_prefix (audit_prefix_end event_scan_prefix) s) as Hs. fold (event_entries s) in Hs.
  pose proof (scan_sorted event_scan_prefix end_ s) as Hw. set (w := scan event_scan_prefix end_ s) in *. clearbody w.
  assert (∀ e e', e ∈ w → e' ∈ filter (λ e, ord_lt (se_key e) end_ = false) (event_entries s) → key_before e e') as Hx.
  { intros e e' [_ He]%Hin [He' _]%list_elem_of_filter. apply ord_lt_false in He' as [<-|He']; [done|]. unfold key_before. by etrans. }
  assert (StronglySorted key_before (filter (λ e, ord_lt (se_key e) end_ = false) (event_entries s))) as Hr.
  { clear -Hs. induction Hs as [|e es Hs IH Hf]; [constructor|]. rewrite filter_cons. case_decide; [|done]. constructor; [done|].
    apply list.Forall_forall. intros e' [_ He']%list_elem_of_filter. rewrite list.Forall_forall in Hf. by apply Hf. }
  clear -Hw Hr Hx. induction Hw as [|e w Hw IH Hf]; [done|]. simpl. constructor; [apply IH; intros; apply Hx; [by right|done]|].
  apply Forall_app. split; [done|]. apply list.Forall_forall. intros e' He'. apply Hx; [left|done].
- intros e. rewrite elem_of_app, Hin, list_elem_of_filter. destruct (ord_lt (se_key e) end_) eqn:Hlt.
  + apply ord_lt_iff in Hlt. naive_solver.
  + split; [naive_solver|]. intros [[_ Hl]|[_ ?]]; [|done]. apply ord_lt_iff in Hl. congruence.
Qed.

Lemma scan_end_below t : lexico (event_scan_end t) (audit_prefix_end event_scan_prefix).
Proof.
assert (EVENT_PREFIX `prefix_of` event_scan_end t) as Hp by (unfold event_scan_end, event_scan_start; by eexists).
apply event_prefix_window in Hp. unfold in_window in Hp. by apply andb_true_iff in Hp as [_ Hp%ord_lt_iff].
Qed.
End sound.
