(* ===== verification/AuditRun.v ===== *)
(** * Audit log: runs of the engine

Sequences of calls on one realm's log. An append is two steps, the enqueue under the
chain lock and the answer of the storage layer, so that appends overlap as they do
under group commit; an import is one step per chunk. A crash loses the last enqueued
batches and the engine's memory: it is a restart after a shorter sequence. *)
From stdpp Require Import relations.
From stdpp Require Import base list gmap strings sorting lexico.
From Stdlib Require Import Strings.Byte ZArith Lia.
From S2P Require Import Prelude OrdMap StorageTypes OrdSet RealmRows Crypto RbacTypes KeyEnvelope AuditTypes AuditKeys AuditEngine AuditRows AuditSound.

Open Scope Z_scope.
Implicit Type s : Store.

Inductive Ev :=
| EvAppend (request : CreateAuditEvent) (fresh : Fresh) (id : AuditEventId) (now : Timestamp) (enqueue_ok : bool)
| EvDone (durable_ok : bool)
| EvImport (events : list AuditEvent) (fresh : Fresh) (now : Timestamp)
| EvChunk (now : Timestamp) (enqueue_ok durable_ok : bool)
| EvPrune (cutoff : option Timestamp) (max : Z) (fresh : Fresh) (write_ok : bool)
| EvRetention (config : AuditRetentionConfig)
| EvReplicated (k : list byte)
| EvSnapshot
| EvRestart.

(** The engine, the appends not yet answered, and the import under way. *)
Record Sys := MkSys { sy_st : AuditSt; sy_pending : nat; sy_import : option ImportSt }.
Definition fresh_realm : Sys := MkSys (MkAudit ∅ false None false None) 0 None.

Section run.
Context `{!AuditHash, !AuditCodec, !Aead}.
Context (realm : RealmId) (kek : option (list byte)) (known_realms_only realm_stored : bool).

Definition prune_end (cutoff : option Timestamp) : list byte :=
  match cutoff with Some t => event_scan_end t | None => audit_prefix_end event_scan_prefix end.

Definition run_ev (ev : Ev) (sy : Sys) : Sys :=
  let st := sy_st sy in
  match ev with
  | EvAppend request fresh id now ok =>
      let '(r, st') := with_pending_append kek known_realms_only realm_stored request fresh id now ok st in
      MkSys st' (match r with Ok _ => S (sy_pending sy) | _ => sy_pending sy end) (sy_import sy)
  | EvDone ok =>
      match sy_pending sy with
      | S n => MkSys (if ok then record_chain_anchor st else set_cached None st) n (sy_import sy)
      | O => sy
      end
  | EvImport events fresh now =>
      match sy_import sy, events with
      | None, _ :: _ =>
          let '(r, st') := import_start kek events fresh now st in
          MkSys st' (sy_pending sy) (match r with Ok im => Some im | _ => None end)
      | _, _ => sy
      end
  | EvChunk now enq dur =>
      match sy_import sy with
      | Some im =>
          match im_rest im with
          | [] => MkSys st (sy_pending sy) None
          | _ =>
              let '(r, st') := import_chunk realm now enq dur im st in
              MkSys st' (sy_pending sy) (match r with Ok im => Some im | _ => None end)
          end
      | None => sy
      end
  | EvPrune cutoff max fresh ok => MkSys (prune_batch kek (prune_end cutoff) max fresh ok st).2 (sy_pending sy) (sy_import sy)
  | EvRetention config => MkSys (set_retention_config config st) (sy_pending sy) (sy_import sy)
  | EvReplicated k => MkSys (on_replicated_row k st) (sy_pending sy) (sy_import sy)
  | EvSnapshot => MkSys (on_replicated_snapshot st) (sy_pending sy) (sy_import sy)
  | EvRestart => MkSys (MkAudit (au_rows st) (au_anchor st) None false None) 0 None
  end.
Definition run_evs (evs : list Ev) (sy : Sys) : Sys := foldl (λ sy ev, run_ev ev sy) sy evs.

(** ** What the callers provide *)

(** Fresh keys are 32 bytes, envelope nonces 12; without a key-encryption key a key
must not look like an envelope. *)
Definition fresh_ok (f : Fresh) : Prop :=
  length (fr_key f) = 32%nat ∧ zlen (fr_nonce f) = ENVELOPE_NONCE_LEN ∧ (kek = None → is_enveloped (fr_key f) = false).
Definition metadata_ok (m : option JValue) : Prop := float_free (default JNull m) = true.
Definition source_ok (e : AuditEvent) : Prop := metadata_ok (ae_metadata e) ∧ 0 <= ae_timestamp e < 2 ^ 63.
Definition ev_ok (ev : Ev) : Prop :=
  match ev with
  | EvAppend request fresh _ _ _ => fresh_ok fresh ∧ metadata_ok (ce_metadata request)
  | EvImport events fresh _ => fresh_ok fresh ∧ Forall source_ok events
  | EvPrune _ _ fresh _ => fresh_ok fresh
  | _ => True
  end.

(** The clock's answers, and the sequence numbers a step may take. *)
Definition ev_time (ev : Ev) : option Timestamp :=
  match ev with EvAppend _ _ _ now _ | EvImport _ _ now | EvChunk now _ _ => Some now | _ => None end.
Definition ev_cost (ev : Ev) : Z := match ev with EvAppend _ _ _ _ _ => 1 | EvChunk _ _ _ => IMPORT_CHUNK | _ => 0 end.

(** The clock does not go back, stays within 63 bits, and the sequence numbers do not
run out. *)
Fixpoint clocked (from used : Z) (evs : list Ev) : Prop :=
  match evs with
  | [] => True
  | ev :: evs' =>
      ev_ok ev ∧ used + ev_cost ev < 2 ^ 64 ∧
      match ev_time ev with
      | Some now => from <= now < 2 ^ 63 ∧ clocked now (used + ev_cost ev) evs'
      | None => clocked from (used + ev_cost ev) evs'
      end
  end.

(** ** The invariant *)

Definition key_row (key : list byte) s : Prop := ∃ raw, s !! audit_hmac_key = Some raw ∧ unwrapped_key kek raw = Ok key.

Record run_ok (key : list byte) (l : list (AuditEvent * Z)) (a : Str) (n hi : Z) (st : AuditSt) : Prop := {
  ro_events : chain_events key (au_rows st) l a n hi;
  ro_head : head_row key (au_rows st) a l n;
  ro_cached : au_cached st = None ∨ au_cached st = Some (head_at key a l n);
  ro_anchor : au_anchor st = true → au_rows st !! chain_head_key ≠ None;
  ro_key : key_row key (au_rows st) ∧ (au_key_cache st = None ∨ au_key_cache st = Some key) ∨
           au_rows st !! audit_hmac_key = None ∧ au_key_cache st = None ∧ au_rows st !! chain_head_key = None ∧ au_cached st = None
}.

(** The times an import will use leave the order of the run intact. *)
Definition import_ok (key : list byte) (l : list (AuditEvent * Z)) (n clk : Z) (im : ImportSt) : Prop :=
  im_key im = key ∧ 0 <= im_stamp im <= clk ∧ Forall source_ok (im_rest im) ∧
  (im_restamp im = false → StronglySorted Z.le (ae_timestamp <$> im_rest im) ∧ Forall (λ e, ae_timestamp e <= clk) (im_rest im)) ∧
  match im_our_seq im with
  | None => True
  | Some q => q <= n ∧
      (q = n → Forall (λ p, if im_restamp im then ae_timestamp p.1 <= im_stamp im
                            else Forall (λ e, ae_timestamp p.1 <= ae_timestamp e) (im_rest im)) l)
  end.

Definition sys_ok (clk used : Z) (sy : Sys) : Prop :=
  0 <= clk < 2 ^ 63 ∧
  ∃ key l a n, run_ok key l a n clk (sy_st sy) ∧ n <= used < 2 ^ 64 ∧
    (sy_pending sy ≠ O → au_rows (sy_st sy) !! chain_head_key ≠ None) ∧
    match sy_import sy with None => True | Some im => key_row key (au_rows (sy_st sy)) ∧ import_ok key l n clk im end.

(** ** The chain key *)

Context `{!AuditHashLaws, !AuditCodecLaws, !AeadLaws}.
Implicit Types (key : list byte) (l : list (AuditEvent * Z)) (st : AuditSt).

Definition keyed key l (a : Str) (n hi : Z) st : Prop :=
  run_ok key l a n hi st ∧ key_row key (au_rows st) ∧ au_key_cache st = Some key.

Lemma wrapped_key_reads (f : Fresh) : fresh_ok f → ∃ w, wrap_key (fr_key f) kek (fr_nonce f) = Ok w ∧ unwrapped_key kek w = Ok (fr_key f).
Proof.
intros (Hk & Hn & Hraw). assert (zlen (fr_key f) = 32) as Hz by (unfold zlen; lia).
unfold unwrapped_key, unwrap_key_strict. destruct kek as [k|]; cbn [wrap_key].
- destruct (seal_total k (fr_nonce f) [] (fr_key f)) as [c Hc]; [rewrite Hz; done|]. rewrite Hc. cbn [ok_or]. rewrite bind_ok.
  eexists. split; [done|]. rewrite is_enveloped_magic, andb_false_r. rewrite (unwrap_enveloped k _ _ _ Hn Hc). by rewrite Hz.
- eexists. split; [done|]. rewrite bool_decide_false by (by intros []). cbn [andb]. unfold unwrap_key. rewrite Hraw by done. cbn [negb].
  by rewrite Hz.
Qed.

Lemma chain_events_nil key key' s a n hi : chain_events key s [] a n hi → chain_events key' s [] a n hi.
Proof. intros [? ? ? ? ? ?]. by split. Qed.

Lemma get_key_ok key l a n hi st f : run_ok key l a n hi st → fresh_ok f →
  ∃ key' st', get_realm_hmac_key kek f st = (Ok key', st') ∧ keyed key' l a n hi st' ∧ (key_row key (au_rows st) → key' = key) ∧
    au_rows st' !! chain_head_key = au_rows st !! chain_head_key ∧ event_entries (au_rows st') = event_entries (au_rows st) ∧
    au_locked st' = au_locked st ∧ au_anchor st' = au_anchor st.
Proof.
intros Hr Hf. unfold get_realm_hmac_key. pose proof Hr as [He Hh Hc Ha [[Hk Hkc]|(Hnone & Hkc & Hhead & Hcn)]].
- assert (keyed key l a n hi (set_key key st)) as Hkd.
  { split_and!; [|done..]. split; [done..|]. left. split; [done|by right]. }
  destruct Hkc as [Hkc|Hkc]; rewrite Hkc.
  + destruct Hk as (raw & Hraw & Hun). rewrite Hraw, Hun. exists key, (set_key key st). by split_and!.
  + exists key, st. unfold keyed. split_and!; done.
- rewrite Hkc, Hnone. destruct (wrapped_key_reads f Hf) as (w & Hw & Hun). rewrite Hw.
  eexists _, _. split; [done|]. destruct Hh as [Hh|(_ & -> & -> & ->)]; [congruence|].
  assert (au_rows st !! chain_head_key = (<[audit_hmac_key := w]> (au_rows st)) !! chain_head_key) as Hhk by (by rewrite lookup_insert_ne).
  assert (event_entries (<[audit_hmac_key := w]> (au_rows st)) = event_entries (au_rows st)) as Hent
    by (by rewrite event_entries_insert_side by auto with audit).
  assert (key_row (fr_key f) (<[audit_hmac_key := w]> (au_rows st))) as Hkr by (exists w; by rewrite lookup_insert_eq).
  split_and!; [split_and!| |..]; simpl; try done.
  + split; simpl.
    * eapply chain_events_same; [exact Hent|]. by eapply chain_events_nil.
    * right. by rewrite <-Hhk.
    * by left.
    * by rewrite <-Hhk.
    * left. split; [done|by right].
  + intros (raw & Hraw & _). congruence.
Qed.

(** ** Appends *)

Lemma current_head_ok key l a n hi st : run_ok key l a n hi st → current_head key st = Ok (head_at key a l n).
Proof.
intros [He Hh Hc _ _]. unfold current_head. destruct Hc as [Hc|Hc]; rewrite Hc; [|done]. unfold load_or_init_head.
destruct Hh as [Hh|(Hh & -> & -> & ->)]; [by rewrite (load_head_at _ _ _ _ _ Hh), bind_ok|].
unfold load_head. rewrite Hh, bind_ok. destruct He as [He _ _ _ _ _]. apply Forall2_nil_inv_l in He. by rewrite He.
Qed.

(** The state after a batch that extends the run and rewrites the head. *)
Lemma extended_ok key l a n hi st kvs l' n' hi' :
  keyed key l a n hi st → chain_events key (put_rows kvs (au_rows st)) l' a n' hi' →
  put_rows kvs (au_rows st) !! audit_hmac_key = au_rows st !! audit_hmac_key →
  keyed key l' a n' hi' (set_cached (Some (head_at key a l' n'))
    (set_rows (put_rows (kvs ++ [(chain_head_key, json_head (head_at key a l' n'))]) (au_rows st)) st)).
Proof.
intros ([He Hh Hc Ha Hk] & (raw & Hraw & Hun) & Hkc) He' Hkey.
assert (put_rows (kvs ++ [(chain_head_key, json_head (head_at key a l' n'))]) (au_rows st) =
  <[chain_head_key := json_head (head_at key a l' n')]> (put_rows kvs (au_rows st))) as Hput by (unfold put_rows; by rewrite foldl_app).
rewrite Hput. assert (key_row key (<[chain_head_key := json_head (head_at key a l' n')]> (put_rows kvs (au_rows st)))) as Hkr.
{ exists raw. by rewrite lookup_insert_ne, Hkey. }
split_and!; [|done..]. split; simpl.
- eapply chain_events_same; [|exact He']. by rewrite event_entries_insert_side by auto with audit.
- left. by rewrite lookup_insert_eq.
- by right.
- intros _. by rewrite lookup_insert_eq.
- left. split; [done|by right].
Qed.

Lemma event_rows_hmac e n v s : put_rows (event_rows e n v) s !! audit_hmac_key = s !! audit_hmac_key.
Proof.
unfold put_rows, event_rows. cbn [foldl fst snd].
rewrite !lookup_insert_ne; [done|..]; by (apply event_key_plain || apply actor_index_plain || apply action_index_plain).
Qed.

Lemma bounds_le key s l a n hi t : chain_events key s l a n hi → hi <= t → Forall (λ p, ae_timestamp p.1 <= t) l.
Proof. intros [_ _ _ Hb _ _] Ht. eapply list.Forall_impl; [exact Hb|]. simpl. intros. lia. Qed.

Lemma set_locked_ok key l a n hi st : run_ok key l a n hi st → run_ok key l a n hi (set_locked st).
Proof. by intros [? ? ? ? ?]. Qed.
Lemma uncached_ok key l a n hi st : run_ok key l a n hi st → run_ok key l a n hi (set_cached None st).
Proof. intros [? ? ? ? Hk]. split; [done..|by left|done|]. destruct Hk as [?|(?&?&?&?)]; [by left|by right]. Qed.
Lemma run_ok_mono key l a n hi hi' st : hi <= hi' → run_ok key l a n hi st → run_ok key l a n hi' st.
Proof. intros Hle [? ? ? ? ?]. split; [eapply chain_events_mono; [| |done]; lia|done..]. Qed.

Lemma pending_ok key l a n hi st request f id now ok : run_ok key l a n hi st → fresh_ok f → metadata_ok (ce_metadata request) →
  0 <= hi → hi <= now < 2 ^ 63 → n + 1 < 2 ^ 64 →
  let '(r, st') := with_pending_append kek known_realms_only realm_stored request f id now ok st in
  ∃ key' l' n', run_ok key' l' a n' now st' ∧ n <= n' <= n + 1 ∧ (key_row key (au_rows st) → key' = key ∧ key_row key (au_rows st')) ∧
    (n' = n → l' = l) ∧ (au_rows st !! chain_head_key ≠ None → au_rows st' !! chain_head_key ≠ None) ∧
    (∀ e, r = Ok e → au_rows st' !! chain_head_key ≠ None ∧ n' = n + 1 ∧ l' = l ++ [(e, n + 1)]).
Proof.
intros Hr Hf Hm Hhi Hnow Hn. unfold with_pending_append. destruct (known_realms_only && negb (realm_is_known realm_stored st)).
{ exists key, l, n. split_and!; try done; try lia. eapply run_ok_mono; [|done]; lia. }
destruct (get_key_ok key l a n hi (set_locked st) f) as (key' & st1 & Hget & Hkd & Hsame & Hhead & _ & _ & _); [by apply set_locked_ok|done|].
rewrite Hget. pose proof Hkd as (Hr1 & Hk1 & Hc1). rewrite (current_head_ok _ _ _ _ _ _ Hr1), bind_ok.
set (e := MkEvent id _ _ _ _ _ _ _ _). pose proof Hr1 as [He1 _ _ _ _]. pose proof (ce_count _ _ _ _ _ _ He1). pose proof (zlen_nonneg l).
destruct (chain_link_ok key' a l n e) as (v & Hv & Hd); [done|lia..|]. rewrite Hv. set (h := with_hash e _) in *.
assert (∀ st', run_ok key' l a n now st' → au_rows st' = au_rows st1 → ∃ key'' l' n', run_ok key'' l' a n' now st' ∧ n <= n' <= n + 1 ∧
  (key_row key (au_rows st) → key'' = key ∧ key_row key (au_rows st')) ∧ (n' = n → l' = l) ∧
  (au_rows st !! chain_head_key ≠ None → au_rows st' !! chain_head_key ≠ None) ∧
  (∀ e, @Err AuditError AuditEvent AuditStorage = Ok e → au_rows st' !! chain_head_key ≠ None ∧ n' = n + 1 ∧ l' = l ++ [(e, n + 1)])) as Hfail.
{ intros st' Hr' Hrows. exists key', l, n. rewrite Hrows, Hhead. split_and!; try done; try lia. intros Hkr. rewrite <-(Hsame Hkr). done. }
destruct ok; [|apply Hfail; [(apply uncached_ok; eapply run_ok_mono; [|done]; lia)|done]].
assert (chain_events key' (put_rows (event_rows h (n + 1) v) (au_rows st1)) (l ++ [(h, n + 1)]) a (n + 1) now) as Hce.
{ apply chain_events_snoc; [(eapply chain_events_mono; [| |done]; lia)|done|done| |simpl; lia..].
  by eapply bounds_le; [|exact (proj1 Hnow)]. }
pose proof (extended_ok _ _ _ _ _ _ _ _ _ _ Hkd Hce (event_rows_hmac _ _ _ _)) as (Hr2 & Hk2 & _).
assert (au_rows (set_cached (Some (head_at key' a (l ++ [(h, n + 1)]) (n + 1))) (set_rows (put_rows (event_rows h (n + 1) v ++
  [(chain_head_key, json_head (head_at key' a (l ++ [(h, n + 1)]) (n + 1)))]) (au_rows st1)) st1)) !! chain_head_key ≠ None) as Hpres.
{ unfold put_rows. rewrite foldl_app. cbn. by rewrite lookup_insert_eq. }
exists key', (l ++ [(h, n + 1)]), (n + 1). split_and!; try done; try lia.
- intros Hkr. by rewrite <-(Hsame Hkr).
- by intros e' [= <-].
Qed.

(** ** Prunes *)

Lemma prune_end_low cutoff : lexico (prune_end cutoff) (audit_prefix_end event_scan_prefix) ∨ prune_end cutoff = audit_prefix_end event_scan_prefix.
Proof. destruct cutoff; [left; apply scan_end_below|by right]. Qed.

Lemma prune_ok key l a n hi st cutoff max f ok : run_ok key l a n hi st → fresh_ok f →
  let '(r, st') := prune_batch kek (prune_end cutoff) max f ok st in
  ∃ key' l0 l' a', l = l0 ++ l' ∧ run_ok key' l' a' n hi st' ∧ (key_row key (au_rows st) → key' = key ∧ key_row key (au_rows st')) ∧
    (au_rows st !! chain_head_key ≠ None → au_rows st' !! chain_head_key ≠ None) ∧
    (ok = true → r = Ok (zlen l0) ∧ Forall2 logged l0 (take (Z.to_nat (Z.max 1 max)) (scan event_scan_prefix (prune_end cutoff) (au_rows st)))).
Proof.
intros Hr Hf. unfold prune_batch. cbv zeta. change (au_rows (set_locked st)) with (au_rows st).
destruct (window_first (prune_end cutoff) (au_rows st) (prune_end_low cutoff)) as [rest Hw].
set (w := scan event_scan_prefix (prune_end cutoff) (au_rows st)) in *. set (m := Z.to_nat (Z.max 1 max)).
assert (run_ok key l a n hi (set_locked st)) as Hr' by (by apply set_locked_ok).
destruct (take m w) as [|e0 es] eqn:Htake.
{ exists key, [], l, a. by split_and!. }
rewrite <-Htake in *. clear e0 es Htake.
assert (event_entries (au_rows st) = take m w ++ (drop m w ++ rest)) as Hsplit by (by rewrite app_assoc, take_drop).
destruct (get_key_ok key l a n hi (set_locked st) f Hr' Hf) as (key' & st1 & Hget & Hkd & Hsame & Hhead & Hent & _ & _).
rewrite Hget. pose proof Hkd as (Hr1 & Hk1 & Hc1). rewrite (current_head_ok _ _ _ _ _ _ Hr1), bind_ok.
pose proof Hr1 as [He1 _ _ Ha1 _]. change (au_rows (set_locked st)) with (au_rows st) in *.
pose proof (ce_entries _ _ _ _ _ _ He1) as Hlog. rewrite Hent, Hsplit in Hlog.
apply Forall2_app_inv_r in Hlog as (l0 & l' & Hl0 & Hl' & ->). rewrite (plan_prune_run key' a l0 l' n _ Hl0).
assert (key_row key (au_rows st) → key' = key ∧ key_row key (au_rows st1)) as Hkk by (intros Hkr; by rewrite <-(Hsame Hkr)).
destruct ok; [|exists key', [], (l0 ++ l'), a; rewrite Hhead; by split_and!].
assert (chain_events key' (delete_rows (l0 ≫= keys_of) (put_rows [(chain_head_key, json_head (head_at key' (last_link a l0.*1) l' n))] (au_rows st1)))
  l' (last_link a l0.*1) n hi) as Hce by (eapply prune_run; [done|exact Hl0|by rewrite Hent, Hsplit]).
exists key', l0, l', (last_link a l0.*1). split_and!; [done|..| |done].
- split; simpl.
  + done.
  + left. rewrite delete_run_side by (by left). unfold put_rows. simpl. by rewrite lookup_insert_eq.
  + by right.
  + intros _. rewrite delete_run_side by (by left). unfold put_rows. simpl. by rewrite lookup_insert_eq.
  + left. split; [|by right]. destruct Hk1 as (raw & Hraw & Hun). exists raw. rewrite delete_run_side by (by right).
    unfold put_rows. simpl. by rewrite lookup_insert_ne.
- intros Hkr. destruct (Hkk Hkr) as [-> (raw & Hraw & Hun)]. split; [done|]. exists raw. simpl. rewrite delete_run_side by (by right).
  unfold put_rows. simpl. by rewrite lookup_insert_ne.
- intros _. simpl. rewrite delete_run_side by (by left). unfold put_rows. simpl. by rewrite lookup_insert_eq.
Qed.

(** ** Imports *)

Lemma ascending_sorted (evs : list AuditEvent) : ascending evs = true → StronglySorted Z.le (ae_timestamp <$> evs).
Proof.
intros Ha. apply Sorted_StronglySorted; [intros x y z; lia|]. induction evs as [|e evs IH]; [constructor|].
destruct evs as [|e' evs]; [repeat constructor|]. unfold ascending in *. simpl in *. apply andb_true_iff in Ha as [Hle Ha].
constructor; [by apply IH|]. constructor. by apply Z.leb_le.
Qed.

Lemma entries_decode l entries : Forall2 logged l entries → decode_entries entries = Ok l.*1.
Proof. induction 1 as [|p e l entries [_ Hd] _ IH]; simpl; [done|]. by rewrite Hd, bind_ok, IH. Qed.

Lemma newest_le (evs : list AuditEvent) clk o : Forall (λ e, ae_timestamp e <= clk) evs → (∀ x, o = Some x → x <= clk) →
  ∀ x, foldl (λ newest e, Some (default (ae_timestamp e) ((λ n, Z.max n (ae_timestamp e)) <$> newest))) o evs = Some x → x <= clk.
Proof.
intros Hf. revert o. induction Hf as [|e evs He Hf IH]; intros o Ho x; simpl; [apply Ho|]. apply IH. intros y [= <-].
destruct o as [z|]; simpl; [specialize (Ho z eq_refl); lia|done].
Qed.

Lemma import_start_ok key l a n hi st events f now : run_ok key l a n hi st → fresh_ok f → Forall source_ok events → 0 <= hi → hi <= now < 2 ^ 63 →
  ∃ key' im st', import_start kek events f now st = (Ok im, st') ∧ run_ok key' l a n hi st' ∧ key_row key' (au_rows st') ∧
    import_ok key' l n now im ∧ im_rest im = events ∧ (au_rows st !! chain_head_key ≠ None → au_rows st' !! chain_head_key ≠ None).
Proof.
intros Hr Hf Hsrc Hhi Hnow. destruct (get_key_ok key l a n hi st f Hr Hf) as (key' & st1 & Hget & (Hr1 & Hk1 & Hc1) & _ & Hhead & Hent & _ & _).
unfold import_start. rewrite Hget. pose proof Hr1 as [He1 _ _ _ _]. unfold held_event_ids.
rewrite (entries_decode l) by apply He1. rewrite bind_ok. eexists key', _, _. split; [done|].
split_and!; [by apply set_locked_ok|done| |done|by simpl; rewrite Hhead]. split_and!; simpl; try done.
- destruct (foldl _ None l.*1); lia.
- destruct (foldl _ None l.*1) as [x|] eqn:Hx; [|lia]. apply (newest_le _ hi) in Hx; [lia| |done].
  apply list.Forall_forall. intros e (p & -> & Hp)%list_elem_of_fmap. pose proof (ce_bounds _ _ _ _ _ _ He1) as Hb.
  rewrite list.Forall_forall in Hb. specialize (Hb p Hp). lia.
- intros [Has Hpast]%orb_false_iff. apply negb_false_iff in Has, Hpast. split; [by apply ascending_sorted|].
  apply list.Forall_forall. intros e He. rewrite forallb_forall in Hpast. apply Z.leb_le, Hpast. by apply list_elem_of_In.
Qed.

Lemma map_insert_float_free k v m : float_free v = true → forallb (λ p, float_free p.2) m = true → forallb (λ p, float_free p.2) (map_insert k v m) = true.
Proof.
intros Hv. induction m as [|[k' v'] m IH]; simpl; [by rewrite Hv|]. intros [Hv' Hm]%andb_true_iff.
destruct (ord_cmp k k'); simpl; rewrite ?Hv, ?Hv'; simpl; [done|done|by apply IH].
Qed.

Lemma restored_float_free m t : metadata_ok m → float_free (restore_marked_metadata m t) = true.
Proof.
unfold metadata_ok. destruct m as [[]|]; simpl; intros Hm; try done; [by rewrite Hm|by apply map_insert_float_free].
Qed.

(** The times of the events still to come fit after those of the run. *)
Definition times_fit (restamp : bool) (stamp hi : Timestamp) l (evs : list AuditEvent) : Prop :=
  if restamp then 0 <= stamp <= hi ∧ Forall (λ p, ae_timestamp p.1 <= stamp) l
  else StronglySorted Z.le (ae_timestamp <$> evs) ∧ Forall (λ e, ae_timestamp e <= hi) evs ∧
       Forall (λ p, Forall (λ e, ae_timestamp p.1 <= ae_timestamp e) evs) l.

Lemma times_fit_tail restamp stamp hi l e evs : times_fit restamp stamp hi l (e :: evs) → times_fit restamp stamp hi l evs.
Proof.
destruct restamp; [done|]. intros (Hs & Hb & Hl). split_and!; [by apply StronglySorted_inv in Hs as [Hs _]|by apply Forall_cons in Hb as [_ Hb]|].
eapply list.Forall_impl; [exact Hl|]. by intros p [_ Hp]%Forall_cons.
Qed.

Lemma times_fit_snoc restamp stamp hi l e evs h n : times_fit restamp stamp hi l (e :: evs) →
  ae_timestamp h = (if restamp then stamp else ae_timestamp e) → times_fit restamp stamp hi (l ++ [(h, n)]) evs.
Proof.
intros Hf Hh. pose proof (times_fit_tail _ _ _ _ _ _ Hf) as Ht. destruct restamp.
- destruct Ht as [? ?]. split; [done|]. apply Forall_app. split; [done|]. repeat constructor. simpl. lia.
- destruct Ht as (? & ? & ?). split_and!; [done..|]. apply Forall_app. split; [done|]. repeat constructor. simpl. rewrite Hh.
  destruct Hf as (Hs & _). apply StronglySorted_inv in Hs as [_ Hs]. change (Forall (Z.le (ae_timestamp e)) (ae_timestamp <$> evs)) in Hs. rewrite Forall_fmap in Hs. exact Hs.
Qed.

Lemma import_loop_ok key a restamp stamp s hi evs : hi < 2 ^ 63 → ∀ c l n,
  chain_events key (put_rows (ck_batch c) s) l a n hi → ck_head c = head_at key a l n →
  put_rows (ck_batch c) s !! audit_hmac_key = s !! audit_hmac_key →
  Forall source_ok evs → n + zlen evs < 2 ^ 64 → times_fit restamp stamp hi l evs →
  ∃ c' l' n', import_chunk_loop realm key restamp stamp c evs = Ok c' ∧ chain_events key (put_rows (ck_batch c') s) l' a n' hi ∧
    ck_head c' = head_at key a l' n' ∧ put_rows (ck_batch c') s !! audit_hmac_key = s !! audit_hmac_key ∧
    ck_written c' = ck_written c + (n' - n) ∧ n <= n' <= n + zlen evs ∧ (n' = n → l' = l ∧ ck_batch c' = ck_batch c) ∧
    Forall (λ p, p ∈ l ∨ if restamp then ae_timestamp p.1 = stamp else ∃ e, e ∈ evs ∧ ae_timestamp p.1 = ae_timestamp e) l'.
Proof.
intros Hhi. induction evs as [|e evs IH]; intros c l n Hce Hh Hk Hsrc Hn Ht.
{ exists c, l, n. split_and!; try done; try (unfold zlen; simpl; lia). apply list.Forall_forall. by left. }
apply Forall_cons in Hsrc as [[Hm Hts] Hsrc]. rewrite zlen_cons in Hn. pose proof (zlen_nonneg evs). pose proof (ce_count _ _ _ _ _ _ Hce).
pose proof (zlen_nonneg l). cbn [import_chunk_loop]. unfold import_one. case_decide as Hdup.
{ rewrite bind_ok. destruct (IH (MkChunk (ck_head c) (ck_known c) (ck_batch c) (ck_written c) (ck_duplicates c + 1)) l n)
    as (c' & l' & n' & Hloop & Hce' & Hh' & Hk' & Hw' & Hn' & Hsame & Hin); try done; [lia|by eapply times_fit_tail|].
  exists c', l', n'. rewrite zlen_cons. split_and!; try done; try lia. eapply list.Forall_impl; [exact Hin|]. intros p [?|Hp]; [by left|right].
  destruct restamp; [done|]. destruct Hp as (x & ? & ?). exists x. split; [by right|done]. }
set (ev := MkEvent _ _ _ _ _ _ _ _ _). destruct (chain_link_ok key a l n ev) as (v & Hv & Hd); [by apply restored_float_free|lia..|].
rewrite Hh, Hv, bind_ok, bind_ok. cbn [fst snd]. set (h := with_hash ev _) in *.
assert (ae_timestamp h = if restamp then stamp else ae_timestamp e) as Hstamp by done.
assert (chain_events key (put_rows (ck_batch c ++ event_rows h (n + 1) v) s) (l ++ [(h, n + 1)]) a (n + 1) hi) as Hce1.
{ unfold put_rows. rewrite foldl_app. apply chain_events_snoc; [done..| | |lia|lia|lia].
  - rewrite Hstamp. destruct restamp; [apply Ht|]. destruct Ht as (_ & _ & Hl). eapply list.Forall_impl; [exact Hl|]. by intros p [Hp _]%Forall_cons.
  - rewrite Hstamp. destruct restamp; [apply Ht|]. destruct Ht as (_ & Hb & _). apply Forall_cons in Hb as [Hb _]. lia. }
destruct (IH (MkChunk (head_at key a (l ++ [(h, n + 1)]) (n + 1)) ({[ae_id e]} ∪ ck_known c) (ck_batch c ++ event_rows h (n + 1) v)
  (ck_written c + 1) (ck_duplicates c)) (l ++ [(h, n + 1)]) (n + 1)) as (c' & l' & n' & Hloop & Hce' & Hh' & Hk' & Hw' & Hn' & Hsame & Hin);
  try done; [|lia|by eapply times_fit_snoc|].
{ unfold put_rows. cbn [ck_batch]. rewrite foldl_app. etrans; [apply event_rows_hmac|done]. }
exists c', l', n'. rewrite zlen_cons. cbn [ck_written] in Hw'. split_and!; try done; try lia.
eapply list.Forall_impl; [exact Hin|]. intros p [[?| ->%list_elem_of_singleton]%elem_of_app|Hp]; [by left|right|right].
- destruct restamp; [done|]. exists e. split; [left|done].
- destruct restamp; [done|]. destruct Hp as (x & ? & ?). exists x. split; [by right|done].
Qed.

Lemma zlen_take {A} k (xs : list A) : 0 <= k → zlen (take (Z.to_nat k) xs) <= k.
Proof. intros Hk. unfold zlen. rewrite length_take. lia. Qed.

(** The times of a chunk, once the import has compared the head with its own. *)
Lemma chunk_times key l a n clk st im now head : run_ok key l a n clk st → import_ok key l n clk im → 0 <= clk <= now →
  head = head_at key a l n →
  let interleaved := match im_our_seq im with None => 0 <? ch_count head | Some seq => negb (ch_seq head =? seq) end in
  times_fit (interleaved || im_restamp im) (if interleaved then Z.max (im_stamp im) now else im_stamp im) now l (im_rest im).
Proof.
intros [He _ _ _ _] (_ & Hst & _ & Hasc & Hseq) Hclk -> interleaved. unfold interleaved. clear interleaved.
cbn [head_at signed_head ch_count ch_seq]. destruct (match im_our_seq im with None => 0 <? zlen l | Some seq => negb (n =? seq) end) eqn:Hint.
- cbn [orb]. split; [lia|]. eapply bounds_le; [exact He|]. lia.
- cbn [orb]. assert (Forall (λ p, if im_restamp im then ae_timestamp p.1 <= im_stamp im
    else Forall (λ e, ae_timestamp p.1 <= ae_timestamp e) (im_rest im)) l) as Hl.
  { destruct (im_our_seq im) as [q|].
    - apply negb_false_iff, Z.eqb_eq in Hint. by apply Hseq.
    - apply Z.ltb_ge in Hint. destruct l as [|p l]; [constructor|]. rewrite zlen_cons in Hint. pose proof (zlen_nonneg l). lia. }
  unfold times_fit. destruct (im_restamp im); [split; [lia|done]|]. destruct (Hasc eq_refl) as [Hs Hb]. split_and!; [done| |done].
  eapply list.Forall_impl; [exact Hb|]. simpl. intros. lia.
Qed.

Lemma times_fit_app restamp stamp hi l evs1 evs2 : times_fit restamp stamp hi l (evs1 ++ evs2) → times_fit restamp stamp hi l evs1.
Proof.
destruct restamp; [done|]. intros (Hs & Hb & Hl). rewrite fmap_app in Hs. split_and!.
- by apply StronglySorted_app_1_l in Hs.
- by apply Forall_app in Hb as [Hb _].
- eapply list.Forall_impl; [exact Hl|]. by intros p [Hp _]%Forall_app.
Qed.

Lemma sorted_across (xs ys : list Z) x y : StronglySorted Z.le (xs ++ ys) → x ∈ xs → y ∈ ys → x <= y.
Proof.
induction xs as [|z xs IH]; intros Hs Hx Hy; [by apply elem_of_nil in Hx|]. simpl in Hs. apply StronglySorted_inv in Hs as [Hs Hf].
apply elem_of_cons in Hx as [->|Hx]; [|by apply IH]. rewrite list.Forall_forall in Hf. apply Hf. apply elem_of_app. by right.
Qed.

Lemma import_chunk_ok key l a n clk st im now enq dur : run_ok key l a n clk st → key_row key (au_rows st) → import_ok key l n clk im →
  0 <= clk → clk <= now < 2 ^ 63 → n + IMPORT_CHUNK < 2 ^ 64 →
  let '(r, st') := import_chunk realm now enq dur im st in
  ∃ l' n', run_ok key l' a n' now st' ∧ key_row key (au_rows st') ∧ n <= n' <= n + IMPORT_CHUNK ∧
    (au_rows st !! chain_head_key ≠ None → au_rows st' !! chain_head_key ≠ None) ∧
    match r with Ok im' => import_ok key l' n' now im' | _ => True end.
Proof.
intros Hr Hkr Him Hclk Hnow Hmax. unfold import_chunk. pose proof Him as (Hikey & Hst & Hsrc & Hasc & Hseq). rewrite Hikey.
assert (run_ok key l a n now st) as Hr' by (eapply run_ok_mono; [|done]; lia).
rewrite (current_head_ok _ _ _ _ _ _ Hr). pose proof (chunk_times key l a n clk st im now _ Hr Him ltac:(lia) eq_refl) as Ht. cbv zeta in *.
set (interleaved := match im_our_seq im with None => 0 <? ch_count (head_at key a l n) | Some seq => negb (ch_seq (head_at key a l n) =? seq) end) in *. set (restamp := interleaved || im_restamp im) in *.
set (stamp := if interleaved then _ else _) in *. set (m := Z.to_nat IMPORT_CHUNK). rewrite <-(take_drop m (im_rest im)) in Ht, Hsrc.
apply Forall_app in Hsrc as [Hsrc1 Hsrc2]. assert (zlen (take m (im_rest im)) <= IMPORT_CHUNK) as Hlen by (by apply zlen_take).
destruct (import_loop_ok key a restamp stamp (au_rows st) now (take m (im_rest im)) ltac:(lia)
  (MkChunk (head_at key a l n) (im_known im) [] 0 (io_duplicates (im_outcome im))) l n) as (c & l' & n' & Hloop & Hce & Hh & Hk & Hw & Hn & Hsame & Hin);
  try done; [apply Hr'|lia|by eapply times_fit_app|]. rewrite Hloop. cbn [ck_written] in Hw.
assert (import_ok key l' n' now (MkImport key (ck_known c) restamp stamp (if ck_written c =? 0 then im_our_seq im else Some n')
  (drop m (im_rest im)) (MkImportOutcome (io_imported (im_outcome im) + ck_written c) (ck_duplicates c) restamp))) as Him'.
{ split_and!; simpl; try done.
  - unfold stamp. destruct interleaved; lia.
  - unfold stamp. destruct interleaved; lia.
  - unfold restamp in Ht |- *. intros Hre. rewrite Hre in Ht. destruct Ht as (Hs & Hb & _). rewrite fmap_app in Hs. split; [by apply StronglySorted_app_1_r in Hs|].
    by apply Forall_app in Hb as [_ Hb].
  - assert (Forall (λ p, if restamp then ae_timestamp p.1 <= stamp else Forall (λ e, ae_timestamp p.1 <= ae_timestamp e) (drop m (im_rest im))) l') as Hfit.
    { apply list.Forall_forall. intros p Hp. rewrite list.Forall_forall in Hin. specialize (Hin p Hp). destruct restamp.
      - destruct Ht as [_ Hl]. rewrite list.Forall_forall in Hl. destruct Hin as [Hp'|Hp']; [by apply Hl|lia].
      - destruct Ht as (Hs & _ & Hl). rewrite list.Forall_forall in Hl. destruct Hin as [Hp'|(x & Hx & Hp')].
        + by specialize (Hl p Hp') as [_ Hl]%Forall_app.
        + rewrite Hp'. apply list.Forall_forall. intros y Hy. rewrite fmap_app in Hs. eapply sorted_across; [exact Hs|by apply list_elem_of_fmap_2..]. }
    destruct (ck_written c =? 0) eqn:Hz; [|split; [lia|by intros _]]. apply Z.eqb_eq in Hz. assert (n' = n) as Hnn by lia.
    destruct (im_our_seq im) as [q|]; [|done]. destruct Hseq as [Hq _]. split; [lia|by intros _]. }
destruct (ck_written c =? 0) eqn:Hz.
{ apply Z.eqb_eq in Hz. destruct Hsame as [-> _]; [lia|]. assert (n' = n) as -> by lia. exists l, n. split_and!; try done; lia. }
assert (∀ st', run_ok key l a n now st' → au_rows st' = au_rows st → ∃ l' n', run_ok key l' a n' now st' ∧ key_row key (au_rows st') ∧
  n <= n' <= n + IMPORT_CHUNK ∧ (au_rows st !! chain_head_key ≠ None → au_rows st' !! chain_head_key ≠ None) ∧ True) as Hfail.
{ intros st' Hr'' Hrows. exists l, n. rewrite Hrows. split_and!; try done; unfold IMPORT_CHUNK; lia. }
destruct enq; cbn [negb]; [|apply Hfail; [by apply uncached_ok|done]].
assert (run_ok key l' a n' now (set_cached (Some (ck_head c)) (set_rows (put_rows (ck_batch c ++ [(chain_head_key, json_head (ck_head c))]) (au_rows st)) st)) ∧
  key_row key (put_rows (ck_batch c ++ [(chain_head_key, json_head (ck_head c))]) (au_rows st))) as [Hrn Hkn].
{ rewrite Hh. destruct (extended_ok key l a n now (set_key key st) (ck_batch c) l' n' now) as (Hrx & Hkx & _); [|done..|].
  - split_and!; [|done..]. destruct Hr' as [? ? ? ? ?]. split; [done..|]. left. split; [done|by right].
  - split; [|done]. destruct Hrx as [? ? ? ? _]. split; [done..|]. left. split; [done|].
    destruct Hr' as [_ _ _ _ [[_ Hc]|(Hnone & _)]]; [done|]. destruct Hkr as (raw & ? & _). congruence. }
assert (put_rows (ck_batch c ++ [(chain_head_key, json_head (ck_head c))]) (au_rows st) !! chain_head_key ≠ None) as Hpres.
{ unfold put_rows. rewrite foldl_app. cbn. by rewrite lookup_insert_eq. }
destruct dur.
- exists l', n'. split_and!; try done; try lia; [by destruct Hrn as [? ? ? ? ?]|]. rewrite Hh. exact Him'.
- exists l', n'. split_and!; try done; try lia. by apply uncached_ok.
Qed.

(** ** Every step *)

Lemma import_ok_mono key l l' n n' clk clk' im : import_ok key l n clk im → clk <= clk' → n <= n' → (n' = n → ∀ p, p ∈ l' → p ∈ l) →
  import_ok key l' n' clk' im.
Proof.
intros (? & ? & ? & Hasc & Hseq) Hclk Hn Hl. split_and!; try done; try lia.
- intros Hre. destruct (Hasc Hre) as [? Hb]. split; [done|]. eapply list.Forall_impl; [exact Hb|]. simpl. intros. lia.
- destruct (im_our_seq im) as [q|]; [|done]. destruct Hseq as [Hq Hf]. split; [lia|]. intros ->. assert (n' = n) as -> by lia.
  specialize (Hf eq_refl). rewrite list.Forall_forall in Hf |- *. intros p Hp. apply Hf. by apply Hl.
Qed.

Definition time_after (clk : Z) (ev : Ev) : Z := match ev_time ev with Some now => now | None => clk end.

Lemma step_ok clk used sy ev : sys_ok clk used sy → ev_ok ev → used + ev_cost ev < 2 ^ 64 → clk <= time_after clk ev < 2 ^ 63 →
  sys_ok (time_after clk ev) (used + ev_cost ev) (run_ev ev sy).
Proof.
intros [Hclk (key & l & a & n & Hr & Hn & Hp & Him)] Hev Hcost Htime. split; [lia|]. destruct sy as [st pend imp]. cbn [sy_st sy_pending sy_import] in *.
pose proof (zlen_nonneg l). pose proof (ce_count _ _ _ _ _ _ (ro_events _ _ _ _ _ _ Hr)).
destruct ev as [req f id now ok|ok|events f now|now enq dur|cutoff max f ok|config|k| |]; unfold time_after in *; cbn [ev_time ev_cost] in *.
- destruct Hev as [Hf Hm]. cbn [run_ev]. pose proof (pending_ok key l a n clk st req f id now ok Hr Hf Hm ltac:(lia) Htime ltac:(lia)) as Hpost.
  cbn [sy_st]. destruct (with_pending_append _ _ _ _ _ _ _ _ _) as [r st']. destruct Hpost as (key' & l' & n' & Hr' & Hn' & Hk' & Hl' & Hh' & Hres).
  exists key', l', a, n'. cbn [sy_st sy_pending sy_import]. split_and!; [done|lia|lia| |].
  + destruct r as [e|e|]; [intros _; by destruct (Hres e)|by intros ?; apply Hh', Hp..].
  + destruct imp as [im|]; [|done]. destruct Him as [Hkr Him]. destruct (Hk' Hkr) as [-> Hkr']. split; [done|].
    eapply import_ok_mono; [done|lia|lia|]. intros Heq. by rewrite (Hl' Heq).
- cbn [run_ev sy_pending]. destruct pend as [|pend]; [exists key, l, a, n; cbn; split_and!; try done; lia|]. cbn [sy_st].
  exists key, l, a, n. cbn [sy_st sy_pending sy_import]. split_and!; try lia.
  + destruct ok; [|by apply uncached_ok]. destruct Hr as [? ? ? ? Hk]. split; try done. intros _. by apply Hp.
  + intros _. destruct ok; by apply Hp.
  + by destruct ok.
- cbn [run_ev sy_import]. destruct Hev as [Hf Hsrc]. assert (sys_ok now (used + 0) (MkSys st pend imp)) as [_ Hsame].
  { split; [lia|]. exists key, l, a, n. cbn. split_and!; try done; try lia; [eapply run_ok_mono; [|done]; lia|].
    destruct imp as [im|]; [|done]. destruct Him as [? Him]. split; [done|]. eapply import_ok_mono; [done|lia|lia|done]. }
  destruct imp as [im|]; [done|]. destruct events as [|e events]; [done|]. cbn [sy_st sy_pending].
  destruct (import_start_ok key l a n clk st (e :: events) f now Hr Hf Hsrc ltac:(lia) Htime) as (key' & im & st' & -> & Hr' & Hk' & Him' & _ & Hh').
  exists key', l, a, n. cbn [sy_st sy_pending sy_import]. split_and!; try done; try lia; [eapply run_ok_mono; [|done]; lia|].
  intros ?. by apply Hh', Hp.
- cbn [run_ev sy_import]. destruct imp as [im|].
  + destruct Him as [Hkr Him]. cbn [sy_st sy_pending]. destruct (im_rest im) as [|e rest] eqn:Hrest.
    { exists key, l, a, n. cbn. unfold IMPORT_CHUNK in *. split_and!; try done; try lia. eapply run_ok_mono; [|done]; lia. }
    pose proof (import_chunk_ok key l a n clk st im now enq dur Hr Hkr Him ltac:(lia) Htime ltac:(lia)) as Hpost.
    destruct (import_chunk realm now enq dur im st) as [r st']. destruct Hpost as (l' & n' & Hr' & Hk' & Hn' & Hh' & Him').
    exists key, l', a, n'. cbn [sy_st sy_pending sy_import]. split_and!; try done; try lia; [intros ?; by apply Hh', Hp|].
    by destruct r as [im'|e'|].
  + exists key, l, a, n. cbn. unfold IMPORT_CHUNK in *. split_and!; try done; try lia. eapply run_ok_mono; [|done]; lia.
- cbn [run_ev sy_st sy_pending sy_import]. pose proof (prune_ok key l a n clk st cutoff max f ok Hr Hev) as Hpost.
  destruct (prune_batch _ _ _ _ _ _) as [r st']. destruct Hpost as (key' & l0 & l' & a' & -> & Hr' & Hk' & Hh' & _).
  exists key', l', a', n. cbn [sy_st sy_pending sy_import snd]. split_and!; try done; try lia; [intros ?; by apply Hh', Hp|].
  destruct imp as [im|]; [|done]. destruct Him as [Hkr Him]. destruct (Hk' Hkr) as [-> Hkr']. split; [done|].
  eapply import_ok_mono; [done|lia|lia|]. intros _ p Hin. apply elem_of_app. by right.
- cbn [run_ev sy_st sy_pending sy_import]. unfold set_retention_config.
  assert (∀ k, k = chain_head_key ∨ k = audit_hmac_key → (<[retention_config_key := json_retention config]> (au_rows st)) !! k = au_rows st !! k) as Hside
    by (intros k [->| ->]; by rewrite lookup_insert_ne).
  assert (∀ key0, key_row key0 (au_rows st) → key_row key0 (<[retention_config_key := json_retention config]> (au_rows st))) as Hkr.
  { intros key0 (raw & ? & ?). exists raw. rewrite Hside by (by right). done. }
  exists key, l, a, n. cbn [sy_st sy_pending sy_import set_rows au_rows]. split_and!; try done; try lia.
  + destruct Hr as [He Hh Hc Ha Hk]. split; simpl.
    * eapply chain_events_same; [|exact He]. by rewrite event_entries_insert_side by auto with audit.
    * unfold head_row. rewrite Hside by (by left). exact Hh.
    * done.
    * rewrite Hside by (by left). done.
    * rewrite !Hside by auto. destruct Hk as [[Hkr0 Hkc]|?]; [left|by right]. split; [by apply Hkr|done].
  + rewrite Hside by (by left). done.
  + destruct imp as [im|]; [|done]. destruct Him as [? ?]. split; [by apply Hkr|done].
- cbn [run_ev sy_st sy_pending sy_import]. exists key, l, a, n. cbn [sy_st sy_pending sy_import]. unfold on_replicated_row.
  destruct (bool_decide _ && au_locked st); split_and!; try done; try lia. by apply uncached_ok.
- cbn [run_ev sy_st sy_pending sy_import]. exists key, l, a, n. cbn [sy_st sy_pending sy_import]. unfold on_replicated_snapshot.
  destruct (au_locked st); split_and!; try done; try lia. by apply uncached_ok.
- cbn [run_ev sy_st sy_pending sy_import]. exists key, l, a, n. cbn [sy_st sy_pending sy_import]. split_and!; try done; try lia.
  destruct Hr as [? ? ? ? Hk]. split; simpl; try done; [by left|]. destruct Hk as [[? _]|(? & ? & ? & ?)]; [left|right]; split_and!; try done. by left.
Qed.

Lemma run_evs_ok evs clk used sy : sys_ok clk used sy → clocked clk used evs → ∃ clk' used', sys_ok clk' used' (run_evs evs sy).
Proof.
revert clk used sy. induction evs as [|ev evs IH]; intros clk used sy Hsy Hc; [by eexists _, _|].
cbn [clocked] in Hc. destruct Hc as (Hev & Hcost & Hc). cbn [run_evs foldl].
assert (clk <= time_after clk ev < 2 ^ 63 ∧ clocked (time_after clk ev) (used + ev_cost ev) evs) as [Ht Hc'].
{ unfold time_after. destruct (ev_time ev); simpl; [done|]. destruct Hsy as [? _]. split; [lia|done]. }
eapply IH; [|exact Hc']. by apply step_ok.
Qed.

Lemma fresh_realm_ok : sys_ok 0 0 fresh_realm.
Proof.
split; [lia|]. exists [], [], GENESIS_HASH, 0. cbn. split_and!; try done; try lia. split; simpl; try done; [|by right|by left|by right].
split; [|done|constructor|constructor|unfold zlen; simpl; lia|by left]. assert (event_entries ∅ = []) as -> by (apply event_entries_iff; split; [constructor|];
  intros e; rewrite lookup_empty; split; [by intros ?%elem_of_nil|by intros []]). constructor.
Qed.

(** What a sound system answers to a full verification. *)
Lemma sound_verifies clk used sy : sys_ok clk used sy → (verify_integrity kek None None (sy_st sy)).1 = Ok true.
Proof.
intros [_ (key & l & a & n & [He Hh Hc Ha Hk] & Hn & _ & _)]. unfold verify_integrity. cbn [scan_bounds]. rewrite checked_scan_events.
unfold peek_realm_hmac_key. destruct Hk as [[(raw & Hraw & Hun) Hkc]|(Hnone & Hkc & Hhn & _)].
- pose proof (verify_rows_run key _ l a n clk (au_anchor (sy_st sy)) He Hh ltac:(lia) Ha) as Hv.
  destruct Hkc as [-> | ->]; [rewrite Hraw, Hun|]; done.
- rewrite Hkc, Hnone. cbn [fst]. unfold verify_rows. cbn [scan_bounds]. rewrite checked_scan_events, bind_ok.
  destruct Hh as [Hh|(_ & -> & _)]; [congruence|]. destruct He as [He _ _ _ _ _]. apply Forall2_nil_inv_l in He. rewrite He.
  destruct (au_anchor (sy_st sy)); [by specialize (Ha eq_refl)|done].
Qed.

End run.
