(* ===== verification/AuditTamper.v ===== *)
(** * Audit log: tampering

A log that verifies under a head the engine signed holds exactly the events the
engine logged, or two hash inputs of the two logs collide; and what verification does
not cover. *)
From stdpp Require Import relations.
From stdpp Require Import base list gmap strings sorting lexico.
From Stdlib Require Import Strings.Byte ZArith Lia.
From S2P Require Import Prelude OrdMap StorageTypes OrdSet RealmRows Crypto RbacTypes KeyEnvelope AuditTypes AuditKeys AuditEngine AuditRows AuditSound AuditRun.

Open Scope Z_scope.
Implicit Type s : Store.

Section tamper.
Context `{!AuditHash, !AuditCodec, !AuditHashLaws, !AuditCodecLaws}.
Implicit Types (key : list byte) (evs : list AuditEvent).

(** The messages whose tags chain a run, and the tags compared. *)
Fixpoint inputs (prev : Str) evs : list (list byte) :=
  match evs with [] => [] | e :: evs' => hash_input prev e :: inputs (ae_integrity_hash e) evs' end.
Definition tags_of key (prev : Str) evs : list Str :=
  (ae_integrity_hash <$> evs) ++ ((λ m, hex_encode (hmac_sha256 key m)) <$> inputs prev evs).

(** Two different messages of the lists with one HMAC tag, or two different tags with
one digest. *)
Definition collision key (msgs : list (list byte)) (tags : list Str) : Prop :=
  (∃ m m', m ∈ msgs ∧ m' ∈ msgs ∧ m ≠ m' ∧ hmac_sha256 key m = hmac_sha256 key m') ∨
  (∃ t t', t ∈ tags ∧ t' ∈ tags ∧ t ≠ t' ∧ sha256 t = sha256 t').

(** The chain as verification checks it: digests of the tags. *)
Fixpoint matched key (prev : Str) evs : Prop :=
  match evs with
  | [] => True
  | e :: evs' => sha256 (ae_integrity_hash e) = sha256 (compute_hmac_hash key prev e) ∧ matched key (ae_integrity_hash e) evs'
  end.

Lemma verify_walk_inv key prev c entries h n : verify_walk key prev c entries = Some (h, n) → 0 <= c → c + zlen entries < 2 ^ 64 →
  ∃ evs, decode_entries entries = Ok evs ∧ matched key prev evs ∧ h = last_link prev evs ∧ n = c + zlen evs ∧
    Forall (λ e, ∃ tag, ae_integrity_hash e = hex_encode tag) evs.
Proof.
revert prev c. induction entries as [|e entries IH]; intros prev c; cbn [verify_walk].
- intros [= <- <-] _ _. exists []. split_and!; try done. unfold zlen. simpl. lia.
- rewrite zlen_cons. intros Hw Hc Hmax. pose proof (zlen_nonneg entries). destruct (decode_event (se_value e)) as [ev|err|] eqn:Hd; [|done..].
  unfold integrity_tag_matches in Hw. case_bool_decide as Htag; [|done]. unfold u64_add in Hw. rewrite Z.mod_small in Hw by lia.
  destruct (IH _ _ Hw) as (evs & He & Hm & Hh & Hn & Hx); [lia..|]. exists (ev :: evs).
  change (decode_entries (e :: entries)) with (event ← decode_event (se_value e); events ← decode_entries entries; Ok (event :: events) : ares _).
  rewrite Hd, bind_ok, He, bind_ok. rewrite last_link_cons, zlen_cons. split_and!; try done; try lia. constructor; [|done].
  unfold decode_event, into_event in Hd. destruct (parse_postcard (se_value e)) as [r|]; simpl in Hd; [|done].
  destruct (sv_metadata_json r) as [b|]; simpl in Hd; [destruct (parse_value b); simpl in Hd; [|done]|]; injection Hd as <-; by eexists.
Qed.

(** A chain's text before the first brace is the previous hash. *)
Definition brace_free (t : Str) : Prop := x7b ∉ t.

Lemma hex_brace_free tag : brace_free (hex_encode tag).
Proof. intros Hin. pose proof (hex_encode_lower tag) as Hl. rewrite list.Forall_forall in Hl. by specialize (Hl _ Hin). Qed.

Lemma brace_split (a b c d : Str) : brace_free a → brace_free c → a ++ x7b :: b = c ++ x7b :: d → a = c ∧ b = d.
Proof.
unfold brace_free. revert c. induction a as [|x a IH]; intros [|y c] Ha Hc Heq; simplify_eq/=; [done|..].
- exfalso. apply Hc. left.
- exfalso. apply Ha. left.
- destruct (IH c) as [-> ->]; [by intros ?; apply Ha; right|by intros ?; apply Hc; right|done|done].
Qed.

Lemma hash_input_inj p e p' e' : brace_free p → brace_free p' → hash_input p e = hash_input p' e' → p = p' ∧ hashable e = hashable e'.
Proof.
unfold hash_input. destruct (json_hashable_open (hashable e)) as [t Ht], (json_hashable_open (hashable e')) as [t' Ht'].
rewrite Ht, Ht'. intros Hp Hp' Heq. destruct (brace_split p t p' t' Hp Hp' Heq) as [-> ->]. split; [done|].
apply (inj json_hashable). congruence.
Qed.

(** ** Two chains with one end *)

Lemma inputs_snoc prev evs e : inputs prev (evs ++ [e]) = inputs prev evs ++ [hash_input (last_link prev evs) e].
Proof. revert prev. induction evs as [|e0 evs IH]; intros prev; cbn [app inputs]; [done|]. by rewrite IH, last_link_cons. Qed.

Lemma matched_snoc key prev evs e : matched key prev (evs ++ [e]) ↔
  matched key prev evs ∧ sha256 (ae_integrity_hash e) = sha256 (compute_hmac_hash key (last_link prev evs) e).
Proof.
revert prev. induction evs as [|e0 evs IH]; intros prev; cbn [app matched]; [unfold last_link; simpl; naive_solver|].
rewrite IH, last_link_cons. naive_solver.
Qed.

Lemma linked_matched key prev evs : linked key prev evs → matched key prev evs.
Proof. revert prev. induction evs as [|e evs IH]; intros prev; [done|]. intros [He Hl]. split; [by rewrite <-He|by apply IH]. Qed.

Lemma collision_mono key ms ms' ts ts' : collision key ms ts → ms ⊆ ms' → ts ⊆ ts' → collision key ms' ts'.
Proof. intros [(m & m' & ? & ? & ?)|(t & t' & ? & ? & ?)] Hm Ht; [left; exists m, m'|right; exists t, t']; split_and!; naive_solver. Qed.

Lemma last_link_brace_free prev evs : brace_free prev → Forall (λ e, ∃ tag, ae_integrity_hash e = hex_encode tag) evs → brace_free (last_link prev evs).
Proof.
intros Hp Hf. unfold last_link. destruct (last evs) as [e|] eqn:Hl; [|done]. simpl. rewrite list.Forall_forall in Hf.
destruct (Hf e) as [tag ->]; [|apply hex_brace_free]. apply last_Some in Hl as [l' ->]. apply elem_of_app. right. left.
Qed.

Lemma tags_of_app key prev evs e : tags_of key prev evs ⊆ tags_of key prev (evs ++ [e]).
Proof. intros t. unfold tags_of. rewrite inputs_snoc, !fmap_app, !elem_of_app. naive_solver. Qed.

Lemma expected_in_tags key prev evs e : compute_hmac_hash key (last_link prev evs) e ∈ tags_of key prev (evs ++ [e]).
Proof. unfold tags_of. rewrite inputs_snoc, !fmap_app, !elem_of_app. right. right. simpl. left. Qed.
Lemma stored_in_tags key prev evs e : ae_integrity_hash e ∈ tags_of key prev (evs ++ [e]).
Proof. unfold tags_of. rewrite inputs_snoc, !fmap_app, !elem_of_app. left. right. simpl. left. Qed.

Lemma last_in_tags key a evs : evs ≠ [] → last_link a evs ∈ tags_of key a evs.
Proof. intros Hne. destruct evs as [|e evs _] using rev_ind; [done|]. rewrite last_link_snoc. apply stored_in_tags. Qed.

Lemma chains_agree key a evs evs' : brace_free a → linked key a evs → matched key a evs' →
  Forall (λ e, ∃ tag, ae_integrity_hash e = hex_encode tag) evs → Forall (λ e, ∃ tag, ae_integrity_hash e = hex_encode tag) evs' →
  length evs = length evs' → last_link a evs = last_link a evs' →
  hashable <$> evs' = hashable <$> evs ∨ collision key (inputs a evs ++ inputs a evs') (tags_of key a evs ++ tags_of key a evs').
Proof.
intros Ha. revert evs'. induction evs as [|e evs IH] using rev_ind; intros evs' Hl Hm Hf Hf' Hlen Hend.
{ destruct evs'; [by left|done]. }
destruct evs' as [|e' evs' _] using rev_ind; [rewrite length_app in Hlen; simpl in Hlen; lia|].
rewrite !length_app in Hlen. rewrite !last_link_snoc in Hend. apply linked_app in Hl as [Hl [Hh _]]. apply matched_snoc in Hm as [Hm Hm'].
apply Forall_app in Hf as [Hf _], Hf' as [Hf' _].
destruct (decide (ae_integrity_hash e' = compute_hmac_hash key (last_link a evs') e')) as [Heq|Hne].
2: { right. right. eexists _, _. split_and!; [apply elem_of_app; right; apply stored_in_tags|apply elem_of_app; right; apply expected_in_tags|exact Hne|exact Hm']. }
assert (hmac_sha256 key (hash_input (last_link a evs) e) = hmac_sha256 key (hash_input (last_link a evs') e')) as Hmac.
{ apply (inj hex_encode). change (compute_hmac_hash key (last_link a evs) e = compute_hmac_hash key (last_link a evs') e'). congruence. }
destruct (decide (hash_input (last_link a evs) e = hash_input (last_link a evs') e')) as [Hin|Hin].
2: { right. left. eexists _, _. rewrite !inputs_snoc. split_and!; [| |exact Hin|exact Hmac]; set_solver. }
apply hash_input_inj in Hin as [Hprev Hhash]; [|by apply last_link_brace_free..].
destruct (IH evs') as [IHs|IHc]; try done; [simpl in Hlen; lia| |].
- left. rewrite !fmap_app, IHs. simpl. by rewrite Hhash.
- right. eapply collision_mono; [exact IHc|rewrite !inputs_snoc; set_solver|].
  intros t [Ht|Ht]%elem_of_app; apply elem_of_app; [left|right]; by apply tags_of_app.
Qed.
End tamper.

(** ** The engine's logs *)

Section engine.
Context `{!AuditHash, !AuditCodec, !Aead, !AuditHashLaws, !AuditCodecLaws, !AeadLaws}.
Context (realm : RealmId) (kek : option (list byte)) (known_realms_only realm_stored : bool).
Local Abbreviation reached evs := (run_evs realm kek known_realms_only realm_stored evs fresh_realm).

(** The events of a log, in key order. *)
Definition log_events s : ares (list AuditEvent) := decode_entries (event_entries s).

(** What verification accepted. *)
Lemma verify_rows_inv key s established h : verify_rows None None established (Some key) s = Ok true → load_head s key = Ok (Some h) →
  zlen (event_entries s) < 2 ^ 64 →
  ∃ evs, log_events s = Ok evs ∧ matched key (ch_anchor h) evs ∧ zlen evs = ch_count h ∧
    sha256 (last_link (ch_anchor h) evs) = sha256 (ch_last_hash h) ∧ Forall (λ e, ∃ tag, ae_integrity_hash e = hex_encode tag) evs.
Proof.
unfold verify_rows. cbn [scan_bounds]. rewrite checked_scan_events, bind_ok. intros Hv Hh Hlen. rewrite Hh in Hv.
rewrite bool_decide_false in Hv by done. cbn [andb walk_start mbind option_bind] in Hv.
destruct (verify_walk key (ch_anchor h) 0 (event_entries s)) as [[tag n]|] eqn:Hw; [|done].
destruct (verify_walk_inv _ _ _ _ _ _ Hw) as (evs & Hd & Hm & -> & -> & Hx); [lia..|]. exists evs.
injection Hv as [Hn Ht]%andb_true_iff. unfold integrity_tag_matches in Ht. apply bool_decide_eq_true in Ht. apply Z.eqb_eq in Hn. split_and!; done || lia.
Qed.

(** C25: As long as the signed head is one that the engine wrote, verification accepts
only the log the engine had when it wrote it: whatever else was done to the event
rows (events changed, removed, added or moved), either the events are the same, field
for field, or the two logs hold two different hash inputs with the same tag, or two
different tags with the same digest. *)
Theorem tampering_detected evs raw key s' established : clocked kek 0 0 evs →
  let s := au_rows (sy_st (reached evs)) in
  s !! audit_hmac_key = Some raw → unwrapped_key kek raw = Ok key →
  s' !! chain_head_key = s !! chain_head_key → is_Some (s !! chain_head_key) → zlen (event_entries s') < 2 ^ 64 →
  verify_rows None None established (Some key) s' = Ok true →
  ∃ a es es', log_events s = Ok es ∧ log_events s' = Ok es' ∧
    (hashable <$> es' = hashable <$> es ∨ collision key (inputs a es ++ inputs a es') (tags_of key a es ++ tags_of key a es')).
Proof.
intros Hc s Hraw Hun Hsame [hd Hhd] Hlen Hv.
destruct (run_evs_ok realm kek known_realms_only realm_stored evs 0 0 fresh_realm (fresh_realm_ok kek) Hc)
  as (clk & used & _ & key' & l & a & n & [He Hh _ _ Hk] & Hn & _). fold s in He, Hh, Hk.
assert (key' = key) as ->. { destruct Hk as [[(raw' & Hr & Hu) _]|(Hnone & _)]; congruence. }
destruct Hh as [Hh|(Hnone & _)]; [|congruence].
pose proof (load_head_at _ _ _ _ _ (eq_trans Hsame Hh)) as Hload.
destruct (verify_rows_inv key s' established _ Hv Hload Hlen) as (es' & Hd' & Hm & Hcount & Hend & Hx').
pose proof He as [Hent Hl _ _ _ Hst]. exists a, l.*1, es'. split_and!; [by apply entries_decode|done|].
cbn [head_at signed_head ch_anchor ch_count ch_last_hash] in *. assert (length l.*1 = length es') as Hlen' by (rewrite length_fmap; unfold zlen in Hcount; lia).
destruct (decide (last_link a es' = last_link a l.*1)) as [Heq|Hne].
- apply chains_agree; try done; [|by eapply linked_hex]. destruct Hst as [->|[tag ->]]; [|apply hex_brace_free].
  unfold brace_free. apply (bool_decide_unpack _). vm_compute. exact I.
- assert (l.*1 ≠ [] ∧ es' ≠ []) as [Hn1 Hn2] by (destruct l, es'; simpl in *; done).
  right. right. eexists _, _. split_and!; [| |exact Hne|exact Hend]; apply elem_of_app; [right|left]; by apply last_in_tags.
Qed.
End engine.
