(* ===== verification/AuditPrune.v ===== *)
(** * Audit log: retention

The daily prune of one realm's audit log ([identity/audit_prune.rs]): by age, by rows,
and a measure of the realm's storage. *)
From stdpp Require Import relations.
From stdpp Require Import base list gmap strings sorting lexico.
From Stdlib Require Import Strings.Byte ZArith Lia.
From S2P Require Import Prelude OrdMap StorageTypes OrdSet RealmRows Crypto RbacTypes KeyEnvelope AuditTypes AuditKeys AuditEngine AuditRows AuditSound AuditRun AuditTamper.

Open Scope Z_scope.
Implicit Type s : Store.

(** The quotas of a realm that concern its audit log and storage. *)
Record Quotas := MkQuotas { q_max_audit_rows : option Z; q_max_disk_bytes : option Z }.
Record AuditPruneReport := MkPruneReport {
  pr_deleted_by_age : Z;
  pr_deleted_by_rows : Z;
  pr_row_limit : option Z;
  pr_usage_bytes : option Z
}.

(** Two's-complement 64-bit wrap-around, and [i64::saturating_sub]. *)
Definition wrap_i64 (z : Z) : Z := to_signed 64 (z mod 2 ^ 64).
Definition sat_sub_i64 (a b : Z) : Z := Z.max (- 2 ^ 63) (Z.min (2 ^ 63 - 1) (a - b)).

(** The cutoff of a retention of [days] days. *)
Definition prune_cutoff (now : Timestamp) (days : Z) : Timestamp := sat_sub_i64 now (wrap_i64 (days * 86400 * 1000000)).

Definition row_limit (retention : option AuditRetentionConfig) (quotas : option Quotas) : option Z :=
  match retention ≫= rc_max_rows, quotas ≫= q_max_audit_rows with
  | Some max_rows, Some max_audit_rows => Some (Z.min max_rows max_audit_rows)
  | Some max_rows, None => Some max_rows
  | None, max_audit_rows => max_audit_rows
  end.

(** The walk over [""..0xFF*256], one entry at a time. *)
Definition realm_usage s : Z :=
  foldl (λ usage e, Z.min u64_max (usage + (zlen (se_key e) + zlen (se_value e)))) 0 (scan [] (replicate 256 xff) s).

Section prune.
Context `{!AuditHash, !AuditCodec, !Aead}.
Context (kek : option (list byte)).

Definition prune_realm_audit (quotas : option Quotas) (now : Timestamp) (fresh : Fresh) (st : AuditSt) : option (AuditPruneReport * AuditSt) :=
  let retention := match get_retention_config st with Ok c => Some c | _ => None end in
  let days := r ← retention; if 0 <? rc_retention_days r then Some (rc_retention_days r) else None in
  aged ← match days with
         | None => Some (Ok 0, st)
         | Some days => prune_before kek (prune_cutoff now days) fresh st
         end;
  let '(by_age, st) := aged in
  let limit := row_limit retention quotas in
  trimmed ← match limit with
            | Some max_rows => if max_rows <? count_events st then prune_oldest kek (count_events st - max_rows) fresh st else Some (Ok 0, st)
            | None => Some (Ok 0, st)
            end;
  let '(by_rows, st) := trimmed in
  let deleted (r : ares Z) := match r with Ok n => n | _ => 0 end in
  Some (MkPruneReport (deleted by_age) (deleted by_rows) limit
          (match quotas ≫= q_max_disk_bytes with Some _ => Some (realm_usage (au_rows st)) | None => None end), st).

(** ** The window of a cutoff *)

Context `{!AuditHashLaws, !AuditCodecLaws, !AeadLaws}.
Implicit Types (key : list byte) (l : list (AuditEvent * Z)).

Lemma to_be_mod n z : to_be n (z mod 2 ^ (8 * Z.of_nat n)) = to_be n z.
Proof.
unfold to_be. f_equal. rewrite <-(to_from_le n (to_le n z)) by apply length_to_le. by rewrite from_to_le.
Qed.

(** A cutoff cuts where the unsigned reading of its bits does. *)
Lemma scan_end_mod t : event_scan_end t = event_scan_end (t mod 2 ^ 64).
Proof. unfold event_scan_end, event_scan_start, timestamp_bytes. f_equal. symmetry. apply (to_be_mod 8). Qed.

(** The events a cutoff selects are a first part of the run. *)
Definition older (u : Z) (p : AuditEvent * Z) : Prop := ae_timestamp p.1 < u.
#[local] Instance older_dec u p : Decision (older u p).
Proof. apply Z_lt_dec. Defined.

Lemma window_older key s l a n hi t : chain_events key s l a n hi → hi < 2 ^ 63 →
  ∃ l1 l2 rest, l = l1 ++ l2 ∧ event_entries s = scan event_scan_prefix (event_scan_end t) s ++ rest ∧
    Forall2 logged l1 (scan event_scan_prefix (event_scan_end t) s) ∧ Forall2 logged l2 rest ∧
    Forall (older (t mod 2 ^ 64)) l1 ∧ Forall (λ p, ¬ older (t mod 2 ^ 64) p) l2.
Proof.
intros [He _ _ Hb _ _] Hhi. rewrite scan_end_mod. set (u := t mod 2 ^ 64). assert (in_u64 u) as Hu by (apply Z.mod_pos_bound; lia).
destruct (window_first (event_scan_end u) s) as [rest Hw]; [left; apply scan_end_below|].
set (w := scan event_scan_prefix (event_scan_end u) s) in *. pose proof He as He'. rewrite Hw in He'.
apply Forall2_app_inv_r in He' as (l1 & l2 & Hl1 & Hl2 & ->). apply Forall_app in Hb as [Hb1 Hb2]. exists l1, l2, rest. split_and!; try done.
- apply list.Forall_forall. intros p Hp. destruct (forall2_elem_l _ _ _ _ Hl1 Hp) as (e & Hin & Hk & _).
  apply elem_of_scan in Hin as [_ Hin]. rewrite list.Forall_forall in Hb1. specialize (Hb1 p Hp).
  apply (event_before_time _ _ _ _ u) in Hk; [by apply Hk|unfold in_u64; lia|done].
- apply list.Forall_forall. intros p Hp Hold. destruct (forall2_elem_l _ _ _ _ Hl2 Hp) as (e & Hin & Hk & _).
  rewrite list.Forall_forall in Hb2. specialize (Hb2 p Hp). assert (e ∈ event_entries s) as Hent by (rewrite Hw; set_solver).
  assert (e ∈ w) as Hew. { apply elem_of_scan. split; [by apply elem_of_scan in Hent as [? _]|].
    apply (event_before_time _ _ _ _ u) in Hk; [by apply Hk|unfold in_u64; lia|done]. }
  pose proof (sorted_nodup _ (scan_sorted event_scan_prefix (audit_prefix_end event_scan_prefix) s)) as Hnd. fold (event_entries s) in Hnd.
  rewrite Hw in Hnd. apply list.NoDup_app in Hnd as (_ & Hdis & _). by apply (Hdis e).
Qed.

(** ** The loops *)

(** One batch below a cutoff takes the oldest of the selected events. *)
Lemma prune_batch_older key l1 l2 a n hi st t max f : run_ok kek key (l1 ++ l2) a n hi st → hi < 2 ^ 63 → fresh_ok kek f → 1 <= max →
  Forall (older (t mod 2 ^ 64)) l1 → Forall (λ p, ¬ older (t mod 2 ^ 64) p) l2 →
  ∃ key' a' st', prune_batch kek (event_scan_end t) max f true st = (Ok (zlen (take (Z.to_nat max) l1)), st') ∧
    run_ok kek key' (drop (Z.to_nat max) l1 ++ l2) a' n hi st'.
Proof.
intros Hr Hhi Hf Hmax Ho Hy. pose proof (prune_ok kek key (l1 ++ l2) a n hi st (Some t) max f true Hr Hf) as Hp. cbn [prune_end] in Hp.
destruct (prune_batch kek (event_scan_end t) max f true st) as [r st']. destruct Hp as (key' & l0 & l' & a' & Hl & Hr' & _ & _ & Hok).
destruct (Hok eq_refl) as [-> Hlog]. rewrite Z.max_r in Hlog by lia.
destruct (window_older key (au_rows st) (l1 ++ l2) a n hi t) as (m1 & m2 & rest & Hm & _ & Hlm & _ & Hm1 & Hm2); [apply Hr|done|].
assert (l1 = m1 ∧ l2 = m2) as [<- <-].
{ clear -Hm Ho Hy Hm1 Hm2. revert m1 Hm Hm1. induction Ho as [|p l1 Hp Ho IH]; intros m1 Hm Hm1.
  - destruct Hm1 as [|q m1 Hq Hm1]; [done|]. exfalso. simpl in Hm. subst l2. apply Forall_cons in Hy as [Hy _]. done.
  - destruct Hm1 as [|q m1 Hq Hm1]; simpl in Hm.
    + exfalso. subst m2. apply Forall_cons in Hm2 as [Hm2 _]. done.
    + injection Hm as -> Hm. by destruct (IH m1 Hm Hm1) as [-> ->]. }
assert (l0 = take (Z.to_nat max) l1 ∧ l' = drop (Z.to_nat max) l1 ++ l2) as [-> ->].
{ apply app_inj_1; [|by rewrite app_assoc, take_drop]. apply Forall2_length in Hlog, Hlm. rewrite Hlog, !length_take, Hlm. done. }
eexists _, _, _. split; [done|exact Hr'].
Qed.

Lemma prune_before_loop_ok t f : fresh_ok kek f → ∀ fuel key l1 l2 a n hi st deleted,
  run_ok kek key (l1 ++ l2) a n hi st → hi < 2 ^ 63 → Forall (older (t mod 2 ^ 64)) l1 → Forall (λ p, ¬ older (t mod 2 ^ 64) p) l2 →
  (length l1 < fuel)%nat →
  ∃ key' a' st', prune_before_loop kek fuel (event_scan_end t) f deleted st = Some (Ok (deleted + zlen l1), st') ∧ run_ok kek key' l2 a' n hi st'.
Proof.
intros Hf fuel. induction fuel as [|fuel IH]; intros key l1 l2 a n hi st deleted Hr Hhi Ho Hy Hfuel; [lia|]. cbn [prune_before_loop].
destruct (prune_batch_older key l1 l2 a n hi st t PRUNE_BATCH f) as (key' & a' & st' & -> & Hr'); try done.
destruct (zlen (take (Z.to_nat PRUNE_BATCH) l1) <? PRUNE_BATCH) eqn:Hlt.
- apply Z.ltb_lt in Hlt. assert (length l1 <= Z.to_nat PRUNE_BATCH)%nat as Hshort by (unfold zlen in Hlt; rewrite length_take in Hlt; unfold PRUNE_BATCH in *; lia).
  rewrite take_ge by done. rewrite drop_ge in Hr' by done. by exists key', a', st'.
- apply Z.ltb_ge in Hlt. unfold zlen in Hlt. rewrite length_take in Hlt.
  destruct (IH key' (drop (Z.to_nat PRUNE_BATCH) l1) l2 a' n hi st' (deleted + zlen (take (Z.to_nat PRUNE_BATCH) l1))) as (key2 & a2 & st2 & -> & Hr2); try done.
  + by apply Forall_drop.
  + rewrite length_drop. unfold PRUNE_BATCH in *. lia.
  + exists key2, a2, st2. split; [|done]. do 3 f_equal. unfold zlen. rewrite length_take, length_drop. lia.
Qed.

Lemma filter_older u l1 l2 : Forall (older u) l1 → Forall (λ p, ¬ older u p) l2 →
  filter (λ e, u <= ae_timestamp e) (l1 ++ l2).*1 = l2.*1.
Proof.
intros Ho Hy. rewrite fmap_app, filter_app, filter_none, filter_all; [done|..]; intros e (p & -> & Hp)%list_elem_of_fmap.
- rewrite list.Forall_forall in Hy. specialize (Hy p Hp). unfold older in Hy. lia.
- rewrite list.Forall_forall in Ho. specialize (Ho p Hp). unfold older in Ho. lia.
Qed.
End prune.

Section retention.
Context `{!AuditHash, !AuditCodec, !Aead, !AuditHashLaws, !AuditCodecLaws, !AeadLaws}.
Context (realm : RealmId) (kek : option (list byte)) (known_realms_only realm_stored : bool).
Local Abbreviation reached evs := (sy_st (run_evs realm kek known_realms_only realm_stored evs fresh_realm)).

Lemma run_ok_verifies key l a n hi st : run_ok kek key l a n hi st → 0 <= hi < 2 ^ 63 → n < 2 ^ 64 → (verify_integrity kek None None st).1 = Ok true.
Proof.
intros Hr Hhi Hn. eapply (sound_verifies kek hi n (MkSys st 0 None)). split; [done|]. exists key, l, a, n. cbn. split_and!; done || lia.
Qed.

Lemma prune_before_ok key l a n hi st cutoff f : run_ok kek key l a n hi st → 0 <= hi < 2 ^ 63 → n < 2 ^ 64 → fresh_ok kek f →
  ∃ st', prune_before kek cutoff f st = Some (Ok (zlen l.*1 - zlen (filter (λ e, cutoff mod 2 ^ 64 <= ae_timestamp e) l.*1)), st') ∧
    log_events (au_rows st') = Ok (filter (λ e, cutoff mod 2 ^ 64 <= ae_timestamp e) l.*1) ∧ (verify_integrity kek None None st').1 = Ok true.
Proof.
intros Hr Hhi Hn Hf. destruct (window_older key (au_rows st) l a n hi cutoff) as (l1 & l2 & rest & -> & _ & _ & _ & Ho & Hy); [apply Hr|lia|].
destruct (prune_before_loop_ok kek cutoff f Hf (loop_fuel st) key l1 l2 a n hi st 0) as (key' & a' & st' & Hp & Hr'); try done; [lia| |].
{ destruct Hr as [[He _ _ _ _ _] _ _ _ _]. apply Forall2_length in He. rewrite length_app in He. unfold loop_fuel. lia. }
rewrite filter_older by done. exists st'. unfold prune_before. rewrite Hp. split_and!.
- do 3 f_equal. unfold zlen. rewrite fmap_app, length_app, !length_fmap. lia.
- apply (entries_decode l2), Hr'.
- by eapply run_ok_verifies.
Qed.


(** C27: A retention longer than the time since the epoch erases the whole log: the
cutoff is negative, and a negative time read as an unsigned number lies after every
event. With a hundred years of retention the next daily prune deletes every event of
the realm. *)
Theorem long_retention_erases_log evs config now f : clocked kek 0 0 evs → fresh_ok kek f →
  get_retention_config (reached evs) = Ok config → 0 <= now → now < rc_retention_days config * 86400 * 1000000 < 2 ^ 63 → rc_max_rows config = None →
  ∃ es st', log_events (au_rows (reached evs)) = Ok es ∧
    prune_realm_audit kek None now f (reached evs) = Some (MkPruneReport (zlen es) 0 None None, st') ∧ log_events (au_rows st') = Ok [].
Proof.
intros Hc Hf Hcfg Hnow Hdays Hrows. destruct (run_evs_ok realm kek known_realms_only realm_stored evs 0 0 fresh_realm (fresh_realm_ok kek) Hc)
  as (clk & used & Hclk & key & l & a & n & Hr & Hn & _).
assert (prune_cutoff now (rc_retention_days config) = now - rc_retention_days config * 86400 * 1000000) as Hcut.
{ unfold prune_cutoff, wrap_i64, sat_sub_i64. rewrite (Z.mod_small (rc_retention_days config * 86400 * 1000000)) by lia. unfold to_signed.
  change (64 - 1) with 63. rewrite (proj2 (Z.ltb_lt _ _)) by lia. lia. }
destruct (prune_before_ok key l a n clk _ (prune_cutoff now (rc_retention_days config)) f Hr Hclk ltac:(lia) Hf) as (st' & Hp & Hl & _).
assert (filter (λ e, prune_cutoff now (rc_retention_days config) mod 2 ^ 64 <= ae_timestamp e) l.*1 = []) as Hnone.
{ apply filter_none. intros e (p & -> & Hin)%list_elem_of_fmap. destruct Hr as [[_ _ _ Hb _ _] _ _ _ _]. rewrite list.Forall_forall in Hb.
  specialize (Hb p Hin). rewrite Hcut. rewrite (Z.mod_eq _ (2 ^ 64)) by lia.
  assert ((now - rc_retention_days config * 86400 * 1000000) / 2 ^ 64 = -1) as -> by (symmetry; apply Z.div_unique with (now - rc_retention_days config * 86400 * 1000000 + 2 ^ 64); lia). lia. }
rewrite Hnone in *. exists l.*1, st'. split_and!; [apply (entries_decode l), Hr| |done]. unfold prune_realm_audit. rewrite Hcfg. cbn [mbind option_bind].
rewrite (proj2 (Z.ltb_lt 0 (rc_retention_days config))) by lia. cbn [mbind option_bind]. rewrite Hp. cbn [mbind option_bind].
unfold row_limit. cbn [mbind option_bind]. rewrite Hrows. change (zlen (@nil AuditEvent)) with 0. by rewrite Z.sub_0_r.
Qed.
End retention.
