(* ===== verification/AuditInstances.v ===== *)
(** * Audit log: concrete parameters

Instances of what the audit engine takes from other crates, to evaluate it on concrete
logs: a polynomial tag in place of HMAC-SHA256, and codecs derived from stdpp's
countable types in place of JSON and postcard. *)
From stdpp Require Import base list gmap strings sorting lexico countable.
From Stdlib Require Import Strings.Byte ZArith Lia.
From S2P Require Import Prelude OrdMap StorageTypes OrdSet RealmRows Crypto RbacTypes KeyEnvelope AuditTypes AuditKeys.
From S2P Require Import RbacResolve RbacKeys RbacStore RbacSeed RbacInstances AuditEngine.

Open Scope Z_scope.

(** ** Metadata *)

Inductive JLeaf := LBool (b : bool) | LInt (z : Z) | LFloat (t : Str) | LString (t : Str).
#[local] Instance JLeaf_eq_dec : EqDecision JLeaf.
Proof. solve_decision. Defined.
#[local] Instance JLeaf_countable : Countable JLeaf.
Proof.
refine (inj_countable' (λ x, match x with LBool b => inl (inl b) | LInt z => inl (inr z) | LFloat t => inr (inl t) | LString t => inr (inr t) end)
  (λ x, match x with inl (inl b) => LBool b | inl (inr z) => LInt z | inr (inl t) => LFloat t | inr (inr t) => LString t end) _). by intros [].
Defined.

Fixpoint value_tree (v : JValue) : gen_tree JLeaf :=
  match v with
  | JNull => GenNode 0 []
  | JBool b => GenLeaf (LBool b)
  | JInt z => GenLeaf (LInt z)
  | JFloat t => GenLeaf (LFloat t)
  | JString t => GenLeaf (LString t)
  | JArray l => GenNode 1 (map value_tree l)
  | JObject m => GenNode 2 (map (λ p, GenNode 3 [GenLeaf (LString p.1); value_tree p.2]) m)
  end.
Fixpoint tree_value (t : gen_tree JLeaf) : JValue :=
  match t with
  | GenLeaf (LBool b) => JBool b
  | GenLeaf (LInt z) => JInt z
  | GenLeaf (LFloat t) => JFloat t
  | GenLeaf (LString t) => JString t
  | GenNode 1 ts => JArray (map tree_value ts)
  | GenNode 2 ts => JObject (map (λ t, match t with GenNode _ [GenLeaf (LString k); v] => (k, tree_value v) | _ => ([], JNull) end) ts)
  | GenNode _ _ => JNull
  end.

Lemma tree_value_tree : ∀ v, tree_value (value_tree v) = v.
Proof.
fix IH 1. intros [| | | | |l|m]; simpl; try reflexivity; f_equal.
- induction l as [|v l IHl]; simpl; [reflexivity|]. rewrite IH, IHl. reflexivity.
- induction m as [|[k v] m IHm]; simpl; [reflexivity|]. rewrite IH, IHm. reflexivity.
Qed.

#[export] Instance JValue_eq_dec : EqDecision JValue.
Proof.
refine (λ v w, cast_if (decide (value_tree v = value_tree w))); [|by intros ->].
by rewrite <-(tree_value_tree v), <-(tree_value_tree w), e.
Defined.
#[export] Instance JValue_countable : Countable JValue := inj_countable' value_tree tree_value tree_value_tree.

(** ** Framed fields: each byte after a [01], each field closed by a [00] *)

Definition frame_field (x : list byte) : list byte := (x ≫= λ b, [x01; b]) ++ [x00].
Definition frame (xs : list (list byte)) : list byte := xs ≫= frame_field.
Fixpoint unframe (cur : list byte) (bs : list byte) : option (list (list byte)) :=
  match bs with
  | [] => Some []
  | x00 :: bs' => cons (rev cur) <$> unframe [] bs'
  | _ :: b :: bs' => unframe (b :: cur) bs'
  | [_] => None
  end.

Lemma unframe_field x rest cur : unframe cur (frame_field x ++ rest) = cons (rev cur ++ x) <$> unframe [] rest.
Proof.
revert cur. induction x as [|b x IH]; intros cur; [by rewrite app_nil_r|].
change (frame_field (b :: x) ++ rest) with (x01 :: b :: (frame_field x ++ rest)). cbn [unframe]. rewrite IH. cbn [rev]. by rewrite <-app_assoc.
Qed.
Lemma unframe_frame xs : unframe [] (frame xs) = Some xs.
Proof.
induction xs as [|x xs IH]; [done|]. change (frame (x :: xs)) with (frame_field x ++ frame xs). by rewrite unframe_field, IH.
Qed.

Definition z_bytes (z : Z) : list byte := pos_bytes (encode z).
Definition bytes_z (l : list byte) : option Z := decode (bytes_pos l).
Lemma bytes_z_bytes z : bytes_z (z_bytes z) = Some z.
Proof. unfold bytes_z, z_bytes. by rewrite bytes_pos_bytes, decode_encode. Qed.

Definition parse_action (l : list byte) : option AuditAction := from_str (String.string_of_list_byte l).
Lemma parse_action_str a : parse_action (as_str a) = Some a.
Proof. unfold parse_action, as_str, lit. rewrite String.string_of_list_byte_of_string. apply from_action_str. Qed.

Definition option_bytes (o : option (list byte)) : list byte := match o with None => [] | Some x => x01 :: x end.
Definition bytes_option (l : list byte) : option (list byte) := match l with [] => None | _ :: x => Some x end.

(** ** Records *)

Definition stored_bytes (r : StoredAuditEvent) : list byte :=
  frame [sv_id r; sv_realm_id r; sv_actor r; as_str (sv_action r); sv_resource_type r; sv_resource_id r; z_bytes (sv_timestamp r);
         option_bytes (sv_metadata_json r); sv_integrity_hash r].
Definition bytes_stored (l : list byte) : option StoredAuditEvent :=
  match unframe [] l with
  | Some [i; r; a; act; rt; ri; t; m; h] => action ← parse_action act; ts ← bytes_z t; Some (MkStored i r a action rt ri ts (bytes_option m) h)
  | _ => None
  end.
Lemma bytes_stored_bytes r : bytes_stored (stored_bytes r) = Some r.
Proof.
unfold bytes_stored, stored_bytes. rewrite unframe_frame, parse_action_str. cbn [mbind option_bind]. rewrite bytes_z_bytes. cbn [mbind option_bind].
by destruct r as [? ? ? ? ? ? ? [m|] ?].
Qed.

Definition head_bytes (h : ChainHead) : list byte := frame [ch_anchor h; ch_last_hash h; z_bytes (ch_seq h); z_bytes (ch_count h); ch_mac h].
Definition bytes_head (l : list byte) : option ChainHead :=
  match unframe [] l with
  | Some [a; lh; n; c; m] => seq ← bytes_z n; count ← bytes_z c; Some (MkHead a lh seq count m)
  | _ => None
  end.
Lemma bytes_head_bytes h : bytes_head (head_bytes h) = Some h.
Proof. unfold bytes_head, head_bytes. rewrite unframe_frame, !bytes_z_bytes. by destruct h. Qed.

Definition hashable_bytes (h : Hashable) : list byte :=
  frame [h_id h; h_realm_id h; h_actor h; as_str (h_action h); h_resource_type h; h_resource_id h; z_bytes (h_timestamp h); ser_any (h_metadata h)].
Lemma hashable_bytes_inj h h' : hashable_bytes h = hashable_bytes h' → h = h'.
Proof.
intros Heq. apply (f_equal (unframe [])) in Heq. unfold hashable_bytes in Heq. rewrite !unframe_frame in Heq.
injection Heq as ? ? ? Ha ? ? Ht Hm. apply (f_equal parse_action) in Ha. rewrite !parse_action_str in Ha.
apply (f_equal bytes_z) in Ht. rewrite !bytes_z_bytes in Ht. apply (f_equal (de_any (A := JValue))) in Hm. rewrite !de_ser_any in Hm.
destruct h, h'. simpl in *. by simplify_eq.
Qed.

#[export] Instance Retention_eq_dec : EqDecision AuditRetentionConfig.
Proof. solve_decision. Defined.
#[export] Instance Retention_countable : Countable AuditRetentionConfig.
Proof. refine (inj_countable' (λ r, (rc_retention_days r, rc_max_rows r)) (λ t, MkRetention t.1 t.2) _). by intros []. Defined.

(** ** Parameters *)

Definition poly (seed : Z) (bytes : list byte) : list byte :=
  to_le 32 (foldl (λ acc b, (acc * 257 + byte_val b + 1) mod (2 ^ 255 - 19)) seed bytes).
#[export] Instance poly_hash : AuditHash := {| hmac_sha256 k m := poly 7 (k ++ m); sha256 := poly 11 |}.
#[export] Instance poly_hash_laws : AuditHashLaws.
Proof. intros k m. apply length_to_le. Qed.

#[export] Instance plain_audit_codec : AuditCodec := {|
  json_hashable h := x7b :: hashable_bytes h ++ [x7d];
  json_value := ser_any; parse_value := de_any;
  postcard := stored_bytes; parse_postcard := bytes_stored;
  json_head := head_bytes; parse_head := bytes_head;
  json_retention := ser_any; parse_retention := de_any
|}.
#[export] Instance plain_audit_codec_laws : AuditCodecLaws.
Proof.
split; simpl.
- intros h. by eexists.
- intros h. rewrite app_comm_cons. apply last_snoc.
- intros h h' [= Heq]. apply app_inj_2 in Heq as [Heq _]; [|done]. by apply hashable_bytes_inj.
- intros v _. apply de_ser_any.
- intros r _. apply bytes_stored_bytes.
- intros h. apply bytes_head_bytes.
- intros c. apply de_ser_any.
Qed.

#[export] Instance audit_aead : Aead := toy_aead.
#[export] Instance audit_aead_laws : AeadLaws := toy_aead_laws.
