(* ===== verification/AuditScenarios.v ===== *)
(** * Audit log: concrete logs

Executions of the audit engine on small logs: the witnesses of the theorems about
reachable logs, and behaviours that differ from what the documentation promises. *)
From stdpp Require Import relations.
From stdpp Require Import base list gmap strings sorting lexico countable.
From Stdlib Require Import Strings.Byte ZArith Lia.
From S2P Require Import Prelude OrdMap StorageTypes OrdSet RealmRows Crypto RbacTypes KeyEnvelope AuditTypes AuditKeys.
From S2P Require Import AuditEngine AuditRows AuditSound AuditRun AuditTamper AuditPrune AuditInstances.

Open Scope Z_scope.

Definition shop : RealmId := [x01].
Definition dice : Fresh := MkFresh (replicate 32 x07) (replicate 12 x01).
Definition number (n : Z) : AuditEventId := to_le 16 n.
Definition did (actor : string) (action : AuditAction) (metadata : option JValue) : CreateAuditEvent :=
  MkCreateEvent shop (lit actor) action (lit "user") (lit "42") metadata.

(** An append at a time, acknowledged. *)
Definition at_time (now : Timestamp) (request : CreateAuditEvent) : list Ev :=
  [EvAppend request dice (number now) now true; EvDone true].
#[local] Opaque run_evs.
Local Abbreviation log_of evs := (sy_st (run_evs shop None false true evs fresh_realm)).
Definition verdict (start end_ : option Timestamp) (evs : list Ev) : ares bool := (verify_integrity None start end_ (log_of evs)).1.

(** ** Witnesses *)

Definition archived : AuditEvent :=
  MkEvent (number 900) [x02] (lit "carol") AUserUpdated (lit "user") (lit "7") 5 None (lit "as exported").

Definition busy : list Ev :=
  at_time 10 (did "alice" AUserCreated None) ++
  [EvAppend (did "bob" AUserDeleted (Some (JObject [(lit "tool", JString (lit "cli"))]))) dice (number 11) 20 true;
   EvAppend (did "alice" ARoleAssigned None) dice (number 12) 20 true; EvDone true; EvDone false;
   EvImport [archived] dice 25; EvAppend (did "alice" ALoginFailed None) dice (number 13) 26 false; EvChunk 27 true true; EvChunk 27 true true;
   EvPrune (Some 15) PRUNE_BATCH dice true; EvReplicated chain_head_key; EvRetention (MkRetention 36500 None); EvRestart] ++
  at_time 30 (did "alice" ALoginLocked None).

Lemma dice_ok : fresh_ok None dice.
Proof. split_and!; [done|done|]. intros _. vm_compute. reflexivity. Qed.
#[local] Hint Resolve dice_ok : audit.

Lemma busy_clocked : clocked None 0 0 busy.
Proof.
unfold busy, at_time. cbn [app clocked ev_ok ev_time ev_cost]. unfold IMPORT_CHUNK. split_and!; try exact I; try exact dice_ok; try lia; try reflexivity.
apply Forall_singleton. split; [reflexivity|cbn [archived ae_timestamp]; lia].
Qed.



Lemma long_retention_erases_log_witness :
  ∃ es st', log_events (au_rows (log_of busy)) = Ok es ∧
    prune_realm_audit None None 1700000000000000 dice (log_of busy) = Some (MkPruneReport (zlen es) 0 None None, st') ∧ log_events (au_rows st') = Ok [].
Proof.
assert (get_retention_config (log_of busy) = Ok (MkRetention 36500 None)) as Hconfig by (vm_compute; reflexivity).
assert (0 <= 1700000000000000) as Hnow by lia.
assert (1700000000000000 < rc_retention_days (MkRetention 36500 None) * 86400 * 1000000 < 2 ^ 63) as Hdays by (cbn [rc_retention_days]; lia).
exact (long_retention_erases_log shop None false true busy (MkRetention 36500 None) 1700000000000000 dice busy_clocked dice_ok Hconfig Hnow Hdays eq_refl).
Defined.

Definition two_events : list Ev := at_time 10 (did "alice" AUserCreated None) ++ at_time 20 (did "bob" AUserDeleted None).
Lemma two_clocked : clocked None 0 0 two_events.
Proof.
unfold two_events, at_time. cbn [app clocked ev_ok ev_time ev_cost]. split_and!; try exact I; try exact dice_ok; try lia; reflexivity.
Qed.

Lemma tampering_detected_witness :
  ∃ a es es', log_events (au_rows (log_of two_events)) = Ok es ∧ log_events (au_rows (log_of two_events)) = Ok es' ∧
    (hashable <$> es' = hashable <$> es ∨
     collision (fr_key dice) (inputs a es ++ inputs a es') (tags_of (fr_key dice) a es ++ tags_of (fr_key dice) a es')).
Proof.
assert (au_rows (log_of two_events) !! audit_hmac_key = Some (fr_key dice)) as Hraw by (vm_compute; reflexivity).
assert (unwrapped_key None (fr_key dice) = Ok (fr_key dice)) as Hkey by (vm_compute; reflexivity).
assert (is_Some (au_rows (log_of two_events) !! chain_head_key)) as Hhead by (vm_compute; eexists; reflexivity).
assert (zlen (event_entries (au_rows (log_of two_events))) < 2 ^ 64) as Hlen by (vm_compute; reflexivity).
assert (verify_rows None None true (Some (fr_key dice)) (au_rows (log_of two_events)) = Ok true) as Hv by (vm_compute; reflexivity).
exact (tampering_detected shop None false true two_events (fr_key dice) (fr_key dice) _ true two_clocked Hraw Hkey eq_refl Hhead Hlen Hv).
Defined.

(** ** Where the log departs from its documentation *)

Definition clock_stepped_back : list Ev := at_time 100 (did "alice" AUserCreated None) ++ at_time 90 (did "alice" AUserDeleted None).
Definition pruned_log : list Ev :=
  at_time 10 (did "alice" AUserCreated None) ++ at_time 20 (did "alice" AUserUpdated None) ++ at_time 30 (did "alice" AUserDeleted None) ++
  [EvPrune (Some 15) PRUNE_BATCH dice true].

(** Two false alarms. The primary key puts the time before the sequence number, so
an event appended after the clock stepped back sorts before its predecessor and the
whole log is reported as tampered with. And a range that begins right after the pruned
events is verified from the genesis text instead of the anchor, so an untouched log is
reported as tampered with, although the full verification accepts it. *)
Theorem verification_false_alarms :
  verdict None None clock_stepped_back = Ok false ∧
  verdict None None pruned_log = Ok true ∧ verdict (Some 15) None pruned_log = Ok false.
Proof. split_and!; vm_compute; reflexivity. Qed.

Definition all_of : AuditQuery := MkQuery None None None None None None None.
Definition by_actor (actor : string) (action : option AuditAction) (limit : option nat) (tool : option Str) : AuditQuery :=
  MkQuery None None (Some (lit actor)) action limit None tool.
Definition found (q : AuditQuery) (evs : list Ev) : ares (list (Str * AuditAction)) :=
  events ← run_query q (log_of evs); Ok (map (λ e, (ae_actor e, ae_action e)) events).
Definition two_actors : list Ev :=
  at_time 10 (did "svc" AUserCreated None) ++
  at_time 20 (did "svc" AUserUpdated (Some (JObject [(lit "tool", JString (lit "cli"))]))) ++ at_time 30 (did "svc:backup" AUserDeleted None).

(** The filters of a query are not all applied: with an actor the action is ignored;
an actor's query also returns the events of actors whose name extends it after a colon;
a limit of zero returns an event; and the metadata filters run after the limit, so a
page can be empty although a later event matches. *)
Theorem query_filters_not_conjoined :
  found (by_actor "svc" (Some AUserDeleted) None None) two_actors =
    Ok [(lit "svc", AUserCreated); (lit "svc", AUserUpdated); (lit "svc:backup", AUserDeleted)] ∧
  found (by_actor "svc" None (Some 0%nat) None) two_actors = Ok [(lit "svc", AUserCreated)] ∧
  found (by_actor "svc" None (Some 1%nat) (Some (lit "cli"))) two_actors = Ok [] ∧
  found (by_actor "svc" None None (Some (lit "cli"))) two_actors = Ok [(lit "svc", AUserUpdated)].
Proof. split_and!; vm_compute; reflexivity. Qed.

Lemma envelope_exact_witness :
  ∃ w, wrap_key (replicate 32 x07) (Some (replicate 32 x09)) (replicate 12 x01) = Ok w ∧
    (unwrap_key_strict w (Some (replicate 32 x09)) = Ok (replicate 32 x07) ↔ is_Some (Some (replicate 32 x09)) ∨ is_enveloped (replicate 32 x07) = false) ∧
    (∀ k bytes, is_enveloped bytes = false → unwrap_key_strict bytes (Some k) = Err NotEnveloped).
Proof.
eexists. split; [vm_compute; reflexivity|].
apply (envelope_exact (replicate 32 x07) (Some (replicate 32 x09)) (replicate 12 x01)); vm_compute; reflexivity.
Defined.
