(* ===== verification/IpAddr.v ===== *)
(** * Network addresses and their text

[std::net::IpAddr] as the address policies of Hearth use it: an address is its
32 or 128 bits, parsed by the Standard Library's strict address grammar and printed
by its [Display]. The parser is a recursive descent over the bytes of the text in
which every alternative that fails leaves the input where it was, so it is written
as functions from the input to an optional value and the rest of the input.

The main result is that printing is a right inverse of parsing on every address
([ip_text_roundtrip]): the compressed form of an IPv6 address, with its single
[::] and its embedded IPv4 tail, reads back as the address it was printed from. *)
From stdpp Require Import base list numbers list_numbers strings sorting.
From Stdlib Require Import Strings.Byte ZArith Lia.
From S2P Require Import Prelude OrdMap StorageTypes RbacTypes.

Open Scope Z_scope.

(** ** Addresses *)

(** The bits of an address, most significant first. *)
Inductive IpAddr :=
| V4 (bits : Z)
| V6 (bits : Z).

#[export] Instance IpAddr_eq_dec : EqDecision IpAddr.
Proof. solve_decision. Defined.

Definition ip_ok (a : IpAddr) : Prop :=
  match a with
  | V4 b => 0 <= b < 2 ^ 32
  | V6 b => 0 <= b < 2 ^ 128
  end.

(** The [n] groups of [w] bits of an address, most significant first:
[Ipv4Addr::octets] and [Ipv6Addr::segments]. *)
Definition groups_of (n w b : Z) : list Z := reverse (Z_to_little_endian n w b).
Definition of_groups (w : Z) (gs : list Z) : Z := little_endian_to_Z w (reverse gs).
Definition octets (b : Z) : list Z := groups_of 4 8 b.
Definition segments (b : Z) : list Z := groups_of 8 16 b.

(** [Ipv6Addr::to_ipv4_mapped]: the address in [::ffff:a.b.c.d]. *)
Definition to_ipv4_mapped (b : Z) : option Z :=
  if b / 2 ^ 32 =? 0xffff then Some (b mod 2 ^ 32) else None.
(** [IpAddr::to_canonical], [is_unspecified], [is_loopback]. *)
Definition to_canonical (a : IpAddr) : IpAddr :=
  match a with
  | V4 _ => a
  | V6 b => match to_ipv4_mapped b with Some v => V4 v | None => a end
  end.
Definition is_unspecified (a : IpAddr) : bool :=
  match a with V4 b => b =? 0 | V6 b => b =? 0 end.
Definition is_loopback (a : IpAddr) : bool :=
  match a with V4 b => b / 2 ^ 24 =? 127 | V6 b => b =? 1 end.

(** ** Digits *)

(** [char::to_digit(radix)] for a radix up to sixteen. *)
Definition char_to_digit (radix : Z) (c : byte) : option Z :=
  let v := byte_val c in
  let d := if (48 <=? v) && (v <=? 57) then Some (v - 48)
           else if (97 <=? v) && (v <=? 102) then Some (v - 87)
           else if (65 <=? v) && (v <=? 70) then Some (v - 55)
           else None in
  match d with Some x => if x <? radix then Some x else None | None => None end.
Definition digit_char (n : Z) : byte := byte_of (if n <? 10 then 48 + n else 87 + n).

(** The [{}] and [{:x}] forms of an unsigned integer: no padding. Sixteen digits are
more than any integer printed here has. *)
Fixpoint radix_digits (fuel : nat) (radix z : Z) (acc : Str) : Str :=
  match fuel with
  | O => acc
  | S fuel' =>
      let acc' := digit_char (z mod radix) :: acc in
      if z <? radix then acc' else radix_digits fuel' radix (z / radix) acc'
  end.
Definition fmt_radix (radix z : Z) : Str := radix_digits 16 radix z [].

(** ** The address parser *)

(** The digits at the head of the input: how many there are and their value. *)
Fixpoint take_digits (radix : Z) (acc : Z) (count : nat) (s : Str) : Z * nat * Str :=
  match s with
  | [] => (acc, count, [])
  | c :: s' =>
      match char_to_digit radix c with
      | Some d => take_digits radix (acc * radix + d) (S count) s'
      | None => (acc, count, s)
      end
  end.

(** [Parser::read_number] with a bound on the digits: the accumulator is a [u32],
which the bound keeps from overflowing. *)
Definition read_number (radix : Z) (max_digits : nat) (allow_zero_prefix : bool) (limit : Z) (s : Str)
  : option (Z * Str) :=
  let '(v, n, rest) := take_digits radix 0 0 s in
  if bool_decide (max_digits < n)%nat then None
  else if bool_decide (n = 0%nat) then None
  else if negb allow_zero_prefix && bool_decide (head s = Some x30) && bool_decide (1 < n)%nat then None
  else if v <=? limit then Some (v, rest) else None.

(** [Parser::read_given_char] and [Parser::read_separator]. *)
Definition read_given_char (c : byte) (s : Str) : option Str :=
  match s with x :: s' => if decide (x = c) then Some s' else None | [] => None end.
Definition read_separator {A} (c : byte) (index : nat) (inner : Str → option (A * Str)) (s : Str)
  : option (A * Str) :=
  match index with
  | O => inner s
  | S _ => s' ← read_given_char c s; inner s'
  end.

(** [Parser::read_ipv4_addr]: four octets, no zero padding. *)
Definition read_octet (i : nat) : Str → option (Z * Str) :=
  read_separator dot i (read_number 10 3 false 255).
Definition read_ipv4_addr (s : Str) : option (Z * Str) :=
  '(a, s) ← read_octet 0 s;
  '(b, s) ← read_octet 1 s;
  '(c, s) ← read_octet 2 s;
  '(d, s) ← read_octet 3 s;
  Some (of_groups 8 [a; b; c; d], s).

(** [read_groups] of [Parser::read_ipv6_addr], from group [i] with [n] groups left:
the groups read, whether the last two came from an embedded IPv4 address, and the
rest. *)
Fixpoint read_groups (i n : nat) (s : Str) : list Z * bool * Str :=
  match n with
  | O => ([], false, s)
  | S n' =>
      match (match n' with O => None | S _ => read_separator colon i read_ipv4_addr s end) with
      | Some (v4, s') => ([v4 / 2 ^ 16; v4 mod 2 ^ 16], true, s')
      | None =>
          match read_separator colon i (read_number 16 4 true 65535) s with
          | Some (g, s') =>
              let '(gs, v4, rest) := read_groups (S i) n' s' in (g :: gs, v4, rest)
          | None => ([], false, s)
          end
      end
  end.

(** [Parser::read_ipv6_addr]. *)
Definition read_ipv6_addr (s : Str) : option (Z * Str) :=
  let '(h, head_ipv4, s1) := read_groups 0 8 s in
  if bool_decide (length h = 8%nat) then Some (of_groups 16 h, s1)
  else if head_ipv4 then None
  else
    s2 ← read_given_char colon s1;
    s3 ← read_given_char colon s2;
    let '(t, _, s4) := read_groups 0 (8 - (length h + 1)) s3 in
    Some (of_groups 16 (h ++ replicate (8 - length h - length t) 0 ++ t), s4).

(** [Parser::read_ip_addr] and [IpAddr::from_str], which refuses what is left over. *)
Definition read_ip_addr (s : Str) : option (IpAddr * Str) :=
  match read_ipv4_addr s with
  | Some (b, s') => Some (V4 b, s')
  | None => '(b, s') ← read_ipv6_addr s; Some (V6 b, s')
  end.
Definition parse_ip (s : Str) : option IpAddr :=
  '(a, s') ← read_ip_addr s;
  if bool_decide (s' = []) then Some a else None.

(** ** Display *)

Definition ipv4_to_string (b : Z) : Str := join_with dot (fmt_radix 10 <$> octets b).

(** The longest run of zero groups, the first of them when there are several: its
start and length. [cur] is the run that ends just before group [i]. *)
Fixpoint longest_zeroes (i : nat) (cur longest : nat * nat) (gs : list Z) : nat * nat :=
  match gs with
  | [] => longest
  | g :: gs' =>
      if g =? 0 then
        let cur' := (if bool_decide (cur.2 = 0%nat) then i else cur.1, S cur.2) in
        longest_zeroes (S i) cur' (if bool_decide (longest.2 < cur'.2)%nat then cur' else longest) gs'
      else longest_zeroes (S i) (0%nat, 0%nat) longest gs'
  end.
(** [fmt_subslice]. *)
Definition fmt_subslice (gs : list Z) : Str := join_with colon (fmt_radix 16 <$> gs).
Definition ipv6_to_string (b : Z) : Str :=
  match to_ipv4_mapped b with
  | Some v4 => lit "::ffff:" ++ ipv4_to_string v4
  | None =>
      let gs := segments b in
      let z := longest_zeroes 0 (0%nat, 0%nat) (0%nat, 0%nat) gs in
      if bool_decide (1 < z.2)%nat
      then fmt_subslice (take z.1 gs) ++ lit "::" ++ fmt_subslice (drop (z.1 + z.2) gs)
      else fmt_subslice gs
  end.
Definition ip_to_string (a : IpAddr) : Str :=
  match a with V4 b => ipv4_to_string b | V6 b => ipv6_to_string b end.

(** Spot checks of the grammar. *)
Example parse_ip_examples :
  parse_ip (lit "192.0.2.7") = Some (V4 3221225991) ∧
  parse_ip (lit "192.0.2.07") = None ∧ parse_ip (lit "192.0.2") = None ∧ parse_ip (lit "192.0.2.256") = None ∧
  parse_ip (lit "::ffff:127.0.0.1") = Some (V6 (0xffff * 2 ^ 32 + 2130706433)) ∧
  parse_ip (lit "fe80::1%eth0") = None ∧ parse_ip (lit "[::1]") = None ∧ parse_ip (lit " ::1") = None ∧
  parse_ip (lit "1:2:3:4:5:6:7::") = Some (V6 (of_groups 16 [1;2;3;4;5;6;7;0])) ∧
  parse_ip (lit "1:2:3:4:5:6:7:8::") = None ∧ parse_ip (lit "1::2::3") = None ∧
  ip_to_string (V6 (of_groups 16 [0x2001; 0xdb8; 0; 0; 1; 0; 0; 1])) = lit "2001:db8::1:0:0:1" ∧
  ip_to_string (V6 1) = lit "::1" ∧ ip_to_string (V6 0) = lit "::".
Proof. by vm_compute. Qed.

(** ** Groups *)

Lemma length_groups_of n w b : 0 <= n → 0 <= w → length (groups_of n w b) = Z.to_nat n.
Proof.
intros ??. unfold groups_of. rewrite length_reverse.
pose proof (length_Z_to_little_endian n w b). lia.
Qed.

Lemma groups_of_bound n w b : 0 <= n → 0 <= w → Forall (λ g, 0 <= g < 2 ^ w) (groups_of n w b).
Proof. intros ??. unfold groups_of. apply Forall_reverse. by apply Z_to_little_endian_bound. Qed.

Lemma of_groups_of n w b : 0 <= n → 0 <= w → 0 <= b < 2 ^ (n * w) → of_groups w (groups_of n w b) = b.
Proof.
intros ???. unfold of_groups, groups_of. rewrite reverse_involutive.
rewrite little_endian_to_Z_to_little_endian by lia. by rewrite Z.mod_small.
Qed.

Lemma of_groups_bound w gs : 0 <= w → Forall (λ g, 0 <= g < 2 ^ w) gs → 0 <= of_groups w gs < 2 ^ (zlen gs * w).
Proof.
intros Hw Hgs. unfold of_groups, zlen. rewrite <-length_reverse. apply little_endian_to_Z_bound; [done|].
by apply Forall_reverse.
Qed.

Lemma of_groups_snoc w gs g : 0 <= w → 0 <= g < 2 ^ w → of_groups w (gs ++ [g]) = of_groups w gs * 2 ^ w + g.
Proof.
intros Hw Hg. unfold of_groups. rewrite reverse_app. cbn [reverse rev_append app little_endian_to_Z].
set (x := little_endian_to_Z w (reverse gs)).
assert (Z.land g (Z.shiftl x w) = 0) as Hland.
{ apply Z.bits_inj'. intros i Hi. rewrite Z.land_spec, Z.shiftl_spec, Z.bits_0 by done.
  destruct (decide (i < w)); [rewrite (Z.testbit_neg_r x) by lia; apply andb_false_r|].
  rewrite <-(Z.mod_small g (2 ^ w)) by done. by rewrite Z.mod_pow2_bits_high by lia. }
rewrite <-Z.lxor_lor, <-Z.add_nocarry_lxor by done. rewrite Z.shiftl_mul_pow2 by done. lia.
Qed.

(** ** Digits and the text that follows them *)

(** The input does not go on with a digit. *)
Definition stops (radix : Z) (s : Str) : Prop :=
  match s with c :: _ => char_to_digit radix c = None | [] => True end.

Lemma take_digits_app radix s rest acc n v m :
  take_digits radix acc n s = (v, m, []) → stops radix rest → take_digits radix acc n (s ++ rest) = (v, m, rest).
Proof.
revert acc n. induction s as [|c s IH]; simpl; intros acc n Ht Hr.
- injection Ht as <- <-. destruct rest as [|c rest]; [done|]. simpl in *. by rewrite Hr.
- destruct (char_to_digit radix c); [by apply IH|done].
Qed.

(** A text of [z]: digits only, at most [md] of them, and no zero padding. *)
Definition number_text (radix : Z) (md : nat) (z : Z) (s : Str) : bool :=
  (let '(v, n, rest) := take_digits radix 0 0 s in
   (v =? z) && Nat.eqb n (length s) && match rest with [] => true | _ => false end) &&
  Nat.leb (length s) md && negb (Nat.eqb (length s) 0) &&
  (match s with c :: _ => negb (byte_val c =? 48) | [] => true end || Nat.leb (length s) 1) &&
  forallb (λ c, negb (byte_val c =? 46)) s.

Lemma read_number_text radix md azp limit z s rest :
  number_text radix md z s = true → z <= limit → stops radix rest →
  read_number radix md azp limit (s ++ rest) = Some (z, rest).
Proof.
unfold number_text. rewrite !andb_true_iff. intros ((((Ht & Hl) & Hn) & Hz) & _) Hlim Hr.
apply Nat.leb_le in Hl. apply negb_true_iff, Nat.eqb_neq in Hn.
assert (take_digits radix 0 0 s = (z, length s, [])) as Htd.
{ destruct (take_digits radix 0 0 s) as [[v n] [|]]; rewrite !andb_true_iff in Ht; destruct Ht as [[Hv Hn'] ?]; [|done].
  apply Z.eqb_eq in Hv. apply Nat.eqb_eq in Hn'. by subst. }
unfold read_number. rewrite (take_digits_app _ _ _ _ _ _ _ Htd Hr).
rewrite bool_decide_eq_false_2 by lia. rewrite bool_decide_eq_false_2 by done.
assert (head (s ++ rest) = head s) as -> by (by destruct s).
replace (negb azp && _ && _) with false; [by rewrite (proj2 (Z.leb_le _ _) Hlim)|].
symmetry. destruct azp; [done|]. simpl. apply orb_true_iff in Hz as [Hz|Hz].
- rewrite (bool_decide_eq_false_2 (head s = Some x30)); [done|].
  destruct s as [|c s]; [done|]. intros [= ->]. discriminate.
- apply Nat.leb_le in Hz. rewrite (bool_decide_eq_false_2 (1 < length s)%nat) by lia. apply andb_false_r.
Qed.

(** A check of every integer from [z] up, [n] of them. *)
Fixpoint check_from (n : nat) (z : Z) (P : Z → bool) : bool :=
  match n with O => true | S n' => P z && check_from n' (z + 1) P end.

Lemma check_from_all P n : ∀ z, check_from n z P = true → ∀ y, z <= y < z + Z.of_nat n → P y = true.
Proof.
induction n as [|n IH]; intros z; [lia|]. cbn [check_from]. rewrite andb_true_iff. intros [Hz Hn] y Hy.
destruct (decide (y = z)) as [->|]; [done|]. apply (IH (z + 1)); [done|lia].
Qed.

Lemma fmt_octet g : 0 <= g < 2 ^ 8 → number_text 10 3 g (fmt_radix 10 g) = true.
Proof. apply (check_from_all (λ g, number_text 10 3 g (fmt_radix 10 g)) 256). by vm_compute. Qed.

Lemma fmt_group g : 0 <= g < 2 ^ 16 → number_text 16 4 g (fmt_radix 16 g) = true.
Proof. apply (check_from_all (λ g, number_text 16 4 g (fmt_radix 16 g)) (Z.to_nat 65536)). by vm_compute. Qed.

Lemma read_given_same c s : read_given_char c (c :: s) = Some s.
Proof. simpl. by rewrite decide_True. Qed.

(** ** IPv4 *)

Lemma read_octet_fmt i g rest : 0 <= g < 2 ^ 8 → stops 10 rest →
  read_octet (S i) (dot :: fmt_radix 10 g ++ rest) = Some (g, rest).
Proof.
intros Hg Hr. unfold read_octet. simpl. apply read_number_text; [by apply fmt_octet|lia|done].
Qed.

Lemma read_ipv4_fmt b rest : 0 <= b < 2 ^ 32 → stops 10 rest →
  read_ipv4_addr (ipv4_to_string b ++ rest) = Some (b, rest).
Proof.
intros Hb Hr. unfold ipv4_to_string.
pose proof (of_groups_of 4 8 b ltac:(lia) ltac:(lia) ltac:(lia)) as Hback.
pose proof (groups_of_bound 4 8 b ltac:(lia) ltac:(lia)) as Hbound.
pose proof (length_groups_of 4 8 b ltac:(lia) ltac:(lia)) as Hlen. unfold octets.
destruct (groups_of 4 8 b) as [|g0 [|g1 [|g2 [|g3 [|]]]]] eqn:Hgs; try discriminate.
repeat match goal with Hf : Forall _ (_ :: _) |- _ => apply Forall_cons in Hf as [? Hf] end.
cbn [fmap list_fmap join_with]. repeat (rewrite <-app_assoc || cbn [app]).
unfold read_ipv4_addr. change (read_octet 0) with (read_number 10 3 false 255).
rewrite read_number_text with (z := g0); [|by apply fmt_octet|lia|done]. cbn [mbind option_bind].
rewrite read_octet_fmt by done. cbn [mbind option_bind].
rewrite read_octet_fmt by done. cbn [mbind option_bind].
rewrite read_octet_fmt by done. cbn [mbind option_bind]. by rewrite Hback.
Qed.

Lemma take_digits_no_dot radix s rest acc n :
  forallb (λ c, negb (byte_val c =? 46)) s = true → stops radix rest → head rest ≠ Some dot →
  head (take_digits radix acc n (s ++ rest)).2 ≠ Some dot.
Proof.
revert acc n. induction s as [|c s IH]; simpl; intros acc n Hs Hr Hd.
- destruct rest as [|c rest]; [done|]. simpl in *. by rewrite Hr.
- apply andb_true_iff in Hs as [Hc Hs]. destruct (char_to_digit radix c); [by apply IH|].
  simpl. intros [= ->]. discriminate.
Qed.

(** A text whose leading digits are not followed by a dot is no IPv4 address. *)
Lemma read_ipv4_no_dot s : head (take_digits 10 0 0 s).2 ≠ Some dot → read_ipv4_addr s = None.
Proof.
intros Hd. unfold read_ipv4_addr. change (read_octet 0 s) with (read_number 10 3 false 255 s). unfold read_number.
destruct (take_digits 10 0 0 s) as [[v n] rest]. simpl in Hd.
repeat case_match; simplify_option_eq; try done.
all: destruct rest as [|c rest]; simpl in *; simplify_option_eq; try done.
all: case_decide; simplify_option_eq; done.
Qed.

Lemma read_ipv4_group g rest : 0 <= g < 2 ^ 16 → stops 10 rest → head rest ≠ Some dot →
  read_ipv4_addr (fmt_radix 16 g ++ rest) = None.
Proof.
intros Hg Hr Hd. apply read_ipv4_no_dot, take_digits_no_dot; [|done..].
apply fmt_group in Hg. unfold number_text in Hg. by apply andb_true_iff in Hg as [_ ?].
Qed.

(** ** IPv6 *)

(** Groups after the first, each behind its separator. *)
Definition tail_text (gs : list Z) : Str := gs ≫= λ g, colon :: fmt_radix 16 g.

Lemma fmt_subslice_cons g gs : fmt_subslice (g :: gs) = fmt_radix 16 g ++ tail_text gs.
Proof.
unfold fmt_subslice, tail_text. revert g. induction gs as [|g' gs IH]; intros g; [cbn; by rewrite app_nil_r|].
change (fmt_radix 16 <$> g :: g' :: gs) with (fmt_radix 16 g :: fmt_radix 16 g' :: (fmt_radix 16 <$> gs)).
change (join_with colon (fmt_radix 16 g :: fmt_radix 16 g' :: (fmt_radix 16 <$> gs)))
  with (fmt_radix 16 g ++ colon :: join_with colon (fmt_radix 16 <$> (g' :: gs))).
rewrite IH. done.
Qed.

(** What ends a list of groups: the end of the text or the compressed run. *)
Definition group_end (rest : Str) : Prop := rest = [] ∨ ∃ t, rest = colon :: colon :: t.

Lemma group_end_stops radix gs rest : 10 <= radix <= 16 → group_end rest →
  stops radix (tail_text gs ++ rest) ∧ head (tail_text gs ++ rest) ≠ Some dot.
Proof.
assert (char_to_digit radix colon = None) as Hc by done.
intros _ [->|[t ->]]; destruct gs as [|g gs]; simpl; try rewrite app_nil_r; done.
Qed.

Lemma read_number_none radix md azp limit s : stops radix s → read_number radix md azp limit s = None.
Proof.
intros Hs. unfold read_number. destruct s as [|c s]; cbn [take_digits]; [|simpl in Hs; rewrite Hs]; by repeat case_bool_decide.
Qed.

Lemma read_ipv4_none s : stops 10 s → head s ≠ Some dot → read_ipv4_addr s = None.
Proof.
intros Hs Hd. apply read_ipv4_no_dot. destruct s as [|c s]; [done|]. simpl in *. by rewrite Hs.
Qed.

Lemma read_groups_end i n rest : group_end rest → read_groups i n rest = ([], false, rest).
Proof.
intros Hr. destruct n as [|n]; [done|]. cbn [read_groups].
assert (∀ A (inner : Str → option (A * Str)), (∀ s, s = [] ∨ head s = Some colon → inner s = None) →
  read_separator colon i inner rest = None) as Hsep.
{ intros A inner Hin. destruct i as [|i]; [by apply Hin; destruct Hr as [->|[t ->]]; [left|right]|].
  destruct Hr as [->|[t ->]]; [done|]. simpl. apply Hin. by right. }
assert (∀ s, s = [] ∨ head s = Some colon → stops 10 s ∧ stops 16 s ∧ head s ≠ Some dot) as Hs.
{ intros [|c s] [He|He]; simplify_eq/=; done. }
rewrite (Hsep _ (read_number 16 4 true 65535)) by (intros s Hc; by apply read_number_none, Hs).
rewrite (Hsep _ read_ipv4_addr) by (intros s Hc; by apply read_ipv4_none; apply Hs).
by destruct n.
Qed.

Lemma read_groups_step i n g gs rest : 0 <= g < 2 ^ 16 → group_end rest →
  read_groups i (S n) (match i with O => [] | S _ => [colon] end ++ fmt_radix 16 g ++ tail_text gs ++ rest) =
  let '(gs', v4, s') := read_groups (S i) n (tail_text gs ++ rest) in (g :: gs', v4, s').
Proof.
intros Hg Hr. destruct (group_end_stops 10 gs rest ltac:(lia) Hr) as [Hs10 Hd].
destruct (group_end_stops 16 gs rest ltac:(lia) Hr) as [Hs16 _].
set (s := match i with O => [] | S _ => [colon] end ++ _).
assert (read_separator colon i read_ipv4_addr s = None) as Hv4.
{ subst s. destruct i; simpl; by apply read_ipv4_group. }
assert (read_separator colon i (read_number 16 4 true 65535) s = Some (g, tail_text gs ++ rest)) as Hn.
{ subst s. destruct i; simpl; (apply read_number_text; [by apply fmt_group|lia|done]). }
cbn [read_groups]. rewrite Hv4, Hn. by destruct n.
Qed.

Lemma read_groups_tail gs : ∀ i n rest, (length gs ≤ n)%nat → Forall (λ g, 0 <= g < 2 ^ 16) gs → group_end rest →
  read_groups (S i) n (tail_text gs ++ rest) = (gs, false, rest).
Proof.
induction gs as [|g gs IH]; intros i n rest Hn Hgs Hr; [by apply read_groups_end|].
apply Forall_cons in Hgs as [Hg Hgs]. destruct n as [|n]; simpl in Hn; [lia|].
pose proof (read_groups_step (S i) n g gs rest Hg Hr) as Hstep. cbn [app] in Hstep.
change (tail_text (g :: gs)) with ((colon :: fmt_radix 16 g) ++ tail_text gs).
rewrite <-app_assoc. cbn [app]. rewrite Hstep, IH; [done|lia|done..].
Qed.

Lemma read_groups_text gs n rest : (length gs ≤ n)%nat → Forall (λ g, 0 <= g < 2 ^ 16) gs → group_end rest →
  read_groups 0 n (fmt_subslice gs ++ rest) = (gs, false, rest).
Proof.
intros Hn Hgs Hr. destruct gs as [|g gs]; [by apply read_groups_end|].
apply Forall_cons in Hgs as [Hg Hgs]. destruct n as [|n]; simpl in Hn; [lia|].
rewrite fmt_subslice_cons, <-app_assoc. pose proof (read_groups_step 0 n g gs rest Hg Hr) as Hstep. cbn [app] in Hstep.
rewrite Hstep, read_groups_tail; [done|lia|done..].
Qed.

Lemma read_ipv4_groups gs rest : Forall (λ g, 0 <= g < 2 ^ 16) gs → group_end rest →
  read_ipv4_addr (fmt_subslice gs ++ rest) = None.
Proof.
intros Hgs Hr. destruct gs as [|g gs].
- apply read_ipv4_none; by destruct Hr as [->|[t ->]].
- apply Forall_cons in Hgs as [Hg _]. rewrite fmt_subslice_cons, <-app_assoc.
  apply read_ipv4_group; [done|by apply (group_end_stops 10)..].
Qed.

(** ** The compressed run *)

(** Every group of the span is zero. *)
Definition zero_span (gs : list Z) (sp : nat * nat) : Prop :=
  ∀ j, (sp.1 ≤ j < sp.1 + sp.2)%nat → gs !! j = Some 0.

Lemma longest_zeroes_span gs : ∀ pre cur longest,
  zero_span (pre ++ gs) longest → zero_span (pre ++ gs) cur →
  (cur.2 ≠ 0%nat → (cur.1 + cur.2 = length pre)%nat) →
  zero_span (pre ++ gs) (longest_zeroes (length pre) cur longest gs).
Proof.
induction gs as [|g gs IH]; intros pre [cs cl] [ls ll] Hl Hc Hend; [done|]. cbn [longest_zeroes].
assert (pre ++ g :: gs = (pre ++ [g]) ++ gs) as Happ by (by rewrite <-app_assoc).
assert (S (length pre) = length (pre ++ [g])) as Hlen by (rewrite length_app; simpl; lia).
rewrite Happ in *. rewrite Hlen. simpl in Hend. destruct (Z.eqb_spec g 0) as [->|Hg].
- set (cur' := (if bool_decide (cl = 0%nat) then length pre else cs, S cl)).
  assert (zero_span ((pre ++ [0]) ++ gs) cur') as Hc'.
  { intros j Hj. subst cur'. unfold zero_span in Hc. simpl in *. case_bool_decide.
    - assert (j = length pre) as -> by lia. rewrite <-app_assoc. by apply list_lookup_middle.
    - destruct (decide (j = length pre)) as [->|]; [rewrite <-app_assoc; by apply list_lookup_middle|]. apply Hc. lia. }
  apply IH; [by case_bool_decide|done|].
  intros _. subst cur'. rewrite length_app. simpl. case_bool_decide; lia.
- apply IH; [done| |done]. intros j Hj. simpl in Hj. lia.
Qed.

(** The text around the run and the zeroes in it are the whole address. *)
Lemma zero_span_split gs st len : zero_span gs (st, len) → len ≠ 0%nat →
  gs = take st gs ++ replicate (length gs - length (take st gs) - length (drop (st + len) gs)) 0 ++ drop (st + len) gs ∧
  (st + len ≤ length gs)%nat.
Proof.
intros Hz Hl. unfold zero_span in Hz. simpl in Hz.
assert (st + len ≤ length gs)%nat as Hle.
{ pose proof (Hz (st + len - 1)%nat ltac:(lia)) as Hlast. apply lookup_lt_Some in Hlast. lia. }
split; [|done]. rewrite length_take, length_drop.
replace (length gs - st `min` length gs - (length gs - (st + len)))%nat with len by lia.
rewrite <-(take_drop st gs) at 1. f_equal. rewrite <-(take_drop len (drop st gs)) at 1. rewrite drop_drop. f_equal.
apply list_eq_same_length with len; [by rewrite length_replicate|rewrite length_take, length_drop; lia|].
intros i x y Hi Hx Hy. rewrite lookup_replicate in Hy. destruct Hy as [-> _].
rewrite lookup_take_lt in Hx by done. rewrite lookup_drop, Hz in Hx by lia. congruence.
Qed.

(** ** Printing and reading back *)

Lemma mapped_bits b v : 0 <= b → to_ipv4_mapped b = Some v → b = 65535 * 2 ^ 32 + v ∧ 0 <= v < 2 ^ 32.
Proof.
unfold to_ipv4_mapped. intros Hb Hm. destruct (Z.eqb_spec (b / 2 ^ 32) 0xffff) as [He|]; [|done]. injection Hm as <-.
pose proof (Z.div_mod b (2 ^ 32) ltac:(lia)). pose proof (Z.mod_pos_bound b (2 ^ 32) ltac:(lia)). lia.
Qed.

Lemma read_ipv6_mapped v : 0 <= v < 2 ^ 32 →
  read_ipv6_addr (lit "::ffff:" ++ ipv4_to_string v) = Some (65535 * 2 ^ 32 + v, []).
Proof.
intros Hv. change (lit "::ffff:" ++ ipv4_to_string v) with (colon :: colon :: fmt_radix 16 65535 ++ colon :: ipv4_to_string v).
unfold read_ipv6_addr. rewrite read_groups_end by (right; eauto). cbn [length Nat.sub Nat.add].
rewrite bool_decide_eq_false_2 by done. rewrite !read_given_same. cbn [mbind option_bind].
rewrite read_given_same. cbn [mbind option_bind]. assert (read_groups 0 7 (fmt_radix 16 65535 ++ colon :: ipv4_to_string v) = ([65535; v / 2 ^ 16; v mod 2 ^ 16], true, [])) as ->.
{ cbn [read_groups read_separator]. rewrite read_ipv4_group by done.
  rewrite read_number_text with (z := 65535); [|by apply fmt_group|lia|done].
  rewrite read_given_same. cbn [mbind option_bind].
  pose proof (read_ipv4_fmt v [] Hv I) as Hr. rewrite app_nil_r in Hr. by rewrite Hr. }
cbn [length Nat.sub Nat.add app replicate].
change [0; 0; 0; 0; 0; 65535; v / 2 ^ 16; v mod 2 ^ 16] with (([0; 0; 0; 0; 0; 65535] ++ [v / 2 ^ 16]) ++ [v mod 2 ^ 16]).
pose proof (Z.div_mod v (2 ^ 16) ltac:(lia)). pose proof (Z.mod_pos_bound v (2 ^ 16) ltac:(lia)).
rewrite !of_groups_snoc by lia. change (of_groups 16 [0; 0; 0; 0; 0; 65535]) with 65535. do 2 f_equal. lia.
Qed.

Lemma read_ipv6_full b : 0 <= b < 2 ^ 128 → read_ipv6_addr (fmt_subslice (segments b)) = Some (b, []).
Proof.
intros Hb. pose proof (length_groups_of 8 16 b ltac:(lia) ltac:(lia)) as Hlen.
pose proof (groups_of_bound 8 16 b ltac:(lia) ltac:(lia)) as Hbound.
rewrite <-(app_nil_r (fmt_subslice (segments b))). unfold read_ipv6_addr, segments.
rewrite read_groups_text by (try done; try (left; done); rewrite Hlen; lia). rewrite bool_decide_eq_true_2 by done.
by rewrite of_groups_of by lia.
Qed.

Lemma read_ipv6_compressed b st len : 0 <= b < 2 ^ 128 → zero_span (segments b) (st, len) → (1 < len)%nat →
  read_ipv6_addr (fmt_subslice (take st (segments b)) ++ lit "::" ++ fmt_subslice (drop (st + len) (segments b))) = Some (b, []).
Proof.
intros Hb Hz Hl. pose proof (length_groups_of 8 16 b ltac:(lia) ltac:(lia)) as Hlen.
pose proof (groups_of_bound 8 16 b ltac:(lia) ltac:(lia)) as Hbound.
destruct (zero_span_split _ _ _ Hz ltac:(lia)) as [Hsplit Hle].
change (groups_of 8 16 b) with (segments b) in *. rewrite Hlen in *.
assert (length (take st (segments b)) = st) as Hst by (rewrite length_take; lia).
assert (length (drop (st + len) (segments b)) = 8 - st - len)%nat as Hdr by (rewrite length_drop; lia).
change (lit "::" ++ fmt_subslice (drop (st + len) (segments b)))
  with (colon :: colon :: fmt_subslice (drop (st + len) (segments b))).
unfold read_ipv6_addr. rewrite read_groups_text by (try (right; eauto); try (by apply Forall_take); lia).
rewrite bool_decide_eq_false_2 by lia. rewrite read_given_same. cbn [mbind option_bind].
rewrite read_given_same. cbn [mbind option_bind].
rewrite <-(app_nil_r (fmt_subslice (drop (st + len) (segments b)))).
rewrite read_groups_text by (try (left; done); try (by apply Forall_drop); lia).
change (Z.to_nat 8) with 8%nat in Hsplit. rewrite <-Hsplit. unfold segments. by rewrite of_groups_of by lia.
Qed.

Lemma ip_text_roundtrip a : ip_ok a → parse_ip (ip_to_string a) = Some a.
Proof.
unfold parse_ip, read_ip_addr. destruct a as [b|b]; cbn [ip_to_string ip_ok]; intros Hb.
{ pose proof (read_ipv4_fmt b [] Hb I) as Hr. rewrite app_nil_r in Hr. by rewrite Hr. }
pose proof (groups_of_bound 8 16 b ltac:(lia) ltac:(lia)) as Hbound. change (groups_of 8 16 b) with (segments b) in Hbound.
unfold ipv6_to_string. destruct (to_ipv4_mapped b) as [v|] eqn:Hm.
- apply mapped_bits in Hm as [-> Hv]; [|lia].
  assert (read_ipv4_addr (lit "::ffff:" ++ ipv4_to_string v) = None) as -> by (by apply read_ipv4_none).
  by rewrite read_ipv6_mapped.
- pose proof (longest_zeroes_span (segments b) [] (0, 0)%nat (0, 0)%nat) as Hz. cbn [app length] in Hz.
  destruct (longest_zeroes 0 (0, 0)%nat (0, 0)%nat (segments b)) as [st len]. cbn [fst snd].
  case_bool_decide as Hl.
  + rewrite read_ipv4_groups by (try (by apply Forall_take); right; eexists; reflexivity).
    rewrite read_ipv6_compressed; [done|done| |done].
    apply Hz; try done; intros j Hj; simpl in Hj; lia.
  + rewrite <-(app_nil_r (fmt_subslice (segments b))), read_ipv4_groups, app_nil_r by (try done; by left).
    by rewrite read_ipv6_full.
Qed.

(** What the parser accepts is an address. *)
Lemma take_digits_nonneg radix s : ∀ acc n, 0 <= radix → 0 <= acc → 0 <= (take_digits radix acc n s).1.1.
Proof.
assert (∀ c d, char_to_digit radix c = Some d → 0 <= d) as Hd.
{ intros c d. unfold char_to_digit. intros Hc. repeat case_match; simplify_eq; lia. }
induction s as [|c s IH]; simpl; intros acc n Hr Ha; [done|].
destruct (char_to_digit radix c) as [d|] eqn:Hc; [|done]. apply IH; [done|]. apply Hd in Hc. nia.
Qed.

Lemma read_number_bound radix md azp limit s v rest : 0 <= radix →
  read_number radix md azp limit s = Some (v, rest) → 0 <= v <= limit.
Proof.
intros Hr. unfold read_number. pose proof (take_digits_nonneg radix s 0 0 Hr ltac:(lia)) as Hn.
destruct (take_digits radix 0 0 s) as [[v' n] rest']. simpl in Hn.
intros Ho. repeat case_match; simplify_eq. lia.
Qed.

Lemma read_separator_some {A} c i (inner : Str → option (A * Str)) s r :
  read_separator c i inner s = Some r → ∃ s', inner s' = Some r.
Proof. destruct i; simpl; [eauto|]. destruct (read_given_char c s); simpl; [eauto|done]. Qed.

Lemma read_ipv4_bound s b rest : read_ipv4_addr s = Some (b, rest) → 0 <= b < 2 ^ 32.
Proof.
unfold read_ipv4_addr. intros Ho.
assert (∀ i s g r, read_octet i s = Some (g, r) → 0 <= g < 2 ^ 8) as Hoct.
{ intros i s' g r (s'' & Hg)%read_separator_some. apply read_number_bound in Hg; lia. }
repeat match type of Ho with
| context [read_octet ?i ?s] =>
    destruct (read_octet i s) as [[??]|] eqn:?; [|discriminate]; cbn [mbind option_bind] in Ho
end.
injection Ho as <- <-. apply (of_groups_bound 8 [_; _; _; _]); [lia|]. repeat constructor; by eapply Hoct.
Qed.

Lemma read_groups_bound n : ∀ i s gs v4 rest, read_groups i n s = (gs, v4, rest) →
  Forall (λ g, 0 <= g < 2 ^ 16) gs ∧ (length gs ≤ n)%nat.
Proof.
induction n as [|n IH]; intros i s gs v4 rest; cbn [read_groups]; [intros Heq; injection Heq as <- <- <-; by split|].
destruct (match n with O => None | S _ => _ end) as [[v s']|] eqn:Hv.
- intros Heq. injection Heq as <- <- <-. destruct n as [|n]; [done|]. apply read_separator_some in Hv as (s'' & Hv%read_ipv4_bound).
  split; [|simpl; lia]. repeat constructor.
  all: try apply Z.mod_pos_bound; try apply Z.div_pos; try apply Z.div_lt_upper_bound; lia.
- destruct (read_separator colon i (read_number 16 4 true 65535) s) as [[g s1]|] eqn:Hg.
  2: { intros Heq. injection Heq as <- <- <-. split; [done|simpl; lia]. }
  apply read_separator_some in Hg as (s'' & Hg). apply read_number_bound in Hg; [|lia].
  destruct (read_groups (S i) n s1) as [[gs1 v41] r1] eqn:Hr. apply IH in Hr as [Hr Hl].
  intros Heq. injection Heq as <- <- <-. split; [constructor; [lia|done]|simpl; lia].
Qed.

Lemma parse_ip_ok s a : parse_ip s = Some a → ip_ok a.
Proof.
unfold parse_ip, read_ip_addr. intros Ho. destruct (read_ipv4_addr s) as [[b r]|] eqn:Hb.
{ cbn [mbind option_bind] in Ho. case_bool_decide; [|done]. injection Ho as <-. by eapply read_ipv4_bound. }
destruct (read_ipv6_addr s) as [[b r]|] eqn:H6; [|done]. cbn [mbind option_bind] in Ho. case_bool_decide; [|done].
injection Ho as <-. clear Hb. cbn [ip_ok]. unfold read_ipv6_addr in H6.
destruct (read_groups 0 8 s) as [[h v4] s1] eqn:Hh. apply read_groups_bound in Hh as [Hh Hl].
case_bool_decide as H8.
{ injection H6 as <- _. pose proof (of_groups_bound 16 h ltac:(lia) Hh). unfold zlen in *. rewrite H8 in *. done. }
destruct v4; [done|]. destruct (read_given_char colon s1) as [s2|]; [|done]. cbn [mbind option_bind] in H6.
destruct (read_given_char colon s2) as [s3|]; [|done]. cbn [mbind option_bind] in H6.
destruct (read_groups _ _ s3) as [[t v4'] s4] eqn:Ht. apply read_groups_bound in Ht as [Ht Hlt]. injection H6 as <- _.
assert (Forall (λ g, 0 <= g < 2 ^ 16) (h ++ replicate (8 - length h - length t) 0 ++ t)) as Hall.
{ rewrite !Forall_app. split_and!; [done| |done]. apply Forall_replicate. lia. }
pose proof (of_groups_bound 16 _ ltac:(lia) Hall) as Hbd. unfold zlen in Hbd. rewrite !length_app, length_replicate in Hbd.
replace (length h + (8 - length h - length t + length t))%nat with 8%nat in Hbd by lia. done.
Qed.
