(* ===== verification/IpRange.v ===== *)
(** * Address ranges

The strict parser for "an IP address or a CIDR range" of [core/ip_range.rs], which
every operator-supplied network list goes through, and the membership test on its
result. The network type of the [ipnet] crate is the class [IpNet]; what its
documentation promises is [IpNetLaws]. *)
From stdpp Require Import base list numbers list_numbers strings sorting.
From Stdlib Require Import Strings.Byte ZArith Lia.
From S2P Require Import Prelude OrdMap StorageTypes RbacTypes IpAddr.

Open Scope Z_scope.

(** ** Networks *)

(** The width of an address's family: 32 or 128. *)
Definition max_prefix (a : IpAddr) : Z := match a with V4 _ => 32 | V6 _ => 128 end.

(** [ipnet::IpNet]: an address with a prefix length. *)
Class IpNet := {
  ipnet : Type;
  net_new : IpAddr → Z → option ipnet;
  net_addr : ipnet → IpAddr;
  net_prefix_len : ipnet → Z;
  net_network : ipnet → IpAddr;
  net_contains : ipnet → IpAddr → bool;
  net_to_string : ipnet → Str;
}.

(** The lowest and the highest address that agree with [a] on its first [p] bits. *)
Definition first_addr (p : Z) (a : IpAddr) : IpAddr :=
  match a with
  | V4 b => V4 (b / 2 ^ (32 - p) * 2 ^ (32 - p))
  | V6 b => V6 (b / 2 ^ (128 - p) * 2 ^ (128 - p))
  end.
Definition last_addr (p : Z) (a : IpAddr) : IpAddr :=
  match a with
  | V4 b => V4 (b / 2 ^ (32 - p) * 2 ^ (32 - p) + 2 ^ (32 - p) - 1)
  | V6 b => V6 (b / 2 ^ (128 - p) * 2 ^ (128 - p) + 2 ^ (128 - p) - 1)
  end.
(** Addresses of one family are ordered by their bits. *)
Definition ip_le (a b : IpAddr) : Prop :=
  match a, b with
  | V4 x, V4 y => x <= y
  | V6 x, V6 y => x <= y
  | _, _ => False
  end.

(** The crate's documentation: [new] fails exactly when the prefix exceeds the width
of the family and keeps its arguments otherwise, [network] is the lowest address of
the network, [contains] holds for the addresses between the lowest and the highest,
and a network prints as its address and prefix. *)
Class IpNetLaws `{IpNet} := {
  net_new_some a p : 0 <= p <= max_prefix a → ∃ n, net_new a p = Some n;
  net_new_none a p : max_prefix a < p → net_new a p = None;
  net_new_addr a p n : net_new a p = Some n → net_addr n = a ∧ net_prefix_len n = p;
  net_network_first n : net_network n = first_addr (net_prefix_len n) (net_addr n);
  net_contains_between n ip :
    net_contains n ip = true ↔
    ip_le (first_addr (net_prefix_len n) (net_addr n)) ip ∧ ip_le ip (last_addr (net_prefix_len n) (net_addr n));
  net_to_string_text n :
    net_to_string n = ip_to_string (net_addr n) ++ x2f :: fmt_radix 10 (net_prefix_len n);
}.

(** ** Parsing *)

Inductive IpRangeError :=
| Malformed
| PrefixOutOfRange (max : Z)
| HostBitsSet (network : IpAddr) (prefix : Z).

(** [s.split_once(c)] and [s.rsplit_once(c)]. *)
Fixpoint split_once (c : byte) (s : Str) : option (Str * Str) :=
  match s with
  | [] => None
  | b :: s' => if decide (b = c) then Some ([], s') else '(l, r) ← split_once c s'; Some (b :: l, r)
  end.
Fixpoint rsplit_once (c : byte) (s : Str) : option (Str * Str) :=
  match s with
  | [] => None
  | b :: s' =>
      match rsplit_once c s' with
      | Some (l, r) => Some (b :: l, r)
      | None => if decide (b = c) then Some ([], s') else None
      end
  end.

(** [str::parse::<u16>()]: an optional plus sign, then decimal digits. *)
Definition u16_from_str (s : Str) : option Z :=
  let digits := match s with c :: (_ :: _) as t => if decide (c = x2b) then tail t else s | _ => s end in
  let '(v, n, rest) := take_digits 10 0 0 digits in
  if bool_decide (n = 0%nat) then None
  else if bool_decide (rest = []) then if v <=? 65535 then Some v else None
  else None.

Definition parse_prefix (prefix : Str) : outcome IpRangeError Z :=
  let digits_only := negb (bool_decide (prefix = [])) && forallb is_ascii_digit prefix in
  let padded := (1 <? zlen prefix) && str_starts_with_char x30 prefix in
  if negb digits_only || padded || (3 <? zlen prefix) then Err Malformed
  else ok_or Malformed (u16_from_str prefix).

Section Range.
Context `{IpNet}.

Definition canonical_net (addr : IpAddr) (prefix : Z) : outcome IpRangeError ipnet :=
  let '(addr, prefix) :=
    match addr with
    | V6 v6 =>
        if 96 <=? prefix then
          match to_ipv4_mapped v6 with Some v4 => (V4 v4, prefix - 96) | None => (addr, prefix) end
        else (addr, prefix)
    | _ => (addr, prefix)
    end in
  ok_or (PrefixOutOfRange (max_prefix addr)) (net_new addr prefix).

(** [IpRange::from_str]. *)
Definition range_from_str (s : Str) : outcome IpRangeError ipnet :=
  '(addr, prefix) ← match split_once x2f s with
                    | None => addr ← ok_or Malformed (parse_ip s); mret (addr, max_prefix addr)
                    | Some (a, p) => addr ← ok_or Malformed (parse_ip a); prefix ← parse_prefix p; mret (addr, prefix)
                    end;
  let max := max_prefix addr in
  if (255 <? prefix) || (max <? prefix) then Err (PrefixOutOfRange max) else
  net ← canonical_net addr prefix;
  let network := net_network net in
  if bool_decide (net_addr net = network) then mret net else Err (HostBitsSet network (net_prefix_len net)).

(** [IpRange::contains], [network], [prefix_len] and [Display]. *)
Definition range_contains (r : ipnet) (ip : IpAddr) : bool := net_contains r (to_canonical ip).
Definition range_network (r : ipnet) : IpAddr := net_network r.
Definition range_prefix_len (r : ipnet) : Z := net_prefix_len r.
Definition range_to_string (r : ipnet) : Str :=
  if net_prefix_len r =? max_prefix (net_addr r) then ip_to_string (net_addr r) else net_to_string r.

End Range.

(** ** Blocks of addresses *)

(** [ip] is of [a]'s family and agrees with it on its first [p] bits. *)
Definition in_block (a : IpAddr) (p : Z) (ip : IpAddr) : Prop :=
  match a, ip with
  | V4 x, V4 y => x / 2 ^ (32 - p) = y / 2 ^ (32 - p)
  | V6 x, V6 y => x / 2 ^ (128 - p) = y / 2 ^ (128 - p)
  | _, _ => False
  end.

#[export] Instance in_block_dec a p ip : Decision (in_block a p ip).
Proof. destruct a, ip; simpl; apply _. Defined.

(** What the parser returns: a network address in canonical form. *)
Definition canonical_block (a : IpAddr) (p : Z) : Prop :=
  ip_ok a ∧ 0 <= p <= max_prefix a ∧ first_addr p a = a ∧ to_canonical a = a.

Lemma block_interval x y n : 0 <= n → x / 2 ^ n = y / 2 ^ n ↔ x / 2 ^ n * 2 ^ n <= y <= x / 2 ^ n * 2 ^ n + 2 ^ n - 1.
Proof.
intros Hn. assert (0 < 2 ^ n) as Hp by (apply Z.pow_pos_nonneg; lia).
pose proof (Z.div_mod y (2 ^ n) ltac:(lia)) as Hy. pose proof (Z.mod_pos_bound y (2 ^ n) Hp) as Hm.
split; [intros ->; lia|]. intros Hb. apply (Z.div_unique y (2 ^ n) (x / 2 ^ n) (y - x / 2 ^ n * 2 ^ n)); lia.
Qed.

Lemma in_block_between a p ip : 0 <= p <= max_prefix a →
  in_block a p ip ↔ ip_le (first_addr p a) ip ∧ ip_le ip (last_addr p a).
Proof.
intros Hp. destruct a as [x|x], ip as [y|y]; simpl in *; try tauto.
all: rewrite block_interval by lia; lia.
Qed.

Lemma first_addr_idemp p a : p <= max_prefix a → first_addr p (first_addr p a) = first_addr p a.
Proof. intros Hp. destruct a as [x|x]; simpl in *; f_equal; rewrite Z.div_mul; try done; apply Z.pow_nonzero; lia. Qed.

Lemma first_addr_ok p a : 0 <= p <= max_prefix a → ip_ok a → ip_ok (first_addr p a).
Proof.
assert (∀ b n w, 0 <= b < w → 0 <= n → 0 <= b / 2 ^ n * 2 ^ n < w) as Hgen.
{ intros b n w Hb Hn. assert (0 < 2 ^ n) by (apply Z.pow_pos_nonneg; lia).
  pose proof (Z.div_pos b (2 ^ n) ltac:(lia) ltac:(lia)). pose proof (Z.mul_div_le b (2 ^ n) ltac:(lia)). nia. }
intros Hp Ha. destruct a; cbn [first_addr ip_ok max_prefix] in *; apply Hgen; lia.
Qed.

Lemma max_prefix_first p a : max_prefix (first_addr p a) = max_prefix a.
Proof. by destruct a. Qed.

(** An IPv4-mapped address has ones just above its last 32 bits, so no prefix shorter
than 96 bits makes it a network address. *)
Lemma mapped_not_network b p : 0 <= b → 0 <= p < 96 → first_addr p (V6 b) = V6 b → to_ipv4_mapped b = None.
Proof.
intros Hb Hp [= Hf]. unfold to_ipv4_mapped. destruct (Z.eqb_spec (b / 2 ^ 32) 0xffff) as [He|]; [|done]. exfalso.
assert (2 ^ (128 - p) = 2 ^ (95 - p) * 2 ^ 33) as Hpow by (rewrite <-Z.pow_add_r by lia; f_equal; lia).
assert (b = (b / 2 ^ (128 - p) * 2 ^ (95 - p)) * 2 ^ 33) as Hmul by (rewrite <-Z.mul_assoc, <-Hpow; lia).
pose proof (Z.div_mod b (2 ^ 32) ltac:(lia)) as Hd. pose proof (Z.mod_pos_bound b (2 ^ 32) ltac:(lia)). lia.
Qed.

(** ** Text *)

Lemma split_once_app c l r : c ∉ l → split_once c (l ++ c :: r) = Some (l, r).
Proof.
induction l as [|b l IH]; simpl; intros Hc; [by rewrite decide_True|].
apply not_elem_of_cons in Hc as [Hb Hc]. rewrite decide_False by done. by rewrite IH.
Qed.

Lemma split_once_none c s : c ∉ s → split_once c s = None.
Proof.
induction s as [|b s IH]; simpl; intros Hc; [done|].
apply not_elem_of_cons in Hc as [Hb Hc]. rewrite decide_False by done. by rewrite IH.
Qed.

Lemma take_digits_all radix s : ∀ acc n v m, take_digits radix acc n s = (v, m, []) →
  Forall (λ c, char_to_digit radix c ≠ None) s.
Proof.
induction s as [|c s IH]; simpl; intros acc n v m Ht; [constructor|].
destruct (char_to_digit radix c) eqn:Hc; [|done]. constructor; [by rewrite Hc|by eapply IH].
Qed.

Lemma number_text_no_slash radix md z s : number_text radix md z s = true → x2f ∉ s.
Proof.
unfold number_text. rewrite !andb_true_iff. intros ((((Ht & _) & _) & _) & _) Hs.
destruct (take_digits radix 0 0 s) as [[v n] [|]] eqn:Htd; rewrite !andb_true_iff in Ht; [|by destruct Ht].
apply take_digits_all in Htd. rewrite list.Forall_forall in Htd. by apply (Htd _ Hs).
Qed.

Lemma join_no_slash c segs : c ≠ x2f → Forall (λ s : Str, x2f ∉ s) segs → x2f ∉ join_with c segs.
Proof.
intros Hc Hs. induction Hs as [|s segs Hs0 Hs IH]; [apply not_elem_of_nil|]. destruct segs as [|s' segs]; [done|].
change (join_with c (s :: s' :: segs)) with (s ++ c :: join_with c (s' :: segs)).
rewrite not_elem_of_app, not_elem_of_cons. done.
Qed.

Lemma ip_text_no_slash a : ip_ok a → x2f ∉ ip_to_string a.
Proof.
assert (∀ b, x2f ∉ ipv4_to_string b) as Hv4.
{ intros b. apply join_no_slash; [done|]. rewrite Forall_fmap.
  eapply Forall_impl; [apply (groups_of_bound 4 8); lia|]. intros g Hg. by eapply number_text_no_slash, fmt_octet. }
assert (∀ gs, Forall (λ g, 0 <= g < 2 ^ 16) gs → x2f ∉ fmt_subslice gs) as Hgs.
{ intros gs Hgs. apply join_no_slash; [done|]. rewrite Forall_fmap.
  eapply Forall_impl; [done|]. intros g Hg. by eapply number_text_no_slash, fmt_group. }
intros _. destruct a as [b|b]; [apply Hv4|]. unfold ip_to_string, ipv6_to_string.
pose proof (groups_of_bound 8 16 b ltac:(lia) ltac:(lia)) as Hb. destruct (to_ipv4_mapped b).
- rewrite not_elem_of_app. split; [|done]. refine (bool_decide_eq_false_1 _ _). by vm_compute.
- case_bool_decide; [|by apply Hgs]. rewrite !not_elem_of_app.
  split_and!; [by apply Hgs, Forall_take|refine (bool_decide_eq_false_1 _ _); by vm_compute|by apply Hgs, Forall_drop].
Qed.

Lemma parse_prefix_fmt p : 0 <= p <= 128 → parse_prefix (fmt_radix 10 p) = Ok p.
Proof.
intros Hp. pose (P p := match parse_prefix (fmt_radix 10 p) with Ok q => q =? p | _ => false end).
assert (P p = true) as HP by (apply (check_from_all P 129 0); [by vm_compute|lia]).
unfold P in HP. destruct (parse_prefix _); try done. apply Z.eqb_eq in HP. by subst.
Qed.

Lemma parse_prefix_bound s p : parse_prefix s = Ok p → 0 <= p.
Proof.
unfold parse_prefix, u16_from_str. intros Ho. case_match; [done|].
set (d := match s with _ :: (_ :: _) as t => _ | _ => s end) in Ho.
pose proof (take_digits_nonneg 10 d 0 0 ltac:(lia) ltac:(lia)) as Hn.
destruct (take_digits 10 0 0 d) as [[v n] rest]. simpl in Hn. repeat case_match; simplify_eq/=; lia.
Qed.

(** Clearing bits below the last 32 leaves what is above them. *)
Lemma clear_then_div b k : 0 <= k <= 32 → b / 2 ^ k * 2 ^ k / 2 ^ 32 = b / 2 ^ 32.
Proof.
intros Hk. assert (2 ^ 32 = 2 ^ (32 - k) * 2 ^ k) as -> by (rewrite <-Z.pow_add_r by lia; f_equal; lia).
assert (0 < 2 ^ k) by (apply Z.pow_pos_nonneg; lia). assert (0 < 2 ^ (32 - k)) by (apply Z.pow_pos_nonneg; lia).
rewrite Z.div_mul_cancel_r by lia. rewrite (Z.mul_comm (2 ^ (32 - k))), <-Z.div_div by lia. done.
Qed.

Section Theorems.
Context `{IpNetLaws}.

(** The text of an entry: an address, alone or with a prefix length. *)
Definition entry_text (a : IpAddr) (p : Z) : Str :=
  if p =? max_prefix a then ip_to_string a else ip_to_string a ++ x2f :: fmt_radix 10 p.

(** The address and prefix an entry states, before the checks on them. *)
Definition entry_parts (s : Str) : outcome IpRangeError (IpAddr * Z) :=
  match split_once x2f s with
  | None => addr ← ok_or Malformed (parse_ip s); mret (addr, max_prefix addr)
  | Some (a, p) => addr ← ok_or Malformed (parse_ip a); prefix ← parse_prefix p; mret (addr, prefix)
  end.

Lemma entry_parts_ok s a p : entry_parts s = Ok (a, p) → ip_ok a ∧ 0 <= p.
Proof.
unfold entry_parts. intros He. destruct (split_once x2f s) as [[t u]|].
- destruct (parse_ip t) as [a'|] eqn:Ha; [|done]. simpl in He. destruct (parse_prefix u) as [p'| |] eqn:Hp; try done.
  injection He as <- <-. split; [exact (parse_ip_ok _ _ Ha)|exact (parse_prefix_bound _ _ Hp)].
- destruct (parse_ip s) as [a'|] eqn:Ha; [|done]. simpl in He. injection He as <- <-.
  split; [exact (parse_ip_ok _ _ Ha)|]. by destruct a'.
Qed.

Lemma entry_parts_text a p : ip_ok a → 0 <= p <= max_prefix a → entry_parts (entry_text a p) = Ok (a, p).
Proof.
intros Ha Hp. unfold entry_parts, entry_text. pose proof (ip_text_no_slash a Ha) as Hs.
destruct (Z.eqb_spec p (max_prefix a)) as [->|].
- by rewrite split_once_none, ip_text_roundtrip.
- rewrite split_once_app, ip_text_roundtrip by done. simpl. rewrite parse_prefix_fmt; [done|]. destruct a; simpl in *; lia.
Qed.

(** The block an entry denotes, with an IPv4-mapped range folded into IPv4. *)
Definition canonical_parts (a : IpAddr) (p : Z) : IpAddr * Z :=
  match a with
  | V6 b => if 96 <=? p then match to_ipv4_mapped b with Some v => (V4 v, p - 96) | None => (a, p) end else (a, p)
  | V4 _ => (a, p)
  end.

Lemma canonical_parts_ok a p : ip_ok a → 0 <= p <= max_prefix a →
  let '(a', p') := canonical_parts a p in
  ip_ok a' ∧ 0 <= p' <= max_prefix a' ∧ to_canonical (first_addr p' a') = first_addr p' a'.
Proof.
intros Ha Hp. destruct a as [b|b]; cbn [canonical_parts]; [done|]. cbn [max_prefix ip_ok] in *.
destruct (Z.leb_spec 96 p); [destruct (to_ipv4_mapped b) as [v|] eqn:Hm|].
- apply mapped_bits in Hm as [_ Hv]; [|lia]. cbn [max_prefix ip_ok]. split_and!; lia || done.
- split_and!; [done|lia|cbn [max_prefix]; lia|]. cbn [first_addr to_canonical]. unfold to_ipv4_mapped in *.
  rewrite (clear_then_div b (128 - p)) by lia. by destruct (b / 2 ^ 32 =? 0xffff).
- pose proof (first_addr_ok p (V6 b) ltac:(simpl; lia) Ha) as Hok. pose proof (first_addr_idemp p (V6 b) ltac:(simpl; lia)) as Hf.
  cbn [first_addr ip_ok] in Hok, Hf |- *. apply mapped_not_network in Hf; [|lia..]. cbn [to_canonical]. rewrite Hf. split_and!; [lia|lia|lia|cbn [max_prefix]; lia|done].
Qed.

Lemma entry_parts_err s :
  match entry_parts s with Ok _ => True | Err e => e = Malformed | Panic => False end.
Proof.
unfold entry_parts. destruct (split_once x2f s) as [[t u]|]; [|by destruct (parse_ip s)].
destruct (parse_ip t); [|done]. cbn [ok_or mbind outcome_bind]. unfold parse_prefix.
destruct (negb _ || _ || _); [done|]. by destruct (u16_from_str u).
Qed.

(** The parser in terms of the parts of the entry. *)
Lemma range_from_str_parts s : range_from_str s =
  '(a, p) ← entry_parts s;
  if max_prefix a <? p then Err (PrefixOutOfRange (max_prefix a)) else
  let '(a', p') := canonical_parts a p in
  match net_new a' p' with
  | Some n => if bool_decide (a' = first_addr p' a') then Ok n else Err (HostBitsSet (first_addr p' a') p')
  | None => Panic
  end.
Proof.
unfold range_from_str. fold (entry_parts s). destruct (entry_parts s) as [[a p]|e|] eqn:He; [|done..].
cbn [mbind outcome_bind]. apply entry_parts_ok in He as [Ha Hp].
assert ((255 <? p) || (max_prefix a <? p) = (max_prefix a <? p)) as ->.
{ destruct (Z.ltb_spec 255 p); [|done]. symmetry. apply Z.ltb_lt. destruct a; simpl; lia. }
destruct (Z.ltb_spec (max_prefix a) p) as [|Hle]; [done|].
pose proof (canonical_parts_ok a p Ha ltac:(lia)) as Hcp.
unfold canonical_net. fold (canonical_parts a p). destruct (canonical_parts a p) as [a' p'].
destruct Hcp as (_ & Hp' & _). destruct (net_new_some a' p' Hp') as [n Hn]. rewrite Hn. cbn [ok_or mbind outcome_bind].
rewrite net_network_first. destruct (net_new_addr a' p' n Hn) as [-> ->]. done.
Qed.

Lemma range_from_str_inv s r : range_from_str s = Ok r →
  ∃ a p, net_new a p = Some r ∧ canonical_block a p ∧ range_network r = a ∧ range_prefix_len r = p.
Proof.
rewrite range_from_str_parts. destruct (entry_parts s) as [[a p]|e|] eqn:He; [|done..]. cbn [mbind outcome_bind].
apply entry_parts_ok in He as [Ha Hp]. destruct (Z.ltb_spec (max_prefix a) p) as [|Hle]; [done|].
pose proof (canonical_parts_ok a p Ha ltac:(lia)) as Hcp. destruct (canonical_parts a p) as [a' p'].
destruct Hcp as (Ha' & Hp' & Hcan). destruct (net_new a' p') as [n|] eqn:Hn; [|done].
case_bool_decide as Hf; [|done]. intros [= ->]. rewrite <-Hf in Hcan. exists a', p'. destruct (net_new_addr a' p' r Hn) as [Hna Hnp].
unfold range_network, range_prefix_len, canonical_block. rewrite net_network_first, Hna, Hnp. split_and!; auto; lia.
Qed.

Lemma range_of_block a p : canonical_block a p → ∃ r, net_new a p = Some r ∧ range_from_str (entry_text a p) = Ok r.
Proof.
intros (Ha & Hp & Hf & Hc). destruct (net_new_some a p Hp) as [n Hn]. exists n. split; [done|].
rewrite range_from_str_parts, entry_parts_text by done. cbn [mbind outcome_bind].
rewrite (proj2 (Z.ltb_ge _ _)) by lia.
assert (canonical_parts a p = (a, p)) as ->.
{ destruct a as [b|b]; [done|]. simpl in *. destruct (to_ipv4_mapped b) eqn:Hm; [done|]. by destruct (96 <=? p). }
rewrite Hn. by rewrite bool_decide_eq_true_2.
Qed.

Lemma range_to_string_text a p r : net_new a p = Some r → range_to_string r = entry_text a p.
Proof.
intros Hn. unfold range_to_string, entry_text. rewrite net_to_string_text. by destruct (net_new_addr a p r Hn) as [-> ->].
Qed.

(** The membership test is membership in the block of addresses that share the
network's prefix. *)
Lemma range_contains_block s r ip : range_from_str s = Ok r →
  range_contains r ip = true ↔ in_block (range_network r) (range_prefix_len r) (to_canonical ip).
Proof.
intros (a & p & Hn & (Ha & Hp & Hf & Hc) & Hna & Hnp)%range_from_str_inv. rewrite Hna, Hnp.
unfold range_contains. rewrite net_contains_between. destruct (net_new_addr a p r Hn) as [-> ->].
by rewrite in_block_between by done.
Qed.

Lemma range_from_str_host_bits s network prefix :
  range_from_str s = Err (HostBitsSet network prefix) → canonical_block network prefix.
Proof.
rewrite range_from_str_parts. pose proof (entry_parts_err s) as Herr.
destruct (entry_parts s) as [[a p]|e|] eqn:He; [|by subst e|done]. cbn [mbind outcome_bind].
apply entry_parts_ok in He as [Ha Hp]. destruct (Z.ltb_spec (max_prefix a) p) as [|Hle]; [done|].
pose proof (canonical_parts_ok a p Ha ltac:(lia)) as Hcp. destruct (canonical_parts a p) as [a' p'].
destruct Hcp as (Ha' & Hp' & Hcan). destruct (net_new a' p') as [n|] eqn:Hn; [|done].
case_bool_decide as Hf; [done|]. intros [= <- <-].
rewrite <-(max_prefix_first p') in Hp'. pose proof (first_addr_ok p' a') as Hok. rewrite <-(max_prefix_first p') in Hok.
split; [by apply Hok|]. split; [done|]. split; [|done]. apply first_addr_idemp. rewrite max_prefix_first in Hp'. lia.
Qed.

Lemma range_from_str_no_panic s : range_from_str s ≠ Panic.
Proof.
rewrite range_from_str_parts. pose proof (entry_parts_err s) as Herr.
destruct (entry_parts s) as [[a p]|e|] eqn:He; [|done..]. cbn [mbind outcome_bind].
apply entry_parts_ok in He as [Ha Hp]. destruct (Z.ltb_spec (max_prefix a) p) as [|Hle]; [done|].
pose proof (canonical_parts_ok a p Ha ltac:(lia)) as Hcp. destruct (canonical_parts a p) as [a' p'].
destruct Hcp as (_ & Hp' & _). destruct (net_new_some a' p' Hp') as [n ->]. by case_bool_decide.
Qed.

Lemma range_of_new a p r : canonical_block a p → net_new a p = Some r → range_network r = a ∧ range_prefix_len r = p.
Proof.
intros (_ & _ & Hf & _) Hn. unfold range_network, range_prefix_len. rewrite net_network_first.
destruct (net_new_addr a p r Hn) as [-> ->]. done.
Qed.

(** An accepted entry prints as a canonical entry which is accepted as the same
range; and when an entry is refused because host bits are set below its prefix, the
network form the error suggests is itself accepted, as that network. *)
Theorem range_text_canonical s :
  match range_from_str s with
  | Ok r => range_from_str (range_to_string r) = Ok r
  | Err (HostBitsSet network prefix) =>
      ∃ r, range_from_str (entry_text network prefix) = Ok r ∧ range_network r = network ∧ range_prefix_len r = prefix
  | Err _ => True
  | Panic => False
  end.
Proof.
destruct (range_from_str s) as [r|[|m|network prefix]|] eqn:Hs; try done.
- apply range_from_str_inv in Hs as (a & p & Hn & Hb & _). destruct (range_of_block a p Hb) as (r' & Hn' & Hr').
  rewrite (range_to_string_text a p r Hn), Hr'. congruence.
- apply range_from_str_host_bits in Hs as Hb. destruct (range_of_block _ _ Hb) as (r & Hn & Hr).
  exists r. split; [done|]. by apply range_of_new.
- by apply range_from_str_no_panic in Hs.
Qed.
End Theorems.

(** ** An implementation of the networks *)

Definition pair_net : IpNet := {|
  ipnet := IpAddr * Z;
  net_new a p := if max_prefix a <? p then None else Some (a, p);
  net_addr := fst;
  net_prefix_len := snd;
  net_network n := first_addr n.2 n.1;
  net_contains n ip :=
    match first_addr n.2 n.1, ip, last_addr n.2 n.1 with
    | V4 x, V4 y, V4 z => (x <=? y) && (y <=? z)
    | V6 x, V6 y, V6 z => (x <=? y) && (y <=? z)
    | _, _, _ => false
    end;
  net_to_string n := ip_to_string n.1 ++ x2f :: fmt_radix 10 n.2;
|}.
#[local] Existing Instance pair_net.

Lemma pair_net_laws : IpNetLaws.
Proof.
split; simpl.
- intros a p Hp. rewrite (proj2 (Z.ltb_ge _ _)) by lia. eauto.
- intros a p Hp. by rewrite (proj2 (Z.ltb_lt _ _)).
- intros a p n. destruct (max_prefix a <? p); [done|]. by intros [= <-].
- done.
- intros [[x|x] p] [y|y]; simpl; rewrite ?andb_true_iff, ?Z.leb_le; naive_solver.
- done.
Qed.

(** ** Evaluations *)

Lemma range_text_canonical_witness :
  range_from_str (lit "::ffff:192.0.2.0/120") = Ok (V4 3221225984, 24) ∧
  range_to_string (V4 3221225984, 24) = lit "192.0.2.0/24" ∧
  range_from_str (range_to_string (V4 3221225984, 24)) = Ok (V4 3221225984, 24) ∧
  range_from_str (lit "10.1.2.255/24") = Err (HostBitsSet (V4 167838208) 24) ∧
  range_from_str (lit "10.0.0.0/08") = Err Malformed ∧ range_from_str (lit "10.0.0.0/33") = Err (PrefixOutOfRange 32).
Proof.
pose proof pair_net_laws as Hlaws.
assert (range_from_str (lit "::ffff:192.0.2.0/120") = Ok (V4 3221225984, 24)) as Hs by (by vm_compute).
split; [exact Hs|]. split; [by vm_compute|]. split; [|by vm_compute].
pose proof (range_text_canonical (lit "::ffff:192.0.2.0/120")) as Hx. rewrite Hs in Hx. exact Hx.
Defined.
