(* ===== verification/AddressPolicy.v ===== *)
(** * Address policies

The three policies built on address ranges: the trusted proxies of
[core/trusted_proxy.rs], the per-realm allow and deny lists of [abuse/cidr.rs], and
the destinations webhooks may be delivered to, [webhook/ssrf.rs]. The resolver of
host names is an argument of the functions that call it. *)
From stdpp Require Import base list numbers list_numbers strings sorting.
From Stdlib Require Import Strings.Byte ZArith Lia.
From S2P Require Import Prelude OrdMap StorageTypes RbacTypes IpAddr IpRange.

Open Scope Z_scope.

(** [iter.map(f).collect::<Result<Vec<_>, _>>()]: the first error, or every value. *)
Fixpoint collect {E A B} (f : A → outcome E B) (l : list A) : outcome E (list B) :=
  match l with
  | [] => Ok []
  | x :: l' => y ← f x; ys ← collect f l'; Ok (y :: ys)
  end.

(** ** Trusted proxies *)

Definition MIN_IPV4_PREFIX : Z := 8.
Definition MIN_IPV6_PREFIX : Z := 16.

Inductive TrustedProxyError :=
| Invalid (e : IpRangeError)
| Unspecified
| TooBroad (prefix min : Z).

Record TrustedProxyListError := {
  tp_index : nat;
  tp_entry : Str;
  tp_reason : TrustedProxyError;
}.

(** ** Allow and deny lists *)

Record CidrEntryError := { ce_entry : Str; ce_reason : IpRangeError }.

Inductive CidrOutcome := Allow | Deny.

Record CidrFilter (N : Type) := { cf_allow : list N; cf_deny : list N }.
Arguments cf_allow {N} _.
Arguments cf_deny {N} _.

(** ** Webhook destinations *)

Definition BLOCKED_CIDR_STRS : list Str := Eval vm_compute in lit <$>
  ["0.0.0.0/8"; "10.0.0.0/8"; "172.16.0.0/12"; "192.168.0.0/16"; "127.0.0.0/8"; "169.254.0.0/16"; "100.64.0.0/10";
   "192.0.0.0/24"; "192.0.2.0/24"; "198.51.100.0/24"; "203.0.113.0/24"; "198.18.0.0/15"; "240.0.0.0/4";
   "255.255.255.255/32"; "::/128"; "::1/128"; "fc00::/7"; "fe80::/10"]%string.

(** The reasons a URL is refused; the source renders each as a message. *)
Inductive WebhookError :=
| DnsFailed (host : Str)
| NoAddresses (host : Str)
| PrivateAddress (ip : IpAddr)
| NotHttps
| NoHost
| UnclosedBracket
| InvalidPort.

(** [s.split(['/', '?', '#']).next()]. *)
Fixpoint authority_of (s : Str) : Str :=
  match s with
  | [] => []
  | c :: s' => if decide (c = x2f) then [] else if decide (c = x3f) then [] else if decide (c = x23) then [] else c :: authority_of s'
  end.

(** [extract_host_port]. *)
Definition https : Str := Eval vm_compute in lit "https://".
Definition extract_host_port (url : Str) : outcome WebhookError (Str * Z) :=
  if negb (str_starts_with https url) then Err NotHttps else
  let authority := authority_of (drop (length https) url) in
  if bool_decide (authority = []) then Err NoHost else
  let authority := match rsplit_once x40 authority with Some (_, r) => r | None => authority end in
  if str_starts_with_char x5b authority then
    match split_once x5d authority with
    | None => Err UnclosedBracket
    | Some (l, r) =>
        port ← match r with
               | c :: r' => if decide (c = colon) then ok_or InvalidPort (u16_from_str r') else Ok 443
               | [] => Ok 443
               end;
        Ok (drop 1 l, port)
    end
  else
    match rsplit_once colon authority with
    | Some (host, port_str) => port ← ok_or InvalidPort (u16_from_str port_str); Ok (host, port)
    | None => Ok (authority, 443)
    end.

Section Policies.
Context `{IpNet}.

(** [TrustedProxy::from_str], [contains] and [is_loopback]. *)
Definition proxy_from_str (s : Str) : outcome TrustedProxyError ipnet :=
  range ← match range_from_str s with Ok r => Ok r | Err e => Err (Invalid e) | Panic => Panic end;
  let network := range_network range in
  if is_unspecified network then Err Unspecified else
  let min := match network with V4 _ => MIN_IPV4_PREFIX | V6 _ => MIN_IPV6_PREFIX end in
  if range_prefix_len range <? min then Err (TooBroad (range_prefix_len range) min) else Ok range.
Definition proxy_is_loopback (r : ipnet) : bool := is_loopback (range_network r).

(** [TrustedProxies::parse] and [TrustedProxies::contains]. *)
Definition proxies_parse (entries : list Str) : outcome TrustedProxyListError (list ipnet) :=
  collect (λ '(index, entry),
    match proxy_from_str entry with
    | Ok r => Ok r
    | Err reason => Err {| tp_index := index; tp_entry := entry; tp_reason := reason |}
    | Panic => Panic
    end) (imap pair entries).
Definition proxies_contains (t : list ipnet) (ip : IpAddr) : bool := existsb (λ e, range_contains e ip) t.

(** [parse_entry], [CidrFilter::from_strs] and [CidrFilter::check]. *)
Definition parse_entry (entry : Str) : outcome CidrEntryError ipnet :=
  match range_from_str entry with
  | Ok r => Ok r
  | Err reason => Err {| ce_entry := entry; ce_reason := reason |}
  | Panic => Panic
  end.
Definition from_strs (allow deny : list Str) : outcome CidrEntryError (CidrFilter ipnet) :=
  allow ← collect parse_entry allow;
  deny ← collect parse_entry deny;
  Ok {| cf_allow := allow; cf_deny := deny |}.
Definition cidr_check (f : CidrFilter ipnet) (ip : IpAddr) : CidrOutcome :=
  if existsb (λ c, range_contains c ip) (cf_deny f) then Deny
  else if negb (bool_decide (cf_allow f = [])) && negb (existsb (λ c, range_contains c ip) (cf_allow f)) then Deny
  else Allow.

(** [blocked_cidrs] and [is_ssrf_blocked]; the built-in ranges are parsed with
[expect]. *)
Definition blocked_cidrs : outcome WebhookError (list ipnet) :=
  collect (λ s, match range_from_str s with Ok r => Ok r | _ => Panic end) BLOCKED_CIDR_STRS.
Definition is_ssrf_blocked (ip : IpAddr) : outcome WebhookError bool :=
  let effective := match ip with
                   | V6 v6 => match to_ipv4_mapped v6 with Some v4 => V4 v4 | None => ip end
                   | V4 _ => ip
                   end in
  cidrs ← blocked_cidrs;
  Ok (existsb (λ c, range_contains c effective) cidrs).

(** The loop over resolved addresses. *)
Fixpoint refuse_blocked (addrs : list IpAddr) : outcome WebhookError () :=
  match addrs with
  | [] => Ok ()
  | ip :: addrs' => b ← is_ssrf_blocked ip; if (b : bool) then Err (PrivateAddress ip) else refuse_blocked addrs'
  end.

(** [check_host] and [check_webhook_url], given what the name service answers for a
[host:port]: [None] when the resolution fails. *)
Definition check_host (dns : Str → option (list IpAddr)) (host : Str) (port : Z) : outcome WebhookError () :=
  match dns (host ++ colon :: fmt_radix 10 port) with
  | None => Err (DnsFailed host)
  | Some addrs => if bool_decide (addrs = []) then Err (NoAddresses host) else refuse_blocked addrs
  end.
Definition check_webhook_url (dns : Str → option (list IpAddr)) (url : Str) : outcome WebhookError () :=
  if negb (str_starts_with https url) then Err NotHttps else
  '(host, port) ← extract_host_port url;
  check_host dns host port.

(** [SsrfResolver::resolve]: the addresses handed to [connect], from the answer of
the resolver it wraps. *)
Definition resolve (inner : outcome WebhookError (list IpAddr)) : outcome WebhookError (list IpAddr) :=
  resolved ← inner;
  _ ← refuse_blocked resolved;
  Ok resolved.

End Policies.

(** ** Collecting *)

Lemma collect_ok {E A B} (f : A → outcome E B) l ys : collect f l = Ok ys ↔ Forall2 (λ x y, f x = Ok y) l ys.
Proof.
revert ys. induction l as [|x l IH]; intros ys; simpl.
- split; [intros [= <-]; constructor|intros Hf; by inversion Hf].
- split.
  + destruct (f x) as [y| |] eqn:Hx; try done. simpl. destruct (collect f l) as [ys'| |]; try done. simpl.
    intros [= <-]. constructor; [done|by apply IH].
  + intros Hf. inversion Hf as [|? y ? ys' Hx Hl]; subst. rewrite Hx. simpl. apply IH in Hl. by rewrite Hl.
Qed.

Lemma collect_err {E A B} (f : A → outcome E B) l e : collect f l = Err e →
  ∃ l1 x l2, l = l1 ++ x :: l2 ∧ f x = Err e ∧ Forall (λ x, ∃ y, f x = Ok y) l1.
Proof.
induction l as [|x l IH]; simpl; [done|]. destruct (f x) as [y|e'|] eqn:Hx; simpl; try done.
- destruct (collect f l) as [|e'|]; simpl; try done. intros [= ->].
  destruct IH as (l1 & x' & l2 & -> & Hx' & Hl1); [done|]. exists (x :: l1), x', l2. split_and!; eauto.
- intros [= ->]. exists [], x, l. by split_and!.
Qed.

Lemma existsb_Forall2 {A B} (R : A → B → Prop) (P : A → Prop) (b : B → bool) l ys :
  Forall2 R l ys → (∀ x y, R x y → b y = true ↔ P x) → existsb b ys = true ↔ ∃ x, x ∈ l ∧ P x.
Proof.
intros HR Hb. induction HR as [|x y l ys Hxy HR IH]; simpl; [split; [done|intros (x & Hx & _); by apply elem_of_nil in Hx]|].
rewrite orb_true_iff, IH, (Hb _ _ Hxy). setoid_rewrite elem_of_cons. naive_solver.
Qed.

Section Exactness.
Context `{IpNetLaws}.

(** What an entry covers: it is accepted, and the address, in canonical form, lies in
the block it denotes. *)
Definition covers (entry : Str) (ip : IpAddr) : Prop :=
  ∃ r, range_from_str entry = Ok r ∧ in_block (range_network r) (range_prefix_len r) (to_canonical ip).

Lemma covers_contains s r ip : range_from_str s = Ok r → range_contains r ip = true ↔ covers s ip.
Proof.
intros Hs. rewrite (range_contains_block s r ip Hs). unfold covers. split; [eauto|]. intros (r' & Hs' & Hin). congruence.
Qed.

(** ** Allow and deny lists *)

Lemma parse_entry_ok s r : parse_entry s = Ok r ↔ range_from_str s = Ok r.
Proof. unfold parse_entry. destruct (range_from_str s); naive_solver. Qed.

Lemma parsed_contains l rs ip : collect parse_entry l = Ok rs →
  existsb (λ c, range_contains c ip) rs = true ↔ ∃ s, s ∈ l ∧ covers s ip.
Proof.
rewrite collect_ok. intros Hl. eapply existsb_Forall2; [exact Hl|]. intros s r Hs%parse_entry_ok. by apply covers_contains.
Qed.

Lemma collect_nil {E A B} (f : A → outcome E B) l ys : collect f l = Ok ys → ys = [] ↔ l = [].
Proof. rewrite collect_ok. intros Hf. destruct Hf; naive_solver. Qed.

Lemma entry_error s e : parse_entry s = Err e → ce_entry e = s ∧ range_from_str (ce_entry e) = Err (ce_reason e).
Proof. unfold parse_entry. destruct (range_from_str s) eqn:Hs; try done. intros [= <-]. done. Qed.

Lemma collect_no_panic {E A B} (f : A → outcome E B) l : (∀ x, f x ≠ Panic) → collect f l ≠ Panic.
Proof.
intros Hf. induction l as [|x l IH]; simpl; [done|]. specialize (Hf x). destruct (f x); simpl; try done.
by destruct (collect f l).
Qed.

Lemma parse_entry_no_panic s : parse_entry s ≠ Panic.
Proof. unfold parse_entry. pose proof (range_from_str_no_panic s). by destruct (range_from_str s). Qed.

(** A filter built from the texts of the two lists decides exactly by the addresses
the texts cover: it allows an address if and only if no deny entry covers it and the
allow list is empty or has an entry that covers it. A list with a bad entry builds no
filter: the error names a refused entry whose predecessors are all good. *)
Theorem cidr_filter_exact allow deny :
  match from_strs allow deny with
  | Ok f => ∀ ip, cidr_check f ip = Allow ↔
      (∀ s, s ∈ deny → ¬ covers s ip) ∧ (allow = [] ∨ ∃ s, s ∈ allow ∧ covers s ip)
  | Err e => range_from_str (ce_entry e) = Err (ce_reason e) ∧
      ∃ before after, allow ++ deny = before ++ ce_entry e :: after ∧
        Forall (λ s, ∃ r, range_from_str s = Ok r) before
  | Panic => False
  end.
Proof.
unfold from_strs. destruct (collect parse_entry allow) as [al|e|] eqn:Ha; cbn [mbind outcome_bind].
- destruct (collect parse_entry deny) as [dn|e|] eqn:Hd; cbn [mbind outcome_bind].
  + intros ip. unfold cidr_check. cbn [cf_allow cf_deny].
    pose proof (parsed_contains _ _ ip Ha) as Hal. pose proof (parsed_contains _ _ ip Hd) as Hdn.
    pose proof (collect_nil _ _ _ Ha) as Hnil.
    destruct (existsb _ dn) eqn:Hed; [split; [done|]; intros [Hno _]; destruct (proj1 Hdn eq_refl) as (s & Hs & Hc); naive_solver|].
    assert (∀ s, s ∈ deny → ¬ covers s ip) as Hno by (intros s Hs Hc; assert (false = true) by (apply Hdn; eauto); done).
    destruct (existsb (λ c, range_contains c ip) al) eqn:Hea; simpl.
    * rewrite andb_false_r. split; [|done]. intros _. split; [done|]. right. by apply Hal.
    * rewrite andb_true_r. case_bool_decide as Hn; simpl.
      -- split; [|done]. intros _. split; [done|]. left. by apply Hnil.
      -- split; [done|]. intros [_ [He|He]]; [by apply Hnil in He|]. by apply Hal in He.
  + apply collect_err in Hd as (l1 & x & l2 & -> & Hx & Hl1). apply collect_ok in Ha.
    apply entry_error in Hx as [<- Hx]. split; [done|]. exists (allow ++ l1), l2. split; [by rewrite <-app_assoc|].
    rewrite Forall_app. split.
    * clear -Ha. induction Ha as [|s r ? ? Hs%parse_entry_ok]; constructor; eauto.
    * eapply Forall_impl; [exact Hl1|]. intros s [r Hs%parse_entry_ok]. eauto.
  + by apply collect_no_panic in Hd; [|apply parse_entry_no_panic].
- apply collect_err in Ha as (l1 & x & l2 & -> & Hx & Hl1). apply entry_error in Hx as [<- Hx].
  split; [done|]. exists l1, (l2 ++ deny). split; [by rewrite <-app_assoc|].
  eapply Forall_impl; [exact Hl1|]. intros s [r Hs%parse_entry_ok]. eauto.
- by apply collect_no_panic in Ha; [|apply parse_entry_no_panic].
Qed.

(** ** Trusted proxies *)

(** The broadest block a trusted entry may be. *)
Definition min_prefix (a : IpAddr) : Z := match a with V4 _ => MIN_IPV4_PREFIX | V6 _ => MIN_IPV6_PREFIX end.

Lemma proxy_from_str_ok s r : proxy_from_str s = Ok r →
  range_from_str s = Ok r ∧ is_unspecified (range_network r) = false ∧ min_prefix (range_network r) <= range_prefix_len r.
Proof.
unfold proxy_from_str. destruct (range_from_str s) as [r'| |]; try done. cbn [mbind outcome_bind].
destruct (is_unspecified (range_network r')) eqn:Hu; [done|]. fold (min_prefix (range_network r')).
destruct (Z.ltb_spec (range_prefix_len r') (min_prefix (range_network r'))); [done|]. intros [= <-]. done.
Qed.

Lemma proxies_parse_ok entries t : proxies_parse entries = Ok t → Forall2 (λ s r, proxy_from_str s = Ok r) entries t.
Proof.
unfold proxies_parse. rewrite collect_ok. intros Hf. assert (snd <$> imap pair entries = entries) as <-.
{ rewrite fmap_imap. rewrite <-(list_fmap_id entries) at 2. exact (imap_const id entries). }
rewrite Forall2_fmap_l. eapply Forall2_impl; [exact Hf|]. intros [i s] r. simpl. destruct (proxy_from_str s); naive_solver.
Qed.

Lemma proxies_parse_err entries e : proxies_parse entries = Err e →
  entries !! tp_index e = Some (tp_entry e) ∧ proxy_from_str (tp_entry e) = Err (tp_reason e) ∧
  ∀ j s, (j < tp_index e)%nat → entries !! j = Some s → ∃ r, proxy_from_str s = Ok r.
Proof.
unfold proxies_parse. intros (l1 & [i s] & l2 & Hl & Hx & Hl1)%collect_err.
destruct (proxy_from_str s) as [|reason|] eqn:Hs; try done. injection Hx as <-. cbn [tp_index tp_entry tp_reason].
assert (∀ j x, imap pair entries !! j = Some x → x.1 = j ∧ entries !! j = Some x.2) as Hix.
{ intros j x. rewrite list_lookup_imap. destruct (entries !! j) as [y|] eqn:Hj; [|done]. by intros [= <-]. }
destruct (Hix (length l1) (i, s)) as [Hi Hes]; [rewrite Hl; by apply list_lookup_middle|]. simpl in *. subst i.
split_and!; [done|done|]. intros j s' Hj Hs'.
assert (imap pair entries !! j = Some (j, s')) as Hj' by (by rewrite list_lookup_imap, Hs').
rewrite Hl, lookup_app_l in Hj' by done. rewrite list.Forall_forall in Hl1.
destruct (Hl1 (j, s')) as [r Hr]; [by eapply list_elem_of_lookup_2|]. exists r. destruct (proxy_from_str s'); naive_solver.
Qed.

Lemma interval_length (l : list Z) a w : 0 <= w → NoDup l → Forall (λ b, a <= b < a + w) l → zlen l <= w.
Proof.
intros Hw Hnd Hf. assert (l ⊆+ seqZ a w) as Hsub.
{ apply NoDup_submseteq; [done|]. intros b Hb. rewrite list.Forall_forall in Hf. apply elem_of_seqZ. by apply Hf. }
apply submseteq_length in Hsub. rewrite length_seqZ in Hsub. unfold zlen. lia.
Qed.

(** Distinct values in [n] intervals of [w] values each are at most [w * n]. *)
Lemma intervals_length (starts : list Z) w : 0 <= w → ∀ l : list Z, NoDup l →
  Forall (λ b, ∃ a, a ∈ starts ∧ a <= b < a + w) l → zlen l <= w * zlen starts.
Proof.
intros Hw. induction starts as [|a starts IH]; intros l Hnd Hf.
- destruct l as [|b l]; [change (0 <= w * 0); lia|]. apply Forall_cons in Hf as [(a & Ha & _) _]. by apply elem_of_nil in Ha.
- set (P b := a <= b < a + w). assert (∀ b, Decision (P b)) as Hdec by (intros b; unfold P; apply _).
  pose proof (Permutation_length (filter_app_complement P l)) as Hlen. rewrite length_app in Hlen.
  assert (zlen (filter P l) <= w) as H1'.
  { apply interval_length with a; [done|by apply NoDup_filter|]. apply list.Forall_forall. intros b [Hb _]%list_elem_of_filter. done. }
  assert (zlen (filter (λ b, ¬ P b) l) <= w * zlen starts) as H2'.
  { apply IH; [by apply NoDup_filter|]. apply list.Forall_forall. intros b [Hb Hbl]%list_elem_of_filter.
    rewrite list.Forall_forall in Hf. destruct (Hf b Hbl) as (a' & [->|Ha']%elem_of_cons & Hin); [done|eauto]. }
  autorewrite with zlen. unfold zlen in *. lia.
Qed.

(** The first address of a trusted block. *)
Definition block_start (r : ipnet) : Z := match range_network r with V4 b | V6 b => b end.

Lemma trusted_block s r ip : proxy_from_str s = Ok r → range_contains r ip = true →
  match range_network r, to_canonical ip with
  | V4 a, V4 b => 0 < a ∧ a <= b < a + 2 ^ 24
  | V6 a, V6 b => 0 < a ∧ a <= b < a + 2 ^ 112
  | _, _ => False
  end.
Proof.
intros (Hs & Hu & Hmin)%proxy_from_str_ok Hin. apply (range_contains_block s r ip Hs) in Hin.
apply range_from_str_inv in Hs as (a & p & _ & (Ha & Hp & Hf & _) & Hna & Hpl). rewrite Hna, Hpl in *.
rewrite in_block_between in Hin by done. rewrite Hf in Hin. destruct Hin as [Hlo Hhi].
destruct a as [x|x], (to_canonical ip) as [y|y]; cbn [ip_le] in *; try done;
  cbn [ip_ok is_unspecified min_prefix max_prefix last_addr first_addr] in *; injection Hf as Hf; rewrite Hf in Hhi.
all: apply Z.eqb_neq in Hu; unfold MIN_IPV4_PREFIX, MIN_IPV6_PREFIX in Hmin; split; [lia|].
- pose proof (Z.pow_le_mono_r 2 (32 - p) 24 ltac:(lia) ltac:(lia)). lia.
- pose proof (Z.pow_le_mono_r 2 (128 - p) 112 ltac:(lia) ltac:(lia)). lia.
Qed.

Lemma trusted_entry entries t ip : proxies_parse entries = Ok t → proxies_contains t ip = true →
  ∃ s r, r ∈ t ∧ proxy_from_str s = Ok r ∧ range_contains r ip = true.
Proof.
intros Hp%proxies_parse_ok Hc. unfold proxies_contains in Hc. apply existsb_exists in Hc as (r & Hr & Hc).
apply list_elem_of_In in Hr. apply list_elem_of_lookup in Hr as Hi. destruct Hi as [i Hi].
destruct (Forall2_lookup_r _ _ _ _ _ Hp Hi) as (s & _ & Hs). eauto.
Qed.

(** A trusted-proxy list that is accepted trusts exactly the addresses its entries
cover, never the unspecified address of either family, and at most [2^24] IPv4
addresses and [2^112] other IPv6 addresses per entry. A list that is refused names
its first bad entry, with its position. *)
Theorem trusted_proxies_bounded entries :
  match proxies_parse entries with
  | Ok t =>
      (∀ ip, proxies_contains t ip = true ↔ ∃ s, s ∈ entries ∧ covers s ip) ∧
      proxies_contains t (V4 0) = false ∧ proxies_contains t (V6 0) = false ∧
      (∀ l, NoDup l → Forall (λ b, proxies_contains t (V4 b) = true) l → zlen l <= 2 ^ 24 * zlen entries) ∧
      (∀ l, NoDup l → Forall (λ b, to_ipv4_mapped b = None ∧ proxies_contains t (V6 b) = true) l →
        zlen l <= 2 ^ 112 * zlen entries)
  | Err e =>
      entries !! tp_index e = Some (tp_entry e) ∧ proxy_from_str (tp_entry e) = Err (tp_reason e) ∧
      ∀ j s, (j < tp_index e)%nat → entries !! j = Some s → ∃ r, proxy_from_str s = Ok r
  | Panic => False
  end.
Proof.
destruct (proxies_parse entries) as [t|e|] eqn:Hp; [|by apply proxies_parse_err|].
2: { apply collect_no_panic in Hp; [done|]. intros [i s]. unfold proxy_from_str.
     pose proof (range_from_str_no_panic s). destruct (range_from_str s); simpl; try done. by repeat case_match. }
assert (zlen (block_start <$> t) = zlen entries) as Hlen.
{ apply proxies_parse_ok, Forall2_length in Hp. unfold zlen. rewrite length_fmap. lia. }
rewrite <-Hlen. split_and!.
- intros ip. eapply existsb_Forall2; [by apply proxies_parse_ok|]. intros s r [Hs _]%proxy_from_str_ok. by apply covers_contains.
- destruct (proxies_contains t (V4 0)) eqn:Hc; [|done]. destruct (trusted_entry _ _ _ Hp Hc) as (s & r & _ & Hs & Hin).
  pose proof (trusted_block _ _ _ Hs Hin) as Hb. simpl in Hb. destruct (range_network r); [lia|done].
- destruct (proxies_contains t (V6 0)) eqn:Hc; [|done]. destruct (trusted_entry _ _ _ Hp Hc) as (s & r & _ & Hs & Hin).
  pose proof (trusted_block _ _ _ Hs Hin) as Hb. simpl in Hb. destruct (range_network r); [done|lia].
- intros l Hnd Hl. apply intervals_length; [lia|done|]. eapply Forall_impl; [exact Hl|]. intros b Hc. simpl in Hc.
  destruct (trusted_entry _ _ _ Hp Hc) as (s & r & Hr & Hs & Hin). exists (block_start r). split; [by apply list_elem_of_fmap_2|].
  pose proof (trusted_block _ _ _ Hs Hin) as Hb. unfold block_start. cbn [to_canonical] in Hb. destruct (range_network r); [lia|done].
- intros l Hnd Hl. apply intervals_length; [lia|done|]. eapply Forall_impl; [exact Hl|]. intros b [Hm Hc].
  destruct (trusted_entry _ _ _ Hp Hc) as (s & r & Hr & Hs & Hin). exists (block_start r). split; [by apply list_elem_of_fmap_2|].
  pose proof (trusted_block _ _ _ Hs Hin) as Hb. unfold block_start. cbn [to_canonical] in Hb. rewrite Hm in Hb.
  destruct (range_network r); [done|lia].
Qed.

(** ** Webhook destinations *)

(** The blocks the built-in list denotes: "this" network, the private networks,
loopback, link-local, carrier-grade NAT, protocol assignments, documentation,
benchmarking, reserved and broadcast; the IPv6 unspecified and loopback addresses,
unique local and link-local. *)
Definition v4 (a b c d : Z) : IpAddr := V4 (of_groups 8 [a; b; c; d]).
Definition BLOCKED_BLOCKS : list (IpAddr * Z) :=
  [(v4 0 0 0 0, 8); (v4 10 0 0 0, 8); (v4 172 16 0 0, 12); (v4 192 168 0 0, 16); (v4 127 0 0 0, 8);
   (v4 169 254 0 0, 16); (v4 100 64 0 0, 10); (v4 192 0 0 0, 24); (v4 192 0 2 0, 24); (v4 198 51 100 0, 24);
   (v4 203 0 113 0, 24); (v4 198 18 0 0, 15); (v4 240 0 0 0, 4); (v4 255 255 255 255, 32);
   (V6 0, 128); (V6 1, 128); (V6 (0xfc * 2 ^ 120), 7); (V6 (0xfe80 * 2 ^ 112), 10)].
Definition blocked (ip : IpAddr) : Prop := Exists (λ b, in_block b.1 b.2 (to_canonical ip)) BLOCKED_BLOCKS.

#[export] Instance blocked_dec ip : Decision (blocked ip).
Proof. unfold blocked. apply _. Defined.

(** An entry stating a canonical block denotes that block. *)
Lemma range_of_parts s a p : entry_parts s = Ok (a, p) → canonical_parts a p = (a, p) → first_addr p a = a →
  p <= max_prefix a → ∃ r, range_from_str s = Ok r ∧ range_network r = a ∧ range_prefix_len r = p.
Proof.
intros He Hc Hf Hp. rewrite range_from_str_parts, He. cbn [mbind outcome_bind]. rewrite (proj2 (Z.ltb_ge _ _)) by done.
apply entry_parts_ok in He as [Ha H0p]. rewrite Hc. destruct (net_new_some a p) as [n Hn]; [lia|]. rewrite Hn.
rewrite bool_decide_eq_true_2 by done. exists n. split; [done|]. unfold range_network, range_prefix_len.
rewrite net_network_first. by destruct (net_new_addr a p n Hn) as [-> ->].
Qed.

Definition denotes (s : Str) (b : IpAddr * Z) : Prop :=
  ∃ r, range_from_str s = Ok r ∧ range_network r = b.1 ∧ range_prefix_len r = b.2.

Lemma blocked_list_parses : Forall2 denotes BLOCKED_CIDR_STRS BLOCKED_BLOCKS.
Proof.
repeat constructor; unfold denotes; apply range_of_parts; by vm_compute.
Qed.

Lemma blocked_cidrs_total : ∃ rs, blocked_cidrs = Ok rs ∧
  Forall2 (λ b r, ∃ s, range_from_str s = Ok r ∧ range_network r = b.1 ∧ range_prefix_len r = b.2) BLOCKED_BLOCKS rs.
Proof.
unfold blocked_cidrs. generalize blocked_list_parses.
generalize BLOCKED_CIDR_STRS BLOCKED_BLOCKS. intros ss bs Hf. induction Hf as [|s b ss bs (r & Hr & Hna & Hnp) Hf IH].
- by exists [].
- destruct IH as (rs & Hc & Hrs). exists (r :: rs). simpl. rewrite Hr. simpl. rewrite Hc. split; [done|]. constructor; eauto.
Qed.

Lemma to_canonical_idemp ip : to_canonical (to_canonical ip) = to_canonical ip.
Proof. destruct ip as [b|b]; simpl; [done|]. destruct (to_ipv4_mapped b) eqn:Hm; simpl; [done|]. by rewrite Hm. Qed.

(** The test never panics on the built-in list, and holds exactly on its blocks. *)
Lemma is_ssrf_blocked_exact ip : is_ssrf_blocked ip = Ok (bool_decide (blocked ip)).
Proof.
unfold is_ssrf_blocked. fold (to_canonical ip).
destruct blocked_cidrs_total as (rs & -> & Hrs). cbn [mbind outcome_bind]. f_equal. apply eq_bool_prop_intro.
rewrite bool_decide_spec, Is_true_true. unfold blocked. rewrite Exists_exists.
eapply existsb_Forall2; [exact Hrs|]. intros b r (s & Hr & <- & <-).
rewrite (range_contains_block s r _ Hr). by rewrite to_canonical_idemp.
Qed.

Lemma refuse_blocked_exact addrs : refuse_blocked addrs =
  match list_find blocked addrs with Some (_, ip) => Err (PrivateAddress ip) | None => Ok () end.
Proof.
induction addrs as [|ip addrs IH]; [done|]. cbn [refuse_blocked list_find]. rewrite is_ssrf_blocked_exact.
cbn [mbind outcome_bind]. destruct (decide (blocked ip)); [by rewrite bool_decide_eq_true_2|].
rewrite bool_decide_eq_false_2 by done. rewrite IH. by destruct (list_find blocked addrs) as [[??]|].
Qed.

Lemma refuse_blocked_ok addrs : refuse_blocked addrs = Ok () ↔ Forall (λ ip, ¬ blocked ip) addrs.
Proof.
rewrite refuse_blocked_exact. destruct (list_find blocked addrs) as [[i ip]|] eqn:Hf.
- split; [done|]. intros Hall. apply list_find_Some in Hf as (Hi & Hb & _). rewrite Forall_lookup in Hall. by apply Hall in Hi.
- apply list_find_None in Hf. done.
Qed.

Lemma extract_no_panic url : extract_host_port url ≠ Panic.
Proof.
unfold extract_host_port. destruct (negb _); [done|]. case_bool_decide; [done|].
set (au := match rsplit_once _ _ with Some _ => _ | None => _ end). destruct (str_starts_with_char x5b au).
- destruct (split_once x5d au) as [[l [|c r]]|]; try done. case_decide; [|done]. by destruct (u16_from_str r).
- destruct (rsplit_once colon au) as [[h p]|]; [|done]. by destruct (u16_from_str p).
Qed.

(** C31: A webhook URL passes the check exactly when it is an [https] URL whose host
resolves, to at least one address, and to no blocked one; the check never panics; and
whatever the name service answers at connect time, the addresses handed to the
connection are exactly that answer, and none when one of them is blocked. *)
Theorem webhook_destinations_checked dns url :
  (check_webhook_url dns url = Ok () ↔
   ∃ host port addrs, extract_host_port url = Ok (host, port) ∧ str_starts_with https url = true ∧
     dns (host ++ colon :: fmt_radix 10 port) = Some addrs ∧ addrs ≠ [] ∧ Forall (λ ip, ¬ blocked ip) addrs) ∧
  check_webhook_url dns url ≠ Panic ∧
  ∀ answer, match resolve (Ok answer) with
            | Ok addrs => addrs = answer ∧ Forall (λ ip, ¬ blocked ip) addrs
            | Err (PrivateAddress ip) => ip ∈ answer ∧ blocked ip
            | _ => False
            end.
Proof.
split_and!.
- unfold check_webhook_url. destruct (str_starts_with https url) eqn:Hs; cbn [negb]; [|naive_solver].
  destruct (extract_host_port url) as [[host port]| |]; cbn [mbind outcome_bind]; [|naive_solver..].
  unfold check_host. split.
  + destruct (dns _) as [addrs|] eqn:Hd; [|done]. case_bool_decide; [done|]. intros Hr%refuse_blocked_ok.
    exists host, port, addrs. by split_and!.
  + intros (h & p & addrs & [= <- <-] & _ & -> & Hn & Hall). rewrite bool_decide_eq_false_2 by done. by apply refuse_blocked_ok.
- unfold check_webhook_url. destruct (negb _); [done|]. pose proof (extract_no_panic url).
  destruct (extract_host_port url) as [[host port]| |]; try done. cbn [mbind outcome_bind]. unfold check_host.
  destruct (dns _) as [addrs|]; [|done]. case_bool_decide; [done|]. rewrite refuse_blocked_exact.
  by destruct (list_find blocked addrs) as [[??]|].
- intros answer. unfold resolve. cbn [mbind outcome_bind]. destruct (refuse_blocked answer) as [[]|e|] eqn:Hr; cbn [mbind outcome_bind].
  + split; [done|]. by apply refuse_blocked_ok.
  + rewrite refuse_blocked_exact in Hr. destruct (list_find blocked answer) as [[i ip]|] eqn:Hf; [|done].
    injection Hr as <-. apply list_find_Some in Hf as (Hi & Hb & _). split; [by eapply list_elem_of_lookup_2|done].
  + rewrite refuse_blocked_exact in Hr. by destruct (list_find blocked answer) as [[??]|].
Qed.

(** Multicast, and the IPv6 forms that embed an IPv4 address other than the mapped one
(IPv4-compatible, NAT64 and 6to4), pass the guard whatever address they embed: here
the instance metadata address 169.254.169.254. *)
Lemma embedded_metadata_not_blocked :
  blocked (v4 169 254 169 254) ∧ blocked (V6 (0xffff * 2 ^ 32 + 0xa9fea9fe)) ∧
  ¬ blocked (v4 224 0 0 1) ∧ ¬ blocked (V6 0xa9fea9fe) ∧
  ¬ blocked (V6 (0x64ff9b * 2 ^ 96 + 0xa9fea9fe)) ∧ ¬ blocked (V6 (0x2002 * 2 ^ 112 + 0xa9fea9fe * 2 ^ 80)).
Proof. split_and!; apply (bool_decide_unpack _); by vm_compute. Qed.
End Exactness.

(** ** Evaluations *)

#[local] Existing Instance pair_net.
#[local] Existing Instance pair_net_laws.

Definition sample_filter : CidrFilter (IpAddr * Z) := {| cf_allow := [(v4 10 0 0 0, 8)]; cf_deny := [(v4 10 1 0 0, 16)] |}.

(** An exception carved out of an allowed range, and a list refused at its second
entry. *)
Lemma cidr_filter_exact_witness :
  (from_strs [lit "10.0.0.0/8"] [lit "10.1.0.0/16"] = Ok sample_filter ∧
   (cidr_check sample_filter (v4 10 1 2 3) = Allow ↔
    (∀ s, s ∈ [lit "10.1.0.0/16"] → ¬ covers s (v4 10 1 2 3)) ∧
    ([lit "10.0.0.0/8"] = [] ∨ ∃ s, s ∈ [lit "10.0.0.0/8"] ∧ covers s (v4 10 1 2 3)))) ∧
  cidr_check sample_filter (v4 10 1 2 3) = Deny ∧ cidr_check sample_filter (v4 10 2 2 3) = Allow ∧
  from_strs [lit "10.0.0.0/8"] [lit "10.1.2.255/24"] =
    Err {| ce_entry := lit "10.1.2.255/24"; ce_reason := HostBitsSet (v4 10 1 2 0) 24 |}.
Proof.
split; [split; [by vm_compute|]|by vm_compute].
pose proof (cidr_filter_exact [lit "10.0.0.0/8"] [lit "10.1.0.0/16"]) as Hx.
assert (from_strs [lit "10.0.0.0/8"] [lit "10.1.0.0/16"] = Ok sample_filter) as Hf by (by vm_compute).
rewrite Hf in Hx. exact (Hx (v4 10 1 2 3)).
Defined.

Lemma trusted_proxies_bounded_witness :
  (∃ t, proxies_parse [lit "10.0.0.7"; lit "::ffff:10.9.0.0/112"] = Ok t ∧ proxies_contains t (v4 10 9 200 1) = true ∧
     proxies_contains t (V4 0) = false) ∧
  proxies_parse [lit "10.0.0.7"; lit "0.0.0.0/0"] =
    Err {| tp_index := 1; tp_entry := lit "0.0.0.0/0"; tp_reason := Unspecified |}.
Proof.
split; [|by vm_compute]. pose proof (trusted_proxies_bounded [lit "10.0.0.7"; lit "::ffff:10.9.0.0/112"]) as Hx.
assert (proxies_parse [lit "10.0.0.7"; lit "::ffff:10.9.0.0/112"] = Ok [(v4 10 0 0 7, 32); (v4 10 9 0 0, 16)]) as Hp by (by vm_compute).
rewrite Hp in Hx. exists [(v4 10 0 0 7, 32); (v4 10 9 0 0, 16)]. split; [exact Hp|]. split; [by vm_compute|]. apply Hx.
Defined.

(** A name service that answers with a public address and, for one name, with a
private address as well. *)
Definition sample_dns (s : Str) : option (list IpAddr) :=
  if bool_decide (s = lit "hooks.example.com:443") then Some [v4 93 184 216 34]
  else if bool_decide (s = lit "rebind.example.com:8443") then Some [v4 93 184 216 34; v4 10 0 0 5]
  else None.

Lemma webhook_destinations_checked_witness :
  check_webhook_url sample_dns (lit "https://hooks.example.com/in") = Ok () ∧
  check_webhook_url sample_dns (lit "https://user@rebind.example.com:8443/in") = Err (PrivateAddress (v4 10 0 0 5)) ∧
  check_webhook_url sample_dns (lit "https://[::1/in") = Err UnclosedBracket ∧
  ∃ host port addrs, extract_host_port (lit "https://hooks.example.com/in") = Ok (host, port) ∧
    str_starts_with https (lit "https://hooks.example.com/in") = true ∧
    sample_dns (host ++ colon :: fmt_radix 10 port) = Some addrs ∧ addrs ≠ [] ∧ Forall (λ ip, ¬ blocked ip) addrs.
Proof.
assert (check_webhook_url sample_dns (lit "https://hooks.example.com/in") = Ok ()) as Hc by (by vm_compute).
split; [exact Hc|]. split; [by vm_compute|]. split; [by vm_compute|].
pose proof (webhook_destinations_checked sample_dns (lit "https://hooks.example.com/in")) as [Hx _]. apply Hx, Hc.
Defined.
