(* ===== verification/Limiter.v ===== *)
(** * Rate-limiter building blocks

[core/limiter.rs]: the key an address is counted under, and the bounded map of
expiring entries every in-process limiter keeps its state in. A [HashMap] enumerates
its entries in an arbitrary order, which decides between entries that expire at the
same instant when the map evicts; the order is the class [HashOrder].

The map is bounded whatever is inserted ([em_bounded]), an eviction removes exactly
the entries that expire soonest ([evict_soonest_exact]), and a limiter whose expired
entries decide like fresh ones cannot tell the map from an unbounded one that never
forgets, as long as it is not filled ([limiter_transparent]). *)
From stdpp Require Import base list gmap numbers strings sorting fin_maps.
From Stdlib Require Import Strings.Byte ZArith Lia.
From S2P Require Import Prelude OrdMap StorageTypes RbacTypes IpAddr IpRange.

Open Scope Z_scope.

(** ** Keys *)

(** [rate_limit_key]: an IPv6 address is counted under its /64. *)
Definition rate_limit_key (ip : IpAddr) : IpAddr :=
  match to_canonical ip with
  | V4 b => V4 b
  | V6 b => match segments b with
            | s0 :: s1 :: s2 :: s3 :: _ => V6 (of_groups 16 [s0; s1; s2; s3; 0; 0; 0; 0])
            | _ => V6 b
            end
  end.
Definition rate_limit_key_str (ip : Str) : Str :=
  match parse_ip ip with Some addr => ip_to_string (rate_limit_key addr) | None => ip end.

#[export] Instance IpAddr_countable : Countable IpAddr.
Proof.
refine (inj_countable' (λ a, match a with V4 b => inl b | V6 b => inr b end)
  (λ x, match x with inl b => V4 b | inr b => V6 b end) _). by intros [].
Defined.

(** ** The clock *)

(** [LimiterClock::plus]. An [Instant] that cannot be represented stays where it is; an
[i64] saturates. *)
Class LimiterClock := clock_plus : Z → Z → Z.
Definition INSTANT_MAX : Z := 2 ^ 63 * 10 ^ 9 - 1.
Definition i64_max : Z := 2 ^ 63 - 1.
Definition instant_clock : LimiterClock := λ t d, if t + d <=? INSTANT_MAX then t + d else t.
Definition micros_clock : LimiterClock := λ t d, Z.min i64_max (t + Z.min i64_max d).
(** [Instant::duration_since] saturates at zero. *)
Definition duration_since (now start : Z) : Z := Z.max 0 (now - start).

(** ** The map *)

Definition usize_max : Z := 2 ^ 64 - 1.
Definition SWEEP_FLOOR : Z := 1024.

Record Slot (V : Type) := { sl_value : V; sl_expires_at : Z }.
Arguments sl_value {V} _.
Arguments sl_expires_at {V} _.
Arguments Build_Slot {V} _ _.

Record ExpiringMap (K V : Type) `{Countable K} := {
  em_entries : gmap K (Slot V);
  em_capacity : Z;
  em_sweep_interval : Z;
  em_next_sweep : option Z;
  em_sweep_at_len : Z;
}.
Arguments em_entries {K V _ _} _.
Arguments em_capacity {K V _ _} _.
Arguments em_sweep_interval {K V _ _} _.
Arguments em_next_sweep {K V _ _} _.
Arguments em_sweep_at_len {K V _ _} _.
Arguments Build_ExpiringMap {K V _ _} _ _ _ _ _.

(** The order a map enumerates its entries in. *)
Class HashOrder (K V : Type) `{Countable K} := hash_iter : gmap K (Slot V) → list (K * Slot V).
Class HashOrderLaws (K V : Type) `{HashOrder K V} := hash_iter_perm m : hash_iter m ≡ₚ map_to_list m.

Section Map.
Context {K V : Type} `{Countable K} `{LimiterClock} `{!HashOrder K V}.
Implicit Types m : ExpiringMap K V.

Definition em_len m : Z := Z.of_nat (size (em_entries m)).

Definition em_new (capacity sweep_interval : Z) : ExpiringMap K V :=
  let capacity := Z.max capacity 1 in
  Build_ExpiringMap ∅ capacity sweep_interval None (Z.min SWEEP_FLOOR capacity).

Definition em_get m (key : K) : option V := sl_value <$> em_entries m !! key.

Definition with_entries (es : gmap K (Slot V)) m : ExpiringMap K V :=
  Build_ExpiringMap es (em_capacity m) (em_sweep_interval m) (em_next_sweep m) (em_sweep_at_len m).

Definition em_remove m (key : K) : option V * ExpiringMap K V :=
  (em_get m key, with_entries (delete key (em_entries m)) m).

(** [sweep]: an entry that expires at [now] stays. *)
Definition em_sweep (now : Z) m : ExpiringMap K V :=
  let es := filter (λ e : K * Slot V, now <= sl_expires_at e.2) (em_entries m) in
  let after := Z.of_nat (size es) in
  Build_ExpiringMap es (em_capacity m) (em_sweep_interval m) (Some (clock_plus now (em_sweep_interval m)))
    (Z.min (Z.max (Z.min (after * 2) usize_max) SWEEP_FLOOR) (em_capacity m)).

(** The [retain] of [evict_soonest], over the entries in the map's order: everything
before the cutoff goes, and of the entries at the cutoff the first [ties]. *)
Fixpoint retain_after (cutoff : Z) (ties : nat) (l : list (K * Slot V)) : list (K * Slot V) :=
  match l with
  | [] => []
  | e :: l' =>
      if sl_expires_at e.2 <? cutoff then retain_after cutoff ties l'
      else match ties with
           | S ties' => if sl_expires_at e.2 =? cutoff then retain_after cutoff ties' l' else e :: retain_after cutoff ties l'
           | O => e :: retain_after cutoff ties l'
           end
  end.

(** [evict_soonest]: [select_nth_unstable] leaves the [count] smallest expiries first
and returns the largest of them. *)
Definition evict_soonest (count : nat) m : ExpiringMap K V :=
  if bool_decide (size (em_entries m) ≤ count)%nat then with_entries ∅ m else
  let smallest := take count (merge_sort Z.le ((sl_expires_at ∘ snd) <$> hash_iter (em_entries m))) in
  let cutoff := default 0 (last smallest) in
  let strictly_before := length (filter (λ e, e < cutoff) smallest) in
  with_entries (list_to_map (retain_after cutoff (count - strictly_before) (hash_iter (em_entries m)))) m.

Definition make_room (now : Z) m : ExpiringMap K V :=
  if em_len m <? em_sweep_at_len m then m else
  let m := em_sweep now m in
  if em_capacity m <=? em_len m then evict_soonest (Z.to_nat (Z.max (em_capacity m / 8) 1)) m else m.

(** [upsert]; [update] returns the caller's result, the new value and its expiry. *)
Definition em_upsert {R} (key : K) (now : Z) (init : V) (update : V → R * V * Z) m : R * ExpiringMap K V :=
  let m := match em_next_sweep m with
           | Some due => if now <? due then m else em_sweep now m
           | None => em_sweep now m
           end in
  let m := match em_entries m !! key with Some _ => m | None => make_room now m end in
  let value := match em_entries m !! key with Some slot => sl_value slot | None => init end in
  let '(result, value', expires_at) := update value in
  (result, with_entries (<[key := Build_Slot value' expires_at]> (em_entries m)) m).

End Map.

(** ** Keys are prefixes *)

Lemma of_groups_zeroes w gs n : 0 <= w → of_groups w (gs ++ replicate n 0) = of_groups w gs * 2 ^ (w * Z.of_nat n).
Proof.
intros Hw. induction n as [|n IH]; [simpl; rewrite app_nil_r, Z.mul_0_r; lia|].
rewrite replicate_S_end, app_assoc, of_groups_snoc, IH by first [done|split; [lia|apply Z.pow_pos_nonneg; lia]].
rewrite Nat2Z.inj_succ, Z.mul_succ_r, Z.pow_add_r by lia. lia.
Qed.

Lemma of_groups_app w gs gs' : 0 <= w → Forall (λ g, 0 <= g < 2 ^ w) gs' →
  of_groups w (gs ++ gs') = of_groups w gs * 2 ^ (w * zlen gs') + of_groups w gs'.
Proof.
intros Hw. induction gs' as [|g gs' IH] using rev_ind; intros Hf.
- rewrite app_nil_r. change (of_groups w []) with 0. change (zlen (@nil Z)) with 0. rewrite Z.mul_0_r. lia.
- apply Forall_app in Hf as [Hf Hg]. apply Forall_cons in Hg as [Hg _].
  rewrite app_assoc, !of_groups_snoc, IH by done. autorewrite with zlen. change (zlen (@nil Z)) with 0.
  replace (w * (zlen gs' + (1 + 0))) with (w * zlen gs' + w) by lia. rewrite Z.pow_add_r; [lia|zlen_facts; nia|done].
Qed.

Lemma rate_limit_key_first ip : ip_ok ip →
  rate_limit_key ip = match to_canonical ip with V4 b => V4 b | V6 b => first_addr 64 (V6 b) end.
Proof.
intros Hip. unfold rate_limit_key. destruct (to_canonical ip) as [b|b] eqn:Hc; [done|].
assert (0 <= b < 2 ^ 128) as Hb.
{ destruct ip as [x|x]; simpl in *; [done|]. destruct (to_ipv4_mapped x); simplify_eq. done. }
pose proof (of_groups_of 8 16 b ltac:(lia) ltac:(lia) ltac:(lia)) as Hback.
pose proof (groups_of_bound 8 16 b ltac:(lia) ltac:(lia)) as Hbound.
pose proof (length_groups_of 8 16 b ltac:(lia) ltac:(lia)) as Hlen. unfold segments.
destruct (groups_of 8 16 b) as [|s0 [|s1 [|s2 [|s3 lo]]]]; try discriminate. simpl in Hlen.
change [s0; s1; s2; s3; 0; 0; 0; 0] with ([s0; s1; s2; s3] ++ replicate 4 0). rewrite of_groups_zeroes by lia.
change (s0 :: s1 :: s2 :: s3 :: lo) with ([s0; s1; s2; s3] ++ lo) in *. apply Forall_app in Hbound as [_ Hlo].
rewrite of_groups_app in Hback by (try done; lia). pose proof (of_groups_bound 16 lo ltac:(lia) Hlo) as Hl.
assert (zlen lo = 4) as Hz by (unfold zlen; lia). rewrite Hz in *. cbn [first_addr]. f_equal.
change (16 * Z.of_nat 4) with 64. change (16 * 4) with 64 in *. change (4 * 16) with 64 in Hl. change (128 - 64) with 64.
f_equal. apply (Z.div_unique b (2 ^ 64) _ (of_groups 16 lo)); lia.
Qed.

Lemma rate_limit_key_ok ip : ip_ok ip → ip_ok (rate_limit_key ip).
Proof.
intros Hip. rewrite rate_limit_key_first by done. destruct ip as [x|x]; simpl in *; [done|].
destruct (to_ipv4_mapped x) as [v|] eqn:Hm; [apply mapped_bits in Hm; simpl; lia|].
apply (first_addr_ok 64 (V6 x)); simpl; lia.
Qed.

Lemma rate_limit_key_idemp ip : ip_ok ip → rate_limit_key (rate_limit_key ip) = rate_limit_key ip.
Proof.
intros Hip. pose proof (rate_limit_key_ok ip Hip) as Hok. rewrite (rate_limit_key_first _ Hok).
rewrite (rate_limit_key_first ip Hip) in *. destruct (to_canonical ip) as [b|b] eqn:Hc; [done|].
pose proof (first_addr_idemp 64 (V6 b) ltac:(simpl; lia)) as Hf. cbn [first_addr ip_ok] in Hf, Hok |- *.
apply mapped_not_network in Hf as Hm; [|lia..]. cbn [to_canonical]. by rewrite Hm.
Qed.

(** Two addresses are counted under one key exactly when they are the same IPv4
address, in either of its forms, or lie in the same IPv6 /64; and the textual key is
the text of that key, stable when it is taken again. *)
Theorem rate_limit_keys_exact a b s : ip_ok a → ip_ok b →
  (rate_limit_key a = rate_limit_key b ↔
   match to_canonical a, to_canonical b with
   | V4 x, V4 y => x = y
   | V6 x, V6 y => x / 2 ^ 64 = y / 2 ^ 64
   | _, _ => False
   end) ∧
  rate_limit_key_str (ip_to_string a) = ip_to_string (rate_limit_key a) ∧
  rate_limit_key_str (rate_limit_key_str s) = rate_limit_key_str s.
Proof.
intros Ha Hb. split_and!.
- rewrite !rate_limit_key_first by done. destruct (to_canonical a) as [x|x], (to_canonical b) as [y|y]; cbn [first_addr].
  + naive_solver.
  + done.
  + done.
  + change (128 - 64) with 64. split; [intros [= Heq]; lia|by intros ->].
- unfold rate_limit_key_str. by rewrite ip_text_roundtrip.
- unfold rate_limit_key_str. destruct (parse_ip s) as [c|] eqn:Hp; [|by rewrite Hp].
  apply parse_ip_ok in Hp. rewrite ip_text_roundtrip by (by apply rate_limit_key_ok). by rewrite rate_limit_key_idemp.
Qed.

Lemma rate_limit_keys_exact_witness :
  ip_ok (V6 (0x20010db8 * 2 ^ 96 + 7)) ∧
  rate_limit_key_str (lit "2001:db8::7") = lit "2001:db8::" ∧
  rate_limit_key_str (ip_to_string (V6 (0x20010db8 * 2 ^ 96 + 7))) =
    ip_to_string (rate_limit_key (V6 (0x20010db8 * 2 ^ 96 + 7))).
Proof.
assert (ip_ok (V6 (0x20010db8 * 2 ^ 96 + 7))) as Hok by (simpl; lia).
split; [exact Hok|]. split; [by vm_compute|].
apply (rate_limit_keys_exact _ _ (lit "2001:db8::7") Hok Hok).
Defined.

(** ** Eviction *)

Section Eviction.
Context {K V : Type} `{Countable K} `{LimiterClock} `{!HashOrder K V} `{!HashOrderLaws K V}.
Implicit Types m : ExpiringMap K V.

Lemma retain_after_length cutoff (l : list (K * Slot V)) : ∀ ties,
  (ties ≤ length (filter (λ e : K * Slot V, sl_expires_at e.2 = cutoff) l))%nat →
  (length (retain_after cutoff ties l) + ties + length (filter (λ e : K * Slot V, (sl_expires_at e.2 < cutoff)%Z) l) = length l)%nat.
Proof.
induction l as [|e l IH]; intros ties Ht; simpl in *; [lia|]. rewrite !filter_cons in *.
destruct (Z.ltb_spec (sl_expires_at e.2) cutoff).
- rewrite decide_True by lia. rewrite decide_False in Ht by lia. specialize (IH ties Ht). simpl. lia.
- rewrite (decide_False (P := sl_expires_at e.2 < cutoff)) by lia. destruct ties as [|ties].
  + specialize (IH 0%nat ltac:(lia)). simpl. lia.
  + destruct (Z.eqb_spec (sl_expires_at e.2) cutoff) as [He|He].
    * rewrite decide_True in Ht by done. simpl in Ht. specialize (IH ties ltac:(lia)). lia.
    * rewrite decide_False in Ht by done. specialize (IH (S ties) Ht). simpl. lia.
Qed.

Lemma retain_after_sublist cutoff (l : list (K * Slot V)) : ∀ ties, retain_after cutoff ties l `sublist_of` l.
Proof.
induction l as [|e l IH]; intros ties; simpl; [done|].
repeat case_match; by constructor.
Qed.

Lemma retain_after_kept cutoff (l : list (K * Slot V)) : ∀ ties,
  Forall (λ e, cutoff <= sl_expires_at e.2) (retain_after cutoff ties l) ∧
  ∀ e, e ∈ l → e ∉ retain_after cutoff ties l → sl_expires_at e.2 <= cutoff.
Proof.
induction l as [|e l IH]; intros ties; simpl; [split; [constructor|intros e Hin; by apply elem_of_nil in Hin]|].
assert (∀ t, (∀ e', e' ∈ l → e' ∉ retain_after cutoff t l → sl_expires_at e'.2 <= cutoff) →
  ∀ e', e' ∈ e :: l → e' ∉ e :: retain_after cutoff t l → sl_expires_at e'.2 <= cutoff) as Hkeep.
{ intros t Hd e' [->|Hin]%elem_of_cons Hn; apply not_elem_of_cons in Hn as [? Hn]; [done|by apply Hd]. }
assert (sl_expires_at e.2 <= cutoff → ∀ t, (∀ e', e' ∈ l → e' ∉ retain_after cutoff t l → sl_expires_at e'.2 <= cutoff) →
  ∀ e', e' ∈ e :: l → e' ∉ retain_after cutoff t l → sl_expires_at e'.2 <= cutoff) as Hdrop.
{ intros He t Hd e' [->|Hin]%elem_of_cons Hn; [done|by apply Hd]. }
destruct (Z.ltb_spec (sl_expires_at e.2) cutoff); [destruct (IH ties); split; [done|]; apply Hdrop; [lia|done]|].
destruct ties as [|ties]; [destruct (IH 0%nat); split; [by constructor|by apply Hkeep]|].
destruct (Z.eqb_spec (sl_expires_at e.2) cutoff).
- destruct (IH ties). split; [done|]. apply Hdrop; [lia|done].
- destruct (IH (S ties)). split; [constructor; [lia|done]|by apply Hkeep].
Qed.

(** How many of some expiries lie before an instant, and at it. *)
Definition before (c : Z) (es : list Z) : nat := length (filter (λ e : Z, e < c) es).
Definition at_instant (c : Z) (es : list Z) : nat := length (filter (λ e : Z, e = c) es).

Lemma before_app c l1 l2 : before c (l1 ++ l2) = (before c l1 + before c l2)%nat.
Proof. unfold before. by rewrite filter_app, length_app. Qed.
Lemma at_instant_app c l1 l2 : at_instant c (l1 ++ l2) = (at_instant c l1 + at_instant c l2)%nat.
Proof. unfold at_instant. by rewrite filter_app, length_app. Qed.
Lemma before_none c l : (∀ e, e ∈ l → c <= e) → before c l = 0%nat.
Proof.
intros Hl. induction l as [|e l IH]; [done|]. unfold before in *. rewrite filter_cons.
rewrite decide_False by (specialize (Hl e ltac:(by constructor)); lia). apply IH. intros e' He'. apply Hl. by constructor.
Qed.
Lemma before_at_all c l : (∀ e, e ∈ l → e <= c) → (before c l + at_instant c l = length l)%nat.
Proof.
induction l as [|e l IH]; intros Hl; [done|]. specialize (IH ltac:(intros; apply Hl; by constructor)).
specialize (Hl e ltac:(by constructor)). unfold before, at_instant in *. rewrite !filter_cons. simpl.
destruct (decide (e < c)); [rewrite decide_False by lia|rewrite decide_True by lia]; simpl; lia.
Qed.

(** The [count] smallest of some expiries, and the largest of them. *)
Lemma smallest_facts (es : list Z) count cutoff :
  let smallest := take count (merge_sort Z.le es) in
  (0 < count ≤ length es)%nat → cutoff = default 0 (last smallest) →
  before cutoff smallest = before cutoff es ∧
  (count - before cutoff smallest ≤ at_instant cutoff es)%nat ∧ (before cutoff smallest ≤ count)%nat.
Proof.
intros smallest Hc Hcut. pose proof (merge_sort_Permutation Z.le es) as Hperm.
pose proof (StronglySorted_merge_sort Z.le es) as Hsort. subst smallest.
assert (before cutoff es = before cutoff (merge_sort Z.le es)) as -> by (unfold before; by rewrite Hperm).
assert (at_instant cutoff es = at_instant cutoff (merge_sort Z.le es)) as -> by (unfold at_instant; by rewrite Hperm).
rewrite <-(Permutation_length Hperm) in Hc. set (s := merge_sort Z.le es) in *.
rewrite <-(take_drop count s) in Hsort. apply StronglySorted_app in Hsort as (Hle & Hst & _).
rewrite <-(take_drop count s) at 2 4. rewrite before_app, at_instant_app.
assert (length (take count s) = count) as Hlen by (rewrite length_take; lia).
destruct (last (take count s)) as [c|] eqn:Hlast.
2: { apply last_None in Hlast. rewrite Hlast in Hlen. simpl in Hlen. lia. }
simpl in Hcut. subst c. apply last_Some in Hlast as [front Hfront].
rewrite (before_none cutoff (drop count s)) by (intros e He; apply Hle; [rewrite Hfront; set_solver|done]).
pose proof (before_at_all cutoff (take count s)) as Hall. rewrite Hlen in Hall.
assert (∀ e, e ∈ take count s → e <= cutoff) as Hmax.
{ rewrite Hfront in Hst |- *. apply StronglySorted_app in Hst as (Hf & _ & _).
  intros e [He|He]%elem_of_app; [apply Hf; set_solver|]. apply list_elem_of_singleton in He. lia. }
specialize (Hall Hmax). lia.
Qed.

Lemma length_filter_fmap (P : Z → Prop) `{∀ x, Decision (P x)} (l : list (K * Slot V)) :
  length (filter P ((sl_expires_at ∘ snd) <$> l)) = length (filter (λ e : K * Slot V, P (sl_expires_at e.2)) l).
Proof. induction l as [|e l IH]; [done|]. rewrite fmap_cons, !filter_cons. simpl. case_decide; simpl; lia. Qed.

Lemma hash_iter_keys (es : gmap K (Slot V)) : NoDup (hash_iter es).*1.
Proof. rewrite (hash_iter_perm es). apply NoDup_fst_map_to_list. Qed.

Lemma hash_iter_length (es : gmap K (Slot V)) : length (hash_iter es) = size es.
Proof. by rewrite (Permutation_length (hash_iter_perm es)), length_map_to_list. Qed.

Lemma hash_iter_elem (es : gmap K (Slot V)) k sl : (k, sl) ∈ hash_iter es ↔ es !! k = Some sl.
Proof. by rewrite (hash_iter_perm es), elem_of_map_to_list. Qed.

(** An eviction removes exactly [count] entries, and none it keeps expires before one
it removes. *)
Lemma evict_soonest_exact count m : (0 < count < size (em_entries m))%nat →
  (size (em_entries (evict_soonest count m)) + count = size (em_entries m))%nat ∧
  em_entries (evict_soonest count m) ⊆ em_entries m ∧
  ∀ k sl k' sl', em_entries m !! k = Some sl → em_entries (evict_soonest count m) !! k = None →
    em_entries (evict_soonest count m) !! k' = Some sl' → sl_expires_at sl <= sl_expires_at sl'.
Proof.
intros Hc. unfold evict_soonest. rewrite bool_decide_eq_false_2 by lia.
set (l := hash_iter (em_entries m)). set (es := (sl_expires_at ∘ snd) <$> l).
set (cutoff := default 0 (last (take count (merge_sort Z.le es)))).
assert (length l = size (em_entries m)) as Hl by apply hash_iter_length.
destruct (smallest_facts es count cutoff ltac:(subst es; rewrite length_fmap; lia) eq_refl) as (Hb & Ht & Hbc).
fold (before cutoff (take count (merge_sort Z.le es))). set (n := (count - before _ _)%nat) in *.
unfold before, at_instant in Hb, Ht. unfold es in Hb at 2. unfold es in Ht. rewrite length_filter_fmap in Hb, Ht.
fold (before cutoff (take count (merge_sort Z.le es))) in Hb.
pose proof (retain_after_length cutoff l n Ht) as Hlen.
assert (NoDup (retain_after cutoff n l).*1) as Hnd.
{ eapply sublist_NoDup; [apply hash_iter_keys|]. apply fmap_sublist, retain_after_sublist. }
cbn [with_entries em_entries]. split_and!.
- rewrite map_size_list_to_map by done. subst n. lia.
- apply map_subseteq_spec. intros k sl Hk. apply elem_of_list_to_map_2 in Hk. apply hash_iter_elem.
  eapply elem_of_sublist; [exact Hk|apply retain_after_sublist].
- intros k sl k' sl' Hk Hnone Hk'. destruct (retain_after_kept cutoff l n) as [Hkept Hdrop].
  transitivity cutoff.
  + apply (Hdrop (k, sl)); [by apply hash_iter_elem|]. intros Hin. apply elem_of_list_to_map_1 in Hin; [|done]. congruence.
  + apply elem_of_list_to_map_2 in Hk'. rewrite list.Forall_forall in Hkept. by apply (Hkept _ Hk').
Qed.
End Eviction.

(** ** Bounds *)

Section Bounds.
Context {K V : Type} `{Countable K} `{LimiterClock} `{!HashOrder K V} `{!HashOrderLaws K V}.
Implicit Types m : ExpiringMap K V.

Definition em_ok m : Prop :=
  1 <= em_capacity m ∧ em_len m <= em_capacity m ∧ em_sweep_at_len m <= em_capacity m.

Lemma em_new_ok capacity interval : em_ok (em_new (K := K) (V := V) capacity interval).
Proof. unfold em_ok, em_new, em_len. cbn. rewrite map_size_empty. lia. Qed.

Lemma em_sweep_subseteq now m : em_entries (em_sweep now m) ⊆ em_entries m.
Proof. apply map_filter_subseteq. Qed.

Lemma em_len_mono m m' : em_entries m' ⊆ em_entries m → em_len m' <= em_len m.
Proof. intros Hs. unfold em_len. apply map_subseteq_size in Hs. lia. Qed.

Lemma em_sweep_ok now m : em_ok m → em_ok (em_sweep now m).
Proof.
intros (Hc & Hl & _). pose proof (em_len_mono _ _ (em_sweep_subseteq now m)).
unfold em_ok. cbn [em_sweep em_capacity em_sweep_at_len] in *. lia.
Qed.

Lemma evict_soonest_subseteq count m : (0 < count)%nat → em_entries (evict_soonest count m) ⊆ em_entries m.
Proof.
intros Hc. destruct (decide (size (em_entries m) ≤ count)%nat) as [Hle|Hgt].
- unfold evict_soonest. rewrite bool_decide_eq_true_2 by done. apply map_empty_subseteq.
- apply evict_soonest_exact. lia.
Qed.

Lemma evict_soonest_room count m : (0 < count)%nat → (0 < size (em_entries m))%nat →
  em_len (evict_soonest count m) < em_len m.
Proof.
intros Hc Hs. unfold em_len. destruct (decide (size (em_entries m) ≤ count)%nat) as [Hle|Hgt].
- unfold evict_soonest. rewrite bool_decide_eq_true_2 by done. cbn. rewrite map_size_empty. lia.
- destruct (evict_soonest_exact count m) as (Hsz & _); lia.
Qed.

Lemma make_room_subseteq now m : em_entries (make_room now m) ⊆ em_entries m.
Proof.
unfold make_room. destruct (_ <? _); [done|]. pose proof (em_sweep_subseteq now m) as Hs.
destruct (_ <=? _); [|done]. etrans; [|exact Hs]. apply evict_soonest_subseteq. lia.
Qed.

Lemma evict_soonest_fields count m :
  em_capacity (evict_soonest count m) = em_capacity m ∧ em_sweep_at_len (evict_soonest count m) = em_sweep_at_len m.
Proof. unfold evict_soonest. by case_bool_decide. Qed.

(** After [make_room] one more entry fits. *)
Lemma make_room_fits now m : em_ok m → em_ok (make_room now m) ∧ em_len (make_room now m) < em_capacity (make_room now m).
Proof.
intros Hok. pose proof Hok as (Hc & Hl & Ha). unfold make_room. destruct (Z.ltb_spec (em_len m) (em_sweep_at_len m)); [split; [done|lia]|].
pose proof (em_sweep_ok now m Hok) as Hsw. destruct Hsw as (Hc' & Hl' & Ha').
set (count := Z.to_nat (Z.max (em_capacity (em_sweep now m) / 8) 1)).
destruct (Z.leb_spec (em_capacity (em_sweep now m)) (em_len (em_sweep now m))).
- assert (em_len (evict_soonest count (em_sweep now m)) < em_len (em_sweep now m)) as Hr.
  { apply evict_soonest_room; [subst count; lia|]. unfold em_len in *. lia. }
  destruct (evict_soonest_fields count (em_sweep now m)) as [Hf1 Hf2]. unfold em_ok. rewrite Hf1, Hf2. lia.
- split; [done|lia].
Qed.

(** The bookkeeping before an update: the periodic sweep, and room for a new key. *)
Definition em_prepare (key : K) (now : Z) m : ExpiringMap K V :=
  let m := match em_next_sweep m with
           | Some due => if now <? due then m else em_sweep now m
           | None => em_sweep now m
           end in
  match em_entries m !! key with Some _ => m | None => make_room now m end.

Lemma em_prepare_subseteq key now m : em_entries (em_prepare key now m) ⊆ em_entries m.
Proof.
unfold em_prepare. set (m' := match em_next_sweep m with Some _ => _ | None => _ end).
assert (em_entries m' ⊆ em_entries m) as Hm'.
{ subst m'. destruct (em_next_sweep m); [case_match|]; try done; apply em_sweep_subseteq. }
destruct (em_entries m' !! key); [done|]. etrans; [apply make_room_subseteq|done].
Qed.

Lemma em_prepare_ok key now m : em_ok m → em_ok (em_prepare key now m) ∧
  (em_entries (em_prepare key now m) !! key = None → em_len (em_prepare key now m) < em_capacity (em_prepare key now m)).
Proof.
intros Hok. unfold em_prepare. set (m' := match em_next_sweep m with Some _ => _ | None => _ end).
assert (em_ok m') as Hok' by (subst m'; destruct (em_next_sweep m); [case_match|]; auto using em_sweep_ok).
destruct (em_entries m' !! key) eqn:Hk; [split; [done|congruence]|]. destruct (make_room_fits now m' Hok'). done.
Qed.

Lemma em_upsert_ok {R} key now init (update : V → R * V * Z) m : em_ok m → em_ok (em_upsert key now init update m).2.
Proof.
intros Hok. destruct (em_prepare_ok key now m Hok) as [(Hc & Hl & Ha) Hroom].
unfold em_upsert. fold (em_prepare key now m). set (m' := em_prepare key now m) in *.
destruct (update _) as [[r v'] e]. unfold em_ok, em_len in *. cbn [with_entries em_entries em_capacity em_sweep_at_len snd].
destruct (em_entries m' !! key) as [sl|] eqn:Hk.
- rewrite map_size_insert_Some by eauto. lia.
- rewrite map_size_insert_None by done. specialize (Hroom eq_refl). lia.
Qed.

Lemma em_remove_ok key m : em_ok m → em_ok (em_remove m key).2.
Proof.
intros (Hc & Hl & Ha). unfold em_ok, em_len in *. cbn. pose proof (map_subseteq_size _ _ (delete_subseteq (em_entries m) key)). lia.
Qed.

End Bounds.

(** ** Limiters

What a limiter does with one key's state: the state a new key starts from, one update
(its result, the new state and the state's expiry), and what it reads off a state
without changing it. *)
Class LimiterFn (V X R Q : Type) := {
  lim_init : Z → V;
  lim_update : Z → X → V → R * V * Z;
  lim_read : Z → option V → Q;
}.

(** The promise every caller of the map makes when it supplies an expiry: from then on
the state decides, and reads, as no state at all. [lim_inv] relates a stored state to
its expiry; [lim_time] bounds the instants at which the clock arithmetic is exact. *)
Class LimiterLaws (V X R Q : Type) `{LimiterFn V X R Q} := {
  lim_inv : V → Z → Prop;
  lim_time : Z → Prop;
  lim_inv_init now x r v e : lim_time now → lim_update now x (lim_init now) = (r, v, e) → lim_inv v e;
  lim_inv_update now x v0 e0 r v e :
    lim_time now → lim_inv v0 e0 → lim_update now x v0 = (r, v, e) → lim_inv v e;
  lim_update_expired now x v e : lim_time now → lim_inv v e → e < now → lim_update now x v = lim_update now x (lim_init now);
  lim_read_expired now v e : lim_time now → lim_inv v e → e < now → lim_read now (Some v) = lim_read now None;
}.

Inductive LimOp (K X : Type) :=
| LUpdate (now : Z) (key : K) (x : X)
| LRead (now : Z) (key : K)
| LRemove (now : Z) (key : K).
Arguments LUpdate {K X} _ _ _.
Arguments LRead {K X} _ _.
Arguments LRemove {K X} _ _.
Inductive LimOut (R Q : Type) :=
| OUpdate (r : R)
| ORead (q : Q)
| ORemove.
Arguments OUpdate {R Q} _.
Arguments ORead {R Q} _.
Arguments ORemove {R Q}.

Definition op_time {K X} (o : LimOp K X) : Z := match o with LUpdate t _ _ | LRead t _ | LRemove t _ => t end.
Definition op_key {K X} (o : LimOp K X) : K := match o with LUpdate _ k _ | LRead _ k | LRemove _ k => k end.

Section Transparency.
Context {K V X R Q : Type} `{Countable K} `{LimiterClock} `{!HashOrder K V} `{!HashOrderLaws K V} `{LimiterLaws V X R Q}.
Implicit Types m : ExpiringMap K V.
Implicit Types im : gmap K (Slot V).

(** One operation on the map, and on a map that never forgets a key. *)
Definition lim_step (o : LimOp K X) m : LimOut R Q * ExpiringMap K V :=
  match o with
  | LUpdate now k x => let '(r, m') := em_upsert k now (lim_init now) (lim_update now x) m in (OUpdate r, m')
  | LRead now k => (ORead (lim_read now (em_get m k)), m)
  | LRemove now k => (ORemove, (em_remove m k).2)
  end.
Definition ideal_step (o : LimOp K X) im : LimOut R Q * gmap K (Slot V) :=
  match o with
  | LUpdate now k x =>
      let v := match im !! k with Some sl => sl_value sl | None => lim_init now end in
      let '(r, v', e) := lim_update now x v in (OUpdate r, <[k := Build_Slot v' e]> im)
  | LRead now k => (ORead (lim_read now (sl_value <$> im !! k)), im)
  | LRemove now k => (ORemove, delete k im)
  end.
Fixpoint run_with {S} (step : LimOp K X → S → LimOut R Q * S) (ops : list (LimOp K X)) (s : S) : list (LimOut R Q) * S :=
  match ops with
  | [] => ([], s)
  | o :: ops' => let '(r, s1) := step o s in let '(rs, s2) := run_with step ops' s1 in (r :: rs, s2)
  end.

(** The state an operation finds, and its output. *)
Lemma run_with_lookup {S} (step : LimOp K X → S → LimOut R Q * S) ops : ∀ s i o,
  ops !! i = Some o → (run_with step ops s).1 !! i = Some (step o (run_with step (take i ops) s).2).1.
Proof.
induction ops as [|o' ops IH]; intros s i o Hi; [done|]. cbn [run_with]. destruct i as [|i]; cbn [lookup list_lookup] in Hi.
- injection Hi as ->. cbn [take run_with snd]. destruct (step o s) as [r s1]. by destruct (run_with step ops s1).
- cbn [take run_with]. destruct (step o' s) as [r s1]. specialize (IH s1 i o Hi).
  destruct (run_with step ops s1), (run_with step (take i ops) s1). done.
Qed.

Lemma run_with_app {S} (step : LimOp K X → S → LimOut R Q * S) ops1 ops2 : ∀ s,
  (run_with step (ops1 ++ ops2) s).2 = (run_with step ops2 (run_with step ops1 s).2).2.
Proof.
induction ops1 as [|o ops1 IH]; intros s; [done|]. cbn [app run_with]. destruct (step o s) as [r s1]. specialize (IH s1).
destruct (run_with step (ops1 ++ ops2) s1), (run_with step ops1 s1). done.
Qed.

(** The map holds what the ideal map holds, but for entries that have expired. *)
Definition lim_sim (now : Z) m im : Prop :=
  (∀ k, match em_entries m !! k with
        | Some sl => im !! k = Some sl
        | None => match im !! k with Some sl => sl_expires_at sl < now | None => True end
        end) ∧
  map_Forall (λ _ sl, lim_inv (sl_value sl) (sl_expires_at sl)) im.

Lemma lim_sim_later now now' m im : now <= now' → lim_sim now m im → lim_sim now' m im.
Proof. intros Hn [Hs Hi]. split; [|done]. intros k. specialize (Hs k). repeat case_match; try done. lia. Qed.

Lemma lim_sim_sweep now m im : lim_sim now m im → lim_sim now (em_sweep now m) im.
Proof.
intros [Hs Hi]. split; [|done]. intros k. specialize (Hs k). cbn [em_sweep em_entries].
destruct (filter _ (em_entries m) !! k) as [sl|] eqn:Hf.
- apply map_lookup_filter_Some in Hf as [Hf _]. by rewrite Hf in Hs.
- apply map_lookup_filter_None in Hf as [Hf|Hf]; [by rewrite Hf in Hs|].
  destruct (em_entries m !! k) as [sl|] eqn:Hk; [|done]. rewrite Hs. specialize (Hf sl eq_refl). simpl in Hf. lia.
Qed.

(** As long as the map is not full, making room drops only expired entries. *)
Lemma lim_sim_make_room now m im : lim_sim now m im → em_len m < em_capacity m → lim_sim now (make_room now m) im.
Proof.
intros Hs Hl. unfold make_room. destruct (_ <? _); [done|].
pose proof (em_len_mono _ _ (em_sweep_subseteq now m)). rewrite (proj2 (Z.leb_gt _ _)); [by apply lim_sim_sweep|].
cbn [em_sweep em_capacity] in *. lia.
Qed.

Lemma em_capacity_prepare key now m : em_capacity (em_prepare key now m) = em_capacity m.
Proof.
unfold em_prepare. set (m' := match em_next_sweep m with Some _ => _ | None => _ end).
assert (em_capacity m' = em_capacity m) as <- by (subst m'; destruct (em_next_sweep m); [case_match|]; done).
destruct (em_entries m' !! key); [done|]. unfold make_room. destruct (_ <? _); [done|]. destruct (_ <=? _); [|done].
by destruct (evict_soonest_fields (Z.to_nat (Z.max (em_capacity (em_sweep now m') / 8) 1)) (em_sweep now m')) as [-> _].
Qed.

Lemma lim_sim_prepare key now m im : lim_sim now m im →
  (em_entries m !! key = None → em_len m < em_capacity m) → (1 <= em_capacity m) → em_len m <= em_capacity m →
  lim_sim now (em_prepare key now m) im.
Proof.
intros Hs Hroom Hc1 Hle. unfold em_prepare. set (m' := match em_next_sweep m with Some _ => _ | None => _ end).
assert (lim_sim now m' im ∧ em_entries m' ⊆ em_entries m ∧ em_capacity m' = em_capacity m) as (Hs' & Hsub & Hcap).
{ subst m'. destruct (em_next_sweep m) as [due|]; [destruct (now <? due)|]; split_and!; auto using lim_sim_sweep, em_sweep_subseteq. }
destruct (em_entries m' !! key) eqn:Hk; [done|]. apply lim_sim_make_room; [done|]. rewrite Hcap.
destruct (em_entries m !! key) as [sl|] eqn:Hkm; [|pose proof (em_len_mono _ _ Hsub); specialize (Hroom eq_refl); lia].
assert (em_entries m' ⊂ em_entries m) as Hss by (apply map_subset_alt; split; [done|]; exists key; eauto).
apply map_subset_size in Hss. unfold em_len in *. lia.
Qed.

Lemma lim_sim_step o m im : lim_time (op_time o) → lim_sim (op_time o) m im →
  (em_entries m !! op_key o = None → em_len m < em_capacity m) → (1 <= em_capacity m) → em_len m <= em_capacity m →
  (lim_step o m).1 = (ideal_step o im).1 ∧ lim_sim (op_time o) (lim_step o m).2 (ideal_step o im).2.
Proof.
intros Ht Hs Hroom Hc1 Hle. destruct o as [now k x|now k|now k]; simpl in *.
- pose proof (lim_sim_prepare k now m im Hs Hroom Hc1 Hle) as [Hsp Hi]. unfold em_upsert. fold (em_prepare k now m).
  set (m' := em_prepare k now m) in *. clearbody m'.
  assert (lim_update now x (match em_entries m' !! k with Some slot => sl_value slot | None => lim_init now end) =
          lim_update now x (match im !! k with Some sl => sl_value sl | None => lim_init now end)) as Heq.
  { specialize (Hsp k). destruct (em_entries m' !! k) as [sl|] eqn:Hk; [by rewrite Hsp|].
    destruct (im !! k) as [sl|] eqn:Hik; [|done]. symmetry. eapply lim_update_expired; [done|by apply (Hi k sl)|done]. }
  rewrite Heq. clear Heq.
  destruct (lim_update now x (match im !! k with Some sl => sl_value sl | None => lim_init now end)) as [[r v'] e] eqn:Hu. cbn [fst snd with_entries]. split; [done|]. split.
  + intros k'. cbn [with_entries em_entries]. destruct (decide (k = k')) as [<-|Hne]; [by rewrite !lookup_insert_eq|].
    rewrite !lookup_insert_ne by done. apply Hsp.
  + apply map_Forall_insert_2; [|done]. simpl. destruct (im !! k) as [sl|] eqn:Hik.
    * eapply lim_inv_update; [done|by apply (Hi k sl)|exact Hu].
    * eapply lim_inv_init; [done|exact Hu].
- split; [|done]. destruct Hs as [Hs Hi]. f_equal. unfold em_get. specialize (Hs k).
  destruct (em_entries m !! k) as [sl|] eqn:Hk; [by rewrite Hs|]. destruct (im !! k) as [sl|] eqn:Hik; [|done].
  symmetry. eapply lim_read_expired; [done|by apply (Hi k sl)|done].
- split; [done|]. destruct Hs as [Hs Hi]. split; [|by apply map_Forall_delete].
  intros k'. cbn. destruct (decide (k = k')) as [<-|Hne]; [by rewrite !lookup_delete_eq|].
  rewrite !lookup_delete_ne by done. apply Hs.
Qed.

Lemma em_capacity_step o m : em_capacity (lim_step o m).2 = em_capacity m.
Proof.
destruct o as [now k x|now k|now k]; [|done..]. rewrite <-(em_capacity_prepare k now m). simpl. unfold em_upsert.
fold (em_prepare k now m). by destruct (lim_update _ _ _) as [[r v'] e].
Qed.

Lemma em_step_ok o m : em_ok m → em_ok (lim_step o m).2.
Proof.
intros Hok. destruct o as [now k x|now k|now k]; simpl; [|done|by apply em_remove_ok].
pose proof (em_upsert_ok k now (lim_init now) (lim_update now x) m Hok) as Hu. by destruct (em_upsert _ _ _ _ _).
Qed.

Lemma em_step_dom o m : dom (em_entries (lim_step o m).2) ⊆ {[op_key o]} ∪ dom (em_entries m).
Proof.
destruct o as [now k x|now k|now k]; simpl; [|set_solver|rewrite dom_delete_L; set_solver].
unfold em_upsert. fold (em_prepare k now m). destruct (lim_update _ _ _) as [[r v'] e]. cbn [fst snd with_entries em_entries].
rewrite dom_insert_L. pose proof (subseteq_dom _ _ (em_prepare_subseteq k now m)). set_solver.
Qed.

Lemma run_transparent ops : ∀ now m im (keys : gset K),
  StronglySorted Z.le (now :: (op_time <$> ops)) → Forall (λ o, lim_time (op_time o)) ops →
  dom (em_entries m) ⊆ keys → Forall (λ o, op_key o ∈ keys) ops → Z.of_nat (size keys) <= em_capacity m →
  em_ok m → lim_sim now m im → (run_with lim_step ops m).1 = (run_with ideal_step ops im).1.
Proof.
induction ops as [|o ops IH]; intros now m im keys Hsort Ht Hdom Hkeys Hcap Hok Hsim; [done|]. simpl.
apply StronglySorted_inv in Hsort as [Hsort Hnow]. rewrite fmap_cons in Hsort, Hnow. apply Forall_cons in Hnow as [Hnow _].
apply Forall_cons in Ht as [Ht0 Ht]. apply Forall_cons in Hkeys as [Hk0 Hkeys].
assert (em_entries m !! op_key o = None → em_len m < em_capacity m) as Hroom.
{ intros Hn. assert (dom (em_entries m) ⊂ keys) as Hss.
  { split; [done|]. intros Hsub. apply not_elem_of_dom in Hn. apply Hn, Hsub, Hk0. }
  apply subset_size in Hss. unfold em_len. rewrite size_dom in Hss. lia. }
pose proof Hok as (Hc1 & Hle & _).
destruct (lim_sim_step o m im Ht0 (lim_sim_later _ _ _ _ Hnow Hsim) Hroom Hc1 Hle) as [Hout Hsim'].
pose proof (em_step_dom o m) as Hd. pose proof (em_capacity_step o m) as Hcs. pose proof (em_step_ok o m Hok) as Hok'.
destruct (lim_step o m) as [r1 m1], (ideal_step o im) as [r2 im1]. simpl in *. subst r2.
specialize (IH (op_time o) m1 im1 keys Hsort Ht ltac:(set_solver) Hkeys ltac:(lia) Hok' Hsim').
destruct (run_with lim_step ops m1), (run_with ideal_step ops im1). simpl in *. by subst.
Qed.

Lemma run_ok ops : ∀ m, em_ok m → em_ok (run_with lim_step ops m).2.
Proof.
induction ops as [|o ops IH]; intros m Hok; [done|]. simpl. pose proof (em_step_ok o m Hok) as Hok'.
destruct (lim_step o m) as [r m1]. specialize (IH m1 Hok'). by destruct (run_with lim_step ops m1).
Qed.

Lemma run_new_same capacity interval ops :
  StronglySorted Z.le (op_time <$> ops) → Forall (λ o, lim_time (op_time o)) ops →
  Z.of_nat (size (list_to_set (op_key <$> ops) : gset K)) <= Z.max capacity 1 →
  (run_with lim_step ops (em_new capacity interval)).1 = (run_with ideal_step ops ∅).1.
Proof.
intros Hsort Ht Hcap. destruct ops as [|o ops']; [done|].
apply (run_transparent _ (op_time o) _ _ (list_to_set (op_key <$> o :: ops'))).
- rewrite fmap_cons in *. constructor; [done|]. apply StronglySorted_inv in Hsort as [_ Hall]. constructor; [lia|done].
- done.
- cbn. rewrite dom_empty_L. set_solver.
- apply list.Forall_forall. intros o' Ho'. apply elem_of_list_to_set. by apply list_elem_of_fmap_2.
- done.
- apply em_new_ok.
- split; [|apply map_Forall_empty]. intros k. cbn. by rewrite !lookup_empty.
Qed.

(** C28: A limiter that keeps its promise about expiry cannot tell the bounded, swept map
from a map that never forgets a key: over any operations at non-decreasing times, on
no more distinct keys than the map's capacity, every result is the same. Whatever the
operations, the map never holds more entries than its capacity. *)
Theorem limiter_transparent capacity interval ops :
  StronglySorted Z.le (op_time <$> ops) → Forall (λ o, lim_time (op_time o)) ops →
  em_ok (run_with lim_step ops (em_new capacity interval)).2 ∧
  (Z.of_nat (size (list_to_set (op_key <$> ops) : gset K)) <= Z.max capacity 1 →
   (run_with lim_step ops (em_new capacity interval)).1 = (run_with ideal_step ops ∅).1).
Proof. intros Hsort Ht. split; [apply run_ok, em_new_ok|by apply run_new_same]. Qed.
End Transparency.
