(* ===== verification/AbuseShaper.v ===== *)
(** * The request shaper

[abuse/shaper.rs]: per-client and per-realm request counters in one-second windows,
kept in the expiring maps of [Limiter]. [shaper_ip_budget] says what the limit means
for a client: how many of its requests can pass in any second, and what must have
happened before one of them is shed. *)
From stdpp Require Import base list gmap numbers strings sorting fin_maps.
From Stdlib Require Import Strings.Byte ZArith Lia.
From S2P Require Import Prelude OrdMap StorageTypes RbacTypes IpAddr IpRange Limiter.

Open Scope Z_scope.

(** ** Configuration and keys *)

Definition SHAPER_IP_CAPACITY : Z := 100000.
Definition SHAPER_REALM_CAPACITY : Z := 16384.
Definition MAX_REALM_NAME_LEN : Z := 63.
(** One second, in nanoseconds. *)
Definition WINDOW : Z := 10 ^ 9.

Record ShaperConfig := { ip_rps : option Z; realm_rps : option Z }.
Definition from_operator (ip realm : Z) : ShaperConfig :=
  {| ip_rps := if 0 <? ip then Some ip else None; realm_rps := if 0 <? realm then Some realm else None |}.

Inductive RealmKey :=
| RealmById (id : Uuid)
| RealmByName (name : Str).

#[export] Instance RealmKey_eq_dec : EqDecision RealmKey.
Proof. solve_decision. Defined.
#[export] Instance RealmKey_countable : Countable RealmKey.
Proof.
refine (inj_countable' (λ k, match k with RealmById i => inl i | RealmByName n => inr n end)
  (λ x, match x with inl i => RealmById i | inr n => RealmByName n end) _). by intros [].
Defined.

(** [RealmKey::from_path_name]. *)
Definition from_path_name (name : Str) : option RealmKey :=
  if negb (bool_decide (name = [])) && (zlen name <=? MAX_REALM_NAME_LEN) &&
     forallb (λ b, is_ascii_alphanumeric b || bool_decide (b = dash) || bool_decide (b = underscore)) name
  then Some (RealmByName name) else None.

Inductive ShaperOutcome := ShaperAllow | IpLimited | RealmLimited.

#[export] Instance ShaperOutcome_eq_dec : EqDecision ShaperOutcome.
Proof. solve_decision. Defined.

(** ** Windows *)

Record SlidingWindow := { sw_count : Z; sw_window_start : Z }.
Definition window_new (now : Z) : SlidingWindow := {| sw_count := 0; sw_window_start := now |}.

#[local] Existing Instance instant_clock.

(** [SlidingWindow::increment]: the new count, the window and its expiry. *)
Definition increment (now : Z) (w : SlidingWindow) : Z * SlidingWindow * Z :=
  let w' := if WINDOW <=? duration_since now (sw_window_start w)
            then {| sw_count := 1; sw_window_start := now |}
            else {| sw_count := Z.min (sw_count w + 1) u32_max; sw_window_start := sw_window_start w |} in
  (sw_count w', w', clock_plus (sw_window_start w') WINDOW).

(** ** The shaper *)

Record RequestShaper := {
  rs_config : ShaperConfig;
  rs_ip_windows : ExpiringMap IpAddr SlidingWindow;
  rs_realm_windows : ExpiringMap RealmKey SlidingWindow;
}.

Definition with_config (config : ShaperConfig) : RequestShaper :=
  {| rs_config := config; rs_ip_windows := em_new SHAPER_IP_CAPACITY WINDOW;
     rs_realm_windows := em_new SHAPER_REALM_CAPACITY WINDOW |}.

#[export] Instance shaper_fn : LimiterFn SlidingWindow () Z () :=
  {| lim_init := window_new; lim_update now _ w := increment now w; lim_read _ _ := () |}.

Section Shaper.
Context `{!HashOrder IpAddr SlidingWindow} `{!HashOrder RealmKey SlidingWindow}.

(** [check_at]: the two dimensions in turn; a request the first one sheds is not
counted in the second. *)
Definition shaper_check_at (peer_ip : IpAddr) (realm : option RealmKey) (now : Z) (s : RequestShaper)
  : ShaperOutcome * RequestShaper :=
  let '(ip_limited, s) :=
    match ip_rps (rs_config s) with
    | Some ip_limit =>
        let '(count, m) := em_upsert (rate_limit_key peer_ip) now (window_new now) (increment now) (rs_ip_windows s) in
        (ip_limit <? count,
         {| rs_config := rs_config s; rs_ip_windows := m; rs_realm_windows := rs_realm_windows s |})
    | None => (false, s)
    end in
  if (ip_limited : bool) then (IpLimited, s) else
  match realm_rps (rs_config s), realm with
  | Some realm_limit, Some realm =>
      let '(count, m) := em_upsert realm now (window_new now) (increment now) (rs_realm_windows s) in
      (if realm_limit <? count then RealmLimited else ShaperAllow,
       {| rs_config := rs_config s; rs_ip_windows := rs_ip_windows s; rs_realm_windows := m |})
  | _, _ => (ShaperAllow, s)
  end.

(** A request: its time, peer and realm. *)
Record Request := { rq_time : Z; rq_ip : IpAddr; rq_realm : option RealmKey }.
Fixpoint run_checks (reqs : list Request) (s : RequestShaper) : list ShaperOutcome :=
  match reqs with
  | [] => []
  | r :: reqs' => let '(o, s') := shaper_check_at (rq_ip r) (rq_realm r) (rq_time r) s in o :: run_checks reqs' s'
  end.
End Shaper.

(** ** Expired windows *)

#[export] Program Instance shaper_laws : LimiterLaws SlidingWindow () Z () := {|
  lim_inv w e := sw_window_start w + WINDOW <= INSTANT_MAX ∧ e = sw_window_start w + WINDOW;
  lim_time now := now + WINDOW <= INSTANT_MAX;
|}.
Next Obligation.
intros now x r v e Ht. cbn. unfold increment, window_new, duration_since, clock_plus, instant_clock. intros [= <- <- <-].
cbn. rewrite (proj2 (Z.leb_gt _ _)) by (unfold WINDOW; lia). cbn. by rewrite (proj2 (Z.leb_le _ _)).
Qed.
Next Obligation.
intros now x v0 e0 r v e Ht [Hs He]. cbn. unfold increment, clock_plus, instant_clock. intros [= <- <- <-].
destruct (WINDOW <=? _); cbn; by rewrite (proj2 (Z.leb_le _ _)).
Qed.
Next Obligation.
intros now x v e Ht [Hs He] Hlt. cbn. unfold increment, duration_since. rewrite (proj2 (Z.leb_le _ _)) by (cbn in *; lia).
cbn. rewrite (proj2 (Z.leb_gt _ _)) by (unfold WINDOW; lia). done.
Qed.
Next Obligation. done. Qed.

(** ** The budget of a client *)

(** Which requests the per-client limit sheds. *)
Definition ip_shed `{!HashOrder IpAddr SlidingWindow} `{!HashOrder RealmKey SlidingWindow} (reqs : list Request) (s : RequestShaper) : list bool :=
  (λ o, bool_decide (o = IpLimited)) <$> run_checks reqs s.
Definition client (r : Request) : IpAddr := rate_limit_key (rq_ip r).
Definition ip_ops (reqs : list Request) : list (LimOp IpAddr ()) := (λ r, LUpdate (rq_time r) (client r) ()) <$> reqs.
Definition over (limit : Z) (o : LimOut Z ()) : bool := match o with OUpdate c => limit <? c | _ => false end.

(** The requests of [key] in the second from [T] that are not shed. *)
Definition passed_in (key : IpAddr) (T : Z) (e : Request * bool) : bool :=
  bool_decide (client e.1 = key) && (T <=? rq_time e.1) && (rq_time e.1 <? T + WINDOW) && negb e.2.
Definition passed (key : IpAddr) (T : Z) (l : list (Request * bool)) : Z := zlen (List.filter (passed_in key T) l).

Lemma passed_cons key T e l : passed key T (e :: l) = (if passed_in key T e then 1 else 0) + passed key T l.
Proof. unfold passed. simpl. destruct (passed_in key T e); autorewrite with zlen; lia. Qed.

(** What one update does to one key's window in a map that never forgets. *)
Definition window_at (im : gmap IpAddr (Slot SlidingWindow)) (key : IpAddr) (t : Z) : SlidingWindow :=
  match im !! key with Some sl => sl_value sl | None => window_new t end.

Lemma ideal_increment t k im :
  ideal_step (LUpdate t k ()) im =
  (OUpdate (increment t (window_at im k t)).1.1,
   <[k := Build_Slot (increment t (window_at im k t)).1.2 (increment t (window_at im k t)).2]> im).
Proof. cbn [ideal_step]. unfold window_at. cbn [lim_update shaper_fn lim_init]. by destruct (increment t _) as [[c w'] e]. Qed.

(** The counts a key can still use up in the second from [T]: what is left of the
window it is in, and a whole window more when that one began before [T]. *)
Definition budget (limit T : Z) (w : option SlidingWindow) : Z :=
  match w with
  | None => limit
  | Some w => Z.max 0 (limit - sw_count w) + if sw_window_start w <? T then limit else 0
  end.

Definition sheds (limit : Z) (reqs : list Request) (im : gmap IpAddr (Slot SlidingWindow)) : list bool :=
  over limit <$> (run_with ideal_step (ip_ops reqs) im).1.

Lemma sheds_cons limit r reqs im : sheds limit (r :: reqs) im =
  (limit <? (increment (rq_time r) (window_at im (client r) (rq_time r))).1.1) ::
  sheds limit reqs (ideal_step (LUpdate (rq_time r) (client r) ()) im).2.
Proof.
unfold sheds, ip_ops. rewrite fmap_cons. cbn [run_with]. rewrite ideal_increment. cbn [fst snd].
destruct (run_with ideal_step _ _) as [rs s2]. done.
Qed.

Definition state_of (im : gmap IpAddr (Slot SlidingWindow)) (key : IpAddr) : option SlidingWindow := sl_value <$> im !! key.

Lemma state_of_step t k im key :
  state_of (ideal_step (LUpdate t k ()) im).2 key =
  if decide (k = key) then Some (increment t (window_at im k t)).1.2 else state_of im key.
Proof.
rewrite ideal_increment. cbn [snd]. unfold state_of. case_decide as Hk; [subst; by rewrite lookup_insert_eq|by rewrite lookup_insert_ne].
Qed.

(** A window's count is positive once it has counted. *)
Definition counted (w : option SlidingWindow) : Prop := match w with Some w => 1 <= sw_count w <= u32_max | None => True end.

Lemma counted_increment t w : 0 <= sw_count w <= u32_max → counted (Some (increment t w).1.2).
Proof. unfold increment, counted. cbn. unfold u32_max. destruct (WINDOW <=? _); cbn; lia. Qed.

Lemma counted_step t k im key : counted (state_of im key) → counted (state_of (ideal_step (LUpdate t k ()) im).2 key).
Proof.
intros Hc. rewrite state_of_step. case_decide as Hk; [|done]. subst k. apply counted_increment.
unfold window_at, state_of in *. destruct (im !! key) as [sl|]; cbn in *; unfold u32_max in *; lia.
Qed.

(** One request in the second from [T] pays for itself out of the budget. *)
Lemma budget_step limit T im r key : 0 <= limit < u32_max → client r = key → T <= rq_time r < T + WINDOW →
  counted (state_of im key) → (∀ w, state_of im key = Some w → sw_window_start w <= rq_time r) →
  let c := (increment (rq_time r) (window_at im key (rq_time r))).1.1 in
  let w' := (increment (rq_time r) (window_at im key (rq_time r))).1.2 in
  (if limit <? c then 0 else 1) + budget limit T (Some w') <= budget limit T (state_of im key).
Proof.
intros Hlim Hk Ht Hc Hpast. unfold window_at, state_of in *. set (t := rq_time r) in *.
destruct (im !! key) as [sl|]; cbn [fmap option_fmap option_map budget] in *.
- specialize (Hpast _ eq_refl). unfold increment, duration_since. cbn [fst snd].
  destruct (Z.leb_spec WINDOW (Z.max 0 (t - sw_window_start (sl_value sl)))); cbn [sw_count sw_window_start].
  + rewrite (proj2 (Z.ltb_ge t T)) by lia. rewrite (proj2 (Z.ltb_lt _ T)) by (unfold WINDOW in *; lia).
    destruct (Z.ltb_spec limit 1); lia.
  + unfold counted in Hc. destruct (Z.ltb_spec limit (Z.min (sw_count (sl_value sl) + 1) u32_max)); lia.
- unfold increment, window_new, duration_since. cbn [sw_count sw_window_start fst snd].
  rewrite (proj2 (Z.leb_gt WINDOW _)) by (unfold WINDOW; lia). cbn [sw_count sw_window_start].
  rewrite (proj2 (Z.ltb_ge t T)) by lia. change (Z.min (0 + 1) u32_max) with 1. destruct (Z.ltb_spec limit 1); lia.
Qed.

Lemma passed_after key T l : Forall (λ e : Request * bool, T + WINDOW <= rq_time e.1) l → passed key T l = 0.
Proof.
induction 1 as [|e l He _ IH]; [done|]. rewrite passed_cons, IH. unfold passed_in.
rewrite (proj2 (Z.ltb_ge _ _)) by done. by rewrite andb_false_r.
Qed.

Lemma increment_start t w : sw_window_start w <= t → sw_window_start (increment t w).1.2 <= t.
Proof. intros Hw. unfold increment. cbn. destruct (WINDOW <=? _); cbn; lia. Qed.

(** No key's window begins in the future. *)
Definition past (t : Z) (im : gmap IpAddr (Slot SlidingWindow)) : Prop :=
  ∀ k w, state_of im k = Some w → sw_window_start w <= t.

Lemma past_step t0 t k im : t0 <= t → past t0 im → past t (ideal_step (LUpdate t k ()) im).2.
Proof.
intros Ht Hp k' w. rewrite state_of_step. case_decide as Hk; [|intros Hw; apply Hp in Hw; lia].
intros [= <-]. apply increment_start. unfold window_at. unfold past, state_of in Hp. specialize (Hp k).
destruct (im !! k) as [sl|]; [|cbn; lia]. specialize (Hp _ eq_refl). lia.
Qed.

Lemma budget_nonneg limit T w : 0 <= limit → 0 <= budget limit T w.
Proof. intros Hl. unfold budget. destruct w as [w|]; [destruct (_ <? _); lia|done]. Qed.

Lemma passed_budget limit T key : 0 <= limit < u32_max → ∀ reqs t0 im,
  StronglySorted Z.le (t0 :: (rq_time <$> reqs)) → T <= t0 → past t0 im → counted (state_of im key) →
  passed key T (zip reqs (sheds limit reqs im)) <= budget limit T (state_of im key).
Proof.
intros Hlim. induction reqs as [|r reqs IH]; intros t0 im Hsort HT Hpast Hc.
{ apply budget_nonneg. lia. }
apply StronglySorted_inv in Hsort as [Hsort Hle]. rewrite fmap_cons in Hsort, Hle. apply Forall_cons in Hle as [Hle _].
rewrite sheds_cons. cbn [zip_with]. set (im' := (ideal_step (LUpdate (rq_time r) (client r) ()) im).2).
specialize (IH (rq_time r) im' Hsort ltac:(lia) (past_step _ _ _ _ Hle Hpast) (counted_step _ _ _ _ Hc)).
rewrite passed_cons. unfold passed_in at 1. cbn [fst snd].
destruct (decide (rq_time r < T + WINDOW)) as [Hin|Hout].
2: { rewrite (proj2 (Z.ltb_ge _ _)) by lia. rewrite andb_false_r. cbn [andb].
     pose proof (budget_nonneg limit T (state_of im key) ltac:(lia)). rewrite passed_after; [lia|].
     apply StronglySorted_inv in Hsort as [_ Hall]. rewrite Forall_fmap in Hall.
     apply list.Forall_forall. intros [r' b] Hr'. apply elem_of_zip_l in Hr'. rewrite list.Forall_forall in Hall.
     specialize (Hall r' Hr'). simpl in *. lia. }
rewrite (proj2 (Z.leb_le _ _)) by lia. rewrite (proj2 (Z.ltb_lt _ _)) by lia. rewrite !andb_true_r.
case_bool_decide as Hk; cbn [andb].
- pose proof (budget_step limit T im r key Hlim Hk ltac:(lia) Hc (λ w Hw, Z.le_trans _ _ _ (Hpast _ _ Hw) Hle)) as Hb. cbv zeta in Hb.
  unfold im' in IH. rewrite state_of_step, decide_True in IH by done. rewrite Hk in IH |- *.
  destruct (limit <? _) in Hb |- *; cbn [negb]; unfold im'; rewrite Hk; lia.
- unfold im' in IH. rewrite state_of_step, decide_False in IH by done. fold im' in IH. lia.
Qed.

Lemma budget_double limit T w : 0 <= limit → counted w → budget limit T w <= Z.max 0 (2 * limit - 1).
Proof. intros Hl Hc. unfold budget, counted in *. destruct w as [w|]; [destruct (_ <? _)|]; lia. Qed.

Lemma passed_double limit T key : 0 <= limit < u32_max → ∀ reqs t0 im,
  StronglySorted Z.le (t0 :: (rq_time <$> reqs)) → past t0 im → counted (state_of im key) →
  passed key T (zip reqs (sheds limit reqs im)) <= Z.max 0 (2 * limit - 1).
Proof.
intros Hlim. induction reqs as [|r reqs IH]; intros t0 im Hsort Hpast Hc; [change (0 <= Z.max 0 (2 * limit - 1)); lia|].
destruct (decide (T <= rq_time r)) as [HT|HT].
- pose proof Hsort as Hsort'. apply StronglySorted_inv in Hsort' as [Hsort' Hle]. rewrite fmap_cons in Hsort', Hle.
  apply Forall_cons in Hle as [Hle _]. etrans; [apply (passed_budget limit T key Hlim _ (rq_time r))|by apply budget_double; [lia|]].
  + rewrite fmap_cons. constructor; [done|]. apply StronglySorted_inv in Hsort' as [_ Hall]. constructor; [lia|done].
  + done.
  + intros k w Hw. apply Hpast in Hw. lia.
  + done.
- apply StronglySorted_inv in Hsort as [Hsort Hle]. rewrite fmap_cons in Hsort, Hle. apply Forall_cons in Hle as [Hle _].
  rewrite sheds_cons. cbn [zip_with]. rewrite passed_cons. unfold passed_in at 1. cbn [fst snd].
  rewrite (proj2 (Z.leb_gt _ _)) by lia. rewrite andb_false_r. cbn [andb].
  apply (IH (rq_time r)); [done|by eapply past_step|by apply counted_step].
Qed.

(** The requests of [key] after the instant [s], the instant excluded. *)
Definition recent (key : IpAddr) (s : Z) (reqs : list Request) : Z :=
  zlen (List.filter (λ r, bool_decide (client r = key) && (s <? rq_time r)) reqs).

Lemma recent_snoc key s l r : recent key s (l ++ [r]) = recent key s l + if bool_decide (client r = key) && (s <? rq_time r) then 1 else 0.
Proof. unfold recent. rewrite List.filter_app. autorewrite with zlen. simpl. by destruct (_ && _). Qed.

Lemma recent_mono key s s' l : s' <= s → recent key s l <= recent key s' l.
Proof.
intros Hs. unfold recent. induction l as [|r l IH]; [done|]. simpl. case_bool_decide; cbn [andb]; [|done].
destruct (Z.ltb_spec s (rq_time r)), (Z.ltb_spec s' (rq_time r)); autorewrite with zlen; lia.
Qed.

(** Every count stands for that many requests in the window. *)
Definition accounted (hist : list Request) (im : gmap IpAddr (Slot SlidingWindow)) : Prop :=
  ∀ k w, state_of im k = Some w → sw_count w <= recent k (sw_window_start w - 1) hist.

Lemma accounted_step hist r im : accounted hist im → past (rq_time r) im →
  accounted (hist ++ [r]) (ideal_step (LUpdate (rq_time r) (client r) ()) im).2.
Proof.
intros Ha Hp k w. rewrite state_of_step. case_decide as Hk.
- intros [= <-]. rewrite recent_snoc, bool_decide_eq_true_2 by done. cbn [andb].
  assert (∀ s, 0 <= recent k s hist) as Hnn by (intros s; unfold recent, zlen; lia).
  unfold window_at. specialize (Ha k). unfold past, state_of in *. specialize (Hp k). subst k.
  destruct (im !! client r) as [sl|].
  + specialize (Ha _ eq_refl). specialize (Hp _ eq_refl). unfold increment. cbn [fst snd]. destruct (WINDOW <=? _); cbn [sw_count sw_window_start].
    * rewrite (proj2 (Z.ltb_lt _ _)) by lia. specialize (Hnn (rq_time r - 1)). lia.
    * rewrite (proj2 (Z.ltb_lt _ _)) by lia. lia.
  + unfold increment, window_new, duration_since. cbn [fst snd sw_count sw_window_start].
    rewrite (proj2 (Z.leb_gt WINDOW _)) by (unfold WINDOW; lia). cbn [sw_count sw_window_start].
    rewrite (proj2 (Z.ltb_lt _ _)) by lia. specialize (Hnn (rq_time r - 1)). lia.
- intros Hw. specialize (Ha k w Hw). rewrite recent_snoc. destruct (_ && _); lia.
Qed.

Lemma shed_reason limit : 0 <= limit → ∀ reqs hist t0 im,
  StronglySorted Z.le (t0 :: (rq_time <$> reqs)) → past t0 im → accounted hist im →
  ∀ i r, reqs !! i = Some r → sheds limit reqs im !! i = Some true →
  limit <= recent (client r) (rq_time r - WINDOW) (hist ++ take i reqs).
Proof.
intros Hlim. induction reqs as [|r0 reqs IH]; intros hist t0 im Hsort Hpast Hacc i r Hi Hshed; [done|].
apply StronglySorted_inv in Hsort as [Hsort Hle]. rewrite fmap_cons in Hsort, Hle. apply Forall_cons in Hle as [Hle _].
rewrite sheds_cons in Hshed. destruct i as [|i]; cbn [lookup list_lookup] in *.
- injection Hi as ->. injection Hshed as Hc. apply Z.ltb_lt in Hc. rewrite app_nil_r.
  assert (0 <= recent (client r) (rq_time r - WINDOW) hist) as Hnn by (unfold recent, zlen; lia).
  unfold window_at in Hc. specialize (Hacc (client r)). unfold state_of in Hacc.
  destruct (im !! client r) as [sl|].
  + specialize (Hacc _ eq_refl). unfold increment, duration_since in Hc. cbn [fst snd] in Hc.
    destruct (Z.leb_spec WINDOW (Z.max 0 (rq_time r - sw_window_start (sl_value sl)))); cbn [sw_count] in Hc; [lia|].
    pose proof (recent_mono (client r) (sw_window_start (sl_value sl) - 1) (rq_time r - WINDOW) hist). lia.
  + unfold increment, window_new, duration_since in Hc. cbn [fst snd sw_count sw_window_start] in Hc.
    rewrite (proj2 (Z.leb_gt WINDOW _)) in Hc by (unfold WINDOW; lia). cbn [sw_count] in Hc. lia.
- cbn [take]. change (hist ++ r0 :: take i reqs) with (hist ++ [r0] ++ take i reqs). rewrite app_assoc.
  eapply (IH (hist ++ [r0]) (rq_time r0)); [done|by eapply past_step| |done|done].
  apply accounted_step; [done|]. intros k w Hw. apply Hpast in Hw. lia.
Qed.

Section Shaped.
Context `{!HashOrder IpAddr SlidingWindow} `{!HashOrder RealmKey SlidingWindow} `{!HashOrderLaws IpAddr SlidingWindow}.

(** The per-client decisions are those of the expiring map. *)
Lemma ip_shed_map limit reqs : ∀ s, ip_rps (rs_config s) = Some limit →
  ip_shed reqs s = over limit <$> (run_with lim_step (ip_ops reqs) (rs_ip_windows s)).1.
Proof.
induction reqs as [|r reqs IH]; intros s Hs; [done|]. unfold ip_shed, ip_ops in *. rewrite fmap_cons.
cbn [run_checks run_with]. unfold shaper_check_at. rewrite Hs. cbn [lim_step].
change (lim_init (rq_time r)) with (window_new (rq_time r)). change (lim_update (rq_time r) ()) with (increment (rq_time r)).
fold (client r). destruct (em_upsert (client r) _ _ _ _) as [c m]. specialize (IH {| rs_config := rs_config s; rs_ip_windows := m; rs_realm_windows := rs_realm_windows s |} Hs) as IH1.
cbn [rs_ip_windows] in IH1. destruct (run_with lim_step _ m) as [outs m'] eqn:Hrun. cbn [fst] in *.
destruct (Z.ltb_spec limit c).
- rewrite fmap_cons, IH1. cbn [over fmap list_fmap]. f_equal. rewrite (proj2 (Z.ltb_lt _ _)) by done. by apply bool_decide_eq_true_2.
- cbn [rs_config]. assert (∀ o s', o ≠ IpLimited → ip_rps (rs_config s') = Some limit → rs_ip_windows s' = m →
    (λ o, bool_decide (o = IpLimited)) <$> (o :: run_checks reqs s') = over limit <$> (OUpdate c :: outs)) as Hgo.
  { intros o s' Ho Hs' Hm. rewrite !fmap_cons. f_equal.
    - cbn. rewrite (proj2 (Z.ltb_ge _ _)) by done. by apply bool_decide_eq_false_2.
    - rewrite (IH s' Hs'), Hm, Hrun. done. }
  destruct (realm_rps (rs_config s)) as [rl|]; [destruct (rq_realm r) as [rk|]|]; try (by apply Hgo).
  destruct (em_upsert rk _ _ _ _) as [c' m'']. apply Hgo; [by destruct (rl <? c')|done..].
Qed.

End Shaped.

(** ** Evaluations *)

#[local] Instance ip_order : HashOrder IpAddr SlidingWindow := map_to_list.
#[local] Instance realm_order : HashOrder RealmKey SlidingWindow := map_to_list.
#[local] Instance ip_order_laws : HashOrderLaws IpAddr SlidingWindow.
Proof. intros m. done. Qed.

Definition at_time (t : Z) : Request := {| rq_time := t; rq_ip := V4 1; rq_realm := None |}.
(** One request opens a window; two more arrive at its end and two at the start of the
next: with a limit of two, three of them pass within a tenth of a second, the most
the bound admits. *)
Definition burst : list Request := at_time <$> [0; 9 * 10 ^ 8; 9 * 10 ^ 8; 10 ^ 9; 10 ^ 9; 10 ^ 9].
Definition two_per_second : ShaperConfig := {| ip_rps := Some 2; realm_rps := None |}.


(** The counters of the burst are those of a map that never forgets. *)
Lemma limiter_transparent_witness :
  (run_with lim_step (ip_ops burst) (em_new SHAPER_IP_CAPACITY WINDOW)).1 = (run_with ideal_step (ip_ops burst) ∅).1 ∧
  (run_with ideal_step (ip_ops burst) ∅).1 = OUpdate <$> [1; 2; 3; 1; 2; 3].
Proof.
assert (StronglySorted Z.le (op_time <$> ip_ops burst)) as Hsort by (apply (bool_decide_unpack _); by vm_compute).
assert (Forall (λ o, lim_time (op_time o)) (ip_ops burst)) as Ht by (repeat constructor; by vm_compute).
split; [|by vm_compute]. apply (limiter_transparent SHAPER_IP_CAPACITY WINDOW (ip_ops burst) Hsort Ht). by vm_compute.
Defined.
