(* ===== verification/AbuseDetector.v ===== *)
(** * Distinct-count detectors

[abuse/detector.rs]: the rotating distinct counter, and the three detectors that keep
one per key in an expiring map: logins by many names from one client or by many
clients for one name, mail to many recipients of a realm, and mail to one recipient
from many realms. Items are 64-bit hashes of [DefaultHasher], a parameter.

[dimension_exact] says what a counter's verdict means: it fires only when that many
distinct items were recorded in the last one and a half windows, and always when they
were recorded in the last half window. *)
From stdpp Require Import base list gmap numbers strings sorting fin_maps fin_sets.
From Stdlib Require Import Strings.Byte ZArith Lia.
From S2P Require Import Prelude OrdMap StorageTypes RbacTypes IpAddr IpRange Limiter.

Open Scope Z_scope.

#[local] Existing Instance instant_clock.

(** ** The counter *)

Definition DETECTOR_CAPACITY : Z := 65536.

Record DistinctWindow := {
  dw_current : gset Z;
  dw_prev : gset Z;
  dw_bucket_start : option Z;
  dw_full_window : Z;
  dw_half_window : Z;
  dw_max_per_bucket : Z;
}.

Definition distinct_new (window threshold : Z) : DistinctWindow :=
  {| dw_current := ∅; dw_prev := ∅; dw_bucket_start := None; dw_full_window := window;
     dw_half_window := window / 2; dw_max_per_bucket := Z.max (Z.min (threshold * 2) usize_max) 4 |}.

Definition distinct_expires_at (now : Z) (w : DistinctWindow) : Z :=
  clock_plus (default now (dw_bucket_start w)) (dw_full_window w).

Definition set_buckets (current prev : gset Z) (start : Z) (w : DistinctWindow) : DistinctWindow :=
  {| dw_current := current; dw_prev := prev; dw_bucket_start := Some start; dw_full_window := dw_full_window w;
     dw_half_window := dw_half_window w; dw_max_per_bucket := dw_max_per_bucket w |}.

Definition maybe_rotate (now : Z) (w : DistinctWindow) : DistinctWindow :=
  match dw_bucket_start w with
  | None => set_buckets (dw_current w) (dw_prev w) now w
  | Some start =>
      let elapsed := duration_since now start in
      if dw_full_window w <=? elapsed then set_buckets ∅ ∅ now w
      else if dw_half_window w <=? elapsed then set_buckets ∅ (dw_current w) now w
      else w
  end.

Definition bucket_len (s : gset Z) : Z := Z.of_nat (size s).

Definition distinct_record (item now : Z) (w : DistinctWindow) : DistinctWindow :=
  let w := maybe_rotate now w in
  if bucket_len (dw_current w) <? dw_max_per_bucket w
  then {| dw_current := {[item]} ∪ dw_current w; dw_prev := dw_prev w; dw_bucket_start := dw_bucket_start w;
          dw_full_window := dw_full_window w; dw_half_window := dw_half_window w; dw_max_per_bucket := dw_max_per_bucket w |}
  else w.

Definition distinct_count (w : DistinctWindow) : Z :=
  bucket_len (dw_current w) + zlen (filter (λ h, h ∉ dw_current w) (elements (dw_prev w))).

(** [exceeds_threshold], which stops as soon as the threshold is passed. *)
Fixpoint count_past (threshold : Z) (current : gset Z) (prev : list Z) (count : Z) : bool :=
  match prev with
  | [] => false
  | item :: prev' =>
      if bool_decide (item ∈ current) then count_past threshold current prev' count
      else if threshold <? count + 1 then true else count_past threshold current prev' (count + 1)
  end.
Definition exceeds_threshold (threshold : Z) (w : DistinctWindow) : bool :=
  let count := bucket_len (dw_current w) in
  if threshold <? count then true else count_past threshold (dw_current w) (elements (dw_prev w)) count.

(** ** Dimensions *)

(** One dimension of a detector: windows of one length and cap, and a verdict on them. *)
Record Dimension (R : Type) := { dim_window : Z; dim_threshold : Z; dim_judge : Z → DistinctWindow → R }.
Arguments dim_window {R} _.
Arguments dim_threshold {R} _.
Arguments dim_judge {R} _ _ _.

(** The closure [record_in] passes to [upsert]. *)
Definition record_update {R} (d : Dimension R) (now item : Z) (w : DistinctWindow) : R * DistinctWindow * Z :=
  let w := distinct_record item now w in (dim_judge d now w, w, distinct_expires_at now w).

Definition window_map {K} `{Countable K} (window : Z) : ExpiringMap K DistinctWindow :=
  em_new DETECTOR_CAPACITY (Z.max window (10 ^ 9)).
Definition record_in {K R} `{Countable K} `{!HashOrder K DistinctWindow} (d : Dimension R) (key : K) (item now : Z)
  (m : ExpiringMap K DistinctWindow) : R * ExpiringMap K DistinctWindow :=
  em_upsert key now (distinct_new (dim_window d) (dim_threshold d)) (record_update d now item) m.

(** ** The detectors *)

Record DetectorConfig := { username_per_ip_threshold : Z; ip_per_username_threshold : Z; det_window : Z }.
Inductive DetectorOutcome :=
| DetAllow
| ChallengeUsernames (retry_after : Z)
| ChallengeIps (retry_after : Z).
Record DistributedAttackDetector := {
  da_config : DetectorConfig;
  da_enabled : bool;
  da_username_per_ip : ExpiringMap Z DistinctWindow;
  da_ip_per_username : ExpiringMap Z DistinctWindow;
}.
Definition detector_new (config : DetectorConfig) : DistributedAttackDetector :=
  {| da_config := config; da_enabled := true; da_username_per_ip := window_map (det_window config);
     da_ip_per_username := window_map (det_window config) |}.

Record VolumeShieldConfig := { email_soft_cap : Z; email_hard_cap : Z; vs_window : Z }.
Inductive VolumeShieldOutcome := ShieldAllow | ShieldSoftCap | ShieldHardCap.
Record OutboundVolumeShield := {
  vs_config : VolumeShieldConfig;
  vs_enabled : bool;
  vs_email_per_realm : ExpiringMap Str DistinctWindow;
}.

Record CrossRealmAggCapConfig := { alert_threshold : Z; email_realm_soft_cap : Z; email_realm_hard_cap : Z; cr_window : Z }.
Inductive CrossRealmOutcome :=
| CrossAllow
| MultiRealmAlert (realm_count : Z)
| CrossSoftCap (realm_count : Z)
| CrossHardCap (realm_count : Z).
Record CrossRealmAggregationCap := {
  cr_config : CrossRealmAggCapConfig;
  cr_enabled : bool;
  cr_email_realm_windows : ExpiringMap Z DistinctWindow;
}.

(** [hash_one]: the 64-bit hash of a text and of an address. *)
Class HashOne := { hash_str : Str → Z; hash_ip : IpAddr → Z }.

Section Detectors.
Context `{HashOne} `{!HashOrder Z DistinctWindow} `{!HashOrder Str DistinctWindow}.

(** The verdict of a login dimension: how long until the window closes, when it is
over its threshold. *)
Definition login_dimension (threshold window : Z) : Dimension (option Z) :=
  {| dim_window := window; dim_threshold := threshold;
     dim_judge now w := if exceeds_threshold threshold w then Some (duration_since (distinct_expires_at now w) now) else None |}.

(** [DistributedAttackDetector::check_with_time]. *)
Definition check_with_time (peer_ip : IpAddr) (username : Str) (now : Z) (d : DistributedAttackDetector)
  : DetectorOutcome * DistributedAttackDetector :=
  if negb (da_enabled d) then (DetAllow, d) else
  let ip_hash := hash_ip (rate_limit_key peer_ip) in
  let username_hash := hash_str username in
  let c := da_config d in
  let '(username_over, m1) :=
    record_in (login_dimension (username_per_ip_threshold c) (det_window c)) ip_hash username_hash now (da_username_per_ip d) in
  let d := {| da_config := c; da_enabled := da_enabled d; da_username_per_ip := m1; da_ip_per_username := da_ip_per_username d |} in
  match username_over with
  | Some retry_after => (ChallengeUsernames retry_after, d)
  | None =>
      let '(ip_over, m2) :=
        record_in (login_dimension (ip_per_username_threshold c) (det_window c)) username_hash ip_hash now (da_ip_per_username d) in
      let d := {| da_config := c; da_enabled := da_enabled d; da_username_per_ip := m1; da_ip_per_username := m2 |} in
      (match ip_over with Some retry_after => ChallengeIps retry_after | None => DetAllow end, d)
  end.

(** [OutboundVolumeShield::check_email_with_time]. *)
Definition shield_dimension (c : VolumeShieldConfig) : Dimension VolumeShieldOutcome :=
  {| dim_window := vs_window c; dim_threshold := email_hard_cap c;
     dim_judge _ w := if exceeds_threshold (email_hard_cap c) w then ShieldHardCap
                      else if exceeds_threshold (email_soft_cap c) w then ShieldSoftCap else ShieldAllow |}.
Definition shield_check_email (realm_id recipient : Str) (now : Z) (s : OutboundVolumeShield)
  : VolumeShieldOutcome * OutboundVolumeShield :=
  if negb (vs_enabled s) then (ShieldAllow, s) else
  let '(o, m) := record_in (shield_dimension (vs_config s)) realm_id (hash_str recipient) now (vs_email_per_realm s) in
  (o, {| vs_config := vs_config s; vs_enabled := vs_enabled s; vs_email_per_realm := m |}).

(** [CrossRealmAggregationCap::check_email_with_time]. *)
Definition cross_dimension (c : CrossRealmAggCapConfig) : Dimension CrossRealmOutcome :=
  {| dim_window := cr_window c; dim_threshold := email_realm_hard_cap c;
     dim_judge _ w :=
       let realm_count := distinct_count w in
       if exceeds_threshold (email_realm_hard_cap c) w then CrossHardCap realm_count
       else if exceeds_threshold (email_realm_soft_cap c) w then CrossSoftCap realm_count
       else if exceeds_threshold (alert_threshold c) w then MultiRealmAlert realm_count else CrossAllow |}.
Definition cross_check_email (realm_id recipient : Str) (now : Z) (s : CrossRealmAggregationCap)
  : CrossRealmOutcome * CrossRealmAggregationCap :=
  if negb (cr_enabled s) then (CrossAllow, s) else
  let '(o, m) := record_in (cross_dimension (cr_config s)) (hash_str recipient) (hash_str realm_id) now (cr_email_realm_windows s) in
  (o, {| cr_config := cr_config s; cr_enabled := cr_enabled s; cr_email_realm_windows := m |}).

End Detectors.

(** ** Counting *)

Lemma filter_not_in_size (s c : gset Z) : zlen (filter (λ h, h ∉ c) (elements s)) = bucket_len (s ∖ c).
Proof.
unfold zlen, bucket_len. f_equal.
assert (elements (s ∖ c) ≡ₚ filter (λ h, h ∉ c) (elements s)) as Hp.
{ apply NoDup_Permutation; [apply NoDup_elements|apply NoDup_filter, NoDup_elements|].
  intros x. rewrite list_elem_of_filter, !elem_of_elements. set_solver. }
rewrite <-(Permutation_length Hp). done.
Qed.

Lemma distinct_count_union w : distinct_count w = bucket_len (dw_current w ∪ dw_prev w).
Proof.
unfold distinct_count. rewrite filter_not_in_size. unfold bucket_len. pose proof (size_union_alt (C := gset Z) (dw_current w) (dw_prev w)). lia.
Qed.

Lemma count_past_exact threshold current prev : ∀ count, count <= threshold →
  count_past threshold current prev count = (threshold <? count + zlen (filter (λ h, h ∉ current) prev)).
Proof.
induction prev as [|item prev IH]; intros count Hc; simpl.
- change (zlen (filter (λ h, h ∉ current) [])) with 0. symmetry. apply Z.ltb_ge. lia.
- rewrite filter_cons. case_bool_decide as Hin; [rewrite decide_False by (by intros ?); by apply IH|].
  rewrite decide_True by done. autorewrite with zlen. destruct (Z.ltb_spec threshold (count + 1)).
  + symmetry. apply Z.ltb_lt. zlen_facts. lia.
  + rewrite IH by done. f_equal. lia.
Qed.

(** Stopping early does not change the verdict. *)
Lemma exceeds_threshold_exact threshold w : exceeds_threshold threshold w = (threshold <? distinct_count w).
Proof.
unfold exceeds_threshold, distinct_count. destruct (Z.ltb_spec threshold (bucket_len (dw_current w))).
- symmetry. apply Z.ltb_lt. zlen_facts. lia.
- by apply count_past_exact.
Qed.

(** ** What the buckets hold *)

(** The records of one key: when each item was seen. *)
Abbreviation Records := (list (Z * Z)).

(** The buckets against the records so far: an item in a bucket was recorded in that
bucket's time; an item recorded since the current bucket began is in it, and one
recorded in the half window before that is in the previous one, unless a bucket was
full. *)
Record window_inv (window threshold : Z) (hist : Records) (s : Z) (w : DistinctWindow) : Prop := {
  wi_start : dw_bucket_start w = Some s;
  wi_full : dw_full_window w = window;
  wi_half : dw_half_window w = window / 2;
  wi_max : dw_max_per_bucket w = Z.max (Z.min (threshold * 2) usize_max) 4;
  wi_times : ∀ t x, (t, x) ∈ hist → t < s + window / 2;
  wi_current : ∀ x, x ∈ dw_current w → ∃ t, (t, x) ∈ hist ∧ s <= t;
  wi_prev : ∀ x, x ∈ dw_prev w → ∃ t, (t, x) ∈ hist ∧ s - window < t;
  wi_in_current : ∀ t x, (t, x) ∈ hist → s <= t → x ∈ dw_current w ∨ dw_max_per_bucket w <= bucket_len (dw_current w);
  wi_in_prev : ∀ t x, (t, x) ∈ hist → s - window / 2 <= t < s → x ∈ dw_prev w ∨ dw_max_per_bucket w <= bucket_len (dw_prev w);
}.

(** The rotation leaves an invariant that a record at [now] keeps. *)
Lemma rotate_inv window threshold hist s w now : 2 <= window → window_inv window threshold hist s w → s <= now →
  ∃ s', s <= s' <= now ∧ now < s' + window / 2 ∧ window_inv window threshold hist s' (maybe_rotate now w).
Proof.
intros Hw [Hst Hf Hh Hm Ht Hc Hp Hic Hip] Hs. assert (1 <= window / 2) as Hhalf by (apply Z.div_le_lower_bound; lia).
assert (2 * (window / 2) <= window) as Hdbl by (apply Z.mul_div_le; lia).
unfold maybe_rotate. rewrite Hst, Hf, Hh. unfold duration_since.
destruct (Z.leb_spec window (Z.max 0 (now - s))) as [Hfull|Hfull]; [|destruct (Z.leb_spec (window / 2) (Z.max 0 (now - s))) as [Hhf|Hhf]].
- exists now. split; [lia|]. split; [lia|]. split; cbn; try done.
  + intros t x Hin. specialize (Ht t x Hin). lia.
  + intros t x Hin Hle. specialize (Ht t x Hin). lia.
  + intros t x Hin Hle. specialize (Ht t x Hin). lia.
- exists now. split; [lia|]. split; [lia|]. split; cbn; try done.
  + intros t x Hin. specialize (Ht t x Hin). lia.
  + intros x Hin. destruct (Hc x Hin) as (t & Hh' & Hle). exists t. split; [done|lia].
  + intros t x Hin Hle. specialize (Ht t x Hin). lia.
  + intros t x Hin Hle. apply (Hic t x Hin). lia.
- exists s. split; [lia|]. split; [lia|]. by split.
Qed.

Lemma bucket_len_mono (a b : gset Z) : a ⊆ b → bucket_len a <= bucket_len b.
Proof. intros Hab. unfold bucket_len. apply subseteq_size in Hab. lia. Qed.

Lemma record_inv window threshold hist s w now item : 2 <= window → window_inv window threshold hist s w → s <= now →
  ∃ s', s <= s' <= now ∧ now < s' + window / 2 ∧ window_inv window threshold (hist ++ [(now, item)]) s' (distinct_record item now w).
Proof.
intros Hw Hi Hs. destruct (rotate_inv _ _ _ _ _ now Hw Hi Hs) as (s' & Hs' & Hnow & [Hst Hf Hh Hm Ht Hc Hp Hic Hip]).
exists s'. split; [done|]. split; [done|]. unfold distinct_record. set (w1 := maybe_rotate now w) in *. clearbody w1.
assert (∀ t x, (t, x) ∈ hist ++ [(now, item)] → (t, x) ∈ hist ∨ (t = now ∧ x = item)) as Hsnoc.
{ intros t x. rewrite elem_of_app, list_elem_of_singleton. naive_solver. }
assert (∀ t x, (t, x) ∈ hist → (t, x) ∈ hist ++ [(now, item)]) as Hold by (intros; apply elem_of_app; by left).
assert ((now, item) ∈ hist ++ [(now, item)]) as Hnew by (apply elem_of_app; right; by constructor).
destruct (Z.ltb_spec (bucket_len (dw_current w1)) (dw_max_per_bucket w1)) as [Hroom|Hfull]; split; cbn; try done.
- intros t x [Hin|[-> ->]]%Hsnoc; [by eapply Ht|done].
- intros x [->%elem_of_singleton|Hin]%elem_of_union; [exists now; split; [done|lia]|].
  destruct (Hc x Hin) as (t & ? & ?). eauto.
- intros x Hin. destruct (Hp x Hin) as (t & ? & ?). eauto.
- intros t x [Hin|[-> ->]]%Hsnoc Hle; [|left; set_solver]. destruct (Hic t x Hin Hle) as [Hx|Hx]; [left; set_solver|].
  right. pose proof (bucket_len_mono (dw_current w1) ({[item]} ∪ dw_current w1) ltac:(set_solver)). lia.
- intros t x [Hin|[-> ->]]%Hsnoc Hle; [by eapply Hip|lia].
- intros t x [Hin|[-> ->]]%Hsnoc; [by eapply Ht|done].
- intros x Hin. destruct (Hc x Hin) as (t & ? & ?). eauto.
- intros x Hin. destruct (Hp x Hin) as (t & ? & ?). eauto.
- intros t x [Hin|[-> ->]]%Hsnoc Hle; [by eapply Hic|by right].
- intros t x [Hin|[-> ->]]%Hsnoc Hle; [by eapply Hip|lia].
Qed.

(** The first record of a key. *)
Lemma record_new_inv window threshold now item : 2 <= window →
  window_inv window threshold [(now, item)] now (distinct_record item now (distinct_new window threshold)).
Proof.
intros Hw. assert (1 <= window / 2) as Hhalf by (apply Z.div_le_lower_bound; lia).
unfold distinct_record, maybe_rotate, distinct_new. cbn. rewrite (proj2 (Z.ltb_lt _ _)) by (unfold bucket_len; rewrite size_empty; lia).
assert (∀ t x, (t, x) ∈ [(now, item)] → t = now ∧ x = item) as Hone.
{ intros t x Hin. apply list_elem_of_singleton in Hin. by injection Hin. }
split; cbn; try done.
- intros t x [-> ->]%Hone. lia.
- intros x Hx. exists now. split; [|lia]. assert (x = item) as -> by set_solver. by constructor.
- intros t x [-> ->]%Hone _. left. set_solver.
- intros t x [-> ->]%Hone. lia.
Qed.

(** ** The verdict *)

(** The items recorded after an instant, and from an instant on. *)
Definition items_after (s : Z) (hist : Records) : gset Z := list_to_set (snd <$> filter (λ e : Z * Z, s < e.1) hist).
Definition items_from (s : Z) (hist : Records) : gset Z := list_to_set (snd <$> filter (λ e : Z * Z, s <= e.1) hist).

Lemma elem_of_items_after s hist x : x ∈ items_after s hist ↔ ∃ t, (t, x) ∈ hist ∧ s < t.
Proof.
unfold items_after. rewrite elem_of_list_to_set, list_elem_of_fmap. setoid_rewrite list_elem_of_filter.
split; [intros ([t y] & -> & Ht & Hin); eauto|intros (t & Hin & Ht); by exists (t, x)].
Qed.
Lemma elem_of_items_from s hist x : x ∈ items_from s hist ↔ ∃ t, (t, x) ∈ hist ∧ s <= t.
Proof.
unfold items_from. rewrite elem_of_list_to_set, list_elem_of_fmap. setoid_rewrite list_elem_of_filter.
split; [intros ([t y] & -> & Ht & Hin); eauto|intros (t & Hin & Ht); by exists (t, x)].
Qed.

Lemma verdict_exact window threshold thr hist s w now : 2 <= window → 0 <= thr <= threshold → thr < usize_max →
  window_inv window threshold hist s w → s <= now < s + window / 2 →
  (exceeds_threshold thr w = true → thr < bucket_len (items_after (now - window - window / 2) hist)) ∧
  (thr < bucket_len (items_from (now - window / 2) hist) → exceeds_threshold thr w = true).
Proof.
intros Hw Hthr Hmaxu [Hst Hf Hh Hm Ht Hc Hp Hic Hip] Hnow. rewrite exceeds_threshold_exact, distinct_count_union. split.
- intros Hex%Z.ltb_lt. eapply Z.lt_le_trans; [exact Hex|]. apply bucket_len_mono. intros x Hx. apply elem_of_items_after.
  apply elem_of_union in Hx as [Hx|Hx]; [destruct (Hc x Hx) as (t & ? & ?)|destruct (Hp x Hx) as (t & ? & ?)]; exists t; (split; [done|lia]).
- intros Hex. apply Z.ltb_lt.
  assert (thr < dw_max_per_bucket w) as Hbig by (rewrite Hm; lia).
  destruct (decide (dw_max_per_bucket w <= bucket_len (dw_current w))) as [Hfc|Hfc].
  { pose proof (bucket_len_mono (dw_current w) (dw_current w ∪ dw_prev w) ltac:(set_solver)). lia. }
  destruct (decide (dw_max_per_bucket w <= bucket_len (dw_prev w))) as [Hfp|Hfp].
  { pose proof (bucket_len_mono (dw_prev w) (dw_current w ∪ dw_prev w) ltac:(set_solver)). lia. }
  eapply Z.lt_le_trans; [exact Hex|]. apply bucket_len_mono. intros x (t & Hin & Hle)%elem_of_items_from. apply elem_of_union.
  destruct (decide (s <= t)); [left; destruct (Hic t x Hin); [done|done|lia]|].
  right. destruct (Hip t x Hin); [lia|done|lia].
Qed.

(** ** Dimensions as limiters *)

Section Dimensions.
Context {K R : Type} `{Countable K} `{!HashOrder K DistinctWindow} `{!HashOrderLaws K DistinctWindow} (d : Dimension R).

#[local] Instance dim_fn : LimiterFn DistinctWindow Z R () :=
  {| lim_init _ := distinct_new (dim_window d) (dim_threshold d); lim_update := record_update d; lim_read _ _ := () |}.

(** A stored window began at an instant from which the clock can count to its expiry. *)
Definition stored_window (w : DistinctWindow) (e : Z) : Prop :=
  ∃ s, dw_bucket_start w = Some s ∧ s + dim_window d <= INSTANT_MAX ∧ e = s + dim_window d ∧
    dw_full_window w = dim_window d ∧ dw_half_window w = dim_window d / 2 ∧
    dw_max_per_bucket w = Z.max (Z.min (dim_threshold d * 2) usize_max) 4.

Lemma stored_record now item w r w' e : now + dim_window d <= INSTANT_MAX →
  (∃ e0, stored_window w e0) ∨ w = distinct_new (dim_window d) (dim_threshold d) →
  record_update d now item w = (r, w', e) → stored_window w' e.
Proof.
intros Ht Hw Hu. unfold record_update in Hu. injection Hu as _ <- <-.
assert (∃ s, dw_bucket_start (maybe_rotate now w) = Some s ∧ s + dim_window d <= INSTANT_MAX ∧
  dw_full_window (maybe_rotate now w) = dim_window d ∧ dw_half_window (maybe_rotate now w) = dim_window d / 2 ∧
  dw_max_per_bucket (maybe_rotate now w) = Z.max (Z.min (dim_threshold d * 2) usize_max) 4) as (s & Hs & Hsm & Hf & Hh & Hm).
{ destruct Hw as [(e0 & s & Hst & Hs & _ & Hf & Hh & Hm)| ->].
  - unfold maybe_rotate. rewrite Hst. repeat case_match; cbn; eauto 10.
  - cbn. eauto 10. }
assert (∀ w2, dw_bucket_start w2 = Some s → dw_full_window w2 = dim_window d → distinct_expires_at now w2 = s + dim_window d) as He.
{ intros w2 Hs2 Hf2. unfold distinct_expires_at, clock_plus, instant_clock. rewrite Hs2, Hf2. cbn. by rewrite (proj2 (Z.leb_le _ _)). }
exists s. unfold distinct_record. destruct (_ <? _); split_and!; try done; by apply He.
Qed.

Lemma expired_record now item w e : stored_window w e → e < now → 0 <= dim_window d →
  record_update d now item w = record_update d now item (distinct_new (dim_window d) (dim_threshold d)).
Proof.
intros (s & Hst & Hs & -> & Hf & Hh & Hm) Hlt Hw. unfold record_update.
assert (maybe_rotate now w = maybe_rotate now (distinct_new (dim_window d) (dim_threshold d))) as Hr.
{ unfold maybe_rotate. rewrite Hst. unfold duration_since. rewrite (proj2 (Z.leb_le _ _)) by lia. cbn. unfold set_buckets. cbn. by rewrite Hf, Hh, Hm. }
unfold distinct_record. by rewrite Hr.
Qed.

Lemma dim_laws : 0 <= dim_window d → LimiterLaws DistinctWindow Z R ().
Proof.
intros Hw. refine {| lim_inv := stored_window; lim_time now := now + dim_window d <= INSTANT_MAX |}.
- intros now x r v e Ht Hu. exact (stored_record now x _ r v e Ht (or_intror eq_refl) Hu).
- intros now x v0 e0 r v e Ht Hi Hu. exact (stored_record now x _ r v e Ht (or_introl (ex_intro _ e0 Hi)) Hu).
- intros now x v e Ht Hi Hlt. exact (expired_record now x v e Hi Hlt Hw).
- done.
Defined.

(** One call of [record_in]: when, for which key, which item. *)
Record RecordCall := { rc_time : Z; rc_key : K; rc_item : Z }.
Definition calls_ops (calls : list RecordCall) : list (LimOp K Z) := (λ c, LUpdate (rc_time c) (rc_key c) (rc_item c)) <$> calls.
Definition records_of (key : K) (calls : list RecordCall) : Records :=
  (λ c, (rc_time c, rc_item c)) <$> filter (λ c, rc_key c = key) calls.
(** The verdicts of a sequence of calls. *)
Fixpoint run_calls (calls : list RecordCall) (m : ExpiringMap K DistinctWindow) : list R :=
  match calls with
  | [] => []
  | c :: calls' => let '(r, m') := record_in d (rc_key c) (rc_item c) (rc_time c) m in r :: run_calls calls' m'
  end.

Lemma run_calls_map calls : ∀ m, OUpdate (Q := ()) <$> run_calls calls m = (run_with lim_step (calls_ops calls) m).1.
Proof.
induction calls as [|c calls IH]; intros m; [done|]. unfold calls_ops in *. rewrite fmap_cons. cbn [run_calls run_with lim_step].
change (lim_init (rc_time c)) with (distinct_new (dim_window d) (dim_threshold d)).
change (lim_update (rc_time c) (rc_item c)) with (record_update d (rc_time c) (rc_item c)). unfold record_in.
destruct (em_upsert (rc_key c) _ _ _ m) as [r m']. specialize (IH m'). cbn [fmap list_fmap].
destruct (run_with lim_step _ m') as [rs m'']. cbn [fst] in *. by rewrite IH.
Qed.

Lemma records_snoc key calls c :
  records_of key (calls ++ [c]) = records_of key calls ++ if decide (rc_key c = key) then [(rc_time c, rc_item c)] else [].
Proof. unfold records_of. rewrite filter_app, fmap_app, filter_cons. by destruct (decide (rc_key c = key)). Qed.

(** Every key's window in a map that never forgets, against the calls so far. *)
Definition windows_inv (now : Z) (hist : list RecordCall) (im : gmap K (Slot DistinctWindow)) : Prop :=
  ∀ k, match im !! k with
       | Some sl => ∃ s, s <= now ∧ window_inv (dim_window d) (dim_threshold d) (records_of k hist) s (sl_value sl)
       | None => records_of k hist = []
       end.

Lemma windows_inv_step now hist im c : 2 <= dim_window d → windows_inv now hist im → now <= rc_time c →
  let '(o, im') := ideal_step (LUpdate (rc_time c) (rc_key c) (rc_item c)) im in
  windows_inv (rc_time c) (hist ++ [c]) im' ∧
  ∃ w s, o = OUpdate (dim_judge d (rc_time c) w) ∧ s <= rc_time c < s + dim_window d / 2 ∧
    window_inv (dim_window d) (dim_threshold d) (records_of (rc_key c) (hist ++ [c])) s w.
Proof.
intros Hw Hinv Hle. cbn [ideal_step]. change (lim_init (rc_time c)) with (distinct_new (dim_window d) (dim_threshold d)).
change (lim_update (rc_time c) (rc_item c)) with (record_update d (rc_time c) (rc_item c)). unfold record_update.
set (w0 := match im !! rc_key c with Some sl => sl_value sl | None => _ end).
assert (∃ s, s <= rc_time c < s + dim_window d / 2 ∧
  window_inv (dim_window d) (dim_threshold d) (records_of (rc_key c) (hist ++ [c])) s (distinct_record (rc_item c) (rc_time c) w0)) as (s & Hs & Hi).
{ rewrite records_snoc, decide_True by done. specialize (Hinv (rc_key c)). subst w0. destruct (im !! rc_key c) as [sl|].
  - destruct Hinv as (s & Hs & Hi). destruct (record_inv _ _ _ _ _ (rc_time c) (rc_item c) Hw Hi ltac:(lia)) as (s' & ? & ? & ?). exists s'. split; [lia|done].
  - rewrite Hinv. cbn [app]. exists (rc_time c). split; [|by apply record_new_inv].
    assert (1 <= dim_window d / 2) by (apply Z.div_le_lower_bound; lia). lia. }
split; [|exists (distinct_record (rc_item c) (rc_time c) w0), s; done].
intros k. destruct (decide (rc_key c = k)) as [<-|Hne].
- rewrite lookup_insert_eq. cbn [sl_value]. exists s. split; [lia|done].
- rewrite lookup_insert_ne by done. specialize (Hinv k). rewrite records_snoc, decide_False, app_nil_r by done.
  destruct (im !! k) as [sl|]; [|done]. destruct Hinv as (s' & Hs' & Hi'). exists s'. split; [lia|done].
Qed.

Lemma ideal_calls_exact : 2 <= dim_window d → ∀ calls hist now im,
  StronglySorted Z.le (now :: (rc_time <$> calls)) → windows_inv now hist im →
  ∀ i c, calls !! i = Some c → ∃ w s,
    (run_with ideal_step (calls_ops calls) im).1 !! i = Some (OUpdate (dim_judge d (rc_time c) w)) ∧
    s <= rc_time c < s + dim_window d / 2 ∧
    window_inv (dim_window d) (dim_threshold d) (records_of (rc_key c) (hist ++ take (S i) calls)) s w.
Proof.
intros Hw. induction calls as [|c0 calls IH]; intros hist now im Hsort Hinv i c Hi; [done|].
apply StronglySorted_inv in Hsort as [Hsort Hle]. rewrite fmap_cons in Hsort, Hle. apply Forall_cons in Hle as [Hle _].
pose proof (windows_inv_step now hist im c0 Hw Hinv Hle) as Hstep. unfold calls_ops in *. rewrite fmap_cons. cbn [run_with].
destruct (ideal_step _ im) as [o im']. destruct Hstep as [Hinv' (w & s & -> & Hs & Hwi)].
destruct i as [|i]; cbn [lookup list_lookup] in Hi.
- injection Hi as ->. exists w, s. destruct (run_with ideal_step _ im'). cbn [fst take]. split; [done|]. by destruct calls.
- destruct (IH (hist ++ [c0]) (rc_time c0) im' Hsort Hinv' i c Hi) as (w' & s' & Ho & Hs' & Hwi').
  exists w', s'. destruct (run_with ideal_step _ im') as [rs s2]. cbn [fst] in *. split; [done|]. split; [done|].
  rewrite <-app_assoc in Hwi'. done.
Qed.

(** Over any calls at non-decreasing times on no more keys than a dimension's map
holds, the verdict of each call is the dimension's judgement of a window which, for
every threshold up to the dimension's own, is over it only when more distinct items
than that were recorded for the key in the last one and a half windows, and is over it
whenever more were recorded in the last half window. *)
Theorem dimension_exact calls :
  2 <= dim_window d → StronglySorted Z.le (rc_time <$> calls) →
  Forall (λ c, rc_time c + dim_window d <= INSTANT_MAX) calls →
  Z.of_nat (size (list_to_set (rc_key <$> calls) : gset K)) <= DETECTOR_CAPACITY →
  ∀ i c, calls !! i = Some c → ∃ w, run_calls calls (window_map (dim_window d)) !! i = Some (dim_judge d (rc_time c) w) ∧
    ∀ thr, 0 <= thr <= dim_threshold d → thr < usize_max →
      (exceeds_threshold thr w = true →
         thr < bucket_len (items_after (rc_time c - dim_window d - dim_window d / 2) (records_of (rc_key c) (take (S i) calls)))) ∧
      (thr < bucket_len (items_from (rc_time c - dim_window d / 2) (records_of (rc_key c) (take (S i) calls))) →
         exceeds_threshold thr w = true).
Proof.
intros Hw Hsort Ht Hcap i c Hi.
assert (∃ w s, (run_with ideal_step (calls_ops calls) ∅).1 !! i = Some (OUpdate (dim_judge d (rc_time c) w)) ∧
  s <= rc_time c < s + dim_window d / 2 ∧
  window_inv (dim_window d) (dim_threshold d) (records_of (rc_key c) (take (S i) calls)) s w) as (w & s & Ho & Hs & Hwi).
{ destruct calls as [|c0 calls']; [done|]. apply (ideal_calls_exact Hw (c0 :: calls') [] (rc_time c0)); [| |done].
  - rewrite fmap_cons in *. constructor; [done|]. apply StronglySorted_inv in Hsort as [_ Hall]. constructor; [lia|done].
  - intros k. by rewrite lookup_empty. }
exists w. split; [|intros thr Hthr Hu; by eapply verdict_exact].
assert (OUpdate (Q := ()) <$> run_calls calls (window_map (dim_window d)) = (run_with ideal_step (calls_ops calls) ∅).1) as Heq.
{ rewrite run_calls_map. apply (run_new_same (H2 := dim_laws ltac:(lia))).
  - unfold calls_ops. rewrite <-list_fmap_compose. exact Hsort.
  - unfold calls_ops. rewrite Forall_fmap. exact Ht.
  - unfold calls_ops. rewrite <-list_fmap_compose. unfold DETECTOR_CAPACITY in *. change (op_key ∘ _) with rc_key. lia. }
rewrite <-Heq, list_lookup_fmap in Ho. destruct (run_calls _ _ !! i); [|done]. cbn in Ho. congruence.
Qed.
End Dimensions.

(** ** Evaluations *)

#[local] Instance z_order : HashOrder Z DistinctWindow := map_to_list.
#[local] Instance z_order_laws : HashOrderLaws Z DistinctWindow.
Proof. intros m. done. Qed.

(** Two recipients in a half window pass a cap of one; an hour later one passes. *)
Definition small_cap : VolumeShieldConfig := {| email_soft_cap := 0; email_hard_cap := 1; vs_window := 100 |}.
Definition sample_calls : list (RecordCall (K := Z)) :=
  [{| rc_time := 0; rc_key := 7; rc_item := 11 |}; {| rc_time := 40; rc_key := 7; rc_item := 12 |};
   {| rc_time := 3600; rc_key := 7; rc_item := 13 |}].

Lemma dimension_exact_witness :
  run_calls (shield_dimension small_cap) sample_calls (window_map 100) = [ShieldSoftCap; ShieldHardCap; ShieldSoftCap] ∧
  ∃ w, run_calls (shield_dimension small_cap) sample_calls (window_map 100) !! 1%nat =
      Some (dim_judge (shield_dimension small_cap) 40 w) ∧ exceeds_threshold 1 w = true.
Proof.
split; [by vm_compute|].
assert (StronglySorted Z.le (rc_time <$> sample_calls)) as Hsort by (apply (bool_decide_unpack _); by vm_compute).
assert (Forall (λ c, rc_time c + dim_window (shield_dimension small_cap) <= INSTANT_MAX) sample_calls) as Ht by (repeat constructor; by vm_compute).
assert (Z.of_nat (size (list_to_set (rc_key <$> sample_calls) : gset Z)) <= DETECTOR_CAPACITY) as Hk by (by vm_compute).
destruct (dimension_exact (shield_dimension small_cap) sample_calls ltac:(cbn; lia) Hsort Ht Hk 1%nat
  {| rc_time := 40; rc_key := 7; rc_item := 12 |} eq_refl) as (w & Hw & Hv).
exists w. split; [exact Hw|]. apply (Hv 1 ltac:(cbn; lia) ltac:(unfold usize_max; lia)). by vm_compute.
Defined.
