(* ===== verification/AbuseChallenge.v ===== *)
(** * Challenge state and lockout backoff

[abuse/challenge.rs]: per-client counts of failed logins and the challenge state they
lead to; [abuse/backoff.rs]: lockouts of growing length per key. *)
From stdpp Require Import base list gmap numbers strings sorting fin_maps.
From Stdlib Require Import Strings.Byte ZArith Lia.
From S2P Require Import Prelude OrdMap StorageTypes RbacTypes IpAddr IpRange Limiter.

Open Scope Z_scope.

#[local] Existing Instance instant_clock.

(** ** The challenge store *)

Definition CHALLENGE_CAPACITY : Z := 100000.
Definition SWEEP_INTERVAL : Z := 60 * 10 ^ 9.

Inductive ChallengeOutcome := ChallengeAllow | ChallengeRequired.

#[export] Instance ChallengeOutcome_eq_dec : EqDecision ChallengeOutcome.
Proof. solve_decision. Defined.

(** The two durations of the configuration are in seconds. *)
Record ChallengeConfig := { ch_threshold : option Z; ch_window_secs : Z; ch_ttl_secs : Z }.
Definition from_secs (s : Z) : Z := s * 10 ^ 9.

Record IpEntry := { ie_count : Z; ie_window_start : Z; ie_challenge_until : option Z }.
Definition ip_entry_new (now : Z) : IpEntry := {| ie_count := 0; ie_window_start := now; ie_challenge_until := None |}.
Definition entry_expires_at (window : Z) (e : IpEntry) : Z :=
  let window_end := clock_plus (ie_window_start e) window in
  match ie_challenge_until e with Some until => Z.max until window_end | None => window_end end.

Record IpChallengeStore := { cs_config : ChallengeConfig; cs_entries : ExpiringMap IpAddr IpEntry }.
Definition challenge_with_config (config : ChallengeConfig) : IpChallengeStore :=
  {| cs_config := config; cs_entries := em_new CHALLENGE_CAPACITY SWEEP_INTERVAL |}.

(** The closure [record_failure_at] passes to [upsert]. *)
Definition failure_update (threshold window ttl now : Z) (e : IpEntry) : ChallengeOutcome * IpEntry * Z :=
  let e := if window <=? duration_since now (ie_window_start e)
           then {| ie_count := 0; ie_window_start := now; ie_challenge_until := None |} else e in
  let count := Z.min (ie_count e + 1) u32_max in
  let '(outcome, until) :=
    if threshold <=? count then (ChallengeRequired, Some (clock_plus now ttl)) else (ChallengeAllow, ie_challenge_until e) in
  let e := {| ie_count := count; ie_window_start := ie_window_start e; ie_challenge_until := until |} in
  (outcome, e, entry_expires_at window e).

(** What [remaining_at] reads off an entry. *)
Definition entry_remaining (now : Z) (e : option IpEntry) : option Z :=
  e ← e; until ← ie_challenge_until e; if now <? until then Some (duration_since until now) else None.

Section Challenge.
Context `{!HashOrder IpAddr IpEntry}.

Definition remaining_at (ip : IpAddr) (now : Z) (s : IpChallengeStore) : option Z :=
  _ ← ch_threshold (cs_config s); entry_remaining now (em_get (cs_entries s) (rate_limit_key ip)).
Definition challenge_check_at (ip : IpAddr) (now : Z) (s : IpChallengeStore) : ChallengeOutcome :=
  match remaining_at ip now s with Some _ => ChallengeRequired | None => ChallengeAllow end.
Definition record_failure_at (ip : IpAddr) (now : Z) (s : IpChallengeStore) : ChallengeOutcome * IpChallengeStore :=
  match ch_threshold (cs_config s) with
  | None => (ChallengeAllow, s)
  | Some threshold =>
      let window := from_secs (ch_window_secs (cs_config s)) in
      let ttl := from_secs (ch_ttl_secs (cs_config s)) in
      let '(o, m) := em_upsert (rate_limit_key ip) now (ip_entry_new now) (failure_update threshold window ttl now) (cs_entries s) in
      (o, {| cs_config := cs_config s; cs_entries := m |})
  end.
Definition challenge_clear (ip : IpAddr) (s : IpChallengeStore) : IpChallengeStore :=
  {| cs_config := cs_config s; cs_entries := (em_remove (cs_entries s) (rate_limit_key ip)).2 |}.
End Challenge.

(** ** The backoff store *)

Definition PRUNE_FLOOR : Z := 1024.

Record BackoffConfig := { bo_durations : list Z; bo_offense_cooldown : Z }.
Definition default_backoff : BackoffConfig :=
  {| bo_durations := from_secs <$> [60; 5 * 60; 30 * 60; 24 * 60 * 60]; bo_offense_cooldown := from_secs (7 * 24 * 60 * 60) |}.

Inductive BackoffOutcome :=
| BackoffAllow
| Locked (until offense_level : Z).

Record BackoffEntry := { be_offense_count : Z; be_locked_until : option Z; be_last_lockout_end : option Z }.
Definition entry_new : BackoffEntry := {| be_offense_count := 0; be_locked_until := None; be_last_lockout_end := None |}.
(** [should_reset_offenses]; [Instant + Duration] panics past the end of the clock,
which lockouts of at most days do not reach. *)
Definition should_reset_offenses (now cooldown : Z) (e : BackoffEntry) : bool :=
  match be_last_lockout_end e with None => false | Some e => e + cooldown <=? now end.

Record BackoffStore := { bs_config : BackoffConfig; bs_map : gmap Str BackoffEntry; bs_prune_at : Z }.
Definition backoff_with_config (config : BackoffConfig) : BackoffStore :=
  {| bs_config := config; bs_map := ∅; bs_prune_at := PRUNE_FLOOR |}.
Definition set_map (m : gmap Str BackoffEntry) (s : BackoffStore) : BackoffStore :=
  {| bs_config := bs_config s; bs_map := m; bs_prune_at := bs_prune_at s |}.

(** [check] at [now]. *)
Definition backoff_check (key : Str) (now : Z) (s : BackoffStore) : BackoffOutcome * BackoffStore :=
  if bool_decide (bo_durations (bs_config s) = []) then (BackoffAllow, s) else
  match bs_map s !! key with
  | None => (BackoffAllow, s)
  | Some e =>
      if should_reset_offenses now (bo_offense_cooldown (bs_config s)) e then (BackoffAllow, set_map (<[key := entry_new]> (bs_map s)) s)
      else match be_locked_until e with
           | Some until =>
               if now <? until then (Locked until (be_offense_count e), s)
               else (BackoffAllow, set_map (<[key := {| be_offense_count := be_offense_count e; be_locked_until := None;
                                                       be_last_lockout_end := be_last_lockout_end e |}]> (bs_map s)) s)
           | None => (BackoffAllow, s)
           end
  end.

(** The sweep at the start of [record_lockout_at]. *)
Definition backoff_prune (now : Z) (s : BackoffStore) : BackoffStore :=
  if bs_prune_at s <=? Z.of_nat (size (bs_map s)) then
    let m := filter (λ e : Str * BackoffEntry,
      is_Some (be_last_lockout_end e.2) ∧ should_reset_offenses now (bo_offense_cooldown (bs_config s)) e.2 = false) (bs_map s) in
    {| bs_config := bs_config s; bs_map := m;
       bs_prune_at := Z.max PRUNE_FLOOR (Z.min (Z.of_nat (size m) * 2) usize_max) |}
  else s.

(** [durations[min(offense - 1, len - 1)]]. *)
Definition duration_for (config : BackoffConfig) (offense : Z) : Z :=
  let idx := Z.min (Z.max 0 (offense - 1)) (zlen (bo_durations config) - 1) in
  default 0 (bo_durations config !! Z.to_nat idx).

Definition record_lockout_at (key : Str) (now : Z) (s : BackoffStore) : BackoffOutcome * BackoffStore :=
  if bool_decide (bo_durations (bs_config s) = []) then (BackoffAllow, s) else
  let s := backoff_prune now s in
  let e := default entry_new (bs_map s !! key) in
  let e := if should_reset_offenses now (bo_offense_cooldown (bs_config s)) e then entry_new else e in
  let offense_count := Z.min (be_offense_count e + 1) u32_max in
  let until := now + duration_for (bs_config s) offense_count in
  (Locked until offense_count,
   set_map (<[key := {| be_offense_count := offense_count; be_locked_until := Some until; be_last_lockout_end := Some until |}]> (bs_map s)) s).

Definition peek_next_duration (key : Str) (s : BackoffStore) : Z :=
  if bool_decide (bo_durations (bs_config s) = []) then 0 else
  duration_for (bs_config s) (match bs_map s !! key with Some e => Z.min (be_offense_count e + 1) u32_max | None => 1 end).
Definition backoff_clear (key : Str) (s : BackoffStore) : BackoffStore := set_map (delete key (bs_map s)) s.

(** ** The challenge store against a map that never forgets *)

Section ChallengeExact.
Context `{!HashOrder IpAddr IpEntry} `{!HashOrderLaws IpAddr IpEntry} (config : ChallengeConfig) (threshold : Z).

#[local] Instance challenge_fn : LimiterFn IpEntry () ChallengeOutcome (option Z) :=
  {| lim_init := ip_entry_new;
     lim_update now _ := failure_update threshold (from_secs (ch_window_secs config)) (from_secs (ch_ttl_secs config)) now;
     lim_read := entry_remaining |}.

Definition clock_room (now : Z) : Prop :=
  now + from_secs (ch_window_secs config) <= INSTANT_MAX ∧ now + from_secs (ch_ttl_secs config) <= INSTANT_MAX.

(** The expiry of an entry is the later end of its window and of its challenge. *)
Definition entry_inv (e : IpEntry) (expiry : Z) : Prop :=
  ie_window_start e + from_secs (ch_window_secs config) <= expiry ∧
  match ie_challenge_until e with Some until => until <= expiry | None => True end ∧
  ie_window_start e + from_secs (ch_window_secs config) <= INSTANT_MAX.

Lemma failure_inv now e0 r e expiry : clock_room now →
  ie_window_start e0 + from_secs (ch_window_secs config) <= INSTANT_MAX →
  failure_update threshold (from_secs (ch_window_secs config)) (from_secs (ch_ttl_secs config)) now e0 = (r, e, expiry) →
  entry_inv e expiry.
Proof.
intros [Hw Ht] He0. unfold failure_update, entry_inv, entry_expires_at, clock_plus, instant_clock.
set (e1 := if _ <=? duration_since now _ then _ else e0).
assert (ie_window_start e1 + from_secs (ch_window_secs config) <= INSTANT_MAX) as He1 by (subst e1; destruct (_ <=? _); done).
clearbody e1. destruct (threshold <=? _); intros [= <- <- <-]; cbn; rewrite !(proj2 (Z.leb_le _ _)) by done;
  [|destruct (ie_challenge_until e1)]; split_and!; done || lia.
Qed.

Lemma failure_expired now e expiry : entry_inv e expiry → expiry < now →
  failure_update threshold (from_secs (ch_window_secs config)) (from_secs (ch_ttl_secs config)) now e =
  failure_update threshold (from_secs (ch_window_secs config)) (from_secs (ch_ttl_secs config)) now (ip_entry_new now).
Proof.
intros (Hw & _ & _) Hlt. unfold failure_update.
rewrite (proj2 (Z.leb_le _ (duration_since now (ie_window_start e)))) by (unfold duration_since; lia).
cbn [ie_window_start ip_entry_new]. by destruct (_ <=? duration_since now now).
Qed.

Lemma remaining_expired now e expiry : entry_inv e expiry → expiry < now → entry_remaining now (Some e) = entry_remaining now None.
Proof.
intros (_ & Hu & _) Hlt. unfold entry_remaining. cbn. destruct (ie_challenge_until e) as [until|]; [|done]. cbn.
by rewrite (proj2 (Z.ltb_ge _ _)) by lia.
Qed.

Lemma challenge_laws : LimiterLaws IpEntry () ChallengeOutcome (option Z).
Proof.
refine {| lim_inv := entry_inv; lim_time := clock_room |}.
- intros now x r v e Ht Hu. refine (failure_inv now _ r v e Ht _ Hu). apply Ht.
- intros now x v0 e0 r v e Ht Hi Hu. refine (failure_inv now _ r v e Ht _ Hu). apply Hi.
- intros now x v e Ht Hi Hlt. exact (failure_expired now v e Hi Hlt).
- intros now v e Ht Hi Hlt. exact (remaining_expired now v e Hi Hlt).
Defined.

(** What callers do with the store: record a failure, check, clear. *)
Inductive ChallengeOp :=
| CFailure (now : Z) (ip : IpAddr)
| CCheck (now : Z) (ip : IpAddr)
| CClear (now : Z) (ip : IpAddr).
Definition challenge_step (o : ChallengeOp) (s : IpChallengeStore) : ChallengeOutcome * IpChallengeStore :=
  match o with
  | CFailure now ip => record_failure_at ip now s
  | CCheck now ip => (challenge_check_at ip now s, s)
  | CClear _ ip => (ChallengeAllow, challenge_clear ip s)
  end.
Fixpoint run_challenge (ops : list ChallengeOp) (s : IpChallengeStore) : list ChallengeOutcome :=
  match ops with
  | [] => []
  | o :: ops' => let '(r, s') := challenge_step o s in r :: run_challenge ops' s'
  end.
Definition challenge_op (o : ChallengeOp) : LimOp IpAddr () :=
  match o with
  | CFailure now ip => LUpdate now (rate_limit_key ip) ()
  | CCheck now ip => LRead now (rate_limit_key ip)
  | CClear now ip => LRemove now (rate_limit_key ip)
  end.
Definition challenge_out (o : LimOut ChallengeOutcome (option Z)) : ChallengeOutcome :=
  match o with OUpdate r => r | ORead (Some _) => ChallengeRequired | _ => ChallengeAllow end.

Lemma run_challenge_map ops : ch_threshold config = Some threshold → ∀ s, cs_config s = config →
  run_challenge ops s = challenge_out <$> (run_with lim_step (challenge_op <$> ops) (cs_entries s)).1.
Proof.
intros Hthr. induction ops as [|o ops IH]; intros s Hs; [done|]. rewrite fmap_cons. cbn [run_challenge run_with].
destruct o as [now ip|now ip|now ip]; cbn [challenge_step challenge_op lim_step].
- unfold record_failure_at. rewrite Hs, Hthr.
  change (lim_init now) with (ip_entry_new now).
  change (lim_update now ()) with (failure_update threshold (from_secs (ch_window_secs config)) (from_secs (ch_ttl_secs config)) now).
  destruct (em_upsert (rate_limit_key ip) _ _ _ _) as [r m]. rewrite (IH {| cs_config := config; cs_entries := m |} eq_refl).
  cbn [cs_entries]. by destruct (run_with lim_step _ m).
- rewrite (IH s Hs). unfold challenge_check_at, remaining_at. rewrite Hs, Hthr. cbn [mbind option_bind].
  change (lim_read now) with (entry_remaining now). destruct (run_with lim_step _ _). cbn [fst fmap list_fmap challenge_out].
  by destruct (entry_remaining _ _).
- rewrite (IH (challenge_clear ip s) Hs). cbn [challenge_clear cs_entries]. by destruct (run_with lim_step _ _).
Qed.

Lemma challenge_store_ideal ops : ch_threshold config = Some threshold →
  StronglySorted Z.le (op_time ∘ challenge_op <$> ops) → Forall (λ o, clock_room (op_time (challenge_op o))) ops →
  Z.of_nat (size (list_to_set (op_key ∘ challenge_op <$> ops) : gset IpAddr)) <= CHALLENGE_CAPACITY →
  run_challenge ops (challenge_with_config config) = challenge_out <$> (run_with ideal_step (challenge_op <$> ops) ∅).1.
Proof.
intros Hthr Hsort Ht Hk. rewrite run_challenge_map by done. f_equal. cbn [challenge_with_config cs_entries].
apply (run_new_same (H2 := challenge_laws)).
- by rewrite <-list_fmap_compose.
- rewrite Forall_fmap. exact Ht.
- rewrite <-list_fmap_compose. unfold CHALLENGE_CAPACITY in *. lia.
Qed.

(** Reads, and operations on other keys, leave a key's entry as it is. *)
Lemma ideal_untouched key ops : ∀ im : gmap IpAddr (Slot IpEntry),
  Forall (λ o : LimOp IpAddr (), op_key o = key → ∃ t, o = LRead t key) ops →
  (run_with ideal_step ops im).2 !! key = im !! key.
Proof.
induction ops as [|o ops IH]; intros im Hf; [done|]. apply Forall_cons in Hf as [Ho Hf]. cbn [run_with].
assert ((ideal_step o im).2 !! key = im !! key) as Hstep.
{ destruct (decide (op_key o = key)) as [Hk|Hk]; [destruct (Ho Hk) as [t ->]; done|].
  destruct o as [t k x|t k|t k]; cbn [ideal_step op_key] in *; [|done|cbn; by rewrite lookup_delete_ne].
  destruct (lim_update _ _ _) as [[r v'] e]. cbn [snd]. by rewrite lookup_insert_ne. }
destruct (ideal_step o im) as [r im1]. specialize (IH im1 Hf). cbn [snd] in Hstep.
destruct (run_with ideal_step ops im1). cbn [snd] in *. congruence.
Qed.

(** A failure that asks for a challenge starts one that lasts [ttl]. *)
Lemma failure_starts_challenge (im : gmap IpAddr (Slot IpEntry)) t (key : IpAddr) : clock_room t →
  (ideal_step (LUpdate t key ()) im).1 = OUpdate ChallengeRequired →
  ∃ sl, (ideal_step (LUpdate t key ()) im).2 !! key = Some sl ∧
    ie_challenge_until (sl_value sl) = Some (t + from_secs (ch_ttl_secs config)).
Proof.
intros [_ Hr]. cbn [ideal_step]. set (e0 := match im !! key with Some sl => _ | None => _ end).
change (lim_update t () e0) with (failure_update threshold (from_secs (ch_window_secs config)) (from_secs (ch_ttl_secs config)) t e0).
unfold failure_update. destruct (threshold <=? _); [|done]. intros _. eexists. cbn [snd]. rewrite lookup_insert_eq. split; [done|]. cbn.
unfold clock_plus, instant_clock. by rewrite (proj2 (Z.leb_le _ _)).
Qed.

(** Once a failure is answered with a challenge, every check of the same client (an
IPv4 address or an IPv6 /64) before the challenge's lifetime is over requires it too,
as long as nothing but checks happens for that client in between and no more clients
are tracked than the store holds. *)
Theorem challenge_persists ops i j t t' ip ip' :
  ch_threshold config = Some threshold →
  StronglySorted Z.le (op_time ∘ challenge_op <$> ops) → Forall (λ o, clock_room (op_time (challenge_op o))) ops →
  Z.of_nat (size (list_to_set (op_key ∘ challenge_op <$> ops) : gset IpAddr)) <= CHALLENGE_CAPACITY →
  (i < j)%nat → ops !! i = Some (CFailure t ip) → ops !! j = Some (CCheck t' ip') → rate_limit_key ip = rate_limit_key ip' →
  run_challenge ops (challenge_with_config config) !! i = Some ChallengeRequired →
  (∀ k o, (i < k < j)%nat → ops !! k = Some o → op_key (challenge_op o) = rate_limit_key ip → ∃ t ip, o = CCheck t ip) →
  t' < t + from_secs (ch_ttl_secs config) →
  run_challenge ops (challenge_with_config config) !! j = Some ChallengeRequired.
Proof.
intros Hthr Hsort Ht Hk Hij Hi Hj Hkey Hout Hbetween Hlt.
rewrite challenge_store_ideal in * by done. rewrite list_lookup_fmap in *. set (lops := challenge_op <$> ops) in *.
assert (lops !! i = Some (LUpdate t (rate_limit_key ip) ())) as Hli by (subst lops; by rewrite list_lookup_fmap, Hi).
assert (lops !! j = Some (LRead t' (rate_limit_key ip))) as Hlj by (subst lops; by rewrite list_lookup_fmap, Hj, Hkey).
rewrite (run_with_lookup _ _ _ _ _ Hli) in Hout. rewrite (run_with_lookup _ _ _ _ _ Hlj). cbn [fmap option_fmap option_map] in *.
set (im := (run_with ideal_step (take i lops) ∅).2) in *.
destruct (failure_starts_challenge im t (rate_limit_key ip)) as (sl & Hsl & Hun).
{ rewrite Forall_lookup in Ht. by apply (Ht i (CFailure t ip)). }
{ cbn [ideal_step] in *. destruct (lim_update t () _) as [[r v'] e]. cbn in *. congruence. }
assert (take j lops = take i lops ++ [LUpdate t (rate_limit_key ip) ()] ++ take (j - S i) (drop (S i) lops)) as Htake.
{ rewrite <-(take_drop_middle _ _ _ Hli) at 1. rewrite take_app_ge by (rewrite length_take; lia). f_equal.
  rewrite length_take_le by (apply lookup_lt_Some in Hli; lia). replace (j - i)%nat with (S (j - S i)) by lia. done. }
assert ((run_with ideal_step (take j lops) ∅).2 !! rate_limit_key ip = Some sl) as Hst.
{ rewrite Htake, !run_with_app. fold im. rewrite ideal_untouched.
  - cbn [run_with] in *. destruct (ideal_step (LUpdate t (rate_limit_key ip) ()) im). exact Hsl.
  - apply Forall_lookup. intros n o Hn Ho. apply lookup_take_Some in Hn as [Hn Hlt'].
    rewrite lookup_drop in Hn. subst lops. rewrite list_lookup_fmap in Hn. destruct (ops !! (S i + n)%nat) as [co|] eqn:Hco; [|done].
    cbn in Hn. injection Hn as <-. destruct (Hbetween (S i + n)%nat co ltac:(lia) Hco Ho) as (t2 & ip2 & ->).
    cbn [challenge_op op_key] in *. rewrite Ho. eauto. }
cbn [ideal_step fst]. rewrite Hst. cbn [fmap option_fmap option_map]. change (lim_read t') with (entry_remaining t').
unfold entry_remaining. cbn [mbind option_bind]. rewrite Hun. cbn. by rewrite (proj2 (Z.ltb_lt _ _)).
Qed.
End ChallengeExact.

(** ** The backoff store against its specification *)

(** What the store remembers of a key, in principle: the level of its last lockout and
when that ends. *)
Abbreviation Offenses := (gmap Str (Z * Z)).

Section BackoffSpec.
Context (config : BackoffConfig).

(** The history counts until the cooldown after the last lockout is over. *)
Definition counts (now : Z) (o : option (Z * Z)) : option (Z * Z) :=
  match o with
  | Some (level, until) => if until + bo_offense_cooldown config <=? now then None else o
  | None => None
  end.
Definition spec_check (key : Str) (now : Z) (st : Offenses) : BackoffOutcome :=
  match counts now (st !! key) with
  | Some (level, until) => if now <? until then Locked until level else BackoffAllow
  | None => BackoffAllow
  end.
Definition spec_lockout (key : Str) (now : Z) (st : Offenses) : BackoffOutcome * Offenses :=
  let level := match counts now (st !! key) with Some (level, _) => Z.min (level + 1) u32_max | None => 1 end in
  let until := now + duration_for config level in
  (Locked until level, <[key := (level, until)]> st).

Inductive BackoffOp :=
| BCheck (now : Z) (key : Str)
| BLockout (now : Z) (key : Str)
| BClear (now : Z) (key : Str).
Definition bop_time (o : BackoffOp) : Z := match o with BCheck t _ | BLockout t _ | BClear t _ => t end.

Definition backoff_step (o : BackoffOp) (s : BackoffStore) : BackoffOutcome * BackoffStore :=
  match o with
  | BCheck now key => backoff_check key now s
  | BLockout now key => record_lockout_at key now s
  | BClear _ key => (BackoffAllow, backoff_clear key s)
  end.
Definition spec_step (o : BackoffOp) (st : Offenses) : BackoffOutcome * Offenses :=
  match o with
  | BCheck now key => (spec_check key now st, st)
  | BLockout now key => spec_lockout key now st
  | BClear _ key => (BackoffAllow, delete key st)
  end.
Fixpoint run_backoff {S} (step : BackoffOp → S → BackoffOutcome * S) (ops : list BackoffOp) (s : S) : list BackoffOutcome :=
  match ops with
  | [] => []
  | o :: ops' => let '(r, s') := step o s in r :: run_backoff step ops' s'
  end.

(** An entry that says what the specification remembers: the lockout of the last
offense, or, when that is over, at least its level. *)
Definition entry_matches (now : Z) (e : option BackoffEntry) (o : option (Z * Z)) : Prop :=
  match e, o with
  | Some e, Some (level, until) =>
      be_offense_count e = level ∧ be_last_lockout_end e = Some until ∧
      (be_locked_until e = Some until ∨ be_locked_until e = None ∧ until <= now)
      ∨ (e = entry_new ∧ counts now o = None)
  | None, _ => counts now o = None
  | Some e, None => e = entry_new
  end.
Definition backoff_sim (now : Z) (s : BackoffStore) (st : Offenses) : Prop :=
  bs_config s = config ∧ ∀ key, entry_matches now (bs_map s !! key) (st !! key).

Lemma counts_later now now' o : now <= now' → counts now o = None → counts now' o = None.
Proof. intros Hn. destruct o as [[level until]|]; [|done]. simpl. destruct (Z.leb_spec (until + bo_offense_cooldown config) now); [|done]. intros _. by rewrite (proj2 (Z.leb_le _ _)) by lia. Qed.

Lemma entry_matches_later now now' e o : now <= now' → entry_matches now e o → entry_matches now' e o.
Proof.
intros Hn. unfold entry_matches. destruct e as [e|]; [|by apply counts_later]. destruct o as [[level until]|]; [|done].
intros [(? & ? & [?|[? ?]])|[? ?]]; [left; auto|left; split_and!; try done; right; split; [done|lia]|right; split; [done|by eapply counts_later]].
Qed.

(** Whether the history of an entry is reset is what the specification says. *)
Lemma entry_matches_reset now e o : entry_matches now (Some e) o →
  if should_reset_offenses now (bo_offense_cooldown config) e then counts now o = None
  else match counts now o with
       | Some (level, until) => be_offense_count e = level ∧ be_last_lockout_end e = Some until ∧
           (be_locked_until e = Some until ∨ be_locked_until e = None ∧ until <= now)
       | None => e = entry_new
       end.
Proof.
unfold entry_matches, should_reset_offenses. destruct o as [[level until]|]; [|by intros ->].
intros [(Hl & He & Hlk)|[-> Hc]]; [|by rewrite Hc]. rewrite He. cbn [counts].
destruct (until + bo_offense_cooldown config <=? now); done.
Qed.

Lemma check_sim key now s st : backoff_sim now s st → bo_durations config ≠ [] →
  (backoff_check key now s).1 = spec_check key now st ∧ backoff_sim now (backoff_check key now s).2 st.
Proof.
intros Hsim Hd. pose proof Hsim as [Hc Hs]. unfold backoff_check. rewrite Hc, bool_decide_eq_false_2 by done. pose proof (Hs key) as Hk. unfold spec_check.
assert (∀ e, entry_matches now (Some e) (st !! key) → backoff_sim now (set_map (<[key := e]> (bs_map s)) s) st) as Hset.
{ intros e He. split; [done|]. intros k. cbn. destruct (decide (key = k)) as [<-|Hne]; [by rewrite lookup_insert_eq|by rewrite lookup_insert_ne]. }
destruct (bs_map s !! key) as [e|] eqn:Hm; [|simpl in Hk; rewrite Hk; by split].
pose proof (entry_matches_reset now e _ Hk) as Hr. destruct (should_reset_offenses _ _ e).
- rewrite Hr. split; [done|]. apply Hset. simpl. destruct (st !! key) as [[level until]|]; [by right|done].
- destruct (counts now (st !! key)) as [[level until]|] eqn:Hcnt; [|subst e; cbn; by split].
  destruct Hr as (Hl & He & [Hlk|[Hlk Hu]]); rewrite Hlk.
  + destruct (Z.ltb_spec now until); [rewrite Hl; by split|]. split; [done|]. apply Hset. simpl.
    destruct (st !! key) as [[l u]|]; [|done]. simpl in Hcnt. destruct (_ <=? now); [done|]. injection Hcnt as -> ->.
    left. cbn. split_and!; [done|done|]. right. split; [done|lia].
  + rewrite (proj2 (Z.ltb_ge _ _)) by done. by split.
Qed.

Lemma prune_sim now s st : backoff_sim now s st → backoff_sim now (backoff_prune now s) st.
Proof.
intros [Hc Hs]. unfold backoff_prune. destruct (_ <=? _); [|by split]. split; [done|]. intros key. cbn [bs_map]. specialize (Hs key).
destruct (filter _ (bs_map s) !! key) as [e|] eqn:Hf; [apply map_lookup_filter_Some in Hf as [Hf _]; by rewrite Hf in Hs|].
apply map_lookup_filter_None in Hf as [Hf|Hf]; [by rewrite Hf in Hs|]. destruct (bs_map s !! key) as [e|] eqn:Hm; [|done].
specialize (Hf e eq_refl). pose proof (entry_matches_reset now e _ Hs) as Hr. rewrite Hc in Hf. cbn in Hf |- *.
destruct (should_reset_offenses _ _ e) eqn:Hres; [done|]. destruct (counts now (st !! key)) as [[level until]|]; [|done].
destruct Hr as (_ & He & _). exfalso. apply Hf. split; [rewrite He; eauto|done].
Qed.

Lemma lockout_sim key now s st : backoff_sim now s st → bo_durations config ≠ [] →
  (record_lockout_at key now s).1 = (spec_lockout key now st).1 ∧ backoff_sim now (record_lockout_at key now s).2 (spec_lockout key now st).2.
Proof.
intros Hsim Hd. pose proof (prune_sim now s st Hsim) as [Hc Hs]. pose proof Hsim as [Hc0 _].
unfold record_lockout_at. rewrite Hc0, bool_decide_eq_false_2 by done. set (s1 := backoff_prune now s) in *. rewrite Hc.
set (e := if should_reset_offenses _ _ _ then entry_new else _).
assert (Z.min (be_offense_count e + 1) u32_max = match counts now (st !! key) with Some (level, _) => Z.min (level + 1) u32_max | None => 1 end) as Hlevel.
{ specialize (Hs key). subst e. destruct (bs_map s1 !! key) as [e0|] eqn:Hm; cbn [default from_option id].
  - pose proof (entry_matches_reset now e0 _ Hs) as Hr. destruct (should_reset_offenses _ _ e0); [by rewrite Hr|].
    destruct (counts now (st !! key)) as [[level until]|]; [by destruct Hr as [-> _]|by subst e0].
  - simpl in Hs. by rewrite Hs. }
clearbody e. rewrite Hlevel. unfold spec_lockout. cbn [fst snd]. split; [done|]. split; [done|]. intros k. cbn [set_map bs_map].
destruct (decide (key = k)) as [<-|Hne]; [rewrite !lookup_insert_eq; left; cbn; auto|]. rewrite !lookup_insert_ne by done. apply Hs.
Qed.

(** C30: The backoff store answers every check and lockout exactly as its specification,
which remembers each key's last lockout for ever: entries swept, reset or unlocked on
the way make no difference. A lockout follows the previous one's level until the
cooldown after its end is over, and lasts the duration of its level. *)
Theorem backoff_refines ops :
  bo_durations config ≠ [] → StronglySorted Z.le (bop_time <$> ops) →
  run_backoff backoff_step ops (backoff_with_config config) = run_backoff spec_step ops ∅.
Proof.
intros Hd Hsort. assert (∀ t, backoff_sim t (backoff_with_config config) ∅) as Hinit.
{ intros t. split; [done|]. intros key. cbn. by rewrite !lookup_empty. }
destruct ops as [|o ops']; [done|].
assert (StronglySorted Z.le (bop_time o :: (bop_time <$> o :: ops'))) as Hsort0.
{ rewrite fmap_cons in *. constructor; [done|]. apply StronglySorted_inv in Hsort as [_ Hall]. constructor; [lia|done]. }
specialize (Hinit (bop_time o)). revert Hsort0 Hinit. generalize (bop_time o) (backoff_with_config config) (∅ : Offenses).
clear Hsort. generalize (o :: ops'). clear o ops'. intros ops.
induction ops as [|o ops IH]; intros now s st Hsort Hsim; [done|].
apply StronglySorted_inv in Hsort as [Hsort Hle]. rewrite fmap_cons in Hsort, Hle. apply Forall_cons in Hle as [Hle _].
assert (backoff_sim (bop_time o) s st) as Hsim' by (destruct Hsim as [? Hs]; split; [done|]; intros k; by eapply entry_matches_later).
assert ((backoff_step o s).1 = (spec_step o st).1 ∧ backoff_sim (bop_time o) (backoff_step o s).2 (spec_step o st).2) as [Hout Hnext].
{ destruct o as [t key|t key|t key]; [by apply check_sim|by apply lockout_sim|].
  split; [done|]. destruct Hsim' as [? Hs]. split; [done|]. intros k. cbn.
  destruct (decide (key = k)) as [<-|Hne]; [by rewrite !lookup_delete_eq|rewrite !lookup_delete_ne by done; apply Hs]. }
cbn [run_backoff]. destruct (backoff_step o s), (spec_step o st). cbn in *. f_equal; [done|]. by eapply IH.
Qed.
End BackoffSpec.

(** ** Evaluations *)

#[local] Instance entry_order : HashOrder IpAddr IpEntry := map_to_list.
#[local] Instance entry_order_laws : HashOrderLaws IpAddr IpEntry.
Proof. intros m. done. Qed.

Definition captcha_config : ChallengeConfig := {| ch_threshold := Some 2; ch_window_secs := 60; ch_ttl_secs := 1800 |}.
Definition client_ip : IpAddr := V4 167772161.
Definition two_failures : list ChallengeOp :=
  [CFailure 0 client_ip; CFailure (from_secs 1) client_ip; CCheck (from_secs 900) client_ip].

Lemma challenge_persists_witness :
  run_challenge two_failures (challenge_with_config captcha_config) !! 1%nat = Some ChallengeRequired ∧
  run_challenge two_failures (challenge_with_config captcha_config) !! 2%nat = Some ChallengeRequired.
Proof.
assert (run_challenge two_failures (challenge_with_config captcha_config) !! 1%nat = Some ChallengeRequired) as H1' by (by vm_compute).
assert (StronglySorted Z.le (op_time ∘ challenge_op <$> two_failures)) as Hsort by (apply (bool_decide_unpack _); by vm_compute).
assert (Forall (λ o, clock_room captcha_config (op_time (challenge_op o))) two_failures) as Ht by (repeat constructor; by vm_compute).
assert (Z.of_nat (size (list_to_set (op_key ∘ challenge_op <$> two_failures) : gset IpAddr)) <= CHALLENGE_CAPACITY) as Hk by (by vm_compute).
split; [exact H1'|].
apply (challenge_persists captcha_config 2 two_failures 1 2 (from_secs 1) (from_secs 900) client_ip client_ip eq_refl Hsort Ht Hk); try done.
- lia.
- intros k o Hk'. lia.
Defined.

(** One more failure, after the counting window of a minute, ends a challenge that was
to last half an hour. *)
Lemma failure_ends_challenge :
  run_challenge (two_failures ++ [CFailure (from_secs 901) client_ip; CCheck (from_secs 902) client_ip])
    (challenge_with_config captcha_config) =
  [ChallengeAllow; ChallengeRequired; ChallengeRequired; ChallengeAllow; ChallengeAllow].
Proof. by vm_compute. Qed.

Definition some_key : Str := lit "203.0.113.9".
Definition lockouts : list BackoffOp :=
  [BLockout 0 some_key; BCheck (from_secs 30) some_key; BLockout (from_secs 100) some_key; BCheck (from_secs 401) some_key;
   BLockout (from_secs 800000) some_key].

Lemma backoff_refines_witness :
  run_backoff backoff_step lockouts (backoff_with_config default_backoff) = run_backoff (spec_step default_backoff) lockouts ∅ ∧
  run_backoff (spec_step default_backoff) lockouts ∅ =
    [Locked (from_secs 60) 1; Locked (from_secs 60) 1; Locked (from_secs 400) 2; BackoffAllow; Locked (from_secs 800060) 1].
Proof.
assert (StronglySorted Z.le (bop_time <$> lockouts)) as Hsort by (apply (bool_decide_unpack _); by vm_compute).
split; [|by vm_compute]. exact (backoff_refines default_backoff lockouts ltac:(done) Hsort).
Defined.

(** Once the cooldown is over the next lockout is the shortest one; the duration shown
for it is still that of the next level. *)
Lemma peek_ignores_cooldown :
  let s := (record_lockout_at some_key 0 (backoff_with_config default_backoff)).2 in
  peek_next_duration some_key s = from_secs 300 ∧
  (record_lockout_at some_key (from_secs 800000) s).1 = Locked (from_secs 800060) 1.
Proof. by vm_compute. Qed.
