(* ===== verification/RaftState.v ===== *)
(** * The replicated state machine

The commands a cluster replicates ([cluster/types.rs]) and the Raft state machine that
applies them to a node's storage engine ([cluster/state_machine.rs]): every command, the
counter sidecars, the persisted applied state, snapshot build and in-place install. A
storage call can fail, with or without its effect, so a crash at any write is a fault. *)
From stdpp Require Import base list gmap strings pretty.
From Stdlib Require Import Strings.Byte ZArith Lia.
From S2P Require Import Prelude OrdMap StorageTypes OrdSet RealmRows.

Open Scope Z_scope.

(** ** Log entries *)

(** [LogId] of openraft: the leader's term and node, then the index; its derived order
is lexicographic. *)
Record LogId := MkLogId { li_term : Z; li_node : Z; li_index : Z }.
#[export] Instance LogId_eq_dec : EqDecision LogId.
Proof. solve_decision. Defined.

Definition log_id_ltb (a b : LogId) : bool :=
  (li_term a <? li_term b) ||
  ((li_term a =? li_term b) &&
   ((li_node a <? li_node b) || ((li_node a =? li_node b) && (li_index a <? li_index b)))).

(** [Option<LogId>]: [None] is below every [Some]. *)
Definition opt_log_id_ltb (a b : option LogId) : bool :=
  match a, b with
  | _, None => false
  | None, Some _ => true
  | Some a, Some b => log_id_ltb a b
  end.
(** [Ord::max]. *)
Definition opt_log_id_max (a b : option LogId) : option LogId := if opt_log_id_ltb b a then a else b.

Abbreviation Row := (list byte * list byte)%type.

(** [RaftCommand]; each variant carries the leader's clock. *)
Inductive RaftCommand :=
| CPut (leader_timestamp : Z) (realm : RealmId) (key value : list byte)
| CDelete (leader_timestamp : Z) (realm : RealmId) (key : list byte)
| CBatch (leader_timestamp : Z) (realm : RealmId) (entries : list Row)
| CWriteBatch (leader_timestamp : Z) (realm : RealmId) (puts : list Row) (deletes : list (list byte))
| CPutIfAbsent (leader_timestamp : Z) (realm : RealmId) (key value : list byte)
| CIncrementU64 (leader_timestamp : Z) (realm : RealmId) (key : list byte).

(** [EntryPayload] and [Entry], over the membership type of openraft. *)
Inductive EntryPayload (M : Type) :=
| Blank
| Normal (cmd : RaftCommand)
| Membership (m : M).
Arguments Blank {M}.
Arguments Normal {M} cmd.
Arguments Membership {M} m.
Record Entry (M : Type) := MkEntry { en_log_id : LogId; en_payload : EntryPayload M }.
Arguments MkEntry {M} _ _.
Arguments en_log_id {M} _.
Arguments en_payload {M} _.

(** [StoredMembership]: the entry that set it, and the configuration. *)
Record StoredMembership (M : Type) := MkMembership { st_log_id : option LogId; st_members : M }.
Arguments MkMembership {M} _ _.
Arguments st_log_id {M} _.
Arguments st_members {M} _.

Record HearthLogResponse := MkResponse { rs_success : bool; rs_payload : list byte }.
Definition default_response : HearthLogResponse := MkResponse true [].

(** What the code takes from other crates: the JSON of log ids and memberships, the
default membership, and the CBOR and gzip encoding of a snapshot. *)
Record RealmData := MkRealmData { rd_realm : RealmId; rd_entries : list Row }.
Record SnapshotPayload := MkPayload { sp_realms : list RealmData }.

Class RaftCodec (M : Type) := {
  ser_log_id : LogId → list byte;
  de_log_id : list byte → option LogId;
  ser_membership : StoredMembership M → list byte;
  de_membership : list byte → option (StoredMembership M);
  no_members : M;
  compress_payload : SnapshotPayload → list byte;
  decompress_payload : list byte → option SnapshotPayload
}.
Class RaftCodecLaws (M : Type) `{!RaftCodec M} := {
  de_ser_log_id i : de_log_id (ser_log_id i) = Some i;
  de_ser_membership m : de_membership (ser_membership m) = Some m;
  decompress_compress p : decompress_payload (compress_payload p) = Some p
}.

(** ** The storage engine below *)

(** The live rows of every realm. *)
Abbreviation Rows := (gmap RealmId Store).
Definition rows_of (rs : Rows) (realm : RealmId) : Store := default ∅ (rs !! realm).

(** [list_realms] of the node's engine: any list that has every realm with a live row;
it may have realms of deleted rows only. *)
Class RealmList := list_realms : Rows → list RealmId.
Class RealmListLaws `{!RealmList} := realm_listed rs realm k v :
  rows_of rs realm !! k = Some v → realm ∈ list_realms rs.

(** How a storage call ends: it works, fails without effect, or fails with its effect. *)
Inductive Fault := Works | FailsClean | FailsDone.

(** [io_read_err], [to_read_err] and [io_write_err], [to_write_err]. *)
Inductive SmError := ReadErr | WriteErr.

(** The data directory: rows, the marker file of a restore in progress, and how the
next storage calls end. *)
Record Disk := MkDisk { dk_rows : Rows; dk_restoring : option (list byte); dk_faults : list Fault }.

Definition disk (A : Type) : Type := Disk → outcome SmError A * Disk.
#[export] Instance disk_ret : MRet disk := λ A a d, (Ok a, d).
#[export] Instance disk_bind : MBind disk := λ A B f m d,
  match m d with
  | (Ok a, d') => f a d'
  | (Err e, d') => (Err e, d')
  | (Panic, d') => (Panic, d')
  end.

Definition next_fault (d : Disk) : Fault * Disk :=
  match dk_faults d with
  | [] => (Works, d)
  | f :: fs => (f, MkDisk (dk_rows d) (dk_restoring d) fs)
  end.
Definition reading {A} (e : SmError) (f : Rows → A) : disk A := λ d,
  match next_fault d with
  | (Works, d') => (Ok (f (dk_rows d')), d')
  | (_, d') => (Err e, d')
  end.
Definition writing (e : SmError) (f : Disk → Disk) : disk unit := λ d,
  match next_fault d with
  | (Works, d') => (Ok tt, f d')
  | (FailsClean, d') => (Err e, d')
  | (FailsDone, d') => (Err e, f d')
  end.

(** A row that does not decode is a read error. *)
Definition decoded {A} (o : option A) : disk A := λ d, (match o with Some a => Ok a | None => Err ReadErr end, d).

Definition put_rows (realm : RealmId) (puts : list Row) (deletes : list (list byte)) (rs : Rows) : Rows :=
  <[realm := delete_all deletes (put_all puts (rows_of rs realm))]> rs.
Definition on_rows (f : Rows → Rows) (d : Disk) : Disk := MkDisk (f (dk_rows d)) (dk_restoring d) (dk_faults d).

Definition engine_get (e : SmError) (realm : RealmId) (k : list byte) : disk (option (list byte)) :=
  reading e (λ rs, rows_of rs realm !! k).
Definition engine_scan (e : SmError) (realm : RealmId) (start end_ : list byte) : disk (list ScanEntry) :=
  reading e (λ rs, scan start end_ (rows_of rs realm)).
Definition engine_write_batch (e : SmError) (realm : RealmId) (puts : list Row) (deletes : list (list byte)) : disk unit :=
  writing e (on_rows (put_rows realm puts deletes)).
Definition engine_put_batch (e : SmError) (realm : RealmId) (puts : list Row) : disk unit :=
  writing e (on_rows (put_rows realm puts [])).
Definition begin_snapshot_restore (id : list byte) : disk unit :=
  writing WriteErr (λ d, MkDisk (dk_rows d) (Some id) (dk_faults d)).
Definition complete_snapshot_restore : disk unit :=
  writing WriteErr (λ d, MkDisk (dk_rows d) None (dk_faults d)).

Fixpoint disk_each {A} (l : list A) (f : A → disk unit) : disk unit :=
  match l with
  | [] => mret ()
  | a :: l' => _ ← f a; disk_each l' f
  end.

(** ** Keys *)

Definition bytes_of (s : string) : list byte := String.list_byte_of_string s.
Definition SM_APPLIED_KEY : list byte := x00 :: bytes_of "raft:sm:applied".
Definition SM_MEMBERSHIP_KEY : list byte := x00 :: bytes_of "raft:sm:membership".
Definition APPLIED_INDEX_SUFFIX : list byte := x00 :: bytes_of "raft:applied-index".
Definition meta_realm : RealmId := replicate 16 x00.
Definition is_state_machine_meta_key (k : list byte) : bool :=
  bool_decide (k = SM_APPLIED_KEY) || bool_decide (k = SM_MEMBERSHIP_KEY).
Definition applied_index_key (k : list byte) : list byte := k ++ APPLIED_INDEX_SUFFIX.
(** [ends_with]. *)
Definition ends_with (suffix k : list byte) : bool :=
  bool_decide (drop (length k - length suffix) k = suffix).
(** The end of the scans over a realm: 256 bytes of 0xFF. *)
Definition SCAN_END : list byte := replicate 256 xff.

(** ** Commands *)

(** The sidecar rows an entry that writes [keys] moves to its index. *)
Fixpoint moved_sidecars (realm : RealmId) (keys : list (list byte)) (log_index : Z) : disk (list Row) :=
  match keys with
  | [] => mret []
  | k :: keys' =>
      if ends_with APPLIED_INDEX_SUFFIX k || is_state_machine_meta_key k
      then moved_sidecars realm keys' log_index
      else
        s ← engine_get WriteErr realm (applied_index_key k);
        rest ← moved_sidecars realm keys' log_index;
        mret (match s with Some _ => (applied_index_key k, encode_u64 log_index) :: rest | None => rest end)
  end.

Inductive Increment := Applied (n : Z) | Replayed (n : Z) | Repaired (value : Z) (reason : StorageError).

Definition increment_once (realm : RealmId) (key : list byte) (log_index : Z) (applied_row : list byte) : disk Increment :=
  c ← engine_get WriteErr realm key;
  l ← engine_get WriteErr realm (applied_index_key key);
  let applied := (SM_APPLIED_KEY, applied_row) in
  let repair e :=
    _ ← engine_write_batch WriteErr realm
          [(key, encode_u64 log_index); (applied_index_key key, encode_u64 log_index); applied] [];
    mret (Repaired log_index e) in
  match decode_u64_counter c, decode_u64_counter l with
  | Ok current, Ok last_index =>
      if log_index <=? last_index
      then _ ← engine_write_batch WriteErr realm [applied] []; mret (Replayed current)
      else
        let next := sat_add_u64 current 1 in
        _ ← engine_write_batch WriteErr realm
              [(key, encode_u64 next); (applied_index_key key, encode_u64 log_index); applied] [];
        mret (Applied next)
  | Err e, _ | _, Err e => repair e
  | Panic, _ | _, Panic => λ d, (Panic, d)
  end.

(** What the node-local observer is told. *)
Inductive Observed :=
| OnPut (realm : RealmId) (key value : list byte)
| OnDelete (realm : RealmId) (key : list byte)
| OnReset.

Definition apply_put_if_absent (log_index : Z) (applied_row : list byte) (realm : RealmId) (key value : list byte) :
    disk (HearthLogResponse * list Observed) :=
  v ← engine_get WriteErr realm key;
  let absent := bool_decide (v = None) in
  rows ← (if absent
          then moved ← moved_sidecars realm [key] log_index; mret (moved ++ [(key, value)])
          else mret []);
  _ ← engine_write_batch WriteErr realm (rows ++ [(SM_APPLIED_KEY, applied_row)]) [];
  mret (MkResponse absent [], if absent then [OnPut realm key value] else []).

Definition apply_increment (log_index : Z) (applied_row : list byte) (realm : RealmId) (key : list byte) :
    disk (HearthLogResponse * list Observed) :=
  outcome ← increment_once realm key log_index applied_row;
  mret (match outcome with
        | Repaired n _ | Applied n => (MkResponse true (encode_u64 n), [OnPut realm key (encode_u64 n)])
        | Replayed n => (MkResponse true (encode_u64 n), [])
        end).

Definition apply_command (log_index : Z) (applied_row : list byte) (cmd : RaftCommand) :
    disk (HearthLogResponse * list Observed) :=
  let plain realm puts deletes :=
    moved ← moved_sidecars realm (puts.*1 ++ deletes) log_index;
    _ ← engine_write_batch WriteErr realm (puts ++ moved ++ [(SM_APPLIED_KEY, applied_row)]) deletes;
    mret (default_response, ((λ kv, OnPut realm kv.1 kv.2) <$> puts) ++ (OnDelete realm <$> deletes)) in
  match cmd with
  | CPut _ realm key value => plain realm [(key, value)] []
  | CDelete _ realm key => plain realm [] [key]
  | CBatch _ realm entries => plain realm entries []
  | CWriteBatch _ realm puts deletes => plain realm puts deletes
  | CPutIfAbsent _ realm key value => apply_put_if_absent log_index applied_row realm key value
  | CIncrementU64 _ realm key => apply_increment log_index applied_row realm key
  end.

Definition write_meta_rows (rows : list Row) : disk unit := engine_write_batch WriteErr meta_realm rows [].

(** ** The state machine *)

Record SnapshotMeta (M : Type) := MkMeta {
  mt_last_log_id : option LogId; mt_last_membership : StoredMembership M; mt_snapshot_id : list byte }.
Arguments MkMeta {M} _ _ _.
Arguments mt_last_log_id {M} _.
Arguments mt_last_membership {M} _.
Arguments mt_snapshot_id {M} _.
Record StoredSnapshot (M : Type) := MkSnapshot { ss_meta : SnapshotMeta M; ss_data : list byte }.
Arguments MkSnapshot {M} _ _.
Arguments ss_meta {M} _.
Arguments ss_data {M} _.

(** [HearthStateMachine]: the disk it shares with the server, the applied state held in
memory, the snapshot slot, and whether an observer is set and what it was told. *)
Record Machine (M : Type) := MkMachine {
  sm_disk : Disk;
  sm_last_applied : option LogId;
  sm_last_membership : StoredMembership M;
  sm_current : option (StoredSnapshot M);
  sm_observer : bool;
  sm_observed : list Observed
}.
Arguments MkMachine {M} _ _ _ _ _ _.
Arguments sm_disk {M} _.
Arguments sm_last_applied {M} _.
Arguments sm_last_membership {M} _.
Arguments sm_current {M} _.
Arguments sm_observer {M} _.
Arguments sm_observed {M} _.

Definition snapshot_slot_offer {M} (slot : option (StoredSnapshot M)) (snap : StoredSnapshot M) :
    option (StoredSnapshot M) :=
  match slot with
  | None => Some snap
  | Some cur =>
      if opt_log_id_ltb (mt_last_log_id (ss_meta snap)) (mt_last_log_id (ss_meta cur)) then slot else Some snap
  end.

Section machine.
Context {M : Type} `{!RaftCodec M, !RealmList}.

Definition no_membership : StoredMembership M := MkMembership None no_members.

(** [load_applied_state]: the greatest applied row of any realm, and the membership. *)
Fixpoint greatest_applied (realms : list RealmId) (last : option LogId) : disk (option LogId) :=
  match realms with
  | [] => mret last
  | r :: realms' =>
      b ← engine_get ReadErr r SM_APPLIED_KEY;
      match b with
      | None => greatest_applied realms' last
      | Some bytes => i ← decoded (de_log_id bytes); greatest_applied realms' (opt_log_id_max last (Some i))
      end
  end.
Definition load_applied_state : disk (option LogId * StoredMembership M) :=
  realms ← reading ReadErr list_realms;
  last ← greatest_applied realms None;
  b ← engine_get ReadErr meta_realm SM_MEMBERSHIP_KEY;
  members ← match b with
            | None => mret no_membership
            | Some bytes => decoded (de_membership bytes)
            end;
  mret (last, members).

(** [HearthStateMachine::with_observer_slot]. *)
Definition with_observer_slot (observer : bool) (d : Disk) : outcome SmError (Machine M) * Disk :=
  match load_applied_state d with
  | (Ok (last, members), d') => (Ok (MkMachine d' last members None observer []), d')
  | (Err e, d') => (Err e, d')
  | (Panic, d') => (Panic, d')
  end.

(** The opening of the data directory, which refuses a torn restore, and then of the
state machine. *)
Definition reopen (observer : bool) (d : Disk) : outcome StorageError (outcome SmError (Machine M)) * Disk :=
  match dk_restoring d with
  | Some id => (Err (TornSnapshotRestore id), d)
  | None => let '(o, d') := with_observer_slot observer d in (Ok o, d')
  end.

(** The effect of one entry on the disk, with its response and what is observed. *)
Definition entry_effect (e : Entry M) : disk (HearthLogResponse * list Observed) :=
  let applied_row := ser_log_id (en_log_id e) in
  match en_payload e with
  | Blank => _ ← write_meta_rows [(SM_APPLIED_KEY, applied_row)]; mret (default_response, [])
  | Normal cmd => apply_command (li_index (en_log_id e)) applied_row cmd
  | Membership m =>
      _ ← write_meta_rows [(SM_APPLIED_KEY, applied_row);
                           (SM_MEMBERSHIP_KEY, ser_membership (MkMembership (Some (en_log_id e)) m))];
      mret (default_response, [])
  end.

(** One turn of the loop of [apply]. *)
Definition apply_entry (e : Entry M) (s : Machine M) : outcome SmError HearthLogResponse * Machine M :=
  match entry_effect e (sm_disk s) with
  | (Ok (response, seen), d) =>
      let members := match en_payload e with
                     | Membership m => MkMembership (Some (en_log_id e)) m
                     | _ => sm_last_membership s
                     end in
      (Ok response,
       MkMachine d (Some (en_log_id e)) members (sm_current s) (sm_observer s)
         (sm_observed s ++ if sm_observer s then seen else []))
  | (Err err, d) =>
      (Err err, MkMachine d (sm_last_applied s) (sm_last_membership s) (sm_current s) (sm_observer s) (sm_observed s))
  | (Panic, d) =>
      (Panic, MkMachine d (sm_last_applied s) (sm_last_membership s) (sm_current s) (sm_observer s) (sm_observed s))
  end.

(** [apply]. *)
Fixpoint apply_entries (es : list (Entry M)) (s : Machine M) : outcome SmError (list HearthLogResponse) * Machine M :=
  match es with
  | [] => (Ok [], s)
  | e :: es' =>
      match apply_entry e s with
      | (Ok r, s') =>
          match apply_entries es' s' with
          | (Ok rs, s'') => (Ok (r :: rs), s'')
          | (Err err, s'') => (Err err, s'')
          | (Panic, s'') => (Panic, s'')
          end
      | (Err err, s') => (Err err, s')
      | (Panic, s') => (Panic, s')
      end
  end.

(** ** Snapshots *)

(** [get_snapshot_builder]: what the builder captures. *)
Record Builder := MkBuilder { bd_last_applied : option LogId; bd_last_membership : StoredMembership M }.
Definition get_snapshot_builder (s : Machine M) : Builder := MkBuilder (sm_last_applied s) (sm_last_membership s).

(** The rows of one realm that go into a snapshot, as its scan saw them. *)
Definition realm_entries (seen : Store) : list Row :=
  (λ e, (se_key e, se_value e)) <$>
    filter (λ e, is_state_machine_meta_key (se_key e) = false) (scan [] SCAN_END seen).

(** The payload, from what [list_realms] and then each scan saw while entries kept
being applied. *)
Definition build_payload (realms : list RealmId) (seen : RealmId → Store) : SnapshotPayload :=
  MkPayload (omap (λ r, match realm_entries (seen r) with [] => None | es => Some (MkRealmData r es) end) realms).

Definition snapshot_id (b : Builder) (uuid : list byte) : list byte :=
  bytes_of "snap-" ++ bytes_of (show (match bd_last_applied b with Some i => li_index i | None => 0 end)) ++ bytes_of "-" ++ uuid.

(** [build_snapshot], where every call works: the snapshot, offered to the slot. *)
Definition build_snapshot (b : Builder) (uuid : list byte) (realms : list RealmId) (seen : RealmId → Store)
    (slot : option (StoredSnapshot M)) : StoredSnapshot M * option (StoredSnapshot M) :=
  let snap := MkSnapshot (MkMeta (bd_last_applied b) (bd_last_membership b) (snapshot_id b uuid))
                (compress_payload (build_payload realms seen)) in
  (snap, snapshot_slot_offer slot snap).

(** Phase 1 for one realm: delete every live key. *)
Definition clear_realm (r : RealmId) : disk unit :=
  es ← engine_scan WriteErr r [] SCAN_END;
  match es with
  | [] => mret ()
  | _ => engine_write_batch WriteErr r [] (se_key <$> es)
  end.

Definition restore_snapshot_in_place (p : SnapshotPayload) (id : list byte) (meta_rows : list Row) : disk unit :=
  _ ← begin_snapshot_restore id;
  on_disk ← reading WriteErr list_realms;
  _ ← disk_each on_disk clear_realm;
  _ ← disk_each (sp_realms p) (λ d, engine_put_batch WriteErr (rd_realm d) (rd_entries d));
  _ ← engine_write_batch WriteErr meta_realm meta_rows [];
  complete_snapshot_restore.

Definition install_meta_rows (meta : SnapshotMeta M) : list Row :=
  (SM_MEMBERSHIP_KEY, ser_membership (mt_last_membership meta)) ::
  match mt_last_log_id meta with Some i => [(SM_APPLIED_KEY, ser_log_id i)] | None => [] end.

Definition install_snapshot (snap : StoredSnapshot M) (s : Machine M) : outcome SmError unit * Machine M :=
  let failed d := MkMachine d (sm_last_applied s) (sm_last_membership s) (sm_current s) (sm_observer s) (sm_observed s) in
  let meta := ss_meta snap in
  match decompress_payload (ss_data snap) with
  | None => (Err ReadErr, failed (sm_disk s))
  | Some p =>
      match restore_snapshot_in_place p (mt_snapshot_id meta) (install_meta_rows meta) (sm_disk s) with
      | (Ok _, d) =>
          (Ok tt, MkMachine d (mt_last_log_id meta) (mt_last_membership meta)
                    (snapshot_slot_offer (sm_current s) snap) (sm_observer s)
                    (sm_observed s ++ if sm_observer s then [OnReset] else []))
      | (Err e, d) => (Err e, failed d)
      | (Panic, d) => (Panic, failed d)
      end
  end.
End machine.
Arguments Builder M : clear implicits.
