(* ===== verification/RaftReplay.v ===== *)
(** * Entries as functions on rows

What an entry does to a node's rows, as pure functions that the state machine's code
refines under every fault ([entry_effect_spec]), and its view on one client key: a cell
of the key's row and its sidecar ([entry_cell]). Applying any stretch of the log twice
to a cell is applying it once ([run_cell_twice]). *)
From stdpp Require Import base list gmap strings sorting.
From Stdlib Require Import Strings.Byte ZArith Lia.
From S2P Require Import Prelude OrdMap StorageTypes OrdSet RealmRows RaftState.

Open Scope Z_scope.

(** What holds of the rows and of the restore marker. *)
Abbreviation disk_prop := (gmap RealmId Store → option (list byte) → Prop).
Implicit Types (rs : Rows) (mark : option (list byte)) (realm : RealmId) (X : disk_prop)
  (key value k v row : list byte) (deletes keys : list (list byte)) (puts : list Row) (log_index : Z) (c l : option (list byte))
  (cmd : RaftCommand).

(** ** Actions on the disk under faults *)

(** Whatever the storage calls do: a result satisfies [Q], an error happens only with a
fault and leaves [X], and nothing panics. *)
Definition tri {A} (m : disk A) (rs : Rows) (mark : option (list byte))
    (Q : A → disk_prop) (X : disk_prop) : Prop :=
  ∀ fs, match m (MkDisk rs mark fs) with
        | (Ok a, d) => Q a (dk_rows d) (dk_restoring d) ∧ (fs = [] → dk_faults d = [])
        | (Err _, d) => X (dk_rows d) (dk_restoring d) ∧ fs ≠ []
        | (Panic, _) => False
        end.

Lemma tri_ret {A} (a : A) rs mark (Q : A → disk_prop) X : Q a rs mark → tri (mret a) rs mark Q X.
Proof. by intros HQ fs. Qed.

Lemma tri_bind {A B} (m : disk A) (f : A → disk B) rs mark (Q : B → disk_prop) X :
  tri m rs mark (λ a rs' mark', tri (f a) rs' mark' Q X) X → tri (m ≫= f) rs mark Q X.
Proof.
intros Hm fs. specialize (Hm fs). unfold mbind, disk_bind. destruct (m _) as [[a|e|] [rs' mark' fs']]; [|done..].
cbn in Hm. destruct Hm as [Hf Hfs]. specialize (Hf fs'). destruct (f a _) as [[b|e|] d]; [| |done].
- destruct Hf as [? Hd]. split; [done|]. auto.
- destruct Hf as [? Hd]. split; [done|]. intros ->. by apply Hd, Hfs.
Qed.

Lemma tri_assoc {A B C} (m : disk A) (f : A → disk B) (g : B → disk C) rs mark (Q : C → disk_prop) X :
  tri ((m ≫= f) ≫= g) rs mark Q X → tri (m ≫= λ a, f a ≫= g) rs mark Q X.
Proof.
intros Hm fs. specialize (Hm fs). unfold mbind, disk_bind in *. destruct (m _) as [[a|e|] d]; done.
Qed.

Lemma tri_mono {A} (m : disk A) rs mark (Q Q' : A → disk_prop) (X X' : disk_prop) :
  tri m rs mark Q X → (∀ a rs' mark', Q a rs' mark' → Q' a rs' mark') → (∀ rs' mark', X rs' mark' → X' rs' mark') → tri m rs mark Q' X'.
Proof.
intros Hm HQ HX fs. specialize (Hm fs). destruct (m _) as [[a|e|] d]; [| |done]; destruct Hm; split; eauto.
Qed.

Lemma tri_read {A} (e : SmError) (f : Rows → A) rs mark (Q : A → disk_prop) X :
  Q (f rs) rs mark → X rs mark → tri (reading e f) rs mark Q X.
Proof. intros HQ HX fs. unfold reading, next_fault. by destruct fs as [|[] fs]. Qed.

Lemma tri_write (e : SmError) (f : Disk → Disk) rs mark (Q : unit → disk_prop) X rs' mark' :
  (∀ fs, f (MkDisk rs mark fs) = MkDisk rs' mark' fs) → Q tt rs' mark' → X rs mark → X rs' mark' → tri (writing e f) rs mark Q X.
Proof. intros Hf HQ HX HX' fs. unfold writing, next_fault. destruct fs as [|[] fs]; cbn [dk_faults dk_rows dk_restoring]; by rewrite ?Hf. Qed.

Lemma tri_batch (e : SmError) realm puts deletes rs mark (Q : unit → disk_prop) X :
  Q tt (put_rows realm puts deletes rs) mark → X rs mark → X (put_rows realm puts deletes rs) mark →
  tri (engine_write_batch e realm puts deletes) rs mark Q X.
Proof. intros. by apply (tri_write _ _ _ _ _ _ (put_rows realm puts deletes rs) mark). Qed.

(** ** Entries on rows *)

Fixpoint moved_rows (s : Store) (keys : list (list byte)) (log_index : Z) : list Row :=
  match keys with
  | [] => []
  | k :: keys' =>
      if ends_with APPLIED_INDEX_SUFFIX k || is_state_machine_meta_key k then moved_rows s keys' log_index
      else match s !! applied_index_key k with
           | Some _ => (applied_index_key k, encode_u64 log_index) :: moved_rows s keys' log_index
           | None => moved_rows s keys' log_index
           end
  end.

Definition cmd_realm (cmd : RaftCommand) : RealmId :=
  match cmd with
  | CPut _ r _ _ | CDelete _ r _ | CBatch _ r _ | CWriteBatch _ r _ _ | CPutIfAbsent _ r _ _ | CIncrementU64 _ r _ => r
  end.

(** The counter after an increment at [log_index], or [None] when the entry had run. *)
Definition counted (log_index : Z) (c l : option (list byte)) : option Z :=
  match decode_u64_counter c, decode_u64_counter l with
  | Ok current, Ok last_index => if log_index <=? last_index then None else Some (sat_add_u64 current 1)
  | _, _ => Some log_index
  end.

(** The rows a command writes, less the applied row, and those it deletes. *)
Definition cmd_writes (log_index : Z) (cmd : RaftCommand) (s : Store) : list Row * list (list byte) :=
  let plain puts deletes := (puts ++ moved_rows s (puts.*1 ++ deletes) log_index, deletes) in
  match cmd with
  | CPut _ _ k v => plain [(k, v)] []
  | CDelete _ _ k => plain [] [k]
  | CBatch _ _ es => plain es []
  | CWriteBatch _ _ puts deletes => plain puts deletes
  | CPutIfAbsent _ _ k v =>
      (match s !! k with Some _ => [] | None => moved_rows s [k] log_index ++ [(k, v)] end, [])
  | CIncrementU64 _ _ k =>
      (match counted log_index (s !! k) (s !! applied_index_key k) with
       | Some n => [(k, encode_u64 n); (applied_index_key k, encode_u64 log_index)]
       | None => []
       end, [])
  end.

Definition cmd_response (log_index : Z) (cmd : RaftCommand) (s : Store) : HearthLogResponse :=
  match cmd with
  | CPutIfAbsent _ _ k _ => MkResponse (bool_decide (s !! k = None)) []
  | CIncrementU64 _ _ k =>
      MkResponse true (encode_u64 (default (match decode_u64_counter (s !! k) with Ok n => n | _ => 0 end)
                                     (counted log_index (s !! k) (s !! applied_index_key k))))
  | _ => default_response
  end.

Section entries.
Context {M : Type} `{!RaftCodec M}.

Definition applied_row (e : Entry M) : Row := (SM_APPLIED_KEY, ser_log_id (en_log_id e)).
Definition entry_rows (e : Entry M) (rs : Rows) : Rows :=
  match en_payload e with
  | Blank => put_rows meta_realm [applied_row e] [] rs
  | Normal cmd =>
      let '(puts, deletes) := cmd_writes (li_index (en_log_id e)) cmd (rows_of rs (cmd_realm cmd)) in
      put_rows (cmd_realm cmd) (puts ++ [applied_row e]) deletes rs
  | Membership m =>
      put_rows meta_realm [applied_row e; (SM_MEMBERSHIP_KEY, ser_membership (MkMembership (Some (en_log_id e)) m))] [] rs
  end.
Definition entry_response (e : Entry M) (rs : Rows) : HearthLogResponse :=
  match en_payload e with
  | Normal cmd => cmd_response (li_index (en_log_id e)) cmd (rows_of rs (cmd_realm cmd))
  | _ => default_response
  end.

Lemma moved_sidecars_spec realm keys log_index rs mark :
  tri (moved_sidecars realm keys log_index) rs mark
    (λ rows rs' mark', rows = moved_rows (rows_of rs realm) keys log_index ∧ rs' = rs ∧ mark' = mark)
    (λ rs' mark', rs' = rs ∧ mark' = mark).
Proof.
induction keys as [|k keys IH]; cbn [moved_sidecars moved_rows]; [by apply tri_ret|].
destruct (_ || _); [done|]. apply tri_bind, tri_read; [|done]. apply tri_bind. eapply tri_mono; [exact IH| |done].
intros rows rs' mark' (-> & -> & ->). apply tri_ret. by destruct (_ !! _).
Qed.

(** The code of a command does what the functions say, or fails with a fault, with the
whole effect or none of it. *)
Definition commits (m : disk (HearthLogResponse * list Observed)) (rs : Rows) mark (r : HearthLogResponse) (rs' : Rows) : Prop :=
  tri m rs mark (λ a rs'' mark', a.1 = r ∧ rs'' = rs' ∧ mark' = mark) (λ rs'' mark', (rs'' = rs ∨ rs'' = rs') ∧ mark' = mark).

Lemma plain_commits realm puts deletes log_index (row : Row) rs mark (o : list Observed) :
  commits (moved ← moved_sidecars realm (puts.*1 ++ deletes) log_index;
           _ ← engine_write_batch WriteErr realm (puts ++ moved ++ [row]) deletes;
           mret (default_response, o)) rs mark default_response
    (put_rows realm ((puts ++ moved_rows (rows_of rs realm) (puts.*1 ++ deletes) log_index) ++ [row]) deletes rs).
Proof.
apply tri_bind. eapply tri_mono; [apply moved_sidecars_spec| |by intros ? ? [-> ->]; eauto].
intros moved rs' mark' (-> & -> & ->). rewrite <-app_assoc. apply tri_bind, tri_batch; [by apply tri_ret|by eauto..].
Qed.

Lemma pia_commits log_index row realm key value rs mark :
  let '(puts, deletes) := cmd_writes log_index (CPutIfAbsent 0 realm key value) (rows_of rs realm) in
  commits (apply_put_if_absent log_index row realm key value) rs mark
    (cmd_response log_index (CPutIfAbsent 0 realm key value) (rows_of rs realm))
    (put_rows realm (puts ++ [(SM_APPLIED_KEY, row)]) deletes rs).
Proof.
cbn [cmd_writes cmd_response]. apply tri_bind, tri_read; [|by eauto].
destruct (rows_of rs realm !! key) as [v|] eqn:Hk.
- rewrite bool_decide_eq_false_2 by done. apply tri_bind, tri_ret, tri_bind, tri_batch; [by apply tri_ret|by eauto..].
- rewrite bool_decide_eq_true_2 by done. apply tri_bind, tri_bind. eapply tri_mono; [apply moved_sidecars_spec| |by intros ? ? [-> ->]; eauto].
  intros moved rs' mark' (-> & -> & ->). apply tri_ret, tri_bind, tri_batch; [by apply tri_ret|by eauto..].
Qed.

Lemma increment_commits log_index row realm key rs mark :
  let '(puts, deletes) := cmd_writes log_index (CIncrementU64 0 realm key) (rows_of rs realm) in
  commits (apply_increment log_index row realm key) rs mark
    (cmd_response log_index (CIncrementU64 0 realm key) (rows_of rs realm))
    (put_rows realm (puts ++ [(SM_APPLIED_KEY, row)]) deletes rs).
Proof.
cbn [cmd_writes cmd_response]. apply tri_bind, tri_bind, tri_read; [|by eauto]. apply tri_bind, tri_read; [|by eauto].
unfold counted.
assert (∀ o, decode_u64_counter o ≠ Panic) as Hnp by (intros [bs|]; cbn; [by case_match|done]).
pose proof (Hnp (rows_of rs realm !! key)) as H1. pose proof (Hnp (rows_of rs realm !! applied_index_key key)) as H2.
destruct (decode_u64_counter (rows_of rs realm !! key)) as [c|e|]; [|destruct (decode_u64_counter (_ !! applied_index_key key)) as [l|e'|]|done];
  [destruct (decode_u64_counter (_ !! applied_index_key key)) as [l|e'|]| | |]; try done; [destruct (_ <=? _)|..];
  apply tri_bind, tri_batch; try (by eauto); apply tri_ret, tri_ret; done.
Qed.

(** [entry_effect] refines [entry_rows] and [entry_response]. *)
Lemma entry_effect_spec e rs mark : commits (entry_effect e) rs mark (entry_response e rs) (entry_rows e rs).
Proof.
unfold entry_effect, entry_response, entry_rows, applied_row. destruct (en_payload e) as [|cmd|m].
- apply tri_bind, tri_batch; [by apply tri_ret|by eauto..].
- destruct cmd; cbn [apply_command cmd_realm].
  + apply (plain_commits _ [(key, value)] []).
  + apply (plain_commits _ [] [key]).
  + apply (plain_commits _ entries []).
  + apply (plain_commits _ puts deletes).
  + apply pia_commits.
  + apply increment_commits.
- apply tri_bind, tri_batch; [by apply tri_ret|by eauto..].
Qed.
End entries.

(** ** One client key *)

(** The keys the program writes: none is a sidecar, an applied-state row or past the
window of the snapshot scans. *)
Definition client_key (k : list byte) : bool :=
  negb (ends_with APPLIED_INDEX_SUFFIX k) && negb (is_state_machine_meta_key k) &&
  ord_lt k SCAN_END && ord_lt (applied_index_key k) SCAN_END.

(** The row of a key and its sidecar. *)
Abbreviation cell := (option (list byte) * option (list byte))%type.
Definition cell_of (rs : Rows) (realm : RealmId) (k : list byte) : cell :=
  (rows_of rs realm !! k, rows_of rs realm !! applied_index_key k).

(** What a command does to one key. *)
Inductive KeyOp := KSet (v : option (list byte)) | KPutIfAbsent (v : list byte) | KIncrement | KNone.

Definition batch_op (puts : list Row) (deletes : list (list byte)) (k : list byte) : KeyOp :=
  if decide (k ∈ deletes) then KSet None
  else match put_all puts ∅ !! k with Some v => KSet (Some v) | None => KNone end.
Definition cmd_op (cmd : RaftCommand) (realm : RealmId) (k : list byte) : KeyOp :=
  if decide (cmd_realm cmd = realm) then
    match cmd with
    | CPut _ _ k' v => batch_op [(k', v)] [] k
    | CDelete _ _ k' => batch_op [] [k'] k
    | CBatch _ _ es => batch_op es [] k
    | CWriteBatch _ _ puts deletes => batch_op puts deletes k
    | CPutIfAbsent _ _ k' v => if decide (k' = k) then KPutIfAbsent v else KNone
    | CIncrementU64 _ _ k' => if decide (k' = k) then KIncrement else KNone
    end
  else KNone.

Definition moved (log_index : Z) (l : option (list byte)) : option (list byte) :=
  match l with Some _ => Some (encode_u64 log_index) | None => None end.
Definition cell_step (log_index : Z) (o : KeyOp) (x : cell) : cell :=
  match o with
  | KSet v => (v, moved log_index x.2)
  | KPutIfAbsent v => match x.1 with Some _ => x | None => (Some v, moved log_index x.2) end
  | KIncrement =>
      match counted log_index x.1 x.2 with
      | Some n => (Some (encode_u64 n), Some (encode_u64 log_index))
      | None => x
      end
  | KNone => x
  end.

Definition cmd_keys (cmd : RaftCommand) : list (list byte) :=
  match cmd with
  | CPut _ _ k _ | CDelete _ _ k | CPutIfAbsent _ _ k _ | CIncrementU64 _ _ k => [k]
  | CBatch _ _ es => es.*1
  | CWriteBatch _ _ puts deletes => puts.*1 ++ deletes
  end.
(** The commands of a log write client keys only. *)
Definition client_cmd (cmd : RaftCommand) : Prop := Forall (λ k, client_key k = true) (cmd_keys cmd).

Lemma put_all_app (a b : list Row) (s : Store) : put_all (a ++ b) s = put_all b (put_all a s).
Proof. unfold put_all. by rewrite foldl_app. Qed.

Lemma lookup_put_all (kvs : list Row) (s : Store) k : put_all kvs s !! k = match put_all kvs ∅ !! k with Some v => Some v | None => s !! k end.
Proof.
destruct (decide (k ∈ kvs.*1)) as [Hk|Hk].
- induction kvs as [|[k' v] kvs IH] using rev_ind; [by apply elem_of_nil in Hk|].
  rewrite !put_all_app. cbn. destruct (decide (k' = k)) as [->|Hne]; [by rewrite !lookup_insert_eq|].
  rewrite !lookup_insert_ne by done. apply IH. rewrite fmap_app in Hk. cbn in Hk. set_solver.
- rewrite !lookup_put_all_other by done. by rewrite lookup_empty.
Qed.

Lemma put_all_one k v (s : Store) : put_all [(k, v)] s = <[k := v]> s.
Proof. done. Qed.

Lemma elem_of_put_all (kvs : list Row) k : k ∈ kvs.*1 ↔ is_Some (put_all kvs ∅ !! k).
Proof.
induction kvs as [|[k' v] kvs IH] using rev_ind.
- cbn. rewrite lookup_empty. split; [by intros ?%elem_of_nil|by intros []].
- rewrite put_all_app, fmap_app, elem_of_app. cbn. destruct (decide (k' = k)) as [->|Hne].
  + rewrite lookup_insert_eq. split; [done|]. intros _. right. left.
  + rewrite lookup_insert_ne by done. rewrite <-IH. set_solver.
Qed.

Lemma rows_of_put realm realm' puts deletes rs :
  rows_of (put_rows realm puts deletes rs) realm' =
  if decide (realm = realm') then delete_all deletes (put_all puts (rows_of rs realm)) else rows_of rs realm'.
Proof.
unfold rows_of, put_rows. case_decide as Hr; [subst; by rewrite lookup_insert_eq|by rewrite lookup_insert_ne].
Qed.

Lemma ends_with_app (suffix : list byte) k : ends_with suffix (k ++ suffix) = true.
Proof.
unfold ends_with. apply bool_decide_eq_true_2. rewrite length_app.
replace (length k + length suffix - length suffix)%nat with (length k) by lia. apply drop_app_length.
Qed.

Lemma client_not_sidecar k k' : client_key k = true → k ≠ applied_index_key k'.
Proof. intros Hk ->. unfold client_key, applied_index_key in Hk. by rewrite ends_with_app in Hk. Qed.
Lemma client_not_meta k : client_key k = true → is_state_machine_meta_key k = false.
Proof. unfold client_key. intros Hk. rewrite !andb_true_iff, !negb_true_iff in Hk. tauto. Qed.
Lemma client_not_suffixed k : client_key k = true → ends_with APPLIED_INDEX_SUFFIX k = false.
Proof. unfold client_key. intros Hk. rewrite !andb_true_iff, !negb_true_iff in Hk. tauto. Qed.
Lemma sidecar_not_meta k : is_state_machine_meta_key (applied_index_key k) = false.
Proof.
unfold is_state_machine_meta_key, applied_index_key. rewrite orb_false_iff. split; apply bool_decide_eq_false_2; intros Hk.
- apply (f_equal length) in Hk. rewrite length_app in Hk. cbn in Hk. lia.
- assert (k = []) as ->; [|done]. apply (f_equal length) in Hk. rewrite length_app in Hk. cbn in Hk. apply nil_length_inv. lia.
Qed.
Lemma not_meta_ne k : is_state_machine_meta_key k = false → k ≠ SM_APPLIED_KEY ∧ k ≠ SM_MEMBERSHIP_KEY.
Proof. unfold is_state_machine_meta_key. rewrite orb_false_iff, !bool_decide_eq_false. tauto. Qed.
#[export] Instance applied_index_key_inj : Inj (=) (=) applied_index_key.
Proof. intros k k'. apply app_inv_tail. Qed.

(** The sidecars an entry moves, looked up. *)
Lemma lookup_moved_rows (s : Store) keys log_index k : client_key k = true →
  put_all (moved_rows s keys log_index) ∅ !! k = None ∧
  (Forall (λ k, client_key k = true) keys →
   put_all (moved_rows s keys log_index) ∅ !! applied_index_key k =
   if decide (k ∈ keys) then moved log_index (s !! applied_index_key k) else None).
Proof.
intros Hk. split.
- rewrite lookup_put_all_other; [by rewrite lookup_empty|]. intros ((k', v) & -> & Hin)%list_elem_of_fmap. cbn in *.
  revert Hin. induction keys as [|k0 keys IH]; cbn [moved_rows]; [by intros ?%elem_of_nil|].
  destruct (_ || _); [done|]. destruct (s !! _); [|done]. intros [[= Heq _]|?]%elem_of_cons; [|by apply IH].
  by apply (client_not_sidecar k' k0) in Hk.
- induction 1 as [|k0 keys Hk0 Hkeys IH]; cbn [moved_rows]; [done|].
  rewrite (client_not_suffixed k0 Hk0), (client_not_meta k0 Hk0). cbn [orb].
  assert (∀ l : list Row, put_all ((applied_index_key k0, encode_u64 log_index) :: l) ∅ =
               put_all l (<[applied_index_key k0 := encode_u64 log_index]> ∅)) as Hcons by done.
  destruct (s !! applied_index_key k0) as [b|] eqn:Hs.
  + rewrite Hcons, lookup_put_all, IH. destruct (decide (k = k0)) as [->|Hne].
    * rewrite Hs, lookup_insert_eq. cbn. rewrite (decide_True (P := k0 ∈ k0 :: keys)) by left. by case_decide.
    * rewrite lookup_insert_ne by (by intros ?%(inj _)). rewrite lookup_empty.
      rewrite (decide_ext (k ∈ k0 :: keys) (k ∈ keys)) by set_solver. by case_decide; [destruct (moved _ _)|].
  + rewrite IH. destruct (decide (k = k0)) as [->|Hne].
    * rewrite Hs. cbn. by repeat case_decide.
    * by rewrite (decide_ext (k ∈ k0 :: keys) (k ∈ keys)) by set_solver.
Qed.

Lemma delete_client deletes (s : Store) k : client_key k = true → Forall (λ k, client_key k = true) deletes →
  delete_all deletes s !! applied_index_key k = s !! applied_index_key k.
Proof.
intros Hk Hd. rewrite lookup_delete_all, decide_False; [done|]. rewrite list.Forall_forall in Hd.
intros Hin%Hd. by apply (client_not_sidecar _ k) in Hin.
Qed.

Lemma lookup_applied (row : list byte) (s : Store) k : is_state_machine_meta_key k = false →
  put_all [(SM_APPLIED_KEY, row)] s !! k = s !! k.
Proof. intros [Hne _]%not_meta_ne. cbn. by rewrite lookup_insert_ne. Qed.

(** A batch of client rows with the sidecars it moves, seen at one key. *)
Lemma batch_cell (puts : list Row) deletes (row : list byte) (s : Store) log_index k :
  client_key k = true → Forall (λ k, client_key k = true) (puts.*1 ++ deletes) →
  let s' := delete_all deletes (put_all ((puts ++ moved_rows s (puts.*1 ++ deletes) log_index) ++ [(SM_APPLIED_KEY, row)]) s) in
  (s' !! k, s' !! applied_index_key k) = cell_step log_index (batch_op puts deletes k) (s !! k, s !! applied_index_key k).
Proof.
intros Hk Hkeys. destruct (lookup_moved_rows s (puts.*1 ++ deletes) log_index k Hk) as [Hm1 Hm2]. specialize (Hm2 Hkeys).
pose proof Hkeys as [Hputs Hdel]%Forall_app. cbn zeta.
rewrite delete_client, lookup_delete_all by done. rewrite !put_all_app.
rewrite (lookup_applied _ _ k) by (by apply client_not_meta). rewrite (lookup_applied _ _ (applied_index_key k)) by apply sidecar_not_meta.
rewrite (lookup_put_all (moved_rows _ _ _) _ k), (lookup_put_all (moved_rows _ _ _) _ (applied_index_key k)), Hm1, Hm2.
rewrite (lookup_put_all puts _ k). rewrite (lookup_put_all_other puts _ (applied_index_key k)).
2: { rewrite list.Forall_forall in Hputs. intros Hin%Hputs. by apply (client_not_sidecar _ k) in Hin. }
unfold batch_op. pose proof (elem_of_put_all puts k) as Hin.
destruct (decide (k ∈ deletes)) as [Hd|Hd]; cbn [cell_step fst snd].
- rewrite decide_True by (apply elem_of_app; by right). by destruct (s !! applied_index_key k).
- destruct (put_all puts ∅ !! k) as [v|] eqn:Hp; cbn [cell_step fst snd].
  + rewrite decide_True by (apply elem_of_app; left; by apply Hin). by destruct (s !! applied_index_key k).
  + rewrite decide_False; [done|]. rewrite elem_of_app, Hin. intros [[? ?]|?]; done.
Qed.

(** *** Entries, seen at one client key *)
Section entry_cell.
Context {M : Type} `{!RaftCodec M}.
Implicit Type e : Entry M.

Definition client_entry e : Prop := match en_payload e with Normal cmd => client_cmd cmd | _ => True end.
Definition entry_op e (realm : RealmId) (k : list byte) : KeyOp :=
  match en_payload e with Normal cmd => cmd_op cmd realm k | _ => KNone end.

Lemma meta_write_cell (rows : list Row) rs realm k : client_key k = true →
  Forall (λ kv, is_state_machine_meta_key kv.1 = true) rows → cell_of (put_rows meta_realm rows [] rs) realm k = cell_of rs realm k.
Proof.
intros Hk Hrows. unfold cell_of. rewrite rows_of_put. case_decide; [subst|done]. cbn [delete_all foldl].
assert (∀ k', is_state_machine_meta_key k' = false → k' ∉ rows.*1) as Hn.
{ intros k' Hk' ((k'', v) & -> & Hin)%list_elem_of_fmap. rewrite list.Forall_forall in Hrows. apply Hrows in Hin. cbn in *. congruence. }
rewrite !lookup_put_all_other; [done|apply Hn, sidecar_not_meta|by apply Hn, client_not_meta].
Qed.

(** An increment or a conditional put of another key, and of this one. *)
Lemma sidecar_pair_cell (rows : list Row) (row : list byte) (s : Store) k :
  client_key k = true → let s' := put_all (rows ++ [(SM_APPLIED_KEY, row)]) s in
  (s' !! k, s' !! applied_index_key k) = (put_all rows s !! k, put_all rows s !! applied_index_key k).
Proof.
intros Hk. cbn zeta. rewrite !put_all_app.
rewrite (lookup_applied _ _ k) by (by apply client_not_meta). by rewrite (lookup_applied _ _ (applied_index_key k)) by apply sidecar_not_meta.
Qed.

Lemma entry_cell e rs realm k : client_key k = true → client_entry e →
  cell_of (entry_rows e rs) realm k = cell_step (li_index (en_log_id e)) (entry_op e realm k) (cell_of rs realm k).
Proof.
intros Hk He. unfold entry_rows, applied_row, entry_op, client_entry in *. destruct (en_payload e) as [|cmd|m].
- apply meta_write_cell; [done|]. by repeat constructor.
- destruct (cmd_writes _ cmd _) as [puts deletes] eqn:Hw. unfold cell_of, cmd_op. rewrite rows_of_put.
  destruct (decide (cmd_realm cmd = realm)) as [<-|Hr]; [|done]. unfold client_cmd in He.
  destruct cmd as [ts r k' v|ts r k'|ts r es|ts r ps ds|ts r k' v|ts r k']; cbn [cmd_writes cmd_realm cmd_keys] in *; injection Hw as <- <-.
  + apply (batch_cell [(k', v)] []); [done|]. by rewrite app_nil_r.
  + by apply (batch_cell [] [k']).
  + apply (batch_cell es []); [done|]. by rewrite app_nil_r.
  + by apply batch_cell.
  + cbn [delete_all foldl]. rewrite sidecar_pair_cell by done. inversion He as [|? ? Hk' _]; subst.
    destruct (rows_of rs r !! k') as [v'|] eqn:Hv.
    { cbn [put_all foldl]. case_decide; [subst|done]. cbn [cell_step fst]. by rewrite Hv. }
    destruct (lookup_moved_rows (rows_of rs r) [k'] (li_index (en_log_id e)) k Hk) as [Hm1 Hm2]. specialize (Hm2 He).
    rewrite put_all_app. rewrite (put_all_one k' v).
    change (put_all _ (rows_of rs r)) with (put_all (moved_rows (rows_of rs r) [k'] (li_index (en_log_id e))) (rows_of rs r)).
    rewrite (lookup_insert_ne _ k' (applied_index_key k)) by (by apply client_not_sidecar).
    rewrite (lookup_put_all (moved_rows _ _ _) _ (applied_index_key k)), Hm2. destruct (decide (k' = k)) as [->|Hne].
    * rewrite lookup_insert_eq. cbn [cell_step fst snd]. rewrite Hv, decide_True by left. by destruct (rows_of rs r !! applied_index_key k).
    * rewrite lookup_insert_ne by done. rewrite (lookup_put_all (moved_rows _ _ _) _ k), Hm1, decide_False by set_solver. done.
  + cbn [delete_all foldl]. rewrite sidecar_pair_cell by done. inversion He as [|? ? Hk' _]; subst.
    destruct (counted _ _ _) as [n|] eqn:Hc; cbn [put_all foldl fst snd].
    * rewrite (lookup_insert_ne _ (applied_index_key k') k) by (by intros Heq; apply (client_not_sidecar k k')).
      destruct (decide (k' = k)) as [->|Hne].
      -- rewrite !lookup_insert_eq. cbn [cell_step fst snd]. by rewrite Hc.
      -- rewrite !lookup_insert_ne; [done|by apply client_not_sidecar|by intros ?%(inj _)|done].
    * case_decide; [subst|done]. cbn [cell_step fst snd]. by rewrite Hc.
- apply meta_write_cell; [done|]. by repeat constructor.
Qed.
End entry_cell.

(** ** Applying a stretch of the log twice *)

Section twice.
Implicit Types (w t : list (Z * KeyOp)) (x y a b : cell) (i m n hi : Z).

Definition run_cell (w : list (Z * KeyOp)) (x : cell) : cell := foldl (λ x io, cell_step io.1 io.2 x) x w.

Definition ordered w : Prop := StronglySorted (λ p q, p.1 < q.1) w.
(** Indices are [u64]s, and an increment has a positive one: entry 0 of a log is the
membership it starts with. *)
Definition indexed w : Prop := Forall (λ io, 0 <= io.1 <= u64_max ∧ (io.2 = KIncrement → 0 < io.1)) w.
Definition has_incr w : Prop := Exists (λ io, io.2 = KIncrement) w.
Definition sets (o : KeyOp) : bool := match o with KSet _ => true | _ => false end.
Definition no_set w : Prop := Forall (λ io, sets io.2 = false) w.
(** What is conditionally put at a key that is incremented is a counter. *)
Definition disciplined w : Prop :=
  has_incr w → Forall (λ io, match io.2 with KPutIfAbsent v => zlen v = 8 | _ => True end) w.

Lemma run_cell_app w t x : run_cell (w ++ t) x = run_cell t (run_cell w x).
Proof. unfold run_cell. by rewrite foldl_app. Qed.

Lemma decode_8 v : zlen v = 8 → ∃ n, decode_u64_counter (Some v) = Ok n.
Proof. intros Hv. cbn. rewrite Hv. cbn. eauto. Qed.
Lemma decode_sidecar n : 0 <= n <= u64_max → decode_u64_counter (Some (encode_u64 n)) = Ok n.
Proof. apply decode_encode_u64. Qed.
Lemma decode_not_panic l : decode_u64_counter l ≠ Panic.
Proof. destruct l; cbn; [by case_match|done]. Qed.

(** An increment above the sidecar's index counts whatever the sidecar is. *)
Lemma counted_above i c l n : decode_u64_counter l = Ok n → n < i →
  counted i c l = match decode_u64_counter c with Ok v => Some (sat_add_u64 v 1) | _ => Some i end.
Proof. intros Hl Hn. unfold counted. rewrite Hl. destruct (decode_u64_counter c); [|done..]. by replace (i <=? n) with false by lia. Qed.
Lemma counted_below i v n : 0 <= n <= u64_max → i <= n → zlen v = 8 → counted i (Some v) (Some (encode_u64 n)) = None.
Proof.
intros Hn Hi Hv. unfold counted. rewrite decode_sidecar by done. destruct (decode_8 v Hv) as [? ->].
by replace (i <=? n) with true by lia.
Qed.

Lemma moved_present i l : is_Some (moved i l) ↔ is_Some l.
Proof. destruct l; cbn; split; intros []; by eexists. Qed.
Lemma moved_eq i l l' : (is_Some l ↔ is_Some l') → moved i l = moved i l'.
Proof. destruct l, l'; cbn; intros [H1 H2]; try done; [by destruct H1|by destruct H2]. Qed.

Lemma step_present i o x : 0 <= i <= u64_max → (o = KIncrement → 0 < i) →
  is_Some (cell_step i o x).2 ↔ is_Some x.2 ∨ o = KIncrement.
Proof.
intros Hi Ho. destruct o as [v|v| |]; cbn [cell_step snd].
- rewrite moved_present. naive_solver.
- destruct x as [[?|] l]; cbn; [naive_solver|]. rewrite moved_present. naive_solver.
- destruct (counted i x.1 x.2) eqn:Hc; cbn [snd]; [naive_solver|]. split; [by left|]. intros _.
  destruct x as [c [l|]]; [done|]. cbn in Hc. exfalso. specialize (Ho eq_refl). unfold counted in Hc. cbn in Hc.
  destruct (decode_u64_counter c); [|done..]. by replace (i <=? 0) with false in Hc by lia.
- naive_solver.
Qed.

Lemma run_present w x : indexed w → is_Some (run_cell w x).2 ↔ is_Some x.2 ∨ has_incr w.
Proof.
induction w as [|[i o] w IH] using rev_ind; intros Hw; [unfold has_incr; rewrite Exists_nil; naive_solver|].
unfold indexed in Hw. apply Forall_app in Hw as [Hw [[Hi Ho] _]%Forall_cons]. rewrite run_cell_app. unfold run_cell at 1. cbn [foldl fst snd].
rewrite step_present, IH by done. unfold has_incr. rewrite Exists_app, Exists_cons, Exists_nil. cbn. tauto.
Qed.

(** A counter whose sidecar is at [i] is not moved by the entries up to [i], other than
unconditional writes. *)
Lemma run_settled w v i : no_set w → indexed w → Forall (λ io, io.1 <= i) w → 0 <= i <= u64_max →
  (has_incr w → zlen v = 8) → run_cell w (Some v, Some (encode_u64 i)) = (Some v, Some (encode_u64 i)).
Proof.
intros Hs Hw Hle Hi Hv. induction w as [|[j o] w IH] using rev_ind; [done|].
unfold no_set, indexed in *. apply Forall_app in Hs as [Hs [Ho _]%Forall_cons]. apply Forall_app in Hw as [Hw [[Hj _] _]%Forall_cons].
apply Forall_app in Hle as [Hle [Hji _]%Forall_cons]. cbn in Ho, Hji, Hj. unfold has_incr in Hv. rewrite Exists_app, Exists_cons in Hv. cbn in Hv.
rewrite run_cell_app, IH by (try done; intros; apply Hv; by left). cbn. destruct o as [?|?| |]; try done. cbn.
rewrite counted_below; [done|done|lia|]. apply Hv. auto.
Qed.
Lemma run_present_value w v l : no_set w → ¬ has_incr w → run_cell w (Some v, l) = (Some v, l).
Proof.
unfold no_set, has_incr. intros Hs Hi. induction w as [|[j o] w IH] using rev_ind; [done|].
apply Forall_app in Hs as [Hs [Ho _]%Forall_cons]. rewrite Exists_app, Exists_cons in Hi. cbn in *.
rewrite run_cell_app, IH by tauto. cbn. destruct o; try done. tauto.
Qed.

(** Two cells that differ in whether a sidecar of a past index is there behave alike. *)
Definition alike hi a b : Prop := a = b ∨ a.1 = b.1 ∧ a.2 = None ∧ ∃ m, b.2 = Some (encode_u64 m) ∧ 0 <= m <= hi.

Lemma alike_step hi i o a b : hi < i → i <= u64_max → (o = KIncrement → 0 < i) → 0 <= i → alike hi a b → alike i (cell_step i o a) (cell_step i o b).
Proof.
intros Hi Hmax Ho H0 [->|(Hv & Ha & m & Hb & Hm)]; [by left|]. destruct a as [c la], b as [c' lb]. cbn in *. subst.
destruct o as [v|v| |]; cbn.
- right. cbn. split_and!; [done|done|]. exists i. split; [done|lia].
- destruct c' as [v'|]; right; cbn; (split_and!; [done|done|]); [exists m|exists i]; (split; [done|lia]).
- left. specialize (Ho eq_refl). rewrite (counted_above i c' None 0), (counted_above i c' (Some (encode_u64 m)) m) by (done || lia || (apply decode_sidecar; lia)).
  by destruct (decode_u64_counter c').
- right. cbn. split_and!; [done|done|]. exists m. split; [done|lia].
Qed.

Lemma alike_run w : ordered w → indexed w → ∀ hi a b, Forall (λ io, hi < io.1) w → alike hi a b →
  ∃ hi', alike hi' (run_cell w a) (run_cell w b) ∧ (∀ i, Forall (λ io, io.1 < i) w → hi < i → hi' < i).
Proof.
intros Hw Hi. induction Hw as [|[i o] w Hs IH Hlt]; intros hi a b Hgt Hab; [by exists hi|].
apply Forall_cons in Hi as [[Hi Ho] Hw]. apply Forall_cons in Hgt as [Hgt _]. cbn in *.
destruct (IH Hw i (cell_step i o a) (cell_step i o b)) as (hi' & Hal & Hhi).
{ eapply Forall_impl; [exact Hlt|]. cbn. done. }
{ by apply (alike_step hi); [|lia|..|lia|]. }
exists hi'. split; [done|]. intros j [Hj Hrest]%Forall_cons Hhj. by apply Hhi.
Qed.

Lemma last_set w : no_set w ∨ ∃ w1 m (u : option (list byte)) t, w = w1 ++ (m, KSet u) :: t ∧ no_set t.
Proof.
unfold no_set. induction w as [|[i o] w IH]; [by left|].
destruct IH as [IH|(w1 & m & u & t & -> & Ht)].
- destruct o as [u|v| |]; try (left; by constructor). right. by exists [], i, u, w.
- right. by exists ((i, o) :: w1), m, u, t.
Qed.

(** After an unconditional write of the window, runs from any two cells differ at most
in a sidecar of a past index. *)
Lemma run_after_set w x y i : ordered w → indexed w → ¬ no_set w → Forall (λ io, io.1 < i) w →
  ∃ hi, hi < i ∧ (alike hi (run_cell w x) (run_cell w y) ∨ alike hi (run_cell w y) (run_cell w x)).
Proof.
intros Ho Hi Hs Hlt. destruct (last_set w) as [?|(w1 & m & u & t & -> & Ht)]; [done|].
unfold ordered, indexed in *. apply StronglySorted_app in Ho as (_ & _ & Ho). apply StronglySorted_inv in Ho as [Ho Hm].
apply Forall_app in Hi as [_ [[Hmi _] Hi]%Forall_cons]. apply Forall_app in Hlt as [_ [Hmlt Hlt]%Forall_cons]. cbn in *.
rewrite !run_cell_app. unfold run_cell at 1 3 5 7. cbn [foldl fst snd cell_step].
set (a := (u, moved m (run_cell w1 x).2)). set (b := (u, moved m (run_cell w1 y).2)).
assert (alike m a b ∨ alike m b a) as [Hab|Hab].
{ subst a b. destruct (run_cell w1 x) as [? [?|]], (run_cell w1 y) as [? [?|]]; cbn.
  - left. by left.
  - right. right. split_and!; [done..|]. exists m. split; [done|lia].
  - left. right. split_and!; [done..|]. exists m. split; [done|lia].
  - left. by left. }
- destruct (alike_run t Ho Hi m a b Hm Hab) as (hi & Hal & Hhi). exists hi. split; [by apply Hhi|]. by left.
- destruct (alike_run t Ho Hi m b a Hm Hab) as (hi & Hal & Hhi). exists hi. split; [by apply Hhi|]. by right.
Qed.


Lemma run_snoc w i o x : run_cell (w ++ [(i, o)]) x = cell_step i o (run_cell w x).
Proof. by rewrite run_cell_app. Qed.

(** The three kinds of last entry, against a run of the window from its result. *)
Lemma twice_set w i u x : indexed w → cell_step i (KSet u) (run_cell w (cell_step i (KSet u) (run_cell w x))) = cell_step i (KSet u) (run_cell w x).
Proof.
intros Hw. cbn. f_equal. apply moved_eq. rewrite run_present by done. cbn. rewrite moved_present. rewrite !run_present by done. tauto.
Qed.

Lemma twice_pia w i v x : ordered w → indexed w → Forall (λ io, io.1 < i) w → 0 <= i <= u64_max → (has_incr w → zlen v = 8) →
  (run_cell w x).1 = None →
  let y := (Some v, moved i (run_cell w x).2) in cell_step i (KPutIfAbsent v) (run_cell w y) = y.
Proof.
intros Ho Hw Hlt Hi Hv Hnone y. destruct (decide (no_set w)) as [Hs|Hs].
- assert (run_cell w y = y) as ->; [|done]. subst y. destruct (run_cell w x).2 as [l|] eqn:Hl; cbn [moved].
  + apply run_settled; [done..| |done|done]. eapply Forall_impl; [exact Hlt|]. cbn. lia.
  + apply run_present_value; [done|]. intros Hin. assert (is_Some (run_cell w x).2) as [? ?]; [|congruence].
    apply run_present; [done|]. by right.
- destruct (run_after_set w x y i Ho Hw Hs Hlt) as (hi & _ & Hal).
  assert ((run_cell w y).1 = None) as Hy by (destruct Hal as [[<-|[<- _]]|[->|[-> _]]]; done).
  cbn [cell_step]. rewrite Hy. subst y. f_equal. apply moved_eq. rewrite run_present by done. cbn.
  rewrite moved_present, run_present by done. tauto.
Qed.

Lemma twice_incr w i n x : ordered w → indexed w → Forall (λ io, io.1 < i) w → 0 < i <= u64_max →
  counted i (run_cell w x).1 (run_cell w x).2 = Some n →
  let y := (Some (encode_u64 n), Some (encode_u64 i)) in cell_step i KIncrement (run_cell w y) = y.
Proof.
intros Ho Hw Hlt Hi Hc y. destruct (decide (no_set w)) as [Hs|Hs].
- assert (zlen (encode_u64 n) = 8) as H8 by apply zlen_to_le.
  assert (run_cell w y = y) as ->.
  { apply run_settled; [done..| |lia|done]. eapply Forall_impl; [exact Hlt|]. cbn. lia. }
  cbn. rewrite counted_below by (done || lia). done.
- assert (counted i (run_cell w y).1 (run_cell w y).2 = Some n) as Hn; [|by cbn [cell_step]; rewrite Hn].
  destruct (run_after_set w x y i Ho Hw Hs Hlt) as (hi & Hhi & [Hal|Hal]); destruct Hal as [Hal|(Hv & Hl & m & Hm & Hle)];
    try (by rewrite Hal in * || by rewrite <-Hal in * ).
  all: rewrite Hv, Hl, Hm in *; rewrite (counted_above i _ None 0) in * by (done || lia);
    rewrite (counted_above i _ (Some (encode_u64 m)) m) in * by (lia || (apply decode_sidecar; lia)); done.
Qed.

(** Applying a stretch of the log a second time changes nothing. *)
Lemma run_cell_twice w x : ordered w → indexed w → disciplined w → run_cell w (run_cell w x) = run_cell w x.
Proof.
induction w as [|[i o] w IH] using rev_ind; [done|]. unfold ordered, indexed, disciplined, has_incr.
intros (Hlt & Ho & _)%StronglySorted_app [Hw [[Hi Hpos] _]%Forall_cons]%Forall_app Hd.
rewrite Exists_app, Exists_cons, Exists_nil, Forall_app, Forall_cons in Hd. cbn in *.
assert (Forall (λ io, io.1 < i) w) as Hlt'.
{ apply list.Forall_forall. intros io Hio. apply (Hlt io (i, o)); [done|left]. }
specialize (IH Ho Hw (λ Hin, proj1 (Hd (or_introl Hin)))). rewrite !run_snoc.
destruct o as [u|v| |]; [by apply twice_set|..].
- cbn [cell_step]. destruct (run_cell w x).1 as [v'|] eqn:Hv; [by rewrite IH, Hv|].
  pose proof (twice_pia w i v x Ho Hw Hlt' Hi) as Ht. cbn [cell_step] in Ht. apply Ht; [|done].
  intros Hin. by destruct (Hd (or_introl Hin)) as [_ [? _]].
- destruct (counted i (run_cell w x).1 (run_cell w x).2) as [n|] eqn:Hc.
  + cbn [cell_step]. rewrite Hc. apply (twice_incr w i n x); [done..|split; [by apply Hpos|lia]|done].
  + cbn [cell_step]. rewrite Hc, IH. by rewrite Hc.
- done.
Qed.
End twice.
