(* ===== verification/RaftLog.v ===== *)
(** * A node against the committed log

How the rows of a node relate to the log Raft committed: the persisted applied state is
exact, and every cell becomes the committed one when the rest of the log is applied
([fuzzy]). Each of the state machine's operations keeps this, whatever its storage calls
do: [apply_entries_ok] and [load_applied_ok]. *)
From stdpp Require Import base list gmap strings sorting.
From Stdlib Require Import Strings.Byte ZArith Lia.
From S2P Require Import Prelude OrdMap StorageTypes OrdSet RealmRows RaftState RaftReplay.

Open Scope Z_scope.

(** [stretch a b l]: positions [a] to [b] of a list, without [b]. *)
Definition stretch {A} (a b : nat) (l : list A) : list A := take (b - a) (drop a l).

Lemma stretch_nil {A} (a : nat) (l : list A) : stretch a a l = [].
Proof. unfold stretch. by rewrite Nat.sub_diag. Qed.
Lemma stretch_split {A} (a b c : nat) (l : list A) : (a <= b <= c)%nat → stretch a c l = stretch a b l ++ stretch b c l.
Proof.
intros Hab. unfold stretch. replace (c - a)%nat with ((b - a) + (c - b))%nat by lia.
rewrite <-(take_take_drop (drop a l)), drop_drop. by replace (a + (b - a))%nat with b by lia.
Qed.
Lemma stretch_0 {A} (b : nat) (l : list A) : stretch 0 b l = take b l.
Proof. unfold stretch. by rewrite drop_0, Nat.sub_0_r. Qed.
Lemma stretch_one {A} (a : nat) (l : list A) x : l !! a = Some x → stretch a (S a) l = [x].
Proof. intros Hx. unfold stretch. replace (S a - a)%nat with 1%nat by lia. by rewrite (drop_S l x a Hx). Qed.
Lemma stretch_app {A} (a b : nat) (l k : list A) : (b <= length l)%nat → stretch a b (l ++ k) = stretch a b l.
Proof.
intros Hb. unfold stretch. destruct (decide (a <= length l)%nat) as [Ha|Ha].
- rewrite drop_app_le, take_app_le by (rewrite ?length_drop; lia). done.
- by replace (b - a)%nat with 0%nat by lia.
Qed.
Lemma elem_of_stretch {A} (a b : nat) (l : list A) x : x ∈ stretch a b l → x ∈ l.
Proof. intros (i & Hi & _)%elem_of_take. rewrite lookup_drop in Hi. by apply list_elem_of_lookup_2 in Hi. Qed.

Section log.
Context {M : Type} `{!RaftCodec M, !RealmList}.
Implicit Types (log : list (Entry M)) (e : Entry M) (realm : RealmId) (k : list byte) (rs : Rows) (a b p : nat)
  (x c : cell) (mark : option (list byte)) (cmd : RaftCommand) (v : list byte).

Definition key_ops log (realm : RealmId) (k : list byte) : list (Z * KeyOp) :=
  (λ e, (li_index (en_log_id e), entry_op e realm k)) <$> log.

(** A log as Raft commits it: indices count from 0 and log ids grow, entry 0 is not a
command, commands write client keys, and conditional puts of counters write counters. *)
Record log_ok log : Prop := {
  log_index j e : log !! j = Some e → li_index (en_log_id e) = Z.of_nat j;
  log_grows i j e e' : log !! i = Some e → log !! j = Some e' → (i < j)%nat → log_id_ltb (en_log_id e) (en_log_id e') = true;
  log_first e cmd : log !! 0%nat = Some e → en_payload e ≠ Normal cmd;
  log_client e : e ∈ log → client_entry e;
  log_bound : Z.of_nat (length log) <= u64_max;
  log_discipline realm k : client_key k = true → disciplined (key_ops log realm k)
}.

(** The id and the membership after the first [a] entries. *)
Definition last_id log (a : nat) : option LogId :=
  match a with 0%nat => None | S j => en_log_id <$> log !! j end.
Definition next_membership (m : StoredMembership M) e : StoredMembership M :=
  match en_payload e with Membership c => MkMembership (Some (en_log_id e)) c | _ => m end.
Definition members_at log (a : nat) : StoredMembership M := foldl next_membership no_membership (take a log).

(** The cell of a key after the first [p] entries. *)
Definition committed log (p : nat) (realm : RealmId) (k : list byte) : cell :=
  run_cell (key_ops (take p log) realm k) (None, None).
(** A cell that some further part of the log makes the committed one. *)
Definition fuzzy log (a : nat) (realm : RealmId) (k : list byte) (c : cell) : Prop :=
  ∃ p, (a <= p <= length log)%nat ∧ run_cell (key_ops (stretch a p log) realm k) c = committed log p realm k.

(** ** Stretches of a log *)

Lemma key_ops_app l1 l2 realm k : key_ops (l1 ++ l2) realm k = key_ops l1 realm k ++ key_ops l2 realm k.
Proof. unfold key_ops. by rewrite fmap_app. Qed.

Lemma run_stretch log a b p realm k x : (a <= b <= p)%nat →
  run_cell (key_ops (stretch a p log) realm k) x =
  run_cell (key_ops (stretch b p log) realm k) (run_cell (key_ops (stretch a b log) realm k) x).
Proof. intros Hab. by rewrite (stretch_split a b p), key_ops_app, run_cell_app. Qed.

Lemma committed_stretch log a p realm k : (a <= p)%nat →
  committed log p realm k = run_cell (key_ops (stretch a p log) realm k) (committed log a realm k).
Proof. intros Ha. unfold committed. rewrite <-!stretch_0. apply run_stretch. lia. Qed.

Lemma stretch_ordered log a b realm k : log_ok log → ordered (key_ops (stretch a b log) realm k).
Proof.
intros Hok. unfold stretch. remember (b - a)%nat as n eqn:Hn. clear Hn b. revert a.
induction n as [|n IH]; intros a; [constructor|]. destruct (log !! a) as [e|] eqn:He.
- rewrite (drop_S log e a He). cbn. constructor; [apply IH|]. apply list.Forall_forall.
  intros io (e' & -> & He')%list_elem_of_fmap. cbn. apply elem_of_take in He' as (j & He' & _).
  rewrite lookup_drop in He'. rewrite (log_index _ Hok _ _ He), (log_index _ Hok _ _ He'). lia.
- apply lookup_ge_None in He. rewrite drop_ge by lia. rewrite take_nil. constructor.
Qed.

Lemma stretch_indexed log a b realm k : log_ok log → indexed (key_ops (stretch a b log) realm k).
Proof.
intros Hok. apply list.Forall_forall. intros io (e & -> & He)%list_elem_of_fmap. cbn.
apply elem_of_stretch, list_elem_of_lookup in He as [j He]. pose proof (lookup_lt_Some _ _ _ He) as Hj.
pose proof (log_bound _ Hok). rewrite (log_index _ Hok _ _ He). split; [lia|]. intros Hi.
destruct j as [|j]; [|lia]. exfalso. unfold entry_op in Hi. destruct (en_payload e) as [|cmd|m] eqn:Hp; try done.
by apply (log_first _ Hok e cmd He).
Qed.

Lemma stretch_disciplined log a b realm k : log_ok log → client_key k = true → disciplined (key_ops (stretch a b log) realm k).
Proof.
intros Hok Hk Hin. pose proof (log_discipline _ Hok realm k Hk) as Hd. unfold disciplined, has_incr in *.
assert (∀ io, io ∈ key_ops (stretch a b log) realm k → io ∈ key_ops log realm k) as Hsub.
{ intros io (e & -> & He%elem_of_stretch)%list_elem_of_fmap. apply list_elem_of_fmap. eauto. }
rewrite list.Forall_forall. rewrite list.Exists_exists in *. destruct Hin as (io & Hio & Hincr).
assert (∃ io, io ∈ key_ops log realm k ∧ io.2 = KIncrement) as Hex by eauto. specialize (Hd Hex).
rewrite list.Forall_forall in Hd. intros io' Hio'. by apply Hd, Hsub.
Qed.

(** ** Fuzzy cells *)

Lemma fuzzy_0 log realm k : fuzzy log 0 realm k (None, None).
Proof. exists 0%nat. split; [lia|]. done. Qed.

(** Applying the next entries keeps a cell fuzzy. *)
Lemma fuzzy_run log a b realm k c : (a <= b <= length log)%nat → fuzzy log a realm k c →
  fuzzy log b realm k (run_cell (key_ops (stretch a b log) realm k) c).
Proof.
intros Hab (p & Hp & Hrun). exists (p `max` b)%nat. split; [lia|]. rewrite <-run_stretch by lia.
rewrite (run_stretch _ a p) by lia. rewrite Hrun. by rewrite <-committed_stretch by lia.
Qed.

(** A cell read while entries were being applied is fuzzy at the earlier position: the
entries applied a second time change nothing. *)
Lemma fuzzy_read log a p realm k c : log_ok log → client_key k = true → (a <= p <= length log)%nat → fuzzy log a realm k c →
  fuzzy log a realm k (run_cell (key_ops (stretch a p log) realm k) c).
Proof.
intros Hok Hk Hap (q & Hq & Hrun). exists (p `max` q)%nat. split; [lia|]. rewrite (run_stretch _ a p) by lia.
rewrite run_cell_twice by (by apply stretch_ordered || by apply stretch_indexed || by apply stretch_disciplined).
rewrite <-run_stretch by lia. rewrite (run_stretch _ a q) by lia. rewrite Hrun. by rewrite <-committed_stretch by lia.
Qed.

(** At the end of the log a fuzzy cell is the committed one. *)
Lemma fuzzy_end log realm k c : fuzzy log (length log) realm k c → c = committed log (length log) realm k.
Proof. intros (p & Hp & Hrun). assert (p = length log) as -> by lia. by rewrite stretch_nil in Hrun. Qed.

Lemma fuzzy_grows log l a realm k c : fuzzy log a realm k c → fuzzy (log ++ l) a realm k c.
Proof.
intros (p & Hp & Hrun). exists p. rewrite length_app. split; [lia|]. unfold committed in *.
rewrite stretch_app, take_app_le by lia. done.
Qed.

(** ** Log ids and positions *)

Lemma log_id_ltb_irrefl i : log_id_ltb i i = false.
Proof. unfold log_id_ltb. rewrite !Z.ltb_irrefl, !andb_false_r. done. Qed.
Lemma log_id_ltb_asym i j : log_id_ltb i j = true → log_id_ltb j i = false.
Proof. unfold log_id_ltb. intros Hlt. apply not_true_is_false. intros Hlt'. lia. Qed.

Lemma last_id_ltb log a b : log_ok log → (a <= length log)%nat → (b <= length log)%nat →
  opt_log_id_ltb (last_id log a) (last_id log b) = (a <? b)%nat.
Proof.
intros Hok Ha Hb. destruct a as [|i], b as [|j]; cbn; [done| | |].
- destruct (lookup_lt_is_Some_2 log j) as [e ->]; [lia|]. done.
- by destruct (_ <$> _).
- destruct (lookup_lt_is_Some_2 log i) as [e He]; [lia|]. destruct (lookup_lt_is_Some_2 log j) as [e' He']; [lia|]. rewrite He, He'. cbn.
  destruct (Nat.lt_trichotomy i j) as [Hlt|[->|Hgt]].
  + rewrite (log_grows _ Hok i j e e') by done. symmetry. apply Nat.ltb_lt. lia.
  + rewrite He in He'. injection He' as <-. rewrite log_id_ltb_irrefl. symmetry. apply Nat.ltb_ge. lia.
  + rewrite (log_id_ltb_asym (en_log_id e') (en_log_id e)) by (by apply (log_grows _ Hok j i)). symmetry. apply Nat.ltb_ge. lia.
Qed.

Lemma last_id_max log a b : log_ok log → (a <= length log)%nat → (b <= length log)%nat →
  opt_log_id_max (last_id log a) (last_id log b) = last_id log (a `max` b).
Proof.
intros Hok Ha Hb. unfold opt_log_id_max. rewrite last_id_ltb by done. destruct (Nat.ltb_spec b a); f_equal; lia.
Qed.

Lemma last_id_app log l a : (a <= length log)%nat → last_id (log ++ l) a = last_id log a.
Proof. intros Ha. destruct a as [|j]; [done|]. cbn. by rewrite lookup_app_l by lia. Qed.
Lemma members_at_app log l a : (a <= length log)%nat → members_at (log ++ l) a = members_at log a.
Proof. intros Ha. unfold members_at. by rewrite take_app_le. Qed.
Lemma members_at_S log a e : log !! a = Some e → members_at log (S a) = next_membership (members_at log a) e.
Proof. intros He. unfold members_at. rewrite (take_S_r _ _ _ He), foldl_app. done. Qed.

(** The number of entries up to an id. *)
Definition pos_of (i : option LogId) : nat := match i with None => 0%nat | Some i => S (Z.to_nat (li_index i)) end.
Lemma pos_of_last_id log a : log_ok log → (a <= length log)%nat → pos_of (last_id log a) = a.
Proof.
intros Hok Ha. destruct a as [|j]; [done|]. cbn. destruct (lookup_lt_is_Some_2 log j) as [e He]; [lia|]. rewrite He. cbn.
rewrite (log_index _ Hok _ _ He). lia.
Qed.

(** ** The applied-state rows *)

Definition entry_realm e : RealmId := match en_payload e with Normal cmd => cmd_realm cmd | _ => meta_realm end.

Lemma moved_rows_keys (s : Store) (keys : list (list byte)) (n : Z) k v : (k, v) ∈ moved_rows s keys n → ∃ k', k = applied_index_key k'.
Proof.
induction keys as [|k0 keys IH]; cbn [moved_rows]; [by intros ?%elem_of_nil|].
destruct (_ || _); [done|]. destruct (s !! _); [|done]. intros [[= -> _]|?]%elem_of_cons; eauto.
Qed.

Lemma cmd_writes_keys cmd (s : Store) (n : Z) : client_cmd cmd →
  (∀ kv, kv ∈ (cmd_writes n cmd s).1 → is_state_machine_meta_key kv.1 = false) ∧
  (∀ k, k ∈ (cmd_writes n cmd s).2 → is_state_machine_meta_key k = false).
Proof.
intros Hc. unfold client_cmd in Hc. rewrite list.Forall_forall in Hc.
assert (∀ k v keys, (k, v) ∈ moved_rows s keys n → is_state_machine_meta_key k = false) as Hm.
{ intros k v keys [k' ->]%moved_rows_keys. apply sidecar_not_meta. }
assert (∀ (puts : list Row) (deletes : list (list byte)), (∀ k, k ∈ puts.*1 ++ deletes → client_key k = true) →
  ∀ kv, kv ∈ puts ++ moved_rows s (puts.*1 ++ deletes) n → is_state_machine_meta_key kv.1 = false) as Hplain.
{ intros puts deletes Hk [k v] [Hin|Hin]%elem_of_app; [|by eapply Hm]. apply client_not_meta, Hk, elem_of_app. left.
  apply list_elem_of_fmap. by exists (k, v). }
destruct cmd as [ts r k v|ts r k|ts r es|ts r ps ds|ts r k v|ts r k]; cbn [cmd_writes cmd_keys fst snd] in *.
- split; [|by intros ? ?%elem_of_nil]. by apply (Hplain [(k, v)] []).
- split; [by apply (Hplain [] [k])|]. intros k' Hk'. by apply client_not_meta, Hc.
- split; [|by intros ? ?%elem_of_nil]. apply (Hplain es []). by rewrite app_nil_r.
- split; [by apply Hplain|]. intros k' Hk'. apply client_not_meta, Hc, elem_of_app. by right.
- split; [|by intros ? ?%elem_of_nil]. destruct (s !! k); [by intros ? ?%elem_of_nil|].
  intros [k' v'] [Hin|[= -> ->]%list_elem_of_singleton]%elem_of_app; [by eapply Hm|]. apply client_not_meta, Hc. left.
- split; [|by intros ? ?%elem_of_nil]. destruct (counted _ _ _); [|by intros ? ?%elem_of_nil].
  intros kv [->|[->|?%elem_of_nil]%elem_of_cons]%elem_of_cons; [apply client_not_meta, Hc; left|apply sidecar_not_meta|done].
Qed.

Lemma meta_keys_ne : SM_MEMBERSHIP_KEY ≠ SM_APPLIED_KEY.
Proof. done. Qed.
Lemma applied_is_meta : is_state_machine_meta_key SM_APPLIED_KEY = true.
Proof. done. Qed.
Lemma membership_is_meta : is_state_machine_meta_key SM_MEMBERSHIP_KEY = true.
Proof. done. Qed.

(** A command leaves the meta rows alone, its own applied row apart. *)
Lemma command_meta_rows (puts : list Row) (deletes : list (list byte)) (b : list byte) (s : Store) k :
  (∀ kv, kv ∈ puts → is_state_machine_meta_key kv.1 = false) → (∀ k, k ∈ deletes → is_state_machine_meta_key k = false) →
  is_state_machine_meta_key k = true →
  delete_all deletes (put_all (puts ++ [(SM_APPLIED_KEY, b)]) s) !! k = if decide (k = SM_APPLIED_KEY) then Some b else s !! k.
Proof.
intros Hp Hd Hk. rewrite lookup_delete_all, decide_False by (intros ?%Hd; congruence). rewrite put_all_app, put_all_one.
case_decide as Hka; [subst; by rewrite lookup_insert_eq|]. rewrite lookup_insert_ne by done. apply lookup_put_all_other.
intros ([k' v] & -> & Hin)%list_elem_of_fmap. apply Hp in Hin. cbn in *. congruence.
Qed.

Lemma entry_applied e rs realm : client_entry e →
  rows_of (entry_rows e rs) realm !! SM_APPLIED_KEY =
  if decide (entry_realm e = realm) then Some (ser_log_id (en_log_id e)) else rows_of rs realm !! SM_APPLIED_KEY.
Proof.
intros Hc. unfold client_entry, entry_rows, applied_row, entry_realm in *. destruct (en_payload e) as [|cmd|m].
- rewrite rows_of_put. case_decide; [|done]. cbn. by rewrite lookup_insert_eq.
- destruct (cmd_writes _ cmd _) as [puts deletes] eqn:Hw. rewrite rows_of_put. case_decide; [|done].
  destruct (cmd_writes_keys cmd (rows_of rs (cmd_realm cmd)) (li_index (en_log_id e)) Hc) as [Hp Hd]. rewrite Hw in Hp, Hd.
  rewrite command_meta_rows by done. by rewrite decide_True.
- rewrite rows_of_put. case_decide; [|done]. cbn [delete_all put_all foldl fst snd].
  rewrite lookup_insert_ne by done. by rewrite lookup_insert_eq.
Qed.

Lemma entry_membership e rs : client_entry e →
  rows_of (entry_rows e rs) meta_realm !! SM_MEMBERSHIP_KEY =
  match en_payload e with
  | Membership m => Some (ser_membership (MkMembership (Some (en_log_id e)) m))
  | _ => rows_of rs meta_realm !! SM_MEMBERSHIP_KEY
  end.
Proof.
intros Hc. unfold client_entry, entry_rows, applied_row in *. destruct (en_payload e) as [|cmd|m].
- rewrite rows_of_put, decide_True by done. cbn [delete_all put_all foldl fst snd]. by rewrite lookup_insert_ne.
- destruct (cmd_writes _ cmd _) as [puts deletes] eqn:Hw. rewrite rows_of_put. case_decide as Hr; [|done].
  destruct (cmd_writes_keys cmd (rows_of rs (cmd_realm cmd)) (li_index (en_log_id e)) Hc) as [Hp Hd]. rewrite Hw in Hp, Hd.
  rewrite command_meta_rows by done. rewrite decide_False by done. by rewrite Hr.
- rewrite rows_of_put, decide_True by done. cbn [delete_all put_all foldl fst snd]. by rewrite lookup_insert_eq.
Qed.

Definition stored_members rs : option (StoredMembership M) :=
  match rows_of rs meta_realm !! SM_MEMBERSHIP_KEY with None => Some no_membership | Some b => de_membership b end.

(** The rows of a node that applied the first [a] entries, possibly from a snapshot read
while more were being applied. *)
Record rows_ok log rs (a : nat) : Prop := {
  ro_pos : (a <= length log)%nat;
  ro_applied realm (bs : list byte) : rows_of rs realm !! SM_APPLIED_KEY = Some bs →
    ∃ j i, (j <= a)%nat ∧ last_id log j = Some i ∧ bs = ser_log_id i;
  ro_last : a = 0%nat ∨ ∃ realm i, last_id log a = Some i ∧ rows_of rs realm !! SM_APPLIED_KEY = Some (ser_log_id i);
  ro_members : stored_members rs = Some (members_at log a);
  ro_cells realm k : client_key k = true → fuzzy log a realm k (cell_of rs realm k)
}.

Context `{!RaftCodecLaws M, !RealmListLaws}.

Lemma rows_ok_entry log rs a e : log_ok log → log !! a = Some e → rows_ok log rs a → rows_ok log (entry_rows e rs) (S a).
Proof.
intros Hok He [Hpos Happ Hlast Hmem Hcells]. pose proof (lookup_lt_Some _ _ _ He) as Hlt.
assert (client_entry e) as Hc by (apply (log_client _ Hok); by apply list_elem_of_lookup_2 in He).
assert (last_id log (S a) = Some (en_log_id e)) as Hid by (cbn; by rewrite He).
constructor.
- lia.
- intros realm b. rewrite entry_applied by done. case_decide.
  + intros [= <-]. exists (S a), (en_log_id e). done.
  + intros (j & i & Hj & Hi & ->)%Happ. exists j, i. split; [lia|]. done.
- right. exists (entry_realm e), (en_log_id e). split; [done|]. rewrite entry_applied by done. by rewrite decide_True.
- unfold stored_members in *. rewrite entry_membership by done. rewrite (members_at_S _ _ _ He). unfold next_membership.
  destruct (en_payload e); [done..|]. apply de_ser_membership.
- intros realm k Hk. rewrite entry_cell by done.
  assert (fuzzy log (S a) realm k (run_cell (key_ops (stretch a (S a) log) realm k) (cell_of rs realm k))) as Hf.
  { apply fuzzy_run; [lia|]. by apply Hcells. }
  by rewrite (stretch_one _ _ _ He) in Hf.
Qed.

Lemma rows_ok_empty log : rows_ok log ∅ 0.
Proof.
constructor.
- lia.
- intros realm b. unfold rows_of. by rewrite lookup_empty.
- by left.
- unfold stored_members, rows_of. by rewrite lookup_empty.
- intros realm k Hk. unfold cell_of, rows_of. rewrite lookup_empty. cbn. rewrite !lookup_empty. apply fuzzy_0.
Qed.

Lemma rows_ok_grows log l rs a : rows_ok log rs a → rows_ok (log ++ l) rs a.
Proof.
intros [Hpos Happ Hlast Hmem Hcells]. constructor.
- rewrite length_app. lia.
- intros realm b (j & i & Hj & Hi & ->)%Happ. exists j, i. by rewrite last_id_app by lia.
- by rewrite last_id_app.
- by rewrite members_at_app.
- intros realm k Hk. by apply fuzzy_grows, Hcells.
Qed.

(** ** Apply *)

Definition succeeds {E A} (o : outcome E A) : bool := match o with Ok _ => true | _ => false end.

(** The responses of entries applied one after the other. *)
Fixpoint answers (es : list (Entry M)) rs : list HearthLogResponse :=
  match es with
  | [] => []
  | e :: es' => entry_response e rs :: answers es' (entry_rows e rs)
  end.

(** A running state machine that applied the first [a] entries. *)
Record machine_ok log (a : nat) (s : Machine M) : Prop := {
  mo_rows : rows_ok log (dk_rows (sm_disk s)) a;
  mo_restoring : dk_restoring (sm_disk s) = None;
  mo_applied : sm_last_applied s = last_id log a;
  mo_members : sm_last_membership s = members_at log a
}.

Lemma apply_entry_ok log a e (s : Machine M) : log_ok log → log !! a = Some e → machine_ok log a s →
  match apply_entry e s with
  | (Ok r, s') => machine_ok log (S a) s' ∧ dk_rows (sm_disk s') = entry_rows e (dk_rows (sm_disk s)) ∧
      r = entry_response e (dk_rows (sm_disk s)) ∧ sm_current s' = sm_current s
  | (Err _, s') => (∃ a', (a <= a' <= S a)%nat ∧ rows_ok log (dk_rows (sm_disk s')) a') ∧
      dk_restoring (sm_disk s') = None ∧ dk_faults (sm_disk s) ≠ [] ∧ sm_current s' = sm_current s
  | (Panic, _) => False
  end.
Proof.
intros Hok He [Hrows Hmark Happ Hmem]. unfold apply_entry. destruct s as [[rs mark fs] la lm cur ob seen]. cbn in *. subst mark.
pose proof (entry_effect_spec e rs None fs) as Heff. pose proof (rows_ok_entry log rs a e Hok He Hrows) as Hnext.
destruct (entry_effect e _) as [[[r o]|err|] [rs' mark' fs']]; cbn in *; [| |done].
- destruct Heff as [(-> & -> & ->) _]. split_and!; [|done..]. constructor; cbn; [done|done| |].
  + by rewrite He.
  + rewrite (members_at_S _ _ _ He). unfold next_membership. rewrite Hmem. by destruct (en_payload e).
- destruct Heff as [[Hrs ->] Hfs]. split_and!; [|done..].
  destruct Hrs as [->| ->]; [exists a|exists (S a)]; (split; [lia|done]).
Qed.

(** Whatever the storage calls do, applying the next entries leaves the disk at some
position of the log, and at their end when the call succeeds. *)
Lemma apply_entries_ok log : log_ok log → ∀ b a (s : Machine M), (a <= b <= length log)%nat → machine_ok log a s →
  match apply_entries (stretch a b log) s with
  | (Ok rs, s') => machine_ok log b s' ∧ rs = answers (stretch a b log) (dk_rows (sm_disk s)) ∧ sm_current s' = sm_current s ∧
      (∀ realm k, client_key k = true → cell_of (dk_rows (sm_disk s')) realm k =
         run_cell (key_ops (stretch a b log) realm k) (cell_of (dk_rows (sm_disk s)) realm k))
  | (Err _, s') => (∃ a', (a <= a' <= b)%nat ∧ rows_ok log (dk_rows (sm_disk s')) a') ∧ dk_restoring (sm_disk s') = None
  | (Panic, _) => False
  end.
Proof.
intros Hok b a. remember (b - a)%nat as n eqn:Hn. revert a Hn. induction n as [|n IH]; intros a Hn s Hab Hs.
{ assert (b = a) as -> by lia. rewrite stretch_nil. cbn. done. }
destruct (lookup_lt_is_Some_2 log a) as [e He]; [lia|]. rewrite (stretch_split a (S a) b) by lia.
rewrite (stretch_one _ _ _ He). cbn [app apply_entries answers].
pose proof (apply_entry_ok log a e s Hok He Hs) as H1. destruct (apply_entry e s) as [[r|err|] s1]; [| |done].
- destruct H1 as (Hs1 & Hrs & Hr & Hcur). specialize (IH (S a) ltac:(lia) s1 ltac:(lia) Hs1).
  destruct (apply_entries _ s1) as [[rs|err|] s2]; [| |done].
  + destruct IH as (Hs2 & -> & Hcur2 & Hcells). split_and!; [done|by rewrite Hr, Hrs|congruence|].
    intros realm k Hk. rewrite Hcells, Hrs by done. rewrite entry_cell; [done|done|]. apply (log_client _ Hok). by apply list_elem_of_lookup_2 in He.
  + destruct IH as [(a' & Ha' & Hrows) ?]. split; [|done]. exists a'. split; [lia|done].
- destruct H1 as ((a' & Ha' & Hrows) & ? & _ & _). split; [|done]. exists a'. split; [lia|done].
Qed.

(** ** Opening *)

Lemma greatest_applied_ok log rs a mark : log_ok log → rows_ok log rs a → ∀ (realms : list RealmId) b, (b <= a)%nat →
  tri (greatest_applied realms (last_id log b)) rs mark
    (λ o rs' mark', (∃ b', (b <= b' <= a)%nat ∧ o = last_id log b' ∧
        (∀ realm j i, realm ∈ realms → (j <= a)%nat → last_id log j = Some i →
           rows_of rs realm !! SM_APPLIED_KEY = Some (ser_log_id i) → (j <= b')%nat)) ∧ rs' = rs ∧ mark' = mark)
    (λ rs' mark', rs' = rs ∧ mark' = mark).
Proof.
intros Hok Hrows. pose proof (ro_pos _ _ _ Hrows) as Hpos. induction realms as [|r realms IH]; intros b Hb; cbn [greatest_applied].
{ apply tri_ret. split; [|done]. exists b. split; [lia|]. split; [done|]. intros ? ? ? ?%elem_of_nil. done. }
apply tri_bind, tri_read; [|done]. destruct (rows_of rs r !! SM_APPLIED_KEY) as [bs|] eqn:Hbs.
- destruct (ro_applied _ _ _ Hrows _ _ Hbs) as (j & i & Hj & Hi & ->). unfold decoded. rewrite de_ser_log_id.
  apply tri_bind, tri_ret. rewrite <-Hi. rewrite last_id_max by (done || lia).
  eapply tri_mono; [apply IH; lia| |done]. intros o rs' mark' ((b' & Hb' & -> & Hmax) & -> & ->). split; [|done].
  exists b'. split; [lia|]. split; [done|]. intros realm j' i' [->|Hin]%elem_of_cons Hj' Hi' Hrow; [|by eapply Hmax].
  rewrite Hbs in Hrow. injection Hrow as Hrow. apply (f_equal de_log_id) in Hrow. rewrite !de_ser_log_id in Hrow. injection Hrow as <-.
  rewrite <-(pos_of_last_id log j'), Hi', <-Hi, pos_of_last_id by (done || lia). lia.
- eapply tri_mono; [by apply IH| |done]. intros o rs' mark' ((b' & Hb' & -> & Hmax) & -> & ->). split; [|done].
  exists b'. split; [lia|]. split; [done|]. intros realm j i [->|Hin]%elem_of_cons Hj Hi Hrow; [congruence|by eapply Hmax].
Qed.

(** The persisted applied state is exact. *)
Lemma load_applied_ok log rs a mark : log_ok log → rows_ok log rs a →
  tri load_applied_state rs mark (λ o rs' mark', o = (last_id log a, members_at log a) ∧ rs' = rs ∧ mark' = mark)
    (λ rs' mark', rs' = rs ∧ mark' = mark).
Proof.
intros Hok Hrows. unfold load_applied_state. apply tri_bind, tri_read; [|done]. apply tri_bind.
eapply tri_mono; [apply (greatest_applied_ok log rs a mark Hok Hrows _ 0%nat); lia| |done].
intros o rs' mark' ((b & Hb & -> & Hmax) & -> & ->).
assert (b = a) as ->.
{ destruct (ro_last _ _ _ Hrows) as [->|(realm & i & Hi & Hrow)]; [lia|].
  assert (a <= b)%nat; [|lia]. eapply Hmax; [by eapply realm_listed|done..]. }
pose proof (ro_members _ _ _ Hrows) as Hm. unfold stored_members in Hm.
apply tri_bind, tri_read; [|done]. destruct (rows_of rs meta_realm !! SM_MEMBERSHIP_KEY) as [bs|].
- apply tri_bind. unfold decoded. rewrite Hm. by apply tri_ret, tri_ret.
- injection Hm as <-. by apply tri_bind, tri_ret, tri_ret.
Qed.

(** With working storage, applying entries succeeds. *)
Lemma apply_entries_no_fault (es : list (Entry M)) (s : Machine M) : dk_faults (sm_disk s) = [] → succeeds (apply_entries es s).1 = true.
Proof.
revert s. induction es as [|e es IH]; intros s Hf; [done|]. cbn. unfold apply_entry.
destruct s as [[rs mark fs] la lm cur ob seen]. cbn in *. subst fs. pose proof (entry_effect_spec e rs mark []) as Heff.
destruct (entry_effect e _) as [[[r o]|err|] [rs' mark' fs']]; cbn in *; [|by destruct Heff|done].
destruct Heff as [_ Hfs]. specialize (IH (MkMachine (MkDisk rs' mark' fs') (Some (en_log_id e))
  (match en_payload e with Membership m => MkMembership (Some (en_log_id e)) m | _ => lm end) cur ob (seen ++ (if ob then o else []))) (Hfs eq_refl)).
by destruct (apply_entries es _) as [[rs''|err|] s''].
Qed.
End log.
