(* ===== verification/RaftInstall.v ===== *)
(** * Snapshots

The rows a snapshot payload holds, and the in-place restore: whatever its storage calls
do, the node ends with the old rows, with the restored ones, or with the marker that
makes the data directory refuse to open ([restore_spec]). *)
From stdpp Require Import base list gmap strings sorting.
From Stdlib Require Import Strings.Byte ZArith Lia.
From S2P Require Import Prelude OrdMap StorageTypes OrdSet RealmRows RaftState RaftReplay RaftLog.

Open Scope Z_scope.

Section install.
Context {M : Type} `{!RaftCodec M, !RealmList, !RealmListLaws}.
Implicit Types (realm : RealmId) (k v : list byte) (rs : Rows) (mark : option (list byte)) (p : SnapshotPayload).

(** The rows a payload holds. *)
Definition payload_put rs (d : RealmData) : Rows := put_rows (rd_realm d) (rd_entries d) [] rs.
Definition payload_rows p : Rows := foldl payload_put ∅ (sp_realms p).
(** A payload has no applied-state rows. *)
Definition payload_clean p : Prop :=
  Forall (λ d, Forall (λ kv, is_state_machine_meta_key kv.1 = false) (rd_entries d)) (sp_realms p).

(** Two sets of rows agree on the keys that snapshots and restores scan. *)
Definition same_window rs rs' : Prop := ∀ realm k, ord_lt k SCAN_END = true → rows_of rs realm !! k = rows_of rs' realm !! k.
#[local] Instance same_window_equiv : Equivalence same_window.
Proof. split; [done|intros x y Hxy realm k Hk; by rewrite Hxy|intros x y z Hxy Hyz realm k Hk; by rewrite Hxy, Hyz]. Qed.

#[local] Instance put_rows_proper realm puts deletes : Proper (same_window ==> same_window) (put_rows realm puts deletes).
Proof.
intros x y Hxy realm' k Hk. rewrite !rows_of_put. case_decide; [|by apply Hxy].
rewrite !lookup_delete_all. case_decide; [done|]. rewrite (lookup_put_all puts (rows_of x realm)), (lookup_put_all puts (rows_of y realm)).
by rewrite Hxy.
Qed.

Lemma payload_put_same (ds : list RealmData) rs rs' : same_window rs rs' → same_window (foldl payload_put rs ds) (foldl payload_put rs' ds).
Proof. revert rs rs'. induction ds as [|d ds IH]; intros rs rs' Hs; [done|]. cbn. apply IH. by apply put_rows_proper. Qed.

Lemma in_window_end k : in_window [] SCAN_END k = ord_lt k SCAN_END.
Proof. unfold in_window. replace (ord_lt k []) with false; [done|]. symmetry. apply not_true_is_false. rewrite ord_lt_iff. intros Hlt. by destruct k. Qed.

Lemma clear_realm_spec realm rs mark :
  tri (clear_realm realm) rs mark
    (λ _ rs' mark', mark' = mark ∧ ∀ r k, ord_lt k SCAN_END = true →
       rows_of rs' r !! k = if decide (r = realm) then None else rows_of rs r !! k)
    (λ _ mark', mark' = mark).
Proof.
apply tri_bind, tri_read; [|done].
assert (∀ k, ord_lt k SCAN_END = true → k ∈ (se_key <$> scan [] SCAN_END (rows_of rs realm)) ∨ rows_of rs realm !! k = None) as Hcov.
{ intros k Hk. destruct (rows_of rs realm !! k) as [v|] eqn:Hv; [left|by right]. apply list_elem_of_fmap. exists (Scan k v). split; [done|].
  apply elem_of_scan. by rewrite in_window_end. }
destruct (scan [] SCAN_END (rows_of rs realm)) as [|e es] eqn:Hs.
- apply tri_ret. split; [done|]. intros r k Hk. case_decide; [subst|done]. by destruct (Hcov k Hk) as [?%elem_of_nil|].
- apply tri_batch; [|done..]. split; [done|]. intros r k Hk. rewrite rows_of_put. destruct (decide (realm = r)) as [->|Hne].
  + rewrite decide_True by done. rewrite lookup_delete_all. cbn [put_all foldl]. case_decide as Hin; [done|]. by destruct (Hcov k Hk).
  + by rewrite decide_False.
Qed.

Lemma clear_all_spec (realms : list RealmId) rs mark :
  tri (disk_each realms clear_realm) rs mark
    (λ _ rs' mark', mark' = mark ∧ ∀ r k, ord_lt k SCAN_END = true →
       rows_of rs' r !! k = if decide (r ∈ realms) then None else rows_of rs r !! k)
    (λ _ mark', mark' = mark).
Proof.
revert rs. induction realms as [|r0 realms IH]; intros rs; cbn [disk_each].
{ apply tri_ret. split; [done|]. intros r k _. by rewrite decide_False by apply not_elem_of_nil. }
apply tri_bind. eapply tri_mono; [apply clear_realm_spec| |done]. intros _ rs1 mark1 [-> Hr0].
eapply tri_mono; [apply IH| |done]. intros _ rs2 mark2 [-> Hrs]. split; [done|]. intros r k Hk. rewrite Hrs, Hr0 by done.
destruct (decide (r = r0)) as [->|Hne].
- rewrite (decide_True (P := r0 ∈ r0 :: realms)) by left. by case_decide.
- by rewrite (decide_ext (r ∈ r0 :: realms) (r ∈ realms)) by (rewrite elem_of_cons; naive_solver).
Qed.

(** Phase 1 leaves nothing that a scan could see. *)
Lemma clear_disk_spec rs mark :
  tri (on_disk ← reading WriteErr list_realms; disk_each on_disk clear_realm) rs mark
    (λ _ rs' mark', mark' = mark ∧ same_window rs' ∅) (λ _ mark', mark' = mark).
Proof.
apply tri_bind, tri_read; [|done]. eapply tri_mono; [apply clear_all_spec| |done]. intros _ rs' mark' [-> Hrs]. split; [done|].
intros r k Hk. rewrite Hrs by done. unfold rows_of at 2. rewrite lookup_empty. cbn. rewrite lookup_empty.
case_decide as Hin; [done|]. destruct (rows_of rs r !! k) as [v|] eqn:Hv; [|done]. exfalso. by apply Hin, (realm_listed rs r k v).
Qed.

Lemma put_each_spec (ds : list RealmData) rs mark :
  tri (disk_each ds (λ d, engine_put_batch WriteErr (rd_realm d) (rd_entries d))) rs mark
    (λ _ rs' mark', mark' = mark ∧ rs' = foldl payload_put rs ds) (λ _ mark', mark' = mark).
Proof.
revert rs. induction ds as [|d ds IH]; intros rs; cbn [disk_each foldl]; [by apply tri_ret|].
apply tri_bind. apply (tri_write _ _ _ _ _ _ (payload_put rs d) mark); [done| |done..]. apply IH.
Qed.

(** The rows after an install. *)
Record restored p (meta : SnapshotMeta M) rs : Prop := {
  rst_cells realm k : client_key k = true → cell_of rs realm k = cell_of (payload_rows p) realm k;
  rst_applied realm : rows_of rs realm !! SM_APPLIED_KEY =
    if decide (realm = meta_realm) then ser_log_id <$> mt_last_log_id meta else None;
  rst_members : rows_of rs meta_realm !! SM_MEMBERSHIP_KEY = Some (ser_membership (mt_last_membership meta))
}.

Lemma payload_no_meta p realm k : payload_clean p → is_state_machine_meta_key k = true → rows_of (payload_rows p) realm !! k = None.
Proof.
unfold payload_clean, payload_rows. intros Hc Hk. induction (sp_realms p) as [|d ds IH] using rev_ind.
{ unfold rows_of. cbn. by rewrite lookup_empty. }
apply Forall_app in Hc as [Hc [Hd _]%Forall_cons]. rewrite foldl_app. cbn [foldl]. unfold payload_put at 1. rewrite rows_of_put.
case_decide; [subst|by apply IH]. cbn [delete_all foldl]. rewrite lookup_put_all_other; [by apply IH|].
intros ([k' v] & -> & Hin)%list_elem_of_fmap. rewrite list.Forall_forall in Hd. apply Hd in Hin. cbn in *. congruence.
Qed.

Lemma client_window k : client_key k = true → ord_lt k SCAN_END = true ∧ ord_lt (applied_index_key k) SCAN_END = true.
Proof. unfold client_key. rewrite !andb_true_iff. tauto. Qed.
Lemma meta_window k : is_state_machine_meta_key k = true → ord_lt k SCAN_END = true.
Proof. unfold is_state_machine_meta_key. rewrite orb_true_iff, !bool_decide_eq_true. by intros [->| ->]; vm_compute. Qed.

Lemma restored_rows p (meta : SnapshotMeta M) rs : payload_clean p → same_window rs (payload_rows p) →
  restored p meta (put_rows meta_realm (install_meta_rows meta) [] rs).
Proof.
intros Hc Hs. unfold install_meta_rows. constructor.
- intros realm k Hk. rewrite meta_write_cell; [|done|by destruct (mt_last_log_id meta); repeat constructor].
  destruct (client_window k Hk) as [Hw1 Hw2]. unfold cell_of. by rewrite !Hs.
- intros realm. rewrite rows_of_put. destruct (decide (meta_realm = realm)) as [<-|Hne].
  + rewrite decide_True by done. cbn [delete_all foldl]. destruct (mt_last_log_id meta) as [i|]; cbn [put_all foldl fst snd fmap option_fmap option_map].
    * by rewrite lookup_insert_eq.
    * rewrite lookup_insert_ne by done. rewrite Hs by (by apply meta_window). by rewrite payload_no_meta.
  + rewrite decide_False by done. rewrite Hs by (by apply meta_window). by rewrite payload_no_meta.
- rewrite rows_of_put, decide_True by done. cbn [delete_all foldl]. destruct (mt_last_log_id meta); cbn [put_all foldl fst snd].
  + rewrite lookup_insert_ne by done. by rewrite lookup_insert_eq.
  + by rewrite lookup_insert_eq.
Qed.

(** The restore, whatever its storage calls do. *)
Lemma restore_spec p (id : list byte) (meta : SnapshotMeta M) rs : payload_clean p →
  tri (restore_snapshot_in_place p id (install_meta_rows meta)) rs None
    (λ _ rs' mark', mark' = None ∧ restored p meta rs')
    (λ rs' mark', mark' = None ∧ rs' = rs ∨ mark' = Some id ∨ mark' = None ∧ restored p meta rs').
Proof.
intros Hc. apply tri_bind. apply (tri_write _ _ _ _ _ _ rs (Some id)); [done| |by left; done|by right; left].
apply tri_assoc, tri_bind. eapply tri_mono; [apply clear_disk_spec| |by auto]. intros _ rs1 mark1 [-> Hs1].
apply tri_bind. eapply tri_mono; [apply put_each_spec| |by auto]. intros _ rs2 mark2 [-> ->].
assert (same_window (foldl payload_put rs1 (sp_realms p)) (payload_rows p)) as Hs2 by (by apply payload_put_same).
apply tri_bind, tri_batch; [|by auto..].
apply (tri_write _ _ _ _ _ _ (put_rows meta_realm (install_meta_rows meta) [] (foldl payload_put rs1 (sp_realms p))) None); [done|..].
- split; [done|]. by apply restored_rows.
- auto.
- right. right. split; [done|]. by apply restored_rows.
Qed.
End install.
