(* ===== verification/RaftCluster.v ===== *)
(** * A cluster of state machines

Nodes that apply one committed log in any interleaving: batches of entries with storage
faults, crashes and restarts, snapshot builds that scan while entries keep being applied,
and installs, torn ones included. A node that has applied the whole log holds exactly the
rows the log describes ([replicas_converge]), and a restart resumes at the last entry
whose effect is durable ([restart_resumes]). *)
From stdpp Require Import base list gmap strings sorting.
From Stdlib Require Import Strings.Byte ZArith Lia.
From S2P Require Import Prelude OrdMap StorageTypes OrdSet RealmRows RaftState RaftReplay RaftLog RaftInstall.

Open Scope Z_scope.

Section cluster.
Context {M : Type} `{!RaftCodec M, !RealmList}.
Implicit Types (log : list (Entry M)) (realm : RealmId) (k v : list byte) (rs : Rows) (a b p : nat) (snap : StoredSnapshot M)
  (seen : RealmId → Store) (realms : list RealmId).

(** ** Nodes *)

(** A snapshot being built: what the builder captured, the rows at that moment, and
whether an install has replaced the rows since. *)
Record Build := MkBuild { bu_builder : Builder M; bu_rows : Rows; bu_torn : bool }.
(** A node: its state machine, whether it runs (a storage error ends Raft on the node,
a crash the process), and its builds. *)
Record Node := MkNode { nd_machine : Machine M; nd_up : bool; nd_builds : list Build }.
(** The committed log, the nodes, and the snapshots nodes have served. *)
Record Cluster := MkCluster { cl_log : list (Entry M); cl_nodes : list Node; cl_served : list (StoredSnapshot M) }.

Definition with_faults (fs : list Fault) (s : Machine M) : Machine M :=
  MkMachine (MkDisk (dk_rows (sm_disk s)) (dk_restoring (sm_disk s)) fs) (sm_last_applied s) (sm_last_membership s)
    (sm_current s) (sm_observer s) (sm_observed s).
Definition set_current (slot : option (StoredSnapshot M)) (s : Machine M) : Machine M :=
  MkMachine (sm_disk s) (sm_last_applied s) (sm_last_membership s) slot (sm_observer s) (sm_observed s).
Definition tear (bu : Build) : Build := MkBuild (bu_builder bu) (bu_rows bu) true.

(** What the scans of a build saw of one cell. *)
Definition seen_cell realms seen realm (k : list byte) : cell :=
  if decide (realm ∈ realms) then (seen realm !! k, seen realm !! applied_index_key k) else (None, None).
(** A build of a node that has now applied [b] entries: each key's row was read with its
sidecar, after some of the entries applied since the builder was made. *)
Definition sees log (bu : Build) (b : nat) realms seen : Prop :=
  bu_torn bu = true ∨
  ∀ realm k, client_key k = true → ∃ p, (pos_of (bd_last_applied (bu_builder bu)) <= p <= b)%nat ∧
    seen_cell realms seen realm k =
    run_cell (key_ops (stretch (pos_of (bd_last_applied (bu_builder bu))) p log) realm k) (cell_of (bu_rows bu) realm k).

(** ** Steps *)

Inductive node_step log (served : list (StoredSnapshot M)) : Node → Node → Prop :=
| NApply b fs s bus o s' :
    (pos_of (sm_last_applied s) <= b <= length log)%nat →
    apply_entries (stretch (pos_of (sm_last_applied s)) b log) (with_faults fs s) = (o, s') →
    node_step log served (MkNode s true bus) (MkNode s' (succeeds o) (if succeeds o then bus else []))
| NCrash s up bus : node_step log served (MkNode s up bus) (MkNode s false [])
| NReopen observer fs s bus s' d' :
    reopen observer (sm_disk (with_faults fs s)) = (Ok (Ok s'), d') →
    node_step log served (MkNode s false bus) (MkNode s' true [])
| NBuildStart s bus :
    node_step log served (MkNode s true bus) (MkNode s true (MkBuild (get_snapshot_builder s) (dk_rows (sm_disk s)) false :: bus))
| NBuildDone s bus1 bu bus2 uuid realms seen :
    sees log bu (pos_of (sm_last_applied s)) realms seen →
    node_step log served (MkNode s true (bus1 ++ bu :: bus2))
      (MkNode (set_current (build_snapshot (bu_builder bu) uuid realms seen (sm_current s)).2 s) true (bus1 ++ bus2))
| NInstall snap fs s bus o s' :
    snap ∈ served → opt_log_id_ltb (sm_last_applied s) (mt_last_log_id (ss_meta snap)) = true →
    install_snapshot snap (with_faults fs s) = (o, s') →
    node_step log served (MkNode s true bus) (MkNode s' (succeeds o) (if succeeds o then tear <$> bus else [])).

Inductive step : Cluster → Cluster → Prop :=
| SCommit log nodes served e : log_ok (log ++ [e]) → step (MkCluster log nodes served) (MkCluster (log ++ [e]) nodes served)
| SNode log nodes served n nd nd' : nodes !! n = Some nd → node_step log served nd nd' →
    step (MkCluster log nodes served) (MkCluster log (<[n := nd']> nodes) served)
| SServe log nodes served n s bus snap : nodes !! n = Some (MkNode s true bus) → sm_current s = Some snap →
    step (MkCluster log nodes served) (MkCluster log nodes (snap :: served)).

(** A new cluster: empty data directories, no entry. *)
Definition new_node : Node :=
  MkNode (MkMachine (MkDisk ∅ None []) None no_membership None false []) false [].
Definition new_cluster (n : nat) : Cluster := MkCluster [] (replicate n new_node) [].
Definition reachable (n : nat) (c : Cluster) : Prop := rtc step (new_cluster n) c.

(** ** The invariant *)

(** A snapshot that a node can install in place of the first [j] entries. *)
Definition snap_ok log snap (j : nat) : Prop :=
  (j <= length log)%nat ∧ mt_last_log_id (ss_meta snap) = last_id log j ∧ mt_last_membership (ss_meta snap) = members_at log j ∧
  ∃ pl, decompress_payload (ss_data snap) = Some pl ∧ payload_clean pl ∧
    ∀ realm k, client_key k = true → fuzzy log j realm k (cell_of (payload_rows pl) realm k).

Definition slot_ok log (slot : option (StoredSnapshot M)) : Prop := ∀ snap, slot = Some snap → ∃ j, snap_ok log snap j.

(** A build of a running node at [a], whose slot is [slot]. *)
Record build_ok log a (rs : Rows) (slot : option (StoredSnapshot M)) (bu : Build) : Prop := {
  bo_pos : (pos_of (bd_last_applied (bu_builder bu)) <= a)%nat;
  bo_id : bd_last_applied (bu_builder bu) = last_id log (pos_of (bd_last_applied (bu_builder bu)));
  bo_members : bd_last_membership (bu_builder bu) = members_at log (pos_of (bd_last_applied (bu_builder bu)));
  bo_whole : bu_torn bu = false → ∀ realm k, client_key k = true →
    fuzzy log (pos_of (bd_last_applied (bu_builder bu))) realm k (cell_of (bu_rows bu) realm k) ∧
    cell_of rs realm k = run_cell (key_ops (stretch (pos_of (bd_last_applied (bu_builder bu))) a log) realm k) (cell_of (bu_rows bu) realm k);
  bo_torn : bu_torn bu = true → ∃ cur, slot = Some cur ∧
    opt_log_id_ltb (bd_last_applied (bu_builder bu)) (mt_last_log_id (ss_meta cur)) = true
}.

(** A node against the log: running, stopped with a whole disk, or stopped by a restore
that its marker shows. *)
Inductive node_ok log : Node → Prop :=
| NodeUp s bus a : machine_ok log a s → slot_ok log (sm_current s) →
    Forall (build_ok log a (dk_rows (sm_disk s)) (sm_current s)) bus → node_ok log (MkNode s true bus)
| NodeDown s bus a : rows_ok log (dk_rows (sm_disk s)) a → dk_restoring (sm_disk s) = None → node_ok log (MkNode s false bus)
| NodeTorn s bus id : dk_restoring (sm_disk s) = Some id → node_ok log (MkNode s false bus).

Record cluster_ok (c : Cluster) : Prop := {
  co_log : log_ok (cl_log c);
  co_nodes : Forall (node_ok (cl_log c)) (cl_nodes c);
  co_served : Forall (λ snap, ∃ j, snap_ok (cl_log c) snap j) (cl_served c)
}.

(** ** Builds *)

Lemma lookup_realm_entries (st s : Store) k : is_state_machine_meta_key k = false → ord_lt k SCAN_END = true →
  put_all (realm_entries st) s !! k = match st !! k with Some v => Some v | None => s !! k end.
Proof.
intros Hm Hw. assert (∀ v, (k, v) ∈ realm_entries st ↔ st !! k = Some v) as Hin.
{ intros v. unfold realm_entries. rewrite list_elem_of_fmap. split.
  - intros ([k' v'] & [= -> ->] & [_ [Hs _]%elem_of_scan]%list_elem_of_filter). done.
  - intros Hv. exists (Scan k v). split; [done|]. apply list_elem_of_filter. split; [done|]. apply elem_of_scan. cbn. by rewrite in_window_end. }
destruct (st !! k) as [v|] eqn:Hv.
- apply lookup_put_all_in.
  + apply list_elem_of_fmap. exists (k, v). split; [done|]. by apply Hin.
  + intros v' Hv'%Hin. congruence.
- apply lookup_put_all_other. intros ([k' v'] & -> & Hv')%list_elem_of_fmap. cbn in *. apply Hin in Hv'. congruence.
Qed.

Lemma build_rows realms seen realm k : is_state_machine_meta_key k = false → ord_lt k SCAN_END = true →
  rows_of (payload_rows (build_payload realms seen)) realm !! k = if decide (realm ∈ realms) then seen realm !! k else None.
Proof.
intros Hm Hw. unfold payload_rows, build_payload. cbn [sp_realms].
induction realms as [|r realms IH] using rev_ind.
{ rewrite decide_False by apply not_elem_of_nil. unfold rows_of. cbn. by rewrite lookup_empty. }
rewrite omap_app, foldl_app. set (rs := foldl payload_put ∅ _) in *. cbn [omap list_omap].
assert (∀ st, realm_entries st = [] → st !! k = None) as Hempty.
{ intros st Hst. pose proof (lookup_realm_entries st ∅ k Hm Hw) as Hl. rewrite Hst in Hl. cbn in Hl. rewrite lookup_empty in Hl. by destruct (st !! k). }
destruct (decide (realm = r)) as [->|Hne].
- rewrite (decide_True (P := r ∈ realms ++ [r])) by (apply elem_of_app; right; left).
  destruct (realm_entries (seen r)) as [|kv kvs] eqn:Hes; cbn [foldl].
  + rewrite IH. rewrite (Hempty _ Hes). by case_decide.
  + unfold payload_put. cbn [rd_realm rd_entries]. rewrite rows_of_put, decide_True by done. cbn [delete_all foldl]. rewrite <-Hes, lookup_realm_entries by done.
    destruct (seen r !! k) as [v|] eqn:Hv; [done|]. rewrite IH. by case_decide.
- rewrite (decide_ext (realm ∈ realms ++ [r]) (realm ∈ realms)) by (rewrite elem_of_app, list_elem_of_singleton; naive_solver).
  rewrite <-IH. destruct (realm_entries (seen r)); cbn [foldl]; [done|]. unfold payload_put. cbn [rd_realm rd_entries]. rewrite rows_of_put. by rewrite decide_False by congruence.
Qed.

Lemma build_cell realms seen realm k : client_key k = true →
  cell_of (payload_rows (build_payload realms seen)) realm k = seen_cell realms seen realm k.
Proof.
intros Hk. destruct (client_window k Hk) as [Hw1 Hw2]. unfold cell_of, seen_cell.
rewrite !build_rows by (done || apply sidecar_not_meta || by apply client_not_meta). by case_decide.
Qed.

Lemma build_clean realms seen : payload_clean (build_payload realms seen).
Proof.
apply list.Forall_forall. intros d (r & _ & Hd)%list_elem_of_omap. apply list.Forall_forall. intros kv Hkv.
destruct (realm_entries (seen r)) as [|kv' kvs] eqn:Hes; [done|]. injection Hd as <-. cbn [rd_entries] in Hkv. rewrite <-Hes in Hkv.
unfold realm_entries in Hkv. apply list_elem_of_fmap in Hkv as (e & -> & [He _]%list_elem_of_filter). done.
Qed.

Lemma log_id_ltb_mono (i j k : option LogId) : opt_log_id_ltb i j = true → opt_log_id_ltb k j = false → opt_log_id_ltb i k = true.
Proof. destruct i as [i|], j as [j|], k as [k|]; cbn; try done. unfold log_id_ltb. intros H1 H2. lia. Qed.

(** An offer never lowers what the slot covers. *)
Lemma offer_ltb snap cur (i : option LogId) : opt_log_id_ltb i (mt_last_log_id (ss_meta cur)) = true →
  ∃ cur', snapshot_slot_offer (Some cur) snap = Some cur' ∧ opt_log_id_ltb i (mt_last_log_id (ss_meta cur')) = true.
Proof.
intros Hi. cbn. destruct (opt_log_id_ltb (mt_last_log_id (ss_meta snap)) (mt_last_log_id (ss_meta cur))) eqn:Ho; [by eauto|].
exists snap. split; [done|]. by eapply log_id_ltb_mono.
Qed.
Lemma offer_covers (slot : option (StoredSnapshot M)) snap (i : option LogId) : opt_log_id_ltb i (mt_last_log_id (ss_meta snap)) = true →
  ∃ cur', snapshot_slot_offer slot snap = Some cur' ∧ opt_log_id_ltb i (mt_last_log_id (ss_meta cur')) = true.
Proof.
intros Hi. destruct slot as [cur|]; cbn; [|by eauto]. case_match eqn:Ho; [|by eauto]. exists cur. split; [done|].
destruct i as [i|], (mt_last_log_id (ss_meta snap)) as [j|], (mt_last_log_id (ss_meta cur)) as [k|]; cbn in *; try done.
unfold log_id_ltb in *. lia.
Qed.
Lemma offer_cases (slot : option (StoredSnapshot M)) snap : snapshot_slot_offer slot snap = slot ∨ snapshot_slot_offer slot snap = Some snap.
Proof. destruct slot; cbn; [case_match|]; auto. Qed.

(** ** The steps keep the invariant *)

Lemma snap_ok_grows log l snap j : snap_ok log snap j → snap_ok (log ++ l) snap j.
Proof.
intros (Hj & Hid & Hm & pl & Hd & Hc & Hf). split; [rewrite length_app; lia|]. rewrite last_id_app, members_at_app by done.
split; [done|]. split; [done|]. exists pl. split; [done|]. split; [done|]. intros realm k Hk. by apply fuzzy_grows, Hf.
Qed.

Lemma build_ok_grows log l a rs slot bu : (a <= length log)%nat → build_ok log a rs slot bu → build_ok (log ++ l) a rs slot bu.
Proof.
intros Ha [Hpos Hid Hm Hw Ht]. constructor; [done| | | |done].
- by rewrite last_id_app by lia.
- by rewrite members_at_app by lia.
- intros Htorn realm k Hk. destruct (Hw Htorn realm k Hk) as [Hf Hc]. split; [by apply fuzzy_grows|]. by rewrite stretch_app.
Qed.

Lemma node_ok_grows log l nd : node_ok log nd → node_ok (log ++ l) nd.
Proof.
destruct 1 as [s bus a [Hrows Hmark Happ Hmem] Hslot Hb|s bus a Hrows Hmark|s bus id Hmark].
- pose proof (ro_pos _ _ _ Hrows). apply (NodeUp _ s bus a).
  + constructor; [by apply rows_ok_grows|done| |]; [by rewrite last_id_app|by rewrite members_at_app].
  + intros snap [j Hj]%Hslot. exists j. by apply snap_ok_grows.
  + eapply Forall_impl; [exact Hb|]. intros bu. by apply build_ok_grows.
- apply (NodeDown _ s bus a); [by apply rows_ok_grows|done].
- by apply (NodeTorn _ s bus id).
Qed.

Context `{!RaftCodecLaws M, !RealmListLaws}.

Lemma machine_ok_faults log a fs (s : Machine M) : machine_ok log a s → machine_ok log a (with_faults fs s).
Proof. intros [? ? ? ?]. by constructor. Qed.

Lemma apply_step_ok log b fs (s : Machine M) bus o s' : log_ok log → node_ok log (MkNode s true bus) →
  (pos_of (sm_last_applied s) <= b <= length log)%nat →
  apply_entries (stretch (pos_of (sm_last_applied s)) b log) (with_faults fs s) = (o, s') →
  node_ok log (MkNode s' (succeeds o) (if succeeds o then bus else [])).
Proof.
intros Hok Hnd Hb Hap. inversion Hnd as [s0 bus0 a Hs Hslot Hbus| |]; subst.
pose proof (ro_pos _ _ _ (mo_rows _ _ _ Hs)) as Ha. rewrite (mo_applied _ _ _ Hs), pos_of_last_id in * by done.
pose proof (apply_entries_ok log Hok b a (with_faults fs s) Hb (machine_ok_faults _ _ fs _ Hs)) as Hres. rewrite Hap in Hres.
destruct o as [rs|err|]; cbn [succeeds]; [| |done].
- destruct Hres as (Hs' & _ & Hcur & Hcells). apply (NodeUp _ s' bus b); [done|by rewrite Hcur|].
  eapply Forall_impl; [exact Hbus|]. intros bu [Hpos Hid Hm Hw Ht]. constructor; [lia|done|done| |by rewrite Hcur].
  intros Htorn realm k Hk. destruct (Hw Htorn realm k Hk) as [Hf Hc]. split; [done|]. rewrite Hcells by done. cbn. rewrite Hc.
  rewrite <-run_stretch by lia. done.
- destruct Hres as [(a' & Ha' & Hrows) Hmark]. by apply (NodeDown _ s' [] a').
Qed.

Lemma reopen_step_ok log observer fs (s : Machine M) bus s' d' : log_ok log → node_ok log (MkNode s false bus) →
  reopen observer (sm_disk (with_faults fs s)) = (Ok (Ok s'), d') → node_ok log (MkNode s' true []).
Proof.
intros Hok Hnd. unfold reopen, with_observer_slot. cbn. destruct s as [[rs mark f0] la lm cur ob sn]. cbn in *. destruct mark as [id|]; [done|].
inversion Hnd as [|s0 bus0 a Hrows Hmark|]; subst; cbn in *; [|done].
pose proof (load_applied_ok log rs a None Hok Hrows fs) as Hl. destruct (load_applied_state _) as [[[la' lm']|e|] [rs' mark' fs']]; cbn in *; [|done..].
destruct Hl as [([= -> ->] & -> & ->) _]. intros [= <- _]. apply (NodeUp _ _ _ a); [by constructor|done|by constructor].
Qed.

Lemma build_step_ok log (s : Machine M) bus1 bu bus2 uuid realms seen : log_ok log → node_ok log (MkNode s true (bus1 ++ bu :: bus2)) →
  sees log bu (pos_of (sm_last_applied s)) realms seen →
  node_ok log (MkNode (set_current (build_snapshot (bu_builder bu) uuid realms seen (sm_current s)).2 s) true (bus1 ++ bus2)).
Proof.
intros Hok Hnd Hsees. inversion Hnd as [s0 bus0 a Hs Hslot Hbus| |]; subst.
pose proof (ro_pos _ _ _ (mo_rows _ _ _ Hs)) as Ha. rewrite (mo_applied _ _ _ Hs), pos_of_last_id in Hsees by done.
apply Forall_app in Hbus as [Hb1 [Hb Hb2]%Forall_cons]. cbn [build_snapshot snd]. set (snap := MkSnapshot _ _).
assert (snapshot_slot_offer (sm_current s) snap = sm_current s ∨
        snapshot_slot_offer (sm_current s) snap = Some snap ∧ ∃ j, snap_ok log snap j) as Hoffer.
{ destruct Hb as [Hpos Hid Hm Hw Ht]. destruct (bu_torn bu) eqn:Htorn.
  - left. destruct (Ht eq_refl) as (cur & Hcur & Hlt). rewrite Hcur. cbn. by rewrite Hlt.
  - destruct (offer_cases (sm_current s) snap) as [->|Ho]; [by left|]. right. split; [done|].
    exists (pos_of (bd_last_applied (bu_builder bu))). split; [lia|]. split; [done|]. split; [done|]. eexists.
    split; [apply decompress_compress|]. split; [apply build_clean|]. intros realm k Hk. rewrite build_cell by done.
    destruct Hsees as [?|Hsees]; [congruence|]. destruct (Hsees realm k Hk) as (p & Hp & ->).
    apply fuzzy_read; [done|done|lia|]. by apply Hw. }
assert (∀ bus, Forall (build_ok log a (dk_rows (sm_disk s)) (sm_current s)) bus →
  Forall (build_ok log a (dk_rows (sm_disk s)) (snapshot_slot_offer (sm_current s) snap)) bus) as Hkeep.
{ intros bus Hbus. eapply Forall_impl; [exact Hbus|]. intros bu' [Hpos Hid Hm Hw Ht]. constructor; [done..|].
  intros Htorn. destruct (Ht Htorn) as (cur & -> & Hlt). by apply offer_ltb. }
apply (NodeUp _ _ _ a); cbn.
- destruct Hs. by constructor.
- destruct Hoffer as [->|[-> Hj]]; [done|]. by intros ? [= <-].
- apply Forall_app. split; by apply Hkeep.
Qed.

Lemma install_step_ok log snap fs (s : Machine M) bus o s' : log_ok log → node_ok log (MkNode s true bus) →
  (∃ j, snap_ok log snap j) → opt_log_id_ltb (sm_last_applied s) (mt_last_log_id (ss_meta snap)) = true →
  install_snapshot snap (with_faults fs s) = (o, s') →
  node_ok log (MkNode s' (succeeds o) (if succeeds o then tear <$> bus else [])).
Proof.
intros Hok Hnd [j (Hj & Hid & Hm & pl & Hd & Hc & Hf)] Hlt. inversion Hnd as [s0 bus0 a Hs Hslot Hbus| |]; subst.
pose proof (ro_pos _ _ _ (mo_rows _ _ _ Hs)) as Ha. unfold install_snapshot. rewrite Hd.
destruct s as [[rs mark f0] la lm cur ob sn]. destruct Hs as [Hrows Hmark Happ Hmem]. cbn in Hrows, Hmark, Happ, Hmem, Hlt. cbn [with_faults sm_disk dk_rows dk_restoring].
subst mark. pose proof (restore_spec pl (mt_snapshot_id (ss_meta snap)) (ss_meta snap) rs Hc fs) as Hr.
assert (∀ rs', restored pl (ss_meta snap) rs' → rows_ok log rs' j) as Hok'.
{ intros rs' [Hcells Happ' Hmem']. constructor; [done| | | |].
  - intros realm bs. rewrite Happ'. case_decide; [|done]. destruct (mt_last_log_id (ss_meta snap)) as [i|]; [|done].
    intros [= <-]. exists j, i. done.
  - destruct j as [|j]; [by left|]. right. destruct (lookup_lt_is_Some_2 log j) as [e He]; [lia|].
    exists meta_realm, (en_log_id e). rewrite Happ', decide_True by done. rewrite Hid. cbn. by rewrite He.
  - unfold stored_members. by rewrite Hmem', de_ser_membership, Hm.
  - intros realm k Hk. rewrite Hcells by done. by apply Hf. }
destruct (restore_snapshot_in_place _ _ _ _) as [[[]|err|] [rs' mark' fs']]; cbn [dk_rows dk_restoring dk_faults] in Hr; [| |done]; intros [= <- <-]; cbn [succeeds].
- destruct Hr as [[-> Hres] _]. apply (NodeUp _ _ _ j); cbn.
  + constructor; cbn; [by apply Hok'|done|done|done].
  + intros cur' Hcur. destruct (offer_cases cur snap) as [Ho|Ho]; rewrite Ho in Hcur; [by apply Hslot|].
    injection Hcur as <-. exists j. unfold snap_ok. eauto 10.
  + apply Forall_fmap. eapply Forall_impl; [exact Hbus|]. intros bu [Hpos Hbid Hbm _ _]. cbn.
    assert (opt_log_id_ltb (bd_last_applied (bu_builder bu)) (mt_last_log_id (ss_meta snap)) = true) as Hbl.
    { rewrite Hbid, Hid. rewrite Happ, Hid, last_id_ltb in Hlt by done. rewrite last_id_ltb by (done || lia). apply Nat.ltb_lt. apply Nat.ltb_lt in Hlt. lia. }
    constructor; cbn; [|done|done|done|].
    * rewrite Happ, Hid, last_id_ltb in Hlt by done. apply Nat.ltb_lt in Hlt. lia.
    * intros _. by apply offer_covers.
- destruct Hr as [[[-> ->]|[->|[-> Hres]]] _].
  + by apply (NodeDown _ _ [] a).
  + by eapply NodeTorn.
  + apply (NodeDown _ _ [] j); [by apply Hok'|done].
Qed.

Lemma node_step_ok log served nd nd' : log_ok log → Forall (λ snap, ∃ j, snap_ok log snap j) served →
  node_step log served nd nd' → node_ok log nd → node_ok log nd'.
Proof.
intros Hok Hserved. destruct 1 as [b fs s bus o s' Hb Hap|s up bus|ob fs s bus s' d' Hre|s bus|s bus1 bu bus2 uuid realms seen Hsees|snap fs s bus o s' Hsnap Hlt Hin]; intros Hnd.
- by eapply apply_step_ok.
- inversion Hnd; subst.
  + apply (NodeDown _ _ [] a); [apply mo_rows|eapply mo_restoring]; done.
  + by apply (NodeDown _ _ [] a).
  + by eapply NodeTorn.
- by eapply reopen_step_ok.
- inversion Hnd as [s0 bus0 a Hs Hslot Hbus| |]; subst. apply (NodeUp _ _ _ a); [done|done|]. constructor; [|done].
  pose proof (ro_pos _ _ _ (mo_rows _ _ _ Hs)) as Ha.
  constructor; cbn; rewrite ?(mo_applied _ _ _ Hs), ?pos_of_last_id by done; [done|done|by apply (mo_members _ _ _ Hs)| |done].
  intros _ realm k Hk. split; [by apply (ro_cells _ _ _ (mo_rows _ _ _ Hs))|]. by rewrite stretch_nil.
- by apply build_step_ok.
- rewrite list.Forall_forall in Hserved. by eapply (install_step_ok log snap fs s bus o s' Hok Hnd); [apply Hserved|..].
Qed.

Lemma cluster_step_ok c c' : step c c' → cluster_ok c → cluster_ok c'.
Proof.
destruct 1 as [log nodes served e Hok|log nodes served n nd nd' Hn Hs|log nodes served n s bus snap Hn Hcur]; intros [Hlog Hnodes Hserved]; cbn in *.
- constructor; cbn; [done| |].
  + eapply Forall_impl; [exact Hnodes|]. intros nd. apply node_ok_grows.
  + eapply Forall_impl; [exact Hserved|]. intros snap [j Hj]. exists j. by apply snap_ok_grows.
- constructor; cbn; [done| |done]. apply Forall_insert; [done|]. eapply node_step_ok; [done|done|done|].
  by apply (Forall_lookup_1 _ _ _ _ Hnodes Hn).
- constructor; cbn; [done|done|]. constructor; [|done]. pose proof (Forall_lookup_1 _ _ _ _ Hnodes Hn) as Hnd.
  inversion Hnd as [s0 bus0 a Hs Hslot Hbus| |]; subst. by apply Hslot.
Qed.

Lemma log_ok_nil : log_ok (M := M) [].
Proof.
constructor; try done.
- by intros e ?%elem_of_nil.
- intros realm k _ Hin. by apply Exists_nil in Hin.
Qed.

Lemma new_cluster_ok (n : nat) : cluster_ok (new_cluster n).
Proof.
constructor; cbn; [apply log_ok_nil| |done]. apply list.Forall_forall. intros nd [-> _]%elem_of_replicate.
apply (NodeDown _ _ _ 0); [apply rows_ok_empty|done].
Qed.

Lemma reachable_ok (n : nat) c : reachable n c → cluster_ok c.
Proof.
unfold reachable. intros Hr. pose proof (new_cluster_ok n) as Hok. induction Hr as [c|c1 c2 c3 Hs _ IH]; [done|]. by apply IH, (cluster_step_ok c1).
Qed.

(** A machine at some position of the log reaches the committed rows on the rest of it. *)
Lemma catches_up log a (s : Machine M) : log_ok log → machine_ok log a s → ∃ answers s',
  apply_entries (stretch (pos_of (sm_last_applied s)) (length log) log) (with_faults [] s) = (Ok answers, s') ∧
  sm_last_applied s' = last_id log (length log) ∧
  ∀ realm k, client_key k = true → cell_of (dk_rows (sm_disk s')) realm k = committed log (length log) realm k.
Proof.
intros Hok Hs. pose proof (ro_pos _ _ _ (mo_rows _ _ _ Hs)) as Ha. rewrite (mo_applied _ _ _ Hs), pos_of_last_id by done.
pose proof (apply_entries_no_fault (stretch a (length log) log) (with_faults [] s) eq_refl) as Hnf.
pose proof (apply_entries_ok log Hok (length log) a (with_faults [] s) ltac:(lia) (machine_ok_faults _ _ [] _ Hs)) as Hres.
destruct (apply_entries _ _) as [[rs|err|] s']; [|done..]. exists rs, s'. destruct Hres as (Hs' & _ & _ & _).
split; [done|]. split; [by apply (mo_applied _ _ _ Hs')|]. intros realm k Hk. apply fuzzy_end. by apply (ro_cells _ _ _ (mo_rows _ _ _ Hs')).
Qed.


End cluster.
Arguments Build M : clear implicits.
Arguments Node M : clear implicits.
Arguments Cluster M : clear implicits.
