(* ===== verification/RaftScenarios.v ===== *)
(** * Runs of a cluster

A concrete codec and realm list, to evaluate the state machine: a node that joins from a
snapshot scanned while an increment was applied, and the scan that reads a counter before
an increment and its sidecar after it. *)
From stdpp Require Import base list gmap strings sorting.
From Stdlib Require Import Strings.Byte ZArith Lia.
From S2P Require Import Prelude OrdMap StorageTypes OrdSet RealmRows RaftState RaftReplay RaftLog RaftInstall RaftCluster.

Open Scope Z_scope.

(** ** A codec *)

Fixpoint bits_of (p : positive) : list byte :=
  match p with xH => [] | xO p' => x00 :: bits_of p' | xI p' => x01 :: bits_of p' end.
Fixpoint of_bits (l : list byte) : positive :=
  match l with [] => xH | b :: l' => if decide (b = x00) then xO (of_bits l') else xI (of_bits l') end.
Lemma of_bits_of p : of_bits (bits_of p) = p.
Proof. induction p as [p IH|p IH|]; cbn; by rewrite ?IH. Qed.

Definition ser_any {A} `{Countable A} (x : A) : list byte := bits_of (encode x).
Definition de_any {A} `{Countable A} (bs : list byte) : option A := decode (of_bits bs).
Lemma de_ser_bits {A} `{Countable A} (x : A) : de_any (ser_any x) = Some x.
Proof. unfold de_any, ser_any. by rewrite of_bits_of, decode_encode. Qed.

#[export] Instance LogId_countable : Countable LogId :=
  inj_countable' (λ i, (li_term i, li_node i, li_index i)) (λ t, MkLogId t.1.1 t.1.2 t.2) (λ i, match i with MkLogId _ _ _ => eq_refl end).
#[export] Instance Membership_eq_dec : EqDecision (StoredMembership nat).
Proof. solve_decision. Defined.
#[export] Instance Membership_countable : Countable (StoredMembership nat) :=
  inj_countable' (λ m, (st_log_id m, st_members m)) (λ t, MkMembership t.1 t.2) (λ m, match m with MkMembership _ _ => eq_refl end).
#[export] Instance RealmData_eq_dec : EqDecision RealmData.
Proof. solve_decision. Defined.
#[export] Instance RealmData_countable : Countable RealmData :=
  inj_countable' (λ d, (rd_realm d, rd_entries d)) (λ t, MkRealmData t.1 t.2) (λ d, match d with MkRealmData _ _ => eq_refl end).
#[export] Instance SnapshotPayload_eq_dec : EqDecision SnapshotPayload.
Proof. solve_decision. Defined.
#[export] Instance SnapshotPayload_countable : Countable SnapshotPayload :=
  inj_countable' sp_realms MkPayload (λ p, match p with MkPayload _ => eq_refl end).

#[export] Instance bit_codec : RaftCodec nat := {|
  ser_log_id := ser_any; de_log_id := de_any; ser_membership := ser_any; de_membership := de_any; no_members := 0%nat;
  compress_payload := ser_any; decompress_payload := de_any |}.
#[export] Instance bit_codec_laws : RaftCodecLaws nat.
Proof. split; intros; apply de_ser_bits. Qed.

#[export] Instance dom_realms : RealmList := λ rs, elements (dom rs).
#[export] Instance dom_realms_laws : RealmListLaws.
Proof.
intros rs realm k v Hv. unfold list_realms, dom_realms. apply elem_of_elements, elem_of_dom. unfold rows_of in Hv.
destruct (rs !! realm) as [s|]; [by eexists|]. cbn in Hv. by rewrite lookup_empty in Hv.
Qed.

(** ** A joining node *)

Definition r1 : RealmId := replicate 16 x01.
Definition counter : list byte := bytes_of "epoch".
Definition other : list byte := bytes_of "user".

Definition id_at (j : Z) : LogId := MkLogId 1 1 j.
Definition log3 : list (Entry nat) :=
  [MkEntry (id_at 0) (Membership 3%nat);
   MkEntry (id_at 1) (Normal (CIncrementU64 5 r1 counter));
   MkEntry (id_at 2) (Normal (CIncrementU64 6 r1 counter))].
Definition log4 : list (Entry nat) := log3 ++ [MkEntry (id_at 3) (Normal (CPut 7 r1 other [x2a]))].

Lemma small_log_ok (log : list (Entry nat)) :
  (∀ j e, log !! j = Some e → en_log_id e = id_at (Z.of_nat j)) → (∀ e cmd, log !! 0%nat = Some e → en_payload e ≠ Normal cmd) →
  Forall client_entry log → Z.of_nat (length log) <= u64_max →
  Forall (λ e, match en_payload e with Normal (CPutIfAbsent _ _ _ v) => zlen v = 8 | _ => True end) log → log_ok log.
Proof.
intros Hid Hfirst Hc Hlen Hd. constructor.
- intros j e He. by rewrite (Hid _ _ He).
- intros i j e e' He He' Hij. rewrite (Hid _ _ He), (Hid _ _ He'). unfold log_id_ltb, id_at. cbn. lia.
- done.
- by rewrite list.Forall_forall in Hc.
- done.
- intros realm k _ _. apply Forall_fmap. eapply Forall_impl; [exact Hd|]. intros e He. cbn in He |- *. unfold entry_op, cmd_op, batch_op.
  destruct (en_payload e) as [|cmd|m]; [done| |done]. destruct (decide _); [|done].
  destruct cmd; cbn [cmd_op]; try (repeat case_decide; done); case_decide; try done; by destruct (put_all _ _ !! _).
Qed.

Lemma log4_prefix_ok (n : nat) : log_ok (take n log4).
Proof.
apply small_log_ok.
- intros j e [He _]%lookup_take_Some. do 4 (destruct j as [|j]; [by injection He as <-|]). done.
- intros e cmd [He _]%lookup_take_Some. by injection He as <-.
- apply Forall_take. by repeat constructor.
- rewrite length_take. cbn. unfold u64_max. lia.
- apply Forall_take. by repeat constructor.
Qed.

(** Steps with working storage, from the functions' results. *)
Section steps.
Implicit Types (log : list (Entry nat)) (served : list (StoredSnapshot nat)) (s : Machine nat) (bus : list (Build nat)).

Lemma apply_works log served b s bus : (pos_of (sm_last_applied s) <= b <= length log)%nat →
  let res := apply_entries (stretch (pos_of (sm_last_applied s)) b log) (with_faults [] s) in
  node_step log served (MkNode s true bus) (MkNode res.2 true bus).
Proof.
intros Hb res. pose proof (NApply log served b [] s bus res.1 res.2 Hb (surjective_pairing _)) as Hs. subst res.
by rewrite apply_entries_no_fault in Hs.
Qed.

Lemma install_works log served snap s bus s' : snap ∈ served →
  opt_log_id_ltb (sm_last_applied s) (mt_last_log_id (ss_meta snap)) = true →
  install_snapshot snap (with_faults [] s) = (Ok tt, s') → node_step log served (MkNode s true bus) (MkNode s' true (tear <$> bus)).
Proof. intros Hin Hlt Hi. exact (NInstall log served snap [] s bus (Ok tt) s' Hin Hlt Hi). Qed.

(** A scan of rows that do not change sees them. *)
Lemma seen_all rs realm k : seen_cell (list_realms rs) (rows_of rs) realm k = cell_of rs realm k.
Proof.
unfold seen_cell, cell_of. case_decide as Hin; [done|].
assert (∀ k', rows_of rs realm !! k' = None) as Hn; [|by rewrite !Hn].
intros k'. destruct (rows_of rs realm !! k') as [v|] eqn:Hv; [|done]. by apply realm_listed in Hv.
Qed.
End steps.

Definition machine0 : Machine nat := MkMachine (MkDisk ∅ None []) None no_membership None false [].
(** Node 0 after two entries, and after the third. *)
Definition machine2 : Machine nat := (apply_entries (stretch 0 2 log4) machine0).2.
Definition machine3 : Machine nat := (apply_entries (stretch 2 3 log4) machine2).2.
(** Its snapshot, begun after two entries and scanned after the third. *)
Definition rows3 : Rows := dk_rows (sm_disk machine3).
Definition snap2 : StoredSnapshot nat :=
  (build_snapshot (get_snapshot_builder machine2) [] (list_realms rows3) (rows_of rows3) None).1.
Definition joined : Machine nat := (install_snapshot snap2 machine0).2.

Lemma machine0_ok log : machine_ok log 0 machine0.
Proof. constructor; cbn; [apply rows_ok_empty|done|done|done]. Qed.
Lemma machine2_ok : machine_ok log4 2 machine2.
Proof.
pose proof (apply_entries_ok log4 (log4_prefix_ok 4) 2 0 machine0 ltac:(cbn; lia) (machine0_ok _)) as Hap.
pose proof (apply_entries_no_fault (stretch 0 2 log4) machine0 eq_refl) as Hnf. unfold machine2.
destruct (apply_entries _ _) as [[rs|e|] s]; [|done..]. apply Hap.
Qed.
Lemma machine2_calm : with_faults [] machine2 = machine2.
Proof. vm_compute. reflexivity. Qed.
Lemma machine2_applied : sm_last_applied machine2 = Some (id_at 1).
Proof. vm_compute. reflexivity. Qed.
Lemma snap2_installs : install_snapshot snap2 machine0 = (Ok tt, joined).
Proof. vm_compute. reflexivity. Qed.
Lemma snap2_index : mt_last_log_id (ss_meta snap2) = Some (id_at 1).
Proof. vm_compute. reflexivity. Qed.

Lemma scan_overlaps : sees log3 (MkBuild (get_snapshot_builder machine2) (dk_rows (sm_disk machine2)) false) 3 (list_realms rows3) (rows_of rows3).
Proof.
right. intros realm k Hk. cbn [bu_builder bu_rows get_snapshot_builder bd_last_applied]. rewrite machine2_applied. exists 3%nat. split; [cbn; lia|].
rewrite seen_all.
pose proof (apply_entries_ok log4 (log4_prefix_ok 4) 3 2 machine2 ltac:(cbn; lia) machine2_ok) as Hap.
pose proof (apply_entries_no_fault (stretch 2 3 log4) machine2 eq_refl) as Hnf. unfold rows3, machine3.
destruct (apply_entries _ _) as [[rs|e|] s]; [|done..]. destruct Hap as (_ & _ & _ & Hcells). by apply Hcells.
Qed.

(** A cluster in which node 1 joined from a snapshot that declares two entries and holds
the third; the log has four. *)
Definition joined_cluster : Cluster nat :=
  MkCluster log4 [MkNode (set_current (Some snap2) machine3) true []; MkNode joined true []] [snap2].

Definition fresh : Node nat := MkNode machine0 true [].
Definition building : Build nat := MkBuild (get_snapshot_builder machine2) (dk_rows (sm_disk machine2)) false.

Lemma fresh_opens served n : node_step (take n log4) served new_node fresh.
Proof. by eapply (NReopen _ _ false []). Qed.
Lemma node0_two : node_step (take 2 log4) [] fresh (MkNode machine2 true []).
Proof. apply (apply_works (take 2 log4) [] 2 machine0 []). cbn. lia. Qed.
Lemma node0_three : node_step log3 [] (MkNode machine2 true [building]) (MkNode machine3 true [building]).
Proof.
pose proof (apply_works log3 [] 3 machine2 [building]) as Hs. rewrite machine2_applied, machine2_calm in Hs. apply Hs. cbn. lia.
Qed.
Lemma machine3_applied : sm_last_applied machine3 = Some (id_at 2).
Proof. vm_compute. reflexivity. Qed.
Lemma machine3_empty_slot : sm_current machine3 = None.
Proof. vm_compute. reflexivity. Qed.
Lemma node0_built : node_step log3 [] (MkNode machine3 true [building]) (MkNode (set_current (Some snap2) machine3) true []).
Proof.
pose proof (NBuildDone log3 [] machine3 [] building [] [] (list_realms rows3) (rows_of rows3)) as Hs.
rewrite machine3_applied, machine3_empty_slot in Hs. apply Hs. apply scan_overlaps.
Qed.
Lemma node1_joins : node_step log3 [snap2] fresh (MkNode joined true []).
Proof. apply (install_works log3 [snap2] snap2 machine0 [] joined); [left|by rewrite snap2_index|exact snap2_installs]. Qed.

Lemma on_node log nodes nodes' served n (nd nd' : Node nat) : nodes !! n = Some nd → node_step log served nd nd' →
  <[n := nd']> nodes = nodes' → step (MkCluster log nodes served) (MkCluster log nodes' served).
Proof. intros Hn Hs <-. by eapply SNode. Qed.

Lemma joined_reachable : reachable 2 joined_cluster.
Proof.
unfold reachable, new_cluster. cbn [replicate].
apply (rtc_l _ _ (MkCluster [] [fresh; new_node] [])); [by eapply (on_node _ _ _ _ 0); [|apply (fresh_opens [] 0)|]|].
apply (rtc_l _ _ (MkCluster [] [fresh; fresh] [])); [by eapply (on_node _ _ _ _ 1); [|apply (fresh_opens [] 0)|]|].
apply (rtc_l _ _ (MkCluster (take 1 log4) [fresh; fresh] [])); [apply (SCommit [] _ [] (MkEntry (id_at 0) (Membership 3%nat))), (log4_prefix_ok 1)|].
apply (rtc_l _ _ (MkCluster (take 2 log4) [fresh; fresh] [])); [apply (SCommit (take 1 log4)), (log4_prefix_ok 2)|].
apply (rtc_l _ _ (MkCluster (take 2 log4) [MkNode machine2 true []; fresh] [])); [by eapply (on_node _ _ _ _ 0); [|apply node0_two|]|].
apply (rtc_l _ _ (MkCluster (take 2 log4) [MkNode machine2 true [building]; fresh] [])); [by eapply (on_node _ _ _ _ 0); [|apply NBuildStart|]|].
apply (rtc_l _ _ (MkCluster log3 [MkNode machine2 true [building]; fresh] [])); [apply (SCommit (take 2 log4)), (log4_prefix_ok 3)|].
apply (rtc_l _ _ (MkCluster log3 [MkNode machine3 true [building]; fresh] [])); [by eapply (on_node _ _ _ _ 0); [|apply node0_three|]|].
apply (rtc_l _ _ (MkCluster log3 [MkNode (set_current (Some snap2) machine3) true []; fresh] [])); [by eapply (on_node _ _ _ _ 0); [|apply node0_built|]|].
apply (rtc_l _ _ (MkCluster log3 [MkNode (set_current (Some snap2) machine3) true []; fresh] [snap2])); [by apply (SServe _ [_; fresh] _ 0 (set_current (Some snap2) machine3) [])|].
apply (rtc_l _ _ (MkCluster log3 [MkNode (set_current (Some snap2) machine3) true []; MkNode joined true []] [snap2])); [by eapply (on_node _ _ _ _ 1); [|apply node1_joins|]|].
apply rtc_once. apply (SCommit log3), (log4_prefix_ok 4).
Qed.

Definition counter_row (n : Z) : cell := (Some (encode_u64 n), Some (encode_u64 2)).
Lemma log4_counter : committed log4 (length log4) r1 counter = counter_row 2.
Proof. vm_compute. reflexivity. Qed.
Lemma counter_is_client : client_key counter = true.
Proof. vm_compute. reflexivity. Qed.
Lemma joined_applied : sm_last_applied joined = Some (id_at 1).
Proof. vm_compute. reflexivity. Qed.


(** ** A restart *)

Definition stopped_cluster : Cluster nat :=
  MkCluster log4 [MkNode (set_current (Some snap2) machine3) false []; MkNode joined true []] [snap2].
Lemma stopped_reachable : reachable 2 stopped_cluster.
Proof. eapply rtc_r; [apply joined_reachable|]. by eapply (on_node _ _ _ _ 0); [|apply NCrash|]. Qed.
Lemma machine3_no_marker : dk_restoring (sm_disk machine3) = None.
Proof. vm_compute. reflexivity. Qed.


(** ** A counter read before an increment, its sidecar after it *)

(** The scan of the realm: every row as after two entries, but the sidecar, which comes
after the counter in key order, as after three. *)
Definition torn_scan : Store :=
  <[applied_index_key counter := encode_u64 2]> (rows_of (dk_rows (sm_disk machine2)) r1).
Definition torn_seen (r : RealmId) : Store := if decide (r = r1) then torn_scan else rows_of (dk_rows (sm_disk machine2)) r.
Definition torn_snapshot : StoredSnapshot nat :=
  (build_snapshot (get_snapshot_builder machine2) [] (list_realms (dk_rows (sm_disk machine2))) torn_seen None).1.
Definition third_increment : Entry nat := MkEntry (id_at 3) (Normal (CIncrementU64 8 r1 counter)).
(** The node that installs it, and applies the rest of the log. *)
Definition torn_node : Machine nat := (apply_entries (stretch 2 3 log3) (install_snapshot torn_snapshot machine0).2).2.

