(* ===== verification/SingleUse.v ===== *)
(** * Single-use claims

The code that spends redeem-once artifacts across a cluster: claims and guess budgets
([identity/engine/single_use.rs], [mfa_single_use.rs]), grant-family revocation
([grant_family_revocation.rs]), the marker keys ([identity/keys.rs]) and the sweeps that
reclaim markers and families ([identity/cleanup.rs]). Every function is a program over
the calls it makes of the storage engine, so that programs of several nodes can be
interleaved call by call. *)
From stdpp Require Import base list gmap strings pretty.
From Stdlib Require Import Strings.Byte ZArith Lia.
From S2P Require Import Prelude OrdMap StorageTypes OrdSet RealmRows RbacTypes RbacKeys.

Open Scope Z_scope.

(** ** Programs *)

(** The calls of [StorageEngine] and what each returns. A walk is a scan whose visitor
stops early. *)
Inductive call : Type → Type :=
| Get (realm : RealmId) (key : list byte) : call (option (list byte))
| Scan_ (realm : RealmId) (start end_ : list byte) : call (list ScanEntry)
| PutIfAbsent (realm : RealmId) (key value : list byte) : call bool
| Delete_ (realm : RealmId) (key : list byte) : call unit
| WriteBatch (realm : RealmId) (puts : list (list byte * list byte)) (deletes : list (list byte)) : call unit.

(** A program: a result, or a call and what follows each of its outcomes. *)
Inductive prog (A : Type) : Type :=
| Done (a : A)
| Call {B} (c : call B) (k : outcome StorageError B → prog A).
Arguments Done {A} a.
Arguments Call {A B} c k.

Fixpoint prog_bind {A B} (m : prog A) (f : A → prog B) : prog B :=
  match m with
  | Done a => f a
  | Call c k => Call c (λ r, prog_bind (k r) f)
  end.

Inductive IdentityError :=
| IdStorage (e : StorageError)
| IdSerialization
| IdRateLimited
| IdRefused (code : nat).

(** Methods that return a [Result]: the [?] operator is [bind]. *)
Definition io (E A : Type) : Type := prog (outcome E A).
#[export] Instance io_ret {E} : MRet (io E) := λ A a, Done (Ok a).
#[export] Instance io_bind {E} : MBind (io E) := λ A B f m,
  prog_bind m (λ o, match o with Ok a => f a | Err e => Done (Err e) | Panic => Done Panic end).
Definition io_err {E A} (e : E) : io E A := Done (Err e).

(** [self.storage.f(..)?] and [.map_err(Self::storage_err)?]. *)
Definition storage {A} (c : call A) : io StorageError A := Call c Done.
Definition id_storage {A} (c : call A) : io IdentityError A :=
  Call c (λ o, Done (match o with Ok a => Ok a | Err e => Err (IdStorage e) | Panic => Panic end)).

(** ** Keys *)

Definition CONSUMED_PREFIX : Str := lit "consumed:".
Definition encode_consumed (kind id : Str) : list byte := CONSUMED_PREFIX ++ kind ++ colon :: id.
Definition consumed_marker_scan_prefix : list byte := CONSUMED_PREFIX.
Definition encode_guess_slot_prefix (kind id : Str) : list byte := encode_consumed (lit "guess") (kind ++ colon :: id ++ [colon]).
Definition encode_consumed_refresh (refresh_hash : Str) : list byte := encode_consumed (lit "refresh") refresh_hash.
Definition encode_consumed_totp_step `{!UuidText} (user_id : UserId) (step : Z) : list byte :=
  encode_consumed (lit "totp") (uuid_to_string user_id ++ colon :: lit (show step)).
Definition encode_consumed_recovery_code `{!UuidText} (user_id : UserId) (digest : Str) : list byte :=
  encode_consumed (lit "recovery") (uuid_to_string user_id ++ colon :: digest).
Definition GRANT_FAMILY_PREFIX : Str := lit "oauth:family:".
Definition grant_family_scan_prefix : list byte := GRANT_FAMILY_PREFIX.
Definition encode_grant_family (family_id : Str) : list byte := GRANT_FAMILY_PREFIX ++ family_id.
Definition GRANT_FAMILY_REVOKED_PREFIX : Str := lit "oauth:family-revoked:".
Definition encode_grant_family_revoked (family_id : Str) : list byte := GRANT_FAMILY_REVOKED_PREFIX ++ family_id.
(** [keys::prefix_end]. *)
Definition id_prefix_end (prefix : list byte) : list byte := prefix_scan_end prefix.

(** ** Claims *)

Definition i64_max : Z := 2 ^ 63 - 1.
Definition i64_min : Z := - 2 ^ 63.
Definition sat_i64 (z : Z) : Z := Z.max i64_min (Z.min z i64_max).
(** [i64::to_le_bytes] and [i64::from_le_bytes]. *)
Definition encode_i64 (z : Z) : list byte := to_le 8 (z mod 2 ^ 64).
Definition decode_i64 (bs : list byte) : Z := to_signed 64 (from_le bs).

Definition CONSUMED_MARKER_GRACE_SECS : Z := 60.
(** The date of a marker, in seconds; [/] on [i64] truncates. *)
Definition marker_expires_at (artifact_expires_at : Z) : Z := Z.quot artifact_expires_at 1000000 + CONSUMED_MARKER_GRACE_SECS.

Definition claim_single_use (realm : RealmId) (marker_key : list byte) (artifact_expires_at : Z) : io IdentityError bool :=
  id_storage (PutIfAbsent realm marker_key (encode_i64 (marker_expires_at artifact_expires_at))).

(** [slot.to_string()]. *)
Definition slot_key (slot_prefix : list byte) (slot : Z) : list byte := slot_prefix ++ lit (show slot).

(** The loop over the slots from [slot], [n] of them. *)
Fixpoint claim_slot_from (realm : RealmId) (slot_prefix : list byte) (expires_at slot : Z) (n : nat) : io IdentityError (option Z) :=
  match n with
  | O => mret None
  | S n' =>
      seen ← id_storage (Get realm (slot_key slot_prefix slot));
      match seen with
      | Some _ => claim_slot_from realm slot_prefix expires_at (slot + 1) n'
      | None =>
          won ← claim_single_use realm (slot_key slot_prefix slot) expires_at;
          if (won : bool) then mret (Some slot) else claim_slot_from realm slot_prefix expires_at (slot + 1) n'
      end
  end.
Definition claim_guess_slot (realm : RealmId) (slot_prefix : list byte) (max expires_at : Z) : io IdentityError (option Z) :=
  claim_slot_from realm slot_prefix expires_at 1 (Z.to_nat max).

Fixpoint delete_each (realm : RealmId) (es : list ScanEntry) : io StorageError unit :=
  match es with
  | [] => mret tt
  | e :: es' => _ ← storage (Delete_ realm (se_key e)); delete_each realm es'
  end.
(** Best effort: an error is logged. *)
Definition release_guess_slots (realm : RealmId) (slot_prefix : list byte) : prog unit :=
  prog_bind (slots ← storage (Scan_ realm slot_prefix (id_prefix_end slot_prefix)); delete_each realm slots) (λ _, Done tt).

(** [StoredOtp::expiry_unix_ts] as micros, for dating a marker. *)
Definition otp_expiry (expiry_unix_ts : Z) : Z :=
  sat_i64 ((if expiry_unix_ts <=? i64_max then expiry_unix_ts else i64_max / 1000000) * 1000000).

Definition take_single_use_row {T} (decode : list byte → option T) (realm : RealmId) (row_key marker_key : list byte)
    (missing : IdentityError) (expires_at : T → Z) : io IdentityError T :=
  found ← id_storage (Get realm row_key);
  match found with
  | None => io_err missing
  | Some bytes =>
      match decode bytes with
      | None => io_err IdSerialization
      | Some row =>
          won ← claim_single_use realm marker_key (expires_at row);
          if (won : bool) then (_ ← id_storage (Delete_ realm row_key); mret row) else io_err missing
      end
  end.

(** ** MFA *)

Section mfa.
Context `{!UuidText}.
Context (sha256_hex : Str → Str).

Definition MFA_MAX_ATTEMPTS : Z := 5.
Definition MFA_LOCKOUT_MICROS : Z := 5 * 60 * 1000000.
Definition MFA_GUESS_WINDOW_SECS : Z := MFA_LOCKOUT_MICROS / 1000000.
Definition TOTP_PERIOD : Z := 30.
Definition TOTP_WINDOW : Z := 1.

(** [now]: the clock, in micros. *)
Definition mfa_guess_window (now : Z) (user_id : UserId) : list byte * Z :=
  let now_secs := Z.quot now 1000000 in
  let window := now_secs / MFA_GUESS_WINDOW_SECS in
  (encode_guess_slot_prefix (lit "mfa") (uuid_to_string user_id ++ colon :: lit (show window)),
   sat_i64 (sat_i64 ((window + 1) * MFA_GUESS_WINDOW_SECS) * 1000000)).

Definition claim_mfa_guess (now : Z) (realm : RealmId) (user_id : UserId) : io IdentityError unit :=
  let '(prefix, ends_at) := mfa_guess_window now user_id in
  slot ← claim_guess_slot realm prefix MFA_MAX_ATTEMPTS ends_at;
  match slot with Some _ => mret tt | None => io_err IdRateLimited end.

Definition release_mfa_guesses (now : Z) (realm : RealmId) (user_id : UserId) : prog unit :=
  release_guess_slots realm (mfa_guess_window now user_id).1.

Definition sat_u64 (z : Z) : Z := Z.min z u64_max.
Definition step_acceptance_ends_at (step : Z) : Z := sat_u64 (sat_u64 (step + (TOTP_WINDOW + 1)) * TOTP_PERIOD).
Definition claim_totp_step (realm : RealmId) (user_id : UserId) (step : Z) : io IdentityError bool :=
  let e := step_acceptance_ends_at step in
  let ends_at := if e <=? i64_max then e else i64_max / 1000000 in
  claim_single_use realm (encode_consumed_totp_step user_id step) (sat_i64 (ends_at * 1000000)).

Definition claim_recovery_code (realm : RealmId) (user_id : UserId) (stored_hash : Str) : io IdentityError bool :=
  claim_single_use realm (encode_consumed_recovery_code user_id (sha256_hex stored_hash)) i64_max.
End mfa.

(** ** Grant families *)

(** The fields of [StoredGrantFamily] that revocation and sweeping read. *)
Record GrantFamily := MkFamily { gf_family_id : Str; gf_current_refresh_hash : Str; gf_expires_at : Z; gf_revoked : bool }.

Definition mark_grant_family_revoked (realm : RealmId) (family : GrantFamily) : io IdentityError unit :=
  _ ← id_storage (PutIfAbsent realm (encode_grant_family_revoked (gf_family_id family)) []);
  _ ← claim_single_use realm (encode_consumed_refresh (gf_current_refresh_hash family)) (gf_expires_at family);
  mret tt.

Definition grant_family_is_revoked (realm : RealmId) (family : GrantFamily) : io IdentityError bool :=
  if gf_revoked family then mret true
  else
    tombstone ← id_storage (Get realm (encode_grant_family_revoked (gf_family_id family)));
    mret (match tombstone with Some _ => true | None => false end).

(** ** Sweeps *)

Definition SWEEP_CHUNK : nat := 512.

(** The walk of one pass: the rows picked, up to [chunk] of them, and the error of
[select] that ended it, if one did. *)
Fixpoint pick_rows {T} (select : list byte → list byte → StorageError + option T) (chunk : nat)
    (rows : list ScanEntry) (picked : list (list byte * T)) : list (list byte * T) * option StorageError :=
  match rows with
  | [] => (picked, None)
  | e :: rows' =>
      match select (se_key e) (se_value e) with
      | inr (Some item) =>
          let picked' := picked ++ [(se_key e, item)] in
          if (chunk <=? length picked')%nat then (picked', None) else pick_rows select chunk rows' picked'
      | inr None => pick_rows select chunk rows' picked
      | inl err => (picked, Some err)
      end
  end.

(** What [delete] does with a picked row: the keys it adds to the batch, and its result. *)
Definition Planned : Type := list (list byte) * outcome StorageError bool.

(** The loop that plans the batch: its keys, how many rows it removes, and the error to
report. *)
Fixpoint plan_batch {T} (delete : list byte → T → prog Planned) (picked : list (list byte * T)) (batch : list (list byte))
    (removed : nat) (failure : option StorageError) : io StorageError (list (list byte) * nat * option StorageError) :=
  match picked with
  | [] => mret (batch, removed, failure)
  | (key, item) :: picked' =>
      prog_bind (delete key item) (λ d,
        match d.2 with
        | Ok true => plan_batch delete picked' (batch ++ d.1) (S removed) failure
        | Ok false => plan_batch delete picked' (batch ++ d.1) removed failure
        | Err e => Done (Ok (batch ++ d.1, removed, match failure with Some f => Some f | None => Some e end))
        | Panic => Done Panic
        end)
  end.

Definition sweep_chunk (limit : option nat) (deleted : nat) : nat :=
  match limit with None => SWEEP_CHUNK | Some l => (l - deleted) `min` SWEEP_CHUNK end.

(** The loop of [sweep_prefix], one turn per unit of fuel. *)
Fixpoint sweep_from {T} (select : list byte → list byte → StorageError + option T) (delete : list byte → T → prog Planned)
    (limit : option nat) (realm : RealmId) (start end_ : list byte) (deleted fuel : nat) : io StorageError (option nat) :=
  match fuel with
  | O => mret None
  | S fuel' =>
      let chunk := sweep_chunk limit deleted in
      if (chunk =? 0)%nat then mret (Some deleted)
      else
        rows ← storage (Scan_ realm start end_);
        let '(picked, failure) := pick_rows select chunk rows [] in
        let full := (chunk <=? length picked)%nat in
        let resume := (λ kt, kt.1 ++ [x00]) <$> last picked in
        plan ← plan_batch delete picked [] 0 failure;
        let '(batch, removed, failure') := plan in
        _ ← match batch with [] => mret tt | _ => storage (WriteBatch realm [] batch) end;
        match failure' with
        | Some e => io_err e
        | None =>
            match resume with
            | Some next =>
                if full then sweep_from select delete limit realm next end_ (deleted + removed) fuel' else mret (Some (deleted + removed)%nat)
            | None => mret (Some (deleted + removed)%nat)
            end
        end
  end.
Definition sweep_prefix {T} (realm : RealmId) (prefix : list byte) (limit : option nat) (select : list byte → list byte → StorageError + option T)
    (delete : list byte → T → prog Planned) (fuel : nat) : io StorageError (option nat) :=
  sweep_from select delete limit realm prefix (id_prefix_end prefix) 0 fuel.

Definition delete_row (key : list byte) : prog Planned := Done ([key], Ok true).

Definition select_marker (now_secs : Z) (_ value : list byte) : StorageError + option unit :=
  if zlen value =? 8 then inr (if decode_i64 value <=? now_secs then Some tt else None) else inr None.
Definition sweep_consumed_markers (realm : RealmId) (now_secs : Z) (fuel : nat) : io StorageError (option nat) :=
  sweep_prefix realm consumed_marker_scan_prefix None (select_marker now_secs) (λ k _, delete_row k) fuel.

(** A family row that does not decode stops the sweep. *)
Definition select_family (decode : list byte → option GrantFamily) (now : Z) (_ value : list byte) : StorageError + option Str :=
  match decode value with
  | None => inl (DeserializationFailed "cleanup: failed to deserialize grant family")
  | Some f => inr (if gf_expires_at f <=? now then Some (gf_family_id f) else None)
  end.
Definition sweep_grant_families (decode : list byte → option GrantFamily) (realm : RealmId) (now : Z) (fuel : nat) : io StorageError (option nat) :=
  sweep_prefix realm grant_family_scan_prefix None (select_family decode now)
    (λ k family_id, Done ([k; encode_grant_family_revoked family_id], Ok true)) fuel.
