(* ===== verification/SingleUseRuns.v ===== *)
(** * Programs on a replicated log

Claims, guesses, revocations and sweeps of any number of nodes, interleaved call by call
over the log that the cluster commits. A read sees the log up to what its node has
applied, however stale; a write takes its place in the log when it is proposed, is
answered by what the log says there, and its node has then applied it; a call can fail,
with or without its effect. *)
From stdpp Require Import base list gmap strings.
From Stdlib Require Import Strings.Byte ZArith Lia.
From S2P Require Import Prelude OrdMap StorageTypes OrdSet RealmRows RaftState RaftReplay RbacTypes RbacKeys SingleUse.

Open Scope Z_scope.

(** ** The rows a log gives *)

Definition val_step (o : KeyOp) (v : option (list byte)) : option (list byte) :=
  match o with
  | KSet u => u
  | KPutIfAbsent w => match v with Some _ => v | None => Some w end
  | KIncrement => Some (encode_u64 (match decode_u64_counter v with Ok n => sat_add_u64 n 1 | _ => 0 end))
  | KNone => v
  end.
Definition value_after (log : list RaftCommand) (realm : RealmId) (k : list byte) : option (list byte) :=
  foldl (λ v c, val_step (cmd_op c realm k) v) None log.

(** ** Events *)

(** A call with its outcome. A read has the position it was served at, a write the
position it took in the log, if it was proposed. *)
Inductive Event :=
| EGet (realm : RealmId) (k : list byte) (o : outcome StorageError (option (list byte))) (served : nat)
| EScan (realm : RealmId) (start end_ : list byte) (o : outcome StorageError (list ScanEntry)) (served : nat)
| EPia (realm : RealmId) (k v : list byte) (o : outcome StorageError bool) (logged : option nat)
| EDelete (realm : RealmId) (k : list byte) (o : outcome StorageError unit) (logged : option nat)
| EBatch (realm : RealmId) (puts : list Row) (deletes : list (list byte)) (o : outcome StorageError unit) (logged : option nat).

(** The outcome an event gives a call, if it is an event of that call. *)
Definition answer_of {B} (c : call B) (e : Event) : option (outcome StorageError B) :=
  match c in call B return option (outcome StorageError B) with
  | Get r k => match e with EGet r' k' o _ => if decide (r = r' ∧ k = k') then Some o else None | _ => None end
  | Scan_ r a b => match e with EScan r' a' b' o _ => if decide (r = r' ∧ a = a' ∧ b = b') then Some o else None | _ => None end
  | PutIfAbsent r k v => match e with EPia r' k' v' o _ => if decide (r = r' ∧ k = k' ∧ v = v') then Some o else None | _ => None end
  | Delete_ r k => match e with EDelete r' k' o _ => if decide (r = r' ∧ k = k') then Some o else None | _ => None end
  | WriteBatch r ps ds => match e with EBatch r' ps' ds' o _ => if decide (r = r' ∧ ps = ps' ∧ ds = ds') then Some o else None | _ => None end
  end.

(** What is left of a program after a history of calls. *)
Fixpoint follows {A} (p : prog A) (h : list Event) {struct h} : option (prog A) :=
  match h with
  | [] => Some p
  | e :: h' =>
      match p with
      | Done _ => None
      | Call c k => match answer_of c e with Some o => follows (k o) h' | None => None end
      end
  end.

(** The command a write proposes. *)
Definition proposes (e : Event) (cmd : RaftCommand) : Prop :=
  match e with
  | EPia r k v _ _ => ∃ ts, cmd = CPutIfAbsent ts r k v
  | EDelete r k _ _ => ∃ ts, cmd = CDelete ts r k
  | EBatch r ps ds _ _ => ∃ ts, cmd = CWriteBatch ts r ps ds
  | _ => False
  end.
Definition logged_at (e : Event) : option nat :=
  match e with EPia _ _ _ _ l | EDelete _ _ _ l | EBatch _ _ _ _ l => l | _ => None end.

(** One call of a program on a node that has applied [pos] entries. A scan may read each of
its rows at a different moment, and miss some. *)
Inductive event_step (log : list RaftCommand) (pos : nat) : Event → list RaftCommand → nat → Prop :=
| GetServed r k : event_step log pos (EGet r k (Ok (value_after (take pos log) r k)) pos) log pos
| GetFailed r k e : event_step log pos (EGet r k (Err e) pos) log pos
| ScanServed r a b es : Forall (λ x, in_window a b (se_key x) = true ∧ ∃ q, (q <= pos)%nat ∧ value_after (take q log) r (se_key x) = Some (se_value x)) es →
    event_step log pos (EScan r a b (Ok es) pos) log pos
| ScanFailed r a b e : event_step log pos (EScan r a b (Err e) pos) log pos
| PiaDecided r k v cmd : proposes (EPia r k v (Ok true) None) cmd →
    event_step log pos (EPia r k v (Ok (bool_decide (value_after log r k = None))) (Some (length log))) (log ++ [cmd]) (S (length log))
| DeleteDone r k cmd : proposes (EDelete r k (Ok tt) None) cmd →
    event_step log pos (EDelete r k (Ok tt) (Some (length log))) (log ++ [cmd]) (S (length log))
| BatchDone r ps ds cmd : proposes (EBatch r ps ds (Ok tt) None) cmd →
    event_step log pos (EBatch r ps ds (Ok tt) (Some (length log))) (log ++ [cmd]) (S (length log))
| WriteRefused e : (match e with EPia _ _ _ (Err _) None | EDelete _ _ (Err _) None | EBatch _ _ _ (Err _) None => True | _ => False end) →
    event_step log pos e log pos
| WriteUnknown e cmd : (match e with EPia _ _ _ (Err _) (Some n) | EDelete _ _ (Err _) (Some n) | EBatch _ _ _ (Err _) (Some n) => n = length log | _ => False end) →
    proposes e cmd → event_step log pos e (log ++ [cmd]) pos.

(** ** Requests *)

Inductive Request :=
| RqClaim (realm : RealmId) (marker : list byte) (expires_at : Z)
| RqTake (realm : RealmId) (row marker : list byte) (decode : list byte → option Z)
| RqGuess (realm : RealmId) (prefix : list byte) (max expires_at : Z)
| RqRelease (realm : RealmId) (prefix : list byte)
| RqRevoke (realm : RealmId) (family : GrantFamily)
| RqIsRevoked (realm : RealmId) (family : GrantFamily)
| RqSweepMarkers (realm : RealmId) (now_secs : Z) (fuel : nat)
| RqSweepFamilies (realm : RealmId) (decode : list byte → option GrantFamily) (now : Z) (fuel : nat).

Inductive Reply :=
| RpBool (o : outcome IdentityError bool)
| RpSlot (o : outcome IdentityError (option Z))
| RpUnit (o : outcome IdentityError unit)
| RpSwept (o : outcome StorageError (option nat)).

Definition replying {A} (m : prog A) (f : A → Reply) : prog Reply := prog_bind m (λ a, Done (f a)).
Definition run (rq : Request) : prog Reply :=
  match rq with
  | RqClaim r k e => replying (claim_single_use r k e) RpBool
  | RqTake r row k decode =>
      replying (take_single_use_row decode r row k (IdRefused 0) id) (λ o, RpUnit (match o with Ok _ => Ok tt | Err e => Err e | Panic => Panic end))
  | RqGuess r p max e => replying (claim_guess_slot r p max e) RpSlot
  | RqRelease r p => replying (release_guess_slots r p) (λ _, RpUnit (Ok tt))
  | RqRevoke r f => replying (mark_grant_family_revoked r f) RpUnit
  | RqIsRevoked r f => replying (grant_family_is_revoked r f) RpBool
  | RqSweepMarkers r now fuel => replying (sweep_consumed_markers r now fuel) RpSwept
  | RqSweepFamilies r decode now fuel => replying (sweep_grant_families decode r now fuel) RpSwept
  end.

(** Keys that only these programs write. *)
Definition protected (k : list byte) : Prop := CONSUMED_PREFIX `prefix_of` k ∨ GRANT_FAMILY_REVOKED_PREFIX `prefix_of` k.
(** The row a take deletes is not a marker, and what is claimed or released is one. *)
Definition request_ok (rq : Request) : Prop :=
  match rq with
  | RqTake _ row _ _ => ¬ protected row
  | RqRelease _ p => CONSUMED_PREFIX `prefix_of` p
  | RqGuess _ p _ _ => CONSUMED_PREFIX `prefix_of` p
  | _ => True
  end.

(** ** Runs *)

Record Thread := MkThread { th_node : nat; th_request : Request; th_history : list Event }.
Record Config := MkConfig { cf_log : list RaftCommand; cf_pos : list nat; cf_threads : list Thread }.

Inductive config_step : Config → Config → Prop :=
| CSpawn log pos ths n rq : request_ok rq → config_step (MkConfig log pos ths) (MkConfig log pos (ths ++ [MkThread n rq []]))
| CCall log pos ths i n rq h q e log' q' : ths !! i = Some (MkThread n rq h) → pos !! n = Some q →
    is_Some (follows (run rq) (h ++ [e])) → event_step log q e log' q' →
    config_step (MkConfig log pos ths) (MkConfig log' (<[n := (q `max` q')%nat]> pos) (<[i := MkThread n rq (h ++ [e])]> ths))
| CApply log pos ths n q q' : pos !! n = Some q → (q <= q' <= length log)%nat →
    config_step (MkConfig log pos ths) (MkConfig log (<[n := q']> pos) ths)
| CForeign log pos ths cmd : (∀ realm k, protected k → cmd_op cmd realm k = KNone) →
    config_step (MkConfig log pos ths) (MkConfig (log ++ [cmd]) pos ths).

Definition config_reachable (nodes : nat) (cf : Config) : Prop := rtc config_step (MkConfig [] (replicate nodes 0%nat) []) cf.

(** The reply of a thread that has finished. *)
Definition replied (t : Thread) (r : Reply) : Prop := follows (run (th_request t)) (th_history t) = Some (Done r).
