(* ===== verification/SingleUseSafe.v ===== *)
(** * What the programs can do to a marker

Which calls each program can make, given what its earlier calls returned, and the
invariant of runs: every event is true of the log, every write of a protected key is an
event of some thread, and no two events share a place in the log. *)
From stdpp Require Import base list gmap strings.
From Stdlib Require Import Strings.Byte ZArith Lia.
From S2P Require Import Prelude OrdMap StorageTypes OrdSet RealmRows RaftState RaftReplay RbacTypes RbacKeys SingleUse SingleUseRuns.

Open Scope Z_scope.

Implicit Types (realm r : RealmId) (k v : list byte) (log : list RaftCommand) (e : Event) (h past : list Event) (rq : Request)
  (cmd : RaftCommand) (p q : nat).

(** ** The calls of a program *)

(** A scan returns rows of its window. *)
Definition sane e : Prop :=
  match e with EScan _ a b (Ok es) _ => Forall (λ x, in_window a b (se_key x) = true) es | _ => True end.

(** Every call [p] can make, after the events [past], is one that [P] allows. *)
Fixpoint covers {A} (P : list Event → ∀ B, call B → Prop) (past : list Event) (m : prog A) : Prop :=
  match m with
  | Done _ => True
  | Call c k => P past _ c ∧ ∀ e o, answer_of c e = Some o → sane e → covers P (past ++ [e]) (k o)
  end.

Lemma follows_cons {A B} (c : call B) (k : outcome StorageError B → prog A) e h :
  follows (Call c k) (e :: h) = match answer_of c e with Some o => follows (k o) h | None => None end.
Proof. done. Qed.

Lemma covers_follows {A} (P : list Event → ∀ B, call B → Prop) (m : prog A) past h m' : covers P past m → Forall sane h → follows m h = Some m' →
  ∀ a e, h !! a = Some e → ∃ B (c : call B), P (past ++ take a h) B c ∧ is_Some (answer_of c e).
Proof.
revert m past. induction h as [|e0 h IH]; intros m past Hc Hs Hf a e Ha; [done|]. apply Forall_cons in Hs as [Hs0 Hs]. destruct m as [?|B c k]; [done|]. rewrite follows_cons in Hf.
destruct Hc as [Hp Hk]. destruct (answer_of c e0) as [o|] eqn:Ho; [|done]. destruct a as [|a]; cbn in Ha.
- injection Ha as ->. exists B, c. rewrite app_nil_r. rewrite Ho. eauto.
- destruct (IH _ _ (Hk _ _ Ho Hs0) Hs Hf a e Ha) as (B' & c' & Hp' & Ha'). exists B', c'. rewrite <-app_assoc in Hp'. split; [exact Hp'|exact Ha'].
Qed.

Lemma covers_bind {A B} (P : list Event → ∀ B, call B → Prop) (m : prog A) (f : A → prog B) past : covers P past m →
  (∀ a past', past `prefix_of` past' → covers P past' (f a)) → covers P past (prog_bind m f).
Proof.
revert past. induction m as [a|C c k IH]; intros past Hm Hf; cbn; [by apply Hf|]. destruct Hm as [Hp Hk]. split; [done|].
intros e o Ho Hs. apply IH; [by apply Hk|]. intros a past' Hpre. apply Hf. etrans; [|exact Hpre]. by apply prefix_app_r.
Qed.

Lemma follows_snoc {A} (m : prog A) h e : is_Some (follows m (h ++ [e])) → is_Some (follows m h).
Proof.
revert m. induction h as [|e0 h IH]; intros m Hf; [by eexists|]. destruct m as [|B c k]; [by destruct Hf|]. cbn [app] in Hf. rewrite follows_cons in *. destruct (answer_of c e0); [by apply IH|by destruct Hf].
Qed.

(** The markers a request may claim, with their dates. *)
Definition claims_of rq (r : RealmId) (k : list byte) (E : Z) : Prop :=
  match rq with
  | RqClaim r' k' E' => r' = r ∧ k' = k ∧ E' = E
  | RqTake r' _ k' decode => r' = r ∧ k' = k ∧ ∃ bytes, decode bytes = Some E
  | RqGuess r' pre max E' => r' = r ∧ E' = E ∧ ∃ s, 1 <= s <= max ∧ k = slot_key pre s
  | RqRevoke r' f => r' = r ∧ k = encode_consumed_refresh (gf_current_refresh_hash f) ∧ gf_expires_at f = E
  | _ => False
  end.

(** A row that a scan of the thread returned. *)
Definition scanned past (r : RealmId) (a b : list byte) (x : ScanEntry) : Prop :=
  ∃ es q, EScan r a b (Ok es) q ∈ past ∧ x ∈ es.

Definition allowed rq (past : list Event) (B : Type) (c : call B) : Prop :=
  match c with
  | PutIfAbsent r k v =>
      (∃ E, claims_of rq r k E ∧ v = encode_i64 (marker_expires_at E)) ∨
      (∃ f, rq = RqRevoke r f ∧ k = encode_grant_family_revoked (gf_family_id f) ∧ v = [])
  | Delete_ r k =>
      (∃ marker decode, rq = RqTake r k marker decode) ∨
      (∃ pre x, rq = RqRelease r pre ∧ scanned past r pre (id_prefix_end pre) x ∧ k = se_key x)
  | WriteBatch r ps ds =>
      ps = [] ∧ ∀ k, k ∈ ds →
      (∃ now fuel a x, rq = RqSweepMarkers r now fuel ∧ scanned past r a (id_prefix_end consumed_marker_scan_prefix) x ∧ k = se_key x ∧
         select_marker now (se_key x) (se_value x) = inr (Some tt)) ∨
      (∃ decode now fuel a x id, rq = RqSweepFamilies r decode now fuel ∧ scanned past r a (id_prefix_end grant_family_scan_prefix) x ∧
         ord_lt a GRANT_FAMILY_PREFIX = false ∧ select_family decode now (se_key x) (se_value x) = inr (Some id) ∧
         (k = se_key x ∨ k = encode_grant_family_revoked id))
  | _ => True
  end.

Lemma scanned_prefix past past' r a b x : past `prefix_of` past' → scanned past r a b x → scanned past' r a b x.
Proof. intros [l ->] (es & q & Hin & Hx). exists es, q. split; [|done]. apply elem_of_app. by left. Qed.

Lemma pick_rows_selected {T} (select : list byte → list byte → StorageError + option T) (chunk : nat) (rows : list ScanEntry) :
  ∀ picked kt, kt ∈ (pick_rows select chunk rows picked).1 → kt ∈ picked ∨ ∃ x, x ∈ rows ∧ kt.1 = se_key x ∧ select (se_key x) (se_value x) = inr (Some kt.2).
Proof.
induction rows as [|x rows IH]; intros picked kt; cbn; [by left|]. destruct (select (se_key x) (se_value x)) as [e|[item|]] eqn:Hs; [by left|..].
- destruct (_ <=? _)%nat; cbn.
  + intros [?| ->%list_elem_of_singleton]%elem_of_app; [by left|]. right. exists x. split; [left|done].
  + intros [[?| ->%list_elem_of_singleton]%elem_of_app|(y & Hy & ?)]%IH; [by left| |].
    * right. exists x. split; [left|done].
    * right. exists y. split; [by right|done].
- intros [?|(y & Hy & ?)]%IH; [by left|]. right. exists y. split; [by right|done].
Qed.

Lemma not_before_trans (a b c : list byte) : ord_lt b a = false → ord_lt c b = false → ord_lt c a = false.
Proof.
intros Hab Hbc. apply not_true_is_false. intros Hca. destruct (trichotomyT lexico b a) as [[Hlt|Heq]|Hgt].
- by rewrite (proj2 (ord_lt_iff b a) Hlt) in Hab.
- subst. congruence.
- apply not_true_iff_false in Hbc. apply Hbc. apply ord_lt_iff. apply ord_lt_iff in Hca. by transitivity a.
Qed.
Lemma not_before_snoc (k a : list byte) c : ord_lt k a = false → ord_lt (k ++ [c]) a = false.
Proof.
intros Hk. apply (not_before_trans a k); [done|]. apply not_true_is_false. rewrite ord_lt_iff. intros Hlt. clear Hk.
induction k as [|b k IH]; [done|]. cbn in Hlt. destruct Hlt as [Hlt|[_ Hlt]]; [|by apply IH].
by apply (irreflexivity lexico b).
Qed.

(** The batch of a pass whose deletions always succeed: [doomed] lists the keys of a row. *)
Definition doomed_keys {T} (doomed : list byte → T → list (list byte)) (picked : list (list byte * T)) : list (list byte) :=
  picked ≫= λ kt, doomed kt.1 kt.2.
Lemma plan_batch_pure {T} (doomed : list byte → T → list (list byte)) (picked : list (list byte * T)) : ∀ batch removed failure,
  plan_batch (λ k t, Done (doomed k t, Ok true)) picked batch removed failure =
  Done (Ok (batch ++ doomed_keys doomed picked, (removed + length picked)%nat, failure)).
Proof.
induction picked as [|[k t] picked IH]; intros batch removed failure; cbn.
- by rewrite app_nil_r, Nat.add_0_r.
- rewrite IH. unfold doomed_keys. cbn. by rewrite <-app_assoc, <-plus_n_Sm.
Qed.

(** The sweeps delete rows that they scanned and selected. *)
Lemma sweep_covers {A T} (select : list byte → list byte → StorageError + option T) (doomed : list byte → T → list (list byte)) limit r (pre end_ : list byte)
    (P : list Event → ∀ B, call B → Prop) (f : outcome StorageError (option nat) → prog A) :
  (∀ past a b, P past _ (Scan_ r a b)) → (∀ past' o, covers P past' (f o)) →
  (∀ past ds, (∀ k, k ∈ ds → ∃ a x t, scanned past r a end_ x ∧ ord_lt a pre = false ∧ select (se_key x) (se_value x) = inr (Some t) ∧ k ∈ doomed (se_key x) t) →
     P past _ (WriteBatch r [] ds)) →
  ∀ fuel start deleted past, ord_lt start pre = false →
  covers P past (prog_bind (sweep_from select (λ k t, Done (doomed k t, Ok true)) limit r start end_ deleted fuel) f).
Proof.
intros Hscan Hf Hbatch. induction fuel as [|fuel IH]; intros start deleted past Hstart; [apply Hf|]. cbn [sweep_from].
destruct (_ =? 0)%nat; [apply Hf|]. set (chunk := sweep_chunk limit deleted).
unfold mbind, io_bind, storage. cbn [prog_bind covers]. split; [apply Hscan|]. intros e o Ho Hsane.
destruct o as [rows|err|]; cbn [prog_bind]; [|apply Hf..].
assert (∃ q, e = EScan r start end_ (Ok rows) q) as [q ->].
{ destruct e as [| ? ? ? o' q| | |]; cbn in Ho; try done. case_decide as Hd; [|done]. destruct Hd as (-> & -> & ->). injection Ho as ->. by exists q. }
destruct (pick_rows select chunk rows []) as [picked failure] eqn:Hpick.
assert (∀ kt, kt ∈ picked → ∃ x, x ∈ rows ∧ kt.1 = se_key x ∧ select (se_key x) (se_value x) = inr (Some kt.2)) as Hsel.
{ intros kt Hkt. pose proof (pick_rows_selected select chunk rows [] kt) as Hs. rewrite Hpick in Hs.
  destruct (Hs Hkt) as [?%elem_of_nil|?]; done. }
rewrite plan_batch_pure. cbn [prog_bind app].
assert (∀ past', covers P past' (prog_bind (match failure with
   | Some e => Done (Err e)
   | None => match (λ kt : list byte * T, kt.1 ++ [x00]) <$> last picked with
     | Some next => if (chunk <=? length picked)%nat
         then sweep_from select (λ k t, Done (doomed k t, Ok true)) limit r next end_ (deleted + (0 + length picked)) fuel
         else Done (Ok (Some (deleted + (0 + length picked))%nat))
     | None => Done (Ok (Some (deleted + (0 + length picked))%nat)) end end) f)) as Hrest.
{ intros past'. destruct failure; [apply Hf|]. destruct (last picked) as [[k t]|] eqn:Hl; [|apply Hf]. cbn [fmap option_fmap option_map fst]. destruct (_ <=? _)%nat; [|apply Hf].
  apply IH, not_before_snoc. destruct (Hsel (k, t)) as (x & Hx & Hkx & _); [by apply last_Some_elem_of|]. cbn in Hkx. subst k.
  cbn in Hsane. rewrite list.Forall_forall in Hsane. apply Hsane in Hx. unfold in_window in Hx. apply andb_true_iff in Hx as [Hx _].
  apply negb_true_iff in Hx. by eapply not_before_trans. }
destruct (doomed_keys doomed picked) as [|k0 ks] eqn:Hbt; [apply Hrest|]. cbn [prog_bind covers]. split.
- apply Hbatch. intros k Hk. rewrite <-Hbt in Hk. unfold doomed_keys in Hk. apply list_elem_of_bind in Hk as (kt & Hk & Hkt). destruct (Hsel _ Hkt) as (x & Hx & Heq & Hs).
  exists start, x, kt.2. rewrite <-Heq. split; [|by rewrite Heq in *]. exists rows, q. split; [|done]. apply elem_of_app. right. left.
- intros e o' Ho' _. destruct o' as [[]|err|]; [apply Hrest|apply Hf..].
Qed.

Lemma slots_allowed r (pre : list byte) (max E : Z) : ∀ n s past, 1 <= s → s + Z.of_nat n <= max + 1 →
  covers (allowed (RqGuess r pre max E)) past (replying (claim_slot_from r pre E s n) RpSlot).
Proof.
induction n as [|n IH]; intros s past Hs Hn; [done|]. cbn. split; [done|]. intros e o Ho _. destruct o as [[v|]|err|]; cbn; [|split|done..].
- apply IH; lia.
- left. exists E. split; [|done]. split; [done|]. split; [done|]. exists s. split; [lia|done].
- intros e' o' Ho' _. destruct o' as [[]|err|]; cbn; [done|apply IH; lia|done..].
Qed.

Lemma release_allowed r (pre : list byte) (es : list ScanEntry) past : (∀ x, x ∈ es → scanned past r pre (id_prefix_end pre) x) →
  covers (allowed (RqRelease r pre)) past (replying (prog_bind (delete_each r es) (λ _, Done tt)) (λ _, RpUnit (Ok tt))).
Proof.
revert past. induction es as [|x es IH]; intros past Hes; [done|]. cbn. split.
- right. exists pre, x. split; [done|]. split; [|done]. apply Hes. left.
- intros e o Ho _. destruct o as [[]|err|]; cbn; [|done..]. apply IH. intros y Hy. eapply scanned_prefix; [by apply prefix_app_r|]. apply Hes. by right.
Qed.

(** Every request makes only calls that are allowed to it. *)
Lemma run_allowed rq : covers (allowed rq) [] (run rq).
Proof.
destruct rq as [r k E|r row k decode|r pre max E|r pre|r f|r f|r now fuel|r decode now fuel]; cbn [run].
- cbn. split; [|done]. left. by exists E.
- cbn. split; [done|]. intros e o Ho _. destruct o as [[bytes|]|err|]; cbn; [|done..]. destruct (decode bytes) as [E|] eqn:Hd; cbn; [|done].
  split; [left; exists E; split; [|done]; split; [done|]; split; [done|]; by exists bytes|].
  intros e' o' Ho' _. destruct o' as [[]|err|]; cbn; [|done..]. split; [left; by exists k, decode|].
  intros e'' o'' Ho'' _. by destruct o''.
- unfold claim_guess_slot. destruct (decide (0 <= max)) as [Hm|Hm].
  + apply slots_allowed; lia.
  + replace (Z.to_nat max) with 0%nat by lia. done.
- unfold release_guess_slots. cbn. split; [done|]. intros e o Ho Hs. destruct o as [es|err|]; cbn; [|done..].
  destruct e as [| ? ? ? o' q| | |]; cbn in Ho; try done. case_decide as Hd; [|done]. destruct Hd as (<- & <- & <-). injection Ho as ->.
  apply release_allowed. intros x Hx. exists es, q. split; [left|done].
- cbn. split; [right; by exists f|]. intros e o Ho _. destruct o as [[]|err|]; cbn; [..|done|done].
  all: split; [left; exists (gf_expires_at f); done|]; intros e' o' Ho' _; by destruct o' as [[]|err|].
- unfold grant_family_is_revoked. destruct (gf_revoked f); [done|]. cbn. split; [done|]. intros e o Ho _. by destruct o as [[]|err|].
- apply (sweep_covers _ (λ k _, [k]) _ r consumed_marker_scan_prefix); [done|done| |].
  + intros past ds Hds. split; [done|]. intros k Hk. left. destruct (Hds k Hk) as (a & x & [] & Hsc & Ha & Hsel & ->%list_elem_of_singleton).
    by exists now, fuel, a, x.
  + apply not_true_is_false. intros Hlt. apply ord_lt_iff in Hlt. by apply (irreflexivity lexico) in Hlt.
- apply (sweep_covers _ (λ k id, [k; encode_grant_family_revoked id]) _ r grant_family_scan_prefix); [done|done| |].
  + intros past ds Hds. split; [done|]. intros k Hk. right. destruct (Hds k Hk) as (a & x & id & Hsc & Ha & Hsel & Hin).
    exists decode, now, fuel, a, x, id. split_and!; try done. apply elem_of_cons in Hin as [->| ->%list_elem_of_singleton]; auto.
  + apply not_true_is_false. intros Hlt. apply ord_lt_iff in Hlt. by apply (irreflexivity lexico) in Hlt.
Qed.

(** ** The invariant of runs *)

Definition truthful log e : Prop :=
  (∀ p, logged_at e = Some p → ∃ cmd, log !! p = Some cmd ∧ proposes e cmd) ∧
  match e with
  | EGet r k (Ok v) q => (q <= length log)%nat ∧ v = value_after (take q log) r k
  | EScan r a b (Ok es) _ =>
      Forall (λ x, in_window a b (se_key x) = true ∧ ∃ q, (q <= length log)%nat ∧ value_after (take q log) r (se_key x) = Some (se_value x)) es
  | EPia r k v (Ok b) l => ∃ p, l = Some p ∧ b = bool_decide (value_after (take p log) r k = None)
  | _ => True
  end.

Lemma truthful_sane log e : truthful log e → sane e.
Proof. destruct e as [| ? ? ? [es| |] ?| | |]; cbn; try done. intros (_ & Hes). eapply Forall_impl; [exact Hes|]. cbn. tauto. Qed.

Lemma take_snoc_le log cmd p : (p <= length log)%nat → take p (log ++ [cmd]) = take p log.
Proof. intros. by rewrite take_app_le. Qed.

Lemma truthful_grows log cmd e : truthful log e → truthful (log ++ [cmd]) e.
Proof.
intros [Hl He]. split.
- intros p (cmd' & Hp & Hpr)%Hl. exists cmd'. split; [|done]. by apply lookup_app_l_Some.
- destruct e as [r k [v| |] q|r a b [es| |] q|r k v [b| |] l|r k o l|r ps ds o l]; try done.
  + destruct He as [Hq ->]. rewrite length_app, take_snoc_le by done. split; [lia|done].
  + eapply Forall_impl; [exact He|]. intros x (Hw & q' & Hq' & Hv). split; [done|]. exists q'. rewrite length_app, take_snoc_le by done. split; [lia|done].
  + destruct He as (p & -> & ->). exists p. split; [done|]. destruct (Hl p eq_refl) as (cmd' & Hp & _). apply lookup_lt_Some in Hp.
    by rewrite take_snoc_le by lia.
Qed.

Record config_ok (cf : Config) : Prop := {
  ci_pos n q : cf_pos cf !! n = Some q → (q <= length (cf_log cf))%nat;
  ci_true i t e : cf_threads cf !! i = Some t → e ∈ th_history t → truthful (cf_log cf) e;
  ci_follow i t : cf_threads cf !! i = Some t → is_Some (follows (run (th_request t)) (th_history t)) ∧ request_ok (th_request t);
  ci_owner p cmd r k : cf_log cf !! p = Some cmd → protected k → cmd_op cmd r k ≠ KNone →
    ∃ i t e, cf_threads cf !! i = Some t ∧ e ∈ th_history t ∧ logged_at e = Some p;
  ci_unique i j t t' a b e e' p : cf_threads cf !! i = Some t → cf_threads cf !! j = Some t' → th_history t !! a = Some e → th_history t' !! b = Some e' →
    logged_at e = Some p → logged_at e' = Some p → i = j ∧ a = b
}.

(** A call appends at most its own command, and reports it truly. *)
Lemma event_step_shape log q e log' q' : (q <= length log)%nat → event_step log q e log' q' →
  truthful log' e ∧ (q' <= length log')%nat ∧
  ((log' = log ∧ logged_at e = None) ∨ ∃ cmd, log' = log ++ [cmd] ∧ logged_at e = Some (length log)).
Proof.
intros Hq. assert (∀ e cmd, proposes e cmd → logged_at e = Some (length log) →
  ∀ p, logged_at e = Some p → ∃ cmd', (log ++ [cmd]) !! p = Some cmd' ∧ proposes e cmd') as Hprop.
{ intros e0 cmd Hp Hl p Hp'. rewrite Hl in Hp'. injection Hp' as <-. exists cmd. split; [|done]. by apply list_lookup_middle. }
destruct 1 as [r k|r k err|r a b s Hs|r a b err|r k v cmd Hp|r k cmd Hp|r ps ds cmd Hp|e He|e cmd He Hp].
- split; [split; [done|by split]|]. split; [done|]. by left.
- split; [by split|]. split; [done|]. by left.
- split; [|split; [done|by left]]. split; [done|]. cbn. eapply Forall_impl; [exact Hs|]. intros x (Hw & q' & Hq' & Hv). split; [done|]. exists q'. split; [lia|done].
- split; [by split|]. split; [done|]. by left.
- rewrite length_app. cbn. split; [|split; [lia|right; by exists cmd]]. split; [by apply Hprop|]. exists (length log). split; [done|].
  by rewrite take_app_length.
- rewrite length_app. cbn. split; [|split; [lia|right; by exists cmd]]. split; [by apply Hprop|done].
- rewrite length_app. cbn. split; [|split; [lia|right; by exists cmd]]. split; [by apply Hprop|done].
- split; [|split; [done|left; split; [done|]]]; destruct e as [| |? ? ? [| |] []|? ? [| |] []|? ? ? [| |] []]; try done; by split.
- rewrite length_app. cbn. assert (logged_at e = Some (length log)) as Hl.
  { destruct e as [| |? ? ? [| |] []|? ? [| |] []|? ? ? [| |] []]; try done; by rewrite He. }
  split; [|split; [lia|right; by exists cmd]]. split; [by apply Hprop|].
  destruct e as [| |? ? ? [| |] []|? ? [| |] []|? ? ? [| |] []]; done.
Qed.
