(* ===== verification/SingleUseProps.v ===== *)
(** * Single use across a cluster

Under every interleaving of claims, guesses, revocations and sweeps on any nodes, with
stale reads and failing calls: at most one claim of a marker wins until a sweep's clock
passes its date, a guess budget is never exceeded, and a revocation stays. *)
From stdpp Require Import base list gmap strings pretty.
From Stdlib Require Import Strings.Byte ZArith Lia.
From S2P Require Import Prelude OrdMap StorageTypes OrdSet RealmRows RaftState RaftReplay RbacTypes RbacKeys SingleUse SingleUseRuns SingleUseSafe.

Open Scope Z_scope.

Implicit Types (realm r : RealmId) (k v : list byte) (log : list RaftCommand) (e : Event) (h past : list Event) (rq : Request)
  (cmd : RaftCommand) (p q : nat) (t : Thread) (cf : Config).

Lemma logged_lt log e p : truthful log e → logged_at e = Some p → (p < length log)%nat.
Proof. intros [Hl _] Hp. destruct (Hl p Hp) as (cmd & Hc & _). by apply lookup_lt_Some in Hc. Qed.

Lemma spawn_ok log (pos : list nat) (ths : list Thread) n rq : request_ok rq → config_ok (MkConfig log pos ths) →
  config_ok (MkConfig log pos (ths ++ [MkThread n rq []])).
Proof.
intros Hrq [Hpos Htrue Hfol Hown Huni]. cbn in *.
assert (∀ i t, (ths ++ [MkThread n rq []]) !! i = Some t → ths !! i = Some t ∨ t = MkThread n rq []) as Hth.
{ intros i t [?|[_ Ht]]%lookup_app_Some; [by left|right]. by apply list_lookup_singleton_Some in Ht as [_ <-]. }
constructor; cbn; [done|..].
- intros i t e [Hi| ->]%Hth He; [by eapply Htrue|]. by apply elem_of_nil in He.
- intros i t [Hi| ->]%Hth; [by eapply Hfol|]. cbn. split; [by eexists|done].
- intros p cmd r k Hp Hk Hop. destruct (Hown p cmd r k Hp Hk Hop) as (i & t & e & Hi & He). exists i, t, e. split; [by apply lookup_app_l_Some|done].
- intros i j t t' a b e e' p [Hi| ->]%Hth [Hj| ->]%Hth; [by apply Huni|done|done|done].
Qed.

Lemma call_ok log (pos : list nat) (ths : list Thread) i n rq h q e log' q' : config_ok (MkConfig log pos ths) →
  ths !! i = Some (MkThread n rq h) → pos !! n = Some q → is_Some (follows (run rq) (h ++ [e])) → event_step log q e log' q' →
  config_ok (MkConfig log' (<[n := (q `max` q')%nat]> pos) (<[i := MkThread n rq (h ++ [e])]> ths)).
Proof.
intros [Hpos Htrue Hfol Hown Huni] Hi Hq Hf Hstep. cbn in *. pose proof (Hpos n q Hq) as Hql.
destruct (event_step_shape log q e log' q' Hql Hstep) as (Hte & Hq' & Hshape).
assert ((length log <= length log')%nat ∧ ∀ e0, truthful log e0 → truthful log' e0) as [Hlen Hgrow].
{ destruct Hshape as [[-> _]|(cmd & -> & _)]; [done|]. rewrite length_app. split; [lia|]. intros. by apply truthful_grows. }
assert (∀ e0 p, truthful log e0 → logged_at e = Some p → logged_at e0 = Some p → False) as Hfresh.
{ intros e0 p Ht He H0. apply (logged_lt _ _ _ Ht) in H0. destruct Hshape as [[_ Hn]|(cmd & _ & Hn)]; rewrite He in Hn; [done|]. injection Hn as ->. lia. }
assert (∀ j t, <[i := MkThread n rq (h ++ [e])]> ths !! j = Some t →
  (j ≠ i ∧ ths !! j = Some t) ∨ (j = i ∧ t = MkThread n rq (h ++ [e]))) as Hth.
{ intros j t. destruct (decide (j = i)) as [->|Hne].
  - rewrite list_lookup_insert_eq by (by eapply lookup_lt_Some). intros [= <-]. by right.
  - rewrite list_lookup_insert_ne by done. by left. }
constructor; cbn.
- intros m x. destruct (decide (m = n)) as [->|Hne].
  + rewrite list_lookup_insert_eq by (by eapply lookup_lt_Some). intros [= <-]. lia.
  + rewrite list_lookup_insert_ne by done. intros ?%Hpos. lia.
- intros j t e0 [[_ Hj]|[_ ->]]%Hth; cbn; [intros He0; by eapply Hgrow, Htrue|].
  intros [He0| ->%list_elem_of_singleton]%elem_of_app; [|done]. by eapply Hgrow, (Htrue i).
- intros j t [[_ Hj]|[_ ->]]%Hth; [by eapply Hfol|]. cbn. split; [done|]. by apply (Hfol i _ Hi).
- intros p cmd r k Hp Hk Hop. destruct (decide (p < length log)%nat) as [Hlt|Hge].
  + assert (log !! p = Some cmd) as Hp'.
    { destruct Hshape as [[-> _]|(cmd' & -> & _)]; [done|]. by rewrite lookup_app_l in Hp. }
    destruct (Hown p cmd r k Hp' Hk Hop) as (j & t & e0 & Hj & He0 & Hl). destruct (decide (j = i)) as [->|Hne].
    * exists i, (MkThread n rq (h ++ [e])), e0. rewrite list_lookup_insert_eq by (by eapply lookup_lt_Some).
      rewrite Hi in Hj. injection Hj as <-. cbn in *. split; [done|]. split; [apply elem_of_app; by left|done].
    * exists j, t, e0. by rewrite list_lookup_insert_ne.
  + destruct Hshape as [[-> _]|(cmd' & -> & Hl)]; [by apply lookup_lt_Some in Hp|]. pose proof (lookup_lt_Some _ _ _ Hp) as Hb. rewrite length_app in Hb. cbn in Hb.
    assert (p = length log) as -> by lia. exists i, (MkThread n rq (h ++ [e])), e. rewrite list_lookup_insert_eq by (by eapply lookup_lt_Some).
    cbn. split; [done|]. split; [apply elem_of_app; right; left|done].
- intros j1 j2 t1 t2 a b e1 e2 p H1 H2 Ha Hb Hl1 Hl2.
  assert (∀ j t c e0, <[i := MkThread n rq (h ++ [e])]> ths !! j = Some t → th_history t !! c = Some e0 →
    (j = i ∧ c = length h ∧ e0 = e) ∨ ∃ t0, ths !! j = Some t0 ∧ th_history t0 !! c = Some e0) as Hev.
  { intros j t c e0 [[_ Hj]|[-> ->]]%Hth Hc; [right; by exists t|]. cbn in Hc. apply lookup_app_Some in Hc as [Hc|[Hle Hc]].
    - right. exists (MkThread n rq h). done.
    - apply list_lookup_singleton_Some in Hc as [Hc <-]. left. split; [done|]. split; [lia|done]. }
  destruct (Hev _ _ _ _ H1 Ha) as [(-> & -> & ->)|(t1' & H1' & Ha')], (Hev _ _ _ _ H2 Hb) as [(-> & -> & ->)|(t2' & H2' & Hb')].
  + done.
  + exfalso. eapply (Hfresh e2 p); [|done|done]. eapply Htrue; [done|]. by apply list_elem_of_lookup_2 in Hb'.
  + exfalso. eapply (Hfresh e1 p); [|done|done]. eapply Htrue; [done|]. by apply list_elem_of_lookup_2 in Ha'.
  + by eapply Huni.
Qed.

Lemma foreign_ok log (pos : list nat) (ths : list Thread) cmd : (∀ realm k, protected k → cmd_op cmd realm k = KNone) →
  config_ok (MkConfig log pos ths) → config_ok (MkConfig (log ++ [cmd]) pos ths).
Proof.
intros Hc [Hpos Htrue Hfol Hown Huni]. cbn in *. constructor; cbn; [| |done| |done].
- intros n q ?%Hpos. rewrite length_app. lia.
- intros i t e Hi He. by eapply truthful_grows, Htrue.
- intros p cmd' r k [Hp|[_ Hp]]%lookup_app_Some Hk Hop; [by eapply Hown|]. apply list_lookup_singleton_Some in Hp as [_ <-]. by rewrite Hc in Hop.
Qed.

Lemma config_step_ok cf cf' : config_step cf cf' → config_ok cf → config_ok cf'.
Proof.
destruct 1 as [log pos ths n rq Hrq|log pos ths i n rq h q e log' q' Hi Hq Hf Hs|log pos ths n q q' Hq Hle|log pos ths cmd Hc]; intros Hok.
- by apply spawn_ok.
- by eapply call_ok.
- destruct Hok as [Hpos Htrue Hfol Hown Huni]. constructor; cbn in *; [|done..]. intros m x. destruct (decide (m = n)) as [->|Hne].
  + rewrite list_lookup_insert_eq by (by eapply lookup_lt_Some). intros [= <-]. lia.
  + rewrite list_lookup_insert_ne by done. apply Hpos.
- by apply foreign_ok.
Qed.

Lemma config_reachable_ok (nodes : nat) cf : config_reachable nodes cf → config_ok cf.
Proof.
assert (config_ok (MkConfig [] (replicate nodes 0%nat) [])) as H0.
{ constructor; cbn; try done. by intros n q [-> _]%lookup_replicate. }
unfold config_reachable. intros Hr. induction Hr as [cf|c1 c2 c3 Hs _ IH]; [done|]. by apply IH, (config_step_ok c1).
Qed.

(** ** Values and their writers *)

Lemma value_snoc log cmd r k : value_after (log ++ [cmd]) r k = val_step (cmd_op cmd r k) (value_after log r k).
Proof. unfold value_after. by rewrite foldl_app. Qed.

Lemma value_step log p cmd r k : log !! p = Some cmd → value_after (take (S p) log) r k = val_step (cmd_op cmd r k) (value_after (take p log) r k).
Proof. intros Hp. by rewrite (take_S_r _ _ _ Hp), value_snoc. Qed.

(** Between a position where a key is there and a later one where it is not, it was
deleted. *)
Lemma deleted_between log r k (a b : nat) : (a <= b <= length log)%nat → is_Some (value_after (take a log) r k) → value_after (take b log) r k = None →
  ∃ m cmd, (a <= m < b)%nat ∧ log !! m = Some cmd ∧ cmd_op cmd r k = KSet None.
Proof.
intros Hab Ha. induction b as [|b IH]; intros Hb.
{ assert (a = 0%nat) as -> by lia. rewrite Hb in Ha. by destruct Ha. }
destruct (decide (a = S b)) as [->|Hne]; [rewrite Hb in Ha; by destruct Ha|].
destruct (lookup_lt_is_Some_2 log b) as [cmd Hc]; [lia|]. rewrite (value_step _ _ _ _ _ Hc) in Hb.
destruct (value_after (take b log) r k) as [v|] eqn:Hv.
- exists b, cmd. split; [lia|]. split; [done|]. by destruct (cmd_op cmd r k) as [[]| | |]; cbn in Hb.
- destruct IH as (m & cmd' & Hm & ?); [lia|done|]. exists m, cmd'. split; [lia|done].
Qed.

(** A value that is there was written. *)
Lemma value_origin log r k v (b : nat) : (b <= length log)%nat → value_after (take b log) r k = Some v →
  ∃ m cmd, (m < b)%nat ∧ log !! m = Some cmd ∧
    (cmd_op cmd r k = KPutIfAbsent v ∨ cmd_op cmd r k = KSet (Some v) ∨ cmd_op cmd r k = KIncrement).
Proof.
intros Hb. induction b as [|b IH]; intros Hv; [done|].
destruct (lookup_lt_is_Some_2 log b) as [cmd Hc]; [lia|]. rewrite (value_step _ _ _ _ _ Hc) in Hv.
destruct (cmd_op cmd r k) as [u|w| |] eqn:Ho; cbn in Hv.
- subst u. exists b, cmd. rewrite Ho. split; [lia|]. auto.
- destruct (value_after (take b log) r k) as [v'|] eqn:Hv'.
  + injection Hv as ->. destruct IH as (m & cmd' & Hm & ?); [lia|done|]. exists m, cmd'. split; [lia|done].
  + injection Hv as ->. exists b, cmd. rewrite Ho. split; [lia|]. auto.
- exists b, cmd. rewrite Ho. split; [lia|]. auto.
- destruct IH as (m & cmd' & Hm & ?); [lia|done|]. exists m, cmd'. split; [lia|done].
Qed.

(** Who may write a marker or a tombstone, and who may remove one. *)
Definition may_write t r k v : Prop :=
  (∃ E, claims_of (th_request t) r k E ∧ v = encode_i64 (marker_expires_at E)) ∨
  (∃ f, th_request t = RqRevoke r f ∧ k = encode_grant_family_revoked (gf_family_id f) ∧ v = []).
Definition may_remove log t r k : Prop :=
  (∃ pre, th_request t = RqRelease r pre ∧ in_window pre (id_prefix_end pre) k = true) ∨
  (∃ now fuel v q, th_request t = RqSweepMarkers r now fuel ∧ (q <= length log)%nat ∧ value_after (take q log) r k = Some v ∧
     select_marker now k v = inr (Some tt) ∧ ord_lt k (id_prefix_end consumed_marker_scan_prefix) = true) ∨
  (∃ decode now fuel x id, th_request t = RqSweepFamilies r decode now fuel ∧ select_family decode now (se_key x) (se_value x) = inr (Some id) ∧
     (k = se_key x ∧ ord_lt k GRANT_FAMILY_PREFIX = false ∨ k = encode_grant_family_revoked id)).

(** The rows a thread has scanned, in terms of the log. *)
Lemma scanned_true cf i t a0 r (a b : list byte) x : config_ok cf → cf_threads cf !! i = Some t → scanned (take a0 (th_history t)) r a b x →
  ∃ q, (q <= length (cf_log cf))%nat ∧ value_after (take q (cf_log cf)) r (se_key x) = Some (se_value x) ∧ in_window a b (se_key x) = true.
Proof.
intros Hok Hi (es & q & Hin & Hx). apply elem_of_take in Hin as (n & Hn & _). apply list_elem_of_lookup_2 in Hn.
destruct (ci_true _ Hok _ _ _ Hi Hn) as [_ Hes]. rewrite list.Forall_forall in Hes. destruct (Hes x Hx) as (Hw & q' & Hq' & Hv). by exists q'.
Qed.

Lemma in_window_bounds (a b : list byte) k : in_window a b k = true → ord_lt k a = false ∧ ord_lt k b = true.
Proof. unfold in_window. rewrite andb_true_iff, negb_true_iff. done. Qed.

Lemma batch_op_deletes (ds : list (list byte)) k : batch_op [] ds k ≠ KNone → batch_op [] ds k = KSet None ∧ k ∈ ds.
Proof. unfold batch_op. case_decide; [done|]. cbn. by rewrite lookup_empty. Qed.

(** Every write of a protected key comes from a thread that may make it. *)
Lemma protected_write cf p cmd r k : config_ok cf → cf_log cf !! p = Some cmd → protected k → cmd_op cmd r k ≠ KNone →
  ∃ i t, cf_threads cf !! i = Some t ∧
    ((∃ v, cmd_op cmd r k = KPutIfAbsent v ∧ may_write t r k v) ∨ (cmd_op cmd r k = KSet None ∧ may_remove (cf_log cf) t r k)).
Proof.
intros Hok Hp Hk Hop. destruct (ci_owner _ Hok p cmd r k Hp Hk Hop) as (i & t & e & Hi & He & Hl). exists i, t. split; [done|].
destruct (ci_true _ Hok _ _ _ Hi He) as [Htr _]. destruct (Htr p Hl) as (cmd' & Hp' & Hprop). rewrite Hp in Hp'. injection Hp' as <-.
destruct (ci_follow _ Hok _ _ Hi) as [[m' Hf] Hrq]. apply list_elem_of_lookup in He as [a Ha].
assert (Forall sane (th_history t)) as Hsane.
{ apply list.Forall_forall. intros e' He'. eapply truthful_sane, (ci_true _ Hok); done. }
destruct (covers_follows _ _ [] _ _ (run_allowed (th_request t)) Hsane Hf a e Ha) as (B & c & Hall & Hans). cbn [app] in Hall.
destruct e as [| |r' k' v o l|r' k' o l|r' ps ds o l]; cbn in Hprop; try done; destruct Hprop as [ts ->]; unfold cmd_op in *; cbn [cmd_realm] in *;
  (destruct (decide (r' = r)) as [->|]; [|done]); destruct c as [? ?|? ? ?|r0 k0 v0|r0 k0|r0 ps0 ds0]; cbn in Hans; try (by destruct Hans);
  (case_decide as Hd; [|by destruct Hans]).
- destruct Hd as (-> & -> & ->). left. case_decide; [subst|done]. exists v. split; [done|]. exact Hall.
- destruct Hd as (-> & ->). right. destruct (batch_op_deletes _ _ Hop) as [-> ->%list_elem_of_singleton]. split; [done|].
  destruct Hall as [(marker & decode & Hreq)|(pre & x & Hreq & Hsc & ->)].
  + rewrite Hreq in Hrq. cbn in Hrq. done.
  + left. exists pre. split; [done|]. destruct (scanned_true _ _ _ _ _ _ _ _ Hok Hi Hsc) as (q & _ & _ & Hw). done.
- destruct Hd as (-> & -> & ->). right. destruct Hall as [-> Hall]. destruct (batch_op_deletes _ _ Hop) as [-> Hin]. split; [done|]. right.
  destruct (Hall k Hin) as [(now & fuel & b & x & Hreq & Hsc & -> & Hsel)|(decode & now & fuel & b & x & id & Hreq & Hsc & Hb & Hsel & Hkx)];
    destruct (scanned_true _ _ _ _ _ _ _ _ Hok Hi Hsc) as (q & Hq & Hv & Hw); apply in_window_bounds in Hw as [Hw1 Hw2].
  + left. by exists now, fuel, (se_value x), q.
  + right. exists decode, now, fuel, x, id. split; [done|]. split; [done|]. destruct Hkx as [->|]; [left|by right]. split; [done|].
    by eapply not_before_trans.
Qed.

(** ** Markers *)

Definition i64 (z : Z) : Prop := i64_min <= z <= i64_max.

Lemma decode_encode_i64 z : i64 z → decode_i64 (encode_i64 z) = z.
Proof.
unfold i64, i64_min, i64_max. intros Hz. unfold decode_i64, encode_i64. rewrite from_to_le. change (8 * Z.of_nat 8) with 64.
rewrite Z.mod_mod by lia. apply to_signed_mod; lia.
Qed.

Lemma marker_date_i64 E : i64 E → i64 (marker_expires_at E).
Proof.
unfold i64, marker_expires_at, CONSUMED_MARKER_GRACE_SECS, i64_min, i64_max. intros HE.
pose proof (Z.quot_le_mono E (2 ^ 63 - 1) 1000000 ltac:(lia) ltac:(lia)) as Hhi. pose proof (Z.quot_le_mono (- 2 ^ 63) E 1000000 ltac:(lia) ltac:(lia)) as Hlo.
assert (Z.quot (2 ^ 63 - 1) 1000000 = 9223372036854) as Hq1 by (by vm_compute). assert (Z.quot (- 2 ^ 63) 1000000 = -9223372036854) as Hq2 by (by vm_compute).
rewrite Hq1 in Hhi. rewrite Hq2 in Hlo. lia.
Qed.

(** The markers of two prefixes are apart. *)
Lemma consumed_before_family k : CONSUMED_PREFIX `prefix_of` k → ord_lt k GRANT_FAMILY_PREFIX = true.
Proof. intros [k' ->]. apply ord_lt_iff. by left. Qed.
Lemma consumed_not_tombstone k id : CONSUMED_PREFIX `prefix_of` k → k ≠ encode_grant_family_revoked id.
Proof. by intros [k' ->]. Qed.

(** A thread won the marker: its conditional put was answered with [true]. *)
Definition won t r k : Prop := ∃ v l, EPia r k v (Ok true) l ∈ th_history t.

Lemma won_position cf i t r k : config_ok cf → cf_threads cf !! i = Some t → won t r k →
  ∃ a v p, th_history t !! a = Some (EPia r k v (Ok true) (Some p)) ∧ (p < length (cf_log cf))%nat ∧
    value_after (take p (cf_log cf)) r k = None ∧ is_Some (value_after (take (S p) (cf_log cf)) r k).
Proof.
intros Hok Hi (v & l & Hin). pose proof Hin as [a Ha]%list_elem_of_lookup. destruct (ci_true _ Hok _ _ _ Hi Hin) as [Hl (p & -> & Hb)].
exists a, v, p. destruct (Hl p eq_refl) as (cmd & Hp & ts & ->). pose proof (lookup_lt_Some _ _ _ Hp). symmetry in Hb. apply bool_decide_eq_true in Hb.
split; [done|]. split; [done|]. split; [done|]. rewrite (value_step _ _ _ _ _ Hp), Hb. cbn. unfold cmd_op. cbn. rewrite !decide_True by done. cbn. by eexists.
Qed.

(** Two threads that won one marker have a thread that removed it in between. *)
Lemma two_wins_removed cf i j t t' r k : config_ok cf → protected k → cf_threads cf !! i = Some t → cf_threads cf !! j = Some t' → i ≠ j →
  won t r k → won t' r k → ∃ n t'', cf_threads cf !! n = Some t'' ∧ may_remove (cf_log cf) t'' r k.
Proof.
intros Hok Hk Hi Hj Hne Hw Hw'.
destruct (won_position _ _ _ _ _ Hok Hi Hw) as (a & v & p & Ha & Hp & Hnone & Hsome).
destruct (won_position _ _ _ _ _ Hok Hj Hw') as (b & v' & p' & Hb & Hp' & Hnone' & Hsome').
assert (p ≠ p') as Hpp.
{ intros ->. apply Hne. by eapply (ci_unique _ Hok i j t t' a b _ _ p' Hi Hj Ha Hb). }
assert (∀ p p', (p < p' < length (cf_log cf))%nat → is_Some (value_after (take (S p) (cf_log cf)) r k) → value_after (take p' (cf_log cf)) r k = None →
  ∃ n t'', cf_threads cf !! n = Some t'' ∧ may_remove (cf_log cf) t'' r k) as Hcase.
{ intros p0 p0' Hlt Hs Hn. destruct (deleted_between (cf_log cf) r k (S p0) p0') as (m & cmd & Hm & Hc & Ho); [lia|done|done|].
  destruct (protected_write cf m cmd r k Hok Hc Hk) as (n & t'' & Hn' & [(w & Hw1 & _)|[_ Hr]]); [by rewrite Ho|congruence|by exists n, t'']. }
destruct (decide (p < p')%nat); [apply (Hcase p p')|apply (Hcase p' p)]; (done || lia).
Qed.

(** The requests of a run on one marker: all date it [E], and none releases it. *)
Definition marker_dated cf r k (E : Z) : Prop :=
  ∀ i t, cf_threads cf !! i = Some t → (∀ E', claims_of (th_request t) r k E' → E' = E) ∧
    (∀ pre, th_request t = RqRelease r pre → in_window pre (id_prefix_end pre) k = false).

(** A marker won twice was swept by a clock past its date. *)
Lemma won_twice_swept cf i j t t' r k E : config_ok cf → CONSUMED_PREFIX `prefix_of` k → i64 E → marker_dated cf r k E →
  cf_threads cf !! i = Some t → cf_threads cf !! j = Some t' → i ≠ j → won t r k → won t' r k →
  ∃ n t'' now fuel, cf_threads cf !! n = Some t'' ∧ th_request t'' = RqSweepMarkers r now fuel ∧ marker_expires_at E <= now.
Proof.
intros Hok Hk HE Hdated Hi Hj Hne Hw Hw'. assert (protected k) as Hprot by by left.
destruct (two_wins_removed cf i j t t' r k) as (n & t'' & Hn & Hrem); [done..|]. exists n, t''.
destruct Hrem as [(pre & Hreq & Hwin)|[(now & fuel & v & q & Hreq & Hq & Hv & Hsel & _)|(decode & now & fuel & x & id & Hreq & _ & [[-> Hb]| ->])]].
- by rewrite (proj2 (Hdated _ _ Hn) _ Hreq) in Hwin.
- exists now, fuel. split; [done|]. split; [done|]. destruct (value_origin _ _ _ _ _ Hq Hv) as (m & cmd & Hm & Hc & Ho).
  destruct (protected_write cf m cmd r k Hok Hc Hprot) as (n' & t0 & Hn' & Hwr); [destruct Ho as [->|[->| ->]]; done|].
  destruct Hwr as [(w & Hw1 & Hmay)|[Hset _]]; [|rewrite Hset in Ho; by destruct Ho as [|[|]]].
  assert (w = v) as -> by (rewrite Hw1 in Ho; destruct Ho as [[= ->]|[|]]; done).
  destruct Hmay as [(E' & Hcl & ->)|(f & _ & -> & _)]; [|by eapply consumed_not_tombstone in Hk].
  rewrite (proj1 (Hdated _ _ Hn') _ Hcl) in Hsel. unfold select_marker in Hsel. destruct (_ =? 8); [|done].
  rewrite decode_encode_i64 in Hsel by (by apply marker_date_i64). destruct (Z.leb_spec (marker_expires_at E) now); [done|by injection Hsel].
- by rewrite consumed_before_family in Hb.
- by eapply consumed_not_tombstone in Hk.
Qed.

(** ** Replies *)

Lemma follows_call {A B} (c : call B) (kont : outcome StorageError B → prog A) h a : follows (Call c kont) h = Some (Done a) →
  ∃ e o h', h = e :: h' ∧ answer_of c e = Some o ∧ follows (kont o) h' = Some (Done a).
Proof. destruct h as [|e h]; [done|]. rewrite follows_cons. destruct (answer_of c e) as [o|] eqn:Ho; [|done]. intros Hf. by exists e, o, h. Qed.
Lemma follows_done {A} (a b : A) h : follows (Done a) h = Some (Done b) → a = b.
Proof. destruct h; [by intros [= ->]|done]. Qed.
Lemma pia_event r k v e o : answer_of (PutIfAbsent r k v) e = Some o → ∃ l, e = EPia r k v o l.
Proof. destruct e as [| |r' k' v' o' l| |]; cbn; try done. case_decide as Hd; [|done]. destruct Hd as (-> & -> & ->). intros [= ->]. by exists l. Qed.

(** The reply says that the request spent the marker. *)
Definition redeemed t r k : Prop :=
  (∃ E, th_request t = RqClaim r k E ∧ replied t (RpBool (Ok true))) ∨
  (∃ row decode, th_request t = RqTake r row k decode ∧ replied t (RpUnit (Ok tt))).

Lemma redeemed_won t r k : redeemed t r k → won t r k.
Proof.
unfold redeemed, replied. intros [(E & Hrq & Hf)|(row & decode & Hrq & Hf)]; rewrite Hrq in Hf; cbn [run] in Hf; unfold replying, claim_single_use, id_storage, take_single_use_row in Hf;
  unfold mbind, io_bind in Hf; cbn [prog_bind] in Hf.
- apply follows_call in Hf as (e & o & h' & Hh & [l ->]%pia_event & Hf). destruct o as [b| |]; cbn in Hf; apply follows_done in Hf; try done.
  injection Hf as ->. eexists _, l. rewrite Hh. left.
- apply follows_call in Hf as (e & o & h' & Hh & _ & Hf). destruct o as [[bytes|]| |]; cbn in Hf; try (by apply follows_done in Hf).
  destruct (decode bytes) as [x|]; cbn in Hf; [|by apply follows_done in Hf].
  apply follows_call in Hf as (e' & o' & h'' & -> & [l ->]%pia_event & Hf). destruct o' as [[]| |]; cbn in Hf; try (by apply follows_done in Hf).
  eexists _, l. rewrite Hh. right. left.
Qed.


(** ** Guesses *)

Lemma slots_won r (pre : list byte) (E : Z) : ∀ n s h s', 0 <= s → follows (replying (claim_slot_from r pre E s n) RpSlot) h = Some (Done (RpSlot (Ok (Some s')))) →
  s <= s' < s + Z.of_nat n ∧ ∃ v l, EPia r (slot_key pre s') v (Ok true) l ∈ h.
Proof.
unfold replying. induction n as [|n IH]; intros s h s' Hs Hf; [by apply follows_done in Hf|].
cbn [claim_slot_from] in Hf. unfold mbind, io_bind, id_storage, claim_single_use in Hf. cbn [prog_bind] in Hf.
apply follows_call in Hf as (e & o & h' & -> & _ & Hf). destruct o as [[v|]| |]; cbn [prog_bind] in Hf; try (by apply follows_done in Hf).
- destruct (IH (s + 1) h' s') as [Hr (v' & l & Hin)]; [lia|done|]. split; [lia|]. exists v', l. by right.
- unfold id_storage in Hf. cbn [prog_bind] in Hf. apply follows_call in Hf as (e' & o' & h'' & -> & [l ->]%pia_event & Hf). destruct o' as [[]| |]; cbn [prog_bind] in Hf; try (by apply follows_done in Hf).
  + apply follows_done in Hf. injection Hf as <-. split; [lia|]. eexists _, l. right. left.
  + destruct (IH (s + 1) h'' s') as [Hr (v' & l' & Hin)]; [lia|done|]. split; [lia|]. exists v', l'. right. by right.
Qed.

(** The guess was admitted, with this slot. *)
Definition guessed t r (pre : list byte) (max E s : Z) : Prop := th_request t = RqGuess r pre max E ∧ replied t (RpSlot (Ok (Some s))).

Lemma guessed_won t r (pre : list byte) (max E s : Z) : guessed t r pre max E s → 1 <= s <= max ∧ won t r (slot_key pre s).
Proof.
unfold guessed, replied. intros [Hrq Hf]. rewrite Hrq in Hf. cbn [run] in Hf. unfold claim_guess_slot in Hf.
apply slots_won in Hf as [Hs Hin]; [|lia]. split; [lia|done].
Qed.

Lemma slot_key_inj (pre : list byte) s s' : slot_key pre s = slot_key pre s' → s = s'.
Proof.
unfold slot_key, show, lit. intros Hk%app_inv_head. apply (inj (pretty (A := Z))).
by rewrite <-(String.string_of_list_byte_of_string (pretty s)), <-(String.string_of_list_byte_of_string (pretty s')), Hk.
Qed.

(** A list of distinct integers in a range is no longer than the range. *)
Lemma nodup_in_range (l : list Z) (max : Z) : NoDup l → Forall (λ s, 1 <= s <= max) l → Z.of_nat (length l) <= Z.max 0 max.
Proof.
intros Hnd Hl. assert (l ⊆+ seqZ 1 (Z.max 0 max)) as Hsub.
{ apply NoDup_submseteq; [done|]. intros s Hs. rewrite list.Forall_forall in Hl. apply Hl in Hs. apply elem_of_seqZ. lia. }
apply submseteq_length in Hsub. rewrite length_seqZ in Hsub. lia.
Qed.


(** ** Revocations *)

Lemma revoked_logged cf i t r f : config_ok cf → cf_threads cf !! i = Some t → th_request t = RqRevoke r f → replied t (RpUnit (Ok tt)) →
  ∃ p, (p < length (cf_log cf))%nat ∧ is_Some (value_after (take (S p) (cf_log cf)) r (encode_grant_family_revoked (gf_family_id f))).
Proof.
unfold replied. intros Hok Hi Hrq Hf. rewrite Hrq in Hf. cbn [run] in Hf. unfold replying, mark_grant_family_revoked, claim_single_use, id_storage in Hf. unfold mbind, io_bind in Hf. cbn [prog_bind] in Hf.
apply follows_call in Hf as (e & o & h' & Hh & [l ->]%pia_event & Hf). destruct o as [b| |]; cbn [prog_bind] in Hf; try (by apply follows_done in Hf).
assert (EPia r (encode_grant_family_revoked (gf_family_id f)) [] (Ok b) l ∈ th_history t) as Hin by (rewrite Hh; left).
destruct (ci_true _ Hok _ _ _ Hi Hin) as [Hl (p & -> & Hb)]. exists p. destruct (Hl p eq_refl) as (cmd & Hp & ts & ->).
split; [by eapply lookup_lt_Some|]. rewrite (value_step _ _ _ _ _ Hp). unfold cmd_op. cbn. rewrite !decide_True by done. cbn.
by destruct (value_after _ _ _); eexists.
Qed.

(** No sweep of the run found the family expired, by its clock. *)
Definition family_unexpired cf r (id : Str) : Prop :=
  ∀ i t decode now fuel bytes f, cf_threads cf !! i = Some t → th_request t = RqSweepFamilies r decode now fuel →
    decode bytes = Some f → gf_family_id f = id → now < gf_expires_at f.

