(* ===== verification/SingleUseCluster.v ===== *)
(** * Conditional puts and the state machine

What a node answers to a conditional put that its Raft committed next is what the log
gives the key at that point: the answer that the runs of [SingleUseRuns] give. *)
From stdpp Require Import base list gmap strings.
From Stdlib Require Import Strings.Byte ZArith Lia.
From S2P Require Import Prelude OrdMap StorageTypes OrdSet RealmRows RaftState RaftReplay RaftLog RaftInstall RaftCluster.
From S2P Require Import RbacTypes RbacKeys SingleUse SingleUseRuns SingleUseSafe SingleUseProps.

Open Scope Z_scope.

Section answers.
Context {M : Type} `{!RaftCodec M, !RealmList}.
Implicit Types (log : list (Entry M)) (r : RealmId) (k : list byte).

(** The commands of a log. *)
Definition log_cmds log : list RaftCommand := omap (λ e, match en_payload e with Normal cmd => Some cmd | _ => None end) log.
(** No command increments the key. *)
Definition never_incremented log r k : Prop := Forall (λ cmd, cmd_op cmd r k ≠ KIncrement) (log_cmds log).

Lemma committed_value log r k : never_incremented log r k → (committed log (length log) r k).1 = value_after (log_cmds log) r k.
Proof.
unfold committed. rewrite take_ge by lia. unfold never_incremented, log_cmds.
induction log as [|e log IH] using rev_ind; intros Hn; [done|]. rewrite omap_app in *. apply Forall_app in Hn as [Hn He].
rewrite key_ops_app, run_cell_app. specialize (IH Hn). cbn [key_ops fmap list_fmap run_cell foldl fst snd]. unfold entry_op. cbn [omap list_omap] in *.
destruct (en_payload e) as [|cmd|m]; cbn [cell_step].
- by rewrite app_nil_r.
- rewrite value_snoc, <-IH. apply Forall_cons in He as [He _]. set (x := run_cell _ _). destruct (cmd_op cmd r k) as [u|w| |]; cbn; [done| |done|done].
  by destruct x as [[v|] l].
- by rewrite app_nil_r.
Qed.

Context `{!RaftCodecLaws M, !RealmListLaws}.

(** C21: In every reachable cluster, a running node that has applied the whole log answers
the conditional put that is committed next with whether the commands of the log leave its
key absent, and leaves the key present. *)
Theorem conditional_put_decided_by_log (n : nat) (c : Cluster M) i s bus e ts r k v : reachable n c → cl_nodes c !! i = Some (MkNode s true bus) →
  sm_last_applied s = last_id (cl_log c) (length (cl_log c)) → log_ok (cl_log c ++ [e]) → en_payload e = Normal (CPutIfAbsent ts r k v) →
  never_incremented (cl_log c) r k →
  ∃ s', apply_entry e (with_faults [] s) = (Ok (MkResponse (bool_decide (value_after (log_cmds (cl_log c)) r k = None)) []), s') ∧
    is_Some (rows_of (dk_rows (sm_disk s')) r !! k).
Proof.
intros Hr%reachable_ok Hi Hla Hok He Hn. destruct Hr as [Hlog Hnodes _]. pose proof (Forall_lookup_1 _ _ _ _ Hnodes Hi) as Hnd.
inversion Hnd as [s0 bus0 a Hs Hslot Hbus| |]; subst. pose proof (ro_pos _ _ _ (mo_rows _ _ _ Hs)) as Ha.
assert (a = length (cl_log c)) as ->.
{ rewrite (mo_applied _ _ _ Hs) in Hla. rewrite <-(pos_of_last_id _ a Hlog Ha), Hla. by apply pos_of_last_id. }
assert (client_key k = true) as Hk.
{ assert (client_entry e) as Hc by (apply (log_client _ Hok), elem_of_app; right; left). unfold client_entry in Hc. rewrite He in Hc.
  unfold client_cmd in Hc. cbn in Hc. by apply Forall_cons in Hc as [? _]. }
pose proof (fuzzy_end _ _ _ _ (ro_cells _ _ _ (mo_rows _ _ _ Hs) r k Hk)) as Hcell.
pose proof (committed_value _ r k Hn) as Hval. rewrite <-Hcell in Hval. cbn in Hval.
assert (machine_ok (cl_log c ++ [e]) (length (cl_log c)) (with_faults [] s)) as Hs'.
{ destruct Hs as [Hrows Hmark Happ Hmem]. constructor; [by apply rows_ok_grows|done| |]; [by rewrite last_id_app|by rewrite members_at_app]. }
pose proof (apply_entry_ok _ _ e _ Hok (list_lookup_middle _ _ _ _ eq_refl) Hs') as Hap. cbn in Hap.
destruct (apply_entry e (with_faults [] s)) as [[resp|err|] s']; [|by destruct Hap as (_ & _ & ? & _)|done].
destruct Hap as (_ & Hrows & -> & _). exists s'. split.
- unfold entry_response. rewrite He. cbn. by rewrite Hval.
- assert (cell_of (dk_rows (sm_disk s')) r k = cell_step (li_index (en_log_id e)) (entry_op e r k) (cell_of (dk_rows (sm_disk s)) r k)) as Hc'.
  { rewrite Hrows. apply entry_cell; [done|]. apply (log_client _ Hok), elem_of_app. right. left. }
  unfold cell_of, entry_op in Hc'. rewrite He in Hc'. unfold cmd_op in Hc'. cbn in Hc'. rewrite !decide_True in Hc' by done. cbn in Hc'.
  destruct (rows_of (dk_rows (sm_disk s)) r !! k); by injection Hc' as ->.
Qed.
End answers.
