(* ===== verification/SingleUseScenarios.v ===== *)
(** * Runs of claims

Concrete runs of two nodes: a marker redeemed again after a late sweep, a guess budget
used up across the nodes, a revocation, and a revocation by a node that read a stale
family row. *)
From stdpp Require Import base list gmap strings.
From Stdlib Require Import Strings.Byte ZArith Lia.
From S2P Require Import Prelude OrdMap StorageTypes OrdSet RealmRows RaftState RaftReplay RaftLog RaftInstall RaftCluster RaftScenarios.
From S2P Require Import RbacTypes RbacKeys SingleUse SingleUseRuns SingleUseSafe SingleUseProps SingleUseCluster.

Open Scope Z_scope.

Definition can_follow {A} (p : prog A) (h : list Event) : bool := match follows p h with Some _ => true | None => false end.

(** One step of a run, by its effect. *)
Lemma call_step log pos ths i n rq h q e log' q' ths' pos' : ths !! i = Some (MkThread n rq h) → pos !! n = Some q →
  can_follow (run rq) (h ++ [e]) = true → event_step log q e log' q' → <[n := (q `max` q')%nat]> pos = pos' →
  <[i := MkThread n rq (h ++ [e])]> ths = ths' → config_step (MkConfig log pos ths) (MkConfig log' pos' ths').
Proof.
intros Hi Hn Hf Hs <- <-. eapply CCall; [done|done| |done]. revert Hf. unfold can_follow. destruct (follows _ _); [by eexists|done].
Qed.

(** A conditional put, answered. *)
Lemma pia_step log q r k v ts b : bool_decide (value_after log r k = None) = b →
  event_step log q (EPia r k v (Ok b) (Some (length log))) (log ++ [CPutIfAbsent ts r k v]) (S (length log)).
Proof. intros <-. constructor. by exists ts. Qed.
Lemma get_step log q r k v : value_after (take q log) r k = v → event_step log q (EGet r k (Ok v) q) log q.
Proof. intros <-. constructor. Qed.

Lemma spawn_step log pos ths n rq ths' : request_ok rq → ths ++ [MkThread n rq []] = ths' →
  config_step (MkConfig log pos ths) (MkConfig log pos ths').
Proof. intros Hrq <-. by apply CSpawn. Qed.

Ltac spawns c := apply (rtc_l _ _ c); [eapply spawn_step; [|reflexivity]; try exact I|].
(** Thread [i] makes its [n]-th call. *)
(** Thread [i] makes the call [e], after which its node has applied [q], and the run goes
on from [c]. *)
Ltac calls c i e q := apply (rtc_l _ _ c); [eapply (call_step _ _ _ i _ _ _ _ e _ q); [reflexivity|reflexivity|by vm_compute|idtac|reflexivity|reflexivity]|].

(** ** A marker swept late *)

Definition code : list byte := encode_consumed (lit "code") (lit "ab").
Definition date0 : list byte := encode_i64 60.
Definition claimed0 : Event := EPia r1 code date0 (Ok true) (Some 0%nat).
Definition scanned1 : Event := EScan r1 consumed_marker_scan_prefix (id_prefix_end consumed_marker_scan_prefix) (Ok [Scan code date0]) 1.
Definition swept1 : Event := EBatch r1 [] [code] (Ok tt) (Some 1%nat).
Definition claimed2 : Event := EPia r1 code date0 (Ok true) (Some 2%nat).
Definition first_claim : Thread := MkThread 0 (RqClaim r1 code 0) [claimed0].
Definition late_sweep : Thread := MkThread 0 (RqSweepMarkers r1 60 1) [scanned1; swept1].
Definition second_claim : Thread := MkThread 1 (RqClaim r1 code 0) [claimed2].
Definition swept_log : list RaftCommand := [CPutIfAbsent 0 r1 code date0; CWriteBatch 0 r1 [] [code]; CPutIfAbsent 0 r1 code date0].
Definition swept : Config := MkConfig swept_log [2%nat; 3%nat] [first_claim; late_sweep; second_claim].

Lemma swept_reachable : config_reachable 2 swept.
Proof.
unfold config_reachable. cbn [replicate].
spawns (MkConfig [] [0%nat; 0%nat] [MkThread 0 (RqClaim r1 code 0) []]).
calls (MkConfig (take 1 swept_log) [1%nat; 0%nat] [first_claim]) 0%nat claimed0 1%nat; [by apply (pia_step [])|].
spawns (MkConfig (take 1 swept_log) [1%nat; 0%nat] [first_claim; MkThread 0 (RqSweepMarkers r1 60 1) []]).
calls (MkConfig (take 1 swept_log) [1%nat; 0%nat] [first_claim; MkThread 0 (RqSweepMarkers r1 60 1) [scanned1]]) 1%nat scanned1 1%nat.
{ apply ScanServed. constructor; [|constructor]. split; [by vm_compute|]. exists 1%nat. split; [done|by vm_compute]. }
calls (MkConfig (take 2 swept_log) [2%nat; 0%nat] [first_claim; late_sweep]) 1%nat swept1 2%nat; [by apply (BatchDone (take 1 swept_log)); exists 0|].
spawns (MkConfig (take 2 swept_log) [2%nat; 0%nat] [first_claim; late_sweep; MkThread 1 (RqClaim r1 code 0) []]).
calls (MkConfig swept_log [2%nat; 3%nat] [first_claim; late_sweep; second_claim]) 2%nat claimed2 3%nat; [by apply (pia_step (take 2 swept_log))|].
apply rtc_refl.
Qed.

Lemma swept_dated : marker_dated swept r1 code 0.
Proof. intros i t Hi. do 3 (destruct i as [|i]; [injection Hi as <-; cbn; split; [by intros ? (_ & _ & <-) || done|done]|]). done. Qed.


(** ** A guess budget used up *)

(** Node 1 has applied nothing when it guesses, so the first slot looks free to it; node 0
then guesses with only its own slot applied. *)
Definition budget : list byte := encode_guess_slot_prefix (lit "mfa") (lit "u").
Definition slot1 : list byte := slot_key budget 1.
Definition slot2 : list byte := slot_key budget 2.
Definition guess : Request := RqGuess r1 budget 2 0.
Definition seen_free1 : Event := EGet r1 slot1 (Ok None) 0.
Definition won1 : Event := EPia r1 slot1 date0 (Ok true) (Some 0%nat).
Definition lost1 : Event := EPia r1 slot1 date0 (Ok false) (Some 1%nat).
Definition seen_free2 : Event := EGet r1 slot2 (Ok None) 2.
Definition won2 : Event := EPia r1 slot2 date0 (Ok true) (Some 2%nat).
Definition seen_taken1 : Event := EGet r1 slot1 (Ok (Some date0)) 1.
Definition stale_free2 : Event := EGet r1 slot2 (Ok None) 1.
Definition lost2 : Event := EPia r1 slot2 date0 (Ok false) (Some 3%nat).
Definition guess_a : Thread := MkThread 0 guess [seen_free1; won1].
Definition guess_b : Thread := MkThread 1 guess [seen_free1; lost1; seen_free2; won2].
Definition guess_c : Thread := MkThread 0 guess [seen_taken1; stale_free2; lost2].
Definition guess_log : list RaftCommand :=
  [CPutIfAbsent 0 r1 slot1 date0; CPutIfAbsent 0 r1 slot1 date0; CPutIfAbsent 0 r1 slot2 date0; CPutIfAbsent 0 r1 slot2 date0].
Definition guessed_out : Config := MkConfig guess_log [4%nat; 3%nat] [guess_a; guess_b; guess_c].
Definition guesses (a b c : nat) : list Thread :=
  [MkThread 0 guess (take a (th_history guess_a)); MkThread 1 guess (take b (th_history guess_b)); MkThread 0 guess (take c (th_history guess_c))].

Lemma guess_ok : request_ok guess.
Proof. by eexists. Qed.

Lemma guessed_out_reachable : config_reachable 2 guessed_out.
Proof.
unfold config_reachable. cbn [replicate].
spawns (MkConfig [] [0%nat; 0%nat] (take 1 (guesses 0 0 0))); [exact guess_ok|].
spawns (MkConfig [] [0%nat; 0%nat] (take 2 (guesses 0 0 0))); [exact guess_ok|].
spawns (MkConfig [] [0%nat; 0%nat] (guesses 0 0 0)); [exact guess_ok|].
calls (MkConfig [] [0%nat; 0%nat] (guesses 1 0 0)) 0%nat seen_free1 0%nat; [by apply (get_step [])|].
calls (MkConfig (take 1 guess_log) [1%nat; 0%nat] (guesses 2 0 0)) 0%nat won1 1%nat; [by apply (pia_step [])|].
calls (MkConfig (take 1 guess_log) [1%nat; 0%nat] (guesses 2 1 0)) 1%nat seen_free1 0%nat; [by apply (get_step (take 1 guess_log))|].
calls (MkConfig (take 2 guess_log) [1%nat; 2%nat] (guesses 2 2 0)) 1%nat lost1 2%nat; [by apply (pia_step (take 1 guess_log)); vm_compute|].
calls (MkConfig (take 2 guess_log) [1%nat; 2%nat] (guesses 2 3 0)) 1%nat seen_free2 2%nat; [by apply (get_step (take 2 guess_log)); vm_compute|].
calls (MkConfig (take 3 guess_log) [1%nat; 3%nat] (guesses 2 4 0)) 1%nat won2 3%nat; [by apply (pia_step (take 2 guess_log)); vm_compute|].
calls (MkConfig (take 3 guess_log) [1%nat; 3%nat] (guesses 2 4 1)) 2%nat seen_taken1 1%nat; [by apply (get_step (take 3 guess_log)); vm_compute|].
calls (MkConfig (take 3 guess_log) [1%nat; 3%nat] (guesses 2 4 2)) 2%nat stale_free2 1%nat; [by apply (get_step (take 3 guess_log)); vm_compute|].
calls (MkConfig guess_log [4%nat; 3%nat] (guesses 2 4 3)) 2%nat lost2 4%nat; [by apply (pia_step (take 3 guess_log)); vm_compute|].
apply rtc_refl.
Qed.

Lemma budget_dated s : marker_dated guessed_out r1 (slot_key budget s) 0.
Proof. intros i t Hi. do 3 (destruct i as [|i]; [injection Hi as <-; split; [by intros ? (_ & _ & <- & _) || (cbn; naive_solver)|done]|]). done. Qed.


(** ** A revocation by a node behind the log *)

(** Node 1 rotates the family from the token [h1] to [h2]: it claims [h1] and writes the
row. Node 0, which has applied neither, revokes the family by the row with [h1]. Another
rotation on node 1 read the row with [h2] and no tombstone, and claims [h2] after the
revocation. *)
Definition family_row : list byte := encode_grant_family (lit "f").
Definition family_at (hash : Str) : GrantFamily := MkFamily (lit "f") hash 0 false.
Definition tombstone : list byte := encode_grant_family_revoked (lit "f").
Definition token (hash : Str) : list byte := encode_consumed_refresh hash.
Definition h1 : Str := lit "h1".
Definition h2 : Str := lit "h2".
Definition rotated : Event := EPia r1 (token h1) date0 (Ok true) (Some 0%nat).
Definition read_live : Event := EGet r1 tombstone (Ok None) 2.
Definition buried : Event := EPia r1 tombstone [] (Ok true) (Some 2%nat).
Definition spent : Event := EPia r1 (token h1) date0 (Ok false) (Some 3%nat).
Definition rotated_again : Event := EPia r1 (token h2) date0 (Ok true) (Some 4%nat).
Definition rotation : Thread := MkThread 1 (RqClaim r1 (token h1) 0) [rotated].
Definition live_check : Thread := MkThread 1 (RqIsRevoked r1 (family_at h2)) [read_live].
Definition revocation : Thread := MkThread 0 (RqRevoke r1 (family_at h1)) [buried; spent].
Definition late_rotation : Thread := MkThread 1 (RqClaim r1 (token h2) 0) [rotated_again].
Definition revoked_log : list RaftCommand :=
  [CPutIfAbsent 0 r1 (token h1) date0; CPut 0 r1 family_row h2; CPutIfAbsent 0 r1 tombstone []; CPutIfAbsent 0 r1 (token h1) date0;
   CPutIfAbsent 0 r1 (token h2) date0].
Definition revoked_late : Config := MkConfig revoked_log [4%nat; 5%nat] [rotation; live_check; revocation; late_rotation].
Definition begun (hs : list (list Event)) : list Thread :=
  zip_with (λ t h, MkThread (th_node t) (th_request t) h) (cf_threads revoked_late) hs.

Lemma family_row_foreign ts v r k : protected k → cmd_op (CPut ts r1 family_row v) r k = KNone.
Proof.
intros Hk. unfold cmd_op. cbn [cmd_realm]. case_decide; [|done]. unfold batch_op, put_all. cbn [foldl fst snd].
rewrite lookup_insert_ne; [done|]. intros <-. destruct Hk as [[x Hx]|[x Hx]]; vm_compute in Hx; discriminate Hx.
Qed.

Lemma revoked_late_reachable : config_reachable 2 revoked_late.
Proof.
unfold config_reachable. cbn [replicate].
spawns (MkConfig [] [0%nat; 0%nat] (begun [[]])).
calls (MkConfig (take 1 revoked_log) [0%nat; 1%nat] (begun [[rotated]])) 0%nat rotated 1%nat; [by apply (pia_step [])|].
apply (rtc_l _ _ (MkConfig (take 2 revoked_log) [0%nat; 1%nat] (begun [[rotated]]))); [apply (CForeign (take 1 revoked_log)), family_row_foreign|].
apply (rtc_l _ _ (MkConfig (take 2 revoked_log) [0%nat; 2%nat] (begun [[rotated]]))); [apply (CApply (take 2 revoked_log) [0%nat; 1%nat] _ 1 1 2); [done|cbn; lia]|].
spawns (MkConfig (take 2 revoked_log) [0%nat; 2%nat] (begun [[rotated]; []])).
calls (MkConfig (take 2 revoked_log) [0%nat; 2%nat] (begun [[rotated]; [read_live]])) 1%nat read_live 2%nat; [by apply (get_step (take 2 revoked_log)); vm_compute|].
spawns (MkConfig (take 2 revoked_log) [0%nat; 2%nat] (begun [[rotated]; [read_live]; []])).
calls (MkConfig (take 3 revoked_log) [3%nat; 2%nat] (begun [[rotated]; [read_live]; [buried]])) 2%nat buried 3%nat; [by apply (pia_step (take 2 revoked_log)); vm_compute|].
calls (MkConfig (take 4 revoked_log) [4%nat; 2%nat] (begun [[rotated]; [read_live]; [buried; spent]])) 2%nat spent 4%nat; [by apply (pia_step (take 3 revoked_log)); vm_compute|].
spawns (MkConfig (take 4 revoked_log) [4%nat; 2%nat] (begun [[rotated]; [read_live]; [buried; spent]; []])).
calls (MkConfig revoked_log [4%nat; 5%nat] (begun [[rotated]; [read_live]; [buried; spent]; [rotated_again]])) 3%nat rotated_again 5%nat; [by apply (pia_step (take 4 revoked_log)); vm_compute|].
apply rtc_refl.
Qed.



(** ** A conditional put answered by a node that joined *)

Definition caught_up : Machine nat := (apply_entries (stretch 2 4 log4) (with_faults [] joined)).2.
Definition caught_up_cluster : Cluster nat :=
  MkCluster log4 [MkNode (set_current (Some snap2) machine3) true []; MkNode caught_up true []] [snap2].
Definition log5_put : Entry nat := MkEntry (id_at 4) (Normal (CPutIfAbsent 9 r1 code date0)).

Lemma caught_up_reachable : reachable 2 caught_up_cluster.
Proof.
eapply rtc_r; [exact joined_reachable|]. eapply (on_node _ _ _ _ 1); [reflexivity| |reflexivity].
pose proof (apply_works log4 [snap2] 4 joined []) as Hs. rewrite joined_applied in Hs. apply Hs. cbn. lia.
Qed.
Lemma log5_ok : log_ok (log4 ++ [log5_put]).
Proof.
apply small_log_ok.
- intros j e He. do 5 (destruct j as [|j]; [by injection He as <-|]). done.
- intros e cmd He. by injection He as <-.
- by repeat constructor.
- cbn. unfold u64_max. lia.
- by repeat constructor.
Qed.

Lemma conditional_put_witness : ∃ s', apply_entry log5_put (with_faults [] caught_up) = (Ok (MkResponse true []), s') ∧
  is_Some (rows_of (dk_rows (sm_disk s')) r1 !! code).
Proof.
apply (conditional_put_decided_by_log 2 caught_up_cluster 1 caught_up [] log5_put 9 r1 code date0).
- exact caught_up_reachable.
- reflexivity.
- vm_compute. reflexivity.
- exact log5_ok.
- reflexivity.
- by repeat constructor.
Defined.
