(* ===== verification/Cleanup.v ===== *)
(** * The expiry sweeps

[identity/cleanup.rs]: the sweeps of expired OAuth, SAML and session rows of one realm
and their sequence [sweep_expired], over the chunked walk [sweep_prefix] of [SingleUse].
The decoders of the stored records are parameters. *)
From stdpp Require Import base list gmap strings.
From Stdlib Require Import Strings.Byte ZArith Lia.
From S2P Require Import Prelude OrdMap StorageTypes OrdSet RealmRows RbacTypes RbacKeys IpRange RbacEngine RaftState SingleUse.

Open Scope Z_scope.

(** ** Keys *)

Definition OAUTH_CODE_PREFIX : Str := lit "oauth:code:".
Definition SESSION_GRANT_FAMILY_PREFIX : Str := lit "oauth:session_fam:".
Definition SESSION_PARENT_PREFIX : Str := lit "oauth:session_parent:".
Definition DEVICE_CODE_PREFIX : Str := lit "oauth:device:".
Definition USER_CODE_PREFIX : Str := lit "oauth:ucode:".
Definition REVOKED_JTI_PREFIX : Str := lit "oauth:revjti:".
Definition CLIENT_ASSERTION_JTI_PREFIX : Str := lit "oauth:ca-jti:".
Definition JAR_JTI_PREFIX : Str := lit "oauth:jar-jti:".
Definition OIDC_NONCE_PREFIX : Str := lit "oauth:nonce:".
Definition OAUTH_PENDING_AUTH_PREFIX : Str := lit "oauth:pending_auth:".
Definition SAML_STATE_PREFIX : Str := lit "saml:state:".
Definition SAML_ASSERTION_PREFIX : Str := lit "saml:asn:".
Definition SESSION_ID_PREFIX : Str := lit "ses:id:".
Definition SESSION_USER_PREFIX : Str := lit "ses:user:".
Definition DPOP_JTI_PREFIX : Str := lit "agt:dpop:jti:".
Definition PAR_PREFIX : Str := lit "oauth:par:".
Definition ACTOR_JTI_PREFIX : Str := lit "agt:actor:jti:".
Definition DELEGATION_GRANT_PARENT_PREFIX : Str := lit "dgrant:parent:".
Definition AAT_RECORD_PREFIX : Str := lit "aat:rec:".

(** [std::str::from_utf8(..).is_ok()]: the well-formed sequences of Unicode. *)
Definition between (lo hi : Z) (b : byte) : bool := (lo <=? byte_val b) && (byte_val b <=? hi).
Fixpoint valid_utf8 (s : list byte) : bool :=
  match s with
  | [] => true
  | a :: s1 =>
      if between 0 127 a then valid_utf8 s1
      else match s1 with
      | [] => false
      | b :: s2 =>
          if between 194 223 a then between 128 191 b && valid_utf8 s2
          else match s2 with
          | [] => false
          | c :: s3 =>
              if between 224 239 a then
                between (if byte_val a =? 224 then 160 else 128) (if byte_val a =? 237 then 159 else 191) b && between 128 191 c && valid_utf8 s3
              else match s3 with
              | [] => false
              | d :: s4 =>
                  between 240 244 a && between (if byte_val a =? 240 then 144 else 128) (if byte_val a =? 244 then 143 else 191) b &&
                  between 128 191 c && between 128 191 d && valid_utf8 s4
              end
          end
      end
  end.

Definition encode_user_code (user_code : Str) : list byte := USER_CODE_PREFIX ++ user_code.
Definition encode_session_id `{!UuidText} (session_id : Uuid) : list byte := SESSION_ID_PREFIX ++ uuid_to_string session_id.
Definition encode_user_session `{!UuidText} (user_id session_id : Uuid) : list byte :=
  SESSION_USER_PREFIX ++ uuid_to_string user_id ++ colon :: uuid_to_string session_id.
Definition decode_session_parent_key `{!UuidText, !UuidTextLaws} (key : list byte) : option Uuid :=
  rest ← strip_prefix SESSION_PARENT_PREFIX key;
  if valid_utf8 rest then uuid_parse rest else None.
Definition decode_session_grant_family_id (key : list byte) : option Str :=
  rest ← strip_prefix SESSION_GRANT_FAMILY_PREFIX key;
  if valid_utf8 rest then
    '(_, family_id) ← split_once colon rest;
    if decide (family_id = []) then None else Some family_id
  else None.

(** ** The records *)

(** What the sweeps read of each stored record: [serde_json], and [codec::decode] for a
session. *)
Class RowDecoders := {
  de_auth_code : list byte → option Z; (* [expires_at], in micros *)
  de_device_code : list byte → option (Z * Str); (* [expires_at] and [user_code] *)
  de_pending : list byte → option Z;
  de_family : list byte → option GrantFamily;
  de_par : list byte → option Z;
  de_aat : list byte → option Z; (* [exp], in seconds *)
  de_saml_state : list byte → option Z; (* [created_at] *)
  de_session : list byte → option (Z * Uuid * Uuid) (* [expires_at], the user and the session *)
}.

Section sweeps.
Context `{!RowDecoders, !UuidText, !UuidTextLaws}.
Implicit Types (realm : RealmId) (k v : list byte).

Definition no_decode {T} (what : string) : StorageError + option T := inl (DeserializationFailed what).
(** [condition.then_some(item)]. *)
Definition then_some {T} (b : bool) (t : T) : option T := if b then Some t else None.

Definition select_le (now_secs : Z) (_ v : list byte) : StorageError + option unit :=
  inr (then_some ((zlen v =? 8) && (decode_i64 v <=? now_secs)) tt).
Definition sweep_le_expiring realm (prefix : list byte) (now_secs : Z) (fuel : nat) : io StorageError (option nat) :=
  sweep_prefix realm prefix None (select_le now_secs) (λ k _, delete_row k) fuel.

Definition sweep_auth_codes realm (now : Z) (max_per_type fuel : nat) : io StorageError (option nat) :=
  sweep_prefix realm OAUTH_CODE_PREFIX (Some max_per_type)
    (λ _ v, match de_auth_code v with None => no_decode "cleanup: failed to deserialize auth code" | Some e => inr (then_some (e <=? now) tt) end)
    (λ k _, delete_row k) fuel.

Definition sweep_device_codes realm (now : Z) (max_per_type fuel : nat) : io StorageError (option nat) :=
  sweep_prefix realm DEVICE_CODE_PREFIX (Some max_per_type)
    (λ _ v, match de_device_code v with
            | None => no_decode "cleanup: failed to deserialize device code"
            | Some (e, user_code) => inr (then_some (e <=? now) user_code)
            end)
    (λ k user_code, Done ([k; encode_user_code user_code], Ok true)) fuel.

Definition sweep_pending_tickets realm (now : Z) (max_per_type fuel : nat) : io StorageError (option nat) :=
  sweep_prefix realm OAUTH_PENDING_AUTH_PREFIX (Some max_per_type)
    (λ _ v, match de_pending v with None => no_decode "cleanup: failed to deserialize pending ticket" | Some e => inr (then_some (e <=? now) tt) end)
    (λ k _, delete_row k) fuel.

Definition sweep_par_requests realm (now : Z) (max_per_type fuel : nat) : io StorageError (option nat) :=
  sweep_prefix realm PAR_PREFIX (Some max_per_type)
    (λ _ v, match de_par v with None => no_decode "cleanup: failed to deserialize PAR request" | Some e => inr (then_some (e <=? now) tt) end)
    (λ k _, delete_row k) fuel.

Definition sweep_jar_jtis realm now_secs fuel := sweep_le_expiring realm JAR_JTI_PREFIX now_secs fuel.
Definition sweep_dpop_jtis realm now_secs fuel := sweep_le_expiring realm DPOP_JTI_PREFIX now_secs fuel.
Definition sweep_actor_jtis realm now_secs fuel := sweep_le_expiring realm ACTOR_JTI_PREFIX now_secs fuel.
Definition sweep_delegation_parent_index realm now_secs fuel := sweep_le_expiring realm DELEGATION_GRANT_PARENT_PREFIX now_secs fuel.
Definition sweep_client_assertion_jtis realm now_secs fuel := sweep_le_expiring realm CLIENT_ASSERTION_JTI_PREFIX now_secs fuel.
Definition sweep_saml_assertions realm now_secs fuel := sweep_le_expiring realm SAML_ASSERTION_PREFIX now_secs fuel.
Definition sweep_oidc_nonces realm now_secs fuel := sweep_le_expiring realm OIDC_NONCE_PREFIX now_secs fuel.
Definition sweep_revoked_jtis realm now_secs fuel := sweep_le_expiring realm REVOKED_JTI_PREFIX now_secs fuel.

(** A record that does not parse is kept. *)
Definition sweep_aat_records realm (now_secs : Z) (fuel : nat) : io StorageError (option nat) :=
  sweep_prefix realm AAT_RECORD_PREFIX None
    (λ _ v, inr (match de_aat v with Some exp => then_some (exp <=? now_secs) tt | None => None end)) (λ k _, delete_row k) fuel.

Definition SAML_STATE_TTL_SECS : Z := 600.
Definition sweep_saml_states realm (now_secs : Z) (fuel : nat) : io StorageError (option nat) :=
  sweep_prefix realm SAML_STATE_PREFIX None
    (λ _ v, inr (match de_saml_state v with
                 | Some created_at => then_some (SAML_STATE_TTL_SECS <? sat_i64 (now_secs - Z.quot created_at 1000000)) tt
                 | None => None
                 end)) (λ k _, delete_row k) fuel.

(** The row goes when the row it names is absent; [get_uncached] reads like [get]. *)
Definition delete_orphan realm (key named : list byte) : prog Planned :=
  Call (Get realm named) (λ o,
    match o with
    | Ok (Some _) => Done ([], Ok false)
    | Ok None => delete_row key
    | Err e => Done ([], Err e)
    | Panic => Done ([], Panic)
    end).

Definition sweep_session_family_index realm (fuel : nat) : io StorageError (option nat) :=
  sweep_prefix realm SESSION_GRANT_FAMILY_PREFIX None (λ k _, inr (encode_grant_family <$> decode_session_grant_family_id k))
    (delete_orphan realm) fuel.
Definition sweep_session_parent_links realm (fuel : nat) : io StorageError (option nat) :=
  sweep_prefix realm SESSION_PARENT_PREFIX None (λ k _, inr (encode_session_id <$> decode_session_parent_key k)) (delete_orphan realm) fuel.

Definition SESSION_DELETE_GRACE_MICROS : Z := 3600 * 1000000.
Definition sweep_sessions realm (now : Z) (fuel : nat) : io StorageError (option nat) :=
  sweep_prefix realm SESSION_ID_PREFIX None
    (λ _ v, inr (match de_session v with
                 | Some (expires_at, user, session) =>
                     then_some (sat_i64 (expires_at + SESSION_DELETE_GRACE_MICROS) <=? now) (encode_user_session user session)
                 | None => None
                 end))
    (λ k index_key, Done ([k; index_key], Ok true)) fuel.

(** ** The sequence *)

(** [CleanupStats]; the engine sets [sessions_evicted] and [rate_trackers_pruned]
afterwards. *)
Record CleanupStats := MkStats {
  auth_codes_deleted : nat; device_codes_deleted : nat; pending_tickets_deleted : nat; grant_families_deleted : nat; par_requests_deleted : nat;
  jar_jtis_deleted : nat; dpop_jtis_deleted : nat; actor_jtis_deleted : nat; client_assertion_jtis_deleted : nat; saml_states_deleted : nat;
  saml_assertions_deleted : nat; oidc_nonces_deleted : nat; consumed_markers_deleted : nat; revoked_jtis_deleted : nat;
  session_family_rows_deleted : nat; session_parent_rows_deleted : nat; delegation_parent_rows_deleted : nat; aat_records_deleted : nat;
  sessions_evicted : nat; sessions_deleted : nat; rate_trackers_pruned : nat; errors : nat }.

(** [record]: a failed sweep counts as an error, and the next one runs. *)
Definition record {A} (m : io StorageError (option nat)) (errors : nat) (k : nat → nat → io StorageError (option A)) : io StorageError (option A) :=
  prog_bind m (λ r, match r with
    | Ok (Some n) => k n errors
    | Err _ => k 0%nat (S errors)
    | Ok None => Done (Ok None)
    | Panic => Done Panic
    end).

Definition sweep_expired realm (now : Z) (max_per_type fuel : nat) : io StorageError (option CleanupStats) :=
  let now_secs := Z.quot now 1000000 in
  record (sweep_auth_codes realm now max_per_type fuel) 0 (λ a e,
  record (sweep_device_codes realm now max_per_type fuel) e (λ b e,
  record (sweep_pending_tickets realm now max_per_type fuel) e (λ c e,
  record (sweep_grant_families de_family realm now fuel) e (λ d e,
  record (sweep_par_requests realm now max_per_type fuel) e (λ f e,
  record (sweep_jar_jtis realm now_secs fuel) e (λ g e,
  record (sweep_dpop_jtis realm now_secs fuel) e (λ h e,
  record (sweep_actor_jtis realm now_secs fuel) e (λ i e,
  record (sweep_client_assertion_jtis realm now_secs fuel) e (λ j e,
  record (sweep_saml_states realm now_secs fuel) e (λ u e,
  record (sweep_saml_assertions realm now_secs fuel) e (λ l e,
  record (sweep_oidc_nonces realm now_secs fuel) e (λ m e,
  record (sweep_consumed_markers realm now_secs fuel) e (λ n e,
  record (sweep_delegation_parent_index realm now_secs fuel) e (λ o e,
  record (sweep_aat_records realm now_secs fuel) e (λ p e,
  record (sweep_revoked_jtis realm now_secs fuel) e (λ q e,
  record (sweep_session_family_index realm fuel) e (λ r e,
  record (sweep_sessions realm now fuel) e (λ s e,
  record (sweep_session_parent_links realm fuel) e (λ t e,
  mret (Some (MkStats a b c d f g h i j u l m n q r t o p 0 s 0 e))))))))))))))))))))).
End sweeps.

(** ** One node *)

(** A call on a working store. *)
Definition exec_call {B} (c : call B) (rs : Rows) : B * Rows :=
  match c in call B return B * Rows with
  | Get r k => (rows_of rs r !! k, rs)
  | Scan_ r a b => (scan a b (rows_of rs r), rs)
  | PutIfAbsent r k v => match rows_of rs r !! k with Some _ => (false, rs) | None => (true, put_rows r [(k, v)] [] rs) end
  | Delete_ r k => (tt, put_rows r [] [k] rs)
  | WriteBatch r ps ds => (tt, put_rows r ps ds rs)
  end.
Fixpoint exec {A} (p : prog A) (rs : Rows) : A * Rows :=
  match p with
  | Done a => (a, rs)
  | Call c k => let '(b, rs') := exec_call c rs in exec (k (Ok b)) rs'
  end.
