(* ===== verification/CleanupProps.v ===== *)
(** * What the sweeps delete

The chunked walk deletes what one pass over the prefix would, and the sweeps of a realm
leave exactly the unexpired rows of every prefix of dated rows, whatever the other rows
of the realm hold. *)
From stdpp Require Import base list gmap strings sorting.
From Stdlib Require Import Strings.Byte ZArith Lia.
From S2P Require Import Prelude OrdMap StorageTypes OrdSet RealmRows RaftState RaftReplay RbacTypes RbacKeys RbacEngine SingleUse SingleUseRuns SingleUseSafe SingleUseProps Cleanup.

Open Scope Z_scope.

Implicit Types (realm r : RealmId) (k v : list byte) (rs : Rows) (s : Store) (rows : list ScanEntry).

Lemma exec_bind {A B} (m : prog A) (f : A → prog B) : ∀ rs, exec (prog_bind m f) rs = exec (f (exec m rs).1) (exec m rs).2.
Proof.
induction m as [a|C c kont IH]; intros rs; [done|]. cbn. destruct (exec_call c rs) as [b rs']. apply IH.
Qed.

(** ** One pass *)

(** The rows picked by one pass over [rows] with at most [n] of them, and the error that
ends it. *)
Fixpoint walk {T} (select : list byte → list byte → StorageError + option T) (n : option nat) (rows : list ScanEntry) :
    list (list byte * T) * option StorageError :=
  match n, rows with
  | Some O, _ | _, [] => ([], None)
  | _, x :: rows' =>
      match select (se_key x) (se_value x) with
      | inr (Some t) => let rest := walk select (pred <$> n) rows' in ((se_key x, t) :: rest.1, rest.2)
      | inr None => walk select n rows'
      | inl e => ([], Some e)
      end
  end.

Section walk.
Context {T : Type} (select : list byte → list byte → StorageError + option T).

Lemma walk_zero rows : walk select (Some 0%nat) rows = ([], None).
Proof. by destruct rows. Qed.

Lemma pick_rows_walk (chunk : nat) rows : ∀ picked, (length picked < chunk)%nat →
  pick_rows select chunk rows picked = (picked ++ (walk select (Some (chunk - length picked)%nat) rows).1, (walk select (Some (chunk - length picked)%nat) rows).2).
Proof.
induction rows as [|x rows IH]; intros picked Hlen; cbn [pick_rows].
{ cbn. destruct (chunk - length picked)%nat; by rewrite app_nil_r. }
destruct (chunk - length picked)%nat as [|n] eqn:Hn; [lia|]. cbn [walk].
destruct (select (se_key x) (se_value x)) as [e|[t|]]; [by rewrite app_nil_r| |].
- cbn [fmap option_fmap option_map pred fst snd]. rewrite length_app. cbn [length]. destruct (Nat.leb_spec chunk (length picked + 1)) as [Hle|Hlt].
  + assert (n = 0%nat) as -> by lia. by rewrite walk_zero.
  + rewrite IH by (rewrite length_app; cbn; lia). rewrite length_app. cbn [length]. replace (chunk - (length picked + 1))%nat with n by lia. by rewrite <-app_assoc.
- rewrite IH by done. by rewrite Hn.
Qed.

(** A budget with at least [c] left. *)
Definition at_least (c : nat) (n : option nat) : Prop := match n with None => True | Some l => (c <= l)%nat end.
Definition spend (n : option nat) (c : nat) : option nat := (λ l, (l - c)%nat) <$> n.

Lemma walk_short (n : option nat) rows : ∀ c, at_least c n → (length (walk select (Some c) rows).1 < c)%nat → walk select n rows = walk select (Some c) rows.
Proof.
revert n. induction rows as [|x rows IH]; intros n c Hc Hlt.
{ destruct n as [[|n]|], c; done. }
destruct c as [|c]; [cbn in Hlt; lia|]. destruct n as [[|n]|]; [cbn in Hc; lia|..]; cbn [walk] in *;
  destruct (select (se_key x) (se_value x)) as [e|[t|]]; cbn [fmap option_fmap option_map pred fst snd length] in *; try done.
- rewrite (IH (Some n) c); [done|cbn in *; lia|lia].
- by apply IH.
- rewrite (IH None c); [done|done|lia].
- by apply IH.
Qed.

(** A walk that used up its budget stopped at a row; the walk with a larger budget goes on
after it. *)
Lemma walk_full rows : ∀ (n : option nat) c, at_least (S c) n → (S c <= length (walk select (Some (S c)) rows).1)%nat →
  (walk select (Some (S c)) rows).2 = None ∧ length (walk select (Some (S c)) rows).1 = S c ∧
  ∃ l1 x l2 t, rows = l1 ++ x :: l2 ∧ last (walk select (Some (S c)) rows).1 = Some (se_key x, t) ∧
    (∀ kt, kt ∈ (walk select (Some (S c)) rows).1 → kt.1 ∈ se_key <$> l1 ++ [x]) ∧
    walk select n rows = ((walk select (Some (S c)) rows).1 ++ (walk select (spend n (S c)) l2).1, (walk select (spend n (S c)) l2).2).
Proof.
induction rows as [|x rows IH]; intros n c Hc Hlen; [cbn in Hlen; lia|]. cbn [walk] in Hlen |- *.
assert (∀ y : list ScanEntry, match n with Some O => ([], None) | _ => match select (se_key x) (se_value x) with
  | inr (Some t) => ((se_key x, t) :: (walk select (pred <$> n) y).1, (walk select (pred <$> n) y).2)
  | inr None => walk select n y | inl e => ([], Some e) end end = match select (se_key x) (se_value x) with
  | inr (Some t) => ((se_key x, t) :: (walk select (pred <$> n) y).1, (walk select (pred <$> n) y).2)
  | inr None => walk select n y | inl e => ([], Some e) end) as Hn by (intros; by destruct n as [[|]|]; [cbn in Hc; lia|..]).
rewrite Hn. clear Hn. destruct (select (se_key x) (se_value x)) as [e|[t|]]; cbn [fmap option_fmap option_map pred fst snd length] in *; [lia| |].
- destruct c as [|c].
  + rewrite walk_zero. cbn. split; [done|]. split; [done|]. exists [], x, rows, t. split; [done|]. split; [done|].
    split; [intros kt ->%list_elem_of_singleton; left|]. destruct n as [[|[|n]]|]; [cbn in Hc; lia|done..].
  + destruct (IH (pred <$> n) c) as (Hf & Hl & l1 & y & l2 & t' & -> & Hlast & Hin & Hw); [destruct n; cbn in *; [lia|done]|lia|].
    split; [done|]. split; [by f_equal|]. exists (x :: l1), y, l2, t'. split; [done|].
    split; [rewrite <-Hlast; by destruct (walk select (Some (S c)) _).1|]. split.
    * intros kt [->|?]%elem_of_cons; [left|]. right. by apply Hin.
    * rewrite Hw. replace (spend (pred <$> n) (S c)) with (spend n (S (S c))) by (destruct n as [[|]|]; done). done.
- destruct (IH n c) as (Hf & Hl & l1 & y & l2 & t' & -> & Hlast & Hin & Hw); [done..|]. split; [done|]. split; [done|].
  exists (x :: l1), y, l2, t'. split; [done|]. split; [done|]. split; [|done]. intros kt Hkt. right. by apply Hin.
Qed.
End walk.

(** ** Resuming *)

Lemma lexico_snoc_zero k k' : lexico k' (k ++ [x00]) ↔ ¬ lexico k k'.
Proof.
revert k'. induction k as [|b k IH]; intros [|b' k'].
- split; [by intros _ []|done].
- split; [|intros Hn; by destruct Hn]. intros [Hlt|[_ Hlt]]; cbn in Hlt; [|by destruct k']. exfalso. revert Hlt. clear. by destruct b'.
- split; [by intros _ []|done].
- assert (∀ (c c' : byte) (l l' : list byte), lexico (c :: l) (c' :: l') ↔ lexico c c' ∨ c = c' ∧ lexico l l') as Hcons by done.
  cbn [app]. rewrite !Hcons, IH. clear IH Hcons. split.
  + intros [Hlt|[Heq Hn]] [Hlt'|[Heq' Hk]]; subst; [|by apply (irreflexivity lexico) in Hlt|by apply (irreflexivity lexico) in Hlt'|done].
    apply (irreflexivity lexico b'). by transitivity b.
  + intros Hn. destruct (trichotomyT lexico b' b) as [[?| ->]|?]; [by left| |exfalso; apply Hn; by left]. right. split; [done|]. intros Hk. apply Hn. by right.
Qed.

Lemma in_window_after k (end_ k' : list byte) : in_window (k ++ [x00]) end_ k' = true ↔ lexico k k' ∧ ord_lt k' end_ = true.
Proof.
unfold in_window. rewrite andb_true_iff, negb_true_iff, <-not_true_iff_false, ord_lt_iff, lexico_snoc_zero. split; [|tauto].
intros [Hn ?]. split; [|done]. destruct (trichotomyT lexico k k') as [[?|Heq]|Hgt]; [done|exfalso..]; apply Hn; intros Hlt; subst.
- by apply (irreflexivity lexico) in Hlt.
- apply (irreflexivity lexico k). by transitivity k'.
Qed.

(** What follows a row of a scan is the scan after its key, also once rows up to it and
keys outside the window are deleted. *)
Lemma scan_resume (start end_ : list byte) s l1 x l2 (ds : list (list byte)) : scan start end_ s = l1 ++ x :: l2 →
  (∀ k, k ∈ ds → k ∈ se_key <$> l1 ++ [x] ∨ in_window start end_ k = false) → scan (se_key x ++ [x00]) end_ (delete_all ds s) = l2.
Proof.
intros Hs Hds. pose proof (scan_sorted start end_ s) as Hsort. rewrite Hs in Hsort.
assert (StronglySorted key_before l2 ∧ Forall (key_before x) l2) as [Hl2 Hx2].
{ clear Hs Hds. induction l1 as [|y l1 IH]; inversion Hsort; subst; [done|]. by apply IH. }
assert (∀ y, y ∈ l1 ++ [x] → y = x ∨ key_before y x) as Hl1.
{ clear Hs Hds Hl2 Hx2. induction l1 as [|z l1 IH]; intros y; [intros ->%list_elem_of_singleton; by left|]. inversion Hsort as [|? ? Hsub Hz]; subst.
  intros [->|Hy]%elem_of_cons; [|by apply IH]. right. rewrite list.Forall_forall in Hz. apply Hz, elem_of_app. right. left. }
apply scan_unique; [done|]. intros e. rewrite in_window_after, lookup_delete_all.
assert (e ∈ l1 ++ x :: l2 ↔ s !! se_key e = Some (se_value e) ∧ in_window start end_ (se_key e) = true) as He by (by rewrite <-Hs, elem_of_scan).
assert (∀ y, y ∈ l1 ++ [x] → y ∈ scan start end_ s) as Hin1.
{ intros y Hy. rewrite Hs. apply elem_of_app in Hy as [?| ->%list_elem_of_singleton]; apply elem_of_app; [by left|right; left]. }
split.
- intros Hin. rewrite list.Forall_forall in Hx2. specialize (Hx2 e Hin).
  assert (e ∈ l1 ++ x :: l2) as Hine by (apply elem_of_app; right; by right). apply He in Hine as [Hv Hw].
  split; [|split; [exact Hx2|by apply andb_true_iff in Hw as [_ ?]]]. rewrite decide_False; [done|]. intros [Hk|Hk]%Hds; [|congruence].
  apply list_elem_of_fmap in Hk as (y & Hk & Hy). unfold key_before in Hx2. rewrite Hk in Hx2. apply Hl1 in Hy as [->|Hy].
  + by apply (irreflexivity lexico) in Hx2.
  + apply (irreflexivity lexico (se_key y)). by transitivity (se_key x).
- intros (Hv & Hlt & Hend). case_decide; [done|].
  assert (in_window start end_ (se_key e) = true) as Hw.
  { unfold in_window. rewrite Hend, andb_true_r, negb_true_iff. assert (x ∈ scan start end_ s) as Hx by (apply Hin1, elem_of_app; right; left).
    apply elem_of_scan in Hx as [_ Hx]. unfold in_window in Hx. apply andb_true_iff in Hx as [Hx _]. rewrite negb_true_iff in Hx.
    eapply not_before_trans; [exact Hx|]. apply not_true_iff_false. rewrite ord_lt_iff. intros Hlt'. apply (irreflexivity lexico (se_key x)). by transitivity (se_key e). }
  assert (e ∈ l1 ++ x :: l2) as [Hin|[->|Hin]%elem_of_cons]%elem_of_app by (by apply He); [exfalso|exfalso|done].
  + destruct (Hl1 e) as [->|Hb]; [apply elem_of_app; by left|by apply (irreflexivity lexico) in Hlt|].
    apply (irreflexivity lexico (se_key e)). by transitivity (se_key x).
  + by apply (irreflexivity lexico) in Hlt.
Qed.

(** ** The sweep is one pass *)

Definition walk_result {T} (deleted : nat) (w : list (list byte * T) * option StorageError) : outcome StorageError (option nat) :=
  match w.2 with Some e => Err e | None => Ok (Some (deleted + length w.1)%nat) end.

(** The rows of a realm after deletions. *)
Definition deleted_rows rs realm (ds : list (list byte)) rs' : Prop :=
  ∀ r, rows_of rs' r = if decide (realm = r) then delete_all ds (rows_of rs realm) else rows_of rs r.

Lemma delete_all_app (ds ds' : list (list byte)) s : delete_all (ds ++ ds') s = delete_all ds' (delete_all ds s).
Proof. unfold delete_all. by rewrite foldl_app. Qed.

Lemma doomed_keys_app {T} (doomed : list byte → T → list (list byte)) (p p' : list (list byte * T)) :
  doomed_keys doomed (p ++ p') = doomed_keys doomed p ++ doomed_keys doomed p'.
Proof. unfold doomed_keys. by rewrite bind_app. Qed.

Section one_pass.
Context {T : Type} (select : list byte → list byte → StorageError + option T) (doomed : list byte → T → list (list byte)) (limit : option nat) (realm : RealmId) (end_ : list byte).

Lemma sweep_from_exec : ∀ fuel (start : list byte) (deleted : nat) rs, (length (scan start end_ (rows_of rs realm)) < fuel)%nat →
  (∀ k t k', k' ∈ doomed k t → k' = k ∨ in_window start end_ k' = false) →
  let w := walk select (spend limit deleted) (scan start end_ (rows_of rs realm)) in
  ∃ rs', exec (sweep_from select (λ k t, Done (doomed k t, Ok true)) limit realm start end_ deleted fuel) rs = (walk_result deleted w, rs') ∧
    deleted_rows rs realm (doomed_keys doomed w.1) rs'.
Proof.
induction fuel as [|fuel IH]; intros start deleted rs Hfuel Hdoom; [lia|]. cbv zeta. cbn [sweep_from].
set (chunk := sweep_chunk limit deleted). set (rows := scan start end_ (rows_of rs realm)) in *.
assert (at_least chunk (spend limit deleted)) as Hatl by (subst chunk; destruct limit as [l|]; cbn; [lia|done]).
destruct (Nat.eqb_spec chunk 0) as [Hz|Hz].
{ assert (spend limit deleted = Some 0%nat) as ->.
  { subst chunk. destruct limit as [l|]; cbn in Hz |- *; [|done]. unfold SWEEP_CHUNK in Hz. f_equal. lia. }
  rewrite walk_zero. exists rs. cbn. rewrite Nat.add_0_r. split; [done|]. intros r. by case_decide; subst. }
unfold mbind, io_bind, storage. cbn [prog_bind exec exec_call]. fold rows. rewrite pick_rows_walk by (cbn; lia). cbn [length app]. rewrite Nat.sub_0_r.
destruct chunk as [|c] eqn:Hch; [done|]. set (p := walk select (Some (S c)) rows) in *. rewrite plan_batch_pure. cbn [prog_bind app].
set (batch := doomed_keys doomed p.1).
(** The batch is written. *)
assert (∀ f : outcome StorageError unit → prog (outcome StorageError (option nat)), ∃ rs1, deleted_rows rs realm batch rs1 ∧
  exec (prog_bind match batch with [] => Done (Ok tt) | _ :: _ => Call (WriteBatch realm [] batch) Done end f) rs = exec (f (Ok tt)) rs1) as Hwrite.
{ intros f. destruct batch as [|b bs] eqn:Hb; cbn.
  - exists rs. split; [|done]. intros r. by case_decide; subst.
  - exists (put_rows realm [] (b :: bs) rs). split; [|done]. intros r. by rewrite rows_of_put. }
edestruct Hwrite as (rs1 & Hrs1 & Hex). setoid_rewrite Hex. clear Hwrite Hex. cbn [prog_bind].
destruct (decide (S c <= length p.1)%nat) as [Hfull|Hshort].
- destruct (walk_full select rows (spend limit deleted) c Hatl Hfull) as (Hf & Hlen & l1 & x & l2 & t & Hrows & Hlast & Hin & Hw). fold p in Hf, Hlen, Hlast, Hin, Hw.
  rewrite Hf, Hlast. cbn [fmap option_fmap option_map fst]. rewrite (proj2 (Nat.leb_le _ _) Hfull). rewrite Hw.
  assert (∀ k, k ∈ batch → k ∈ se_key <$> l1 ++ [x] ∨ in_window start end_ k = false) as Hbatch.
  { intros k (kt & Hk & Hkt)%list_elem_of_bind. apply Hdoom in Hk as [->|?]; [left; by apply Hin|by right]. }
  pose proof (scan_resume start end_ (rows_of rs realm) l1 x l2 batch Hrows Hbatch) as Hres.
  assert (rows_of rs1 realm = delete_all batch (rows_of rs realm)) as Hr1 by (by rewrite Hrs1, decide_True).
  destruct (IH (se_key x ++ [x00]) (deleted + (0 + length p.1))%nat rs1) as (rs' & Hex & Hdel).
  + rewrite Hr1, Hres. rewrite Hrows, length_app in Hfuel. cbn in Hfuel. lia.
  + intros k t' k' [?|Hk']%Hdoom; [by left|right]. unfold in_window in *. apply andb_false_iff in Hk' as [Hk'|Hk']; apply andb_false_iff; [left|by right].
    rewrite negb_false_iff in *. apply not_false_iff_true. intros Hn.
    assert (ord_lt (se_key x ++ [x00]) start = false) as Hst.
    { apply not_before_snoc. assert (x ∈ rows) as Hx by (rewrite Hrows; apply elem_of_app; right; left).
      apply elem_of_scan in Hx as [_ Hx]. by apply in_window_bounds in Hx as [? _]. }
    pose proof (not_before_trans _ _ _ Hst Hn). congruence.
  + rewrite Hr1, Hres in Hex, Hdel. replace (spend limit (deleted + (0 + length p.1))) with (spend (spend limit deleted) (S c)) in Hex, Hdel.
    2: { destruct limit as [l|]; cbn; [|done]. f_equal. lia. }
    exists rs'. rewrite Hex. split.
    * f_equal. unfold walk_result. cbn. destruct (walk select _ l2).2; [done|]. rewrite length_app. do 2 f_equal. lia.
    * intros r. rewrite Hdel. case_decide as Hr; [|by rewrite Hrs1, decide_False]. rewrite Hr1. cbn [fst]. by rewrite doomed_keys_app, delete_all_app.
- rewrite (walk_short select _ _ (S c) Hatl) by (fold p; lia). fold p. exists rs1. split; [|done]. unfold walk_result. destruct p.2 as [e|]; [done|].
  rewrite (proj2 (Nat.leb_gt _ _)) by lia. by destruct (last p.1) as [[]|].
Qed.

(** C22: The chunked sweep is one pass over its prefix: it deletes, in batches of at most
512 rows, exactly the rows that a single walk in key order selects, up to the limit and
up to the first row that does not decode, whose error it then returns; it ends, and its
count is theirs. *)
Theorem sweep_is_one_pass (prefix : list byte) rs (fuel : nat) : end_ = id_prefix_end prefix → (length (scan prefix end_ (rows_of rs realm)) < fuel)%nat →
  (∀ k t k', k' ∈ doomed k t → k' = k ∨ in_window prefix end_ k' = false) →
  let w := walk select limit (scan prefix end_ (rows_of rs realm)) in
  ∃ rs', exec (sweep_prefix realm prefix limit select (λ k t, Done (doomed k t, Ok true)) fuel) rs =
    (match w.2 with Some e => Err e | None => Ok (Some (length w.1)) end, rs') ∧
    ∀ r k, rows_of rs' r !! k = if decide (realm = r ∧ k ∈ doomed_keys doomed w.1) then None else rows_of rs r !! k.
Proof.
intros Hend Hfuel Hdoom w. destruct (sweep_from_exec fuel prefix 0 rs Hfuel Hdoom) as (rs' & Hex & Hdel).
replace (spend limit 0) with limit in Hex, Hdel by (destruct limit as [l|]; cbn; [f_equal; lia|done]). fold w in Hex, Hdel.
exists rs'. unfold sweep_prefix. rewrite <-Hend, Hex. split; [done|]. intros r k. rewrite Hdel. case_decide as Hr.
- rewrite lookup_delete_all. subst r. by repeat case_decide; try tauto.
- rewrite decide_False by tauto. done.
Qed.
End one_pass.
