(* ===== verification/CleanupExpired.v ===== *)
(** * The sequence of sweeps

[sweep_expired] ends, and leaves of every prefix of dated rows exactly the rows that are
not expired: a sweep that fails on another prefix does not stop it, and no sweep touches
the rows of another. *)
From stdpp Require Import base list gmap strings.
From Stdlib Require Import Strings.Byte ZArith Lia.
From S2P Require Import Prelude OrdMap StorageTypes OrdSet RealmRows RaftState RaftReplay RbacTypes RbacKeys RbacEngine SingleUse SingleUseRuns SingleUseSafe SingleUseProps Cleanup CleanupProps.

Open Scope Z_scope.

Implicit Types (realm r : RealmId) (k v : list byte) (rs : Rows) (s : Store) (rows : list ScanEntry).

(** ** Rows that a sweep may remove *)

(** Only rows of the realm with keys in [Q] are gone. *)
Definition pruned realm (Q : list byte → Prop) rs rs' : Prop :=
  ∀ r k, rows_of rs' r !! k = rows_of rs r !! k ∨ (r = realm ∧ Q k ∧ rows_of rs' r !! k = None).

Lemma pruned_refl realm (Q : list byte → Prop) rs : pruned realm Q rs rs.
Proof. intros r k. by left. Qed.
Lemma pruned_trans realm (Q : list byte → Prop) rs1 rs2 rs3 : pruned realm Q rs1 rs2 → pruned realm Q rs2 rs3 → pruned realm Q rs1 rs3.
Proof. intros H1 H2 r k. destruct (H2 r k) as [->|?]; [apply H1|by right]. Qed.
Lemma pruned_deletes realm (Q : list byte → Prop) rs (ds : list (list byte)) : Forall Q ds → pruned realm Q rs (put_rows realm [] ds rs).
Proof.
intros HQ r k. rewrite rows_of_put. case_decide as Hr; [|by left]. subst r. cbn. rewrite lookup_delete_all. case_decide as Hk; [|by left].
right. rewrite list.Forall_forall in HQ. auto.
Qed.
Lemma pruned_subseteq realm (Q : list byte → Prop) rs rs' : pruned realm Q rs rs' → ∀ r, rows_of rs' r ⊆ rows_of rs r.
Proof. intros Hp r. apply map_subseteq_spec. intros k v Hv. destruct (Hp r k) as [<-|(_ & _ & Hn)]; [done|congruence]. Qed.

(** ** Ends *)

Lemma scan_length_size (start end_ : list byte) s : (length (scan start end_ s) <= size s)%nat.
Proof.
rewrite <-(length_fmap se_key). assert (se_key <$> scan start end_ s ⊆+ elements (dom s)) as Hs.
{ apply NoDup_submseteq; [apply scan_nodup|]. intros k (e & -> & He)%list_elem_of_fmap. apply elem_of_scan in He as [He _].
  apply elem_of_elements, elem_of_dom. by eexists. }
apply submseteq_length in Hs. by rewrite <-size_dom.
Qed.

(** A scan that resumes after one of its rows, on fewer rows, is shorter. *)
Lemma scan_shrinks (start end_ : list byte) s s' x : s' ⊆ s → x ∈ scan start end_ s →
  (length (scan (se_key x ++ [x00]) end_ s') < length (scan start end_ s))%nat.
Proof.
intros Hsub Hx. enough (x :: scan (se_key x ++ [x00]) end_ s' ⊆+ scan start end_ s) as Hs%submseteq_length by (cbn in Hs; lia).
apply NoDup_submseteq.
- apply NoDup_cons. split; [|apply (NoDup_fmap_1 se_key), scan_nodup]. intros [_ [Hlt _]%in_window_after]%elem_of_scan. by apply (irreflexivity lexico) in Hlt.
- intros e [->|He]%elem_of_cons; [done|]. apply elem_of_scan in He as [Hv [Hlt Hend]%in_window_after]. apply elem_of_scan. split; [by eapply map_subseteq_spec|].
  unfold in_window. rewrite Hend, andb_true_r, negb_true_iff. apply elem_of_scan in Hx as [_ [Hx _]%in_window_bounds]. eapply not_before_trans; [exact Hx|].
  apply not_true_iff_false. rewrite ord_lt_iff. intros Hlt'. apply (irreflexivity lexico (se_key x)). by transitivity (se_key e).
Qed.

Definition ended (res : outcome StorageError (option nat)) : Prop := match res with Ok (Some _) | Err _ => True | _ => False end.

Section frame.
Context {T : Type} (select : list byte → list byte → StorageError + option T) (delete : list byte → T → prog Planned) (limit : option nat) (realm : RealmId)
  (pre end_ : list byte) (Q : list byte → Prop).
(** A row's deletion reads, and plans keys in [Q]. *)
Context (Hdel : ∀ k t v rs, in_window pre end_ k = true → select k v = inr (Some t) → ∃ ks o, exec (delete k t) rs = ((ks, o), rs) ∧ o ≠ Panic ∧ Forall Q ks).

Lemma plan_batch_exec (picked : list (list byte * T)) : ∀ batch removed failure rs, Forall Q batch →
  Forall (λ kt, in_window pre end_ kt.1 = true ∧ ∃ v, select kt.1 v = inr (Some kt.2)) picked →
  ∃ batch' removed' failure', exec (plan_batch delete picked batch removed failure) rs = (Ok (batch', removed', failure'), rs) ∧ Forall Q batch'.
Proof.
induction picked as [|[k t] picked IH]; intros batch removed failure rs HQ Hp; [by eexists _, _, _|]. apply Forall_cons in Hp as [(Hw & v & Hs) Hp].
cbn [plan_batch]. rewrite exec_bind. destruct (Hdel k t v rs Hw Hs) as (ks & o & -> & Ho & Hks). cbn [fst snd].
assert (Forall Q (batch ++ ks)) by (by apply Forall_app). destruct o as [[]|e|]; [by apply IH..| |done]. by eexists _, _, _.
Qed.

Lemma sweep_from_frame : ∀ fuel (start : list byte) (deleted : nat) rs, (length (scan start end_ (rows_of rs realm)) < fuel)%nat → ord_lt start pre = false →
  ∃ res rs', exec (sweep_from select delete limit realm start end_ deleted fuel) rs = (res, rs') ∧ ended res ∧ pruned realm Q rs rs'.
Proof.
induction fuel as [|fuel IH]; intros start deleted rs Hfuel Hstart; [lia|]. cbn [sweep_from]. set (chunk := sweep_chunk limit deleted). set (rows := scan start end_ (rows_of rs realm)) in *.
destruct (_ =? 0)%nat; [eexists _, rs; split; [done|split; [done|apply pruned_refl]]|].
unfold mbind, io_bind, storage. cbn [prog_bind exec exec_call]. fold rows. destruct (pick_rows select chunk rows []) as [picked failure] eqn:Hpick.
assert (Forall (λ kt, ∃ x, x ∈ rows ∧ kt.1 = se_key x ∧ select (se_key x) (se_value x) = inr (Some kt.2)) picked) as Hsel.
{ apply list.Forall_forall. intros kt Hkt. pose proof (pick_rows_selected select chunk rows [] kt) as Hs. rewrite Hpick in Hs.
  destruct (Hs Hkt) as [?%elem_of_nil|?]; done. }
rewrite exec_bind. destruct (plan_batch_exec picked [] 0 failure rs) as (batch & removed & failure' & -> & HQ); [done| |].
{ eapply Forall_impl; [exact Hsel|]. intros kt (x & Hx & Hkx & Hs). rewrite Hkx. split; [|by exists (se_value x)].
  apply elem_of_scan in Hx as [_ [Hx1 Hx2]%in_window_bounds]. unfold in_window. rewrite Hx2, andb_true_r, negb_true_iff. by eapply not_before_trans. }
cbn [fst snd]. rewrite exec_bind. unfold mret, io_ret.
set (written := exec match batch return io StorageError unit with [] => Done (Ok tt) | _ :: _ => Call (WriteBatch realm [] batch) Done end rs).
assert (written.1 = Ok tt ∧ pruned realm Q rs written.2) as [-> Hpr].
{ subst written. destruct batch; cbn; [split; [done|apply pruned_refl]|]. split; [done|]. by apply pruned_deletes. }
destruct failure'; [by eexists _, _|]. destruct (last picked) as [[k t]|] eqn:Hlast; cbn [fmap option_fmap option_map fst]; [|by eexists _, _].
destruct (_ <=? _)%nat; [|by eexists _, _].
rewrite list.Forall_forall in Hsel. destruct (Hsel (k, t)) as (x & Hx & Hkx & _); [by apply last_Some_elem_of|]. cbn in Hkx. subst k.
destruct (IH (se_key x ++ [x00]) (deleted + removed)%nat written.2) as (res & rs' & Hex & He & Hp).
- apply (Nat.lt_le_trans _ (length rows)); [|lia]. apply scan_shrinks; [by eapply pruned_subseteq|done].
- apply not_before_snoc. apply elem_of_scan in Hx as [_ [Hx _]%in_window_bounds]. by eapply not_before_trans.
- exists res, rs'. split; [done|]. split; [done|]. by eapply pruned_trans.
Qed.
End frame.

(** ** Prefixes *)

Definition apart (p q : list byte) : bool := negb (bool_decide (p `prefix_of` q)) && negb (bool_decide (q `prefix_of` p)).
Lemma apart_disjoint (p q : list byte) k : apart p q = true → p `prefix_of` k → q `prefix_of` k → False.
Proof.
unfold apart. rewrite andb_true_iff, !negb_true_iff, !bool_decide_eq_false. intros [H1 H2] Hp Hq. by destruct (prefix_weak_total p q k Hp Hq).
Qed.

(** A prefix that ends in a colon. *)
Definition keyspace (p : list byte) : Prop := last p = Some colon.
Lemma keyspace_window (p : list byte) k : keyspace p → in_window p (id_prefix_end p) k = true ↔ p `prefix_of` k.
Proof.
intros Hp. unfold in_window, id_prefix_end. rewrite andb_true_iff, negb_true_iff, <-not_true_iff_false, !ord_lt_iff. apply prefix_window. by exists colon.
Qed.

(** The prefixes whose rows are dated by eight bytes. *)
Definition dated_prefixes : list (list byte) :=
  [JAR_JTI_PREFIX; DPOP_JTI_PREFIX; ACTOR_JTI_PREFIX; CLIENT_ASSERTION_JTI_PREFIX; SAML_ASSERTION_PREFIX; OIDC_NONCE_PREFIX; CONSUMED_PREFIX;
   DELEGATION_GRANT_PARENT_PREFIX; REVOKED_JTI_PREFIX].
Definition undated (qs : list (list byte)) : bool := forallb (λ q, forallb (apart q) dated_prefixes) qs.
Lemma undated_apart (qs : list (list byte)) p q k : undated qs = true → q ∈ qs → p ∈ dated_prefixes → q `prefix_of` k → p `prefix_of` k → False.
Proof.
intros Hu Hq Hp. apply apart_disjoint. unfold undated in Hu. rewrite forallb_forall in Hu. specialize (Hu q ltac:(by apply list_elem_of_In)).
rewrite forallb_forall in Hu. by apply Hu, list_elem_of_In.
Qed.
Lemma dated_pairwise : forallb (λ p, forallb (λ q, bool_decide (p = q) || apart p q) dated_prefixes) dated_prefixes = true.
Proof. by vm_compute. Qed.
Lemma dated_disjoint (p q : list byte) k : p ∈ dated_prefixes → q ∈ dated_prefixes → p `prefix_of` k → q `prefix_of` k → p = q.
Proof.
intros Hp Hq Hpk Hqk. pose proof dated_pairwise as Hd. rewrite forallb_forall in Hd. specialize (Hd p ltac:(by apply list_elem_of_In)).
rewrite forallb_forall in Hd. specialize (Hd q ltac:(by apply list_elem_of_In)). apply orb_true_iff in Hd as [Hd|Hd]; [by apply bool_decide_eq_true in Hd|].
exfalso. by eapply apart_disjoint.
Qed.
Lemma dated_keyspace (p : list byte) : p ∈ dated_prefixes → keyspace p.
Proof. unfold dated_prefixes. rewrite !elem_of_cons, elem_of_nil. intros Hp. by repeat destruct Hp as [->|Hp]. Qed.

(** ** The rows left *)

(** The row of a dated key once the expired are gone. *)
Definition unexpired (now_secs : Z) (ov : option (list byte)) : option (list byte) :=
  v ← ov; if (zlen v =? 8) && (decode_i64 v <=? now_secs) then None else Some v.

Section sequence.
Context `{!RowDecoders, !UuidText, !UuidTextLaws}.
Context (realm : RealmId) (now_secs : Z) (fuel : nat) (rs0 : Rows).

(** Of the dated prefixes, those in [done] are swept and the others untouched. *)
Record sweeping (done : list (list byte)) rs : Prop := {
  sw_dated p k : p ∈ dated_prefixes → p `prefix_of` k →
    rows_of rs realm !! k = if decide (p ∈ done) then unexpired now_secs (rows_of rs0 realm !! k) else rows_of rs0 realm !! k;
  sw_less : rows_of rs realm ⊆ rows_of rs0 realm;
  sw_realms r : r ≠ realm → rows_of rs r = rows_of rs0 r
}.

Context (Hfuel : (size (rows_of rs0 realm) < fuel)%nat).

Lemma sweep_fuel (done : list (list byte)) rs (start end_ : list byte) : sweeping done rs → (length (scan start end_ (rows_of rs realm)) < fuel)%nat.
Proof.
intros Hs. eapply Nat.le_lt_trans; [|exact Hfuel]. etrans; [apply scan_length_size|]. apply map_subseteq_size, Hs.
Qed.

Lemma record_ended {A} (m : io StorageError (option nat)) (errs : nat) (kont : nat → nat → io StorageError (option A)) rs (res : outcome StorageError (option nat)) rs' (R : outcome StorageError (option A) * Rows → Prop) :
  exec m rs = (res, rs') → ended res → (∀ n e, R (exec (kont n e) rs')) → R (exec (record m errs kont) rs).
Proof. intros Hm He HR. unfold record. rewrite exec_bind, Hm. cbn. destruct res as [[n|]| |]; (done || apply HR). Qed.

(** A sweep of keys apart from the dated ones. *)
Lemma record_other {A T} (select : list byte → list byte → StorageError + option T) (delete : list byte → T → prog Planned) (limit : option nat) (p : list byte)
    (qs : list (list byte)) (errs : nat) (kont : nat → nat → io StorageError (option A)) (done : list (list byte)) rs (R : outcome StorageError (option A) * Rows → Prop) :
  undated qs = true →
  (∀ k t v rs, in_window p (id_prefix_end p) k = true → select k v = inr (Some t) →
     ∃ ks o, exec (delete k t) rs = ((ks, o), rs) ∧ o ≠ Panic ∧ Forall (λ k', ∃ q, q ∈ qs ∧ q `prefix_of` k') ks) →
  sweeping done rs → (∀ n e rs', sweeping done rs' → R (exec (kont n e) rs')) → R (exec (record (sweep_prefix realm p limit select delete fuel) errs kont) rs).
Proof.
intros Hu Hdel Hs HR. destruct (sweep_from_frame select delete limit realm p (id_prefix_end p) _ Hdel fuel p 0 rs) as (res & rs' & Hex & He & Hp).
- by eapply sweep_fuel.
- apply not_true_iff_false. rewrite ord_lt_iff. apply (irreflexivity lexico).
- eapply record_ended; [exact Hex|done|]. intros n e. apply HR. destruct Hs as [Hd Hl Hr]. constructor.
  + intros q k Hq Hk. rewrite <-(Hd q k Hq Hk). destruct (Hp realm k) as [?|(_ & (q' & Hq' & Hk') & _)]; [done|]. exfalso. by eapply undated_apart.
  + etrans; [by eapply pruned_subseteq|done].
  + intros r Hne. rewrite <-Hr by done. apply map_eq. intros k. by destruct (Hp r k) as [?|[? _]].
Qed.

Lemma walk_all {T} (select : list byte → list byte → StorageError + option T) rows : (∀ k v, ∃ o, select k v = inr o) →
  (walk select None rows).2 = None ∧
  ∀ k, k ∈ (walk select None rows).1.*1 ↔ ∃ x t, x ∈ rows ∧ se_key x = k ∧ select (se_key x) (se_value x) = inr (Some t).
Proof.
intros Hsel. induction rows as [|x rows [IH1 IH2]]; cbn.
{ split; [done|]. intros k. split; [by intros ?%elem_of_nil|by intros (x & t & ?%elem_of_nil & _)]. }
destruct (Hsel (se_key x) (se_value x)) as [[t|] Hx]; rewrite Hx; cbn; (split; [done|]); intros k.
- rewrite elem_of_cons, IH2. split.
  + intros [->|(y & t' & Hy & ?)]; [by exists x, t; split; [left|]|]. exists y, t'. split; [by right|done].
  + intros (y & t' & [->|Hy]%elem_of_cons & <- & ?); [by left|]. right. by exists y, t'.
- rewrite IH2. split.
  + intros (y & t' & Hy & ?). exists y, t'. split; [by right|done].
  + intros (y & t' & [->|Hy]%elem_of_cons & <- & ?); [congruence|]. by exists y, t'.
Qed.

(** The sweep of a dated prefix. *)
Lemma record_dated {A} (select : list byte → list byte → StorageError + option unit) (p : list byte) (errs : nat) (kont : nat → nat → io StorageError (option A))
    (done : list (list byte)) rs (R : outcome StorageError (option A) * Rows → Prop) :
  sweeping done rs → (∀ k v, select k v = select_le now_secs k v) → p ∈ dated_prefixes → p ∉ done →
  (∀ n e rs', sweeping (p :: done) rs' → R (exec (kont n e) rs')) →
  R (exec (record (sweep_prefix realm p None select (λ k _, delete_row k) fuel) errs kont) rs).
Proof.
intros Hs Hsel Hp Hnew HR. pose proof (dated_keyspace _ Hp) as Hks.
destruct (sweep_from_exec select (λ k _, [k]) None realm (id_prefix_end p) fuel p 0 rs) as (rs' & Hex & Hdel); [by eapply sweep_fuel|intros k t k' ->%list_elem_of_singleton; by left|].
destruct (walk_all select (scan p (id_prefix_end p) (rows_of rs realm))) as [Hf Hin]; [intros; rewrite Hsel; by eexists|].
assert (∀ w : list (list byte * unit), doomed_keys (λ k _, [k]) w = w.*1) as Hdk.
{ intros w. induction w as [|[k t] w IH]; [done|]. unfold doomed_keys in *. cbn. by rewrite IH. }
cbn in Hex, Hdel. rewrite Hdk in Hdel. eapply record_ended; [exact Hex|by unfold walk_result; rewrite Hf|]. intros n e. apply HR.
destruct Hs as [Hd Hl Hr]. assert (∀ k, rows_of rs' realm !! k = if decide (p `prefix_of` k) then unexpired now_secs (rows_of rs realm !! k) else rows_of rs realm !! k) as Hrows.
{ intros k. rewrite Hdel, decide_True, lookup_delete_all by done. case_decide as Hk.
  - apply Hin in Hk as (x & t & Hx & <- & Hxs). apply elem_of_scan in Hx as [Hv Hw]. apply keyspace_window in Hw; [|done]. rewrite decide_True, Hv by done. cbn.
    rewrite Hsel in Hxs. unfold select_le, then_some in Hxs. by destruct (_ && _).
  - case_decide as Hpk; [|done]. destruct (rows_of rs realm !! k) as [v|] eqn:Hv; [|done]. cbn. destruct (_ && _) eqn:Hexp; [|done].
    exfalso. apply Hk, Hin. exists (Scan k v), tt. split; [apply elem_of_scan; split; [done|by apply keyspace_window]|]. split; [done|]. rewrite Hsel. unfold select_le. cbn. by rewrite Hexp. }
constructor.
- intros q k Hq Hk. rewrite Hrows. case_decide as Hpk.
  + rewrite (dated_disjoint q p k) by done. rewrite (decide_True (P := p ∈ p :: done)) by left. by rewrite (Hd p k), decide_False.
  + rewrite (Hd q k) by done. assert (q ≠ p) by (by intros ->). destruct (decide (q ∈ done)) as [Hqd|Hqd].
    * by rewrite decide_True by (by right).
    * rewrite decide_False; [done|]. by intros [?|?]%elem_of_cons.
- etrans; [|exact Hl]. apply map_subseteq_spec. intros k v. rewrite Hrows. case_decide; [|done]. destruct (rows_of rs realm !! k) as [v'|]; cbn; [|done]. by destruct (_ && _).
- intros r Hne. by rewrite Hdel, decide_False, Hr.
Qed.
End sequence.

(** The deletions of the other sweeps. *)
Lemma deletes_own (p : list byte) (qs : list (list byte)) k rs : keyspace p → p ∈ qs → in_window p (id_prefix_end p) k = true →
  ∃ ks o, exec (delete_row k) rs = ((ks, o), rs) ∧ o ≠ Panic ∧ Forall (λ k', ∃ q, q ∈ qs ∧ q `prefix_of` k') ks.
Proof. intros Hp Hin Hw. exists [k], (Ok true). split; [done|]. split; [done|]. constructor; [|done]. exists p. split; [done|]. by apply keyspace_window. Qed.

Lemma deletes_with_index (p q : list byte) k index rs : keyspace p → in_window p (id_prefix_end p) k = true → q `prefix_of` index →
  ∃ ks o, exec (Done ([k; index], Ok true)) rs = ((ks, o) : Planned, rs) ∧ o ≠ Panic ∧ Forall (λ k', ∃ q', q' ∈ [p; q] ∧ q' `prefix_of` k') ks.
Proof.
intros Hp Hw Hq. exists [k; index], (Ok true). split; [done|]. split; [done|]. constructor; [exists p; split; [left|by apply keyspace_window]|].
constructor; [|done]. exists q. split; [right; left|done].
Qed.

Lemma deletes_orphan realm (p : list byte) k named rs : keyspace p → in_window p (id_prefix_end p) k = true →
  ∃ ks o, exec (delete_orphan realm k named) rs = ((ks, o), rs) ∧ o ≠ Panic ∧ Forall (λ k', ∃ q, q ∈ [p] ∧ q `prefix_of` k') ks.
Proof.
intros Hp Hw. unfold delete_orphan. cbn. destruct (rows_of rs realm !! named); cbn.
- by eexists [], (Ok false).
- exists [k], (Ok true). split; [done|]. split; [done|]. constructor; [|done]. exists p. split; [left|by apply keyspace_window].
Qed.

Lemma select_marker_le (now_secs : Z) k v : select_marker now_secs k v = select_le now_secs k v.
Proof. unfold select_marker, select_le, then_some. by destruct (_ =? _), (_ <=? _). Qed.

Lemma sweeping_all realm (now_secs : Z) rs0 (done : list (list byte)) rs : forallb (λ p, bool_decide (p ∈ done)) dated_prefixes = true →
  sweeping realm now_secs rs0 done rs → sweeping realm now_secs rs0 dated_prefixes rs.
Proof.
rewrite forallb_forall. intros Hall [Hd Hl Hr]. constructor; [|done|done]. intros p k Hp Hk. rewrite (Hd p k Hp Hk), (decide_True (P := p ∈ dated_prefixes)) by done.
rewrite decide_True; [done|]. apply (bool_decide_eq_true _), Hall, list_elem_of_In. exact Hp.
Qed.

(** The next sweep of a sequence, of undated or of dated keys. *)
Ltac other_sweep R qs := eapply (record_other _ _ _ _ ltac:(eassumption) _ _ _ _ qs _ _ _ _ R ltac:(by vm_compute)); [|eassumption|intros ? ? ? ?].
Ltac dated_sweep R := eapply (record_dated _ _ _ _ ltac:(eassumption) _ _ _ _ _ _ R);
  [eassumption|intros; first [reflexivity | apply select_marker_le]|apply (bool_decide_unpack _); by vm_compute|apply (bool_decide_unpack _); by vm_compute|intros ? ? ? ?].

Section sequence_ends.
Context `{!RowDecoders, !UuidText, !UuidTextLaws}.

(** C23: A cleanup pass over a realm ends, and leaves of every replay, nonce, revocation and
single-use key space exactly the rows that are undated or not yet expired: expired rows
of all of them go in the one pass, unexpired ones stay, whatever the other rows of the
realm hold and however many of the other sweeps fail on a row that does not decode. It
adds no row, and does not touch another realm. *)
Theorem sweep_expired_exact realm (now : Z) (max_per_type fuel : nat) rs0 : (size (rows_of rs0 realm) < fuel)%nat →
  ∃ stats rs', exec (sweep_expired realm now max_per_type fuel) rs0 = (Ok (Some stats), rs') ∧
    (∀ p k, p ∈ dated_prefixes → p `prefix_of` k → rows_of rs' realm !! k = unexpired (Z.quot now 1000000) (rows_of rs0 realm !! k)) ∧
    rows_of rs' realm ⊆ rows_of rs0 realm ∧ ∀ r, r ≠ realm → rows_of rs' r = rows_of rs0 r.
Proof.
intros Hfuel. set (now_secs := Z.quot now 1000000).
enough (∀ res : outcome StorageError (option CleanupStats) * Rows, exec (sweep_expired realm now max_per_type fuel) rs0 = res →
  ∃ stats, res.1 = Ok (Some stats) ∧ sweeping realm now_secs rs0 dated_prefixes res.2) as Hgoal.
{ destruct (exec _ rs0) as [o rs'] eqn:Hex. destruct (Hgoal _ eq_refl) as (stats & Hres & [Hd Hl Hr]). cbn in *. subst o. exists stats, rs'.
  split; [done|]. split; [|done]. intros p k Hp Hk. by rewrite (Hd p k Hp Hk), decide_True. }
intros res <-. assert (sweeping realm now_secs rs0 [] rs0) as Hs by done.
set (R := λ res : outcome StorageError (option CleanupStats) * Rows, ∃ stats, res.1 = Ok (Some stats) ∧ sweeping realm now_secs rs0 dated_prefixes res.2).
change (R (exec (sweep_expired realm now max_per_type fuel) rs0)). unfold sweep_expired. fold now_secs.
other_sweep R [OAUTH_CODE_PREFIX]; [intros; by apply (deletes_own OAUTH_CODE_PREFIX); [|left|]|].
other_sweep R [DEVICE_CODE_PREFIX; USER_CODE_PREFIX]; [intros; apply deletes_with_index; [done|done|by eexists]|].
other_sweep R [OAUTH_PENDING_AUTH_PREFIX]; [intros; by apply (deletes_own OAUTH_PENDING_AUTH_PREFIX); [|left|]|].
other_sweep R [GRANT_FAMILY_PREFIX; GRANT_FAMILY_REVOKED_PREFIX]; [intros; apply deletes_with_index; [done|done|by eexists]|].
other_sweep R [PAR_PREFIX]; [intros; by apply (deletes_own PAR_PREFIX); [|left|]|].
do 4 dated_sweep R.
other_sweep R [SAML_STATE_PREFIX]; [intros; by apply (deletes_own SAML_STATE_PREFIX); [|left|]|].
do 4 dated_sweep R.
other_sweep R [AAT_RECORD_PREFIX]; [intros; by apply (deletes_own AAT_RECORD_PREFIX); [|left|]|].
dated_sweep R.
other_sweep R [SESSION_GRANT_FAMILY_PREFIX]; [intros; by apply deletes_orphan|].
other_sweep R [SESSION_ID_PREFIX; SESSION_USER_PREFIX].
{ intros k index v rs Hw Hsel. apply deletes_with_index; [done|done|]. destruct (de_session v) as [[[x u] i]|]; [|done].
  unfold then_some in Hsel. destruct (_ <=? now); [|done]. injection Hsel as <-. by eexists. }
other_sweep R [SESSION_PARENT_PREFIX]; [intros; by apply deletes_orphan|].
eexists. split; [reflexivity|]. eapply sweeping_all; [|eassumption]. by vm_compute.
Qed.
End sequence_ends.
