(* ===== verification/CleanupScenarios.v ===== *)
(** * A cleanup pass

A realm with an authorization code that does not decode, an expired and a live replay
marker, and a marker without a date. *)
From stdpp Require Import base list gmap strings.
From Stdlib Require Import Strings.Byte ZArith Lia.
From S2P Require Import Prelude OrdMap StorageTypes OrdSet RealmRows RaftState RbacTypes RbacKeys RbacInstances SingleUse SingleUseSafe Cleanup CleanupProps CleanupExpired.

Open Scope Z_scope.

(** Records that never decode. *)
#[export] Instance no_records : RowDecoders := {|
  de_auth_code := λ _, None; de_device_code := λ _, None; de_pending := λ _, None; de_family := λ _, None; de_par := λ _, None;
  de_aat := λ _, None; de_saml_state := λ _, None; de_session := λ _, None |}.

Definition swept_realm : RealmId := replicate 16 x02.
Definition expired_jti : list byte := JAR_JTI_PREFIX ++ lit "a".
Definition expired_jti2 : list byte := JAR_JTI_PREFIX ++ lit "b".
Definition live_jti : list byte := JAR_JTI_PREFIX ++ lit "c".
Definition undated_jti : list byte := JAR_JTI_PREFIX ++ lit "d".
Definition bad_code : list byte := OAUTH_CODE_PREFIX ++ lit "x".
Definition realm_rows : Store := list_to_map
  [(expired_jti, encode_i64 10); (expired_jti2, encode_i64 11); (live_jti, encode_i64 12); (undated_jti, [x01]); (bad_code, [])].
Definition all_rows : Rows := {[swept_realm := realm_rows]}.

Lemma sweep_expired_exact_witness : ∃ stats rs', exec (sweep_expired swept_realm 11000000 1000 6) all_rows = (Ok (Some stats), rs') ∧
  rows_of rs' swept_realm !! expired_jti = None ∧ rows_of rs' swept_realm !! live_jti = Some (encode_i64 12) ∧
  rows_of rs' swept_realm !! undated_jti = Some [x01].
Proof.
destruct (sweep_expired_exact swept_realm 11000000 1000 6 all_rows) as (stats & rs' & Hex & Hrows & _); [apply Nat.ltb_lt; vm_compute; reflexivity|].
exists stats, rs'. split; [exact Hex|]. rewrite !(Hrows JAR_JTI_PREFIX) by (left || by eexists). repeat split; vm_compute; reflexivity.
Defined.

(** The code that does not decode is the one error of the pass. *)
Lemma bad_code_counted : (λ o, errors <$> match o with Ok (Some s) => Some s | _ => None end) (exec (sweep_expired swept_realm 11000000 1000 6) all_rows).1 = Some 1%nat.
Proof. by vm_compute. Qed.

(** A sweep limited to one row takes the first. *)
Lemma sweep_is_one_pass_witness : ∃ rs',
  exec (sweep_prefix swept_realm JAR_JTI_PREFIX (Some 1%nat) (select_le 11) (λ k _, Done ([k], Ok true)) 5) all_rows = (Ok (Some 1%nat), rs') ∧
  rows_of rs' swept_realm !! expired_jti = None ∧ rows_of rs' swept_realm !! expired_jti2 = Some (encode_i64 11).
Proof.
destruct (sweep_is_one_pass (select_le 11) (λ k _, [k]) (Some 1%nat) swept_realm (id_prefix_end JAR_JTI_PREFIX) JAR_JTI_PREFIX all_rows 5) as (rs' & Hex & Hrows).
- reflexivity.
- apply Nat.ltb_lt. vm_compute. reflexivity.
- intros k t k' ->%list_elem_of_singleton. by left.
- exists rs'. split; [rewrite Hex; f_equal; vm_compute; reflexivity|]. rewrite !Hrows. split; vm_compute; reflexivity.
Defined.
